(* ===== verification/_CoqProject ===== *)
-Q . S2P
Prelude.v
Machine.v
Params.v
Emission.v
Poseidon.v
TxTypes.v
TxWire.v
PagedSpend.v
PagedWire.v
Fees.v
BlockStream.v
Merkle.v
SlotState.v
SlotInv.v
SlotProps.v
SparseRoot.v
SparseRootProofs.v
ChainState.v
ChainStateInv.v
ExactTransition.v
ChainProps.v
BlockHeader.v
TxTree.v
ByteHash.v
ClientObjects.v
Consensus.v
Conflict.v
Block.v
BlockProps.v
Reorg.v
Difficulty.v
DifficultyProps.v
Work.v
ForkChoice.v
HeaderDag.v
HeaderDagProps.v
FlatField.v
GF128.v
FieldRing.v
Tower.v
Permutation.v
TowerWalk.v
Pow.v
Header.v
Multiproof.v
MultiproofProps.v
MultiproofUpdates.v
MultiproofPlan.v
BlockWire.v
Validation.v
Supply.v
ValidationProps.v
LedgerTypes.v
Allocator.v
EpochAnchor.v
Receipt.v
MintSlot.v
Template.v
TemplateProps.v
Bundle.v
Seal.v
HeaderAnchor.v
Mempool.v
MempoolProps.v
MempoolSelect.v
ChainView.v
Pool.v
PoolProps.v
