(* ===== verification/Prelude.v ===== *)
(** * Jetsam: a verification development of the consensus core

    Jetsam is a proof-of-work chain of unspent outputs.  Outputs live in
    numbered slots of a state vector whose sparse Merkle root every header
    states; a transaction is a group of fixed-layout pages that erases input
    slots and mints output slots; blocks travel with a recursive proof.  This
    development models the deterministic core that every node must compute
    alike - arithmetic, hashing, transactions, state, blocks, headers, fork
    choice, templates - and the pool of pending transactions in front of it.
    Paths below are relative to [src/jetsam_chain/src] unless a crate is named.

    ** How the parts fit together

    A wallet sends an intent (pages and an authorization).  The pool checks it
    against its view of the chain and keeps it; a miner selects groups from the
    pool and builds a template on the tip; the sealed block is sent as a bundle.
    A receiving node decodes the bundle, validates the header, validates the
    body, applies the block to the chain state and keeps an undo log for a
    reorganisation.  The header graph of the node keeps the validated headers above
    the finalized point and selects the tip to follow by cumulative work.  The
    theorems follow this path: what decodes, what is accepted, what state results, and that what
    one part produces the next part accepts.

    ** Files

    Foundations.
    - [Prelude] (this file): the error monad [result], [fault] for operations
      that may panic, the tactics and the [jetsam] hint databases, generic lemmas.
    - [Machine]: unsigned integers as [Z] with a width ([checked_*],
      [saturating_*], [wrapping_*], [as]) and little-endian byte strings.
    - [Params]: constants and activation heights of [consensus/params.rs].
    - [Merkle]: the reference Merkle root and the array representation of trees.

    Field and hash ([jetsam_core], [jetsam_poseidon2b]).
    - [FlatField], [GF128], [FieldRing]: [hardware.rs], GF(2^128) with its three
      multiplication back ends, proved a field.
    - [Tower]: the tower of binary fields and the change of basis.
    - [Permutation]: [native/permutation.rs]; [Poseidon], [ByteHash]: the sponge,
      compression and byte hashing; [TowerWalk]: the memory-hard digest.

    Transactions ([jetsam_tx]).
    - [TxTypes], [TxWire]: bodies, canonicality, hashes, encoding.
    - [PagedSpend], [PagedWire]: page groups, intents, their encodings.
    - [Fees], [Emission]: [consensus/fees.rs], [consensus/emission.rs],
      [consensus/development_allocation.rs].
    - [BlockStream]: the division of a block's pages into groups,
      [consensus/paged_spend.rs] and the layout checks of [block.rs].

    State.
    - [SlotState], [SlotInv], [SlotProps]: [segmented_state.rs], [fri_state.rs].
    - [SparseRoot], [SparseRootProofs]: [exact_state_hash.rs] and the root
      builders of [state.rs].
    - [ChainState], [ChainStateInv], [ExactTransition], [ChainProps]: [state.rs].
    - [Multiproof], [MultiproofProps], [MultiproofUpdates], [MultiproofPlan]:
      [sparse_merkle.rs].

    Blocks and headers.
    - [BlockHeader], [TxTree], [Block], [BlockWire], [BlockProps]:
      [block_header.rs], [tx_tree.rs], [block.rs], [consensus/da_prune.rs].
    - [Reorg]: the reversal of a block in [storage/mdbx_context.rs].
    - [Difficulty], [DifficultyProps], [Work], [ForkChoice]:
      [consensus/difficulty.rs], [consensus/fork_choice.rs].
    - [HeaderDag], [HeaderDagProps]: [networking/header_dag.rs] of the crate
      [jetsam_node], the graph of validated headers and the selection of the tip.
    - [Pow], [Header]: [consensus/pow.rs], [consensus/header.rs],
      [consensus/timestamps.rs], [consensus/slot_expansion.rs].
    - [EpochAnchor], [Receipt], [HeaderAnchor]: [consensus/epoch_anchor.rs],
      [consensus/receipt.rs], [header_anchor.rs].
    - [Consensus], [Conflict], [ClientObjects]:
      [consensus/mod.rs], [checks.rs], [conflict.rs], [ordering.rs],
      [client_objects.rs].
    - [Validation], [ValidationProps]: [consensus/validation.rs];
      [Supply], [LedgerTypes]: chains of accepted blocks.

    Production and transport.
    - [Allocator], [MintSlot], [Template], [TemplateProps], [Seal]:
      [consensus/allocator.rs], [consensus/template.rs].
    - [Bundle]: [history_step.rs], [accepted_block_bundle.rs] and the terminal
      size caps of [consensus/wire_limits.rs].

    Pending transactions.
    - [Mempool], [MempoolProps], [MempoolSelect]: [mempool.rs].
    - [ChainView], [Pool], [PoolProps]: the crate [jetsam_mempool].

    Records of the model carry the source's fields with a short prefix
    ([bh_height] for [BlockHeader::height]); operations keep their names, with
    the type in front where a name occurs twice ([Mempool_remove]).  A function
    that mutates its receiver returns the new value.  Hash maps are [gmap]s, and
    where the code iterates over one the order of the iteration is an argument,
    so the theorems hold for every order.

    ** What the theorems show

    - Money.  The emission schedule sums to exactly the cap
      ([Emission.total_emission_is_exactly_the_cap]); along every chain of blocks
      (of heights below [2^63]) the validator accepts, the circulating supply is the sum of the unspent
      outputs and never exceeds what was issued ([Supply.ledger_supply_invariant]);
      every live slot is well typed ([LedgerTypes.ledger_slots_typed]).  The
      live-slot counter is at most the number of live slots, not always equal: an
      all-zero input matches an empty slot and lowers it
      ([ChainProps.spend_of_empty_slot_accepted]).
    - State.  The segmented vector refines a finite map; transactions and blocks
      are accepted exactly when they are admissible and have exactly their effect
      on that map; the roots computed by streaming, by caching and by multiproofs
      are the reference root; reversal restores the parent ([SlotProps],
      [ChainProps], [BlockProps], [Reorg], [MultiproofProps]).
    - Acceptance rules.  The validators of page groups, page streams, headers,
      anchors and resources accept exactly the stated set, and validation never
      panics ([PagedSpend], [BlockStream], [Header], [EpochAnchor],
      [ValidationProps]).
    - Encodings.  Blocks and bundles decode exactly from their canonical bytes
      ([BlockWire], [Bundle]; bodies, pages, intents and the registry have the
      same theorem in their files).
    - Production.  A template is a block the validator accepts with the state the
      builder computed, and sealing it yields a bundle receivers decode
      ([TemplateProps], [Seal], [MintSlot]).
    - Pool.  Submission, blocks and reorganisations keep the pool consistent, a
      submission admits only verified groups the next block may carry, a new
      block leaves exactly the groups that are still valid, and selection is
      greedy by fee rate ([PoolProps], [MempoolProps], [MempoolSelect]).  Two
      theorems state where the pool falls short: a selection may exceed a block's
      input capacity, and a notice of a reorganisation leaves the slots of the
      transactions it removes reserved.
    - Consensus.  Difficulty is bounded and monotone, cumulative work is the
      stated sum, the nonce search finds the first solution, and the tip the header
      graph selects is the best one above the finalized point and depends on that
      point and the headers held only ([DifficultyProps], [ForkChoice], [Pow],
      [HeaderDagProps]).
    - Arithmetic and hashing.  The multiplication back ends agree, the two bases
      are isomorphic, the fast permutation is the published schedule, and the
      sponge computes the reference hash however its input is cut ([GF128],
      [Tower], [Permutation], [Poseidon]).

    Statements about hashes never assume that there are no collisions: they
    conclude with an explicit colliding pair where one would be needed.

    ** Parameters, bounds and fuel

    - [Poseidon2bPermutation] is the four-lane permutation as the sponge uses it;
      [Permutation] gives the real one.  [SegmentCommitment] is the polynomial
      commitment of one segment.  The segment store, the authorization verifier
      and the client view of a terminal are arguments.  Witnesses use small
      concrete instances.
    - Definitions follow the public profile: the test-network and rehearsal
      features are off, [usize] has 64 bits.
    - Loops over lists recurse on the list.  Other loops have fuel: the number of
      pages for the division of a stream ([scan_groups]), the width of the word
      for the bit loop ([clmul_loop]), the height of the tree for walks in it
      ([update_path], [ancestors], [root_loop], [path_loop]), the number of nonces
      for the search ([search_loop]), the number of zero blocks a run can need for
      the streaming builder ([fill_loop]), and in the header graph the height for the
      walks along an ancestry ([climb_to], [path_walk], [common_loop],
      [collect_ancestry_hashes], [held_path]) and the number of headers for the
      removal of branches ([descend], [forget_loop]).  Each bounds the number of iterations,
      and the theorems state the result itself, so the fuel is enough.

    ** Not modelled

    - The proof systems (FRI, GKR, the recursive argument), the transcript and
      the transform they use: cryptographic protocols whose correctness is
      probabilistic.  Proof bytes are opaque.
    - The rules of blocks that carry client objects, which verify client proofs;
      the objects, their encoding, the registry and the rule for plain
      transactions are modelled.
    - The database (a third-party library), the network, remote procedure calls,
      the node's tasks other than the header graph, wallet and user interfaces:
      input and output around the core.  Locks, semaphores and the event channel of the pool are represented
      by the order of the steps and the list of events.
    - Vectorised kernels of the hash and of the leaf hashing, which must agree
      with the scalar code that is modelled.
    - Texts inside errors and the test-only code. *)

From Stdlib Require Export ZArith Lia ZifyBool.
From stdpp Require Export base decidable option list numbers gmap sets sorting.

#[global] Open Scope Z_scope.

(** ** The error monad

    [Result<A, E>] of the code.  [Ok] and [Err] are the constructors of the
    source; [x ← m; k] is the [?] operator. *)

Inductive result (E A : Type) : Type :=
  | Ok (a : A)
  | Err (e : E).

Arguments Ok {E A} a.
Arguments Err {E A} e.

#[global] Instance result_eq_dec {E A} `{EqDecision E, EqDecision A} :
  EqDecision (result E A).
Proof. solve_decision. Defined.

#[global] Instance result_ret {E} : MRet (result E) := λ A, Ok.

#[global] Instance result_bind {E} : MBind (result E) := λ A B f m,
  match m with
  | Ok a => f a
  | Err e => Err e
  end.

(** [Option::ok_or]. *)
Definition ok_or {E A} (o : option A) (e : E) : result E A :=
  match o with
  | Some a => Ok a
  | None => Err e
  end.

(** [Result::map_err]. *)
Definition map_err {E F A} (f : E → F) (m : result E A) : result F A :=
  match m with
  | Ok a => Ok a
  | Err e => Err (f e)
  end.

(** [Result::ok]. *)
Definition result_ok {E A} (m : result E A) : option A :=
  match m with
  | Ok a => Some a
  | Err _ => None
  end.

(** [Iterator::try_fold]: a [for] loop whose body may return early. *)
Fixpoint try_fold {E A B} (f : A → B → result E A) (acc : A) (l : list B) : result E A :=
  match l with
  | [] => Ok acc
  | x :: l' => acc' ← f acc x; try_fold f acc' l'
  end.

(** A [for] loop that only checks. *)
Fixpoint try_for_each {E B} (f : B → result E unit) (l : list B) : result E unit :=
  match l with
  | [] => Ok tt
  | x :: l' => _ ← f x; try_for_each f l'
  end.

(** Operations that may panic: a failed [expect], [unwrap], [assert!] or
    vector access is [Panic], an error the code returns is [Fail]. *)
Inductive fault (E : Type) : Type :=
  | Panic
  | Fail (e : E).

Arguments Panic {E}.
Arguments Fail {E} e.

#[global] Instance fault_eq_dec {E} `{EqDecision E} : EqDecision (fault E).
Proof. solve_decision. Defined.

Definition expect {E A} (o : option A) : result (fault E) A := ok_or o Panic.

(** [vec[i]] and [vec[i] = x]; out of range they panic. *)
Definition vec_get {A} (l : list A) (i : Z) : option A :=
  if i <? 0 then None else l !! Z.to_nat i.

Definition vec_set {A} (l : list A) (i : Z) (x : A) : option (list A) :=
  if (0 <=? i) && (i <? Z.of_nat (length l)) then Some (<[Z.to_nat i := x]> l) else None.

Section result_lemmas.
  Context {E : Type}.

Lemma bind_Ok {A B} (m : result E A) (f : A → result E B) b :
  (m ≫= f) = Ok b ↔ ∃ a, m = Ok a ∧ f a = Ok b.
Proof. destruct m; cbn; naive_solver. Qed.

Lemma bind_unit_Ok {B} (m : result E unit) (k : unit → result E B) b :
  (m ≫= k) = Ok b ↔ m = Ok tt ∧ k tt = Ok b.
Proof. destruct m as [[]|]; cbn; [tauto|]. split; [done|by intros []]. Qed.

Lemma ok_or_Ok {A} (o : option A) (e : E) a : ok_or o e = Ok a ↔ o = Some a.
Proof. destruct o; cbn; naive_solver. Qed.

Lemma expect_Ok {A} (o : option A) a : expect (E := E) o = Ok a ↔ o = Some a.
Proof. unfold expect. destruct o; cbn; naive_solver. Qed.

Lemma map_err_Ok {F A} (f : E → F) (m : result E A) a : map_err f m = Ok a ↔ m = Ok a.
Proof. destruct m; cbn; naive_solver. Qed.

Lemma if_err_Ok {A} (b : bool) (e : E) (m : result E A) a :
  (if b then Err e else m) = Ok a ↔ b = false ∧ m = Ok a.
Proof. destruct b; naive_solver. Qed.

Lemma if_ok_Ok {A} (b : bool) (e : E) (m : result E A) a :
  (if b then m else Err e) = Ok a ↔ b = true ∧ m = Ok a.
Proof. destruct b; naive_solver. Qed.

Lemma try_fold_app {A B} (f : A → B → result E A) acc l1 l2 :
  try_fold f acc (l1 ++ l2) = (acc' ← try_fold f acc l1; try_fold f acc' l2).
Proof.
  revert acc; induction l1 as [|x l1 IH]; intros acc; cbn; [done|].
  destruct (f acc x) as [a|e]; cbn; [apply IH|done].
Qed.

Lemma try_fold_fmap {A B C} (f : A → B → result E A) (g : C → B) acc l :
  try_fold f acc (g <$> l) = try_fold (λ a c, f a (g c)) acc l.
Proof.
  revert acc; induction l as [|x l IH]; intros acc; cbn; [done|].
  destruct (f acc (g x)); cbn; [apply IH|done].
Qed.

Lemma try_fold_ext {A B} (f g : A → B → result E A) acc l :
  (∀ a x, f a x = g a x) → try_fold f acc l = try_fold g acc l.
Proof.
  intros Hfg. revert acc; induction l as [|x l IH]; intros acc; cbn; [done|].
  rewrite Hfg. destruct (g acc x); cbn; [apply IH|done].
Qed.

(** A loop invariant indexed by the elements already visited. *)
Lemma try_fold_invariant {A B} (P : list B → A → Prop) (f : A → B → result E A) acc l acc' :
  P [] acc →
  (∀ done x a a', P done a → x ∈ l → f a x = Ok a' → P (done ++ [x]) a') →
  try_fold f acc l = Ok acc' →
  P l acc'.
Proof.
  intros H0 Hstep.
  enough (Hgen : ∀ todo done a, (∀ x, x ∈ todo → x ∈ l) → P done a →
            try_fold f a todo = Ok acc' → P (done ++ todo) acc').
  { intros H. apply (Hgen l [] acc); auto. }
  induction todo as [|x todo IH]; intros dn a Hin HP Hf; cbn in Hf.
  - rewrite app_nil_r. congruence.
  - apply bind_Ok in Hf as (a' & Hfx & Hrest).
    replace (dn ++ x :: todo) with ((dn ++ [x]) ++ todo) by (rewrite <- app_assoc; done).
    eapply IH; [|eapply Hstep; eauto|done]; set_solver.
Qed.

Lemma try_fold_each {A B} (f : A → B → result E A) acc l acc' x :
  try_fold f acc l = Ok acc' → x ∈ l → ∃ a a', f a x = Ok a'.
Proof.
  revert acc. induction l as [|y l IH]; intros acc Hf Hx; [by apply not_elem_of_nil in Hx|].
  cbn in Hf. apply bind_Ok in Hf as (a & Ha & Hf). apply elem_of_cons in Hx as [->|Hx]; [by exists acc, a|by apply (IH a)].
Qed.

(** A loop whose every iteration succeeds from an invariant succeeds. *)
Lemma try_fold_total {A B} (P : list B → A → Prop) (f : A → B → result E A) acc l :
  P [] acc →
  (∀ done x a, P done a → (∃ todo, l = done ++ x :: todo) →
     ∃ a', f a x = Ok a' ∧ P (done ++ [x]) a') →
  ∃ acc', try_fold f acc l = Ok acc' ∧ P l acc'.
Proof.
  intros H0 Hstep.
  enough (Hgen : ∀ todo done a, l = done ++ todo → P done a →
            ∃ acc', try_fold f a todo = Ok acc' ∧ P (done ++ todo) acc').
  { apply (Hgen l [] acc); auto. }
  induction todo as [|x todo IH]; intros dn a Hl HP; cbn.
  - exists a. rewrite app_nil_r. auto.
  - destruct (Hstep dn x a HP) as (a' & Hf & HP'); [eauto|]. rewrite Hf; cbn.
    replace (dn ++ x :: todo) with ((dn ++ [x]) ++ todo) in * by (rewrite <- app_assoc; done).
    apply IH; auto.
Qed.

Lemma try_for_each_Ok {B} (f : B → result E unit) l :
  try_for_each f l = Ok tt ↔ Forall (λ x, f x = Ok tt) l.
Proof.
  induction l as [|x l IH]; cbn; [by split; constructor|].
  rewrite Forall_cons, <- IH. destruct (f x) as [[]|e]; cbn; [tauto|].
  split; [done|by intros []].
Qed.

End result_lemmas.

(** ** Tactics

    [res_inv] inverts every hypothesis that says a monadic expression
    succeeded; [deex] opens existentials and conjunctions. *)

Ltac deex :=
  repeat match goal with
  | H : ∃ _, _ |- _ => destruct H as (? & H)
  | H : _ ∧ _ |- _ => destruct H
  end.

Ltac res_inv1 :=
  match goal with
  | H : (_ ≫= _) = Ok _ |- _ => apply bind_Ok in H; destruct H as (? & ? & H)
  | H : ok_or _ _ = Ok _ |- _ => apply ok_or_Ok in H
  | H : map_err _ _ = Ok _ |- _ => apply map_err_Ok in H
  | H : (if ?b then Err _ else _) = Ok _ |- _ => apply if_err_Ok in H; destruct H as [? H]
  | H : (if ?b then _ else Err _) = Ok _ |- _ => apply if_ok_Ok in H; destruct H as [? H]
  | H : Ok _ = Ok _ |- _ => injection H as H
  | H : Err _ = Ok _ |- _ => discriminate H
  | H : Ok _ = Err _ |- _ => discriminate H
  | H : try_for_each _ _ = Ok ?u |- _ => destruct u; apply try_for_each_Ok in H
  end.

Ltac res_inv := repeat res_inv1; subst.

Ltac bool_inv :=
  repeat match goal with
  | H : _ && _ = true |- _ => apply andb_true_iff in H; destruct H
  | H : _ || _ = false |- _ => apply orb_false_iff in H; destruct H
  | H : negb _ = true |- _ => apply negb_true_iff in H
  | H : negb _ = false |- _ => apply negb_false_iff in H
  | H : bool_decide _ = true |- _ => apply bool_decide_eq_true in H
  | H : bool_decide _ = false |- _ => apply bool_decide_eq_false in H
  end.

(** ** Hash sets

    [if !set.insert(x) { return Err(e) }]: insertion of a key that must be
    fresh. *)

Definition insert_fresh {E} (e : E) (s : gset Z) (x : Z) : result E (gset Z) :=
  if decide (x ∈ s) then Err e else Ok ({[x]} ∪ s).

Lemma insert_fresh_Ok {E} (e : E) s x s' :
  insert_fresh e s x = Ok s' ↔ x ∉ s ∧ s' = {[x]} ∪ s.
Proof. unfold insert_fresh. case_decide; naive_solver. Qed.

Lemma try_fold_insert_fresh {E A} (e : A → E) (f : A → Z) s0 l s :
  try_fold (λ s a, insert_fresh (e a) s (f a)) s0 l = Ok s ↔
  NoDup (f <$> l) ∧ (∀ x, x ∈ f <$> l → x ∉ s0) ∧ s = list_to_set (f <$> l) ∪ s0.
Proof.
  revert s0; induction l as [|a l IH]; intros s0; cbn.
  - split; [intros [= ->]|intros (_ & _ & ->)]; [split_and!|f_equal]; set_solver by constructor.
  - rewrite bind_Ok, NoDup_cons. split.
    + intros (s1 & Hi & Hl). apply insert_fresh_Ok in Hi as [Hna ->].
      apply IH in Hl as (Hnd & Hfr & ->). set_solver.
    + intros ([Hna Hnd] & Hfr & ->). exists ({[f a]} ∪ s0).
      rewrite insert_fresh_Ok, IH. set_solver.
Qed.

(** ** Vectors *)

Lemma vec_get_Some {A} (l : list A) i x :
  vec_get l i = Some x ↔ 0 ≤ i ∧ l !! Z.to_nat i = Some x.
Proof. unfold vec_get. destruct (Z.ltb_spec i 0); [split; [done|lia]|]. tauto. Qed.

Lemma vec_get_bounds {A} (l : list A) i x : vec_get l i = Some x → 0 ≤ i < Z.of_nat (length l).
Proof. intros [? Hl]%vec_get_Some. apply lookup_lt_Some in Hl. lia. Qed.

Lemma vec_get_in_range {A} (l : list A) i : 0 ≤ i < Z.of_nat (length l) → ∃ x, vec_get l i = Some x.
Proof.
  intros Hi. destruct (lookup_lt_is_Some_2 l (Z.to_nat i)) as [x Hx]; [lia|].
  exists x. apply vec_get_Some. split; [lia|done].
Qed.

Lemma vec_set_in_range {A} (l : list A) i x :
  0 ≤ i < Z.of_nat (length l) → vec_set l i x = Some (<[Z.to_nat i := x]> l).
Proof. intros. unfold vec_set. destruct (Z.leb_spec 0 i), (Z.ltb_spec i (Z.of_nat (length l))); (done || lia). Qed.

Lemma vec_get_insert {A} (l : list A) i j x :
  0 ≤ i < Z.of_nat (length l) → 0 ≤ j →
  vec_get (<[Z.to_nat i := x]> l) j = if decide (i = j) then Some x else vec_get l j.
Proof.
  intros Hi Hj. unfold vec_get. destruct (Z.ltb_spec j 0); [lia|]. case_decide as Hij; [subst|].
  - apply list_lookup_insert_eq. lia.
  - apply list_lookup_insert_ne. lia.
Qed.

(** ** Fresh slots *)

(** [l] has no duplicates and avoids [s]. *)
Definition fresh (s : gset Z) (l : list Z) : Prop := NoDup l ∧ ∀ x, x ∈ l → x ∉ s.

Lemma fresh_nil s : fresh s [].
Proof. split; [constructor|set_solver]. Qed.

Lemma fresh_empty l : fresh ∅ l ↔ NoDup l.
Proof. unfold fresh. set_solver. Qed.

Lemma fresh_app s l m : fresh s (l ++ m) ↔ fresh s l ∧ fresh (list_to_set l ∪ s) m.
Proof. unfold fresh. rewrite NoDup_app. set_solver. Qed.

Lemma NoDup_app_disjoint (l m : list Z) :
  NoDup (l ++ m) ↔ NoDup l ∧ NoDup m ∧ (list_to_set l ∪ ∅ : gset Z) ## list_to_set m ∪ ∅.
Proof. rewrite NoDup_app. set_solver. Qed.

(** ** Sums over lists of integers *)

Definition sum_Z (l : list Z) : Z := foldr Z.add 0 l.

Lemma sum_Z_app l1 l2 : sum_Z (l1 ++ l2) = sum_Z l1 + sum_Z l2.
Proof. induction l1 as [|x l1 IH]; unfold sum_Z in *; cbn; lia. Qed.

Lemma sum_Z_nonneg l : Forall (λ x, 0 ≤ x) l → 0 ≤ sum_Z l.
Proof. induction 1; unfold sum_Z in *; cbn; lia. Qed.

Lemma sum_Z_le {A} (f g : A → Z) l :
  Forall (λ x, f x ≤ g x) l → sum_Z (f <$> l) ≤ sum_Z (g <$> l).
Proof. induction 1; unfold sum_Z in *; cbn; lia. Qed.

Lemma sum_Z_Permutation l1 l2 : l1 ≡ₚ l2 → sum_Z l1 = sum_Z l2.
Proof. induction 1; unfold sum_Z in *; cbn in *; lia. Qed.

Lemma sum_Z_const {A} (f : A → Z) (r : Z) l :
  Forall (λ x, f x = r) l → sum_Z (f <$> l) = Z.of_nat (length l) * r.
Proof. induction 1; unfold sum_Z in *; cbn -[Z.of_nat]; lia. Qed.

(** ** Enumerated lists: [iter().enumerate()] *)

Lemma Forall_imap_pair {A} (P : nat * A → Prop) l :
  Forall P (imap pair l) ↔ ∀ i x, l !! i = Some x → P (i, x).
Proof.
  rewrite Forall_lookup. split; intros H i x Hx.
  - apply (H i). rewrite list_lookup_imap, Hx. done.
  - rewrite list_lookup_imap in Hx. destruct (l !! i) eqn:Hl; naive_solver.
Qed.

Lemma length_filter_enum {A} (f : nat → bool) (l : list A) :
  Z.of_nat (length (filter (λ p, Is_true (f (fst p))) (imap pair l))) =
  sum_Z ((λ i, Z.b2z (f i)) <$> seq 0 (length l)).
Proof.
  induction l as [|x l IH] using rev_ind; [done|].
  rewrite imap_app, filter_app, !length_app, Nat2Z.inj_add, IH.
  rewrite seq_app, fmap_app, sum_Z_app. f_equal.
  cbn [length imap seq fmap list_fmap]. rewrite filter_cons, filter_nil.
  cbn [compose fst]. rewrite Nat.add_0_r, Nat.add_0_l.
  destruct (f (length l)); [rewrite decide_True by done|rewrite decide_False by (intros [])];
    reflexivity.
Qed.

Lemma elem_of_filter_enum {A} (f : nat → bool) (l : list A) i x :
  (i, x) ∈ filter (λ p, Is_true (f (fst p))) (imap pair l) ↔ l !! i = Some x ∧ f i = true.
Proof.
  rewrite list_elem_of_filter, elem_of_lookup_imap. cbn. rewrite Is_true_true. naive_solver.
Qed.

Lemma imap_pair_snd {A} (l : list A) : snd <$> imap pair l = l.
Proof.
  rewrite fmap_imap. induction l as [|x l IH] using rev_ind; [done|].
  rewrite imap_app, IH. done.
Qed.

Lemma filter_fmap_comm {A B} (f : A → B) (P : B → bool) (l : list A) :
  filter (λ y, Is_true (P y)) (f <$> l) = f <$> filter (λ x, Is_true (P (f x))) l.
Proof.
  induction l as [|x l IH]; [done|]. rewrite fmap_cons, !filter_cons, IH.
  case_decide; done.
Qed.

(** ** Dense flags: every live entry precedes every dead one *)

Definition dense (flags : list bool) : Prop :=
  ∃ n m, flags = replicate n true ++ replicate m false.

Lemma fmap_replicate_Forall {A} (f : A → bool) (b : bool) l :
  f <$> l = replicate (length l) b ↔ Forall (λ a, f a = b) l.
Proof.
  induction l as [|x l IH]; cbn; [by split; constructor|]. rewrite Forall_cons, <- IH.
  split; [intros [= -> ->]; done|intros [-> ->]; done].
Qed.

Lemma dense_split {A} (live : A → bool) (l : list A) :
  dense (live <$> l) ↔
  ∃ l1 l2, l = l1 ++ l2 ∧ Forall (λ a, live a = true) l1 ∧ Forall (λ a, live a = false) l2.
Proof.
  split.
  - intros (n & m & Hf). apply fmap_app_inv in Hf as (l1 & l2 & Hn & Hm & ->).
    assert (length l1 = n) as <- by (rewrite <- (length_fmap live), <- Hn; apply length_replicate).
    assert (length l2 = m) as <- by (rewrite <- (length_fmap live), <- Hm; apply length_replicate).
    exists l1, l2. rewrite <- !fmap_replicate_Forall. done.
  - intros (l1 & l2 & -> & H1 & H2). exists (length l1), (length l2).
    rewrite <- !fmap_replicate_Forall in *. rewrite fmap_app. congruence.
Qed.

Lemma filter_dense {A} (live : A → bool) l1 l2 :
  Forall (λ a, live a = true) l1 → Forall (λ a, live a = false) l2 →
  filter (λ a, Is_true (live a)) (l1 ++ l2) = l1.
Proof.
  intros H1 H2. rewrite filter_app. induction H1 as [|a l1 Ha H1 IH]; cbn [app].
  - induction H2 as [|a l2 Ha H2 IH]; [done|]. rewrite filter_nil in *.
    rewrite filter_cons, decide_False by (rewrite Ha; intros []). done.
  - rewrite filter_cons, decide_True by (rewrite Ha; done). cbn. f_equal. done.
Qed.

(** ** Hint databases *)

Create HintDb jetsam.
Create Rewrite HintDb jetsam.
#[export] Hint Rewrite @length_app @length_fmap @length_insert @length_replicate
  @sum_Z_app : jetsam.
#[export] Hint Resolve sum_Z_nonneg : jetsam.

(** ** More on lists *)

Lemma foldl_cons_eq {A B} (f : A → B → A) a x l : foldl f a (x :: l) = foldl f (f a x) l.
Proof. reflexivity. Qed.

Lemma list_cons_eq {A} (x y : A) l k : x :: l = y :: k ↔ x = y ∧ l = k.
Proof. naive_solver. Qed.

Lemma concat_inj_lengths (l l' : list (list Z)) :
  length <$> l = length <$> l' → concat l = concat l' → l = l'.
Proof.
  revert l'; induction l as [|x l IH]; intros [|y l'] Hl Hc; try done.
  cbn in *. injection Hl as Hx Hl. apply app_inj_1 in Hc as [-> Hc]; [|done]. f_equal. by apply IH.
Qed.

Lemma sum_Z_cons x l : sum_Z (x :: l) = x + sum_Z l.
Proof. reflexivity. Qed.

Lemma sum_Z_swap {A B} (f : A → B → Z) (l : list A) (k : list B) :
  sum_Z ((λ a, sum_Z (f a <$> k)) <$> l) = sum_Z ((λ b, sum_Z ((λ a, f a b) <$> l)) <$> k).
Proof.
  induction l as [|a l IH].
  - rewrite fmap_nil. symmetry. rewrite (sum_Z_const _ 0); [unfold sum_Z; cbn; lia|by apply Forall_true].
  - rewrite fmap_cons, sum_Z_cons, IH. clear IH. induction k as [|b k IHk]; [done|].
    rewrite !fmap_cons, !sum_Z_cons, <- IHk. lia.
Qed.

Lemma imap_pair_fst {A} (l : list A) : fst <$> imap pair l = seq 0 (length l).
Proof.
  apply list_eq. intros i. rewrite list_lookup_fmap, list_lookup_imap.
  destruct (l !! i) as [x|] eqn:E; cbn.
  - apply lookup_lt_Some in E. by rewrite lookup_seq_lt.
  - apply lookup_ge_None in E. by rewrite lookup_seq_ge.
Qed.

Lemma partition_perm {A} (f : A → bool) (l : list A) :
  filter (λ x, Is_true (negb (f x))) l ++ filter (λ x, Is_true (f x)) l ≡ₚ l.
Proof.
  induction l as [|x l IH]; [done|]. destruct (f x) eqn:E.
  - rewrite filter_cons_False, filter_cons_True by (rewrite E; cbn; auto).
    rewrite <- Permutation_middle. by rewrite IH.
  - rewrite filter_cons_True, filter_cons_False by (rewrite E; cbn; auto). cbn. by rewrite IH.
Qed.

Lemma union_app (l k : list Z) (s : gset Z) :
  list_to_set k ∪ (list_to_set l ∪ s) = list_to_set (l ++ k) ∪ s.
Proof.
  rewrite list_to_set_app_L, (assoc_L (∪)), (comm_L (∪) (list_to_set k) (list_to_set l)). done.
Qed.
