(* ===== verification/Machine.v ===== *)
(** * Machine integers and byte strings

    Rust's unsigned integers are [Z] with an explicit width; each operation
    the code uses ([checked_*], [saturating_*], [wrapping_*], [as]) is written
    out at that width.  Byte strings are lists of integers below 256, with
    [to_le_bytes] and [from_le_bytes] at a given byte count. *)

From S2P Require Import Prelude.

(** [is_uint w x]: [x] is a value of the [w]-bit unsigned type. *)
Definition is_uint (w x : Z) : Prop := 0 ≤ x < 2 ^ w.

Notation is_u8 := (is_uint 8).
Notation is_u16 := (is_uint 16).
Notation is_u32 := (is_uint 32).
Notation is_u64 := (is_uint 64).
Notation is_u128 := (is_uint 128).

#[global] Instance is_uint_dec w x : Decision (is_uint w x).
Proof. unfold is_uint. apply _. Defined.

Definition uint_max (w : Z) : Z := 2 ^ w - 1.

Notation u32_max := (uint_max 32).
Notation u64_max := (uint_max 64).

Definition wrap (w x : Z) : Z := x mod 2 ^ w.

Definition checked_add (w a b : Z) : option Z :=
  if a + b <? 2 ^ w then Some (a + b) else None.

Definition checked_sub (a b : Z) : option Z :=
  if b <=? a then Some (a - b) else None.

Definition checked_mul (w a b : Z) : option Z :=
  if a * b <? 2 ^ w then Some (a * b) else None.

Definition saturating_add (w a b : Z) : Z := Z.min (a + b) (uint_max w).

Definition saturating_sub (a b : Z) : Z := Z.max (a - b) 0.

Definition saturating_mul (w a b : Z) : Z := Z.min (a * b) (uint_max w).

Definition wrapping_add (w a b : Z) : Z := wrap w (a + b).

Definition wrapping_mul (w a b : Z) : Z := wrap w (a * b).

(** [usize::div_ceil] and [u64::div_ceil]. *)
Definition div_ceil (a b : Z) : Z :=
  if a mod b =? 0 then a / b else a / b + 1.

(** [u16::count_ones], at a given width. *)
Fixpoint count_ones (w : nat) (x : Z) : Z :=
  match w with
  | O => 0
  | S w' => Z.b2z (Z.odd x) + count_ones w' (Z.shiftr x 1)
  end.

(** ** Byte strings *)

Definition is_byte (b : Z) : Prop := 0 ≤ b < 256.

Definition byte_string (bs : list Z) : Prop := Forall is_byte bs.

(** A value of [[u8; n]]. *)
Definition byte_array (n : nat) (bs : list Z) : Prop := length bs = n ∧ byte_string bs.

Notation is_digest := (byte_array 32).

#[global] Instance byte_array_dec n bs : Decision (byte_array n bs).
Proof. unfold byte_array, byte_string, is_byte. apply _. Defined.

Fixpoint to_le_bytes (n : nat) (x : Z) : list Z :=
  match n with
  | O => []
  | S n' => x mod 256 :: to_le_bytes n' (x / 256)
  end.

Fixpoint from_le_bytes (bs : list Z) : Z :=
  match bs with
  | [] => 0
  | b :: bs' => b + 256 * from_le_bytes bs'
  end.

(** [u64::from_be_bytes]. *)
Definition from_be_bytes (bs : list Z) : Z := from_le_bytes (reverse bs).

Definition zero_digest : list Z := replicate 32 0.

(** ** Lemmas *)

Lemma wrap_small w x : 0 ≤ x < 2 ^ w → wrap w x = x.
Proof. apply Z.mod_small. Qed.

Lemma checked_add_Some w a b c :
  checked_add w a b = Some c ↔ c = a + b ∧ a + b < 2 ^ w.
Proof. unfold checked_add. destruct (Z.ltb_spec (a + b) (2 ^ w)); naive_solver lia. Qed.

Lemma checked_sub_Some a b c : checked_sub a b = Some c ↔ c = a - b ∧ b ≤ a.
Proof. unfold checked_sub. destruct (Z.leb_spec b a); naive_solver lia. Qed.

Lemma checked_mul_Some w a b c :
  checked_mul w a b = Some c ↔ c = a * b ∧ a * b < 2 ^ w.
Proof. unfold checked_mul. destruct (Z.ltb_spec (a * b) (2 ^ w)); naive_solver lia. Qed.

Lemma div_ceil_spec a b : 0 < b → 0 ≤ a → a ≤ b * div_ceil a b < a + b.
Proof.
  intros Hb Ha. unfold div_ceil.
  pose proof (Z.div_mod a b ltac:(lia)). pose proof (Z.mod_pos_bound a b Hb).
  destruct (Z.eqb_spec (a mod b) 0); nia.
Qed.

Lemma div_ceil_le a b c : 0 < b → 0 ≤ a → div_ceil a b ≤ c ↔ a ≤ b * c.
Proof. intros Hb Ha. pose proof (div_ceil_spec a b Hb Ha). split; nia. Qed.

Lemma length_to_le_bytes n x : length (to_le_bytes n x) = n.
Proof. revert x; induction n; cbn; auto. Qed.

Lemma to_le_bytes_bytes n x : byte_string (to_le_bytes n x).
Proof.
  revert x; induction n as [|n IH]; intros x; cbn; constructor; [|apply IH].
  apply Z.mod_pos_bound. lia.
Qed.

Lemma to_le_bytes_array n x : byte_array n (to_le_bytes n x).
Proof. split; [apply length_to_le_bytes|apply to_le_bytes_bytes]. Qed.

Lemma from_le_bytes_app b1 b2 :
  from_le_bytes (b1 ++ b2) = from_le_bytes b1 + 256 ^ Z.of_nat (length b1) * from_le_bytes b2.
Proof.
  induction b1 as [|b b1 IH]; cbn [from_le_bytes length app]; [lia|].
  rewrite IH, Nat2Z.inj_succ, Z.pow_succ_r by lia. lia.
Qed.

Lemma from_le_bytes_bound bs :
  byte_string bs → 0 ≤ from_le_bytes bs < 256 ^ Z.of_nat (length bs).
Proof.
  induction 1 as [|b bs Hb Hbs IH]; cbn [from_le_bytes length]; [lia|].
  rewrite Nat2Z.inj_succ, Z.pow_succ_r by lia. unfold is_byte in Hb. lia.
Qed.

Lemma from_to_le_bytes n x :
  0 ≤ x < 256 ^ Z.of_nat n → from_le_bytes (to_le_bytes n x) = x.
Proof.
  revert x; induction n as [|n IH]; intros x Hx; cbn [to_le_bytes from_le_bytes].
  - cbn in Hx. lia.
  - rewrite Nat2Z.inj_succ, Z.pow_succ_r in Hx by lia.
    pose proof (Z.div_mod x 256 ltac:(lia)). pose proof (Z.mod_pos_bound x 256 ltac:(lia)).
    rewrite IH by nia. lia.
Qed.

Lemma to_from_le_bytes bs :
  byte_string bs → to_le_bytes (length bs) (from_le_bytes bs) = bs.
Proof.
  induction 1 as [|b bs Hb Hbs IH]; cbn [to_le_bytes from_le_bytes length]; [done|].
  unfold is_byte in Hb.
  rewrite (Z.mul_comm 256), Z.mod_add, Z.div_add by lia.
  rewrite Z.mod_small, Z.div_small by lia. rewrite Z.add_0_l, IH. done.
Qed.

Lemma byte_string_app b1 b2 : byte_string (b1 ++ b2) ↔ byte_string b1 ∧ byte_string b2.
Proof. apply Forall_app. Qed.

Lemma zero_digest_array : is_digest zero_digest.
Proof. vm_compute. repeat constructor; discriminate. Qed.

(** ** Bit masks *)

Lemma land_bit_eqb x n : 0 ≤ n → (Z.land x (Z.shiftl 1 n) =? 0) = negb (Z.testbit x n).
Proof.
  intros Hn. rewrite Z.shiftl_1_l. destruct (Z.testbit x n) eqn:Hb; cbn [negb].
  - apply Z.eqb_neq. intros H0.
    assert (Z.testbit (Z.land x (2 ^ n)) n = false) by (rewrite H0; apply Z.bits_0).
    rewrite Z.land_spec, Hb, Z.pow2_bits_true in H by lia. done.
  - apply Z.eqb_eq, Z.bits_inj'. intros m Hm.
    rewrite Z.land_spec, Z.bits_0, Z.pow2_bits_eqb by lia.
    destruct (Z.eqb_spec n m) as [<-|]; [by rewrite Hb|apply andb_false_r].
Qed.

Lemma testbit_uint_high w x n : 0 ≤ x < 2 ^ w → 0 ≤ w ≤ n → Z.testbit x n = false.
Proof.
  intros Hx Hn. apply Z.testbit_false; [lia|]. rewrite Z.div_small; [done|].
  split; [lia|]. apply Z.lt_le_trans with (2 ^ w); [lia|]. apply Z.pow_le_mono_r; lia.
Qed.

Lemma lor_shiftl_add w c a : 0 ≤ w → 0 ≤ a < 2 ^ w → Z.lor (Z.shiftl c w) a = c * 2 ^ w + a.
Proof.
  intros Hw Ha. rewrite <- Z.shiftl_mul_pow2, <- Z.add_lor_land by lia.
  replace (Z.land (Z.shiftl c w) a) with 0; [lia|].
  symmetry. apply Z.bits_inj'. intros n Hn. rewrite Z.land_spec, Z.bits_0, Z.shiftl_spec by lia.
  destruct (decide (n < w)).
  - rewrite Z.testbit_neg_r by lia. done.
  - rewrite (testbit_uint_high w a) by lia. apply andb_false_r.
Qed.

Lemma land_high_mask x n w :
  0 ≤ n ≤ w → 0 ≤ x < 2 ^ w → Z.land x (2 ^ w - 2 ^ n) = 2 ^ n * (x / 2 ^ n).
Proof.
  intros Hn Hx.
  replace (2 ^ w - 2 ^ n) with (Z.shiftl (Z.ones (w - n)) n).
  2: { rewrite Z.shiftl_mul_pow2, Z.ones_equiv by lia.
       rewrite <- Z.sub_1_r, Z.mul_sub_distr_r, <- Z.pow_add_r by lia.
       replace (w - n + n) with w by lia. lia. }
  rewrite Z.mul_comm, <- Z.shiftr_div_pow2, <- Z.shiftl_mul_pow2 by lia.
  apply Z.bits_inj'. intros m Hm. rewrite Z.land_spec, !Z.shiftl_spec by lia.
  destruct (decide (m < n)).
  - rewrite (Z.testbit_neg_r (Z.ones _)), (Z.testbit_neg_r (Z.shiftr _ _)) by lia.
    apply andb_false_r.
  - rewrite Z.shiftr_spec by lia. replace (m - n + n) with m by lia.
    destruct (decide (m < w)).
    + rewrite Z.ones_spec_low by lia. apply andb_true_r.
    + rewrite Z.ones_spec_high by lia. rewrite andb_false_r. symmetry.
      apply (testbit_uint_high w); lia.
Qed.

Lemma land_high_mask_zero x n w :
  0 ≤ n ≤ w → 0 ≤ x < 2 ^ w → (Z.land x (2 ^ w - 2 ^ n) =? 0) = (x <? 2 ^ n).
Proof.
  intros Hn Hx. rewrite land_high_mask by lia.
  assert (0 < 2 ^ n) by (apply Z.pow_pos_nonneg; lia).
  pose proof (Z.div_mod x (2 ^ n) ltac:(lia)). pose proof (Z.mod_pos_bound x (2 ^ n) ltac:(lia)).
  assert (0 ≤ x / 2 ^ n) by (apply Z.div_pos; lia).
  destruct (Z.ltb_spec x (2 ^ n)); [apply Z.eqb_eq|apply Z.eqb_neq].
  - rewrite Z.div_small by lia. lia.
  - intros Hz. assert (x / 2 ^ n = 0) by nia. lia.
Qed.

Lemma count_ones_sum w x :
  count_ones w x = sum_Z ((λ i, Z.b2z (Z.testbit x (Z.of_nat i))) <$> seq 0 w).
Proof.
  revert x; induction w as [|w IH]; intros x; [done|].
  cbn [count_ones seq fmap list_fmap]. unfold sum_Z in *. cbn [foldr].
  rewrite Z.bit0_odd, IH. f_equal. f_equal. rewrite <- fmap_S_seq, <- list_fmap_compose.
  apply list_fmap_ext. intros i j _. cbn [compose].
  rewrite Z.shiftr_spec by lia. do 2 f_equal. lia.
Qed.

(** ** Checked sums *)

Lemma try_fold_checked_add {E A} (w : Z) (e : E) (f : A → Z) a l :
  Forall (λ x, 0 ≤ f x) l → 0 ≤ a < 2 ^ w →
  try_fold (λ acc x, ok_or (checked_add w acc (f x)) e) a l =
    if a + sum_Z (f <$> l) <? 2 ^ w then Ok (a + sum_Z (f <$> l)) else Err e.
Proof.
  intros Hf. revert a; induction Hf as [|x l Hx Hl IH]; intros a Ha; unfold sum_Z in *; cbn.
  - rewrite Z.add_0_r. destruct (Z.ltb_spec a (2 ^ w)); [done|lia].
  - assert (0 ≤ foldr Z.add 0 (f <$> l)).
    { apply sum_Z_nonneg. by apply Forall_fmap. }
    unfold checked_add. destruct (Z.ltb_spec (a + f x) (2 ^ w)); cbn.
    + rewrite IH by lia. rewrite Z.add_assoc. done.
    + destruct (Z.ltb_spec (a + (f x + foldr Z.add 0 (f <$> l))) (2 ^ w)); [lia|done].
Qed.

#[export] Hint Rewrite length_to_le_bytes : jetsam.
#[export] Hint Resolve to_le_bytes_bytes to_le_bytes_array zero_digest_array : jetsam.

Lemma to_le_bytes_inj n w x y :
  w ≤ 8 * Z.of_nat n → is_uint w x → is_uint w y → to_le_bytes n x = to_le_bytes n y → x = y.
Proof.
  intros Hw Hx Hy H. apply (f_equal from_le_bytes) in H. unfold is_uint in *.
  assert (2 ^ w ≤ 256 ^ Z.of_nat n).
  { change 256 with (2 ^ 8). rewrite <- Z.pow_mul_r by lia. apply Z.pow_le_mono_r; lia. }
  rewrite !from_to_le_bytes in H by lia. done.
Qed.
