(* ===== verification/Params.v ===== *)
(** * Consensus parameters

    The constants and activation clocks of
    [jetsam_chain/src/consensus/params.rs], on the public profile (the
    [testnet] and [rehearsal-v1-6] features off).  Functions with an injected
    clock keep their [_with] or [_in] name. *)

From S2P Require Import Prelude Machine.

(** ** Clocks *)

Definition BLOCK_TIME : Z := 90.
Definition BLOCK_TIME_V1_5 : Z := 180.
Definition HALFLIFE : Z := 540.
Definition HALFLIFE_V1_5 : Z := 540.
Definition HALFLIFE_V1_6 : Z := 2160.
Definition EPOCH_LENGTH : Z := 6.
Definition ASERT_POLYNOMIAL_FIX_HEIGHT : Z := 2000.
Definition V1_3_ACTIVATION_HEIGHT : option Z := Some 17750.
Definition V1_4_ACTIVATION_HEIGHT : option Z := Some 24846.
Definition V1_5_ACTIVATION_HEIGHT : option Z := Some 38400.
Definition V1_6_ACTIVATION_HEIGHT : option Z := Some 46080.

(** [matches!(activation_height, Some(activation) if height >= activation)],
    the shared body of the [v1_x_active_with] functions. *)
Definition v1_3_active_with (height : Z) (activation_height : option Z) : bool :=
  match activation_height with Some activation => activation <=? height | None => false end.
Definition v1_4_active_with (height : Z) (activation_height : option Z) : bool :=
  match activation_height with Some activation => activation <=? height | None => false end.
Definition v1_5_active_with (height : Z) (activation_height : option Z) : bool :=
  match activation_height with Some activation => activation <=? height | None => false end.
Definition v1_6_active_with (height : Z) (activation_height : option Z) : bool :=
  match activation_height with Some activation => activation <=? height | None => false end.

Definition v1_3_active (height : Z) : bool := v1_3_active_with height V1_3_ACTIVATION_HEIGHT.
Definition v1_4_active (height : Z) : bool := v1_4_active_with height V1_4_ACTIVATION_HEIGHT.
Definition v1_5_active (height : Z) : bool := v1_5_active_with height V1_5_ACTIVATION_HEIGHT.
Definition v1_6_active (height : Z) : bool := v1_6_active_with height V1_6_ACTIVATION_HEIGHT.

Definition block_time_at_with (height : Z) (v1_5_activation : option Z) : Z :=
  if v1_5_active_with height v1_5_activation then BLOCK_TIME_V1_5 else BLOCK_TIME.

Definition halflife_at_with (height : Z) (v1_5_activation : option Z) : Z :=
  if v1_5_active_with height v1_5_activation then HALFLIFE_V1_5 else HALFLIFE.

Definition v1_6_schedule_is_valid (v1_5_activation v1_6_activation : option Z) : bool :=
  match v1_5_activation, v1_6_activation with
  | _, None => true
  | Some v1_5, Some v1_6 => (v1_5 <? v1_6) && (v1_6 mod 960 =? 0)
  | None, Some _ => false
  end.

(** ** Time *)

Definition MAX_FUTURE_DRIFT : Z := 120.
Definition MEDIAN_TIME_BLOCKS : Z := 11.
Definition V1_6_PARENT_TIMESTAMP_LAG : Z := 600.

(** ** Block limits *)

Definition BLOCK_MAX_TXS : Z := 256.
Definition MAX_INPUTS : Z := 8.
Definition MAX_OUTPUTS : Z := 2.
Definition BLOCK_MAX_USER_PAGES : Z := BLOCK_MAX_TXS - 1.
Definition BLOCK_MAX_LIVE_INPUTS : Z := 1020.
Definition BLOCK_MAX_USER_OUTPUTS : Z := 510.
Definition BLOCK_MAX_USER_ACTIONS : Z := BLOCK_MAX_LIVE_INPUTS + BLOCK_MAX_USER_OUTPUTS.
Definition BLOCK_MAX_ACTIONS : Z := BLOCK_MAX_USER_ACTIONS + 1.
Definition BLOCK_MAX_DISTINCT_SEGMENTS : Z := 256.
Definition BLOCK_PAGE_CLASS_TIERS : Z * Z := (25, 255).
Definition V1_3_TIER_SMALL : Z := 24.

Inductive HistoryStepPackGeneration : Set := V1 | V1_3 | V1_5 | V1_6.

#[global] Instance HistoryStepPackGeneration_eq_dec : EqDecision HistoryStepPackGeneration.
Proof. solve_decision. Defined.

Definition at_schedule (height : Z) (v1_3_activation v1_5_activation : option Z) :
    HistoryStepPackGeneration :=
  if v1_5_active_with height v1_5_activation then V1_5
  else if v1_3_active_with height v1_3_activation then V1_3
  else V1.

Definition at_full_schedule (height : Z)
    (v1_3_activation v1_5_activation v1_6_activation : option Z) : HistoryStepPackGeneration :=
  if v1_6_active_with height v1_6_activation then V1_6
  else at_schedule height v1_3_activation v1_5_activation.

Definition at_height (height : Z) : HistoryStepPackGeneration :=
  at_full_schedule height V1_3_ACTIVATION_HEIGHT V1_5_ACTIVATION_HEIGHT V1_6_ACTIVATION_HEIGHT.

Definition tiers (generation : HistoryStepPackGeneration) : Z * Z :=
  match generation with
  | V1 => BLOCK_PAGE_CLASS_TIERS
  | V1_3 | V1_5 | V1_6 => (V1_3_TIER_SMALL, snd BLOCK_PAGE_CLASS_TIERS)
  end.

Definition small_tier (generation : HistoryStepPackGeneration) : Z := fst (tiers generation).
Definition large_tier (generation : HistoryStepPackGeneration) : Z := snd (tiers generation).

Definition binds_two_epoch_anchors (generation : HistoryStepPackGeneration) : bool :=
  match generation with V1 => false | V1_3 | V1_5 | V1_6 => true end.

Definition class_tier_for (ts : Z * Z) (count : Z) : option Z :=
  if count <=? fst ts then Some (fst ts)
  else if count <=? snd ts then Some (snd ts)
  else None.

Definition block_class_spend_capacity (user_tier : Z) : Z :=
  Z.min (user_tier * MAX_INPUTS) BLOCK_MAX_LIVE_INPUTS.

Definition block_class_output_capacity (user_tier : Z) : Z :=
  Z.min (user_tier * MAX_OUTPUTS) BLOCK_MAX_USER_OUTPUTS.

Definition block_class_touched_capacity (user_tier : Z) : Z :=
  block_class_spend_capacity user_tier + block_class_output_capacity user_tier + 1.

(** ** Epochs, finality and slot expansion *)

Definition TX_EPOCH_BLOCKS : Z := 32.
Definition CONSENSUS_FINALITY_DEPTH : Z := 8.
Definition UNDO_RETENTION_DEPTH : Z := CONSENSUS_FINALITY_DEPTH * 2.
Definition EXPANSION_WINDOW : Z := 18.
Definition LOG_SLOTS_GENESIS : Z := 24.
Definition LOG_SLOTS_MAX : Z := 32.
Definition EXPAND_NUM : Z := 3.
Definition EXPAND_DENOM : Z := 4.

(** ** Targets (256-bit little-endian byte strings) *)

Definition two_pow_target (exp : Z) : list Z :=
  <[Z.to_nat (exp / 8) := Z.shiftl 1 (exp mod 8)]> zero_digest.

Definition GENESIS_TARGET : list Z := <[29%nat := 0x40]> zero_digest.
Definition MIN_TARGET : list Z := <[0%nat := 1]> zero_digest.
Definition MAX_TARGET : list Z := replicate 32 0xFF.
Definition V1_4_ANCHOR_TARGET : option (list Z) := Some (two_pow_target 235).

(** ** Emission *)

Definition MICRO_PER_JTM : Z := 1000000.
Definition BASE_REWARD_MICRO : Z := 50 * MICRO_PER_JTM.
Definition MAX_SUPPLY_MICRO : Z := 21000000 * MICRO_PER_JTM.
Definition H1_HEIGHT : Z := 28800.
Definition H2_HEIGHT : Z := 172800.
Definition HALVING_INTERVAL : Z := 659000.
Definition HALVING_COUNT : Z := 7.

Definition EMISSION_END_HEIGHT : Z :=
  let final_tier_reward := Z.shiftr BASE_REWARD_MICRO (HALVING_COUNT - 1) in
  let naive_total :=
    (H1_HEIGHT - 1) * BASE_REWARD_MICRO
    + (H2_HEIGHT - H1_HEIGHT) * Z.shiftr BASE_REWARD_MICRO 1
    + HALVING_INTERVAL
      * (Z.shiftr BASE_REWARD_MICRO 2 + Z.shiftr BASE_REWARD_MICRO 3
         + Z.shiftr BASE_REWARD_MICRO 4 + Z.shiftr BASE_REWARD_MICRO 5
         + final_tier_reward) in
  let excess := naive_total - MAX_SUPPLY_MICRO in
  H2_HEIGHT + 5 * HALVING_INTERVAL - excess / final_tier_reward.

(** ** Coinbase creation ids *)

Definition COINBASE_CREATION_TAG : Z := Z.shiftl 1 63.

Definition is_coinbase_creation_id (creation_id : Z) : bool :=
  negb (Z.land creation_id COINBASE_CREATION_TAG =? 0).

Definition coinbase_creation_id (height : Z) : Z := Z.lor COINBASE_CREATION_TAG height.

Definition coinbase_creation_height (creation_id : Z) : Z :=
  Z.land creation_id (Z.lxor u64_max COINBASE_CREATION_TAG).

Definition creation_id_within_boundary (creation_id alloc_counter height : Z) : bool :=
  if is_coinbase_creation_id creation_id
  then coinbase_creation_height creation_id <=? height
  else creation_id <=? alloc_counter.

(** ** Fees *)

Definition MIN_FEE_BASE : Z := 5000.
Definition FEE_PER_INPUT : Z := 100.
Definition FEE_PER_OUTPUT : Z := 700.
Definition STATE_GROWTH_FEE_BASE : Z := 2500.

(** ** Lemmas *)

Lemma coinbase_creation_id_add height :
  0 ≤ height < 2 ^ 63 → coinbase_creation_id height = 2 ^ 63 + height.
Proof.
  intros Hh. unfold coinbase_creation_id, COINBASE_CREATION_TAG.
  rewrite lor_shiftl_add by lia. lia.
Qed.

Lemma is_coinbase_creation_id_spec creation_id :
  is_u64 creation_id → is_coinbase_creation_id creation_id = (2 ^ 63 <=? creation_id).
Proof.
  intros Hc. unfold is_uint in Hc. unfold is_coinbase_creation_id, COINBASE_CREATION_TAG.
  rewrite land_bit_eqb, negb_involutive by lia.
  destruct (Z.leb_spec (2 ^ 63) creation_id) as [H|H].
  - apply Z.testbit_true; [lia|].
    assert (creation_id / 2 ^ 63 = 1) as ->; [|done].
    symmetry. apply Z.div_unique with (creation_id - 2 ^ 63); lia.
  - apply (testbit_uint_high 63); lia.
Qed.
