(* ===== verification/Emission.v ===== *)
(** * Emission schedule and development allocation

    [jetsam_chain/src/consensus/emission.rs] (the height-indexed halving
    schedule) and [consensus/development_allocation.rs] (the two-year
    development payouts carved out of it).  The theorems show that the
    schedule sums to exactly the 21M cap, that no height of the allocation
    window meets an inexact share, and that what the miner and the two funds
    may issue together never exceeds the schedule. *)

From S2P Require Import Prelude Machine Params.

(** ** emission.rs *)

Definition halvings_at (height : Z) : Z :=
  if EMISSION_END_HEIGHT <=? height then HALVING_COUNT
  else
    let n :=
      if height <? H1_HEIGHT then 0
      else if height <? H2_HEIGHT then 1
      else 2 + (height - H2_HEIGHT) / HALVING_INTERVAL in
    if HALVING_COUNT <? n then HALVING_COUNT else n.

Definition block_reward (height : Z) : Z :=
  let halvings := halvings_at height in
  if HALVING_COUNT <=? halvings then 0 else Z.shiftr BASE_REWARD_MICRO halvings.

(** ** development_allocation.rs *)

Definition DEVELOPMENT_PAYOUT_INTERVAL_90S : Z := 960.
Definition DEVELOPMENT_PAYOUT_INTERVAL_180S : Z := 480.
Definition DEVELOPMENT_ALLOCATION_PAYOUTS : Z := 365 * 2.
Definition DEVELOPMENT_ALLOCATION_END_HEIGHT_90S : Z :=
  DEVELOPMENT_ALLOCATION_PAYOUTS * DEVELOPMENT_PAYOUT_INTERVAL_90S.
Definition DEVELOPMENT_SHARE_DENOMINATOR : Z := 20.

(** [u64::is_multiple_of]. *)
Definition is_multiple_of (a b : Z) : bool := a mod b =? 0.

Definition v1_5_activation_is_valid (activation : Z) : bool :=
  is_multiple_of activation DEVELOPMENT_PAYOUT_INTERVAL_90S
  && (activation / DEVELOPMENT_PAYOUT_INTERVAL_90S <=? DEVELOPMENT_ALLOCATION_PAYOUTS).

Definition development_allocation_end_height_with (activation : option Z) : Z :=
  match activation with
  | None => DEVELOPMENT_ALLOCATION_END_HEIGHT_90S
  | Some activation =>
      activation
      + (DEVELOPMENT_ALLOCATION_PAYOUTS - activation / DEVELOPMENT_PAYOUT_INTERVAL_90S)
        * DEVELOPMENT_PAYOUT_INTERVAL_180S
  end.

Definition NETWORK_FUND_ADDRESS : list Z :=
  [0x77; 0xca; 0x54; 0x0b; 0xbf; 0x9e; 0x01; 0x7b; 0x3e; 0x8a; 0x13; 0x9f; 0xe9; 0x13; 0x66; 0xbd;
   0x00; 0xdb; 0x8c; 0xa0; 0x51; 0x8d; 0x11; 0x3a; 0x42; 0x06; 0x66; 0x4d; 0x29; 0xf0; 0x44; 0xf0].

Definition LAB_FUND_ADDRESS : list Z :=
  [0x71; 0xde; 0x51; 0xc5; 0xa9; 0xcf; 0xc4; 0x62; 0x2c; 0x62; 0x47; 0x83; 0xfb; 0x3c; 0xef; 0xb1;
   0xd8; 0x10; 0x47; 0x08; 0xa7; 0x2c; 0x10; 0x19; 0x1d; 0xc1; 0x4b; 0xfc; 0x70; 0x14; 0x7d; 0x8f].

Record DevelopmentAllocation := mkDevelopmentAllocation {
  da_active : bool;
  da_payout_due : bool;
  da_share_each : Z;
  da_payout_each : option Z;
  da_miner_subsidy : Z;
}.

Inductive DevelopmentAllocationError :=
  | InexactRewardShare
  | PayoutOverflow
  | InvalidV1_5Activation.

Definition development_allocation_active_with (height : Z) (activation : option Z) : bool :=
  (0 <? height) && (height <=? development_allocation_end_height_with activation).

Definition development_allocation_active (height : Z) : bool :=
  development_allocation_active_with height V1_5_ACTIVATION_HEIGHT.

Definition development_payout_due_with (height : Z) (activation : option Z) : bool :=
  development_allocation_active_with height activation
  && match activation with
     | Some activation =>
         if activation <? height
         then is_multiple_of (height - activation) DEVELOPMENT_PAYOUT_INTERVAL_180S
         else is_multiple_of height DEVELOPMENT_PAYOUT_INTERVAL_90S
     | None => is_multiple_of height DEVELOPMENT_PAYOUT_INTERVAL_90S
     end.

Definition development_payout_due (height : Z) : bool :=
  development_payout_due_with height V1_5_ACTIVATION_HEIGHT.

Definition development_payout_interval_with (height : Z) (activation : option Z) : Z :=
  match activation with
  | Some activation =>
      if activation <? height then DEVELOPMENT_PAYOUT_INTERVAL_180S
      else DEVELOPMENT_PAYOUT_INTERVAL_90S
  | None => DEVELOPMENT_PAYOUT_INTERVAL_90S
  end.

Definition development_share_each (subsidy : Z) : result DevelopmentAllocationError Z :=
  if negb (is_multiple_of subsidy DEVELOPMENT_SHARE_DENOMINATOR)
  then Err InexactRewardShare
  else Ok (subsidy / DEVELOPMENT_SHARE_DENOMINATOR).

(** [None] is the panic of the [expect]. *)
Definition miner_subsidy (height : Z) : option Z :=
  let subsidy := block_reward height in
  if development_allocation_active height then
    share ← result_ok (development_share_each subsidy);
    Some (subsidy - 2 * share)
  else Some subsidy.

Definition development_allocation_with (child_height : Z) (v1_5_activation : option Z) :
    result DevelopmentAllocationError DevelopmentAllocation :=
  if match v1_5_activation with
     | Some activation => negb (v1_5_activation_is_valid activation)
     | None => false
     end
  then Err InvalidV1_5Activation
  else
    let subsidy := block_reward child_height in
    if negb (development_allocation_active_with child_height v1_5_activation) then
      Ok (mkDevelopmentAllocation false false 0 None subsidy)
    else
      share_each ← development_share_each subsidy;
      let payout_due := development_payout_due_with child_height v1_5_activation in
      payout_each ←
        (if payout_due then
           p ← ok_or (checked_mul 64 share_each
                        (development_payout_interval_with child_height v1_5_activation))
                 PayoutOverflow;
           Ok (Some p)
         else Ok None);
      Ok (mkDevelopmentAllocation true payout_due share_each payout_each
            (subsidy - 2 * share_each)).

Definition development_allocation (child_height : Z) :
    result DevelopmentAllocationError DevelopmentAllocation :=
  development_allocation_with child_height V1_5_ACTIVATION_HEIGHT.

(** ** The reward tiers *)

Lemma EMISSION_END_HEIGHT_eq : EMISSION_END_HEIGHT = 3467664.
Proof. reflexivity. Qed.

(** The table of the module documentation of emission.rs. *)
Definition reward_table (height : Z) : Z :=
  if height <? 28800 then 50000000
  else if height <? 172800 then 25000000
  else if height <? 831800 then 12500000
  else if height <? 1490800 then 6250000
  else if height <? 2149800 then 3125000
  else if height <? 2808800 then 1562500
  else if height <? 3467664 then 781250
  else 0.

Lemma halving_tier height :
  172800 ≤ height < 3467664 →
  halvings_at height = 2 + (height - 172800) / 659000 ∧ (height - 172800) / 659000 < 5.
Proof.
  intros Hh. unfold halvings_at. rewrite EMISSION_END_HEIGHT_eq.
  unfold H1_HEIGHT, H2_HEIGHT, HALVING_COUNT, HALVING_INTERVAL.
  assert ((height - 172800) / 659000 < 5) by (apply Z.div_lt_upper_bound; lia).
  destruct (Z.leb_spec 3467664 height), (Z.ltb_spec height 28800),
    (Z.ltb_spec height 172800); try lia.
  destruct (Z.ltb_spec 7 (2 + (height - 172800) / 659000)); lia.
Qed.

Lemma block_reward_table height : 0 ≤ height → block_reward height = reward_table height.
Proof.
  intros Hh. unfold reward_table.
  destruct (decide (172800 ≤ height < 3467664)) as [Hin|Hout].
  - destruct (halving_tier height Hin) as [Ht Hlt]. unfold block_reward. rewrite Ht.
    pose proof (Z.div_mod (height - 172800) 659000 ltac:(lia)).
    pose proof (Z.mod_pos_bound (height - 172800) 659000 ltac:(lia)).
    assert (0 ≤ (height - 172800) / 659000) by (apply Z.div_pos; lia).
    set (q := (height - 172800) / 659000) in *.
    assert (q = 0 ∨ q = 1 ∨ q = 2 ∨ q = 3 ∨ q = 4) as Hq by lia.
    destruct_or! Hq; rewrite Hq;
      match goal with |- ?l = _ => let v := eval vm_compute in l in change l with v end;
      repeat case_match; lia.
  - unfold block_reward, halvings_at. rewrite EMISSION_END_HEIGHT_eq.
    unfold H1_HEIGHT, H2_HEIGHT.
    repeat case_match; try reflexivity; try lia; cbn in *; lia.
Qed.

Lemma block_reward_bound height : 0 ≤ height → 0 ≤ block_reward height ≤ BASE_REWARD_MICRO.
Proof.
  intros Hh. rewrite block_reward_table by done. unfold reward_table.
  change BASE_REWARD_MICRO with 50000000. repeat case_match; lia.
Qed.

Lemma block_reward_antitone h1 h2 :
  0 ≤ h1 → h1 ≤ h2 → block_reward h2 ≤ block_reward h1.
Proof.
  intros H1 H2. rewrite !block_reward_table by lia. unfold reward_table.
  repeat case_match; lia.
Qed.

(** Total reward of the heights [m .. m + n - 1]. *)
Definition reward_between (m n : Z) : Z := sum_Z (block_reward <$> seqZ m n).

Lemma reward_between_app m n1 n2 :
  0 ≤ n1 → 0 ≤ n2 → reward_between m (n1 + n2) = reward_between m n1 + reward_between (m + n1) n2.
Proof.
  intros H1 H2. unfold reward_between. rewrite seqZ_app by lia.
  rewrite fmap_app, sum_Z_app. done.
Qed.

Lemma reward_between_tier m n r :
  0 ≤ m → 0 ≤ n → (∀ h, m ≤ h < m + n → reward_table h = r) → reward_between m n = n * r.
Proof.
  intros Hm Hn Hr. unfold reward_between. rewrite (sum_Z_const _ r).
  - rewrite length_seqZ. f_equal. lia.
  - apply Forall_forall. intros h Hh. apply elem_of_seqZ in Hh.
    rewrite block_reward_table by lia. apply Hr. lia.
Qed.

Ltac reward_tier :=
  let h := fresh "h" in
  intros h ?; unfold reward_table; repeat case_match; lia.

(** Closed form of the cumulative emission inside the last paying tier. *)
Lemma reward_between_last n :
  2808799 ≤ n ≤ 3467663 → reward_between 1 n = 20485262500000 + (n - 2808799) * 781250.
Proof.
  intros Hn.
  assert (Hsplit : reward_between 1 n =
    reward_between 1 28799 + reward_between 28800 144000 + reward_between 172800 659000
    + reward_between 831800 659000 + reward_between 1490800 659000
    + reward_between 2149800 659000 + reward_between 2808800 (n - 2808799)).
  { replace n with (28799 + 144000 + 659000 + 659000 + 659000 + 659000 + (n - 2808799)) at 1
      by lia.
    rewrite !reward_between_app by lia. reflexivity. }
  rewrite Hsplit.
  rewrite (reward_between_tier 1 28799 50000000), (reward_between_tier 28800 144000 25000000),
    (reward_between_tier 172800 659000 12500000), (reward_between_tier 831800 659000 6250000),
    (reward_between_tier 1490800 659000 3125000), (reward_between_tier 2149800 659000 1562500),
    (reward_between_tier 2808800 (n - 2808799) 781250) by (lia || reward_tier).
  lia.
Qed.

Lemma reward_between_mono m n1 n2 :
  0 ≤ m → 0 ≤ n1 ≤ n2 → reward_between m n1 ≤ reward_between m n2.
Proof.
  intros Hm Hn. replace n2 with (n1 + (n2 - n1)) by lia.
  rewrite reward_between_app by lia.
  enough (0 ≤ reward_between (m + n1) (n2 - n1)) by lia.
  apply sum_Z_nonneg, Forall_forall. intros r Hr.
  apply list_elem_of_fmap in Hr as (h & -> & Hh). apply elem_of_seqZ in Hh.
  apply block_reward_bound. lia.
Qed.

Lemma reward_between_end n : 3467663 ≤ n → reward_between 1 n = MAX_SUPPLY_MICRO.
Proof.
  intros Hn. replace n with (3467663 + (n - 3467663)) by lia.
  rewrite reward_between_app, reward_between_last by lia.
  rewrite (reward_between_tier (1 + 3467663) (n - 3467663) 0) by (lia || reward_tier).
  change MAX_SUPPLY_MICRO with 21000000000000. lia.
Qed.

Lemma reward_between_cap n : 0 ≤ n → reward_between 1 n ≤ MAX_SUPPLY_MICRO.
Proof.
  intros Hn. destruct (decide (3467663 ≤ n)).
  - rewrite reward_between_end; lia.
  - rewrite <- (reward_between_end 3467663) by lia. apply reward_between_mono; lia.
Qed.

(** ** The development allocation, for every admissible v1.5 clock *)

Definition valid_activation (activation : option Z) : Prop :=
  match activation with
  | Some a => 0 ≤ a ∧ v1_5_activation_is_valid a = true
  | None => True
  end.

(** Share and payout of one height, zero outside the window. *)
Definition share_at (h : Z) (activation : option Z) : Z :=
  if development_allocation_active_with h activation then block_reward h / 20 else 0.

Definition payout_at (h : Z) (activation : option Z) : Z :=
  if development_payout_due_with h activation
  then share_at h activation * development_payout_interval_with h activation else 0.

(** What one block may issue: the miner's subsidy and the two payouts. *)
Definition issuance_limit (h : Z) (activation : option Z) : Z :=
  match development_allocation_with h activation with
  | Ok d => da_miner_subsidy d + 2 * default 0 (da_payout_each d)
  | Err _ => 0
  end.

Definition issuance_between (n : Z) (activation : option Z) : Z :=
  sum_Z ((λ h, issuance_limit h activation) <$> seqZ 1 n).

(** Last payout height at or below [n]. *)
Definition last_payout (n : Z) (activation : option Z) : Z :=
  match activation with
  | Some j => if j <? n then j + 480 * ((n - j) / 480) else 960 * (n / 960)
  | None => 960 * (n / 960)
  end.

Ltac euclid := Z.to_euclidean_division_equations; lia.

Section allocation.
  Context (activation : option Z) (Hvalid : valid_activation activation).

Lemma valid_activation_bounds :
  match activation with Some a => 0 ≤ a ≤ 700800 ∧ a mod 960 = 0 | None => True end.
Proof.
  clear -Hvalid. destruct activation as [a|]; [|done]. destruct Hvalid as [Ha Hv].
  unfold v1_5_activation_is_valid, is_multiple_of, DEVELOPMENT_PAYOUT_INTERVAL_90S,
    DEVELOPMENT_ALLOCATION_PAYOUTS in Hv.
  bool_inv. euclid.
Qed.

Lemma end_height_bounds : 0 ≤ development_allocation_end_height_with activation ≤ 700800.
Proof.
  pose proof valid_activation_bounds as Hb.
  unfold development_allocation_end_height_with, DEVELOPMENT_ALLOCATION_END_HEIGHT_90S,
    DEVELOPMENT_ALLOCATION_PAYOUTS, DEVELOPMENT_PAYOUT_INTERVAL_90S,
    DEVELOPMENT_PAYOUT_INTERVAL_180S.
  destruct activation; [|lia]. euclid.
Qed.

Lemma reward_divisible h : 0 ≤ h ≤ 700800 → block_reward h mod 20 = 0.
Proof.
  intros Hh. rewrite block_reward_table by lia. unfold reward_table.
  repeat case_match; try reflexivity; lia.
Qed.

Lemma active_range h :
  development_allocation_active_with h activation = true →
  0 < h ≤ development_allocation_end_height_with activation.
Proof. unfold development_allocation_active_with. lia. Qed.

Lemma share_at_bounds h : 0 ≤ h → 0 ≤ 20 * share_at h activation ≤ block_reward h.
Proof.
  intros Hh. unfold share_at. pose proof (block_reward_bound h Hh).
  case_match; [|lia]. euclid.
Qed.

Lemma share_each_exact h :
  development_allocation_active_with h activation = true →
  development_share_each (block_reward h) = Ok (share_at h activation).
Proof.
  intros Ha. pose proof (active_range h Ha). pose proof end_height_bounds.
  unfold development_share_each, is_multiple_of, share_at, DEVELOPMENT_SHARE_DENOMINATOR.
  rewrite (reward_divisible h), Ha by lia. done.
Qed.

Lemma interval_bounds h : 0 < development_payout_interval_with h activation ≤ 960.
Proof.
  unfold development_payout_interval_with, DEVELOPMENT_PAYOUT_INTERVAL_180S,
    DEVELOPMENT_PAYOUT_INTERVAL_90S.
  repeat case_match; lia.
Qed.

Lemma development_allocation_with_spec h :
  0 ≤ h →
  development_allocation_with h activation =
    Ok (mkDevelopmentAllocation
          (development_allocation_active_with h activation)
          (development_payout_due_with h activation)
          (share_at h activation)
          (if development_payout_due_with h activation then Some (payout_at h activation) else None)
          (block_reward h - 2 * share_at h activation)).
Proof.
  intros Hh. unfold development_allocation_with.
  replace (match activation with Some _ => _ | None => _ end) with false
    by (clear -Hvalid; destruct activation; [destruct Hvalid as [_ ->]|]; done).
  destruct (development_allocation_active_with h activation) eqn:Ha; cbn [negb].
  - rewrite share_each_exact by done. cbn.
    pose proof (share_at_bounds h Hh). pose proof (block_reward_bound h Hh) as Hr.
    change BASE_REWARD_MICRO with 50000000 in Hr. pose proof (interval_bounds h).
    unfold payout_at. destruct (development_payout_due_with h activation); [|done].
    unfold checked_mul. case_match; [done|nia].
  - assert (development_payout_due_with h activation = false) as ->
      by (unfold development_payout_due_with; rewrite Ha; done).
    unfold share_at. rewrite Ha, Z.mul_0_r, Z.sub_0_r. done.
Qed.

Lemma issuance_limit_eq h :
  0 ≤ h →
  issuance_limit h activation =
    block_reward h - 2 * share_at h activation + 2 * payout_at h activation.
Proof.
  intros Hh. unfold issuance_limit. rewrite development_allocation_with_spec by done. cbn.
  unfold payout_at. case_match; cbn; lia.
Qed.

(** Between payouts the last payout height stays put; at a payout it advances
    by exactly the interval that is paid for. *)
Lemma last_payout_step n :
  0 ≤ n → n + 1 ≤ development_allocation_end_height_with activation →
  if development_payout_due_with (n + 1) activation
  then n + 1 - last_payout n activation = development_payout_interval_with (n + 1) activation
       ∧ last_payout (n + 1) activation = n + 1
  else last_payout (n + 1) activation = last_payout n activation.
Proof.
  intros Hn He. pose proof valid_activation_bounds as Hb.
  unfold development_payout_due_with, last_payout, development_payout_interval_with,
    development_allocation_active_with, is_multiple_of, DEVELOPMENT_PAYOUT_INTERVAL_90S,
    DEVELOPMENT_PAYOUT_INTERVAL_180S in *.
  destruct (Z.ltb_spec 0 (n + 1)); [|lia].
  destruct (Z.leb_spec (n + 1) (development_allocation_end_height_with activation)); [|lia].
  cbn [andb]. destruct activation as [j|].
  - destruct (Z.ltb_spec j (n + 1)), (Z.ltb_spec j n); try lia.
    all: case_match; euclid.
  - case_match; euclid.
Qed.

Lemma last_payout_0 : last_payout 0 activation = 0.
Proof.
  pose proof valid_activation_bounds. unfold last_payout.
  destruct activation as [j|]; [|done]. destruct (Z.ltb_spec j 0); [lia|done].
Qed.

Lemma last_payout_le n : 0 ≤ n → last_payout n activation ≤ n.
Proof. intros Hn. unfold last_payout. repeat case_match; euclid. Qed.

Lemma share_at_antitone h :
  0 < h → h + 1 ≤ development_allocation_end_height_with activation →
  share_at (h + 1) activation ≤ share_at h activation.
Proof.
  intros Hh He. unfold share_at, development_allocation_active_with.
  pose proof (block_reward_antitone h (h + 1) ltac:(lia) ltac:(lia)).
  destruct (Z.ltb_spec 0 (h + 1)), (Z.ltb_spec 0 h); try lia.
  repeat case_match; try lia. apply Z.div_le_mono; lia.
Qed.

Definition sum_upto (f : Z → Z) (n : nat) : Z := sum_Z (f <$> seqZ 1 (Z.of_nat n)).

Lemma sum_upto_S f n : sum_upto f (S n) = sum_upto f n + f (Z.of_nat n + 1).
Proof.
  unfold sum_upto. replace (Z.of_nat (S n)) with (Z.of_nat n + 1) by lia.
  rewrite seqZ_app, fmap_app, sum_Z_app by lia.
  rewrite (seqZ_cons _ 1), (seqZ_nil _ (Z.pred 1)) by lia.
  rewrite (Z.add_comm 1). unfold sum_Z at 2. cbn [fmap list_fmap foldr]. lia.
Qed.

(** The shares withheld from the miner always cover the payouts. *)
Lemma payouts_covered n :
  sum_upto (λ h, payout_at h activation) n
  + (if Z.of_nat n <=? development_allocation_end_height_with activation
     then (Z.of_nat n - last_payout (Z.of_nat n) activation) * share_at (Z.of_nat n) activation
     else 0)
  ≤ sum_upto (λ h, share_at h activation) n.
Proof.
  induction n as [|n IH].
  { change (share_at (Z.of_nat 0) activation) with 0. rewrite Z.mul_0_r.
    change (sum_upto _ 0) with 0. destruct (_ <=? _); lia. }
  rewrite !sum_upto_S. replace (Z.of_nat (S n)) with (Z.of_nat n + 1) by lia.
  set (m := Z.of_nat n) in *. assert (0 ≤ m) by lia.
  pose proof (last_payout_le m ltac:(lia)). pose proof (share_at_bounds m ltac:(lia)).
  destruct (Z.leb_spec (m + 1) (development_allocation_end_height_with activation)) as [He|He].
  - destruct (Z.leb_spec m (development_allocation_end_height_with activation)); [|lia].
    pose proof (last_payout_step m ltac:(lia) He) as Hstep.
    assert (Hanti : (m - last_payout m activation) * share_at (m + 1) activation
                    ≤ (m - last_payout m activation) * share_at m activation).
    { destruct (decide (m = 0)) as [E|].
      - rewrite E, last_payout_0. lia.
      - apply Z.mul_le_mono_nonneg_l; [lia|]. apply share_at_antitone; lia. }
    unfold payout_at at 2. destruct (development_payout_due_with (m + 1) activation).
    + destruct Hstep as [Hint ->]. rewrite <- Hint. lia.
    + rewrite Hstep. lia.
  - assert (Hna : development_allocation_active_with (m + 1) activation = false)
      by (unfold development_allocation_active_with; lia).
    unfold payout_at at 2, share_at at 3, development_payout_due_with. rewrite Hna. cbn.
    case_match; nia.
Qed.

End allocation.

(** ** Counting and totalling the payouts *)

Definition payouts_upto (activation : option Z) (n : nat) : Z :=
  sum_upto (λ h, if development_payout_due_with h activation then 1 else 0) n.

(** Number of payouts at or below [n], in closed form. *)
Definition payout_index (n : Z) (activation : option Z) : Z :=
  match activation with
  | Some j => if j <? n then j / 960 + (n - j) / 480 else n / 960
  | None => n / 960
  end.

Lemma payouts_upto_index activation n :
  valid_activation activation →
  Z.of_nat n ≤ development_allocation_end_height_with activation →
  payouts_upto activation n = payout_index (Z.of_nat n) activation.
Proof.
  intros Hv. pose proof (valid_activation_bounds activation Hv) as Hb.
  induction n as [|n IH]; intros He.
  { unfold payout_index. destruct activation as [j|]; [|done].
    destruct (Z.ltb_spec j (Z.of_nat 0)); [lia|done]. }
  unfold payouts_upto in *. rewrite sum_upto_S, IH by lia. clear IH.
  replace (Z.of_nat (S n)) with (Z.of_nat n + 1) in * by lia.
  unfold development_payout_due_with, development_allocation_active_with, payout_index,
    is_multiple_of, DEVELOPMENT_PAYOUT_INTERVAL_90S, DEVELOPMENT_PAYOUT_INTERVAL_180S.
  destruct (Z.ltb_spec 0 (Z.of_nat n + 1)); [|lia].
  destruct (Z.leb_spec (Z.of_nat n + 1) (development_allocation_end_height_with activation)); [|lia].
  cbn [andb]. clear He. destruct activation as [j|].
  - destruct (Z.ltb_spec j (Z.of_nat n + 1)), (Z.ltb_spec j (Z.of_nat n)); try lia.
    all: case_match; euclid.
  - case_match; euclid.
Qed.

Lemma payouts_upto_after activation n :
  valid_activation activation →
  development_allocation_end_height_with activation ≤ Z.of_nat n →
  payouts_upto activation n = DEVELOPMENT_ALLOCATION_PAYOUTS.
Proof.
  intros Hv Hn. pose proof (end_height_bounds activation Hv) as Hend.
  pose proof (valid_activation_bounds activation Hv) as Hb.
  remember (development_allocation_end_height_with activation) as e eqn:He.
  replace n with (Z.to_nat e + (n - Z.to_nat e))%nat by lia.
  induction (n - Z.to_nat e)%nat as [|k IH].
  - rewrite Nat.add_0_r, payouts_upto_index, Z2Nat.id by (rewrite ?Z2Nat.id; lia || done).
    rewrite He. unfold payout_index, development_allocation_end_height_with,
      DEVELOPMENT_ALLOCATION_END_HEIGHT_90S, DEVELOPMENT_ALLOCATION_PAYOUTS,
      DEVELOPMENT_PAYOUT_INTERVAL_90S, DEVELOPMENT_PAYOUT_INTERVAL_180S.
    destruct activation as [j|]; [|reflexivity]. case_match; euclid.
  - rewrite Nat.add_succ_r. unfold payouts_upto in *. rewrite sum_upto_S, IH.
    assert (development_payout_due_with (Z.of_nat (Z.to_nat e + k) + 1) activation = false) as ->;
      [|lia].
    unfold development_payout_due_with, development_allocation_active_with. rewrite <- He. lia.
Qed.

(** On the 960-block cadence one day contributes its last height only. *)
Lemma dormant_payout_day k :
  0 ≤ k < 730 →
  sum_Z ((λ h, payout_at h None) <$> seqZ (1 + 960 * k) 960) = 960 * share_at (960 * (k + 1)) None.
Proof.
  intros Hk. replace 960 with (959 + 1) at 2 by lia. rewrite seqZ_app, fmap_app, sum_Z_app by lia.
  rewrite (sum_Z_const _ 0).
  - rewrite (seqZ_cons _ 1), (seqZ_nil _ (Z.pred 1)) by lia. unfold sum_Z.
    cbn [fmap list_fmap foldr]. replace (1 + 960 * k + 959) with (960 * (k + 1)) by lia.
    unfold payout_at, development_payout_due_with, is_multiple_of,
      DEVELOPMENT_PAYOUT_INTERVAL_90S, development_payout_interval_with.
    rewrite (Z.mul_comm 960 (k + 1)), Z.mod_mul by lia.
    assert (development_allocation_active_with ((k + 1) * 960) None = true) as ->;
      [|change (0 =? 0) with true; cbn [andb];
       unfold DEVELOPMENT_PAYOUT_INTERVAL_90S; lia].
    unfold development_allocation_active_with.
    change (development_allocation_end_height_with None) with 700800. lia.
  - apply Forall_forall. intros h Hh. apply elem_of_seqZ in Hh.
    unfold payout_at, development_payout_due_with, is_multiple_of, DEVELOPMENT_PAYOUT_INTERVAL_90S.
    replace (h mod 960 =? 0) with false by euclid. rewrite andb_false_r. done.
Qed.

Lemma dormant_payout_days k :
  Z.of_nat k ≤ 730 →
  sum_Z ((λ h, payout_at h None) <$> seqZ 1 (960 * Z.of_nat k)) =
  sum_upto (λ i, 960 * share_at (960 * i) None) k.
Proof.
  induction k as [|k IH]; intros Hk; [done|].
  rewrite sum_upto_S, <- IH by lia. replace (960 * Z.of_nat (S k)) with (960 * Z.of_nat k + 960) by lia.
  rewrite seqZ_app, fmap_app, sum_Z_app, dormant_payout_day by lia. done.
Qed.

(** ** Properties *)

(** C7: The height schedule never issues more than the 21M cap, and the sum of
    the block rewards over the coinbase-carrying heights [1 .. n] reaches the cap
    exactly when [n] is the last paying height or later. *)
Theorem total_emission_is_exactly_the_cap (n : nat) :
  reward_between 1 (Z.of_nat n) ≤ MAX_SUPPLY_MICRO
  ∧ (reward_between 1 (Z.of_nat n) = MAX_SUPPLY_MICRO ↔ EMISSION_END_HEIGHT - 1 ≤ Z.of_nat n).
Proof.
  rewrite EMISSION_END_HEIGHT_eq. split; [apply reward_between_cap; lia|]. split.
  - intros Heq. destruct (decide (3467663 ≤ Z.of_nat n)) as [|Hlt]; [lia|].
    pose proof (reward_between_mono 1 (Z.of_nat n) 3467662 ltac:(lia) ltac:(lia)) as Hm.
    rewrite Heq, (reward_between_last 3467662) in Hm by lia.
    change MAX_SUPPLY_MICRO with 21000000000000 in Hm. lia.
  - intros Hn. apply reward_between_end. lia.
Qed.

(** At every height the development allocation is computed without error,
    the miner's subsidy is computed without panic and agrees with it, and the
    miner's subsidy and the two shares split the block reward exactly. *)
Theorem development_allocation_total (h : nat) :
  ∃ d, development_allocation (Z.of_nat h) = Ok d
       ∧ miner_subsidy (Z.of_nat h) = Some (da_miner_subsidy d)
       ∧ da_miner_subsidy d + 2 * da_share_each d = block_reward (Z.of_nat h)
       ∧ 0 ≤ da_share_each d ∧ 0 ≤ da_miner_subsidy d
       ∧ (is_Some (da_payout_each d) ↔ development_payout_due (Z.of_nat h) = true).
Proof.
  assert (Hv : valid_activation V1_5_ACTIVATION_HEIGHT) by (split; [lia|reflexivity]).
  eexists. split; [apply development_allocation_with_spec; [done|lia]|]. cbn [da_miner_subsidy
    da_share_each da_payout_each].
  pose proof (share_at_bounds V1_5_ACTIVATION_HEIGHT (Z.of_nat h) ltac:(lia)).
  split; [|split; [lia|split; [lia|split; [lia|]]]].
  - unfold miner_subsidy, development_allocation_active.
    destruct (development_allocation_active_with _ _) eqn:Ha.
    + rewrite (share_each_exact _ Hv) by done. done.
    + unfold share_at. rewrite Ha. f_equal. lia.
  - unfold development_payout_due. case_match; split; try done.
Qed.

Lemma issuance_between_le (activation : option Z) (n : nat) (Hvalid : valid_activation activation) :
  issuance_between (Z.of_nat n) activation ≤ reward_between 1 (Z.of_nat n).
Proof.
  pose proof (payouts_covered activation Hvalid n) as Hcov.
  assert (0 ≤ (if Z.of_nat n <=? development_allocation_end_height_with activation
     then (Z.of_nat n - last_payout (Z.of_nat n) activation) * share_at (Z.of_nat n) activation
     else 0)).
  { pose proof (last_payout_le activation Hvalid (Z.of_nat n)).
    pose proof (share_at_bounds activation (Z.of_nat n)). case_match; nia. }
  assert (Hsum : issuance_between (Z.of_nat n) activation =
            reward_between 1 (Z.of_nat n) - 2 * sum_upto (λ h, share_at h activation) n
            + 2 * sum_upto (λ h, payout_at h activation) n).
  { unfold issuance_between, reward_between.
    change (sum_upto (λ h, issuance_limit h activation) n =
            sum_upto block_reward n - 2 * sum_upto (λ h, share_at h activation) n
            + 2 * sum_upto (λ h, payout_at h activation) n).
    clear -Hvalid. induction n as [|n IH]; [done|]. rewrite !sum_upto_S, IH.
    rewrite issuance_limit_eq by (done || lia). lia. }
  lia.
Qed.

(** Under every admissible v1.5 activation height, the miner subsidies and the
    mandatory development payouts of the heights [1 .. n] together never issue more
    than the sum of the block rewards of those heights. *)
Theorem issuance_within_schedule (activation : option Z) (n : nat)
    (Hvalid : valid_activation activation) :
  issuance_between (Z.of_nat n) activation ≤ reward_between 1 (Z.of_nat n).
Proof. by apply issuance_between_le. Qed.

Lemma issuance_within_schedule_witness :
  issuance_between 960 V1_5_ACTIVATION_HEIGHT ≤ reward_between 1 960.
Proof. apply (issuance_within_schedule V1_5_ACTIVATION_HEIGHT 960). split; [lia|reflexivity]. Defined.

(** Under every admissible v1.5 activation height, the chain carries exactly
    730 development payouts: none is lost or added where the cadence changes from
    960 to 480 blocks, and none follows the end of the window. *)
Theorem exactly_730_payouts (activation : option Z) (n : nat)
    (Hvalid : valid_activation activation)
    (Hn : development_allocation_end_height_with activation ≤ Z.of_nat n) :
  payouts_upto activation n = DEVELOPMENT_ALLOCATION_PAYOUTS.
Proof. by apply payouts_upto_after. Qed.

Lemma exactly_730_payouts_witness : payouts_upto None (Z.to_nat 700800) = 730.
Proof.
  apply (exactly_730_payouts None (Z.to_nat 700800)); [exact I|].
  rewrite Z2Nat.id; [reflexivity|]. discriminate.
Defined.

(** With v1.5 dormant, the two funds together receive exactly 1 160 400 JTM
    over the 700 800-block window (not the 1 164 000 JTM of the documentation of
    [DEVELOPMENT_ALLOCATION_END_HEIGHT]: the payout at each halving height is paid at
    the new tier for the whole day before it). *)
Theorem dormant_fund_total :
  2 * sum_Z ((λ h, payout_at h None) <$> seqZ 1 DEVELOPMENT_ALLOCATION_END_HEIGHT_90S)
  = 1160400 * MICRO_PER_JTM.
Proof.
  change DEVELOPMENT_ALLOCATION_END_HEIGHT_90S with (960 * Z.of_nat 730).
  rewrite dormant_payout_days by lia. vm_compute. reflexivity.
Qed.
