(* ===== verification/Poseidon.v ===== *)
(** * Poseidon2b sponge and compression

    [jetsam_poseidon2b/src/native/compression.rs], [native/domain.rs] and the
    hash primitives of [primitives.rs].  The 4-lane permutation is a parameter
    ([Poseidon2bPermutation]); everything built on it (byte buffering, padding,
    capacity IVs, two-permutation compression, the 16-leaf body tree) is
    concrete.  The theorem of this file is that the streaming sponge computes
    a reference function of the concatenation of everything absorbed. *)

From S2P Require Import Prelude Machine.

(** A 128-bit field element is its [u128] representation; addition in the
    binary tower field is exclusive or. *)
Definition Block128_add (a b : Z) : Z := Z.lxor a b.
Definition Block128_to_bytes (a : Z) : list Z := to_le_bytes 16 a.
Definition Block128_from_bytes (bs : list Z) : Z := from_le_bytes bs.

(** The four lanes of the permutation state. *)
Definition lanes : Type := Z * Z * Z * Z.

Class Poseidon2bPermutation : Type := permute_mut : lanes → lanes.

(** A concrete (and cryptographically worthless) permutation of the four
    lanes, on which examples are evaluated. *)
Definition example_permutation : Poseidon2bPermutation := λ '(a, b, c, d),
  (wrap 128 (b + 3 * c + 5), wrap 128 (c + 7 * d + 11), wrap 128 (d + a), wrap 128 (a + 9 * b + 1)).

(** ** Domain tags *)

(** The ASCII bytes of a label. *)
Definition DomainTag : Type := list Z.

Definition DomainTag_as_u64 (tag : DomainTag) : Z := from_be_bytes tag.

Definition capacity_iv (tag : DomainTag) : Z * Z :=
  let label := DomainTag_as_u64 tag in
  (Z.shiftl label 64, label).

Definition TAG_COMMIT : DomainTag := [69; 95; 67; 79; 77; 77; 73; 84].   (* E_COMMIT *)
Definition TAG_TX8X2 : DomainTag := [69; 95; 84; 88; 56; 88; 50; 95].    (* E_TX8X2_ *)
Definition TAG_TXROOT : DomainTag := [69; 95; 84; 88; 82; 79; 79; 84].   (* E_TXROOT *)
Definition TAG_BLOCKHDR : DomainTag := [69; 95; 66; 76; 75; 72; 68; 82]. (* E_BLKHDR *)
Definition TAG_POWHDR : DomainTag := [69; 95; 80; 79; 87; 72; 68; 82].   (* E_POWHDR *)
Definition TAG_SEMHDR : DomainTag := [69; 95; 83; 69; 77; 72; 68; 82].   (* E_SEMHDR *)
Definition TAG_COMPRESS : DomainTag := [69; 95; 67; 79; 77; 80; 82; 83]. (* E_COMPRS *)
Definition TAG_CLAIMS : DomainTag := [69; 95; 67; 76; 65; 73; 77; 83].   (* E_CLAIMS *)
Definition TAG_EXSTSLT : DomainTag := [69; 95; 69; 88; 83; 83; 76; 84].  (* E_EXSSLT *)
Definition TAG_EXSTNOD : DomainTag := [69; 95; 69; 88; 83; 78; 79; 68].  (* E_EXSNOD *)
Definition TAG_PAGED_SPEND : DomainTag := [80; 65; 71; 69; 68; 84; 88; 95]. (* PAGEDTX_ *)

(** ** Slices *)

(** [slice::chunks_exact] and its remainder. *)
Definition chunks_exact (k : nat) (l : list Z) : list (list Z) :=
  (λ i, take k (drop (k * i) l)) <$> seq 0 (length l / k).

Definition chunks_remainder (k : nat) (l : list Z) : list Z :=
  drop (k * (length l / k)) l.

(** [buffer[at .. at + data.len()].copy_from_slice(data)]. *)
Definition copy_into (buffer : list Z) (at_ : nat) (data : list Z) : list Z :=
  take at_ buffer ++ data ++ drop (at_ + length data) buffer.

Definition PADDING_START : Z := 0x80.
Definition PADDING_END : Z := 0x01.

(** [fill_padding]: zero the slice, then set the two marker bits. *)
Definition fill_padding (data : list Z) : list Z :=
  let data := replicate (length data) 0 in
  let data := <[0%nat := Z.lor (data !!! 0%nat) PADDING_START]> data in
  <[(length data - 1)%nat := Z.lor (data !!! (length data - 1)%nat) PADDING_END]> data.

(** ** The sponge *)

Record Poseidon2bSponge := mkSponge {
  sp_state : lanes;
  sp_buffer : list Z;
  sp_filled_bytes : nat;
}.

Definition with_iv (iv : Z * Z) : Poseidon2bSponge :=
  mkSponge (0, 0, fst iv, snd iv) (replicate 32 0) 0.

Section sponge.
  Context {P : Poseidon2bPermutation}.

(** Exclusive or of one 32-byte block into the rate, then one permutation. *)
Definition absorb_block (state : lanes) (block : list Z) : lanes :=
  let '(s0, s1, s2, s3) := state in
  permute_mut (Block128_add s0 (Block128_from_bytes (take 16 block)),
               Block128_add s1 (Block128_from_bytes (take 16 (drop 16 block))), s2, s3).

Definition permute_buffer (s : Poseidon2bSponge) : Poseidon2bSponge :=
  mkSponge (absorb_block (sp_state s) (sp_buffer s)) (sp_buffer s) (sp_filled_bytes s).

Definition update (s : Poseidon2bSponge) (data : list Z) : Poseidon2bSponge :=
  let '(s, data) :=
    if decide (sp_filled_bytes s ≠ 0%nat) then
      let to_copy := (length data `min` (32 - sp_filled_bytes s))%nat in
      let s1 := mkSponge (sp_state s)
                  (copy_into (sp_buffer s) (sp_filled_bytes s) (take to_copy data))
                  (sp_filled_bytes s + to_copy) in
      let data := drop to_copy data in
      if decide (sp_filled_bytes s1 = 32%nat) then
        let s2 := permute_buffer s1 in
        (mkSponge (sp_state s2) (sp_buffer s2) 0, data)
      else (s1, data)
    else (s, data) in
  let s := foldl (λ s chunk, permute_buffer (mkSponge (sp_state s) chunk (sp_filled_bytes s)))
             s (chunks_exact 32 data) in
  let remaining := chunks_remainder 32 data in
  if decide (remaining ≠ []) then
    mkSponge (sp_state s) (copy_into (sp_buffer s) 0 remaining) (length remaining)
  else s.

Definition absorb (s : Poseidon2bSponge) (elem : Z) : Poseidon2bSponge :=
  update s (Block128_to_bytes elem).

Definition absorb_pair (s : Poseidon2bSponge) (a b : Z) : Poseidon2bSponge :=
  update s (Block128_to_bytes a ++ Block128_to_bytes b).

Definition squeeze_32 (s : Poseidon2bSponge) : list Z :=
  let '(s0, s1, _, _) := sp_state s in
  Block128_to_bytes s0 ++ Block128_to_bytes s1.

Definition finalize (s : Poseidon2bSponge) : list Z :=
  let buffer := take (sp_filled_bytes s) (sp_buffer s)
                ++ fill_padding (drop (sp_filled_bytes s) (sp_buffer s)) in
  squeeze_32 (permute_buffer (mkSponge (sp_state s) buffer (sp_filled_bytes s))).

Definition finalize_no_pad (s : Poseidon2bSponge) : list Z := squeeze_32 s.

(** ** Two-to-one compression *)

Definition compress_with_tag (tag : DomainTag) (a b : list Z) : list Z :=
  let a0 := Block128_from_bytes (take 16 a) in
  let a1 := Block128_from_bytes (drop 16 a) in
  let b0 := Block128_from_bytes (take 16 b) in
  let b1 := Block128_from_bytes (drop 16 b) in
  let '(iv_hi, iv_lo) := capacity_iv tag in
  let '(s0, s1, s2, s3) := permute_mut (a0, a1, iv_hi, iv_lo) in
  let '(s0, s1, _, _) := permute_mut (Block128_add s0 b0, Block128_add s1 b1, s2, s3) in
  Block128_to_bytes s0 ++ Block128_to_bytes s1.

Definition compress (a b : list Z) : list Z := compress_with_tag TAG_COMPRESS a b.

(** The scalar path of [compress_batch_interleaved_into]: one node per
    interleaved pair. *)
Fixpoint compress_batch_interleaved (pairs : list (list Z)) : list (list Z) :=
  match pairs with
  | l :: r :: rest => compress l r :: compress_batch_interleaved rest
  | _ => []
  end.

(** ** Primitives *)

(** [Digest::as_fields]. *)
Definition as_fields (d : list Z) : Z * Z :=
  (Block128_from_bytes (take 16 d), Block128_from_bytes (drop 16 d)).

Definition absorb_digest (s : Poseidon2bSponge) (d : list Z) : Poseidon2bSponge :=
  let '(hi, lo) := as_fields d in absorb_pair s hi lo.

Definition hash_utxo_leaf (value : Z) (owner : list Z) : list Z :=
  let '(owner_hi, owner_lo) := as_fields owner in
  finalize (absorb (absorb (absorb (with_iv (capacity_iv TAG_COMMIT)) value) owner_hi) owner_lo).

Definition fields_to_digest (fields : Z * Z) : list Z :=
  Block128_to_bytes (fst fields) ++ Block128_to_bytes (snd fields).

Definition tx8x2_wrap (root : list Z) : list Z :=
  let r0 := Block128_from_bytes (take 16 root) in
  let r1 := Block128_from_bytes (drop 16 root) in
  let '(iv_hi, iv_lo) := capacity_iv TAG_TX8X2 in
  let '(s0, s1, _, _) := permute_mut (r0, r1, iv_hi, iv_lo) in
  Block128_to_bytes s0 ++ Block128_to_bytes s1.

Definition TX8X2_TREE_DEPTH : nat := 4.

Definition hash_tx8x2_leaves (leaves : list (Z * Z)) : list Z :=
  let level := fields_to_digest <$> leaves in
  let level := Nat.iter TX8X2_TREE_DEPTH compress_batch_interleaved level in
  tx8x2_wrap (level !!! 0%nat).

(** ** The reference construction *)

(** The padded message: [0x80], zeros and [0x01] up to the next block. *)
Definition pad (msg : list Z) : list Z :=
  msg ++ fill_padding (replicate (32 - length msg mod 32) 0).

Definition sponge_ref (iv : Z * Z) (msg : list Z) : list Z :=
  let '(s0, s1, _, _) := foldl absorb_block (0, 0, fst iv, snd iv) (chunks_exact 32 (pad msg)) in
  Block128_to_bytes s0 ++ Block128_to_bytes s1.

(** ** Chunks *)

Lemma chunks_exact_nil_short k l : (length l < k)%nat → chunks_exact k l = [].
Proof. intros H. unfold chunks_exact. rewrite Nat.div_small by done. done. Qed.

Lemma chunks_remainder_short k l : (length l < k)%nat → chunks_remainder k l = l.
Proof. intros H. unfold chunks_remainder. rewrite Nat.div_small by done. rewrite Nat.mul_0_r. done. Qed.

Lemma div_app_len k q n : (0 < k)%nat → ((k * q + n) / k = q + n / k)%nat.
Proof. intros Hk. rewrite Nat.mul_comm, Nat.div_add_l by lia. done. Qed.

Lemma chunks_exact_app k q l1 l2 :
  (0 < k)%nat → length l1 = (k * q)%nat →
  chunks_exact k (l1 ++ l2) = chunks_exact k l1 ++ chunks_exact k l2.
Proof.
  intros Hk Hl. unfold chunks_exact. rewrite length_app, Hl, div_app_len by done.
  replace (k * q / k)%nat with q by (rewrite Nat.mul_comm, Nat.div_mul; lia).
  rewrite seq_app, fmap_app. f_equal.
  - apply list_fmap_ext. intros i j Hj. apply lookup_seq in Hj as [-> Hi]. cbn [Nat.add].
    rewrite drop_app_le by nia. rewrite take_app_le; [done|]. rewrite length_drop. nia.
  - replace (0 + q)%nat with (q + 0)%nat by lia. rewrite <- fmap_add_seq, <- list_fmap_compose.
    apply list_fmap_ext. intros i j _. cbn.
    rewrite drop_app_ge by nia. do 2 f_equal. rewrite Hl. nia.
Qed.

Lemma chunks_remainder_app k q l1 l2 :
  (0 < k)%nat → length l1 = (k * q)%nat →
  chunks_remainder k (l1 ++ l2) = chunks_remainder k l2.
Proof.
  intros Hk Hl. unfold chunks_remainder. rewrite length_app, Hl, div_app_len by done.
  rewrite drop_app_ge by nia. f_equal. rewrite Hl. nia.
Qed.

Lemma chunks_exact_single k l : (0 < k)%nat → length l = k → chunks_exact k l = [l].
Proof.
  intros Hk Hl. unfold chunks_exact. rewrite Hl, Nat.div_same by lia. cbn.
  rewrite Nat.mul_0_r, drop_0, take_ge by lia. done.
Qed.

Lemma chunks_split k l :
  (0 < k)%nat →
  ∃ l0 q, l = l0 ++ chunks_remainder k l ∧ length l0 = (k * q)%nat
          ∧ chunks_exact k l = chunks_exact k l0 ∧ (length (chunks_remainder k l) < k)%nat.
Proof.
  intros Hk. exists (take (k * (length l / k)) l), (length l / k)%nat.
  assert (Hle : (k * (length l / k) ≤ length l)%nat) by (apply Nat.mul_div_le; lia).
  assert (Hlen : length (take (k * (length l / k)) l) = (k * (length l / k))%nat)
    by (rewrite length_take; lia).
  assert (Hr : (length (chunks_remainder k l) < k)%nat).
  { unfold chunks_remainder. rewrite length_drop.
    pose proof (Nat.mod_upper_bound (length l) k ltac:(lia)). rewrite Nat.Div0.mod_eq in H. lia. }
  assert (Hl : l = take (k * (length l / k)) l ++ chunks_remainder k l)
    by (unfold chunks_remainder; by rewrite take_drop).
  split; [done|split; [done|split; [|done]]].
  rewrite Hl at 1. rewrite (chunks_exact_app _ _ _ _ Hk Hlen).
  rewrite (chunks_exact_nil_short _ (chunks_remainder k l)) by done. apply app_nil_r.
Qed.

Lemma chunks_exact_lengths k l c : c ∈ chunks_exact k l → length c = k.
Proof.
  intros Hc. unfold chunks_exact in Hc. apply list_elem_of_fmap in Hc as (i & -> & Hi).
  apply elem_of_seq in Hi. rewrite length_take, length_drop.
  assert (k ≠ 0)%nat by (intros ->; cbn in Hi; lia).
  pose proof (Nat.mul_div_le (length l) k ltac:(done)). nia.
Qed.

(** ** The streaming sponge represents a state and a pending partial block *)

Definition sponge_rep (s : Poseidon2bSponge) (state : lanes) (pending : list Z) : Prop :=
  sp_state s = state ∧ sp_filled_bytes s = length pending ∧ (length pending < 32)%nat
  ∧ length (sp_buffer s) = 32%nat ∧ take (length pending) (sp_buffer s) = pending.

Lemma length_copy_into buffer i data :
  (i + length data ≤ length buffer)%nat → length (copy_into buffer i data) = length buffer.
Proof. intros H. unfold copy_into. rewrite !length_app, length_take, length_drop. lia. Qed.

Lemma take_copy_into buffer i data :
  (i + length data ≤ length buffer)%nat →
  take (i + length data) (copy_into buffer i data) = take i buffer ++ data.
Proof.
  intros H. unfold copy_into. rewrite app_assoc, take_app_length'; [done|].
  rewrite length_app, length_take. lia.
Qed.

(** The loop over whole blocks. *)
Lemma absorb_chunks_rep s chunks :
  (∀ c, c ∈ chunks → length c = 32%nat) → length (sp_buffer s) = 32%nat →
  let s' := foldl (λ s chunk, permute_buffer (mkSponge (sp_state s) chunk (sp_filled_bytes s)))
              s chunks in
  sp_state s' = foldl absorb_block (sp_state s) chunks
  ∧ sp_filled_bytes s' = sp_filled_bytes s ∧ length (sp_buffer s') = 32%nat.
Proof.
  revert s; induction chunks as [|c chunks IH]; intros s Hc Hb; cbn; [done|].
  destruct (IH (permute_buffer (mkSponge (sp_state s) c (sp_filled_bytes s)))) as (-> & -> & Hl);
    [set_solver|cbn; apply Hc; set_solver|done].
Qed.

Lemma update_aligned_rep s st data :
  sponge_rep s st [] →
  sponge_rep (update s data) (foldl absorb_block st (chunks_exact 32 data))
    (chunks_remainder 32 data).
Proof.
  intros (Hst & Hf & _ & Hb & _). cbn in Hf. unfold update.
  rewrite decide_False by lia.
  destruct (absorb_chunks_rep s (chunks_exact 32 data)) as (Hst' & Hf' & Hb');
    [apply chunks_exact_lengths|done|].
  set (s' := foldl (λ s chunk, permute_buffer _) s _) in *. clearbody s'.
  destruct (chunks_split 32 data ltac:(lia)) as (_ & _ & _ & _ & _ & Hr).
  destruct (decide (chunks_remainder 32 data ≠ [])) as [Hne|He].
  - split_and!; cbn [sp_state sp_buffer sp_filled_bytes length]; [rewrite Hst', Hst; done|done|done|rewrite length_copy_into; lia|].
    apply (take_copy_into (sp_buffer s') 0 (chunks_remainder 32 data)). lia.
  - apply dec_stable in He. rewrite He. split_and!; cbn [sp_state sp_buffer sp_filled_bytes length]; [congruence|congruence|lia|done|done].
Qed.

(** A partial block that the data completes is flushed first. *)
Lemma update_long s st pending data :
  let n := (32 - length pending)%nat in
  sponge_rep s st pending → pending ≠ [] → ¬ (length pending + length data < 32)%nat →
  update s data = update (mkSponge (absorb_block st (pending ++ take n data))
                            (pending ++ take n data) 0) (drop n data).
Proof.
  intros n (Hst & Hf & Hlt & Hb & Htk) Hne Hlong.
  assert (Hf0 : sp_filled_bytes s ≠ 0%nat) by (destruct pending; cbn in *; [done|lia]).
  symmetry. unfold update at 1. rewrite decide_False by (cbn; lia). symmetry.
  unfold update at 1. rewrite decide_True by done. cbn [sp_filled_bytes sp_buffer sp_state].
  rewrite Nat.min_r, decide_True by lia. rewrite Hf. fold n.
  assert (copy_into (sp_buffer s) (length pending) (take n data) = pending ++ take n data) as ->;
    [|unfold permute_buffer; cbn; by rewrite Hst].
  rewrite <- (take_ge (copy_into _ _ _) (length pending + length (take n data))).
  - rewrite take_copy_into, Htk; [done|]. rewrite length_take. lia.
  - rewrite length_copy_into; rewrite length_take; lia.
Qed.

Lemma update_rep s st pending data :
  sponge_rep s st pending →
  sponge_rep (update s data) (foldl absorb_block st (chunks_exact 32 (pending ++ data)))
    (chunks_remainder 32 (pending ++ data)).
Proof.
  intros Hrep. destruct (decide (pending = [])) as [->|Hne]; [by apply update_aligned_rep|].
  pose proof Hrep as (Hst & Hf & Hlt & Hb & Htk).
  assert (Hf0 : sp_filled_bytes s ≠ 0%nat) by (destruct pending; cbn in *; [done|lia]).
  destruct (decide (length pending + length data < 32)%nat) as [Hshort|Hlong].
  - rewrite chunks_exact_nil_short, chunks_remainder_short by (rewrite length_app; lia).
    unfold update. rewrite decide_True by done. cbn [sp_filled_bytes sp_buffer sp_state].
    rewrite Nat.min_l by lia. rewrite decide_False by lia.
    rewrite drop_ge, firstn_all by lia. cbn. rewrite decide_False by tauto. rewrite Hf.
    split_and!; cbn [sp_state sp_buffer sp_filled_bytes length]; rewrite ?length_app; [done|lia|lia|..].
    + rewrite length_copy_into; lia.
    + rewrite take_copy_into by lia. congruence.
  - set (n := (32 - length pending)%nat).
    assert (Hblk : length (pending ++ take n data) = 32%nat)
      by (rewrite length_app, length_take; lia).
    rewrite <- (take_drop n data) at 2 3. rewrite app_assoc.
    rewrite (chunks_exact_app 32 1), (chunks_remainder_app 32 1) by lia.
    rewrite chunks_exact_single by lia. rewrite foldl_app. cbn [foldl].
    rewrite (update_long s st pending data) by done. apply update_aligned_rep.
    split_and!; cbn; [done|done|lia|exact Hblk|done].
Qed.

Lemma with_iv_rep iv : sponge_rep (with_iv iv) (0, 0, fst iv, snd iv) [].
Proof. split_and!; cbn; done || lia. Qed.

Lemma updates_rep iv datas :
  sponge_rep (foldl update (with_iv iv) datas)
    (foldl absorb_block (0, 0, fst iv, snd iv) (chunks_exact 32 (concat datas)))
    (chunks_remainder 32 (concat datas)).
Proof.
  induction datas as [|d datas IH] using rev_ind; [apply with_iv_rep|].
  rewrite foldl_app, concat_app. cbn [foldl concat]. rewrite app_nil_r.
  apply (update_rep _ _ _ d) in IH.
  destruct (chunks_split 32 (concat datas) ltac:(lia)) as (l0 & q & Hl & Hq & Hc & _).
  rewrite Hc, <- foldl_app, <- (chunks_exact_app 32 q) in IH by (done || lia).
  rewrite <- (chunks_remainder_app 32 q l0 (_ ++ d)) in IH by (done || lia).
  rewrite app_assoc, <- Hl in IH. done.
Qed.

Lemma length_fill_padding l : length (fill_padding l) = length l.
Proof. unfold fill_padding. rewrite !length_insert, length_replicate. done. Qed.

Lemma fill_padding_ext l1 l2 : length l1 = length l2 → fill_padding l1 = fill_padding l2.
Proof. unfold fill_padding. by intros ->. Qed.

Lemma finalize_rep s st pending :
  sponge_rep s st pending →
  finalize s =
    let '(s0, s1, _, _) := absorb_block st (pending ++ fill_padding (replicate (32 - length pending) 0)) in
    Block128_to_bytes s0 ++ Block128_to_bytes s1.
Proof.
  intros (Hst & Hf & Hlt & Hb & Htk). unfold finalize, squeeze_32, permute_buffer.
  cbn [sp_state sp_buffer]. rewrite Hf, Htk, Hst.
  rewrite (fill_padding_ext (drop _ _) (replicate (32 - length pending) 0)); [done|].
  rewrite length_drop, length_replicate. lia.
Qed.

Lemma pad_chunks msg :
  chunks_exact 32 (pad msg) =
  chunks_exact 32 msg
    ++ [chunks_remainder 32 msg ++ fill_padding (replicate (32 - length (chunks_remainder 32 msg)) 0)].
Proof.
  destruct (chunks_split 32 msg ltac:(lia)) as (l0 & q & Hl & Hq & Hc & Hr).
  assert (Hm : (length msg mod 32 = length (chunks_remainder 32 msg))%nat).
  { rewrite Hl at 1. rewrite length_app, Hq, Nat.add_comm, Nat.mul_comm, Nat.Div0.mod_add.
    apply Nat.mod_small. lia. }
  unfold pad. rewrite Hm, Hl at 1. rewrite <- app_assoc, (chunks_exact_app 32 q) by (done || lia).
  rewrite Hc, (chunks_exact_single 32 (_ ++ _)); [done|lia|].
  rewrite length_app, length_fill_padding, length_replicate. lia.
Qed.

(** The sponge lemma in the form the other files rewrite with. *)
Lemma finalize_updates iv datas :
  finalize (foldl update (with_iv iv) datas) = sponge_ref iv (concat datas).
Proof.
  rewrite (finalize_rep _ _ _ (updates_rep iv datas)).
  unfold sponge_ref. rewrite pad_chunks, foldl_app. done.
Qed.

(** ** Padding is injective *)

(** The byte at position [i] of a padding of [n] bytes. *)
Definition padding_byte (n i : nat) : Z :=
  (if decide (i = 0%nat) then 0x80 else 0) + (if decide (i = n - 1)%nat then 0x01 else 0).

Lemma lookup_fill_padding n i :
  (i < n)%nat → fill_padding (replicate n 0) !! i = Some (padding_byte n i).
Proof.
  intros Hi. unfold padding_byte. destruct (decide (n = 1%nat)) as [->|Hn].
  { assert (i = 0%nat) as -> by lia. reflexivity. }
  unfold fill_padding. rewrite !length_insert, !length_replicate.
  rewrite (lookup_total_replicate_2 n 0 0), list_lookup_total_insert_ne,
    (lookup_total_replicate_2 n 0 (n - 1)) by lia.
  change (Z.lor 0 PADDING_START) with 0x80. change (Z.lor 0 PADDING_END) with 0x01.
  destruct (decide (i = n - 1)%nat) as [->|Hl].
  - rewrite list_lookup_insert_eq by (rewrite length_insert, length_replicate; lia).
    rewrite decide_False by lia. done.
  - rewrite list_lookup_insert_ne by lia. destruct (decide (i = 0%nat)) as [->|].
    + rewrite list_lookup_insert_eq by (rewrite length_replicate; lia). done.
    + rewrite list_lookup_insert_ne, lookup_replicate_2 by lia. done.
Qed.

Lemma pad_length m : ∃ q, length (pad m) = (32 * q)%nat ∧ (length m < 32 * q ≤ length m + 32)%nat.
Proof.
  exists (length m / 32 + 1)%nat. unfold pad.
  rewrite length_app, length_fill_padding, length_replicate.
  pose proof (Nat.div_mod_eq (length m) 32). pose proof (Nat.mod_upper_bound (length m) 32). lia.
Qed.

Lemma lookup_pad m i :
  (length m ≤ i < length (pad m))%nat →
  pad m !! i = Some (padding_byte (length (pad m) - length m) (i - length m)).
Proof.
  unfold pad. rewrite length_app, length_fill_padding, length_replicate. intros Hi.
  rewrite lookup_app_r by lia. rewrite lookup_fill_padding by lia. do 2 f_equal. lia.
Qed.

Lemma pad_inj_le m1 m2 : (length m1 ≤ length m2)%nat → pad m1 = pad m2 → m1 = m2.
Proof.
  intros Hle Heq. destruct (decide (length m1 = length m2)) as [Hl|Hl].
  { unfold pad in Heq. apply app_inj_1 in Heq as [??]; done. }
  destruct (pad_length m1) as (q1 & Hp1 & Hb1). destruct (pad_length m2) as (q2 & Hp2 & Hb2).
  pose proof (lookup_pad m2 (length m2) ltac:(lia)) as H2.
  rewrite <- Heq, lookup_pad in H2 by (rewrite Heq; lia).
  injection H2 as H2. unfold padding_byte in H2. rewrite Heq in H2.
  rewrite Nat.sub_diag in H2. repeat case_decide; lia.
Qed.

Lemma pad_inj m1 m2 : pad m1 = pad m2 → m1 = m2.
Proof.
  intros Heq. destruct (decide (length m1 ≤ length m2)%nat); [by apply pad_inj_le|].
  symmetry. apply pad_inj_le; [lia|done].
Qed.

(** Digests are 32 bytes. *)
Lemma two_words_digest a b : is_digest (Block128_to_bytes a ++ Block128_to_bytes b).
Proof.
  unfold Block128_to_bytes, byte_array. rewrite length_app, !length_to_le_bytes.
  split; [done|]. apply byte_string_app; auto with jetsam.
Qed.

Lemma finalize_digest s : is_digest (finalize s).
Proof.
  unfold finalize, squeeze_32. destruct (sp_state _) as [[[? ?] ?] ?]. apply two_words_digest.
Qed.

Lemma compress_with_tag_digest tag a b : is_digest (compress_with_tag tag a b).
Proof.
  unfold compress_with_tag. destruct (capacity_iv tag).
  destruct (permute_mut _) as [[[? ?] ?] ?]. destruct (permute_mut _) as [[[? ?] ?] ?].
  apply two_words_digest.
Qed.

(** C24: Whatever way a message is cut into [update] calls, the streaming sponge
    returns the reference hash of the concatenation (the digest is a function of the
    absorbed bytes alone, and stale buffer bytes never reach it), and the padded block
    sequence that this reference hash consumes determines the message. *)
Theorem sponge_refines_reference (iv : Z * Z) (datas datas' : list (list Z)) :
  finalize (foldl update (with_iv iv) datas) = sponge_ref iv (concat datas)
  ∧ (pad (concat datas) = pad (concat datas') ↔ concat datas = concat datas').
Proof. split; [apply finalize_updates|]. split; [apply pad_inj|by intros ->]. Qed.

End sponge.
