(* ===== verification/TxTypes.v ===== *)
(** * Transaction bodies

    [jetsam_tx/src/types.rs] (the fixed 8-input, 2-output body and its
    validity bitmap), [public_logic.rs] (canonical body checks),
    [owner_auth.rs], [body_hash.rs] and [claims.rs].  The main theorem
    characterises the canonical bodies that the validator accepts. *)

From S2P Require Import Prelude Machine Poseidon.

(** ** types.rs *)

Definition TX_INPUTS : nat := 8.
Definition TX_OUTPUTS : nat := 2.
Definition TX_ACTIONS : nat := TX_INPUTS + TX_OUTPUTS.
Definition TX_VALIDITY_MASK : Z := Z.shiftl 1 (Z.of_nat TX_ACTIONS) - 1.

Definition output_bitmap_bit (index : nat) : Z := Z.shiftl 1 (Z.of_nat (TX_INPUTS + index)).

Definition pack_amount_creation_id (amount creation_id : Z) : Z :=
  Z.lor (Z.shiftl creation_id 64) amount.

Definition unpack_amount_creation_id (packed : Z) : Z * Z :=
  (wrap 64 packed, wrap 64 (Z.shiftr packed 64)).

Record TxInput := mkTxInput {
  ti_slot_index : Z;
  ti_amount : Z;
  ti_creation_id : Z;
}.

Record TxOutput := mkTxOutput {
  to_slot_index : Z;
  to_amount : Z;
  to_owner : list Z;
}.

Record TxBody := mkTxBody {
  tb_epoch_anchor : list Z;
  tb_fee : Z;
  tb_input_owner : list Z;
  tb_inputs : list TxInput;
  tb_outputs : list TxOutput;
  tb_validity_bitmap : Z;
  tb_is_coinbase : bool;
}.

Record Transaction := mkTransaction { tx_body : TxBody }.

#[global] Instance TxInput_eq_dec : EqDecision TxInput.
Proof. solve_decision. Defined.
#[global] Instance TxOutput_eq_dec : EqDecision TxOutput.
Proof. solve_decision. Defined.
#[global] Instance TxBody_eq_dec : EqDecision TxBody.
Proof. solve_decision. Defined.

#[global] Instance Transaction_eq_dec : EqDecision Transaction.
Proof. solve_decision. Defined.

Definition TxInput_dummy : TxInput := mkTxInput 0 0 0.
Definition TxOutput_dummy : TxOutput := mkTxOutput 0 0 zero_digest.

Definition is_primary_coinbase_shape (body : TxBody) : bool :=
  tb_is_coinbase body && (tb_validity_bitmap body =? output_bitmap_bit 0).

Definition is_development_payout_shape (body : TxBody) : bool :=
  tb_is_coinbase body
  && (tb_validity_bitmap body =? Z.lor (output_bitmap_bit 0) (output_bitmap_bit 1)).

Definition input_is_live (body : TxBody) (index : nat) : bool :=
  bool_decide (index < TX_INPUTS)%nat
  && negb (Z.land (tb_validity_bitmap body) (Z.shiftl 1 (Z.of_nat index)) =? 0).

Definition output_is_live (body : TxBody) (index : nat) : bool :=
  bool_decide (index < TX_OUTPUTS)%nat
  && negb (Z.land (tb_validity_bitmap body) (output_bitmap_bit index) =? 0).

Definition live_inputs (body : TxBody) : list (nat * TxInput) :=
  filter (λ p, Is_true (input_is_live body (fst p))) (imap pair (tb_inputs body)).

Definition live_outputs (body : TxBody) : list (nat * TxOutput) :=
  filter (λ p, Is_true (output_is_live body (fst p))) (imap pair (tb_outputs body)).

Definition live_input_count (body : TxBody) : Z :=
  count_ones 16 (Z.land (tb_validity_bitmap body) 0x00ff).

Definition live_output_count (body : TxBody) : Z :=
  count_ones 16 (Z.land (Z.shiftr (tb_validity_bitmap body) (Z.of_nat TX_INPUTS)) 0x0003).

(** ** Well-typed values: what Rust's types guarantee *)

Definition TxInput_wf (i : TxInput) : Prop :=
  is_u32 (ti_slot_index i) ∧ is_u64 (ti_amount i) ∧ is_u64 (ti_creation_id i).

Definition TxOutput_wf (o : TxOutput) : Prop :=
  is_u32 (to_slot_index o) ∧ is_u64 (to_amount o) ∧ is_digest (to_owner o).

Definition TxBody_wf (b : TxBody) : Prop :=
  is_digest (tb_epoch_anchor b) ∧ is_u64 (tb_fee b) ∧ is_digest (tb_input_owner b)
  ∧ length (tb_inputs b) = TX_INPUTS ∧ Forall TxInput_wf (tb_inputs b)
  ∧ length (tb_outputs b) = TX_OUTPUTS ∧ Forall TxOutput_wf (tb_outputs b)
  ∧ is_u16 (tb_validity_bitmap b).

#[global] Instance TxBody_wf_dec b : Decision (TxBody_wf b).
Proof. unfold TxBody_wf, TxInput_wf, TxOutput_wf. apply _. Defined.

(** ** body_hash.rs and claims.rs *)

Definition digest_fields (digest : list Z) : Z * Z :=
  (Block128_from_bytes (take 16 digest), Block128_from_bytes (drop 16 digest)).

(** Leaves 0..15: epoch anchor, fee, input owner, the eight inputs, each
    output's data and owner, the flags. *)
Definition body_hash_leaves (body : TxBody) : list (Z * Z) :=
  [digest_fields (tb_epoch_anchor body); (tb_fee body, 0); as_fields (tb_input_owner body)]
  ++ ((λ input, (ti_slot_index input,
                 pack_amount_creation_id (ti_amount input) (ti_creation_id input)))
      <$> tb_inputs body)
  ++ (tb_outputs body ≫= λ output,
        [(to_slot_index output, to_amount output); as_fields (to_owner output)])
  ++ [(tb_validity_bitmap body, Z.b2z (tb_is_coinbase body))].

Section body_hash.
  Context {P : Poseidon2bPermutation}.

Definition hash_tx_body (body : TxBody) : list Z := hash_tx8x2_leaves (body_hash_leaves body).

Definition compute_claims_commitment (body : TxBody) : list Z :=
  let sponge := with_iv (capacity_iv TAG_CLAIMS) in
  let sponge := absorb sponge (tb_validity_bitmap body) in
  let '(owner_hi, owner_lo) := as_fields (tb_input_owner body) in
  let sponge := absorb_pair sponge owner_hi owner_lo in
  let sponge := foldl (λ s '(index, input),
      absorb (absorb_pair s (Z.of_nat index) (ti_slot_index input))
        (pack_amount_creation_id (ti_amount input) (ti_creation_id input)))
    sponge (live_inputs body) in
  let sponge := foldl (λ s '(index, output),
      let s := absorb_pair s (Z.of_nat (TX_INPUTS + index)) (to_slot_index output) in
      let s := absorb s (to_amount output) in
      let '(owner_hi, owner_lo) := as_fields (to_owner output) in
      absorb_pair s owner_hi owner_lo)
    sponge (live_outputs body) in
  finalize sponge.

End body_hash.

(** ** public_logic.rs *)

Inductive PublicLogicError :=
  | PL_Coinbase
  | PL_BitmapHighBits (bitmap : Z)
  | PL_DeadInputNotZero (index : nat)
  | PL_DeadOutputNotZero (index : nat)
  | PL_NoLiveInputs
  | PL_CoinbaseInputOwner
  | PL_CoinbaseBitmap (bitmap : Z)
  | PL_DuplicateInputSlot (slot : Z)
  | PL_DuplicateOutputSlot (slot : Z)
  | PL_InputOutputSlotOverlap (slot : Z)
  | PL_InputSumOverflow
  | PL_OutputSumOverflow
  | PL_OutputPlusFeeOverflow
  | PL_BalanceMismatch (input_sum output_sum fee : Z).

#[global] Instance PublicLogicError_eq_dec : EqDecision PublicLogicError.
Proof. solve_decision. Defined.

Definition unique_slots (body : TxBody) : result PublicLogicError unit :=
  inputs ← try_fold (λ s p,
      insert_fresh (PL_DuplicateInputSlot (ti_slot_index (snd p))) s (ti_slot_index (snd p)))
    ∅ (live_inputs body);
  _ ← try_fold (λ s p,
      s' ← insert_fresh (PL_DuplicateOutputSlot (to_slot_index (snd p))) s (to_slot_index (snd p));
      if decide (to_slot_index (snd p) ∈ inputs)
      then Err (PL_InputOutputSlotOverlap (to_slot_index (snd p)))
      else Ok s')
    (∅ : gset Z) (live_outputs body);
  Ok tt.

Definition sums (body : TxBody) : result PublicLogicError (Z * Z * Z * Z) :=
  input_sum ← try_fold (λ acc p,
      ok_or (checked_add 128 acc (ti_amount (snd p))) PL_InputSumOverflow) 0 (live_inputs body);
  output_sum ← try_fold (λ acc p,
      ok_or (checked_add 128 acc (to_amount (snd p))) PL_OutputSumOverflow) 0 (live_outputs body);
  Ok (wrap 8 (live_input_count body), wrap 8 (live_output_count body), input_sum, output_sum).

Definition validate_body_semantics_no_hash (body : TxBody) : result PublicLogicError unit :=
  if negb (Z.land (tb_validity_bitmap body) (Z.lxor (uint_max 16) TX_VALIDITY_MASK) =? 0)
  then Err (PL_BitmapHighBits (tb_validity_bitmap body))
  else
    _ ← try_for_each (λ p : nat * TxInput,
        if negb (input_is_live body (fst p)) && bool_decide (snd p ≠ TxInput_dummy)
        then Err (PL_DeadInputNotZero (fst p)) else Ok tt) (imap pair (tb_inputs body));
    _ ← try_for_each (λ p : nat * TxOutput,
        if negb (output_is_live body (fst p)) && bool_decide (snd p ≠ TxOutput_dummy)
        then Err (PL_DeadOutputNotZero (fst p)) else Ok tt) (imap pair (tb_outputs body));
    if tb_is_coinbase body then
      if bool_decide (tb_input_owner body ≠ zero_digest) then Err PL_CoinbaseInputOwner
      else
        let primary := output_bitmap_bit 0 in
        let development := Z.lor (output_bitmap_bit 0) (output_bitmap_bit 1) in
        if negb ((tb_validity_bitmap body =? primary) || (tb_validity_bitmap body =? development))
           || negb (tb_fee body =? 0)
        then Err (PL_CoinbaseBitmap (tb_validity_bitmap body))
        else unique_slots body
    else if live_input_count body =? 0 then Err PL_NoLiveInputs
    else
      _ ← unique_slots body;
      '(_, _, input_sum, output_sum) ← sums body;
      expected ← ok_or (checked_add 128 output_sum (tb_fee body)) PL_OutputPlusFeeOverflow;
      if negb (input_sum =? expected)
      then Err (PL_BalanceMismatch input_sum output_sum (tb_fee body))
      else Ok tt.

Record PublicLogicFacts := mkPublicLogicFacts {
  pl_tx_body_hash : list Z;
  pl_fee_u64 : Z;
  pl_n_live_inputs : Z;
  pl_n_live_outputs : Z;
  pl_input_sum : Z;
  pl_output_sum : Z;
}.

Record CanonicalOwnerAuth := mkCanonicalOwnerAuth {
  oa_tx_body_hash : list Z;
  oa_input_owner : list Z;
}.

Section public_logic.
  Context {P : Poseidon2bPermutation}.

Definition validate_public_tx_logic (body : TxBody) : result PublicLogicError PublicLogicFacts :=
  if tb_is_coinbase body then Err PL_Coinbase
  else
    _ ← validate_body_semantics_no_hash body;
    '(n_live_inputs, n_live_outputs, input_sum, output_sum) ← sums body;
    Ok (mkPublicLogicFacts (hash_tx_body body) (tb_fee body) n_live_inputs n_live_outputs
          input_sum output_sum).

Definition canonical_owner_auth (body : TxBody) : result PublicLogicError CanonicalOwnerAuth :=
  facts ← validate_public_tx_logic body;
  Ok (mkCanonicalOwnerAuth (pl_tx_body_hash facts) (tb_input_owner body)).

End public_logic.

(** ** Reading a body *)

Definition input_slots (body : TxBody) : list Z := (λ p, ti_slot_index (snd p)) <$> live_inputs body.
Definition output_slots (body : TxBody) : list Z := (λ p, to_slot_index (snd p)) <$> live_outputs body.
Definition input_sum (body : TxBody) : Z := sum_Z ((λ p, ti_amount (snd p)) <$> live_inputs body).
Definition output_sum (body : TxBody) : Z := sum_Z ((λ p, to_amount (snd p)) <$> live_outputs body).

(** What a canonical body is, without reference to the order of the checks. *)
Definition canonical_body (body : TxBody) : Prop :=
  tb_validity_bitmap body < 2 ^ 10
  ∧ (∀ i inp, tb_inputs body !! i = Some inp →
       Z.testbit (tb_validity_bitmap body) (Z.of_nat i) = false → inp = TxInput_dummy)
  ∧ (∀ i out, tb_outputs body !! i = Some out →
       Z.testbit (tb_validity_bitmap body) (Z.of_nat (8 + i)) = false → out = TxOutput_dummy)
  ∧ NoDup (input_slots body ++ output_slots body)
  ∧ if tb_is_coinbase body
    then tb_input_owner body = zero_digest ∧ tb_fee body = 0
         ∧ (tb_validity_bitmap body = 256 ∨ tb_validity_bitmap body = 768)
    else live_inputs body ≠ [] ∧ input_sum body = output_sum body + tb_fee body.

Lemma input_is_live_testbit body i :
  (i < 8)%nat → input_is_live body i = Z.testbit (tb_validity_bitmap body) (Z.of_nat i).
Proof.
  intros Hi. unfold input_is_live, TX_INPUTS. rewrite bool_decide_true by done.
  rewrite land_bit_eqb, negb_involutive by lia. done.
Qed.

Lemma output_is_live_testbit body i :
  (i < 2)%nat → output_is_live body i = Z.testbit (tb_validity_bitmap body) (Z.of_nat (8 + i)).
Proof.
  intros Hi. unfold output_is_live, output_bitmap_bit, TX_INPUTS, TX_OUTPUTS.
  rewrite bool_decide_true by done. rewrite land_bit_eqb, negb_involutive by lia. done.
Qed.

(** Evaluate the bits of literals. *)
Ltac eval_testbits :=
  repeat match goal with
  | |- context [Z.testbit (Zpos ?p) ?n] =>
      let v := eval vm_compute in (Z.testbit (Zpos p) n) in
      change (Z.testbit (Zpos p) n) with v
  end.

Section wf_body.
  Context (body : TxBody) (Hwf : TxBody_wf body).

Lemma wf_inputs_length : length (tb_inputs body) = 8%nat.
Proof. clear -Hwf. unfold TxBody_wf, TX_INPUTS in Hwf. naive_solver. Qed.

Lemma wf_outputs_length : length (tb_outputs body) = 2%nat.
Proof. clear -Hwf. unfold TxBody_wf, TX_OUTPUTS in Hwf. naive_solver. Qed.

Lemma live_input_elem i inp :
  (i, inp) ∈ live_inputs body ↔
  tb_inputs body !! i = Some inp ∧ Z.testbit (tb_validity_bitmap body) (Z.of_nat i) = true.
Proof.
  unfold live_inputs. rewrite elem_of_filter_enum.
  split; intros [Hl Hb]; (split; [done|]); pose proof (lookup_lt_Some _ _ _ Hl) as Hlt;
    rewrite wf_inputs_length in Hlt; rewrite input_is_live_testbit in *; done.
Qed.

Lemma live_output_elem i out :
  (i, out) ∈ live_outputs body ↔
  tb_outputs body !! i = Some out ∧ Z.testbit (tb_validity_bitmap body) (Z.of_nat (8 + i)) = true.
Proof.
  unfold live_outputs. rewrite elem_of_filter_enum.
  split; intros [Hl Hb]; (split; [done|]); pose proof (lookup_lt_Some _ _ _ Hl) as Hlt;
    rewrite wf_outputs_length in Hlt; rewrite output_is_live_testbit in *; done.
Qed.

Lemma live_inputs_wf : Forall (λ p, TxInput_wf (snd p)) (live_inputs body).
Proof.
  apply Forall_forall. intros [i inp] Hin. apply live_input_elem in Hin as [Hl _].
  destruct Hwf as (_ & _ & _ & _ & Hi & _). rewrite Forall_lookup in Hi. eauto.
Qed.

Lemma live_outputs_wf : Forall (λ p, TxOutput_wf (snd p)) (live_outputs body).
Proof.
  apply Forall_forall. intros [i out] Hin. apply live_output_elem in Hin as [Hl _].
  destruct Hwf as (_ & _ & _ & _ & _ & _ & Ho & _). rewrite Forall_lookup in Ho. eauto.
Qed.

(** The popcount of the bitmap counts the live entries. *)
Lemma live_input_count_length : live_input_count body = Z.of_nat (length (live_inputs body)).
Proof.
  unfold live_inputs. rewrite length_filter_enum, wf_inputs_length.
  unfold live_input_count. rewrite count_ones_sum.
  unfold sum_Z. cbn [seq fmap list_fmap foldr]. rewrite !input_is_live_testbit by lia.
  rewrite !Z.land_spec. cbn [Z.of_nat Pos.of_succ_nat Pos.succ].
  eval_testbits. rewrite ?andb_true_r, ?andb_false_r. cbn [Z.b2z]. lia.
Qed.

Lemma live_output_count_length : live_output_count body = Z.of_nat (length (live_outputs body)).
Proof.
  unfold live_outputs. rewrite length_filter_enum, wf_outputs_length.
  unfold live_output_count. rewrite count_ones_sum.
  unfold sum_Z. cbn [seq fmap list_fmap foldr]. rewrite !output_is_live_testbit by lia.
  rewrite !Z.land_spec. unfold TX_INPUTS. cbn [Z.of_nat Pos.of_succ_nat Pos.succ Nat.add].
  eval_testbits. rewrite ?andb_true_r, ?andb_false_r, !Z.shiftr_spec by lia. cbn [Z.b2z].
  change (Z.of_nat 0 + Z.of_nat 8) with (Z.of_nat 8).
  change (Z.of_nat 1 + Z.of_nat 8) with (Z.of_nat 9). lia.
Qed.

Lemma live_input_amounts : Forall (λ p : nat * TxInput, 0 ≤ ti_amount (snd p)) (live_inputs body).
Proof.
  eapply Forall_impl; [exact live_inputs_wf|]. intros p (_ & Ha & _). unfold is_uint in Ha. lia.
Qed.

Lemma live_output_amounts : Forall (λ p : nat * TxOutput, 0 ≤ to_amount (snd p)) (live_outputs body).
Proof.
  eapply Forall_impl; [exact live_outputs_wf|]. intros p (_ & Ha & _). unfold is_uint in Ha. lia.
Qed.

Lemma input_sum_bound : 0 ≤ input_sum body ≤ 8 * 2 ^ 64.
Proof.
  split; [apply sum_Z_nonneg, Forall_fmap, live_input_amounts|].
  assert (Hlen : (length (live_inputs body) ≤ 8)%nat).
  { rewrite <- wf_inputs_length. unfold live_inputs.
    etrans; [apply length_filter|]. rewrite length_imap. done. }
  transitivity (sum_Z ((λ _, 2 ^ 64) <$> live_inputs body)).
  - apply sum_Z_le. eapply Forall_impl; [exact live_inputs_wf|].
    intros p (_ & Ha & _). unfold is_uint in Ha. lia.
  - rewrite (sum_Z_const _ (2 ^ 64)) by (by apply Forall_true). lia.
Qed.

Lemma output_sum_bound : 0 ≤ output_sum body ≤ 2 * 2 ^ 64.
Proof.
  split; [apply sum_Z_nonneg, Forall_fmap, live_output_amounts|].
  assert (Hlen : (length (live_outputs body) ≤ 2)%nat).
  { rewrite <- wf_outputs_length. unfold live_outputs.
    etrans; [apply length_filter|]. rewrite length_imap. done. }
  transitivity (sum_Z ((λ _, 2 ^ 64) <$> live_outputs body)).
  - apply sum_Z_le. eapply Forall_impl; [exact live_outputs_wf|].
    intros p (_ & Ha & _). unfold is_uint in Ha. lia.
  - rewrite (sum_Z_const _ (2 ^ 64)) by (by apply Forall_true). lia.
Qed.

(** The checked sums never overflow [u128]. *)
Lemma sums_Ok :
  sums body = Ok (wrap 8 (live_input_count body), wrap 8 (live_output_count body),
                  input_sum body, output_sum body).
Proof.
  pose proof input_sum_bound as Hi. pose proof output_sum_bound as Ho. unfold sums.
  rewrite (try_fold_checked_add 128 _ (λ p, ti_amount (snd p)))
    by (apply live_input_amounts || lia).
  rewrite (try_fold_checked_add 128 _ (λ p, to_amount (snd p)))
    by (apply live_output_amounts || lia).
  fold (input_sum body) (output_sum body). rewrite !Z.add_0_l.
  destruct (Z.ltb_spec (input_sum body) (2 ^ 128)); [|lia].
  destruct (Z.ltb_spec (output_sum body) (2 ^ 128)); [done|lia].
Qed.

End wf_body.

(** The output loop of [unique_slots]: fresh outputs that avoid the inputs. *)
Lemma try_fold_insert_disjoint {E A} (e1 e2 : A → E) (f : A → Z) (avoid : gset Z) s0 l :
  (∃ s, try_fold (λ s a, s' ← insert_fresh (e1 a) s (f a);
                         if decide (f a ∈ avoid) then Err (e2 a) else Ok s') s0 l = Ok s) ↔
  NoDup (f <$> l) ∧ (∀ x, x ∈ f <$> l → x ∉ s0 ∧ x ∉ avoid).
Proof.
  revert s0; induction l as [|a l IH]; intros s0.
  { cbn. split; [intros _|by eauto]. split; [constructor|set_solver]. }
  cbn [try_fold fmap list_fmap]. rewrite NoDup_cons. split.
  - intros (s & Hs). res_inv. apply insert_fresh_Ok in H0 as [Hna ->].
    case_decide; res_inv. destruct (proj1 (IH ({[f a]} ∪ s0))) as [Hnd Hfr]; [eauto|]. set_solver.
  - intros ([Hna Hnd] & Hfr). unfold insert_fresh. rewrite decide_False by set_solver. cbn.
    rewrite decide_False by set_solver. cbn. apply IH. set_solver.
Qed.

Lemma unique_slots_Ok body : unique_slots body = Ok tt ↔ NoDup (input_slots body ++ output_slots body).
Proof.
  unfold unique_slots. rewrite bind_Ok. setoid_rewrite try_fold_insert_fresh.
  fold (input_slots body). rewrite NoDup_app. split.
  - intros (s & (Hnd & _ & ->) & H). res_inv.
    destruct (proj1 (try_fold_insert_disjoint
                       (λ p : nat * TxOutput, PL_DuplicateOutputSlot (to_slot_index (snd p)))
                       (λ p, PL_InputOutputSlotOverlap (to_slot_index (snd p)))
                       (λ p, to_slot_index (snd p)) (list_to_set (input_slots body) ∪ ∅)
                       ∅ (live_outputs body))) as [Hnd' Hfr]; [eauto|].
    split; [done|split; [|done]]. intros y Hy Hy'. apply (Hfr y Hy'). set_solver.
  - intros (Hnd & Hdisj & Hnd'). eexists. split; [split; [done|split; [set_solver|done]]|].
    destruct (proj2 (try_fold_insert_disjoint
                       (λ p : nat * TxOutput, PL_DuplicateOutputSlot (to_slot_index (snd p)))
                       (λ p, PL_InputOutputSlotOverlap (to_slot_index (snd p)))
                       (λ p, to_slot_index (snd p)) (list_to_set (input_slots body) ∪ ∅)
                       ∅ (live_outputs body))) as [s ->]; [|done].
    split; [done|]. fold (output_slots body). set_solver.
Qed.

Lemma bitmap_high_bits_ok b :
  is_u16 b →
  negb (Z.land b (Z.lxor (uint_max 16) TX_VALIDITY_MASK) =? 0) = false ↔ b < 2 ^ 10.
Proof.
  intros Hb. change (Z.lxor (uint_max 16) TX_VALIDITY_MASK) with (2 ^ 16 - 2 ^ 10).
  rewrite land_high_mask_zero by (done || lia). lia.
Qed.

Lemma dead_inputs_ok {E} (e : nat → E) body :
  TxBody_wf body →
  try_for_each (λ p : nat * TxInput,
    if negb (input_is_live body (fst p)) && bool_decide (snd p ≠ TxInput_dummy)
    then Err (e (fst p)) else Ok tt) (imap pair (tb_inputs body)) = Ok tt ↔
  ∀ i inp, tb_inputs body !! i = Some inp →
    Z.testbit (tb_validity_bitmap body) (Z.of_nat i) = false → inp = TxInput_dummy.
Proof.
  intros Hwf. rewrite try_for_each_Ok, Forall_imap_pair. cbn [fst snd].
  split; intros H i inp Hl; specialize (H i inp Hl);
    pose proof (lookup_lt_Some _ _ _ Hl) as Hlt; rewrite wf_inputs_length in Hlt by done;
    rewrite input_is_live_testbit in * by done.
  - intros Hb. rewrite Hb in H. destruct (decide (inp = TxInput_dummy)) as [|Hd]; [done|].
    rewrite bool_decide_true in H by done. done.
  - destruct (Z.testbit _ _); cbn; [done|]. rewrite bool_decide_false; [done|]. auto.
Qed.

Lemma dead_outputs_ok {E} (e : nat → E) body :
  TxBody_wf body →
  try_for_each (λ p : nat * TxOutput,
    if negb (output_is_live body (fst p)) && bool_decide (snd p ≠ TxOutput_dummy)
    then Err (e (fst p)) else Ok tt) (imap pair (tb_outputs body)) = Ok tt ↔
  ∀ i out, tb_outputs body !! i = Some out →
    Z.testbit (tb_validity_bitmap body) (Z.of_nat (8 + i)) = false → out = TxOutput_dummy.
Proof.
  intros Hwf. rewrite try_for_each_Ok, Forall_imap_pair. cbn [fst snd].
  split; intros H i out Hl; specialize (H i out Hl);
    pose proof (lookup_lt_Some _ _ _ Hl) as Hlt; rewrite wf_outputs_length in Hlt by done;
    rewrite output_is_live_testbit in * by done.
  - intros Hb. rewrite Hb in H. destruct (decide (out = TxOutput_dummy)) as [|Hd]; [done|].
    rewrite bool_decide_true in H by done. done.
  - destruct (Z.testbit _ _); cbn; [done|]. rewrite bool_decide_false; [done|]. auto.
Qed.

Lemma validate_canonical body :
  TxBody_wf body → validate_body_semantics_no_hash body = Ok tt ↔ canonical_body body.
Proof.
  intros Hwf. unfold validate_body_semantics_no_hash, canonical_body.
  rewrite if_err_Ok, !bind_unit_Ok.
  rewrite (dead_inputs_ok PL_DeadInputNotZero), (dead_outputs_ok PL_DeadOutputNotZero) by done.
  rewrite bitmap_high_bits_ok by apply Hwf.
  repeat (apply and_iff_compat_l). rewrite <- unique_slots_Ok.
  change (output_bitmap_bit 0) with 256. change (Z.lor 256 (output_bitmap_bit 1)) with 768.
  destruct (tb_is_coinbase body).
  - rewrite !if_err_Ok, bool_decide_eq_false. split.
    + intros (Ho & Hb & Hu). apply dec_stable in Ho. split_and!; [done..| |]; lia.
    + intros (Hu & Ho & Hf & Hb). split; [by intros ?|split; [lia|done]].
  - rewrite live_input_count_length by done. rewrite if_err_Ok, bind_unit_Ok, sums_Ok by done.
    cbn. pose proof (output_sum_bound body Hwf). destruct Hwf as (_ & Hfee & _).
    unfold is_uint in Hfee. unfold checked_add.
    destruct (Z.ltb_spec (output_sum body + tb_fee body) (2 ^ 128)); [|lia]. cbn.
    rewrite if_err_Ok. assert (Hlen : (Z.of_nat (length (live_inputs body)) =? 0) = false ↔
      live_inputs body ≠ []) by (destruct (live_inputs body); cbn; [done|split; done || lia]).
    rewrite Hlen. split.
    + intros (? & ? & ? & _). split_and!; [done..|lia].
    + intros (? & ? & ?). split_and!; [done..|lia|done].
Qed.

Lemma pack_amount_creation_id_eq amount creation_id :
  is_u64 amount → 0 ≤ creation_id →
  pack_amount_creation_id amount creation_id = creation_id * 2 ^ 64 + amount.
Proof.
  intros Ha Hc. unfold is_uint in Ha. unfold pack_amount_creation_id.
  apply lor_shiftl_add; lia.
Qed.

Lemma unpack_pack amount creation_id :
  is_u64 amount → is_u64 creation_id →
  unpack_amount_creation_id (pack_amount_creation_id amount creation_id) = (amount, creation_id).
Proof.
  intros Ha Hc. unfold is_uint in *. rewrite pack_amount_creation_id_eq by (done || lia).
  unfold unpack_amount_creation_id, wrap. rewrite Z.shiftr_div_pow2 by lia.
  rewrite Z.div_add_l, Z.add_comm, Z.mod_add by lia.
  rewrite (Z.div_small amount), Z.add_0_r, !Z.mod_small by lia. done.
Qed.

(** ** Properties *)

(** A two-input, two-output spend paying a fee of 9000. *)
Definition example_spend : TxBody :=
  mkTxBody zero_digest 9000 (replicate 32 7)
    ([mkTxInput 5 60000 3; mkTxInput 9 50000 4] ++ replicate 6 TxInput_dummy)
    [mkTxOutput 11 100000 (replicate 32 8); mkTxOutput 12 1000 (replicate 32 7)]
    0x303 false.

(** The body validator accepts exactly the canonical bodies: no bitmap bit above
    bit 9, every dead entry zero, all live input and output slots pairwise distinct, and
    either a system mint (zero owner, zero fee, one of the two coinbase bitmaps) or a
    spend with a live input whose inputs equal outputs plus fee. *)
Theorem validate_body_semantics_iff_canonical (body : TxBody) (Hwf : TxBody_wf body) :
  validate_body_semantics_no_hash body = Ok tt ↔ canonical_body body.
Proof. by apply validate_canonical. Qed.

Lemma validate_body_semantics_iff_canonical_witness :
  validate_body_semantics_no_hash example_spend = Ok tt ↔ canonical_body example_spend.
Proof.
  apply (validate_body_semantics_iff_canonical example_spend).
  apply (bool_decide_unpack (TxBody_wf example_spend)). vm_compute. exact I.
Defined.
