(* ===== verification/TxWire.v ===== *)
(** * Wire encoding of transaction bodies

    [jetsam_tx/src/wire.rs].  A decoder consumes a prefix of its input and
    returns the value with the rest.  [Codec] is the interface every encoder
    and decoder pair meets: decoding an encoding gives the value back whatever
    follows, and whatever decodes is the encoding of a well-formed value, so
    no value has two encodings. *)

From S2P Require Import Prelude Machine Poseidon TxTypes.

Inductive WireError :=
  | Truncated
  | TrailingBytes
  | InvalidBool
  | BadMarker
  | NonCanonicalBody
  | LengthOverflow.

#[global] Instance WireError_eq_dec : EqDecision WireError.
Proof. solve_decision. Defined.

Definition TX_INPUT_WIRE_SIZE : nat := 4 + 8 + 8.
Definition TX_OUTPUT_WIRE_SIZE : nat := 4 + 8 + 32.
Definition TX_BODY_WIRE_SIZE : nat :=
  32 + 8 + 32 + TX_INPUTS * TX_INPUT_WIRE_SIZE + TX_OUTPUTS * TX_OUTPUT_WIRE_SIZE + 2 + 1.

Definition put_u16 (value : Z) : list Z := to_le_bytes 2 value.
Definition put_u32 (value : Z) : list Z := to_le_bytes 4 value.
Definition put_u64 (value : Z) : list Z := to_le_bytes 8 value.

Arguments put_u16 : simpl never.
Arguments put_u32 : simpl never.
Arguments put_u64 : simpl never.

(** A decoder: the value read and the bytes left. *)
Definition decoder (E A : Type) : Type := list Z → result E (A * list Z).

Definition wire_take (len : nat) : decoder WireError (list Z) := λ src,
  if decide (length src < len)%nat then Err Truncated
  else Ok (take len src, drop len src).

Definition take_u16 : decoder WireError Z := λ src,
  '(bs, src) ← wire_take 2 src; Ok (from_le_bytes bs, src).

Definition take_u32 : decoder WireError Z := λ src,
  '(bs, src) ← wire_take 4 src; Ok (from_le_bytes bs, src).

Definition take_u64 : decoder WireError Z := λ src,
  '(bs, src) ← wire_take 8 src; Ok (from_le_bytes bs, src).

Definition take_digest : decoder WireError (list Z) := wire_take 32.

Definition take_bool : decoder WireError bool := λ src,
  '(bs, src) ← wire_take 1 src;
  match bs with
  | [0] => Ok (false, src)
  | [1] => Ok (true, src)
  | _ => Err InvalidBool
  end.

(** [for x in &mut array { *x = decode(src)?; }]. *)
Fixpoint decode_array {E A} (n : nat) (dec : decoder E A) : decoder E (list A) := λ src,
  match n with
  | O => Ok ([], src)
  | S n' =>
      '(x, src) ← dec src;
      '(xs, src) ← decode_array n' dec src;
      Ok (x :: xs, src)
  end.

Definition TxInput_encode (i : TxInput) : list Z :=
  put_u32 (ti_slot_index i) ++ put_u64 (ti_amount i) ++ put_u64 (ti_creation_id i).

Definition TxInput_decode : decoder WireError TxInput := λ src,
  '(slot_index, src) ← take_u32 src;
  '(amount, src) ← take_u64 src;
  '(creation_id, src) ← take_u64 src;
  Ok (mkTxInput slot_index amount creation_id, src).

Definition TxOutput_encode (o : TxOutput) : list Z :=
  put_u32 (to_slot_index o) ++ put_u64 (to_amount o) ++ to_owner o.

Definition TxOutput_decode : decoder WireError TxOutput := λ src,
  '(slot_index, src) ← take_u32 src;
  '(amount, src) ← take_u64 src;
  '(owner, src) ← take_digest src;
  Ok (mkTxOutput slot_index amount owner, src).

(** The bytes of a body, without the canonicality assertion. *)
Definition body_bytes (b : TxBody) : list Z :=
  tb_epoch_anchor b ++ put_u64 (tb_fee b) ++ tb_input_owner b
  ++ concat (TxInput_encode <$> tb_inputs b) ++ concat (TxOutput_encode <$> tb_outputs b)
  ++ put_u16 (tb_validity_bitmap b) ++ [Z.b2z (tb_is_coinbase b)].

(** [None] is the panic of the assertion. *)
Definition TxBody_encode (b : TxBody) : option (list Z) :=
  match validate_body_semantics_no_hash b with
  | Ok _ => Some (body_bytes b)
  | Err _ => None
  end.

(** The fields of a body, before the canonicality check. *)
Definition body_fields : decoder WireError TxBody := λ src,
  '(epoch_anchor, src) ← take_digest src;
  '(fee, src) ← take_u64 src;
  '(input_owner, src) ← take_digest src;
  '(inputs, src) ← decode_array TX_INPUTS TxInput_decode src;
  '(outputs, src) ← decode_array TX_OUTPUTS TxOutput_decode src;
  '(validity_bitmap, src) ← take_u16 src;
  '(is_coinbase, src) ← take_bool src;
  Ok (mkTxBody epoch_anchor fee input_owner inputs outputs validity_bitmap is_coinbase, src).

Definition TxBody_decode : decoder WireError TxBody := λ src,
  '(body, src) ← body_fields src;
  _ ← map_err (λ _, NonCanonicalBody) (validate_body_semantics_no_hash body);
  Ok (body, src).

Definition TxBody_from_bytes (bytes : list Z) : result WireError TxBody :=
  '(body, src) ← TxBody_decode bytes;
  if bool_decide (src ≠ []) then Err TrailingBytes else Ok body.

(** ** The codec interface *)

Class Codec {E A : Type} (wf : A → Prop) (enc : A → list Z) (dec : decoder E A) : Prop := {
  codec_complete : ∀ x rest, wf x → dec (enc x ++ rest) = Ok (x, rest);
  codec_sound : ∀ src x rest,
    byte_string src → dec src = Ok (x, rest) →
    wf x ∧ src = enc x ++ rest ∧ byte_string rest;
}.

(** Step a decoder over the encodings at the front of its input. *)
Ltac codec_run :=
  repeat (rewrite <- ?app_assoc;
          first [ rewrite codec_complete by (done || auto with jetsam) ]; cbn [mbind result_bind]).

(** Invert a successful decoder, one field at a time. *)
Ltac codec_inv :=
  repeat match goal with
  | H : (_ ≫= _) = Ok _ |- _ =>
      apply bind_Ok in H; destruct H as ([? ?] & ? & H); cbn beta iota in H
  | Hb : byte_string ?src, H : ?dec ?src = Ok (?x, ?rest) |- _ =>
      first [ apply codec_sound in H; [|exact Hb]; destruct H as (? & -> & ?) ]
  end.

Lemma wire_take_complete n bs rest : length bs = n → wire_take n (bs ++ rest) = Ok (bs, rest).
Proof.
  intros Hl. unfold wire_take. rewrite decide_False by (rewrite length_app; lia).
  rewrite take_app_length', drop_app_length' by done. done.
Qed.

Lemma wire_take_sound n src bs rest :
  wire_take n src = Ok (bs, rest) → length bs = n ∧ src = bs ++ rest.
Proof.
  unfold wire_take. case_decide; [done|]. intros [= <- <-].
  rewrite take_drop, length_take. split; [lia|done].
Qed.

Lemma take_uint_codec (n : nat) :
  Codec (is_uint (8 * Z.of_nat n)) (to_le_bytes n)
    (λ src, '(bs, src) ← wire_take n src; Ok (from_le_bytes bs, src)).
Proof.
  split.
  - intros x rest Hx. rewrite wire_take_complete by apply length_to_le_bytes. cbn.
    rewrite from_to_le_bytes; [done|]. unfold is_uint in Hx.
    rewrite Z.pow_mul_r in Hx by lia. done.
  - intros src x rest Hb H. res_inv. destruct x0 as [bs src']. res_inv.
    simplify_eq. apply wire_take_sound in H0 as [Hl ->].
    apply byte_string_app in Hb as [Hb Hr]. subst n. rewrite to_from_le_bytes by done.
    split; [|done]. unfold is_uint. rewrite Z.pow_mul_r by lia. by apply from_le_bytes_bound.
Qed.

#[global] Instance u16_codec : Codec is_u16 put_u16 take_u16 := take_uint_codec 2.
#[global] Instance u32_codec : Codec is_u32 put_u32 take_u32 := take_uint_codec 4.
#[global] Instance u64_codec : Codec is_u64 put_u64 take_u64 := take_uint_codec 8.

#[global] Instance digest_codec : Codec is_digest (λ d, d) take_digest.
Proof.
  split.
  - intros x rest [Hl _]. by apply wire_take_complete.
  - intros src x rest Hb H. apply wire_take_sound in H as [Hl ->].
    apply byte_string_app in Hb as [Hb Hr]. done.
Qed.

Lemma take_digest_complete d rest : is_digest d → take_digest (d ++ rest) = Ok (d, rest).
Proof. intros Hd. exact (codec_complete (Codec := digest_codec) d rest Hd). Qed.

(** [codec_run] over digests as well. *)
Ltac codec_run_digests :=
  repeat (rewrite <- ?app_assoc;
          first [ rewrite take_digest_complete by (done || auto with jetsam)
                | rewrite codec_complete by (done || auto with jetsam) ]; cbn [mbind result_bind]).

#[global] Instance bool_codec : Codec (λ _, True) (λ b, [Z.b2z b]) take_bool.
Proof.
  split.
  - intros b rest _. unfold take_bool. rewrite wire_take_complete by done. by destruct b.
  - intros src b rest Hb H. unfold take_bool in H. res_inv. destruct x as [bs src'].
    apply wire_take_sound in H0 as [Hl ->]. apply byte_string_app in Hb as [Hb Hr].
    destruct bs as [|z [|]]; try done. destruct z as [|[]|]; simplify_eq/=; done.
Qed.

#[global] Instance array_codec {E A} (wf : A → Prop) enc (dec : decoder E A) n :
  Codec wf enc dec →
  Codec (λ xs, length xs = n ∧ Forall wf xs) (λ xs, concat (enc <$> xs)) (decode_array n dec).
Proof.
  intros HC. split.
  - intros xs rest [Hl Hw]. revert n Hl; induction Hw as [|x xs Hx Hxs IH]; intros n Hl;
      subst n; cbn; [done|].
    rewrite <- app_assoc, codec_complete by done. cbn. rewrite IH by done. done.
  - revert n. induction n as [|n IH]; intros src xs rest Hb H; cbn in H.
    + res_inv. simplify_eq. done.
    + codec_inv. destruct (IH _ _ _ H2 H1) as ((Hl & Hw) & -> & Hr). res_inv. simplify_eq/=.
      split; [split; [lia|by constructor]|]. rewrite <- app_assoc. done.
Qed.

#[global] Instance TxInput_codec : Codec TxInput_wf TxInput_encode TxInput_decode.
Proof.
  split.
  - intros [s a c] rest (Hs & Ha & Hc). unfold TxInput_encode, TxInput_decode. cbn in *.
    codec_run. done.
  - intros src x rest Hb H. unfold TxInput_decode in H. codec_inv. res_inv. simplify_eq.
    split; [done|]. unfold TxInput_encode. cbn. rewrite <- !app_assoc. done.
Qed.

#[global] Instance TxOutput_codec : Codec TxOutput_wf TxOutput_encode TxOutput_decode.
Proof.
  split.
  - intros [s a o] rest (Hs & Ha & Ho). unfold TxOutput_encode, TxOutput_decode. cbn in *.
    codec_run. rewrite (codec_complete (Codec := digest_codec)) by done. done.
  - intros src x rest Hb H. unfold TxOutput_decode in H. codec_inv. res_inv. simplify_eq.
    split; [done|]. unfold TxOutput_encode. cbn. rewrite <- !app_assoc. done.
Qed.

#[global] Instance body_fields_codec : Codec TxBody_wf body_bytes body_fields.
Proof.
  split.
  - intros [ea f io ins outs bm cb] rest (He & Hf & Ho & Hil & Hi & Hol & Hout & Hbm).
    unfold body_bytes, body_fields. cbn [tb_epoch_anchor tb_fee tb_input_owner tb_inputs tb_outputs
      tb_validity_bitmap tb_is_coinbase] in *.
    rewrite <- !app_assoc. rewrite (codec_complete (Codec := digest_codec)) by done. cbn [mbind result_bind].
    rewrite codec_complete by done. cbn [mbind result_bind].
    rewrite (codec_complete (Codec := digest_codec)) by done. cbn [mbind result_bind].
    rewrite (codec_complete (Codec := array_codec _ _ _ TX_INPUTS TxInput_codec)) by done.
    cbn [mbind result_bind].
    rewrite (codec_complete (Codec := array_codec _ _ _ TX_OUTPUTS TxOutput_codec)) by done.
    cbn [mbind result_bind].
    rewrite codec_complete by done. cbn [mbind result_bind].
    rewrite (codec_complete (Codec := bool_codec)) by done. done.
  - intros src x rest Hb H. unfold body_fields in H. codec_inv. res_inv. simplify_eq.
    split; [unfold TxBody_wf; cbn; naive_solver|].
    unfold body_bytes. cbn [tb_epoch_anchor tb_fee tb_input_owner tb_inputs tb_outputs
      tb_validity_bitmap tb_is_coinbase]. rewrite <- !app_assoc. done.
Qed.

Lemma length_concat_fixed {A} (f : A → list Z) k (l : list A) :
  Forall (λ x, length (f x) = k) l → length (concat (f <$> l)) = (length l * k)%nat.
Proof. induction 1; cbn; [done|]. rewrite length_app. lia. Qed.

Lemma length_TxInput_encode i : length (TxInput_encode i) = TX_INPUT_WIRE_SIZE.
Proof. unfold TxInput_encode, put_u32, put_u64. by rewrite !length_app, !length_to_le_bytes. Qed.

Lemma length_TxOutput_encode o : TxOutput_wf o → length (TxOutput_encode o) = TX_OUTPUT_WIRE_SIZE.
Proof.
  intros (_ & _ & Hl & _). unfold TxOutput_encode, put_u32, put_u64.
  by rewrite !length_app, !length_to_le_bytes, Hl.
Qed.

Lemma length_body_bytes b : TxBody_wf b → length (body_bytes b) = TX_BODY_WIRE_SIZE.
Proof.
  intros ((He & _) & Hf & (Ho & _) & Hil & Hi & Hol & Hout & Hbm). unfold body_bytes, put_u16, put_u64.
  rewrite !length_app, !length_to_le_bytes, He, Ho.
  rewrite (length_concat_fixed _ TX_INPUT_WIRE_SIZE), (length_concat_fixed _ TX_OUTPUT_WIRE_SIZE), Hil, Hol.
  - done.
  - eapply Forall_impl; [exact Hout|]. apply length_TxOutput_encode.
  - apply Forall_true, length_TxInput_encode.
Qed.

(** The body codec with its canonicality check. *)
#[global] Instance TxBody_codec :
  Codec (λ b, TxBody_wf b ∧ canonical_body b) body_bytes TxBody_decode.
Proof.
  split.
  - intros b rest [Hwf Hc]. unfold TxBody_decode. rewrite codec_complete by done. cbn.
    apply validate_canonical in Hc as ->; done.
  - intros src b rest Hb H. unfold TxBody_decode in H.
    apply bind_Ok in H as ([b' src'] & Hf & H). apply codec_sound in Hf as (Hwf & -> & Hr); [|done].
    res_inv. simplify_eq. destruct x. apply validate_canonical in H0; done.
Qed.

(** ** Properties *)

(** Decoding is the exact inverse of encoding: a byte string is accepted with
    result [body] if and only if [body] is a well-typed body that the encoder accepts and
    the string is its encoding.  In particular every accepted string has 323 bytes and no
    body has two encodings. *)
Theorem TxBody_from_bytes_iff (bytes : list Z) (body : TxBody) (Hbytes : byte_string bytes) :
  TxBody_from_bytes bytes = Ok body ↔
  TxBody_wf body ∧ TxBody_encode body = Some bytes ∧ length bytes = TX_BODY_WIRE_SIZE.
Proof.
  unfold TxBody_from_bytes, TxBody_encode. split.
  - intros H. apply bind_Ok in H as ([b src] & Hd & H). res_inv. bool_inv.
    apply dec_stable in H0 as ->. apply codec_sound in Hd as ((Hwf & Hc) & -> & _); [|done].
    rewrite app_nil_r, length_body_bytes by done. apply validate_canonical in Hc as ->; done.
  - intros (Hwf & He & _). destruct (validate_body_semantics_no_hash body) as [[]|] eqn:Hv; [|done].
    apply validate_canonical in Hv; [|done]. injection He as <-.
    rewrite <- (app_nil_r (body_bytes body)), codec_complete by done. done.
Qed.

Lemma TxBody_from_bytes_iff_witness :
  TxBody_from_bytes (body_bytes example_spend) = Ok example_spend ↔
  TxBody_wf example_spend ∧ TxBody_encode example_spend = Some (body_bytes example_spend)
  ∧ length (body_bytes example_spend) = TX_BODY_WIRE_SIZE.
Proof.
  apply (TxBody_from_bytes_iff (body_bytes example_spend) example_spend).
  apply (bool_decide_unpack (Forall (λ b, 0 ≤ b < 256) (body_bytes example_spend))).
  vm_compute. exact I.
Defined.
