(* ===== verification/PagedSpend.v ===== *)
(** * Paged spends

    [jetsam_tx/src/paged_spend.rs]: a logical transaction made of 1 to 128
    physical pages, each with the layout of a transaction body, delimited by
    the start and end bits of the bitmap.  The theorem characterises the
    groups the validator accepts. *)

From S2P Require Import Prelude Machine Poseidon TxTypes TxWire.

Definition PAGED_SPEND_VERSION : Z := 1.
Definition MAX_TX_AUTHORIZATION_BYTES : Z := 256 * 1024.
Definition PAGED_SPEND_START_BIT : Z := Z.shiftl 1 10.
Definition PAGED_SPEND_END_BIT : Z := Z.shiftl 1 11.
Definition PAGED_SPEND_MARKER_MASK : Z := Z.lor PAGED_SPEND_START_BIT PAGED_SPEND_END_BIT.
Definition PAGED_SPEND_VALIDITY_MASK : Z := Z.lor TX_VALIDITY_MASK PAGED_SPEND_MARKER_MASK.
Definition MAX_PAGED_SPEND_PAGES : Z := 128.
Definition MAX_PAGED_SPEND_INPUTS : Z := 1020.
Definition MAX_PAGED_SPEND_OUTPUTS : Z := MAX_PAGED_SPEND_PAGES * Z.of_nat TX_OUTPUTS.
Definition PAGED_SPEND_INTENT_MARKER : Z := 0xA3.
Definition PAGED_SPEND_INTENT_FIXED_OVERHEAD : Z := 1 + 2 + 4.
Definition MAX_PAGED_SPEND_INTENT_BYTES : Z :=
  PAGED_SPEND_INTENT_FIXED_OVERHEAD
  + MAX_PAGED_SPEND_PAGES * Z.of_nat TX_BODY_WIRE_SIZE + MAX_TX_AUTHORIZATION_BYTES.

Record TxPage := mkTxPage { page_body : TxBody }.

#[global] Instance TxPage_eq_dec : EqDecision TxPage.
Proof. solve_decision. Defined.

Record PagedSpendFacts := mkPagedSpendFacts {
  ps_logical_txid : list Z;
  ps_input_owner : list Z;
  ps_epoch_anchor : list Z;
  ps_fee : Z;
  ps_live_inputs : Z;
  ps_live_outputs : Z;
  ps_input_sum : Z;
  ps_output_sum : Z;
}.

Record CanonicalPagedSpendAuth := mkCanonicalPagedSpendAuth {
  pa_logical_txid : list Z;
  pa_input_owner : list Z;
}.

Record PagedSpendIntent := mkPagedSpendIntent {
  pi_pages : list TxPage;
  pi_authorization_bytes : list Z;
}.

Inductive PagedSpendError :=
  | PS_Wire (e : WireError)
  | PS_PageCount (actual : Z)
  | PS_ReservedBitmapBits (page : nat) (bitmap : Z)
  | PS_CoinbasePage (page : nat)
  | PS_DeadInputNotZero (page slot : nat)
  | PS_DeadOutputNotZero (page slot : nat)
  | PS_MissingStart
  | PS_UnexpectedStart (page : nat)
  | PS_MissingEnd
  | PS_UnexpectedEnd (page : nat)
  | PS_OwnerMismatch (page : nat)
  | PS_EpochMismatch (page : nat)
  | PS_ContinuationFee (page : nat)
  | PS_SparseInputs (page slot : nat)
  | PS_SparseOutputs (page slot : nat)
  | PS_NoLiveInputs
  | PS_TooManyInputs (actual : Z)
  | PS_TooManyOutputs (actual : Z)
  | PS_NonMinimalPageCount (actual required : Z)
  | PS_DuplicateInputSlot (slot : Z)
  | PS_DuplicateOutputSlot (slot : Z)
  | PS_InputOutputSlotOverlap (slot : Z)
  | PS_InputSumOverflow
  | PS_OutputSumOverflow
  | PS_OutputPlusFeeOverflow
  | PS_BalanceMismatch (input_sum output_sum fee : Z)
  | PS_AuthorizationTooLarge (actual : Z)
  | PS_IntentTooLarge (actual : Z).

#[global] Instance PagedSpendError_eq_dec : EqDecision PagedSpendError.
Proof. solve_decision. Defined.

Definition is_start (page : TxPage) : bool :=
  negb (Z.land (tb_validity_bitmap (page_body page)) PAGED_SPEND_START_BIT =? 0).

Definition is_end (page : TxPage) : bool :=
  negb (Z.land (tb_validity_bitmap (page_body page)) PAGED_SPEND_END_BIT =? 0).

Definition validate_page_count (count : Z) : result PagedSpendError unit :=
  if negb ((1 <=? count) && (count <=? MAX_PAGED_SPEND_PAGES))
  then Err (PS_PageCount count) else Ok tt.

Definition validate_page_shape (body : TxBody) (page : nat) : result PagedSpendError unit :=
  if negb (Z.land (tb_validity_bitmap body)
             (Z.lxor (uint_max 16) PAGED_SPEND_VALIDITY_MASK) =? 0)
  then Err (PS_ReservedBitmapBits page (tb_validity_bitmap body))
  else if tb_is_coinbase body then Err (PS_CoinbasePage page)
  else
    _ ← try_for_each (λ p : nat * TxInput,
        if negb (input_is_live body (fst p)) && bool_decide (snd p ≠ TxInput_dummy)
        then Err (PS_DeadInputNotZero page (fst p)) else Ok tt) (imap pair (tb_inputs body));
    try_for_each (λ p : nat * TxOutput,
        if negb (output_is_live body (fst p)) && bool_decide (snd p ≠ TxOutput_dummy)
        then Err (PS_DeadOutputNotZero page (fst p)) else Ok tt) (imap pair (tb_outputs body)).

(** One side (inputs or outputs) of the accumulators of the density loop. *)
Record action_acc := mkActionAcc {
  aa_slots : gset Z;
  aa_live : Z;
  aa_sum : Z;
  aa_gap : bool;
}.

(** The body of the inner loops: a live entry must precede every dead one,
    stay within the limit, name a fresh slot and keep the sum in [u128]. *)
Definition visit_action (limit : Z) (sparse : PagedSpendError) (too_many : Z → PagedSpendError)
    (duplicate overflow : PagedSpendError)
    (acc : action_acc) (live : bool) (slot_index amount : Z) : result PagedSpendError action_acc :=
  if live then
    if aa_gap acc then Err sparse
    else
      let live' := aa_live acc + 1 in
      if limit <? live' then Err (too_many live')
      else
        slots ← insert_fresh duplicate (aa_slots acc) slot_index;
        sum ← ok_or (checked_add 128 (aa_sum acc) amount) overflow;
        Ok (mkActionAcc slots live' sum (aa_gap acc))
  else Ok (mkActionAcc (aa_slots acc) (aa_live acc) (aa_sum acc) true).

Definition visit_input (body : TxBody) (page : nat) (acc : action_acc) (p : nat * TxInput) :
    result PagedSpendError action_acc :=
  let '(slot, input) := p in
  visit_action MAX_PAGED_SPEND_INPUTS (PS_SparseInputs page slot) PS_TooManyInputs
    (PS_DuplicateInputSlot (ti_slot_index input)) PS_InputSumOverflow acc
    (input_is_live body slot) (ti_slot_index input) (ti_amount input).

Definition visit_output (body : TxBody) (page : nat) (acc : action_acc) (p : nat * TxOutput) :
    result PagedSpendError action_acc :=
  let '(slot, output) := p in
  visit_action MAX_PAGED_SPEND_OUTPUTS (PS_SparseOutputs page slot) PS_TooManyOutputs
    (PS_DuplicateOutputSlot (to_slot_index output)) PS_OutputSumOverflow acc
    (output_is_live body slot) (to_slot_index output) (to_amount output).

Definition visit_page (acc : action_acc * action_acc) (p : nat * TxPage) :
    result PagedSpendError (action_acc * action_acc) :=
  let '(page_index, page) := p in
  inputs ← try_fold (visit_input (page_body page) page_index) (fst acc)
             (imap pair (tb_inputs (page_body page)));
  outputs ← try_fold (visit_output (page_body page) page_index) (snd acc)
              (imap pair (tb_outputs (page_body page)));
  Ok (inputs, outputs).

Definition action_acc_empty : action_acc := mkActionAcc ∅ 0 0 false.

(** The marker and group-consistency loop. *)
Definition check_page_group (first : TxPage) (page_count : nat) (p : nat * TxPage) :
    result PagedSpendError unit :=
  let '(page_index, page) := p in
  if bool_decide (page_index ≠ 0%nat) && is_start page then Err (PS_UnexpectedStart page_index)
  else if bool_decide (page_index + 1 ≠ page_count)%nat && is_end page
  then Err (PS_UnexpectedEnd page_index)
  else if bool_decide (tb_input_owner (page_body page) ≠ tb_input_owner (page_body first))
  then Err (PS_OwnerMismatch page_index)
  else if bool_decide (tb_epoch_anchor (page_body page) ≠ tb_epoch_anchor (page_body first))
  then Err (PS_EpochMismatch page_index)
  else if bool_decide (page_index ≠ 0%nat) && negb (tb_fee (page_body page) =? 0)
  then Err (PS_ContinuationFee page_index)
  else Ok tt.

Definition required_pages (live_inputs live_outputs : Z) : Z :=
  Z.max (Z.max 1 (div_ceil live_inputs (Z.of_nat TX_INPUTS)))
        (div_ceil live_outputs (Z.of_nat TX_OUTPUTS)).

Section paged_spend.
  Context {P : Poseidon2bPermutation}.

Definition page_hash (page : TxPage) : list Z := hash_tx_body (page_body page).

Definition hash_paged_spend_unchecked (pages : list TxPage) : list Z :=
  let sponge := with_iv (capacity_iv TAG_PAGED_SPEND) in
  let sponge := absorb_pair sponge PAGED_SPEND_VERSION (Z.of_nat (length pages)) in
  let sponge := foldl (λ sponge page,
      let '(low, high) := as_fields (page_hash page) in absorb_pair sponge low high)
    sponge pages in
  finalize sponge.

(** The overlap error names an element of the intersection; the iteration
    order of the source's hash set is unspecified and the model takes the
    first in its own order. *)
Definition validate_paged_spend (pages : list TxPage) : result PagedSpendError PagedSpendFacts :=
  _ ← validate_page_count (Z.of_nat (length pages));
  _ ← try_for_each (λ p : nat * TxPage, validate_page_shape (page_body (snd p)) (fst p))
        (imap pair pages);
  match head pages, last pages with
  | Some first, Some final =>
      if negb (is_start first) then Err PS_MissingStart
      else if negb (is_end final) then Err PS_MissingEnd
      else
        _ ← try_for_each (check_page_group first (length pages)) (imap pair pages);
        '(inputs, outputs) ← try_fold visit_page (action_acc_empty, action_acc_empty)
                               (imap pair pages);
        if aa_live inputs =? 0 then Err PS_NoLiveInputs
        else
          match elements (aa_slots inputs ∩ aa_slots outputs) with
          | slot :: _ => Err (PS_InputOutputSlotOverlap slot)
          | [] =>
              let required := required_pages (aa_live inputs) (aa_live outputs) in
              if negb (Z.of_nat (length pages) =? required)
              then Err (PS_NonMinimalPageCount (Z.of_nat (length pages)) required)
              else
                let fee := tb_fee (page_body first) in
                expected ← ok_or (checked_add 128 (aa_sum outputs) fee) PS_OutputPlusFeeOverflow;
                if negb (aa_sum inputs =? expected)
                then Err (PS_BalanceMismatch (aa_sum inputs) (aa_sum outputs) fee)
                else
                  Ok (mkPagedSpendFacts (hash_paged_spend_unchecked pages)
                        (tb_input_owner (page_body first)) (tb_epoch_anchor (page_body first))
                        fee (wrap 16 (aa_live inputs)) (wrap 16 (aa_live outputs))
                        (aa_sum inputs) (aa_sum outputs))
          end
  | _, _ => Err (PS_PageCount (Z.of_nat (length pages)))
  end.

Definition hash_paged_spend (pages : list TxPage) : result PagedSpendError (list Z) :=
  _ ← validate_paged_spend pages;
  Ok (hash_paged_spend_unchecked pages).

Definition canonical_paged_spend_auth (pages : list TxPage) :
    result PagedSpendError CanonicalPagedSpendAuth :=
  facts ← validate_paged_spend pages;
  Ok (mkCanonicalPagedSpendAuth (ps_logical_txid facts) (ps_input_owner facts)).

End paged_spend.

(** ** The density loop *)

Section visit.
  Context {A : Type} (limit : Z) (sparse duplicate overflow : A → PagedSpendError)
    (too_many : Z → PagedSpendError) (live : A → bool) (slot amount : A → Z).

Definition visit_step (acc : action_acc) (a : A) : result PagedSpendError action_acc :=
  visit_action limit (sparse a) too_many (duplicate a) (overflow a) acc (live a) (slot a) (amount a).

Lemma visit_step_dead ss n s g a :
  live a = false → visit_step (mkActionAcc ss n s g) a = Ok (mkActionAcc ss n s true).
Proof. intros Ha. unfold visit_step, visit_action. rewrite Ha. done. Qed.

Lemma visit_step_live ss n s g a :
  live a = true →
  visit_step (mkActionAcc ss n s g) a =
    if g then Err (sparse a)
    else if limit <? n + 1 then Err (too_many (n + 1))
    else
      slots ← insert_fresh (duplicate a) ss (slot a);
      sum ← ok_or (checked_add 128 s (amount a)) (overflow a);
      Ok (mkActionAcc slots (n + 1) sum g).
Proof. intros Ha. unfold visit_step, visit_action. rewrite Ha. done. Qed.

Lemma visit_after_gap acc l acc' :
  aa_gap acc = true →
  try_fold visit_step acc l = Ok acc' ↔ Forall (λ a, live a = false) l ∧ acc' = acc.
Proof.
  intros Hg. destruct acc as [ss n s g]. cbn in Hg. subst g.
  induction l as [|a l IH]; cbn [try_fold].
  { split; [intros [= <-]; by split; [constructor|]|by intros [_ ->]]. }
  rewrite Forall_cons. destruct (live a) eqn:Ha.
  - rewrite visit_step_live by done. cbn. split; [done|by intros [[? _] _]].
  - rewrite visit_step_dead by done. cbn. rewrite IH. tauto.
Qed.

Lemma visit_before_gap acc l acc' :
  aa_gap acc = false → aa_live acc ≤ limit → 0 ≤ aa_sum acc < 2 ^ 128 →
  Forall (λ a, 0 ≤ amount a) l →
  try_fold visit_step acc l = Ok acc' ↔
  ∃ l1 l2, l = l1 ++ l2 ∧ Forall (λ a, live a = true) l1 ∧ Forall (λ a, live a = false) l2
    ∧ aa_live acc + Z.of_nat (length l1) ≤ limit
    ∧ NoDup (slot <$> l1) ∧ (∀ x, x ∈ slot <$> l1 → x ∉ aa_slots acc)
    ∧ aa_sum acc + sum_Z (amount <$> l1) < 2 ^ 128
    ∧ acc' = mkActionAcc (list_to_set (slot <$> l1) ∪ aa_slots acc)
               (aa_live acc + Z.of_nat (length l1)) (aa_sum acc + sum_Z (amount <$> l1))
               (bool_decide (l2 ≠ [])).
Proof.
  intros Hg Hlim Hsum Hl. revert acc Hg Hlim Hsum. induction Hl as [|a l Ha Hl IH];
    intros [ss n s g] Hg Hlim Hsum; cbn in Hg, Hlim, Hsum; subst g.
  { cbn. split.
    - intros [= <-]. exists [], []. rewrite bool_decide_false by naive_solver. cbn.
      split_and!; [done|constructor..|lia|constructor|by intros ? ?%not_elem_of_nil|lia|].
      f_equal; [set_solver|lia..].
    - intros (l1 & l2 & Heq & _ & _ & _ & _ & _ & _ & ->).
      symmetry in Heq. apply app_nil in Heq as [-> ->].
      rewrite bool_decide_false by naive_solver. cbn. do 2 f_equal; [set_solver|lia..]. }
  cbn [try_fold aa_gap aa_live aa_slots aa_sum].
  destruct (live a) eqn:Hla; [rewrite visit_step_live by done|rewrite visit_step_dead by done].
  - split.
    + intros H. apply bind_Ok in H as (acc1 & Hstep & H). apply if_err_Ok in Hstep as [Hle Hstep].
      apply bind_Ok in Hstep as (ss1 & Hins & Hstep). apply bind_Ok in Hstep as (s1 & Hadd & [= <-]).
      apply insert_fresh_Ok in Hins as [Hna ->].
      apply ok_or_Ok, checked_add_Some in Hadd as [-> Hlt].
      apply IH in H; cbn [aa_gap aa_live aa_sum]; [|done|lia|lia].
      destruct H as (l1 & l2 & -> & Hl1 & Hl2 & Hlim' & Hnd & Hfr & Hs & ->).
      cbn [aa_gap aa_live aa_sum aa_slots] in *.
      exists (a :: l1), l2. cbn [fmap list_fmap length]. unfold sum_Z in *. cbn [foldr] in *.
      split_and!; [done|by constructor|done|lia|constructor; [set_solver|done]|set_solver|lia|].
      f_equal; [set_solver|lia..].
    + intros (l1 & l2 & Heq & Hl1 & Hl2 & Hlim' & Hnd & Hfr & Hs & ->).
      destruct l1 as [|a' l1].
      { cbn in Heq. subst l2. inversion Hl2; congruence. }
      cbn in Heq. simplify_eq. inversion Hl1 as [|? ? Ha1 Hl1']; subst.
      cbn [fmap list_fmap length] in *. unfold sum_Z in *. cbn [foldr] in *.
      apply NoDup_cons in Hnd as [Hna Hnd].
      assert (0 ≤ foldr Z.add 0 (amount <$> l1)).
      { apply sum_Z_nonneg, Forall_fmap. apply Forall_app in Hl as [Hl _]. done. }
      destruct (Z.ltb_spec limit (n + 1)); [lia|].
      unfold insert_fresh. rewrite decide_False by set_solver. cbn.
      unfold checked_add. destruct (Z.ltb_spec (s + amount a') (2 ^ 128)); [|lia]. cbn.
      apply IH; cbn [aa_gap aa_live aa_sum aa_slots]; [done|lia|lia|].
      exists l1, l2. split_and!; [done|done|done|lia|done|set_solver|lia|].
      f_equal; [set_solver|lia..].
  - cbn. rewrite visit_after_gap by done. split.
    + intros [Hall ->]. exists [], (a :: l). rewrite bool_decide_true by done. cbn.
      split_and!; [done|constructor|by constructor|lia|constructor|
        by intros ? ?%not_elem_of_nil|lia|].
      f_equal; [set_solver|lia..].
    + intros (l1 & l2 & Heq & Hl1 & Hl2 & Hlim' & Hnd & Hfr & Hs & ->).
      destruct l1 as [|a' l1]; [|cbn in Heq; simplify_eq; inversion Hl1; congruence].
      cbn in Heq. subst l2. inversion Hl2; subst. split; [done|].
      rewrite bool_decide_true by done. cbn. f_equal; [set_solver|lia..].
Qed.

End visit.

(** ** What a valid group is *)

Definition group_inputs (pages : list TxPage) : list TxInput :=
  pages ≫= λ p, snd <$> live_inputs (page_body p).

Definition group_outputs (pages : list TxPage) : list TxOutput :=
  pages ≫= λ p, snd <$> live_outputs (page_body p).

Definition input_flags (pages : list TxPage) : list bool :=
  pages ≫= λ p, imap (λ i _, input_is_live (page_body p) i) (tb_inputs (page_body p)).

Definition output_flags (pages : list TxPage) : list bool :=
  pages ≫= λ p, imap (λ i _, output_is_live (page_body p) i) (tb_outputs (page_body p)).

(** Page-local representation invariants. *)
Definition page_shape (body : TxBody) : Prop :=
  tb_validity_bitmap body < 2 ^ 12 ∧ tb_is_coinbase body = false
  ∧ (∀ i inp, tb_inputs body !! i = Some inp →
       Z.testbit (tb_validity_bitmap body) (Z.of_nat i) = false → inp = TxInput_dummy)
  ∧ (∀ i out, tb_outputs body !! i = Some out →
       Z.testbit (tb_validity_bitmap body) (Z.of_nat (8 + i)) = false → out = TxOutput_dummy).

(** The group of pages [first :: _] is one logical transaction. *)
Record valid_group (pages : list TxPage) (first : TxPage) : Prop := {
  vg_first : head pages = Some first;
  vg_count : 1 ≤ Z.of_nat (length pages) ≤ 128;
  vg_shape : Forall (λ p, page_shape (page_body p)) pages;
  vg_start : ∀ i p, pages !! i = Some p → is_start p = bool_decide (i = 0%nat);
  vg_end : ∀ i p, pages !! i = Some p → is_end p = bool_decide (S i = length pages);
  vg_owner : Forall (λ p, tb_input_owner (page_body p) = tb_input_owner (page_body first)) pages;
  vg_epoch : Forall (λ p, tb_epoch_anchor (page_body p) = tb_epoch_anchor (page_body first)) pages;
  vg_fee : ∀ i p, pages !! i = Some p → i ≠ 0%nat → tb_fee (page_body p) = 0;
  vg_dense_inputs : dense (input_flags pages);
  vg_dense_outputs : dense (output_flags pages);
  vg_inputs : 1 ≤ Z.of_nat (length (group_inputs pages)) ≤ 1020;
  vg_outputs : Z.of_nat (length (group_outputs pages)) ≤ 256;
  vg_slots : NoDup ((ti_slot_index <$> group_inputs pages) ++ (to_slot_index <$> group_outputs pages));
  vg_minimal : Z.of_nat (length pages) =
    required_pages (Z.of_nat (length (group_inputs pages))) (Z.of_nat (length (group_outputs pages)));
  vg_balance : sum_Z (ti_amount <$> group_inputs pages) =
    sum_Z (to_amount <$> group_outputs pages) + tb_fee (page_body first);
}.

Definition page_wf (p : TxPage) : Prop := TxBody_wf (page_body p).

#[global] Instance page_wf_dec p : Decision (page_wf p).
Proof. unfold page_wf. apply _. Defined.

(** Both density loops, flattened over the pages. *)
Definition flat_inputs (ps : list (nat * TxPage)) : list ((nat * TxPage) * (nat * TxInput)) :=
  ps ≫= λ p, pair p <$> imap pair (tb_inputs (page_body (snd p))).

Definition flat_outputs (ps : list (nat * TxPage)) : list ((nat * TxPage) * (nat * TxOutput)) :=
  ps ≫= λ p, pair p <$> imap pair (tb_outputs (page_body (snd p))).

Definition flat_input_live (a : (nat * TxPage) * (nat * TxInput)) : bool :=
  input_is_live (page_body (snd (fst a))) (fst (snd a)).

Definition flat_output_live (a : (nat * TxPage) * (nat * TxOutput)) : bool :=
  output_is_live (page_body (snd (fst a))) (fst (snd a)).

Definition input_step :=
  visit_step MAX_PAGED_SPEND_INPUTS
    (λ a : (nat * TxPage) * (nat * TxInput), PS_SparseInputs (fst (fst a)) (fst (snd a)))
    (λ a, PS_DuplicateInputSlot (ti_slot_index (snd (snd a)))) (λ _, PS_InputSumOverflow)
    PS_TooManyInputs flat_input_live
    (λ a, ti_slot_index (snd (snd a))) (λ a, ti_amount (snd (snd a))).

Definition output_step :=
  visit_step MAX_PAGED_SPEND_OUTPUTS
    (λ a : (nat * TxPage) * (nat * TxOutput), PS_SparseOutputs (fst (fst a)) (fst (snd a)))
    (λ a, PS_DuplicateOutputSlot (to_slot_index (snd (snd a)))) (λ _, PS_OutputSumOverflow)
    PS_TooManyOutputs flat_output_live
    (λ a, to_slot_index (snd (snd a))) (λ a, to_amount (snd (snd a))).

Lemma visit_pages_split ps a b a' b' :
  try_fold visit_page (a, b) ps = Ok (a', b') ↔
  try_fold input_step a (flat_inputs ps) = Ok a' ∧ try_fold output_step b (flat_outputs ps) = Ok b'.
Proof.
  revert a b; induction ps as [|[i p] ps IH]; intros a b; [cbn; naive_solver|].
  unfold flat_inputs, flat_outputs. rewrite !bind_cons, !try_fold_app, !try_fold_fmap.
  fold (flat_inputs ps) (flat_outputs ps). cbn [try_fold visit_page fst snd].
  rewrite (try_fold_ext (visit_input (page_body p) i) (λ acc c, input_step acc (i, p, c)))
    by (intros ? []; done).
  rewrite (try_fold_ext (visit_output (page_body p) i) (λ acc c, output_step acc (i, p, c)))
    by (intros ? []; done).
  destruct (try_fold _ a (imap pair _)) as [a1|]; cbn [mbind result_bind]; [|naive_solver].
  destruct (try_fold _ b (imap pair _)) as [b1|]; cbn [mbind result_bind]; [|naive_solver].
  apply IH.
Qed.

Lemma flat_inputs_flags pages :
  flat_input_live <$> flat_inputs (imap pair pages) = input_flags pages.
Proof.
  unfold input_flags. rewrite <- (imap_pair_snd pages) at 2.
  generalize (imap pair pages). intros ps. induction ps as [|[i p] ps IH]; [done|].
  rewrite fmap_cons, bind_cons. unfold flat_inputs in *. rewrite bind_cons, fmap_app, IH.
  f_equal. rewrite <- list_fmap_compose, fmap_imap. done.
Qed.

Lemma flat_outputs_flags pages :
  flat_output_live <$> flat_outputs (imap pair pages) = output_flags pages.
Proof.
  unfold output_flags. rewrite <- (imap_pair_snd pages) at 2.
  generalize (imap pair pages). intros ps. induction ps as [|[i p] ps IH]; [done|].
  rewrite fmap_cons, bind_cons. unfold flat_outputs in *. rewrite bind_cons, fmap_app, IH.
  f_equal. rewrite <- list_fmap_compose, fmap_imap. done.
Qed.

Lemma flat_inputs_live pages :
  (λ a, snd (snd a)) <$> filter (λ a, Is_true (flat_input_live a)) (flat_inputs (imap pair pages))
  = group_inputs pages.
Proof.
  unfold group_inputs. rewrite <- (imap_pair_snd pages) at 2.
  generalize (imap pair pages). intros ps. induction ps as [|[i p] ps IH]; [done|].
  rewrite fmap_cons, bind_cons. unfold flat_inputs in *.
  rewrite bind_cons, filter_app, fmap_app, IH. f_equal.
  rewrite filter_fmap_comm, <- list_fmap_compose. done.
Qed.

Lemma flat_outputs_live pages :
  (λ a, snd (snd a)) <$> filter (λ a, Is_true (flat_output_live a)) (flat_outputs (imap pair pages))
  = group_outputs pages.
Proof.
  unfold group_outputs. rewrite <- (imap_pair_snd pages) at 2.
  generalize (imap pair pages). intros ps. induction ps as [|[i p] ps IH]; [done|].
  rewrite fmap_cons, bind_cons. unfold flat_outputs in *.
  rewrite bind_cons, filter_app, fmap_app, IH. f_equal.
  rewrite filter_fmap_comm, <- list_fmap_compose. done.
Qed.

(** The loop from empty accumulators, in terms of the live entries. *)
Lemma visit_from_empty {A} limit sparse duplicate overflow too_many (live : A → bool) slot amount l acc :
  0 ≤ limit → Forall (λ a, 0 ≤ amount a) l →
  let l1 := filter (λ a, Is_true (live a)) l in
  try_fold (visit_step limit sparse duplicate overflow too_many live slot amount)
    action_acc_empty l = Ok acc ↔
  dense (live <$> l) ∧ Z.of_nat (length l1) ≤ limit ∧ NoDup (slot <$> l1)
  ∧ sum_Z (amount <$> l1) < 2 ^ 128
  ∧ acc = mkActionAcc (list_to_set (slot <$> l1)) (Z.of_nat (length l1)) (sum_Z (amount <$> l1))
            (bool_decide (length l1 ≠ length l)).
Proof.
  intros Hlim Ha l1. subst l1. rewrite visit_before_gap by (done || cbn; lia). rewrite dense_split.
  cbn [aa_slots aa_live aa_sum action_acc_empty]. split.
  - intros (l1 & l2 & -> & H1 & H2 & Hl & Hnd & _ & Hs & ->).
    rewrite filter_dense by done. split_and!; [by eauto|lia|done|lia|].
    f_equal; [set_solver|lia..|].
    apply bool_decide_ext. rewrite length_app. destruct l2; cbn; [|split; [lia|done]].
    split; [done|lia].
  - intros ((l1 & l2 & -> & H1 & H2) & Hl & Hnd & Hs & ->).
    rewrite filter_dense in * by done. exists l1, l2.
    split_and!; [done..|lia|done|set_solver|lia|].
    f_equal; [set_solver|lia..|].
    apply bool_decide_ext. rewrite length_app. destruct l2; cbn; [|split; [done|lia]].
    split; [lia|done].
Qed.

Section valid_pages.
  Context (pages : list TxPage) (Hwf : Forall page_wf pages).

Lemma flat_input_amounts :
  Forall (λ a, 0 ≤ ti_amount (snd (snd a)) < 2 ^ 64) (flat_inputs (imap pair pages)).
Proof.
  apply Forall_forall. intros [[i p] [j inp]] Hin. unfold flat_inputs in Hin.
  apply list_elem_of_bind in Hin as ([i' p'] & Hin & Hp).
  apply list_elem_of_fmap in Hin as (q & [= <- <- <-] & Hq). cbn in *.
  apply elem_of_lookup_imap in Hp as (? & ? & [= <- <-] & Hp).
  apply elem_of_lookup_imap in Hq as (? & ? & [= <- <-] & Hq).
  rewrite Forall_lookup in Hwf. destruct (Hwf _ _ Hp) as (_ & _ & _ & _ & Hi & _).
  rewrite Forall_lookup in Hi. destruct (Hi _ _ Hq) as (_ & Ha & _). done.
Qed.

Lemma flat_output_amounts :
  Forall (λ a, 0 ≤ to_amount (snd (snd a)) < 2 ^ 64) (flat_outputs (imap pair pages)).
Proof.
  apply Forall_forall. intros [[i p] [j out]] Hin. unfold flat_outputs in Hin.
  apply list_elem_of_bind in Hin as ([i' p'] & Hin & Hp).
  apply list_elem_of_fmap in Hin as (q & [= <- <- <-] & Hq). cbn in *.
  apply elem_of_lookup_imap in Hp as (? & ? & [= <- <-] & Hp).
  apply elem_of_lookup_imap in Hq as (? & ? & [= <- <-] & Hq).
  rewrite Forall_lookup in Hwf. destruct (Hwf _ _ Hp) as (_ & _ & _ & _ & _ & _ & Ho & _).
  rewrite Forall_lookup in Ho. destruct (Ho _ _ Hq) as (_ & Ha & _). done.
Qed.

Lemma sum_limit {A} (f : A → Z) (l : list A) n :
  Forall (λ a, 0 ≤ f a < 2 ^ 64) l → Z.of_nat (length l) ≤ n → sum_Z (f <$> l) ≤ n * 2 ^ 64.
Proof.
  intros Hf Hn. transitivity (sum_Z ((λ _, 2 ^ 64) <$> l)).
  - apply sum_Z_le. eapply Forall_impl; [exact Hf|]. cbn. lia.
  - rewrite (sum_Z_const _ (2 ^ 64)) by (by apply Forall_true). lia.
Qed.

Lemma visit_inputs_Ok acc :
  try_fold input_step action_acc_empty (flat_inputs (imap pair pages)) = Ok acc ↔
  dense (input_flags pages) ∧ Z.of_nat (length (group_inputs pages)) ≤ 1020
  ∧ NoDup (ti_slot_index <$> group_inputs pages)
  ∧ acc = mkActionAcc (list_to_set (ti_slot_index <$> group_inputs pages))
            (Z.of_nat (length (group_inputs pages))) (sum_Z (ti_amount <$> group_inputs pages))
            (bool_decide (length (group_inputs pages) ≠ length (flat_inputs (imap pair pages)))).
Proof.
  pose proof flat_input_amounts as Ha. unfold input_step.
  rewrite visit_from_empty by (done || (eapply Forall_impl; [exact Ha|]; cbn; lia)).
  rewrite flat_inputs_flags, <- flat_inputs_live, length_fmap, <- !list_fmap_compose.
  change MAX_PAGED_SPEND_INPUTS with 1020. unfold compose.
  split; [tauto|]. intros (? & Hl & ? & ?). split_and!; try done.
  apply Z.le_lt_trans with (1020 * 2 ^ 64); [|lia]. apply sum_limit; [|done].
  apply Forall_forall. intros a [_ Hin]%list_elem_of_filter. rewrite Forall_forall in Ha. by apply Ha.
Qed.

Lemma visit_outputs_Ok acc :
  try_fold output_step action_acc_empty (flat_outputs (imap pair pages)) = Ok acc ↔
  dense (output_flags pages) ∧ Z.of_nat (length (group_outputs pages)) ≤ 256
  ∧ NoDup (to_slot_index <$> group_outputs pages)
  ∧ acc = mkActionAcc (list_to_set (to_slot_index <$> group_outputs pages))
            (Z.of_nat (length (group_outputs pages))) (sum_Z (to_amount <$> group_outputs pages))
            (bool_decide (length (group_outputs pages) ≠ length (flat_outputs (imap pair pages)))).
Proof.
  pose proof flat_output_amounts as Ha. unfold output_step.
  rewrite visit_from_empty by (done || (eapply Forall_impl; [exact Ha|]; cbn; lia)).
  rewrite flat_outputs_flags, <- flat_outputs_live, length_fmap, <- !list_fmap_compose.
  change MAX_PAGED_SPEND_OUTPUTS with 256. unfold compose.
  split; [tauto|]. intros (? & Hl & ? & ?). split_and!; try done.
  apply Z.le_lt_trans with (256 * 2 ^ 64); [|lia]. apply sum_limit; [|done].
  apply Forall_forall. intros a [_ Hin]%list_elem_of_filter. rewrite Forall_forall in Ha. by apply Ha.
Qed.

End valid_pages.

Lemma validate_page_shape_Ok body i :
  TxBody_wf body → validate_page_shape body i = Ok tt ↔ page_shape body.
Proof.
  intros Hwf. unfold validate_page_shape, page_shape. rewrite !if_err_Ok, bind_unit_Ok.
  rewrite (dead_inputs_ok (PS_DeadInputNotZero i)), (dead_outputs_ok (PS_DeadOutputNotZero i)) by done.
  change (Z.lxor (uint_max 16) PAGED_SPEND_VALIDITY_MASK) with (2 ^ 16 - 2 ^ 12).
  rewrite land_high_mask_zero by (lia || apply Hwf).
  rewrite negb_false_iff, Z.ltb_lt. tauto.
Qed.

Lemma check_page_group_Ok first n i p :
  check_page_group first n (i, p) = Ok tt ↔
  (i ≠ 0%nat → is_start p = false) ∧ (S i ≠ n → is_end p = false)
  ∧ tb_input_owner (page_body p) = tb_input_owner (page_body first)
  ∧ tb_epoch_anchor (page_body p) = tb_epoch_anchor (page_body first)
  ∧ (i ≠ 0%nat → tb_fee (page_body p) = 0).
Proof.
  unfold check_page_group. rewrite !if_err_Ok, !andb_false_iff, !bool_decide_eq_false.
  rewrite Nat.add_1_r, negb_false_iff, Z.eqb_eq. split.
  - intros (H1 & H2 & H3 & H4 & H5 & _). apply dec_stable in H3, H4.
    split_and!; try done; intros; tauto.
  - intros (H1 & H2 & H3 & H4 & H5). split_and!; try (intros ?; tauto); try done.
    all: destruct (decide (i = 0%nat)), (decide (S i = n)); tauto.
Qed.

Lemma head_lookup_0 {A} (l : list A) : head l = l !! 0%nat.
Proof. by destruct l. Qed.

(** The marker and consistency checks, together. *)
Lemma group_markers_Ok pages first final :
  head pages = Some first → last pages = Some final →
  is_start first = true ∧ is_end final = true
  ∧ try_for_each (check_page_group first (length pages)) (imap pair pages) = Ok tt ↔
  (∀ i p, pages !! i = Some p → is_start p = bool_decide (i = 0%nat))
  ∧ (∀ i p, pages !! i = Some p → is_end p = bool_decide (S i = length pages))
  ∧ Forall (λ p, tb_input_owner (page_body p) = tb_input_owner (page_body first)) pages
  ∧ Forall (λ p, tb_epoch_anchor (page_body p) = tb_epoch_anchor (page_body first)) pages
  ∧ (∀ i p, pages !! i = Some p → i ≠ 0%nat → tb_fee (page_body p) = 0).
Proof.
  intros Hh Hl. rewrite head_lookup_0 in Hh. rewrite last_lookup in Hl.
  rewrite try_for_each_Ok, Forall_imap_pair. setoid_rewrite check_page_group_Ok.
  rewrite !Forall_lookup. split.
  - intros (Hs & He & Hall). split_and!; intros i p Hp; specialize (Hall i p Hp);
      try tauto.
    + case_bool_decide as Hi; [subst; congruence|tauto].
    + case_bool_decide as Hi; [|tauto].
      replace (pred (length pages)) with i in Hl by lia. congruence.
  - intros (Hs & He & Ho & Ha & Hf). split_and!.
    + rewrite (Hs 0%nat) by done. done.
    + rewrite (He _ _ Hl). apply bool_decide_true.
      pose proof (lookup_lt_Some _ _ _ Hl). lia.
    + intros i p Hp. split_and!; eauto; intros Hi.
      * rewrite (Hs _ _ Hp). by apply bool_decide_false.
      * rewrite (He _ _ Hp). by apply bool_decide_false.
Qed.

Section validate.
  Context {P : Poseidon2bPermutation}.

Definition group_facts (pages : list TxPage) (first : TxPage) : PagedSpendFacts :=
  mkPagedSpendFacts (hash_paged_spend_unchecked pages)
    (tb_input_owner (page_body first)) (tb_epoch_anchor (page_body first)) (tb_fee (page_body first))
    (Z.of_nat (length (group_inputs pages))) (Z.of_nat (length (group_outputs pages)))
    (sum_Z (ti_amount <$> group_inputs pages)) (sum_Z (to_amount <$> group_outputs pages)).

Lemma elements_disjoint (s1 s2 : gset Z) : elements (s1 ∩ s2) = [] ↔ s1 ## s2.
Proof. rewrite elements_empty_iff. set_solver. Qed.

Lemma group_output_amounts pages :
  Forall page_wf pages → Forall (λ o, 0 ≤ to_amount o < 2 ^ 64) (group_outputs pages).
Proof.
  intros Hwf. rewrite <- flat_outputs_live. apply Forall_fmap, Forall_forall. intros a [_ Hin]%list_elem_of_filter.
  pose proof (flat_output_amounts pages Hwf) as Ha. rewrite Forall_forall in Ha. by apply Ha.
Qed.

Lemma group_output_sum_bound pages :
  Forall page_wf pages → Z.of_nat (length (group_outputs pages)) ≤ 256 →
  0 ≤ sum_Z (to_amount <$> group_outputs pages) ≤ 256 * 2 ^ 64.
Proof.
  intros Hwf Hl. pose proof (group_output_amounts pages Hwf) as Hb.
  split; [|by apply sum_limit]. apply sum_Z_nonneg, Forall_fmap.
  eapply Forall_impl; [exact Hb|]. cbn. lia.
Qed.

Lemma validate_paged_spend_sound pages facts :
  Forall page_wf pages → validate_paged_spend pages = Ok facts →
  ∃ first, valid_group pages first ∧ facts = group_facts pages first.
Proof.
  intros Hwf. unfold validate_paged_spend. rewrite !bind_unit_Ok.
  intros (Hcount & Hshape & H).
    destruct (head pages) as [first|] eqn:Hh; [|done].
  destruct (last pages) as [final|] eqn:Hl; [|done].
  apply if_err_Ok in H as [Hs H]. apply if_err_Ok in H as [He H].
  apply bind_unit_Ok in H as [Hgrp H]. apply bind_Ok in H as ([ai ao] & Hv & H).
  destruct (proj1 (group_markers_Ok pages first final Hh Hl)) as (Hst & Hen & Hown & Hep & Hfee).
  { apply negb_false_iff in Hs, He. done. }
  apply visit_pages_split in Hv as [Hvi Hvo].
  apply visit_inputs_Ok in Hvi as (Hdi & Hni & Hndi & ->); [|done].
  apply visit_outputs_Ok in Hvo as (Hdo & Hno & Hndo & ->); [|done].
  cbn [aa_live aa_slots aa_sum] in H. apply if_err_Ok in H as [Hne H].
  destruct (elements _) eqn:Hel; [|done]. apply elements_disjoint in Hel.
  apply if_err_Ok in H as [Hreq H]. apply bind_Ok in H as (ex & Hex & H).
  apply ok_or_Ok, checked_add_Some in Hex as [-> Hlt]. apply if_err_Ok in H as [Hbal [= <-]].
  exists first. split.
  + unfold validate_page_count, MAX_PAGED_SPEND_PAGES in Hcount. apply if_err_Ok in Hcount as [Hc _].
    constructor; try done; try lia.
    * rewrite try_for_each_Ok, Forall_imap_pair in Hshape. apply Forall_lookup. intros i p Hp.
      rewrite Forall_lookup in Hwf. apply (validate_page_shape_Ok _ i); [by eapply Hwf|].
      exact (Hshape i p Hp).
    * apply NoDup_app. split_and!; [done| |done]. intros x Hx Hx'.
      apply (Hel x); by apply elem_of_list_to_set.
  + unfold group_facts, wrap. rewrite !Z.mod_small by lia. done.
Qed.

Lemma validate_paged_spend_complete pages first :
  Forall page_wf pages → valid_group pages first →
  validate_paged_spend pages = Ok (group_facts pages first).
Proof.
  intros Hwf Hvg. unfold validate_paged_spend. rewrite !bind_unit_Ok.
  pose proof (vg_first _ _ Hvg) as Hh.
  destruct (last pages) as [final|] eqn:Hl; [|by apply last_None in Hl; subst; done].
  pose proof (group_output_sum_bound pages Hwf (vg_outputs _ _ Hvg)).
  destruct Hvg as [_ Hc Hshape Hst Hen Hown Hep Hfee Hdi Hdo Hni Hno Hnd Hmin Hbal].
  apply NoDup_app in Hnd as (Hndi & Hdisj & Hndo).
  destruct (proj2 (group_markers_Ok pages first final Hh Hl)) as (Hs & He & Hgrp); [done|].
  rewrite Hh. split_and!.
  + unfold validate_page_count, MAX_PAGED_SPEND_PAGES. rewrite if_err_Ok. split; [lia|done].
  + rewrite try_for_each_Ok, Forall_imap_pair. intros i p Hp. rewrite Forall_lookup in Hwf, Hshape.
    apply validate_page_shape_Ok; [by eapply Hwf|by eapply Hshape].
  + rewrite Hs, He. cbn [negb]. rewrite Hgrp. cbn [mbind result_bind].
    eapply bind_Ok. eexists (_, _). split.
    { apply visit_pages_split. split; [apply visit_inputs_Ok|apply visit_outputs_Ok];
        try done; split_and!; try done; lia. }
    cbn [aa_live aa_slots aa_sum]. rewrite if_err_Ok. split; [lia|].
    rewrite (proj2 (elements_disjoint _ _)) by set_solver.
    rewrite <- Hmin, Z.eqb_refl. cbn [negb].
    assert (Hf : is_u64 (tb_fee (page_body first))).
    { rewrite head_lookup_0 in Hh. rewrite Forall_lookup in Hwf. by destruct (Hwf _ _ Hh) as (_ & ? & _). }
    unfold is_uint in Hf. unfold checked_add. 
    destruct (Z.ltb_spec (sum_Z (to_amount <$> group_outputs pages) + tb_fee (page_body first))
                (2 ^ 128)); [|lia]. cbn.
    unfold group_facts, wrap. rewrite !Z.mod_small by lia.
    rewrite Hbal, Z.eqb_refl. done.
Qed.

Lemma validate_paged_spend_valid pages facts :
  Forall page_wf pages →
  validate_paged_spend pages = Ok facts ↔
  ∃ first, valid_group pages first ∧ facts = group_facts pages first.
Proof.
  intros Hwf. split; [by apply validate_paged_spend_sound|].
  intros (first & Hvg & ->). by apply validate_paged_spend_complete.
Qed.

End validate.

(** ** Properties *)

(** Two pages: ten inputs and three outputs of one owner, fee 9000. *)
Definition example_group : list TxPage :=
  [mkTxPage (mkTxBody zero_digest 9000 (replicate 32 7)
      ((λ i, mkTxInput i 10000 (i + 1)) <$> seqZ 0 8)
      [mkTxOutput 100 50000 (replicate 32 8); mkTxOutput 101 40000 (replicate 32 7)] 0x7FF false);
   mkTxPage (mkTxBody zero_digest 0 (replicate 32 7)
      ([mkTxInput 8 10000 9; mkTxInput 9 10000 10] ++ replicate 6 TxInput_dummy)
      [mkTxOutput 102 1000 (replicate 32 7); TxOutput_dummy] 0x903 false)].

(** C11: The group validator accepts exactly the valid page groups (page shapes, start
    and end markers on the outer pages only, one owner and epoch anchor, fee on the first
    page only, inputs and outputs dense over the whole group, all slots distinct, the
    minimal number of pages, inputs equal outputs plus fee) and returns their facts. *)
Theorem validate_paged_spend_iff_valid_group {P : Poseidon2bPermutation}
    (pages : list TxPage) (facts : PagedSpendFacts) (Hwf : Forall page_wf pages) :
  validate_paged_spend pages = Ok facts ↔
  ∃ first, valid_group pages first ∧ facts = group_facts pages first.
Proof. by apply validate_paged_spend_valid. Qed.

Lemma validate_paged_spend_iff_valid_group_witness :
  ∃ first, valid_group example_group first.
Proof.
  destruct (proj1 (validate_paged_spend_iff_valid_group (P := example_permutation) example_group
    (mkPagedSpendFacts (hash_paged_spend_unchecked (P := example_permutation) example_group)
       (replicate 32 7) zero_digest 9000 10 3 100000 91000)
    (bool_decide_unpack (Forall page_wf example_group) ltac:(vm_compute; exact I))))
    as (first & Hv & _).
  - vm_compute. reflexivity.
  - exists first. exact Hv.
Defined.
