(* ===== verification/PagedWire.v ===== *)
(** * Wire encoding of pages and intents

    The encoders and decoders of [jetsam_tx/src/paged_spend.rs]: one page has
    the 323-byte layout of a body, an intent is a marker, a page count, the
    pages and a length-prefixed authorization capsule.  The theorems prove
    both codecs exact. *)

From S2P Require Import Prelude Machine Poseidon TxTypes TxWire PagedSpend.

(** ** Page and intent wire *)

Definition encode_page_body (body : TxBody) : list Z :=
  tb_epoch_anchor body ++ to_le_bytes 8 (tb_fee body) ++ tb_input_owner body
  ++ concat (TxInput_encode <$> tb_inputs body) ++ concat (TxOutput_encode <$> tb_outputs body)
  ++ to_le_bytes 2 (tb_validity_bitmap body) ++ [Z.b2z (tb_is_coinbase body)].

Definition ps_take (len : nat) : decoder PagedSpendError (list Z) := λ src,
  if decide (length src < len)%nat then Err (PS_Wire Truncated)
  else Ok (take len src, drop len src).

Definition ps_take_u16 : decoder PagedSpendError Z := λ src,
  '(bs, src) ← ps_take 2 src; Ok (from_le_bytes bs, src).

Definition ps_take_u32 : decoder PagedSpendError Z := λ src,
  '(bs, src) ← ps_take 4 src; Ok (from_le_bytes bs, src).

Definition decode_page_body : decoder PagedSpendError TxBody := λ src,
  '(epoch_anchor, src) ← ps_take 32 src;
  '(fee, src) ← ps_take 8 src;
  '(input_owner, src) ← ps_take 32 src;
  '(inputs, src) ← map_err PS_Wire (decode_array TX_INPUTS TxInput_decode src);
  '(outputs, src) ← map_err PS_Wire (decode_array TX_OUTPUTS TxOutput_decode src);
  '(validity_bitmap, src) ← ps_take_u16 src;
  '(flag, src) ← ps_take 1 src;
  is_coinbase ← match flag with
                | [0] => Ok false
                | [1] => Ok true
                | _ => Err (PS_Wire InvalidBool)
                end;
  Ok (mkTxBody epoch_anchor (from_le_bytes fee) input_owner inputs outputs validity_bitmap
        is_coinbase, src).

Definition TxPage_new (body : TxBody) : result PagedSpendError TxPage :=
  _ ← validate_page_shape body 0;
  Ok (mkTxPage body).

Definition TxPage_encode (page : TxPage) : result PagedSpendError (list Z) :=
  _ ← validate_page_shape (page_body page) 0;
  Ok (encode_page_body (page_body page)).

Definition TxPage_decode : decoder PagedSpendError TxPage := λ src,
  '(body, src) ← decode_page_body src;
  page ← TxPage_new body;
  Ok (page, src).

Definition TxPage_from_bytes (bytes : list Z) : result PagedSpendError TxPage :=
  if bool_decide (length bytes ≠ TX_BODY_WIRE_SIZE) then
    Err (PS_Wire (if decide (length bytes < TX_BODY_WIRE_SIZE)%nat then Truncated
                  else TrailingBytes))
  else
    '(page, _) ← TxPage_decode bytes;
    Ok page.

Definition paged_spend_authorization_wire_offset (page_count : Z) : result PagedSpendError Z :=
  _ ← validate_page_count page_count;
  ok_or (page_bytes ← checked_mul 64 page_count (Z.of_nat TX_BODY_WIRE_SIZE);
         prefix ← checked_add 64 (1 + 2) page_bytes;
         checked_add 64 prefix 4)
    (PS_Wire LengthOverflow).

(** [page.encode(bytes)?] for every page, appended to [bytes]. *)
Fixpoint encode_pages (pages : list TxPage) : result PagedSpendError (list Z) :=
  match pages with
  | [] => Ok []
  | page :: pages =>
      bs ← TxPage_encode page;
      rest ← encode_pages pages;
      Ok (bs ++ rest)
  end.

Section intent.
  Context {P : Poseidon2bPermutation}.

Definition PagedSpendIntent_new (pages : list TxPage) (authorization_bytes : list Z) :
    result PagedSpendError PagedSpendIntent :=
  _ ← validate_paged_spend pages;
  if MAX_TX_AUTHORIZATION_BYTES <? Z.of_nat (length authorization_bytes)
  then Err (PS_AuthorizationTooLarge (Z.of_nat (length authorization_bytes)))
  else Ok (mkPagedSpendIntent pages authorization_bytes).

Definition PagedSpendIntent_encode (intent : PagedSpendIntent) : result PagedSpendError (list Z) :=
  _ ← validate_paged_spend (pi_pages intent);
  if MAX_TX_AUTHORIZATION_BYTES <? Z.of_nat (length (pi_authorization_bytes intent))
  then Err (PS_AuthorizationTooLarge (Z.of_nat (length (pi_authorization_bytes intent))))
  else
    page_bytes ← encode_pages (pi_pages intent);
    authorization_len ←
      (if Z.of_nat (length (pi_authorization_bytes intent)) <? 2 ^ 32
       then Ok (Z.of_nat (length (pi_authorization_bytes intent)))
       else Err (PS_Wire LengthOverflow));
    Ok ([PAGED_SPEND_INTENT_MARKER]
        ++ to_le_bytes 2 (wrap 16 (Z.of_nat (length (pi_pages intent))))
        ++ page_bytes ++ to_le_bytes 4 authorization_len ++ pi_authorization_bytes intent).

Definition PagedSpendIntent_decode : decoder PagedSpendError PagedSpendIntent := λ src,
  '(marker, src) ← ps_take 1 src;
  if bool_decide (marker ≠ [PAGED_SPEND_INTENT_MARKER]) then Err (PS_Wire BadMarker)
  else
    '(page_count, src) ← ps_take_u16 src;
    _ ← validate_page_count page_count;
    required_page_bytes ← ok_or (checked_mul 64 page_count (Z.of_nat TX_BODY_WIRE_SIZE))
                            (PS_Wire LengthOverflow);
    if Z.of_nat (length src) <? required_page_bytes then Err (PS_Wire Truncated)
    else
      '(pages, src) ← decode_array (Z.to_nat page_count) TxPage_decode src;
      '(authorization_len, src) ← ps_take_u32 src;
      if MAX_TX_AUTHORIZATION_BYTES <? authorization_len
      then Err (PS_AuthorizationTooLarge authorization_len)
      else
        '(authorization_bytes, src) ← ps_take (Z.to_nat authorization_len) src;
        intent ← PagedSpendIntent_new pages authorization_bytes;
        Ok (intent, src).

Definition PagedSpendIntent_from_bytes (bytes : list Z) : result PagedSpendError PagedSpendIntent :=
  if MAX_PAGED_SPEND_INTENT_BYTES <? Z.of_nat (length bytes)
  then Err (PS_IntentTooLarge (Z.of_nat (length bytes)))
  else
    '(intent, src) ← PagedSpendIntent_decode bytes;
    if bool_decide (src ≠ []) then Err (PS_Wire TrailingBytes) else Ok intent.

End intent.

(** ** Codecs *)

Lemma map_err_codec {E F A} (f : E → F) (wf : A → Prop) enc (dec : decoder E A) :
  Codec wf enc dec → Codec wf enc (λ src, map_err f (dec src)).
Proof.
  intros HC. split.
  - intros x rest Hx. rewrite codec_complete by done. done.
  - intros src x rest Hb H. apply map_err_Ok in H. by eapply codec_sound.
Qed.

Lemma ps_take_wire n src : ps_take n src = map_err PS_Wire (wire_take n src).
Proof. unfold ps_take, wire_take. case_decide; done. Qed.

Lemma decode_page_body_wire src : decode_page_body src = map_err PS_Wire (body_fields src).
Proof.
  unfold decode_page_body, body_fields, take_digest, take_u64, take_u16, take_bool, ps_take_u16.
  rewrite !ps_take_wire.
  destruct (wire_take 32 src) as [[ea s1]|]; cbn [mbind result_bind map_err]; [|done]. rewrite ps_take_wire.
  destruct (wire_take 8 s1) as [[fee s2]|]; cbn [mbind result_bind map_err]; [|done]. rewrite ps_take_wire.
  destruct (wire_take 32 s2) as [[io s3]|]; cbn [mbind result_bind map_err]; [|done].
  destruct (decode_array TX_INPUTS TxInput_decode s3) as [[ins s4]|]; cbn [mbind result_bind map_err]; [|done].
  destruct (decode_array TX_OUTPUTS TxOutput_decode s4) as [[outs s5]|]; cbn [mbind result_bind map_err]; [|done].
  rewrite ps_take_wire. destruct (wire_take 2 s5) as [[bm s6]|]; cbn [mbind result_bind map_err]; [|done].
  rewrite ps_take_wire. destruct (wire_take 1 s6) as [[fl s7]|]; cbn [mbind result_bind map_err]; [|done].
  destruct fl as [|z [|]]; try done; destruct z as [|[]|]; done.
Qed.

#[global] Instance ps_u16_codec : Codec is_u16 (to_le_bytes 2) ps_take_u16.
Proof.
  pose proof (map_err_codec PS_Wire _ _ _ u16_codec) as [Hc Hs]. split.
  - intros x rest Hx. rewrite <- (Hc x rest Hx). unfold ps_take_u16, take_u16.
    rewrite ps_take_wire. by destruct (wire_take 2 _) as [[]|].
  - intros src x rest Hb H. apply Hs; [done|]. rewrite <- H. unfold ps_take_u16, take_u16.
    rewrite ps_take_wire. by destruct (wire_take 2 _) as [[]|].
Qed.

#[global] Instance ps_u32_codec : Codec is_u32 (to_le_bytes 4) ps_take_u32.
Proof.
  pose proof (map_err_codec PS_Wire _ _ _ u32_codec) as [Hc Hs]. split.
  - intros x rest Hx. rewrite <- (Hc x rest Hx). unfold ps_take_u32, take_u32.
    rewrite ps_take_wire. by destruct (wire_take 4 _) as [[]|].
  - intros src x rest Hb H. apply Hs; [done|]. rewrite <- H. unfold ps_take_u32, take_u32.
    rewrite ps_take_wire. by destruct (wire_take 4 _) as [[]|].
Qed.

#[global] Instance page_body_codec : Codec TxBody_wf encode_page_body decode_page_body.
Proof.
  pose proof (map_err_codec PS_Wire _ _ _ body_fields_codec) as [Hc Hs]. split.
  - intros b rest Hb. rewrite decode_page_body_wire. by apply Hc.
  - intros src b rest Hb H. rewrite decode_page_body_wire in H. by apply Hs.
Qed.

Definition valid_page (p : TxPage) : Prop := page_wf p ∧ page_shape (page_body p).

#[global] Instance page_codec :
  Codec valid_page (λ p, encode_page_body (page_body p)) TxPage_decode.
Proof.
  split.
  - intros [b] rest [Hw Hs]. unfold TxPage_decode. rewrite codec_complete by done. cbn.
    unfold TxPage_new. cbn in Hs. apply (validate_page_shape_Ok _ 0) in Hs as ->; done.
  - intros src p rest Hb H. unfold TxPage_decode, TxPage_new in H.
    apply bind_Ok in H as ([b s'] & Hd & H). apply codec_sound in Hd as (Hw & -> & Hr); [|done].
    apply bind_Ok in H as (p' & H & [= <- <-]). apply bind_unit_Ok in H as [Hv [= <-]].
    apply validate_page_shape_Ok in Hv; done.
Qed.

Lemma length_encode_page_body b : TxBody_wf b → length (encode_page_body b) = TX_BODY_WIRE_SIZE.
Proof. apply length_body_bytes. Qed.

Lemma encode_pages_Ok pages :
  Forall valid_page pages →
  encode_pages pages = Ok (concat ((λ p, encode_page_body (page_body p)) <$> pages)).
Proof.
  induction 1 as [|p pages [Hw Hs] Hp IH]; cbn; [done|].
  unfold TxPage_encode. apply (validate_page_shape_Ok _ 0) in Hs as ->; [|done]. cbn.
  rewrite IH. done.
Qed.

Lemma length_page_bytes pages :
  Forall valid_page pages →
  length (concat ((λ p, encode_page_body (page_body p)) <$> pages)) =
    (length pages * TX_BODY_WIRE_SIZE)%nat.
Proof.
  intros Hp. apply length_concat_fixed. eapply Forall_impl; [exact Hp|].
  intros p [Hw _]. by apply length_encode_page_body.
Qed.

Definition intent_bytes (intent : PagedSpendIntent) : list Z :=
  [PAGED_SPEND_INTENT_MARKER] ++ to_le_bytes 2 (Z.of_nat (length (pi_pages intent)))
  ++ concat ((λ p, encode_page_body (page_body p)) <$> pi_pages intent)
  ++ to_le_bytes 4 (Z.of_nat (length (pi_authorization_bytes intent)))
  ++ pi_authorization_bytes intent.

(** A well-typed intent whose pages form a valid group and whose capsule fits. *)
Definition valid_intent (intent : PagedSpendIntent) : Prop :=
  Forall page_wf (pi_pages intent) ∧ byte_string (pi_authorization_bytes intent)
  ∧ (∃ first, valid_group (pi_pages intent) first)
  ∧ Z.of_nat (length (pi_authorization_bytes intent)) ≤ 262144.

Lemma valid_intent_pages intent : valid_intent intent → Forall valid_page (pi_pages intent).
Proof.
  intros (Hw & _ & (first & Hv) & _). pose proof (vg_shape _ _ Hv) as Hs.
  rewrite Forall_forall in *. intros p Hp. split; auto.
Qed.

Section intent_codec.
  Context {P : Poseidon2bPermutation}.

Lemma PagedSpendIntent_new_Ok pages auth intent :
  Forall page_wf pages →
  PagedSpendIntent_new pages auth = Ok intent ↔
  intent = mkPagedSpendIntent pages auth ∧ (∃ first, valid_group pages first)
  ∧ Z.of_nat (length auth) ≤ 262144.
Proof.
  intros Hw. unfold PagedSpendIntent_new. rewrite bind_Ok.
  change MAX_TX_AUTHORIZATION_BYTES with 262144. split.
  - intros (facts & Hv & H). apply validate_paged_spend_valid in Hv as (first & Hv & _); [|done].
    apply if_err_Ok in H as [Hl [= <-]]. split_and!; [done|by eauto|lia].
  - intros (-> & (first & Hv) & Hl). exists (group_facts pages first). split.
    + apply validate_paged_spend_valid; eauto.
    + apply if_err_Ok. split; [lia|done].
Qed.

Lemma intent_decode_complete intent rest :
  valid_intent intent → PagedSpendIntent_decode (intent_bytes intent ++ rest) = Ok (intent, rest).
Proof.
  intros Hvi. pose proof (valid_intent_pages _ Hvi) as Hvp.
  destruct Hvi as (Hw & Hb & (first & Hv) & Hl). pose proof (vg_count _ _ Hv) as Hc.
  destruct intent as [pages auth]. cbn [pi_pages pi_authorization_bytes] in *.
  unfold PagedSpendIntent_decode, intent_bytes. cbn [pi_pages pi_authorization_bytes].
  rewrite <- !app_assoc, ps_take_wire, wire_take_complete by done. cbn [mbind result_bind map_err].
  rewrite bool_decide_false by naive_solver.
  rewrite codec_complete by (unfold is_uint; lia). cbn [mbind result_bind].
  unfold validate_page_count, MAX_PAGED_SPEND_PAGES.
  destruct ((1 <=? _) && _) eqn:Hcc; [|lia]. cbn [negb mbind result_bind].
  change (Z.of_nat TX_BODY_WIRE_SIZE) with 323. unfold checked_mul.
  destruct (Z.ltb_spec (Z.of_nat (length pages) * 323) (2 ^ 64)); [|lia]. cbn [ok_or mbind result_bind].
  destruct (Z.ltb_spec (Z.of_nat (length (concat ((λ p, encode_page_body (page_body p)) <$> pages)
    ++ to_le_bytes 4 (Z.of_nat (length auth)) ++ auth ++ rest))) (Z.of_nat (length pages) * 323)) as [Hlt|_].
  { rewrite length_app, length_page_bytes in Hlt by done.
    change TX_BODY_WIRE_SIZE with 323%nat in Hlt. lia. }
  rewrite Nat2Z.id, (codec_complete (Codec := array_codec _ _ _ (length pages) page_codec)) by done.
  cbn [mbind result_bind]. rewrite codec_complete by (unfold is_uint; lia). cbn [mbind result_bind].
  change MAX_TX_AUTHORIZATION_BYTES with 262144.
  destruct (Z.ltb_spec 262144 (Z.of_nat (length auth))); [lia|].
  rewrite Nat2Z.id, ps_take_wire, wire_take_complete by done. cbn [mbind result_bind map_err].
  rewrite (proj2 (PagedSpendIntent_new_Ok pages auth (mkPagedSpendIntent pages auth) Hw)); [done|].
  split_and!; [done|by eauto|lia].
Qed.

Lemma intent_decode_sound src intent rest :
  byte_string src → PagedSpendIntent_decode src = Ok (intent, rest) →
  valid_intent intent ∧ src = intent_bytes intent ++ rest ∧ byte_string rest.
Proof.
  intros Hb H. unfold PagedSpendIntent_decode in H.
  apply bind_Ok in H as ([mk s1] & Hm & H). rewrite ps_take_wire in Hm.
  apply map_err_Ok, wire_take_sound in Hm as [Hml ->]. apply byte_string_app in Hb as [_ Hb].
  apply if_err_Ok in H as [Hmk H]. bool_inv. apply dec_stable in Hmk as ->.
  apply bind_Ok in H as ([n s2] & Hn & H). apply codec_sound in Hn as (Hn & -> & Hb2); [|done].
  apply bind_unit_Ok in H as [Hcnt H]. apply bind_Ok in H as (req & _ & H).
  apply if_err_Ok in H as [_ H]. apply bind_Ok in H as ([pages s3] & Hp & H).
  apply codec_sound in Hp as ((Hlen & Hvp) & -> & Hb3); [|done].
  apply bind_Ok in H as ([al s4] & Ha & H). apply codec_sound in Ha as (Ha & -> & Hb4); [|done].
  apply if_err_Ok in H as [Hmax H]. apply bind_Ok in H as ([auth s5] & Ht & H).
  rewrite ps_take_wire in Ht. apply map_err_Ok, wire_take_sound in Ht as [Hal ->].
  apply byte_string_app in Hb4 as [Hb5 Hr].
  apply bind_Ok in H as (intent' & Hnew & [= -> ->]).
  assert (Hw : Forall page_wf pages) by (eapply Forall_impl; [exact Hvp|]; by intros p [? _]).
  apply PagedSpendIntent_new_Ok in Hnew as (-> & Hvg & Hl); [|done].
  unfold is_uint in Hn, Ha. split; [done|split; [|done]].
  unfold intent_bytes. cbn [pi_pages pi_authorization_bytes].
  replace (Z.of_nat (length pages)) with n by lia.
  replace (Z.of_nat (length auth)) with al by lia. rewrite <- !app_assoc. done.
Qed.

#[global] Instance intent_codec : Codec valid_intent intent_bytes PagedSpendIntent_decode.
Proof. split; [apply intent_decode_complete|apply intent_decode_sound]. Qed.

Lemma PagedSpendIntent_encode_Ok intent bytes :
  Forall page_wf (pi_pages intent) → byte_string (pi_authorization_bytes intent) →
  PagedSpendIntent_encode intent = Ok bytes ↔ valid_intent intent ∧ bytes = intent_bytes intent.
Proof.
  intros Hw Hb. unfold PagedSpendIntent_encode, valid_intent.
  change MAX_TX_AUTHORIZATION_BYTES with 262144. split.
  - intros H. apply bind_Ok in H as (facts & Hv & H).
    apply validate_paged_spend_valid in Hv as (first & Hv & _); [|done].
    apply if_err_Ok in H as [Hl H].
    assert (Hvi : valid_intent intent) by (split_and!; [done|done|by eauto|lia]).
    rewrite encode_pages_Ok in H by (by apply valid_intent_pages).
    cbn [mbind result_bind] in H.
    destruct (Z.ltb_spec (Z.of_nat (length (pi_authorization_bytes intent))) (2 ^ 32)); [|lia].
    pose proof (vg_count _ _ Hv). cbn [mbind result_bind] in H.
    rewrite wrap_small in H by lia. split; [done|]. unfold intent_bytes. congruence.
  - intros [Hvi ->]. pose proof (valid_intent_pages _ Hvi) as Hvp.
    destruct Hvi as (_ & _ & (first & Hv) & Hl).
    rewrite (validate_paged_spend_complete _ first) by done. cbn [mbind result_bind].
    apply if_err_Ok. split; [lia|]. rewrite encode_pages_Ok by done. cbn [mbind result_bind].
    destruct (Z.ltb_spec (Z.of_nat (length (pi_authorization_bytes intent))) (2 ^ 32)); [|lia].
    pose proof (vg_count _ _ Hv). cbn [mbind result_bind]. rewrite wrap_small by lia. done.
Qed.

Lemma length_intent_bytes intent :
  valid_intent intent →
  length (intent_bytes intent) =
    (7 + length (pi_pages intent) * TX_BODY_WIRE_SIZE + length (pi_authorization_bytes intent))%nat.
Proof.
  intros Hvi. unfold intent_bytes. rewrite !length_app, !length_to_le_bytes.
  rewrite length_page_bytes by (by apply valid_intent_pages). cbn [length]. lia.
Qed.


Lemma authorization_suffix intent :
  valid_intent intent →
  ∃ off, paged_spend_authorization_wire_offset (Z.of_nat (length (pi_pages intent))) = Ok off
         ∧ drop (Z.to_nat off) (intent_bytes intent) = pi_authorization_bytes intent.
Proof.
  intros Hvi. pose proof (valid_intent_pages _ Hvi) as Hvp.
  destruct Hvi as (_ & _ & (first & Hv) & _). pose proof (vg_count _ _ Hv) as Hc.
  exists (7 + Z.of_nat (length (pi_pages intent)) * 323). split.
  - unfold paged_spend_authorization_wire_offset, validate_page_count, MAX_PAGED_SPEND_PAGES.
    destruct ((1 <=? _) && _) eqn:Hcc; [|lia]. cbn [negb mbind result_bind].
    change (Z.of_nat TX_BODY_WIRE_SIZE) with 323. apply ok_or_Ok. unfold checked_mul, checked_add.
    destruct (Z.ltb_spec (Z.of_nat (length (pi_pages intent)) * 323) (2 ^ 64)); [|lia]. cbn [mbind option_bind].
    destruct (Z.ltb_spec (1 + 2 + Z.of_nat (length (pi_pages intent)) * 323) (2 ^ 64)); [|lia].
    cbn [mbind option_bind].
    destruct (Z.ltb_spec (1 + 2 + Z.of_nat (length (pi_pages intent)) * 323 + 4) (2 ^ 64)); [|lia].
    f_equal. lia.
  - unfold intent_bytes. rewrite !app_assoc. apply drop_app_length'.
    rewrite !length_app, !length_to_le_bytes, length_page_bytes by done.
    change TX_BODY_WIRE_SIZE with 323%nat. cbn [length]. lia.
Qed.

Lemma PagedSpendIntent_from_bytes_Ok bytes intent :
  byte_string bytes →
  PagedSpendIntent_from_bytes bytes = Ok intent ↔ valid_intent intent ∧ bytes = intent_bytes intent.
Proof.
  intros Hbytes. unfold PagedSpendIntent_from_bytes. split.
  - intros H. apply if_err_Ok in H as [Hmax H]. apply bind_Ok in H as ([i src] & Hd & H).
    apply if_err_Ok in H as [Hsrc [= ->]]. bool_inv. apply dec_stable in Hsrc as ->.
    apply codec_sound in Hd as (Hvi & -> & _); [|done]. by rewrite app_nil_r.
  - intros [Hvi ->]. apply if_err_Ok. split.
    + rewrite length_intent_bytes by done. destruct Hvi as (_ & _ & (first & Hv) & Hl).
      pose proof (vg_count _ _ Hv). change MAX_PAGED_SPEND_INTENT_BYTES with 303495.
      change TX_BODY_WIRE_SIZE with 323%nat. lia.
    + rewrite <- (app_nil_r (intent_bytes intent)), codec_complete by done. done.
Qed.

(** ** Properties *)

(** An intent's wire form is exact: a byte string is accepted as [intent] if and
    only if [intent] is well typed and encodes, without error, to that very string.  So
    accepted strings contain a valid page group, no intent has two encodings, and the
    detached authorization is the suffix at the offset the code computes for it. *)
Theorem PagedSpendIntent_from_bytes_iff (bytes : list Z) (intent : PagedSpendIntent)
    (Hbytes : byte_string bytes) :
  PagedSpendIntent_from_bytes bytes = Ok intent ↔
  Forall page_wf (pi_pages intent) ∧ byte_string (pi_authorization_bytes intent)
  ∧ PagedSpendIntent_encode intent = Ok bytes
  ∧ (∃ off, paged_spend_authorization_wire_offset (Z.of_nat (length (pi_pages intent))) = Ok off
            ∧ drop (Z.to_nat off) bytes = pi_authorization_bytes intent).
Proof.
  rewrite PagedSpendIntent_from_bytes_Ok by done. split.
  - intros [Hvi ->]. pose proof Hvi as (Hw & Hb & _).
    split_and!; [done|done|by apply PagedSpendIntent_encode_Ok|by apply authorization_suffix].
  - intros (Hw & Hb & He & _). by apply PagedSpendIntent_encode_Ok in He.
Qed.

End intent_codec.

Definition example_intent : PagedSpendIntent := mkPagedSpendIntent example_group [1; 2; 3].

Lemma PagedSpendIntent_from_bytes_iff_witness :
  PagedSpendIntent_from_bytes (P := example_permutation) (intent_bytes example_intent)
    = Ok example_intent
  ↔ Forall page_wf example_group ∧ byte_string [1; 2; 3]
    ∧ PagedSpendIntent_encode (P := example_permutation) example_intent
        = Ok (intent_bytes example_intent)
    ∧ (∃ off, paged_spend_authorization_wire_offset 2 = Ok off
              ∧ drop (Z.to_nat off) (intent_bytes example_intent) = [1; 2; 3]).
Proof.
  apply (PagedSpendIntent_from_bytes_iff (P := example_permutation) (intent_bytes example_intent)
    example_intent).
  apply (bool_decide_unpack (Forall (λ b, 0 ≤ b < 256) (intent_bytes example_intent))).
  vm_compute. exact I.
Defined.
