(* ===== verification/Fees.v ===== *)
(** * Fee policy and coinbase ceiling

    [jetsam_chain/src/consensus/fees.rs] and the fee-dependent part of
    [consensus/emission.rs]: the deterministic minimum fee, the state-growth
    burn that a miner can never claim, and the coinbase ceiling. *)

From S2P Require Import Prelude Machine Params Emission TxTypes.

Definition PRESSURE_LOW_BPS : Z := 5000.
Definition PRESSURE_HIGH_BPS : Z := 7500.
Definition PRESSURE_EXTREME_BPS : Z := 9000.

Record FeeBreakdown := mkFeeBreakdown {
  fb_base : Z;
  fb_input : Z;
  fb_output : Z;
  fb_io : Z;
  fb_state_growth : Z;
  fb_required_total : Z;
  fb_burned : Z;
}.

Definition claimable_at_minimum (fb : FeeBreakdown) : Z :=
  saturating_sub (fb_required_total fb) (fb_burned fb).

Definition tx_live_counts (body : TxBody) : Z * Z :=
  (live_input_count body, live_output_count body).

Definition occupancy_bps (active_slot_count log_slots : Z) : Z :=
  let capacity := Z.max (if log_slots <? 128 then Z.shiftl 1 log_slots else uint_max 128) 1 in
  wrap 64 (saturating_mul 128 active_slot_count 10000 / capacity).

Definition pressure_multiplier (active_slot_count log_slots : Z) : Z :=
  let bps := occupancy_bps active_slot_count log_slots in
  if PRESSURE_EXTREME_BPS <=? bps then 8
  else if PRESSURE_HIGH_BPS <=? bps then 4
  else if PRESSURE_LOW_BPS <=? bps then 2
  else 1.

Definition state_growth_fee_per_slot (active_slot_count log_slots : Z) : Z :=
  saturating_mul 64 STATE_GROWTH_FEE_BASE (pressure_multiplier active_slot_count log_slots).

Definition fee_breakdown (n_inputs n_outputs active_slot_count log_slots : Z) : FeeBreakdown :=
  let net_new_slots := saturating_sub n_outputs n_inputs in
  let base := MIN_FEE_BASE in
  let input := saturating_mul 64 FEE_PER_INPUT n_inputs in
  let output := saturating_mul 64 FEE_PER_OUTPUT n_outputs in
  let io := saturating_add 64 input output in
  let state_growth :=
    saturating_mul 64 (state_growth_fee_per_slot active_slot_count log_slots) net_new_slots in
  let required_total := saturating_add 64 (saturating_add 64 base io) state_growth in
  mkFeeBreakdown base input output io state_growth required_total state_growth.

Definition fee_breakdown_for_tx_body (body : TxBody) (active_slot_count log_slots : Z) : FeeBreakdown :=
  let '(n_inputs, n_outputs) := tx_live_counts body in
  fee_breakdown n_inputs n_outputs active_slot_count log_slots.

Definition required_fee_for_tx_body (body : TxBody) (active_slot_count log_slots : Z) : Z :=
  fb_required_total (fee_breakdown_for_tx_body body active_slot_count log_slots).

Definition burned_fee_for_tx_body (body : TxBody) (active_slot_count log_slots : Z) : Z :=
  fb_burned (fee_breakdown_for_tx_body body active_slot_count log_slots).

Definition claimable_fee_for_tx_body (body : TxBody) (active_slot_count log_slots : Z) : Z :=
  if tb_is_coinbase body then 0
  else
    let actual := tb_fee body in
    let burned := burned_fee_for_tx_body body active_slot_count log_slots in
    saturating_sub actual burned.

Definition total_fees (txs : list TxBody) : Z :=
  sum_Z (tb_fee <$> filter (λ tx, tb_is_coinbase tx = false) txs).

(** [None] is the panic of [miner_subsidy]. *)
Definition max_coinbase_value_from_claimable_fee_sum (child_height claimable_fee_sum : Z) : option Z :=
  subsidy ← miner_subsidy child_height;
  Some (subsidy + claimable_fee_sum).

Definition max_coinbase_value (child_height parent_active_slot_count parent_log_slots : Z)
    (non_coinbase_txs : list TxBody) : option Z :=
  let claimable_fee_sum :=
    sum_Z ((λ tx, claimable_fee_for_tx_body tx parent_active_slot_count parent_log_slots)
           <$> filter (λ tx, tb_is_coinbase tx = false) non_coinbase_txs) in
  max_coinbase_value_from_claimable_fee_sum child_height claimable_fee_sum.

(** ** Lemmas *)

Lemma pressure_multiplier_bounds active log : 1 ≤ pressure_multiplier active log ≤ 8.
Proof. unfold pressure_multiplier. repeat case_match; lia. Qed.

(** Inside the body limits nothing saturates. *)
Lemma fee_breakdown_exact n_inputs n_outputs active log :
  0 ≤ n_inputs ≤ 2 ^ 16 → 0 ≤ n_outputs ≤ 2 ^ 16 →
  fb_required_total (fee_breakdown n_inputs n_outputs active log) =
    5000 + 100 * n_inputs + 700 * n_outputs
    + 2500 * pressure_multiplier active log * Z.max (n_outputs - n_inputs) 0
  ∧ fb_burned (fee_breakdown n_inputs n_outputs active log) =
    2500 * pressure_multiplier active log * Z.max (n_outputs - n_inputs) 0.
Proof.
  intros Hi Ho. pose proof (pressure_multiplier_bounds active log).
  unfold fee_breakdown, state_growth_fee_per_slot, saturating_add, saturating_mul, saturating_sub,
    uint_max, MIN_FEE_BASE, FEE_PER_INPUT, FEE_PER_OUTPUT, STATE_GROWTH_FEE_BASE.
  cbn [fb_required_total fb_burned].
  rewrite !Z.min_l by nia. nia.
Qed.

Lemma claimable_le_fee body active log :
  TxBody_wf body → tb_is_coinbase body = false →
  0 ≤ claimable_fee_for_tx_body body active log ≤ tb_fee body.
Proof.
  intros Hwf Hcb. unfold claimable_fee_for_tx_body. rewrite Hcb.
  destruct Hwf as (_ & Hf & _). unfold is_uint in Hf. unfold saturating_sub, burned_fee_for_tx_body,
    fee_breakdown_for_tx_body, fee_breakdown, tx_live_counts, saturating_mul, saturating_sub.
  cbn [fb_burned]. pose proof (pressure_multiplier_bounds active log).
  unfold state_growth_fee_per_slot, saturating_mul, STATE_GROWTH_FEE_BASE, uint_max. nia.
Qed.

Lemma occupancy_bps_exact active log :
  0 ≤ log < 64 → 0 ≤ active ≤ 2 ^ log → occupancy_bps active log = active * 10000 / 2 ^ log.
Proof.
  intros Hl Ha. unfold occupancy_bps. destruct (Z.ltb_spec log 128); [|lia].
  rewrite Z.shiftl_mul_pow2, Z.mul_1_l, Z.max_l by lia.
  assert (2 ^ log ≤ 2 ^ 64) by (apply Z.pow_le_mono_r; lia). pose proof (Z.pow_pos_nonneg 2 log).
  unfold saturating_mul, uint_max. rewrite Z.min_l by lia. apply wrap_small. split.
  - apply Z.div_pos; lia.
  - apply Z.div_lt_upper_bound; nia.
Qed.

Lemma pressure_multiplier_mono active1 active2 log :
  0 ≤ log < 64 → 0 ≤ active1 ≤ active2 → active2 ≤ 2 ^ log →
  pressure_multiplier active1 log ≤ pressure_multiplier active2 log.
Proof.
  intros Hl H1 H2. unfold pressure_multiplier. rewrite !occupancy_bps_exact by lia.
  assert (active1 * 10000 / 2 ^ log ≤ active2 * 10000 / 2 ^ log) by (apply Z.div_le_mono; lia).
  set (b1 := active1 * 10000 / 2 ^ log) in *. set (b2 := active2 * 10000 / 2 ^ log) in *.
  unfold PRESSURE_EXTREME_BPS, PRESSURE_HIGH_BPS, PRESSURE_LOW_BPS.
  destruct (Z.leb_spec 9000 b1), (Z.leb_spec 9000 b2), (Z.leb_spec 7500 b1), (Z.leb_spec 7500 b2),
    (Z.leb_spec 5000 b1), (Z.leb_spec 5000 b2); lia.
Qed.

(** The fee rule.  No step of the saturating arithmetic saturates on a
    well-typed body, so the required fee is exactly the base plus the per-input
    and per-output fees plus the state-growth burn; the burn per net-new slot never
    falls as occupancy rises; and of a fee at or above the required one, the miner
    can claim exactly what is not burned. *)
Theorem fee_rule_exact (body : TxBody) (active active' log : Z) (Hwf : TxBody_wf body)
    (Huser : tb_is_coinbase body = false) (Hlog : 0 ≤ log ≤ 32) (Hactive : 0 ≤ active ≤ active')
    (Hfull : active' ≤ 2 ^ log) :
  let burned := burned_fee_for_tx_body body active log in
  required_fee_for_tx_body body active log
    = MIN_FEE_BASE + FEE_PER_INPUT * live_input_count body + FEE_PER_OUTPUT * live_output_count body + burned
  ∧ burned ≤ burned_fee_for_tx_body body active' log
  ∧ (live_output_count body ≤ live_input_count body → burned = 0)
  ∧ (required_fee_for_tx_body body active log ≤ tb_fee body →
     claimable_fee_for_tx_body body active log + burned = tb_fee body).
Proof.
  intros burned.
  assert (Hi : 0 ≤ live_input_count body ≤ 2 ^ 16).
  { rewrite live_input_count_length by done. unfold live_inputs. split; [lia|].
    etrans; [apply Nat2Z.inj_le, length_filter|]. rewrite length_imap. destruct Hwf as (_ & _ & _ & -> & _). unfold TX_INPUTS; lia. }
  assert (Ho : 0 ≤ live_output_count body ≤ 2 ^ 16).
  { rewrite live_output_count_length by done. unfold live_outputs. split; [lia|].
    etrans; [apply Nat2Z.inj_le, length_filter|]. rewrite length_imap. destruct Hwf as (_ & _ & _ & _ & _ & -> & _). unfold TX_OUTPUTS; lia. }
  destruct (fee_breakdown_exact _ _ active log Hi Ho) as [Hr Hb].
  destruct (fee_breakdown_exact _ _ active' log Hi Ho) as [_ Hb'].
  pose proof (pressure_multiplier_mono active active' log ltac:(lia) Hactive Hfull) as Hm.
  pose proof (pressure_multiplier_bounds active log).
  unfold burned, required_fee_for_tx_body, burned_fee_for_tx_body, claimable_fee_for_tx_body,
    burned_fee_for_tx_body, fee_breakdown_for_tx_body, tx_live_counts. rewrite Huser, Hr, Hb, Hb'.
  unfold MIN_FEE_BASE, FEE_PER_INPUT, FEE_PER_OUTPUT, saturating_sub. split_and!; nia.
Qed.

Lemma fee_rule_exact_witness :
  required_fee_for_tx_body example_spend 10000000 24 ≤ tb_fee example_spend ∧
  claimable_fee_for_tx_body example_spend 10000000 24 + burned_fee_for_tx_body example_spend 10000000 24
  = tb_fee example_spend.
Proof.
  destruct (fee_rule_exact example_spend 10000000 10000000 24) as (_ & _ & _ & Hc).
  - apply (bool_decide_unpack (TxBody_wf example_spend)). vm_compute. exact I.
  - done.
  - lia.
  - lia.
  - lia.
  - assert (Hr : required_fee_for_tx_body example_spend 10000000 24 ≤ tb_fee example_spend) by (vm_compute; done).
    split; [exact Hr|]. apply Hc. exact Hr.
Defined.
