(* ===== verification/BlockStream.v ===== *)
(** * The page stream of a block

    [jetsam_chain/src/consensus/paged_spend.rs] (proof classes, the division
    of the physical page stream into logical groups, block-wide limits and
    slot conflicts) and the layout checks of [block.rs] (primary coinbase,
    optional development payout, user pages). *)

From S2P Require Import Prelude Machine Params Poseidon TxTypes TxWire PagedSpend.

(** ** Proof classes *)

Inductive BlockProofClass := B25 | B255.

#[global] Instance BlockProofClass_eq_dec : EqDecision BlockProofClass.
Proof. solve_decision. Defined.

Definition for_page_count_in_generation (page_count : Z) (generation : HistoryStepPackGeneration) :
    option BlockProofClass :=
  let ts := tiers generation in
  if page_count <=? fst ts then Some B25
  else if page_count <=? snd ts then Some B255
  else None.

Definition page_capacity_in_generation (class : BlockProofClass)
    (generation : HistoryStepPackGeneration) : Z :=
  let ts := tiers generation in
  match class with B25 => fst ts | B255 => snd ts end.

Definition live_authorization_capacity_in_generation (class : BlockProofClass)
    (generation : HistoryStepPackGeneration) : Z :=
  page_capacity_in_generation class generation.

Definition input_capacity_in_generation (class : BlockProofClass)
    (generation : HistoryStepPackGeneration) : Z :=
  match class with
  | B25 => small_tier generation * MAX_INPUTS
  | B255 => BLOCK_MAX_LIVE_INPUTS
  end.

Definition output_capacity_in_generation (class : BlockProofClass)
    (generation : HistoryStepPackGeneration) : Z :=
  match class with
  | B25 => small_tier generation * MAX_OUTPUTS
  | B255 => BLOCK_MAX_USER_OUTPUTS
  end.

(** ** Streams *)

Record PagedSpendGroupFacts := mkPagedSpendGroupFacts {
  gf_start_page : Z;
  gf_page_count : Z;
  gf_spend : PagedSpendFacts;
}.

Definition end_page_exclusive (g : PagedSpendGroupFacts) : Z := gf_start_page g + gf_page_count g.

Record PagedSpendStreamFacts := mkPagedSpendStreamFacts {
  sf_proof_class : BlockProofClass;
  sf_groups : list PagedSpendGroupFacts;
  sf_page_count : Z;
  sf_logical_count : Z;
  sf_live_inputs : Z;
  sf_live_outputs : Z;
}.

Inductive PagedSpendStreamError :=
  | SE_Group (e : PagedSpendError)
  | SE_BlockPageLimit (actual capacity : Z)
  | SE_ProofClassMismatch (expected actual : BlockProofClass)
  | SE_UnterminatedGroup (start_page : nat)
  | SE_TooManyGroups (actual capacity : Z)
  | SE_BlockInputLimit (actual capacity : Z)
  | SE_BlockOutputLimit (actual capacity : Z)
  | SE_DuplicateInputSlot (slot : Z)
  | SE_DuplicateOutputSlot (slot : Z)
  | SE_InputOutputSlotOverlap (slot : Z).

(** The trait by which transactions and pages are read alike. *)
Class PageBody (T : Type) : Type := body_of : T → TxBody.

#[global] Instance TxPage_PageBody : PageBody TxPage := page_body.
#[global] Instance Transaction_PageBody : PageBody Transaction := tx_body.

Definition tx_page {T} `{PageBody T} (t : T) : TxPage := mkTxPage (body_of t).

Definition checked_group_sum (groups : list PagedSpendGroupFacts) (value : PagedSpendGroupFacts → Z) :
    option Z :=
  result_ok (try_fold (λ sum g, ok_or (checked_add 64 sum (value g)) tt) 0 groups).

Definition USIZE_MAX : Z := u64_max.

Section stream.
  Context {P : Poseidon2bPermutation} {T : Type} `{PageBody T}.

(** The [while cursor < pages.len()] loop, over the pages that remain from
    [start].  Every iteration consumes at least one page, so a fuel of the
    number of remaining pages never runs out ([scan_groups_fuel]). *)
Fixpoint scan_groups (fuel : nat) (group_capacity : Z) (start : nat) (pages : list T)
    (groups : list PagedSpendGroupFacts) :
    result PagedSpendStreamError (list PagedSpendGroupFacts) :=
  match pages, fuel with
  | [], _ => Ok groups
  | _, O => Err (SE_UnterminatedGroup start)
  | _, S fuel =>
      match list_find (λ t, Is_true (is_end (tx_page t))) pages with
      | None => Err (SE_UnterminatedGroup start)
      | Some (relative_end, _) =>
          let len := (relative_end + 1)%nat in
          spend ← map_err SE_Group (validate_paged_spend (tx_page <$> take len pages));
          let groups := groups ++ [mkPagedSpendGroupFacts (wrap 16 (Z.of_nat start))
                                     (wrap 16 (Z.of_nat len)) spend] in
          if group_capacity <? Z.of_nat (length groups)
          then Err (SE_TooManyGroups (Z.of_nat (length groups)) group_capacity)
          else scan_groups fuel group_capacity (start + len) (drop len pages) groups
      end
  end.

(** One page of the block-wide duplicate check. *)
Definition visit_slots (acc : gset Z * gset Z) (t : T) :
    result PagedSpendStreamError (gset Z * gset Z) :=
  inputs ← try_fold (λ s p, insert_fresh (SE_DuplicateInputSlot (ti_slot_index (snd p))) s
                              (ti_slot_index (snd p))) (fst acc) (live_inputs (body_of t));
  outputs ← try_fold (λ s p, insert_fresh (SE_DuplicateOutputSlot (to_slot_index (snd p))) s
                               (to_slot_index (snd p))) (snd acc) (live_outputs (body_of t));
  Ok (inputs, outputs).

Definition validate_stream_for_class_in (pages : list T) (proof_class : BlockProofClass)
    (generation : HistoryStepPackGeneration) : result PagedSpendStreamError PagedSpendStreamFacts :=
  let n := Z.of_nat (length pages) in
  let page_capacity := page_capacity_in_generation proof_class generation in
  if page_capacity <? n then Err (SE_BlockPageLimit n page_capacity)
  else
    expected ← ok_or (for_page_count_in_generation n generation)
                 (SE_BlockPageLimit n BLOCK_MAX_USER_PAGES);
    if bool_decide (expected ≠ proof_class) then Err (SE_ProofClassMismatch expected proof_class)
    else
      groups ← scan_groups (length pages)
                 (live_authorization_capacity_in_generation proof_class generation) 0 pages [];
      let input_capacity := input_capacity_in_generation proof_class generation in
      live_inputs ← ok_or (checked_group_sum groups (λ g, ps_live_inputs (gf_spend g)))
                      (SE_BlockInputLimit USIZE_MAX input_capacity);
      if input_capacity <? live_inputs then Err (SE_BlockInputLimit live_inputs input_capacity)
      else
        let output_capacity := output_capacity_in_generation proof_class generation in
        live_outputs ← ok_or (checked_group_sum groups (λ g, ps_live_outputs (gf_spend g)))
                         (SE_BlockOutputLimit USIZE_MAX output_capacity);
        if output_capacity <? live_outputs
        then Err (SE_BlockOutputLimit live_outputs output_capacity)
        else
          '(input_slots, output_slots) ← try_fold visit_slots (∅, ∅) pages;
          match elements (input_slots ∩ output_slots) with
          | slot :: _ => Err (SE_InputOutputSlotOverlap slot)
          | [] =>
              Ok (mkPagedSpendStreamFacts proof_class groups (wrap 16 n)
                    (wrap 16 (Z.of_nat (length groups))) (wrap 16 live_inputs)
                    (wrap 16 live_outputs))
          end.

(** [validate_paged_spend_transaction_stream_in] and
    [validate_paged_spend_tx_page_stream_in], at their two instances. *)
Definition validate_paged_spend_stream_in (pages : list T) (generation : HistoryStepPackGeneration) :
    result PagedSpendStreamError PagedSpendStreamFacts :=
  class ← ok_or (for_page_count_in_generation (Z.of_nat (length pages)) generation)
            (SE_BlockPageLimit (Z.of_nat (length pages)) BLOCK_MAX_USER_PAGES);
  validate_stream_for_class_in pages class generation.

End stream.

(** ** Block layout *)

Inductive BlockPageStreamError :=
  | BP_MissingCoinbase
  | BP_CoinbaseNotFirst
  | BP_MultipleCoinbase
  | BP_InvalidPrimaryCoinbase
  | BP_InvalidDevelopmentPayout
  | BP_PagedSpend (e : PagedSpendStreamError).

Record BlockPageStreamFacts := mkBlockPageStreamFacts {
  bf_proof_class : BlockProofClass;
  bf_groups : list PagedSpendGroupFacts;
  bf_page_count : Z;
  bf_logical_count : Z;
  bf_live_inputs : Z;
  bf_live_outputs : Z;
  bf_has_development_payout : bool;
  bf_user_start_index : nat;
}.

Definition system_record_count (f : BlockPageStreamFacts) : Z :=
  if bf_has_development_payout f then 1 else 0.

Definition effective_page_count (f : BlockPageStreamFacts) : Z :=
  bf_page_count f + system_record_count f.

Definition logical_tx_count_including_system (f : BlockPageStreamFacts) : Z :=
  1 + system_record_count f + bf_logical_count f.

Section block_stream.
  Context {P : Poseidon2bPermutation}.

Definition validate_block_page_stream_in (txs : list Transaction)
    (generation : HistoryStepPackGeneration) : result BlockPageStreamError BlockPageStreamFacts :=
  match txs with
  | [] => Err BP_MissingCoinbase
  | coinbase :: _ =>
      if negb (tb_is_coinbase (tx_body coinbase)) then Err BP_CoinbaseNotFirst
      else if negb (is_primary_coinbase_shape (tx_body coinbase)) then Err BP_InvalidPrimaryCoinbase
      else
        let has_development_payout :=
          match txs !! 1%nat with
          | Some tx => is_development_payout_shape (tx_body tx)
          | None => false
          end in
        let user_start_index := if has_development_payout then 2%nat else 1%nat in
        if existsb (λ tx, tb_is_coinbase (tx_body tx)) (drop user_start_index txs)
        then Err BP_MultipleCoinbase
        else if match txs !! 1%nat with
                | Some tx => tb_is_coinbase (tx_body tx) && negb (is_development_payout_shape (tx_body tx))
                | None => false
                end
        then Err BP_InvalidDevelopmentPayout
        else
          user ← map_err BP_PagedSpend
                   (validate_paged_spend_stream_in (drop user_start_index txs) generation);
          let effective := sf_page_count user + (if has_development_payout then 1 else 0) in
          proof_class ← ok_or (for_page_count_in_generation effective generation)
                          (BP_PagedSpend (SE_BlockPageLimit effective BLOCK_MAX_USER_PAGES));
          Ok (mkBlockPageStreamFacts proof_class (sf_groups user) (sf_page_count user)
                (sf_logical_count user) (sf_live_inputs user) (sf_live_outputs user)
                has_development_payout user_start_index)
  end.

Definition validate_block_page_stream (txs : list Transaction) :
    result BlockPageStreamError BlockPageStreamFacts :=
  validate_block_page_stream_in txs V1.

Definition validate_block_page_stream_at_height (txs : list Transaction) (height : Z) :
    result BlockPageStreamError BlockPageStreamFacts :=
  validate_block_page_stream_in txs (at_height height).

Definition try_compute_logical_txids (txs : list Transaction) :
    result BlockPageStreamError (list (list Z)) :=
  match txs with
  | [] => Ok []
  | tx0 :: rest =>
      stream ← validate_block_page_stream txs;
      Ok ([hash_tx_body (tx_body tx0)]
          ++ (if bf_has_development_payout stream
              then match rest with tx1 :: _ => [hash_tx_body (tx_body tx1)] | [] => [] end
              else [])
          ++ ((λ g, ps_logical_txid (gf_spend g)) <$> bf_groups stream))
  end.

End block_stream.

(** ** What a valid stream is

    A group is given by its first page and the rest, so that the division of
    the stream into groups is explicit. *)

Definition group_pages (g : TxPage * list TxPage) : list TxPage := fst g :: snd g.

Record valid_stream (pages : list TxPage) (class : BlockProofClass)
    (generation : HistoryStepPackGeneration) (gs : list (TxPage * list TxPage)) : Prop := {
  vs_class : for_page_count_in_generation (Z.of_nat (length pages)) generation = Some class;
  vs_pages : gs ≫= group_pages = pages;
  vs_groups : Forall (λ g, valid_group (group_pages g) (fst g)) gs;
  vs_inputs : Z.of_nat (length (group_inputs pages)) ≤ input_capacity_in_generation class generation;
  vs_outputs : Z.of_nat (length (group_outputs pages)) ≤ output_capacity_in_generation class generation;
  vs_slots : NoDup ((ti_slot_index <$> group_inputs pages) ++ (to_slot_index <$> group_outputs pages));
}.

Section stream_facts.
  Context {P : Poseidon2bPermutation}.

Fixpoint stream_groups (start : Z) (gs : list (TxPage * list TxPage)) : list PagedSpendGroupFacts :=
  match gs with
  | [] => []
  | g :: gs =>
      let len := Z.of_nat (length (group_pages g)) in
      mkPagedSpendGroupFacts start len (group_facts (group_pages g) (fst g))
      :: stream_groups (start + len) gs
  end.

Definition stream_facts (pages : list TxPage) (class : BlockProofClass)
    (gs : list (TxPage * list TxPage)) : PagedSpendStreamFacts :=
  mkPagedSpendStreamFacts class (stream_groups 0 gs) (Z.of_nat (length pages))
    (Z.of_nat (length gs)) (Z.of_nat (length (group_inputs pages)))
    (Z.of_nat (length (group_outputs pages))).

Lemma length_stream_groups start gs : length (stream_groups start gs) = length gs.
Proof. revert start. induction gs as [|g gs IH]; intros; cbn; [done|by rewrite IH]. Qed.

Lemma group_inputs_app p1 p2 : group_inputs (p1 ++ p2) = group_inputs p1 ++ group_inputs p2.
Proof. apply bind_app. Qed.

Lemma group_outputs_app p1 p2 : group_outputs (p1 ++ p2) = group_outputs p1 ++ group_outputs p2.
Proof. apply bind_app. Qed.

Lemma stream_live_inputs start gs :
  sum_Z ((λ g, ps_live_inputs (gf_spend g)) <$> stream_groups start gs)
  = Z.of_nat (length (group_inputs (gs ≫= group_pages))).
Proof.
  revert start. induction gs as [|g gs IH]; intros; [done|].
  cbn [stream_groups fmap list_fmap]. rewrite bind_cons, group_inputs_app, length_app, Nat2Z.inj_add.
  rewrite <- (IH (start + Z.of_nat (length (group_pages g)))). done.
Qed.

Lemma stream_live_outputs start gs :
  sum_Z ((λ g, ps_live_outputs (gf_spend g)) <$> stream_groups start gs)
  = Z.of_nat (length (group_outputs (gs ≫= group_pages))).
Proof.
  revert start. induction gs as [|g gs IH]; intros; [done|].
  cbn [stream_groups fmap list_fmap]. rewrite bind_cons, group_outputs_app, length_app, Nat2Z.inj_add.
  rewrite <- (IH (start + Z.of_nat (length (group_pages g)))). done.
Qed.

End stream_facts.

Section stream_proofs.
  Context {P : Poseidon2bPermutation} {T : Type} `{PageBody T}.

(** The first page with the end marker closes the group that starts here. *)
Lemma find_end_group (g : list TxPage) first (pages : list T) rest :
  valid_group g first → tx_page <$> pages = g ++ rest →
  ∃ t, list_find (λ t, Is_true (is_end (tx_page t))) pages = Some ((length g - 1)%nat, t).
Proof.
  intros Hv Heq.
  assert (Hlook : ∀ i t, pages !! i = Some t → (i < length g)%nat → g !! i = Some (tx_page t)).
  { intros i t Hi Hl. rewrite <- (lookup_app_l g rest) by done. rewrite <- Heq, list_lookup_fmap, Hi. done. }
  pose proof (vg_count _ _ Hv) as Hc.
  assert (Hlen : (length g ≤ length pages)%nat).
  { rewrite <- (length_fmap tx_page pages), Heq, length_app. lia. }
  destruct (lookup_lt_is_Some_2 pages (length g - 1)) as [t Ht]; [lia|].
  exists t. apply list_find_Some. split_and!; [done| |].
  - rewrite (vg_end _ _ Hv (length g - 1) (tx_page t)) by (apply Hlook; [done|lia]).
    rewrite bool_decide_true by lia. exact I.
  - intros j y Hy Hj. rewrite (vg_end _ _ Hv j (tx_page y)) by (apply Hlook; [done|lia]).
    rewrite bool_decide_false by lia. tauto.
Qed.

Lemma scan_groups_step fuel cap start (pages : list T) acc k t :
  list_find (λ t, Is_true (is_end (tx_page t))) pages = Some (k, t) →
  scan_groups (S fuel) cap start pages acc =
    (spend ← map_err SE_Group (validate_paged_spend (tx_page <$> take (k + 1) pages));
     let groups := acc ++ [mkPagedSpendGroupFacts (wrap 16 (Z.of_nat start))
                             (wrap 16 (Z.of_nat (k + 1))) spend] in
     if cap <? Z.of_nat (length groups)
     then Err (SE_TooManyGroups (Z.of_nat (length groups)) cap)
     else scan_groups fuel cap (start + (k + 1)) (drop (k + 1) pages) groups).
Proof. intros Hf. destruct pages as [|p pages]; [done|]. cbn [scan_groups]. rewrite Hf. done. Qed.

(** The scan succeeds exactly when the pages divide into valid groups, and its
    fuel never runs out. *)
Lemma scan_groups_Ok fuel cap start (pages : list T) acc res :
  (length pages ≤ fuel)%nat → Z.of_nat (start + length pages) < 2 ^ 16 →
  Z.of_nat (length acc + length pages) ≤ cap →
  Forall page_wf (tx_page <$> pages) →
  scan_groups fuel cap start pages acc = Ok res ↔
  ∃ gs, gs ≫= group_pages = tx_page <$> pages
    ∧ Forall (λ g, valid_group (group_pages g) (fst g)) gs
    ∧ res = acc ++ stream_groups (Z.of_nat start) gs.
Proof.
  revert start pages acc. induction fuel as [|fuel IH]; intros start pages acc Hfuel Hst Hcap Hwf.
  { destruct pages; [|cbn in Hfuel; lia]. cbn. split.
    - intros [= <-]. exists []. rewrite app_nil_r. by split_and!.
    - intros ([|g gs] & Heq & _ & ->); [by rewrite app_nil_r|done]. }
  destruct pages as [|p0 ps0] eqn:Hps.
  { cbn. split.
    - intros [= <-]. exists []. rewrite app_nil_r. by split_and!.
    - intros ([|g gs] & Heq & _ & ->); [by rewrite app_nil_r|done]. }
  rewrite <- Hps in *. split.
  - destruct (list_find (λ t, Is_true (is_end (tx_page t))) pages) as [[k t]|] eqn:Hf;
      [|by rewrite Hps in *; cbn [scan_groups]; rewrite Hf].
    rewrite (scan_groups_step _ _ _ _ _ _ _ Hf). intros Hs.
    apply bind_Ok in Hs as (spend & Hv & Hs). cbn zeta in Hs. apply if_err_Ok in Hs as [Hle Hs].
    apply map_err_Ok, validate_paged_spend_valid in Hv as (first & Hv & ->);
      [|rewrite fmap_take; by apply Forall_take].
    apply list_find_Some in Hf as (Hk & _ & _). apply lookup_lt_Some in Hk.
    apply IH in Hs; [|rewrite ?length_app, length_drop; cbn; lia..|
      rewrite fmap_drop; by apply Forall_drop].
    destruct Hs as (gs & Heq & Hgs & ->).
    destruct (tx_page <$> take (k + 1) pages) as [|p' rest] eqn:Htk; [by destruct Hv|].
    pose proof (vg_first _ _ Hv) as [= <-].
    assert (Hlen : length (p' :: rest) = (k + 1)%nat).
    { rewrite <- Htk, length_fmap, length_take. lia. }
    exists ((p', rest) :: gs). split_and!.
    + rewrite bind_cons, Heq. unfold group_pages. cbn [fst snd]. rewrite <- Htk, <- fmap_app, take_drop. done.
    + by constructor.
    + rewrite <- app_assoc. do 2 f_equal. cbn [stream_groups app]. unfold group_pages. cbn [fst snd].
      rewrite Hlen, !wrap_small by lia. f_equal. f_equal. lia.
  - intros (gs & Heq & Hgs & ->). destruct gs as [|g gs]; [by rewrite Hps in Heq|].
    rewrite bind_cons in Heq. apply Forall_cons in Hgs as [Hg Hgs].
    destruct (find_end_group _ _ pages _ Hg (eq_sym Heq)) as [t Hf].
    pose proof (vg_count _ _ Hg) as Hc.
    assert (Hle : (length (group_pages g) ≤ length pages)%nat).
    { rewrite <- (length_fmap tx_page pages), <- Heq, length_app. lia. }
    rewrite (scan_groups_step _ _ _ _ _ _ _ Hf).
    replace (length (group_pages g) - 1 + 1)%nat with (length (group_pages g)) by lia.
    rewrite fmap_take, <- Heq, take_app_length.
    rewrite (validate_paged_spend_complete _ (fst g)); [|rewrite <- Heq in Hwf; by apply Forall_app in Hwf as []|done].
    cbn [map_err mbind result_bind]. rewrite if_err_Ok. rewrite length_app. cbn [length]. split; [lia|].
    apply IH; [rewrite ?length_app, length_drop; cbn [length]; lia..| |].
    { rewrite fmap_drop. by apply Forall_drop. }
    exists gs. rewrite fmap_drop, <- Heq, drop_app_length. split_and!; [done|done|].
    rewrite <- app_assoc. do 2 f_equal. cbn [stream_groups app]. rewrite !wrap_small by lia.
    f_equal. f_equal. lia.
Qed.

Lemma visit_slots_step acc t acc' :
  visit_slots acc t = Ok acc' ↔
  fresh (fst acc) (input_slots (body_of t)) ∧ fresh (snd acc) (output_slots (body_of t))
  ∧ acc' = (list_to_set (input_slots (body_of t)) ∪ fst acc,
            list_to_set (output_slots (body_of t)) ∪ snd acc).
Proof.
  unfold visit_slots, fresh. rewrite bind_Ok. setoid_rewrite bind_Ok.
  setoid_rewrite try_fold_insert_fresh. fold (input_slots (body_of t)). fold (output_slots (body_of t)).
  split.
  - intros (s1 & (Hn1 & Hf1 & ->) & s2 & (Hn2 & Hf2 & ->) & [= <-]). by split_and!.
  - intros ([Hn1 Hf1] & [Hn2 Hf2] & ->). eexists. split; [by split_and!|]. eexists. by split; [split_and!|].
Qed.

Lemma visit_slots_Ok (pages : list T) acc acc' :
  try_fold visit_slots acc pages = Ok acc' ↔
  fresh (fst acc) (ti_slot_index <$> group_inputs (tx_page <$> pages))
  ∧ fresh (snd acc) (to_slot_index <$> group_outputs (tx_page <$> pages))
  ∧ acc' = (list_to_set (ti_slot_index <$> group_inputs (tx_page <$> pages)) ∪ fst acc,
            list_to_set (to_slot_index <$> group_outputs (tx_page <$> pages)) ∪ snd acc).
Proof.
  revert acc. induction pages as [|t pages IH]; intros [si so].
  { cbn. rewrite !(left_id_L ∅ (∪)). split; [intros [= <-]|by intros (_ & _ & ->)].
    split_and!; [apply fresh_nil..|done]. }
  cbn [try_fold]. rewrite fmap_cons, bind_Ok. setoid_rewrite visit_slots_step. setoid_rewrite IH.
  unfold group_inputs, group_outputs in *. rewrite !bind_cons, !fmap_app, !list_to_set_app_L, !fresh_app.
  cbn [page_body tx_page fst snd]. rewrite <- !(list_fmap_compose snd).
  fold (input_slots (body_of t)). fold (output_slots (body_of t)). split.
  - intros (a & (H1 & H2 & ->) & H3 & H4 & ->). cbn [fst snd] in *.
    rewrite !(assoc_L (∪)). split_and!; [done..|]. f_equal; f_equal; apply (comm_L (∪)).
  - intros ([H1 H2] & [H3 H4] & ->). eexists. split; [by split_and!|]. cbn [fst snd].
    rewrite !(assoc_L (∪)). split_and!; [done..|]. f_equal; f_equal; apply (comm_L (∪)).
Qed.

Lemma checked_group_sum_Some groups (value : PagedSpendGroupFacts → Z) v :
  Forall (λ g, 0 ≤ value g) groups →
  checked_group_sum groups value = Some v ↔ sum_Z (value <$> groups) < 2 ^ 64 ∧ v = sum_Z (value <$> groups).
Proof.
  intros Hnn. unfold checked_group_sum. rewrite try_fold_checked_add by (done || lia). rewrite Z.add_0_l.
  destruct (Z.ltb_spec (sum_Z (value <$> groups)) (2 ^ 64)); cbn; naive_solver lia.
Qed.

Lemma stream_groups_nonneg start gs :
  Forall (λ g, 0 ≤ ps_live_inputs (gf_spend g) ∧ 0 ≤ ps_live_outputs (gf_spend g)) (stream_groups start gs).
Proof. revert start. induction gs; intros; constructor; [cbn; lia|auto]. Qed.

Lemma checked_stream_inputs start gs v :
  checked_group_sum (stream_groups start gs) (λ g, ps_live_inputs (gf_spend g)) = Some v ↔
  Z.of_nat (length (group_inputs (gs ≫= group_pages))) < 2 ^ 64
  ∧ v = Z.of_nat (length (group_inputs (gs ≫= group_pages))).
Proof.
  rewrite checked_group_sum_Some, stream_live_inputs; [done|].
  eapply Forall_impl; [apply stream_groups_nonneg|]. by intros ? [].
Qed.

Lemma checked_stream_outputs start gs v :
  checked_group_sum (stream_groups start gs) (λ g, ps_live_outputs (gf_spend g)) = Some v ↔
  Z.of_nat (length (group_outputs (gs ≫= group_pages))) < 2 ^ 64
  ∧ v = Z.of_nat (length (group_outputs (gs ≫= group_pages))).
Proof.
  rewrite checked_group_sum_Some, stream_live_outputs; [done|].
  eapply Forall_impl; [apply stream_groups_nonneg|]. by intros ? [].
Qed.

(** Fewer groups than pages: every group has its first page. *)
Lemma groups_le_pages (gs : list (TxPage * list TxPage)) : (length gs ≤ length (gs ≫= group_pages))%nat.
Proof.
  induction gs as [|g gs IH]; [cbn; lia|].
  rewrite bind_cons, length_app. unfold group_pages at 1. cbn [length]. lia.
Qed.

Lemma class_capacity n class generation :
  for_page_count_in_generation n generation = Some class →
  n ≤ page_capacity_in_generation class generation ≤ 255
  ∧ input_capacity_in_generation class generation ≤ 1020
  ∧ output_capacity_in_generation class generation ≤ 510.
Proof.
  unfold for_page_count_in_generation, page_capacity_in_generation, input_capacity_in_generation,
    output_capacity_in_generation, small_tier.
  change MAX_INPUTS with 8. change MAX_OUTPUTS with 2.
  change BLOCK_MAX_LIVE_INPUTS with 1020. change BLOCK_MAX_USER_OUTPUTS with 510.
  assert (Ht : snd (tiers generation) = 255 ∧ 0 ≤ fst (tiers generation) ≤ 25) by (by destruct generation).
  cbn zeta. destruct (Z.leb_spec n (fst (tiers generation))); [intros [= <-]; lia|].
  destruct (Z.leb_spec n (snd (tiers generation))); [intros [= <-]; lia|done].
Qed.

Section class.
  Context (pages : list T) (class : BlockProofClass) (generation : HistoryStepPackGeneration)
    (Hwf : Forall page_wf (tx_page <$> pages))
    (Hclass : for_page_count_in_generation (Z.of_nat (length pages)) generation = Some class).

Lemma stream_facts_wrap gs :
  gs ≫= group_pages = tx_page <$> pages →
  Z.of_nat (length (group_inputs (tx_page <$> pages))) ≤ input_capacity_in_generation class generation →
  Z.of_nat (length (group_outputs (tx_page <$> pages))) ≤ output_capacity_in_generation class generation →
  stream_facts (tx_page <$> pages) class gs =
    mkPagedSpendStreamFacts class (stream_groups 0 gs) (wrap 16 (Z.of_nat (length pages)))
      (wrap 16 (Z.of_nat (length (stream_groups 0 gs))))
      (wrap 16 (Z.of_nat (length (group_inputs (tx_page <$> pages)))))
      (wrap 16 (Z.of_nat (length (group_outputs (tx_page <$> pages))))).
Proof.
  intros Hpages Hi Ho. destruct (class_capacity _ _ _ Hclass) as (Hn & Hic & Hoc).
  pose proof (groups_le_pages gs) as Hle. rewrite Hpages, length_fmap in Hle.
  unfold stream_facts. rewrite length_stream_groups, length_fmap, !wrap_small by lia. done.
Qed.

Lemma validate_stream_for_class_sound facts :
  validate_stream_for_class_in pages class generation = Ok facts →
  ∃ gs, valid_stream (tx_page <$> pages) class generation gs
    ∧ facts = stream_facts (tx_page <$> pages) class gs.
Proof.
  unfold validate_stream_for_class_in. destruct (class_capacity _ _ _ Hclass) as (Hn & Hic & Hoc).
  intros Hr. apply if_err_Ok in Hr as [_ Hr]. apply bind_Ok in Hr as (? & _ & Hr).
  apply if_err_Ok in Hr as [_ Hr]. apply bind_Ok in Hr as (groups & Hscan & Hr).
  apply scan_groups_Ok in Hscan as (gs & Hpages & Hgs & ->);
    [|unfold live_authorization_capacity_in_generation; cbn; (done || lia)..].
  apply bind_Ok in Hr as (li & Hli & Hr). apply if_err_Ok in Hr as [Hli' Hr].
  apply bind_Ok in Hr as (lo & Hlo & Hr). apply if_err_Ok in Hr as [Hlo' Hr].
  apply bind_Ok in Hr as ([si so] & Hs & Hr). destruct (elements _) eqn:Hel; [|done].
  apply elements_disjoint in Hel. injection Hr as <-.
  apply ok_or_Ok, checked_stream_inputs in Hli as [_ ->].
  apply ok_or_Ok, checked_stream_outputs in Hlo as [_ ->]. rewrite Hpages in *.
  apply visit_slots_Ok in Hs as (Hf1 & Hf2 & [= -> ->]). cbn [fst snd] in *.
  exists gs. split; [|symmetry; apply stream_facts_wrap; [done|lia..]].
  constructor; [by rewrite length_fmap|done|done|lia|lia|].
  apply fresh_empty in Hf1, Hf2. by apply NoDup_app_disjoint.
Qed.

Lemma validate_stream_for_class_complete gs :
  valid_stream (tx_page <$> pages) class generation gs →
  validate_stream_for_class_in pages class generation = Ok (stream_facts (tx_page <$> pages) class gs).
Proof.
  intros [_ Hpages Hgs Hi Ho Hnd]. unfold validate_stream_for_class_in.
  destruct (class_capacity _ _ _ Hclass) as (Hn & Hic & Hoc).
  rewrite if_err_Ok. split; [lia|]. rewrite Hclass. cbn [ok_or mbind result_bind].
  rewrite (bool_decide_false (class ≠ class)) by tauto.
  rewrite bind_Ok. eexists. split.
  { apply scan_groups_Ok; [unfold live_authorization_capacity_in_generation; cbn; (done || lia)..|].
    exists gs. by split_and!. }
  apply NoDup_app_disjoint in Hnd as (Hn1 & Hn2 & Hd).
  rewrite bind_Ok. eexists. rewrite ok_or_Ok. setoid_rewrite checked_stream_inputs. rewrite Hpages.
  split; [split; [lia|reflexivity]|]. rewrite if_err_Ok. split; [lia|].
  rewrite bind_Ok. eexists. rewrite ok_or_Ok. setoid_rewrite checked_stream_outputs. rewrite Hpages.
  split; [split; [lia|reflexivity]|]. rewrite if_err_Ok. split; [lia|].
  rewrite bind_Ok. eexists. split; [apply visit_slots_Ok; split_and!; [by apply fresh_empty..|reflexivity]|].
  cbn [fst snd]. rewrite (proj2 (elements_disjoint _ _) Hd).
  by rewrite stream_facts_wrap.
Qed.

End class.

Lemma validate_stream_valid (pages : list T) generation facts :
  Forall page_wf (tx_page <$> pages) →
  validate_paged_spend_stream_in pages generation = Ok facts ↔
  ∃ class gs, valid_stream (tx_page <$> pages) class generation gs
    ∧ facts = stream_facts (tx_page <$> pages) class gs.
Proof.
  intros Hwf. unfold validate_paged_spend_stream_in. rewrite bind_Ok. split.
  - intros (class & Hc & Hs). exists class. apply ok_or_Ok in Hc. by apply validate_stream_for_class_sound.
  - intros (class & gs & Hv & ->). exists class. pose proof (vs_class _ _ _ _ Hv) as Hc.
    rewrite length_fmap in Hc. rewrite Hc. split; [done|]. by apply validate_stream_for_class_complete.
Qed.

End stream_proofs.

(** ** Block layout, declaratively *)

(** A primary coinbase, at most one development payout, then user pages that
    form a valid stream; the class counts the payout as a page. *)
Record valid_block_stream (txs : list Transaction) (generation : HistoryStepPackGeneration)
    (coinbase : Transaction) (dev users : list Transaction) (user_class class : BlockProofClass)
    (gs : list (TxPage * list TxPage)) : Prop := {
  vb_layout : txs = coinbase :: dev ++ users;
  vb_coinbase : is_primary_coinbase_shape (tx_body coinbase) = true;
  vb_dev : (length dev ≤ 1)%nat ∧ Forall (λ tx, is_development_payout_shape (tx_body tx) = true) dev;
  vb_users : Forall (λ tx, tb_is_coinbase (tx_body tx) = false) users;
  vb_stream : valid_stream (tx_page <$> users) user_class generation gs;
  vb_class : for_page_count_in_generation (Z.of_nat (length (dev ++ users))) generation = Some class;
}.

Definition tx_wf (tx : Transaction) : Prop := TxBody_wf (tx_body tx).

#[global] Instance tx_wf_dec tx : Decision (tx_wf tx).
Proof. unfold tx_wf. apply _. Defined.

Section block_stream_proofs.
  Context {P : Poseidon2bPermutation}.

Definition block_stream_facts (class : BlockProofClass) (dev users : list Transaction)
    (gs : list (TxPage * list TxPage)) : BlockPageStreamFacts :=
  let user := stream_facts (tx_page <$> users) class gs in
  mkBlockPageStreamFacts class (sf_groups user) (sf_page_count user) (sf_logical_count user)
    (sf_live_inputs user) (sf_live_outputs user) (bool_decide (dev ≠ [])) (1 + length dev).

Lemma dev_payout_coinbase body :
  is_development_payout_shape body = true → tb_is_coinbase body = true.
Proof. unfold is_development_payout_shape. by intros [? _]%andb_true_iff. Qed.

Lemma existsb_coinbase_false (txs : list Transaction) :
  existsb (λ tx, tb_is_coinbase (tx_body tx)) txs = false ↔
  Forall (λ tx, tb_is_coinbase (tx_body tx) = false) txs.
Proof.
  induction txs as [|tx txs IH]; cbn; [split; [constructor|done]|].
  rewrite orb_false_iff, Forall_cons, IH. done.
Qed.

(** The split that the code computes: [dev] holds the second record when it
    has the shape of a payout. *)
Definition split_dev (rest : list Transaction) : list Transaction * list Transaction :=
  match rest with
  | tx :: users => if is_development_payout_shape (tx_body tx) then ([tx], users) else ([], rest)
  | [] => ([], [])
  end.

Lemma split_dev_eq dev users :
  (length dev ≤ 1)%nat → Forall (λ tx, is_development_payout_shape (tx_body tx) = true) dev →
  Forall (λ tx, tb_is_coinbase (tx_body tx) = false) users →
  split_dev (dev ++ users) = (dev, users).
Proof.
  intros Hl Hd Hu. destruct dev as [|tx [|]]; [|cbn in *|cbn in Hl; lia].
  - destruct users as [|u users]; [done|]. cbn [app split_dev].
    destruct (is_development_payout_shape (tx_body u)) eqn:Hs; [|done].
    apply dev_payout_coinbase in Hs. apply Forall_cons in Hu as [Hu _]. congruence.
  - apply Forall_cons in Hd as [-> _]. done.
Qed.

Lemma validate_block_page_stream_in_eq coinbase rest generation :
  validate_block_page_stream_in (coinbase :: rest) generation =
    let '(dev, users) := split_dev rest in
    let has := bool_decide (dev ≠ []) in
    if negb (tb_is_coinbase (tx_body coinbase)) then Err BP_CoinbaseNotFirst
    else if negb (is_primary_coinbase_shape (tx_body coinbase)) then Err BP_InvalidPrimaryCoinbase
    else if existsb (λ tx, tb_is_coinbase (tx_body tx)) users then Err BP_MultipleCoinbase
    else
      user ← map_err BP_PagedSpend (validate_paged_spend_stream_in users generation);
      let effective := sf_page_count user + (if has then 1 else 0) in
      proof_class ← ok_or (for_page_count_in_generation effective generation)
                      (BP_PagedSpend (SE_BlockPageLimit effective BLOCK_MAX_USER_PAGES));
      Ok (mkBlockPageStreamFacts proof_class (sf_groups user) (sf_page_count user)
            (sf_logical_count user) (sf_live_inputs user) (sf_live_outputs user)
            has (1 + length dev)).
Proof.
  unfold validate_block_page_stream_in. destruct rest as [|tx users]; [done|].
  cbn [split_dev lookup list_lookup]. destruct (is_development_payout_shape (tx_body tx)) eqn:Hd; cbn [negb].
  { rewrite (bool_decide_true ([tx] ≠ [])) by done. rewrite andb_false_r. cbn [drop length]. done. }
  rewrite (bool_decide_false (@nil Transaction ≠ [])) by tauto. cbn [drop length existsb].
  destruct (tb_is_coinbase (tx_body tx)) eqn:Hc; [|done]. cbn [orb]. done.
Qed.

Lemma validate_block_stream_valid (txs : list Transaction) generation facts :
  Forall tx_wf txs →
  validate_block_page_stream_in txs generation = Ok facts ↔
  ∃ coinbase dev users user_class class gs,
    valid_block_stream txs generation coinbase dev users user_class class gs
    ∧ facts = block_stream_facts class dev users gs.
Proof.
  intros Hwf. destruct txs as [|coinbase rest]; [split; [done|]; by intros (? & ? & ? & ? & ? & ? & [] & _)|].
  rewrite validate_block_page_stream_in_eq. apply Forall_cons in Hwf as [_ Hwf]. split.
  - destruct (split_dev rest) as [dev users] eqn:Hsplit. intros Hr.
    apply if_err_Ok in Hr as [_ Hr]. apply if_err_Ok in Hr as [Hcb Hr].
    apply negb_false_iff in Hcb. apply if_err_Ok in Hr as [Hu Hr]. apply existsb_coinbase_false in Hu.
    apply bind_Ok in Hr as (user & Hs & Hr). apply bind_Ok in Hr as (class & Hc & [= <-]).
    assert (rest = dev ++ users ∧ (length dev ≤ 1)%nat
            ∧ Forall (λ tx, is_development_payout_shape (tx_body tx) = true) dev) as (-> & Hl & Hd).
    { destruct rest as [|tx rest]; cbn in Hsplit; [by simplify_eq; split_and!; [|cbn; lia|constructor]|].
      destruct (is_development_payout_shape _) eqn:?; simplify_eq; split_and!; cbn; (done || lia || eauto). }
    apply Forall_app in Hwf as [_ Hwf].
    apply map_err_Ok, validate_stream_valid in Hs as (uc & gs & Hv & ->); [|by apply Forall_fmap].
    exists coinbase, dev, users, uc, class, gs. split; [|done].
    constructor; try done. apply ok_or_Ok in Hc. rewrite <- Hc. cbn [sf_page_count stream_facts].
    rewrite length_app, length_fmap. f_equal. destruct dev as [|? []]; cbn in *; lia.
  - intros (cb & dev & users & uc & class & gs & [[= <- ->] Hcb [Hl Hd] Hu Hs Hc] & ->).
    rewrite split_dev_eq by done. apply Forall_app in Hwf as [_ Hwf].
    rewrite Hcb. unfold is_primary_coinbase_shape in Hcb. apply andb_true_iff in Hcb as [-> _]. cbn [negb].
    rewrite (proj2 (existsb_coinbase_false users) Hu).
    rewrite (proj2 (validate_stream_valid users generation (stream_facts (tx_page <$> users) uc gs)
               (proj2 (Forall_fmap tx_page page_wf users) Hwf))) by eauto.
    cbn [map_err mbind result_bind sf_page_count stream_facts].
    replace (for_page_count_in_generation _ _) with (Some class); [done|].
    rewrite <- Hc, length_app, length_fmap. f_equal. destruct dev as [|? []]; cbn in *; lia.
Qed.

(** Eight inputs and two outputs per page bound the whole stream. *)
Lemma group_action_bounds pages :
  Forall page_wf pages →
  (length (group_inputs pages) ≤ 8 * length pages)%nat
  ∧ (length (group_outputs pages) ≤ 2 * length pages)%nat.
Proof.
  unfold group_inputs, group_outputs. induction 1 as [|p pages Hp Hpages [IH1 IH2]]; [done|].
  rewrite !bind_cons, !length_app, !length_fmap. cbn [length].
  assert (length (live_inputs (page_body p)) ≤ 8)%nat.
  { unfold live_inputs. etrans; [apply length_filter|]. rewrite length_imap. by rewrite wf_inputs_length. }
  assert (length (live_outputs (page_body p)) ≤ 2)%nat.
  { unfold live_outputs. etrans; [apply length_filter|]. rewrite length_imap. by rewrite wf_outputs_length. }
  lia.
Qed.

(** Every generation has a class for the same page counts, and its limits on
    inputs and outputs follow from the page count or from the block limits. *)
Lemma class_exists n g1 g2 c1 :
  for_page_count_in_generation n g1 = Some c1 →
  ∃ c2, for_page_count_in_generation n g2 = Some c2
    ∧ Z.min (8 * n) (input_capacity_in_generation c1 g1) ≤ input_capacity_in_generation c2 g2
    ∧ Z.min (2 * n) (output_capacity_in_generation c1 g1) ≤ output_capacity_in_generation c2 g2.
Proof.
  destruct g1, g2; unfold for_page_count_in_generation, input_capacity_in_generation,
    output_capacity_in_generation, small_tier, tiers, BLOCK_PAGE_CLASS_TIERS, V1_3_TIER_SMALL,
    MAX_INPUTS, MAX_OUTPUTS, BLOCK_MAX_LIVE_INPUTS, BLOCK_MAX_USER_OUTPUTS; cbn [fst snd];
    repeat match goal with
      | |- context [n <=? ?k] => destruct (Z.leb_spec n k)
      end; intros [=]; subst; try (exfalso; lia);
    eexists; (split_and!; [reflexivity|cbn; lia..]).
Qed.

Lemma valid_stream_generation pages g1 g2 c1 gs :
  Forall page_wf pages → valid_stream pages c1 g1 gs → ∃ c2, valid_stream pages c2 g2 gs.
Proof.
  intros Hwf [Hc Hp Hg Hi Ho Hs]. destruct (class_exists _ _ g2 _ Hc) as (c2 & Hc2 & Hci & Hco).
  destruct (group_action_bounds pages Hwf). exists c2. constructor; (done || lia).
Qed.

End block_stream_proofs.

(** ** Properties *)

(** A block with a coinbase, a development payout and the two-page group. *)
Definition example_coinbase : Transaction :=
  mkTransaction (mkTxBody zero_digest 0 zero_digest (replicate 8 TxInput_dummy)
    [mkTxOutput 200 5000 (replicate 32 9); TxOutput_dummy] 0x100 true).

Definition example_dev_payout : Transaction :=
  mkTransaction (mkTxBody zero_digest 0 zero_digest (replicate 8 TxInput_dummy)
    [mkTxOutput 201 10 (replicate 32 3); mkTxOutput 202 20 (replicate 32 4)] 0x300 true).

Definition example_block_txs : list Transaction :=
  example_coinbase :: example_dev_payout :: (mkTransaction ∘ page_body <$> example_group).

(** C10: Block layout and user stream: the validator accepts exactly the sequences made of
    a primary coinbase, at most one development payout and non-coinbase pages that divide
    into valid groups, with block-wide distinct slots and the block limits respected; the
    facts it returns (groups, counts, proof class) are those of that division. *)
Theorem validate_block_page_stream_iff {P : Poseidon2bPermutation} (txs : list Transaction)
    (generation : HistoryStepPackGeneration) (facts : BlockPageStreamFacts)
    (Hwf : Forall tx_wf txs) :
  validate_block_page_stream_in txs generation = Ok facts ↔
  ∃ coinbase dev users user_class class gs,
    valid_block_stream txs generation coinbase dev users user_class class gs
    ∧ facts = block_stream_facts class dev users gs.
Proof. by apply validate_block_stream_valid. Qed.

Lemma validate_block_page_stream_iff_witness :
  ∃ coinbase dev users user_class class gs,
    valid_block_stream example_block_txs V1_3 coinbase dev users user_class class gs.
Proof.
  destruct (validate_block_page_stream_in (P := example_permutation) example_block_txs V1_3)
    as [facts|e] eqn:Hv; [|exfalso; revert Hv; vm_compute; discriminate].
  destruct (proj1 (validate_block_page_stream_iff (P := example_permutation) example_block_txs V1_3 facts
    (bool_decide_unpack (Forall tx_wf example_block_txs) ltac:(vm_compute; exact I))) Hv)
    as (cb & dev & users & uc & c & gs & Hb & _).
  exists cb, dev, users, uc, c, gs. exact Hb.
Defined.

(** The proof class is the only fact that depends on the pack generation: a user
    stream accepted under one generation is accepted under every other, with the same
    groups and counts. *)
Theorem stream_facts_generation_independent {P : Poseidon2bPermutation} (pages : list Transaction)
    (g1 g2 : HistoryStepPackGeneration) (f1 : PagedSpendStreamFacts)
    (Hwf : Forall tx_wf pages) (H1 : validate_paged_spend_stream_in pages g1 = Ok f1) :
  ∃ f2, validate_paged_spend_stream_in pages g2 = Ok f2
    ∧ sf_groups f2 = sf_groups f1 ∧ sf_page_count f2 = sf_page_count f1
    ∧ sf_logical_count f2 = sf_logical_count f1
    ∧ sf_live_inputs f2 = sf_live_inputs f1 ∧ sf_live_outputs f2 = sf_live_outputs f1.
Proof.
  assert (Hp : Forall page_wf (tx_page <$> pages)) by by apply Forall_fmap.
  apply validate_stream_valid in H1 as (c1 & gs & Hv & ->); [|done].
  destruct (valid_stream_generation _ _ g2 _ _ Hp Hv) as [c2 Hv2].
  exists (stream_facts (tx_page <$> pages) c2 gs). split; [|done].
  apply validate_stream_valid; eauto.
Qed.

Lemma stream_facts_generation_independent_witness :
  ∃ f2, validate_paged_spend_stream_in (P := example_permutation)
          (mkTransaction ∘ page_body <$> example_group) V1_6 = Ok f2.
Proof.
  destruct (validate_paged_spend_stream_in (P := example_permutation)
              (mkTransaction ∘ page_body <$> example_group) V1)
    as [f1|e] eqn:Hv; [|exfalso; revert Hv; vm_compute; discriminate].
  destruct (stream_facts_generation_independent (P := example_permutation) _ V1 V1_6 f1
    (bool_decide_unpack (Forall tx_wf (mkTransaction ∘ page_body <$> example_group))
       ltac:(vm_compute; exact I)) Hv) as (f2 & H2 & _).
  exists f2. exact H2.
Defined.

(** The malformed-payout error is dead code: a second record that is a coinbase but
    not a development payout is always reported as [MultipleCoinbase] first. *)
Theorem invalid_development_payout_unreachable {P : Poseidon2bPermutation} (txs : list Transaction)
    (generation : HistoryStepPackGeneration) :
  validate_block_page_stream_in txs generation ≠ Err BP_InvalidDevelopmentPayout.
Proof.
  destruct txs as [|coinbase rest]; [done|]. rewrite validate_block_page_stream_in_eq.
  destruct (split_dev rest) as [dev users]. repeat (case_match; [done|]).
  destruct (validate_paged_spend_stream_in users generation); [|done]. cbn.
  by destruct (for_page_count_in_generation _ _).
Qed.
