(* ===== verification/Merkle.v ===== *)
(** * Binary Merkle trees over power-of-two vectors

    Two representations the code uses for such trees, against one reference
    definition:
    - the one-indexed array of [2 n] nodes, rebuilt bottom-up or along one
      path ([ExactSegmentRootCache] of [state.rs] and the segment tree of
      [segmented_state.rs]);
    - the level stack of a streaming builder ([StreamingSparseRoot]), in
      [SparseRoot.v].

    The node function is a parameter: it is [state_node_hash] or [compress]
    at the uses. *)

From Stdlib Require Import Sorting.Sorted.
From S2P Require Import Prelude Machine.

#[global] Instance digest_inhabited : Inhabited (list Z) := populate zero_digest.

Section merkle.
  Context (node : list Z → list Z → list Z).

(** ** Reference *)

(** The root of the subtree of height [h] whose leftmost leaf is [i]. *)
Fixpoint merkle_root (h : nat) (leaf : Z → list Z) (i : Z) : list Z :=
  match h with
  | O => leaf i
  | S h => node (merkle_root h leaf i) (merkle_root h leaf (i + 2 ^ Z.of_nat h))
  end.

Lemma merkle_root_ext h leaf1 leaf2 i :
  (∀ j, i ≤ j < i + 2 ^ Z.of_nat h → leaf1 j = leaf2 j) →
  merkle_root h leaf1 i = merkle_root h leaf2 i.
Proof.
  revert i; induction h as [|h IH]; intros i Hl; cbn [merkle_root].
  - apply Hl. cbn. lia.
  - rewrite Nat2Z.inj_succ, Z.pow_succ_r in Hl by lia.
    f_equal; apply IH; intros j Hj; apply Hl; lia.
Qed.

Lemma merkle_root_shift h leaf i k :
  merkle_root h (λ j, leaf (j + k)) i = merkle_root h leaf (i + k).
Proof.
  revert i; induction h as [|h IH]; intros i; cbn [merkle_root]; [done|].
  rewrite !IH. do 2 f_equal. lia.
Qed.

(** Subtrees of height [g] as the leaves of an upper tree of height [h]. *)
Lemma merkle_root_compose g h leaf i :
  merkle_root h (λ j, merkle_root g leaf (i + j * 2 ^ Z.of_nat g)) 0
  = merkle_root (h + g) leaf i.
Proof.
  enough (Hgen : ∀ j, merkle_root h (λ j, merkle_root g leaf (i + j * 2 ^ Z.of_nat g)) j
            = merkle_root (h + g) leaf (i + j * 2 ^ Z.of_nat g)).
  { rewrite Hgen. f_equal. lia. }
  induction h as [|h IH]; intros j; [done|]. cbn [merkle_root Nat.add]. rewrite !IH.
  f_equal. f_equal. rewrite Nat2Z.inj_add, Z.pow_add_r by lia. lia.
Qed.

(** Two trees of height [h] over the same position have, at some position, equal
    nodes with different children. *)
Fixpoint tree_collision (h : nat) (leaf1 leaf2 : Z → list Z) (i : Z) : Prop :=
  match h with
  | O => False
  | S h =>
      let j := i + 2 ^ Z.of_nat h in
      ((merkle_root h leaf1 i ≠ merkle_root h leaf2 i ∨ merkle_root h leaf1 j ≠ merkle_root h leaf2 j)
       ∧ node (merkle_root h leaf1 i) (merkle_root h leaf1 j) = node (merkle_root h leaf2 i) (merkle_root h leaf2 j))
      ∨ tree_collision h leaf1 leaf2 i ∨ tree_collision h leaf1 leaf2 j
  end.

(** Equal roots: either the leaves are equal or the trees hold a collision. *)
Lemma merkle_root_binding h leaf1 leaf2 i :
  merkle_root h leaf1 i = merkle_root h leaf2 i →
  tree_collision h leaf1 leaf2 i ∨ ∀ j, i ≤ j < i + 2 ^ Z.of_nat h → leaf1 j = leaf2 j.
Proof.
  revert i; induction h as [|h IH]; intros i Hr; cbn [merkle_root tree_collision] in *; cbn zeta.
  { right. intros j Hj. assert (j = i) as -> by (cbn in Hj; lia). done. }
  set (k := i + 2 ^ Z.of_nat h) in *.
  destruct (decide (merkle_root h leaf1 i = merkle_root h leaf2 i)) as [Hl|Hl]; [|left; left; by split; [left|]].
  destruct (decide (merkle_root h leaf1 k = merkle_root h leaf2 k)) as [Hk|Hk]; [|left; left; by split; [right|]].
  destruct (IH i Hl) as [?|Hil]; [left; by right; left|]. destruct (IH k Hk) as [?|Hkl]; [left; by right; right|].
  right. intros j Hj. rewrite Nat2Z.inj_succ, Z.pow_succ_r in Hj by lia.
  destruct (decide (j < k)); [apply Hil|apply Hkl]; lia.
Qed.

(** A subtree whose leaves are all [z]. *)
Fixpoint constant_root (h : nat) (z : list Z) : list Z :=
  match h with
  | O => z
  | S h => node (constant_root h z) (constant_root h z)
  end.

Lemma merkle_root_constant h leaf i z :
  (∀ j, i ≤ j < i + 2 ^ Z.of_nat h → leaf j = z) →
  merkle_root h leaf i = constant_root h z.
Proof.
  revert i; induction h as [|h IH]; intros i Hl; cbn [merkle_root constant_root].
  - apply Hl. cbn. lia.
  - rewrite Nat2Z.inj_succ, Z.pow_succ_r in Hl by lia.
    f_equal; apply IH; intros j Hj; apply Hl; lia.
Qed.

(** ** The node array *)

Definition update_node (tree : list (list Z)) (k : nat) : list (list Z) :=
  <[k := node (tree !!! (2 * k)%nat) (tree !!! (2 * k + 1)%nat)]> tree.

(** [for k in (1..count).rev()]. *)
Definition build_parents (count : nat) (tree : list (list Z)) : list (list Z) :=
  foldl update_node tree (reverse (seq 1 (count - 1))).

(** [while node > 1 { node /= 2; .. }]; the node index itself is enough fuel. *)
Fixpoint update_path (fuel : nat) (tree : list (list Z)) (k : nat) : list (list Z) :=
  match fuel with
  | O => tree
  | S fuel => if decide (1 < k)%nat
              then update_path fuel (update_node tree (k / 2)) (k / 2)
              else tree
  end.

(** Every inner node is the hash of its children, except those in [stale]. *)
Definition consistent_except (stale : nat → Prop) (count : nat) (tree : list (list Z)) : Prop :=
  ∀ k, (1 ≤ k < count)%nat → ¬ stale k →
       tree !!! k = node (tree !!! (2 * k)%nat) (tree !!! (2 * k + 1)%nat).

Definition consistent (count : nat) (tree : list (list Z)) : Prop :=
  consistent_except (λ _, False) count tree.

Lemma length_update_node tree k : length (update_node tree k) = length tree.
Proof. apply length_insert. Qed.

Lemma lookup_update_node_ne tree k j : j ≠ k → update_node tree k !!! j = tree !!! j.
Proof. intros. unfold update_node. apply list_lookup_total_insert_ne. done. Qed.

Lemma lookup_update_node tree k :
  (k < length tree)%nat →
  update_node tree k !!! k = node (tree !!! (2 * k)%nat) (tree !!! (2 * k + 1)%nat).
Proof. intros. unfold update_node. apply list_lookup_total_insert_eq. done. Qed.

(** Recomputing a node removes it from the stale set and makes only its parent
    stale. *)
Lemma update_node_consistent stale stale' count tree k :
  (1 ≤ k < count)%nat → (count ≤ length tree)%nat →
  consistent_except stale count tree →
  (∀ j, stale j → j ≠ k → stale' j) → (1 < k → stale' (k / 2))%nat →
  consistent_except stale' count (update_node tree k).
Proof.
  intros Hk Hlen Hc Hst Hpar j Hj Hns.
  destruct (decide (j = k)) as [->|Hjk].
  { rewrite lookup_update_node, !lookup_update_node_ne by lia. done. }
  rewrite lookup_update_node_ne by done.
  pose proof (Nat.div_mod_eq k 2). pose proof (Nat.mod_upper_bound k 2).
  assert (Hdiv : (j ≠ k / 2)%nat) by (intros ->; apply Hns, Hpar; lia).
  assert ((2 * j)%nat ≠ k ∧ (2 * j + 1)%nat ≠ k) as [H1 H2] by lia.
  rewrite !lookup_update_node_ne by done. apply Hc; [done|]. intros Hs. by apply Hns, Hst.
Qed.

Lemma length_build_parents count tree : length (build_parents count tree) = length tree.
Proof.
  unfold build_parents. generalize (reverse (seq 1 (count - 1))) as ks. intros ks.
  revert tree; induction ks as [|k ks IH]; intros tree; cbn; [done|].
  rewrite IH. apply length_update_node.
Qed.

(** Recomputing a strictly decreasing list of nodes that contains every stale
    node and, with each node, its parent: the array is consistent. *)
Lemma foldl_update_consistent count tree ks :
  (count ≤ length tree)%nat → StronglySorted (λ a b, (b < a)%nat) ks →
  Forall (λ k, (1 ≤ k < count)%nat) ks →
  (∀ k, k ∈ ks → (1 < k)%nat → (k / 2)%nat ∈ ks) →
  consistent_except (λ k, k ∈ ks) count tree →
  consistent count (foldl update_node tree ks).
Proof.
  intros Hlen Hs. revert tree Hlen. induction Hs as [|k ks Hs IH Hlt]; intros tree Hlen Hr Hp Hc; cbn.
  { intros k Hk _. apply Hc; [done|]. by intros ?%not_elem_of_nil. }
  apply Forall_cons in Hr as [Hk Hr]. rewrite Forall_forall in Hlt.
  apply IH; [by rewrite length_update_node|done| |].
  - intros j Hj H1. specialize (Hp j ltac:(by right) H1). apply elem_of_cons in Hp as [Hp|Hp]; [|done].
    specialize (Hlt j Hj). pose proof (Nat.div_lt j 2). lia.
  - eapply update_node_consistent; [done|done|exact Hc| |].
    + intros j Hj Hne. by apply elem_of_cons in Hj as [|].
    + intros H1. specialize (Hp k ltac:(by left) H1). apply elem_of_cons in Hp as [Hp|Hp]; [|done].
      pose proof (Nat.div_lt k 2). lia.
Qed.

Lemma foldl_update_lookup tree ks j : j ∉ ks → foldl update_node tree ks !!! j = tree !!! j.
Proof.
  revert tree; induction ks as [|k ks IH]; intros tree Hj; cbn; [done|].
  rewrite IH, lookup_update_node_ne; set_solver.
Qed.

Lemma seq_sorted_rev a n : StronglySorted (λ a b, (b < a)%nat) (reverse (seq a n)).
Proof.
  induction n as [|n IH]; [constructor|]. rewrite seq_S, reverse_app. cbn. constructor; [done|].
  apply Forall_forall. intros x Hx. apply elem_of_reverse, elem_of_seq in Hx. lia.
Qed.

Lemma build_parents_consistent count tree :
  (count ≤ length tree)%nat → consistent count (build_parents count tree).
Proof.
  intros Hlen. unfold build_parents. apply foldl_update_consistent; [done|apply seq_sorted_rev|..].
  - apply Forall_forall. intros k Hk. apply elem_of_reverse, elem_of_seq in Hk. lia.
  - intros k Hk H1. apply elem_of_reverse, elem_of_seq in Hk. apply elem_of_reverse, elem_of_seq.
    pose proof (Nat.div_lt k 2). pose proof (Nat.div_le_lower_bound k 2 1). lia.
  - intros k Hk Hn. exfalso. apply Hn, elem_of_reverse, elem_of_seq. lia.
Qed.

Lemma build_parents_leaf count tree j : (count ≤ j)%nat → build_parents count tree !!! j = tree !!! j.
Proof. intros Hj. apply foldl_update_lookup. rewrite elem_of_reverse, elem_of_seq. lia. Qed.

Lemma length_update_path fuel tree k : length (update_path fuel tree k) = length tree.
Proof.
  revert tree k; induction fuel as [|fuel IH]; intros tree k; cbn [update_path]; [done|].
  case_decide; [|done]. by rewrite IH, length_update_node.
Qed.

Lemma update_path_leaf fuel tree k j :
  (k / 2 < j)%nat → update_path fuel tree k !!! j = tree !!! j.
Proof.
  revert tree k; induction fuel as [|fuel IH]; intros tree k Hj; cbn [update_path]; [done|].
  case_decide; [|done]. pose proof (Nat.div_mod_eq (k / 2) 2).
  rewrite IH, lookup_update_node_ne by lia. done.
Qed.

(** The path update repairs an array in which only the parent of [k] is stale. *)
Lemma update_path_consistent fuel count tree k :
  (k ≤ fuel)%nat → (1 ≤ k)%nat → (k / 2 < count)%nat → (count ≤ length tree)%nat →
  consistent_except (λ j, (1 < k)%nat ∧ j = (k / 2)%nat) count tree →
  consistent count (update_path fuel tree k).
Proof.
  revert tree k; induction fuel as [|fuel IH]; intros tree k Hf Hk Hkc Hlen Hc; [lia|].
  cbn [update_path]. case_decide as H1; [|by intros j Hj _; apply Hc; [|intros [??]]].
  pose proof (Nat.div_lt k 2). pose proof (Nat.div_le_lower_bound k 2 1).
  apply IH; [lia|lia| |by rewrite length_update_node|].
  - pose proof (Nat.div_le_upper_bound (k / 2) 2 (k / 2)). lia.
  - eapply update_node_consistent; [|done|exact Hc| |]; [lia|naive_solver|naive_solver].
Qed.

(** ** The array computes the reference root *)

Lemma consistent_merkle_root d tree h j :
  consistent (2 ^ d) tree → (h ≤ d)%nat → (j < 2 ^ (d - h))%nat →
  tree !!! (2 ^ (d - h) + j)%nat
  = merkle_root h (λ i, tree !!! (2 ^ d + Z.to_nat i)%nat) (Z.of_nat j * 2 ^ Z.of_nat h).
Proof.
  intros Hc. revert j. induction h as [|h IH]; intros j Hh Hj.
  { cbn [merkle_root]. rewrite Nat.sub_0_r, Z.mul_1_r, Nat2Z.id. done. }
  assert (Hpow : (2 ^ (d - h) = 2 * 2 ^ (d - S h))%nat).
  { replace (d - h)%nat with (S (d - S h)) by lia. apply Nat.pow_succ_r'. }
  assert ((2 ^ (d - h) ≤ 2 ^ d)%nat) by (apply Nat.pow_le_mono_r; lia).
  pose proof (Nat.pow_nonzero 2 (d - S h)).
  rewrite (Hc (2 ^ (d - S h) + j)%nat) by (lia || tauto). cbn [merkle_root].
  replace (2 * (2 ^ (d - S h) + j))%nat with (2 ^ (d - h) + 2 * j)%nat by lia.
  replace (2 ^ (d - h) + 2 * j + 1)%nat with (2 ^ (d - h) + (2 * j + 1))%nat by lia.
  rewrite !IH by lia. rewrite Nat2Z.inj_succ, Z.pow_succ_r by lia. f_equal; f_equal; lia.
Qed.

Lemma consistent_root d tree :
  consistent (2 ^ d) tree →
  tree !!! 1%nat = merkle_root d (λ i, tree !!! (2 ^ d + Z.to_nat i)%nat) 0.
Proof.
  intros Hc. pose proof (consistent_merkle_root d tree d 0 Hc) as Hr.
  rewrite Nat.sub_diag in Hr. apply Hr; cbn; lia.
Qed.

End merkle.
