(* ===== verification/SlotState.v ===== *)
(** * The segmented slot state

    [jetsam_chain/src/fri_state.rs] (slot values) and
    [jetsam_chain/src/segmented_state.rs]: the UTXO slot vector in segments of
    [2^16] slots, each virtual (all zero), resident in memory or evicted to
    the database, with the dirty sets that drive persistence and root
    maintenance and the commitment tree over the segment roots.

    The polynomial commitment of one segment ([compute_segment_root]) is a
    parameter.  Vector accesses that would panic are [None]. *)

From S2P Require Import Prelude Machine Poseidon TxTypes Merkle.

(** ** Slot values *)

Definition LOG_SEGMENT_SIZE : nat := 16.
Definition STATE_LOG_SLOTS : nat := 24.
Definition MAX_SEGTREE_DEPTH : nat := 16.

Record SlotValue := mkSlotValue {
  sv_value : Z;
  sv_owner_hi : Z;
  sv_owner_lo : Z;
}.

#[global] Instance SlotValue_eq_dec : EqDecision SlotValue.
Proof. solve_decision. Defined.

Definition EMPTY : SlotValue := mkSlotValue 0 0 0.

Definition is_empty (slot : SlotValue) : bool := bool_decide (slot = EMPTY).

Definition from_parts (amount creation_id owner_hi owner_lo : Z) : SlotValue :=
  mkSlotValue (pack_amount_creation_id amount creation_id) owner_hi owner_lo.

Definition with_owner_fields (amount creation_id : Z) (owner : Z * Z) : SlotValue :=
  from_parts amount creation_id (fst owner) (snd owner).

Definition slot_amount (slot : SlotValue) : Z := fst (unpack_amount_creation_id (sv_value slot)).

Definition slot_creation_id (slot : SlotValue) : Z := snd (unpack_amount_creation_id (sv_value slot)).

Inductive StateError := SlotOutOfRange | OpeningFailed.

(** ** Segments *)

Record SegmentColumns := mkSegmentColumns {
  sc_values : list Z;
  sc_owners_hi : list Z;
  sc_owners_lo : list Z;
}.

Definition new_zero (size : nat) : SegmentColumns :=
  mkSegmentColumns (replicate size 0) (replicate size 0) (replicate size 0).

Definition cols_get (cols : SegmentColumns) (loc : Z) : option SlotValue :=
  value ← vec_get (sc_values cols) loc;
  owner_hi ← vec_get (sc_owners_hi cols) loc;
  owner_lo ← vec_get (sc_owners_lo cols) loc;
  Some (mkSlotValue value owner_hi owner_lo).

Definition cols_set (cols : SegmentColumns) (loc : Z) (v : SlotValue) : option SegmentColumns :=
  values ← vec_set (sc_values cols) loc (sv_value v);
  owners_hi ← vec_set (sc_owners_hi cols) loc (sv_owner_hi v);
  owners_lo ← vec_set (sc_owners_lo cols) loc (sv_owner_lo v);
  Some (mkSegmentColumns values owners_hi owners_lo).

(** The three columns zipped, as [count_live] walks them. *)
Definition cols_slots (cols : SegmentColumns) : list SlotValue :=
  zip_with (λ '(v, hi) lo, mkSlotValue v hi lo)
    (zip (sc_values cols) (sc_owners_hi cols)) (sc_owners_lo cols).

Definition count_live (cols : SegmentColumns) : Z :=
  wrap 32 (Z.of_nat (length (filter (λ s, negb (is_empty s)) (cols_slots cols)))).

(** The commitment to the three columns of a segment of [2^log_size] slots. *)
Class SegmentCommitment : Type :=
  compute_segment_root : nat → list Z → list Z → list Z → list Z.

(** A commitment for examples. *)
Definition example_commitment : SegmentCommitment := λ log values hi lo,
  to_le_bytes 32 (Z.of_nat log + 7 * foldr (λ x a, x + 3 * a) 0 (values ++ hi ++ lo)).

Record SegmentedFriState := mkSegmentedFriState {
  sg_log_slots : nat;
  sg_effective_log_seg : nat;
  sg_num_segments : nat;
  sg_segments : list (option SegmentColumns);
  sg_seg_roots : list (option (list Z));
  sg_live_counts : list Z;
  sg_tree : list (list Z);
  sg_tree_dirty : bool;
  sg_dirty : gset Z;
  sg_mdbx_dirty : gset Z;
  sg_exact_dirty : gset Z;
  sg_evicted : gset Z;
  sg_dirty_tree_leaves : gset Z;
}.

(** Field assignments. *)
Definition set_log_slots (x : nat) (st : SegmentedFriState) : SegmentedFriState :=
    mkSegmentedFriState x (sg_effective_log_seg st) (sg_num_segments st) (sg_segments st)
    (sg_seg_roots st) (sg_live_counts st) (sg_tree st) (sg_tree_dirty st) (sg_dirty st)
    (sg_mdbx_dirty st) (sg_exact_dirty st) (sg_evicted st) (sg_dirty_tree_leaves st).

Definition set_effective_log_seg (x : nat) (st : SegmentedFriState) : SegmentedFriState :=
    mkSegmentedFriState (sg_log_slots st) x (sg_num_segments st) (sg_segments st) (sg_seg_roots
    st) (sg_live_counts st) (sg_tree st) (sg_tree_dirty st) (sg_dirty st) (sg_mdbx_dirty st)
    (sg_exact_dirty st) (sg_evicted st) (sg_dirty_tree_leaves st).

Definition set_num_segments (x : nat) (st : SegmentedFriState) : SegmentedFriState :=
    mkSegmentedFriState (sg_log_slots st) (sg_effective_log_seg st) x (sg_segments st)
    (sg_seg_roots st) (sg_live_counts st) (sg_tree st) (sg_tree_dirty st) (sg_dirty st)
    (sg_mdbx_dirty st) (sg_exact_dirty st) (sg_evicted st) (sg_dirty_tree_leaves st).

Definition set_segments (x : list (option SegmentColumns)) (st : SegmentedFriState) : SegmentedFriState :=
    mkSegmentedFriState (sg_log_slots st) (sg_effective_log_seg st) (sg_num_segments st) x
    (sg_seg_roots st) (sg_live_counts st) (sg_tree st) (sg_tree_dirty st) (sg_dirty st)
    (sg_mdbx_dirty st) (sg_exact_dirty st) (sg_evicted st) (sg_dirty_tree_leaves st).

Definition set_seg_roots (x : list (option (list Z))) (st : SegmentedFriState) : SegmentedFriState :=
    mkSegmentedFriState (sg_log_slots st) (sg_effective_log_seg st) (sg_num_segments st)
    (sg_segments st) x (sg_live_counts st) (sg_tree st) (sg_tree_dirty st) (sg_dirty st)
    (sg_mdbx_dirty st) (sg_exact_dirty st) (sg_evicted st) (sg_dirty_tree_leaves st).

Definition set_live_counts (x : list Z) (st : SegmentedFriState) : SegmentedFriState :=
    mkSegmentedFriState (sg_log_slots st) (sg_effective_log_seg st) (sg_num_segments st)
    (sg_segments st) (sg_seg_roots st) x (sg_tree st) (sg_tree_dirty st) (sg_dirty st)
    (sg_mdbx_dirty st) (sg_exact_dirty st) (sg_evicted st) (sg_dirty_tree_leaves st).

Definition set_tree (x : list (list Z)) (st : SegmentedFriState) : SegmentedFriState :=
    mkSegmentedFriState (sg_log_slots st) (sg_effective_log_seg st) (sg_num_segments st)
    (sg_segments st) (sg_seg_roots st) (sg_live_counts st) x (sg_tree_dirty st) (sg_dirty st)
    (sg_mdbx_dirty st) (sg_exact_dirty st) (sg_evicted st) (sg_dirty_tree_leaves st).

Definition set_tree_dirty (x : bool) (st : SegmentedFriState) : SegmentedFriState :=
    mkSegmentedFriState (sg_log_slots st) (sg_effective_log_seg st) (sg_num_segments st)
    (sg_segments st) (sg_seg_roots st) (sg_live_counts st) (sg_tree st) x (sg_dirty st)
    (sg_mdbx_dirty st) (sg_exact_dirty st) (sg_evicted st) (sg_dirty_tree_leaves st).

Definition set_dirty (x : gset Z) (st : SegmentedFriState) : SegmentedFriState :=
    mkSegmentedFriState (sg_log_slots st) (sg_effective_log_seg st) (sg_num_segments st)
    (sg_segments st) (sg_seg_roots st) (sg_live_counts st) (sg_tree st) (sg_tree_dirty st) x
    (sg_mdbx_dirty st) (sg_exact_dirty st) (sg_evicted st) (sg_dirty_tree_leaves st).

Definition set_mdbx_dirty (x : gset Z) (st : SegmentedFriState) : SegmentedFriState :=
    mkSegmentedFriState (sg_log_slots st) (sg_effective_log_seg st) (sg_num_segments st)
    (sg_segments st) (sg_seg_roots st) (sg_live_counts st) (sg_tree st) (sg_tree_dirty st) (sg_dirty
    st) x (sg_exact_dirty st) (sg_evicted st) (sg_dirty_tree_leaves st).

Definition set_exact_dirty (x : gset Z) (st : SegmentedFriState) : SegmentedFriState :=
    mkSegmentedFriState (sg_log_slots st) (sg_effective_log_seg st) (sg_num_segments st)
    (sg_segments st) (sg_seg_roots st) (sg_live_counts st) (sg_tree st) (sg_tree_dirty st) (sg_dirty
    st) (sg_mdbx_dirty st) x (sg_evicted st) (sg_dirty_tree_leaves st).

Definition set_evicted (x : gset Z) (st : SegmentedFriState) : SegmentedFriState :=
    mkSegmentedFriState (sg_log_slots st) (sg_effective_log_seg st) (sg_num_segments st)
    (sg_segments st) (sg_seg_roots st) (sg_live_counts st) (sg_tree st) (sg_tree_dirty st) (sg_dirty
    st) (sg_mdbx_dirty st) (sg_exact_dirty st) x (sg_dirty_tree_leaves st).

Definition set_dirty_tree_leaves (x : gset Z) (st : SegmentedFriState) : SegmentedFriState :=
    mkSegmentedFriState (sg_log_slots st) (sg_effective_log_seg st) (sg_num_segments st)
    (sg_segments st) (sg_seg_roots st) (sg_live_counts st) (sg_tree st) (sg_tree_dirty st) (sg_dirty
    st) (sg_mdbx_dirty st) (sg_exact_dirty st) (sg_evicted st) x.

Section geometry.
  Context (st : SegmentedFriState).

Definition num_slots : Z := Z.shiftl 1 (Z.of_nat (sg_log_slots st)).

Definition effective_log_segment_size : nat := sg_effective_log_seg st.

Definition seg_id_of (idx : Z) : Z :=
  wrap 16 (Z.shiftr idx (Z.of_nat (sg_effective_log_seg st))).

Definition local_idx_of (idx : Z) : Z :=
  wrap 16 (Z.land idx (Z.shiftl 1 (Z.of_nat (sg_effective_log_seg st)) - 1)).

Definition segment_slot_count : nat := 2 ^ sg_effective_log_seg st.

Definition segment_live_count (seg_id : Z) : Z := default 0 (vec_get (sg_live_counts st) seg_id).

Definition tree_depth : nat :=
  if decide (sg_num_segments st ≤ 1)%nat then 0
  else (sg_log_slots st - sg_effective_log_seg st)%nat.

Definition is_evicted (seg_id : Z) : bool := bool_decide (seg_id ∈ sg_evicted st).

(** The inner [Option] is [None] for a segment that is not in memory. *)
Definition try_get_segment_columns (seg_id : Z) : option (option SegmentColumns) :=
  vec_get (sg_segments st) seg_id.

Definition slot (idx : Z) : option SlotValue :=
  seg ← vec_get (sg_segments st) (seg_id_of idx);
  match seg with
  | None => Some EMPTY
  | Some cols => cols_get cols (local_idx_of idx)
  end.

Definition active_segment_ids : list Z :=
  Z.of_nat <$> (fst <$> filter (λ p : nat * Z, 0 <? snd p) (imap pair (sg_live_counts st))).

Definition cached_segment_root (seg_id : Z) : option (list Z) :=
  r ← vec_get (sg_seg_roots st) seg_id; r.

End geometry.

Section state.
  Context {P : Poseidon2bPermutation} {C : SegmentCommitment}.

(** ** Commitments of zero segments *)

Definition compute_seg_root (log_size : nat) (cols : SegmentColumns) : list Z :=
  compute_segment_root log_size (sc_values cols) (sc_owners_hi cols) (sc_owners_lo cols).

(** The memoised [zero_segment_root_16] is this at [LOG_SEGMENT_SIZE]. *)
Definition zero_seg_root_for (log_size : nat) : list Z :=
  compute_seg_root log_size (new_zero (2 ^ log_size)).

Definition zero_segtree_node (d : nat) : option (list Z) :=
  if decide (d ≤ MAX_SEGTREE_DEPTH)%nat
  then Some (constant_root compress d (zero_seg_root_for LOG_SEGMENT_SIZE)) else None.

(** The node array over the given leaves: [2 n + 1] entries, index 0 unused. *)
Definition segment_tree (leaves : list (list Z)) : list (list Z) :=
  let n := length leaves in
  build_parents compress n (replicate n zero_digest ++ leaves ++ [zero_digest]).

(** ** Construction *)

Definition new_empty (log_slots : nat) : option SegmentedFriState :=
  if decide (1 ≤ log_slots)%nat then
    let effective_log_seg := Nat.min log_slots LOG_SEGMENT_SIZE in
    let num_segments :=
      if decide (LOG_SEGMENT_SIZE < log_slots)%nat then (2 ^ (log_slots - LOG_SEGMENT_SIZE))%nat
      else 1%nat in
    let zero_leaf := zero_seg_root_for effective_log_seg in
    Some (mkSegmentedFriState log_slots effective_log_seg num_segments
      (replicate num_segments None) (replicate num_segments (Some zero_leaf))
      (replicate num_segments 0) (segment_tree (replicate num_segments zero_leaf))
      false ∅ ∅ ∅ ∅ ∅)
  else None.

Definition durable_metadata_clone (st : SegmentedFriState) : option SegmentedFriState :=
  if bool_decide (sg_mdbx_dirty st = ∅) && bool_decide (sg_exact_dirty st = ∅) then
    let evicted := foldl (λ ev p, if (snd p : Z) =? 0 then ev else {[wrap 16 (Z.of_nat (fst p))]} ∪ ev)
                     (sg_evicted st) (imap pair (sg_live_counts st)) in
    Some (set_evicted evicted (set_exact_dirty ∅ (set_mdbx_dirty ∅
            (set_segments (replicate (sg_num_segments st) None) st))))
  else None.

(** ** Writing slots *)

(** One iteration of the write loop. *)
Definition apply_one_delta (st : SegmentedFriState) (delta : Z * SlotValue) :
    option SegmentedFriState :=
  let '(idx, v) := delta in
  let seg := seg_id_of st idx in
  let loc := local_idx_of st idx in
  old ← slot st idx;
  if bool_decide (old = v) then Some st
  else
    current ← vec_get (sg_segments st) seg;
    if bool_decide (current = None) && is_empty v then Some st
    else
      let '(cols, evicted) :=
        match current with
        | Some cols => (cols, sg_evicted st)
        | None => (new_zero (segment_slot_count st), sg_evicted st ∖ {[seg]})
        end in
      cols ← cols_set cols loc v;
      live ← vec_get (sg_live_counts st) seg;
      let live :=
        match is_empty old, is_empty v with
        | true, false => saturating_add 32 live 1
        | false, true => saturating_sub live 1
        | _, _ => live
        end in
      live_counts ← vec_set (sg_live_counts st) seg live;
      let '(entry, evicted) :=
        if live =? 0 then (None, evicted ∖ {[seg]}) else (Some cols, evicted) in
      segments ← vec_set (sg_segments st) seg entry;
      seg_roots ← vec_set (sg_seg_roots st) seg None;
      Some (mkSegmentedFriState (sg_log_slots st) (sg_effective_log_seg st) (sg_num_segments st)
              segments seg_roots live_counts (sg_tree st) true
              ({[seg]} ∪ sg_dirty st) ({[seg]} ∪ sg_mdbx_dirty st) ({[seg]} ∪ sg_exact_dirty st)
              evicted (sg_dirty_tree_leaves st)).

Definition apply_delta_in_place (st : SegmentedFriState) (deltas : list (Z * SlotValue)) :
    result (fault StateError) SegmentedFriState :=
  if existsb (λ d, num_slots st <=? fst d) deltas then Err (Fail SlotOutOfRange)
  else try_fold (λ st d, expect (apply_one_delta st d)) st deltas.

Definition apply_delta_unrooted (st : SegmentedFriState) (deltas : list (Z * SlotValue)) :
    result (fault StateError) SegmentedFriState :=
  apply_delta_in_place st deltas.

(** ** Flushing the commitment tree *)

Definition flush_segment (st : SegmentedFriState) (seg_id : Z) : option SegmentedFriState :=
  root ← vec_get (sg_seg_roots st) seg_id;
  if bool_decide (seg_id ∉ sg_dirty st) && bool_decide (root ≠ None) then Some st
  else if bool_decide (seg_id ∈ sg_evicted st) then None
  else
    entry ← vec_get (sg_segments st) seg_id;
    let eff := sg_effective_log_seg st in
    let seg_root := match entry with
                    | None => zero_seg_root_for eff
                    | Some cols => compute_seg_root eff cols
                    end in
    seg_roots ← vec_set (sg_seg_roots st) seg_id (Some seg_root);
    let st := set_dirty (sg_dirty st ∖ {[seg_id]}) (set_seg_roots seg_roots st) in
    if decide (1 < sg_num_segments st)%nat then
      tree ← vec_set (sg_tree st) (Z.of_nat (sg_num_segments st) + seg_id) seg_root;
      Some (set_dirty_tree_leaves ({[seg_id]} ∪ sg_dirty_tree_leaves st)
              (set_tree_dirty true (set_tree tree st)))
    else Some st.

(** The ancestors of a leaf, nearest first. *)
Fixpoint ancestors (fuel k : nat) : list nat :=
  match fuel with
  | O => []
  | S fuel =>
      let k := (k / 2)%nat in
      if decide (k = 0)%nat then []
      else if decide (k = 1)%nat then [k]
      else k :: ancestors fuel k
  end.

(** [Vec::dedup]: drops repeated neighbours. *)
Fixpoint dedup (l : list nat) : list nat :=
  match l with
  | x :: ((y :: _) as l') => if decide (x = y) then dedup l' else x :: dedup l'
  | _ => l
  end.

(** The nodes to recompute, largest index first and without duplicates. *)
Definition nodes_to_update (num_segments : nat) (leaves : gset Z) : list nat :=
  reverse (dedup (merge_sort Nat.le
    (elements leaves ≫= λ seg_id, let k := (num_segments + Z.to_nat seg_id)%nat in ancestors k k))).

Definition flush_tree (st : SegmentedFriState) : SegmentedFriState :=
  if negb (sg_tree_dirty st) || bool_decide (sg_num_segments st ≤ 1)%nat then
    set_dirty_tree_leaves ∅ (set_tree_dirty false st)
  else if bool_decide (sg_dirty_tree_leaves st = ∅) then
    set_tree_dirty false (set_tree (build_parents compress (sg_num_segments st) (sg_tree st)) st)
  else
    let to_update := nodes_to_update (sg_num_segments st) (sg_dirty_tree_leaves st) in
    set_tree_dirty false (set_dirty_tree_leaves ∅
      (set_tree (foldl (update_node compress) (sg_tree st) to_update) st)).

Definition flush_all_dirty (st : SegmentedFriState) : option SegmentedFriState :=
  st ← foldl (λ o seg_id, st ← o; flush_segment st seg_id) (Some st) (elements (sg_dirty st));
  Some (flush_tree st).

Definition root (st : SegmentedFriState) : option (list Z * SegmentedFriState) :=
  st ← flush_all_dirty st;
  if decide (sg_num_segments st = 1)%nat then
    r ← vec_get (sg_seg_roots st) 0;
    Some (default (zero_seg_root_for (sg_effective_log_seg st)) r, st)
  else Some (sg_tree st !!! 1%nat, st).

Definition apply_delta (st : SegmentedFriState) (deltas : list (Z * SlotValue)) :
    result (fault StateError) (list Z * SegmentedFriState) :=
  st ← apply_delta_in_place st deltas;
  expect (root st).

Definition set_slot (st : SegmentedFriState) (idx : Z) (v : SlotValue) :
    result (fault StateError) (list Z * SegmentedFriState) :=
  apply_delta st [(idx, v)].

(** ** Residency *)

Definition clear_dirty (st : SegmentedFriState) : SegmentedFriState := set_mdbx_dirty ∅ st.

Definition clear_exact_dirty (st : SegmentedFriState) : SegmentedFriState := set_exact_dirty ∅ st.

Definition evict_segment (st : SegmentedFriState) (seg_id : Z) : option SegmentedFriState :=
  entry ← vec_get (sg_segments st) seg_id;
  match entry with
  | None => Some st
  | Some _ =>
      segments ← vec_set (sg_segments st) seg_id None;
      Some (set_evicted ({[seg_id]} ∪ sg_evicted st) (set_segments segments st))
  end.

(** Both eviction loops: the segments selected by [drop] leave memory. *)
Definition evict_where (drop : nat → bool) (st : SegmentedFriState) : SegmentedFriState :=
  foldl (λ st id,
      match sg_segments st !! id with
      | Some (Some _) =>
          if drop id
          then set_evicted ({[wrap 16 (Z.of_nat id)]} ∪ sg_evicted st)
                 (set_segments (<[id := None]> (sg_segments st)) st)
          else st
      | _ => st
      end) st (seq 0 (sg_num_segments st)).

Definition evict_clean_segments (st : SegmentedFriState) : SegmentedFriState :=
  evict_where (λ id, bool_decide (wrap 16 (Z.of_nat id) ∉ sg_mdbx_dirty st)) st.

Definition evict_all_persisted_segments (st : SegmentedFriState) : option SegmentedFriState :=
  if bool_decide (sg_mdbx_dirty st = ∅)
  then Some (evict_where (λ id, negb (sg_live_counts st !!! id =? 0)) st)
  else None.

(** [restore_evicted_segment] and, with a shared column buffer,
    [restore_shared_evicted_segment]. *)
Definition restore_shared_evicted_segment (st : SegmentedFriState) (seg_id : Z)
    (cols : SegmentColumns) : option SegmentedFriState :=
  let live := count_live cols in
  live_counts ← vec_set (sg_live_counts st) seg_id live;
  segments ← vec_set (sg_segments st) seg_id (if live =? 0 then None else Some cols);
  seg_roots ← vec_set (sg_seg_roots st) seg_id None;
  Some (set_tree_dirty true (set_dirty ({[seg_id]} ∪ sg_dirty st)
    (set_seg_roots seg_roots (set_evicted (sg_evicted st ∖ {[seg_id]})
      (set_segments segments (set_live_counts live_counts st)))))).

Inductive SummaryError := SummaryOutOfRange | SummaryWhileDirty | InvalidSummary.

(** A leaf of the commitment tree changes; the inner nodes are left to the
    next flush. *)
Definition record_leaf (st : SegmentedFriState) (seg_id : Z) (root : option (list Z)) :
    option SegmentedFriState :=
  if decide (1 < sg_num_segments st)%nat then
    match root with
    | Some root =>
        tree ← vec_set (sg_tree st) (Z.of_nat (sg_num_segments st) + seg_id) root;
        Some (set_tree_dirty true (set_dirty_tree_leaves ({[seg_id]} ∪ sg_dirty_tree_leaves st)
                (set_tree tree st)))
    | None => Some (set_tree_dirty true st)
    end
  else Some st.

Definition restore_persisted_segment_summary_and_evict (st : SegmentedFriState) (seg_id : Z)
    (parent_root : option (list Z)) : result (fault SummaryError) SegmentedFriState :=
  if Z.of_nat (sg_num_segments st) <=? seg_id then Err (Fail SummaryOutOfRange)
  else if bool_decide (seg_id ∈ sg_mdbx_dirty st) || bool_decide (seg_id ∈ sg_exact_dirty st)
  then Err (Fail SummaryWhileDirty)
  else
    segments ← expect (vec_set (sg_segments st) seg_id None);
    live ← expect (vec_get (sg_live_counts st) seg_id);
    let '(root, evicted) :=
      if live =? 0 then (Some (zero_seg_root_for (sg_effective_log_seg st)), sg_evicted st ∖ {[seg_id]})
      else (parent_root, {[seg_id]} ∪ sg_evicted st) in
    seg_roots ← expect (vec_set (sg_seg_roots st) seg_id root);
    let dirty := match root with
                 | Some _ => sg_dirty st ∖ {[seg_id]}
                 | None => {[seg_id]} ∪ sg_dirty st
                 end in
    expect (record_leaf (set_dirty dirty (set_seg_roots seg_roots (set_evicted evicted
      (set_segments segments st)))) seg_id root).

Definition install_evicted_segment_summary (st : SegmentedFriState) (seg_id live_count : Z)
    (segment_root : list Z) : result (fault SummaryError) SegmentedFriState :=
  if (Z.of_nat (sg_num_segments st) <=? seg_id) || (live_count =? 0) then Err (Fail InvalidSummary)
  else
    segments ← expect (vec_set (sg_segments st) seg_id None);
    live_counts ← expect (vec_set (sg_live_counts st) seg_id live_count);
    seg_roots ← expect (vec_set (sg_seg_roots st) seg_id (Some segment_root));
    expect (record_leaf (set_evicted ({[seg_id]} ∪ sg_evicted st) (set_seg_roots seg_roots
      (set_live_counts live_counts (set_segments segments st)))) seg_id (Some segment_root)).

Definition install_evicted_exact_summary (st : SegmentedFriState) (seg_id live_count : Z) :
    result (fault SummaryError) SegmentedFriState :=
  if (Z.of_nat (sg_num_segments st) <=? seg_id) || (live_count =? 0) then Err (Fail InvalidSummary)
  else
    segments ← expect (vec_set (sg_segments st) seg_id None);
    live_counts ← expect (vec_set (sg_live_counts st) seg_id live_count);
    seg_roots ← expect (vec_set (sg_seg_roots st) seg_id None);
    Ok (set_tree_dirty true (set_dirty ({[seg_id]} ∪ sg_dirty st)
      (set_evicted ({[seg_id]} ∪ sg_evicted st) (set_seg_roots seg_roots
        (set_live_counts live_counts (set_segments segments st)))))).

Definition finish_evicted_exact_summaries (st : SegmentedFriState) : SegmentedFriState :=
  set_exact_dirty ∅ (set_mdbx_dirty ∅ st).

Definition finish_evicted_segment_summaries (st : SegmentedFriState) : SegmentedFriState :=
  set_exact_dirty ∅ (set_mdbx_dirty ∅ (set_dirty ∅ (flush_tree st))).

(** ** Resizing *)

Inductive StateResizeError :=
  | RE_InvalidTarget (current target : nat)
  | RE_EvictedUpperSegment (seg_id : Z)
  | RE_NonEmptyUpperHalf (seg_id : Z).

(** [Vec::resize] to a larger length. *)
Definition vec_resize {A} (n : nat) (x : A) (l : list A) : list A :=
  take n l ++ replicate (n - length l) x.

Definition extend_zero (extra : nat) (cols : SegmentColumns) : SegmentColumns :=
  mkSegmentColumns (sc_values cols ++ replicate extra 0) (sc_owners_hi cols ++ replicate extra 0)
    (sc_owners_lo cols ++ replicate extra 0).

(** The [debug_assert] on the new root is not part of a release build. *)
Definition expand (st : SegmentedFriState) : option SegmentedFriState :=
  let log_slots := S (sg_log_slots st) in
  if decide (log_slots ≤ LOG_SEGMENT_SIZE)%nat then
    entry ← vec_get (sg_segments st) 0;
    segments ← vec_set (sg_segments st) 0 (extend_zero (2 ^ (log_slots - 1)) <$> entry);
    seg_roots ← vec_set (sg_seg_roots st) 0 None;
    flush_all_dirty (mkSegmentedFriState log_slots log_slots (sg_num_segments st)
      segments seg_roots (sg_live_counts st) (sg_tree st) true
      ({[0]} ∪ sg_dirty st) (sg_mdbx_dirty st) ({[0]} ∪ sg_exact_dirty st)
      (sg_evicted st) (sg_dirty_tree_leaves st))
  else
    let num_segments := (sg_num_segments st * 2)%nat in
    let zero_leaf := zero_seg_root_for (sg_effective_log_seg st) in
    let seg_roots := vec_resize num_segments (Some zero_leaf) (sg_seg_roots st) in
    Some (mkSegmentedFriState log_slots (sg_effective_log_seg st) num_segments
      (vec_resize num_segments None (sg_segments st)) seg_roots
      (vec_resize num_segments 0 (sg_live_counts st))
      (segment_tree (default zero_leaf <$> seg_roots)) false
      (sg_dirty st) (sg_mdbx_dirty st) (sg_exact_dirty st) (sg_evicted st)
      (sg_dirty_tree_leaves st)).

(** The ids of a dirty or evicted set that survive a truncation. *)
Definition retain_below (n : nat) (s : gset Z) : gset Z := filter (λ id, id < Z.of_nat n) s.

(** The check of the discarded upper segments; [resident] adds the check that
    no column buffer is left there. *)
Definition check_upper_segments (resident : bool) (st : SegmentedFriState) (from : nat) :
    result (fault StateResizeError) unit :=
  try_for_each (λ id,
      let seg_id := wrap 16 (Z.of_nat id) in
      if bool_decide (seg_id ∈ sg_evicted st) then Err (Fail (RE_EvictedUpperSegment seg_id))
      else
        live ← expect (sg_live_counts st !! id);
        let loaded := match sg_segments st !! id with Some (Some _) => true | _ => false end in
        if negb (live =? 0) || (resident && loaded)
        then Err (Fail (RE_NonEmptyUpperHalf seg_id)) else Ok tt)
    (seq from (sg_num_segments st - from)).

Definition truncate_segments (n : nat) (st : SegmentedFriState) : SegmentedFriState :=
  mkSegmentedFriState (sg_log_slots st) (sg_effective_log_seg st) n
    (take n (sg_segments st)) (take n (sg_seg_roots st)) (take n (sg_live_counts st))
    (sg_tree st) (sg_tree_dirty st)
    (retain_below n (sg_dirty st)) (retain_below n (sg_mdbx_dirty st))
    (retain_below n (sg_exact_dirty st)) (retain_below n (sg_evicted st))
    (retain_below n (sg_dirty_tree_leaves st)).

(** One iteration of the shrink loop below the segment size. *)
Definition shrink_single (st : SegmentedFriState) : result (fault StateResizeError) SegmentedFriState :=
  if bool_decide (0 ∈ sg_evicted st) then Err (Fail (RE_EvictedUpperSegment 0))
  else
    let keep := (2 ^ (sg_log_slots st - 1))%nat in
    entry ← expect (vec_get (sg_segments st) 0);
    st ← match entry with
         | None => Ok st
         | Some cols =>
             if negb (forallb (Z.eqb 0) (drop keep (sc_values cols))
                      && forallb (Z.eqb 0) (drop keep (sc_owners_hi cols))
                      && forallb (Z.eqb 0) (drop keep (sc_owners_lo cols)))
             then Err (Fail (RE_NonEmptyUpperHalf 0))
             else
               let cols := mkSegmentColumns (take keep (sc_values cols))
                             (take keep (sc_owners_hi cols)) (take keep (sc_owners_lo cols)) in
               let live := count_live cols in
               live_counts ← expect (vec_set (sg_live_counts st) 0 live);
               segments ← expect (vec_set (sg_segments st) 0
                                    (if live =? 0 then None else Some cols));
               Ok (set_segments segments (set_live_counts live_counts st))
         end;
    seg_roots ← expect (vec_set (sg_seg_roots st) 0 None);
    let log_slots := (sg_log_slots st - 1)%nat in
    expect (flush_all_dirty (mkSegmentedFriState log_slots log_slots (sg_num_segments st)
      (sg_segments st) seg_roots (sg_live_counts st) (sg_tree st) true
      ({[0]} ∪ sg_dirty st) ({[0]} ∪ sg_mdbx_dirty st) ({[0]} ∪ sg_exact_dirty st)
      (sg_evicted st) (sg_dirty_tree_leaves st))).

(** One iteration above the segment size: the upper half of the segments goes. *)
Definition shrink_multi (st : SegmentedFriState) : result (fault StateResizeError) SegmentedFriState :=
  let n := (sg_num_segments st / 2)%nat in
  _ ← check_upper_segments false st n;
  let zero_leaf := zero_seg_root_for (sg_effective_log_seg st) in
  let st := truncate_segments n (set_log_slots (sg_log_slots st - 1) st) in
  Ok (set_tree_dirty false (set_tree (segment_tree (default zero_leaf <$> sg_seg_roots st)) st)).

Fixpoint shrink_loop (steps : nat) (st : SegmentedFriState) :
    result (fault StateResizeError) SegmentedFriState :=
  match steps with
  | O => Ok st
  | S steps =>
      st ← expect (flush_all_dirty st);
      st ← (if decide (sg_log_slots st ≤ LOG_SEGMENT_SIZE)%nat then shrink_single st
            else shrink_multi st);
      shrink_loop steps st
  end.

(** Every iteration lowers [log_slots] by one, so the loop runs
    [log_slots - target] times. *)
Definition shrink_to_log_slots (st : SegmentedFriState) (target : nat) :
    result (fault StateResizeError) SegmentedFriState :=
  if bool_decide (target < 1)%nat || bool_decide (sg_log_slots st < target)%nat
  then Err (Fail (RE_InvalidTarget (sg_log_slots st) target))
  else shrink_loop (sg_log_slots st - target) st.

(** Leaves whose root is known, in an array without inner nodes. *)
Definition leaves_only (st : SegmentedFriState) : list (list Z) :=
  replicate (sg_num_segments st) zero_digest
  ++ (default zero_digest <$> sg_seg_roots st) ++ [zero_digest].

Definition shrink_exact_metadata_to_log_slots (st : SegmentedFriState) (target : nat) :
    result (fault StateResizeError) SegmentedFriState :=
  if decide (target = sg_log_slots st) then Ok st
  else if bool_decide (sg_effective_log_seg st ≠ LOG_SEGMENT_SIZE)
       || bool_decide (target < LOG_SEGMENT_SIZE)%nat || bool_decide (sg_log_slots st < target)%nat
  then Err (Fail (RE_InvalidTarget (sg_log_slots st) target))
  else
    let n := (2 ^ (target - LOG_SEGMENT_SIZE))%nat in
    _ ← check_upper_segments true st n;
    let st := truncate_segments n (set_log_slots target st) in
    Ok (set_dirty_tree_leaves ∅ (set_tree_dirty true (set_tree (leaves_only st) st))).

Definition expand_exact_metadata_for_replay (st : SegmentedFriState) :
    result StateResizeError SegmentedFriState :=
  let error := RE_InvalidTarget (sg_log_slots st) (S (sg_log_slots st)) in
  if bool_decide (sg_effective_log_seg st ≠ LOG_SEGMENT_SIZE)
     || bool_decide (32 ≤ sg_log_slots st)%nat
  then Err error
  else
    let n := (sg_num_segments st * 2)%nat in
    let st := mkSegmentedFriState (S (sg_log_slots st)) (sg_effective_log_seg st) n
      (vec_resize n None (sg_segments st)) (vec_resize n None (sg_seg_roots st))
      (vec_resize n 0 (sg_live_counts st)) (sg_tree st) (sg_tree_dirty st)
      (sg_dirty st) (sg_mdbx_dirty st) (sg_exact_dirty st) (sg_evicted st)
      (sg_dirty_tree_leaves st) in
    Ok (set_dirty_tree_leaves ∅ (set_tree_dirty true (set_tree (leaves_only st) st))).

End state.
