(* ===== verification/SlotInv.v ===== *)
(** * Invariants of the segmented slot state

    A well-formed state represents a finite map from slot index to live slot
    value: outside the evicted segments the vectors agree with the map, and
    the live counters of all segments count it.  Every operation of
    [SlotState.v] preserves this. *)

From S2P Require Import Prelude Machine Poseidon TxTypes Merkle SlotState.

(** ** The abstract state *)

Definition m_get (m : gmap Z SlotValue) (i : Z) : SlotValue := default EMPTY (m !! i).

Definition m_set (m : gmap Z SlotValue) (i : Z) (v : SlotValue) : gmap Z SlotValue :=
  if decide (v = EMPTY) then delete i m else <[i := v]> m.

Definition m_update (m : gmap Z SlotValue) (deltas : list (Z * SlotValue)) : gmap Z SlotValue :=
  foldl (λ m d, m_set m (fst d) (snd d)) m deltas.

(** The live slots of segment [s], for segments of [2^eff] slots. *)
Definition segment_of (eff : nat) (i : Z) : Z := i / 2 ^ Z.of_nat eff.

Definition m_segment (eff : nat) (m : gmap Z SlotValue) (s : Z) : gmap Z SlotValue :=
  filter (λ p, segment_of eff (fst p) = s) m.

Definition live_in_segment (eff : nat) (m : gmap Z SlotValue) (s : Z) : Z :=
  Z.of_nat (size (m_segment eff m s)).

Record cols_wf (eff : nat) (cols : SegmentColumns) : Prop := {
  cw_values : length (sc_values cols) = (2 ^ eff)%nat;
  cw_owners_hi : length (sc_owners_hi cols) = (2 ^ eff)%nat;
  cw_owners_lo : length (sc_owners_lo cols) = (2 ^ eff)%nat;
}.

Definition ids_below (n : nat) (s : gset Z) : Prop := ∀ x, x ∈ s → 0 ≤ x < Z.of_nat n.

Record state_wf (st : SegmentedFriState) : Prop := {
  wf_log : (1 ≤ sg_log_slots st ≤ 32)%nat;
  wf_eff : sg_effective_log_seg st = Nat.min (sg_log_slots st) LOG_SEGMENT_SIZE;
  wf_num : sg_num_segments st = (2 ^ (sg_log_slots st - sg_effective_log_seg st))%nat;
  wf_segments : length (sg_segments st) = sg_num_segments st;
  wf_roots : length (sg_seg_roots st) = sg_num_segments st;
  wf_live : length (sg_live_counts st) = sg_num_segments st;
  wf_tree : length (sg_tree st) = (2 * sg_num_segments st + 1)%nat;
  wf_cols : ∀ s cols, sg_segments st !! s = Some (Some cols) → cols_wf (sg_effective_log_seg st) cols;
  wf_dirty : ids_below (sg_num_segments st) (sg_dirty st);
  wf_mdbx : ids_below (sg_num_segments st) (sg_mdbx_dirty st);
  wf_exact : ids_below (sg_num_segments st) (sg_exact_dirty st);
  wf_evicted : ids_below (sg_num_segments st) (sg_evicted st);
  wf_leaves : ids_below (sg_num_segments st) (sg_dirty_tree_leaves st);
  wf_resident : ∀ x, x ∈ sg_evicted st → sg_segments st !! Z.to_nat x = Some None;
}.

Record represents (st : SegmentedFriState) (m : gmap Z SlotValue) : Prop := {
  rep_dom : ∀ i v, m !! i = Some v → 0 ≤ i < num_slots st ∧ v ≠ EMPTY;
  rep_slot : ∀ i, 0 ≤ i < num_slots st →
    segment_of (sg_effective_log_seg st) i ∉ sg_evicted st → slot st i = Some (m_get m i);
  rep_live : ∀ s, 0 ≤ s < Z.of_nat (sg_num_segments st) →
    vec_get (sg_live_counts st) s = Some (live_in_segment (sg_effective_log_seg st) m s);
}.

(** ** Maps *)

Lemma m_get_set m i j v : m_get (m_set m i v) j = if decide (i = j) then v else m_get m j.
Proof.
  unfold m_get, m_set. do 2 case_decide; subst; simplify_map_eq; done.
Qed.

Lemma m_set_live m i v j w :
  (∀ i v, m !! i = Some v → v ≠ EMPTY) → m_set m i v !! j = Some w → w ≠ EMPTY.
Proof.
  intros Hm. unfold m_set. case_decide.
  - intros [_ Hl]%lookup_delete_Some. by eapply Hm.
  - intros [[_ <-]|[_ Hl]]%lookup_insert_Some; [done|by eapply Hm].
Qed.

Lemma m_get_None m i : (∀ i v, m !! i = Some v → v ≠ EMPTY) → m_get m i = EMPTY ↔ m !! i = None.
Proof.
  intros Hm. unfold m_get. destruct (m !! i) as [v|] eqn:Hi; cbn; [|done].
  split; [by intros ->; destruct (Hm _ _ Hi)|done].
Qed.

Lemma m_get_is_empty m i :
  (∀ i v, m !! i = Some v → v ≠ EMPTY) →
  is_empty (m_get m i) = bool_decide (m !! i = None).
Proof. intros Hm. unfold is_empty. apply bool_decide_ext. by apply m_get_None. Qed.

Lemma m_set_get m i : (∀ i v, m !! i = Some v → v ≠ EMPTY) → m_set m i (m_get m i) = m.
Proof.
  intros Hm. unfold m_set. case_decide as H.
  - apply m_get_None in H; [|done]. by apply delete_id.
  - apply insert_id. unfold m_get in *. by destruct (m !! i).
Qed.

(** ** Live counters *)

Section segments.
  Context (eff : nat) (m : gmap Z SlotValue) (Hm : ∀ i v, m !! i = Some v → v ≠ EMPTY).

Lemma m_segment_set i v s :
  m_segment eff (m_set m i v) s
  = if decide (segment_of eff i = s) then m_set (m_segment eff m s) i v else m_segment eff m s.
Proof.
  unfold m_segment, m_set. case_decide as Hv.
  - rewrite map_filter_delete. case_decide as Hs; [done|].
    apply delete_id, map_lookup_filter_None. right. intros x _. done.
  - case_decide as Hs.
    + by rewrite map_filter_insert_True.
    + rewrite map_filter_insert_False by done. apply map_eq. intros j.
      destruct (decide (i = j)) as [->|Hij].
      * symmetry. rewrite !map_lookup_filter. rewrite lookup_delete_eq.
        destruct (m !! j); cbn; [|done]. rewrite option_guard_False by done. done.
      * rewrite !map_lookup_filter. by rewrite lookup_delete_ne.
Qed.

Lemma live_in_segment_set i v s :
  live_in_segment eff (m_set m i v) s
  = live_in_segment eff m s
    + (if decide (segment_of eff i = s) then
         (if is_empty v then 0 else 1) - (if is_empty (m_get m i) then 0 else 1)
       else 0).
Proof.
  unfold live_in_segment. rewrite m_segment_set. case_decide as Hs; [|lia]. unfold m_set.
  assert (Hl : m_segment eff m s !! i = m !! i).
  { unfold m_segment. rewrite map_lookup_filter. destruct (m !! i); cbn; [|done].
    by rewrite option_guard_True. }
  rewrite m_get_is_empty by done. unfold is_empty. case_decide as Hv.
  - rewrite bool_decide_true by done. rewrite map_size_delete, Hl.
    destruct (m !! i) eqn:Hi; [|rewrite bool_decide_true by done; unfold id; lia].
    rewrite bool_decide_false by done.
    assert (size (m_segment eff m s) ≠ 0%nat); [|lia].
    intros Hz%map_size_empty_inv. rewrite Hz, lookup_empty in Hl. congruence.
  - rewrite bool_decide_false by done. rewrite map_size_insert, Hl.
    destruct (m !! i); [rewrite bool_decide_false by done|rewrite bool_decide_true by done]; unfold id; lia.
Qed.

Lemma live_in_segment_zero s i :
  live_in_segment eff m s = 0 → segment_of eff i = s → m_get m i = EMPTY.
Proof.
  unfold live_in_segment. intros Hz Hs.
  assert (m_segment eff m s = ∅) as He by (apply map_size_empty_inv; lia).
  assert (m_segment eff m s !! i = m !! i) as Hl.
  { unfold m_segment. rewrite map_lookup_filter. destruct (m !! i); cbn; [|done].
    by rewrite option_guard_True. }
  unfold m_get. rewrite <- Hl, He, lookup_empty. done.
Qed.

(** A segment holds at most [2^eff] live slots. *)
Lemma live_in_segment_bound s : 0 ≤ live_in_segment eff m s ≤ 2 ^ Z.of_nat eff.
Proof.
  unfold live_in_segment. split; [lia|]. rewrite <- size_dom.
  assert (Hsub : dom (m_segment eff m s) ⊆ list_to_set (C := gset Z)
            (seqZ (s * 2 ^ Z.of_nat eff) (2 ^ Z.of_nat eff))).
  { intros i Hi. apply elem_of_dom in Hi as [v Hv]. apply map_lookup_filter_Some in Hv as [_ Hv].
    cbn in Hv. unfold segment_of in Hv. apply elem_of_list_to_set, elem_of_seqZ.
    pose proof (Z.div_mod i (2 ^ Z.of_nat eff)). pose proof (Z.mod_pos_bound i (2 ^ Z.of_nat eff)). lia. }
  apply subseteq_size in Hsub. rewrite size_list_to_set in Hsub by apply NoDup_seqZ.
  rewrite length_seqZ in Hsub. lia.
Qed.

End segments.

(** ** Columns *)

Lemma cols_get_in_range eff cols loc :
  cols_wf eff cols → 0 ≤ loc < 2 ^ Z.of_nat eff → ∃ v, cols_get cols loc = Some v.
Proof.
  intros [Hv Hh Hl] Hloc. assert (Hpow : Z.of_nat (2 ^ eff) = 2 ^ Z.of_nat eff) by (rewrite Nat2Z.inj_pow; done).
  destruct (vec_get_in_range (sc_values cols) loc) as [v Ev]; [lia|].
  destruct (vec_get_in_range (sc_owners_hi cols) loc) as [h Eh]; [lia|].
  destruct (vec_get_in_range (sc_owners_lo cols) loc) as [l El]; [lia|].
  unfold cols_get. rewrite Ev, Eh, El. cbn. eauto.
Qed.

Lemma cols_set_in_range eff cols loc v :
  cols_wf eff cols → 0 ≤ loc < 2 ^ Z.of_nat eff →
  ∃ cols', cols_set cols loc v = Some cols' ∧ cols_wf eff cols' ∧
    ∀ l, 0 ≤ l → cols_get cols' l = if decide (loc = l) then Some v else cols_get cols l.
Proof.
  intros [Hv Hh Hl] Hloc. assert (Hpow : Z.of_nat (2 ^ eff) = 2 ^ Z.of_nat eff) by (rewrite Nat2Z.inj_pow; done).
  unfold cols_set. rewrite !vec_set_in_range by lia. cbn. eexists. split; [done|]. split.
  { constructor; cbn; rewrite length_insert; done. }
  intros l Hl0. unfold cols_get. cbn. rewrite !vec_get_insert by lia.
  case_decide; [|done]. by destruct v.
Qed.

Lemma new_zero_wf eff : cols_wf eff (new_zero (2 ^ eff)).
Proof. constructor; cbn; by rewrite length_replicate. Qed.

Lemma vec_get_replicate {A} n (x : A) i : 0 ≤ i < Z.of_nat n → vec_get (replicate n x) i = Some x.
Proof. intros Hi. apply vec_get_Some. split; [lia|]. apply lookup_replicate. split; [done|lia]. Qed.

Lemma cols_get_new_zero eff l : 0 ≤ l < 2 ^ Z.of_nat eff → cols_get (new_zero (2 ^ eff)) l = Some EMPTY.
Proof.
  intros Hl. assert (Hpow : Z.of_nat (2 ^ eff) = 2 ^ Z.of_nat eff) by (rewrite Nat2Z.inj_pow; done).
  unfold cols_get, new_zero. cbn. rewrite !vec_get_replicate by lia. done.
Qed.

(** ** Geometry *)

Section geometry.
  Context (st : SegmentedFriState) (Hwf : state_wf st).

Lemma num_slots_eq : num_slots st = 2 ^ Z.of_nat (sg_log_slots st).
Proof. unfold num_slots. rewrite Z.shiftl_mul_pow2 by lia. lia. Qed.

Lemma eff_bounds : (1 ≤ sg_effective_log_seg st ≤ 16 ∧ sg_effective_log_seg st ≤ sg_log_slots st)%nat.
Proof. rewrite (wf_eff _ Hwf). unfold LOG_SEGMENT_SIZE. pose proof (wf_log _ Hwf). lia. Qed.

Lemma num_slots_segments :
  num_slots st = Z.of_nat (sg_num_segments st) * 2 ^ Z.of_nat (sg_effective_log_seg st).
Proof.
  rewrite num_slots_eq, (wf_num _ Hwf), Nat2Z.inj_pow, <- Z.pow_add_r by lia.
  f_equal. pose proof eff_bounds. lia.
Qed.

Lemma num_segments_bound : 1 ≤ Z.of_nat (sg_num_segments st) ≤ 2 ^ 16.
Proof.
  rewrite (wf_num _ Hwf), Nat2Z.inj_pow. pose proof eff_bounds. pose proof (wf_log _ Hwf).
  rewrite (wf_eff _ Hwf). unfold LOG_SEGMENT_SIZE. split.
  - change 1 with (2 ^ 0). apply Z.pow_le_mono_r; lia.
  - apply Z.pow_le_mono_r; lia.
Qed.

Lemma segment_of_bound idx :
  0 ≤ idx < num_slots st →
  0 ≤ segment_of (sg_effective_log_seg st) idx < Z.of_nat (sg_num_segments st).
Proof.
  intros Hi. rewrite num_slots_segments in Hi. unfold segment_of. split.
  - apply Z.div_pos; lia.
  - apply Z.div_lt_upper_bound; lia.
Qed.

Lemma seg_id_of_eq idx :
  0 ≤ idx < num_slots st → seg_id_of st idx = segment_of (sg_effective_log_seg st) idx.
Proof.
  intros Hi. unfold seg_id_of. rewrite Z.shiftr_div_pow2 by lia. apply wrap_small.
  pose proof (segment_of_bound _ Hi). pose proof num_segments_bound. unfold segment_of in *. lia.
Qed.

Lemma local_idx_of_eq idx :
  0 ≤ idx → local_idx_of st idx = idx mod 2 ^ Z.of_nat (sg_effective_log_seg st).
Proof.
  intros Hi. unfold local_idx_of. rewrite Z.shiftl_mul_pow2, Z.mul_1_l by lia.
  replace (2 ^ Z.of_nat (sg_effective_log_seg st) - 1)
    with (Z.ones (Z.of_nat (sg_effective_log_seg st))) by (rewrite Z.ones_equiv; lia).
  rewrite Z.land_ones by lia. apply wrap_small. pose proof eff_bounds.
  pose proof (Z.mod_pos_bound idx (2 ^ Z.of_nat (sg_effective_log_seg st)) ltac:(lia)).
  assert (2 ^ Z.of_nat (sg_effective_log_seg st) ≤ 2 ^ 16) by (apply Z.pow_le_mono_r; lia). lia.
Qed.

Lemma local_bound idx :
  0 ≤ idx mod 2 ^ Z.of_nat (sg_effective_log_seg st) < 2 ^ Z.of_nat (sg_effective_log_seg st).
Proof. apply Z.mod_pos_bound. lia. Qed.

(** The slot read, in terms of segment and local index. *)
Lemma slot_eq idx :
  0 ≤ idx < num_slots st →
  slot st idx =
    seg ← vec_get (sg_segments st) (segment_of (sg_effective_log_seg st) idx);
    match seg with
    | None => Some EMPTY
    | Some cols => cols_get cols (idx mod 2 ^ Z.of_nat (sg_effective_log_seg st))
    end.
Proof. intros Hi. unfold slot. rewrite seg_id_of_eq, local_idx_of_eq by lia. done. Qed.

(** Reads in range never panic. *)
Lemma slot_in_range idx : 0 ≤ idx < num_slots st → ∃ v, slot st idx = Some v.
Proof.
  intros Hi. rewrite slot_eq by done. pose proof (segment_of_bound _ Hi).
  destruct (vec_get_in_range (sg_segments st) (segment_of (sg_effective_log_seg st) idx)) as [seg Hseg].
  { rewrite (wf_segments _ Hwf). done. }
  rewrite Hseg. cbn. destruct seg as [cols|]; [|eauto].
  apply vec_get_Some in Hseg as [_ Hseg]. eapply cols_get_in_range; [by eapply wf_cols|apply local_bound].
Qed.

End geometry.

(** ** Writing one slot *)

Record same_geometry (st st' : SegmentedFriState) : Prop := {
  sg_same_log : sg_log_slots st' = sg_log_slots st;
  sg_same_eff : sg_effective_log_seg st' = sg_effective_log_seg st;
  sg_same_num : sg_num_segments st' = sg_num_segments st;
}.

#[global] Instance same_geometry_preorder : PreOrder same_geometry.
Proof. split; [by constructor|]. intros ? ? ? [] []. constructor; congruence. Qed.

Lemma ids_below_insert n s x : 0 ≤ x < Z.of_nat n → ids_below n s → ids_below n ({[x]} ∪ s).
Proof. intros Hx Hs y [->%elem_of_singleton|Hy]%elem_of_union; [done|by apply Hs]. Qed.

Lemma segment_local_eq eff i j :
  segment_of eff i = segment_of eff j → i mod 2 ^ Z.of_nat eff = j mod 2 ^ Z.of_nat eff → i = j.
Proof.
  unfold segment_of. intros Hs Hl. rewrite (Z.div_mod i (2 ^ Z.of_nat eff)), (Z.div_mod j (2 ^ Z.of_nat eff)) by lia.
  lia.
Qed.

(** What [apply_one_delta] does to the segment it writes. *)
Definition write_segment (st : SegmentedFriState) (seg : Z) (entry : option SegmentColumns) (live : Z) :
    SegmentedFriState :=
  mkSegmentedFriState (sg_log_slots st) (sg_effective_log_seg st) (sg_num_segments st)
    (<[Z.to_nat seg := entry]> (sg_segments st)) (<[Z.to_nat seg := None]> (sg_seg_roots st))
    (<[Z.to_nat seg := live]> (sg_live_counts st)) (sg_tree st) true
    ({[seg]} ∪ sg_dirty st) ({[seg]} ∪ sg_mdbx_dirty st) ({[seg]} ∪ sg_exact_dirty st)
    (sg_evicted st) (sg_dirty_tree_leaves st).

Lemma write_segment_wf st seg entry live :
  state_wf st → 0 ≤ seg < Z.of_nat (sg_num_segments st) → seg ∉ sg_evicted st →
  (∀ cols, entry = Some cols → cols_wf (sg_effective_log_seg st) cols) →
  state_wf (write_segment st seg entry live).
Proof.
  intros [] Hseg Hev Hcols. constructor; cbn; try done; rewrite ?length_insert; auto using ids_below_insert.
  - intros s cols [(_ & -> & _)|[_ Hs]]%list_lookup_insert_Some; [by apply Hcols|by eapply wf_cols0].
  - intros x Hx. rewrite list_lookup_insert_ne; [by apply wf_resident0|].
    intros Heq. apply Hev. assert (x = seg) by (specialize (wf_evicted0 x Hx); lia). by subst.
Qed.

Lemma write_segment_slot st seg entry live i :
  state_wf st → 0 ≤ seg < Z.of_nat (sg_num_segments st) → 0 ≤ i < num_slots st →
  seg ∉ sg_evicted st → (∀ cols, entry = Some cols → cols_wf (sg_effective_log_seg st) cols) →
  slot (write_segment st seg entry live) i =
    if decide (segment_of (sg_effective_log_seg st) i = seg) then
      match entry with
      | None => Some EMPTY
      | Some cols => cols_get cols (i mod 2 ^ Z.of_nat (sg_effective_log_seg st))
      end
    else slot st i.
Proof.
  intros Hwf Hseg Hi Hev Hcols. pose proof (segment_of_bound st Hwf i Hi).
  rewrite (slot_eq _ (write_segment_wf st seg entry live Hwf Hseg Hev Hcols) i Hi), (slot_eq st Hwf i Hi).
  cbn [sg_segments sg_effective_log_seg write_segment].
  rewrite vec_get_insert by (rewrite ?(wf_segments _ Hwf); lia). do 2 case_decide; (done || congruence).
Qed.

(** A write of [v] at [idx] whose new segment holds the written columns, or
    nothing when no live slot is left. *)
Lemma write_segment_represents st m idx v entry cols cols' :
  state_wf st → represents st m → 0 ≤ idx < num_slots st →
  segment_of (sg_effective_log_seg st) idx ∉ sg_evicted st →
  let seg := segment_of (sg_effective_log_seg st) idx in
  let live := live_in_segment (sg_effective_log_seg st) (m_set m idx v) seg in
  (∀ i, 0 ≤ i < num_slots st → segment_of (sg_effective_log_seg st) i = seg →
     cols_get cols (i mod 2 ^ Z.of_nat (sg_effective_log_seg st)) = Some (m_get m i)) →
  cols_wf (sg_effective_log_seg st) cols' →
  (∀ l, 0 ≤ l → cols_get cols' l =
     if decide (idx mod 2 ^ Z.of_nat (sg_effective_log_seg st) = l) then Some v else cols_get cols l) →
  entry = (if live =? 0 then None else Some cols') →
  represents (write_segment st seg entry live) (m_set m idx v).
Proof.
  intros Hwf Hrep Hidx Hev seg live Hcols Hwf' Hget Hentry.
  assert (Hm : ∀ i v, m !! i = Some v → v ≠ EMPTY) by (intros ? ? ?%(rep_dom _ _ Hrep); tauto).
  assert (Hm' : ∀ i w, m_set m idx v !! i = Some w → w ≠ EMPTY) by (intros ? ?; by apply m_set_live).
  pose proof (segment_of_bound st Hwf idx Hidx) as Hseg. fold seg in Hseg, Hev.
  assert (He : ∀ c, entry = Some c → cols_wf (sg_effective_log_seg st) c).
  { intros c ->. destruct (live =? 0); simplify_eq; done. }
  constructor.
  - intros i w Hi. split; [|by eapply Hm']. change (num_slots (write_segment st seg entry live)) with (num_slots st).
    unfold m_set in Hi. case_decide.
    + apply lookup_delete_Some in Hi as [_ Hi]. by apply (rep_dom _ _ Hrep) in Hi as [? _].
    + apply lookup_insert_Some in Hi as [[<- _]|[_ Hi]]; [done|].
      by apply (rep_dom _ _ Hrep) in Hi as [? _].
  - change (num_slots (write_segment st seg entry live)) with (num_slots st).
    cbn [sg_effective_log_seg sg_evicted write_segment]. intros i Hi Hiev.
    rewrite write_segment_slot by done. rewrite m_get_set. case_decide as Hsi.
    + destruct (Z.eqb_spec live 0) as [Hz|Hz]; subst entry.
      * pose proof (live_in_segment_zero _ (m_set m idx v) seg i Hz Hsi) as Hg.
        rewrite m_get_set in Hg. by rewrite Hg.
      * rewrite Hget by apply local_bound. rewrite Hcols by done.
        destruct (decide (idx = i)) as [->|Hne]; [by rewrite decide_True|].
        rewrite decide_False; [done|]. intros Heq. by apply Hne, (segment_local_eq (sg_effective_log_seg st)).
    + rewrite (rep_slot _ _ Hrep) by done. rewrite decide_False; [done|]. by intros ->.
  - cbn [sg_num_segments sg_live_counts sg_effective_log_seg write_segment]. intros s Hs.
    rewrite vec_get_insert by (rewrite ?(wf_live _ Hwf); lia). case_decide as Hss; [by rewrite <- Hss|].
    rewrite (rep_live _ _ Hrep) by done. rewrite live_in_segment_set by done.
    rewrite decide_False by done. f_equal. lia.
Qed.

(** The counter update of the code is the count of the updated map. *)
Lemma live_update st m idx v old :
  state_wf st → represents st m → 0 ≤ idx < num_slots st → old = m_get m idx →
  let seg := segment_of (sg_effective_log_seg st) idx in
  let live := live_in_segment (sg_effective_log_seg st) m seg in
  match is_empty old, is_empty v with
  | true, false => saturating_add 32 live 1
  | false, true => saturating_sub live 1
  | _, _ => live
  end = live_in_segment (sg_effective_log_seg st) (m_set m idx v) seg.
Proof.
  intros Hwf Hrep Hidx -> seg live.
  assert (Hm : ∀ i v, m !! i = Some v → v ≠ EMPTY) by (intros ? ? ?%(rep_dom _ _ Hrep); tauto).
  pose proof (live_in_segment_bound (sg_effective_log_seg st) (m_set m idx v) seg) as Hb.
  pose proof (live_in_segment_bound (sg_effective_log_seg st) m seg) as Hb'.
  rewrite live_in_segment_set, decide_True in * by done. fold live in Hb, Hb' |- *.
  pose proof (eff_bounds st Hwf).
  assert (2 ^ Z.of_nat (sg_effective_log_seg st) ≤ 2 ^ 16) by (apply Z.pow_le_mono_r; lia).
  unfold saturating_add, saturating_sub, uint_max in *.
  destruct (is_empty (m_get m idx)), (is_empty v); lia.
Qed.

Lemma apply_one_delta_represents st m idx v :
  state_wf st → represents st m → 0 ≤ idx < num_slots st →
  segment_of (sg_effective_log_seg st) idx ∉ sg_evicted st →
  ∃ st', apply_one_delta st (idx, v) = Some st' ∧ state_wf st' ∧ represents st' (m_set m idx v)
    ∧ same_geometry st st' ∧ sg_evicted st' = sg_evicted st
    ∧ sg_exact_dirty st ⊆ sg_exact_dirty st'
    ∧ (m_get m idx ≠ v → segment_of (sg_effective_log_seg st) idx ∈ sg_exact_dirty st')
    ∧ (sg_exact_dirty st ## sg_evicted st → sg_exact_dirty st' ## sg_evicted st').
Proof.
  intros Hwf Hrep Hidx Hev. set (seg := segment_of (sg_effective_log_seg st) idx) in *.
  assert (Hm : ∀ i v, m !! i = Some v → v ≠ EMPTY) by (intros ? ? ?%(rep_dom _ _ Hrep); tauto).
  unfold apply_one_delta. rewrite seg_id_of_eq, local_idx_of_eq by (done || lia). fold seg.
  rewrite (rep_slot _ _ Hrep) by done. cbn [mbind option_bind].
  destruct (decide (m_get m idx = v)) as [Heq|Hne].
  { rewrite bool_decide_true by done. exists st. subst v. rewrite m_set_get by done.
    split_and!; [done..|by intros []|done]. }
  rewrite bool_decide_false by done.
  pose proof (segment_of_bound st Hwf idx Hidx) as Hseg. fold seg in Hseg.
  destruct (vec_get_in_range (sg_segments st) seg) as [current Hcur]; [by rewrite (wf_segments _ Hwf)|].
  rewrite Hcur. cbn [mbind option_bind].
  assert (Hread : ∀ i, 0 ≤ i < num_slots st → segment_of (sg_effective_log_seg st) i = seg →
    match current with None => Some EMPTY
    | Some cols => cols_get cols (i mod 2 ^ Z.of_nat (sg_effective_log_seg st)) end = Some (m_get m i)).
  { intros i Hi Hs. rewrite <- (rep_slot _ _ Hrep i Hi) by (rewrite Hs; done).
    rewrite (slot_eq st Hwf i Hi), Hs, Hcur. done. }
  destruct (bool_decide (current = None) && is_empty v) eqn:Hskip.
  { apply andb_true_iff in Hskip as [->%bool_decide_eq_true Hv%bool_decide_eq_true].
    exfalso. apply Hne. specialize (Hread idx Hidx eq_refl). congruence. }
  set (cols := match current with Some cols => cols | None => new_zero (segment_slot_count st) end).
  assert (Hcwf : cols_wf (sg_effective_log_seg st) cols).
  { destruct current as [c|]; [|apply new_zero_wf]. apply vec_get_Some in Hcur as [_ Hcur].
    by eapply wf_cols. }
  assert (Hcols : ∀ i, 0 ≤ i < num_slots st → segment_of (sg_effective_log_seg st) i = seg →
    cols_get cols (i mod 2 ^ Z.of_nat (sg_effective_log_seg st)) = Some (m_get m i)).
  { intros i Hi Hs. rewrite <- (Hread i Hi Hs). subst cols. destruct current; [done|].
    apply cols_get_new_zero, local_bound. }
  replace (match current with Some c => (c, sg_evicted st)
           | None => (new_zero (segment_slot_count st), sg_evicted st ∖ {[seg]}) end)
    with (cols, sg_evicted st) by (subst cols; destruct current; f_equal; set_solver).
  destruct (cols_set_in_range _ cols (idx mod 2 ^ Z.of_nat (sg_effective_log_seg st)) v Hcwf
    (local_bound st idx)) as (cols' & Hset & Hcwf' & Hget).
  rewrite Hset. cbn [mbind option_bind]. rewrite (rep_live _ _ Hrep seg Hseg). cbn [mbind option_bind].
  pose proof (live_update st m idx v (m_get m idx) Hwf Hrep Hidx eq_refl) as Hlive.
  cbn zeta in Hlive. fold seg in Hlive. rewrite Hlive.
  set (live := live_in_segment (sg_effective_log_seg st) (m_set m idx v) seg).
  rewrite (vec_set_in_range (sg_live_counts st)) by (rewrite (wf_live _ Hwf); done). cbn [mbind option_bind].
  replace (if live =? 0 then (None, sg_evicted st ∖ {[seg]}) else (Some cols', sg_evicted st))
    with (if live =? 0 then None else Some cols', sg_evicted st)
    by (destruct (live =? 0); f_equal; set_solver).
  rewrite (vec_set_in_range (sg_segments st)) by (rewrite (wf_segments _ Hwf); done).
  rewrite (vec_set_in_range (sg_seg_roots st)) by (rewrite (wf_roots _ Hwf); done).
  cbn [mbind option_bind]. eexists. split; [reflexivity|].
  fold (write_segment st seg (if live =? 0 then None else Some cols') live).
  split_and!; [|eapply write_segment_represents; try done|by constructor|done|set_solver|set_solver|set_solver].
  apply write_segment_wf; [done..|]. intros c Hc. destruct (live =? 0); simplify_eq; done.
Qed.

(** ** Writing a batch *)

(** The exact-dirty set covers every slot that changed since [m0]. *)
Definition changes_dirty (st : SegmentedFriState) (m0 m : gmap Z SlotValue) : Prop :=
  ∀ i, 0 ≤ i < num_slots st → m_get m i ≠ m_get m0 i →
       segment_of (sg_effective_log_seg st) i ∈ sg_exact_dirty st.

Lemma same_geometry_num_slots st st' : same_geometry st st' → num_slots st' = num_slots st.
Proof. intros []. unfold num_slots. congruence. Qed.

Lemma apply_deltas_represents st m deltas :
  state_wf st → represents st m →
  Forall (λ d, 0 ≤ fst d < num_slots st
    ∧ segment_of (sg_effective_log_seg st) (fst d) ∉ sg_evicted st) deltas →
  ∃ st', try_fold (E := fault StateError) (λ st d, expect (apply_one_delta st d)) st deltas = Ok st'
    ∧ state_wf st' ∧ represents st' (m_update m deltas) ∧ same_geometry st st'
    ∧ sg_evicted st' = sg_evicted st ∧ sg_exact_dirty st ⊆ sg_exact_dirty st'
    ∧ changes_dirty st' m (m_update m deltas)
    ∧ (sg_exact_dirty st ## sg_evicted st → sg_exact_dirty st' ## sg_evicted st').
Proof.
  revert st m. induction deltas as [|[idx v] deltas IH]; intros st m Hwf Hrep Hd.
  { exists st. cbn. split_and!; [done..|by intros i _ []|done]. }
  apply Forall_cons in Hd as [[Hidx Hev] Hd]. cbn [fst] in *.
  destruct (apply_one_delta_represents st m idx v Hwf Hrep Hidx Hev)
    as (st1 & Hst1 & Hwf1 & Hrep1 & Hg1 & Hev1 & Hx1 & Hd1 & Hs1).
  destruct (IH st1 (m_set m idx v) Hwf1 Hrep1) as (st2 & Hst2 & Hwf2 & Hrep2 & Hg2 & Hev2 & Hx2 & Hd2 & Hs2).
  { eapply Forall_impl; [exact Hd|]. intros [i w]. rewrite (same_geometry_num_slots _ _ Hg1), Hev1.
    by rewrite (sg_same_eff _ _ Hg1). }
  exists st2. cbn [try_fold]. rewrite Hst1. cbn [expect ok_or mbind result_bind].
  split_and!; [done..|by etrans|congruence|by etrans| |by auto].
  intros i Hi Hch. change (m_update m ((idx, v) :: deltas)) with (m_update (m_set m idx v) deltas) in Hch.
  destruct (decide (m_get (m_set m idx v) i = m_get m i)) as [Heq|Hne].
  { apply Hd2; [done|congruence]. }
  rewrite m_get_set in Hne. case_decide as Hii; [subst i|done].
  rewrite (sg_same_eff _ _ Hg2), (sg_same_eff _ _ Hg1). apply Hx2, Hd1. congruence.
Qed.

Lemma apply_delta_in_place_represents st m deltas :
  state_wf st → represents st m →
  Forall (λ d, 0 ≤ fst d < num_slots st
    ∧ segment_of (sg_effective_log_seg st) (fst d) ∉ sg_evicted st) deltas →
  ∃ st', apply_delta_in_place st deltas = Ok st'
    ∧ state_wf st' ∧ represents st' (m_update m deltas) ∧ same_geometry st st'
    ∧ sg_evicted st' = sg_evicted st ∧ sg_exact_dirty st ⊆ sg_exact_dirty st'
    ∧ changes_dirty st' m (m_update m deltas)
    ∧ (sg_exact_dirty st ## sg_evicted st → sg_exact_dirty st' ## sg_evicted st').
Proof.
  intros Hwf Hrep Hd. unfold apply_delta_in_place.
  replace (existsb _ deltas) with false; [by apply apply_deltas_represents|].
  symmetry. apply not_true_iff_false. rewrite existsb_exists. intros (d & Hin & Hle).
  rewrite Forall_forall in Hd. apply list_elem_of_In, Hd in Hin. lia.
Qed.

(** ** Operations that leave the slots alone *)

(** The slot contents, residency and persistence marks agree; the commitment
    caches may differ. *)
Record same_slots (st st' : SegmentedFriState) : Prop := {
  ss_geometry : same_geometry st st';
  ss_segments : sg_segments st' = sg_segments st;
  ss_live : sg_live_counts st' = sg_live_counts st;
  ss_mdbx : sg_mdbx_dirty st' = sg_mdbx_dirty st;
  ss_exact : sg_exact_dirty st' = sg_exact_dirty st;
  ss_evicted : sg_evicted st' = sg_evicted st;
}.

#[global] Instance same_slots_preorder : PreOrder same_slots.
Proof.
  split; [by constructor; [reflexivity|..]|]. intros ? ? ? [] [].
  constructor; [by etrans|congruence..].
Qed.

Lemma same_slots_slot st st' i : same_slots st st' → slot st' i = slot st i.
Proof. intros [[_ He _] Hs _ _ _ _]. unfold slot, seg_id_of, local_idx_of. by rewrite Hs, He. Qed.

Lemma same_slots_represents st st' m : same_slots st st' → represents st m → represents st' m.
Proof.
  intros Hss [Hd Hs Hl]. pose proof (same_geometry_num_slots _ _ (ss_geometry _ _ Hss)) as Hn.
  constructor.
  - by rewrite Hn.
  - intros i. rewrite Hn, (same_slots_slot _ _ i Hss). destruct Hss as [[_ -> _] _ _ _ _ ->]. apply Hs.
  - destruct Hss as [[_ -> ->] _ -> _ _ _]. apply Hl.
Qed.

(** ** Flushing *)

Section flush.
  Context {P : Poseidon2bPermutation} {C : SegmentCommitment}.

Lemma flush_segment_inv st seg_id st' :
  state_wf st → 0 ≤ seg_id < Z.of_nat (sg_num_segments st) → flush_segment st seg_id = Some st' →
  state_wf st' ∧ same_slots st st' ∧ sg_dirty st' ⊆ sg_dirty st.
Proof.
  intros Hwf Hid Hf. unfold flush_segment in Hf.
  destruct (vec_get_in_range (sg_seg_roots st) seg_id) as [r Hr]; [by rewrite (wf_roots _ Hwf)|].
  rewrite Hr in Hf. cbn [mbind option_bind] in Hf.
  destruct (bool_decide (seg_id ∉ sg_dirty st) && bool_decide (r ≠ None)); [by simplify_eq|].
  destruct (bool_decide (seg_id ∈ sg_evicted st)); [done|].
  destruct (vec_get_in_range (sg_segments st) seg_id) as [entry He]; [by rewrite (wf_segments _ Hwf)|].
  rewrite He in Hf. cbn [mbind option_bind] in Hf.
  rewrite vec_set_in_range in Hf by (rewrite (wf_roots _ Hwf); done). cbn [mbind option_bind] in Hf.
  assert (Hsub : ∀ s : gset Z, ids_below (sg_num_segments st) s → ids_below (sg_num_segments st) (s ∖ {[seg_id]})).
  { intros s Hs x Hx. apply Hs. set_solver. }
  cbn [sg_num_segments set_dirty set_seg_roots] in Hf.
  destruct (decide (1 < sg_num_segments st)%nat) as [Hn|Hn].
  - rewrite vec_set_in_range in Hf by (cbn; rewrite (wf_tree _ Hwf); lia).
    cbn [mbind option_bind] in Hf. injection Hf as <-.
    destruct Hwf. split_and!; [|by repeat constructor|cbn; set_solver].
    constructor; cbn; rewrite ?length_insert; auto using ids_below_insert.
  - injection Hf as <-. destruct Hwf. split_and!; [|by repeat constructor|cbn; set_solver].
    constructor; cbn; rewrite ?length_insert; auto.
Qed.

Lemma flush_segment_total st seg_id :
  state_wf st → 0 ≤ seg_id < Z.of_nat (sg_num_segments st) → seg_id ∉ sg_evicted st →
  is_Some (flush_segment st seg_id).
Proof.
  intros Hwf Hid Hev. unfold flush_segment.
  destruct (vec_get_in_range (sg_seg_roots st) seg_id) as [r Hr]; [by rewrite (wf_roots _ Hwf)|].
  destruct (vec_get_in_range (sg_segments st) seg_id) as [entry He]; [by rewrite (wf_segments _ Hwf)|].
  rewrite Hr, He. cbn [mbind option_bind].
  destruct (bool_decide (seg_id ∉ sg_dirty st) && bool_decide (r ≠ None)); [done|].
  rewrite bool_decide_false by done.
  rewrite vec_set_in_range by (rewrite (wf_roots _ Hwf); done). cbn [mbind option_bind].
  cbn [sg_num_segments set_dirty set_seg_roots].
  destruct (decide (1 < sg_num_segments st)%nat) as [Hn|Hn]; [|done].
  rewrite vec_set_in_range by (cbn; rewrite (wf_tree _ Hwf); lia). done.
Qed.

Lemma length_foldl_update node tree ks : length (foldl (update_node node) tree ks) = length tree.
Proof.
  revert tree; induction ks as [|k ks IH]; intros tree; cbn; [done|]. by rewrite IH, length_update_node.
Qed.

Lemma flush_tree_ok st : state_wf st → state_wf (flush_tree st) ∧ same_slots st (flush_tree st).
Proof.
  intros Hwf. unfold flush_tree. destruct Hwf.
  assert (ids_below (sg_num_segments st) ∅) by (intros x Hx; set_solver).
  repeat case_match; (split; [|by repeat constructor]); constructor; cbn; auto;
    rewrite ?length_build_parents, ?length_foldl_update; auto.
Qed.

Lemma flush_tree_dirty st : sg_dirty (flush_tree st) = sg_dirty st.
Proof. unfold flush_tree. repeat case_match; done. Qed.

Lemma flush_segments_inv l st st' :
  state_wf st → (∀ x, x ∈ l → 0 ≤ x < Z.of_nat (sg_num_segments st)) →
  foldl (λ o seg_id, st ← o; flush_segment st seg_id) (Some st) l = Some st' →
  state_wf st' ∧ same_slots st st' ∧ sg_dirty st' ⊆ sg_dirty st.
Proof.
  revert st. induction l as [|x l IH]; intros st Hwf Hl Hf; cbn in Hf; [by simplify_eq|].
  destruct (flush_segment st x) as [st1|] eqn:Hx.
  - destruct (flush_segment_inv st x st1 Hwf (Hl x ltac:(by left)) Hx) as (Hwf1 & Hss1 & Hd1).
    destruct (IH st1 Hwf1) as (Hwf2 & Hss2 & Hd2); [|done|split_and!; [done|by etrans|by etrans]].
    intros y Hy. rewrite (sg_same_num _ _ (ss_geometry _ _ Hss1)). apply Hl. by right.
  - exfalso. clear -Hf. induction l as [|y l IH]; cbn in Hf; [done|auto].
Qed.

Lemma flush_all_dirty_inv st st' :
  state_wf st → flush_all_dirty st = Some st' →
  state_wf st' ∧ same_slots st st' ∧ sg_dirty st' ⊆ sg_dirty st.
Proof.
  intros Hwf Hf. unfold flush_all_dirty in Hf.
  destruct (foldl _ _ _) as [st1|] eqn:Hl; [|done]. cbn in Hf. injection Hf as <-.
  apply flush_segments_inv in Hl as (Hwf1 & Hss1 & Hd1);
    [|done|intros x Hx%elem_of_elements; by apply (wf_dirty _ Hwf)].
  destruct (flush_tree_ok st1 Hwf1) as [Hwf2 Hss2]. rewrite flush_tree_dirty.
  split_and!; [done|by etrans|done].
Qed.

(** Flushing succeeds unless a dirty segment is evicted. *)
Lemma flush_all_dirty_total st :
  state_wf st → sg_dirty st ## sg_evicted st → is_Some (flush_all_dirty st).
Proof.
  intros Hwf Hdis. unfold flush_all_dirty.
  assert (Hl : ∀ x, x ∈ elements (sg_dirty st) → 0 ≤ x < Z.of_nat (sg_num_segments st) ∧ x ∉ sg_evicted st).
  { intros x Hx%elem_of_elements. split; [by apply (wf_dirty _ Hwf)|set_solver]. }
  enough (is_Some (foldl (λ o seg_id, st ← o; flush_segment st seg_id) (Some st) (elements (sg_dirty st))))
    as [st' ->] by done.
  clear Hdis. revert Hl. generalize (elements (sg_dirty st)) as l. intros l. revert st Hwf.
  induction l as [|x l IH]; intros st Hwf Hl; cbn; [done|].
  destruct (Hl x ltac:(by left)) as [Hx Hxe].
  destruct (flush_segment_total st x Hwf Hx Hxe) as [st1 Hf]. rewrite Hf.
  destruct (flush_segment_inv st x st1 Hwf Hx Hf) as (Hwf1 & Hss1 & _). apply IH; [done|].
  intros y Hy. rewrite (ss_evicted _ _ Hss1), (sg_same_num _ _ (ss_geometry _ _ Hss1)). apply Hl. by right.
Qed.

(** ** Construction *)

Lemma length_segment_tree leaves : length (segment_tree leaves) = (2 * length leaves + 1)%nat.
Proof.
  unfold segment_tree. rewrite length_build_parents, !length_app, length_replicate. cbn. lia.
Qed.

Lemma live_in_segment_empty eff s : live_in_segment eff ∅ s = 0.
Proof. unfold live_in_segment, m_segment. rewrite map_filter_empty, map_size_empty. done. Qed.

Lemma new_empty_represents log_slots :
  (1 ≤ log_slots ≤ 32)%nat →
  ∃ st, new_empty log_slots = Some st ∧ state_wf st ∧ represents st ∅
    ∧ sg_log_slots st = log_slots ∧ sg_evicted st = ∅ ∧ sg_exact_dirty st = ∅ ∧ sg_dirty st = ∅.
Proof.
  intros Hlog. unfold new_empty. rewrite decide_True by lia. eexists. split; [reflexivity|].
  set (n := if decide (LOG_SEGMENT_SIZE < log_slots)%nat then (2 ^ (log_slots - LOG_SEGMENT_SIZE))%nat else 1%nat).
  assert (Hn : n = (2 ^ (log_slots - Nat.min log_slots LOG_SEGMENT_SIZE))%nat).
  { unfold n. case_decide.
    - by rewrite Nat.min_r by lia.
    - rewrite Nat.min_l by lia. by rewrite Nat.sub_diag. }
  assert (Hwf : state_wf (mkSegmentedFriState log_slots (Nat.min log_slots LOG_SEGMENT_SIZE) n
      (replicate n None) (replicate n (Some (zero_seg_root_for (Nat.min log_slots LOG_SEGMENT_SIZE))))
      (replicate n 0) (segment_tree (replicate n (zero_seg_root_for (Nat.min log_slots LOG_SEGMENT_SIZE))))
      false ∅ ∅ ∅ ∅ ∅)).
  { constructor; cbn; rewrite ?length_segment_tree, ?length_replicate; try done; try (intros x Hx; set_solver).
    intros s cols [? _]%lookup_replicate. done. }
  split_and!; [done| |done..]. constructor.
  - by intros i v ?%lookup_empty_Some.
  - intros i Hi _. rewrite (slot_eq _ Hwf i Hi). cbn. pose proof (segment_of_bound _ Hwf i Hi) as Hb. cbn in Hb.
    rewrite vec_get_replicate by done. done.
  - cbn. intros s Hs. rewrite vec_get_replicate by done. by rewrite live_in_segment_empty.
Qed.

(** ** Growing *)

Lemma vec_get_app_l {A} (l1 l2 : list A) i : i < Z.of_nat (length l1) → vec_get (l1 ++ l2) i = vec_get l1 i.
Proof. intros Hi. unfold vec_get. destruct (Z.ltb_spec i 0); [done|]. apply lookup_app_l. lia. Qed.

Lemma vec_get_app_replicate {A} (l1 : list A) n x i :
  Z.of_nat (length l1) ≤ i < Z.of_nat (length l1 + n) → vec_get (l1 ++ replicate n x) i = Some x.
Proof.
  intros Hi. apply vec_get_Some. split; [lia|]. rewrite lookup_app_r by lia.
  apply lookup_replicate. split; [done|lia].
Qed.

Lemma vec_resize_grow {A} n (x : A) l :
  (length l ≤ n)%nat → vec_resize n x l = l ++ replicate (n - length l) x.
Proof. intros. unfold vec_resize. by rewrite take_ge by lia. Qed.

(** Segments of a map whose indices all lie in [0, bound). *)
Lemma live_in_segment_outside eff m s bound :
  (∀ i v, m !! i = Some v → 0 ≤ i < bound) → bound ≤ s * 2 ^ Z.of_nat eff →
  live_in_segment eff m s = 0.
Proof.
  intros Hd Hs. unfold live_in_segment. rewrite (proj2 (map_size_empty_iff _)); [done|].
  apply map_empty. intros i. apply map_lookup_filter_None. right. intros v Hi Hseg.
  cbn in Hseg. unfold segment_of in Hseg.
  specialize (Hd i v Hi). pose proof (Z.mul_div_le i (2 ^ Z.of_nat eff)). nia.
Qed.

Lemma live_in_segment_all eff m :
  (∀ i v, m !! i = Some v → 0 ≤ i < 2 ^ Z.of_nat eff) → live_in_segment eff m 0 = Z.of_nat (size m).
Proof.
  intros Hd. unfold live_in_segment, m_segment. rewrite map_filter_id; [done|].
  intros i v Hi. cbn. unfold segment_of. apply Z.div_small. by eapply Hd.
Qed.

Lemma m_get_outside m i bound : (∀ i v, m !! i = Some v → 0 ≤ i < bound) → bound ≤ i → m_get m i = EMPTY.
Proof.
  intros Hd Hi. unfold m_get. destruct (m !! i) eqn:Hl; [|done]. apply Hd in Hl. lia.
Qed.

Lemma extend_zero_wf eff cols : cols_wf eff cols → cols_wf (S eff) (extend_zero (2 ^ eff) cols).
Proof. intros []. constructor; cbn; rewrite length_app, length_replicate; lia. Qed.

Lemma cols_get_extend eff cols l :
  cols_wf eff cols → 0 ≤ l < 2 ^ Z.of_nat (S eff) →
  cols_get (extend_zero (2 ^ eff) cols) l = if decide (l < 2 ^ Z.of_nat eff) then cols_get cols l else Some EMPTY.
Proof.
  intros [Hv Hh Hl] Hr. assert (Hpow : Z.of_nat (2 ^ eff) = 2 ^ Z.of_nat eff) by (rewrite Nat2Z.inj_pow; done).
  rewrite Nat2Z.inj_succ, Z.pow_succ_r in Hr by lia. unfold cols_get, extend_zero. cbn. case_decide.
  - by rewrite !vec_get_app_l by lia.
  - by rewrite !vec_get_app_replicate by lia.
Qed.

(** Growth below the segment size: the only segment doubles. *)
Definition grow_single (st : SegmentedFriState) (entry : option SegmentColumns) : SegmentedFriState :=
  mkSegmentedFriState (S (sg_log_slots st)) (S (sg_log_slots st)) (sg_num_segments st)
    (<[Z.to_nat 0 := extend_zero (2 ^ sg_log_slots st) <$> entry]> (sg_segments st))
    (<[Z.to_nat 0 := None]> (sg_seg_roots st)) (sg_live_counts st) (sg_tree st) true
    ({[0]} ∪ sg_dirty st) (sg_mdbx_dirty st) ({[0]} ∪ sg_exact_dirty st)
    (sg_evicted st) (sg_dirty_tree_leaves st).

Section grow_single.
  Context (st : SegmentedFriState) (m : gmap Z SlotValue) (entry : option SegmentColumns)
    (Hwf : state_wf st) (Hrep : represents st m) (Hlog : (sg_log_slots st < LOG_SEGMENT_SIZE)%nat)
    (Hev : 0 ∉ sg_evicted st) (Hentry : vec_get (sg_segments st) 0 = Some entry).

Lemma single_eff : sg_effective_log_seg st = sg_log_slots st.
Proof. rewrite (wf_eff _ Hwf). lia. Qed.

Lemma single_num : sg_num_segments st = 1%nat.
Proof. rewrite (wf_num _ Hwf), single_eff, Nat.sub_diag. done. Qed.

Lemma single_entry_wf cols : entry = Some cols → cols_wf (sg_log_slots st) cols.
Proof.
  intros ->. apply vec_get_Some in Hentry as [_ He]. rewrite <- single_eff. by eapply wf_cols.
Qed.

Lemma grow_single_wf : state_wf (grow_single st entry).
Proof.
  pose proof single_num as Hn. pose proof single_entry_wf as Hcols. pose proof (wf_log _ Hwf).
  unfold LOG_SEGMENT_SIZE in *. destruct Hwf. constructor; cbn [grow_single sg_log_slots
    sg_effective_log_seg sg_num_segments sg_segments sg_seg_roots sg_live_counts sg_tree sg_dirty
    sg_mdbx_dirty sg_exact_dirty sg_evicted sg_dirty_tree_leaves]; rewrite ?length_insert; auto; try lia.
  - unfold LOG_SEGMENT_SIZE. lia.
  - rewrite Nat.sub_diag. done.
  - intros s cols [(_ & Hs & _)|[Hne Hs]]%list_lookup_insert_Some.
    + destruct entry as [c|]; [|done]. cbn in Hs. injection Hs as <-. by apply extend_zero_wf, Hcols.
    + apply lookup_lt_Some in Hs. cbn in Hne. lia.
  - apply ids_below_insert; [lia|done].
  - apply ids_below_insert; [lia|done].
  - intros x Hx. rewrite list_lookup_insert_ne; [by apply wf_resident0|].
    specialize (wf_evicted0 x Hx). intros Heq. apply Hev. assert (x = 0) by lia. by subst.
Qed.

Lemma grow_single_num_slots : num_slots (grow_single st entry) = 2 * num_slots st.
Proof. rewrite !num_slots_eq. cbn [sg_log_slots grow_single]. rewrite Nat2Z.inj_succ, Z.pow_succ_r by lia. done. Qed.

Lemma single_dom i v : m !! i = Some v → 0 ≤ i < 2 ^ Z.of_nat (sg_log_slots st).
Proof. intros Hi. rewrite <- num_slots_eq. by apply (rep_dom _ _ Hrep) in Hi as [? _]. Qed.

Lemma single_slot i :
  0 ≤ i < num_slots st →
  match entry with None => Some EMPTY | Some cols => cols_get cols i end = Some (m_get m i).
Proof.
  intros Hi. pose proof (num_slots_eq st) as Hns.
  assert (Hs0 : segment_of (sg_effective_log_seg st) i = 0).
  { unfold segment_of. rewrite single_eff. apply Z.div_small. lia. }
  rewrite <- (rep_slot _ _ Hrep i Hi) by (rewrite Hs0; done).
  rewrite (slot_eq st Hwf i Hi), Hs0, Hentry, single_eff, Z.mod_small by lia. done.
Qed.

Lemma grow_single_slot i :
  0 ≤ i < num_slots (grow_single st entry) → slot (grow_single st entry) i = Some (m_get m i).
Proof.
  intros Hi. rewrite (slot_eq _ grow_single_wf i Hi). rewrite grow_single_num_slots in Hi.
  pose proof (num_slots_eq st) as Hns. pose proof single_entry_wf as Hc.
  assert (Hr : 0 ≤ i < 2 ^ Z.of_nat (S (sg_log_slots st))).
  { rewrite Nat2Z.inj_succ, Z.pow_succ_r by lia. lia. }
  cbn [grow_single sg_segments sg_effective_log_seg]. unfold segment_of.
  rewrite Z.div_small, Z.mod_small by done.
  rewrite vec_get_insert, decide_True by (rewrite ?(wf_segments _ Hwf), ?single_num; (done || lia)).
  cbn [mbind option_bind]. destruct (decide (i < 2 ^ Z.of_nat (sg_log_slots st))) as [Hlt|Hge].
  - rewrite <- single_slot by lia. destruct entry as [cols|]; [|done]. cbn [fmap option_fmap option_map].
    rewrite cols_get_extend, decide_True by (done || by apply Hc). done.
  - rewrite (m_get_outside m i (2 ^ Z.of_nat (sg_log_slots st))) by (apply single_dom || lia).
    destruct entry as [cols|]; [|done]. cbn [fmap option_fmap option_map].
    rewrite cols_get_extend, decide_False by (done || by apply Hc). done.
Qed.

Lemma grow_single_represents : represents (grow_single st entry) m.
Proof.
  constructor.
  - intros i v Hi. rewrite grow_single_num_slots. apply (rep_dom _ _ Hrep) in Hi as [? ?]. split; [lia|done].
  - intros i Hi _. by apply grow_single_slot.
  - cbn. intros s Hs. rewrite (rep_live _ _ Hrep) by done. rewrite single_num in Hs.
    assert (s = 0) as -> by lia. rewrite single_eff, !live_in_segment_all; [done| |apply single_dom].
    intros i v Hi. apply single_dom in Hi. rewrite Nat2Z.inj_succ, Z.pow_succ_r by lia. lia.
Qed.

End grow_single.

(** Growth by whole segments: the upper half is virtual. *)
Definition grow_multi (st : SegmentedFriState) (seg_roots : list (option (list Z)))
    (tree : list (list Z)) (tree_dirty : bool) (leaves : gset Z) : SegmentedFriState :=
  let n := (sg_num_segments st * 2)%nat in
  mkSegmentedFriState (S (sg_log_slots st)) (sg_effective_log_seg st) n
    (vec_resize n None (sg_segments st)) seg_roots (vec_resize n 0 (sg_live_counts st))
    tree tree_dirty (sg_dirty st) (sg_mdbx_dirty st) (sg_exact_dirty st) (sg_evicted st) leaves.

Section grow_multi.
  Context (st : SegmentedFriState) (m : gmap Z SlotValue)
    (seg_roots : list (option (list Z))) (tree : list (list Z)) (tree_dirty : bool) (leaves : gset Z)
    (Hwf : state_wf st) (Hrep : represents st m) (Hlog : (LOG_SEGMENT_SIZE ≤ sg_log_slots st < 32)%nat)
    (Hroots : length seg_roots = (sg_num_segments st * 2)%nat)
    (Htree : length tree = (2 * (sg_num_segments st * 2) + 1)%nat)
    (Hleaves : leaves ⊆ sg_dirty_tree_leaves st).

Let st' := grow_multi st seg_roots tree tree_dirty leaves.

Lemma grow_multi_wf : state_wf st'.
Proof.
  assert (Hids : ∀ s : gset Z, ids_below (sg_num_segments st) s → ids_below (sg_num_segments st * 2) s).
  { intros s Hs x Hx. specialize (Hs x Hx). lia. }
  assert (He : sg_effective_log_seg st = LOG_SEGMENT_SIZE) by (rewrite (wf_eff _ Hwf); lia).
  unfold st'. destruct Hwf. constructor; cbn [grow_multi sg_log_slots
    sg_effective_log_seg sg_num_segments sg_segments sg_seg_roots sg_live_counts sg_tree sg_dirty
    sg_mdbx_dirty sg_exact_dirty sg_evicted sg_dirty_tree_leaves];
    rewrite ?vec_resize_grow by lia; rewrite ?length_app, ?length_replicate; auto; try lia.
  - rewrite wf_num0, He. replace (S (sg_log_slots st) - LOG_SEGMENT_SIZE)%nat
      with (S (sg_log_slots st - LOG_SEGMENT_SIZE)) by lia. rewrite Nat.pow_succ_r'. lia.
  - intros s cols [Hs|[_ [? _]%lookup_replicate]]%lookup_app_Some; [by eapply wf_cols0|done].
  - intros x Hx. apply (Hids _ wf_leaves0), Hleaves, Hx.
  - intros x Hx. rewrite lookup_app_l; [by apply wf_resident0|]. specialize (wf_evicted0 x Hx). lia.
Qed.

Lemma grow_multi_represents : represents st' m.
Proof.
  pose proof (num_slots_segments st Hwf) as Hns. pose proof (num_slots_segments st' grow_multi_wf) as Hns'.
  change (sg_num_segments st') with (sg_num_segments st * 2)%nat in *.
  change (sg_effective_log_seg st') with (sg_effective_log_seg st) in *. constructor.
  - intros i v Hi. apply (rep_dom _ _ Hrep) in Hi as [? ?]. split; [nia|done].
  - change (sg_effective_log_seg st') with (sg_effective_log_seg st).
    change (sg_evicted st') with (sg_evicted st). intros i Hi Hiev.
    rewrite (slot_eq _ grow_multi_wf i Hi). change (sg_effective_log_seg st') with (sg_effective_log_seg st).
    change (sg_segments st') with (vec_resize (sg_num_segments st * 2) None (sg_segments st)).
    rewrite vec_resize_grow by (rewrite (wf_segments _ Hwf); lia).
    pose proof (segment_of_bound _ grow_multi_wf i Hi) as Hb.
    change (sg_num_segments st') with (sg_num_segments st * 2)%nat in Hb.
    change (sg_effective_log_seg st') with (sg_effective_log_seg st) in Hb.
    destruct (decide (i < num_slots st)) as [Hlt|Hge].
    + rewrite <- (rep_slot _ _ Hrep i), (slot_eq st Hwf i) by (done || lia).
      rewrite vec_get_app_l; [done|]. rewrite (wf_segments _ Hwf).
      pose proof (segment_of_bound st Hwf i ltac:(lia)). lia.
    + rewrite (m_get_outside m i (num_slots st)); [| |lia].
      2:{ intros j v Hj. by apply (rep_dom _ _ Hrep) in Hj as [? _]. }
      rewrite vec_get_app_replicate; [done|]. rewrite (wf_segments _ Hwf). split; [|lia].
      unfold segment_of. apply Z.div_le_lower_bound; lia.
  - cbn. intros s Hs. rewrite vec_resize_grow by (rewrite (wf_live _ Hwf); lia).
    destruct (decide (s < Z.of_nat (sg_num_segments st))) as [Hlt|Hge].
    + rewrite vec_get_app_l by (rewrite (wf_live _ Hwf); lia). apply (rep_live _ _ Hrep). lia.
    + rewrite vec_get_app_replicate by (rewrite (wf_live _ Hwf); lia).
      rewrite (live_in_segment_outside _ m s (num_slots st)); [done| |nia].
      intros j v Hj. by apply (rep_dom _ _ Hrep) in Hj as [? _].
Qed.

End grow_multi.

Lemma expand_represents st m :
  state_wf st → represents st m → (sg_log_slots st < 32)%nat →
  ((sg_log_slots st < LOG_SEGMENT_SIZE)%nat → 0 ∉ sg_evicted st) →
  ∃ st', expand st = Some st' ∧ state_wf st' ∧ represents st' m
    ∧ sg_log_slots st' = S (sg_log_slots st) ∧ sg_evicted st' = sg_evicted st
    ∧ sg_exact_dirty st' = (if decide (sg_log_slots st < LOG_SEGMENT_SIZE)%nat
                            then {[0]} ∪ sg_exact_dirty st else sg_exact_dirty st).
Proof.
  intros Hwf Hrep Hlog Hev. unfold expand.
  destruct (decide (S (sg_log_slots st) ≤ LOG_SEGMENT_SIZE)%nat) as [Hle|Hgt].
  - assert (Hlt : (sg_log_slots st < LOG_SEGMENT_SIZE)%nat) by lia. specialize (Hev Hlt).
    pose proof (single_num st Hwf Hlt) as Hn.
    destruct (vec_get_in_range (sg_segments st) 0) as [entry He]; [rewrite (wf_segments _ Hwf); lia|].
    rewrite He. cbn [mbind option_bind]. rewrite !vec_set_in_range
      by (rewrite ?(wf_segments _ Hwf), ?(wf_roots _ Hwf); lia).
    cbn [mbind option_bind]. replace (S (sg_log_slots st) - 1)%nat with (sg_log_slots st) by lia.
    fold (grow_single st entry).
    pose proof (grow_single_wf st entry Hwf Hlt Hev He) as Hwf1.
    assert (Hdis1 : sg_dirty (grow_single st entry) ## sg_evicted (grow_single st entry)).
    { intros x _ Hx. cbn in Hx. pose proof (wf_evicted _ Hwf x Hx). apply Hev. assert (x = 0) as <- by lia. done. }
    destruct (flush_all_dirty_total _ Hwf1 Hdis1) as [st' Hst'].
    destruct (flush_all_dirty_inv _ _ Hwf1 Hst') as (Hwf' & Hss & Hd). exists st'.
    split_and!; [done..|eapply same_slots_represents; [done|by apply grow_single_represents]|
      by rewrite (sg_same_log _ _ (ss_geometry _ _ Hss))|by rewrite (ss_evicted _ _ Hss)|].
    rewrite decide_True by done. by rewrite (ss_exact _ _ Hss).
  - rewrite decide_False by lia. eexists. split; [reflexivity|].
    match goal with |- state_wf ?x ∧ _ =>
      change x with (grow_multi st (sg_seg_roots x) (sg_tree x) (sg_tree_dirty x) (sg_dirty_tree_leaves x)) end.
    cbn [sg_seg_roots sg_tree sg_tree_dirty sg_dirty_tree_leaves].
    assert (Hr : length (vec_resize (sg_num_segments st * 2)
       (Some (zero_seg_root_for (sg_effective_log_seg st))) (sg_seg_roots st)) = (sg_num_segments st * 2)%nat).
    { rewrite vec_resize_grow, length_app, length_replicate by (rewrite (wf_roots _ Hwf); lia).
      rewrite (wf_roots _ Hwf). lia. }
    split_and!; [apply grow_multi_wf|apply grow_multi_represents|done..];
      (done || lia || rewrite ?length_segment_tree, ?length_fmap, ?Hr; lia).
Qed.

Lemma expand_exact_represents st m :
  state_wf st → represents st m → (LOG_SEGMENT_SIZE ≤ sg_log_slots st < 32)%nat →
  ∃ st', expand_exact_metadata_for_replay st = Ok st' ∧ state_wf st' ∧ represents st' m
    ∧ sg_log_slots st' = S (sg_log_slots st) ∧ sg_evicted st' = sg_evicted st
    ∧ sg_exact_dirty st' = sg_exact_dirty st.
Proof.
  intros Hwf Hrep Hlog. unfold expand_exact_metadata_for_replay.
  assert (He : sg_effective_log_seg st = LOG_SEGMENT_SIZE) by (rewrite (wf_eff _ Hwf); lia).
  rewrite He, bool_decide_false, bool_decide_false by (lia || tauto). cbn [orb]. rewrite <- He.
  eexists. split; [reflexivity|].
  match goal with |- state_wf ?x ∧ _ =>
    change x with (grow_multi st (sg_seg_roots x) (sg_tree x) (sg_tree_dirty x) (sg_dirty_tree_leaves x)) end.
  cbn [sg_seg_roots sg_tree sg_tree_dirty sg_dirty_tree_leaves set_dirty_tree_leaves set_tree_dirty set_tree].
  assert (Hr : length (vec_resize (sg_num_segments st * 2) None (sg_seg_roots st)) = (sg_num_segments st * 2)%nat).
  { rewrite vec_resize_grow, length_app, length_replicate by (rewrite (wf_roots _ Hwf); lia).
    rewrite (wf_roots _ Hwf). lia. }
  split_and!; [apply grow_multi_wf|apply grow_multi_represents|done..]; try (done || lia || set_solver);
    unfold leaves_only; cbn; rewrite !length_app, length_replicate, length_fmap, Hr; cbn; lia.
Qed.

(** ** Counting the live slots of a segment *)

Lemma live_in_segment_count eff m s :
  (∀ i v, m !! i = Some v → v ≠ EMPTY) →
  live_in_segment eff m s =
    Z.of_nat (length (filter (λ v, negb (is_empty v))
      (m_get m <$> seqZ (s * 2 ^ Z.of_nat eff) (2 ^ Z.of_nat eff)))).
Proof.
  intros Hm. rewrite filter_fmap_comm, length_fmap. unfold live_in_segment. f_equal.
  rewrite <- size_dom, <- (size_list_to_set (C := gset Z)) by (apply NoDup_filter, NoDup_seqZ).
  f_equal. apply set_eq. intros i. rewrite elem_of_dom, elem_of_list_to_set, list_elem_of_filter, elem_of_seqZ.
  rewrite m_get_is_empty by done. unfold m_segment, is_Some. setoid_rewrite map_lookup_filter_Some. cbn.
  unfold segment_of. assert (0 < 2 ^ Z.of_nat eff) by lia.
  pose proof (Z.div_mod i (2 ^ Z.of_nat eff) ltac:(lia)). pose proof (Z.mod_pos_bound i (2 ^ Z.of_nat eff) ltac:(lia)).
  split.
  - intros (v & Hv & Hs). rewrite Hv, bool_decide_false by done. split; [done|nia].
  - intros [Hb Hs]. destruct (m !! i) as [v|] eqn:Hi; [|by rewrite bool_decide_true in Hb].
    exists v. split; [done|]. assert (i / 2 ^ Z.of_nat eff = s); [|done].
    symmetry. apply (Z.div_unique i _ s (i - s * 2 ^ Z.of_nat eff)); lia.
Qed.

Lemma cols_slots_lookup eff cols (f : Z → SlotValue) :
  cols_wf eff cols → (∀ l, 0 ≤ l < 2 ^ Z.of_nat eff → cols_get cols l = Some (f l)) →
  cols_slots cols = f <$> seqZ 0 (2 ^ Z.of_nat eff).
Proof.
  intros [Hv Hh Hl] Hf. assert (Hpow : Z.of_nat (2 ^ eff) = 2 ^ Z.of_nat eff) by (rewrite Nat2Z.inj_pow; done).
  apply list_eq. intros i. destruct (decide (i < 2 ^ eff)%nat) as [Hi|Hi].
  - rewrite list_lookup_fmap, lookup_seqZ_lt by lia. cbn [fmap option_fmap option_map].
    rewrite <- Hf by lia. unfold cols_slots, cols_get, vec_get.
    destruct (Z.ltb_spec (0 + Z.of_nat i) 0); [lia|]. replace (Z.to_nat (0 + Z.of_nat i)) with i by lia.
    rewrite !lookup_zip_with. destruct (sc_values cols !! i), (sc_owners_hi cols !! i); done.
  - rewrite !lookup_ge_None_2; [done| |]; [rewrite length_fmap, length_seqZ; lia|].
    unfold cols_slots. rewrite !length_zip_with. lia.
Qed.

Lemma slots_live_eq eff cols m s :
  cols_wf eff cols → (∀ i v, m !! i = Some v → v ≠ EMPTY) →
  (∀ l, 0 ≤ l < 2 ^ Z.of_nat eff → cols_get cols l = Some (m_get m (s * 2 ^ Z.of_nat eff + l))) →
  Z.of_nat (length (filter (λ s, negb (is_empty s)) (cols_slots cols))) = live_in_segment eff m s.
Proof.
  intros Hc Hm Hf. rewrite live_in_segment_count by done.
  rewrite (cols_slots_lookup eff cols (λ l, m_get m (s * 2 ^ Z.of_nat eff + l)) Hc Hf).
  replace ((λ l, m_get m (s * 2 ^ Z.of_nat eff + l)) <$> seqZ 0 (2 ^ Z.of_nat eff))
    with (m_get m <$> seqZ (s * 2 ^ Z.of_nat eff) (2 ^ Z.of_nat eff)); [done|].
  rewrite <- (Z.add_0_r (s * 2 ^ Z.of_nat eff)) at 1. rewrite <- fmap_add_seqZ, <- list_fmap_compose. done.
Qed.

Lemma count_live_eq eff cols m s :
  (eff ≤ 16)%nat → cols_wf eff cols → (∀ i v, m !! i = Some v → v ≠ EMPTY) →
  (∀ l, 0 ≤ l < 2 ^ Z.of_nat eff → cols_get cols l = Some (m_get m (s * 2 ^ Z.of_nat eff + l))) →
  count_live cols = live_in_segment eff m s.
Proof.
  intros He Hc Hm Hf. pose proof (live_in_segment_bound eff m s) as Hb.
  assert (2 ^ Z.of_nat eff ≤ 2 ^ 16) by (apply Z.pow_le_mono_r; lia).
  unfold count_live. rewrite (slots_live_eq eff cols m s) by done. apply wrap_small. lia.
Qed.

(** ** Residency *)

(** The stored columns of segment [s] hold the values of [m]. *)
Definition cols_agree (eff : nat) (m : gmap Z SlotValue) (s : Z) (cols : SegmentColumns) : Prop :=
  cols_wf eff cols ∧
  ∀ l, 0 ≤ l < 2 ^ Z.of_nat eff → cols_get cols l = Some (m_get m (s * 2 ^ Z.of_nat eff + l)).

(** Replacing the entry of one segment and the sets that track it. *)
Definition put_segment (st : SegmentedFriState) (s : Z) (entry : option SegmentColumns)
    (seg_roots : list (option (list Z))) (tree_dirty : bool) (dirty evicted : gset Z) : SegmentedFriState :=
  mkSegmentedFriState (sg_log_slots st) (sg_effective_log_seg st) (sg_num_segments st)
    (<[Z.to_nat s := entry]> (sg_segments st)) seg_roots (sg_live_counts st) (sg_tree st) tree_dirty
    dirty (sg_mdbx_dirty st) (sg_exact_dirty st) evicted (sg_dirty_tree_leaves st).

Section put_segment.
  Context (st : SegmentedFriState) (m : gmap Z SlotValue) (s : Z) (entry : option SegmentColumns)
    (seg_roots : list (option (list Z))) (tree_dirty : bool) (dirty evicted : gset Z)
    (Hwf : state_wf st) (Hrep : represents st m) (Hs : 0 ≤ s < Z.of_nat (sg_num_segments st))
    (Hroots : length seg_roots = sg_num_segments st)
    (Hdirty : dirty ⊆ {[s]} ∪ sg_dirty st) (Hevicted : evicted ⊆ {[s]} ∪ sg_evicted st)
    (Hkeep : sg_evicted st ⊆ {[s]} ∪ evicted)
    (Hentry : ∀ cols, entry = Some cols → cols_wf (sg_effective_log_seg st) cols)
    (Hnone : s ∈ evicted → entry = None)
    (Hagree : s ∉ evicted → match entry with
       | Some cols => cols_agree (sg_effective_log_seg st) m s cols
       | None => live_in_segment (sg_effective_log_seg st) m s = 0
       end).

Let st' := put_segment st s entry seg_roots tree_dirty dirty evicted.

Lemma put_segment_wf : state_wf st'.
Proof.
  assert (Hids : ∀ a b : gset Z, a ⊆ {[s]} ∪ b → ids_below (sg_num_segments st) b →
            ids_below (sg_num_segments st) a).
  { intros a b Hab Hb x Hx. apply Hab in Hx. apply elem_of_union in Hx as [->%elem_of_singleton|Hx]; auto. }
  unfold st'. destruct Hwf. constructor; cbn [put_segment sg_log_slots
    sg_effective_log_seg sg_num_segments sg_segments sg_seg_roots sg_live_counts sg_tree sg_dirty
    sg_mdbx_dirty sg_exact_dirty sg_evicted sg_dirty_tree_leaves]; rewrite ?length_insert; eauto.
  - intros t cols [(_ & Ht & _)|[_ Ht]]%list_lookup_insert_Some; [by apply Hentry|by eapply wf_cols0].
  - intros x Hx. destruct (decide (x = s)) as [->|Hne].
    + rewrite list_lookup_insert_eq by (rewrite wf_segments0; lia). by rewrite Hnone.
    + assert (Hx' : x ∈ sg_evicted st).
      { apply Hevicted, elem_of_union in Hx as [?%elem_of_singleton|?]; done. }
      specialize (wf_evicted0 x Hx').
      rewrite list_lookup_insert_ne by lia. by apply wf_resident0.
Qed.

Lemma put_segment_represents : represents st' m.
Proof.
  destruct Hrep as [Hd Hslot Hlive]. constructor; [exact Hd| |exact Hlive].
  change (num_slots st') with (num_slots st). change (sg_evicted st') with evicted.
  change (sg_effective_log_seg st') with (sg_effective_log_seg st). intros i Hi Hiev.
  rewrite (slot_eq _ put_segment_wf i Hi). change (sg_effective_log_seg st') with (sg_effective_log_seg st).
  change (sg_segments st') with (<[Z.to_nat s := entry]> (sg_segments st)).
  pose proof (segment_of_bound st Hwf i Hi) as Hb.
  rewrite vec_get_insert by (rewrite ?(wf_segments _ Hwf); lia). case_decide as Hsi.
  - subst s. specialize (Hagree Hiev). cbn [mbind option_bind]. destruct entry as [cols|].
    + destruct Hagree as [_ Hget]. rewrite Hget by apply local_bound. unfold segment_of.
      rewrite Z.mul_comm, <- Z.div_mod by lia. done.
    + by rewrite (live_in_segment_zero _ m _ i Hagree eq_refl).
  - rewrite <- (slot_eq st Hwf i Hi). apply Hslot; [done|]. set_solver.
Qed.

Lemma put_segment_ok : state_wf st' ∧ represents st' m.
Proof. split; [apply put_segment_wf|apply put_segment_represents]. Qed.

End put_segment.

Lemma evict_segment_represents st m s :
  state_wf st → represents st m → 0 ≤ s < Z.of_nat (sg_num_segments st) →
  ∃ st', evict_segment st s = Some st' ∧ state_wf st' ∧ represents st' m ∧ same_geometry st st'
    ∧ sg_exact_dirty st' = sg_exact_dirty st ∧ sg_live_counts st' = sg_live_counts st.
Proof.
  intros Hwf Hrep Hs. unfold evict_segment.
  destruct (vec_get_in_range (sg_segments st) s) as [entry He]; [by rewrite (wf_segments _ Hwf)|].
  rewrite He. cbn [mbind option_bind]. destruct entry as [cols|]; [|by exists st; split_and!].
  rewrite vec_set_in_range by (rewrite (wf_segments _ Hwf); done). cbn [mbind option_bind].
  eexists. split; [reflexivity|].
  change (set_evicted _ _) with
    (put_segment st s None (sg_seg_roots st) (sg_tree_dirty st) (sg_dirty st) ({[s]} ∪ sg_evicted st)).
  destruct (put_segment_ok st m s None (sg_seg_roots st) (sg_tree_dirty st) (sg_dirty st)
    ({[s]} ∪ sg_evicted st)) as [Hwf' Hrep'];
    [done|done|done|by apply wf_roots|set_solver|set_solver|set_solver|done|done|set_solver|].
  split_and!; [done|done|by constructor|done..].
Qed.

(** Loading the columns that the evicted segment had restores access to it. *)
Lemma restore_segment_represents st m s cols :
  state_wf st → represents st m → 0 ≤ s < Z.of_nat (sg_num_segments st) →
  cols_agree (sg_effective_log_seg st) m s cols →
  ∃ st', restore_shared_evicted_segment st s cols = Some st' ∧ state_wf st' ∧ represents st' m
    ∧ same_geometry st st' ∧ sg_evicted st' = sg_evicted st ∖ {[s]}
    ∧ sg_exact_dirty st' = sg_exact_dirty st.
Proof.
  intros Hwf Hrep Hs [Hcw Hget]. unfold restore_shared_evicted_segment.
  assert (Hm : ∀ i v, m !! i = Some v → v ≠ EMPTY) by (intros ? ? ?%(rep_dom _ _ Hrep); tauto).
  pose proof (eff_bounds st Hwf) as Heff.
  rewrite (count_live_eq (sg_effective_log_seg st) cols m s) by (done || lia).
  set (live := live_in_segment (sg_effective_log_seg st) m s).
  pose proof (rep_live _ _ Hrep s Hs) as Hlive. fold live in Hlive.
  rewrite !vec_set_in_range by (rewrite ?(wf_live _ Hwf), ?(wf_segments _ Hwf), ?(wf_roots _ Hwf); done).
  cbn [mbind option_bind]. rewrite (list_insert_id (sg_live_counts st)) by (by apply vec_get_Some in Hlive as [_ ?]).
  eexists. split; [reflexivity|].
  change (set_tree_dirty _ _) with
    (put_segment st s (if live =? 0 then None else Some cols) (<[Z.to_nat s := None]> (sg_seg_roots st)) true
      ({[s]} ∪ sg_dirty st) (sg_evicted st ∖ {[s]})).
  assert (He : ∀ c, (if live =? 0 then None else Some cols) = Some c → cols_wf (sg_effective_log_seg st) c).
  { intros c. destruct (live =? 0); [done|]. by intros [= <-]. }
  destruct (put_segment_ok st m s (if live =? 0 then None else Some cols)
    (<[Z.to_nat s := None]> (sg_seg_roots st)) true ({[s]} ∪ sg_dirty st) (sg_evicted st ∖ {[s]}))
    as [Hwf' Hrep']; [done|done|done|by rewrite length_insert; apply wf_roots|set_solver|set_solver| |
      done|set_solver| |].
  - intros x Hx. destruct (decide (x = s)); set_solver.
  - intros _. destruct (Z.eqb_spec live 0); done.
  - split_and!; [done|done|by constructor|done..].
Qed.

(** ** Shrinking *)

Lemma forallb_zero l : forallb (Z.eqb 0) l = true → ∀ i x, l !! i = Some x → x = 0.
Proof.
  intros Hf i x Hx. rewrite forallb_forall in Hf. specialize (Hf x).
  rewrite <- list_elem_of_In in Hf. apply list_elem_of_lookup_2 in Hx. specialize (Hf Hx). lia.
Qed.

Lemma vec_get_take {A} (l : list A) n i : i < Z.of_nat n → vec_get (take n l) i = vec_get l i.
Proof. intros Hi. unfold vec_get. destruct (Z.ltb_spec i 0); [done|]. by rewrite lookup_take_lt by lia. Qed.

Lemma take_cols_agree eff m cols :
  cols_wf (S eff) cols → cols_agree (S eff) m 0 cols →
  cols_agree eff m 0 (mkSegmentColumns (take (2 ^ eff) (sc_values cols))
    (take (2 ^ eff) (sc_owners_hi cols)) (take (2 ^ eff) (sc_owners_lo cols))).
Proof.
  intros [Hv Hh Hl] [_ Hget]. assert (Hpow : Z.of_nat (2 ^ eff) = 2 ^ Z.of_nat eff) by (rewrite Nat2Z.inj_pow; done).
  rewrite Nat.pow_succ_r' in *. split.
  - constructor; cbn; rewrite length_take; lia.
  - intros l Hl'. rewrite Nat2Z.inj_succ, Z.pow_succ_r in Hget by lia. specialize (Hget l ltac:(lia)).
    rewrite Z.mul_0_l in Hget |- *. rewrite <- Hget. unfold cols_get. cbn. rewrite !vec_get_take by lia. done.
Qed.

(** The emptiness test of the discarded half reads three zero columns. *)
Lemma upper_half_empty eff m cols :
  cols_agree (S eff) m 0 cols →
  forallb (Z.eqb 0) (drop (2 ^ eff) (sc_values cols)) = true →
  forallb (Z.eqb 0) (drop (2 ^ eff) (sc_owners_hi cols)) = true →
  forallb (Z.eqb 0) (drop (2 ^ eff) (sc_owners_lo cols)) = true →
  ∀ i, 2 ^ Z.of_nat eff ≤ i < 2 ^ Z.of_nat (S eff) → m_get m i = EMPTY.
Proof.
  intros [[Hv Hh Hl] Hget] Fv Fh Fl i Hi.
  assert (Hpow : Z.of_nat (2 ^ eff) = 2 ^ Z.of_nat eff) by (rewrite Nat2Z.inj_pow; done).
  specialize (Hget i ltac:(lia)). rewrite Z.mul_0_l, Z.add_0_l in Hget.
  unfold cols_get in Hget.
  assert (Hz : ∀ l x, forallb (Z.eqb 0) (drop (2 ^ eff) l) = true → vec_get l i = Some x → x = 0).
  { intros l x Hf Hx. apply vec_get_Some in Hx as [_ Hx].
    apply (forallb_zero _ Hf (Z.to_nat i - 2 ^ eff)). rewrite lookup_drop. rewrite <- Hx. f_equal. lia. }
  destruct (vec_get (sc_values cols) i) eqn:Ev; [|done]. cbn in Hget.
  destruct (vec_get (sc_owners_hi cols) i) eqn:Eh; [|done]. cbn in Hget.
  destruct (vec_get (sc_owners_lo cols) i) eqn:El; [|done]. cbn in Hget. injection Hget as <-.
  rewrite (Hz _ _ Fv Ev), (Hz _ _ Fh Eh), (Hz _ _ Fl El). done.
Qed.

(** The fields of a state that [shrink_single] leaves to the final flush. *)
Definition cut_single (st : SegmentedFriState) (entry : option SegmentColumns) (live : Z) : SegmentedFriState :=
  mkSegmentedFriState (sg_log_slots st - 1) (sg_log_slots st - 1) (sg_num_segments st)
    (<[Z.to_nat 0 := entry]> (sg_segments st)) (<[Z.to_nat 0 := None]> (sg_seg_roots st))
    (<[Z.to_nat 0 := live]> (sg_live_counts st)) (sg_tree st) true
    ({[0]} ∪ sg_dirty st) ({[0]} ∪ sg_mdbx_dirty st) ({[0]} ∪ sg_exact_dirty st)
    (sg_evicted st) (sg_dirty_tree_leaves st).

Section cut_single.
  Context (st : SegmentedFriState) (m : gmap Z SlotValue) (entry : option SegmentColumns) (live : Z)
    (Hwf : state_wf st) (Hrep : represents st m) (Hlog : (2 ≤ sg_log_slots st ≤ LOG_SEGMENT_SIZE)%nat)
    (Hev : 0 ∉ sg_evicted st)
    (Hempty : ∀ i, 2 ^ Z.of_nat (sg_log_slots st - 1) ≤ i < 2 ^ Z.of_nat (sg_log_slots st) → m_get m i = EMPTY)
    (Hentry : match entry with
      | Some cols => cols_agree (sg_log_slots st - 1) m 0 cols
      | None => live_in_segment (sg_log_slots st - 1) m 0 = 0
      end)
    (Hlive : live = live_in_segment (sg_log_slots st - 1) m 0).

Lemma cut_single_num : sg_num_segments st = 1%nat.
Proof. rewrite (wf_num _ Hwf), (wf_eff _ Hwf), Nat.min_l, Nat.sub_diag by lia. done. Qed.

Lemma cut_single_wf : state_wf (cut_single st entry live).
Proof.
  pose proof cut_single_num as Hn. destruct Hwf. constructor; cbn [cut_single sg_log_slots
    sg_effective_log_seg sg_num_segments sg_segments sg_seg_roots sg_live_counts sg_tree sg_dirty
    sg_mdbx_dirty sg_exact_dirty sg_evicted sg_dirty_tree_leaves]; rewrite ?length_insert; auto; try lia.
  - rewrite Nat.sub_diag. done.
  - intros s cols [(_ & Hs & _)|[Hne Hs]]%list_lookup_insert_Some.
    + subst entry. by destruct Hentry.
    + apply lookup_lt_Some in Hs. cbn in Hne. lia.
  - apply ids_below_insert; [lia|done].
  - apply ids_below_insert; [lia|done].
  - apply ids_below_insert; [lia|done].
  - intros x Hx. rewrite list_lookup_insert_ne; [by apply wf_resident0|].
    specialize (wf_evicted0 x Hx). intros Heq. apply Hev. assert (x = 0) by lia. by subst.
Qed.

Lemma cut_single_dom i v : m !! i = Some v → 0 ≤ i < 2 ^ Z.of_nat (sg_log_slots st - 1).
Proof.
  intros Hi. pose proof (rep_dom _ _ Hrep i v Hi) as [Hr Hv]. rewrite num_slots_eq in Hr.
  destruct (decide (i < 2 ^ Z.of_nat (sg_log_slots st - 1))); [lia|].
  exfalso. apply Hv. rewrite <- (Hempty i) by lia. unfold m_get. by rewrite Hi.
Qed.

Lemma cut_single_represents : represents (cut_single st entry live) m.
Proof.
  pose proof cut_single_num as Hn. constructor.
  - intros i v Hi. split; [rewrite num_slots_eq; by eapply cut_single_dom|by apply (rep_dom _ _ Hrep) in Hi as [_ ?]].
  - intros i Hi _. rewrite (slot_eq _ cut_single_wf i Hi). rewrite num_slots_eq in Hi. cbn [cut_single sg_log_slots
      sg_effective_log_seg sg_segments] in *. unfold segment_of. rewrite Z.div_small, Z.mod_small by done.
    rewrite vec_get_insert, decide_True by (rewrite ?(wf_segments _ Hwf); (done || lia)).
    cbn [mbind option_bind]. destruct entry as [cols|].
    + destruct Hentry as [_ Hget]. by rewrite Hget.
    + rewrite (live_in_segment_zero _ m 0 i Hentry); [done|]. unfold segment_of. by apply Z.div_small.
  - cbn. intros s Hs. rewrite Hn in Hs. assert (s = 0) as -> by lia. subst live.
    change 0%nat with (Z.to_nat 0). rewrite vec_get_insert, decide_True by (rewrite ?(wf_live _ Hwf); (done || lia)).
    done.
Qed.

End cut_single.

Lemma live_in_segment_none eff m s :
  (∀ i, segment_of eff i = s → m_get m i = EMPTY) → (∀ i v, m !! i = Some v → v ≠ EMPTY) →
  live_in_segment eff m s = 0.
Proof.
  intros He Hm. unfold live_in_segment. rewrite (proj2 (map_size_empty_iff _)); [done|].
  apply map_empty. intros i. apply map_lookup_filter_None. right. intros v Hi Hs. cbn in Hs.
  apply (Hm _ _ Hi). rewrite <- (He i Hs). unfold m_get. by rewrite Hi.
Qed.

(** The part of [shrink_single] before the final flush. *)
Definition shrink_cut (st : SegmentedFriState) (entry : option SegmentColumns) :
    result (fault StateResizeError) SegmentedFriState :=
  let keep := (2 ^ (sg_log_slots st - 1))%nat in
  match entry with
  | None => Ok st
  | Some cols =>
      if negb (forallb (Z.eqb 0) (drop keep (sc_values cols))
               && forallb (Z.eqb 0) (drop keep (sc_owners_hi cols))
               && forallb (Z.eqb 0) (drop keep (sc_owners_lo cols)))
      then Err (Fail (RE_NonEmptyUpperHalf 0))
      else
        let cols := mkSegmentColumns (take keep (sc_values cols))
                      (take keep (sc_owners_hi cols)) (take keep (sc_owners_lo cols)) in
        let live := count_live cols in
        live_counts ← expect (vec_set (sg_live_counts st) 0 live);
        segments ← expect (vec_set (sg_segments st) 0 (if live =? 0 then None else Some cols));
        Ok (set_segments segments (set_live_counts live_counts st))
  end.

Section shrink_single.
  Context (st : SegmentedFriState) (m : gmap Z SlotValue) (entry : option SegmentColumns) (k : nat)
    (Hwf : state_wf st) (Hrep : represents st m) (Hk : (1 ≤ k)%nat)
    (Hlog : sg_log_slots st = S k) (Hle : (S k ≤ LOG_SEGMENT_SIZE)%nat)
    (Hev : 0 ∉ sg_evicted st) (Hentry : vec_get (sg_segments st) 0 = Some entry).

Lemma shrink_eff : sg_effective_log_seg st = S k.
Proof. rewrite (wf_eff _ Hwf). lia. Qed.

Lemma shrink_read i : 0 ≤ i < 2 ^ Z.of_nat (S k) →
  match entry with None => Some EMPTY | Some cols => cols_get cols i end = Some (m_get m i).
Proof.
  intros Hi. assert (Hi' : 0 ≤ i < num_slots st) by (rewrite num_slots_eq, Hlog; done).
  rewrite <- (rep_slot _ _ Hrep i Hi') by (unfold segment_of; rewrite shrink_eff, Z.div_small; done).
  rewrite (slot_eq st Hwf i Hi'). unfold segment_of.
  rewrite shrink_eff, Z.div_small, Z.mod_small, Hentry by done. done.
Qed.

Lemma shrink_cut_Ok st1 :
  shrink_cut st entry = Ok st1 →
  ∃ e live, state_wf (cut_single st e live) ∧ represents (cut_single st e live) m
    ∧ sg_segments st1 = <[Z.to_nat 0 := e]> (sg_segments st)
    ∧ sg_live_counts st1 = <[Z.to_nat 0 := live]> (sg_live_counts st)
    ∧ st1 = set_segments (sg_segments st1) (set_live_counts (sg_live_counts st1) st).
Proof.
  assert (Hm : ∀ i v, m !! i = Some v → v ≠ EMPTY) by (intros ? ? ?%(rep_dom _ _ Hrep); tauto).
  assert (Hn : sg_num_segments st = 1%nat).
  { rewrite (wf_num _ Hwf), shrink_eff, Hlog, Nat.sub_diag. done. }
  assert (Hk1 : (sg_log_slots st - 1 = k)%nat) by lia.
  pose proof shrink_read as Hread. unfold shrink_cut. rewrite Hk1. intros Hcut.
  assert (Hpow : 2 ^ Z.of_nat (S k) = 2 * 2 ^ Z.of_nat k) by (rewrite Nat2Z.inj_succ, Z.pow_succ_r by lia; done).
  destruct entry as [cols|].
  - apply if_err_Ok in Hcut as [Hup Hcut]. apply negb_false_iff, andb_true_iff in Hup as [Hup Fl].
    apply andb_true_iff in Hup as [Fv Fh].
    assert (Hag : cols_agree (S k) m 0 cols).
    { split; [|intros l Hl; rewrite Z.mul_0_l, Z.add_0_l; by apply Hread].
      rewrite <- shrink_eff. apply vec_get_Some in Hentry as [_ ?]. by eapply wf_cols. }
    pose proof (upper_half_empty k m cols Hag Fv Fh Fl) as Hup.
    pose proof (take_cols_agree k m cols (proj1 Hag) Hag) as Hcut_agree.
    pose proof (count_live_eq k _ m 0 ltac:(unfold LOG_SEGMENT_SIZE in *; lia)
      (proj1 Hcut_agree) Hm (proj2 Hcut_agree)) as Hcl. rewrite Hcl in Hcut. clear Hcl.
    set (live := live_in_segment k m 0) in *. apply bind_Ok in Hcut as (lc & Hlc & Hcut).
    apply bind_Ok in Hcut as (segs & Hsegs & [= <-]). apply expect_Ok in Hlc, Hsegs.
    rewrite vec_set_in_range in Hlc by (rewrite (wf_live _ Hwf); lia). injection Hlc as <-.
    rewrite vec_set_in_range in Hsegs by (rewrite (wf_segments _ Hwf); lia). injection Hsegs as <-.
    exists (if live =? 0 then None else Some (mkSegmentColumns (take (2 ^ k) (sc_values cols))
      (take (2 ^ k) (sc_owners_hi cols)) (take (2 ^ k) (sc_owners_lo cols)))), live.
    split_and!; [apply (cut_single_wf st m)|apply (cut_single_represents st m)|done..];
      rewrite ?Hk1, ?Hlog; try done; try lia; destruct (Z.eqb_spec live 0); done.
  - injection Hcut as <-. exists None, 0.
    assert (Hz : ∀ i, 0 ≤ i < 2 ^ Z.of_nat (S k) → m_get m i = EMPTY).
    { intros i Hi. specialize (Hread i Hi). by injection Hread. }
    assert (Hl : ∀ e, (e ≤ S k)%nat → live_in_segment e m 0 = 0).
    { intros e Hel. apply live_in_segment_none; [|done]. intros i Hi. apply Hz.
      unfold segment_of in Hi. apply Z.div_small_iff in Hi; [|lia].
      assert (2 ^ Z.of_nat e ≤ 2 ^ Z.of_nat (S k)) by (apply Z.pow_le_mono_r; lia). lia. }
    pose proof (rep_live _ _ Hrep 0 ltac:(lia)) as Hl0. rewrite shrink_eff, Hl in Hl0 by lia.
    apply vec_get_Some in Hl0 as [_ Hl0]. apply vec_get_Some in Hentry as [_ He].
    split_and!; [apply (cut_single_wf st m)|apply (cut_single_represents st m)|..];
      rewrite ?Hk1, ?Hlog, ?list_insert_id by done; try done; try lia; rewrite ?Hl by lia; try done;
      [intros i Hi; apply Hz; lia|by destruct st].
Qed.

End shrink_single.

Lemma shrink_single_represents st m st' :
  state_wf st → represents st m → (2 ≤ sg_log_slots st ≤ LOG_SEGMENT_SIZE)%nat →
  shrink_single st = Ok st' →
  state_wf st' ∧ represents st' m ∧ sg_log_slots st' = (sg_log_slots st - 1)%nat.
Proof.
  intros Hwf Hrep Hlog Hsh. unfold shrink_single in Hsh. apply if_err_Ok in Hsh as [Hev Hsh].
  apply bool_decide_eq_false in Hev. apply bind_Ok in Hsh as (entry & Hentry & Hsh). apply expect_Ok in Hentry.
  apply bind_Ok in Hsh as (st1 & Hst1 & Hsh). apply bind_Ok in Hsh as (roots & Hroots & Hsh).
  apply expect_Ok in Hsh, Hroots. fold (shrink_cut st entry) in Hst1.
  destruct (shrink_cut_Ok st m entry (sg_log_slots st - 1) Hwf Hrep ltac:(lia) ltac:(lia) ltac:(lia) Hev Hentry
    st1 Hst1) as (e & live & Hw & Hr & Hsegs & Hlc & Heq).
  rewrite Heq in Hroots, Hsh. cbn [sg_seg_roots set_segments set_live_counts] in Hroots.
  pose proof (num_segments_bound st Hwf).
  rewrite vec_set_in_range in Hroots by (rewrite (wf_roots _ Hwf); lia). injection Hroots as <-.
  cbn in Hsh. rewrite Hsegs, Hlc in Hsh. fold (cut_single st e live) in Hsh.
  destruct (flush_all_dirty_inv _ _ Hw Hsh) as (Hwf' & Hss & _).
  split_and!; [done|by eapply same_slots_represents|by rewrite (sg_same_log _ _ (ss_geometry _ _ Hss))].
Qed.

(** ** Dropping whole segments *)

Lemma check_upper_segments_Ok resident st from :
  state_wf st → check_upper_segments resident st from = Ok tt →
  ∀ s, Z.of_nat from ≤ s < Z.of_nat (sg_num_segments st) →
    s ∉ sg_evicted st ∧ vec_get (sg_live_counts st) s = Some 0.
Proof.
  intros Hwf Hc s Hs. unfold check_upper_segments in Hc. rewrite try_for_each_Ok, Forall_forall in Hc.
  specialize (Hc (Z.to_nat s)). cbv beta in Hc. rewrite elem_of_seq in Hc. specialize (Hc ltac:(lia)).
  pose proof (num_segments_bound st Hwf). rewrite Z2Nat.id, wrap_small in Hc by lia. cbn zeta in Hc.
  apply if_err_Ok in Hc as [Hev Hc]. apply bool_decide_eq_false in Hev. split; [done|].
  apply bind_Ok in Hc as (live & Hl & Hc). apply expect_Ok in Hl. apply if_err_Ok in Hc as [Hz _].
  apply orb_false_iff in Hz as [Hz _]. apply vec_get_Some. split; [lia|]. rewrite Hl. f_equal. lia.
Qed.

Lemma retain_below_ids n k s : ids_below k s → ids_below n (retain_below n s).
Proof. intros Hs x Hx. unfold retain_below in Hx. apply elem_of_filter in Hx as [? Hx]. specialize (Hs x Hx). lia. Qed.

Definition cut_multi (st : SegmentedFriState) (log n : nat) (tree : list (list Z)) (tree_dirty : bool)
    (leaves : gset Z) : SegmentedFriState :=
  set_dirty_tree_leaves leaves (set_tree_dirty tree_dirty (set_tree tree
    (truncate_segments n (set_log_slots log st)))).

Section cut_multi.
  Context (st : SegmentedFriState) (m : gmap Z SlotValue) (log n : nat) (tree : list (list Z))
    (tree_dirty : bool) (leaves : gset Z)
    (Hwf : state_wf st) (Hrep : represents st m)
    (Hlog : (LOG_SEGMENT_SIZE ≤ log ≤ sg_log_slots st)%nat) (Hn : n = (2 ^ (log - LOG_SEGMENT_SIZE))%nat)
    (Htree : length tree = (2 * n + 1)%nat) (Hleaves : ids_below n leaves)
    (Hupper : ∀ s, Z.of_nat n ≤ s < Z.of_nat (sg_num_segments st) →
       s ∉ sg_evicted st ∧ vec_get (sg_live_counts st) s = Some 0).

Let st' := cut_multi st log n tree tree_dirty leaves.

Lemma cut_multi_eff : sg_effective_log_seg st = LOG_SEGMENT_SIZE.
Proof. rewrite (wf_eff _ Hwf). lia. Qed.

Lemma cut_multi_le : (n ≤ sg_num_segments st)%nat.
Proof. rewrite (wf_num _ Hwf), cut_multi_eff, Hn. apply Nat.pow_le_mono_r; lia. Qed.

Lemma cut_multi_wf : state_wf st'.
Proof.
  pose proof cut_multi_eff as He. pose proof cut_multi_le as Hl. pose proof (retain_below_ids n (sg_num_segments st)) as Hr.
  unfold st'. destruct Hwf. constructor; cbn [cut_multi set_dirty_tree_leaves set_tree_dirty set_tree
    truncate_segments set_log_slots sg_log_slots sg_effective_log_seg sg_num_segments sg_segments
    sg_seg_roots sg_live_counts sg_tree sg_dirty sg_mdbx_dirty sg_exact_dirty sg_evicted
    sg_dirty_tree_leaves]; rewrite ?length_take; auto; try lia.
  - unfold LOG_SEGMENT_SIZE in *. lia.
  - by rewrite He.
  - intros s cols [Hs _]%lookup_take_Some. by eapply wf_cols0.
  - intros x Hx. apply elem_of_filter in Hx as [Hlt Hx]. specialize (wf_evicted0 x Hx).
    rewrite lookup_take_lt by lia. by apply wf_resident0.
Qed.

Lemma cut_multi_dom i v : m !! i = Some v → 0 ≤ i < Z.of_nat n * 2 ^ Z.of_nat LOG_SEGMENT_SIZE.
Proof.
  intros Hi. pose proof (rep_dom _ _ Hrep i v Hi) as [Hr Hv].
  pose proof (segment_of_bound st Hwf i Hr) as Hb.
  destruct (decide (segment_of (sg_effective_log_seg st) i < Z.of_nat n)) as [Hlt|Hge].
  - unfold segment_of in Hlt. rewrite cut_multi_eff in Hlt.
    pose proof (Z.div_mod i (2 ^ Z.of_nat LOG_SEGMENT_SIZE) ltac:(lia)).
    pose proof (Z.mod_pos_bound i (2 ^ Z.of_nat LOG_SEGMENT_SIZE) ltac:(lia)). nia.
  - exfalso. destruct (Hupper (segment_of (sg_effective_log_seg st) i) ltac:(lia)) as [_ Hz].
    rewrite (rep_live _ _ Hrep) in Hz by lia. injection Hz as Hz.
    apply Hv. rewrite <- (live_in_segment_zero _ m _ i Hz eq_refl). unfold m_get. by rewrite Hi.
Qed.

Lemma cut_multi_represents : represents st' m.
Proof.
  pose proof (num_slots_segments st' cut_multi_wf) as Hns. pose proof (num_slots_segments st Hwf) as Hns0.
  change (sg_num_segments st') with n in *. change (sg_effective_log_seg st') with (sg_effective_log_seg st) in *.
  pose proof cut_multi_le as Hle. rewrite cut_multi_eff in *. constructor.
  - intros i v Hi. rewrite Hns. split; [by eapply cut_multi_dom|by apply (rep_dom _ _ Hrep) in Hi as [_ ?]].
  - intros i Hi. change (sg_effective_log_seg st') with (sg_effective_log_seg st). intros Hiev.
    pose proof (segment_of_bound _ cut_multi_wf i Hi) as Hb. change (sg_num_segments st') with n in Hb.
    change (sg_effective_log_seg st') with (sg_effective_log_seg st) in Hb.
    rewrite (slot_eq _ cut_multi_wf i Hi). change (sg_effective_log_seg st') with (sg_effective_log_seg st).
    change (sg_segments st') with (take n (sg_segments st)). rewrite vec_get_take by lia.
    assert (Hi' : 0 ≤ i < num_slots st) by nia.
    rewrite <- (slot_eq st Hwf i Hi'). apply (rep_slot _ _ Hrep i Hi').
    intros Hin. apply Hiev. change (sg_evicted st') with (retain_below n (sg_evicted st)).
    unfold retain_below. apply elem_of_filter. split; [lia|done].
  - change (sg_num_segments st') with n. change (sg_live_counts st') with (take n (sg_live_counts st)).
    change (sg_effective_log_seg st') with (sg_effective_log_seg st).
    intros s Hs. rewrite vec_get_take by lia. apply (rep_live _ _ Hrep). lia.
Qed.

End cut_multi.

Lemma shrink_multi_represents st m st' :
  state_wf st → represents st m → (LOG_SEGMENT_SIZE < sg_log_slots st)%nat →
  shrink_multi st = Ok st' →
  state_wf st' ∧ represents st' m ∧ sg_log_slots st' = (sg_log_slots st - 1)%nat.
Proof.
  intros Hwf Hrep Hlog Hsh. unfold shrink_multi in Hsh. apply bind_Ok in Hsh as ([] & Hup & Hsh).
  pose proof (check_upper_segments_Ok _ _ _ Hwf Hup) as Hupper.
  set (n := (sg_num_segments st / 2)%nat) in *.
  assert (He : sg_effective_log_seg st = LOG_SEGMENT_SIZE) by (rewrite (wf_eff _ Hwf); lia).
  assert (Hn : n = (2 ^ (sg_log_slots st - 1 - LOG_SEGMENT_SIZE))%nat).
  { unfold n. rewrite (wf_num _ Hwf), He.
    replace (sg_log_slots st - LOG_SEGMENT_SIZE)%nat with (S (sg_log_slots st - 1 - LOG_SEGMENT_SIZE)) by lia.
    rewrite Nat.pow_succ_r', Nat.mul_comm, Nat.div_mul; lia. }
  assert (n ≤ sg_num_segments st)%nat by (pose proof (Nat.div_mod_eq (sg_num_segments st) 2); lia).
  clearbody n. injection Hsh as <-. set (t := segment_tree _).
  change (set_tree_dirty false _) with
    (cut_multi st (sg_log_slots st - 1) n t false (retain_below n (sg_dirty_tree_leaves st))).
  assert (Ht : length t = (2 * n + 1)%nat).
  { unfold t. rewrite length_segment_tree, length_fmap. cbn. rewrite length_take, (wf_roots _ Hwf). lia. }
  assert (Hlv : ids_below n (retain_below n (sg_dirty_tree_leaves st))).
  { eapply retain_below_ids, wf_leaves, Hwf. }
  split_and!; [eapply cut_multi_wf|eapply cut_multi_represents|done]; (done || lia).
Qed.

Lemma shrink_loop_represents steps st m st' :
  state_wf st → represents st m → (steps < sg_log_slots st)%nat → shrink_loop steps st = Ok st' →
  state_wf st' ∧ represents st' m ∧ sg_log_slots st' = (sg_log_slots st - steps)%nat.
Proof.
  revert st. induction steps as [|steps IH]; intros st Hwf Hrep Hlt Hs; cbn [shrink_loop] in Hs.
  { injection Hs as <-. split_and!; [done..|lia]. }
  apply bind_Ok in Hs as (st1 & H1 & Hs). apply expect_Ok in H1.
  destruct (flush_all_dirty_inv _ _ Hwf H1) as (Hwf1 & Hss1 & _).
  apply (same_slots_represents _ _ _ Hss1) in Hrep.
  pose proof (sg_same_log _ _ (ss_geometry _ _ Hss1)) as Hl1.
  apply bind_Ok in Hs as (st2 & H2 & Hs).
  assert (state_wf st2 ∧ represents st2 m ∧ sg_log_slots st2 = (sg_log_slots st1 - 1)%nat) as (Hwf2 & Hrep2 & Hl2).
  { case_decide; [apply shrink_single_represents|apply shrink_multi_represents]; (done || lia). }
  destruct (IH st2 Hwf2 Hrep2 ltac:(lia) Hs) as (Hwf3 & Hrep3 & Hl3). split_and!; [done..|lia].
Qed.

Lemma shrink_to_log_slots_represents st m target st' :
  state_wf st → represents st m → shrink_to_log_slots st target = Ok st' →
  state_wf st' ∧ represents st' m ∧ sg_log_slots st' = target.
Proof.
  intros Hwf Hrep Hs. unfold shrink_to_log_slots in Hs. apply if_err_Ok in Hs as [Hb Hs].
  apply orb_false_iff in Hb as [H1%bool_decide_eq_false H2%bool_decide_eq_false].
  apply (shrink_loop_represents _ _ m) in Hs as (? & ? & ?); [|done|done|lia]. split_and!; [done..|lia].
Qed.

Lemma shrink_exact_represents st m target st' :
  state_wf st → represents st m → shrink_exact_metadata_to_log_slots st target = Ok st' →
  state_wf st' ∧ represents st' m ∧ sg_log_slots st' = target.
Proof.
  intros Hwf Hrep Hs. unfold shrink_exact_metadata_to_log_slots in Hs.
  destruct (decide (target = sg_log_slots st)) as [->|Hne]; [by injection Hs as <-|].
  apply if_err_Ok in Hs as [Hb Hs]. apply orb_false_iff in Hb as [Hb H2%bool_decide_eq_false].
  apply orb_false_iff in Hb as [He%bool_decide_eq_false H1%bool_decide_eq_false].
  apply bind_Ok in Hs as ([] & Hup & Hs). pose proof (check_upper_segments_Ok _ _ _ Hwf Hup) as Hupper.
  injection Hs as <-. set (n := (2 ^ (target - LOG_SEGMENT_SIZE))%nat) in *. set (t := leaves_only _).
  change (set_dirty_tree_leaves ∅ _) with (cut_multi st target n t true ∅).
  assert (n ≤ sg_num_segments st)%nat.
  { rewrite (wf_num _ Hwf). apply dec_stable in He. rewrite He. apply Nat.pow_le_mono_r; lia. }
  assert (Ht : length t = (2 * n + 1)%nat).
  { unfold t, leaves_only. rewrite !length_app, length_replicate, length_fmap. cbn.
    rewrite length_take, (wf_roots _ Hwf). lia. }
  assert (ids_below n ∅) by (intros x Hx; set_solver).
  split_and!; [eapply cut_multi_wf|eapply cut_multi_represents|done]; (done || lia).
Qed.

(** ** Bulk eviction *)

Lemma evict_where_represents drop st m :
  state_wf st → represents st m →
  state_wf (evict_where drop st) ∧ represents (evict_where drop st) m
  ∧ same_geometry st (evict_where drop st) ∧ sg_exact_dirty (evict_where drop st) = sg_exact_dirty st.
Proof.
  intros Hwf Hrep. unfold evict_where.
  assert (Hl : ∀ id, id ∈ seq 0 (sg_num_segments st) → (id < sg_num_segments st)%nat).
  { intros id Hid%elem_of_seq. lia. }
  revert Hl. generalize (seq 0 (sg_num_segments st)) as l. intros l. revert st Hwf Hrep.
  induction l as [|id l IH]; intros st Hwf Hrep Hl; [by split_and!|]. cbn [foldl].
  specialize (Hl id ltac:(by left)) as Hid. pose proof (num_segments_bound st Hwf) as Hb.
  set (st1 := match sg_segments st !! id with Some (Some _) => _ | _ => _ end).
  assert (state_wf st1 ∧ represents st1 m ∧ same_geometry st st1 ∧ sg_exact_dirty st1 = sg_exact_dirty st)
    as (Hwf1 & Hrep1 & Hg1 & Hx1).
  { unfold st1. destruct (sg_segments st !! id) as [[cols|]|] eqn:He; [|by split_and!..].
    destruct (drop id); [|by split_and!]. rewrite wrap_small by lia.
    destruct (evict_segment_represents st m (Z.of_nat id) Hwf Hrep ltac:(lia)) as (st' & Hst' & ? & ? & ? & ? & _).
    unfold evict_segment, vec_get in Hst'. destruct (Z.ltb_spec (Z.of_nat id) 0); [lia|].
    rewrite Nat2Z.id, He in Hst'. cbn [mbind option_bind] in Hst'.
    rewrite vec_set_in_range in Hst' by (rewrite (wf_segments _ Hwf); lia). rewrite Nat2Z.id in Hst'.
    injection Hst' as <-. by split_and!. }
  destruct (IH st1 Hwf1 Hrep1) as (? & ? & ? & ?).
  { intros id' Hid'. rewrite (sg_same_num _ _ Hg1). apply Hl. by right. }
  split_and!; [done|done|by etrans|congruence].
Qed.

End flush.
