(* ===== verification/SlotProps.v ===== *)
(** * What the slot state promises

    The properties of [segmented_state.rs] that its clients use: it refines a
    finite map from slot indices to values, resizing loses no slot, and the
    incremental update of the commitment tree agrees with a full rebuild. *)

From Stdlib Require Import Sorting.Sorted.
From S2P Require Import Prelude Machine Params Poseidon TxTypes Merkle SlotState SlotInv.

(** ** Ancestors of the dirty leaves *)

Lemma ancestors_range fuel k j : j ∈ ancestors fuel k → (1 ≤ j)%nat ∧ (2 * j ≤ k)%nat.
Proof.
  revert k; induction fuel as [|fuel IH]; intros k Hj; cbn [ancestors] in Hj; [set_solver|].
  pose proof (Nat.div_mod_eq k 2). pose proof (Nat.mod_upper_bound k 2).
  case_decide; [set_solver|]. case_decide.
  - apply list_elem_of_singleton in Hj as ->. lia.
  - apply elem_of_cons in Hj as [->|Hj]; [lia|]. apply IH in Hj. lia.
Qed.

Lemma ancestors_parent fuel k : (2 ≤ k)%nat → (1 ≤ fuel)%nat → (k / 2)%nat ∈ ancestors fuel k.
Proof.
  intros Hk Hf. destruct fuel as [|fuel]; [lia|]. cbn [ancestors].
  pose proof (Nat.div_le_lower_bound k 2 1). repeat case_decide; [lia|set_solver|set_solver].
Qed.

Lemma ancestors_closed fuel k j :
  (k ≤ fuel)%nat → j ∈ ancestors fuel k → (1 < j)%nat → (j / 2)%nat ∈ ancestors fuel k.
Proof.
  revert k; induction fuel as [|fuel IH]; intros k Hf Hj H1; [set_solver|]. cbn [ancestors] in *.
  pose proof (Nat.div_mod_eq k 2). pose proof (Nat.mod_upper_bound k 2).
  repeat case_decide; [by apply not_elem_of_nil in Hj|apply list_elem_of_singleton in Hj; lia|].
  apply elem_of_cons. right. apply elem_of_cons in Hj as [->|Hj].
  - apply ancestors_parent; lia.
  - apply IH; [lia|done|done].
Qed.

Lemma dedup_elem l x : x ∈ dedup l ↔ x ∈ l.
Proof.
  induction l as [|a [|b l] IH]; [done|done|]. change (dedup (a :: b :: l)) with
    (if decide (a = b) then dedup (b :: l) else a :: dedup (b :: l)).
  case_decide as Hab; rewrite ?elem_of_cons, IH; set_solver.
Qed.

Lemma dedup_sorted l : StronglySorted Nat.le l → StronglySorted Nat.lt (dedup l).
Proof.
  induction l as [|a [|b l] IH]; intros Hs; [constructor|repeat constructor|].
  change (dedup (a :: b :: l)) with (if decide (a = b) then dedup (b :: l) else a :: dedup (b :: l)).
  inversion Hs as [|? ? Hs' Ha]; subst. case_decide as Hab; [auto|]. constructor; [auto|].
  apply Forall_forall. intros x Hx. apply (proj1 (dedup_elem (b :: l) x)) in Hx.
  inversion Hs' as [|? ? _ Hb]; subst. rewrite Forall_forall in Ha, Hb.
  specialize (Ha b ltac:(by left)). apply elem_of_cons in Hx as [->|Hx]; [lia|]. specialize (Hb x Hx). lia.
Qed.

Lemma sorted_reverse l : StronglySorted Nat.lt l → StronglySorted (λ a b, (b < a)%nat) (reverse l).
Proof.
  induction 1 as [|a l Hl IH Ha]; [constructor|]. rewrite reverse_cons.
  apply StronglySorted_app. split_and!; [|done|repeat constructor].
  intros x y Hx ->%list_elem_of_singleton. rewrite Forall_forall in Ha. by apply Ha, elem_of_reverse.
Qed.

Section nodes.
  Context (n : nat) (leaves : gset Z) (Hleaves : ids_below n leaves).

Lemma nodes_to_update_elem k :
  k ∈ nodes_to_update n leaves ↔
  ∃ s, s ∈ leaves ∧ k ∈ ancestors (n + Z.to_nat s) (n + Z.to_nat s).
Proof.
  unfold nodes_to_update. rewrite elem_of_reverse, dedup_elem, (merge_sort_Permutation Nat.le), list_elem_of_bind.
  setoid_rewrite elem_of_elements. naive_solver.
Qed.

Lemma nodes_to_update_sorted : StronglySorted (λ a b, (b < a)%nat) (nodes_to_update n leaves).
Proof. apply sorted_reverse, dedup_sorted, StronglySorted_merge_sort; apply _. Qed.

Lemma nodes_to_update_range : Forall (λ k, (1 ≤ k < n)%nat) (nodes_to_update n leaves).
Proof.
  apply Forall_forall. intros k (s & Hs & Hk)%nodes_to_update_elem.
  apply Hleaves in Hs. apply ancestors_range in Hk. lia.
Qed.

Lemma nodes_to_update_closed k :
  k ∈ nodes_to_update n leaves → (1 < k)%nat → (k / 2)%nat ∈ nodes_to_update n leaves.
Proof.
  rewrite !nodes_to_update_elem. intros (s & Hs & Hk) H1. exists s. split; [done|].
  by apply ancestors_closed.
Qed.

End nodes.

(** An array of nodes is determined by its leaves. *)
Lemma consistent_unique node count t1 t2 :
  length t1 = length t2 → consistent node count t1 → consistent node count t2 →
  (∀ j, j = 0%nat ∨ (count ≤ j)%nat → t1 !!! j = t2 !!! j) → t1 = t2.
Proof.
  intros Hlen H1 H2 Hl. apply list_eq_same_length with (n := length t1); [done|done|].
  enough (Hall : ∀ j, t1 !!! j = t2 !!! j).
  { intros i x y Hi Hx Hy. specialize (Hall i). by rewrite !(list_lookup_total_correct _ _ _ Hx),
      !(list_lookup_total_correct _ _ _ Hy) in Hall. }
  intros j. remember (count - j)%nat as m eqn:Hm. revert j Hm.
  induction m as [m IH] using lt_wf_ind. intros j Hm.
  destruct (decide (j = 0%nat ∨ (count ≤ j)%nat)) as [Hj|Hj]; [by apply Hl|].
  rewrite (H1 j), (H2 j) by (lia || tauto). f_equal; (eapply IH; [|reflexivity]; lia).
Qed.

(** ** Shrinking succeeds whenever the discarded half is empty *)

Section shrink_total.
  Context {P : Poseidon2bPermutation} {C : SegmentCommitment}.

(** Every slot from [2^k] on is empty. *)
Definition empty_from (k : nat) (m : gmap Z SlotValue) : Prop := ∀ i, is_Some (m !! i) → i < 2 ^ Z.of_nat k.

Lemma empty_from_get k m i : empty_from k m → 2 ^ Z.of_nat k ≤ i → m_get m i = EMPTY.
Proof.
  intros He Hi. unfold m_get. destruct (m !! i) as [v|] eqn:Hm; [|done].
  specialize (He i ltac:(eauto)). lia.
Qed.

Lemma upper_half_zero k m cols (f : SegmentColumns → list Z) (g : SlotValue → Z) :
  cols_agree (S k) m 0 cols → empty_from k m → g EMPTY = 0 → length (f cols) = (2 ^ S k)%nat →
  (∀ i v x, cols_get cols i = Some v → vec_get (f cols) i = Some x → x = g v) →
  forallb (Z.eqb 0) (drop (2 ^ k) (f cols)) = true.
Proof.
  intros [Hcw Hget] He Hg Hl Hf. apply forallb_forall. intros x Hx.
  apply list_elem_of_In, list_elem_of_lookup in Hx as (j & Hj). rewrite lookup_drop in Hj.
  pose proof (lookup_lt_Some _ _ _ Hj) as Hlt. rewrite Hl in Hlt.
  assert (Hpow : Z.of_nat (2 ^ k) = 2 ^ Z.of_nat k) by (by rewrite Nat2Z.inj_pow).
  assert (HpowS : Z.of_nat (2 ^ S k) = 2 ^ Z.of_nat (S k)) by (by rewrite Nat2Z.inj_pow).
  specialize (Hget (Z.of_nat (2 ^ k + j)) ltac:(lia)). rewrite Z.mul_0_l, Z.add_0_l in Hget.
  rewrite (empty_from_get k) in Hget by (done || lia).
  rewrite (Hf _ _ x Hget); [by rewrite Hg|]. apply vec_get_Some. rewrite Nat2Z.id. split; [lia|done].
Qed.

Lemma shrink_cut_total st m entry k :
  state_wf st → represents st m → (1 ≤ k)%nat → sg_log_slots st = S k → (S k ≤ LOG_SEGMENT_SIZE)%nat →
  0 ∉ sg_evicted st → vec_get (sg_segments st) 0 = Some entry → empty_from k m →
  ∃ st1, shrink_cut st entry = Ok st1.
Proof.
  intros Hwf Hrep Hk Hlog Hle Hev Hentry He. unfold shrink_cut.
  replace (sg_log_slots st - 1)%nat with k by lia. destruct entry as [cols|]; [|eauto].
  assert (Heff : sg_effective_log_seg st = S k) by (rewrite (wf_eff _ Hwf); lia).
  assert (Hcw : cols_wf (S k) cols).
  { rewrite <- Heff. apply vec_get_Some in Hentry as [_ ?]. by eapply wf_cols. }
  assert (Hag : cols_agree (S k) m 0 cols).
  { split; [done|]. intros l Hl. rewrite Z.mul_0_l, Z.add_0_l.
    apply (shrink_read st m (Some cols) k Hwf Hrep Hk Hlog Hle Hev Hentry l Hl). }
  assert (Hf : ∀ i v, cols_get cols i = Some v → vec_get (sc_values cols) i = Some (sv_value v)
    ∧ vec_get (sc_owners_hi cols) i = Some (sv_owner_hi v) ∧ vec_get (sc_owners_lo cols) i = Some (sv_owner_lo v)).
  { intros i v Hv. unfold cols_get in Hv. destruct (vec_get (sc_values cols) i); [|done]. cbn in Hv.
    destruct (vec_get (sc_owners_hi cols) i); [|done]. cbn in Hv.
    destruct (vec_get (sc_owners_lo cols) i); [|done]. cbn in Hv. by injection Hv as <-. }
  rewrite (upper_half_zero k m cols sc_values sv_value), (upper_half_zero k m cols sc_owners_hi sv_owner_hi),
    (upper_half_zero k m cols sc_owners_lo sv_owner_lo); try done; try apply Hcw;
    try (intros i v x Hv Hx; destruct (Hf i v Hv) as (? & ? & ?); congruence).
  cbn [negb andb]. pose proof (num_segments_bound st Hwf).
  rewrite !vec_set_in_range by (rewrite ?(wf_live _ Hwf), ?(wf_segments _ Hwf); lia). eauto.
Qed.

Lemma shrink_single_total st m k :
  state_wf st → represents st m → (1 ≤ k)%nat → sg_log_slots st = S k → (S k ≤ LOG_SEGMENT_SIZE)%nat →
  sg_evicted st = ∅ → empty_from k m →
  ∃ st', shrink_single st = Ok st' ∧ sg_evicted st' = ∅ ∧ 0 ∈ sg_exact_dirty st'.
Proof.
  intros Hwf Hrep Hk Hlog Hle Hev He. assert (Hev0 : 0 ∉ sg_evicted st) by set_solver.
  unfold shrink_single. rewrite bool_decide_false by done. pose proof (num_segments_bound st Hwf).
  destruct (vec_get_in_range (sg_segments st) 0) as [entry Hentry]; [rewrite (wf_segments _ Hwf); lia|].
  rewrite Hentry. cbn [expect ok_or mbind result_bind]. fold (shrink_cut st entry).
  destruct (shrink_cut_total st m entry k Hwf Hrep Hk Hlog Hle Hev0 Hentry He) as [st1 Hst1].
  destruct (shrink_cut_Ok st m entry k Hwf Hrep Hk Hlog Hle Hev0 Hentry st1 Hst1)
    as (e & live & Hw & Hr & Hsegs & Hlc & Heq).
  rewrite Hst1. cbn [mbind result_bind]. rewrite Heq. cbn [sg_seg_roots set_segments set_live_counts].
  rewrite vec_set_in_range by (rewrite (wf_roots _ Hwf); lia). cbn [expect ok_or mbind result_bind].
  cbn [sg_log_slots sg_num_segments sg_segments sg_live_counts sg_tree sg_dirty sg_mdbx_dirty sg_exact_dirty
    sg_evicted sg_dirty_tree_leaves set_segments set_live_counts]. rewrite Hsegs, Hlc.
  fold (cut_single st e live).
  destruct (flush_all_dirty_total _ Hw) as [st' Hst']; [cbn; rewrite Hev; set_solver|].
  rewrite Hst'. exists st'. split; [done|]. destruct (flush_all_dirty_inv _ _ Hw Hst') as (_ & Hss & _).
  rewrite (ss_evicted _ _ Hss), (ss_exact _ _ Hss). split; [done|]. cbn. set_solver.
Qed.

Lemma check_upper_segments_total resident st m from :
  state_wf st → represents st m → sg_evicted st = ∅ →
  (∀ s, Z.of_nat from ≤ s < Z.of_nat (sg_num_segments st) →
     live_in_segment (sg_effective_log_seg st) m s = 0) →
  resident = false → check_upper_segments resident st from = Ok tt.
Proof.
  intros Hwf Hrep Hev Hz ->. unfold check_upper_segments. apply try_for_each_Ok, Forall_forall.
  intros id Hid%elem_of_seq. pose proof (num_segments_bound st Hwf). cbn zeta.
  rewrite wrap_small by lia. rewrite bool_decide_false by set_solver.
  pose proof (rep_live _ _ Hrep (Z.of_nat id) ltac:(lia)) as Hl. rewrite Hz in Hl by lia.
  apply vec_get_Some in Hl as [_ Hl]. rewrite Nat2Z.id in Hl. rewrite Hl. done.
Qed.

Lemma shrink_multi_total st m k :
  state_wf st → represents st m → sg_log_slots st = S k → (LOG_SEGMENT_SIZE ≤ k)%nat →
  sg_evicted st = ∅ → empty_from k m →
  ∃ st', shrink_multi st = Ok st' ∧ sg_evicted st' = ∅
    ∧ sg_exact_dirty st' = retain_below (sg_num_segments st / 2) (sg_exact_dirty st).
Proof.
  intros Hwf Hrep Hlog Hk Hev He. unfold shrink_multi.
  assert (Heff : sg_effective_log_seg st = LOG_SEGMENT_SIZE) by (rewrite (wf_eff _ Hwf); lia).
  assert (Hn : sg_num_segments st = (2 ^ (k - LOG_SEGMENT_SIZE) * 2)%nat).
  { rewrite (wf_num _ Hwf), Heff, Hlog. replace (S k - LOG_SEGMENT_SIZE)%nat with (S (k - LOG_SEGMENT_SIZE)) by lia.
    rewrite Nat.pow_succ_r'. lia. }
  assert (Hm : ∀ i v, m !! i = Some v → v ≠ EMPTY) by (intros ? ? ?%(rep_dom _ _ Hrep); tauto).
  rewrite (check_upper_segments_total false st m); try done.
  - eexists. split_and!; [reflexivity| |done]. cbn. rewrite Hev. unfold retain_below. apply set_eq. intros x. rewrite elem_of_filter. set_solver.
  - intros s Hs. rewrite Hn, Nat.div_mul in Hs by lia. apply live_in_segment_none; [|done].
    intros i Hi. apply (empty_from_get k); [done|]. unfold segment_of in Hi. rewrite Heff in Hi.
    pose proof (Z.div_mod i (2 ^ Z.of_nat LOG_SEGMENT_SIZE) ltac:(lia)).
    pose proof (Z.mod_pos_bound i (2 ^ Z.of_nat LOG_SEGMENT_SIZE) ltac:(lia)).
    rewrite Nat2Z.inj_pow in Hs. replace (Z.of_nat k) with (Z.of_nat (k - LOG_SEGMENT_SIZE) + Z.of_nat LOG_SEGMENT_SIZE) by lia.
    rewrite Z.pow_add_r by lia. change (Z.of_nat 2) with 2 in Hs. nia.
Qed.

Lemma shrink_loop_total steps st m :
  state_wf st → represents st m → sg_evicted st = ∅ → (steps < sg_log_slots st)%nat →
  empty_from (sg_log_slots st - steps) m → ∃ st', shrink_loop steps st = Ok st'.
Proof.
  revert st. induction steps as [|steps IH]; intros st Hwf Hrep Hev Hlt He; cbn [shrink_loop]; [eauto|].
  destruct (flush_all_dirty_total st Hwf) as [st1 H1]; [set_solver|]. rewrite H1. cbn [expect ok_or mbind result_bind].
  destruct (flush_all_dirty_inv _ _ Hwf H1) as (Hwf1 & Hss1 & _).
  apply (same_slots_represents _ _ _ Hss1) in Hrep as Hrep1.
  pose proof (sg_same_log _ _ (ss_geometry _ _ Hss1)) as Hl1. rewrite <- (ss_evicted _ _ Hss1) in Hev.
  assert (He1 : empty_from (sg_log_slots st - 1) m).
  { intros i Hi. specialize (He i Hi).
    assert (2 ^ Z.of_nat (sg_log_slots st - S steps) ≤ 2 ^ Z.of_nat (sg_log_slots st - 1)); [|lia].
    apply Z.pow_le_mono_r; lia. }
  assert (∃ st2, (if decide (sg_log_slots st1 ≤ LOG_SEGMENT_SIZE)%nat then shrink_single st1 else shrink_multi st1)
      = Ok st2 ∧ sg_evicted st2 = ∅ ∧ state_wf st2 ∧ represents st2 m ∧ sg_log_slots st2 = (sg_log_slots st1 - 1)%nat)
    as (st2 & H2 & Hev2 & Hwf2 & Hrep2 & Hl2).
  { case_decide.
    - destruct (shrink_single_total st1 m (sg_log_slots st - 1)) as (st2 & H2 & Hev2 & _); [done|done|lia|lia|lia|done|done|].
      exists st2. split_and!; [done|done|eapply shrink_single_represents; (done || lia)..].
    - destruct (shrink_multi_total st1 m (sg_log_slots st - 1)) as (st2 & H2 & Hev2 & _); [done|done|lia|lia|done|done|].
      exists st2. split_and!; [done|done|eapply shrink_multi_represents; (done || lia)..]. }
  rewrite H2. cbn [mbind result_bind]. apply IH; [done|done|done|lia|].
  rewrite Hl2, Hl1. by replace (sg_log_slots st - 1 - steps)%nat with (sg_log_slots st - S steps)%nat by lia.
Qed.

End shrink_total.

(** ** Properties *)

(** C12: The segmented slot state refines a finite map from slot indices to live
    values.  A batch of writes whose indices are all in the domain and in
    resident segments succeeds, and afterwards every resident slot reads the
    value of the map with the batch written to it in order, the per-segment
    live counts included; a batch with an index outside the domain changes
    nothing and is refused. *)
Theorem slot_writes_refine_map (st : SegmentedFriState) (m : gmap Z SlotValue)
    (deltas : list (Z * SlotValue)) (Hwf : state_wf st) (Hrep : represents st m)
    (Hindices : Forall (λ d, 0 ≤ fst d) deltas) :
  (Forall (λ d, fst d < num_slots st ∧ segment_of (sg_effective_log_seg st) (fst d) ∉ sg_evicted st) deltas →
   ∃ st', apply_delta_in_place st deltas = Ok st' ∧ state_wf st' ∧ represents st' (m_update m deltas)
     ∧ ∀ i, 0 ≤ i < num_slots st → segment_of (sg_effective_log_seg st) i ∉ sg_evicted st →
         slot st' i = Some (m_get (m_update m deltas) i))
  ∧ (~ Forall (λ d, fst d < num_slots st) deltas →
     apply_delta_in_place st deltas = Err (Fail SlotOutOfRange)).
Proof.
  split; intros Hin.
  - destruct (apply_delta_in_place_represents st m deltas Hwf Hrep) as (st' & Hst & Hwf' & Hrep' & Hg & Hev & _).
    { rewrite Forall_forall in Hin, Hindices. apply Forall_forall. intros d Hd. destruct (Hin d Hd).
      specialize (Hindices d Hd). cbn in *. auto with lia. }
    exists st'. split_and!; [done..|]. intros i Hi Hev'. apply (rep_slot _ _ Hrep').
    + by rewrite (same_geometry_num_slots _ _ Hg).
    + by rewrite (sg_same_eff _ _ Hg), Hev.
  - unfold apply_delta_in_place. replace (existsb _ deltas) with true; [done|].
    symmetry. apply existsb_exists. apply not_Forall_Exists in Hin; [|intros ?; apply _].
    apply Exists_exists in Hin as (d & Hd & Hn). exists d. split; [by apply list_elem_of_In|cbn in Hn; lia].
Qed.

Definition example_write : SlotValue := from_parts 50 7 1 2.

Lemma slot_writes_refine_map_witness :
  ∃ st, new_empty (P := example_permutation) (C := example_commitment) 4 = Some st
    ∧ ∃ st', apply_delta_in_place st [(3, example_write); (5, example_write); (3, EMPTY)] = Ok st'
    ∧ slot st' 5 = Some example_write ∧ slot st' 3 = Some EMPTY.
Proof.
  destruct (new_empty_represents (P := example_permutation) (C := example_commitment) 4)
    as (st & Hst & Hwf & Hrep & Hlog & Hev & _); [lia|].
  exists st. split; [done|]. assert (Hn : num_slots st = 16) by (rewrite num_slots_eq, Hlog; done).
  destruct (slot_writes_refine_map st ∅ [(3, example_write); (5, example_write); (3, EMPTY)] Hwf Hrep)
    as [Hok _].
  { repeat constructor; cbn; lia. }
  destruct Hok as (st' & Hst' & _ & _ & Hread).
  { rewrite Hn, Hev. repeat constructor; cbn; (lia || apply not_elem_of_empty). }
  exists st'. split_and!; [done|..]; (rewrite Hread; [done|lia|rewrite Hev; apply not_elem_of_empty]).
Defined.

(** Resizing the slot domain neither loses nor invents a slot.  Doubling the
    domain keeps every value and the new half reads empty.  Halving it down to
    [2^target] slots succeeds exactly when no live slot lies in the discarded
    part, and then keeps every value; it never silently drops one. *)
Theorem resize_loses_no_slot {P : Poseidon2bPermutation} {C : SegmentCommitment}
    (st : SegmentedFriState) (m : gmap Z SlotValue) (target : nat)
    (Hwf : state_wf st) (Hrep : represents st m) (Hresident : sg_evicted st = ∅)
    (Htarget : (1 ≤ target ≤ sg_log_slots st)%nat) :
  ((sg_log_slots st < 32)%nat →
   ∃ st', expand st = Some st' ∧ state_wf st' ∧ represents st' m ∧ sg_log_slots st' = S (sg_log_slots st))
  ∧ ((∀ i, is_Some (m !! i) → i < 2 ^ Z.of_nat target) ↔
     ∃ st', shrink_to_log_slots st target = Ok st' ∧ state_wf st' ∧ represents st' m ∧ sg_log_slots st' = target).
Proof.
  split.
  { intros Hlog. destruct (expand_represents st m Hwf Hrep Hlog) as (st' & ? & ? & ? & ? & _); [set_solver|eauto]. }
  split.
  - intros He. destruct (shrink_loop_total (sg_log_slots st - target) st m Hwf Hrep Hresident) as [st' Hs]; [lia| |].
    { by replace (sg_log_slots st - (sg_log_slots st - target))%nat with target by lia. }
    exists st'. assert (Hsh : shrink_to_log_slots st target = Ok st').
    { unfold shrink_to_log_slots. by rewrite !bool_decide_false by lia. }
    split; [done|]. by apply (shrink_to_log_slots_represents st m).
  - intros (st' & _ & _ & Hrep' & Hlog) i [v Hi]. apply (rep_dom _ _ Hrep') in Hi as [Hi _].
    rewrite num_slots_eq, Hlog in Hi. lia.
Qed.

Lemma resize_loses_no_slot_witness :
  ∃ st, new_empty (P := example_permutation) (C := example_commitment) 4 = Some st
    ∧ ∃ st', shrink_to_log_slots (P := example_permutation) (C := example_commitment) st 3 = Ok st'
        ∧ sg_log_slots st' = 3%nat.
Proof.
  destruct (new_empty_represents (P := example_permutation) (C := example_commitment) 4)
    as (st & Hst & Hwf & Hrep & Hlog & Hev & _); [lia|].
  exists st. split; [done|].
  destruct (resize_loses_no_slot (P := example_permutation) (C := example_commitment) st ∅ 3 Hwf Hrep Hev)
    as [_ [Hok _]]; [lia|].
  destruct Hok as (st' & Hst' & _ & _ & Hlog'); [|eauto]. intros i [v Hi]. by rewrite lookup_empty in Hi.
Defined.

(** The incremental flush of the segment tree recomputes only the ancestors of
    the leaves that changed, and yields the very array a full bottom-up rebuild
    would: whenever the nodes that are out of date are all ancestors of tracked
    leaves, the two agree node for node, and the root is the Merkle root of the
    leaves. *)
Theorem incremental_flush_is_full_rebuild {P : Poseidon2bPermutation}
    (st : SegmentedFriState) (Hwf : state_wf st)
    (Hmulti : (LOG_SEGMENT_SIZE < sg_log_slots st)%nat) (Hdirty : sg_tree_dirty st = true)
    (Hstale : consistent_except compress
       (λ k, sg_dirty_tree_leaves st = ∅ ∨ ∃ s, s ∈ sg_dirty_tree_leaves st ∧
          k ∈ ancestors (sg_num_segments st + Z.to_nat s) (sg_num_segments st + Z.to_nat s))
       (sg_num_segments st) (sg_tree st)) :
  sg_tree (flush_tree st) = build_parents compress (sg_num_segments st) (sg_tree st)
  ∧ sg_tree (flush_tree st) !!! 1%nat
    = merkle_root compress (sg_log_slots st - LOG_SEGMENT_SIZE)
        (λ i, sg_tree st !!! (sg_num_segments st + Z.to_nat i)%nat) 0.
Proof.
  assert (Hn : sg_num_segments st = (2 ^ (sg_log_slots st - LOG_SEGMENT_SIZE))%nat).
  { rewrite (wf_num _ Hwf), (wf_eff _ Hwf). by rewrite Nat.min_r by lia. }
  assert (H1 : (1 < sg_num_segments st)%nat).
  { rewrite Hn. apply (Nat.pow_lt_mono_r 2 0); lia. }
  assert (Hlen : (sg_num_segments st ≤ length (sg_tree st))%nat) by (rewrite (wf_tree _ Hwf); lia).
  assert (Heq : sg_tree (flush_tree st) = build_parents compress (sg_num_segments st) (sg_tree st)).
  - unfold flush_tree. rewrite Hdirty, bool_decide_false by lia. cbn [negb orb].
    case_bool_decide as Hl; [done|]. cbn [sg_tree set_tree_dirty set_dirty_tree_leaves set_tree].
    set (n := sg_num_segments st) in *. set (leaves := sg_dirty_tree_leaves st) in *.
    pose proof (nodes_to_update_range n leaves (wf_leaves _ Hwf)) as Hrange.
    apply (consistent_unique compress n).
    + by rewrite length_foldl_update, length_build_parents.
    + apply foldl_update_consistent; [done|apply nodes_to_update_sorted|done|apply nodes_to_update_closed|].
      intros k Hk Hns. apply Hstale; [done|]. intros [?|(s & Hs & Hin)]; [done|].
      apply Hns, nodes_to_update_elem. eauto.
    + by apply build_parents_consistent.
    + intros j Hj. rewrite Forall_forall in Hrange.
      rewrite foldl_update_lookup by (intros Hin%Hrange; lia).
      unfold build_parents. rewrite foldl_update_lookup; [done|]. rewrite elem_of_reverse, elem_of_seq. lia.
  - split; [done|]. rewrite Heq. rewrite (consistent_root compress (sg_log_slots st - LOG_SEGMENT_SIZE)).
    + apply merkle_root_ext. intros j Hj. rewrite Hn. apply build_parents_leaf. lia.
    + rewrite <- Hn. by apply build_parents_consistent.
Qed.

Lemma incremental_flush_is_full_rebuild_witness :
  ∃ st0, new_empty (P := example_permutation) (C := example_commitment) 17 = Some st0
    ∧ let st := set_tree_dirty true (set_dirty_tree_leaves {[1]}
                  (set_tree (<[3%nat := zero_digest]> (sg_tree st0)) st0)) in
      sg_tree (flush_tree (P := example_permutation) st)
      = build_parents (compress (P := example_permutation)) 2 (sg_tree st).
Proof.
  destruct (new_empty_represents (P := example_permutation) (C := example_commitment) 17)
    as (st0 & Hst & Hwf & Hrep & Hlog & _); [lia|].
  exists st0. split; [done|]. cbn zeta.
  set (st := set_tree_dirty true _).
  assert (Hn : sg_num_segments st = 2%nat).
  { cbn. rewrite (wf_num _ Hwf), (wf_eff _ Hwf), Hlog. done. }
  assert (Hwf' : state_wf st).
  { destruct Hwf. constructor; cbn; auto; rewrite ?length_insert; auto.
    intros x ->%elem_of_singleton. cbn in Hn. lia. }
  destruct (incremental_flush_is_full_rebuild (P := example_permutation) st Hwf') as [Heq _].
  - cbn. rewrite Hlog. unfold LOG_SEGMENT_SIZE. lia.
  - done.
  - intros k Hk Hns. exfalso. apply Hns. right. exists 1. split; [cbn; set_solver|].
    rewrite Hn in *. assert (k = 1%nat) as -> by lia. by left.
  - by rewrite Hn in Heq.
Defined.
