(* ===== verification/SparseRoot.v ===== *)
(** * Exact sparse Merkle roots

    [jetsam_chain/src/exact_state_hash.rs] (leaf and node hashes, zero
    subtrees), the streaming root builder and the two-level segment root cache
    of [state.rs], and the sparse node cache of [sparse_merkle.rs].  Each of
    the three computes the reference [merkle_root] of the slot vector. *)

From S2P Require Import Prelude Machine Poseidon TxTypes Merkle SlotState.

(** ** Errors *)

Inductive SparseMerkleError :=
  | SM_InvalidDepth (depth : Z)
  | SM_EmptyIndices
  | SM_LeafCountMismatch (indices leaves : nat)
  | SM_UnsortedIndices
  | SM_DuplicateIndex (index : Z)
  | SM_IndexOutOfRange (index depth : Z)
  | SM_ProofLengthMismatch (expected actual : nat)
  | SM_FrontierCapacityExceeded (required capacity : nat)
  | SM_PaddedProofLengthMismatch (expected actual : nat)
  | SM_NonCanonicalPadding (index : nat)
  | SM_CacheDepthMismatch (cache_depth requested_depth : Z).

Inductive ExactStateReadError :=
  | EvictedSegment (seg_id : Z)
  | SegmentRootMismatch (seg_id : Z)
  | SparseMerkle (e : SparseMerkleError).

Inductive ApplyExactTransitionError :=
  | ET_SlotOutOfRange
  | ET_HeaderLogSlotsMismatch
  | ET_ExactStateRead (e : ExactStateReadError)
  | ET_CachedRootMismatch
  | ET_CirculatingSupplyInvariant.

(** ** Machine operations *)

(** [1u64.checked_shl(n)]. *)
Definition checked_shl_1 (n : nat) : option Z :=
  if decide (n < 64)%nat then Some (Z.shiftl 1 (Z.of_nat n)) else None.

(** [u64::trailing_zeros] of a non-zero word. *)
Fixpoint trailing_zeros_pos (p : positive) : nat :=
  match p with
  | xO p => S (trailing_zeros_pos p)
  | _ => 0
  end.

Definition trailing_zeros (x : Z) : nat :=
  match x with
  | Zpos p => trailing_zeros_pos p
  | _ => 64
  end.

(** [63 - x.leading_zeros()] of a non-zero word: the position of its top bit. *)
Definition top_bit (x : Z) : nat := Z.to_nat (Z.log2 x).

Section sparse_root.
  Context {P : Poseidon2bPermutation}.

(** ** Hashes *)

Definition slot_leaf_hash (slot : SlotValue) : list Z :=
  let s := with_iv (capacity_iv TAG_EXSTSLT) in
  let s := absorb s (sv_value slot) in
  let s := absorb_pair s (sv_owner_hi slot) (sv_owner_lo slot) in
  finalize s.

Definition state_node_hash (left_ right_ : list Z) : list Z :=
  compress_with_tag TAG_EXSTNOD left_ right_.

Definition zero_slot_roots (max_depth : nat) : list (list Z) :=
  foldl (λ roots depth, let z := roots !!! depth in roots ++ [state_node_hash z z])
    [slot_leaf_hash EMPTY] (seq 0 max_depth).

(** The last entry, [zero_slot_roots(d)[d]]. *)
Definition zero_slot_root (d : nat) : list Z := zero_slot_roots d !!! d.

(** ** The streaming builder

    The stack is kept with its top first. *)

Record StreamingSparseRoot := mkStreamingSparseRoot {
  sr_depth : nat;
  sr_position : Z;
  sr_zero_roots : list (list Z);
  sr_stack : list (nat * list Z);
}.

Definition StreamingSparseRoot_new (depth : nat) :
    result ApplyExactTransitionError StreamingSparseRoot :=
  _ ← ok_or (checked_shl_1 depth) ET_HeaderLogSlotsMismatch;
  Ok (mkStreamingSparseRoot depth 0 (zero_slot_roots depth) []).

Fixpoint append_block (level : nat) (hash : list Z) (stack : list (nat * list Z)) :
    list (nat * list Z) :=
  match stack with
  | (pending_level, left_) :: rest =>
      if decide (pending_level = level)
      then append_block (S level) (state_node_hash left_ hash) rest
      else (level, hash) :: stack
  | [] => [(level, hash)]
  end.

(** The loop of [fill_zero_gap]; [None] is fuel exhausted, which the fuel given
    below excludes ([fill_loop_total]). *)
Fixpoint fill_loop (fuel : nat) (depth : nat) (zero_roots : list (list Z)) (end_ position : Z)
    (stack : list (nat * list Z)) : option (Z * list (nat * list Z)) :=
  if end_ <=? position then Some (position, stack)
  else
    match fuel with
    | O => None
    | S fuel =>
        let remaining := end_ - position in
        let by_remaining := top_bit remaining in
        let by_alignment :=
          if position =? 0 then depth else Nat.min (trailing_zeros position) depth in
        let level := Nat.min by_remaining by_alignment in
        fill_loop fuel depth zero_roots end_ (position + Z.shiftl 1 (Z.of_nat level))
          (append_block level (zero_roots !!! level) stack)
    end.

Definition fill_zero_gap (s : StreamingSparseRoot) (end_ : Z) :
    result (fault ApplyExactTransitionError) StreamingSparseRoot :=
  limit ← ok_or (checked_shl_1 (sr_depth s)) (Fail ET_HeaderLogSlotsMismatch);
  if (end_ <? sr_position s) || (limit <? end_) then Err (Fail ET_SlotOutOfRange)
  else
    '(position, stack) ← expect (fill_loop (2 * 64) (sr_depth s) (sr_zero_roots s) end_
                                  (sr_position s) (sr_stack s));
    Ok (mkStreamingSparseRoot (sr_depth s) position (sr_zero_roots s) stack).

Definition push_leaf (s : StreamingSparseRoot) (index : Z) (hash : list Z) :
    result (fault ApplyExactTransitionError) StreamingSparseRoot :=
  s ← fill_zero_gap s index;
  Ok (mkStreamingSparseRoot (sr_depth s) (index + 1) (sr_zero_roots s)
        (append_block 0 hash (sr_stack s))).

Definition finish (s : StreamingSparseRoot) : result (fault ApplyExactTransitionError) (list Z) :=
  limit ← ok_or (checked_shl_1 (sr_depth s)) (Fail ET_HeaderLogSlotsMismatch);
  s ← fill_zero_gap s limit;
  match sr_stack s with
  | [(level, root)] =>
      if decide (level = sr_depth s) then Ok root else Err (Fail ET_HeaderLogSlotsMismatch)
  | _ => Err (Fail ET_HeaderLogSlotsMismatch)
  end.

(** ** Segment roots *)

(** The slot that the loop of [exact_segment_root_with_updates] hashes. *)
Definition slot_with_updates (columns : option SegmentColumns) (updates : gmap Z SlotValue) (local : Z) :
    option SlotValue :=
  match updates !! local with
  | Some v => Some v
  | None =>
      match columns with
      | None => Some EMPTY
      | Some cols =>
          if Z.of_nat (length (sc_values cols)) <=? local then Some EMPTY else cols_get cols local
      end
  end.

(** [None]: one of the [expect]s failed. *)
Definition exact_segment_root_with_updates (effective_log_seg : nat) (columns : option SegmentColumns)
    (updates : gmap Z SlotValue) : option (list Z) :=
  let stream :=
    s ← map_err Fail (StreamingSparseRoot_new effective_log_seg);
    s ← try_fold (λ s local,
          slot ← expect (slot_with_updates columns updates local);
          if is_empty slot then Ok s else push_leaf s local (slot_leaf_hash slot))
        s (seqZ 0 (2 ^ Z.of_nat effective_log_seg));
    finish s in
  result_ok stream.

Definition exact_local_subtree_root (columns : option SegmentColumns) (local_start : Z) (level : nat) :
    option (list Z) :=
  match columns with
  | None => Some (zero_slot_root level)
  | Some cols =>
      let stream :=
        s ← map_err Fail (StreamingSparseRoot_new level);
        s ← try_fold (λ s offset,
              slot ← expect (cols_get cols (local_start + offset));
              if is_empty slot then Ok s else push_leaf s offset (slot_leaf_hash slot))
            s (seqZ 0 (2 ^ Z.of_nat level));
        finish s in
      result_ok stream
  end.

(** ** The segment root cache *)

Record ExactSegmentRootCache := mkExactSegmentRootCache {
  xc_log_slots : nat;
  xc_effective_log_seg : nat;
  xc_segment_roots : list (list Z);
  xc_tree : list (list Z);
}.

Definition build_tree (segment_roots : list (list Z)) : list (list Z) :=
  let count := length segment_roots in
  build_parents state_node_hash count (replicate count zero_digest ++ segment_roots).

Definition empty_with_segment_log (log_slots effective_log_seg : nat) : ExactSegmentRootCache :=
  let segment_count := (2 ^ (log_slots - effective_log_seg))%nat in
  let segment_roots := replicate segment_count (zero_slot_root effective_log_seg) in
  mkExactSegmentRootCache log_slots effective_log_seg segment_roots (build_tree segment_roots).

Definition ExactSegmentRootCache_empty (log_slots : nat) : ExactSegmentRootCache :=
  empty_with_segment_log log_slots (Nat.min log_slots LOG_SEGMENT_SIZE).

Definition cache_root (c : ExactSegmentRootCache) : list Z :=
  if decide (length (xc_segment_roots c) = 1%nat) then xc_segment_roots c !!! 0%nat
  else xc_tree c !!! 1%nat.

(** [None]: the segment id is out of range. *)
Definition set_segment_root (c : ExactSegmentRootCache) (segment_id : Z) (root : list Z) :
    option ExactSegmentRootCache :=
  segment_roots ← vec_set (xc_segment_roots c) segment_id root;
  let count := length segment_roots in
  if decide (count = 1%nat) then
    Some (mkExactSegmentRootCache (xc_log_slots c) (xc_effective_log_seg c) segment_roots (xc_tree c))
  else
    let node := (count + Z.to_nat segment_id)%nat in
    Some (mkExactSegmentRootCache (xc_log_slots c) (xc_effective_log_seg c) segment_roots
            (update_path state_node_hash node (<[node := root]> (xc_tree c)) node)).

Definition segment_node_hash (c : ExactSegmentRootCache) (level : nat) (node_index : Z) :
    option (list Z) :=
  let count := length (xc_segment_roots c) in
  if bool_decide (Nat.log2 count < level)%nat
     || (Z.shiftr (Z.of_nat count) (Z.of_nat level) <=? node_index)
  then None
  else if decide (level = 0%nat) then vec_get (xc_segment_roots c) node_index
  else vec_get (xc_tree c) (Z.shiftr (Z.of_nat count) (Z.of_nat level) + node_index).

Definition cache_expand_one (c : ExactSegmentRootCache) : ExactSegmentRootCache :=
  let old_log_slots := xc_log_slots c in
  let log_slots := S old_log_slots in
  if decide (log_slots ≤ LOG_SEGMENT_SIZE)%nat then
    let segment_roots :=
      <[0%nat := state_node_hash (cache_root c) (zero_slot_root old_log_slots)]> (xc_segment_roots c) in
    mkExactSegmentRootCache log_slots log_slots segment_roots (build_tree segment_roots)
  else
    let segment_roots := xc_segment_roots c
      ++ replicate (length (xc_segment_roots c)) (zero_slot_root (xc_effective_log_seg c)) in
    mkExactSegmentRootCache log_slots (xc_effective_log_seg c) segment_roots (build_tree segment_roots).

Definition cache_shrink_one (c : ExactSegmentRootCache) : ExactSegmentRootCache :=
  let log_slots := (xc_log_slots c - 1)%nat in
  if decide (xc_log_slots c ≤ LOG_SEGMENT_SIZE)%nat then
    let segment_roots := [zero_slot_root log_slots] in
    mkExactSegmentRootCache log_slots log_slots segment_roots (build_tree segment_roots)
  else
    let segment_roots := take (length (xc_segment_roots c) / 2) (xc_segment_roots c) in
    mkExactSegmentRootCache log_slots (xc_effective_log_seg c) segment_roots (build_tree segment_roots).

Definition cache_shrink_to (c : ExactSegmentRootCache) (target : nat) : ExactSegmentRootCache :=
  Nat.iter (xc_log_slots c - target) cache_shrink_one c.

End sparse_root.
