(* ===== verification/SparseRootProofs.v ===== *)
(** * Correctness of the exact sparse Merkle roots

    The streaming builder, the segment root cache and the sparse node cache of
    [SparseRoot.v] compute the reference [merkle_root]. *)

From S2P Require Import Prelude Machine Poseidon TxTypes Merkle SlotState SlotInv SparseRoot.

(** ** Divisibility by powers of two *)

Definition pow2_divides (n : nat) (x : Z) : Prop := (2 ^ Z.of_nat n | x).

Lemma pow2_divides_le m n x : (m ≤ n)%nat → pow2_divides n x → pow2_divides m x.
Proof.
  intros Hmn. unfold pow2_divides. apply Z.divide_trans.
  exists (2 ^ Z.of_nat (n - m)). rewrite <- Z.pow_add_r by lia. f_equal. lia.
Qed.

Lemma trailing_zeros_spec x :
  0 < x → pow2_divides (trailing_zeros x) x ∧ ¬ pow2_divides (S (trailing_zeros x)) x.
Proof.
  intros Hx. destruct x as [|p|p]; [lia| |lia]. cbn [trailing_zeros]. unfold pow2_divides.
  clear Hx. induction p as [p _|p IH|]; cbn [trailing_zeros_pos].
  - split; [exists (Z.pos p~1); cbn; lia|]. intros [k Hk]. change (2 ^ Z.of_nat 1) with 2 in Hk. lia.
  - destruct IH as [[k Hk] Hn]. split.
    + exists k. rewrite Nat2Z.inj_succ, Z.pow_succ_r by lia. lia.
    + intros [j Hj]. apply Hn. exists j.
      rewrite (Nat2Z.inj_succ (S _)), Z.pow_succ_r in Hj by lia. lia.
  - split; [exists 1; cbn; lia|]. intros [k Hk]. change (2 ^ Z.of_nat 1) with 2 in Hk. lia.
Qed.

Lemma trailing_zeros_divides n x : 0 < x → (n ≤ trailing_zeros x)%nat → pow2_divides n x.
Proof. intros Hx Hn. eapply pow2_divides_le; [done|]. by apply trailing_zeros_spec. Qed.

Lemma trailing_zeros_ge n x : 0 < x → pow2_divides n x → (n ≤ trailing_zeros x)%nat.
Proof.
  intros Hx Hd. destruct (trailing_zeros_spec x Hx) as [_ Hn].
  destruct (decide (n ≤ trailing_zeros x)%nat); [done|]. exfalso. apply Hn.
  eapply pow2_divides_le; [|done]. lia.
Qed.

Lemma top_bit_spec x : 0 < x → 2 ^ Z.of_nat (top_bit x) ≤ x < 2 ^ Z.of_nat (S (top_bit x)).
Proof.
  intros Hx. unfold top_bit. pose proof (Z.log2_nonneg x). rewrite Nat2Z.inj_succ, Z2Nat.id by done.
  by apply Z.log2_spec.
Qed.

Section proofs.
  Context {P : Poseidon2bPermutation}.

(** ** Zero subtrees *)

Lemma zero_slot_roots_spec d :
  length (zero_slot_roots d) = S d ∧
  ∀ i, (i ≤ d)%nat → zero_slot_roots d !!! i = constant_root state_node_hash i (slot_leaf_hash EMPTY).
Proof.
  unfold zero_slot_roots. induction d as [|d [IHl IH]].
  { split; [done|]. intros i Hi. assert (i = 0%nat) as -> by lia. done. }
  rewrite seq_S, foldl_app. cbn [foldl Nat.add].
  set (roots := foldl _ _ _) in *. clearbody roots. split.
  - rewrite length_app. cbn. lia.
  - intros i Hi. destruct (decide (i ≤ d)%nat) as [Hle|Hgt].
    + rewrite lookup_total_app_l by lia. by apply IH.
    + assert (i = S d) as -> by lia. rewrite lookup_total_app_r by lia.
      rewrite IHl, Nat.sub_diag. cbn [constant_root]. rewrite <- IH by lia. done.
Qed.

Lemma zero_slot_root_eq d : zero_slot_root d = constant_root state_node_hash d (slot_leaf_hash EMPTY).
Proof. unfold zero_slot_root. by apply zero_slot_roots_spec. Qed.

(** ** The level stack *)

(** The stack holds the maximal aligned subtrees of [[0, pos)], smallest
    first. *)
Fixpoint stack_ok (leaf : Z → list Z) (pos : Z) (stack : list (nat * list Z)) : Prop :=
  match stack with
  | [] => pos = 0
  | (level, hash) :: rest =>
      hash = merkle_root state_node_hash level leaf (pos - 2 ^ Z.of_nat level)
      ∧ pow2_divides (S level) (pos - 2 ^ Z.of_nat level)
      ∧ stack_ok leaf (pos - 2 ^ Z.of_nat level) rest
  end.

Lemma stack_ok_nonneg leaf pos stack : stack_ok leaf pos stack → 0 ≤ pos.
Proof.
  revert pos; induction stack as [|[l h] stack IH]; intros pos; cbn; [lia|].
  intros (_ & _ & Hs). apply IH in Hs. lia.
Qed.

Lemma stack_ok_ext leaf leaf' pos stack :
  (∀ i, 0 ≤ i < pos → leaf i = leaf' i) → stack_ok leaf pos stack → stack_ok leaf' pos stack.
Proof.
  revert pos; induction stack as [|[l h] stack IH]; intros pos Hl; cbn; [done|].
  intros (-> & Hd & Hs). pose proof (stack_ok_nonneg _ _ _ Hs). split_and!; [|done|].
  - apply merkle_root_ext. intros j Hj. apply Hl. lia.
  - apply IH; [|done]. intros i Hi. apply Hl. lia.
Qed.

(** Appending the subtree of [[pos, pos + 2^level)] at an aligned position. *)
Lemma append_block_ok leaf pos stack level hash :
  stack_ok leaf pos stack → pow2_divides level pos →
  hash = merkle_root state_node_hash level leaf pos →
  stack_ok leaf (pos + 2 ^ Z.of_nat level) (append_block level hash stack).
Proof.
  revert pos level hash; induction stack as [|[l left_] stack IH]; intros pos level hash Hs Hd Hh;
    cbn [append_block].
  { cbn in *. subst pos. rewrite Z.add_simpl_r. split_and!; [done|exists 0; lia|done]. }
  destruct Hs as (Hleft & Hdl & Hs). case_decide as Hl.
  - subst l. replace (pos + 2 ^ Z.of_nat level)
      with ((pos - 2 ^ Z.of_nat level) + 2 ^ Z.of_nat (S level))
      by (rewrite Nat2Z.inj_succ, Z.pow_succ_r by lia; lia).
    apply IH; [done|done|]. cbn [merkle_root]. rewrite <- Hleft, Hh. do 2 f_equal. lia.
  - cbn [stack_ok]. rewrite Z.add_simpl_r. split_and!; [done| |done|done|done].
    (* the top level is above [level]: the position is not a multiple of [2^(S l)] *)
    assert (Hlt : (level < l)%nat).
    { destruct (decide (level < l)%nat); [done|]. exfalso.
      assert (Hd' : pow2_divides (S l) pos) by (eapply pow2_divides_le; [|done]; lia).
      unfold pow2_divides in *. pose proof (Z.divide_sub_r _ _ _ Hd' Hdl) as Hd2. clear Hd'. rename Hd2 into Hd'.
      replace (pos - (pos - 2 ^ Z.of_nat l)) with (2 ^ Z.of_nat l) in Hd' by lia.
      apply Z.divide_pos_le in Hd'; [|lia]. rewrite Nat2Z.inj_succ, Z.pow_succ_r in Hd' by lia. lia. }
    unfold pow2_divides in *. replace pos with ((pos - 2 ^ Z.of_nat l) + 2 ^ Z.of_nat l) by lia.
    apply Z.divide_add_r; [eapply (pow2_divides_le _ (S l)); [lia|done]|].
    eapply (pow2_divides_le _ l); [lia|]. exists 1. lia.
Qed.

(** ** Filling a gap *)

Definition alignment (depth : nat) (pos : Z) : nat :=
  if pos =? 0 then depth else Nat.min (trailing_zeros pos) depth.

(** Iterations left: the blocks first grow up to the alignment limit and then
    shrink with the remaining length. *)
Definition gap_measure (depth : nat) (end_ pos : Z) : nat :=
  if end_ <=? pos then 0
  else
    let r := top_bit (end_ - pos) in
    let a := alignment depth pos in
    ((if decide (a ≤ r)%nat then r - a + 1 else 0) + (r + 1))%nat.

Lemma alignment_divides depth pos : 0 ≤ pos → pow2_divides (alignment depth pos) pos.
Proof.
  intros Hp. unfold alignment. destruct (Z.eqb_spec pos 0) as [->|Hne]; [by exists 0|].
  apply trailing_zeros_divides; lia.
Qed.

Lemma alignment_ge depth n pos :
  0 < pos < 2 ^ Z.of_nat depth → pow2_divides n pos → (n ≤ alignment depth pos)%nat.
Proof.
  intros Hp Hd. unfold alignment. destruct (Z.eqb_spec pos 0) as [->|Hne]; [lia|].
  assert (Hle : 2 ^ Z.of_nat n ≤ pos) by (apply Z.divide_pos_le; [lia|done]).
  assert (n < depth)%nat.
  { apply Nat2Z.inj_lt. apply (Z.pow_lt_mono_r_iff 2); lia. }
  pose proof (trailing_zeros_ge n pos ltac:(lia) Hd). lia.
Qed.

Lemma next_alignment depth pos :
  0 < pos < 2 ^ Z.of_nat depth →
  pow2_divides (S (alignment depth pos)) (pos + 2 ^ Z.of_nat (alignment depth pos)).
Proof.
  intros Hp. pose proof (alignment_divides depth pos ltac:(lia)) as Hd.
  assert (Hn : ¬ pow2_divides (S (alignment depth pos)) pos).
  { intros Hd'. pose proof (alignment_ge depth _ pos Hp Hd'). lia. }
  set (a := alignment depth pos) in *. unfold pow2_divides in *. destruct Hd as [k Hk].
  rewrite Nat2Z.inj_succ, Z.pow_succ_r in * by lia.
  destruct (Z.Even_or_Odd k) as [[j Hj]|[j Hj]].
  - exfalso. apply Hn. exists j. subst k. lia.
  - exists (j + 1). subst k. rewrite Hk. lia.
Qed.

Lemma top_bit_mono x y : 0 < x ≤ y → (top_bit x ≤ top_bit y)%nat.
Proof. intros H. unfold top_bit. apply Z2Nat.inj_le; [apply Z.log2_nonneg..|]. apply Z.log2_le_mono. lia. Qed.

Lemma top_bit_lt x n : 0 < x < 2 ^ Z.of_nat n → (top_bit x < n)%nat.
Proof.
  intros H. unfold top_bit. apply Nat2Z.inj_lt. rewrite Z2Nat.id by apply Z.log2_nonneg.
  apply Z.log2_lt_pow2; lia.
Qed.

Lemma gap_measure_step depth end_ pos :
  0 ≤ pos < end_ → end_ ≤ 2 ^ Z.of_nat depth →
  let level := Nat.min (top_bit (end_ - pos)) (alignment depth pos) in
  pos + 2 ^ Z.of_nat level ≤ end_ ∧
  (gap_measure depth end_ (pos + 2 ^ Z.of_nat level) < gap_measure depth end_ pos)%nat.
Proof.
  intros Hp He level. pose proof (top_bit_spec (end_ - pos) ltac:(lia)) as [Hr1 Hr2].
  assert (Hlev : 2 ^ Z.of_nat level ≤ 2 ^ Z.of_nat (top_bit (end_ - pos))).
  { apply Z.pow_le_mono_r; unfold level; lia. }
  split; [lia|]. unfold gap_measure at 2. destruct (Z.leb_spec end_ pos); [lia|].
  unfold gap_measure. destruct (Z.leb_spec end_ (pos + 2 ^ Z.of_nat level)) as [|Hlt]; [case_decide; lia|].
  assert (Hpos : 0 < pos + 2 ^ Z.of_nat level < 2 ^ Z.of_nat depth) by lia.
  set (r := top_bit (end_ - pos)) in *. set (a := alignment depth pos) in *.
  set (r' := top_bit (end_ - (pos + 2 ^ Z.of_nat level))).
  set (a' := alignment depth (pos + 2 ^ Z.of_nat level)).
  assert (Hr' : (r' ≤ r)%nat) by (apply top_bit_mono; lia). cbn zeta.
  destruct (decide (a ≤ r)%nat) as [Har|Har].
  - assert (Hla : level = a) by (unfold level; lia).
    assert (Ha' : (S a ≤ a')%nat).
    { apply alignment_ge; [done|]. rewrite Hla. apply next_alignment. split; [|lia].
      destruct (decide (pos = 0)) as [->|]; [|lia]. exfalso.
      assert (a = depth) as Ha by done. rewrite Hla, Ha in Hlt. lia. }
    case_decide; lia.
  - assert (Hlr : level = r) by (unfold level; lia).
    assert (Hrr : (r' < r)%nat).
    { apply top_bit_lt. rewrite Hlr in *. rewrite Nat2Z.inj_succ, Z.pow_succ_r in Hr2 by lia. lia. }
    assert (Ha' : (r ≤ a')%nat).
    { apply alignment_ge; [done|]. rewrite Hlr. unfold pow2_divides. apply Z.divide_add_r; [|by exists 1; lia].
      eapply (pow2_divides_le _ a); [lia|]. apply alignment_divides. lia. }
    case_decide; lia.
Qed.

Lemma gap_measure_bound depth end_ pos :
  0 ≤ pos → end_ ≤ 2 ^ Z.of_nat depth → (depth < 64)%nat → (gap_measure depth end_ pos ≤ 2 * 64)%nat.
Proof.
  intros Hp He Hd. unfold gap_measure. destruct (Z.leb_spec end_ pos); [lia|].
  pose proof (top_bit_lt (end_ - pos) (S depth)) as Hb.
  rewrite Nat2Z.inj_succ, Z.pow_succ_r in Hb by lia. specialize (Hb ltac:(lia)). cbn zeta. case_decide; lia.
Qed.

Lemma fill_loop_total leaf fuel depth zero_roots end_ pos stack :
  (∀ i, (i ≤ depth)%nat →
     zero_roots !!! i = constant_root state_node_hash i (slot_leaf_hash EMPTY)) →
  0 ≤ pos ≤ end_ → end_ ≤ 2 ^ Z.of_nat depth → (gap_measure depth end_ pos ≤ fuel)%nat →
  (∀ i, pos ≤ i < end_ → leaf i = slot_leaf_hash EMPTY) →
  stack_ok leaf pos stack →
  ∃ stack', fill_loop fuel depth zero_roots end_ pos stack = Some (end_, stack')
    ∧ stack_ok leaf end_ stack'.
Proof.
  intros Hz. revert pos stack. induction fuel as [|fuel IH]; intros pos stack Hp He Hf Hl Hs;
    cbn [fill_loop]; destruct (Z.leb_spec end_ pos).
  - assert (pos = end_) as -> by lia. eauto.
  - exfalso. unfold gap_measure in Hf. destruct (Z.leb_spec end_ pos); [lia|]. case_decide; lia.
  - assert (pos = end_) as -> by lia. eauto.
  - destruct (gap_measure_step depth end_ pos ltac:(lia) He) as [Hle Hm]. fold (alignment depth pos).
    set (level := Nat.min (top_bit (end_ - pos)) (alignment depth pos)) in *.
    rewrite Z.shiftl_mul_pow2, Z.mul_1_l by lia.
    assert (Hld : (level ≤ depth)%nat).
    { unfold level, alignment. destruct (pos =? 0); lia. }
    apply IH; [lia|done|lia|intros i Hi; apply Hl; lia|]. apply append_block_ok; [done| |].
    + eapply pow2_divides_le; [|apply (alignment_divides depth); lia]. unfold level. lia.
    + rewrite Hz by done. symmetry. apply merkle_root_constant. intros j Hj. apply Hl. lia.
Qed.

(** ** The builder *)

(** The builder has consumed the leaves below its position. *)
Record stream_inv (depth : nat) (leaf : Z → list Z) (s : StreamingSparseRoot) : Prop := {
  si_depth : sr_depth s = depth;
  si_roots : sr_zero_roots s = zero_slot_roots depth;
  si_position : 0 ≤ sr_position s ≤ 2 ^ Z.of_nat depth;
  si_stack : stack_ok leaf (sr_position s) (sr_stack s);
}.

Section stream.
  Context (depth : nat) (leaf : Z → list Z) (Hdepth : (depth < 64)%nat).

Lemma checked_shl_1_eq : checked_shl_1 depth = Some (2 ^ Z.of_nat depth).
Proof.
  unfold checked_shl_1. rewrite decide_True by done. rewrite Z.shiftl_mul_pow2, Z.mul_1_l by lia. done.
Qed.

Lemma stream_new : ∃ s, StreamingSparseRoot_new depth = Ok s ∧ stream_inv depth leaf s ∧ sr_position s = 0.
Proof.
  unfold StreamingSparseRoot_new. rewrite checked_shl_1_eq. cbn. eexists. split; [done|].
  split; [|done]. constructor; cbn; [done|done|lia|done].
Qed.

Lemma fill_zero_gap_ok s end_ :
  stream_inv depth leaf s → sr_position s ≤ end_ ≤ 2 ^ Z.of_nat depth →
  (∀ i, sr_position s ≤ i < end_ → leaf i = slot_leaf_hash EMPTY) →
  ∃ s', fill_zero_gap s end_ = Ok s' ∧ stream_inv depth leaf s' ∧ sr_position s' = end_.
Proof.
  intros [Hd Hr Hp Hs] He Hl. unfold fill_zero_gap. rewrite Hd, checked_shl_1_eq. cbn [ok_or mbind result_bind].
  destruct (Z.ltb_spec end_ (sr_position s)), (Z.ltb_spec (2 ^ Z.of_nat depth) end_); [lia..|]. cbn [orb].
  destruct (fill_loop_total leaf (2 * 64) depth (sr_zero_roots s) end_ (sr_position s) (sr_stack s))
    as (stack' & Hf & Hs'); [|lia|lia|apply gap_measure_bound; lia|done|done|].
  { rewrite Hr. apply zero_slot_roots_spec. }
  rewrite Hf. cbn. eexists. split; [done|]. split; [|done]. constructor; cbn; (done || lia).
Qed.

Lemma push_leaf_ok s index :
  stream_inv depth leaf s → sr_position s ≤ index < 2 ^ Z.of_nat depth →
  (∀ i, sr_position s ≤ i < index → leaf i = slot_leaf_hash EMPTY) →
  ∃ s', push_leaf s index (leaf index) = Ok s' ∧ stream_inv depth leaf s' ∧ sr_position s' = index + 1.
Proof.
  intros Hs Hi Hl. destruct (fill_zero_gap_ok s index Hs ltac:(lia) Hl) as (s1 & H1 & [Hd Hr Hp Hst] & Hpos).
  unfold push_leaf. rewrite H1. cbn. eexists. split; [done|]. split; [|done]. rewrite Hpos in *.
  constructor; cbn; [done|done|lia|]. apply (append_block_ok leaf index _ 0); [done|exists index; cbn; lia|done].
Qed.

(** A stack that covers the whole domain is the root alone. *)
Lemma stack_ok_full stack :
  stack_ok leaf (2 ^ Z.of_nat depth) stack → stack = [(depth, merkle_root state_node_hash depth leaf 0)].
Proof.
  destruct stack as [|[l h] rest]; cbn; [lia|]. intros (-> & Hd & Hs).
  pose proof (stack_ok_nonneg _ _ _ Hs) as Hnn.
  assert (l ≤ depth)%nat as Hl by (apply Nat2Z.inj_le, (Z.pow_le_mono_r_iff 2); lia).
  assert (l = depth) as ->.
  { destruct (decide (l = depth)); [done|]. exfalso. unfold pow2_divides in Hd.
    assert (Hf : (2 ^ Z.of_nat (S l) | 2 ^ Z.of_nat depth)).
    { exists (2 ^ Z.of_nat (depth - S l)). rewrite <- Z.pow_add_r by lia. f_equal. lia. }
    pose proof (Z.divide_sub_r _ _ _ Hf Hd) as Hd'.
    replace (2 ^ Z.of_nat depth - (2 ^ Z.of_nat depth - 2 ^ Z.of_nat l)) with (2 ^ Z.of_nat l) in Hd' by lia.
    apply Z.divide_pos_le in Hd'; [|lia]. rewrite Nat2Z.inj_succ, Z.pow_succ_r in Hd' by lia. lia. }
  rewrite Z.sub_diag in *. f_equal. destruct rest as [|[l' h'] rest]; [done|]. cbn in Hs.
  destruct Hs as (_ & _ & Hs). apply stack_ok_nonneg in Hs. lia.
Qed.

Lemma finish_ok s :
  stream_inv depth leaf s →
  (∀ i, sr_position s ≤ i < 2 ^ Z.of_nat depth → leaf i = slot_leaf_hash EMPTY) →
  finish s = Ok (merkle_root state_node_hash depth leaf 0).
Proof.
  intros Hs Hl. unfold finish. rewrite (si_depth _ _ _ Hs), checked_shl_1_eq. cbn [ok_or mbind result_bind].
  destruct (fill_zero_gap_ok s (2 ^ Z.of_nat depth) Hs) as (s1 & H1 & Hs1 & Hpos);
    [pose proof (si_position _ _ _ Hs); lia|done|].
  rewrite H1. cbn [mbind result_bind]. destruct Hs1 as [Hd _ _ Hst]. rewrite Hpos in Hst.
  rewrite (stack_ok_full _ Hst), Hd, decide_True by done. done.
Qed.

(** Streaming the non-empty slots of a vector in order. *)
Lemma stream_slots_ok (get : Z → option SlotValue) (f : Z → SlotValue) s k :
  (∀ i, 0 ≤ i < 2 ^ Z.of_nat depth → get i = Some (f i)) →
  (∀ i, 0 ≤ i < 2 ^ Z.of_nat depth → leaf i = slot_leaf_hash (f i)) →
  0 ≤ k ≤ 2 ^ Z.of_nat depth →
  stream_inv depth leaf s → sr_position s = 0 →
  ∃ s', try_fold (λ s local, slot ← expect (get local);
                    if is_empty slot then Ok s else push_leaf s local (slot_leaf_hash slot)) s (seqZ 0 k) = Ok s'
    ∧ stream_inv depth leaf s' ∧ sr_position s' ≤ k
    ∧ ∀ i, sr_position s' ≤ i < k → leaf i = slot_leaf_hash EMPTY.
Proof.
  intros Hget Hleaf Hk Hs Hpos. destruct Hk as [Hk Hle]. revert Hle. pattern k.
  apply natlike_ind; [| |exact Hk]; clear k Hk.
  { intros _. exists s. rewrite seqZ_nil by lia. split_and!; [done|done|lia|lia]. }
  intros k Hk IH Hle. destruct IH as (s1 & H1 & Hs1 & Hp1 & Hz1); [lia|].
  replace (Z.succ k) with (k + 1) by lia. rewrite seqZ_app, try_fold_app, H1 by lia. cbn [mbind result_bind].
  rewrite Z.add_0_l, seqZ_cons, seqZ_nil by lia. cbn [try_fold].
  rewrite Hget by lia. cbn [expect ok_or mbind result_bind]. destruct (is_empty (f k)) eqn:He.
  - exists s1. split_and!; [done|done|lia|]. intros i Hi. destruct (decide (i = k)) as [->|]; [|apply Hz1; lia].
    rewrite Hleaf by lia. f_equal. by apply bool_decide_eq_true in He.
  - rewrite <- Hleaf by lia. destruct (push_leaf_ok s1 k Hs1 ltac:(lia) Hz1) as (s2 & H2 & Hs2 & Hp2).
    rewrite H2. cbn. exists s2. split_and!; [done|done|lia|lia].
Qed.

End stream.

(** ** Segment roots *)

Lemma exact_segment_root_ok eff columns updates (f : Z → SlotValue) :
  (eff ≤ 32)%nat →
  (∀ i, 0 ≤ i < 2 ^ Z.of_nat eff → slot_with_updates columns updates i = Some (f i)) →
  exact_segment_root_with_updates eff columns updates
  = Some (merkle_root state_node_hash eff (λ i, slot_leaf_hash (f i)) 0).
Proof.
  intros He Hf. unfold exact_segment_root_with_updates.
  destruct (stream_new eff (λ i, slot_leaf_hash (f i)) ltac:(lia)) as (s0 & H0 & Hs0 & Hp0).
  rewrite H0. cbn [map_err mbind result_bind].
  destruct (stream_slots_ok eff (λ i, slot_leaf_hash (f i)) ltac:(lia) (slot_with_updates columns updates) f s0
    (2 ^ Z.of_nat eff) Hf ltac:(done) ltac:(lia) Hs0 Hp0) as (s1 & H1 & Hs1 & _ & Hz1).
  rewrite H1. cbn [mbind result_bind].
  rewrite (finish_ok eff (λ i, slot_leaf_hash (f i)) ltac:(lia) s1 Hs1 Hz1). done.
Qed.

Lemma exact_local_subtree_root_ok columns start level (f : Z → SlotValue) :
  (level ≤ 32)%nat →
  (∀ i, 0 ≤ i < 2 ^ Z.of_nat level →
     match columns with None => Some EMPTY | Some cols => cols_get cols (start + i) end
     = Some (f (start + i))) →
  exact_local_subtree_root columns start level
  = Some (merkle_root state_node_hash level (λ i, slot_leaf_hash (f i)) start).
Proof.
  intros He Hf. unfold exact_local_subtree_root. destruct columns as [cols|].
  - destruct (stream_new level (λ i, slot_leaf_hash (f (start + i))) ltac:(lia)) as (s0 & H0 & Hs0 & Hp0).
    rewrite H0. cbn [map_err mbind result_bind].
    destruct (stream_slots_ok level (λ i, slot_leaf_hash (f (start + i))) ltac:(lia)
      (λ i, cols_get cols (start + i)) (λ i, f (start + i)) s0
      (2 ^ Z.of_nat level) Hf ltac:(done) ltac:(lia) Hs0 Hp0) as (s1 & H1 & Hs1 & _ & Hz1).
    rewrite H1. cbn [mbind result_bind].
    rewrite (finish_ok level (λ i, slot_leaf_hash (f (start + i))) ltac:(lia) s1 Hs1 Hz1). cbn. f_equal.
    rewrite <- (merkle_root_shift _ level (λ i, slot_leaf_hash (f i)) 0 start).
    apply merkle_root_ext. intros j _. do 2 f_equal. lia.
  - rewrite zero_slot_root_eq. f_equal. symmetry. apply merkle_root_constant.
    intros j Hj. specialize (Hf (j - start) ltac:(lia)). rewrite Zplus_minus in Hf. congruence.
Qed.

(** ** The segment root cache *)

(** The cache holds the roots [roots s] of its segments and a consistent node
    array above them. *)
Record cache_ok (c : ExactSegmentRootCache) (roots : Z → list Z) : Prop := {
  co_eff : xc_effective_log_seg c = Nat.min (xc_log_slots c) LOG_SEGMENT_SIZE;
  co_len : length (xc_segment_roots c) = (2 ^ (xc_log_slots c - xc_effective_log_seg c))%nat;
  co_roots : ∀ s, 0 ≤ s < Z.of_nat (length (xc_segment_roots c)) →
    vec_get (xc_segment_roots c) s = Some (roots s);
  co_tree_len : length (xc_tree c) = (2 * length (xc_segment_roots c))%nat;
  co_leaves : (1 < length (xc_segment_roots c))%nat → ∀ s, (s < length (xc_segment_roots c))%nat →
    xc_tree c !!! (length (xc_segment_roots c) + s)%nat = xc_segment_roots c !!! s;
  co_tree : (1 < length (xc_segment_roots c))%nat →
    consistent state_node_hash (length (xc_segment_roots c)) (xc_tree c);
}.

Lemma cache_root_ok c roots :
  cache_ok c roots →
  cache_root c = merkle_root state_node_hash (xc_log_slots c - xc_effective_log_seg c) roots 0.
Proof.
  intros [He Hlen Hroots Htl Hleaves Htree]. unfold cache_root.
  set (d := (xc_log_slots c - xc_effective_log_seg c)%nat) in *.
  assert (Hpos : (2 ^ d ≠ 0)%nat) by (apply Nat.pow_nonzero; lia).
  destruct (decide (length (xc_segment_roots c) = 1%nat)) as [H1|H1].
  - assert (d = 0%nat) as ->.
    { destruct d as [|d']; [done|]. rewrite Nat.pow_succ_r' in Hlen. lia. }
    cbn. apply list_lookup_total_correct. specialize (Hroots 0 ltac:(lia)). by apply vec_get_Some in Hroots as [_ ?].
  - rewrite Hlen in *. rewrite (consistent_root _ d) by (apply Htree; lia). apply merkle_root_ext.
    intros j Hj. rewrite Z.add_0_l in Hj.
    assert (Z.of_nat (2 ^ d) = 2 ^ Z.of_nat d) by (rewrite Nat2Z.inj_pow; done).
    rewrite Hleaves by lia. apply list_lookup_total_correct.
    specialize (Hroots j ltac:(lia)). by apply vec_get_Some in Hroots as [_ ?].
Qed.

Lemma build_tree_ok (segment_roots : list (list Z)) :
  length (build_tree segment_roots) = (2 * length segment_roots)%nat
  ∧ consistent state_node_hash (length segment_roots) (build_tree segment_roots)
  ∧ ∀ s, (s < length segment_roots)%nat →
      build_tree segment_roots !!! (length segment_roots + s)%nat = segment_roots !!! s.
Proof.
  unfold build_tree. rewrite length_build_parents, length_app, length_replicate. split_and!; [lia| |].
  - apply build_parents_consistent. rewrite length_app, length_replicate. lia.
  - intros s Hs. rewrite build_parents_leaf by lia. rewrite lookup_total_app_r by (rewrite length_replicate; lia).
    rewrite length_replicate. f_equal. lia.
Qed.

Lemma cache_of_roots_ok log eff segment_roots roots :
  eff = Nat.min log LOG_SEGMENT_SIZE → length segment_roots = (2 ^ (log - eff))%nat →
  (∀ s, 0 ≤ s < Z.of_nat (length segment_roots) → vec_get segment_roots s = Some (roots s)) →
  cache_ok (mkExactSegmentRootCache log eff segment_roots (build_tree segment_roots)) roots.
Proof.
  intros He Hl Hr. destruct (build_tree_ok segment_roots) as (Hbl & Hbc & Hbs).
  constructor; cbn; auto.
Qed.

Lemma cache_empty_ok log :
  cache_ok (ExactSegmentRootCache_empty log) (λ _, zero_slot_root (Nat.min log LOG_SEGMENT_SIZE)).
Proof.
  unfold ExactSegmentRootCache_empty, empty_with_segment_log. apply cache_of_roots_ok; [done| |].
  - by rewrite length_replicate.
  - rewrite length_replicate. intros s Hs. by rewrite vec_get_replicate.
Qed.

(** The path update keeps the whole node array consistent. *)
Lemma set_segment_root_ok c roots s root :
  cache_ok c roots → 0 ≤ s < Z.of_nat (length (xc_segment_roots c)) →
  ∃ c', set_segment_root c s root = Some c' ∧ cache_ok c' (λ j, if decide (j = s) then root else roots j)
    ∧ xc_log_slots c' = xc_log_slots c.
Proof.
  intros [He Hlen Hroots Htl Hleaves Htree] Hs. unfold set_segment_root.
  rewrite vec_set_in_range by done. cbn [mbind option_bind]. rewrite length_insert.
  assert (Hr : ∀ j, 0 ≤ j < Z.of_nat (length (xc_segment_roots c)) →
    vec_get (<[Z.to_nat s := root]> (xc_segment_roots c)) j = Some (if decide (j = s) then root else roots j)).
  { intros j Hj. rewrite vec_get_insert by lia. do 2 case_decide; try congruence. by apply Hroots. }
  destruct (decide (length (xc_segment_roots c) = 1%nat)) as [H1|H1]; (eexists; split; [reflexivity|]; split; [|done]).
  { constructor; cbn; rewrite ?length_insert; auto; lia. }
  set (n := length (xc_segment_roots c)) in *. set (k := (n + Z.to_nat s)%nat).
  assert (Hk : (1 < n ∧ k < 2 * n)%nat).
  { split; [|lia]. pose proof (Nat.pow_nonzero 2 (xc_log_slots c - xc_effective_log_seg c)). lia. }
  pose proof (Nat.div_mod_eq k 2). pose proof (Nat.mod_upper_bound k 2).
  constructor; cbn [xc_log_slots xc_effective_log_seg xc_segment_roots xc_tree];
    rewrite ?length_insert, ?length_update_path, ?length_insert; auto; fold n.
  - intros _ j Hj. rewrite update_path_leaf by lia. destruct (decide (j = Z.to_nat s)) as [->|Hne].
    + rewrite !list_lookup_total_insert_eq by lia. done.
    + rewrite !list_lookup_total_insert_ne by lia. apply Hleaves; lia.
  - intros _. apply update_path_consistent; [lia|lia|lia|rewrite length_insert; lia|].
    intros j Hj Hns. assert (Hjk : (j ≠ k / 2)%nat) by (intros ->; apply Hns; lia).
    rewrite !list_lookup_total_insert_ne by lia. apply Htree; [lia|done|tauto].
Qed.

Lemma cache_ok_ext c roots roots' :
  cache_ok c roots → (∀ s, 0 ≤ s < Z.of_nat (length (xc_segment_roots c)) → roots s = roots' s) →
  cache_ok c roots'.
Proof. intros [] Hext. constructor; auto. intros s Hs. rewrite <- Hext by done. auto. Qed.

(** ** The slot vector behind the cache *)

Definition exact_leaf (f : Z → SlotValue) (i : Z) : list Z := slot_leaf_hash (f i).

(** The reference root of a vector of [2^log] slots. *)
Definition exact_root (log : nat) (f : Z → SlotValue) : list Z :=
  merkle_root state_node_hash log (exact_leaf f) 0.

Definition segment_root_of (eff : nat) (f : Z → SlotValue) (s : Z) : list Z :=
  merkle_root state_node_hash eff (exact_leaf f) (s * 2 ^ Z.of_nat eff).

Lemma exact_root_ext log f g :
  (∀ i, 0 ≤ i < 2 ^ Z.of_nat log → f i = g i) → exact_root log f = exact_root log g.
Proof. intros Hfg. apply merkle_root_ext. intros j Hj. unfold exact_leaf. rewrite Hfg by lia. done. Qed.

Lemma segment_root_of_ext eff f g s :
  (∀ i, segment_of eff i = s → f i = g i) → segment_root_of eff f s = segment_root_of eff g s.
Proof.
  intros Hfg. apply merkle_root_ext. intros j Hj. unfold exact_leaf. rewrite Hfg; [done|].
  unfold segment_of. symmetry. apply (Z.div_unique j _ s (j - s * 2 ^ Z.of_nat eff)); lia.
Qed.

Lemma cache_root_exact c f :
  cache_ok c (segment_root_of (xc_effective_log_seg c) f) → cache_root c = exact_root (xc_log_slots c) f.
Proof.
  intros Hc. rewrite (cache_root_ok _ _ Hc). unfold exact_root.
  replace (xc_log_slots c) with ((xc_log_slots c - xc_effective_log_seg c) + xc_effective_log_seg c)%nat at 2
    by (rewrite (co_eff _ _ Hc); lia).
  rewrite <- merkle_root_compose. done.
Qed.

Lemma exact_root_expand log f :
  (∀ i, 2 ^ Z.of_nat log ≤ i < 2 ^ Z.of_nat (S log) → f i = EMPTY) →
  exact_root (S log) f = state_node_hash (exact_root log f) (zero_slot_root log).
Proof.
  intros Hz. unfold exact_root. cbn [merkle_root]. f_equal. rewrite zero_slot_root_eq.
  apply merkle_root_constant. rewrite Nat2Z.inj_succ, Z.pow_succ_r in Hz by lia.
  intros j Hj. unfold exact_leaf. rewrite Hz by lia. done.
Qed.

Lemma segment_root_of_empty eff f s :
  (∀ i, segment_of eff i = s → f i = EMPTY) → segment_root_of eff f s = zero_slot_root eff.
Proof.
  intros Hz. rewrite zero_slot_root_eq. apply merkle_root_constant. intros j Hj. unfold exact_leaf.
  rewrite Hz; [done|]. unfold segment_of. symmetry.
  apply (Z.div_unique j _ s (j - s * 2 ^ Z.of_nat eff)); lia.
Qed.

Lemma cache_expand_one_ok c f :
  cache_ok c (segment_root_of (xc_effective_log_seg c) f) →
  (∀ i, 2 ^ Z.of_nat (xc_log_slots c) ≤ i → f i = EMPTY) →
  cache_ok (cache_expand_one c) (segment_root_of (xc_effective_log_seg (cache_expand_one c)) f)
  ∧ xc_log_slots (cache_expand_one c) = S (xc_log_slots c).
Proof.
  intros Hc Hz. pose proof (cache_root_exact c f Hc) as Hroot. destruct Hc as [He Hlen Hroots Htl Hleaves Htree].
  unfold cache_expand_one. case_decide as Hle; (split; [|done]).
  - assert (Heff : xc_effective_log_seg c = xc_log_slots c) by lia.
    rewrite Heff, Nat.sub_diag in Hlen. cbn in Hlen.
    apply cache_of_roots_ok; [lia|rewrite length_insert, Nat.sub_diag; done|].
    rewrite length_insert, Hlen. intros s Hs. assert (s = 0) as -> by lia. cbn [xc_effective_log_seg].
    change 0%nat with (Z.to_nat 0). rewrite vec_get_insert, decide_True by lia. f_equal.
    rewrite Hroot, <- exact_root_expand by (intros i Hi; apply Hz; lia). done.
  - assert (Heff : xc_effective_log_seg c = LOG_SEGMENT_SIZE) by lia.
    assert (Hpow : (2 ^ (S (xc_log_slots c) - xc_effective_log_seg c)
                    = 2 * length (xc_segment_roots c))%nat).
    { rewrite Hlen, <- Nat.pow_succ_r'. f_equal. lia. }
    apply cache_of_roots_ok; [lia|rewrite length_app, length_replicate; lia|].
    rewrite length_app, length_replicate. cbn [xc_effective_log_seg]. intros s Hs.
    destruct (decide (s < Z.of_nat (length (xc_segment_roots c)))) as [Hlt|Hge].
    + rewrite vec_get_app_l by done. apply Hroots. lia.
    + rewrite vec_get_app_replicate by lia. f_equal. symmetry. apply segment_root_of_empty.
      intros i Hi. apply Hz. unfold segment_of in Hi.
      assert (Hcount : Z.of_nat (length (xc_segment_roots c)) * 2 ^ Z.of_nat (xc_effective_log_seg c)
                = 2 ^ Z.of_nat (xc_log_slots c)).
      { rewrite Hlen, Nat2Z.inj_pow, <- Z.pow_add_r by lia. f_equal. lia. }
      pose proof (Z.mul_div_le i (2 ^ Z.of_nat (xc_effective_log_seg c)) ltac:(lia)). nia.
Qed.

(** Dropping whole empty segments; below the segment size the root is reset to
    that of an empty segment and must be recomputed by the caller. *)
Lemma cache_shrink_one_ok c roots :
  cache_ok c roots → (1 ≤ xc_log_slots c)%nat →
  cache_ok (cache_shrink_one c)
    (if decide (xc_log_slots c ≤ LOG_SEGMENT_SIZE)%nat then λ _, zero_slot_root (xc_log_slots c - 1)
     else roots)
  ∧ xc_log_slots (cache_shrink_one c) = (xc_log_slots c - 1)%nat.
Proof.
  intros [He Hlen Hroots Htl Hleaves Htree] H1. unfold cache_shrink_one.
  destruct (decide (xc_log_slots c ≤ LOG_SEGMENT_SIZE)%nat) as [Hle|Hgt]; (split; [|done]).
  - apply cache_of_roots_ok; [lia|rewrite Nat.sub_diag; done|]. cbn. intros s Hs. assert (s = 0) as -> by lia. done.
  - assert (Hhalf : (length (xc_segment_roots c) / 2 = 2 ^ (xc_log_slots c - 1 - xc_effective_log_seg c))%nat).
    { rewrite Hlen. replace (xc_log_slots c - xc_effective_log_seg c)%nat
        with (S (xc_log_slots c - 1 - xc_effective_log_seg c)) by lia.
      rewrite Nat.pow_succ_r', Nat.mul_comm, Nat.div_mul; lia. }
    pose proof (Nat.div_mod_eq (length (xc_segment_roots c)) 2).
    apply cache_of_roots_ok; [lia|rewrite length_take; lia|].
    intros s Hs. rewrite length_take in Hs. rewrite vec_get_take by lia. apply Hroots. lia.
Qed.

(** Reading the node array: level [h] above the segments. *)
Lemma segment_node_hash_ok c f level i :
  cache_ok c (segment_root_of (xc_effective_log_seg c) f) →
  (level ≤ xc_log_slots c - xc_effective_log_seg c)%nat →
  0 ≤ i < 2 ^ Z.of_nat (xc_log_slots c - xc_effective_log_seg c - level) →
  segment_node_hash c level i
  = Some (merkle_root state_node_hash (level + xc_effective_log_seg c) (exact_leaf f)
            (i * 2 ^ Z.of_nat (level + xc_effective_log_seg c))).
Proof.
  intros [He Hlen Hroots Htl Hleaves Htree] Hlev Hi. unfold segment_node_hash.
  set (d := (xc_log_slots c - xc_effective_log_seg c)%nat) in *. rewrite Hlen, Nat.log2_pow2 by lia.
  rewrite bool_decide_false by lia. rewrite Z.shiftr_div_pow2, Nat2Z.inj_pow by lia.
  change (Z.of_nat 2) with 2. rewrite <- Z.pow_sub_r by lia.
  replace (Z.of_nat d - Z.of_nat level) with (Z.of_nat (d - level)) by lia.
  destruct (Z.leb_spec (2 ^ Z.of_nat (d - level)) i); [lia|]. cbn [orb]. case_decide as H0.
  { subst level. rewrite Nat.sub_0_r in *. rewrite Hroots; [done|]. rewrite Hlen, Nat2Z.inj_pow. done. }
  assert (Hd : (1 < length (xc_segment_roots c))%nat).
  { rewrite Hlen. pose proof (Nat.pow_lt_mono_r 2 0 d). cbn in *. lia. }
  specialize (Hleaves Hd). specialize (Htree Hd). rewrite Hlen in *.
  assert (Hpow : Z.of_nat (2 ^ (d - level)) = 2 ^ Z.of_nat (d - level)) by (rewrite Nat2Z.inj_pow; done).
  assert (Hle : (2 ^ (d - level) ≤ 2 ^ d)%nat) by (apply Nat.pow_le_mono_r; lia).
  assert (Hin : (2 ^ (d - level) + Z.to_nat i < length (xc_tree c))%nat).
  { rewrite Htl. assert (2 ^ (d - level) < 2 ^ d)%nat by (apply Nat.pow_lt_mono_r; lia). lia. }
  pose proof (consistent_merkle_root _ d (xc_tree c) level (Z.to_nat i) Htree Hlev ltac:(lia)) as Hm.
  apply vec_get_Some. split; [lia|].
  replace (Z.to_nat (2 ^ Z.of_nat (d - level) + i)) with (2 ^ (d - level) + Z.to_nat i)%nat by lia.
  rewrite list_lookup_lookup_total_lt by done. f_equal. rewrite Hm, Z2Nat.id by lia.
  transitivity (merkle_root state_node_hash level (segment_root_of (xc_effective_log_seg c) f) (i * 2 ^ Z.of_nat level)).
  { apply merkle_root_ext. intros j Hj.
    assert (0 ≤ j < 2 ^ Z.of_nat d).
    { replace (2 ^ Z.of_nat d) with (2 ^ Z.of_nat (d - level) * 2 ^ Z.of_nat level)
        by (rewrite <- Z.pow_add_r by lia; f_equal; lia). nia. }
    rewrite Hleaves by (pose proof (Nat2Z.inj_pow 2 d); lia). apply list_lookup_total_correct.
    specialize (Hroots j ltac:(rewrite Nat2Z.inj_pow; lia)). by apply vec_get_Some in Hroots as [_ ?]. }
  pose proof (merkle_root_compose state_node_hash (xc_effective_log_seg c) level (exact_leaf f)
    (i * 2 ^ Z.of_nat (level + xc_effective_log_seg c))) as Hcomp.
  rewrite <- Hcomp. unfold segment_root_of.
  rewrite <- (merkle_root_shift _ level _ 0 (i * 2 ^ Z.of_nat level)). apply merkle_root_ext.
  intros j Hj. f_equal. rewrite Nat2Z.inj_add, Z.pow_add_r by lia. lia.
Qed.

End proofs.
