(* ===== verification/ChainState.v ===== *)
(** * The chain state

    [jetsam_chain/src/state.rs]: the slot state with its exact root, live slot
    count, allocation counter and circulating supply; construction,
    expansion, root refresh, reinstalling evicted segments, the verified exact
    transition and the application of one transaction body. *)

From S2P Require Import Prelude Machine Params Poseidon TxTypes Merkle SlotState SparseRoot.

Record ChainState := mkChainState {
  cs_state : SegmentedFriState;
  cs_utxo_root : list Z;
  cs_active_slot_count : Z;
  cs_alloc_counter : Z;
  cs_circulating_supply : Z;
  cs_exact_roots : ExactSegmentRootCache;
}.

Inductive SparseUtxoBuildError :=
  | SB_SlotOutOfRange
  | SB_DuplicateSlot (slot : Z)
  | SB_EmptySlot (slot : Z)
  | SB_CreationIdExceedsAllocCounter (slot_index creation_id alloc_counter : Z)
  | SB_State (e : StateError)
  | SB_SparseMerkle (e : SparseMerkleError).

Inductive ApplyError :=
  | AE_SlotOutOfRange
  | AE_UnknownOrSpentInput
  | AE_OutputSlotNotEmpty
  | AE_DuplicateOutputSlot
  | AE_InputOutputSlotOverlap
  | AE_ActiveSlotCountUnderflow
  | AE_ActiveSlotCountOverflow
  | AE_AllocCounterOverflow
  | AE_CoinbaseMintHeightMissing
  | AE_ExactStateUnavailable
  | AE_CirculatingSupplyInvariant.

(** Lifting the error of a callee. *)
Definition map_fault {E F A} (f : E → F) (m : result (fault E) A) : result (fault F) A :=
  map_err (λ x, match x with Panic => Panic | Fail e => Fail (f e) end) m.

(** [BTreeMap::insert] in sequence, then iteration in key order. *)
Definition canonical_updates (updates : list (Z * SlotValue)) : gmap Z SlotValue :=
  foldl (λ m d, <[fst d := snd d]> m) ∅ updates.

Definition sorted_entries (m : gmap Z SlotValue) : list (Z * SlotValue) :=
  omap (λ k, pair k <$> m !! k) (merge_sort Z.le (elements (dom m))).

Section chain_state.
  Context {P : Poseidon2bPermutation} {C : SegmentCommitment}.

(** ** Construction *)

Definition with_log_slots (log_slots : nat) : option ChainState :=
  state ← new_empty log_slots;
  Some (mkChainState state (zero_slot_root log_slots) 0 0 0 (ExactSegmentRootCache_empty log_slots)).

Definition ChainState_durable_metadata_clone (cs : ChainState) : option ChainState :=
  state ← durable_metadata_clone (cs_state cs);
  Some (mkChainState state (cs_utxo_root cs) (cs_active_slot_count cs) (cs_alloc_counter cs)
          (cs_circulating_supply cs) (cs_exact_roots cs)).

(** ** The exact root *)

Fixpoint iterate_expand (n : nat) (c : ExactSegmentRootCache) : ExactSegmentRootCache :=
  match n with
  | O => c
  | S n => iterate_expand n (cache_expand_one c)
  end.

(** The loop over the dirty segments: recompute each root from the resident
    columns and store it. *)
Definition refresh_segments (st : SegmentedFriState) (roots : ExactSegmentRootCache) (dirty : list Z) :
    result (fault ExactStateReadError) ExactSegmentRootCache :=
  try_fold (λ roots segment_id,
      if is_evicted st segment_id then Err (Fail (EvictedSegment segment_id))
      else
        columns ← expect (try_get_segment_columns st segment_id);
        root ← expect (exact_segment_root_with_updates (effective_log_segment_size st) columns ∅);
        expect (set_segment_root roots segment_id root)) roots dirty.

Definition try_state_root (cs : ChainState) :
    result (fault ExactStateReadError) (list Z * ChainState) :=
  let st := cs_state cs in
  let roots := iterate_expand (sg_log_slots st - xc_log_slots (cs_exact_roots cs)) (cs_exact_roots cs) in
  let roots := if decide (sg_log_slots st < xc_log_slots roots)%nat
               then cache_shrink_to roots (sg_log_slots st) else roots in
  roots ← refresh_segments st roots (elements (sg_exact_dirty st));
  let root := cache_root roots in
  Ok (root, mkChainState (clear_exact_dirty st) root (cs_active_slot_count cs) (cs_alloc_counter cs)
              (cs_circulating_supply cs) roots).

(** ** Supply *)

Definition loaded_circulating_supply (st : SegmentedFriState) : result (fault ExactStateReadError) Z :=
  try_fold (λ supply segment_id,
      if is_evicted st segment_id then Err (Fail (EvictedSegment segment_id))
      else
        entry ← expect (try_get_segment_columns st segment_id);
        columns ← ok_or entry (Fail (EvictedSegment segment_id));
        try_fold (λ supply index,
            slot ← expect (cols_get columns index);
            if is_empty slot then Ok supply
            else expect (checked_add 128 supply (slot_amount slot)))
          supply (seqZ 0 (Z.of_nat (length (sc_values columns))))) 0 (active_segment_ids st).

(** The value an update replaces; slots beyond the current domain are empty. *)
Definition previous_slot (st : SegmentedFriState) (slot_index : Z) : result (fault unit) SlotValue :=
  if slot_index <? num_slots st then
    let segment_id := wrap 16 (Z.shiftr slot_index (Z.of_nat (effective_log_segment_size st))) in
    if is_evicted st segment_id then Err (Fail tt) else expect (slot st slot_index)
  else Ok EMPTY.

Definition supply_step (st : SegmentedFriState) (supply : Z) (update : Z * SlotValue) :
    result (fault unit) Z :=
  previous ← previous_slot st (fst update);
  supply ← ok_or (checked_sub supply (slot_amount previous)) (Fail tt);
  ok_or (checked_add 128 supply (slot_amount (snd update))) (Fail tt).

Definition supply_after_slot_updates (cs : ChainState) (slot_updates : list (Z * SlotValue)) :
    result (fault unit) Z :=
  try_fold (supply_step (cs_state cs)) (cs_circulating_supply cs)
    (sorted_entries (canonical_updates slot_updates)).

Definition from_loaded_parts (state : SegmentedFriState) (active_slot_count alloc_counter : Z) :
    result (fault ExactStateReadError) ChainState :=
  supply ← loaded_circulating_supply state;
  let out := mkChainState state (zero_slot_root (sg_log_slots state)) active_slot_count alloc_counter
               supply (ExactSegmentRootCache_empty (sg_log_slots state)) in
  '(_, out) ← try_state_root out;
  Ok out.

Definition from_evicted_parts (state : SegmentedFriState)
    (active_slot_count alloc_counter circulating_supply : Z) (expected_root : list Z)
    (exact_segment_roots : list (Z * list Z)) : result (fault ExactStateReadError) ChainState :=
  exact_roots ← try_fold (λ roots '(segment_id, root),
      if Z.of_nat (length (xc_segment_roots roots)) <=? segment_id
      then Err (Fail (SegmentRootMismatch segment_id))
      else expect (set_segment_root roots segment_id root))
    (ExactSegmentRootCache_empty (sg_log_slots state)) exact_segment_roots;
  if bool_decide (cache_root exact_roots ≠ expected_root) then Err (Fail (SegmentRootMismatch 0))
  else Ok (mkChainState state expected_root active_slot_count alloc_counter circulating_supply exact_roots).

(** The checks of [from_sparse_utxos] on one slot. *)
Definition check_sparse_utxo (max_slots alloc_counter : Z) (seen : gset Z) (entry : Z * SlotValue) :
    result (fault SparseUtxoBuildError) (gset Z) :=
  let '(index, slot) := entry in
  if max_slots <=? index then Err (Fail SB_SlotOutOfRange)
  else
    seen ← insert_fresh (Fail (SB_DuplicateSlot index)) seen index;
    if is_empty slot then Err (Fail (SB_EmptySlot index))
    else if negb (is_coinbase_creation_id (slot_creation_id slot))
         && (alloc_counter <? slot_creation_id slot)
    then Err (Fail (SB_CreationIdExceedsAllocCounter index (slot_creation_id slot) alloc_counter))
    else Ok seen.

Definition from_sparse_utxos (log_slots : nat) (slots : list (Z * SlotValue)) (alloc_counter : Z) :
    result (fault SparseUtxoBuildError) ChainState :=
  max_slots ← ok_or (checked_shl_1 log_slots) (Fail SB_SlotOutOfRange);
  _ ← try_fold (check_sparse_utxo max_slots alloc_counter) ∅ slots;
  cs ← expect (with_log_slots log_slots);
  st ← map_fault SB_State (apply_delta_unrooted (cs_state cs) slots);
  let cs := mkChainState st (cs_utxo_root cs) (Z.of_nat (length slots)) alloc_counter
              (sum_Z ((λ s, slot_amount (snd s)) <$> slots)) (cs_exact_roots cs) in
  '(_, cs) ← map_err (λ _, Panic) (try_state_root cs);
  Ok cs.

(** ** Expansion *)

Definition expand_one (cs : ChainState) : option ChainState :=
  let st := cs_state cs in
  let old_log_slots := sg_log_slots st in
  let exact_cache_was_current :=
    bool_decide (sg_exact_dirty st = ∅)
    && bool_decide (xc_log_slots (cs_exact_roots cs) = old_log_slots)
    && bool_decide (cache_root (cs_exact_roots cs) = cs_utxo_root cs) in
  st ← expand st;
  let st := if exact_cache_was_current then clear_exact_dirty st else st in
  Some (mkChainState st (state_node_hash (cs_utxo_root cs) (zero_slot_root old_log_slots))
          (cs_active_slot_count cs) (cs_alloc_counter cs) (cs_circulating_supply cs)
          (cache_expand_one (cs_exact_roots cs))).

Definition ChainState_expand_exact_metadata_for_replay (cs : ChainState) :
    result StateResizeError ChainState :=
  let old_log_slots := sg_log_slots (cs_state cs) in
  st ← expand_exact_metadata_for_replay (cs_state cs);
  Ok (mkChainState st (state_node_hash (cs_utxo_root cs) (zero_slot_root old_log_slots))
        (cs_active_slot_count cs) (cs_alloc_counter cs) (cs_circulating_supply cs)
        (cache_expand_one (cs_exact_roots cs))).

(** ** Reinstalling an evicted segment *)

Definition restore_evicted_segment (cs : ChainState) (segment_id : Z) (columns : SegmentColumns) :
    result (fault ExactStateReadError) ChainState :=
  let st := cs_state cs in
  let mismatch := Err (Fail (SegmentRootMismatch segment_id)) in
  let expected_len := (2 ^ effective_log_segment_size st)%nat in
  if bool_decide (length (sc_values columns) ≠ expected_len)
     || bool_decide (length (sc_owners_hi columns) ≠ expected_len)
     || bool_decide (length (sc_owners_lo columns) ≠ expected_len)
  then mismatch
  else
    let actual_live := length (filter (λ s, negb (is_empty s)) (cols_slots columns)) in
    if bool_decide (segment_live_count st segment_id ≠ Z.of_nat actual_live) then mismatch
    else
      actual ← expect (exact_segment_root_with_updates (effective_log_segment_size st) (Some columns) ∅);
      if bool_decide (vec_get (xc_segment_roots (cs_exact_roots cs)) segment_id ≠ Some actual) then mismatch
      else
        st ← expect (restore_shared_evicted_segment st segment_id columns);
        Ok (mkChainState st (cs_utxo_root cs) (cs_active_slot_count cs) (cs_alloc_counter cs)
              (cs_circulating_supply cs) (cs_exact_roots cs)).

(** ** The verified exact transition *)

(** The updates grouped by segment of the target geometry. *)
Definition group_updates (target_effective_log : nat) (slot_updates : list (Z * SlotValue)) :
    gmap Z (gmap Z SlotValue) :=
  let local_mask := Z.shiftl 1 (Z.of_nat target_effective_log) - 1 in
  foldl (λ acc '(index, value),
      let segment := wrap 16 (Z.shiftr index (Z.of_nat target_effective_log)) in
      let local := default ∅ (acc !! segment) in
      <[segment := <[Z.land index local_mask := value]> local]> acc) ∅ slot_updates.

(** The body of the loop over [updates_by_segment]. *)
Definition update_segment_root (st : SegmentedFriState) (target_effective_log : nat)
    (updates_by_segment : gmap Z (gmap Z SlotValue)) (roots : ExactSegmentRootCache) (segment_id : Z) :
    result (fault ApplyExactTransitionError) ExactSegmentRootCache :=
  let local_updates := default ∅ (updates_by_segment !! segment_id) in
  columns ← (if Z.of_nat (sg_num_segments st) <=? segment_id then Ok None
             else if is_evicted st segment_id
             then Err (Fail (ET_ExactStateRead (EvictedSegment segment_id)))
             else expect (try_get_segment_columns st segment_id));
  root ← expect (exact_segment_root_with_updates target_effective_log columns local_updates);
  expect (set_segment_root roots segment_id root).

Definition exact_utxo_root_after_slot_updates (cs : ChainState) (log_slots : nat)
    (slot_updates : list (Z * SlotValue)) : result (fault ApplyExactTransitionError) (list Z) :=
  let st := cs_state cs in
  let current_depth := sg_log_slots st in
  if bool_decide (log_slots < current_depth)%nat || bool_decide (current_depth + 1 < log_slots)%nat
  then Err (Fail ET_HeaderLogSlotsMismatch)
  else
    target_slots ← ok_or (checked_shl_1 log_slots) (Fail ET_HeaderLogSlotsMismatch);
    let target_effective_log := Nat.min log_slots LOG_SEGMENT_SIZE in
    if existsb (λ d, target_slots <=? fst d) slot_updates then Err (Fail ET_SlotOutOfRange)
    else
      exact_roots ← map_fault ET_ExactStateRead
        (refresh_segments st (cs_exact_roots cs) (elements (sg_exact_dirty st)));
      if bool_decide (cache_root exact_roots ≠ cs_utxo_root cs) then Err (Fail ET_CachedRootMismatch)
      else
        let exact_roots := if decide (current_depth < log_slots)%nat
                           then cache_expand_one exact_roots else exact_roots in
        let updates_by_segment := group_updates target_effective_log slot_updates in
        exact_roots ← try_fold (update_segment_root st target_effective_log updates_by_segment)
          exact_roots (merge_sort Z.le (elements (dom updates_by_segment)));
        Ok (cache_root exact_roots).

Definition apply_verified_exact_transition (cs : ChainState) (log_slots : nat)
    (child_state_root : list Z) (slot_updates : list (Z * SlotValue))
    (active_slot_count alloc_counter : Z) :
    result (fault ApplyExactTransitionError) (list Z * ChainState) :=
  let current_log_slots := sg_log_slots (cs_state cs) in
  if bool_decide (log_slots < current_log_slots)%nat || bool_decide (current_log_slots + 1 < log_slots)%nat
  then Err (Fail ET_HeaderLogSlotsMismatch)
  else
    target_slots ← ok_or (checked_shl_1 log_slots) (Fail ET_HeaderLogSlotsMismatch);
    if existsb (λ d, target_slots <=? fst d) slot_updates then Err (Fail ET_SlotOutOfRange)
    else
      computed_child ← exact_utxo_root_after_slot_updates cs log_slots slot_updates;
      if bool_decide (computed_child ≠ child_state_root) then Err (Fail ET_CachedRootMismatch)
      else
        supply ← map_fault (λ _, ET_CirculatingSupplyInvariant) (supply_after_slot_updates cs slot_updates);
        cs ← (if decide (log_slots = current_log_slots + 1)%nat then
                if decide (LOG_SEGMENT_SIZE ≤ current_log_slots)%nat then
                  map_err (λ _, Fail ET_HeaderLogSlotsMismatch)
                    (ChainState_expand_exact_metadata_for_replay cs)
                else expect (expand_one cs)
              else Ok cs);
        st ← map_fault (λ _, ET_SlotOutOfRange) (apply_delta_unrooted (cs_state cs) slot_updates);
        '(applied_root, cs) ← map_fault ET_ExactStateRead
          (try_state_root (mkChainState st (cs_utxo_root cs) (cs_active_slot_count cs)
             (cs_alloc_counter cs) (cs_circulating_supply cs) (cs_exact_roots cs)));
        Ok (applied_root, mkChainState (cs_state cs) (cs_utxo_root cs) active_slot_count alloc_counter
                            supply (cs_exact_roots cs)).

(** ** Applying one transaction body *)

(** [(slot_index >> effective_log) as u16]. *)
Definition slot_segment (cs : ChainState) (slot_index : Z) : Z :=
  wrap 16 (Z.shiftr slot_index (Z.of_nat (effective_log_segment_size (cs_state cs)))).

(** The check of one live input against the state, and its delta. *)
Definition spend_input (cs : ChainState) (body : TxBody) (input : TxInput) :
    result (fault ApplyError) (Z * SlotValue) :=
  if num_slots (cs_state cs) <=? ti_slot_index input then Err (Fail AE_SlotOutOfRange)
  else if is_evicted (cs_state cs) (slot_segment cs (ti_slot_index input))
  then Err (Fail AE_ExactStateUnavailable)
  else
    current ← expect (slot (cs_state cs) (ti_slot_index input));
    let expected := with_owner_fields (ti_amount input) (ti_creation_id input)
                      (as_fields (tb_input_owner body)) in
    if bool_decide (current ≠ expected) then Err (Fail AE_UnknownOrSpentInput)
    else Ok (ti_slot_index input, EMPTY).

(** The check of one live output, its creation id and its delta. *)
Definition mint_output (cs : ChainState) (body : TxBody) (coinbase_mint_height : option Z)
    (acc : Z * list (Z * SlotValue)) (output : TxOutput) :
    result (fault ApplyError) (Z * list (Z * SlotValue)) :=
  let '(alloc_cursor, deltas) := acc in
  if num_slots (cs_state cs) <=? to_slot_index output then Err (Fail AE_SlotOutOfRange)
  else if is_evicted (cs_state cs) (slot_segment cs (to_slot_index output))
  then Err (Fail AE_ExactStateUnavailable)
  else
    current ← expect (slot (cs_state cs) (to_slot_index output));
    if bool_decide (current ≠ EMPTY) then Err (Fail AE_OutputSlotNotEmpty)
    else
      alloc_cursor ← ok_or (checked_add 64 alloc_cursor 1) (Fail AE_AllocCounterOverflow);
      creation_id ← (if is_primary_coinbase_shape body then
                       height ← ok_or coinbase_mint_height (Fail AE_CoinbaseMintHeightMissing);
                       Ok (coinbase_creation_id height)
                     else Ok alloc_cursor);
      Ok (alloc_cursor, deltas ++ [(to_slot_index output,
            with_owner_fields (to_amount output) creation_id (as_fields (to_owner output)))]).

Definition apply_tx_checked_deferred_root (cs : ChainState) (body : TxBody)
    (coinbase_mint_height : option Z) : result (fault ApplyError) ChainState :=
  if tb_is_coinbase body && bool_decide (coinbase_mint_height = None)
  then Err (Fail AE_CoinbaseMintHeightMissing)
  else
    input_slots ← try_fold (λ s p, insert_fresh (Fail AE_UnknownOrSpentInput) s (ti_slot_index (snd p)))
                    ∅ (live_inputs body);
    _ ← try_fold (λ s p,
          s ← insert_fresh (Fail AE_DuplicateOutputSlot) s (to_slot_index (snd p));
          if decide (to_slot_index (snd p) ∈ input_slots) then Err (Fail AE_InputOutputSlotOverlap) else Ok s)
        ∅ (live_outputs body);
    deltas ← try_fold (λ deltas p, d ← spend_input cs body (snd p); Ok (deltas ++ [d]))
               [] (live_inputs body);
    active_after_spends ← ok_or (checked_sub (cs_active_slot_count cs) (live_input_count body))
                            (Fail AE_ActiveSlotCountUnderflow);
    active_after ← ok_or (checked_add 64 active_after_spends (live_output_count body))
                     (Fail AE_ActiveSlotCountOverflow);
    final_alloc_counter ← ok_or (checked_add 64 (cs_alloc_counter cs) (live_output_count body))
                            (Fail AE_AllocCounterOverflow);
    if is_coinbase_creation_id final_alloc_counter then Err (Fail AE_AllocCounterOverflow)
    else
      '(_, deltas) ← try_fold (λ acc p, mint_output cs body coinbase_mint_height acc (snd p))
                       (cs_alloc_counter cs, deltas) (live_outputs body);
      supply ← map_fault (λ _, AE_CirculatingSupplyInvariant) (supply_after_slot_updates cs deltas);
      st ← map_err (λ _, Panic) (apply_delta_unrooted (cs_state cs) deltas);
      Ok (mkChainState st (cs_utxo_root cs) active_after final_alloc_counter supply (cs_exact_roots cs)).

Definition apply_tx_inner (cs : ChainState) (body : TxBody) (block_height : option Z) :
    result (fault ApplyError) (list Z * ChainState) :=
  snapshot ← apply_tx_checked_deferred_root cs body block_height;
  map_fault (λ _, AE_ExactStateUnavailable) (try_state_root snapshot).

Definition apply_tx (cs : ChainState) (body : TxBody) : result (fault ApplyError) (list Z * ChainState) :=
  if tb_is_coinbase body then Err (Fail AE_CoinbaseMintHeightMissing)
  else apply_tx_inner cs body None.

Definition apply_tx_at (cs : ChainState) (body : TxBody) (block_height : Z) :
    result (fault ApplyError) (list Z * ChainState) :=
  apply_tx_inner cs body (Some block_height).

End chain_state.
