(* ===== verification/ChainStateInv.v ===== *)
(** * Invariants of the chain state

    A chain state represents a finite map of live slots; its circulating supply
    is the sum of their amounts, its allocation counter bounds their creation
    ids, its live-slot counter never exceeds their number, and its root cache
    holds the reference root of every segment that is not marked dirty.

    The live-slot counter may fall below the number of live slots: the code
    accepts an input whose amount, creation id and owner are all zero, which
    matches an empty slot, and counts it as spent.  [counted] is the equality;
    it is kept by bodies without such inputs ([spends_live]). *)

From S2P Require Import Prelude Machine Params Poseidon TxTypes Merkle SlotState SlotInv SparseRoot SparseRootProofs ChainState.

#[local] Arguments slot_amount : simpl never.

(** ** Supply of a slot map *)

Definition supply (m : gmap Z SlotValue) : Z :=
  sum_Z ((λ p, slot_amount (snd p)) <$> map_to_list m).

Lemma slot_amount_EMPTY : slot_amount EMPTY = 0.
Proof. reflexivity. Qed.

Lemma slot_amount_bound v : 0 ≤ slot_amount v < 2 ^ 64.
Proof. unfold slot_amount, unpack_amount_creation_id, wrap. cbn. apply Z.mod_pos_bound. lia. Qed.

Lemma supply_insert m i v : m !! i = None → supply (<[i := v]> m) = supply m + slot_amount v.
Proof.
  intros Hi. unfold supply. rewrite (sum_Z_Permutation _ _ (Permutation_map _ (map_to_list_insert m i v Hi))).
  rewrite fmap_cons. unfold sum_Z. cbn. lia.
Qed.

Lemma supply_delete m i : supply (delete i m) = supply m - slot_amount (m_get m i).
Proof.
  unfold m_get. destruct (m !! i) as [v|] eqn:Hi; cbn.
  - pose proof (supply_insert (delete i m) i v (lookup_delete_eq m i)) as Hs.
    rewrite insert_delete_id in Hs by done. lia.
  - rewrite delete_id by done. rewrite slot_amount_EMPTY. lia.
Qed.

Lemma supply_set m i v : supply (m_set m i v) = supply m - slot_amount (m_get m i) + slot_amount v.
Proof.
  unfold m_set. case_decide as Hv.
  - subst v. rewrite supply_delete, slot_amount_EMPTY. lia.
  - rewrite <- insert_delete_eq, supply_insert by apply lookup_delete_eq. rewrite supply_delete. lia.
Qed.

Lemma supply_nonneg m : 0 ≤ supply m.
Proof.
  unfold supply. apply sum_Z_nonneg, Forall_fmap, Forall_forall. intros [i v] _. cbn.
  pose proof (slot_amount_bound v). lia.
Qed.

(** The slot domain is too small for a [u128] overflow. *)
Lemma supply_bound m n : (∀ i v, m !! i = Some v → 0 ≤ i < n) → supply m ≤ Z.max 0 n * 2 ^ 64.
Proof.
  intros Hd. assert (Hs : Z.of_nat (size m) ≤ Z.max 0 n).
  { assert (Hsub : dom m ⊆ list_to_set (C := gset Z) (seqZ 0 n)).
    { intros i [v Hv]%elem_of_dom. apply elem_of_list_to_set, elem_of_seqZ. apply Hd in Hv. lia. }
    apply subseteq_size in Hsub. rewrite size_list_to_set in Hsub by apply NoDup_seqZ.
    rewrite length_seqZ, size_dom in Hsub. lia. }
  unfold supply. rewrite <- length_map_to_list in Hs.
  assert (Hle : ∀ l : list (Z * SlotValue),
    sum_Z ((λ p, slot_amount (snd p)) <$> l) ≤ Z.of_nat (length l) * 2 ^ 64).
  { induction l as [|[i v] l IH]; unfold sum_Z in *; cbn [fmap list_fmap foldr length]; [lia|].
    pose proof (slot_amount_bound v). cbn [snd]. lia. }
  etrans; [apply Hle|]. nia.
Qed.

(** ** Updates in canonical order *)

Lemma m_get_update m deltas i :
  m_get (m_update m deltas) i = default (m_get m i) (canonical_updates deltas !! i).
Proof.
  unfold m_update, canonical_updates. revert m.
  enough (Hgen : ∀ m (acc : gmap Z SlotValue) m0,
    (∀ i, m_get m i = default (m_get m0 i) (acc !! i)) →
    m_get (foldl (λ m d, m_set m d.1 d.2) m deltas) i
    = default (m_get m0 i) (foldl (λ m d, <[d.1 := d.2]> m) acc deltas !! i)).
  { intros m. apply (Hgen m ∅ m). intros j. by rewrite lookup_empty. }
  induction deltas as [|[k v] deltas IH]; intros m acc m0 Hacc; cbn [foldl fst snd]; [apply Hacc|].
  apply IH. intros j. rewrite m_get_set. destruct (decide (k = j)) as [->|Hne].
  - by rewrite lookup_insert_eq.
  - by rewrite lookup_insert_ne by done.
Qed.

Lemma m_ext m1 m2 :
  (∀ i v, m1 !! i = Some v → v ≠ EMPTY) → (∀ i v, m2 !! i = Some v → v ≠ EMPTY) →
  (∀ i, m_get m1 i = m_get m2 i) → m1 = m2.
Proof.
  intros H1 H2 Hg. apply map_eq. intros i. specialize (Hg i). unfold m_get in Hg.
  destruct (m1 !! i) as [v|] eqn:E1, (m2 !! i) as [w|] eqn:E2; cbn in Hg; try congruence;
    [apply H1 in E1|apply H2 in E2]; congruence.
Qed.

Lemma m_update_live m deltas :
  (∀ i v, m !! i = Some v → v ≠ EMPTY) → ∀ i v, m_update m deltas !! i = Some v → v ≠ EMPTY.
Proof.
  revert m. induction deltas as [|d deltas IH]; intros m Hm; [done|]. apply IH.
  intros i v. by apply m_set_live.
Qed.

Lemma sorted_entries_spec (u : gmap Z SlotValue) :
  NoDup (fst <$> sorted_entries u) ∧ ∀ i v, (i, v) ∈ sorted_entries u ↔ u !! i = Some v.
Proof.
  unfold sorted_entries. set (keys := merge_sort Z.le (elements (dom u))).
  assert (Hk : ∀ k, k ∈ keys ↔ is_Some (u !! k)).
  { intros k. unfold keys. rewrite (merge_sort_Permutation Z.le), elem_of_elements. apply elem_of_dom. }
  assert (Hnd : NoDup keys).
  { unfold keys. rewrite (merge_sort_Permutation Z.le). apply NoDup_elements. }
  split.
  - assert (Hf : fst <$> omap (λ k, pair k <$> u !! k) keys = keys).
    { assert (Hall : Forall (λ k, is_Some (u !! k)) keys) by (apply Forall_forall; intros k; apply Hk).
      clearbody keys. clear Hk Hnd. induction Hall as [|k ks [v Hv] _ IH]; [done|]. cbn.
      rewrite Hv. cbn. by f_equal. }
    by rewrite Hf.
  - intros i v. rewrite list_elem_of_omap. split.
    + intros (k & _ & Hkv). destruct (u !! k) eqn:Hu; [|done]. cbn in Hkv. by simplify_eq.
    + intros Hv. exists i. rewrite Hk, Hv. split; [eauto|done].
Qed.

Lemma canonical_of_nodup l i v :
  NoDup (fst <$> l) → (i, v) ∈ l → canonical_updates l !! i = Some v.
Proof.
  unfold canonical_updates. intros Hnd Hin.
  enough (Hgen : ∀ acc : gmap Z SlotValue, foldl (λ m d, <[d.1 := d.2]> m) acc l !! i = Some v) by apply Hgen.
  revert Hnd Hin. induction l as [|[k w] l IH]; intros Hnd Hin acc; [by apply not_elem_of_nil in Hin|].
  cbn in Hnd. apply NoDup_cons in Hnd as [Hk Hnd]. cbn [foldl fst snd].
  apply elem_of_cons in Hin as [[= -> ->]|Hin]; [|by apply IH].
  clear IH. assert (Hni : k ∉ fst <$> l) by done. revert Hni. clear.
  generalize (<[k := w]> acc) (lookup_insert_eq acc k w). intros m Hm Hni.
  revert m Hm. induction l as [|[j x] l IH]; intros m Hm; [done|]. cbn in *.
  apply not_elem_of_cons in Hni as [Hne Hni]. apply IH; [done|]. by rewrite lookup_insert_ne.
Qed.

Lemma canonical_none l i : i ∉ fst <$> l → canonical_updates l !! i = None.
Proof.
  unfold canonical_updates. intros Hi.
  enough (Hgen : ∀ acc : gmap Z SlotValue, acc !! i = None →
    foldl (λ m d, <[d.1 := d.2]> m) acc l !! i = None) by by apply Hgen.
  induction l as [|[k w] l IH]; intros acc Hacc; [done|]. cbn in *. apply not_elem_of_cons in Hi as [Hne Hi].
  apply IH; [done|]. by rewrite lookup_insert_ne.
Qed.

(** The sorted, deduplicated updates have the effect of the original ones. *)
Lemma m_update_sorted m deltas :
  (∀ i v, m !! i = Some v → v ≠ EMPTY) →
  m_update m (sorted_entries (canonical_updates deltas)) = m_update m deltas.
Proof.
  intros Hm. apply m_ext; [by apply m_update_live..|]. intros i. rewrite !m_get_update. f_equal.
  destruct (sorted_entries_spec (canonical_updates deltas)) as [Hnd Hspec].
  destruct (canonical_updates deltas !! i) as [v|] eqn:Hi.
  - apply canonical_of_nodup; [done|]. by apply Hspec.
  - apply canonical_none. intros ([k v] & Heq & Hin)%list_elem_of_fmap. cbn in Heq. subst k.
    apply Hspec in Hin. congruence.
Qed.

(** ** The invariant *)

Section invariant.
  Context {P : Poseidon2bPermutation} {C : SegmentCommitment}.

(** The cached root of every segment that is not dirty is its reference root. *)
Record cache_current (cs : ChainState) (m : gmap Z SlotValue) : Prop := {
  cc_log : xc_log_slots (cs_exact_roots cs) = sg_log_slots (cs_state cs);
  cc_roots : ∃ roots, cache_ok (cs_exact_roots cs) roots ∧
    ∀ s, 0 ≤ s < Z.of_nat (sg_num_segments (cs_state cs)) → s ∉ sg_exact_dirty (cs_state cs) →
      roots s = segment_root_of (sg_effective_log_seg (cs_state cs)) (m_get m) s;
}.

Record cs_inv (cs : ChainState) (m : gmap Z SlotValue) : Prop := {
  ci_wf : state_wf (cs_state cs);
  ci_rep : represents (cs_state cs) m;
  ci_active : 0 ≤ cs_active_slot_count cs ≤ Z.of_nat (size m);
  ci_supply : cs_circulating_supply cs = supply m;
  ci_alloc : 0 ≤ cs_alloc_counter cs < 2 ^ 63;
  ci_ids : ∀ i v, m !! i = Some v → is_coinbase_creation_id (slot_creation_id v) = false →
    1 ≤ slot_creation_id v ≤ cs_alloc_counter cs;
  ci_unique : ∀ i j v w, m !! i = Some v → m !! j = Some w →
    is_coinbase_creation_id (slot_creation_id v) = false →
    slot_creation_id v = slot_creation_id w → i = j;
  ci_cache : cache_current cs m;
}.

(** The live-slot counter is exact. *)
Definition counted (cs : ChainState) (m : gmap Z SlotValue) : Prop :=
  cs_active_slot_count cs = Z.of_nat (size m).

(** The root is up to date. *)
Definition sealed (cs : ChainState) (m : gmap Z SlotValue) : Prop :=
  sg_exact_dirty (cs_state cs) = ∅
  ∧ cs_utxo_root cs = exact_root (sg_log_slots (cs_state cs)) (m_get m).

Lemma ci_live cs m : cs_inv cs m → ∀ i v, m !! i = Some v → v ≠ EMPTY.
Proof. intros Hinv i v Hi. by apply (rep_dom _ _ (ci_rep _ _ Hinv)) in Hi as [_ ?]. Qed.

Lemma slot_segment_eq cs idx :
  state_wf (cs_state cs) → 0 ≤ idx < num_slots (cs_state cs) →
  slot_segment cs idx = segment_of (sg_effective_log_seg (cs_state cs)) idx.
Proof. intros Hwf Hi. by apply seg_id_of_eq. Qed.

(** ** Supply accounting *)

Definition update_in_reach (cs : ChainState) (d : Z * SlotValue) : Prop :=
  0 ≤ fst d < 2 ^ 32
  ∧ (fst d < num_slots (cs_state cs) →
     segment_of (sg_effective_log_seg (cs_state cs)) (fst d) ∉ sg_evicted (cs_state cs)).

Lemma num_slots_u32 st : state_wf st → 0 < num_slots st ≤ 2 ^ 32.
Proof.
  intros Hwf. rewrite num_slots_eq. pose proof (wf_log _ Hwf). split; [lia|]. apply Z.pow_le_mono_r; lia.
Qed.

Lemma m_update_dom m deltas n :
  (∀ i v, m !! i = Some v → 0 ≤ i < n) → Forall (λ d, 0 ≤ fst d < n) deltas →
  ∀ i v, m_update m deltas !! i = Some v → 0 ≤ i < n.
Proof.
  revert m. induction deltas as [|[k w] deltas IH]; intros m Hm Hd; [done|].
  apply Forall_cons in Hd as [Hk Hd]. apply IH; [|done]. intros i v Hi. cbn [fst snd] in *. unfold m_set in Hi.
  case_decide.
  - apply lookup_delete_Some in Hi as [_ Hi]. by eapply Hm.
  - apply lookup_insert_Some in Hi as [[<- _]|[_ Hi]]; [done|]. by eapply Hm.
Qed.

Lemma previous_slot_ok cs m d :
  state_wf (cs_state cs) → represents (cs_state cs) m → update_in_reach cs d →
  previous_slot (cs_state cs) (fst d) = Ok (m_get m (fst d)).
Proof.
  intros Hwf Hrep [Hk32 Hev]. unfold previous_slot.
  destruct (Z.ltb_spec (fst d) (num_slots (cs_state cs))) as [Hlt|Hge].
  - pose proof (slot_segment_eq cs (fst d) Hwf ltac:(lia)) as Hs. unfold slot_segment in Hs. rewrite Hs.
    unfold is_evicted. rewrite bool_decide_false by auto. rewrite (rep_slot _ _ Hrep) by (lia || auto). done.
  - rewrite (m_get_outside m (fst d) (num_slots (cs_state cs))); [done| |done].
    intros i w Hi. by apply (rep_dom _ _ Hrep) in Hi as [? _].
Qed.

Lemma supply_step_ok cs m m' d :
  state_wf (cs_state cs) → represents (cs_state cs) m → update_in_reach cs d →
  (∀ i v, m' !! i = Some v → 0 ≤ i < 2 ^ 32) → m_get m' (fst d) = m_get m (fst d) →
  supply_step (cs_state cs) (supply m') d = Ok (supply (m_set m' (fst d) (snd d))).
Proof.
  intros Hwf Hrep Hd Hd' Hget. unfold supply_step. rewrite (previous_slot_ok cs m) by done.
  cbn [mbind result_bind]. rewrite <- Hget. destruct d as [k v]. cbn [fst snd] in *.
  pose proof (supply_set m' k EMPTY) as Hdel. pose proof (supply_nonneg (m_set m' k EMPTY)).
  rewrite slot_amount_EMPTY in Hdel.
  assert (Hd2 : ∀ i w, m_set m' k v !! i = Some w → 0 ≤ i < 2 ^ 32).
  { apply (m_update_dom m' [(k, v)]); [done|]. constructor; [by destruct Hd|done]. }
  pose proof (supply_bound _ _ Hd2). pose proof (supply_set m' k v) as Hset.
  unfold checked_sub. destruct (Z.leb_spec (slot_amount (m_get m' k)) (supply m')); [|lia].
  cbn [ok_or mbind result_bind]. unfold checked_add.
  destruct (Z.ltb_spec (supply m' - slot_amount (m_get m' k) + slot_amount v) (2 ^ 128)); [|lia].
  cbn [ok_or]. by rewrite <- Hset.
Qed.

Lemma supply_fold_ok cs m l :
  state_wf (cs_state cs) → represents (cs_state cs) m → NoDup (fst <$> l) → Forall (update_in_reach cs) l →
  ∀ m', (∀ i v, m' !! i = Some v → 0 ≤ i < 2 ^ 32) → (∀ i, i ∈ fst <$> l → m_get m' i = m_get m i) →
  try_fold (supply_step (cs_state cs)) (supply m') l = Ok (supply (m_update m' l)).
Proof.
  intros Hwf Hrep. induction l as [|d l IH]; intros Hnd Hl m' Hd' Hget; [done|].
  rewrite fmap_cons in Hnd. apply NoDup_cons in Hnd as [Hk Hnd]. apply Forall_cons in Hl as [Hd Hl].
  cbn [try_fold]. rewrite (supply_step_ok cs m m' d) by (done || apply Hget; by left).
  cbn [mbind result_bind]. rewrite (IH Hnd Hl (m_set m' (fst d) (snd d))); [done| |].
  - apply (m_update_dom m' [d]); [done|]. constructor; [by destruct Hd|done].
  - intros i Hi. rewrite m_get_set, decide_False by (intros <-; done). apply Hget. by right.
Qed.

Lemma supply_after_slot_updates_ok cs m updates :
  state_wf (cs_state cs) → represents (cs_state cs) m → cs_circulating_supply cs = supply m →
  Forall (update_in_reach cs) updates →
  supply_after_slot_updates cs updates = Ok (supply (m_update m updates)).
Proof.
  intros Hwf Hrep Hs Hl. unfold supply_after_slot_updates. rewrite Hs.
  assert (Hm : ∀ i v, m !! i = Some v → v ≠ EMPTY) by (intros ? ? ?%(rep_dom _ _ Hrep); tauto).
  rewrite <- (m_update_sorted m updates Hm).
  destruct (sorted_entries_spec (canonical_updates updates)) as [Hnd Hspec].
  apply (supply_fold_ok cs m); [done|done|done| | |done].
  - apply Forall_forall. intros [k v] Hkv. apply Hspec in Hkv.
    destruct (decide (k ∈ fst <$> updates)) as [Hin|Hni]; [|rewrite canonical_none in Hkv by done; done].
    apply list_elem_of_fmap in Hin as ([k' v'] & -> & Hin). rewrite Forall_forall in Hl. apply (Hl _ Hin).
  - intros i v Hi. pose proof (num_slots_u32 _ Hwf). apply (rep_dom _ _ Hrep) in Hi. lia.
Qed.

(** ** Sums over updates *)

Lemma size_set m i v :
  (∀ i v, m !! i = Some v → v ≠ EMPTY) →
  Z.of_nat (size (m_set m i v)) =
  Z.of_nat (size m) - (if is_empty (m_get m i) then 0 else 1) + (if is_empty v then 0 else 1).
Proof.
  intros Hm. rewrite m_get_is_empty by done. unfold m_set, is_empty. case_decide as Hv.
  - rewrite (bool_decide_true (v = EMPTY)), map_size_delete by done.
    destruct (m !! i) eqn:Hi; [|rewrite bool_decide_true by done; unfold id; lia].
    rewrite bool_decide_false by done. assert (size m ≠ 0%nat); [|lia].
    intros ->%map_size_empty_inv. by rewrite lookup_empty in Hi.
  - rewrite (bool_decide_false (v = EMPTY)), map_size_insert by done.
    destruct (m !! i); [rewrite bool_decide_false by done|rewrite bool_decide_true by done]; unfold id; lia.
Qed.

(** A measure that changes by [w new - w old] at each write changes by the sum
    over a batch of writes to distinct slots. *)
Lemma m_update_measure (mu : gmap Z SlotValue → Z) (w : SlotValue → Z) l :
  (∀ m i v, (∀ i v, m !! i = Some v → v ≠ EMPTY) → mu (m_set m i v) = mu m - w (m_get m i) + w v) →
  NoDup (fst <$> l) →
  ∀ m, (∀ i v, m !! i = Some v → v ≠ EMPTY) →
  mu (m_update m l) = mu m + sum_Z ((λ d, w (snd d) - w (m_get m (fst d))) <$> l).
Proof.
  intros Hmu. induction l as [|[k v] l IH]; intros Hnd m Hm; [unfold sum_Z; cbn; lia|].
  cbn in Hnd. apply NoDup_cons in Hnd as [Hk Hnd].
  change (m_update m ((k, v) :: l)) with (m_update (m_set m k v) l).
  rewrite (IH Hnd) by (intros ? ?; by apply m_set_live). rewrite Hmu by done. rewrite fmap_cons.
  unfold sum_Z. cbn [foldr fst snd]. fold (sum_Z ((λ d, w d.2 - w (m_get m d.1)) <$> l)).
  replace ((λ d, w d.2 - w (m_get (m_set m k v) d.1)) <$> l) with ((λ d, w d.2 - w (m_get m d.1)) <$> l);
    [unfold sum_Z; lia|].
  apply list_fmap_ext. intros j d Hd. rewrite m_get_set, decide_False; [done|].
  intros ->. apply Hk, list_elem_of_fmap. exists d. split; [done|]. by eapply list_elem_of_lookup_2.
Qed.

Lemma m_update_lookup m l i v :
  m_update m l !! i = Some v → (i, v) ∈ l ∨ (i ∉ fst <$> l ∧ m !! i = Some v).
Proof.
  revert m. induction l as [|[k w] l IH]; intros m Hi; [right; split; [set_solver|done]|].
  change (m_update m ((k, w) :: l)) with (m_update (m_set m k w) l) in Hi.
  apply IH in Hi as [Hi|[Hni Hi]]; [left; by right|]. unfold m_set in Hi. case_decide.
  - apply lookup_delete_Some in Hi as [Hne Hi]. right. split; [|done]. cbn. set_solver.
  - apply lookup_insert_Some in Hi as [[<- <-]|[Hne Hi]]; [left; by left|]. right. split; [|done]. cbn. set_solver.
Qed.

(** ** The effect of a transaction *)

Definition input_value (body : TxBody) (input : TxInput) : SlotValue :=
  with_owner_fields (ti_amount input) (ti_creation_id input) (as_fields (tb_input_owner body)).

Definition spent (body : TxBody) : list (Z * SlotValue) :=
  (λ p, (ti_slot_index (snd p), EMPTY)) <$> live_inputs body.

(** The creation id of the [j]-th live output. *)
Definition mint_id (alloc : Z) (body : TxBody) (height : option Z) (j : nat) : Z :=
  if is_primary_coinbase_shape body then coinbase_creation_id (default 0 height)
  else alloc + 1 + Z.of_nat j.

Definition minted (alloc : Z) (body : TxBody) (height : option Z) : list (Z * SlotValue) :=
  imap (λ j p, (to_slot_index (snd p),
    with_owner_fields (to_amount (snd p)) (mint_id alloc body height j) (as_fields (to_owner (snd p)))))
    (live_outputs body).

Definition tx_deltas (alloc : Z) (body : TxBody) (height : option Z) : list (Z * SlotValue) :=
  spent body ++ minted alloc body height.

(** ** Inverting the checks *)

Definition slot_readable (cs : ChainState) (idx : Z) : Prop :=
  0 ≤ idx < num_slots (cs_state cs)
  ∧ segment_of (sg_effective_log_seg (cs_state cs)) idx ∉ sg_evicted (cs_state cs).

(** The root cache stays current: every segment that changed is marked dirty. *)
Lemma cache_current_update cs0 cs1 m0 m1 :
  same_geometry (cs_state cs0) (cs_state cs1) → state_wf (cs_state cs1) →
  cs_exact_roots cs1 = cs_exact_roots cs0 →
  sg_exact_dirty (cs_state cs0) ⊆ sg_exact_dirty (cs_state cs1) →
  changes_dirty (cs_state cs1) m0 m1 →
  (∀ i, m_get m1 i ≠ m_get m0 i → 0 ≤ i < num_slots (cs_state cs1)) →
  cache_current cs0 m0 → cache_current cs1 m1.
Proof.
  intros Hg Hwf Hr Hsub Hch Hdom [Hlog (roots & Hc & Hroots)]. constructor.
  - by rewrite Hr, Hlog, (sg_same_log _ _ Hg).
  - exists roots. rewrite Hr. split; [done|]. intros s Hs Hns. rewrite (sg_same_num _ _ Hg) in Hs.
    rewrite Hroots by (done || set_solver). rewrite (sg_same_eff _ _ Hg).
    apply segment_root_of_ext. intros i Hi. destruct (decide (m_get m1 i = m_get m0 i)) as [|Hne]; [done|].
    exfalso. apply Hns. rewrite <- Hi, <- (sg_same_eff _ _ Hg). apply Hch; auto.
Qed.

Section apply.
  Context (cs : ChainState) (m : gmap Z SlotValue) (body : TxBody) (height : option Z)
    (Hinv : cs_inv cs m) (Hbody : TxBody_wf body).

Lemma spend_input_Ok input d :
  0 ≤ ti_slot_index input → spend_input cs body input = Ok d →
  slot_readable cs (ti_slot_index input) ∧ m_get m (ti_slot_index input) = input_value body input
  ∧ d = (ti_slot_index input, EMPTY).
Proof.
  intros H0 Hs. unfold spend_input in Hs. apply if_err_Ok in Hs as [Hr Hs]. apply if_err_Ok in Hs as [Hev Hs].
  apply bind_Ok in Hs as (cur & Hcur & Hs). apply expect_Ok in Hcur. apply if_err_Ok in Hs as [Heq [= <-]].
  apply bool_decide_eq_false, dec_stable in Heq.
  assert (Hrange : 0 ≤ ti_slot_index input < num_slots (cs_state cs)) by lia.
  rewrite slot_segment_eq in Hev by (done || apply (ci_wf _ _ Hinv)).
  unfold is_evicted in Hev. apply bool_decide_eq_false in Hev. split_and!; [by split| |done].
  rewrite (rep_slot _ _ (ci_rep _ _ Hinv)) in Hcur by done. unfold input_value. congruence.
Qed.

Lemma mint_output_Ok a deltas output a' deltas' :
  0 ≤ to_slot_index output → mint_output cs body height (a, deltas) output = Ok (a', deltas') →
  slot_readable cs (to_slot_index output) ∧ m_get m (to_slot_index output) = EMPTY ∧ a' = a + 1
  ∧ (is_primary_coinbase_shape body = true → height ≠ None)
  ∧ deltas' = deltas ++ [(to_slot_index output, with_owner_fields (to_amount output)
      (if is_primary_coinbase_shape body then coinbase_creation_id (default 0 height) else a + 1)
      (as_fields (to_owner output)))].
Proof.
  intros H0 Hs. unfold mint_output in Hs. apply if_err_Ok in Hs as [Hr Hs]. apply if_err_Ok in Hs as [Hev Hs].
  apply bind_Ok in Hs as (cur & Hcur & Hs). apply expect_Ok in Hcur. apply if_err_Ok in Hs as [Heq Hs].
  apply bool_decide_eq_false, dec_stable in Heq. apply bind_Ok in Hs as (a1 & Ha1 & Hs).
  apply ok_or_Ok, checked_add_Some in Ha1 as [-> _]. apply bind_Ok in Hs as (cid & Hcid & [= <- <-]).
  assert (Hrange : 0 ≤ to_slot_index output < num_slots (cs_state cs)) by lia.
  rewrite slot_segment_eq in Hev by (done || apply (ci_wf _ _ Hinv)).
  unfold is_evicted in Hev. apply bool_decide_eq_false in Hev.
  rewrite (rep_slot _ _ (ci_rep _ _ Hinv)) in Hcur by done.
  destruct (is_primary_coinbase_shape body).
  - apply bind_Ok in Hcid as (h & Hh & [= <-]). apply ok_or_Ok in Hh. subst height.
    split_and!; (done || congruence || by split).
  - injection Hcid as <-. split_and!; (done || congruence || by split).
Qed.

Lemma spend_fold_Ok l acc deltas :
  Forall (λ p : nat * TxInput, 0 ≤ ti_slot_index (snd p)) l →
  try_fold (λ deltas p, d ← spend_input cs body (snd p); Ok (deltas ++ [d])) acc l = Ok deltas →
  deltas = acc ++ ((λ p, (ti_slot_index (snd p), EMPTY)) <$> l)
  ∧ Forall (λ p, slot_readable cs (ti_slot_index (snd p))
       ∧ m_get m (ti_slot_index (snd p)) = input_value body (snd p)) l.
Proof.
  intros Hl. revert acc. induction Hl as [|p l Hp Hl IH]; intros acc Hf; cbn [try_fold] in Hf.
  { injection Hf as <-. rewrite app_nil_r. split; [done|constructor]. }
  apply bind_Ok in Hf as (acc1 & H1 & Hf). apply bind_Ok in H1 as (d & Hd & [= <-]).
  apply spend_input_Ok in Hd as (Hr & Hg & ->); [|done].
  apply IH in Hf as [-> Hall]. split; [|by constructor]. by rewrite <- app_assoc.
Qed.

Lemma mint_fold_Ok l a deltas a' deltas' j0 :
  Forall (λ p : nat * TxOutput, 0 ≤ to_slot_index (snd p)) l →
  a = cs_alloc_counter cs + Z.of_nat j0 →
  try_fold (λ acc p, mint_output cs body height acc (snd p)) (a, deltas) l = Ok (a', deltas') →
  deltas' = deltas ++ imap (λ j p, (to_slot_index (snd p), with_owner_fields (to_amount (snd p))
      (mint_id (cs_alloc_counter cs) body height (j0 + j)) (as_fields (to_owner (snd p))))) l
  ∧ Forall (λ p, slot_readable cs (to_slot_index (snd p)) ∧ m_get m (to_slot_index (snd p)) = EMPTY) l
  ∧ (is_primary_coinbase_shape body = true → l ≠ [] → height ≠ None).
Proof.
  intros Hl. revert a deltas j0. induction Hl as [|p l Hp Hl IH]; intros a deltas j0 Ha Hf; cbn [try_fold] in Hf.
  { injection Hf as <- <-. rewrite app_nil_r. split_and!; [done|constructor|done]. }
  apply bind_Ok in Hf as ([a1 deltas1] & H1 & Hf). apply mint_output_Ok in H1 as (Hr & Hg & -> & Hh & ->); [|done].
  apply (IH _ _ (S j0)) in Hf as (-> & Hall & _); [|lia]. rewrite imap_cons, <- app_assoc. cbn [app].
  split_and!; [|by constructor|auto].
  f_equal. f_equal; [|apply imap_ext; intros j x _; cbn; by rewrite Nat.add_succ_r].
  f_equal. f_equal. unfold mint_id. destruct (is_primary_coinbase_shape body); [done|]. lia.
Qed.

Lemma tx_deltas_keys alloc : fst <$> tx_deltas alloc body height = input_slots body ++ output_slots body.
Proof.
  unfold tx_deltas, spent, minted, input_slots, output_slots. rewrite fmap_app. f_equal.
  - by rewrite <- list_fmap_compose.
  - rewrite fmap_imap. generalize (live_outputs body) as l. intros l.
    enough (Hgen : ∀ f : nat → nat * TxOutput → Z, (∀ j p, f j p = to_slot_index (snd p)) →
      imap f l = (λ p, to_slot_index (snd p)) <$> l) by by apply Hgen.
    induction l as [|p l IH]; intros f Hf; [done|]. rewrite imap_cons, fmap_cons, Hf. f_equal.
    apply IH. intros. apply Hf.
Qed.

Lemma live_inputs_nonneg : Forall (λ p : nat * TxInput, 0 ≤ ti_slot_index (snd p)) (live_inputs body).
Proof. eapply Forall_impl; [by apply live_inputs_wf|]. intros p (Hs & _). unfold is_uint in Hs. lia. Qed.

Lemma live_outputs_nonneg : Forall (λ p : nat * TxOutput, 0 ≤ to_slot_index (snd p)) (live_outputs body).
Proof. eapply Forall_impl; [by apply live_outputs_wf|]. intros p (Hs & _). unfold is_uint in Hs. lia. Qed.

(** What an accepted body satisfies, and the state it yields. *)
Record tx_accepted (cs' : ChainState) : Prop := {
  ta_height : tb_is_coinbase body = true → height ≠ None;
  ta_slots : NoDup (input_slots body ++ output_slots body);
  ta_inputs : Forall (λ p, slot_readable cs (ti_slot_index (snd p))
    ∧ m_get m (ti_slot_index (snd p)) = input_value body (snd p)) (live_inputs body);
  ta_outputs : Forall (λ p, slot_readable cs (to_slot_index (snd p))
    ∧ m_get m (to_slot_index (snd p)) = EMPTY) (live_outputs body);
  ta_active : live_input_count body ≤ cs_active_slot_count cs;
  ta_alloc : cs_alloc_counter cs + live_output_count body < 2 ^ 63;
  ta_result : ∃ st', apply_delta_in_place (cs_state cs)
      (tx_deltas (cs_alloc_counter cs) body height) = Ok st'
    ∧ cs' = mkChainState st' (cs_utxo_root cs)
        (cs_active_slot_count cs - live_input_count body + live_output_count body)
        (cs_alloc_counter cs + live_output_count body)
        (supply (m_update m (tx_deltas (cs_alloc_counter cs) body height))) (cs_exact_roots cs);
}.

Lemma tx_deltas_in_reach alloc :
  Forall (λ p, slot_readable cs (ti_slot_index (snd p))
    ∧ m_get m (ti_slot_index (snd p)) = input_value body (snd p)) (live_inputs body) →
  Forall (λ p, slot_readable cs (to_slot_index (snd p))
    ∧ m_get m (to_slot_index (snd p)) = EMPTY) (live_outputs body) →
  Forall (λ d, slot_readable cs (fst d)) (tx_deltas alloc body height).
Proof.
  intros Hi Ho. apply (Forall_fmap fst (slot_readable cs)). rewrite tx_deltas_keys.
  apply Forall_app. split; apply Forall_fmap.
  - eapply Forall_impl; [exact Hi|]. by intros p [? _].
  - eapply Forall_impl; [exact Ho|]. by intros p [? _].
Qed.

Lemma apply_tx_accepted cs' :
  apply_tx_checked_deferred_root cs body height = Ok cs' → tx_accepted cs'.
Proof.
  intros Ha. unfold apply_tx_checked_deferred_root in Ha. apply if_err_Ok in Ha as [Hh Ha].
  apply bind_Ok in Ha as (ins & Hins & Ha). apply try_fold_insert_fresh in Hins as (Hnd1 & _ & ->).
  apply bind_Ok in Ha as (outs & Houts & Ha). fold (input_slots body) in *.
  destruct (proj1 (try_fold_insert_disjoint (E := fault ApplyError)
    (λ _ : nat * TxOutput, Fail AE_DuplicateOutputSlot) (λ _, Fail AE_InputOutputSlotOverlap)
    (λ p, to_slot_index (snd p)) (list_to_set (input_slots body) ∪ ∅) ∅ (live_outputs body))) as [Hnd2 Hdis];
    [by exists outs|].
  apply bind_Ok in Ha as (dspent & Hspent & Ha).
  apply spend_fold_Ok in Hspent as [-> Hin]; [|apply live_inputs_nonneg]. cbn [app] in Ha.
  apply bind_Ok in Ha as (a1 & Ha1 & Ha). apply ok_or_Ok, checked_sub_Some in Ha1 as [-> Hact].
  apply bind_Ok in Ha as (a2 & Ha2 & Ha). apply ok_or_Ok, checked_add_Some in Ha2 as [-> _].
  apply bind_Ok in Ha as (a3 & Ha3 & Ha). apply ok_or_Ok, checked_add_Some in Ha3 as [-> Halloc].
  apply if_err_Ok in Ha as [Hcb Ha]. apply bind_Ok in Ha as ([cur deltas] & Hmint & Ha).
  apply (mint_fold_Ok (live_outputs body) _ _ _ _ 0) in Hmint as (-> & Hout & _); [|apply live_outputs_nonneg|lia].
  change (imap _ (live_outputs body)) with (minted (cs_alloc_counter cs) body height) in Ha.
  fold (spent body) in Ha. fold (tx_deltas (cs_alloc_counter cs) body height) in Ha.
  pose proof (tx_deltas_in_reach (cs_alloc_counter cs) Hin Hout) as Hreach.
  pose proof (num_slots_u32 _ (ci_wf _ _ Hinv)) as H32.
  rewrite (supply_after_slot_updates_ok cs m) in Ha; [|apply Hinv..|].
  2:{ eapply Forall_impl; [exact Hreach|]. intros d [Hr He]. split; [lia|done]. }
  cbn [map_fault map_err mbind result_bind] in Ha. apply bind_Ok in Ha as (st' & Hst & [= <-]).
  apply map_err_Ok in Hst. pose proof (ci_alloc _ _ Hinv).
  assert (0 ≤ live_output_count body) by (rewrite live_output_count_length by done; lia).
  rewrite is_coinbase_creation_id_spec in Hcb by (unfold is_uint; lia).
  constructor; [|apply NoDup_app; split_and!; [done| |done]|done|done|lia|lia|eauto].
  - intros Hc. rewrite Hc in Hh. by apply bool_decide_eq_false in Hh.
  - intros x Hx Hx'. apply (Hdis x) in Hx' as [_ Hx']. set_solver.
Qed.

(** Every live input names a non-empty slot value.  The code does not check
    this (see [spend_of_empty_slot_accepted]). *)
Definition spends_live : Prop := Forall (λ p, input_value body (snd p) ≠ EMPTY) (live_inputs body).

(** The conditions under which a body is applied. *)
Record tx_admissible : Prop := {
  td_height : tb_is_coinbase body = true → height ≠ None;
  td_slots : NoDup (input_slots body ++ output_slots body);
  td_inputs : Forall (λ p, slot_readable cs (ti_slot_index (snd p))
    ∧ m_get m (ti_slot_index (snd p)) = input_value body (snd p)) (live_inputs body);
  td_outputs : Forall (λ p, slot_readable cs (to_slot_index (snd p))
    ∧ m_get m (to_slot_index (snd p)) = EMPTY) (live_outputs body);
  td_active : live_input_count body ≤ cs_active_slot_count cs;
  td_alloc : cs_alloc_counter cs + live_output_count body < 2 ^ 63;
}.

Lemma spend_input_complete input :
  slot_readable cs (ti_slot_index input) → m_get m (ti_slot_index input) = input_value body input →
  spend_input cs body input = Ok (ti_slot_index input, EMPTY).
Proof.
  intros [Hr Hev] Hg. unfold spend_input.
  destruct (Z.leb_spec (num_slots (cs_state cs)) (ti_slot_index input)); [lia|].
  rewrite slot_segment_eq by (done || apply (ci_wf _ _ Hinv)). unfold is_evicted.
  rewrite bool_decide_false by done. rewrite (rep_slot _ _ (ci_rep _ _ Hinv)) by done.
  cbn [expect ok_or mbind result_bind]. by rewrite bool_decide_false by (intros []; exact Hg).
Qed.

Lemma spend_fold_complete l acc :
  Forall (λ p : nat * TxInput, slot_readable cs (ti_slot_index (snd p))
       ∧ m_get m (ti_slot_index (snd p)) = input_value body (snd p)) l →
  try_fold (λ deltas p, d ← spend_input cs body (snd p); Ok (deltas ++ [d])) acc l
  = Ok (acc ++ ((λ p, (ti_slot_index (snd p), EMPTY)) <$> l)).
Proof.
  intros Hl. revert acc. induction Hl as [|p l [Hr Hg] Hl IH]; intros acc; cbn [try_fold fmap list_fmap].
  { by rewrite app_nil_r. }
  rewrite spend_input_complete by done. cbn [mbind result_bind]. rewrite IH, <- app_assoc. done.
Qed.

Lemma mint_output_complete a deltas output :
  slot_readable cs (to_slot_index output) → m_get m (to_slot_index output) = EMPTY →
  0 ≤ a → a + 1 < 2 ^ 64 → (is_primary_coinbase_shape body = true → height ≠ None) →
  ∃ deltas', mint_output cs body height (a, deltas) output = Ok (a + 1, deltas').
Proof.
  intros [Hr Hev] Hg Ha Ha1 Hh. unfold mint_output.
  destruct (Z.leb_spec (num_slots (cs_state cs)) (to_slot_index output)); [lia|].
  rewrite slot_segment_eq by (done || apply (ci_wf _ _ Hinv)). unfold is_evicted.
  rewrite bool_decide_false by done. rewrite (rep_slot _ _ (ci_rep _ _ Hinv)) by done.
  cbn [expect ok_or mbind result_bind]. rewrite bool_decide_false by (intros []; exact Hg).
  rewrite (proj2 (checked_add_Some 64 a 1 (a + 1))) by lia. cbn [ok_or mbind result_bind].
  destruct (is_primary_coinbase_shape body); [|cbn [mbind result_bind]; eauto].
  destruct height as [h|]; [|by destruct Hh]. cbn [ok_or mbind result_bind]. eauto.
Qed.

Lemma mint_fold_complete l a deltas :
  Forall (λ p : nat * TxOutput, slot_readable cs (to_slot_index (snd p))
       ∧ m_get m (to_slot_index (snd p)) = EMPTY) l →
  0 ≤ a → a + Z.of_nat (length l) < 2 ^ 64 → (is_primary_coinbase_shape body = true → height ≠ None) →
  ∃ r, try_fold (λ acc p, mint_output cs body height acc (snd p)) (a, deltas) l = Ok r.
Proof.
  intros Hl. revert a deltas. induction Hl as [|p l [Hr Hg] Hl IH]; intros a deltas Ha Hb Hh; cbn [try_fold]; [eauto|].
  cbn [length] in Hb. destruct (mint_output_complete a deltas (snd p) Hr Hg Ha ltac:(lia) Hh) as [deltas' H1].
  rewrite H1. cbn [mbind result_bind]. apply IH; [lia|lia|done].
Qed.

Lemma size_le_slots : Z.of_nat (size m) ≤ 2 ^ 32.
Proof.
  pose proof (num_slots_u32 _ (ci_wf _ _ Hinv)) as H32. rewrite <- size_dom.
  assert (Hsub : dom m ⊆ list_to_set (seqZ 0 (num_slots (cs_state cs)))).
  { intros i [v Hi]%elem_of_dom. apply elem_of_list_to_set, elem_of_seqZ.
    apply (rep_dom _ _ (ci_rep _ _ Hinv)) in Hi as [Hi _]. lia. }
  apply subseteq_size in Hsub. rewrite size_list_to_set, length_seqZ in Hsub by apply NoDup_seqZ. lia.
Qed.

Lemma apply_tx_complete :
  tx_admissible → ∃ cs', apply_tx_checked_deferred_root cs body height = Ok cs'.
Proof.
  intros [Hh Hnd Hin Hout Hact Halloc]. unfold apply_tx_checked_deferred_root.
  apply NoDup_app in Hnd as (Hnd1 & Hdis & Hnd2). pose proof (ci_alloc _ _ Hinv) as Ha0. pose proof size_le_slots as Hsz.
  assert (Hi0 : 0 ≤ live_input_count body) by (rewrite live_input_count_length by done; lia).
  assert (Ho : live_output_count body = Z.of_nat (length (live_outputs body))) by (by rewrite live_output_count_length).
  replace (tb_is_coinbase body && bool_decide (height = None)) with false.
  2:{ destruct (tb_is_coinbase body); [|done]. cbn. by rewrite bool_decide_false by (by apply Hh). }
  rewrite (proj2 (try_fold_insert_fresh (λ _ : nat * TxInput, Fail AE_UnknownOrSpentInput)
    (λ p, ti_slot_index (snd p)) ∅ (live_inputs body) (list_to_set (input_slots body) ∪ ∅))); [|by split_and!; set_solver].
  cbn [mbind result_bind].
  destruct (proj2 (try_fold_insert_disjoint (E := fault ApplyError)
    (λ _ : nat * TxOutput, Fail AE_DuplicateOutputSlot) (λ _, Fail AE_InputOutputSlotOverlap)
    (λ p, to_slot_index (snd p)) (list_to_set (input_slots body) ∪ ∅) ∅ (live_outputs body))) as [outs Houts].
  { split; [done|]. intros x Hx. split; [apply not_elem_of_empty|]. fold (output_slots body) in Hx.
    intros [Hx'%elem_of_list_to_set|?]%elem_of_union; [by apply (Hdis x)|set_solver]. }
  rewrite Houts. cbn [mbind result_bind]. rewrite spend_fold_complete by done. cbn [app mbind result_bind].
  pose proof (ci_active _ _ Hinv) as Hact0.
  assert (Hlen : Z.of_nat (length (live_outputs body)) ≤ 2 ^ 63) by lia.
  rewrite (proj2 (checked_sub_Some _ _ _)) by (split; [reflexivity|done]). cbn [ok_or mbind result_bind].
  rewrite (proj2 (checked_add_Some 64 _ _ _)) by (split; [reflexivity|lia]). cbn [ok_or mbind result_bind].
  rewrite (proj2 (checked_add_Some 64 _ _ _)) by (split; [reflexivity|lia]). cbn [ok_or mbind result_bind].
  rewrite is_coinbase_creation_id_spec by (unfold is_uint; lia).
  destruct (Z.leb_spec (2 ^ 63) (cs_alloc_counter cs + live_output_count body)); [lia|].
  destruct (mint_fold_complete (live_outputs body) (cs_alloc_counter cs)
    ((λ p, (ti_slot_index (snd p), EMPTY)) <$> live_inputs body) Hout) as [[cur deltas] Hmint]; [lia|lia| |].
  { intros Hp. apply Hh. unfold is_primary_coinbase_shape in Hp. by apply andb_true_iff in Hp as [? _]. }
  rewrite Hmint. cbn [mbind result_bind].
  apply (mint_fold_Ok (live_outputs body) _ _ _ _ 0) in Hmint as (-> & _ & _); [|apply live_outputs_nonneg|lia].
  change (imap _ (live_outputs body)) with (minted (cs_alloc_counter cs) body height).
  fold (spent body). fold (tx_deltas (cs_alloc_counter cs) body height).
  pose proof (tx_deltas_in_reach (cs_alloc_counter cs) Hin Hout) as Hreach.
  pose proof (num_slots_u32 _ (ci_wf _ _ Hinv)) as H32.
  rewrite (supply_after_slot_updates_ok cs m); [|apply Hinv..|].
  2:{ eapply Forall_impl; [exact Hreach|]. intros d [Hr He]. split; [lia|done]. }
  cbn [map_fault map_err mbind result_bind].
  destruct (apply_delta_in_place_represents (cs_state cs) m (tx_deltas (cs_alloc_counter cs) body height)
    (ci_wf _ _ Hinv) (ci_rep _ _ Hinv) Hreach) as (st1 & H1 & _).
  unfold apply_delta_unrooted. rewrite H1. cbn [map_err mbind result_bind]. eauto.
Qed.

(** Heights stay below the coinbase tag bit. *)
Definition height_ok : Prop := ∀ h, height = Some h → 0 ≤ h < 2 ^ 63.

Lemma with_owner_fields_parts amount cid owner :
  is_u64 amount → is_u64 cid →
  slot_amount (with_owner_fields amount cid owner) = amount
  ∧ slot_creation_id (with_owner_fields amount cid owner) = cid.
Proof.
  intros Ha Hc. unfold slot_amount, slot_creation_id, with_owner_fields, from_parts. cbn [sv_value].
  by rewrite unpack_pack.
Qed.

Lemma with_owner_fields_live amount cid owner :
  is_u64 amount → is_u64 cid → 1 ≤ cid → with_owner_fields amount cid owner ≠ EMPTY.
Proof.
  intros Ha Hc H1 He. destruct (with_owner_fields_parts amount cid owner Ha Hc) as [_ Hcid].
  rewrite He in Hcid. change (slot_creation_id EMPTY) with 0 in Hcid. lia.
Qed.

Section preserved.
  Context (cs' : ChainState) (Hacc : tx_accepted cs') (Hh : height_ok).

Lemma mint_id_spec j :
  (j < length (live_outputs body))%nat →
  let cid := mint_id (cs_alloc_counter cs) body height j in
  is_u64 cid ∧ 1 ≤ cid ∧
  (is_coinbase_creation_id cid = false → cid = cs_alloc_counter cs + 1 + Z.of_nat j ∧ cid < 2 ^ 63).
Proof.
  intros Hj cid. pose proof (ci_alloc _ _ Hinv). pose proof (ta_alloc _ Hacc) as Hal.
  rewrite live_output_count_length in Hal by done. unfold is_uint. subst cid. unfold mint_id.
  destruct (is_primary_coinbase_shape body) eqn:Hp; [|lia].
  assert (Hc : tb_is_coinbase body = true) by (unfold is_primary_coinbase_shape in Hp; by apply andb_true_iff in Hp as [? _]).
  destruct height as [h|] eqn:Heq; [|by destruct (ta_height _ Hacc Hc)].
  change (default 0 (Some h)) with h.
  specialize (Hh h Heq). rewrite coinbase_creation_id_add by done.
  rewrite is_coinbase_creation_id_spec by (unfold is_uint; lia).
  destruct (Z.leb_spec (2 ^ 63) (2 ^ 63 + h)); [|lia]. split_and!; [lia|lia|lia|done].
Qed.

Lemma minted_elem i v :
  (i, v) ∈ minted (cs_alloc_counter cs) body height →
  ∃ j out, (j < length (live_outputs body))%nat ∧ out ∈ (snd <$> live_outputs body) ∧ i = to_slot_index out
    ∧ v = with_owner_fields (to_amount out) (mint_id (cs_alloc_counter cs) body height j) (as_fields (to_owner out))
    ∧ snd <$> live_outputs body !! j = Some out.
Proof.
  unfold minted. intros Hin. apply elem_of_lookup_imap in Hin as (j & p & [= -> ->] & Hj).
  exists j, (snd p). split_and!; [by eapply lookup_lt_Some| |done|done|by rewrite Hj].
  apply list_elem_of_fmap. exists p. split; [done|]. by eapply list_elem_of_lookup_2.
Qed.

Lemma live_output_u64 out : out ∈ snd <$> live_outputs body → is_u64 (to_amount out).
Proof.
  intros (p & -> & Hp)%list_elem_of_fmap. pose proof (live_outputs_wf body Hbody) as Hf.
  rewrite Forall_forall in Hf. by destruct (Hf _ Hp) as (_ & ? & _).
Qed.

Lemma minted_live i v :
  (i, v) ∈ minted (cs_alloc_counter cs) body height → v ≠ EMPTY.
Proof.
  intros (j & out & Hj & Hout & -> & -> & _)%minted_elem. destruct (mint_id_spec j Hj) as (Hu & H1 & _).
  apply with_owner_fields_live; [by apply live_output_u64|done|done].
Qed.

(** Entries of the new map are minted by the body or were there before. *)
Lemma updated_lookup i v :
  m_update m (tx_deltas (cs_alloc_counter cs) body height) !! i = Some v →
  (i, v) ∈ minted (cs_alloc_counter cs) body height
  ∨ (i ∉ input_slots body ++ output_slots body ∧ m !! i = Some v).
Proof.
  intros Hi. pose proof (m_update_live _ _ (ci_live _ _ Hinv) i v Hi) as Hv.
  apply m_update_lookup in Hi as [Hi|[Hni Hi]]; [|right; by rewrite tx_deltas_keys in Hni].
  left. unfold tx_deltas in Hi. apply elem_of_app in Hi as [Hi|Hi]; [|done].
  unfold spent in Hi. apply list_elem_of_fmap in Hi as (p & [= -> ->] & _). done.
Qed.

Lemma tx_sum (w : SlotValue → Z) :
  sum_Z ((λ d, w (snd d) - w (m_get m (fst d))) <$> tx_deltas (cs_alloc_counter cs) body height)
  = sum_Z ((λ p, w EMPTY - w (input_value body (snd p))) <$> live_inputs body)
    + sum_Z ((λ d, w (snd d) - w EMPTY) <$> minted (cs_alloc_counter cs) body height).
Proof.
  unfold tx_deltas. rewrite fmap_app, sum_Z_app. unfold spent. rewrite <- list_fmap_compose. f_equal.
  - f_equal. apply list_fmap_ext. intros i p Hp. cbn.
    pose proof (ta_inputs _ Hacc) as Hin. rewrite Forall_lookup in Hin. by destruct (Hin i p Hp) as [_ ->].
  - f_equal. apply list_fmap_ext. intros i [k v] Hd. cbn.
    apply list_elem_of_lookup_2, minted_elem in Hd as (j & out & Hj & Hout & -> & -> & _).
    apply list_elem_of_fmap in Hout as (p & -> & Hp). pose proof (ta_outputs _ Hacc) as Ho.
    rewrite Forall_forall in Ho. by destruct (Ho p Hp) as [_ ->].
Qed.

Lemma tx_supply :
  supply (m_update m (tx_deltas (cs_alloc_counter cs) body height))
  = supply m - input_sum body + output_sum body.
Proof.
  rewrite (m_update_measure supply slot_amount);
    [|intros; apply supply_set|rewrite tx_deltas_keys; apply (ta_slots _ Hacc)|apply (ci_live _ _ Hinv)].
  rewrite tx_sum, slot_amount_EMPTY. unfold input_sum, output_sum.
  assert (H1 : ∀ l : list (nat * TxInput), Forall (λ p, TxInput_wf (snd p)) l →
    sum_Z ((λ p, 0 - slot_amount (input_value body (snd p))) <$> l) = - sum_Z ((λ p, ti_amount (snd p)) <$> l)).
  { induction 1 as [|p l Hp Hl IH]; [done|]. rewrite !fmap_cons. unfold sum_Z in *. cbn [foldr]. rewrite IH.
    destruct Hp as (_ & Ha & Hc). unfold input_value.
    destruct (with_owner_fields_parts _ _ (as_fields (tb_input_owner body)) Ha Hc) as [-> _]. lia. }
  rewrite H1 by (by apply live_inputs_wf).
  assert (H2 : sum_Z ((λ d, slot_amount (snd d) - 0) <$> minted (cs_alloc_counter cs) body height)
    = sum_Z ((λ p, to_amount (snd p)) <$> live_outputs body)); [|lia].
  f_equal. unfold minted. rewrite fmap_imap. apply list_eq. intros j. rewrite list_lookup_imap, list_lookup_fmap.
  destruct (live_outputs body !! j) as [p|] eqn:Hj; [|done]. cbn. f_equal.
  destruct (mint_id_spec j) as (Hu & _); [by eapply lookup_lt_Some|].
  destruct (with_owner_fields_parts (to_amount (snd p)) _ (as_fields (to_owner (snd p)))
    (live_output_u64 (snd p) ltac:(apply list_elem_of_fmap; exists p; split; [done|by eapply list_elem_of_lookup_2])) Hu)
    as [-> _]. lia.
Qed.

Lemma tx_size :
  Z.of_nat (size m) - live_input_count body + live_output_count body
  ≤ Z.of_nat (size (m_update m (tx_deltas (cs_alloc_counter cs) body height)))
  ∧ (spends_live → Z.of_nat (size (m_update m (tx_deltas (cs_alloc_counter cs) body height)))
       = Z.of_nat (size m) - live_input_count body + live_output_count body).
Proof.
  rewrite (m_update_measure (λ m, Z.of_nat (size m)) (λ v, if is_empty v then 0 else 1));
    [|intros; by apply size_set|rewrite tx_deltas_keys; apply (ta_slots _ Hacc)|apply (ci_live _ _ Hinv)].
  rewrite (tx_sum (λ v, if is_empty v then 0 else 1)). change (is_empty EMPTY) with true. cbn match.
  rewrite live_input_count_length, live_output_count_length by done.
  assert (Hout : sum_Z ((λ d, (if is_empty (snd d) then 0 else 1) - 0) <$> minted (cs_alloc_counter cs) body height)
                 = Z.of_nat (length (live_outputs body))).
  { rewrite (sum_Z_const _ 1); [unfold minted; rewrite length_imap; lia|].
    apply Forall_forall. intros [i v] Hd. apply minted_live in Hd. cbn. unfold is_empty.
    rewrite bool_decide_false by done. lia. }
  rewrite Hout. split.
  - assert (Hle : - Z.of_nat (length (live_inputs body))
      ≤ sum_Z ((λ p, 0 - (if is_empty (input_value body (snd p)) then 0 else 1)) <$> live_inputs body)); [|lia].
    clear. induction (live_inputs body) as [|p l IH]; [done|]. rewrite fmap_cons, sum_Z_cons, length_cons.
    destruct (is_empty _); lia.
  - intros Hlive. rewrite (sum_Z_const _ (-1)); [lia|].
    eapply Forall_impl; [exact Hlive|]. intros p Hp. cbn. unfold is_empty. rewrite bool_decide_false by done. lia.
Qed.

Lemma updated_ids i v :
  m_update m (tx_deltas (cs_alloc_counter cs) body height) !! i = Some v →
  is_coinbase_creation_id (slot_creation_id v) = false →
  1 ≤ slot_creation_id v ≤ cs_alloc_counter cs + live_output_count body.
Proof.
  intros Hi Hc. assert (0 ≤ live_output_count body) by (rewrite live_output_count_length by done; lia).
  apply updated_lookup in Hi as [Hi|[_ Hi]]; [|pose proof (ci_ids _ _ Hinv i v Hi Hc); lia].
  apply minted_elem in Hi as (j & out & Hj & Hout & -> & -> & _).
  destruct (mint_id_spec j Hj) as (Hu & H1 & Hid).
  destruct (with_owner_fields_parts (to_amount out) _ (as_fields (to_owner out))
    (live_output_u64 _ Hout) Hu) as [_ Hcid].
  rewrite Hcid in *. rewrite live_output_count_length by done. destruct (Hid Hc). lia.
Qed.

Lemma updated_unique i j v w :
  m_update m (tx_deltas (cs_alloc_counter cs) body height) !! i = Some v →
  m_update m (tx_deltas (cs_alloc_counter cs) body height) !! j = Some w →
  is_coinbase_creation_id (slot_creation_id v) = false →
  slot_creation_id v = slot_creation_id w → i = j.
Proof.
  intros Hi Hj Hc Heq. assert (Hc' : is_coinbase_creation_id (slot_creation_id w) = false) by congruence.
  assert (Hnew : ∀ i v, (i, v) ∈ minted (cs_alloc_counter cs) body height →
    is_coinbase_creation_id (slot_creation_id v) = false → ∃ k, fst <$> minted (cs_alloc_counter cs) body height !! k = Some i
      ∧ slot_creation_id v = cs_alloc_counter cs + 1 + Z.of_nat k).
  { intros i' v' Hv Hcv. apply minted_elem in Hv as (k & out & Hk & Hout & -> & -> & Hlk).
    destruct (mint_id_spec k Hk) as (Hu & _ & Hid).
    destruct (with_owner_fields_parts (to_amount out) _ (as_fields (to_owner out))
      (live_output_u64 _ Hout) Hu) as [_ Hcid].
    rewrite Hcid in *. exists k. destruct (Hid Hcv) as [-> _]. split; [|done].
    unfold minted. rewrite list_lookup_imap. destruct (live_outputs body !! k); [|done]. cbn in *. congruence. }
  apply updated_lookup in Hi as [Hi|[_ Hi]]; apply updated_lookup in Hj as [Hj|[_ Hj]].
  - destruct (Hnew _ _ Hi Hc) as (k & Hk & Hk'). destruct (Hnew _ _ Hj Hc') as (l & Hl & Hl').
    assert (k = l) as -> by lia. congruence.
  - destruct (Hnew _ _ Hi Hc) as (k & _ & Hk'). pose proof (ci_ids _ _ Hinv _ _ Hj Hc'). lia.
  - destruct (Hnew _ _ Hj Hc') as (k & _ & Hk'). pose proof (ci_ids _ _ Hinv _ _ Hi Hc). lia.
  - by apply (ci_unique _ _ Hinv i j v w).
Qed.

End preserved.

(** Applying a body preserves the invariant, with the abstract effect of the
    body; it never panics on the way. *)
Lemma apply_tx_preserves cs' :
  apply_tx_checked_deferred_root cs body height = Ok cs' → height_ok →
  cs_inv cs' (m_update m (tx_deltas (cs_alloc_counter cs) body height))
  ∧ same_geometry (cs_state cs) (cs_state cs') ∧ sg_evicted (cs_state cs') = sg_evicted (cs_state cs)
  ∧ (sg_exact_dirty (cs_state cs) ## sg_evicted (cs_state cs) →
     sg_exact_dirty (cs_state cs') ## sg_evicted (cs_state cs'))
  ∧ cs_alloc_counter cs' = cs_alloc_counter cs + live_output_count body
  ∧ cs_active_slot_count cs' = cs_active_slot_count cs - live_input_count body + live_output_count body.
Proof.
  intros Ha Hh. pose proof (apply_tx_accepted cs' Ha) as Hacc.
  destruct (ta_result _ Hacc) as (st' & Hst & Hcs').
  pose proof (tx_deltas_in_reach (cs_alloc_counter cs) (ta_inputs _ Hacc) (ta_outputs _ Hacc)) as Hreach.
  destruct (apply_delta_in_place_represents (cs_state cs) m (tx_deltas (cs_alloc_counter cs) body height)
    (ci_wf _ _ Hinv) (ci_rep _ _ Hinv) Hreach) as (st1 & H1 & Hwf1 & Hrep1 & Hg1 & Hev1 & Hx1 & Hd1 & Hs1).
  rewrite Hst in H1. injection H1 as <-. subst cs'. cbn [cs_state cs_alloc_counter cs_active_slot_count].
  split_and!; [|done..]. pose proof (ci_alloc _ _ Hinv). pose proof (ta_alloc _ Hacc).
  assert (0 ≤ live_output_count body) by (rewrite live_output_count_length by done; lia).
  constructor; cbn [cs_state cs_active_slot_count cs_circulating_supply cs_alloc_counter]; try done.
  - pose proof (ta_active _ Hacc). pose proof (ci_active _ _ Hinv).
    destruct (tx_size _ Hacc Hh) as [Hsize _]. lia.
  - lia.
  - intros i v. by eapply updated_ids.
  - intros i j v w. by eapply updated_unique.
  - eapply cache_current_update with (cs0 := cs); try done; [|apply (ci_cache _ _ Hinv)].
    cbn [cs_state]. intros i Hi. rewrite (same_geometry_num_slots _ _ Hg1). rewrite m_get_update in Hi.
    destruct (canonical_updates _ !! i) as [v|] eqn:Hc; [|done].
    destruct (decide (i ∈ fst <$> tx_deltas (cs_alloc_counter cs) body height)) as [Hin|Hni];
      [|rewrite canonical_none in Hc by done; done].
    apply list_elem_of_fmap in Hin as (d & -> & Hin). rewrite Forall_forall in Hreach. by destruct (Hreach d Hin).
Qed.

(** Bodies without empty inputs keep the live-slot counter exact. *)
Lemma apply_tx_counted cs' :
  apply_tx_checked_deferred_root cs body height = Ok cs' → spends_live → height_ok → counted cs m →
  counted cs' (m_update m (tx_deltas (cs_alloc_counter cs) body height)).
Proof.
  intros Ha Hlive Hh Hc. pose proof (apply_tx_accepted cs' Ha) as Hacc.
  destruct (apply_tx_preserves cs' Ha Hh) as (_ & _ & _ & _ & _ & Hact).
  destruct (tx_size _ Hacc Hh) as [_ Hsize]. unfold counted in *. rewrite Hact, Hsize by done. lia.
Qed.

End apply.

(** ** Refreshing the root *)

Lemma slot_with_no_updates st m s columns i :
  state_wf st → represents st m → 0 ≤ s < Z.of_nat (sg_num_segments st) → s ∉ sg_evicted st →
  try_get_segment_columns st s = Some columns → 0 ≤ i < 2 ^ Z.of_nat (sg_effective_log_seg st) →
  slot_with_updates columns ∅ i = Some (m_get m (i + s * 2 ^ Z.of_nat (sg_effective_log_seg st))).
Proof.
  intros Hwf Hrep Hs Hev Hcols Hi. set (eff := sg_effective_log_seg st) in *.
  assert (Hidx : 0 ≤ i + s * 2 ^ Z.of_nat eff < num_slots st).
  { rewrite (num_slots_segments st Hwf). fold eff. nia. }
  assert (Hseg : segment_of eff (i + s * 2 ^ Z.of_nat eff) = s).
  { unfold segment_of. rewrite Z.div_add, Z.div_small by lia. lia. }
  rewrite <- (rep_slot _ _ Hrep _ Hidx) by (fold eff; by rewrite Hseg).
  rewrite (slot_eq st Hwf _ Hidx). fold eff. rewrite Hseg. unfold try_get_segment_columns in Hcols.
  rewrite Hcols. cbn [mbind option_bind]. unfold slot_with_updates. rewrite lookup_empty.
  destruct columns as [cols|]; [|done]. rewrite Z.mod_add, Z.mod_small by lia.
  apply vec_get_Some in Hcols as [_ Hcols]. pose proof (cw_values _ _ (wf_cols _ Hwf _ _ Hcols)) as Hl.
  rewrite Hl. fold eff. rewrite Nat2Z.inj_pow. destruct (Z.leb_spec (Z.of_nat 2 ^ Z.of_nat eff) i); [|done].
  change (Z.of_nat 2) with 2 in *. lia.
Qed.

Lemma segment_refresh_ok st m s columns :
  state_wf st → represents st m → 0 ≤ s < Z.of_nat (sg_num_segments st) → s ∉ sg_evicted st →
  try_get_segment_columns st s = Some columns →
  exact_segment_root_with_updates (effective_log_segment_size st) columns ∅
  = Some (segment_root_of (sg_effective_log_seg st) (m_get m) s).
Proof.
  intros Hwf Hrep Hs Hev Hcols. pose proof (eff_bounds st Hwf). unfold effective_log_segment_size.
  erewrite exact_segment_root_ok; [|lia|by intros i; eapply slot_with_no_updates].
  f_equal. exact (merkle_root_shift state_node_hash _ (exact_leaf (m_get m)) 0 _).
Qed.

Lemma refresh_segments_ok st m l roots c :
  state_wf st → represents st m → cache_ok c roots →
  length (xc_segment_roots c) = sg_num_segments st →
  Forall (λ s, 0 ≤ s < Z.of_nat (sg_num_segments st) ∧ s ∉ sg_evicted st) l →
  ∃ c', refresh_segments st c l = Ok c' ∧ xc_log_slots c' = xc_log_slots c
    ∧ cache_ok c' (λ s, if decide (s ∈ l) then segment_root_of (sg_effective_log_seg st) (m_get m) s else roots s).
Proof.
  intros Hwf Hrep. unfold refresh_segments. revert roots c.
  induction l as [|s l IH]; intros roots c Hc Hlen Hl.
  { exists c. split_and!; [done|done|]. eapply cache_ok_ext; [done|]. intros s _. rewrite decide_False by set_solver. done. }
  apply Forall_cons in Hl as [[Hs Hev] Hl]. cbn [try_fold].
  assert (Hne : is_evicted st s = false) by (by apply bool_decide_eq_false). rewrite Hne.
  destruct (vec_get_in_range (sg_segments st) s) as [columns Hcols]; [by rewrite (wf_segments _ Hwf)|].
  fold (try_get_segment_columns st s) in Hcols. rewrite Hcols. cbn [expect ok_or mbind result_bind].
  rewrite (segment_refresh_ok st m s columns) by done. cbn [expect ok_or mbind result_bind].
  destruct (set_segment_root_ok c roots s (segment_root_of (sg_effective_log_seg st) (m_get m) s) Hc)
    as (c1 & H1 & Hc1 & Hlog1); [by rewrite Hlen|].
  rewrite H1. cbn [expect ok_or mbind result_bind].
  destruct (IH _ c1 Hc1) as (c2 & H2 & Hlog2 & Hc2); [|done|].
  { rewrite (co_len _ _ Hc1), (co_eff _ _ Hc1), Hlog1, <- (co_eff _ _ Hc), <- (co_len _ _ Hc). done. }
  exists c2. split_and!; [done|congruence|]. eapply cache_ok_ext; [done|]. intros x _. cbn.
  destruct (decide (x ∈ l)), (decide (x ∈ s :: l)), (decide (x = s)); subst; try done; set_solver.
Qed.

Lemma clear_exact_dirty_ok st m :
  state_wf st → represents st m → state_wf (clear_exact_dirty st) ∧ represents (clear_exact_dirty st) m.
Proof.
  intros [] []. split; constructor; try done.
Qed.

(** The refreshed root is the reference root of the represented slots. *)
Lemma try_state_root_refreshes cs m :
  state_wf (cs_state cs) → represents (cs_state cs) m → cache_current cs m →
  sg_exact_dirty (cs_state cs) ## sg_evicted (cs_state cs) →
  let root := exact_root (sg_log_slots (cs_state cs)) (m_get m) in
  ∃ c', let cs' := mkChainState (clear_exact_dirty (cs_state cs)) root (cs_active_slot_count cs)
          (cs_alloc_counter cs) (cs_circulating_supply cs) c' in
    try_state_root cs = Ok (root, cs') ∧ cache_current cs' m.
Proof.
  intros Hwf Hrep [Hlog (roots & Hc & Hroots)] Hdis root. unfold try_state_root.
  rewrite Hlog, Nat.sub_diag. cbn [iterate_expand]. rewrite decide_False by (rewrite Hlog; lia).
  assert (Heff : xc_effective_log_seg (cs_exact_roots cs) = sg_effective_log_seg (cs_state cs)).
  { by rewrite (co_eff _ _ Hc), (wf_eff _ Hwf), Hlog. }
  assert (Hlen : length (xc_segment_roots (cs_exact_roots cs)) = sg_num_segments (cs_state cs)).
  { by rewrite (co_len _ _ Hc), Heff, Hlog, (wf_num _ Hwf). }
  destruct (refresh_segments_ok (cs_state cs) m (elements (sg_exact_dirty (cs_state cs))) roots
    (cs_exact_roots cs) Hwf Hrep Hc Hlen) as (c' & Hr & Hlog' & Hc').
  { apply Forall_forall. intros s Hs%elem_of_elements. split; [by apply (wf_exact _ Hwf)|set_solver]. }
  rewrite Hr. cbn [mbind result_bind].
  assert (Hc2 : cache_ok c' (segment_root_of (sg_effective_log_seg (cs_state cs)) (m_get m))).
  { eapply cache_ok_ext; [exact Hc'|]. intros s Hs. cbn. case_decide as Hin; [done|].
    apply Hroots; [|by rewrite elem_of_elements in Hin].
    rewrite (co_len _ _ Hc'), (co_eff _ _ Hc'), Hlog', Hlog, <- (wf_eff _ Hwf), <- (wf_num _ Hwf) in Hs. done. }
  assert (Heff' : xc_effective_log_seg c' = sg_effective_log_seg (cs_state cs)).
  { by rewrite (co_eff _ _ Hc'), (wf_eff _ Hwf), Hlog', Hlog. }
  assert (Hroot : cache_root c' = root).
  { rewrite (cache_root_exact c' (m_get m)); [by rewrite Hlog', Hlog|]. by rewrite Heff'. }
  exists c'. rewrite Hroot. split; [reflexivity|].
  constructor; cbn [cs_exact_roots cs_state sg_log_slots clear_exact_dirty set_exact_dirty
      sg_num_segments sg_effective_log_seg]; [by rewrite Hlog'|]. eauto.
Qed.

Lemma try_state_root_ok cs m :
  cs_inv cs m → sg_exact_dirty (cs_state cs) ## sg_evicted (cs_state cs) →
  ∃ cs', try_state_root cs = Ok (exact_root (sg_log_slots (cs_state cs)) (m_get m), cs')
    ∧ cs_inv cs' m ∧ sealed cs' m ∧ same_geometry (cs_state cs) (cs_state cs')
    ∧ sg_evicted (cs_state cs') = sg_evicted (cs_state cs)
    ∧ cs_alloc_counter cs' = cs_alloc_counter cs.
Proof.
  intros Hinv Hdis. destruct Hinv as [Hwf Hrep]. cbn zeta.
  destruct (try_state_root_refreshes cs m) as (c' & Hr & Hc'); [done..|].
  eexists. split; [exact Hr|]. split_and!; [|split; done|by constructor|done|done].
  destruct (clear_exact_dirty_ok (cs_state cs) m Hwf Hrep) as [Hwf2 Hrep2]. by constructor.
Qed.

Lemma try_state_root_active cs root cs' :
  try_state_root cs = Ok (root, cs') → cs_active_slot_count cs' = cs_active_slot_count cs.
Proof. unfold try_state_root. cbv zeta. rewrite bind_Ok. by intros (roots & _ & [= _ <-]). Qed.

(** ** Construction and expansion *)

Lemma expand_one_active cs cs' : expand_one cs = Some cs' → cs_active_slot_count cs' = cs_active_slot_count cs.
Proof. unfold expand_one. cbv zeta. intros (st & _ & H)%bind_Some. by injection H as <-. Qed.

Lemma with_log_slots_ok log_slots :
  (1 ≤ log_slots ≤ 32)%nat →
  ∃ cs, with_log_slots log_slots = Some cs ∧ cs_inv cs ∅ ∧ sealed cs ∅
    ∧ sg_log_slots (cs_state cs) = log_slots ∧ sg_evicted (cs_state cs) = ∅ ∧ cs_alloc_counter cs = 0
    ∧ sg_dirty (cs_state cs) = ∅.
Proof.
  intros Hlog. destruct (new_empty_represents log_slots Hlog) as (st & Hst & Hwf & Hrep & Hl & Hev & Hx & Hd).
  unfold with_log_slots. rewrite Hst. cbn. eexists. split; [reflexivity|]. cbn.
  assert (Hz : ∀ i, m_get ∅ i = EMPTY) by (intros i; unfold m_get; by rewrite lookup_empty).
  split_and!; try done.
  - constructor; cbn; try done; try by intros ? ? ?%lookup_empty_Some.
    constructor; cbn; [done|]. eexists. split; [apply cache_empty_ok|]. intros s Hs _. cbn.
      rewrite (wf_eff _ Hwf), Hl. symmetry. apply segment_root_of_empty. intros; apply Hz.
  - split; [done|]. cbn. rewrite Hl, zero_slot_root_eq. unfold exact_root. symmetry.
    apply merkle_root_constant. intros j _. unfold exact_leaf. by rewrite Hz.
Qed.

Lemma sealed_cache cs m :
  cs_inv cs m → sg_exact_dirty (cs_state cs) = ∅ →
  xc_effective_log_seg (cs_exact_roots cs) = sg_effective_log_seg (cs_state cs)
  ∧ cache_ok (cs_exact_roots cs) (segment_root_of (xc_effective_log_seg (cs_exact_roots cs)) (m_get m)).
Proof.
  intros Hinv Hx. pose proof (ci_wf _ _ Hinv) as Hwf. destruct (ci_cache _ _ Hinv) as [Hlog (roots & Hc & Hroots)].
  assert (Heff : xc_effective_log_seg (cs_exact_roots cs) = sg_effective_log_seg (cs_state cs)).
  { by rewrite (co_eff _ _ Hc), (wf_eff _ Hwf), Hlog. }
  split; [done|]. eapply cache_ok_ext; [done|]. intros s Hs. rewrite Heff. apply Hroots; [|set_solver].
  by rewrite (co_len _ _ Hc), Heff, Hlog, <- (wf_num _ Hwf) in Hs.
Qed.

Lemma expanded_root cs m :
  cs_inv cs m → sealed cs m →
  state_node_hash (cs_utxo_root cs) (zero_slot_root (sg_log_slots (cs_state cs)))
  = exact_root (S (sg_log_slots (cs_state cs))) (m_get m).
Proof.
  intros Hinv [_ Hroot]. rewrite exact_root_expand, Hroot; [done|]. intros i Hi.
  apply (m_get_outside m i (num_slots (cs_state cs))); [|rewrite num_slots_eq; lia].
  intros j v Hj. by apply (rep_dom _ _ (ci_rep _ _ Hinv)) in Hj as [? _].
Qed.

(** A state whose geometry grew by one level keeps the invariant if its slot
    state represents the same map. *)
Lemma grown_inv cs m st' :
  cs_inv cs m → sealed cs m → state_wf st' → represents st' m →
  sg_log_slots st' = S (sg_log_slots (cs_state cs)) → sg_exact_dirty st' = ∅ →
  let cs' := mkChainState st' (state_node_hash (cs_utxo_root cs) (zero_slot_root (sg_log_slots (cs_state cs))))
    (cs_active_slot_count cs) (cs_alloc_counter cs) (cs_circulating_supply cs)
    (cache_expand_one (cs_exact_roots cs)) in
  cs_inv cs' m ∧ sealed cs' m.
Proof.
  intros Hinv Hsealed Hwf' Hrep' Hlog' Hx' cs'. pose proof (ci_wf _ _ Hinv) as Hwf.
  destruct (sealed_cache cs m Hinv (proj1 Hsealed)) as [Heff Hc].
  pose proof (cc_log _ _ (ci_cache _ _ Hinv)) as Hlog.
  destruct (cache_expand_one_ok (cs_exact_roots cs) (m_get m) Hc) as [Hc' Hlogc].
  { intros i Hi. apply (m_get_outside m i (num_slots (cs_state cs))); [|rewrite num_slots_eq, <- Hlog; lia].
    intros j v Hj. by apply (rep_dom _ _ (ci_rep _ _ Hinv)) in Hj as [? _]. }
  split; [|split; [done|]; cbn; rewrite Hlog'; by apply expanded_root].
  destruct Hinv. constructor; cbn; try done. constructor; cbn; [by rewrite Hlogc, Hlog, Hlog'|].
  eexists. split; [exact Hc'|]. intros s Hs _. f_equal.
  by rewrite (co_eff _ _ Hc'), (wf_eff _ Hwf'), Hlogc, Hlog, Hlog'.
Qed.

Lemma expand_one_ok cs m :
  cs_inv cs m → sealed cs m → (sg_log_slots (cs_state cs) < 32)%nat →
  ((sg_log_slots (cs_state cs) < LOG_SEGMENT_SIZE)%nat → 0 ∉ sg_evicted (cs_state cs)) →
  ∃ cs', expand_one cs = Some cs' ∧ cs_inv cs' m ∧ sealed cs' m
    ∧ sg_log_slots (cs_state cs') = S (sg_log_slots (cs_state cs))
    ∧ sg_evicted (cs_state cs') = sg_evicted (cs_state cs)
    ∧ cs_alloc_counter cs' = cs_alloc_counter cs.
Proof.
  intros Hinv Hsealed Hlog Hev. pose proof (ci_wf _ _ Hinv) as Hwf.
  destruct (expand_represents (cs_state cs) m Hwf (ci_rep _ _ Hinv) Hlog Hev)
    as (st' & Hst' & Hwf' & Hrep' & Hlog' & Hev' & _).
  destruct (sealed_cache cs m Hinv (proj1 Hsealed)) as [Heff Hc].
  pose proof (cc_log _ _ (ci_cache _ _ Hinv)) as Hlogc.
  unfold expand_one. rewrite Hst'. cbn [mbind option_bind].
  rewrite (bool_decide_true (sg_exact_dirty (cs_state cs) = ∅)) by apply Hsealed.
  rewrite (bool_decide_true (xc_log_slots (cs_exact_roots cs) = _)) by done.
  rewrite (bool_decide_true (cache_root (cs_exact_roots cs) = cs_utxo_root cs)).
  2:{ rewrite (cache_root_exact _ _ Hc), Hlogc. symmetry. apply Hsealed. }
  cbn [andb]. destruct (clear_exact_dirty_ok st' m Hwf' Hrep') as [Hwf2 Hrep2].
  destruct (grown_inv cs m (clear_exact_dirty st') Hinv Hsealed Hwf2 Hrep2 Hlog' eq_refl) as [Hinv' Hsealed'].
  eexists. split; [reflexivity|]. by split_and!.
Qed.

Lemma expand_exact_metadata_ok cs m :
  cs_inv cs m → sealed cs m → (LOG_SEGMENT_SIZE ≤ sg_log_slots (cs_state cs) < 32)%nat →
  ∃ cs', ChainState_expand_exact_metadata_for_replay cs = Ok cs' ∧ cs_inv cs' m ∧ sealed cs' m
    ∧ sg_log_slots (cs_state cs') = S (sg_log_slots (cs_state cs))
    ∧ sg_evicted (cs_state cs') = sg_evicted (cs_state cs)
    ∧ cs_alloc_counter cs' = cs_alloc_counter cs.
Proof.
  intros Hinv Hsealed Hlog. pose proof (ci_wf _ _ Hinv) as Hwf.
  destruct (expand_exact_represents (cs_state cs) m Hwf (ci_rep _ _ Hinv) Hlog)
    as (st' & Hst' & Hwf' & Hrep' & Hlog' & Hev' & Hx').
  unfold ChainState_expand_exact_metadata_for_replay. rewrite Hst'. cbn [mbind result_bind].
  rewrite (proj1 Hsealed) in Hx'.
  destruct (grown_inv cs m st' Hinv Hsealed Hwf' Hrep' Hlog' Hx') as [Hinv' Hsealed'].
  eexists. split; [reflexivity|]. by split_and!.
Qed.

End invariant.
