(* ===== verification/ExactTransition.v ===== *)
(** * The verified exact transition and segment reloading

    [exact_utxo_root_after_slot_updates] and [apply_verified_exact_transition]
    of [state.rs] derive the root of the updated slot vector without touching
    the state, compare it with the claimed child root, and only then apply the
    updates.  [restore_evicted_segment] accepts columns only if they hash to
    the cached segment root. *)

From S2P Require Import Prelude Machine Params Poseidon TxTypes Merkle SlotState SlotInv SparseRoot SparseRootProofs ChainState ChainStateInv.

(** ** Updates by segment *)

Section grouping.
  Context (eff : nat) (Heff : (eff ≤ 16)%nat).

Definition in_domain (i : Z) : Prop := 0 ≤ i < 2 ^ 16 * 2 ^ Z.of_nat eff.

Lemma update_segment i : in_domain i → wrap 16 (Z.shiftr i (Z.of_nat eff)) = segment_of eff i.
Proof.
  intros Hi. unfold in_domain in Hi. rewrite Z.shiftr_div_pow2 by lia. apply wrap_small. split.
  - apply Z.div_pos; lia.
  - apply Z.div_lt_upper_bound; lia.
Qed.

Lemma update_local i : 0 ≤ i → Z.land i (Z.shiftl 1 (Z.of_nat eff) - 1) = i mod 2 ^ Z.of_nat eff.
Proof.
  intros Hi. rewrite Z.shiftl_mul_pow2, Z.mul_1_l by lia.
  replace (2 ^ Z.of_nat eff - 1) with (Z.ones (Z.of_nat eff)) by (rewrite Z.ones_equiv; lia).
  by rewrite Z.land_ones by lia.
Qed.

(** Grouping keeps, for every slot, the last update to it. *)
Lemma group_updates_lookup updates i :
  Forall (λ d, in_domain (fst d)) updates → in_domain i →
  default ∅ (group_updates eff updates !! segment_of eff i) !! (i mod 2 ^ Z.of_nat eff)
  = canonical_updates updates !! i.
Proof.
  intros Hu Hi. unfold group_updates, canonical_updates.
  enough (Hgen : ∀ (acc : gmap Z (gmap Z SlotValue)) (m : gmap Z SlotValue),
    (∀ j, in_domain j → default ∅ (acc !! segment_of eff j) !! (j mod 2 ^ Z.of_nat eff) = m !! j) →
    default ∅ (foldl (λ acc '(index, value),
      let segment := wrap 16 (Z.shiftr index (Z.of_nat eff)) in
      let local := default ∅ (acc !! segment) in
      <[segment := <[Z.land index (Z.shiftl 1 (Z.of_nat eff) - 1) := value]> local]> acc) acc updates
      !! segment_of eff i) !! (i mod 2 ^ Z.of_nat eff)
    = foldl (λ m d, <[fst d := snd d]> m) m updates !! i).
  { apply Hgen. intros j _. by rewrite !lookup_empty. }
  induction Hu as [|[k v] updates Hk Hu IH]; intros acc m Hacc; [by apply Hacc|]. cbn [foldl fst snd] in *.
  apply IH. intros j Hj. rewrite update_segment by done. rewrite update_local by (unfold in_domain in Hk; lia).
  destruct (decide (k = j)) as [->|Hne].
  { rewrite !lookup_insert_eq. cbn [default]. unfold id. by rewrite lookup_insert_eq. }
  rewrite (lookup_insert_ne m) by done. rewrite <- Hacc by done.
  destruct (decide (segment_of eff k = segment_of eff j)) as [Hs|Hs].
  - rewrite Hs, lookup_insert_eq. cbn [default]. unfold id. rewrite lookup_insert_ne; [done|].
    intros Hl. by apply Hne, (segment_local_eq eff).
  - by rewrite lookup_insert_ne.
Qed.

Lemma group_updates_dom updates s :
  Forall (λ d, in_domain (fst d)) updates →
  s ∈ dom (group_updates eff updates) ↔ ∃ d, d ∈ updates ∧ segment_of eff (fst d) = s.
Proof.
  intros Hu. unfold group_updates.
  enough (Hgen : ∀ acc : gmap Z (gmap Z SlotValue),
    s ∈ dom (foldl (λ acc '(index, value),
      let segment := wrap 16 (Z.shiftr index (Z.of_nat eff)) in
      let local := default ∅ (acc !! segment) in
      <[segment := <[Z.land index (Z.shiftl 1 (Z.of_nat eff) - 1) := value]> local]> acc) acc updates)
    ↔ s ∈ dom acc ∨ ∃ d, d ∈ updates ∧ segment_of eff (fst d) = s).
  { rewrite Hgen, dom_empty_L. set_solver. }
  induction Hu as [|[k v] updates Hk Hu IH]; intros acc; cbn [foldl].
  { split; [tauto|]. intros [?|(d & Hd & _)]; [done|]. by apply not_elem_of_nil in Hd. }
  rewrite IH, dom_insert_L, update_segment by done. cbn [fst] in *. split.
  - intros [[->%elem_of_singleton|?]%elem_of_union|(d & Hd & Hs)].
    + right. exists (k, v). split; [by left|done].
    + by left.
    + right. exists d. split; [by right|done].
  - intros [?|(d & [->|Hd]%elem_of_cons & Hs)]; [left; set_solver|left; cbn in Hs; set_solver|eauto].
Qed.

End grouping.

Section transition.
  Context {P : Poseidon2bPermutation} {C : SegmentCommitment}.
  Context (cs : ChainState) (m : gmap Z SlotValue) (log_slots : nat) (updates : list (Z * SlotValue))
    (Hinv : cs_inv cs m) (Hsealed : sealed cs m)
    (Hlog : log_slots = sg_log_slots (cs_state cs) ∨ log_slots = S (sg_log_slots (cs_state cs)))
    (H32 : (log_slots ≤ 32)%nat).

Let st := cs_state cs.
Let eff := Nat.min log_slots LOG_SEGMENT_SIZE.

(** The updates lie in the target domain and touch no evicted segment. *)
Context (Hupdates : Forall (λ d, 0 ≤ fst d < 2 ^ Z.of_nat log_slots
    ∧ segment_of eff (fst d) ∉ sg_evicted st) updates).

Lemma target_eff : eff = sg_effective_log_seg st ∨
  (eff = S (sg_effective_log_seg st) ∧ sg_num_segments st = 1%nat ∧ sg_effective_log_seg st = sg_log_slots st).
Proof.
  unfold eff, st. pose proof (wf_eff _ (ci_wf _ _ Hinv)) as He. pose proof (wf_num _ (ci_wf _ _ Hinv)) as Hn.
  unfold LOG_SEGMENT_SIZE in *. destruct Hlog as [->| ->]; [by left|].
  destruct (decide (sg_log_slots (cs_state cs) < 16)%nat); [right|left; lia].
  split_and!; [lia| |lia]. rewrite Hn, He, Nat.min_l, Nat.sub_diag by lia. done.
Qed.

Lemma target_in_domain i : 0 ≤ i < 2 ^ Z.of_nat log_slots → in_domain eff i.
Proof.
  intros Hi. unfold in_domain, eff, LOG_SEGMENT_SIZE.
  assert (2 ^ Z.of_nat log_slots ≤ 2 ^ 16 * 2 ^ Z.of_nat (Nat.min log_slots 16)); [|lia].
  rewrite <- Z.pow_add_r by lia. apply Z.pow_le_mono_r; lia.
Qed.

(** The columns that the code reads for segment [s] of the target geometry. *)
Lemma base_slot s columns i :
  0 ≤ s → s ∉ sg_evicted st →
  (if Z.of_nat (sg_num_segments st) <=? s then Some None else try_get_segment_columns st s) = Some columns →
  0 ≤ i < 2 ^ Z.of_nat eff →
  slot_with_updates columns ∅ i = Some (m_get m (i + s * 2 ^ Z.of_nat eff)).
Proof.
  intros Hs Hev Hcols Hi. pose proof (ci_wf _ _ Hinv) as Hwf. fold st in Hwf.
  pose proof (ci_rep _ _ Hinv) as Hrep. fold st in Hrep. pose proof (num_slots_segments st Hwf) as Hns.
  assert (Hout : ∀ j, num_slots st ≤ j → m_get m j = EMPTY).
  { intros j Hj. apply (m_get_outside m j (num_slots st)); [|done].
    intros k v Hk. by apply (rep_dom _ _ Hrep) in Hk as [? _]. }
  assert (Hbeyond : ∀ j, num_slots st ≤ j →
    slot_with_updates None ∅ i = Some (m_get m j)).
  { intros j Hj. unfold slot_with_updates. rewrite lookup_empty, Hout by done. done. }
  destruct (Z.leb_spec (Z.of_nat (sg_num_segments st)) s) as [Hge|Hlt].
  { injection Hcols as <-. apply Hbeyond. rewrite Hns. destruct target_eff as [He|(He & Hn & _)]; rewrite He; [nia|].
    rewrite Hn in *. rewrite (Nat2Z.inj_succ (sg_effective_log_seg st)), Z.pow_succ_r by lia. nia. }
  destruct (decide (i < 2 ^ Z.of_nat (sg_effective_log_seg st))) as [Hin|Hover].
  - destruct target_eff as [He|(He & Hn & _)].
    + rewrite He. apply (slot_with_no_updates st); (done || lia).
    + assert (s = 0) as -> by lia.
      pose proof (slot_with_no_updates st m 0 columns i Hwf Hrep ltac:(lia) Hev Hcols ltac:(lia)) as Hb.
      by rewrite !Z.mul_0_l in *.
  - destruct target_eff as [He|(He & Hn & Hel)]; [rewrite He in Hi; lia|].
    assert (s = 0) as -> by lia. rewrite Z.mul_0_l, Z.add_0_r. rewrite Hn in Hns.
    rewrite Hout by lia. unfold slot_with_updates. rewrite lookup_empty. destruct columns as [cols|]; [|done].
    apply vec_get_Some in Hcols as [_ Hcols]. rewrite (cw_values _ _ (wf_cols _ Hwf _ _ Hcols)), Nat2Z.inj_pow.
    change (Z.of_nat 2) with 2. destruct (Z.leb_spec (2 ^ Z.of_nat (sg_effective_log_seg st)) i); [done|lia].
Qed.

Lemma slot_with_updates_split columns upd i :
  slot_with_updates columns upd i
  = match upd !! i with Some v => Some v | None => slot_with_updates columns ∅ i end.
Proof. unfold slot_with_updates. by rewrite lookup_empty. Qed.

Lemma updated_segment_root s columns :
  0 ≤ s < Z.of_nat (2 ^ (log_slots - eff)) → s ∉ sg_evicted st →
  (if Z.of_nat (sg_num_segments st) <=? s then Some None else try_get_segment_columns st s) = Some columns →
  exact_segment_root_with_updates eff columns (default ∅ (group_updates eff updates !! s))
  = Some (segment_root_of eff (m_get (m_update m updates)) s).
Proof.
  intros Hs Hev Hcols. assert (Heff : (eff ≤ 16)%nat) by (unfold eff, LOG_SEGMENT_SIZE; lia).
  erewrite (exact_segment_root_ok _ _ _ (λ i, m_get (m_update m updates) (i + s * 2 ^ Z.of_nat eff)));
    [|lia|].
  - f_equal. exact (merkle_root_shift state_node_hash _ (exact_leaf (m_get (m_update m updates))) 0 _).
  - intros i Hi. rewrite slot_with_updates_split, (base_slot s) by (done || lia).
    assert (Hseg : segment_of eff (i + s * 2 ^ Z.of_nat eff) = s).
    { unfold segment_of. rewrite Z.div_add, Z.div_small by lia. lia. }
    pose proof (group_updates_lookup eff Heff updates (i + s * 2 ^ Z.of_nat eff)) as Hg.
    rewrite Hseg, Z.mod_add, Z.mod_small in Hg by lia. rewrite Hg, m_get_update.
    + by destruct (canonical_updates updates !! (i + s * 2 ^ Z.of_nat eff)).
    + eapply Forall_impl; [exact Hupdates|]. intros d [Hd _]. by apply target_in_domain.
    + apply target_in_domain.
      assert (Hp : 2 ^ Z.of_nat log_slots = Z.of_nat (2 ^ (log_slots - eff)) * 2 ^ Z.of_nat eff).
      { rewrite Nat2Z.inj_pow, <- Z.pow_add_r by lia. f_equal. unfold eff. lia. }
      rewrite Hp. nia.
Qed.

Lemma update_segment_root_ok s roots c :
  cache_ok c roots → length (xc_segment_roots c) = (2 ^ (log_slots - eff))%nat →
  0 ≤ s < Z.of_nat (2 ^ (log_slots - eff)) → s ∉ sg_evicted st →
  ∃ c', update_segment_root st eff (group_updates eff updates) c s = Ok c'
    ∧ cache_ok c' (λ j, if decide (j = s) then segment_root_of eff (m_get (m_update m updates)) s else roots j)
    ∧ xc_log_slots c' = xc_log_slots c.
Proof.
  intros Hc Hlen Hs Hev. pose proof (wf_segments _ (ci_wf _ _ Hinv)) as Hsl. fold st in Hsl.
  destruct (set_segment_root_ok c roots s (segment_root_of eff (m_get (m_update m updates)) s) Hc)
    as (c' & Hset & Hc' & Hlog'); [by rewrite Hlen|].
  exists c'. split_and!; [|done|done]. unfold update_segment_root. cbn zeta.
  destruct (Z.leb_spec (Z.of_nat (sg_num_segments st)) s) as [Hge|Hlt].
  - cbn [mbind result_bind]. rewrite (updated_segment_root s None); [|done|done|].
    { cbn [expect ok_or mbind result_bind]. by rewrite Hset. }
    by destruct (Z.leb_spec (Z.of_nat (sg_num_segments st)) s); [|lia].
  - assert (is_evicted st s = false) as -> by (by apply bool_decide_eq_false).
    destruct (vec_get_in_range (sg_segments st) s) as [columns Hcols]; [lia|].
    change (vec_get (sg_segments st) s) with (try_get_segment_columns st s) in Hcols.
    rewrite Hcols. cbn [expect ok_or mbind result_bind].
    rewrite (updated_segment_root s columns); [|done|done|].
    { cbn [expect ok_or mbind result_bind]. by rewrite Hset. }
    by destruct (Z.leb_spec (Z.of_nat (sg_num_segments st)) s); [lia|].
Qed.

(** The loop over the updated segments. *)
Lemma update_roots_ok l roots c :
  cache_ok c roots → length (xc_segment_roots c) = (2 ^ (log_slots - eff))%nat →
  Forall (λ s, 0 ≤ s < Z.of_nat (2 ^ (log_slots - eff)) ∧ s ∉ sg_evicted st) l →
  ∃ c', try_fold (update_segment_root st eff (group_updates eff updates)) c l = Ok c'
    ∧ xc_log_slots c' = xc_log_slots c
    ∧ cache_ok c' (λ s, if decide (s ∈ l) then segment_root_of eff (m_get (m_update m updates)) s else roots s).
Proof.
  revert roots c. induction l as [|s l IH]; intros roots c Hc Hlen Hl.
  { exists c. split_and!; [done|done|]. eapply cache_ok_ext; [done|]. intros s _. rewrite decide_False by set_solver. done. }
  apply Forall_cons in Hl as [[Hs Hev] Hl].
  destruct (update_segment_root_ok s roots c Hc Hlen Hs Hev) as (c1 & H1 & Hc1 & Hlog1).
  destruct (IH _ c1 Hc1) as (c2 & H2 & Hlog2 & Hc2); [|done|].
  { rewrite (co_len _ _ Hc1), (co_eff _ _ Hc1), Hlog1, <- (co_eff _ _ Hc), <- (co_len _ _ Hc). done. }
  exists c2. cbn [try_fold]. rewrite H1. split_and!; [done|congruence|].
  eapply cache_ok_ext; [done|]. intros x _. cbn.
  destruct (decide (x ∈ l)), (decide (x ∈ s :: l)), (decide (x = s)); subst; try done; set_solver.
Qed.

(** The cache of the target geometry before the updates. *)
Lemma target_cache_ok :
  let c := if decide (sg_log_slots st < log_slots)%nat then cache_expand_one (cs_exact_roots cs)
           else cs_exact_roots cs in
  cache_ok c (segment_root_of eff (m_get m)) ∧ xc_log_slots c = log_slots
  ∧ length (xc_segment_roots c) = (2 ^ (log_slots - eff))%nat.
Proof.
  destruct (sealed_cache cs m Hinv (proj1 Hsealed)) as [Heff Hc].
  pose proof (cc_log _ _ (ci_cache _ _ Hinv)) as Hlogc. cbn zeta.
  enough (Hok : ∃ e, cache_ok (if decide (sg_log_slots st < log_slots)%nat then cache_expand_one (cs_exact_roots cs)
           else cs_exact_roots cs) (segment_root_of e (m_get m))
    ∧ xc_log_slots (if decide (sg_log_slots st < log_slots)%nat then cache_expand_one (cs_exact_roots cs)
           else cs_exact_roots cs) = log_slots
    ∧ xc_effective_log_seg (if decide (sg_log_slots st < log_slots)%nat then cache_expand_one (cs_exact_roots cs)
           else cs_exact_roots cs) = e).
  { destruct Hok as (e & Hok & Hl & He). assert (e = eff) as ->.
    { by rewrite <- He, (co_eff _ _ Hok), Hl. }
    split_and!; [done|done|]. by rewrite (co_len _ _ Hok), He, Hl. }
  case_decide as Hd.
  - destruct (cache_expand_one_ok (cs_exact_roots cs) (m_get m) Hc) as [Hc' Hl'].
    { intros i Hi. apply (m_get_outside m i (num_slots (cs_state cs))); [|rewrite num_slots_eq, <- Hlogc; lia].
      intros j v Hj. by apply (rep_dom _ _ (ci_rep _ _ Hinv)) in Hj as [? _]. }
    eexists. split_and!; [exact Hc'| |done]. rewrite Hl', Hlogc. unfold st in Hd. lia.
  - eexists. split_and!; [exact Hc| |done]. rewrite Hlogc. unfold st in Hd. lia.
Qed.

Lemma updates_below_target : existsb (λ d, 2 ^ Z.of_nat log_slots <=? fst d) updates = false.
Proof.
  apply not_true_iff_false. rewrite existsb_exists. intros (d & Hd & Hle).
  rewrite Forall_forall in Hupdates. apply list_elem_of_In, Hupdates in Hd as [? _]. lia.
Qed.

(** The derived root is the reference root of the updated slot map. *)
Lemma exact_utxo_root_after_ok :
  exact_utxo_root_after_slot_updates cs log_slots updates
  = Ok (exact_root log_slots (m_get (m_update m updates))).
Proof.
  unfold exact_utxo_root_after_slot_updates. fold st.
  rewrite (bool_decide_false (log_slots < sg_log_slots st)%nat), (bool_decide_false (sg_log_slots st + 1 < log_slots)%nat)
    by (unfold st; lia). cbn [orb].
  rewrite (checked_shl_1_eq log_slots) by lia. cbn [ok_or mbind result_bind].
  rewrite updates_below_target.
  fold eff. replace (sg_exact_dirty st) with (∅ : gset Z) by (symmetry; apply Hsealed).
  rewrite elements_empty. cbn [refresh_segments try_fold map_fault map_err mbind result_bind].
  destruct (sealed_cache cs m Hinv (proj1 Hsealed)) as [_ Hc].
  rewrite (bool_decide_false (cache_root (cs_exact_roots cs) ≠ cs_utxo_root cs)).
  2:{ intros Hne. apply Hne. rewrite (cache_root_exact _ _ Hc), (cc_log _ _ (ci_cache _ _ Hinv)).
      symmetry. apply Hsealed. }
  destruct target_cache_ok as (Hct & Hlt & Hlen). cbn zeta in Hct, Hlt, Hlen.
  set (c := if decide (sg_log_slots st < log_slots)%nat then _ else _) in *.
  assert (Hdom : Forall (λ d, in_domain eff (fst d)) updates).
  { eapply Forall_impl; [exact Hupdates|]. intros d [Hd _]. by apply target_in_domain. }
  assert (Hpow : 2 ^ Z.of_nat log_slots = Z.of_nat (2 ^ (log_slots - eff)) * 2 ^ Z.of_nat eff).
  { rewrite Nat2Z.inj_pow, <- Z.pow_add_r by lia. f_equal. unfold eff. lia. }
  destruct (update_roots_ok (merge_sort Z.le (elements (dom (group_updates eff updates))))
    (segment_root_of eff (m_get m)) c Hct Hlen) as (c' & Hf & Hl' & Hc').
  { apply Forall_forall. intros s Hs. rewrite (merge_sort_Permutation Z.le), elem_of_elements in Hs.
    apply group_updates_dom in Hs as (d & Hd & <-); [|unfold eff, LOG_SEGMENT_SIZE; lia|done].
    rewrite Forall_forall in Hupdates. destruct (Hupdates d Hd) as [Hr Hev]. split; [|done].
    unfold segment_of. split; [apply Z.div_pos; lia|apply Z.div_lt_upper_bound; nia]. }
  rewrite Hf. cbn [mbind result_bind]. f_equal.
  assert (Heff' : xc_effective_log_seg c' = eff) by (by rewrite (co_eff _ _ Hc'), Hl', Hlt).
  rewrite (cache_root_exact c' (m_get (m_update m updates))); [by rewrite Hl', Hlt|]. rewrite Heff'.
  eapply cache_ok_ext; [exact Hc'|]. intros s Hs. cbn. case_decide as Hin; [done|].
  apply segment_root_of_ext. intros i Hi. rewrite m_get_update.
  rewrite canonical_none; [done|]. intros (d & -> & Hd)%list_elem_of_fmap. apply Hin.
  rewrite (merge_sort_Permutation Z.le), elem_of_elements. apply group_updates_dom;
    [unfold eff, LOG_SEGMENT_SIZE; lia|done|eauto].
Qed.

Lemma updates_in_reach : Forall (update_in_reach cs) updates.
Proof.
  eapply Forall_impl; [exact Hupdates|]. intros d [Hd Hev]. split.
  - assert (2 ^ Z.of_nat log_slots ≤ 2 ^ 32) by (apply Z.pow_le_mono_r; lia). lia.
  - intros Hlt. pose proof (num_slots_segments st (ci_wf _ _ Hinv)) as Hn. fold st in Hlt |- *.
    destruct target_eff as [He|(He & H1 & _)]; [by rewrite <- He|]. rewrite H1 in Hn.
    assert (segment_of (sg_effective_log_seg st) (fst d) = 0) as -> by (apply Z.div_small; lia).
    replace 0 with (segment_of eff (fst d)); [done|]. apply Z.div_small.
    rewrite He, (Nat2Z.inj_succ (sg_effective_log_seg st)), Z.pow_succ_r by lia. lia.
Qed.

(** Only the single-segment expansion touches columns. *)
Context (Hresident : log_slots ≠ sg_log_slots st → (sg_log_slots st < LOG_SEGMENT_SIZE)%nat → 0 ∉ sg_evicted st).

Lemma transition_expands :
  ∃ cs1, (if decide (log_slots = sg_log_slots st + 1)%nat then
            if decide (LOG_SEGMENT_SIZE ≤ sg_log_slots st)%nat then
              map_err (λ _, Fail ET_HeaderLogSlotsMismatch) (ChainState_expand_exact_metadata_for_replay cs)
            else expect (expand_one cs)
          else Ok cs) = Ok cs1
    ∧ cs_inv cs1 m ∧ sealed cs1 m ∧ sg_log_slots (cs_state cs1) = log_slots
    ∧ sg_evicted (cs_state cs1) = sg_evicted st.
Proof.
  destruct (decide (log_slots = sg_log_slots st + 1)%nat) as [Hg|Hg].
  - destruct (decide (LOG_SEGMENT_SIZE ≤ sg_log_slots st)%nat) as [Hl|Hl].
    + destruct (expand_exact_metadata_ok cs m Hinv Hsealed) as (cs1 & H1 & ? & ? & Hlog1 & ? & _); [fold st; lia|].
      exists cs1. rewrite H1. split_and!; try done. rewrite Hlog1. fold st. lia.
    + destruct (expand_one_ok cs m Hinv Hsealed) as (cs1 & H1 & ? & ? & Hlog1 & ? & _); [fold st; lia| |].
      { intros Hlt. apply Hresident; lia. }
      exists cs1. rewrite H1. split_and!; try done. rewrite Hlog1. fold st. lia.
  - exists cs. split_and!; try done. fold st. unfold st in *. lia.
Qed.

(** The transition is applied exactly when the claimed root is the reference
    root of the updated slots, and then it has the effect of the updates. *)
Lemma apply_verified_ok active_slot_count alloc_counter :
  let m' := m_update m updates in
  let root := exact_root log_slots (m_get m') in
  ∃ cs', apply_verified_exact_transition cs log_slots root updates active_slot_count alloc_counter = Ok (root, cs')
    ∧ state_wf (cs_state cs') ∧ represents (cs_state cs') m' ∧ cache_current cs' m' ∧ sealed cs' m'
    ∧ sg_log_slots (cs_state cs') = log_slots ∧ cs_circulating_supply cs' = supply m'
    ∧ cs_active_slot_count cs' = active_slot_count ∧ cs_alloc_counter cs' = alloc_counter.
Proof.
  intros m' root. unfold apply_verified_exact_transition. fold st.
  rewrite (bool_decide_false (log_slots < sg_log_slots st)%nat), (bool_decide_false (sg_log_slots st + 1 < log_slots)%nat)
    by (unfold st; lia). cbn [orb]. rewrite (checked_shl_1_eq log_slots) by lia. cbn [ok_or mbind result_bind].
  rewrite updates_below_target.
  rewrite exact_utxo_root_after_ok. cbn [mbind result_bind]. rewrite bool_decide_false by (intros []; done).
  rewrite (supply_after_slot_updates_ok cs m updates (ci_wf _ _ Hinv) (ci_rep _ _ Hinv) (ci_supply _ _ Hinv) updates_in_reach).
  cbn [map_fault map_err mbind result_bind].
  destruct transition_expands as (cs1 & -> & Hinv1 & Hsealed1 & Hlog1 & Hev1). cbn [mbind result_bind].
  destruct (apply_delta_in_place_represents (cs_state cs1) m updates (ci_wf _ _ Hinv1) (ci_rep _ _ Hinv1))
    as (st2 & H2 & Hwf2 & Hrep2 & Hg2 & Hev2 & Hx2 & Hd2 & Hs2).
  { eapply Forall_impl; [exact Hupdates|]. intros d [Hd Hev].
    by rewrite num_slots_eq, Hlog1, Hev1, (wf_eff _ (ci_wf _ _ Hinv1)), Hlog1. }
  unfold apply_delta_unrooted. rewrite H2. cbn [map_fault map_err mbind result_bind].
  set (cs2 := mkChainState st2 _ _ _ _ _).
  assert (Hlog2 : sg_log_slots (cs_state cs2) = log_slots) by (etrans; [apply (sg_same_log _ _ Hg2)|done]).
  destruct (try_state_root_refreshes cs2 m') as (c' & Hr & Hc'); [done|done| | |].
  - apply (cache_current_update cs1 cs2 m m' Hg2 Hwf2 eq_refl Hx2 Hd2); [|apply (ci_cache _ _ Hinv1)].
    intros i Hi. rewrite num_slots_eq, Hlog2. unfold m' in Hi. rewrite m_get_update in Hi.
    destruct (decide (i ∈ fst <$> updates)) as [Hin|Hni]; [|by rewrite canonical_none in Hi].
    apply list_elem_of_fmap in Hin as (d & -> & Hin). rewrite Forall_forall in Hupdates. by destruct (Hupdates d Hin).
  - apply Hs2. rewrite (proj1 Hsealed1). set_solver.
  - rewrite Hr. cbn [map_fault map_err mbind result_bind]. rewrite Hlog2 in *.
    destruct (clear_exact_dirty_ok st2 m' Hwf2 Hrep2) as [Hwf3 Hrep3].
    eexists. split; [reflexivity|]. split_and!; try done.
    + destruct Hc' as [Hl Hroots]. by constructor.
    + split; [done|]. cbn. change (sg_log_slots st2) with (sg_log_slots (cs_state cs2)). by rewrite Hlog2.
Qed.

Lemma apply_verified_mismatch active_slot_count alloc_counter child :
  child ≠ exact_root log_slots (m_get (m_update m updates)) →
  apply_verified_exact_transition cs log_slots child updates active_slot_count alloc_counter
  = Err (Fail ET_CachedRootMismatch).
Proof.
  intros Hne. unfold apply_verified_exact_transition. fold st.
  rewrite (bool_decide_false (log_slots < sg_log_slots st)%nat), (bool_decide_false (sg_log_slots st + 1 < log_slots)%nat)
    by (unfold st; lia). cbn [orb]. rewrite (checked_shl_1_eq log_slots) by lia. cbn [ok_or mbind result_bind].
  rewrite updates_below_target.
  rewrite exact_utxo_root_after_ok. cbn [mbind result_bind]. by rewrite bool_decide_true.
Qed.

End transition.

(** ** Refused transitions *)

Section refusals.
  Context {P : Poseidon2bPermutation} {C : SegmentCommitment}.
  Context (cs : ChainState) (m : gmap Z SlotValue) (log_slots : nat) (updates : list (Z * SlotValue))
    (child : list Z) (active_slot_count alloc_counter : Z) (Hinv : cs_inv cs m) (H32 : (log_slots ≤ 32)%nat).

Lemma apply_verified_depth :
  (log_slots < sg_log_slots (cs_state cs) ∨ sg_log_slots (cs_state cs) + 1 < log_slots)%nat →
  apply_verified_exact_transition cs log_slots child updates active_slot_count alloc_counter
  = Err (Fail ET_HeaderLogSlotsMismatch).
Proof.
  intros Hd. unfold apply_verified_exact_transition. cbv zeta.
  replace (_ || _) with true; [done|]. symmetry. rewrite orb_true_iff, !bool_decide_eq_true. exact Hd.
Qed.

Context (Hlog : log_slots = sg_log_slots (cs_state cs) ∨ log_slots = S (sg_log_slots (cs_state cs))).

Lemma apply_verified_range :
  Exists (λ d, 2 ^ Z.of_nat log_slots ≤ fst d) updates →
  apply_verified_exact_transition cs log_slots child updates active_slot_count alloc_counter
  = Err (Fail ET_SlotOutOfRange).
Proof.
  intros Hx. unfold apply_verified_exact_transition. cbv zeta.
  rewrite !bool_decide_false by lia. cbn [orb]. rewrite (checked_shl_1_eq log_slots) by lia. cbn [ok_or mbind result_bind].
  replace (existsb _ updates) with true; [done|]. symmetry. apply existsb_exists.
  apply Exists_exists in Hx as (d & Hd & Hle). exists d. split; [by apply list_elem_of_In|by apply Z.leb_le].
Qed.

Lemma apply_verified_evicted r :
  Forall (λ d, 0 ≤ fst d < 2 ^ Z.of_nat log_slots) updates →
  Exists (λ d, segment_of (Nat.min log_slots LOG_SEGMENT_SIZE) (fst d) ∈ sg_evicted (cs_state cs)) updates →
  apply_verified_exact_transition cs log_slots child updates active_slot_count alloc_counter ≠ Ok r.
Proof.
  intros Hr (d & Hd & Hev)%Exists_exists Hok. set (s := segment_of _ (fst d)) in Hev.
  unfold apply_verified_exact_transition in Hok. apply if_err_Ok in Hok as [_ Hok].
  apply bind_Ok in Hok as (target & _ & Hok). apply if_err_Ok in Hok as [_ Hok].
  apply bind_Ok in Hok as (computed & Hc & _). unfold exact_utxo_root_after_slot_updates in Hc.
  apply if_err_Ok in Hc as [_ Hc]. apply bind_Ok in Hc as (target' & _ & Hc). apply if_err_Ok in Hc as [_ Hc].
  apply bind_Ok in Hc as (roots & _ & Hc). apply if_err_Ok in Hc as [_ Hc]. apply bind_Ok in Hc as (roots' & Hf & _).
  destruct (try_fold_each _ _ _ _ s Hf) as (c & c' & Hs).
  - rewrite merge_sort_Permutation, elem_of_elements. rewrite group_updates_dom; [by exists d|unfold LOG_SEGMENT_SIZE; lia|].
    eapply Forall_impl; [exact Hr|]. intros d' Hd'. by eapply (target_in_domain cs log_slots).
  - unfold update_segment_root in Hs. apply bind_Ok in Hs as (cols & Hcols & _).
    pose proof (wf_evicted _ (ci_wf _ _ Hinv) s Hev) as Hb. rewrite (proj2 (Z.leb_gt _ _)) in Hcols by lia.
    unfold is_evicted in Hcols. by rewrite bool_decide_true in Hcols.
Qed.

End refusals.

(** ** Reloading an evicted segment *)

Section reload.
  Context {P : Poseidon2bPermutation} {C : SegmentCommitment}.

(** The slot at local index [i] of a set of columns. *)
Definition column_slot (columns : SegmentColumns) (i : Z) : SlotValue :=
  default EMPTY (cols_get columns i).

(** The columns and segment [s] of [m] hold a collision of one of the two hash
    functions of the state tree. *)
Definition segment_collision (eff : nat) (m : gmap Z SlotValue) (s : Z) (columns : SegmentColumns) : Prop :=
  let base := s * 2 ^ Z.of_nat eff in
  tree_collision state_node_hash eff (λ i, slot_leaf_hash (column_slot columns i))
    (λ i, slot_leaf_hash (m_get m (i + base))) 0
  ∨ ∃ i, 0 ≤ i < 2 ^ Z.of_nat eff ∧ column_slot columns i ≠ m_get m (i + base)
      ∧ slot_leaf_hash (column_slot columns i) = slot_leaf_hash (m_get m (i + base)).

Lemma columns_total eff columns i :
  cols_wf eff columns → 0 ≤ i < 2 ^ Z.of_nat eff → cols_get columns i = Some (column_slot columns i).
Proof.
  intros Hcw Hi. unfold column_slot, cols_get.
  assert (H2 : Z.of_nat (2 ^ eff) = 2 ^ Z.of_nat eff) by (by rewrite Nat2Z.inj_pow).
  destruct (vec_get_in_range (sc_values columns) i) as [v ->]; [rewrite (cw_values _ _ Hcw); lia|].
  destruct (vec_get_in_range (sc_owners_hi columns) i) as [h ->]; [rewrite (cw_owners_hi _ _ Hcw); lia|].
  destruct (vec_get_in_range (sc_owners_lo columns) i) as [l ->]; [rewrite (cw_owners_lo _ _ Hcw); lia|]. done.
Qed.

Lemma reload_root eff columns :
  (eff ≤ 16)%nat → cols_wf eff columns →
  exact_segment_root_with_updates eff (Some columns) ∅
  = Some (merkle_root state_node_hash eff (λ i, slot_leaf_hash (column_slot columns i)) 0).
Proof.
  intros He Hcw. apply (exact_segment_root_ok eff (Some columns) ∅ (column_slot columns)); [lia|]. intros i Hi. unfold slot_with_updates.
  rewrite lookup_empty, (cw_values _ _ Hcw), Nat2Z.inj_pow.
  destruct (Z.leb_spec (Z.of_nat 2 ^ Z.of_nat eff) i); [change (Z.of_nat 2) with 2 in *; lia|].
  by apply (columns_total eff).
Qed.

(** The check on the columns binds them to the segment. *)
Lemma reload_binding eff m s columns :
  (eff ≤ 16)%nat → cols_wf eff columns →
  merkle_root state_node_hash eff (λ i, slot_leaf_hash (column_slot columns i)) 0
    = segment_root_of eff (m_get m) s →
  cols_agree eff m s columns ∨ segment_collision eff m s columns.
Proof.
  intros He Hcw Hr. unfold segment_root_of in Hr. rewrite <- (Z.add_0_l (s * _)) in Hr.
  rewrite <- (merkle_root_shift state_node_hash eff (exact_leaf (m_get m)) 0) in Hr.
  apply merkle_root_binding in Hr as [Hcol|Heq]; [right; by left|].
  destruct (decide (Forall (λ i, column_slot columns i = m_get m (i + s * 2 ^ Z.of_nat eff))
    (seqZ 0 (2 ^ Z.of_nat eff)))) as [Hall|Hex].
  - left. split; [done|]. intros l Hl. rewrite (columns_total eff) by done. f_equal.
    rewrite Forall_seqZ in Hall. rewrite Hall by lia. f_equal. lia.
  - right. right. apply not_Forall_Exists in Hex; [|intros ?; apply _].
    apply Exists_exists in Hex as (i & Hi%elem_of_seqZ & Hne). exists i. split_and!; [lia|lia|done|].
    apply (Heq i). lia.
Qed.

Context (cs : ChainState) (m : gmap Z SlotValue) (s : Z) (columns : SegmentColumns)
  (Hinv : cs_inv cs m) (Hs : 0 ≤ s < Z.of_nat (sg_num_segments (cs_state cs)))
  (Hclean : s ∉ sg_exact_dirty (cs_state cs)).

Let eff := sg_effective_log_seg (cs_state cs).

Lemma cached_segment : vec_get (xc_segment_roots (cs_exact_roots cs)) s = Some (segment_root_of eff (m_get m) s).
Proof.
  pose proof (ci_wf _ _ Hinv) as Hwf. destruct (ci_cache _ _ Hinv) as [Hlog (roots & Hc & Hroots)].
  rewrite (co_roots _ _ Hc), Hroots; [done|done|done|].
  rewrite (co_len _ _ Hc), (co_eff _ _ Hc), Hlog, <- (wf_eff _ Hwf), <- (wf_num _ Hwf). done.
Qed.

(** Reloading succeeds on the columns of the segment. *)
Lemma restore_evicted_segment_ok :
  cols_agree eff m s columns →
  ∃ cs', restore_evicted_segment cs s columns = Ok cs' ∧ cs_inv cs' m
    ∧ sg_evicted (cs_state cs') = sg_evicted (cs_state cs) ∖ {[s]}.
Proof.
  intros Hagree. pose proof Hagree as [Hcw Hget]. pose proof (ci_wf _ _ Hinv) as Hwf.
  pose proof (eff_bounds _ Hwf) as He. fold eff in He. unfold restore_evicted_segment.
  change (effective_log_segment_size (cs_state cs)) with eff.
  rewrite !bool_decide_false by (intros Hne; apply Hne; apply Hcw). cbn [orb].
  rewrite (slots_live_eq eff columns m s Hcw (ci_live _ _ Hinv) Hget).
  unfold segment_live_count. rewrite (rep_live _ _ (ci_rep _ _ Hinv) s Hs).
  rewrite bool_decide_false by (intros Hne; apply Hne; done).
  rewrite reload_root by (done || lia). cbn [expect ok_or mbind result_bind]. rewrite cached_segment.
  rewrite bool_decide_false.
  2:{ intros Hne. apply Hne. f_equal. unfold segment_root_of. rewrite <- (Z.add_0_l (s * _)).
      rewrite <- (merkle_root_shift state_node_hash eff (exact_leaf (m_get m)) 0).
      apply merkle_root_ext. intros j Hj. unfold exact_leaf, column_slot. rewrite Hget by lia. cbn.
      do 2 f_equal. lia. }
  destruct (restore_segment_represents (cs_state cs) m s columns Hwf (ci_rep _ _ Hinv) Hs Hagree)
    as (st' & Hst' & Hwf' & Hrep' & Hg' & Hev' & Hx').
  rewrite Hst'. cbn [expect ok_or mbind result_bind]. eexists. split; [reflexivity|]. split; [|done].
  destruct Hinv as [_ _ ? ? ? ? ? [Hlog (roots & Hc & Hroots)]]. constructor; cbn; try done.
  constructor; cbn; [by rewrite (sg_same_log _ _ Hg')|]. exists roots.
  by rewrite (sg_same_num _ _ Hg'), (sg_same_eff _ _ Hg'), Hx'.
Qed.

(** On any other columns it fails, unless they collide with the segment. *)
Lemma restore_evicted_segment_mismatch :
  ~ cols_agree eff m s columns → ~ segment_collision eff m s columns →
  restore_evicted_segment cs s columns = Err (Fail (SegmentRootMismatch s)).
Proof.
  intros Hna Hnc. unfold restore_evicted_segment.
  change (effective_log_segment_size (cs_state cs)) with eff.
  pose proof (eff_bounds _ (ci_wf _ _ Hinv)) as He. fold eff in He.
  destruct (_ || _ || _) eqn:Hlen; [done|]. rewrite !orb_false_iff, !bool_decide_eq_false in Hlen.
  destruct Hlen as [[H1 H2] H3]. assert (Hcw : cols_wf eff columns) by (constructor; by apply dec_stable).
  case_bool_decide as Hl; [done|]. rewrite reload_root by (done || lia). cbn [expect ok_or mbind result_bind].
  rewrite cached_segment. rewrite bool_decide_true; [done|]. intros [= Hr].
  destruct (reload_binding eff m s columns) as [?|?]; [lia|done|done|by apply Hna|by apply Hnc].
Qed.

End reload.
