(* ===== verification/ChainProps.v ===== *)
(** * What the chain state promises

    The properties of [state.rs]: the streaming root builder and the cached
    segment tree compute the reference sparse-Merkle root, transactions
    preserve the state invariant, the verified exact transition accepts exactly
    the right child root, and evicted segments are reloaded only if
    authentic. *)

From Stdlib Require Import Sorting.Sorted.
From S2P Require Import Prelude Machine Params Poseidon TxTypes Merkle SlotState SlotInv SparseRoot SparseRootProofs ChainState ChainStateInv ExactTransition.

(** ** Streaming a sparse vector *)

Section streaming.
  Context {P : Poseidon2bPermutation} (depth : nat) (leaf : Z → list Z) (Hdepth : (depth < 64)%nat).

Lemma push_leaves_ok entries s :
  stream_inv depth leaf s → StronglySorted (λ a b, fst a < fst b) entries →
  Forall (λ e, sr_position s ≤ fst e < 2 ^ Z.of_nat depth ∧ leaf (fst e) = snd e) entries →
  (∀ i, sr_position s ≤ i < 2 ^ Z.of_nat depth → i ∉ fst <$> entries → leaf i = slot_leaf_hash EMPTY) →
  ∃ s', try_fold (λ s e, push_leaf s (fst e) (snd e)) s entries = Ok s' ∧ stream_inv depth leaf s'
    ∧ ∀ i, sr_position s' ≤ i < 2 ^ Z.of_nat depth → leaf i = slot_leaf_hash EMPTY.
Proof.
  intros Hs Hsort. revert s Hs. induction Hsort as [|[k h] entries Hsort IH Hlt]; intros s Hs Hin Hout.
  { exists s. split_and!; [done|done|]. intros i Hi. apply Hout; [done|]. apply not_elem_of_nil. }
  apply Forall_cons in Hin as [[Hk Hh] Hin]. cbn [fst snd] in *. rewrite Forall_forall in Hlt.
  destruct (push_leaf_ok depth leaf Hdepth s k Hs Hk) as (s1 & H1 & Hs1 & Hp1).
  { intros i Hi. apply Hout; [lia|]. cbn. intros [->|(e & -> & He)%list_elem_of_fmap]%elem_of_cons; [lia|].
    specialize (Hlt e He). cbn in Hlt. lia. }
  destruct (IH s1 Hs1) as (s2 & H2 & Hs2 & Hl2).
  - apply Forall_forall. intros e He. rewrite Forall_forall in Hin. destruct (Hin e He). specialize (Hlt e He).
    cbn in Hlt. split; [lia|done].
  - intros i Hi Hni. apply Hout; [lia|]. cbn. intros [->|?]%elem_of_cons; [lia|done].
  - exists s2. cbn [try_fold fst snd]. rewrite <- Hh, H1. by split_and!.
Qed.

End streaming.

(** C13: The streaming root builder, which keeps one pending node per level and
    skips zero runs with the precomputed zero subtrees, computes the reference
    Merkle root of the full vector: pushing the leaves of any sparse vector in
    index order and finishing yields the root of the tree of [2^depth] leaves in
    which every other leaf is the hash of the empty slot.  The loop that skips a
    gap terminates within its bound for every depth the code accepts. *)
Theorem streaming_root_is_merkle_root {P : Poseidon2bPermutation} (depth : nat)
    (entries : list (Z * list Z)) (Hdepth : (depth < 64)%nat)
    (Hsorted : StronglySorted (λ a b, fst a < fst b) entries)
    (Hrange : Forall (λ e, 0 ≤ fst e < 2 ^ Z.of_nat depth) entries) :
  (s ← map_err Fail (StreamingSparseRoot_new depth);
   s ← try_fold (λ s e, push_leaf s (fst e) (snd e)) s entries;
   finish s)
  = Ok (merkle_root state_node_hash depth
          (λ i, default (slot_leaf_hash EMPTY) ((list_to_map entries : gmap Z (list Z)) !! i)) 0).
Proof.
  set (leaf := λ i, default (slot_leaf_hash EMPTY) ((list_to_map entries : gmap Z (list Z)) !! i)).
  assert (Hnd : NoDup (fst <$> entries)).
  { clear -Hsorted. induction Hsorted as [|e entries Hs IH Hlt]; cbn; [constructor|].
    constructor; [|done]. intros (e' & He & Hin)%list_elem_of_fmap. rewrite Forall_forall in Hlt.
    specialize (Hlt e' Hin). lia. }
  destruct (stream_new depth leaf Hdepth) as (s & -> & Hs & Hp). cbn [map_err mbind result_bind].
  destruct (push_leaves_ok depth leaf Hdepth entries s Hs Hsorted) as (s' & -> & Hs' & Hl).
  - rewrite Hp. apply Forall_forall. intros [k h] He. rewrite Forall_forall in Hrange. split; [by apply Hrange|].
    unfold leaf. cbn. by rewrite (elem_of_list_to_map_1 entries k h Hnd He).
  - intros i _ Hi. unfold leaf. by rewrite not_elem_of_list_to_map_1.
  - cbn [mbind result_bind]. by apply (finish_ok depth leaf Hdepth).
Qed.

Lemma streaming_root_is_merkle_root_witness :
  let leaf := replicate 32 7 in
  (s ← map_err Fail (StreamingSparseRoot_new (P := example_permutation) 5);
   s ← try_fold (λ s e, push_leaf (P := example_permutation) s (fst e) (snd e)) s [(3, leaf); (4, leaf); (29, leaf)];
   finish (P := example_permutation) s)
  = Ok (merkle_root (state_node_hash (P := example_permutation)) 5
          (λ i, default (slot_leaf_hash (P := example_permutation) EMPTY)
                  ((list_to_map [(3, leaf); (4, leaf); (29, leaf)] : gmap Z (list Z)) !! i)) 0).
Proof.
  apply (streaming_root_is_merkle_root (P := example_permutation) 5
    [(3, replicate 32 7); (4, replicate 32 7); (29, replicate 32 7)]).
  - lia.
  - repeat constructor.
  - repeat constructor; cbn; lia.
Defined.

(** Replacing one segment root in the cached segment tree recomputes only the
    path above it, yet the cache then holds the reference root of the updated
    slot vector, and every node it serves to proofs is the reference root of the
    subtree at that position. *)
Theorem cache_path_update_tracks_root {P : Poseidon2bPermutation} (c : ExactSegmentRootCache)
    (f g : Z → SlotValue) (s : Z)
    (Hc : cache_ok c (segment_root_of (xc_effective_log_seg c) f))
    (Hs : 0 ≤ s < Z.of_nat (length (xc_segment_roots c)))
    (Hfg : ∀ i, segment_of (xc_effective_log_seg c) i ≠ s → g i = f i) :
  ∃ c', set_segment_root c s (segment_root_of (xc_effective_log_seg c) g s) = Some c'
    ∧ cache_root c' = exact_root (xc_log_slots c) g
    ∧ ∀ level i, (level ≤ xc_log_slots c - xc_effective_log_seg c)%nat →
        0 ≤ i < 2 ^ Z.of_nat (xc_log_slots c - xc_effective_log_seg c - level) →
        segment_node_hash c' level i
        = Some (merkle_root state_node_hash (level + xc_effective_log_seg c) (exact_leaf g)
                  (i * 2 ^ Z.of_nat (level + xc_effective_log_seg c))).
Proof.
  destruct (set_segment_root_ok c _ s (segment_root_of (xc_effective_log_seg c) g s) Hc Hs)
    as (c' & Hset & Hc' & Hlog). exists c'. split; [done|].
  assert (He : xc_effective_log_seg c' = xc_effective_log_seg c).
  { by rewrite (co_eff _ _ Hc'), Hlog, <- (co_eff _ _ Hc). }
  assert (Hg : cache_ok c' (segment_root_of (xc_effective_log_seg c') g)).
  { rewrite He. eapply cache_ok_ext; [exact Hc'|]. intros j _. cbn. case_decide as Hj; [by subst|].
    apply segment_root_of_ext. intros i Hi. symmetry. apply Hfg. congruence. }
  split; [by rewrite (cache_root_exact c' g Hg), Hlog|].
  intros level i Hl Hi. rewrite <- Hlog, <- He in Hl, Hi. rewrite <- He. by apply segment_node_hash_ok.
Qed.

Lemma cache_path_update_tracks_root_witness :
  let c := ExactSegmentRootCache_empty (P := example_permutation) 18 in
  let g := λ i, if decide (i = 2 ^ 16 + 3) then from_parts 50 7 1 2 else EMPTY in
  ∃ c', set_segment_root (P := example_permutation) c 1 (segment_root_of (P := example_permutation) 16 g 1) = Some c'
    ∧ cache_root c' = exact_root (P := example_permutation) 18 g.
Proof.
  cbn zeta. set (c := ExactSegmentRootCache_empty (P := example_permutation) 18).
  assert (Hc : cache_ok (P := example_permutation) c
    (segment_root_of (P := example_permutation) 16 (λ _, EMPTY))).
  { eapply cache_ok_ext; [apply (cache_empty_ok (P := example_permutation) 18)|]. intros s _.
    rewrite segment_root_of_empty by done. done. }
  destruct (cache_path_update_tracks_root (P := example_permutation) c (λ _, EMPTY)
    (λ i, if decide (i = 2 ^ 16 + 3) then from_parts 50 7 1 2 else EMPTY) 1 Hc)
    as (c' & Hset & Hroot & _).
  - rewrite (co_len _ _ Hc), (co_eff _ _ Hc). cbn. lia.
  - intros i Hi. rewrite decide_False; [done|]. intros ->. by apply Hi.
  - eauto.
Defined.

(** ** Transactions *)

Section transactions.
  Context {P : Poseidon2bPermutation} {C : SegmentCommitment}.

(** The slots after the block-height-[height] application of [body]. *)
Definition tx_effect (cs : ChainState) (m : gmap Z SlotValue) (body : TxBody) (height : Z) : gmap Z SlotValue :=
  m_update m (tx_deltas (cs_alloc_counter cs) body (Some height)).

(** Everything that holds of the state after an application. *)
Record tx_post (cs : ChainState) (m : gmap Z SlotValue) (body : TxBody) (height : Z) (cs' : ChainState) : Prop := {
  tp_inv : cs_inv cs' (tx_effect cs m body height);
  tp_sealed : sealed cs' (tx_effect cs m body height);
  tp_supply : cs_circulating_supply cs' = cs_circulating_supply cs - input_sum body + output_sum body;
  tp_active : cs_active_slot_count cs' = cs_active_slot_count cs - live_input_count body + live_output_count body;
  tp_alloc : cs_alloc_counter cs' = cs_alloc_counter cs + live_output_count body;
  tp_geometry : same_geometry (cs_state cs) (cs_state cs');
  tp_evicted : sg_evicted (cs_state cs') = sg_evicted (cs_state cs);
  tp_counted : counted cs m → spends_live body → counted cs' (tx_effect cs m body height);
}.

Lemma apply_tx_at_ok cs m body height :
  cs_inv cs m → TxBody_wf body → 0 ≤ height < 2 ^ 63 →
  sg_exact_dirty (cs_state cs) ## sg_evicted (cs_state cs) → tx_admissible cs m body (Some height) →
  ∃ cs', apply_tx_at cs body height
      = Ok (exact_root (sg_log_slots (cs_state cs)) (m_get (tx_effect cs m body height)), cs')
    ∧ tx_post cs m body height cs'.
Proof.
  intros Hinv Hbody Hheight Hdis Hadm.
  assert (Hh : height_ok (Some height)) by (by intros h [= <-]).
  destruct (apply_tx_complete cs m body (Some height) Hinv Hbody Hadm) as [cs1 H1].
  destruct (apply_tx_preserves cs m body (Some height) Hinv Hbody cs1 H1 Hh) as (Hinv1 & Hg1 & Hev1 & Hd1 & Ha1 & Hc1).
  pose proof (apply_tx_accepted cs m body (Some height) Hinv Hbody cs1 H1) as Hacc.
  pose proof (tx_supply cs m body (Some height) Hinv Hbody cs1 Hacc Hh) as Hsup.
  destruct (try_state_root_ok cs1 _ Hinv1 (Hd1 Hdis)) as (cs' & Hr & Hinv' & Hs' & Hg' & Hev' & Ha').
  exists cs'. unfold apply_tx_at, apply_tx_inner. rewrite H1. cbn [mbind result_bind]. rewrite Hr.
  cbn [map_fault map_err]. rewrite (sg_same_log _ _ Hg1). split; [done|].
  constructor; [done|done|..].
  - by rewrite (ci_supply _ _ Hinv'), (ci_supply _ _ Hinv), Hsup.
  - by rewrite (try_state_root_active _ _ _ Hr).
  - by rewrite Ha', Ha1.
  - by etrans.
  - congruence.
  - intros Hc Hlive. unfold counted. rewrite (try_state_root_active _ _ _ Hr).
    by apply (apply_tx_counted cs m body (Some height) Hinv Hbody cs1 H1 Hlive Hh).
Qed.

(** C8: Applying a transaction at a block height below [2^63], when no segment is
    both evicted and awaiting its root.  A well-typed body is applied exactly when
    its live slots are pairwise distinct and readable (in range, in a segment that
    is not evicted), every input matches the slot it names (amount, creation id
    and owner), every output slot is empty, the live-slot counter covers the
    inputs, and the creation ids stay below the coinbase namespace.  The new state
    then represents the old map with the inputs erased and the outputs minted; its
    supply and both counters change by the body's sums and counts, the state
    invariant holds again (supply equal to the sum of the live slots, live-slot
    counter at most their number, unique creation ids, current root cache), and
    the root returned is the reference sparse-Merkle root of that map.  A counter
    that was exact stays exact unless an input is all zero. *)
Theorem apply_tx_at_exact (cs : ChainState) (m : gmap Z SlotValue) (body : TxBody) (height : Z)
    (Hinv : cs_inv cs m) (Hbody : TxBody_wf body)
    (Hheight : 0 ≤ height < 2 ^ 63)
    (Hdis : sg_exact_dirty (cs_state cs) ## sg_evicted (cs_state cs)) :
  (tx_admissible cs m body (Some height) →
   ∃ cs', apply_tx_at cs body height
       = Ok (exact_root (sg_log_slots (cs_state cs)) (m_get (tx_effect cs m body height)), cs')
     ∧ tx_post cs m body height cs')
  ∧ (~ tx_admissible cs m body (Some height) → ∀ r, apply_tx_at cs body height ≠ Ok r).
Proof.
  split; [by apply apply_tx_at_ok|]. intros Hna r Hr. apply Hna.
  unfold apply_tx_at, apply_tx_inner in Hr. apply bind_Ok in Hr as (cs1 & H1 & _).
  apply (apply_tx_accepted cs m) in H1 as []; [|done|done]. by constructor.
Qed.

End transactions.

(** A primary coinbase body with one output. *)
Definition example_mint : TxBody :=
  mkTxBody zero_digest 0 zero_digest (replicate 8 TxInput_dummy)
    [mkTxOutput 3 5000 (replicate 32 9); TxOutput_dummy] 0x100 true.

Lemma apply_tx_at_exact_witness :
  ∃ cs cs', with_log_slots (P := example_permutation) (C := example_commitment) 4 = Some cs
    ∧ ∃ root, apply_tx_at (P := example_permutation) cs example_mint 1 = Ok (root, cs')
    ∧ cs_circulating_supply cs' = 5000 ∧ cs_active_slot_count cs' = 1.
Proof.
  destruct (with_log_slots_ok (P := example_permutation) (C := example_commitment) 4)
    as (cs & Hcs & Hinv & Hsealed & Hlog & Hev & Halloc & _); [lia|].
  destruct (apply_tx_at_exact (P := example_permutation) cs ∅ example_mint 1 Hinv)
    as [Hok _].
  - apply (bool_decide_unpack (TxBody_wf example_mint)). vm_compute. exact I.
  - lia.
  - rewrite Hev. set_solver.
  - destruct Hok as (cs' & Happ & [Hinv' _ Hsup Hact _ _ _ _]).
    { constructor.
      + done.
      + apply (bool_decide_unpack (NoDup (input_slots example_mint ++ output_slots example_mint))). vm_compute. exact I.
      + constructor.
      + apply Forall_singleton. cbn. split; [|done]. split; [rewrite num_slots_eq, Hlog; cbn; lia|].
        rewrite Hev. set_solver.
      + apply (ci_active _ _ Hinv).
      + rewrite Halloc. vm_compute. done. }
    exists cs, cs'. split; [done|]. eexists. split; [exact Happ|].
    pose proof (ci_active _ _ Hinv) as Hzero. rewrite map_size_empty in Hzero. rewrite Hsup, (ci_supply _ _ Hinv).
    split; [done|]. rewrite Hact. change (live_input_count example_mint) with 0. change (live_output_count example_mint) with 1. lia.
Defined.

(** A canonical body whose only live input has amount, creation id and owner zero. *)
Definition empty_spend : TxBody :=
  mkTxBody zero_digest 0 zero_digest (replicate 8 TxInput_dummy) (replicate 2 TxOutput_dummy) 0x001 false.

(** The application does not require a spent slot to be occupied.  A canonical
    body whose live input claims amount, creation id and owner zero matches an
    empty slot: it is accepted, the slots stay as they are, and an exact counter
    of live slots drops below their number. *)
Theorem spend_of_empty_slot_accepted {P : Poseidon2bPermutation} (cs : ChainState) (m : gmap Z SlotValue)
    (Hinv : cs_inv cs m) (Hslot : slot_readable cs 0) (Hempty : m_get m 0 = EMPTY) (Hsome : (1 ≤ size m)%nat)
    (Hcount : counted cs m) :
  validate_body_semantics_no_hash empty_spend = Ok tt
  ∧ ∃ cs', apply_tx_checked_deferred_root cs empty_spend None = Ok cs'
      ∧ represents (cs_state cs') m ∧ cs_active_slot_count cs' = Z.of_nat (size m) - 1.
Proof.
  split; [vm_compute; done|].
  assert (Hin : live_inputs empty_spend = [(0%nat, TxInput_dummy)]) by (vm_compute; done).
  assert (Hout : live_outputs empty_spend = []) by (vm_compute; done).
  assert (Hd : Forall (slot_readable cs ∘ fst) [(0, EMPTY)]) by (repeat constructor; apply Hslot).
  assert (Hm : m_update m [(0, EMPTY)] = m).
  { cbn. pose proof (m_set_get m 0 (ci_live _ _ Hinv)) as Hs. by rewrite Hempty in Hs. }
  pose proof (size_le_slots cs m Hinv) as Hsz. pose proof (ci_alloc _ _ Hinv) as Ha.
  pose proof (num_slots_u32 _ (ci_wf _ _ Hinv)) as H32.
  unfold apply_tx_checked_deferred_root. rewrite Hin, Hout.
  change (live_input_count empty_spend) with 1. change (live_output_count empty_spend) with 0.
  cbn [tb_is_coinbase empty_spend andb try_fold snd]. change (insert_fresh _ ∅ _) with
    (Ok (E := fault ApplyError) ({[0]} ∪ ∅ : gset Z)). cbn [mbind result_bind].
  rewrite (spend_input_complete cs m) by done. cbn [mbind result_bind app].
  rewrite Hcount, (proj2 (checked_sub_Some _ _ _)) by (split; [reflexivity|lia]). cbn [ok_or mbind result_bind].
  rewrite !(proj2 (checked_add_Some 64 _ _ _)) by (split; [reflexivity|lia]). cbn [ok_or mbind result_bind].
  rewrite is_coinbase_creation_id_spec by (unfold is_uint; lia).
  destruct (Z.leb_spec (2 ^ 63) (cs_alloc_counter cs + 0)); [lia|].
  change (ti_slot_index TxInput_dummy) with 0. rewrite (supply_after_slot_updates_ok cs m); [|apply Hinv..|].
  2:{ eapply Forall_impl; [exact Hd|]. intros d [Hr He]. cbn in *. split; [lia|done]. }
  cbn [map_fault map_err mbind result_bind].
  destruct (apply_delta_in_place_represents (cs_state cs) m [(0, EMPTY)] (ci_wf _ _ Hinv) (ci_rep _ _ Hinv) Hd)
    as (st1 & H1 & _ & Hrep1 & _). unfold apply_delta_unrooted. rewrite H1. cbn [map_err mbind result_bind].
  eexists. split; [reflexivity|]. cbn [cs_state cs_active_slot_count]. rewrite Hm in Hrep1. split; [done|lia].
Qed.

Lemma spend_of_empty_slot_accepted_witness :
  ∃ cs cs' n, cs_active_slot_count cs = Z.of_nat n ∧ (1 ≤ n)%nat
    ∧ apply_tx_checked_deferred_root cs empty_spend None = Ok cs'
    ∧ cs_active_slot_count cs' = Z.of_nat n - 1.
Proof.
  destruct (with_log_slots_ok (P := example_permutation) (C := example_commitment) 4)
    as (cs0 & Hcs & Hinv & Hsealed & Hlog & Hev & Halloc & _); [lia|].
  destruct (apply_tx_at_ok (P := example_permutation) cs0 ∅ example_mint 1 Hinv) as (cs & Happ & [Hinv' _ _ Hact _ Hg Hev' Hcount]).
  - apply (bool_decide_unpack (TxBody_wf example_mint)). vm_compute. exact I.
  - lia.
  - rewrite Hev. set_solver.
  - constructor.
    + done.
    + apply (bool_decide_unpack (NoDup (input_slots example_mint ++ output_slots example_mint))). vm_compute. exact I.
    + constructor.
    + apply Forall_singleton. cbn. split; [|done]. split; [rewrite num_slots_eq, Hlog; cbn; lia|].
      rewrite Hev. set_solver.
    + apply (ci_active _ _ Hinv).
    + rewrite Halloc. vm_compute. done.
  - assert (Heff : tx_effect cs0 ∅ example_mint 1 = {[3 := from_parts 5000 (coinbase_creation_id 1)
      (fst (as_fields (replicate 32 9))) (snd (as_fields (replicate 32 9)))]}).
    { unfold tx_effect. rewrite Halloc. vm_compute. done. }
    pose proof (ci_active _ _ Hinv) as Hzero. rewrite map_size_empty in Hzero.
    assert (Hc : counted cs (tx_effect cs0 ∅ example_mint 1)).
    { apply Hcount; [unfold counted; rewrite map_size_empty; lia|constructor]. }
    rewrite Heff in Hinv', Hc. exists cs.
    assert (Hr : slot_readable cs 0).
    { split; [rewrite (same_geometry_num_slots _ _ Hg), num_slots_eq, Hlog; lia|]. rewrite Hev', Hev. set_solver. }
    destruct (spend_of_empty_slot_accepted (P := example_permutation) cs _ Hinv' Hr) as [_ (cs' & Ha & _ & Hc1)].
    + done.
    + rewrite map_size_singleton. done.
    + done.
    + exists cs', 1%nat. rewrite Hc. by rewrite map_size_singleton in *.
Defined.

(** ** The verified exact transition *)

(** C9: The exact transition trusts nothing but the claimed child root.  On a
    state that satisfies the invariant with a sealed root, a target depth, at most
    32, that is neither the current one nor one level larger is refused with a
    depth mismatch, an update outside the target domain with an out-of-range
    error, and an update in an evicted segment is refused too.  For all other
    updates, unless a domain smaller than one segment is to grow while that
    segment is evicted, the root of the updated slot vector is recomputed from the
    cached tree: if the claim differs the transition fails with a root mismatch;
    if it agrees, the new state represents the updated map at the target depth,
    with the circulating supply of that map, a sealed root, and the given
    counters installed. *)
Theorem verified_transition_iff_root {P : Poseidon2bPermutation} {C : SegmentCommitment}
    (cs : ChainState) (m : gmap Z SlotValue) (log_slots : nat) (updates : list (Z * SlotValue))
    (child : list Z) (active_slot_count alloc_counter : Z)
    (Hinv : cs_inv cs m) (Hsealed : sealed cs m) (H32 : (log_slots ≤ 32)%nat)
    (Hindices : Forall (λ d, 0 ≤ fst d) updates) :
  let current := sg_log_slots (cs_state cs) in
  let m' := m_update m updates in
  let root := exact_root log_slots (m_get m') in
  let in_range := Forall (λ d, fst d < 2 ^ Z.of_nat log_slots) updates in
  let in_memory := Forall (λ d, segment_of (Nat.min log_slots LOG_SEGMENT_SIZE) (fst d) ∉ sg_evicted (cs_state cs)) updates in
  let transition := apply_verified_exact_transition cs log_slots child updates active_slot_count alloc_counter in
  ((log_slots < current ∨ current + 1 < log_slots)%nat → transition = Err (Fail ET_HeaderLogSlotsMismatch))
  ∧ ((current ≤ log_slots ≤ current + 1)%nat →
     (~ in_range → transition = Err (Fail ET_SlotOutOfRange))
     ∧ (in_range → ~ in_memory → ∀ r, transition ≠ Ok r)
     ∧ (in_range → in_memory →
        (log_slots ≠ current → (current < LOG_SEGMENT_SIZE)%nat → 0 ∉ sg_evicted (cs_state cs)) →
        (child ≠ root → transition = Err (Fail ET_CachedRootMismatch))
        ∧ (child = root → ∃ cs', transition = Ok (root, cs')
           ∧ state_wf (cs_state cs') ∧ represents (cs_state cs') m' ∧ sealed cs' m'
           ∧ sg_log_slots (cs_state cs') = log_slots ∧ cs_circulating_supply cs' = supply m'
           ∧ cs_active_slot_count cs' = active_slot_count ∧ cs_alloc_counter cs' = alloc_counter))).
Proof.
  intros current m' root in_range in_memory transition. split; [by apply apply_verified_depth|]. intros Hlog.
  assert (Hlog' : log_slots = sg_log_slots (cs_state cs) ∨ log_slots = S (sg_log_slots (cs_state cs)))
    by (fold current; lia).
  split; [|split].
  - intros Hr. apply (apply_verified_range cs log_slots); [done|done|]. apply not_Forall_Exists in Hr; [|apply _].
    eapply Exists_impl; [exact Hr|]. cbn. intros d Hd. lia.
  - intros Hr Hm r. apply (apply_verified_evicted cs m log_slots); [done|done|done|by apply Forall_and|].
    apply not_Forall_Exists in Hm; [|apply _]. eapply Exists_impl; [exact Hm|]. intros d Hd. by apply dec_stable in Hd.
  - intros Hr Hm Hresident. assert (Hupdates : Forall (λ d, 0 ≤ fst d < 2 ^ Z.of_nat log_slots
      ∧ segment_of (Nat.min log_slots LOG_SEGMENT_SIZE) (fst d) ∉ sg_evicted (cs_state cs)) updates)
      by (apply Forall_and; split; [by apply Forall_and|done]).
    split; [by apply (apply_verified_mismatch cs m)|]. intros Hchild. unfold transition. rewrite Hchild.
    destruct (apply_verified_ok cs m log_slots updates Hinv Hsealed Hlog' H32 Hupdates Hresident
      active_slot_count alloc_counter) as (cs' & ? & ? & ? & _ & ?). eauto.
Qed.

Lemma verified_transition_iff_root_witness :
  ∃ cs, with_log_slots (P := example_permutation) (C := example_commitment) 4 = Some cs
    ∧ ∃ cs' root, apply_verified_exact_transition (P := example_permutation) (C := example_commitment)
        cs 5 root [(20, from_parts 50 7 1 2)] 1 1 = Ok (root, cs')
    ∧ sg_log_slots (cs_state cs') = 5%nat ∧ cs_active_slot_count cs' = 1.
Proof.
  destruct (with_log_slots_ok (P := example_permutation) (C := example_commitment) 4)
    as (cs & Hcs & Hinv & Hsealed & Hlog & Hev & Halloc & _); [lia|].
  exists cs. split; [done|].
  destruct (verified_transition_iff_root (P := example_permutation) (C := example_commitment) cs ∅ 5
    [(20, from_parts 50 7 1 2)]
    (exact_root (P := example_permutation) 5 (m_get (m_update ∅ [(20, from_parts 50 7 1 2)]))) 1 1 Hinv Hsealed)
    as [_ Hok].
  - lia.
  - apply Forall_singleton. cbn [fst]. lia.
  - destruct Hok as (_ & _ & Hok); [rewrite Hlog; lia|].
    destruct Hok as [_ Hok].
    + apply Forall_singleton. cbn [fst]. lia.
    + apply Forall_singleton. rewrite Hev. set_solver.
    + rewrite Hev. set_solver.
    + destruct (Hok eq_refl) as (cs' & Ha & _ & _ & _ & Hl & _ & Hact & _). eauto.
Defined.

(** C14: Reloading an evicted segment.  The columns the segment really has are
    accepted, and the state keeps its invariant with the segment resident again.
    Any other columns are refused with a root mismatch, unless they exhibit, at an
    explicit position of the segment's tree, a collision of the slot hash or of
    the node hash with the authentic segment. *)
Theorem reload_accepts_only_authentic {P : Poseidon2bPermutation} (cs : ChainState) (m : gmap Z SlotValue)
    (s : Z) (columns : SegmentColumns) (Hinv : cs_inv cs m)
    (Hs : 0 ≤ s < Z.of_nat (sg_num_segments (cs_state cs))) (Hclean : s ∉ sg_exact_dirty (cs_state cs)) :
  let eff := sg_effective_log_seg (cs_state cs) in
  (cols_agree eff m s columns →
   ∃ cs', restore_evicted_segment cs s columns = Ok cs' ∧ cs_inv cs' m
     ∧ sg_evicted (cs_state cs') = sg_evicted (cs_state cs) ∖ {[s]})
  ∧ (~ cols_agree eff m s columns → ~ segment_collision eff m s columns →
     restore_evicted_segment cs s columns = Err (Fail (SegmentRootMismatch s))).
Proof.
  intros eff. split; [by apply restore_evicted_segment_ok|by apply restore_evicted_segment_mismatch].
Qed.

Lemma reload_accepts_only_authentic_witness :
  ∃ cs, with_log_slots (P := example_permutation) (C := example_commitment) 4 = Some cs
    ∧ ∃ cs', restore_evicted_segment (P := example_permutation) cs 0 (new_zero 16) = Ok cs'.
Proof.
  destruct (with_log_slots_ok (P := example_permutation) (C := example_commitment) 4)
    as (cs & Hcs & Hinv & Hsealed & Hlog & Hev & Halloc & _); [lia|].
  pose proof (wf_eff _ (ci_wf _ _ Hinv)) as Heff. pose proof (wf_num _ (ci_wf _ _ Hinv)) as Hn.
  rewrite Heff, Hlog in Hn. rewrite Hlog in Heff. cbn in Hn, Heff.
  exists cs. split; [done|].
  destruct (reload_accepts_only_authentic (P := example_permutation) cs ∅ 0 (new_zero 16) Hinv) as [Hok _].
  - rewrite Hn. lia.
  - rewrite (proj1 Hsealed). set_solver.
  - destruct Hok as (cs' & Hr & _); [|eauto]. rewrite Heff. split; [by constructor|].
    intros l Hl. unfold m_get. rewrite lookup_empty. by apply (cols_get_new_zero 4).
Defined.
