(* ===== verification/BlockHeader.v ===== *)
(** * The block header

    [block_header.rs]: the header, its semantic identity [hash_block_header]
    and the nonce-free projection [semantic_header_id]; [wire.rs]: the
    212-byte header encoding.  The last section shows that both hashes are the
    reference sponge over the listed fields and that they commit to every
    field. *)

From S2P Require Import Prelude Machine Params Poseidon TxTypes TxWire.

Record BlockHeader := mkBlockHeader {
  bh_prev_block_hash : list Z;
  bh_state_root : list Z;
  bh_tx_root : list Z;
  bh_timestamp : Z;
  bh_height : Z;
  bh_miner_address : list Z;
  bh_nonce : Z;
  bh_difficulty_target : list Z;
  bh_log_slots : Z;
  bh_active_slot_count : Z;
  bh_alloc_counter : Z;
}.

#[global] Instance BlockHeader_eq_dec : EqDecision BlockHeader.
Proof. solve_decision. Defined.

Record BlockHeader_wf (h : BlockHeader) : Prop := {
  hw_prev : is_digest (bh_prev_block_hash h);
  hw_state_root : is_digest (bh_state_root h);
  hw_tx_root : is_digest (bh_tx_root h);
  hw_timestamp : is_u64 (bh_timestamp h);
  hw_height : is_u64 (bh_height h);
  hw_miner : is_digest (bh_miner_address h);
  hw_nonce : is_u128 (bh_nonce h);
  hw_target : is_digest (bh_difficulty_target h);
  hw_log_slots : is_u32 (bh_log_slots h);
  hw_active : is_u64 (bh_active_slot_count h);
  hw_alloc : is_u64 (bh_alloc_counter h);
}.

(** ** Hashes *)

Section hashes.
  Context {P : Poseidon2bPermutation}.

(** The fields after the nonce, absorbed in header order. *)
Definition absorb_header_body (s : Poseidon2bSponge) (hdr : BlockHeader) : Poseidon2bSponge :=
  let s := absorb_digest s (bh_prev_block_hash hdr) in
  let s := absorb_digest s (bh_state_root hdr) in
  let s := absorb_digest s (bh_tx_root hdr) in
  let s := absorb s (bh_timestamp hdr) in
  let s := absorb s (bh_height hdr) in
  let s := absorb_digest s (bh_miner_address hdr) in
  let s := absorb_digest s (bh_difficulty_target hdr) in
  let s := absorb s (bh_log_slots hdr) in
  let s := absorb s (bh_active_slot_count hdr) in
  absorb s (bh_alloc_counter hdr).

Definition hash_block_header (hdr : BlockHeader) : list Z :=
  let s := with_iv (capacity_iv TAG_BLOCKHDR) in
  let s := absorb s (bh_nonce hdr) in
  finalize (absorb_header_body s hdr).

Definition block_id (hdr : BlockHeader) : list Z := hash_block_header hdr.

Definition semantic_header_id (hdr : BlockHeader) : list Z :=
  let s := with_iv (capacity_iv TAG_SEMHDR) in
  finalize (absorb_header_body s hdr).

End hashes.

(** ** Wire *)

Definition put_u128 (value : Z) : list Z := to_le_bytes 16 value.

Definition take_u128 : decoder WireError Z := λ src,
  '(bytes, src) ← wire_take 16 src; Ok (from_le_bytes bytes, src).

Definition BLOCK_HEADER_WIRE_SIZE : nat := 32 + 32 + 32 + 8 + 8 + 32 + 16 + 32 + 4 + 8 + 8.

Definition BLOCK_HEADER_NONCE_OFFSET : nat := 32 + 32 + 32 + 8 + 8 + 32.

Definition BlockHeader_encode (h : BlockHeader) : list Z :=
  bh_prev_block_hash h ++ bh_state_root h ++ bh_tx_root h ++ put_u64 (bh_timestamp h)
  ++ put_u64 (bh_height h) ++ bh_miner_address h ++ put_u128 (bh_nonce h)
  ++ bh_difficulty_target h ++ put_u32 (bh_log_slots h) ++ put_u64 (bh_active_slot_count h)
  ++ put_u64 (bh_alloc_counter h).

Definition BlockHeader_decode : decoder WireError BlockHeader := λ src,
  '(prev_block_hash, src) ← take_digest src;
  '(state_root, src) ← take_digest src;
  '(tx_root, src) ← take_digest src;
  '(timestamp, src) ← take_u64 src;
  '(height, src) ← take_u64 src;
  '(miner_address, src) ← take_digest src;
  '(nonce, src) ← take_u128 src;
  '(difficulty_target, src) ← take_digest src;
  '(log_slots, src) ← take_u32 src;
  '(active_slot_count, src) ← take_u64 src;
  '(alloc_counter, src) ← take_u64 src;
  Ok (mkBlockHeader prev_block_hash state_root tx_root timestamp height miner_address nonce
        difficulty_target log_slots active_slot_count alloc_counter, src).

Definition BlockHeader_from_bytes (bytes : list Z) : result WireError BlockHeader :=
  '(out, src) ← BlockHeader_decode bytes;
  if bool_decide (src ≠ []) then Err TrailingBytes else Ok out.

#[global] Instance u128_codec : Codec is_u128 put_u128 take_u128 := take_uint_codec 16.

#[global] Instance BlockHeader_codec : Codec BlockHeader_wf BlockHeader_encode BlockHeader_decode.
Proof.
  split.
  - intros [] rest []. unfold BlockHeader_encode, BlockHeader_decode. cbn [bh_prev_block_hash bh_state_root bh_tx_root bh_timestamp
      bh_height bh_miner_address bh_nonce bh_difficulty_target bh_log_slots bh_active_slot_count bh_alloc_counter] in *.
    codec_run_digests.
    done.
  - intros src h rest Hb Hd. unfold BlockHeader_decode in Hd. codec_inv. injection Hd as <- <-.
    split_and!; [by constructor| |done]. unfold BlockHeader_encode. cbn [bh_prev_block_hash bh_state_root bh_tx_root bh_timestamp
      bh_height bh_miner_address bh_nonce bh_difficulty_target bh_log_slots bh_active_slot_count bh_alloc_counter].
    by rewrite <- !app_assoc.
Qed.

Lemma length_BlockHeader_encode h : BlockHeader_wf h → length (BlockHeader_encode h) = BLOCK_HEADER_WIRE_SIZE.
Proof.
  intros []. unfold BlockHeader_encode, put_u128, put_u64, put_u32. rewrite !length_app, !length_to_le_bytes.
  destruct hw_prev0 as [-> _], hw_state_root0 as [-> _], hw_tx_root0 as [-> _], hw_miner0 as [-> _],
    hw_target0 as [-> _]. done.
Qed.

(** ** The absorbed message *)

Section message.
  Context {P : Poseidon2bPermutation}.

(** What [semantic_header_id] absorbs, in order. *)
Definition header_body_parts (h : BlockHeader) : list (list Z) :=
  [bh_prev_block_hash h; bh_state_root h; bh_tx_root h; to_le_bytes 16 (bh_timestamp h);
   to_le_bytes 16 (bh_height h); bh_miner_address h; bh_difficulty_target h;
   to_le_bytes 16 (bh_log_slots h); to_le_bytes 16 (bh_active_slot_count h);
   to_le_bytes 16 (bh_alloc_counter h)].

(** The nonce comes first. *)
Definition header_parts (h : BlockHeader) : list (list Z) :=
  to_le_bytes 16 (bh_nonce h) :: header_body_parts h.

Lemma absorb_digest_update s d : is_digest d → absorb_digest s d = update s d.
Proof.
  intros [Hl Hb]. unfold absorb_digest, as_fields, absorb_pair, Block128_to_bytes, Block128_from_bytes.
  assert (Hb' := Hb). rewrite <- (take_drop 16 d) in Hb'. apply byte_string_app in Hb' as [H1 H2].
  apply to_from_le_bytes in H1, H2. rewrite length_take, length_drop, Hl in *.
  change (16 `min` 32)%nat with 16%nat in H1. change (32 - 16)%nat with 16%nat in H2.
  rewrite H1, H2, take_drop. done.
Qed.

Lemma absorb_update s x : absorb s x = update s (to_le_bytes 16 x).
Proof. reflexivity. Qed.

Lemma absorb_header_body_updates s h :
  BlockHeader_wf h → absorb_header_body s h = foldl update s (header_body_parts h).
Proof.
  intros []. unfold absorb_header_body, header_body_parts. rewrite !foldl_cons_eq.
  rewrite !absorb_digest_update, !absorb_update by done. cbn [foldl]. reflexivity.
Qed.

(** Two values of a fixed encoded width are equal when their encodings are. *)
Lemma header_parts_lengths h :
  BlockHeader_wf h →
  length <$> header_parts h = [16; 32; 32; 32; 16; 16; 32; 32; 16; 16; 16]%nat.
Proof.
  intros []. unfold header_parts, header_body_parts. cbn [fmap list_fmap].
  rewrite !length_to_le_bytes. repeat match goal with H : is_digest _ |- _ => destruct H as [-> _] end. done.
Qed.

Lemma header_body_parts_inj h h' :
  BlockHeader_wf h → BlockHeader_wf h' → header_body_parts h = header_body_parts h' →
  h = mkBlockHeader (bh_prev_block_hash h') (bh_state_root h') (bh_tx_root h') (bh_timestamp h')
        (bh_height h') (bh_miner_address h') (bh_nonce h) (bh_difficulty_target h') (bh_log_slots h')
        (bh_active_slot_count h') (bh_alloc_counter h').
Proof.
  intros [] []. unfold header_body_parts. intros H.
  rewrite !list_cons_eq in H. destruct H as (H1 & H2 & H3 & H4 & H5 & H6 & H7 & H8 & H9 & H10 & _).
  apply (to_le_bytes_inj _ 64) in H4, H5, H9, H10; try done || lia.
  apply (to_le_bytes_inj _ 32) in H8; try done || lia.
  destruct h, h'; cbn in *; congruence.
Qed.

Lemma header_body_message_inj h h' :
  BlockHeader_wf h → BlockHeader_wf h' →
  concat (header_body_parts h) = concat (header_body_parts h') → header_body_parts h = header_body_parts h'.
Proof.
  intros Hw Hw' Hc. apply concat_inj_lengths; [|done].
  pose proof (header_parts_lengths h Hw) as H1. pose proof (header_parts_lengths h' Hw') as H2.
  rewrite <- H2 in H1. cbn [header_parts fmap list_fmap] in H1. by apply list_cons_eq in H1 as [_ H1].
Qed.

(** C26: Both header identities are the reference sponge, under their own domain tags, of
    the header's fields in a fixed order with the nonce first (chain-link id) or left out
    (semantic id), and the padded messages commit to the header: two chain-link messages
    agree exactly when the headers are equal, two semantic messages exactly when the
    headers agree on everything but the nonce. *)
Theorem header_identities_commit (h h' : BlockHeader)
    (Hwf : BlockHeader_wf h) (Hwf' : BlockHeader_wf h') :
  block_id h = sponge_ref (capacity_iv TAG_BLOCKHDR) (concat (header_parts h))
  ∧ semantic_header_id h = sponge_ref (capacity_iv TAG_SEMHDR) (concat (header_body_parts h))
  ∧ (pad (concat (header_parts h)) = pad (concat (header_parts h')) ↔ h = h')
  ∧ (pad (concat (header_body_parts h)) = pad (concat (header_body_parts h')) ↔
     ∃ nonce, h = mkBlockHeader (bh_prev_block_hash h') (bh_state_root h') (bh_tx_root h')
        (bh_timestamp h') (bh_height h') (bh_miner_address h') nonce (bh_difficulty_target h')
        (bh_log_slots h') (bh_active_slot_count h') (bh_alloc_counter h')).
Proof.
  split_and!.
  - unfold block_id, hash_block_header. rewrite absorb_header_body_updates, absorb_update by done.
    rewrite <- finalize_updates. unfold header_parts. rewrite foldl_cons_eq. reflexivity.
  - unfold semantic_header_id. rewrite absorb_header_body_updates by done. apply finalize_updates.
  - split; [|by intros ->]. intros Hp%pad_inj. cbn [header_parts concat] in Hp.
    apply app_inj_1 in Hp as [Hn Hp]; [|by rewrite !length_to_le_bytes].
    apply (to_le_bytes_inj _ 128) in Hn; [|lia|apply Hwf|apply Hwf'].
    apply header_body_message_inj, header_body_parts_inj in Hp; [|done..]. rewrite Hp, Hn. by destruct h'.
  - split.
    + intros Hp%pad_inj. exists (bh_nonce h). by apply header_body_parts_inj, header_body_message_inj.
    + intros [nonce Hh]. rewrite Hh. done.
Qed.

End message.

Definition example_header : BlockHeader :=
  mkBlockHeader (replicate 32 0x11) (replicate 32 0x22) (replicate 32 0x33) 1700000000 100
    (replicate 32 0x44) 0xDEADBEEFCAFEBABE (replicate 32 0x77) 24 12345 99999.

Lemma header_identities_commit_witness :
  block_id (P := example_permutation) example_header
    = sponge_ref (P := example_permutation) (capacity_iv TAG_BLOCKHDR) (concat (header_parts example_header)).
Proof.
  assert (Hwf : BlockHeader_wf example_header)
    by (constructor; apply (bool_decide_unpack _); vm_compute; exact I).
  exact (proj1 (header_identities_commit (P := example_permutation) example_header example_header Hwf Hwf)).
Defined.
