(* ===== verification/TxTree.v ===== *)
(** * The transaction tree

    [tx_tree.rs]: the 256-leaf tree of transaction identifiers behind a block
    header's [tx_root], its inclusion paths and their verifier.  [None] is a
    failed assertion.  The theorem of this file says that the root is the
    reference Merkle root of the zero-padded leaves bound to their count, that
    every leaf has a path the verifier accepts, and that a path it accepts
    proves the leaf, short of a collision at a named node of that path. *)

From S2P Require Import Prelude Machine Poseidon Merkle.

Definition TX_TREE_LEAVES : nat := 256.
Definition TX_TREE_DEPTH : nat := 8.

Definition count_digest (tx_count : nat) : list Z :=
  copy_into zero_digest 0 (to_le_bytes 16 (Z.of_nat tx_count)).

(** [layer.chunks_exact(2).map(|pair| node(&pair[0], &pair[1])).collect()]. *)
Fixpoint pair_layer (node : list Z → list Z → list Z) (layer : list (list Z)) : list (list Z) :=
  match layer with
  | l :: r :: rest => node l r :: pair_layer node rest
  | _ => []
  end.

(** [vec![[0u8; 32]; TX_TREE_LEAVES]] with the hashes copied to its start. *)
Definition padded_layer (tx_hashes : list (list Z)) : list (list Z) :=
  tx_hashes ++ replicate (TX_TREE_LEAVES - length tx_hashes) zero_digest.

(** [while layer.len() > 1]: each round halves the 256 leaves, so eight rounds
    are enough. *)
Fixpoint root_loop (node : list Z → list Z → list Z) (fuel : nat) (layer : list (list Z)) : list (list Z) :=
  match fuel with
  | O => layer
  | S fuel => if decide (1 < length layer)%nat then root_loop node fuel (pair_layer node layer) else layer
  end.

Fixpoint path_loop (node : list Z → list Z → list Z) (fuel : nat) (layer : list (list Z)) (index : Z)
    (path : list (list Z)) : option (list (list Z)) :=
  match fuel with
  | O => Some path
  | S fuel =>
      if decide (1 < length layer)%nat then
        sibling ← vec_get layer (Z.lxor index 1);
        path_loop node fuel (pair_layer node layer) (Z.shiftr index 1) (path ++ [sibling])
      else Some path
  end.

Section tx_tree.
  Context {P : Poseidon2bPermutation}.

Definition bind_tx_count (merkle_root : list Z) (tx_count : nat) : option (list Z) :=
  if decide (1 ≤ tx_count ≤ TX_TREE_LEAVES)%nat
  then Some (compress_with_tag TAG_TXROOT merkle_root (count_digest tx_count))
  else None.

Definition root_from_hashes (tx_hashes : list (list Z)) : option (list Z) :=
  if decide (tx_hashes = []) then Some zero_digest
  else if decide (length tx_hashes ≤ TX_TREE_LEAVES)%nat then
    let layer := root_loop compress TX_TREE_DEPTH (padded_layer tx_hashes) in
    top ← layer !! 0%nat;
    bind_tx_count top (length tx_hashes)
  else None.

Definition path_from_hashes (tx_hashes : list (list Z)) (tx_index : Z) : option (list (list Z)) :=
  if decide (tx_hashes ≠ [] ∧ (length tx_hashes ≤ TX_TREE_LEAVES)%nat
             ∧ tx_index < Z.of_nat (length tx_hashes)) then
    path ← path_loop compress TX_TREE_DEPTH (padded_layer tx_hashes) tx_index [];
    if decide (length path = TX_TREE_DEPTH) then Some path else None
  else None.

(** One level of the verifier. *)
Definition path_step (node : list Z → list Z → list Z) (tx_index : Z) (current : list Z)
    (entry : nat * list Z) : list Z :=
  let '(level, sibling) := entry in
  if Z.land (Z.shiftr tx_index (Z.of_nat level)) 1 =? 1 then node sibling current else node current sibling.

Definition verify_path (leaf : list Z) (path : list (list Z)) (tx_index : Z) (tx_count : nat)
    (claimed_root : list Z) : bool :=
  if decide (¬ (1 ≤ tx_count ≤ TX_TREE_LEAVES)%nat ∨ Z.of_nat tx_count ≤ tx_index) then false
  else
    let current := foldl (path_step compress tx_index) leaf (imap pair path) in
    bool_decide (bind_tx_count current tx_count = Some claimed_root).

End tx_tree.

(** ** Layers are the levels of the reference tree *)

Section layers.
  Context (node : list Z → list Z → list Z) (leaf : Z → list Z).

(** Node [j] at height [k]. *)
Definition tree_node (k : nat) (j : Z) : list Z := merkle_root node k leaf (j * 2 ^ Z.of_nat k).

Definition level (k n : nat) : list (list Z) := (λ j, tree_node k (Z.of_nat j)) <$> seq 0 n.

Lemma tree_node_S k j : tree_node (S k) j = node (tree_node k (2 * j)) (tree_node k (2 * j + 1)).
Proof.
  unfold tree_node. cbn [merkle_root]. rewrite Nat2Z.inj_succ, Z.pow_succ_r by lia. f_equal; f_equal; lia.
Qed.

Lemma pair_layer_level k n : pair_layer node (level k (2 * n)) = level (S k) n.
Proof.
  unfold level. enough (Hgen : ∀ a, pair_layer node ((λ j, tree_node k (Z.of_nat j)) <$> seq (2 * a) (2 * n))
    = (λ j, tree_node (S k) (Z.of_nat j)) <$> seq a n) by exact (Hgen 0%nat).
  induction n as [|n IH]; intros a; [done|].
  replace (2 * S n)%nat with (S (S (2 * n))) by lia. cbn [seq fmap list_fmap pair_layer].
  replace (S (S (2 * a)))%nat with (2 * S a)%nat by lia. rewrite IH, tree_node_S.
  do 2 f_equal; f_equal; lia.
Qed.

Lemma length_level k n : length (level k n) = n.
Proof. unfold level. by rewrite length_fmap, length_seq. Qed.

Lemma vec_get_level k n j : 0 ≤ j < Z.of_nat n → vec_get (level k n) j = Some (tree_node k j).
Proof.
  intros Hj. apply vec_get_Some. split; [lia|]. unfold level. rewrite list_lookup_fmap.
  rewrite lookup_seq_lt by lia. cbn. do 2 f_equal. lia.
Qed.

Lemma root_loop_level d k : root_loop node d (level k (2 ^ d)) = level (k + d) 1.
Proof.
  revert k; induction d as [|d IH]; intros k; cbn [root_loop]; [by rewrite Nat.add_0_r|].
  rewrite Nat.pow_succ_r'. pose proof (Nat.pow_nonzero 2 d).
  rewrite length_level, decide_True by lia. rewrite pair_layer_level, IH. f_equal. lia.
Qed.

(** The sibling of the ancestor of leaf [i] at each height. *)
Definition siblings (i : Z) (k d : nat) : list (list Z) :=
  (λ h, tree_node h (Z.lxor (Z.shiftr i (Z.of_nat h)) 1)) <$> seq k d.

Lemma lxor_1_even q : 0 ≤ q → Z.lxor (2 * q) 1 = 2 * q + 1.
Proof. destruct q; [done..|lia]. Qed.

Lemma lxor_1_odd q : 0 ≤ q → Z.lxor (2 * q + 1) 1 = 2 * q.
Proof. destruct q; [done..|lia]. Qed.

Lemma lxor_1_bound i n : 0 ≤ i < 2 * n → 0 ≤ Z.lxor i 1 < 2 * n.
Proof.
  intros Hi. destruct (Z.Even_or_Odd i) as [[q ->]|[q ->]].
  - rewrite lxor_1_even by lia. lia.
  - rewrite lxor_1_odd by lia. lia.
Qed.

Lemma path_loop_level d k i acc :
  0 ≤ Z.shiftr i (Z.of_nat k) < 2 ^ Z.of_nat d →
  path_loop node d (level k (2 ^ d)) (Z.shiftr i (Z.of_nat k)) acc = Some (acc ++ siblings i k d).
Proof.
  revert k acc; induction d as [|d IH]; intros k acc Hi; cbn [path_loop].
  { unfold siblings. by rewrite app_nil_r. }
  rewrite Nat.pow_succ_r'. pose proof (Nat.pow_nonzero 2 d).
  rewrite Nat2Z.inj_succ, Z.pow_succ_r in Hi by lia.
  rewrite length_level, decide_True by lia.
  rewrite vec_get_level by (rewrite Nat2Z.inj_mul, Nat2Z.inj_pow; apply lxor_1_bound; lia).
  cbn [mbind option_bind]. rewrite pair_layer_level, Z.shiftr_shiftr by lia.
  replace (Z.of_nat k + 1) with (Z.of_nat (S k)) by lia. rewrite IH.
  - unfold siblings. cbn [seq fmap list_fmap]. by rewrite <- app_assoc.
  - replace (Z.of_nat (S k)) with (Z.of_nat k + 1) by lia. rewrite <- Z.shiftr_shiftr by lia.
    rewrite (Z.shiftr_div_pow2 _ 1) by lia. change (2 ^ 1) with 2.
    split; [apply Z.div_pos; lia|apply Z.div_lt_upper_bound; lia].
Qed.

End layers.

(** ** Paths *)

Section paths.
  Context (node : list Z → list Z → list Z) (leaf : Z → list Z) (tx_index : Z) (Hindex : 0 ≤ tx_index).

(** The ancestor index of the leaf at height [k], and which child it is. *)
Lemma ancestor_split k :
  let a := Z.shiftr tx_index (Z.of_nat k) in
  let j := Z.shiftr tx_index (Z.of_nat (S k)) in
  0 ≤ j ∧ a = 2 * j + Z.b2z (Z.land a 1 =? 1).
Proof.
  cbn zeta. replace (Z.of_nat (S k)) with (Z.of_nat k + 1) by lia. rewrite <- Z.shiftr_shiftr by lia.
  set (a := Z.shiftr tx_index (Z.of_nat k)). assert (0 ≤ a) by (by apply Z.shiftr_nonneg).
  rewrite (Z.shiftr_div_pow2 a 1) by lia. change 1 with (Z.ones 1) at 3. rewrite Z.land_ones by lia.
  change (2 ^ 1) with 2. pose proof (Z.div_mod a 2 ltac:(lia)).
  pose proof (Z.mod_pos_bound a 2 ltac:(lia)). split; [apply Z.div_pos; lia|].
  destruct (Z.eqb_spec (a mod 2) 1); cbn [Z.b2z]; lia.
Qed.

(** The children the verifier hashes at level [k], and those of the tree. *)
Definition path_pair (current sibling : list Z) (k : nat) : list Z * list Z :=
  if Z.land (Z.shiftr tx_index (Z.of_nat k)) 1 =? 1 then (sibling, current) else (current, sibling).

Definition tree_pair (k : nat) : list Z * list Z :=
  let j := Z.shiftr tx_index (Z.of_nat (S k)) in
  (tree_node node leaf k (2 * j), tree_node node leaf k (2 * j + 1)).

(** The verifier's node after [k] levels. *)
Definition path_node (start : list Z) (path : list (list Z)) (k : nat) : list Z :=
  foldl (path_step node tx_index) start (take k (imap pair path)).

(** At level [k] the path and the tree hash different children to one node. *)
Definition path_collision (start : list Z) (path : list (list Z)) (k : nat) : Prop :=
  let p := path_pair (path_node start path k) (path !!! k) k in
  p ≠ tree_pair k ∧ node (fst p) (snd p) = node (fst (tree_pair k)) (snd (tree_pair k)).

Lemma path_node_S start path k :
  (k < length path)%nat →
  path_node start path (S k) =
    let p := path_pair (path_node start path k) (path !!! k) k in node (fst p) (snd p).
Proof.
  intros Hk. unfold path_node. destruct (lookup_lt_is_Some_2 path k Hk) as [s Hs].
  rewrite (take_S_r _ _ (k, s)) by (by rewrite list_lookup_imap, Hs).
  rewrite foldl_app, (list_lookup_total_correct _ _ _ Hs). cbn [foldl path_step]. unfold path_pair.
  destruct (_ =? 1); done.
Qed.

Lemma tree_pair_node k :
  tree_node node leaf (S k) (Z.shiftr tx_index (Z.of_nat (S k)))
  = node (fst (tree_pair k)) (snd (tree_pair k)).
Proof. apply tree_node_S. Qed.

Lemma tree_pair_path k :
  tree_pair k = path_pair (tree_node node leaf k (Z.shiftr tx_index (Z.of_nat k)))
                  (tree_node node leaf k (Z.lxor (Z.shiftr tx_index (Z.of_nat k)) 1)) k.
Proof.
  unfold tree_pair, path_pair. destruct (ancestor_split k) as [Hj Ha].
  set (j := Z.shiftr tx_index (Z.of_nat (S k))) in *.
  destruct (_ =? 1) eqn:Hb; cbn [Z.b2z] in Ha; rewrite Ha.
  - by rewrite lxor_1_odd.
  - rewrite Z.add_0_r, lxor_1_even by done. done.
Qed.

Lemma path_pair_inj current sibling current' sibling' k :
  path_pair current sibling k = path_pair current' sibling' k → current = current'.
Proof. unfold path_pair. destruct (_ =? 1); by intros [= -> ->]. Qed.

(** A path that ends at the tree's node starts at the tree's leaf. *)
Lemma path_node_binding start path k :
  (k ≤ length path)%nat → path_node start path k = tree_node node leaf k (Z.shiftr tx_index (Z.of_nat k)) →
  (∃ l, (l < k)%nat ∧ path_collision start path l) ∨ start = tree_node node leaf 0 tx_index.
Proof.
  induction k as [|k IH]; intros Hk Hn; [right; by rewrite Z.shiftr_0_r in Hn|].
  rewrite path_node_S, tree_pair_node in Hn by lia.
  destruct (decide (path_pair (path_node start path k) (path !!! k) k = tree_pair k)) as [Hp|Hp].
  - rewrite tree_pair_path in Hp. apply path_pair_inj in Hp.
    destruct (IH ltac:(lia) Hp) as [(l & ? & ?)|]; [left; exists l; split; [lia|done]|by right].
  - left. exists k. split; [lia|done].
Qed.

(** The sibling path of a leaf ends at the tree's node. *)
Lemma path_node_siblings d k :
  (k ≤ d)%nat →
  path_node (tree_node node leaf 0 tx_index) (siblings node leaf tx_index 0 d) k
  = tree_node node leaf k (Z.shiftr tx_index (Z.of_nat k)).
Proof.
  induction k as [|k IH]; intros Hk; [by rewrite Z.shiftr_0_r|].
  assert (Hl : length (siblings node leaf tx_index 0 d) = d) by (unfold siblings; by rewrite length_fmap, length_seq).
  rewrite path_node_S, IH, tree_pair_node, tree_pair_path by lia. cbn zeta.
  replace (siblings node leaf tx_index 0 d !!! k)
    with (tree_node node leaf k (Z.lxor (Z.shiftr tx_index (Z.of_nat k)) 1)); [done|].
  symmetry. apply list_lookup_total_correct. unfold siblings.
  rewrite list_lookup_fmap, lookup_seq_lt by lia. done.
Qed.

End paths.

(** ** The tree of a block *)

Section root.
  Context {P : Poseidon2bPermutation}.

(** The leaf at position [i]: the hash there, or the zero digest. *)
Definition tx_leaf (tx_hashes : list (list Z)) (i : Z) : list Z :=
  default zero_digest (tx_hashes !! Z.to_nat i).

Lemma padded_layer_level tx_hashes :
  (length tx_hashes ≤ TX_TREE_LEAVES)%nat →
  padded_layer tx_hashes = level compress (tx_leaf tx_hashes) 0 (2 ^ TX_TREE_DEPTH).
Proof.
  intros Hl. apply list_eq_same_length with (n := TX_TREE_LEAVES).
  - by rewrite length_level.
  - unfold padded_layer. rewrite length_app, length_replicate. lia.
  - intros i x y Hi Hx Hy. unfold level in Hy. rewrite list_lookup_fmap, lookup_seq_lt in Hy by done.
    cbn in Hy. injection Hy as <-. unfold tree_node. cbn [merkle_root]. unfold tx_leaf.
    replace (Z.to_nat _) with i by lia. unfold padded_layer in Hx.
    destruct (decide (i < length tx_hashes)%nat).
    + rewrite lookup_app_l in Hx by done. by rewrite Hx.
    + rewrite lookup_app_r, lookup_replicate_2 in Hx by lia. injection Hx as <-.
      by rewrite lookup_ge_None_2 by lia.
Qed.

Lemma root_from_hashes_eq tx_hashes :
  tx_hashes ≠ [] → (length tx_hashes ≤ TX_TREE_LEAVES)%nat →
  root_from_hashes tx_hashes =
    Some (compress_with_tag TAG_TXROOT (merkle_root compress TX_TREE_DEPTH (tx_leaf tx_hashes) 0)
            (count_digest (length tx_hashes))).
Proof.
  intros Hne Hl. unfold root_from_hashes. rewrite decide_False, decide_True by done.
  rewrite padded_layer_level, root_loop_level by done. cbn [level fmap list_fmap seq lookup list_lookup mbind option_bind].
  unfold bind_tx_count. rewrite decide_True; [done|]. destruct tx_hashes; [done|]. cbn [length] in *. lia.
Qed.

Lemma count_digest_inj n m : (n ≤ TX_TREE_LEAVES)%nat → (m ≤ TX_TREE_LEAVES)%nat → count_digest n = count_digest m → n = m.
Proof.
  unfold TX_TREE_LEAVES. intros Hn Hm H. unfold count_digest, copy_into in H. rewrite !take_0 in H. cbn [app] in H.
  apply app_inj_1 in H as [H _]; [|by rewrite !length_to_le_bytes].
  apply (f_equal from_le_bytes) in H. rewrite !from_to_le_bytes in H by lia. lia.
Qed.

End root.

Section inclusion.
  Context {P : Poseidon2bPermutation}.

(** The count-bound roots of the path and of the tree collide. *)
Definition wrap_collision (tx_hashes : list (list Z)) (leaf : list Z) (path : list (list Z))
    (tx_index : Z) (tx_count : nat) : Prop :=
  let top := path_node compress tx_index leaf path TX_TREE_DEPTH in
  let tree := merkle_root compress TX_TREE_DEPTH (tx_leaf tx_hashes) 0 in
  (top ≠ tree ∨ count_digest tx_count ≠ count_digest (length tx_hashes))
  ∧ compress_with_tag TAG_TXROOT top (count_digest tx_count)
    = compress_with_tag TAG_TXROOT tree (count_digest (length tx_hashes)).

Lemma shiftr_index_top i : 0 ≤ i < Z.of_nat TX_TREE_LEAVES → Z.shiftr i (Z.of_nat TX_TREE_DEPTH) = 0.
Proof. intros Hi. rewrite Z.shiftr_div_pow2 by lia. apply Z.div_small. exact Hi. Qed.

Lemma verify_path_unfold leaf path i n root :
  length path = TX_TREE_DEPTH →
  verify_path leaf path i n root = true ↔
  (1 ≤ n ≤ TX_TREE_LEAVES)%nat ∧ i < Z.of_nat n
  ∧ compress_with_tag TAG_TXROOT (path_node compress i leaf path TX_TREE_DEPTH) (count_digest n) = root.
Proof.
  intros Hp. unfold verify_path, bind_tx_count, path_node.
  rewrite take_ge by (by rewrite length_imap, Hp).
  case_decide as Hd; [split; [done|intros (? & ? & _); lia]|].
  rewrite decide_True, bool_decide_eq_true by lia.
  split; [intros [= <-]; split_and!; done || lia|by intros (_ & _ & ->)].
Qed.

Lemma path_from_hashes_eq tx_hashes i :
  (length tx_hashes ≤ TX_TREE_LEAVES)%nat → 0 ≤ i < Z.of_nat (length tx_hashes) →
  path_from_hashes tx_hashes i = Some (siblings compress (tx_leaf tx_hashes) i 0 TX_TREE_DEPTH).
Proof.
  intros Hl Hi. unfold path_from_hashes. rewrite decide_True by (split_and!; [by intros ->; cbn in Hi; lia|done|lia]).
  rewrite padded_layer_level by done. rewrite <- (Z.shiftr_0_r i) at 1.
  rewrite (path_loop_level _ _ TX_TREE_DEPTH 0); [done|].
  rewrite Z.shiftr_0_r. unfold TX_TREE_LEAVES, TX_TREE_DEPTH in *. lia.
Qed.

Lemma tx_path_complete tx_hashes i leaf :
  (length tx_hashes ≤ TX_TREE_LEAVES)%nat → tx_hashes !! i = Some leaf →
  ∃ root path, root_from_hashes tx_hashes = Some root
    ∧ path_from_hashes tx_hashes (Z.of_nat i) = Some path ∧ length path = TX_TREE_DEPTH
    ∧ verify_path leaf path (Z.of_nat i) (length tx_hashes) root = true.
Proof.
  intros Hlen Hi. pose proof (lookup_lt_Some _ _ _ Hi).
  eexists _, _. rewrite root_from_hashes_eq by (by try intros ->). split; [done|].
  rewrite path_from_hashes_eq by lia. split; [done|]. split; [done|].
  apply verify_path_unfold; [done|]. split_and!; [lia..|].
  assert (leaf = tree_node compress (tx_leaf tx_hashes) 0 (Z.of_nat i)) as ->.
  { unfold tree_node, tx_leaf. cbn [merkle_root]. replace (Z.to_nat _) with i by lia. by rewrite Hi. }
  rewrite path_node_siblings by lia. rewrite shiftr_index_top by lia. done.
Qed.

Lemma tx_path_sound tx_hashes root leaf path i n :
  tx_hashes ≠ [] → (length tx_hashes ≤ TX_TREE_LEAVES)%nat → root_from_hashes tx_hashes = Some root →
  0 ≤ i → length path = TX_TREE_DEPTH → verify_path leaf path i n root = true →
  n = length tx_hashes ∧ tx_hashes !! Z.to_nat i = Some leaf
  ∨ wrap_collision tx_hashes leaf path i n
  ∨ ∃ k, (k < TX_TREE_DEPTH)%nat ∧ path_collision compress (tx_leaf tx_hashes) i leaf path k.
Proof.
  intros Hne Hlen Hroot Hi Hp Hv. rewrite root_from_hashes_eq in Hroot by done. injection Hroot as <-.
  apply verify_path_unfold in Hv as (Hn & Hin & Hr); [|done].
  destruct (decide (path_node compress i leaf path TX_TREE_DEPTH
                    = merkle_root compress TX_TREE_DEPTH (tx_leaf tx_hashes) 0)) as [Ht|Ht].
  2: { right; left. split; [by left|done]. }
  destruct (decide (n = length tx_hashes)) as [->|Hc]; [|right; left; split; [right; intros Hd; apply count_digest_inj in Hd; lia|done]].
  destruct (path_node_binding compress (tx_leaf tx_hashes) i Hi leaf path TX_TREE_DEPTH) as [?|Hleaf].
  + by rewrite Hp.
  + rewrite shiftr_index_top by lia. exact Ht.
  + by right; right.
  + left. split; [done|]. rewrite Hleaf. unfold tree_node, tx_leaf. cbn [merkle_root].
    replace (i * _) with i by lia. destruct (tx_hashes !! Z.to_nat i) eqn:He; [done|].
    apply lookup_ge_None in He. lia.
Qed.

(** The root of a non-genesis transaction list is the count-bound reference Merkle root
    of its zero-padded leaves; each leaf has a path that the verifier accepts against this
    root; and whatever the verifier accepts is the leaf at that index with the right count,
    unless the wrapper or a named node on the path collides. *)
Theorem tx_path_proves_inclusion (tx_hashes : list (list Z))
    (Hne : tx_hashes ≠ []) (Hlen : (length tx_hashes ≤ TX_TREE_LEAVES)%nat) :
  ∃ root, root_from_hashes tx_hashes = Some root
  ∧ root = compress_with_tag TAG_TXROOT (merkle_root compress TX_TREE_DEPTH (tx_leaf tx_hashes) 0)
             (count_digest (length tx_hashes))
  ∧ (∀ i leaf, tx_hashes !! i = Some leaf →
       ∃ path, path_from_hashes tx_hashes (Z.of_nat i) = Some path ∧ length path = TX_TREE_DEPTH
         ∧ verify_path leaf path (Z.of_nat i) (length tx_hashes) root = true)
  ∧ (∀ leaf path i n, 0 ≤ i → length path = TX_TREE_DEPTH → verify_path leaf path i n root = true →
       n = length tx_hashes ∧ tx_hashes !! Z.to_nat i = Some leaf
       ∨ wrap_collision tx_hashes leaf path i n
       ∨ ∃ k, (k < TX_TREE_DEPTH)%nat ∧ path_collision compress (tx_leaf tx_hashes) i leaf path k).
Proof.
  pose proof (root_from_hashes_eq _ Hne Hlen) as Hroot. eexists. split; [exact Hroot|]. split; [done|split].
  - intros i leaf Hi. destruct (tx_path_complete _ _ _ Hlen Hi) as (root & path & Hr & Hrest).
    rewrite Hroot in Hr. injection Hr as <-. by exists path.
  - intros leaf path i n. by apply tx_path_sound.
Qed.

End inclusion.

Lemma tx_path_proves_inclusion_witness :
  ∃ root, root_from_hashes (P := example_permutation) [replicate 32 1; replicate 32 2; replicate 32 3] = Some root.
Proof.
  destruct (tx_path_proves_inclusion (P := example_permutation) [replicate 32 1; replicate 32 2; replicate 32 3])
    as (root & Hroot & _).
  - discriminate.
  - cbn. unfold TX_TREE_LEAVES. lia.
  - exists root. exact Hroot.
Defined.
