(* ===== verification/ByteHash.v ===== *)
(** * Hashing of byte strings

    [poseidon2b_hash_byte_slices] of [native/compression.rs]: a domain string
    and a list of slices, each behind its 64-bit length, absorbed under the
    byte-hash capacity tag.  The theorem says that this is the reference
    sponge of one message and that the framing determines the domain and the
    slices. *)

From S2P Require Import Prelude Machine Poseidon.

Definition TAG_BYTEHASH : DomainTag := [69; 95; 66; 89; 84; 69; 72; 83]. (* E_BYTEHS *)

Section hash.
  Context {P : Poseidon2bPermutation}.

Definition poseidon2b_hash_byte_slices (domain : list Z) (pieces : list (list Z)) : list Z :=
  let s := with_iv (capacity_iv TAG_BYTEHASH) in
  let s := update s (to_le_bytes 8 (Z.of_nat (length domain))) in
  let s := update s domain in
  let s := update s (to_le_bytes 8 (Z.of_nat (length pieces))) in
  let s := foldl (λ s piece, update (update s (to_le_bytes 8 (Z.of_nat (length piece)))) piece) s pieces in
  finalize s.

Definition poseidon2b_hash_bytes (domain bytes : list Z) : list Z :=
  poseidon2b_hash_byte_slices domain [bytes].

End hash.

(** ** The framed message *)

Definition framed (piece : list Z) : list (list Z) :=
  [to_le_bytes 8 (Z.of_nat (length piece)); piece].

Definition framed_message (domain : list Z) (pieces : list (list Z)) : list Z :=
  concat (framed domain ++ [to_le_bytes 8 (Z.of_nat (length pieces))] ++ (pieces ≫= framed)).

(** Lengths fit their prefix. *)
Definition frameable (domain : list Z) (pieces : list (list Z)) : Prop :=
  Z.of_nat (length domain) < 2 ^ 64 ∧ Z.of_nat (length pieces) < 2 ^ 64
  ∧ Forall (λ p, Z.of_nat (length p) < 2 ^ 64) pieces.

Lemma length_prefix_inj n m :
  Z.of_nat n < 2 ^ 64 → Z.of_nat m < 2 ^ 64 →
  to_le_bytes 8 (Z.of_nat n) = to_le_bytes 8 (Z.of_nat m) → n = m.
Proof.
  intros Hn Hm H. apply (f_equal from_le_bytes) in H.
  rewrite !from_to_le_bytes in H by (change (256 ^ Z.of_nat 8) with (2 ^ 64); lia). lia.
Qed.

(** A framed piece can be cut off the front. *)
Lemma framed_app_inj p q rest rest' :
  Z.of_nat (length p) < 2 ^ 64 → Z.of_nat (length q) < 2 ^ 64 →
  concat (framed p) ++ rest = concat (framed q) ++ rest' → p = q ∧ rest = rest'.
Proof.
  intros Hp Hq H. unfold framed in H. cbn [concat] in H. rewrite !app_nil_r, <- !app_assoc in H.
  apply app_inj_1 in H as [Hl H]; [|by rewrite !length_to_le_bytes].
  apply length_prefix_inj in Hl; [|done..]. by apply app_inj_1 in H.
Qed.

Lemma framed_pieces_inj ps qs :
  length ps = length qs → Forall (λ p, Z.of_nat (length p) < 2 ^ 64) ps →
  Forall (λ p, Z.of_nat (length p) < 2 ^ 64) qs →
  concat (ps ≫= framed) = concat (qs ≫= framed) → ps = qs.
Proof.
  revert qs. induction ps as [|p ps IH]; intros [|q qs] Hl Hp Hq H; try done.
  apply Forall_cons in Hp as [Hp Hps]. apply Forall_cons in Hq as [Hq Hqs].
  rewrite !bind_cons, !concat_app in H. apply framed_app_inj in H as [-> H]; [|done..].
  f_equal. apply IH; auto.
Qed.

Lemma framed_message_inj domain domain' pieces pieces' :
  frameable domain pieces → frameable domain' pieces' →
  framed_message domain pieces = framed_message domain' pieces' → domain = domain' ∧ pieces = pieces'.
Proof.
  intros (Hd & Hn & Hp) (Hd' & Hn' & Hp') H. unfold framed_message in H. rewrite !concat_app in H.
  apply framed_app_inj in H as [-> H]; [|done..]. split; [done|]. cbn [concat] in H. rewrite !app_nil_r in H.
  apply app_inj_1 in H as [Hl H]; [|by rewrite !length_to_le_bytes].
  apply length_prefix_inj in Hl; [|done..]. by apply framed_pieces_inj.
Qed.

Section hash_facts.
  Context {P : Poseidon2bPermutation}.

Lemma foldl_framed s pieces :
  foldl (λ s piece, update (update s (to_le_bytes 8 (Z.of_nat (length piece)))) piece) s pieces
  = foldl update s (pieces ≫= framed).
Proof.
  revert s; induction pieces as [|p pieces IH]; intros s; [done|].
  rewrite bind_cons, foldl_app. cbn [foldl framed]. apply IH.
Qed.

Lemma hash_byte_slices_eq domain pieces :
  poseidon2b_hash_byte_slices domain pieces
  = sponge_ref (capacity_iv TAG_BYTEHASH) (framed_message domain pieces).
Proof.
  unfold poseidon2b_hash_byte_slices. rewrite foldl_framed. unfold framed_message.
  rewrite <- finalize_updates, !foldl_app. cbn [foldl framed]. done.
Qed.

Lemma hash_byte_slices_digest domain pieces : is_digest (poseidon2b_hash_byte_slices domain pieces).
Proof. apply finalize_digest. Qed.

(** The byte hash is the reference sponge, under the byte-hash tag, of a message that
    frames the domain string and every slice with its length; the padded message of this
    hash determines the domain and the slices, so moving bytes across a slice boundary or
    between the domain and the data changes what is hashed. *)
Theorem byte_hash_framing (domain domain' : list Z) (pieces pieces' : list (list Z))
    (Hf : frameable domain pieces) (Hf' : frameable domain' pieces') :
  poseidon2b_hash_byte_slices domain pieces
  = sponge_ref (capacity_iv TAG_BYTEHASH) (framed_message domain pieces)
  ∧ (pad (framed_message domain pieces) = pad (framed_message domain' pieces') ↔
     domain = domain' ∧ pieces = pieces').
Proof.
  split; [apply hash_byte_slices_eq|]. split.
  - intros H%pad_inj. by apply framed_message_inj.
  - by intros [-> ->].
Qed.

End hash_facts.

Lemma byte_hash_framing_witness :
  pad (framed_message [1] [[97; 98]; [99]]) ≠ pad (framed_message [1] [[97]; [98; 99]]).
Proof.
  intros H. destruct (byte_hash_framing (P := example_permutation) [1] [1] [[97; 98]; [99]] [[97]; [98; 99]]) as [_ Hi].
  - split_and!; [cbn; lia|cbn; lia|]. repeat constructor; cbn; lia.
  - split_and!; [cbn; lia|cbn; lia|]. repeat constructor; cbn; lia.
  - destruct (proj1 Hi H) as [_ Hp]. discriminate Hp.
Defined.
