(* ===== verification/ClientObjects.v ===== *)
(** * Client objects and the client registry

    [consensus/client_objects.rs], first part: the license and its
    destinations, the rule sets, the objects a v1.5 block may carry with
    their wire format and markers, and the append-only registry with its
    storage format, its reorganisation and its license dividends.  The rule
    for plain transactions is in [Pool]; the rules that judge a block with
    objects verify client proofs and are not modelled.  The two rule sets
    are arguments throughout, as in the code; [CONSENSUS] is the public
    profile. *)

From S2P Require Import Prelude Machine Params Poseidon ByteHash TxTypes TxWire.

(** ** Parameters *)

Definition CLIENT_REGISTRY_DEPTH : Z := 4.
Definition CLIENT_REGISTRY_CAPACITY : nat := 16.
Definition CLIENT_LICENSE_MICRO : Z := 1000 * MICRO_PER_JTM.
Definition CLIENT_SUBMISSION_FEE_MICRO : Z := MICRO_PER_JTM.
Definition CLIENT_ACTIVATION_DELAY_BLOCKS : Z := 120.
Definition CLIENT_SHORT_ACTIVATION_FROM : option Z := None.
Definition CLIENT_SHORT_ACTIVATION_DELAY_BLOCKS : Z := 20.
Definition CLIENT_LICENSE_DIVIDEND_BLOCKS : Z := 480.
Definition CLIENT_MATRIX_MAX_FILE_BYTES : Z := 256 * 1024 * 1024.
Definition MAX_BLOCK_CLIENT_SUBMISSIONS : nat := 1.
Definition MAX_BLOCK_CLIENT_REGISTRATIONS : nat := CLIENT_REGISTRY_CAPACITY.
Definition MAX_BLOCK_CLIENT_OBJECTS : nat :=
  MAX_BLOCK_CLIENT_REGISTRATIONS + MAX_BLOCK_CLIENT_SUBMISSIONS.

Definition CLIENT_LICENSE_BURN_ADDRESS : list Z :=
  [0xf0; 0xf6; 0x21; 0x88; 0xb7; 0xeb; 0x3b; 0x6f; 0x27; 0x56; 0xe5; 0xf2; 0x66; 0xb1; 0x22; 0x1c;
   0x07; 0x5f; 0xa7; 0x3a; 0x5b; 0x1d; 0x00; 0x38; 0x3f; 0xde; 0x5d; 0x9d; 0x60; 0x1b; 0xc1; 0x99].

Definition CLIENT_LICENSE_POOL_ADDRESS : list Z :=
  [0x98; 0x04; 0xff; 0x55; 0x97; 0x06; 0x75; 0x50; 0x09; 0x0f; 0x2e; 0x67; 0xe8; 0x98; 0xc7; 0xad;
   0x62; 0xe1; 0x37; 0x15; 0xae; 0x3d; 0xae; 0xa4; 0x60; 0x9b; 0x7d; 0x5b; 0x37; 0x77; 0x15; 0x5d].

Definition CLIENT_REGISTRATION_MARKER_TAG : list Z := [74; 84; 77; 67; 82; 69; 71; 49].     (* JTMCREG1 *)
Definition CLIENT_SUBMISSION_MARKER_TAG : list Z := [74; 84; 77; 67; 83; 85; 66; 49].       (* JTMCSUB1 *)
Definition CLIENT_BATCH_SUBMISSION_MARKER_TAG : list Z := [74; 84; 77; 67; 66; 65; 84; 49]. (* JTMCBAT1 *)

(** JTM/CONSENSUS/V1.5/CLIENT-OBJECT/, V1.6 for batches, then the kind. *)
Definition object_domain (minor : Z) (kind : list Z) : list Z :=
  [74; 84; 77; 47; 67; 79; 78; 83; 69; 78; 83; 85; 83; 47; 86; 49; 46; minor; 47; 67; 76; 73; 69; 78; 84;
   45; 79; 66; 74; 69; 67; 84; 47] ++ kind.

Definition REGISTRATION_COMMITMENT_DOMAIN : list Z :=
  object_domain 53 [82; 69; 71; 73; 83; 84; 82; 65; 84; 73; 79; 78].
Definition SUBMISSION_COMMITMENT_DOMAIN : list Z :=
  object_domain 53 [83; 85; 66; 77; 73; 83; 83; 73; 79; 78].
Definition BATCH_SUBMISSION_COMMITMENT_DOMAIN : list Z :=
  object_domain 54 [66; 65; 84; 67; 72; 45; 83; 85; 66; 77; 73; 83; 83; 73; 79; 78].

Definition CLIENT_BATCH_MAX_CLIENTS : Z := 2 ^ 16.

Definition CLIENT_BATCH_CLASS : option (list Z) := Some
  [0xf6; 0x59; 0x99; 0x08; 0x67; 0x6d; 0x7c; 0xed; 0xad; 0xb8; 0x6f; 0x51; 0xc7; 0x46;
   0x2f; 0xc4; 0xaa; 0xeb; 0x3c; 0xfa; 0x56; 0xff; 0xf2; 0xa3; 0x6f; 0x1b; 0x1b; 0x18;
   0xe4; 0x9c; 0x89; 0xb6].

(** ** The license *)

Inductive LicenseDestination :=
  | Burn
  | Miners
  | BurnAndMiners (burn_bps : Z)
  | Treasury (address : list Z).

Record LicenseSplit := mkLicenseSplit {
  ls_burn : Z;
  ls_miners : Z;
  ls_treasury : Z;
}.

#[global] Instance LicenseSplit_eq_dec : EqDecision LicenseSplit.
Proof. solve_decision. Defined.

Definition LicenseSplit_total (s : LicenseSplit) : Z := ls_burn s + ls_miners s + ls_treasury s.

Definition license_split (d : LicenseDestination) (license : Z) : LicenseSplit :=
  match d with
  | Burn => mkLicenseSplit license 0 0
  | Miners => mkLicenseSplit 0 license 0
  | BurnAndMiners burn_bps =>
      let burn_bps := if 10000 <? burn_bps then 10000 else burn_bps in
      let miners := wrap 64 (license * (10000 - burn_bps) / 10000) in
      mkLicenseSplit (license - miners) miners 0
  | Treasury _ => mkLicenseSplit 0 0 license
  end.

Definition treasury_address (d : LicenseDestination) : option (list Z) :=
  match d with Treasury address => Some address | _ => None end.

(** ** Rules *)

Record CatalogueEntry := mkCatalogueEntry {
  ce_matrix_digest : list Z;
  ce_matrix_file_root : list Z;
  ce_matrix_file_len : Z;
}.

Definition CLIENT_CATALOGUE : list CatalogueEntry := [].
Definition CLIENT_CATALOGUE_Z : list CatalogueEntry := [].

Definition catalogues_are_disjoint (left right : list CatalogueEntry) : bool :=
  forallb (λ l, forallb (λ r, negb (bool_decide (ce_matrix_digest l = ce_matrix_digest r))) right) left.

Fixpoint catalogue_is_pinned_from (earlier catalogue : list CatalogueEntry) : bool :=
  match catalogue with
  | [] => true
  | entry :: rest =>
      if bool_decide (ce_matrix_digest entry = zero_digest)
         || bool_decide (ce_matrix_file_root entry = zero_digest)
         || (ce_matrix_file_len entry =? 0)
         || (CLIENT_MATRIX_MAX_FILE_BYTES <? ce_matrix_file_len entry)
         || existsb (λ e, bool_decide (ce_matrix_digest e = ce_matrix_digest entry)) earlier
      then false
      else catalogue_is_pinned_from (earlier ++ [entry]) rest
  end.

Definition catalogue_is_pinned (catalogue : list CatalogueEntry) : bool :=
  catalogue_is_pinned_from [] catalogue.

Record ClientObjectRules := mkClientObjectRules {
  cr_activation_height : option Z;
  cr_license_micro : Z;
  cr_destination : LicenseDestination;
  cr_submission_fee_micro : Z;
  cr_activation_delay : Z;
  cr_short_activation_from : option Z;
  cr_short_activation_delay : Z;
  cr_dividend_blocks : Z;
  cr_registry_capacity : nat;
  cr_max_matrix_file_bytes : Z;
  cr_catalogue : list CatalogueEntry;
}.

Definition CONSENSUS : ClientObjectRules :=
  mkClientObjectRules V1_5_ACTIVATION_HEIGHT CLIENT_LICENSE_MICRO Burn CLIENT_SUBMISSION_FEE_MICRO
    CLIENT_ACTIVATION_DELAY_BLOCKS CLIENT_SHORT_ACTIVATION_FROM CLIENT_SHORT_ACTIVATION_DELAY_BLOCKS
    CLIENT_LICENSE_DIVIDEND_BLOCKS CLIENT_REGISTRY_CAPACITY CLIENT_MATRIX_MAX_FILE_BYTES CLIENT_CATALOGUE.

Definition pinned_file (rules : ClientObjectRules) (matrix_digest : list Z) : option CatalogueEntry :=
  snd <$> list_find (λ entry, ce_matrix_digest entry = matrix_digest) (cr_catalogue rules).

Definition lists (rules : ClientObjectRules) (matrix_digest : list Z) : bool :=
  bool_decide (is_Some (pinned_file rules matrix_digest)).

Definition active_at (rules : ClientObjectRules) (height : Z) : bool :=
  match cr_activation_height rules with Some activation => activation <=? height | None => false end.

Definition activation_delay_at (rules : ClientObjectRules) (registered_at : Z) : Z :=
  match cr_short_activation_from rules with
  | Some from => if from <=? registered_at then cr_short_activation_delay rules else cr_activation_delay rules
  | None => cr_activation_delay rules
  end.

Record ClientBatchRules := mkClientBatchRules {
  br_activation_height : option Z;
  br_batch_class : option (list Z);
  br_max_clients : Z;
  br_catalogue : list CatalogueEntry;
}.

Definition BATCH_CONSENSUS : ClientBatchRules :=
  mkClientBatchRules V1_6_ACTIVATION_HEIGHT CLIENT_BATCH_CLASS CLIENT_BATCH_MAX_CLIENTS CLIENT_CATALOGUE_Z.

Definition batch_active_at (batch : ClientBatchRules) (height : Z) : bool :=
  match br_activation_height batch with Some activation => activation <=? height | None => false end.

Definition batch_lists (batch : ClientBatchRules) (matrix_digest : list Z) : bool :=
  existsb (λ entry, bool_decide (ce_matrix_digest entry = matrix_digest)) (br_catalogue batch).

(** ** Objects *)

Record ClientRegistration := mkClientRegistration {
  rg_matrix_digest : list Z;
  rg_matrix_file_root : list Z;
  rg_matrix_file_len : Z;
}.

Record ClientSubmission := mkClientSubmission {
  sb_matrix_digest : list Z;
  sb_io_commitment : list Z;
}.

Record ClientBatchSubmission := mkClientBatchSubmission {
  bs_batch_class : list Z;
  bs_statements_root : list Z;
  bs_count : Z;
}.

Inductive ClientObject :=
  | Registration (r : ClientRegistration)
  | Submission (s : ClientSubmission)
  | BatchSubmission (b : ClientBatchSubmission).

Inductive ClientObjectKind := KRegistration | KSubmission | KBatchSubmission.

#[global] Instance ClientRegistration_eq_dec : EqDecision ClientRegistration.
Proof. solve_decision. Defined.
#[global] Instance ClientSubmission_eq_dec : EqDecision ClientSubmission.
Proof. solve_decision. Defined.
#[global] Instance ClientBatchSubmission_eq_dec : EqDecision ClientBatchSubmission.
Proof. solve_decision. Defined.
#[global] Instance ClientObject_eq_dec : EqDecision ClientObject.
Proof. solve_decision. Defined.
#[global] Instance ClientObjectKind_eq_dec : EqDecision ClientObjectKind.
Proof. solve_decision. Defined.

Definition OBJECT_TAG_REGISTRATION : Z := 1.
Definition OBJECT_TAG_SUBMISSION : Z := 2.
Definition OBJECT_TAG_BATCH_SUBMISSION : Z := 3.
Definition REGISTRATION_PAYLOAD_BYTES : nat := 32 + 32 + 4.
Definition SUBMISSION_PAYLOAD_BYTES : nat := 32 + 32.
Definition BATCH_SUBMISSION_PAYLOAD_BYTES : nat := 32 + 32 + 4.
Definition CLIENT_OBJECTS_SECTION_MARKER : Z := 0xC1.

Definition object_kind (o : ClientObject) : ClientObjectKind :=
  match o with
  | Registration _ => KRegistration
  | Submission _ => KSubmission
  | BatchSubmission _ => KBatchSubmission
  end.

Definition registration_payload (r : ClientRegistration) : list Z :=
  rg_matrix_digest r ++ rg_matrix_file_root r ++ put_u32 (rg_matrix_file_len r).

Definition submission_payload (s : ClientSubmission) : list Z :=
  sb_matrix_digest s ++ sb_io_commitment s.

Definition batch_submission_payload (b : ClientBatchSubmission) : list Z :=
  bs_batch_class b ++ bs_statements_root b ++ put_u32 (bs_count b).

Definition ClientObject_encode (o : ClientObject) : list Z :=
  match o with
  | Registration r => OBJECT_TAG_REGISTRATION :: registration_payload r
  | Submission s => OBJECT_TAG_SUBMISSION :: submission_payload s
  | BatchSubmission b => OBJECT_TAG_BATCH_SUBMISSION :: batch_submission_payload b
  end.

(** [*take(src, 1)?.first()]. *)
Definition take_byte : decoder WireError Z := λ src,
  '(bs, src) ← wire_take 1 src; Ok (bs !!! 0%nat, src).

Definition digest_at (bytes : list Z) (offset : nat) : list Z := take 32 (drop offset bytes).

Definition ClientObject_decode : decoder WireError ClientObject := λ src,
  '(tag, src) ← take_byte src;
  if tag =? OBJECT_TAG_REGISTRATION then
    '(payload, src) ← wire_take REGISTRATION_PAYLOAD_BYTES src;
    Ok (Registration (mkClientRegistration (digest_at payload 0) (digest_at payload 32)
          (from_le_bytes (take 4 (drop 64 payload)))), src)
  else if tag =? OBJECT_TAG_SUBMISSION then
    '(payload, src) ← wire_take SUBMISSION_PAYLOAD_BYTES src;
    Ok (Submission (mkClientSubmission (digest_at payload 0) (digest_at payload 32)), src)
  else if tag =? OBJECT_TAG_BATCH_SUBMISSION then
    '(payload, src) ← wire_take BATCH_SUBMISSION_PAYLOAD_BYTES src;
    Ok (BatchSubmission (mkClientBatchSubmission (digest_at payload 0) (digest_at payload 32)
          (from_le_bytes (take 4 (drop 64 payload)))), src)
  else Err BadMarker.

Definition object_wire_len (o : ClientObject) : nat :=
  1 + match o with
      | Registration _ => REGISTRATION_PAYLOAD_BYTES
      | Submission _ => SUBMISSION_PAYLOAD_BYTES
      | BatchSubmission _ => BATCH_SUBMISSION_PAYLOAD_BYTES
      end.

Definition client_objects_section_wire_len (objects : list ClientObject) : nat :=
  match objects with [] => 0 | _ => 2 + sum_list (object_wire_len <$> objects) end.

(** [None] is the failed assertion on the object count. *)
Definition encode_client_objects_section (objects : list ClientObject) : option (list Z) :=
  match objects with
  | [] => Some []
  | _ =>
      if decide (length objects ≤ MAX_BLOCK_CLIENT_OBJECTS)%nat
      then Some (CLIENT_OBJECTS_SECTION_MARKER :: wrap 8 (Z.of_nat (length objects))
                   :: concat (ClientObject_encode <$> objects))
      else None
  end.

Definition decode_client_objects_section : decoder WireError (list ClientObject) := λ src,
  match src with
  | [] => Ok ([], [])
  | _ =>
      '(marker, src) ← take_byte src;
      if bool_decide (marker ≠ CLIENT_OBJECTS_SECTION_MARKER) then Err BadMarker
      else
        '(count, src) ← take_byte src;
        if (count =? 0) || (Z.of_nat MAX_BLOCK_CLIENT_OBJECTS <? count) then Err LengthOverflow
        else
          '(objects, src) ← decode_array (Z.to_nat count) ClientObject_decode src;
          if bool_decide (src ≠ []) then Err TrailingBytes else Ok (objects, src)
  end.

(** ** Markers and locked addresses *)

Definition client_object_marker_kind (owner : list Z) : option ClientObjectKind :=
  if bool_decide (take 8 owner = CLIENT_REGISTRATION_MARKER_TAG) then Some KRegistration
  else if bool_decide (take 8 owner = CLIENT_SUBMISSION_MARKER_TAG) then Some KSubmission
  else None.

Definition is_client_locked_address (owner : list Z) : bool :=
  bool_decide (owner = CLIENT_LICENSE_BURN_ADDRESS)
  || bool_decide (owner = CLIENT_LICENSE_POOL_ADDRESS)
  || bool_decide (is_Some (client_object_marker_kind owner)).

Definition client_object_marker_kind_at (owner : list Z) (height : Z) (batch : ClientBatchRules) :
    option ClientObjectKind :=
  match client_object_marker_kind owner with
  | Some kind => Some kind
  | None =>
      if batch_active_at batch height && bool_decide (take 8 owner = CLIENT_BATCH_SUBMISSION_MARKER_TAG)
      then Some KBatchSubmission
      else None
  end.

Definition is_client_locked_address_at (owner : list Z) (height : Z) (batch : ClientBatchRules) : bool :=
  bool_decide (owner = CLIENT_LICENSE_BURN_ADDRESS)
  || bool_decide (owner = CLIENT_LICENSE_POOL_ADDRESS)
  || bool_decide (is_Some (client_object_marker_kind_at owner height batch)).

Definition is_admissible (d : LicenseDestination) : bool :=
  match d with
  | Burn | Miners => true
  | BurnAndMiners burn_bps => burn_bps <=? 10000
  | Treasury address => negb (bool_decide (address = zero_digest)) && negb (is_client_locked_address address)
  end.

Section marker.
  Context {P : Poseidon2bPermutation}.

(** The owner of the zero-value output that commits to an object: the tag of
    its kind, then 24 bytes of its byte hash. *)
Definition marker (o : ClientObject) : list Z :=
  let '(tag, domain, payload) :=
    match o with
    | Registration r => (CLIENT_REGISTRATION_MARKER_TAG, REGISTRATION_COMMITMENT_DOMAIN, registration_payload r)
    | Submission s => (CLIENT_SUBMISSION_MARKER_TAG, SUBMISSION_COMMITMENT_DOMAIN, submission_payload s)
    | BatchSubmission b =>
        (CLIENT_BATCH_SUBMISSION_MARKER_TAG, BATCH_SUBMISSION_COMMITMENT_DOMAIN, batch_submission_payload b)
    end in
  let commitment := poseidon2b_hash_bytes domain payload in
  tag ++ take 24 commitment.

End marker.

(** ** The registry *)

Record ClientRegistryEntry := mkClientRegistryEntry {
  re_index : Z;
  re_matrix_digest : list Z;
  re_matrix_file_root : list Z;
  re_matrix_file_len : Z;
  re_registered_at : Z;
  re_active_from : Z;
  re_license : LicenseSplit;
}.

#[global] Instance ClientRegistryEntry_eq_dec : EqDecision ClientRegistryEntry.
Proof. solve_decision. Defined.

(** [ClientRegistryState]: its only field. *)
Notation ClientRegistryState := (list ClientRegistryEntry).

Definition effective_active_from (rules : ClientObjectRules) (entry : ClientRegistryEntry) : Z :=
  match cr_short_activation_from rules with
  | None => re_active_from entry
  | Some from =>
      Z.min (re_active_from entry)
        (Z.max (saturating_add 64 (re_registered_at entry) (cr_short_activation_delay rules)) from)
  end.

Definition client_active_at (rules : ClientObjectRules) (entry : ClientRegistryEntry) (height : Z) : bool :=
  effective_active_from rules entry <=? height.

Definition digests (registry : ClientRegistryState) : list (list Z) := re_matrix_digest <$> registry.

Definition registry_entry (registry : ClientRegistryState) (matrix_digest : list Z) : option ClientRegistryEntry :=
  snd <$> list_find (λ entry, re_matrix_digest entry = matrix_digest) registry.

Definition carriable_at (registry : ClientRegistryState) (height : Z) (rules : ClientObjectRules) :
    list ClientRegistryEntry :=
  filter (λ entry, Is_true (client_active_at rules entry height)) registry.

(** The effect of a block's objects. *)
Record ClientObjectsEffect := mkClientObjectsEffect {
  ef_registrations : list ClientRegistryEntry;
  ef_submission : option ClientSubmission;
  ef_batch_submission : option ClientBatchSubmission;
  ef_license_dividend : Z;
}.

Definition effect_default : ClientObjectsEffect := mkClientObjectsEffect [] None None 0.

(** [None] is the failed assertion on the index. *)
Definition registry_append (registry : option ClientRegistryState) (entry : ClientRegistryEntry) :
    option ClientRegistryState :=
  registry ← registry;
  if decide (re_index entry = Z.of_nat (length registry)) then Some (registry ++ [entry]) else None.

Definition registry_apply (registry : ClientRegistryState) (effect : ClientObjectsEffect) :
    option ClientRegistryState :=
  foldl registry_append (Some registry) (ef_registrations effect).

Definition truncate_above (registry : ClientRegistryState) (height : Z) : ClientRegistryState :=
  filter (λ entry, re_registered_at entry ≤ height) registry.

(** The dividend one entry owes at [height]. *)
Definition entry_dividend (blocks height : Z) (entry : ClientRegistryEntry) : Z :=
  let share := ls_miners (re_license entry) in
  let each := share / blocks in
  let first := if height =? re_registered_at entry + 1 then share mod blocks else 0 in
  each + first.

Definition license_dividend_at (registry : ClientRegistryState) (height : Z) (rules : ClientObjectRules) : Z :=
  let blocks := Z.max (cr_dividend_blocks rules) 1 in
  let owing := filter (λ entry, 0 < ls_miners (re_license entry)) registry in
  let in_window := filter (λ entry, re_registered_at entry < height
                                    ∧ height - re_registered_at entry ≤ blocks) owing in
  Z.min (sum_Z (entry_dividend blocks height <$> in_window)) u64_max.

(** ** Storage format of the registry *)

Definition REGISTRY_STATE_VERSION : Z := 1.
Definition REGISTRY_ENTRY_BYTES : nat := 1 + 32 + 32 + 4 + 8 + 8 + 3 * 8.

Definition entry_encode (entry : ClientRegistryEntry) : list Z :=
  [re_index entry] ++ re_matrix_digest entry ++ re_matrix_file_root entry
  ++ put_u32 (re_matrix_file_len entry) ++ put_u64 (re_registered_at entry)
  ++ put_u64 (re_active_from entry) ++ put_u64 (ls_burn (re_license entry))
  ++ put_u64 (ls_miners (re_license entry)) ++ put_u64 (ls_treasury (re_license entry)).

Definition registry_encode (registry : ClientRegistryState) : list Z :=
  [REGISTRY_STATE_VERSION; wrap 8 (Z.of_nat (length registry))] ++ concat (entry_encode <$> registry).

(** The fields of one stored entry. *)
Definition entry_decode : decoder WireError ClientRegistryEntry := λ src,
  '(index, src) ← take_byte src;
  '(fixed, src) ← wire_take 64 src;
  '(matrix_file_len, src) ← take_u32 src;
  '(registered_at, src) ← take_u64 src;
  '(active_from, src) ← take_u64 src;
  '(burn, src) ← take_u64 src;
  '(miners, src) ← take_u64 src;
  '(treasury, src) ← take_u64 src;
  Ok (mkClientRegistryEntry index (digest_at fixed 0) (digest_at fixed 32) matrix_file_len registered_at
        active_from (mkLicenseSplit burn miners treasury), src).

(** The check of one entry against the entries before it. *)
Definition entry_noncanonical (entries : list ClientRegistryEntry) (entry : ClientRegistryEntry) : bool :=
  negb (re_index entry =? Z.of_nat (length entries))
  || bool_decide (re_matrix_digest entry = zero_digest)
  || (re_active_from entry <? re_registered_at entry)
  || match last entries with
     | Some previous => re_registered_at entry <? re_registered_at previous
     | None => false
     end
  || existsb (λ other, bool_decide (re_matrix_digest other = re_matrix_digest entry)) entries.

(** The loop over the remaining positions. *)
Fixpoint decode_entries (n : nat) (entries : list ClientRegistryEntry) : decoder WireError ClientRegistryState :=
  λ src,
  match n with
  | O => Ok (entries, src)
  | S n =>
      '(entry, src) ← entry_decode src;
      if entry_noncanonical entries entry then Err NonCanonicalBody
      else decode_entries n (entries ++ [entry]) src
  end.

Definition registry_decode (bytes : list Z) : result WireError ClientRegistryState :=
  '(version, src) ← take_byte bytes;
  if bool_decide (version ≠ REGISTRY_STATE_VERSION) then Err BadMarker
  else
    '(count, src) ← take_byte src;
    if Z.of_nat CLIENT_REGISTRY_CAPACITY <? count then Err LengthOverflow
    else
      '(entries, src) ← decode_entries (Z.to_nat count) [] src;
      if bool_decide (src ≠ []) then Err TrailingBytes else Ok entries.

(** ** Matrix files *)

Definition CLIENT_MATRIX_CHUNK_BYTES : Z := 2 ^ 20.

Definition matrix_file_chunk_count (file_len : Z) : Z := div_ceil file_len CLIENT_MATRIX_CHUNK_BYTES.

(** ** Object codec *)

Definition object_wf (o : ClientObject) : Prop :=
  match o with
  | Registration r => is_digest (rg_matrix_digest r) ∧ is_digest (rg_matrix_file_root r) ∧ is_u32 (rg_matrix_file_len r)
  | Submission s => is_digest (sb_matrix_digest s) ∧ is_digest (sb_io_commitment s)
  | BatchSubmission b => is_digest (bs_batch_class b) ∧ is_digest (bs_statements_root b) ∧ is_u32 (bs_count b)
  end.

Lemma take_byte_cons b rest : take_byte (b :: rest) = Ok (b, rest).
Proof. reflexivity. Qed.

Lemma take_byte_sound src b rest : take_byte src = Ok (b, rest) → src = b :: rest.
Proof.
  unfold take_byte. intros H. apply bind_Ok in H as ([bs src'] & Ht & [= <- <-]).
  apply wire_take_sound in Ht as [Hl ->]. by destruct bs as [|b [|]].
Qed.

(** Two digests and what follows. *)
Lemma digests_at (a b c : list Z) :
  length a = 32%nat → length b = 32%nat →
  digest_at (a ++ b ++ c) 0 = a ∧ digest_at (a ++ b ++ c) 32 = b ∧ drop 64 (a ++ b ++ c) = c.
Proof.
  intros Ha Hb. unfold digest_at. split_and!.
  - rewrite drop_0. by apply take_app_length'.
  - rewrite drop_app_length' by done. by apply take_app_length'.
  - replace 64%nat with (length a + 32)%nat by lia. rewrite drop_app_add. by rewrite drop_app_length'.
Qed.

Lemma split_payload (payload : list Z) n :
  byte_string payload → length payload = (64 + n)%nat →
  ∃ a b c, payload = a ++ b ++ c ∧ is_digest a ∧ is_digest b ∧ byte_array n c.
Proof.
  intros Hb Hl. exists (take 32 payload), (take 32 (drop 32 payload)), (drop 64 payload).
  assert (Hs : payload = take 32 payload ++ take 32 (drop 32 payload) ++ drop 64 payload).
  { rewrite <- (take_drop 32 payload) at 1. f_equal. rewrite <- (take_drop 32 (drop 32 payload)) at 1.
    by rewrite drop_drop. }
  split; [done|]. rewrite Hs in Hb. rewrite !byte_string_app in Hb. destruct Hb as (H1 & H2 & H3).
  unfold byte_array. rewrite !length_take, !length_drop, Hl. split_and!; (done || lia).
Qed.

(** The 68-byte payload of a registration or a batch submission. *)
Lemma payload_fields d f n :
  is_digest d → is_digest f → is_u32 n →
  let p := d ++ f ++ put_u32 n in
  length p = 68%nat ∧ digest_at p 0 = d ∧ digest_at p 32 = f ∧ from_le_bytes (take 4 (drop 64 p)) = n.
Proof.
  intros [Hd _] [Hf _] Hn. cbn zeta. destruct (digests_at d f (put_u32 n) Hd Hf) as (-> & -> & ->).
  unfold put_u32. rewrite !length_app, length_to_le_bytes, Hd, Hf, take_ge by (rewrite length_to_le_bytes; lia).
  by rewrite from_to_le_bytes.
Qed.

Lemma payload_split p :
  byte_string p → length p = 68%nat →
  is_digest (digest_at p 0) ∧ is_digest (digest_at p 32) ∧ is_u32 (from_le_bytes (take 4 (drop 64 p)))
  ∧ p = digest_at p 0 ++ digest_at p 32 ++ put_u32 (from_le_bytes (take 4 (drop 64 p))).
Proof.
  intros Hb Hl. destruct (split_payload p 4 Hb Hl) as (a & b & c & -> & Ha & Hb' & [Hc Hcb]).
  destruct (digests_at a b c (proj1 Ha) (proj1 Hb')) as (-> & -> & ->).
  rewrite take_ge by lia. pose proof (from_le_bytes_bound c Hcb) as Hr. rewrite Hc in Hr.
  assert (Hp : to_le_bytes 4 (from_le_bytes c) = c) by (rewrite <- (to_from_le_bytes c Hcb) at 2; by rewrite Hc).
  unfold put_u32. rewrite Hp. by split_and!.
Qed.

#[global] Instance ClientObject_codec : Codec object_wf ClientObject_encode ClientObject_decode.
Proof.
  split.
  - intros o rest Hw. unfold ClientObject_decode. destruct o as [[d f n]|[d i]|[d f n]]; cbn in Hw;
      unfold ClientObject_encode, registration_payload, submission_payload, batch_submission_payload;
      cbn [app rg_matrix_digest rg_matrix_file_root rg_matrix_file_len sb_matrix_digest sb_io_commitment
        bs_batch_class bs_statements_root bs_count]; rewrite take_byte_cons; cbn [mbind result_bind]; unfold OBJECT_TAG_REGISTRATION,
      OBJECT_TAG_SUBMISSION, OBJECT_TAG_BATCH_SUBMISSION; cbn [Z.eqb Pos.eqb].
    + destruct Hw as (Hd & Hf & Hn). destruct (payload_fields d f n Hd Hf Hn) as (Hl & H1 & H2 & H3).
      rewrite wire_take_complete by done. cbn [mbind result_bind]. by rewrite H1, H2, H3.
    + destruct Hw as ([Hd _] & [Hi _]). rewrite wire_take_complete by (by rewrite length_app, Hd, Hi).
      cbn [mbind result_bind]. destruct (digests_at d i [] Hd Hi) as (H1 & H2 & _).
      rewrite app_nil_r in H1, H2. by rewrite H1, H2.
    + destruct Hw as (Hd & Hf & Hn). destruct (payload_fields d f n Hd Hf Hn) as (Hl & H1 & H2 & H3).
      rewrite wire_take_complete by done. cbn [mbind result_bind]. by rewrite H1, H2, H3.
  - intros src o rest Hb H. unfold ClientObject_decode in H.
    apply bind_Ok in H as ([tag s1] & Ht & H). apply take_byte_sound in Ht as ->.
    apply Forall_cons in Hb as [_ Hb].
    destruct (Z.eqb_spec tag OBJECT_TAG_REGISTRATION) as [->|_];
      [|destruct (Z.eqb_spec tag OBJECT_TAG_SUBMISSION) as [->|_];
        [|destruct (Z.eqb_spec tag OBJECT_TAG_BATCH_SUBMISSION) as [->|_]; [|done]]];
      apply bind_Ok in H as ([payload s2] & Hp & [= <- <-]); apply wire_take_sound in Hp as [Hl ->];
      apply byte_string_app in Hb as [Hb Hr].
    + destruct (payload_split payload Hb Hl) as (Ha & Hf & Hn & Hp). split_and!; [done| |done].
      rewrite Hp at 1. done.
    + destruct (split_payload payload 0 Hb Hl) as (a & b & c & -> & Ha & Hb' & Hc).
      destruct (digests_at a b c (proj1 Ha) (proj1 Hb')) as (-> & -> & _).
      destruct c; [|by destruct Hc]. cbn. unfold submission_payload. cbn. rewrite app_nil_r. by split_and!.
    + destruct (payload_split payload Hb Hl) as (Ha & Hf & Hn & Hp). split_and!; [done| |done].
      rewrite Hp at 1. done.
Qed.

Lemma encode_section_nonempty objects :
  objects ≠ [] →
  encode_client_objects_section objects =
    if decide (length objects ≤ MAX_BLOCK_CLIENT_OBJECTS)%nat
    then Some (CLIENT_OBJECTS_SECTION_MARKER :: wrap 8 (Z.of_nat (length objects))
                 :: concat (ClientObject_encode <$> objects))
    else None.
Proof. by destruct objects. Qed.

(** The section of a block: absent when empty, and then nothing is left over. *)
Lemma section_complete objects bytes :
  Forall object_wf objects → encode_client_objects_section objects = Some bytes →
  decode_client_objects_section bytes = Ok (objects, []).
Proof.
  intros Hw He. destruct objects as [|o objects]; [by injection He as <-|].
  rewrite encode_section_nonempty in He by done. case_decide as Hl; [|done].
  apply (inj Some) in He as <-. assert (Hn : (0 < length (o :: objects))%nat) by (cbn; lia). revert Hw Hl Hn. generalize (o :: objects) as os.
  intros os Hw Hl Hn. change MAX_BLOCK_CLIENT_OBJECTS with 17%nat in Hl.
  unfold decode_client_objects_section. rewrite take_byte_cons. cbn [mbind result_bind].
  rewrite bool_decide_false by tauto. rewrite take_byte_cons. cbn [mbind result_bind].
  change MAX_BLOCK_CLIENT_OBJECTS with 17%nat. rewrite wrap_small by lia.
  replace ((Z.of_nat (length os) =? 0) || (Z.of_nat 17 <? Z.of_nat (length os))) with false by lia.
  rewrite <- (app_nil_r (concat _)), Nat2Z.id.
  rewrite (codec_complete (Codec := array_codec _ _ _ (length os) ClientObject_codec)) by done. done.
Qed.

Lemma section_sound bytes objects rest :
  byte_string bytes → decode_client_objects_section bytes = Ok (objects, rest) →
  rest = [] ∧ Forall object_wf objects ∧ encode_client_objects_section objects = Some bytes.
Proof.
  intros Hb Hd. unfold decode_client_objects_section in Hd. destruct bytes as [|b0 bytes]; [by injection Hd as <- <-|].
  apply bind_Ok in Hd as ([m s1] & H1 & Hd). apply take_byte_sound in H1 as [= -> ->].
  apply if_err_Ok in Hd as [Hm Hd]. bool_inv. apply dec_stable in Hm as ->.
  apply bind_Ok in Hd as ([count s2] & H2 & Hd). apply take_byte_sound in H2 as ->.
  apply if_err_Ok in Hd as [Hc Hd]. apply Forall_cons in Hb as [_ Hb]. apply Forall_cons in Hb as [Hcb Hb].
  apply bind_Ok in Hd as ([os s3] & H3 & Hd). apply if_err_Ok in Hd as [He [= <- <-]]. bool_inv.
  apply dec_stable in He as ->.
  apply (codec_sound (Codec := array_codec _ _ _ _ ClientObject_codec)) in H3 as ((Hl & Hw) & -> & _); [|done].
  change MAX_BLOCK_CLIENT_OBJECTS with 17%nat in *. unfold is_byte in Hcb.
  split_and!; [done|done|].
  rewrite encode_section_nonempty, decide_True by (try intros ->; change MAX_BLOCK_CLIENT_OBJECTS with 17%nat; cbn in *; lia).
  rewrite wrap_small by lia. rewrite app_nil_r. do 3 f_equal. lia.
Qed.

(** ** Well-formed registries *)

Definition LicenseSplit_wf (s : LicenseSplit) : Prop :=
  is_u64 (ls_burn s) ∧ is_u64 (ls_miners s) ∧ is_u64 (ls_treasury s).

Record entry_wf (e : ClientRegistryEntry) : Prop := {
  ew_index : is_u8 (re_index e);
  ew_digest : is_digest (re_matrix_digest e);
  ew_root : is_digest (re_matrix_file_root e);
  ew_len : is_u32 (re_matrix_file_len e);
  ew_registered : is_u64 (re_registered_at e);
  ew_active : is_u64 (re_active_from e);
  ew_license : LicenseSplit_wf (re_license e);
}.

(** What the registry rules leave behind: entries numbered in order, with
    non-null distinct digests, registered at non-decreasing heights and never
    active before their registration. *)
Record registry_canonical (r : ClientRegistryState) : Prop := {
  rc_index : ∀ i e, r !! i = Some e → re_index e = Z.of_nat i;
  rc_digest : ∀ e, e ∈ r → re_matrix_digest e ≠ zero_digest;
  rc_active : ∀ e, e ∈ r → re_registered_at e ≤ re_active_from e;
  rc_sorted : ∀ i j e f, (i ≤ j)%nat → r !! i = Some e → r !! j = Some f → re_registered_at e ≤ re_registered_at f;
  rc_unique : NoDup (digests r);
}.

Definition registry_wf (r : ClientRegistryState) : Prop :=
  (length r ≤ CLIENT_REGISTRY_CAPACITY)%nat ∧ Forall entry_wf r ∧ registry_canonical r.

Lemma registry_canonical_nil : registry_canonical [].
Proof. split; try done; try set_solver. constructor. Qed.

Lemma entry_noncanonical_false r e :
  entry_noncanonical r e = false ↔
  re_index e = Z.of_nat (length r) ∧ re_matrix_digest e ≠ zero_digest ∧ re_registered_at e ≤ re_active_from e
  ∧ (∀ p, last r = Some p → re_registered_at p ≤ re_registered_at e) ∧ re_matrix_digest e ∉ digests r.
Proof.
  unfold entry_noncanonical. rewrite !orb_false_iff, negb_false_iff, Z.eqb_eq, bool_decide_eq_false, Z.ltb_ge.
  assert (Hex : existsb (λ other, bool_decide (re_matrix_digest other = re_matrix_digest e)) r = false ↔
                re_matrix_digest e ∉ digests r).
  { rewrite <- not_true_iff_false, existsb_exists. unfold digests. rewrite list_elem_of_fmap.
    setoid_rewrite bool_decide_eq_true. setoid_rewrite <- list_elem_of_In. naive_solver. }
  rewrite Hex. destruct (last r) as [p|]; [rewrite Z.ltb_ge|]; naive_solver.
Qed.

Lemma registry_canonical_snoc r e :
  registry_canonical (r ++ [e]) ↔ registry_canonical r ∧ entry_noncanonical r e = false.
Proof.
  rewrite entry_noncanonical_false. split.
  - intros [Hi Hd Ha Hs Hu]. unfold digests in Hu. rewrite fmap_app, NoDup_app in Hu. destruct Hu as (Hu & Hne & _).
    split; [split|split_and!].
    + intros i x Hx. apply Hi. by apply lookup_app_l_Some.
    + intros x Hx. apply Hd. set_solver.
    + intros x Hx. apply Ha. set_solver.
    + intros i j x y Hij Hx Hy. apply (Hs i j); [done|by apply lookup_app_l_Some..].
    + done.
    + apply Hi, lookup_snoc_Some. by right.
    + apply Hd. set_solver.
    + apply Ha. set_solver.
    + intros p Hp. rewrite last_lookup in Hp. apply (Hs (pred (length r)) (length r)); [lia|by apply lookup_app_l_Some|].
      apply lookup_snoc_Some. by right.
    + intros Hin. apply (Hne _ Hin). set_solver.
  - intros [[Hi Hd Ha Hs Hu] (He & Hz & Hae & Hl & Hni)]. split.
    + intros i x [[_ Hx]|[-> <-]]%lookup_snoc_Some; [by apply Hi|by rewrite He].
    + set_solver.
    + set_solver.
    + intros i j x y Hij Hx [[_ Hy]|[-> <-]]%lookup_snoc_Some.
      * apply lookup_snoc_Some in Hx as [[_ Hx]|[-> <-]]; [by apply (Hs i j)|].
        apply lookup_lt_Some in Hy. lia.
      * apply lookup_snoc_Some in Hx as [[_ Hx]|[-> <-]]; [|lia]. pose proof (lookup_lt_Some _ _ _ Hx) as Hlt.
        destruct (last r) as [p|] eqn:Hp; [|apply last_None in Hp as ->; done].
        specialize (Hl p eq_refl). rewrite last_lookup in Hp.
        pose proof (Hs i (pred (length r)) x p ltac:(lia) Hx Hp). lia.
    + unfold digests. rewrite fmap_app, NoDup_app. split_and!; [done| |apply NoDup_singleton]. set_solver.
Qed.

#[global] Instance byte_codec : Codec is_u8 (λ b, [b]) take_byte.
Proof.
  split.
  - intros b rest _. apply take_byte_cons.
  - intros src b rest Hb H. apply take_byte_sound in H as ->. apply Forall_cons in Hb as [Hb Hr]. done.
Qed.

#[global] Instance entry_codec : Codec entry_wf entry_encode entry_decode.
Proof.
  split.
  - intros [i d f n ra af [b m t]] rest [Hi [Hd Hdb] [Hf Hfb] Hn Hra Haf (Hb & Hm & Ht)]. cbn in *.
    unfold entry_decode, entry_encode. cbn [re_index re_matrix_digest re_matrix_file_root re_matrix_file_len
      re_registered_at re_active_from re_license ls_burn ls_miners ls_treasury].
    rewrite <- !app_assoc. cbn [app]. rewrite take_byte_cons. cbn [mbind result_bind].
    rewrite (app_assoc d f), wire_take_complete by (by rewrite length_app, Hd, Hf). cbn [mbind result_bind].
    codec_run. destruct (digests_at d f [] Hd Hf) as (H1 & H2 & _). rewrite app_nil_r in H1, H2. by rewrite H1, H2.
  - intros src e rest Hb H. unfold entry_decode in H.
    apply bind_Ok in H as ([i s1] & Hi & H). apply (codec_sound (Codec := byte_codec)) in Hi as (Hi & -> & Hb1); [|done].
    apply bind_Ok in H as ([fixed s2] & Hf & H). apply wire_take_sound in Hf as [Hl ->].
    apply byte_string_app in Hb1 as [Hfb Hb2].
    destruct (split_payload fixed 0 Hfb Hl) as (a & b & c & -> & Ha & Hb' & Hc).
    destruct c; [|by destruct Hc]. rewrite app_nil_r in *.
    destruct (digests_at a b [] (proj1 Ha) (proj1 Hb')) as (H1 & H2 & _). rewrite app_nil_r in H1, H2.
    codec_inv. injection H as <- <-. rewrite H1, H2. split_and!; [by constructor| |done].
    unfold entry_encode. cbn. by rewrite <- !app_assoc.
Qed.

Lemma registry_canonical_prefix l1 l2 : registry_canonical (l1 ++ l2) → registry_canonical l1.
Proof.
  induction l2 as [|e l2 IH] using rev_ind; [by rewrite app_nil_r|].
  rewrite app_assoc. intros [? _]%registry_canonical_snoc. auto.
Qed.

Lemma decode_entries_Ok n acc src r rest :
  byte_string src → registry_canonical acc →
  decode_entries n acc src = Ok (r, rest) ↔
  ∃ es, length es = n ∧ r = acc ++ es ∧ src = concat (entry_encode <$> es) ++ rest
    ∧ Forall entry_wf es ∧ registry_canonical (acc ++ es).
Proof.
  revert acc src. induction n as [|n IH]; intros acc src Hb Hc; cbn [decode_entries].
  { split.
    - intros [= <- <-]. exists []. rewrite app_nil_r. by split_and!.
    - intros ([|] & Hl & -> & -> & _); [by rewrite app_nil_r|done]. }
  split.
  - intros H. apply bind_Ok in H as ([e s1] & He & H). apply codec_sound in He as (Hw & -> & Hb1); [|done].
    apply if_err_Ok in H as [Hn H]. apply IH in H as (es & <- & -> & -> & Hws & Hcs);
      [|done|by apply registry_canonical_snoc].
    exists (e :: es). rewrite <- app_assoc in Hcs. rewrite <- app_assoc. split_and!; [done|done| |by constructor|done].
    cbn [fmap list_fmap concat]. by rewrite <- app_assoc.
  - intros ([|e es] & Hl & -> & -> & Hw & Hcs); [done|]. apply Forall_cons in Hw as [He Hw].
    cbn [fmap list_fmap concat]. rewrite <- app_assoc, codec_complete by done. cbn [mbind result_bind].
    replace (acc ++ e :: es) with ((acc ++ [e]) ++ es) in * by by rewrite <- app_assoc.
    pose proof (registry_canonical_prefix _ _ Hcs) as Hsn. pose proof Hsn as [_ ->]%registry_canonical_snoc.
    apply IH; [|done|exists es; split_and!; [by injection Hl|done..]].
    cbn [fmap list_fmap concat] in Hb. rewrite <- app_assoc in Hb. by apply byte_string_app in Hb as [_ ?].
Qed.

(** The stored registry is an exact codec of the well-formed registries: a byte string
    decodes to [r] if and only if [r] has at most sixteen well-typed entries, numbered in
    order, with distinct non-null digests, registered at non-decreasing heights and not
    active before them, and the string is its encoding. *)
Theorem registry_decode_iff (bytes : list Z) (r : ClientRegistryState) (Hb : byte_string bytes) :
  registry_decode bytes = Ok r ↔ registry_wf r ∧ registry_encode r = bytes.
Proof.
  unfold registry_decode, registry_wf, registry_encode. change CLIENT_REGISTRY_CAPACITY with 16%nat. split.
  - intros H. apply bind_Ok in H as ([v s1] & Hv & H). apply take_byte_sound in Hv as ->.
    apply if_err_Ok in H as [Hv H]. bool_inv. apply dec_stable in Hv as ->.
    apply bind_Ok in H as ([count s2] & Hc & H). apply take_byte_sound in Hc as ->.
    apply if_err_Ok in H as [Hcap H]. apply Forall_cons in Hb as [_ Hb]. apply Forall_cons in Hb as [Hcb Hb].
    apply bind_Ok in H as ([es s3] & He & H). apply if_err_Ok in H as [Hs [= <-]]. bool_inv. apply dec_stable in Hs as ->.
    apply decode_entries_Ok in He as (es' & Hl & -> & -> & Hw & Hcan); [|done|apply registry_canonical_nil].
    cbn [app] in *. unfold is_byte in Hcb. split_and!; [lia|done|done|].
    rewrite wrap_small by lia. rewrite app_nil_r. do 2 f_equal. lia.
  - intros ((Hl & Hw & Hc) & <-). cbn [app] in *. rewrite take_byte_cons. cbn [mbind result_bind].
    rewrite bool_decide_false by tauto. rewrite take_byte_cons. cbn [mbind result_bind].
    rewrite wrap_small by lia. replace (Z.of_nat 16 <? Z.of_nat (length r)) with false by lia.
    apply bind_Ok. exists (r, []). split; [|done]. apply Forall_cons in Hb as [_ Hb]. apply Forall_cons in Hb as [_ Hb].
    rewrite Nat2Z.id. apply decode_entries_Ok; [done|apply registry_canonical_nil|].
    exists r. by rewrite app_nil_r.
Qed.

Lemma registry_decode_iff_witness :
  ∃ r, registry_decode [1; 0] = Ok r ∧ registry_wf r ∧ registry_encode r = [1; 0].
Proof.
  exists []. split; [reflexivity|].
  apply (registry_decode_iff [1; 0] []); [|reflexivity].
  repeat constructor; unfold is_byte; lia.
Defined.

(** ** Reorganisation *)

Lemma registry_apply_app r eff r' :
  registry_apply r eff = Some r' → r' = r ++ ef_registrations eff.
Proof.
  unfold registry_apply. generalize (ef_registrations eff) as es. intros es.
  revert r. induction es as [|e es IH]; intros r H; cbn [foldl] in H; [injection H as <-; by rewrite app_nil_r|].
  unfold registry_append at 2 in H. cbn [mbind option_bind] in H. case_decide.
  - apply IH in H as ->. by rewrite <- app_assoc.
  - assert (Hn : foldl registry_append None es = None) by (clear; induction es; done).
    discriminate (eq_trans (eq_sym H) Hn).
Qed.

Lemma truncate_above_all r h : (∀ e, e ∈ r → re_registered_at e ≤ h) → truncate_above r h = r.
Proof.
  induction r as [|e r IH]; intros H; [done|]. unfold truncate_above in *.
  rewrite filter_cons_True by (apply H; set_solver). f_equal. apply IH. set_solver.
Qed.

Lemma truncate_above_none r h : (∀ e, e ∈ r → h < re_registered_at e) → truncate_above r h = [].
Proof.
  induction r as [|e r IH]; intros H; [done|]. unfold truncate_above in *.
  rewrite filter_cons_False by (specialize (H e ltac:(set_solver)); lia). apply IH. set_solver.
Qed.

(** Dropping the entries above a height drops a suffix. *)
Lemma truncate_above_prefix r h : registry_canonical r → ∃ rest, r = truncate_above r h ++ rest.
Proof.
  induction r as [|e r IH] using rev_ind; intros Hc; [by exists []|].
  destruct (decide (re_registered_at e ≤ h)) as [Hle|Hgt].
  - exists []. rewrite app_nil_r, truncate_above_all; [done|]. intros x Hx.
    apply list_elem_of_lookup in Hx as [i Hi]. pose proof (lookup_lt_Some _ _ _ Hi) as Hlt. rewrite length_app in Hlt. cbn in Hlt.
    pose proof (rc_sorted _ Hc i (length r) x e ltac:(lia) Hi ltac:(apply lookup_snoc_Some; by right)). lia.
  - apply registry_canonical_snoc in Hc as [Hc _]. destruct (IH Hc) as [rest Hr].
    exists (rest ++ [e]). unfold truncate_above in *. rewrite filter_app, (filter_cons_False _ e) by done.
    rewrite filter_nil, app_nil_r, app_assoc, <- Hr. done.
Qed.

(** Reorganisation of the registry.  Truncating to the parent's height removes exactly
    what a block above it appended; and truncating a canonical registry to any height
    leaves a canonical registry that is a prefix of it. *)
Theorem truncate_undoes_apply (r r' : ClientRegistryState) (eff : ClientObjectsEffect) (height : Z)
    (Hr : registry_canonical r) (Hold : Forall (λ e, re_registered_at e ≤ height) r)
    (Hnew : Forall (λ e, height < re_registered_at e) (ef_registrations eff))
    (Happly : registry_apply r eff = Some r') :
  truncate_above r' height = r
  ∧ ∀ h, registry_canonical (truncate_above r h) ∧ ∃ rest, r = truncate_above r h ++ rest.
Proof.
  apply registry_apply_app in Happly as ->. rewrite Forall_forall in Hold, Hnew. split.
  - unfold truncate_above. rewrite filter_app. fold (truncate_above r height).
    fold (truncate_above (ef_registrations eff) height).
    rewrite truncate_above_all, truncate_above_none by done. apply app_nil_r.
  - intros h. destruct (truncate_above_prefix r h Hr) as [rest Hrest]. split; [|by exists rest].
    rewrite Hrest in Hr. by apply registry_canonical_prefix in Hr.
Qed.

Definition example_entry (index height : Z) : ClientRegistryEntry :=
  mkClientRegistryEntry index (replicate 32 (index + 1)) (replicate 32 0xF0) 4096 height (height + 120)
    (mkLicenseSplit (1000 * MICRO_PER_JTM) 0 0).

Lemma truncate_undoes_apply_witness :
  ∃ r', registry_apply [example_entry 0 40000] (mkClientObjectsEffect [example_entry 1 40005] None None 0) = Some r'
    ∧ truncate_above r' 40004 = [example_entry 0 40000].
Proof.
  eexists. split; [reflexivity|].
  apply (truncate_undoes_apply [example_entry 0 40000] _
    (mkClientObjectsEffect [example_entry 1 40005] None None 0) 40004).
  - apply (registry_canonical_snoc []). split; [apply registry_canonical_nil|reflexivity].
  - repeat constructor. cbn. lia.
  - repeat constructor.
  - reflexivity.
Defined.

(** ** License shares *)

Lemma license_split_total d license :
  is_u64 license → (∀ bps, d = BurnAndMiners bps → 0 ≤ bps) →
  LicenseSplit_total (license_split d license) = license ∧ LicenseSplit_wf (license_split d license).
Proof.
  intros Hl Hb. unfold is_uint in *. destruct d as [| |bps|]; unfold LicenseSplit_total, LicenseSplit_wf, is_uint; cbn; try lia.
  specialize (Hb bps eq_refl). set (b := if 10000 <? bps then 10000 else bps).
  assert (0 ≤ b ≤ 10000) by (unfold b; destruct (Z.ltb_spec 10000 bps); lia).
  assert (0 ≤ license * (10000 - b) / 10000 ≤ license).
  { split; [apply Z.div_pos; nia|]. apply Z.div_le_upper_bound; nia. }
  rewrite wrap_small by lia. lia.
Qed.

(** What one entry is owed at [height], zero outside its window. *)
Definition owed (blocks height : Z) (e : ClientRegistryEntry) : Z :=
  if decide (0 < ls_miners (re_license e) ∧ re_registered_at e < height ∧ height - re_registered_at e ≤ blocks)
  then entry_dividend blocks height e else 0.

Lemma license_dividend_sum r height rules :
  license_dividend_at r height rules =
  Z.min (sum_Z (owed (Z.max (cr_dividend_blocks rules) 1) height <$> r)) u64_max.
Proof.
  unfold license_dividend_at. f_equal. set (blocks := Z.max _ 1). induction r as [|e r IH]; [done|].
  rewrite fmap_cons, sum_Z_cons, <- IH. unfold owed.
  destruct (decide (0 < ls_miners (re_license e))) as [Hm|Hm].
  - rewrite (filter_cons_True _ e r) by done.
    destruct (decide (re_registered_at e < height ∧ height - re_registered_at e ≤ blocks)) as [Hw|Hw].
    + rewrite filter_cons_True, decide_True by done. by rewrite fmap_cons, sum_Z_cons.
    + rewrite filter_cons_False, decide_False by tauto. lia.
  - rewrite (filter_cons_False _ e r), decide_False by tauto. lia.
Qed.

Lemma owed_sum blocks e (n : nat) :
  1 ≤ blocks → 0 ≤ re_registered_at e → 0 ≤ ls_miners (re_license e) →
  sum_Z ((λ h, owed blocks h e) <$> seqZ 1 (Z.of_nat n)) =
    if decide (Z.of_nat n ≤ re_registered_at e) then 0
    else Z.min (Z.of_nat n - re_registered_at e) blocks * (ls_miners (re_license e) / blocks)
         + ls_miners (re_license e) mod blocks.
Proof.
  intros Hb Hr Hm. set (share := ls_miners (re_license e)) in *. set (reg := re_registered_at e) in *.
  induction n as [|n IH]; [by rewrite decide_True by lia|].
  replace (Z.of_nat (S n)) with (Z.of_nat n + 1) by lia.
  rewrite seqZ_app, fmap_app, sum_Z_app, IH by lia. cbn [seqZ].
  replace (seqZ (1 + Z.of_nat n) 1) with [1 + Z.of_nat n] by (unfold seqZ; cbn; f_equal; lia).
  cbn [fmap list_fmap]. rewrite sum_Z_cons. unfold sum_Z at 1. cbn [foldr].
  unfold owed, entry_dividend. fold share reg.
  clear IH. destruct (decide (share = 0)) as [H0|H0].
  { rewrite H0, Zmod_0_l, Zdiv_0_l. repeat case_decide; lia. }
  assert (Hmin : ∀ a, Z.min a blocks = if decide (a ≤ blocks) then a else blocks) by (intros; case_decide; lia).
  rewrite !Hmin. destruct (Z.eqb_spec (1 + Z.of_nat n) (reg + 1)) as [Heq|Hne].
  - assert (Z.of_nat n = reg) by lia. repeat case_decide; lia.
  - repeat case_decide; try lia. assert (Z.of_nat n - reg = blocks) as -> by lia. lia.
Qed.

(** Licenses that go to miners are re-issued exactly: over any range of heights that
    contains the dividend windows of all entries, the coinbase raises sum to the miners'
    shares of all licenses, remainders included, and no raise is cut off by the 64-bit
    ceiling. *)
Theorem license_dividends_exact (r : ClientRegistryState) (rules : ClientObjectRules) (n : nat)
    (Hentries : Forall (λ e, 0 ≤ re_registered_at e ∧ 0 ≤ ls_miners (re_license e)
       ∧ re_registered_at e + Z.max (cr_dividend_blocks rules) 1 ≤ Z.of_nat n) r)
    (Htotal : sum_Z ((λ e, ls_miners (re_license e)) <$> r) ≤ u64_max) :
  sum_Z ((λ h, license_dividend_at r h rules) <$> seqZ 1 (Z.of_nat n))
  = sum_Z ((λ e, ls_miners (re_license e)) <$> r).
Proof.
  set (blocks := Z.max (cr_dividend_blocks rules) 1) in *. assert (1 ≤ blocks) by lia.
  assert (Howed : ∀ h e, e ∈ r → 0 ≤ owed blocks h e ≤ ls_miners (re_license e)).
  { intros h e He. rewrite Forall_forall in Hentries. destruct (Hentries e He) as (_ & Hm & _). unfold owed, entry_dividend.
    pose proof (Z.div_mod (ls_miners (re_license e)) blocks ltac:(lia)).
    pose proof (Z.mod_pos_bound (ls_miners (re_license e)) blocks ltac:(lia)).
    assert (0 ≤ ls_miners (re_license e) / blocks) by (apply Z.div_pos; lia).
    case_decide; [|lia]. destruct (_ =? _); nia. }
  assert (Hcap : ∀ h, license_dividend_at r h rules = sum_Z ((λ e, owed blocks h e) <$> r)).
  { intros h. rewrite license_dividend_sum. fold blocks. apply Z.min_l. etrans; [|exact Htotal].
    apply sum_Z_le, Forall_forall. intros e He. by apply Howed. }
  rewrite (list_fmap_ext _ (λ h, sum_Z ((λ e, owed blocks h e) <$> r)) _) by (intros; apply Hcap).
  rewrite sum_Z_swap. f_equal. apply list_fmap_ext. intros i e He%list_elem_of_lookup_2.
  rewrite Forall_forall in Hentries. destruct (Hentries e He) as (Hr & Hm & Hn).
  rewrite owed_sum by done. rewrite decide_False, Z.min_r by lia.
  pose proof (Z.div_mod (ls_miners (re_license e)) blocks ltac:(lia)). lia.
Qed.

Definition miners_rules : ClientObjectRules :=
  mkClientObjectRules V1_5_ACTIVATION_HEIGHT CLIENT_LICENSE_MICRO Miners CLIENT_SUBMISSION_FEE_MICRO
    CLIENT_ACTIVATION_DELAY_BLOCKS CLIENT_SHORT_ACTIVATION_FROM CLIENT_SHORT_ACTIVATION_DELAY_BLOCKS
    7 CLIENT_REGISTRY_CAPACITY CLIENT_MATRIX_MAX_FILE_BYTES CLIENT_CATALOGUE.

Lemma license_dividends_exact_witness :
  let r := [mkClientRegistryEntry 0 (replicate 32 1) (replicate 32 2) 10 3 123 (mkLicenseSplit 0 1000 0)] in
  sum_Z ((λ h, license_dividend_at r h miners_rules) <$> seqZ 1 (Z.of_nat 12)) = 1000.
Proof.
  intros r. apply (license_dividends_exact r miners_rules 12).
  - repeat constructor; cbn; lia.
  - vm_compute. discriminate.
Defined.
