(* ===== verification/Consensus.v ===== *)
(** * Consensus errors and the checks across transactions

    [consensus/mod.rs]: the error type of block validation;
    [consensus/checks.rs]: the per-transaction rule and the slot conflicts of
    a block; [consensus/conflict.rs] and [consensus/ordering.rs]: the miner's
    choice among transactions that mint the same slot and the order it gives
    a block.  Texts that only serve diagnostics (the strings inside
    [ShapeMismatch] and [InvalidPagedSpend]) are not carried. *)

From Stdlib Require Import String Sorting.Sorted.
From S2P Require Import Prelude Machine Params Poseidon TxTypes ClientObjects.

(** ** Errors *)

Inductive ClientObjectError :=
  | CO_ObjectsBeforeActivation
  | CO_ObjectsDoNotMatchMarkers
  | CO_MultipleMarkersInTransaction (group : nat)
  | CO_MarkerCarriesValue (group : nat)
  | CO_MarkerInSystemRecord
  | CO_SpendFromLockedAddress (owner : list Z)
  | CO_NullMatrixDigest
  | CO_NullMatrixFileRoot
  | CO_MatrixFileLength (len max : Z)
  | CO_DuplicateRegistration (matrix_digest : list Z)
  | CO_NotInCatalogue (matrix_digest : list Z)
  | CO_RegistryFull (capacity : nat)
  | CO_LicenseMissing (destination : list Z) (required : Z)
  | CO_LicenseUnderpaid (destination : list Z) (required paid : Z)
  | CO_TooManySubmissions
  | CO_ClientNotRegistered (matrix_digest : list Z)
  | CO_ClientNotYetActive (matrix_digest : list Z) (active_from : Z)
  | CO_SubmissionFeeTooLow (required paid : Z)
  | CO_SubmissionNotCarried
  | CO_PageStream
  | CO_PaymentWithoutObject
  | CO_ClientLanesMissing
  | CO_UnexpectedClientLanes
  | CO_ClientSubmissionInBatchSlot
  | CO_BatchSubmissionBeforeV1_6
  | CO_BatchClassUnset
  | CO_ForeignBatchClass (batch_class : list Z)
  | CO_BatchCount (count max : Z)
  | CO_BatchSubmissionNotCarried
  | CO_BatchEntryNotFormZ (matrix_digest : list Z)
  | CO_UnexpectedBatchLanes
  | CO_RegistryLeavesMismatch
  | CO_SnapshotRegistry (reason : string).

(** Whether the refusal proves the block invalid rather than the bytes a peer
    served for it. *)
Definition condemns_block (e : ClientObjectError) : bool :=
  match e with
  | CO_ObjectsDoNotMatchMarkers | CO_ObjectsBeforeActivation => false
  | _ => true
  end.

Inductive ConsensusError :=
  | CE_InvalidPoW
  | CE_BadParentHash
  | CE_BadHeight
  | CE_BadDifficultyTarget
  | CE_CheckpointMismatch
  | CE_BadTimestamp
  | CE_TooManyTxs
  | CE_BlockResourceLimitExceeded (limit : string) (actual max : Z)
  | CE_BadTxRoot
  | CE_SlotConflict
  | CE_InvalidPagedSpend
  | CE_BadEpochAnchor
  | CE_InvalidLogicProof (tx_index : nat)
  | CE_MissingCoinbase
  | CE_MultipleCoinbase
  | CE_CoinbaseNotFirst
  | CE_BadCoinbaseOwner
  | CE_InflatedCoinbase
  | CE_BadCoinbaseAnchor
  | CE_MissingDevelopmentPayout
  | CE_UnexpectedDevelopmentPayout
  | CE_BadDevelopmentPayout
  | CE_BadHistoryStepTerminal
  | CE_BelowMinFee (required actual : Z)
  | CE_BadLogSlotsExpansion
  | CE_BadStateRoot
  | CE_ShapeMismatch
  | CE_ClientObject (e : ClientObjectError).

(** ** Checks on transactions *)

Definition validate_tx_consensus (tx : Transaction) : result ConsensusError unit :=
  _ ← map_err (λ _, CE_ShapeMismatch) (validate_body_semantics_no_hash (tx_body tx));
  if negb (tb_is_coinbase (tx_body tx)) && bool_decide (tb_epoch_anchor (tx_body tx) = zero_digest)
  then Err CE_BadEpochAnchor
  else Ok tt.

(** The body of the loop of [validate_block_slot_conflicts]. *)
Definition touch_slots (touched : gset Z) (tx : Transaction) : result ConsensusError (gset Z) :=
  touched ← try_fold (λ s p, insert_fresh CE_SlotConflict s (ti_slot_index (snd p))) touched
              (live_inputs (tx_body tx));
  try_fold (λ s p, insert_fresh CE_SlotConflict s (to_slot_index (snd p))) touched
    (live_outputs (tx_body tx)).

Definition validate_block_slot_conflicts (txs : list Transaction) : result ConsensusError unit :=
  _ ← try_fold touch_slots ∅ txs; Ok tt.

(** Every slot a transaction touches, in the order of the scan. *)
Definition tx_slots (tx : Transaction) : list Z := input_slots (tx_body tx) ++ output_slots (tx_body tx).

Lemma touch_slots_Ok touched tx touched' :
  touch_slots touched tx = Ok touched' ↔
  fresh touched (tx_slots tx) ∧ touched' = list_to_set (tx_slots tx) ∪ touched.
Proof.
  unfold touch_slots, tx_slots. rewrite bind_Ok, fresh_app. split.
  - intros (t1 & H1%try_fold_insert_fresh & H2%try_fold_insert_fresh).
    destruct H1 as (Hn1 & Hf1 & ->), H2 as (Hn2 & Hf2 & ->). split; [split; split; done|].
    apply union_app.
  - intros [[[Hn1 Hf1] [Hn2 Hf2]] ->]. eexists. split; apply try_fold_insert_fresh; split_and!; try done.
    symmetry. apply union_app.
Qed.

Lemma touch_all_Ok touched txs touched' :
  try_fold touch_slots touched txs = Ok touched' ↔
  fresh touched (txs ≫= tx_slots) ∧ touched' = list_to_set (txs ≫= tx_slots) ∪ touched.
Proof.
  revert touched. induction txs as [|tx txs IH]; intros touched; cbn [try_fold mbind list_bind].
  - split; [intros [= <-]; split; [apply fresh_nil|set_solver]|intros [_ ->]; f_equal; set_solver].
  - change (_ ++ _) with (tx_slots tx ++ (txs ≫= tx_slots)). rewrite bind_Ok, fresh_app. split.
    + intros (t1 & [Hf ->]%touch_slots_Ok & [Hr ->]%IH). split; [done|]. apply union_app.
    + intros [[Hf Hr] ->]. eexists. split; [by apply touch_slots_Ok|]. apply IH. split; [done|].
      symmetry. apply union_app.
Qed.

Lemma slot_conflicts_Ok txs :
  validate_block_slot_conflicts txs = Ok tt ↔ NoDup (txs ≫= tx_slots).
Proof.
  unfold validate_block_slot_conflicts. rewrite bind_Ok. split.
  - intros (t & [Hf _]%touch_all_Ok & _). by apply fresh_empty in Hf.
  - intros Hn. exists (list_to_set (txs ≫= tx_slots) ∪ ∅). split; [|done]. apply touch_all_Ok.
    split; [by apply fresh_empty|done].
Qed.
