(* ===== verification/Conflict.v ===== *)
(** * Conflicts and order among candidate transactions

    [consensus/conflict.rs]: of the transactions that mint the same slot the
    miner keeps the one with the least transaction id;
    [consensus/ordering.rs]: the order it gives the transactions of a block.
    Ids are byte arrays compared lexicographically. *)

From Stdlib Require Import Sorting.Sorted.
From S2P Require Import Prelude Machine Poseidon TxTypes.

(** The order of byte arrays. *)
Fixpoint bytes_ltb (a b : list Z) : bool :=
  match a, b with
  | x :: a, y :: b => (x <? y) || ((x =? y) && bytes_ltb a b)
  | [], _ :: _ => true
  | _, _ => false
  end.

Section conflict.
  Context {P : Poseidon2bPermutation}.

Definition txid (tx : Transaction) : list Z := hash_tx_body (tx_body tx).

(** One visit of an output slot: the first claim is entered, a smaller id
    replaces the entry. *)
Definition claim_slot (best : gmap Z (list Z * nat)) (claim : Z * (list Z * nat)) : gmap Z (list Z * nat) :=
  let '(slot, (id, i)) := claim in
  let entry := default (id, i) (best !! slot) in
  <[slot := if bytes_ltb id (fst entry) then (id, i) else entry]> best.

(** The visits of one transaction. *)
Definition tx_claims (p : nat * Transaction) : list (Z * (list Z * nat)) :=
  (λ slot, (slot, (txid (snd p), fst p))) <$> output_slots (tx_body (snd p)).

Definition best_claims (txs : list Transaction) : gmap Z (list Z * nat) :=
  foldl (λ best p, foldl claim_slot best (tx_claims p)) ∅ (imap pair txs).

Definition loses (best : gmap Z (list Z * nat)) (p : nat * Transaction) : bool :=
  existsb (λ slot, match best !! slot with
                   | Some (_, winner_idx) => negb (bool_decide (winner_idx = fst p))
                   | None => false
                   end) (output_slots (tx_body (snd p))).

Definition resolve_slot_conflicts (txs : list Transaction) : list Transaction * list (list Z) :=
  let best := best_claims txs in
  let indexed := imap pair txs in
  (snd <$> filter (λ p, Is_true (negb (loses best p))) indexed,
   (λ p, txid (snd p)) <$> filter (λ p, Is_true (loses best p)) indexed).

(** ** Order *)

Definition block_tx_cmp (a b : Transaction) : comparison :=
  match tb_is_coinbase (tx_body a), tb_is_coinbase (tx_body b) with
  | true, false => Lt
  | false, true => Gt
  | _, _ =>
      match Z.compare (tb_fee (tx_body b)) (tb_fee (tx_body a)) with
      | Eq => if bytes_ltb (txid a) (txid b) then Lt
              else if bytes_ltb (txid b) (txid a) then Gt else Eq
      | c => c
      end
  end.

Definition block_tx_le (a b : Transaction) : Prop := block_tx_cmp a b ≠ Gt.

#[global] Instance block_tx_le_dec a b : Decision (block_tx_le a b).
Proof. unfold block_tx_le. apply _. Defined.

(** [sort_by] is a merge sort. *)
Definition order_block_txs (txs : list Transaction) : list Transaction := merge_sort block_tx_le txs.

End conflict.

(** ** Lexicographic order *)

Lemma bytes_ltb_irrefl a : bytes_ltb a a = false.
Proof. induction a as [|x a IH]; [done|]. cbn. rewrite Z.ltb_irrefl, Z.eqb_refl. done. Qed.

Lemma bytes_ltb_trans a b c : bytes_ltb a b = true → bytes_ltb b c = true → bytes_ltb a c = true.
Proof.
  revert b c. induction a as [|x a IH]; intros [|y b] [|z c]; cbn; try done.
  rewrite !orb_true_iff, !andb_true_iff, !Z.ltb_lt, !Z.eqb_eq.
  intros [?|[-> ?]] [?|[-> ?]]; [left; lia..|]. right. eauto.
Qed.

Lemma bytes_ltb_total a b : bytes_ltb a b = false → bytes_ltb b a = false → a = b.
Proof.
  revert b. induction a as [|x a IH]; intros [|y b]; cbn; try done.
  rewrite !orb_false_iff, !Z.ltb_ge. intros [H1 H2] [H3 H4]. assert (x = y) as -> by lia.
  rewrite Z.eqb_refl in *. f_equal. auto.
Qed.

Lemma bytes_ltb_asym a b : bytes_ltb a b = true → bytes_ltb b a = false.
Proof.
  intros H. destruct (bytes_ltb b a) eqn:E; [|done].
  pose proof (bytes_ltb_trans _ _ _ H E) as C. by rewrite bytes_ltb_irrefl in C.
Qed.

(** ** Who survives *)

(** Claims by id, ties by position. *)
Definition precedes (c d : list Z * nat) : Prop :=
  bytes_ltb (fst c) (fst d) = true ∨ (fst c = fst d ∧ (snd c < snd d)%nat).

Lemma precedes_trans c d e : precedes c d → precedes d e → precedes c e.
Proof.
  intros [?|[Hcd ?]] [?|[Hde ?]].
  - left. by eapply bytes_ltb_trans.
  - left. by rewrite <- Hde.
  - left. by rewrite Hcd.
  - right. split; [congruence|lia].
Qed.

Lemma precedes_irrefl c : ~ precedes c c.
Proof. intros [H|[_ H]]; [by rewrite bytes_ltb_irrefl in H|lia]. Qed.

(** The entry after one more claim. *)
Definition pick (acc : option (list Z * nat)) (c : list Z * nat) : option (list Z * nat) :=
  match acc with
  | Some e => Some (if bytes_ltb (fst c) (fst e) then c else e)
  | None => Some c
  end.

Lemma pick_idemp acc c : pick (pick acc c) c = pick acc c.
Proof.
  destruct acc as [e|]; cbn; [|by rewrite bytes_ltb_irrefl].
  destruct (bytes_ltb (fst c) (fst e)) eqn:E; [by rewrite bytes_ltb_irrefl|by rewrite E].
Qed.

Lemma claim_slot_lookup best slot c s :
  claim_slot best (slot, c) !! s = if decide (slot = s) then pick (best !! s) c else best !! s.
Proof.
  destruct c as [id i]. cbn. case_decide as Hs; [subst|by rewrite lookup_insert_ne].
  rewrite lookup_insert_eq. unfold pick. destruct (best !! s) as [e|]; cbn; [done|].
  by destruct (bytes_ltb id id).
Qed.

Lemma claim_slots_lookup best slots c s :
  foldl claim_slot best ((λ slot, (slot, c)) <$> slots) !! s
  = if decide (s ∈ slots) then pick (best !! s) c else best !! s.
Proof.
  revert best. induction slots as [|slot slots IH]; intros best; cbn [fmap list_fmap foldl].
  { rewrite decide_False; [done|apply not_elem_of_nil]. }
  rewrite IH, claim_slot_lookup. destruct (decide (slot = s)) as [->|Hne].
  - rewrite (decide_True (P := s ∈ s :: slots)) by left. case_decide; [apply pick_idemp|done].
  - case_decide as H1; case_decide as H2; try done; exfalso; [apply H2; by right|].
    apply elem_of_cons in H2 as [->|?]; done.
Qed.

#[local] Opaque txid.

Section survivors.
  Context {P : Poseidon2bPermutation}.

Definition claims (txs : list Transaction) (s : Z) (c : list Z * nat) : Prop :=
  ∃ tx, txs !! snd c = Some tx ∧ fst c = txid tx ∧ s ∈ output_slots (tx_body tx).

Lemma claims_snoc txs tx s c :
  claims (txs ++ [tx]) s c ↔
  claims txs s c ∨ (c = (txid tx, length txs) ∧ s ∈ output_slots (tx_body tx)).
Proof.
  destruct c as [h i]. unfold claims. cbn. split.
  - intros (t & [[Hi Ht]|[-> ->]]%lookup_snoc_Some & -> & Hs); [left; eauto|by right].
  - intros [(t & Ht & -> & Hs)|[[= -> ->] Hs]].
    + exists t. split; [by apply lookup_app_l_Some|done].
    + exists tx. split; [by apply lookup_snoc_Some; right|done].
Qed.

Lemma claims_index txs s c : claims txs s c → (snd c < length txs)%nat.
Proof. intros (tx & H & _). by eapply lookup_lt_Some. Qed.

(** The entry of a slot is the least of its claims. *)
Definition least_claim (txs : list Transaction) (s : Z) (o : option (list Z * nat)) : Prop :=
  match o with
  | None => ∀ c, ~ claims txs s c
  | Some w => claims txs s w ∧ ∀ c, claims txs s c → c = w ∨ precedes w c
  end.

Lemma best_claims_snoc txs tx :
  best_claims (txs ++ [tx]) = foldl claim_slot (best_claims txs) (tx_claims (length txs, tx)).
Proof.
  unfold best_claims. rewrite imap_app, foldl_app. cbn [imap foldl].
  by rewrite Nat.add_0_r.
Qed.

Lemma best_claims_least txs s : least_claim txs s (best_claims txs !! s).
Proof.
  induction txs as [|tx txs IH] using rev_ind.
  { change (best_claims []) with (∅ : gmap Z (list Z * nat)). rewrite lookup_empty.
    intros c (t & Ht & _). done. }
  rewrite best_claims_snoc. unfold tx_claims. rewrite claim_slots_lookup. cbn [fst snd].
  destruct (decide (s ∈ output_slots (tx_body tx))) as [Hs|Hs]; [|destruct (best_claims txs !! s) as [w|]].
  - destruct (best_claims txs !! s) as [w|]; cbn [pick fst snd]; (split; [|intros c Hc%claims_snoc]).
    + destruct IH as [Hw Hmin]. case_match; apply claims_snoc; auto.
    + destruct IH as [Hw Hmin]. pose proof (claims_index _ _ _ Hw) as Hlt.
      case_match eqn:E; destruct Hc as [Hc|[-> _]]; [|by left|by apply Hmin|].
      * right. destruct (Hmin c Hc) as [->|Hp]; [by left|]. eapply precedes_trans; [by left|done].
      * right. destruct (bytes_ltb (fst w) (txid tx)) eqn:E'; [by left|]. right.
        split; [by apply bytes_ltb_total|done].
    + apply claims_snoc. by right.
    + destruct Hc as [Hc|[-> _]]; [by destruct (IH c)|by left].
  - destruct IH as [Hw Hmin]. split; [apply claims_snoc; by left|].
    intros c [Hc|[_ ?]]%claims_snoc; [auto|done].
  - intros c [Hc|[_ ?]]%claims_snoc; [by apply (IH c)|done].
Qed.

(** A transaction survives when it precedes every other claimant of its slots. *)
Definition survives (txs : list Transaction) (i : nat) (tx : Transaction) : Prop :=
  ∀ s j tx', s ∈ output_slots (tx_body tx) → txs !! j = Some tx' → s ∈ output_slots (tx_body tx') →
    j ≠ i → precedes (txid tx, i) (txid tx', j).

Lemma loses_survives txs i tx :
  txs !! i = Some tx → loses (best_claims txs) (i, tx) = false ↔ survives txs i tx.
Proof.
  intros Hi. unfold loses. cbn [fst snd]. rewrite <- not_true_iff_false, existsb_exists. split.
  - intros Hno s j tx' Hs Hj Hs' Hne. pose proof (best_claims_least txs s) as Hb.
    destruct (best_claims txs !! s) as [[h w]|] eqn:E.
    + destruct (decide (w = i)) as [->|Hw].
      * destruct Hb as [(t & Ht & Hh & _) Hmin]. cbn in Ht, Hh. simplify_eq.
        destruct (Hmin (txid tx', j)) as [Heq|Hp]; [by exists tx'|congruence|done].
      * exfalso. apply Hno. exists s. split; [by apply list_elem_of_In|]. rewrite E.
        by rewrite bool_decide_false.
    + exfalso. apply (Hb (txid tx, i)). by exists tx.
  - intros Hsurv (s & Hs%list_elem_of_In & Hm). pose proof (best_claims_least txs s) as Hb.
    destruct (best_claims txs !! s) as [[h w]|]; [|done].
    apply negb_true_iff, bool_decide_eq_false in Hm. destruct Hb as [(t & Ht & Hh & Hst) Hmin].
    cbn in Ht, Hh. subst h. pose proof (Hsurv s w t Hs Ht Hst Hm) as Hp.
    destruct (Hmin (txid tx, i)) as [Heq|Hp']; [by exists tx|congruence|].
    apply (precedes_irrefl (txid tx, i)). by eapply precedes_trans.
Qed.

(** ** The resolution *)

Lemma winners_elem txs tx :
  tx ∈ (resolve_slot_conflicts txs).1 ↔ ∃ i, txs !! i = Some tx ∧ survives txs i tx.
Proof.
  cbn [resolve_slot_conflicts fst]. rewrite list_elem_of_fmap. split.
  - intros ([i t] & -> & [Hl Hi]%list_elem_of_filter). apply elem_of_lookup_imap in Hi as (j & x & [= -> ->] & Hj).
    exists j. split; [done|]. apply loses_survives; [done|]. by apply Is_true_true, negb_true_iff in Hl.
  - intros (i & Hi & Hs). exists (i, tx). split; [done|]. apply list_elem_of_filter. split.
    + apply Is_true_true, negb_true_iff. by apply loses_survives.
    + apply elem_of_lookup_imap. by exists i, tx.
Qed.

Lemma winners_disjoint txs i j a b s :
  (resolve_slot_conflicts txs).1 !! i = Some a → (resolve_slot_conflicts txs).1 !! j = Some b →
  s ∈ output_slots (tx_body a) → s ∈ output_slots (tx_body b) → i = j.
Proof.
  cbn [resolve_slot_conflicts fst]. rewrite !list_lookup_fmap. intros Ha Hb Hsa Hsb.
  destruct (filter _ _ !! i) as [[ia ta]|] eqn:Ei; [|done].
  destruct (filter _ _ !! j) as [[ib tb]|] eqn:Ej; [|done].
  apply (inj Some) in Ha, Hb. cbn in Ha, Hb. subst ta tb.
  pose proof (list_elem_of_lookup_2 _ _ _ Ei) as [Hla Hia]%list_elem_of_filter.
  pose proof (list_elem_of_lookup_2 _ _ _ Ej) as [Hlb Hib]%list_elem_of_filter.
  apply elem_of_lookup_imap in Hia as (ka & xa & [= -> ->] & Hka).
  apply elem_of_lookup_imap in Hib as (kb & xb & [= -> ->] & Hkb).
  apply Is_true_true, negb_true_iff in Hla, Hlb.
  apply loses_survives in Hla, Hlb; [|done..].
  destruct (decide (ka = kb)) as [->|Hne].
  - assert (xa = xb) as -> by congruence. eapply NoDup_lookup; [|exact Ei|exact Ej].
    apply NoDup_filter, NoDup_fmap_1 with fst.
    rewrite imap_pair_fst. apply NoDup_seq.
  - exfalso. apply (precedes_irrefl (txid xa, ka)). eapply precedes_trans.
    + by apply (Hla s kb xb).
    + by apply (Hlb s ka xa).
Qed.

End survivors.

(** Conflicts between candidate transactions.  The miner keeps exactly the
    transactions that precede every other claimant of each slot they mint (by
    least id, then by position); no two kept transactions mint the same slot, and
    every candidate is either kept or reported by id. *)
Theorem resolve_slot_conflicts_exact {P : Poseidon2bPermutation} (txs : list Transaction) :
  let '(winners, losers) := resolve_slot_conflicts txs in
  (∀ tx, tx ∈ winners ↔ ∃ i, txs !! i = Some tx ∧ survives txs i tx)
  ∧ (∀ i j a b, winners !! i = Some a → winners !! j = Some b → i ≠ j →
       output_slots (tx_body a) ## output_slots (tx_body b))
  ∧ (txid <$> winners) ++ losers ≡ₚ txid <$> txs.
Proof.
  pose proof (winners_elem txs) as Hw. pose proof (winners_disjoint txs) as Hd.
  destruct (resolve_slot_conflicts txs) as [winners losers] eqn:E. cbn [fst] in *. split_and!; [done| |].
  - intros i j a b Ha Hb Hij s Hsa Hsb. apply Hij. by eapply Hd.
  - apply (f_equal fst) in E as Ew. apply (f_equal snd) in E as El. cbn in Ew, El. subst winners losers.
    rewrite <- (imap_pair_snd txs) at 3. rewrite <- !list_fmap_compose, <- fmap_app.
    apply fmap_Permutation. apply partition_perm.
Qed.

(** ** The order of a block *)

Section order.
  Context {P : Poseidon2bPermutation}.

Lemma block_tx_le_key a b :
  block_tx_le a b ↔
  let ca := tb_is_coinbase (tx_body a) in let cb := tb_is_coinbase (tx_body b) in
  (ca = true ∧ cb = false)
  ∨ (ca = cb ∧ (tb_fee (tx_body b) < tb_fee (tx_body a)
                ∨ (tb_fee (tx_body b) = tb_fee (tx_body a) ∧ bytes_ltb (txid b) (txid a) = false))).
Proof.
  unfold block_tx_le, block_tx_cmp. cbn zeta.
  destruct (tb_is_coinbase (tx_body a)), (tb_is_coinbase (tx_body b)); try (intuition congruence).
  all: destruct (Z.compare_spec (tb_fee (tx_body b)) (tb_fee (tx_body a))) as [E|E|E].
  all: try (split; [intros H|intros [[? ?]|[_ [?|[? ?]]]]]; (congruence || lia || intuition (congruence || lia))).
  all: destruct (bytes_ltb (txid a) (txid b)) eqn:H1, (bytes_ltb (txid b) (txid a)) eqn:H2;
    try (intuition (congruence || lia)).
  all: apply bytes_ltb_asym in H1; congruence.
Qed.

#[global] Instance block_tx_le_total : Total block_tx_le.
Proof.
  intros a b. rewrite !block_tx_le_key. cbn zeta.
  destruct (tb_is_coinbase (tx_body a)), (tb_is_coinbase (tx_body b)); try (intuition congruence).
  all: destruct (Z.lt_total (tb_fee (tx_body a)) (tb_fee (tx_body b))) as [|[|]]; try (intuition lia).
  all: destruct (bytes_ltb (txid a) (txid b)) eqn:H1; [apply bytes_ltb_asym in H1|]; intuition.
Qed.

#[global] Instance block_tx_le_trans : Transitive block_tx_le.
Proof.
  intros a b c. rewrite !block_tx_le_key. cbn zeta. intros Hab Hbc.
  destruct Hab as [[Ha Hb]|[Hab Hf]]; [left; split; [done|]; destruct Hbc as [[? ?]|[? _]]; congruence|].
  destruct Hbc as [[Hb Hc]|[Hbc Hg]]; [left; split; congruence|]. right. split; [congruence|].
  destruct Hf as [Hf|[Hf Hi]], Hg as [Hg|[Hg Hj]]; [left; lia..|]. right. split; [lia|].
  destruct (bytes_ltb (txid c) (txid a)) eqn:E; [|done].
  destruct (bytes_ltb (txid a) (txid b)) eqn:E'.
  - exfalso. pose proof (bytes_ltb_trans _ _ _ E E') as C. congruence.
  - rewrite (bytes_ltb_total (txid a) (txid b) E' Hi) in E. congruence.
Qed.

End order.

(** The order of a block.  The ordering returns a rearrangement of the
    transactions it was given in which the coinbase records come first and the
    others follow by falling fee, equal fees by rising id. *)
Theorem order_block_txs_sorted {P : Poseidon2bPermutation} (txs : list Transaction) :
  order_block_txs txs ≡ₚ txs
  ∧ ∀ i j a b, order_block_txs txs !! i = Some a → order_block_txs txs !! j = Some b → (i < j)%nat →
      let ca := tb_is_coinbase (tx_body a) in let cb := tb_is_coinbase (tx_body b) in
      (ca = true ∧ cb = false)
      ∨ (ca = cb ∧ (tb_fee (tx_body b) < tb_fee (tx_body a)
                    ∨ (tb_fee (tx_body b) = tb_fee (tx_body a) ∧ bytes_ltb (txid b) (txid a) = false))).
Proof.
  split; [apply merge_sort_Permutation|]. intros i j a b Ha Hb Hij. apply block_tx_le_key.
  assert (Hs : StronglySorted block_tx_le (order_block_txs txs))
    by (apply Sorted_StronglySorted; [apply _|apply Sorted_merge_sort; apply _]).
  revert i j Ha Hb Hij. induction Hs as [|x l Hs IH Hx]; intros i j Ha Hb Hij; [done|].
  rewrite Forall_forall in Hx. destruct i as [|i], j as [|j]; [lia| |lia|].
  - cbn in Ha, Hb. apply (inj Some) in Ha as <-. apply Hx. by eapply list_elem_of_lookup_2.
  - apply (IH i j); [done..|lia].
Qed.
