(* ===== verification/Block.v ===== *)
(** * Blocks

    [block.rs]: the block, the application of a block to the chain state, the
    genesis block and the transaction root; [consensus/da_prune.rs] and
    [consensus/reorg.rs]: the undo log of a block and its reversal.  The
    snapshot a failed application leaves behind is the unchanged argument:
    the functions return the new state only on success. *)

From S2P Require Import Prelude Machine Params Poseidon TxTypes TxWire PagedSpend BlockStream SlotState SparseRoot ChainState BlockHeader TxTree ClientObjects Consensus.

Record Block := mkBlock {
  bk_header : BlockHeader;
  bk_transactions : list Transaction;
  bk_client_objects : list ClientObject;
}.

Inductive BlockApplyError :=
  | BA_Tx (e : ApplyError)
  | BA_TooManyTransactions
  | BA_GenesisHasTransactions
  | BA_InvalidTxBody
  | BA_InvalidPagedSpend
  | BA_SlotConflict
  | BA_HeaderStateRootMismatch
  | BA_HeaderTxRootMismatch
  | BA_HeaderActiveSlotCountMismatch
  | BA_HeaderAllocCounterMismatch
  | BA_HeaderLogSlotsMismatch
  | BA_MultipleCoinbase
  | BA_CoinbaseNotFirst
  | BA_CoinbaseHasInputs.

Section block.
  Context {P : Poseidon2bPermutation} {C : SegmentCommitment}.

(** ** The transaction root *)

(** [Panic] is the failed assertion of [root_from_hashes]. *)
Definition try_compute_tx_root (txs : list Transaction) : result (fault BlockPageStreamError) (list Z) :=
  hashes ← map_err Fail (try_compute_logical_txids txs);
  expect (root_from_hashes hashes).

Definition compute_tx_root (txs : list Transaction) : option (list Z) :=
  result_ok (try_compute_tx_root txs).

(** ** Application *)

(** [while header.log_slots > snap.log_slots() { snap.expand_one() }]: every
    round adds one level. *)
Fixpoint expand_levels (n : nat) (cs : ChainState) : option ChainState :=
  match n with
  | O => Some cs
  | S n => cs ← expand_one cs; expand_levels n cs
  end.

(** The body of the loop over the transactions. *)
Definition apply_block_tx (user_start_index : nat) (height : Z) (snap : ChainState)
    (entry : nat * Transaction) : result (fault BlockApplyError) ChainState :=
  let '(index, tx) := entry in
  _ ← (if decide (index < user_start_index)%nat
       then map_err (λ _, Fail BA_InvalidTxBody) (validate_body_semantics_no_hash (tx_body tx))
       else Ok tt);
  map_fault BA_Tx (apply_tx_checked_deferred_root snap (tx_body tx) (Some height)).

Definition check_system_inputs (system : list Transaction) : result (fault BlockApplyError) unit :=
  try_for_each (λ tx, if negb (live_input_count (tx_body tx) =? 0)
                      then Err (Fail BA_CoinbaseHasInputs) else Ok tt) system.

Definition apply_block (state : ChainState) (block : Block) :
    result (fault BlockApplyError) (list Z * ChainState) :=
  let header := bk_header block in
  let txs := bk_transactions block in
  if BLOCK_MAX_TXS <? Z.of_nat (length txs) then Err (Fail BA_TooManyTransactions)
  else
    stream ← map_err (λ _, Fail BA_InvalidPagedSpend) (validate_block_page_stream txs);
    _ ← map_err (λ _, Fail BA_SlotConflict) (validate_block_slot_conflicts txs);
    _ ← check_system_inputs (take (bf_user_start_index stream) txs);
    snap ← expect (expand_levels (Z.to_nat (bh_log_slots header - Z.of_nat (sg_log_slots (cs_state state)))) state);
    snap ← try_fold (apply_block_tx (bf_user_start_index stream) (bh_height header)) snap (imap pair txs);
    '(root, snap) ← map_fault (λ _, BA_Tx AE_ExactStateUnavailable) (try_state_root snap);
    if bool_decide (bh_state_root header ≠ root) then Err (Fail BA_HeaderStateRootMismatch)
    else if bool_decide (bh_active_slot_count header ≠ cs_active_slot_count snap)
    then Err (Fail BA_HeaderActiveSlotCountMismatch)
    else if bool_decide (bh_alloc_counter header ≠ cs_alloc_counter snap)
    then Err (Fail BA_HeaderAllocCounterMismatch)
    else if bool_decide (bh_log_slots header ≠ Z.of_nat (sg_log_slots (cs_state snap)))
    then Err (Fail BA_HeaderLogSlotsMismatch)
    else
      tx_root ← map_fault (λ _, BA_InvalidPagedSpend) (try_compute_tx_root txs);
      if bool_decide (bh_tx_root header ≠ tx_root) then Err (Fail BA_HeaderTxRootMismatch)
      else Ok (cs_utxo_root snap, snap).

Definition materialize_accepted_block_state (state : ChainState) (block : Block) :
    result (fault BlockApplyError) (list Z * ChainState) := apply_block state block.

Definition apply_genesis_block (state : ChainState) (block : Block) :
    result (fault BlockApplyError) (list Z * ChainState) :=
  let header := bk_header block in
  if negb (bh_height header =? 0) then Err Panic
  else if BLOCK_MAX_TXS <? Z.of_nat (length (bk_transactions block)) then Err (Fail BA_TooManyTransactions)
  else if bool_decide (bk_transactions block ≠ []) then Err (Fail BA_GenesisHasTransactions)
  else if bool_decide (bh_tx_root header ≠ zero_digest) then Err (Fail BA_HeaderTxRootMismatch)
  else
    '(root, state) ← map_fault (λ _, BA_Tx AE_ExactStateUnavailable) (try_state_root state);
    if bool_decide (bh_state_root header ≠ root) then Err (Fail BA_HeaderStateRootMismatch)
    else if negb (bh_active_slot_count header =? 0) || negb (bh_alloc_counter header =? 0)
    then Err (Fail BA_HeaderActiveSlotCountMismatch)
    else Ok (bh_state_root header, state).

(** ** Undo logs *)

Record BlockUndoLog := mkBlockUndoLog {
  ul_block_height : Z;
  ul_log_slots_before : Z;
  ul_active_slot_count_before : Z;
  ul_alloc_counter_before : Z;
  ul_slot_changes : list (Z * SlotValue);
  ul_tx_hashes : list (list Z);
}.

Definition BlockUndoLog_empty (block_height log_slots_before : Z) : BlockUndoLog :=
  mkBlockUndoLog block_height log_slots_before 0 0 [] [].

(** The slots seen so far and the recorded changes. *)
Definition undo_acc : Type := gset Z * list (Z * SlotValue).

(** [None] is a failed read of the state. *)
Definition undo_input (state_before : ChainState) (acc : undo_acc) (p : nat * TxInput) : option undo_acc :=
  let '(touched, changes) := acc in
  let slot_index := ti_slot_index (snd p) in
  if (slot_index <? num_slots (cs_state state_before)) && negb (bool_decide (slot_index ∈ touched)) then
    prev ← slot (cs_state state_before) slot_index;
    Some ({[slot_index]} ∪ touched, changes ++ [(slot_index, prev)])
  else Some acc.

Definition undo_output (state_before : ChainState) (child_log_slots : Z) (acc : undo_acc) (p : nat * TxOutput) :
    option undo_acc :=
  let '(touched, changes) := acc in
  let slot_index := to_slot_index (snd p) in
  if bool_decide (slot_index ∈ touched) then Some acc
  else
    let touched := {[slot_index]} ∪ touched in
    if slot_index <? num_slots (cs_state state_before) then
      prev ← slot (cs_state state_before) slot_index;
      Some (touched, changes ++ [(slot_index, prev)])
    else
      let parent_log_slots := Z.of_nat (sg_log_slots (cs_state state_before)) in
      let parent_slots := num_slots (cs_state state_before) in
      let child_slots :=
        if child_log_slots =? saturating_add 32 parent_log_slots 1
        then default parent_slots (checked_mul 64 parent_slots 2) else parent_slots in
      Some (touched, if slot_index <? child_slots then changes ++ [(slot_index, EMPTY)] else changes).

Definition undo_tx (state_before : ChainState) (child_log_slots : Z) (acc : option undo_acc) (tx : Transaction) :
    option undo_acc :=
  acc ← acc;
  acc ← foldl (λ acc p, acc ← acc; undo_input state_before acc p) (Some acc) (live_inputs (tx_body tx));
  foldl (λ acc p, acc ← acc; undo_output state_before child_log_slots acc p) (Some acc)
    (live_outputs (tx_body tx)).

Definition build_undo_log (state_before : ChainState) (block : Block) :
    result (fault BlockPageStreamError) BlockUndoLog :=
  tx_hashes ← map_err Fail (try_compute_logical_txids (bk_transactions block));
  '(_, slot_changes) ← expect
    (foldl (undo_tx state_before (bh_log_slots (bk_header block))) (Some (∅, [])) (bk_transactions block));
  Ok (mkBlockUndoLog (bh_height (bk_header block)) (Z.of_nat (sg_log_slots (cs_state state_before)))
        (cs_active_slot_count state_before) (cs_alloc_counter state_before) slot_changes tx_hashes).

Definition revert_block (state : ChainState) (undo : BlockUndoLog) : result (fault ApplyError) ChainState :=
  supply ← map_fault (λ _, AE_CirculatingSupplyInvariant)
             (supply_after_slot_updates state (ul_slot_changes undo));
  let restored_slots :=
    filter (λ d, fst d < num_slots (cs_state state)) (reverse (ul_slot_changes undo)) in
  st ← map_fault (λ _, AE_SlotOutOfRange) (apply_delta_unrooted (cs_state state) restored_slots);
  Ok (mkChainState st (cs_utxo_root state) (cs_active_slot_count state) (cs_alloc_counter state)
        supply (cs_exact_roots state)).

(** [reorg.rs]: the counters a reverted block had changed. *)
Definition restore_state_counters (state : ChainState) (undo : BlockUndoLog) : ChainState :=
  mkChainState (cs_state state) (cs_utxo_root state) (ul_active_slot_count_before undo)
    (ul_alloc_counter_before undo) (cs_circulating_supply state) (cs_exact_roots state).

Definition prune_undo_logs (logs : gmap Z BlockUndoLog) (current_height : Z) : gmap Z BlockUndoLog :=
  let cutoff := saturating_sub current_height UNDO_RETENTION_DEPTH in
  filter (λ p, cutoff < fst p) logs.

End block.
