(* ===== verification/BlockProps.v ===== *)
(** * What applying a block does

    The application of a block to the chain state against the slot map: a
    block is accepted exactly when its slots are pairwise distinct, every
    input matches the slot it names, every output slot is free, the live-slot
    counter covers the inputs, and the header states the right root, counters,
    depth and transaction root. *)

From S2P Require Import Prelude Machine Params Poseidon TxTypes PagedSpend BlockStream SlotState SlotInv SparseRoot SparseRootProofs ChainState ChainStateInv BlockHeader TxTree ClientObjects Consensus Block.

(** ** A sequence of bodies *)

(** All writes of a sequence of bodies, creation ids drawn from [alloc] on. *)
Fixpoint block_deltas (alloc : Z) (bodies : list TxBody) (height : Z) : list (Z * SlotValue) :=
  match bodies with
  | [] => []
  | body :: bodies =>
      tx_deltas alloc body (Some height) ++ block_deltas (alloc + live_output_count body) bodies height
  end.

(** The live-slot counter, started at [active], is never below the inputs of the
    next body. *)
Fixpoint counter_covers (active : Z) (bodies : list TxBody) : Prop :=
  match bodies with
  | [] => True
  | body :: bodies =>
      live_input_count body ≤ active
      ∧ counter_covers (active - live_input_count body + live_output_count body) bodies
  end.

Definition body_slots (body : TxBody) : list Z := input_slots body ++ output_slots body.

Lemma m_update_app m d1 d2 : m_update m (d1 ++ d2) = m_update (m_update m d1) d2.
Proof. unfold m_update. apply foldl_app. Qed.

Lemma m_get_update_other m deltas i : i ∉ fst <$> deltas → m_get (m_update m deltas) i = m_get m i.
Proof. intros Hi. rewrite m_get_update, canonical_none by done. done. Qed.

Section bodies.
  Context {P : Poseidon2bPermutation} {C : SegmentCommitment} (height : Z) (Hheight : 0 ≤ height < 2 ^ 63).

(** Every input of the bodies matches the slot it names, every output slot is
    free: all judged against the map before the sequence. *)
Record bodies_admissible (cs : ChainState) (m : gmap Z SlotValue) (bodies : list TxBody) : Prop := {
  ba_slots : NoDup (bodies ≫= body_slots);
  ba_inputs : Forall (λ body, Forall (λ p, slot_readable cs (ti_slot_index (snd p))
    ∧ m_get m (ti_slot_index (snd p)) = input_value body (snd p)) (live_inputs body)) bodies;
  ba_outputs : Forall (λ body, Forall (λ p, slot_readable cs (to_slot_index (snd p))
    ∧ m_get m (to_slot_index (snd p)) = EMPTY) (live_outputs body)) bodies;
  ba_alloc : cs_alloc_counter cs + sum_Z (live_output_count <$> bodies) < 2 ^ 63;
  ba_counter : counter_covers (cs_active_slot_count cs) bodies;
}.

Definition apply_bodies (cs : ChainState) (bodies : list TxBody) : result (fault ApplyError) ChainState :=
  try_fold (λ cs body, apply_tx_checked_deferred_root cs body (Some height)) cs bodies.

(** What holds after the sequence. *)
Record bodies_post (cs : ChainState) (m : gmap Z SlotValue) (bodies : list TxBody) (cs' : ChainState) : Prop := {
  bp_inv : cs_inv cs' (m_update m (block_deltas (cs_alloc_counter cs) bodies height));
  bp_geometry : same_geometry (cs_state cs) (cs_state cs');
  bp_evicted : sg_evicted (cs_state cs') = sg_evicted (cs_state cs);
  bp_dirty : sg_exact_dirty (cs_state cs') ## sg_evicted (cs_state cs');
  bp_alloc : cs_alloc_counter cs' = cs_alloc_counter cs + sum_Z (live_output_count <$> bodies);
  bp_supply : supply (m_update m (block_deltas (cs_alloc_counter cs) bodies height))
    = supply m - sum_Z (input_sum <$> bodies) + sum_Z (output_sum <$> bodies);
  bp_active : cs_active_slot_count cs'
    = cs_active_slot_count cs - sum_Z (live_input_count <$> bodies) + sum_Z (live_output_count <$> bodies);
  bp_counted : counted cs m → Forall spends_live bodies →
    counted cs' (m_update m (block_deltas (cs_alloc_counter cs) bodies height));
}.

Lemma readable_same cs cs' i :
  same_geometry (cs_state cs) (cs_state cs') → sg_evicted (cs_state cs') = sg_evicted (cs_state cs) →
  slot_readable cs' i ↔ slot_readable cs i.
Proof.
  intros Hg Hev. unfold slot_readable. rewrite (same_geometry_num_slots _ _ Hg), Hev.
  by rewrite (sg_same_eff _ _ Hg).
Qed.

(** The slots of the later bodies are untouched by the first. *)
Lemma later_slots alloc body bodies m i :
  NoDup ((body :: bodies) ≫= body_slots) → i ∈ bodies ≫= body_slots →
  m_get (m_update m (tx_deltas alloc body (Some height))) i = m_get m i.
Proof.
  intros Hnd Hi. apply m_get_update_other. rewrite tx_deltas_keys.
  cbn in Hnd. apply NoDup_app in Hnd as (_ & Hdis & _). intros Hin. by apply (Hdis i).
Qed.

Lemma input_slot_in (bodies : list TxBody) body p :
  body ∈ bodies → p ∈ live_inputs body → ti_slot_index (snd p) ∈ bodies ≫= body_slots.
Proof.
  intros Hb Hp. apply list_elem_of_bind. exists body. split; [|done]. apply elem_of_app. left.
  apply list_elem_of_fmap. by exists p.
Qed.

Lemma output_slot_in (bodies : list TxBody) body p :
  body ∈ bodies → p ∈ live_outputs body → to_slot_index (snd p) ∈ bodies ≫= body_slots.
Proof.
  intros Hb Hp. apply list_elem_of_bind. exists body. split; [|done]. apply elem_of_app. right.
  apply list_elem_of_fmap. by exists p.
Qed.

(** Admissibility of the rest does not depend on whether it is judged before
    or after the first body. *)
Lemma admissible_rest cs cs1 m alloc body bodies :
  same_geometry (cs_state cs) (cs_state cs1) → sg_evicted (cs_state cs1) = sg_evicted (cs_state cs) →
  NoDup ((body :: bodies) ≫= body_slots) →
  cs_alloc_counter cs1 = cs_alloc_counter cs + live_output_count body →
  cs_active_slot_count cs1 = cs_active_slot_count cs - live_input_count body + live_output_count body →
  bodies_admissible cs1 (m_update m (tx_deltas alloc body (Some height))) bodies ↔
  NoDup (bodies ≫= body_slots)
  ∧ Forall (λ body, Forall (λ p, slot_readable cs (ti_slot_index (snd p))
       ∧ m_get m (ti_slot_index (snd p)) = input_value body (snd p)) (live_inputs body)) bodies
  ∧ Forall (λ body, Forall (λ p, slot_readable cs (to_slot_index (snd p))
       ∧ m_get m (to_slot_index (snd p)) = EMPTY) (live_outputs body)) bodies
  ∧ cs_alloc_counter cs + sum_Z (live_output_count <$> body :: bodies) < 2 ^ 63
  ∧ counter_covers (cs_active_slot_count cs - live_input_count body + live_output_count body) bodies.
Proof.
  intros Hg Hev Hnd Ha Hc. rewrite <- Hc. pose proof (λ i, readable_same cs cs1 i Hg Hev) as Hr.
  pose proof (later_slots alloc body bodies m) as Hl.
  assert (Hsum : cs_alloc_counter cs1 + sum_Z (live_output_count <$> bodies)
                 = cs_alloc_counter cs + sum_Z (live_output_count <$> body :: bodies)) by (rewrite fmap_cons, sum_Z_cons; lia).
  assert (Hin : ∀ b p, b ∈ bodies → p ∈ live_inputs b →
    m_get (m_update m (tx_deltas alloc body (Some height))) (ti_slot_index (snd p)) = m_get m (ti_slot_index (snd p))).
  { intros b p Hb Hp. apply Hl; [done|]. by eapply input_slot_in. }
  assert (Hout : ∀ b p, b ∈ bodies → p ∈ live_outputs b →
    m_get (m_update m (tx_deltas alloc body (Some height))) (to_slot_index (snd p)) = m_get m (to_slot_index (snd p))).
  { intros b p Hb Hp. apply Hl; [done|]. by eapply output_slot_in. }
  split.
  - intros [Hs Hi Ho Hal Hco]. rewrite Forall_forall in Hi, Ho. split_and!; [done| | |lia|done]; apply Forall_forall; intros b Hb.
    + specialize (Hi b Hb). rewrite Forall_forall in Hi. apply Forall_forall. intros p Hp.
      destruct (Hi p Hp) as [H1 H2]. rewrite <- Hr, <- (Hin b) by done. done.
    + specialize (Ho b Hb). rewrite Forall_forall in Ho. apply Forall_forall. intros p Hp.
      destruct (Ho p Hp) as [H1 H2]. rewrite <- Hr, <- (Hout b) by done. done.
  - intros (Hs & Hi & Ho & Hal & Hco). rewrite Forall_forall in Hi, Ho. constructor; [done| | |lia|done]; apply Forall_forall; intros b Hb.
    + specialize (Hi b Hb). rewrite Forall_forall in Hi. apply Forall_forall. intros p Hp.
      destruct (Hi p Hp) as [H1 H2]. rewrite Hr, (Hin b) by done. done.
    + specialize (Ho b Hb). rewrite Forall_forall in Ho. apply Forall_forall. intros p Hp.
      destruct (Ho p Hp) as [H1 H2]. rewrite Hr, (Hout b) by done. done.
Qed.

Lemma apply_bodies_sound bodies cs m cs' :
  cs_inv cs m → sg_exact_dirty (cs_state cs) ## sg_evicted (cs_state cs) →
  Forall TxBody_wf bodies → NoDup (bodies ≫= body_slots) →
  apply_bodies cs bodies = Ok cs' → bodies_admissible cs m bodies ∧ bodies_post cs m bodies cs'.
Proof.
  revert cs m. induction bodies as [|body bodies IH]; intros cs m Hinv Hdis Hwf Hnd Happ.
  { injection Happ as <-. split.
    - constructor; [done|constructor|constructor| |done]. cbn. pose proof (ci_alloc _ _ Hinv). lia.
    - constructor; cbn; try done; lia. }
  apply Forall_cons in Hwf as [Hb Hwf].
  unfold apply_bodies in Happ. cbn [try_fold] in Happ. apply bind_Ok in Happ as (cs1 & H1 & Happ).
  assert (Hh : height_ok (Some height)) by (by intros h [= <-]).
  destruct (apply_tx_preserves cs m body (Some height) Hinv Hb cs1 H1 Hh) as (Hinv1 & Hg1 & Hev1 & Hd1 & Ha1 & Hc1).
  pose proof (apply_tx_accepted cs m body (Some height) Hinv Hb cs1 H1) as Hacc.
  pose proof (tx_supply cs m body (Some height) Hinv Hb cs1 Hacc Hh) as Hsup.
  assert (Hnd' : NoDup (bodies ≫= body_slots)) by (cbn in Hnd; by apply NoDup_app in Hnd as (_ & _ & ?)).
  destruct (IH cs1 _ Hinv1 (Hd1 Hdis) Hwf Hnd' Happ) as [Hadm [Pinv Pg Pev Pd Pa Psup Pact Pcount]].
  apply (admissible_rest cs cs1 m (cs_alloc_counter cs) body bodies Hg1 Hev1 Hnd Ha1 Hc1) in Hadm as (_ & Hi & Ho & Hal & Hco).
  split.
  - constructor; [done|constructor; [apply Hacc|done]|constructor; [apply Hacc|done]|done|split; [apply Hacc|done]].
  - assert (Hcount : counted cs m → Forall spends_live (body :: bodies) →
      counted cs' (m_update m (block_deltas (cs_alloc_counter cs) (body :: bodies) height))).
    { intros Hc [Hl Hlive]%Forall_cons. cbn [block_deltas]. rewrite m_update_app, <- Ha1. apply Pcount; [|done].
      by apply (apply_tx_counted cs m body (Some height) Hinv Hb cs1 H1 Hl Hh). }
    rewrite Ha1 in *. rewrite <- m_update_app in *.
    constructor; rewrite ?fmap_cons, ?sum_Z_cons; [done|by transitivity (cs_state cs1)|congruence|done|..|done].
    all: cbn [block_deltas]; lia.
Qed.

Lemma apply_bodies_complete bodies cs m :
  cs_inv cs m → Forall TxBody_wf bodies →
  bodies_admissible cs m bodies → ∃ cs', apply_bodies cs bodies = Ok cs'.
Proof.
  revert cs m. induction bodies as [|body bodies IH]; intros cs m Hinv Hwf [Hnd Hi Ho Hal Hco].
  { by exists cs. }
  apply Forall_cons in Hwf as [Hb Hwf], Hi as [Hi1 Hi], Ho as [Ho1 Ho]. destruct Hco as [Hc Hco].
  pose proof Hal as Hal'. rewrite fmap_cons, sum_Z_cons in Hal'.
  assert (0 ≤ sum_Z (live_output_count <$> bodies)).
  { apply sum_Z_nonneg, Forall_fmap. eapply Forall_impl; [exact Hwf|]. intros b Hwb. unfold compose.
    rewrite live_output_count_length by done. lia. }
  assert (Hh : height_ok (Some height)) by (by intros h [= <-]).
  pose proof Hnd as Hnd1. cbn in Hnd1. apply NoDup_app in Hnd1 as (Hn1 & _ & _).
  destruct (apply_tx_complete cs m body (Some height) Hinv Hb) as [cs1 H1]; [by constructor; try lia|].
  destruct (apply_tx_preserves cs m body (Some height) Hinv Hb cs1 H1 Hh) as (Hinv1 & Hg1 & Hev1 & Hd1 & Ha1 & Hc1).
  destruct (IH cs1 _ Hinv1 Hwf) as [cs' H'].
  { apply (admissible_rest cs cs1 m (cs_alloc_counter cs) body bodies Hg1 Hev1 Hnd Ha1 Hc1).
    split_and!; [|done..]. cbn in Hnd. by apply NoDup_app in Hnd as (_ & _ & ?). }
  exists cs'. unfold apply_bodies. cbn [try_fold]. rewrite H1. exact H'.
Qed.

End bodies.

(** ** A whole block *)

Section block_application.
  Context {P : Poseidon2bPermutation} {C : SegmentCommitment}.

Lemma expand_levels_active n cs cs' :
  expand_levels n cs = Some cs' → cs_active_slot_count cs' = cs_active_slot_count cs.
Proof.
  revert cs. induction n as [|n IH]; intros cs; cbn [expand_levels]; [by intros [= ->]|].
  intros (cs1 & H1 & H')%bind_Some. by rewrite (IH _ H'), (expand_one_active _ _ H1).
Qed.

Lemma expand_levels_ok n cs m :
  cs_inv cs m → sealed cs m → (sg_log_slots (cs_state cs) + n ≤ 32)%nat →
  (n ≠ 0%nat → (sg_log_slots (cs_state cs) < LOG_SEGMENT_SIZE)%nat → 0 ∉ sg_evicted (cs_state cs)) →
  ∃ cs', expand_levels n cs = Some cs' ∧ cs_inv cs' m ∧ sealed cs' m
    ∧ sg_log_slots (cs_state cs') = (sg_log_slots (cs_state cs) + n)%nat
    ∧ sg_evicted (cs_state cs') = sg_evicted (cs_state cs)
    ∧ cs_alloc_counter cs' = cs_alloc_counter cs.
Proof.
  revert cs. induction n as [|n IH]; intros cs Hinv Hs Hlog Hev.
  { exists cs. split_and!; try done; lia. }
  destruct (expand_one_ok cs m Hinv Hs) as (cs1 & H1 & Hinv1 & Hs1 & Hl1 & Hev1 & Ha1); [lia|auto|].
  destruct (IH cs1 Hinv1 Hs1) as (cs' & H' & Hinv' & Hs' & Hl' & Hev' & Ha'); [lia| |].
  { intros _ Hlt. rewrite Hev1. apply Hev; [done|lia]. }
  exists cs'. cbn [expand_levels]. rewrite H1. split_and!; [exact H'|done|done|lia|congruence|congruence].
Qed.

Lemma apply_block_txs_Ok start height cs txs cs' :
  try_fold (apply_block_tx start height) cs (imap pair txs) = Ok cs' ↔
  Forall (λ tx, validate_body_semantics_no_hash (tx_body tx) = Ok tt) (take start txs)
  ∧ apply_bodies height cs (tx_body <$> txs) = Ok cs'.
Proof.
  revert cs'. induction txs as [|tx txs IH] using rev_ind; intros cs'.
  { cbn [imap try_fold]. rewrite take_nil. unfold apply_bodies. cbn. split.
    - intros [= ->]. split; [apply Forall_nil_2|done].
    - by intros [_ [= ->]]. }
  rewrite imap_app, try_fold_app, bind_Ok. cbn [imap try_fold]. rewrite Nat.add_0_r.
  unfold apply_bodies. rewrite fmap_app, try_fold_app, bind_Ok, take_app, Forall_app. cbn [fmap list_fmap try_fold].
  fold (apply_bodies height cs (tx_body <$> txs)).
  setoid_rewrite IH. setoid_rewrite bind_Ok. setoid_rewrite bind_Ok.
  assert (Hsys : Forall (λ tx, validate_body_semantics_no_hash (tx_body tx) = Ok tt) (take (start - length txs) [tx])
    ↔ (if decide (length txs < start)%nat
       then map_err (λ _ : PublicLogicError, Fail BA_InvalidTxBody) (validate_body_semantics_no_hash (tx_body tx))
       else Ok tt) = Ok tt).
  { case_decide as Hlt.
    - destruct (start - length txs)%nat as [|k] eqn:E; [lia|]. cbn [take]. rewrite take_nil, map_err_Ok, Forall_singleton. done.
    - replace (start - length txs)%nat with 0%nat by lia. cbn. split; [done|intros _; apply Forall_nil_2]. }
  split.
  - intros (cs1 & [Hf H1] & cs2 & Htx & Hlast). cbn in Hlast. injection Hlast as <-.
    destruct Htx as ([] & Hc & Htx).
    unfold map_fault in Htx. apply map_err_Ok in Htx. split; [split; [done|by apply Hsys]|].
    exists cs1. split; [done|]. exists cs2. done.
  - intros [[Hf Hc] (cs1 & H1 & cs2 & Htx & Hlast)]. cbn in Hlast. injection Hlast as <-.
    exists cs1. split; [done|]. exists cs2. split; [|done].
    apply Hsys in Hc. exists tt. split; [done|]. unfold map_fault. by apply map_err_Ok.
Qed.

(** A slot inside a domain of depth [log], in no evicted segment. *)
Definition reachable_slot (log : nat) (evicted : gset Z) (i : Z) : Prop :=
  0 ≤ i < 2 ^ Z.of_nat log ∧ segment_of (Nat.min log LOG_SEGMENT_SIZE) i ∉ evicted.

Lemma readable_reachable cs i :
  state_wf (cs_state cs) →
  slot_readable cs i ↔ reachable_slot (sg_log_slots (cs_state cs)) (sg_evicted (cs_state cs)) i.
Proof.
  intros Hwf. unfold slot_readable, reachable_slot, num_slots.
  by rewrite (wf_eff _ Hwf), Z.shiftl_1_l.
Qed.

Definition block_bodies (block : Block) : list TxBody := tx_body <$> bk_transactions block.

(** The slot map after a block. *)
Definition block_effect (cs : ChainState) (m : gmap Z SlotValue) (block : Block) : gmap Z SlotValue :=
  m_update m (block_deltas (cs_alloc_counter cs) (block_bodies block) (bh_height (bk_header block))).

(** The blocks that extend a state: every slot is judged against the map before
    the block, without reference to the order of the checks; only the live-slot
    counter is followed from one transaction to the next. *)
Record block_admissible (cs : ChainState) (m : gmap Z SlotValue) (block : Block) : Prop := {
  bk_count : Z.of_nat (length (bk_transactions block)) ≤ BLOCK_MAX_TXS;
  bk_stream : ∃ coinbase dev users user_class class gs,
    valid_block_stream (bk_transactions block) V1 coinbase dev users user_class class gs
    ∧ Forall (λ tx, canonical_body (tx_body tx)) (coinbase :: dev);
  bk_slots : NoDup (block_bodies block ≫= body_slots);
  bk_inputs : Forall (λ body, Forall (λ p,
    reachable_slot (Z.to_nat (bh_log_slots (bk_header block))) (sg_evicted (cs_state cs)) (ti_slot_index (snd p))
    ∧ m_get m (ti_slot_index (snd p)) = input_value body (snd p)) (live_inputs body)) (block_bodies block);
  bk_outputs : Forall (λ body, Forall (λ p,
    reachable_slot (Z.to_nat (bh_log_slots (bk_header block))) (sg_evicted (cs_state cs)) (to_slot_index (snd p))
    ∧ m_get m (to_slot_index (snd p)) = EMPTY) (live_outputs body)) (block_bodies block);
  bk_ids : bh_alloc_counter (bk_header block) < 2 ^ 63;
  bk_root : bh_state_root (bk_header block)
    = exact_root (Z.to_nat (bh_log_slots (bk_header block))) (m_get (block_effect cs m block));
  bk_counter : counter_covers (cs_active_slot_count cs) (block_bodies block);
  bk_active : bh_active_slot_count (bk_header block)
    = cs_active_slot_count cs - sum_Z (live_input_count <$> block_bodies block)
      + sum_Z (live_output_count <$> block_bodies block);
  bk_alloc : bh_alloc_counter (bk_header block)
    = cs_alloc_counter cs + sum_Z (live_output_count <$> block_bodies block);
  bk_log : Z.of_nat (sg_log_slots (cs_state cs)) ≤ bh_log_slots (bk_header block);
  bk_tx_root : try_compute_tx_root (bk_transactions block) = Ok (bh_tx_root (bk_header block));
}.

(** Everything that holds after the block. *)
Record block_post (cs : ChainState) (m : gmap Z SlotValue) (block : Block) (cs' : ChainState) : Prop := {
  bq_inv : cs_inv cs' (block_effect cs m block);
  bq_sealed : sealed cs' (block_effect cs m block);
  bq_log : sg_log_slots (cs_state cs') = Z.to_nat (bh_log_slots (bk_header block));
  bq_evicted : sg_evicted (cs_state cs') = sg_evicted (cs_state cs);
  bq_alloc : cs_alloc_counter cs' = bh_alloc_counter (bk_header block);
  bq_supply : cs_circulating_supply cs' = cs_circulating_supply cs
    - sum_Z (input_sum <$> block_bodies block) + sum_Z (output_sum <$> block_bodies block);
  bq_active : cs_active_slot_count cs' = bh_active_slot_count (bk_header block);
  bq_counted : counted cs m → Forall spends_live (block_bodies block) → counted cs' (block_effect cs m block);
}.

Lemma system_no_inputs body :
  is_primary_coinbase_shape body = true ∨ is_development_payout_shape body = true →
  live_input_count body = 0.
Proof.
  unfold is_primary_coinbase_shape, is_development_payout_shape, live_input_count.
  intros [[_ ->%Z.eqb_eq]%andb_true_iff|[_ ->%Z.eqb_eq]%andb_true_iff]; by vm_compute.
Qed.

Lemma system_inputs_ok coinbase dev users :
  is_primary_coinbase_shape (tx_body coinbase) = true →
  Forall (λ tx, is_development_payout_shape (tx_body tx) = true) dev →
  check_system_inputs (take (1 + length dev) (coinbase :: dev ++ users)) = Ok tt.
Proof.
  intros Hc Hd. cbn [Nat.add take]. rewrite take_app_length. apply try_for_each_Ok. constructor.
  - by rewrite system_no_inputs by auto.
  - eapply Forall_impl; [exact Hd|]. intros tx Htx. by rewrite system_no_inputs by auto.
Qed.

Lemma wf_dirty_evicted_sealed cs m : sealed cs m → sg_exact_dirty (cs_state cs) ## sg_evicted (cs_state cs).
Proof. intros [-> _]. set_solver. Qed.

Section one_block.
  Context (cs : ChainState) (m : gmap Z SlotValue) (block : Block)
    (Hinv : cs_inv cs m) (Hsealed : sealed cs m)
    (Hwf : Forall tx_wf (bk_transactions block))
    (Hheight : 0 ≤ bh_height (bk_header block) < 2 ^ 63) (H32 : 0 ≤ bh_log_slots (bk_header block) ≤ 32)
    (Hresident : (sg_log_slots (cs_state cs) < LOG_SEGMENT_SIZE)%nat → 0 ∉ sg_evicted (cs_state cs)).

Let levels : nat := Z.to_nat (bh_log_slots (bk_header block) - Z.of_nat (sg_log_slots (cs_state cs))).

Lemma expanded : ∃ cs1, expand_levels levels cs = Some cs1 ∧ cs_inv cs1 m ∧ sealed cs1 m
  ∧ sg_log_slots (cs_state cs1) = (sg_log_slots (cs_state cs) + levels)%nat
  ∧ sg_evicted (cs_state cs1) = sg_evicted (cs_state cs) ∧ cs_alloc_counter cs1 = cs_alloc_counter cs.
Proof.
  pose proof (wf_log _ (ci_wf _ _ Hinv)). apply expand_levels_ok; [done|done|unfold levels; lia|].
  intros _. apply Hresident.
Qed.

Lemma bodies_wf : Forall TxBody_wf (block_bodies block).
Proof. apply Forall_fmap. exact Hwf. Qed.

(** Admissibility at the expanded state, in terms of the parent. *)
Lemma admissible_expanded cs1 :
  cs_inv cs1 m → sg_evicted (cs_state cs1) = sg_evicted (cs_state cs) →
  cs_alloc_counter cs1 = cs_alloc_counter cs → cs_active_slot_count cs1 = cs_active_slot_count cs →
  sg_log_slots (cs_state cs1) = Z.to_nat (bh_log_slots (bk_header block)) →
  bodies_admissible cs1 m (block_bodies block) ↔
  NoDup (block_bodies block ≫= body_slots)
  ∧ Forall (λ body, Forall (λ p,
      reachable_slot (Z.to_nat (bh_log_slots (bk_header block))) (sg_evicted (cs_state cs)) (ti_slot_index (snd p))
      ∧ m_get m (ti_slot_index (snd p)) = input_value body (snd p)) (live_inputs body)) (block_bodies block)
  ∧ Forall (λ body, Forall (λ p,
      reachable_slot (Z.to_nat (bh_log_slots (bk_header block))) (sg_evicted (cs_state cs)) (to_slot_index (snd p))
      ∧ m_get m (to_slot_index (snd p)) = EMPTY) (live_outputs body)) (block_bodies block)
  ∧ cs_alloc_counter cs + sum_Z (live_output_count <$> block_bodies block) < 2 ^ 63
  ∧ counter_covers (cs_active_slot_count cs) (block_bodies block).
Proof.
  intros Hinv1 Hev Ha Hact Hlog. pose proof (λ i, readable_reachable cs1 i (ci_wf _ _ Hinv1)) as Hr.
  rewrite Hev, Hlog in Hr.
  split.
  - intros [Hs Hi Ho Hal Hco]. rewrite Ha in Hal. rewrite Hact in Hco. split_and!; [done| | |done|done].
    + eapply Forall_impl; [exact Hi|]. intros b Hb. eapply Forall_impl; [exact Hb|]. intros p [H1 H2]. split; [by apply Hr|done].
    + eapply Forall_impl; [exact Ho|]. intros b Hb. eapply Forall_impl; [exact Hb|]. intros p [H1 H2]. split; [by apply Hr|done].
  - intros (Hs & Hi & Ho & Hal & Hco). constructor; [done| | |by rewrite Ha|by rewrite Hact].
    + eapply Forall_impl; [exact Hi|]. intros b Hb. eapply Forall_impl; [exact Hb|]. intros p [H1 H2]. split; [by apply Hr|done].
    + eapply Forall_impl; [exact Ho|]. intros b Hb. eapply Forall_impl; [exact Hb|]. intros p [H1 H2]. split; [by apply Hr|done].
Qed.

Lemma slot_conflicts_bodies :
  validate_block_slot_conflicts (bk_transactions block) = Ok tt ↔ NoDup (block_bodies block ≫= body_slots).
Proof. rewrite slot_conflicts_Ok. unfold block_bodies. rewrite list_fmap_bind. done. Qed.

(** The state after the transactions and the root refresh. *)
Lemma bodies_sealed cs1 cs2 :
  cs_inv cs1 m → sealed cs1 m → cs_alloc_counter cs1 = cs_alloc_counter cs →
  cs_active_slot_count cs1 = cs_active_slot_count cs →
  NoDup (block_bodies block ≫= body_slots) →
  apply_bodies (bh_height (bk_header block)) cs1 (block_bodies block) = Ok cs2 →
  bodies_admissible cs1 m (block_bodies block) ∧
  ∃ cs3, try_state_root cs2
      = Ok (exact_root (sg_log_slots (cs_state cs1)) (m_get (block_effect cs m block)), cs3)
    ∧ cs_inv cs3 (block_effect cs m block) ∧ sealed cs3 (block_effect cs m block)
    ∧ sg_log_slots (cs_state cs3) = sg_log_slots (cs_state cs1)
    ∧ sg_evicted (cs_state cs3) = sg_evicted (cs_state cs1)
    ∧ cs_alloc_counter cs3 = cs_alloc_counter cs + sum_Z (live_output_count <$> block_bodies block)
    ∧ cs_circulating_supply cs3 = cs_circulating_supply cs
        - sum_Z (input_sum <$> block_bodies block) + sum_Z (output_sum <$> block_bodies block)
    ∧ cs_active_slot_count cs3 = cs_active_slot_count cs - sum_Z (live_input_count <$> block_bodies block)
        + sum_Z (live_output_count <$> block_bodies block)
    ∧ (counted cs m → Forall spends_live (block_bodies block) → counted cs3 (block_effect cs m block)).
Proof.
  intros Hinv1 Hs1 Ha Hact Hnd Happ.
  destruct (apply_bodies_sound _ Hheight _ cs1 m cs2 Hinv1 (wf_dirty_evicted_sealed _ _ Hs1) bodies_wf Hnd Happ)
    as [Hadm [Pinv Pg Pev Pd Pa Psup Pact Pcount]]. split; [done|].
  rewrite Ha in *. fold (block_effect cs m block) in *.
  destruct (try_state_root_ok cs2 _ Pinv Pd) as (cs3 & Hr & Hinv3 & Hs3 & Hg3 & Hev3 & Ha3).
  exists cs3. rewrite Hr, (sg_same_log _ _ Pg). split_and!; try done.
  - by rewrite (sg_same_log _ _ Hg3), (sg_same_log _ _ Pg).
  - congruence.
  - congruence.
  - rewrite (ci_supply _ _ Hinv3), Psup. by rewrite (ci_supply _ _ Hinv).
  - by rewrite (try_state_root_active _ _ _ Hr), Pact, Hact.
  - unfold counted in *. rewrite (try_state_root_active _ _ _ Hr). intros Hc. apply Pcount. by rewrite Hact.
Qed.

Lemma apply_block_sound root cs' :
  apply_block cs block = Ok (root, cs') →
  root = bh_state_root (bk_header block) ∧ block_admissible cs m block ∧ block_post cs m block cs'.
Proof.
  unfold apply_block. rewrite if_err_Ok. intros [Hcount H]. apply Z.ltb_ge in Hcount.
  apply bind_Ok in H as (stream & Hst & H). apply map_err_Ok in Hst.
  apply bind_unit_Ok in H as [Hconf H]. apply map_err_Ok, slot_conflicts_bodies in Hconf.
  apply bind_unit_Ok in H as [_ H].
  destruct expanded as (cs1 & Hex & Hinv1 & Hs1 & Hl1 & Hev1 & Ha1). fold levels in H. rewrite Hex in H.
  cbn [expect ok_or mbind result_bind] in H.
  apply bind_Ok in H as (cs2 & Htxs & H). apply apply_block_txs_Ok in Htxs as [Hsys Happ].
  pose proof (expand_levels_active _ _ _ Hex) as Hact1.
  destruct (bodies_sealed cs1 cs2 Hinv1 Hs1 Ha1 Hact1 Hconf Happ)
    as (Hadm & cs3 & Hr & Hinv3 & Hs3 & Hl3 & Hev3 & Ha3 & Hsup3 & Hact3 & Hcount3).
  rewrite Hr in H. cbn [map_fault map_err mbind result_bind] in H. rewrite !if_err_Ok in H.
  destruct H as (Hroot & Hact & Halloc & Hlog & H). apply bool_decide_eq_false, dec_stable in Hroot, Hact, Halloc, Hlog.
  apply bind_Ok in H as (tx_root & Htr & H). apply map_err_Ok in Htr. rewrite if_err_Ok in H.
  destruct H as [Htxr H]. apply bool_decide_eq_false, dec_stable in Htxr. injection H as <- <-.
  assert (Hl : sg_log_slots (cs_state cs1) = Z.to_nat (bh_log_slots (bk_header block))) by lia.
  apply (admissible_expanded cs1 Hinv1 Hev1 Ha1 Hact1 Hl) in Hadm as (_ & Hi & Ho & Hal & Hco).
  apply validate_block_stream_valid in Hst as (coinbase & dev & users & uc & c & gs & Hv & ->); [|done].
  split_and!.
  - destruct Hs3 as [_ ->]. rewrite Hl3. by rewrite Hroot, Hl.
  - constructor; try done; [|lia|by rewrite Hroot, Hl|lia|lia|lia|by rewrite Htxr].
    exists coinbase, dev, users, uc, c, gs. split; [done|].
    rewrite (vb_layout _ _ _ _ _ _ _ _ Hv) in Hsys. cbn [bf_user_start_index block_stream_facts Nat.add take] in Hsys.
    rewrite take_app_length in Hsys. rewrite Forall_forall in Hsys, Hwf. apply Forall_forall. intros tx Htx.
    apply validate_canonical; [|by apply Hsys]. apply Hwf. rewrite (vb_layout _ _ _ _ _ _ _ _ Hv).
    set_solver.
  - constructor; [done|done|congruence|congruence|lia|done|lia|done].
Qed.

Lemma apply_block_complete :
  block_admissible cs m block →
  ∃ cs', apply_block cs block = Ok (bh_state_root (bk_header block), cs').
Proof.
  intros [Hcount (coinbase & dev & users & uc & c & gs & Hv & Hcan) Hnd Hi Ho Hids Hroot Hco Hact Halloc Hlog Htxr].
  destruct expanded as (cs1 & Hex & Hinv1 & Hs1 & Hl1 & Hev1 & Ha1).
  assert (Hl : sg_log_slots (cs_state cs1) = Z.to_nat (bh_log_slots (bk_header block))) by (unfold levels in Hl1; lia).
  pose proof (expand_levels_active _ _ _ Hex) as Hact1.
  assert (Hadm : bodies_admissible cs1 m (block_bodies block)).
  { apply (admissible_expanded cs1 Hinv1 Hev1 Ha1 Hact1 Hl). split_and!; try done. lia. }
  destruct (apply_bodies_complete _ Hheight _ cs1 m Hinv1 bodies_wf Hadm) as [cs2 Happ].
  destruct (bodies_sealed cs1 cs2 Hinv1 Hs1 Ha1 Hact1 Hnd Happ)
    as (_ & cs3 & Hr & Hinv3 & Hs3 & Hl3 & Hev3 & Ha3 & Hsup3 & Hact3 & _).
  exists cs3. unfold apply_block. rewrite (proj2 (Z.ltb_ge _ _) Hcount).
  assert (Hst : validate_block_page_stream (bk_transactions block) = Ok (block_stream_facts c dev users gs)).
  { apply validate_block_stream_valid; [done|]. by exists coinbase, dev, users, uc, c, gs. }
  rewrite Hst. cbn [map_err mbind result_bind].
  rewrite (proj2 slot_conflicts_bodies Hnd). cbn [map_err mbind result_bind bf_user_start_index block_stream_facts].
  pose proof (vb_layout _ _ _ _ _ _ _ _ Hv) as Hlay. destruct (vb_dev _ _ _ _ _ _ _ _ Hv) as [_ Hdev].
  rewrite Hlay at 1. rewrite system_inputs_ok by (done || apply Hv). cbn [mbind result_bind].
  fold levels. rewrite Hex. cbn [expect ok_or mbind result_bind].
  rewrite (proj2 (apply_block_txs_Ok _ _ cs1 (bk_transactions block) cs2)).
  2:{ split; [|done]. rewrite Hlay. cbn [Nat.add take]. rewrite take_app_length.
      rewrite Forall_forall in Hcan, Hwf. apply Forall_forall. intros tx Htx. apply validate_canonical; [|by apply Hcan].
      apply Hwf. rewrite Hlay. set_solver. }
  cbn [mbind result_bind]. rewrite Hr. cbn [map_fault map_err mbind result_bind].
  rewrite !bool_decide_false by (intros Hne; apply Hne; congruence || lia).
  rewrite Htxr. cbn [map_fault map_err mbind result_bind]. rewrite bool_decide_false by auto.
  destruct Hs3 as [_ ->]. by rewrite Hl3, Hl, Hroot.
Qed.

End one_block.

End block_application.

(** C27: Applying a block.  The state satisfies the invariant with a sealed root,
    and its first segment is in memory while the domain is smaller than one
    segment; the height is below [2^63] and the stated depth at most 32.  A block
    of well-typed transactions is then accepted exactly when it is admissible: its
    records form a canonical stream, all live slots of the block are pairwise
    distinct and readable, every input matches the slot it names in the map before
    the block, every output slot is free in that map, the live-slot counter covers
    the inputs of each transaction in turn, and the header states the reference
    root of the resulting map, the live-slot and allocation counters, the slot
    depth and the transaction root.  The new state then represents the map with
    all inputs erased and all outputs minted, with the invariant and a sealed
    root, the header's counters and depth, and the supply changed by the block's
    sums; an exact live-slot counter stays exact unless an input is all zero.
    Otherwise no state is produced. *)
Theorem apply_block_exact {P : Poseidon2bPermutation} {C : SegmentCommitment}
    (cs : ChainState) (m : gmap Z SlotValue) (block : Block)
    (Hinv : cs_inv cs m) (Hsealed : sealed cs m)
    (Hwf : Forall tx_wf (bk_transactions block))
    (Hheight : 0 ≤ bh_height (bk_header block) < 2 ^ 63) (H32 : 0 ≤ bh_log_slots (bk_header block) ≤ 32)
    (Hresident : (sg_log_slots (cs_state cs) < LOG_SEGMENT_SIZE)%nat → 0 ∉ sg_evicted (cs_state cs)) :
  (block_admissible cs m block → ∃ cs',
     apply_block cs block = Ok (bh_state_root (bk_header block), cs') ∧ block_post cs m block cs')
  ∧ (~ block_admissible cs m block → ∀ r, apply_block cs block ≠ Ok r).
Proof.
  split.
  - intros Hadm. destruct (apply_block_complete cs m block) as [cs' Hok]; try done.
    exists cs'. split; [done|]. by eapply apply_block_sound.
  - intros Hna [root cs'] Hok. apply Hna. by eapply apply_block_sound.
Qed.

(** A block with a single coinbase record, for a state of depth four. *)
Definition example_block_body : TxBody :=
  mkTxBody zero_digest 0 zero_digest (replicate 8 TxInput_dummy)
    [mkTxOutput 3 5000 (replicate 32 9); TxOutput_dummy] 0x100 true.

Definition example_block : Block :=
  let txs := [mkTransaction example_block_body] in
  let slots := m_update ∅ (block_deltas 0 [example_block_body] 1) in
  mkBlock (mkBlockHeader zero_digest (exact_root (P := example_permutation) 4 (m_get slots))
             (default zero_digest (compute_tx_root (P := example_permutation) txs)) 1 1 zero_digest 0
             zero_digest 4 1 1) txs [].

Lemma apply_block_exact_witness :
  ∃ cs cs' root, with_log_slots (P := example_permutation) (C := example_commitment) 4 = Some cs
    ∧ apply_block (P := example_permutation) (C := example_commitment) cs example_block = Ok (root, cs')
    ∧ cs_circulating_supply cs' = 5000.
Proof.
  destruct (with_log_slots_ok (P := example_permutation) (C := example_commitment) 4)
    as (cs & Hcs & Hinv & Hsealed & Hlog & Hev & Halloc & _); [lia|].
  destruct (apply_block_exact (P := example_permutation) (C := example_commitment) cs ∅ example_block Hinv Hsealed)
    as [Hok _].
  - apply (bool_decide_unpack (Forall tx_wf (bk_transactions example_block))). vm_compute. exact I.
  - cbn. lia.
  - cbn. lia.
  - intros _. rewrite Hev. set_solver.
  - pose proof (ci_active _ _ Hinv) as Hzero. rewrite map_size_empty in Hzero.
    assert (Hz : cs_active_slot_count cs = 0) by lia.
    destruct Hok as (cs' & Happ & [_ _ _ _ _ Hsup _ _]).
    { constructor.
      - by apply Z.leb_le.
      - exists (mkTransaction example_block_body), [], [], B25, B25, []. split; [constructor; try done|].
        + by repeat constructor.
        + by repeat constructor.
        + constructor; [|constructor]. apply validate_canonical.
          * apply (bool_decide_unpack (TxBody_wf example_block_body)). vm_compute. exact I.
          * vm_compute. done.
      - apply (bool_decide_unpack (NoDup (block_bodies example_block ≫= body_slots))). vm_compute. exact I.
      - repeat constructor.
      - repeat constructor; cbn; try lia. rewrite Hev. set_solver.
      - cbn. lia.
      - unfold block_effect. rewrite Halloc. done.
      - rewrite Hz. vm_compute. done.
      - rewrite Hz. vm_compute. done.
      - rewrite Halloc. vm_compute. done.
      - rewrite Hlog. cbn. lia.
      - vm_compute. done. }
    exists cs, cs'. eexists. split_and!; [done|exact Happ|]. rewrite Hsup, (ci_supply _ _ Hinv). vm_compute. done.
Defined.
