(* ===== verification/Reorg.v ===== *)
(** * Reversing a block

    The rollback of one block in a reorganisation: [revert_height] is the body
    of the loop over the reverted heights in
    [storage/mdbx_context.rs::apply_reorg_mdbx_with_objects], with the undo log
    and the parent header it reads from the store as arguments.  Applying a
    block and reversing it with the undo log built from the parent state
    restores the parent state: its map, root, counters, supply and depth. *)

From S2P Require Import Prelude Machine Params Poseidon TxTypes PagedSpend BlockStream SlotState SlotInv SlotProps SparseRoot SparseRootProofs ChainState ChainStateInv BlockHeader TxTree ClientObjects Consensus Block BlockProps.

Lemma filter_Forall {A} (Q : A → Prop) `{∀ x, Decision (Q x)} (l : list A) : Forall Q l → filter Q l = l.
Proof. induction 1 as [|x l Hx Hl IH]; [done|]. rewrite filter_cons_True by done. by rewrite IH. Qed.

Section reorg.
  Context {P : Poseidon2bPermutation} {C : SegmentCommitment}.

Inductive ReorgError :=
  | RG_SupplyRollbackFailed
  | RG_ShrinkFailed
  | RG_RootRebuildFailed
  | RG_ParentStateMismatch.

Definition revert_height (state : ChainState) (undo : BlockUndoLog) (parent_header : BlockHeader) :
    result (fault ReorgError) ChainState :=
  state ← map_fault (λ _, RG_SupplyRollbackFailed) (revert_block state undo);
  st ← map_fault (λ _, RG_ShrinkFailed)
         (shrink_to_log_slots (cs_state state) (Z.to_nat (ul_log_slots_before undo)));
  let state := mkChainState st (cs_utxo_root state) (cs_active_slot_count state) (cs_alloc_counter state)
                 (cs_circulating_supply state) (cs_exact_roots state) in
  let state := restore_state_counters state undo in
  '(_, state) ← map_fault (λ _, RG_RootRebuildFailed) (try_state_root state);
  if bool_decide (ul_log_slots_before undo ≠ bh_log_slots parent_header)
     || bool_decide (Z.of_nat (sg_log_slots (cs_state state)) ≠ bh_log_slots parent_header)
     || bool_decide (cs_utxo_root state ≠ bh_state_root parent_header)
     || bool_decide (cs_active_slot_count state ≠ bh_active_slot_count parent_header)
     || bool_decide (cs_alloc_counter state ≠ bh_alloc_counter parent_header)
  then Err (Fail RG_ParentStateMismatch)
  else Ok state.

(** ** The undo log *)

(** The recorded changes of a list of slots: their values before the block. *)
Definition recorded (m : gmap Z SlotValue) (slots : list Z) : list (Z * SlotValue) :=
  (λ i, (i, m_get m i)) <$> slots.

Definition undo_at (m : gmap Z SlotValue) (slots : list Z) : undo_acc :=
  (list_to_set slots, recorded m slots).

Lemma undo_at_snoc m slots i :
  ({[i]} ∪ list_to_set slots, recorded m slots ++ [(i, m_get m i)]) = undo_at m (slots ++ [i]).
Proof.
  unfold undo_at, recorded. rewrite fmap_app, list_to_set_app_L. f_equal.
  cbn. rewrite union_empty_r_L. apply (comm_L (∪)).
Qed.

Lemma undo_fold {A} (m : gmap Z SlotValue) (f : undo_acc → A → option undo_acc) (key : A → Z) l slots :
  (∀ a slots, a ∈ l → key a ∉ slots → f (undo_at m slots) a = Some (undo_at m (slots ++ [key a]))) →
  NoDup (slots ++ (key <$> l)) →
  foldl (λ acc p, acc ← acc; f acc p) (Some (undo_at m slots)) l = Some (undo_at m (slots ++ (key <$> l))).
Proof.
  revert slots. induction l as [|a l IH]; intros slots Hf Hnd.
  { cbn. by rewrite app_nil_r. }
  rewrite foldl_cons_eq. cbn [mbind option_bind]. rewrite fmap_cons in *.
  rewrite Hf; [|by left|].
  - rewrite IH.
    + by rewrite <- app_assoc.
    + intros b slots' Hb. apply Hf. by right.
    + by rewrite <- app_assoc.
  - apply NoDup_app in Hnd as (_ & Hd & _). intros Hin. apply (Hd _ Hin). by left.
Qed.

Section build.
  Context (cs : ChainState) (m : gmap Z SlotValue) (child_log : Z) (Hinv : cs_inv cs m)
    (Hchild : child_log = Z.of_nat (sg_log_slots (cs_state cs))
      ∨ child_log = Z.of_nat (sg_log_slots (cs_state cs)) + 1) (H32 : child_log ≤ 32).

(** A slot the log can record. *)
Definition recordable (i : Z) : Prop :=
  0 ≤ i < 2 ^ child_log
  ∧ (i < num_slots (cs_state cs) → segment_of (sg_effective_log_seg (cs_state cs)) i ∉ sg_evicted (cs_state cs)).

Lemma outside_empty i : num_slots (cs_state cs) ≤ i → m_get m i = EMPTY.
Proof.
  intros Hi. unfold m_get. destruct (m !! i) as [v|] eqn:E; [|done].
  apply (rep_dom _ _ (ci_rep _ _ Hinv)) in E. lia.
Qed.

Lemma undo_input_at p slots :
  ti_slot_index (snd p) ∉ slots → recordable (ti_slot_index (snd p)) →
  ti_slot_index (snd p) < num_slots (cs_state cs) →
  undo_input cs (undo_at m slots) p = Some (undo_at m (slots ++ [ti_slot_index (snd p)])).
Proof.
  intros Hi [Hr Hev] Hlt. unfold undo_input, undo_at at 1. cbn zeta.
  rewrite (proj2 (Z.ltb_lt _ _) Hlt), bool_decide_false by (by rewrite elem_of_list_to_set).
  cbn [negb andb]. rewrite (rep_slot _ _ (ci_rep _ _ Hinv)) by (lia || auto). cbn [mbind option_bind].
  by rewrite undo_at_snoc.
Qed.

Lemma undo_output_at p slots :
  to_slot_index (snd p) ∉ slots → recordable (to_slot_index (snd p)) →
  undo_output cs child_log (undo_at m slots) p = Some (undo_at m (slots ++ [to_slot_index (snd p)])).
Proof.
  intros Hi [Hr Hev]. unfold undo_output, undo_at at 1. cbn zeta.
  rewrite bool_decide_false by (by rewrite elem_of_list_to_set).
  destruct (Z.ltb_spec (to_slot_index (snd p)) (num_slots (cs_state cs))) as [Hlt|Hge].
  - rewrite (rep_slot _ _ (ci_rep _ _ Hinv)) by (lia || auto). cbn [mbind option_bind]. by rewrite undo_at_snoc.
  - rewrite <- (outside_empty _ Hge). rewrite (proj2 (Z.ltb_lt _ _)); [by rewrite undo_at_snoc|].
    pose proof (wf_log _ (ci_wf _ _ Hinv)) as Hlog. unfold saturating_add, num_slots in *.
    rewrite Z.shiftl_1_l in *. rewrite Z.min_l by (unfold uint_max; lia).
    destruct Hchild as [->| ->]; [lia|]. rewrite Z.eqb_refl. unfold checked_mul.
    assert (Hp : 2 ^ (Z.of_nat (sg_log_slots (cs_state cs)) + 1) = 2 ^ Z.of_nat (sg_log_slots (cs_state cs)) * 2)
      by (rewrite Z.pow_add_r by lia; done).
    assert (2 ^ Z.of_nat (sg_log_slots (cs_state cs)) ≤ 2 ^ 32) by (apply Z.pow_le_mono_r; lia).
    rewrite (proj2 (Z.ltb_lt _ _)) by lia. cbn [default from_option id]. lia.
Qed.

(** An input beyond the parent's domain is not recorded: its slot is empty there. *)
Definition undo_slots (tx : Transaction) : list Z :=
  filter (λ i, i < num_slots (cs_state cs)) (input_slots (tx_body tx)) ++ output_slots (tx_body tx).

Lemma undo_slots_sublist tx : undo_slots tx `sublist_of` tx_slots tx.
Proof. apply sublist_app; [apply sublist_filter|done]. Qed.

Lemma undo_inputs_at l slots :
  Forall recordable ((λ p, ti_slot_index (snd p)) <$> l) → NoDup (slots ++ ((λ p, ti_slot_index (snd p)) <$> l)) →
  foldl (λ acc p, acc ← acc; undo_input cs acc p) (Some (undo_at m slots)) l
  = Some (undo_at m (slots ++ filter (λ i, i < num_slots (cs_state cs)) ((λ p, ti_slot_index (snd p)) <$> l))).
Proof.
  revert slots. induction l as [|p l IH]; intros slots Hr Hnd.
  { cbn. by rewrite app_nil_r. }
  rewrite foldl_cons_eq. cbn [mbind option_bind]. rewrite fmap_cons in *. apply Forall_cons in Hr as [Hr1 Hr].
  assert (Hni : ti_slot_index (snd p) ∉ slots).
  { apply NoDup_app in Hnd as (_ & Hd & _). intros Hin. apply (Hd _ Hin). by left. }
  destruct (decide (ti_slot_index (snd p) < num_slots (cs_state cs))) as [Hlt|Hge].
  - rewrite undo_input_at, filter_cons_True by done. rewrite IH; [by rewrite <- app_assoc|done|by rewrite <- app_assoc].
  - assert (Hskip : undo_input cs (undo_at m slots) p = Some (undo_at m slots)).
    { unfold undo_input, undo_at. by rewrite (proj2 (Z.ltb_ge _ _)) by lia. }
    rewrite Hskip, filter_cons_False by done. apply IH; [done|].
    eapply sublist_NoDup; [exact Hnd|]. apply sublist_app; [done|by constructor].
Qed.

Lemma undo_tx_at tx slots :
  NoDup (slots ++ tx_slots tx) → Forall recordable (tx_slots tx) →
  undo_tx cs child_log (Some (undo_at m slots)) tx = Some (undo_at m (slots ++ undo_slots tx)).
Proof.
  intros Hnd [Hri Hro]%Forall_app. rewrite Forall_forall in Hro. unfold undo_tx, tx_slots, undo_slots in *.
  cbn [mbind option_bind]. rewrite app_assoc in *. rewrite undo_inputs_at by (done || by apply NoDup_app in Hnd as (? & _ & _)).
  cbn [mbind option_bind]. apply (undo_fold m _ (λ p, to_slot_index (snd p))).
  - intros p slots' Hp Hin. apply undo_output_at; [done|]. apply Hro. apply list_elem_of_fmap. by exists p.
  - eapply sublist_NoDup; [exact Hnd|]. apply sublist_app; [|done]. apply sublist_app; [done|apply sublist_filter].
Qed.

Lemma undo_txs_at txs slots :
  NoDup (slots ++ (txs ≫= tx_slots)) → Forall recordable (txs ≫= tx_slots) →
  foldl (undo_tx cs child_log) (Some (undo_at m slots)) txs = Some (undo_at m (slots ++ (txs ≫= undo_slots))).
Proof.
  revert slots. induction txs as [|tx txs IH]; intros slots Hnd Hr.
  { cbn. by rewrite app_nil_r. }
  rewrite foldl_cons_eq.
  change ((tx :: txs) ≫= tx_slots) with (tx_slots tx ++ (txs ≫= tx_slots)) in *.
  change ((tx :: txs) ≫= undo_slots) with (undo_slots tx ++ (txs ≫= undo_slots)).
  apply Forall_app in Hr as [Hr1 Hr]. rewrite app_assoc in *.
  rewrite undo_tx_at; [|by apply NoDup_app in Hnd as (? & _ & _)|done]. apply IH; [|done].
  eapply sublist_NoDup; [exact Hnd|]. apply sublist_app; [|done]. apply sublist_app; [done|apply undo_slots_sublist].
Qed.

Lemma undo_slots_bind txs : (txs ≫= undo_slots) `sublist_of` (txs ≫= tx_slots).
Proof.
  induction txs as [|tx txs IH]; [done|]. cbn [mbind list_bind]. apply sublist_app; [apply undo_slots_sublist|exact IH].
Qed.

End build.

(** ** Shrinking with a cached root *)

Lemma vec_shrunk_index st k s :
  state_wf st → sg_log_slots st = S k → (LOG_SEGMENT_SIZE ≤ k)%nat →
  s < Z.of_nat (2 ^ (k - LOG_SEGMENT_SIZE)) → s < Z.of_nat (sg_num_segments st / 2).
Proof.
  intros Hwf Hlog Hk Hs. rewrite (wf_num _ Hwf), (wf_eff _ Hwf), Hlog, Nat.min_r by lia.
  replace (S k - LOG_SEGMENT_SIZE)%nat with (S (k - LOG_SEGMENT_SIZE)) by lia.
  rewrite Nat.pow_succ_r', Nat.mul_comm, Nat.div_mul by lia. done.
Qed.

Lemma shrink_one_level cs m k st1 :
  state_wf (cs_state cs) → represents (cs_state cs) m → cache_current cs m →
  sg_evicted (cs_state cs) = ∅ → sg_log_slots (cs_state cs) = S k → (1 ≤ k)%nat → empty_from k m →
  st1 = cs_state cs →
  ∃ st', shrink_to_log_slots st1 k = Ok st' ∧ state_wf st' ∧ represents st' m
    ∧ sg_log_slots st' = k ∧ sg_evicted st' = ∅
    ∧ ∀ root active alloc sup,
        cache_current (mkChainState st' root active alloc sup (cache_shrink_one (cs_exact_roots cs))) m.
Proof.
  intros Hwf Hrep [Hcl (roots & Hc & Hroots)] Hev Hlog Hk He ->.
  unfold shrink_to_log_slots. rewrite Hlog, !bool_decide_false by lia. cbn [orb].
  replace (S k - k)%nat with 1%nat by lia. cbn [shrink_loop].
  destruct (flush_all_dirty_total (cs_state cs) Hwf) as [st1 H1]; [rewrite Hev; set_solver|].
  destruct (flush_all_dirty_inv _ _ Hwf H1) as (Hwf1 & Hss1 & _). rewrite H1. cbn [expect ok_or mbind result_bind].
  apply (same_slots_represents _ _ _ Hss1) in Hrep as Hrep1.
  pose proof (sg_same_log _ _ (ss_geometry _ _ Hss1)) as Hl1. rewrite Hlog in Hl1.
  pose proof (ss_evicted _ _ Hss1) as Hev1. rewrite Hev in Hev1.
  destruct (cache_shrink_one_ok _ _ Hc) as [Hc' Hcl']; [lia|]. rewrite Hcl, Hlog in Hc', Hcl'.
  replace (S k - 1)%nat with k in * by lia.
  rewrite Hl1. destruct (decide (S k ≤ LOG_SEGMENT_SIZE)%nat) as [Hle|Hle].
  - destruct (shrink_single_total st1 m k Hwf1 Hrep1 Hk Hl1) as (st2 & H2 & Hev2 & Hd2); [lia|done|done|].
    destruct (shrink_single_represents st1 m st2 Hwf1 Hrep1) as (Hwf2 & Hrep2 & Hl2); [lia|done|].
    rewrite H2. exists st2. split_and!; [done|done|done|lia|done|]. intros root active alloc sup.
    constructor; [cbn; lia|]. exists (λ _, zero_slot_root k). split; [done|].
    cbn [cs_state]. intros s Hs Hns. rewrite (wf_num _ Hwf2), (wf_eff _ Hwf2), Nat.min_l, Nat.sub_diag in Hs by lia.
    assert (s = 0) as -> by (cbn in Hs; lia). exfalso. by apply Hns.
  - destruct (shrink_multi_total st1 m k Hwf1 Hrep1 Hl1) as (st2 & H2 & Hev2 & Hd2); [lia|done|done|].
    destruct (shrink_multi_represents st1 m st2 Hwf1 Hrep1) as (Hwf2 & Hrep2 & Hl2); [lia|done|].
    rewrite H2. exists st2. split_and!; [done|done|done|lia|done|]. intros root active alloc sup.
    constructor; [cbn; lia|]. exists roots. split; [done|].
    cbn [cs_state]. intros s Hs Hns. rewrite (wf_num _ Hwf2), (wf_eff _ Hwf2) in Hs.
    rewrite Nat.min_r in Hs by lia. replace (sg_log_slots st2) with k in Hs by lia.
    pose proof (vec_shrunk_index st1 k s Hwf1 Hl1 ltac:(lia) ltac:(lia)) as Hs1.
    pose proof (sg_same_num _ _ (ss_geometry _ _ Hss1)) as Hn1.
    rewrite Hroots.
    + rewrite (wf_eff _ Hwf), (wf_eff _ Hwf2), Nat.min_r, Nat.min_r by lia. done.
    + rewrite <- Hn1. pose proof (Nat.div_mod_eq (sg_num_segments st1) 2). lia.
    + intros Hin. apply Hns. rewrite Hd2, (ss_exact _ _ Hss1). unfold retain_below. by apply elem_of_filter.
Qed.

(** The root refresh drops the surplus level of the cache by itself. *)
Lemma try_state_root_shrunk cs :
  xc_log_slots (cs_exact_roots cs) = S (sg_log_slots (cs_state cs)) →
  xc_log_slots (cache_shrink_one (cs_exact_roots cs)) = sg_log_slots (cs_state cs) →
  try_state_root cs = try_state_root (mkChainState (cs_state cs) (cs_utxo_root cs) (cs_active_slot_count cs)
    (cs_alloc_counter cs) (cs_circulating_supply cs) (cache_shrink_one (cs_exact_roots cs))).
Proof.
  intros H1 H2. unfold try_state_root.
  cbn [cs_state cs_exact_roots cs_active_slot_count cs_alloc_counter cs_circulating_supply].
  rewrite H1, H2. replace (sg_log_slots (cs_state cs) - S (sg_log_slots (cs_state cs)))%nat with 0%nat by lia.
  rewrite Nat.sub_diag. cbn [iterate_expand]. rewrite H1, H2, decide_True, decide_False by lia.
  unfold cache_shrink_to. rewrite H1. replace (S _ - _)%nat with 1%nat by lia. done.
Qed.

(** ** One block forth and back *)

Section back.
  Context (cs : ChainState) (m : gmap Z SlotValue) (block : Block)
    (Hinv : cs_inv cs m) (Hsealed : sealed cs m)
    (Hwf : Forall tx_wf (bk_transactions block))
    (Hheight : 0 ≤ bh_height (bk_header block) < 2 ^ 63) (H32 : 0 ≤ bh_log_slots (bk_header block) ≤ 32)
    (Hresident : (sg_log_slots (cs_state cs) < LOG_SEGMENT_SIZE)%nat → 0 ∉ sg_evicted (cs_state cs))
    (Hadm : block_admissible cs m block)
    (Hone : bh_log_slots (bk_header block) ≤ Z.of_nat (sg_log_slots (cs_state cs)) + 1).

Let touched : list Z := bk_transactions block ≫= tx_slots.
Let slots : list Z := bk_transactions block ≫= undo_slots cs.

Lemma reachable_recordable i :
  reachable_slot (Z.to_nat (bh_log_slots (bk_header block))) (sg_evicted (cs_state cs)) i →
  recordable cs (bh_log_slots (bk_header block)) i.
Proof.
  intros [Hi Hev]. split; [by rewrite Z2Nat.id in Hi by lia|]. intros Hlt.
  pose proof (wf_eff _ (ci_wf _ _ Hinv)) as Heff. unfold num_slots in Hlt. rewrite Z.shiftl_1_l in Hlt.
  destruct (decide (sg_log_slots (cs_state cs) < LOG_SEGMENT_SIZE)%nat) as [Hl|Hl].
  - rewrite Heff, Nat.min_l by lia. unfold segment_of. rewrite Z.div_small by lia. by apply Hresident.
  - rewrite Heff, Nat.min_r by lia. destruct (decide (LOG_SEGMENT_SIZE ≤ Z.to_nat (bh_log_slots (bk_header block)))%nat) as [Hc|Hc].
    + by rewrite Nat.min_r in Hev by lia.
    + pose proof (bk_log _ _ _ Hadm). lia.
Qed.

Lemma touched_bodies : touched = block_bodies block ≫= body_slots.
Proof. unfold touched, block_bodies. by rewrite list_fmap_bind. Qed.

Lemma touched_nodup : NoDup touched.
Proof. rewrite touched_bodies. apply Hadm. Qed.

Lemma slots_nodup : NoDup slots.
Proof. eapply sublist_NoDup; [apply touched_nodup|apply undo_slots_bind]. Qed.

Lemma slots_touched i : i ∈ slots → i ∈ touched.
Proof. intros Hi. eapply elem_of_sublist; [exact Hi|apply undo_slots_bind]. Qed.

Lemma touched_reachable i : i ∈ touched →
  reachable_slot (Z.to_nat (bh_log_slots (bk_header block))) (sg_evicted (cs_state cs)) i.
Proof.
  intros Hi. rewrite touched_bodies in Hi. apply list_elem_of_bind in Hi as (body & Hi & Hb).
  pose proof (bk_inputs _ _ _ Hadm) as Hin. pose proof (bk_outputs _ _ _ Hadm) as Hout.
  rewrite Forall_forall in Hin, Hout. specialize (Hin body Hb). specialize (Hout body Hb).
  rewrite Forall_forall in Hin. rewrite Forall_forall in Hout.
  apply elem_of_app in Hi as [(p & -> & Hp)%list_elem_of_fmap|(p & -> & Hp)%list_elem_of_fmap].
  - by apply (Hin p).
  - by apply (Hout p).
Qed.

Lemma touched_recordable : Forall (recordable cs (bh_log_slots (bk_header block))) touched.
Proof. apply Forall_forall. intros i Hi. by apply reachable_recordable, touched_reachable. Qed.

Lemma build_undo_exact :
  ∃ hashes, build_undo_log cs block = Ok (mkBlockUndoLog (bh_height (bk_header block))
    (Z.of_nat (sg_log_slots (cs_state cs))) (cs_active_slot_count cs) (cs_alloc_counter cs)
    (recorded m slots) hashes).
Proof.
  pose proof (bk_tx_root _ _ _ Hadm) as Htx. unfold try_compute_tx_root in Htx.
  apply bind_Ok in Htx as (hashes & Hh & _). apply map_err_Ok in Hh. exists hashes.
  unfold build_undo_log. rewrite Hh. cbn [map_err mbind result_bind].
  change (Some (∅, [])) with (Some (undo_at m [])).
  rewrite (undo_txs_at cs m); try done.
  - pose proof (bk_log _ _ _ Hadm). lia.
  - apply H32.
  - apply touched_nodup.
  - apply touched_recordable.
Qed.

Lemma block_deltas_keys alloc bodies height :
  fst <$> block_deltas alloc bodies height = bodies ≫= body_slots.
Proof.
  revert alloc. induction bodies as [|body bodies IH]; intros alloc; [done|]. cbn [block_deltas mbind list_bind].
  rewrite fmap_app, tx_deltas_keys, IH. done.
Qed.

Lemma spent_in_deltas alloc bodies height body i :
  body ∈ bodies → i ∈ input_slots body → (i, EMPTY) ∈ block_deltas alloc bodies height.
Proof.
  intros Hb (p & -> & Hp)%list_elem_of_fmap. revert alloc. induction bodies as [|b bodies IH]; intros alloc; [set_solver|].
  cbn [block_deltas]. apply elem_of_app. apply elem_of_cons in Hb as [<-|Hb]; [left|right; by apply IH].
  apply elem_of_app. left. apply list_elem_of_fmap. by exists p.
Qed.

(** The block changes no slot that the log does not record. *)
Lemma unrecorded_unchanged i : i ∉ slots → m_get (block_effect cs m block) i = m_get m i.
Proof.
  intros Hi. unfold block_effect. destruct (decide (i ∈ touched)) as [Ht|Ht].
  - unfold touched in Ht. apply list_elem_of_bind in Ht as (tx & Hs & Htx).
    unfold tx_slots in Hs. apply elem_of_app in Hs as [Hs|Hs].
    + destruct (decide (i < num_slots (cs_state cs))) as [Hlt|Hge].
      { exfalso. apply Hi. apply list_elem_of_bind. exists tx. split; [|done]. apply elem_of_app. left. by apply list_elem_of_filter. }
      rewrite m_get_update, (canonical_of_nodup _ i EMPTY).
      * symmetry. apply (outside_empty cs m Hinv). lia.
      * rewrite block_deltas_keys, <- touched_bodies. apply touched_nodup.
      * eapply spent_in_deltas; [|exact Hs]. by apply list_elem_of_fmap_2.
    + exfalso. apply Hi. apply list_elem_of_bind. exists tx. split; [|done]. apply elem_of_app. by right.
  - apply m_get_update_other. by rewrite block_deltas_keys, <- touched_bodies.
Qed.

(** Writing the recorded values back restores the map, in any order. *)
Lemma restore_map l : l ≡ₚ slots → m_update (block_effect cs m block) (recorded m l) = m.
Proof.
  intros Hl. assert (Hnd : NoDup l) by (rewrite Hl; apply slots_nodup).
  assert (Hk : fst <$> recorded m l = l).
  { unfold recorded. rewrite <- list_fmap_compose. apply list_fmap_id. }
  pose proof (ci_live _ _ Hinv) as Hm. apply m_ext; [|done|].
  - apply m_update_live, m_update_live. done.
  - intros i. rewrite m_get_update. destruct (decide (i ∈ l)) as [Hi|Hi].
    + rewrite (canonical_of_nodup _ i (m_get m i)); [done|by rewrite Hk|]. apply list_elem_of_fmap. by exists i.
    + rewrite canonical_none by (by rewrite Hk). cbn. apply unrecorded_unchanged. by rewrite <- Hl.
Qed.

Section revert.
  Context (cs' : ChainState) (Hpost : block_post cs m block cs').

Lemma slots_readable : Forall (slot_readable cs') slots.
Proof.
  apply Forall_forall. intros i Hi. apply readable_reachable; [apply (ci_wf _ _ (bq_inv _ _ _ _ Hpost))|].
  rewrite (bq_log _ _ _ _ Hpost), (bq_evicted _ _ _ _ Hpost). by apply touched_reachable, slots_touched.
Qed.

Lemma revert_block_ok undo :
  ul_slot_changes undo = recorded m slots →
  ∃ st', revert_block cs' undo = Ok (mkChainState st' (cs_utxo_root cs') (cs_active_slot_count cs')
      (cs_alloc_counter cs') (supply m) (cs_exact_roots cs'))
    ∧ state_wf st' ∧ represents st' m ∧ same_geometry (cs_state cs') st'
    ∧ sg_evicted st' = sg_evicted (cs_state cs') ∧ sg_exact_dirty st' ## sg_evicted st'
    ∧ ∀ root active alloc sup, cache_current (mkChainState st' root active alloc sup (cs_exact_roots cs')) m.
Proof.
  intros Hun. destruct Hpost as [Hinv' Hs' Hl' Hev' _ _ _ _].
  pose proof (num_slots_u32 _ (ci_wf _ _ Hinv')) as H232. pose proof slots_readable as Hread. rewrite Forall_forall in Hread.
  assert (Hsup : supply_after_slot_updates cs' (recorded m slots) = Ok (supply m)).
  { rewrite (supply_after_slot_updates_ok cs' (block_effect cs m block)); try apply Hinv'.
    - by rewrite restore_map.
    - apply Forall_fmap, Forall_forall. intros i Hi. destruct (Hread i Hi) as [Hr Hns]. split; cbn; [lia|done]. }
  unfold revert_block. rewrite Hun, Hsup. cbn [map_fault map_err mbind result_bind].
  assert (Hrev : reverse (recorded m slots) = recorded m (reverse slots)) by (symmetry; apply fmap_reverse).
  assert (Hfil : filter (λ d, fst d < num_slots (cs_state cs')) (recorded m (reverse slots)) = recorded m (reverse slots)).
  { apply filter_Forall. apply Forall_fmap, Forall_forall. intros i Hi. cbn. apply Hread. by apply elem_of_reverse. }
  rewrite Hrev, Hfil. unfold apply_delta_unrooted.
  destruct (apply_delta_in_place_represents (cs_state cs') (block_effect cs m block) (recorded m (reverse slots)))
    as (st' & Hst & Hwf2 & Hrep2 & Hg2 & Hev2 & Hsub2 & Hch2 & Hdis2).
  { apply Hinv'. } { apply Hinv'. }
  { apply Forall_fmap, Forall_forall. intros i Hi. cbn. apply Hread. by apply elem_of_reverse. }
  rewrite restore_map in Hrep2, Hch2 by apply reverse_Permutation.
  rewrite Hst. cbn [map_fault map_err mbind result_bind]. exists st'. split_and!; try done.
  { apply Hdis2. by eapply wf_dirty_evicted_sealed. }
  intros root active alloc sup. eapply (cache_current_update cs'); try done.
  - intros i Hne. cbn. rewrite (same_geometry_num_slots _ _ Hg2).
    destruct (decide (i ∈ slots)) as [Hi|Hi]; [by apply Hread|].
    exfalso. apply Hne. symmetry. by apply unrecorded_unchanged.
  - apply (ci_cache _ _ Hinv').
Qed.

End revert.

(** A header that states what the chain state holds. *)
Record header_of_state (hdr : BlockHeader) (cs : ChainState) : Prop := {
  hs_log : bh_log_slots hdr = Z.of_nat (sg_log_slots (cs_state cs));
  hs_root : bh_state_root hdr = cs_utxo_root cs;
  hs_active : bh_active_slot_count hdr = cs_active_slot_count cs;
  hs_alloc : bh_alloc_counter hdr = cs_alloc_counter cs;
}.

(** The shrink and the refresh after the slots are written back. *)
Lemma shrink_back st1 root sup c active alloc :
  (sg_log_slots st1 ≠ sg_log_slots (cs_state cs) → sg_evicted st1 = ∅) → state_wf st1 → represents st1 m →
  sg_exact_dirty st1 ## sg_evicted st1 → sg_log_slots st1 = Z.to_nat (bh_log_slots (bk_header block)) →
  (∀ root active alloc sup, cache_current (mkChainState st1 root active alloc sup c) m) →
  ∃ st2, shrink_to_log_slots st1 (sg_log_slots (cs_state cs)) = Ok st2 ∧ state_wf st2 ∧ represents st2 m
    ∧ sg_log_slots st2 = sg_log_slots (cs_state cs)
    ∧ ∃ c', let cs2 := mkChainState (clear_exact_dirty st2) (exact_root (sg_log_slots (cs_state cs)) (m_get m))
              active alloc sup c' in
        try_state_root (mkChainState st2 root active alloc sup c)
        = Ok (exact_root (sg_log_slots (cs_state cs)) (m_get m), cs2) ∧ cache_current cs2 m.
Proof.
  intros Hev1 Hwf1 Hrep1 Hdis1 Hl1 Hc1. pose proof (wf_log _ (ci_wf _ _ Hinv)) as Hlog. pose proof (bk_log _ _ _ Hadm) as Hge.
  destruct (decide (sg_log_slots st1 = sg_log_slots (cs_state cs))) as [Heq|Hne].
  - exists st1. split_and!; try done.
    { unfold shrink_to_log_slots. rewrite Heq, !bool_decide_false by lia. cbn [orb]. by rewrite Nat.sub_diag. }
    destruct (try_state_root_refreshes (mkChainState st1 root active alloc sup c) m) as (c' & Hr & Hcc);
      [done|done|apply Hc1|done|].
    cbn [cs_state] in Hr, Hcc. rewrite Heq in Hr, Hcc. by exists c'.
  - assert (HS : sg_log_slots st1 = S (sg_log_slots (cs_state cs))) by lia.
    destruct (shrink_one_level (mkChainState st1 root active alloc sup c) m (sg_log_slots (cs_state cs)) st1)
      as (st2 & Hsh & Hwf2 & Hrep2 & Hl2 & Hev2 & Hc2); try done; [by apply Hev1|lia| |].
    { intros i [v Hv]. apply (rep_dom _ _ (ci_rep _ _ Hinv)) in Hv as [Hi _]. unfold num_slots in Hi.
      rewrite Z.shiftl_1_l in Hi. lia. }
    exists st2. split_and!; try done.
    pose proof (cc_log _ _ (Hc1 root active alloc sup)) as Hx. pose proof (cc_log _ _ (Hc2 root active alloc sup)) as Hx2.
    cbn [cs_state cs_exact_roots] in Hx, Hx2.
    rewrite try_state_root_shrunk by (cbn [cs_state cs_exact_roots]; congruence).
    destruct (try_state_root_refreshes (mkChainState st2 root active alloc sup (cache_shrink_one c)) m)
      as (c' & Hr & Hcc); [done|done|apply Hc2|cbn; rewrite Hev2; set_solver|].
    cbn [cs_state] in Hr, Hcc. rewrite Hl2 in Hr, Hcc. by exists c'.
Qed.

Lemma revert_height_ok cs' parent_header :
  (bh_log_slots (bk_header block) ≠ bh_log_slots parent_header → sg_evicted (cs_state cs) = ∅) →
  header_of_state parent_header cs → block_post cs m block cs' →
  ∃ undo cs'', build_undo_log cs block = Ok undo ∧ revert_height cs' undo parent_header = Ok cs''
    ∧ cs_inv cs'' m ∧ sealed cs'' m ∧ header_of_state parent_header cs''
    ∧ cs_circulating_supply cs'' = cs_circulating_supply cs.
Proof.
  intros Hev [Hpl Hpr Hpa Hpc] Hpost. destruct build_undo_exact as [hashes Hundo].
  set (undo := mkBlockUndoLog _ _ _ _ _ _) in Hundo. exists undo.
  destruct (revert_block_ok cs' Hpost undo eq_refl) as (st1 & Hrev & Hwf1 & Hrep1 & Hg1 & Hev1 & Hdis1 & Hc1).
  assert (Hl1 : sg_log_slots st1 = Z.to_nat (bh_log_slots (bk_header block)))
    by (by rewrite (sg_same_log _ _ Hg1), (bq_log _ _ _ _ Hpost)).
  destruct (shrink_back st1 (cs_utxo_root cs') (supply m) (cs_exact_roots cs') (cs_active_slot_count cs)
    (cs_alloc_counter cs)) as (st2 & Hsh & Hwf2 & Hrep2 & Hl2 & c' & Hr & Hcc); try done.
  { intros Hne. rewrite Hev1, (bq_evicted _ _ _ _ Hpost). apply Hev. lia. }
  eexists. split; [exact Hundo|]. unfold revert_height. rewrite Hrev. cbn [map_fault map_err mbind result_bind].
  cbn [cs_state ul_log_slots_before undo]. rewrite Nat2Z.id, Hsh. cbn [map_fault map_err mbind result_bind].
  unfold restore_state_counters.
  cbn [cs_state cs_utxo_root cs_circulating_supply cs_exact_roots
    ul_active_slot_count_before ul_alloc_counter_before ul_log_slots_before undo].
  rewrite Hr. cbn [map_fault map_err mbind result_bind cs_state cs_utxo_root cs_active_slot_count cs_alloc_counter].
  destruct Hsealed as [_ Hroot]. destruct (clear_exact_dirty_ok st2 m Hwf2 Hrep2) as [Hwf3 Hrep3].
  assert (Hl3 : sg_log_slots (clear_exact_dirty st2) = sg_log_slots (cs_state cs)) by (by rewrite <- Hl2).
  rewrite !bool_decide_false by (intros Hne; apply Hne; rewrite ?Hl3; congruence). cbn [orb].
  split; [reflexivity|]. split_and!.
  - destruct Hinv. by constructor.
  - split; [done|]. cbn [cs_utxo_root cs_state]. by rewrite Hl3.
  - constructor; cbn [cs_utxo_root cs_state cs_active_slot_count cs_alloc_counter]; congruence.
  - cbn. by rewrite (ci_supply _ _ Hinv).
Qed.

End back.

End reorg.

(** C28: Reversing a block.  Let a state with a sealed root describe its header,
    with its first segment in memory while the domain is smaller than one segment,
    and let a block of height below [2^63] and depth at most 32 be applied to it
    that keeps the slot depth or, if no segment is evicted, grows it by one level.  Then the undo log
    built from the parent state reverses the block: the slots, the live-slot
    counter, the allocation counter, the circulating supply, the slot depth and
    the state root are those of the parent again, the invariant holds and the
    check against the parent header succeeds. *)
Theorem revert_undoes_block {P : Poseidon2bPermutation} {C : SegmentCommitment}
    (cs : ChainState) (m : gmap Z SlotValue) (block : Block) (parent_header : BlockHeader)
    (root : list Z) (cs' : ChainState)
    (Hinv : cs_inv cs m) (Hsealed : sealed cs m)
    (Hresident : (sg_log_slots (cs_state cs) < LOG_SEGMENT_SIZE)%nat → 0 ∉ sg_evicted (cs_state cs))
    (Hparent : header_of_state parent_header cs)
    (Hwf : Forall tx_wf (bk_transactions block))
    (Hheight : 0 ≤ bh_height (bk_header block) < 2 ^ 63) (H32 : 0 ≤ bh_log_slots (bk_header block) ≤ 32)
    (Hone : bh_log_slots (bk_header block) ≤ bh_log_slots parent_header + 1)
    (Hgrowth : bh_log_slots (bk_header block) ≠ bh_log_slots parent_header → sg_evicted (cs_state cs) = ∅)
    (Happly : apply_block cs block = Ok (root, cs')) :
  ∃ undo cs'', build_undo_log cs block = Ok undo ∧ revert_height cs' undo parent_header = Ok cs''
    ∧ cs_inv cs'' m ∧ sealed cs'' m ∧ header_of_state parent_header cs''
    ∧ cs_circulating_supply cs'' = cs_circulating_supply cs.
Proof.
  destruct (apply_block_sound cs m block Hinv Hsealed Hwf Hheight H32 Hresident root cs' Happly) as (_ & Hadm & Hpost).
  apply revert_height_ok with (block := block) (cs' := cs'); try done.
  destruct Hparent. lia.
Qed.

(** A block that doubles the slot domain and mints into the new half. *)
Definition example_growth : Block :=
  let body := mkTxBody zero_digest 0 zero_digest (replicate 8 TxInput_dummy)
    [mkTxOutput 20 5000 (replicate 32 9); TxOutput_dummy] 0x100 true in
  let txs := [mkTransaction body] in
  mkBlock (mkBlockHeader zero_digest
             (exact_root (P := example_permutation) 5 (m_get (m_update ∅ (block_deltas 0 [body] 1))))
             (default zero_digest (compute_tx_root (P := example_permutation) txs)) 1 1 zero_digest 0
             zero_digest 5 1 1) txs [].

Lemma revert_undoes_block_witness :
  ∃ cs cs' cs'' undo parent root, with_log_slots (P := example_permutation) (C := example_commitment) 4 = Some cs
    ∧ apply_block (P := example_permutation) (C := example_commitment) cs example_growth = Ok (root, cs')
    ∧ revert_height (P := example_permutation) (C := example_commitment) cs' undo parent = Ok cs''
    ∧ sg_log_slots (cs_state cs') = 5%nat ∧ sg_log_slots (cs_state cs'') = 4%nat.
Proof.
  destruct (with_log_slots_ok (P := example_permutation) (C := example_commitment) 4)
    as (cs & Hcs & Hinv & Hsealed & Hlog & Hev & Halloc & _); [lia|].
  assert (Hwf : Forall tx_wf (bk_transactions example_growth))
    by (apply (bool_decide_unpack (Forall tx_wf (bk_transactions example_growth))); vm_compute; exact I).
  pose proof (ci_active _ _ Hinv) as Hzero. rewrite map_size_empty in Hzero.
  assert (Hz : cs_active_slot_count cs = 0) by lia.
  assert (Hres : (sg_log_slots (cs_state cs) < LOG_SEGMENT_SIZE)%nat → 0 ∉ sg_evicted (cs_state cs))
    by (rewrite Hev; set_solver).
  destruct (apply_block_complete (P := example_permutation) (C := example_commitment) cs ∅ example_growth
    Hinv Hsealed Hwf) as [cs' Happ]; [cbn; lia|cbn; lia|done| |].
  { constructor.
    - by apply Z.leb_le.
    - eexists _, [], [], B25, B25, []. split; [constructor; by repeat constructor|].
      constructor; [|constructor]. apply validate_canonical; [|by vm_compute].
      apply (bool_decide_unpack (TxBody_wf _)). vm_compute. exact I.
    - apply (bool_decide_unpack (NoDup (block_bodies example_growth ≫= body_slots))). vm_compute. exact I.
    - repeat constructor.
    - repeat constructor; cbn; try lia. rewrite Hev. set_solver.
    - cbn. lia.
    - unfold block_effect. rewrite Halloc. done.
    - rewrite Hz. vm_compute. done.
    - rewrite Hz. vm_compute. done.
    - rewrite Halloc. vm_compute. done.
    - rewrite Hlog. cbn. lia.
    - vm_compute. done. }
  set (parent := mkBlockHeader zero_digest (cs_utxo_root cs) zero_digest 0 0 zero_digest 0 zero_digest 4
                   (cs_active_slot_count cs) (cs_alloc_counter cs)).
  assert (Hparent : header_of_state parent cs) by (constructor; cbn; [by rewrite Hlog|done..]).
  destruct (revert_undoes_block (P := example_permutation) (C := example_commitment) cs ∅ example_growth parent
    (bh_state_root (bk_header example_growth)) cs' Hinv Hsealed Hres Hparent Hwf)
    as (undo & cs'' & Hundo & Hrev & _ & _ & Hpar & _); [cbn; lia|cbn; lia|cbn; lia|done|exact Happ|].
  exists cs, cs', cs'', undo, parent. eexists. split_and!; [done|exact Happ|exact Hrev| |].
  - destruct (apply_block_sound (P := example_permutation) (C := example_commitment) cs ∅ example_growth
      Hinv Hsealed Hwf ltac:(cbn; lia) ltac:(cbn; lia) Hres _ _ Happ) as (_ & _ & [_ _ Hl _ _ _ _ _]). done.
  - destruct Hpar as [Hl _ _ _]. cbn in Hl. lia.
Defined.
