(* ===== verification/Difficulty.v ===== *)
(** * Difficulty

    The ASERT difficulty rule and the 256-bit arithmetic of
    [jetsam_chain/src/consensus/difficulty.rs], with the anchor height of
    [header.rs].  256-bit numbers are 32-byte little-endian strings or lists of
    64-bit limbs, as in the source; the loops that carry from one digit to the
    next are instances of [ripple].  The difficulty floor is active, as it is
    in every build but the unit tests. *)

From S2P Require Import Prelude Machine Params.

(** ** Loops that carry

    [step carry x] gives the digit that replaces [x] and the next carry. *)
Fixpoint ripple {X} (step : Z → X → Z * Z) (carry : Z) (l : list X) : list Z * Z :=
  match l with
  | [] => ([], carry)
  | x :: l' =>
      let '(digit, carry') := step carry x in
      let '(digits, last) := ripple step carry' l' in
      (digit :: digits, last)
  end.

(** The same loop from the last element to the first ([iter_mut().rev()]). *)
Fixpoint ripple_rev {X} (step : Z → X → Z * Z) (carry : Z) (l : list X) : list Z * Z :=
  match l with
  | [] => ([], carry)
  | x :: l' =>
      let '(digits, carry') := ripple_rev step carry l' in
      let '(digit, last) := step carry' x in
      (digit :: digits, last)
  end.

(** ** 256-bit little-endian helpers *)

Definition bytes_to_limbs (b : list Z) : list Z :=
  [from_le_bytes (take 8 b); from_le_bytes (take 8 (drop 8 b));
   from_le_bytes (take 8 (drop 16 b)); from_le_bytes (take 8 (drop 24 b))].

Definition limbs_to_bytes (l : list Z) : list Z := concat (to_le_bytes 8 <$> l).

Definition mul_limb (factor carry a : Z) : Z * Z :=
  let prod := a * factor + carry in
  (wrap 64 prod, Z.shiftr prod 64).

Definition mul_limbs_u64 (a : list Z) (factor : Z) : list Z :=
  let '(out, carry) := ripple (mul_limb factor) 0 a in
  out ++ [wrap 64 carry].

Definition shl_limb (bit_sh c limb : Z) : Z * Z :=
  (Z.lor (wrap 64 (Z.shiftl limb bit_sh)) c, Z.shiftr limb (64 - bit_sh)).

Definition shl320 (w : list Z) (n : Z) : list Z :=
  if n =? 0 then w
  else
    let word_sh := Z.to_nat (Z.min (n / 64) 5) in
    let bit_sh := n mod 64 in
    let out := replicate word_sh 0 ++ take (5 - word_sh) w in
    if 0 <? bit_sh then fst (ripple (shl_limb bit_sh) 0 out) else out.

Definition shr_limb (bit_sh c limb : Z) : Z * Z :=
  (Z.lor (Z.shiftr limb bit_sh) c, wrap 64 (Z.shiftl limb (64 - bit_sh))).

Definition shr320 (w : list Z) (n : Z) : list Z :=
  if n =? 0 then w
  else
    let word_sh := Z.to_nat (Z.min (n / 64) 5) in
    let bit_sh := n mod 64 in
    let out := drop word_sh w ++ replicate word_sh 0 in
    if 0 <? bit_sh then fst (ripple_rev (shr_limb bit_sh) 0 out) else out.

Definition shift_wide (w : list Z) (net : Z) : list Z :=
  if 0 <=? net then shl320 w (Z.min net 319) else shr320 w (Z.min (- net) 319).

(** The comparison of two byte strings of one length, most significant first. *)
Fixpoint be_lt (a b : list Z) : bool :=
  match a, b with
  | x :: a', y :: b' => if x <? y then true else if y <? x then false else be_lt a' b'
  | _, _ => false
  end.

Definition le256_lt (a b : list Z) : bool := be_lt (reverse a) (reverse b).

Definition clamp (result : list Z) (overflow_word : Z) : list Z :=
  if negb (overflow_word =? 0) || le256_lt MAX_TARGET result then MAX_TARGET
  else if bool_decide (result = zero_digest) || le256_lt result MIN_TARGET then MIN_TARGET
  else result.

(** ** Schedules and anchors *)

Record AnchorInfo := mkAnchorInfo {
  ai_anchor_height : Z;
  ai_anchor_timestamp : Z;
  ai_anchor_parent_timestamp : Z;
  ai_anchor_target : list Z;
}.

Record DifficultySchedule := mkDifficultySchedule {
  ds_polynomial_fix_height : Z;
  ds_v1_4_activation : option Z;
  ds_v1_4_anchor_target : option (list Z);
  ds_v1_5_activation : option Z;
  ds_v1_6_activation : option Z;
}.

Definition PRODUCTION : DifficultySchedule :=
  mkDifficultySchedule ASERT_POLYNOMIAL_FIX_HEIGHT V1_4_ACTIVATION_HEIGHT V1_4_ANCHOR_TARGET
    V1_5_ACTIVATION_HEIGHT V1_6_ACTIVATION_HEIGHT.

Definition boundary_target (s : DifficultySchedule) (height : Z) : option (list Z) :=
  match ds_v1_4_activation s, ds_v1_4_anchor_target s with
  | Some activation, Some target => if height =? activation then Some target else None
  | _, _ => None
  end.

Definition is_v1_5_activation (s : DifficultySchedule) (height : Z) : bool :=
  match ds_v1_5_activation s with Some activation => activation =? height | None => false end.

(** [header.rs]: the latest epoch boundary, floored at every armed clock the
    parent has reached. *)
Definition floor_anchor (current_height : Z) (anchor : Z) (clock : option Z) : Z :=
  match clock with
  | Some activation =>
      if (activation <=? current_height) && (anchor <? activation) then activation else anchor
  | None => anchor
  end.

Definition asert_anchor_height_with_clocks (current_height : Z)
    (v1_4_activation v1_5_activation v1_6_activation : option Z) : Z :=
  let anchor := current_height / EPOCH_LENGTH * EPOCH_LENGTH in
  let anchor := floor_anchor current_height anchor v1_4_activation in
  let anchor := floor_anchor current_height anchor v1_5_activation in
  floor_anchor current_height anchor v1_6_activation.

Definition anchor_height (s : DifficultySchedule) (current_height : Z) : Z :=
  asert_anchor_height_with_clocks current_height
    (ds_v1_4_activation s) (ds_v1_5_activation s) (ds_v1_6_activation s).

Definition asert_anchor_height (current_height : Z) : Z := anchor_height PRODUCTION current_height.

Definition v1_6_rule_at (s : DifficultySchedule) (height : Z) : bool :=
  match ds_v1_6_activation s with Some activation => activation <? height | None => false end.

Definition block_time_at (s : DifficultySchedule) (height : Z) : Z :=
  block_time_at_with height (ds_v1_5_activation s).

Definition halflife_at (s : DifficultySchedule) (height : Z) : Z :=
  if v1_6_rule_at s height then HALFLIFE_V1_6 else halflife_at_with height (ds_v1_5_activation s).

(** The number of 180-second intervals among blocks
    [anchor_height + 1 ..= anchor_height + intervals]. *)
Definition slow_intervals (s : DifficultySchedule) (anchor_height intervals : Z) : Z :=
  match ds_v1_5_activation s with
  | Some activation =>
      if 0 <? intervals then
        let last := anchor_height + intervals in
        let first := anchor_height + 1 in
        if last <? activation then 0
        else if activation <=? first then intervals
        else last - activation + 1
      else 0
  | None => 0
  end.

(** [x as i64] *)
Definition as_i64 (x : Z) : Z := if x <? 2 ^ 63 then x else x - 2 ^ 64.

Definition ideal_elapsed (s : DifficultySchedule) (anchor_height height : Z) : Z :=
  let intervals := saturating_sub (saturating_sub height anchor_height) 1 in
  let slow := slow_intervals s anchor_height intervals in
  if slow =? 0 then as_i64 (saturating_mul 64 intervals BLOCK_TIME)
  else
    as_i64 (saturating_add 64 (saturating_mul 64 (intervals - slow) BLOCK_TIME)
              (saturating_mul 64 slow BLOCK_TIME_V1_5)).

(** ** ASERT *)

Definition ASERT_A : Z := 195766423245049.
Definition ASERT_B : Z := 971821376.
Definition ASERT_C : Z := 5127.

Definition asert_factor_legacy (frac : Z) : Z :=
  65536 + wrap 64 (Z.shiftr (ASERT_A * frac + ASERT_B * frac * frac / 65536
                             + ASERT_C * (frac / 65536) * (frac / 65536) * frac + Z.shiftl 1 47) 48).

Definition asert_factor_fixed (frac : Z) : Z :=
  65536 + wrap 64 (Z.shiftr (ASERT_A * frac + ASERT_B * frac * frac
                             + ASERT_C * frac * frac * frac + Z.shiftl 1 47) 48).

Definition i64_min : Z := - 2 ^ 63.
Definition i64_max : Z := 2 ^ 63 - 1.

(** The time from the anchor to [timestamp], as the rule at [height] reads it. *)
Definition actual_elapsed (s : DifficultySchedule) (anchor_timestamp height timestamp : Z) : Z :=
  if v1_6_rule_at s height then timestamp - anchor_timestamp
  else Z.min (saturating_sub timestamp anchor_timestamp) i64_max.

(** The Q16 exponent: [i128] division truncates, the result is clamped to [i64]. *)
Definition asert_exponent (s : DifficultySchedule) (anchor_height anchor_timestamp height timestamp : Z) : Z :=
  let ideal := ideal_elapsed s anchor_height height in
  let actual := actual_elapsed s anchor_timestamp height timestamp in
  let raw_exp := Z.quot ((actual - ideal) * 65536) (halflife_at s height) in
  Z.max i64_min (Z.min raw_exp i64_max).

Definition next_target_in (s : DifficultySchedule) (anchor_height anchor_timestamp : Z)
    (anchor_target : list Z) (height timestamp : Z) : list Z :=
  let exponent := asert_exponent s anchor_height anchor_timestamp height timestamp in
  let shifts := Z.shiftr exponent 16 in
  let frac := wrap 16 (exponent - shifts * 65536) in
  let factor := if height <? ds_polynomial_fix_height s then asert_factor_legacy frac
                else asert_factor_fixed frac in
  let wide := mul_limbs_u64 (bytes_to_limbs anchor_target) factor in
  let net := shifts - 16 in
  if 46 <=? net then GENESIS_TARGET
  else if net <=? -320 then MIN_TARGET
  else
    let wide := shift_wide wide net in
    if (0 <? net) && bool_decide (wide = replicate 5 0) then GENESIS_TARGET
    else
      let result := limbs_to_bytes (take 4 wide) in
      let clamped := clamp result (default 0 (wide !! 4%nat)) in
      if le256_lt GENESIS_TARGET clamped then GENESIS_TARGET else clamped.

Definition next_target (anchor_height anchor_timestamp : Z) (anchor_target : list Z)
    (height timestamp : Z) : list Z :=
  next_target_in PRODUCTION anchor_height anchor_timestamp anchor_target height timestamp.

(** One byte of the halving: its own bits and the low bit of the next byte. *)
Definition halve_byte (target : list Z) (index : nat) (byte : Z) : Z :=
  let carry := match target !! S index with Some b => wrap 8 (Z.shiftl b 7) | None => 0 end in
  Z.lor (Z.shiftr byte 1) carry.

Definition v1_5_activation_target (ninety_second_target : list Z) : list Z :=
  let halved := imap (halve_byte ninety_second_target) ninety_second_target in
  if le256_lt halved MIN_TARGET then MIN_TARGET else halved.

Definition expected_target_in (s : DifficultySchedule)
    (anchor_height anchor_timestamp anchor_parent_timestamp : Z) (anchor_target : list Z)
    (height parent_timestamp : Z) : list Z :=
  match boundary_target s height with
  | Some target => target
  | None =>
      let asert :=
        if v1_6_rule_at s height
        then next_target_in s (saturating_sub anchor_height 1) anchor_parent_timestamp anchor_target
               height parent_timestamp
        else next_target_in s anchor_height anchor_timestamp anchor_target height parent_timestamp in
      if is_v1_5_activation s height then v1_5_activation_target asert else asert
  end.

Definition expected_target (anchor : AnchorInfo) (height parent_timestamp : Z) : list Z :=
  expected_target_in PRODUCTION (ai_anchor_height anchor) (ai_anchor_timestamp anchor)
    (ai_anchor_parent_timestamp anchor) (ai_anchor_target anchor) height parent_timestamp.

(** ** Work *)

(** [byte.leading_zeros()] *)
Definition byte_leading_zeros (b : Z) : Z := if b =? 0 then 8 else 7 - Z.log2 b.

(** From the most significant byte. *)
Fixpoint leading_zero_bits (be : list Z) : Z :=
  match be with
  | [] => 0
  | b :: be' => if b =? 0 then byte_leading_zeros b + leading_zero_bits be' else byte_leading_zeros b
  end.

Definition target_leading_zero_bits (target : list Z) : Z := leading_zero_bits (reverse target).

Definition is_zero_256 (a : list Z) : bool := forallb (λ byte, byte =? 0) a.
Definition ge256 (a b : list Z) : bool := negb (le256_lt a b).

Definition add_byte (carry : Z) (p : Z * Z) : Z * Z :=
  let sum := fst p + snd p + carry in (wrap 8 sum, Z.shiftr sum 8).

Definition add_work (a b : list Z) : list Z :=
  let '(result, carry) := ripple add_byte 0 (zip a b) in
  if negb (carry =? 0) then replicate 32 0xFF else result.

(** [None] when every byte overflowed. *)
Fixpoint add_one (a : list Z) : option (list Z) :=
  match a with
  | [] => None
  | byte :: a' => if byte =? 255 then cons 0 <$> add_one a' else Some (byte + 1 :: a')
  end.

Definition add_one_saturating (a : list Z) : list Z := default (replicate 32 0xFF) (add_one a).

Definition shl1_byte (carry byte : Z) : Z * Z := (Z.lor (wrap 8 (Z.shiftl byte 1)) carry, Z.shiftr byte 7).
Definition shl1_256 (a : list Z) : list Z := fst (ripple shl1_byte 0 a).

Definition sub_byte (borrow : Z) (p : Z * Z) : Z * Z :=
  let diff := fst p - snd p - borrow in
  if diff <? 0 then (diff + 256, 1) else (diff, 0).
Definition sub_assign_256 (a b : list Z) : list Z := fst (ripple sub_byte 0 (zip a b)).

Definition bit_256 (a : list Z) (bit : nat) : bool :=
  Z.land (Z.shiftr (default 0 (a !! (bit / 8)%nat)) (Z.of_nat (bit mod 8))) 1 =? 1.

Definition set_bit_256 (a : list Z) (bit : nat) : list Z :=
  alter (λ byte, Z.lor byte (Z.shiftl 1 (Z.of_nat (bit mod 8)))) (bit / 8)%nat a.

Definition div_step (numerator denominator : list Z) (acc : list Z * list Z) (bit : nat) : list Z * list Z :=
  let '(quotient, remainder) := acc in
  let remainder := shl1_256 remainder in
  let remainder := if bit_256 numerator bit then alter (λ byte, Z.lor byte 1) 0%nat remainder else remainder in
  if ge256 remainder denominator
  then (set_bit_256 quotient bit, sub_assign_256 remainder denominator)
  else (quotient, remainder).

Definition div_u256 (numerator denominator : list Z) : option (list Z) :=
  if is_zero_256 denominator then None
  else Some (fst (foldl (div_step numerator denominator) (zero_digest, zero_digest) (reverse (seq 0 256)))).

(** [None] is the failed [expect]. *)
Definition block_work (target : list Z) : option (list Z) :=
  if is_zero_256 target then Some zero_digest
  else add_one_saturating <$> div_u256 (replicate 32 0xFF) target.

Definition work_gt (a b : list Z) : bool := le256_lt b a.
