(* ===== verification/DifficultyProps.v ===== *)
(** * Properties of the difficulty rule

    The digit loops of [Difficulty] compute the arithmetic they are written
    for; the target of a child is the anchor's target scaled by the ASERT
    factor, between the two limits; work is the rounded-up quotient of [2^256]
    by the target. *)

From S2P Require Import Prelude Machine Params Difficulty.

(** ** Digits *)

Definition digits (B : Z) (l : list Z) : Z := foldr (λ d v, d + B * v) 0 l.
Definition digit (B d : Z) : Prop := 0 ≤ d < B.

Lemma digits_cons B d l : digits B (d :: l) = d + B * digits B l.
Proof. done. Qed.

Lemma digits_app B l k : digits B (l ++ k) = digits B l + B ^ Z.of_nat (length l) * digits B k.
Proof.
  induction l as [|d l IH]; [change (digits B k = 0 + B ^ 0 * digits B k); lia|].
  rewrite <- app_comm_cons, !digits_cons, IH, length_cons, Nat2Z.inj_succ, Z.pow_succ_r by lia. lia.
Qed.

Lemma digits_bound B l : 0 < B → Forall (digit B) l → 0 ≤ digits B l < B ^ Z.of_nat (length l).
Proof.
  intros HB. induction 1 as [|d l Hd Hl IH]; [cbn [length digits foldr]; rewrite Z.pow_0_r; lia|].
  unfold digit in Hd. rewrite digits_cons, length_cons, Nat2Z.inj_succ, Z.pow_succ_r by lia. nia.
Qed.

Lemma digits_replicate_zero B n : digits B (replicate n 0) = 0.
Proof. induction n as [|n IH]; [done|]. cbn [replicate]. rewrite digits_cons, IH. lia. Qed.

Lemma digits_scale B c l : digits B ((λ x, x * c) <$> l) = digits B l * c.
Proof. induction l as [|x l IH]; [done|]. rewrite fmap_cons, !digits_cons, IH. lia. Qed.

Lemma digits_zip B c l k :
  length l = length k → digits B ((λ p, fst p + c * snd p) <$> zip l k) = digits B l + c * digits B k.
Proof.
  revert k. induction l as [|x l IH]; intros [|y k]; try done; [cbn; lia|]. intros [= Hl].
  cbn [zip zip_with]. rewrite fmap_cons, !digits_cons. unfold zip in IH. rewrite IH by done. cbn [fst snd]. lia.
Qed.

Lemma from_le_digits l : from_le_bytes l = digits 256 l.
Proof. induction l as [|d l IH]; [done|]. cbn [from_le_bytes]. by rewrite IH, digits_cons. Qed.

Lemma digits_inj B l k :
  Forall (digit B) l → Forall (digit B) k → length l = length k → digits B l = digits B k → l = k.
Proof.
  intros Hl. revert k. induction Hl as [|d l Hd Hl IH]; intros [|e k] Hk Hlen Heq; try done.
  apply Forall_cons in Hk as [He Hk]. unfold digit in *. rewrite !digits_cons in Heq.
  assert (digits B l = digits B k) as E.
  { apply (f_equal (λ z, z / B)) in Heq.
    rewrite !(Z.mul_comm B), !Z.div_add, !Z.div_small in Heq by lia. lia. }
  f_equal; [nia|]. apply IH; [done|by injection Hlen|done].
Qed.

(** ** Loops that carry *)

Lemma ripple_digits {X} (B σ : Z) (g : X → Z) (inv : Z → Prop) (step : Z → X → Z * Z) c l :
  (∀ c x, inv c → x ∈ l →
     digit B (fst (step c x)) ∧ inv (snd (step c x))
     ∧ fst (step c x) + B * (σ * snd (step c x)) = g x + σ * c) →
  inv c →
  Forall (digit B) (fst (ripple step c l)) ∧ length (fst (ripple step c l)) = length l
  ∧ inv (snd (ripple step c l))
  ∧ digits B (fst (ripple step c l)) + B ^ Z.of_nat (length l) * (σ * snd (ripple step c l))
    = digits B (g <$> l) + σ * c.
Proof.
  revert c. induction l as [|x l IH]; intros c Hstep Hc; [cbn [ripple fst snd length fmap list_fmap digits foldr]; rewrite Z.pow_0_r; split_and!; [constructor|done..|lia]|].
  destruct (Hstep c x Hc) as (Hd & Hc' & Heq); [set_solver|].
  cbn [ripple]. destruct (step c x) as [d c'] eqn:E; cbn [fst snd] in Hd, Hc', Heq.
  destruct (IH c') as (Hds & Hlen & Hl & Hsum); [intros; apply Hstep; [done|set_solver]|done|].
  destruct (ripple step c' l) as [ds last]; cbn [fst snd] in *.
  rewrite fmap_cons, !digits_cons, !length_cons, Nat2Z.inj_succ, Z.pow_succ_r by lia.
  split_and!; [by constructor|by rewrite Hlen|done|]. nia.
Qed.

(** The right shift: the carry is the part shifted out, at the top of a limb. *)
Lemma ripple_rev_shr b l :
  0 < b < 64 → Forall (digit (2 ^ 64)) l →
  Forall (digit (2 ^ 64)) (fst (ripple_rev (shr_limb b) 0 l))
  ∧ length (fst (ripple_rev (shr_limb b) 0 l)) = length l
  ∧ digits (2 ^ 64) (fst (ripple_rev (shr_limb b) 0 l)) = digits (2 ^ 64) l / 2 ^ b
  ∧ snd (ripple_rev (shr_limb b) 0 l) = (digits (2 ^ 64) l mod 2 ^ b) * 2 ^ (64 - b).
Proof.
  intros Hb. induction 1 as [|x l Hx Hl IH].
  { cbn. rewrite Zdiv_0_l, Zmod_0_l. split_and!; [constructor|done..]. }
  cbn [ripple_rev]. destruct (ripple_rev (shr_limb b) 0 l) as [ds c]; cbn [fst snd] in *.
  destruct IH as (Hds & Hlen & Hdiv & ->). unfold shr_limb, digit in *. cbn [fst snd].
  set (V := digits (2 ^ 64) l) in *.
  assert (2 ^ 64 = 2 ^ (64 - b) * 2 ^ b) as E by (rewrite <- Z.pow_add_r by lia; f_equal; lia).
  pose proof (Z.pow_pos_nonneg 2 b). pose proof (Z.pow_pos_nonneg 2 (64 - b)).
  pose proof (Z.mod_pos_bound V (2 ^ b)). pose proof (Z.div_mod V (2 ^ b)).
  assert (0 ≤ x / 2 ^ b < 2 ^ (64 - b)) as Hq.
  { split; [apply Z.div_pos; lia|apply Z.div_lt_upper_bound; lia]. }
  rewrite Z.shiftr_div_pow2, Z.lor_comm, <- (Z.shiftl_mul_pow2 (V mod 2 ^ b)), lor_shiftl_add by lia.
  split_and!.
  - constructor; [|done]. nia.
  - cbn. by rewrite Hlen.
  - rewrite !digits_cons. fold V. rewrite Hdiv.
    apply Z.div_unique with (x mod 2 ^ b); [left; apply Z.mod_pos_bound; lia|].
    pose proof (Z.div_mod x (2 ^ b)). nia.
  - rewrite digits_cons. fold V. unfold wrap. rewrite Z.shiftl_mul_pow2 by lia.
    rewrite E at 1. rewrite (Z.mul_comm x), Z.mul_mod_distr_l, Z.mul_comm by lia. f_equal.
    rewrite Z.add_comm, E, (Z.mul_comm (2 ^ (64 - b))), <- Z.mul_assoc, (Z.mul_comm (2 ^ b)), Z.add_comm,
      Z.mod_add by lia. done.
Qed.

(** ** Limbs *)

Definition limbs (l : list Z) : Z := digits (2 ^ 64) l.
Definition is_limbs (n : nat) (l : list Z) : Prop := length l = n ∧ Forall (digit (2 ^ 64)) l.

Lemma limbs_bound n l : is_limbs n l → 0 ≤ limbs l < 2 ^ (64 * Z.of_nat n).
Proof.
  intros [<- Hl]. unfold limbs. rewrite Z.pow_mul_r by lia. by apply digits_bound.
Qed.

Lemma limbs_app l k : limbs (l ++ k) = limbs l + 2 ^ (64 * Z.of_nat (length l)) * limbs k.
Proof. unfold limbs. by rewrite digits_app, Z.pow_mul_r by lia. Qed.

Lemma is_limbs_inj n l k : is_limbs n l → is_limbs n k → limbs l = limbs k → l = k.
Proof. intros [Hl Fl] [Hk Fk]. apply digits_inj; [done..|lia]. Qed.

Lemma is_limbs_zero n : is_limbs n (replicate n 0).
Proof. split; [by rewrite length_replicate|]. apply Forall_replicate. unfold digit. lia. Qed.

Lemma mul_limbs_u64_val a factor :
  is_limbs 4 a → digit (2 ^ 64) factor →
  is_limbs 5 (mul_limbs_u64 a factor) ∧ limbs (mul_limbs_u64 a factor) = limbs a * factor.
Proof.
  intros [Hlen Ha] Hf. unfold digit in *. unfold mul_limbs_u64.
  destruct (ripple_digits (2 ^ 64) 1 (λ x, x * factor) (λ c, 0 ≤ c < 2 ^ 64) (mul_limb factor) 0 a)
    as (Hds & Hlen' & Hc & Hsum); [|lia|].
  { intros c x Hc Hx. rewrite Forall_forall in Ha. specialize (Ha x Hx). cbn [mul_limb fst snd].
    rewrite Z.shiftr_div_pow2 by lia. unfold wrap, digit.
    pose proof (Z.mod_pos_bound (x * factor + c) (2 ^ 64)). pose proof (Z.div_mod (x * factor + c) (2 ^ 64)).
    split_and!; [lia..|apply Z.div_pos; nia|apply Z.div_lt_upper_bound; nia|lia]. }
  destruct (ripple (mul_limb factor) 0 a) as [out c]; cbn [fst snd] in *.
  rewrite wrap_small by done. split.
  - split; [rewrite length_app, Hlen', Hlen; done|]. apply Forall_app. split; [done|]. by constructor.
  - rewrite limbs_app, Hlen', Hlen. unfold limbs. rewrite digits_cons, Hlen in *.
    rewrite digits_scale in Hsum. cbn [digits foldr]. rewrite Z.pow_mul_r by lia. lia.
Qed.

Lemma word_shift n : 0 ≤ n < 320 → ∃ k : nat, Z.to_nat (Z.min (n / 64) 5) = k ∧ (k < 5)%nat
  ∧ n = 64 * Z.of_nat k + n mod 64 ∧ 0 ≤ n mod 64 < 64.
Proof.
  intros Hn. pose proof (Z.div_mod n 64). pose proof (Z.mod_pos_bound n 64).
  exists (Z.to_nat (Z.min (n / 64) 5)). split_and!; [done|lia..].
Qed.

(** One digit of a left shift by [r] bits in base [2^w]. *)
Lemma shift_digit w r x c :
  0 ≤ r ≤ w → digit (2 ^ w) x → 0 ≤ c < 2 ^ r →
  let d := Z.lor (wrap w (Z.shiftl x r)) c in let c' := Z.shiftr x (w - r) in
  digit (2 ^ w) d ∧ 0 ≤ c' < 2 ^ r ∧ d + 2 ^ w * (1 * c') = x * 2 ^ r + 1 * c.
Proof.
  unfold digit. intros Hr Hx Hc. cbv zeta.
  assert (2 ^ w = 2 ^ (w - r) * 2 ^ r) as E by (rewrite <- Z.pow_add_r by lia; f_equal; lia).
  assert (0 < 2 ^ r ∧ 0 < 2 ^ (w - r)) as [Hp Hq] by (split; apply Z.pow_pos_nonneg; lia).
  assert (Z.lor (wrap w (Z.shiftl x r)) c = x mod 2 ^ (w - r) * 2 ^ r + c) as ->.
  { unfold wrap. rewrite Z.shiftl_mul_pow2, E, Z.mul_mod_distr_r by lia.
    by rewrite <- (Z.shiftl_mul_pow2 (x mod _)), lor_shiftl_add, Z.shiftl_mul_pow2 by lia. }
  rewrite Z.shiftr_div_pow2 by lia.
  pose proof (Z.mod_pos_bound x (2 ^ (w - r)) Hq). pose proof (Z.div_mod x (2 ^ (w - r))).
  split_and!; [nia|nia|apply Z.div_pos; nia|apply Z.div_lt_upper_bound; nia|nia].
Qed.

Lemma shl320_val w n :
  is_limbs 5 w → 0 ≤ n < 320 →
  is_limbs 5 (shl320 w n) ∧ limbs (shl320 w n) = (limbs w * 2 ^ n) mod 2 ^ 320.
Proof.
  intros Hw Hn. pose proof (limbs_bound _ _ Hw) as Hb. unfold shl320.
  destruct (Z.eqb_spec n 0) as [->|H0]; [rewrite Z.mul_1_r, Z.mod_small by done; done|].
  destruct (word_shift n Hn) as (k & -> & Hk & En & Hr).
  set (r := n mod 64) in *. set (out := replicate k 0 ++ take (5 - k) w).
  assert (is_limbs 5 out) as Hout.
  { destruct Hw as [Hl Hw]. split; [unfold out; rewrite length_app, length_replicate, length_take; lia|].
    apply Forall_app. split; [apply is_limbs_zero|by apply Forall_take]. }
  assert (∃ q, limbs w * 2 ^ (64 * Z.of_nat k) = limbs out + 2 ^ 320 * q) as [q Hq].
  { exists (limbs (drop (5 - k) w)). unfold out. rewrite limbs_app, length_replicate.
    rewrite <- (take_drop (5 - k) w) at 1. rewrite limbs_app, length_take, Nat.min_l by (destruct Hw; lia).
    unfold limbs at 3. rewrite digits_replicate_zero, Z.mul_add_distr_r, Z.mul_comm, Z.add_0_l. f_equal.
    rewrite (Z.mul_comm _ (2 ^ (64 * Z.of_nat k))), Z.mul_assoc, <- Z.pow_add_r by lia. f_equal. f_equal. lia. }
  assert (limbs w * 2 ^ n = limbs out * 2 ^ r + 2 ^ 320 * (q * 2 ^ r)) as Hmod.
  { rewrite En at 1. rewrite Z.pow_add_r by lia. rewrite Z.mul_assoc, Hq. ring. }
  rewrite Hmod, (Z.mul_comm (2 ^ 320)), Z.mod_add by lia.
  destruct (Z.ltb_spec 0 r) as [Hr0|Hr0].
  2: { replace r with 0 by lia. rewrite Z.mul_1_r, Z.mod_small by (by apply limbs_bound in Hout). done. }
  destruct (ripple_digits (2 ^ 64) 1 (λ x, x * 2 ^ r) (λ c, 0 ≤ c < 2 ^ r) (shl_limb r) 0 out)
    as (Hds & Hlen & Hc & Hsum); [|pose proof (Z.pow_pos_nonneg 2 r); lia|].
  { intros c x Hc Hx. destruct Hout as [_ Hout]. rewrite Forall_forall in Hout.
    apply (shift_digit 64); [lia|by apply Hout|done]. }
  destruct Hout as [Ho _]. rewrite Ho in Hlen, Hsum. split; [done|].
  rewrite digits_scale, Z.add_0_r, Z.mul_1_l in Hsum.
  apply Z.mod_unique_pos with (snd (ripple (shl_limb r) 0 out)).
  - by apply (limbs_bound 5).
  - unfold limbs. rewrite <- Hsum. change (2 ^ 320) with ((2 ^ 64) ^ Z.of_nat 5). lia.
Qed.

Lemma shr320_val w n :
  is_limbs 5 w → 0 ≤ n < 320 → is_limbs 5 (shr320 w n) ∧ limbs (shr320 w n) = limbs w / 2 ^ n.
Proof.
  intros Hw Hn. unfold shr320.
  destruct (Z.eqb_spec n 0) as [->|H0]; [by rewrite Z.div_1_r|].
  destruct (word_shift n Hn) as (k & -> & Hk & En & Hr).
  set (r := n mod 64) in *. set (out := drop k w ++ replicate k 0).
  assert (is_limbs 5 out) as Hout.
  { destruct Hw as [Hl Hw]. split; [unfold out; rewrite length_app, length_replicate, length_drop; lia|].
    apply Forall_app. split; [by apply Forall_drop|apply is_limbs_zero]. }
  assert (limbs out = limbs w / 2 ^ (64 * Z.of_nat k)) as Hword.
  { unfold out. rewrite <- (take_drop k w) at 2. rewrite !limbs_app, length_take, Nat.min_l by (destruct Hw; lia).
    unfold limbs at 2. rewrite digits_replicate_zero, Z.mul_0_r, Z.add_0_r.
    assert (is_limbs k (take k w)) as Ht.
    { destruct Hw as [Hl Hw]. split; [rewrite length_take; lia|by apply Forall_take]. }
    apply limbs_bound in Ht. apply Z.div_unique with (limbs (take k w)); [left; lia|lia]. }
  rewrite En at 1. rewrite Z.pow_add_r, <- Z.div_div, <- Hword by (try apply Z.pow_pos_nonneg; lia).
  destruct (Z.ltb_spec 0 r) as [Hr0|Hr0]; [|by replace r with 0 by lia; rewrite Z.div_1_r].
  destruct Hout as [Hlen Hout].
  destruct (ripple_rev_shr r out) as (Hds & Hl & Hv & _); [lia|done|].
  split; [split; [lia|done]|done].
Qed.

Lemma shift_wide_val w net :
  is_limbs 5 w → -320 < net < 320 → limbs w * 2 ^ (Z.max net 0) < 2 ^ 320 →
  is_limbs 5 (shift_wide w net)
  ∧ limbs (shift_wide w net) = limbs w * 2 ^ (Z.max net 0) / 2 ^ (Z.max (- net) 0).
Proof.
  intros Hw Hnet Hb. pose proof (limbs_bound _ _ Hw). unfold shift_wide.
  destruct (Z.leb_spec 0 net) as [Hn|Hn].
  - rewrite Z.min_l, (Z.max_l net), (Z.max_r (- net)) in * by lia. rewrite Z.div_1_r.
    destruct (shl320_val w net Hw) as [? ->]; [lia|]. split; [done|]. apply Z.mod_small.
    split; [|done]. apply Z.mul_nonneg_nonneg; [lia|apply Z.pow_nonneg; lia].
  - rewrite Z.min_l, (Z.max_r net), (Z.max_l (- net)), Z.mul_1_r in * by lia.
    apply shr320_val; [done|lia].
Qed.

(** ** 32-byte strings *)

Notation val := from_le_bytes.

Lemma digest_digits b : is_digest b → Forall (digit 256) b ∧ length b = 32%nat.
Proof. intros [Hl Hb]. split; [done|done]. Qed.

Lemma digest_bound b : is_digest b → 0 ≤ val b < 2 ^ 256.
Proof. intros [Hl Hb]. apply from_le_bytes_bound in Hb. rewrite Hl in Hb. done. Qed.

Lemma val_inj a b : is_digest a → is_digest b → val a = val b → a = b.
Proof.
  intros [La Ha] [Lb Hb] E. rewrite <- (to_from_le_bytes a Ha), <- (to_from_le_bytes b Hb).
  by rewrite La, Lb, E.
Qed.

Lemma bytes_to_limbs_val b : is_digest b → is_limbs 4 (bytes_to_limbs b) ∧ limbs (bytes_to_limbs b) = val b.
Proof.
  intros [Hl Hb].
  assert (∀ k, (k ≤ 24)%nat → digit (2 ^ 64) (val (take 8 (drop k b)))) as Hd.
  { intros k Hk. pose proof (from_le_bytes_bound (take 8 (drop k b))) as HB.
    rewrite length_take, length_drop, Hl, Nat.min_l in HB by lia. apply HB. by apply Forall_take, Forall_drop. }
  split.
  - split; [done|]. unfold bytes_to_limbs. rewrite <- (drop_0 b) at 1. repeat constructor; apply Hd; lia.
  - assert (b = take 8 b ++ take 8 (drop 8 b) ++ take 8 (drop 16 b) ++ take 8 (drop 24 b)) as E.
    { rewrite (take_ge (drop 24 b)) by (rewrite length_drop; lia).
      rewrite <- (take_drop 8 b) at 1. f_equal. rewrite <- (take_drop 8 (drop 8 b)) at 1. f_equal.
      rewrite drop_drop. rewrite <- (take_drop 8 (drop (8 + 8) b)) at 1. by rewrite drop_drop. }
    rewrite E at 2. rewrite !from_le_bytes_app, !length_take, !length_drop, Hl. cbn -[take drop Z.pow]. lia.
Qed.

Lemma limbs_to_bytes_val n l :
  is_limbs n l → byte_array (8 * n) (limbs_to_bytes l) ∧ val (limbs_to_bytes l) = limbs l.
Proof.
  intros [Hl Hd]. unfold limbs_to_bytes. revert n Hl. induction Hd as [|x l Hx Hl IH]; intros n <-.
  - split; [split; [done|constructor]|done].
  - destruct (IH _ eq_refl) as [[Hlen Hb] Hv]. rewrite fmap_cons. cbn [concat].
    split; [split|].
    + rewrite length_app, length_to_le_bytes, Hlen. cbn [length]. lia.
    + apply byte_string_app. split; [apply to_le_bytes_bytes|done].
    + rewrite from_le_bytes_app, length_to_le_bytes, Hv, from_to_le_bytes by done. done.
Qed.

Lemma be_lt_spec a b :
  byte_string a → byte_string b → length a = length b →
  be_lt a b = (val (reverse a) <? val (reverse b)).
Proof.
  intros Ha. revert b. induction Ha as [|x a Hx Ha IH]; intros [|y b] Hb Hlen; try done.
  apply Forall_cons in Hb as [Hy Hb]. injection Hlen as Hlen.
  rewrite !reverse_cons, !from_le_bytes_app, !length_reverse, Hlen. cbn [from_le_bytes be_lt].
  pose proof (from_le_bytes_bound (reverse a)) as Ba. pose proof (from_le_bytes_bound (reverse b)) as Bb.
  rewrite length_reverse, Hlen in Ba. rewrite length_reverse in Bb.
  specialize (Ba (proj2 (Forall_reverse _ _) Ha)). specialize (Bb (proj2 (Forall_reverse _ _) Hb)).
  rewrite IH by done. rewrite !Z.mul_0_r, !Z.add_0_r. unfold is_byte in *.
  set (M := 256 ^ Z.of_nat (length b)) in *.
  destruct (Z.ltb_spec x y); [symmetry; apply Z.ltb_lt; nia|].
  destruct (Z.ltb_spec y x); [symmetry; apply Z.ltb_ge; nia|].
  replace y with x by lia. destruct (Z.ltb_spec (val (reverse a)) (val (reverse b))); symmetry;
    [apply Z.ltb_lt|apply Z.ltb_ge]; lia.
Qed.

Lemma le256_lt_spec a b : is_digest a → is_digest b → le256_lt a b = (val a <? val b).
Proof.
  intros [La Ha] [Lb Hb]. unfold le256_lt.
  rewrite be_lt_spec, !reverse_involutive; [done|by apply Forall_reverse..|].
  by rewrite !length_reverse, La, Lb.
Qed.

(** ** The ASERT factor *)

Definition asert_factor (s : DifficultySchedule) (height frac : Z) : Z :=
  if height <? ds_polynomial_fix_height s then asert_factor_legacy frac else asert_factor_fixed frac.

Lemma shiftr_mono a b n : 0 ≤ n → a ≤ b → Z.shiftr a n ≤ Z.shiftr b n.
Proof. intros Hn Hab. rewrite !Z.shiftr_div_pow2 by done. by apply Z.div_le_mono; [apply Z.pow_pos_nonneg|]. Qed.

Lemma asert_factor_mono s height f f' :
  0 ≤ f ≤ f' → f' < 65536 → 65536 ≤ asert_factor s height f ≤ asert_factor s height f' ∧ asert_factor s height f' ≤ 131071.
Proof.
  intros Hf Hf'. unfold asert_factor.
  assert (∀ a b, 2 ^ 47 ≤ a ≤ b → b < 2 ^ 64 →
            65536 ≤ 65536 + wrap 64 (Z.shiftr a 48) ≤ 65536 + wrap 64 (Z.shiftr b 48)
            ∧ 65536 + wrap 64 (Z.shiftr b 48) ≤ 131071) as H.
  { intros a b Ha Hb. pose proof (shiftr_mono a b 48 ltac:(lia) ltac:(lia)).
    pose proof (shiftr_mono 0 a 48 ltac:(lia) ltac:(lia)) as H0. rewrite Z.shiftr_0_l in H0.
    assert (Z.shiftr b 48 < 2 ^ 16) by (rewrite Z.shiftr_div_pow2 by lia; apply Z.div_lt_upper_bound; lia).
    rewrite !wrap_small by lia. lia. }
  destruct (height <? ds_polynomial_fix_height s); unfold asert_factor_legacy, asert_factor_fixed, ASERT_A, ASERT_B, ASERT_C;
    apply H; change (Z.shiftl 1 47) with (2 ^ 47).
  - rewrite !(Z.div_small f), !(Z.div_small f') by lia. split; [|].
    + pose proof (Z.div_pos (971821376 * f * f) 65536). nia.
    + pose proof (Z.div_le_mono (971821376 * f * f) (971821376 * f' * f') 65536). nia.
  - pose proof (Z.div_le_upper_bound (971821376 * f' * f') 65536 (971821376 * 65535)). rewrite !(Z.div_small f') by lia. nia.
  - split; [nia|]. assert (f * f ≤ f' * f') by nia. assert (f * f * f ≤ f' * f' * f') by nia. nia.
  - assert (f' * f' ≤ 65535 * 65535) by nia. assert (f' * f' * f' ≤ 65535 * 65535 * 65535) by nia. nia.
Qed.

Lemma asert_factor_zero s height : asert_factor s height 0 = 65536.
Proof. unfold asert_factor. by destruct (height <? _). Qed.

(** ** The target of a child *)

(** [T * factor * 2^k / 2^16], rounded down, for [k] of either sign. *)
Definition asert_scale (T factor k : Z) : Z :=
  T * factor * 2 ^ Z.max k 0 / 2 ^ (16 + Z.max (- k) 0).

Definition asert_value (s : DifficultySchedule) (T height exponent : Z) : Z :=
  let k := exponent / 65536 in
  if 62 <=? k then 2 ^ 238
  else Z.max 1 (Z.min (2 ^ 238) (asert_scale T (asert_factor s height (exponent mod 65536)) k)).

Lemma asert_scale_common T factor k N :
  0 ≤ N → 0 ≤ k + N → asert_scale T factor k = T * factor * 2 ^ (k + N) / 2 ^ (16 + N).
Proof.
  intros HN Hk. unfold asert_scale. set (M := N - Z.max (- k) 0).
  rewrite <- (Z.div_mul_cancel_r _ _ (2 ^ M)) by (try apply Z.pow_nonzero; lia).
  rewrite <- Z.mul_assoc, <- !Z.pow_add_r by lia. f_equal; f_equal; [|lia]. f_equal. lia.
Qed.

Lemma asert_scale_nonneg T factor k : 0 ≤ T → 0 ≤ factor → 0 ≤ asert_scale T factor k.
Proof.
  intros. apply Z.div_pos; [|apply Z.pow_pos_nonneg; lia].
  apply Z.mul_nonneg_nonneg; [nia|apply Z.pow_nonneg; lia].
Qed.

Lemma GENESIS_TARGET_val : is_digest GENESIS_TARGET ∧ val GENESIS_TARGET = 2 ^ 238.
Proof. split; [apply (bool_decide_unpack _)|]; by vm_compute. Qed.
Lemma MIN_TARGET_val : is_digest MIN_TARGET ∧ val MIN_TARGET = 1.
Proof. split; [apply (bool_decide_unpack _)|]; by vm_compute. Qed.
Lemma MAX_TARGET_val : is_digest MAX_TARGET ∧ val MAX_TARGET = 2 ^ 256 - 1.
Proof. split; [apply (bool_decide_unpack _)|]; by vm_compute. Qed.

Lemma zero_digest_val : is_digest zero_digest ∧ val zero_digest = 0.
Proof. split; [apply (bool_decide_unpack _)|]; by vm_compute. Qed.

Lemma clamp_floor_val wide :
  is_limbs 5 wide →
  let clamped := clamp (limbs_to_bytes (take 4 wide)) (default 0 (wide !! 4%nat)) in
  let target := if le256_lt GENESIS_TARGET clamped then GENESIS_TARGET else clamped in
  is_digest target ∧ val target = Z.max 1 (Z.min (2 ^ 238) (limbs wide)).
Proof.
  intros Hw. destruct GENESIS_TARGET_val as [HG VG], MIN_TARGET_val as [Hm Vm], MAX_TARGET_val as [HM VM].
  destruct wide as [|a [|b [|c [|d [|e [|]]]]]]; try (by destruct Hw).
  assert (is_limbs 4 [a; b; c; d]) as H4.
  { destruct Hw as [_ Hw]. split; [done|]. rewrite !Forall_cons in Hw |- *. naive_solver. }
  assert (digit (2 ^ 64) e) as He.
  { destruct Hw as [_ Hw]. rewrite !Forall_cons in Hw. naive_solver. }
  pose proof (limbs_bound _ _ H4) as B4. destruct (limbs_to_bytes_val 4 _ H4) as [Hr Vr].
  assert (limbs [a; b; c; d; e] = limbs [a; b; c; d] + 2 ^ 256 * e) as E.
  { change [a; b; c; d; e] with ([a; b; c; d] ++ [e]). rewrite limbs_app.
    unfold limbs at 2. rewrite digits_cons. cbn [digits foldr length]. lia. }
  cbn [take lookup list_lookup]. unfold default, from_option, id. unfold clamp, digit in *.
  set (res := limbs_to_bytes [a; b; c; d]) in *. cbv zeta.
  rewrite (le256_lt_spec MAX_TARGET res), (le256_lt_spec res MIN_TARGET), VM, Vm, Vr by done.
  destruct (Z.eqb_spec e 0) as [->|He0]; cbn [negb orb].
  2: { rewrite le256_lt_spec, VG, VM by done.
    destruct (Z.ltb_spec (2 ^ 238) (2 ^ 256 - 1)); [|lia]. split; [done|]. rewrite VG. lia. }
  rewrite E, Z.mul_0_r, Z.add_0_r. destruct (Z.ltb_spec (2 ^ 256 - 1) (limbs [a; b; c; d])); [lia|].
  case_bool_decide as Hz; cbn [orb].
  { rewrite le256_lt_spec, VG, Vm by done. destruct (Z.ltb_spec (2 ^ 238) 1); [lia|]. split; [done|]. rewrite Vm. rewrite <- Vr, Hz.
    rewrite (proj2 zero_digest_val). lia. }
  assert (limbs [a; b; c; d] ≠ 0).
  { intros C. apply Hz, val_inj; [done|apply zero_digest_val|]. by rewrite Vr, C, (proj2 zero_digest_val). }
  destruct (Z.ltb_spec (limbs [a; b; c; d]) 1); [lia|].
  rewrite le256_lt_spec, VG, Vr by done.
  destruct (Z.ltb_spec (2 ^ 238) (limbs [a; b; c; d])); split; try done; [rewrite VG; lia|rewrite Vr; lia].
Qed.

Lemma next_target_in_val s A tA T h t :
  is_digest T → 0 < val T →
  is_digest (next_target_in s A tA T h t)
  ∧ val (next_target_in s A tA T h t) = asert_value s (val T) h (asert_exponent s A tA h t).
Proof.
  intros HT Hpos. unfold next_target_in, asert_value. set (e := asert_exponent s A tA h t).
  cbv zeta. rewrite (Z.shiftr_div_pow2 e 16) by lia. change (2 ^ 16) with 65536.
  pose proof (Z.mod_pos_bound e 65536 ltac:(lia)). pose proof (Z.div_mod e 65536 ltac:(lia)).
  replace (e - e / 65536 * 65536) with (e mod 65536) by lia. rewrite wrap_small by (change (2 ^ 16) with 65536; lia).
  set (k := e / 65536) in *. fold (asert_factor s h (e mod 65536)).
  destruct (asert_factor_mono s h (e mod 65536) (e mod 65536)) as [Hf Hf']; [lia..|].
  set (f := asert_factor s h (e mod 65536)) in *.
  destruct (bytes_to_limbs_val T HT) as [HL VL]. pose proof (digest_bound T HT) as BT.
  destruct (mul_limbs_u64_val (bytes_to_limbs T) f) as [HW VW]; [done|unfold digit; lia|].
  rewrite VL in VW. set (wide := mul_limbs_u64 (bytes_to_limbs T) f) in *.
  destruct (Z.leb_spec 46 (k - 16)) as [Hk|Hk], (Z.leb_spec 62 k); try lia; [apply GENESIS_TARGET_val|].
  assert (val T * f < 2 ^ 273) as Hbound by nia.
  destruct (Z.leb_spec (k - 16) (-320)) as [Hk'|Hk'].
  { destruct MIN_TARGET_val as [? ->]. split; [done|].
    unfold asert_scale. rewrite Z.div_small; [lia|]. rewrite Z.max_r, Z.mul_1_r by lia. split; [nia|].
    etrans; [exact Hbound|]. apply Z.pow_lt_mono_r; lia. }
  destruct (shift_wide_val wide (k - 16)) as [HS VS]; [done|lia| |].
  { rewrite VW. assert (2 ^ Z.max (k - 16) 0 ≤ 2 ^ 45) by (apply Z.pow_le_mono_r; lia).
    pose proof (Z.pow_pos_nonneg 2 (Z.max (k - 16) 0) ltac:(lia) ltac:(lia)). nia. }
  assert (limbs (shift_wide wide (k - 16)) = asert_scale (val T) f k) as Hscale.
  { rewrite VS, VW. rewrite (asert_scale_common _ _ _ (Z.max (- k) 0)) by lia.
    rewrite <- (Z.div_mul_cancel_r _ _ (2 ^ (Z.max (- k) 0 + Z.min k 16))) by (try apply Z.pow_nonzero; lia).
    rewrite <- (Z.mul_assoc (val T * f)), <- !Z.pow_add_r by lia.
    by replace (Z.max (k - 16) 0 + (Z.max (- k) 0 + Z.min k 16)) with (k + Z.max (- k) 0) by lia;
      replace (Z.max (- (k - 16)) 0 + (Z.max (- k) 0 + Z.min k 16)) with (16 + Z.max (- k) 0) by lia. }
  case_bool_decide as Hz.
  - assert (k ≤ 16) as Hle.
    { destruct (Z.le_gt_cases k 16) as [|Hgt]; [done|exfalso].
      assert (limbs (shift_wide wide (k - 16)) = 0) as C by by rewrite Hz.
      rewrite Hscale in C. unfold asert_scale in C. rewrite (Z.max_r (- k)), Z.max_l in C by lia.
      apply Z.div_small_iff in C; [|lia]. assert (2 ^ 17 ≤ 2 ^ k) by (apply Z.pow_le_mono_r; lia). nia. }
    destruct (Z.ltb_spec 0 (k - 16)); [lia|]. cbn [andb].
    rewrite <- Hscale. by apply clamp_floor_val.
  - rewrite andb_false_r. rewrite <- Hscale. by apply clamp_floor_val.
Qed.

Lemma asert_value_bounds s T h e : 0 ≤ T → 1 ≤ asert_value s T h e ≤ 2 ^ 238.
Proof. intros HT. unfold asert_value. cbv zeta. destruct (62 <=? _); lia. Qed.

Lemma asert_value_mono s T h e e' : 0 ≤ T → e ≤ e' → asert_value s T h e ≤ asert_value s T h e'.
Proof.
  intros HT He. pose proof (asert_value_bounds s T h e HT) as Hb. revert Hb. unfold asert_value. cbv zeta.
  pose proof (Z.div_le_mono e e' 65536 ltac:(lia) He).
  destruct (Z.leb_spec 62 (e' / 65536)); [lia|]. destruct (Z.leb_spec 62 (e / 65536)); [lia|]. intros _.
  pose proof (Z.mod_pos_bound e 65536 ltac:(lia)). pose proof (Z.mod_pos_bound e' 65536 ltac:(lia)).
  pose proof (Z.div_mod e 65536 ltac:(lia)). pose proof (Z.div_mod e' 65536 ltac:(lia)).
  set (k := e / 65536) in *. set (k' := e' / 65536) in *. set (N := Z.max (- k) 0 + Z.max (- k') 0).
  rewrite !(asert_scale_common _ _ _ N) by lia.
  enough (asert_factor s h (e mod 65536) * 2 ^ (k + N) ≤ asert_factor s h (e' mod 65536) * 2 ^ (k' + N)) as Hle.
  { assert (T * asert_factor s h (e mod 65536) * 2 ^ (k + N)
            ≤ T * asert_factor s h (e' mod 65536) * 2 ^ (k' + N)) as Hn by nia.
    pose proof (Z.div_le_mono _ _ (2 ^ (16 + N)) ltac:(apply Z.pow_pos_nonneg; lia) Hn). lia. }
  destruct (Z.eq_dec k k') as [E|E].
  - rewrite E in *. apply Z.mul_le_mono_nonneg_r; [apply Z.pow_nonneg; lia|].
    apply asert_factor_mono; lia.
  - destruct (asert_factor_mono s h (e mod 65536) (e mod 65536)) as [_ Hf]; [lia..|].
    destruct (asert_factor_mono s h (e' mod 65536) (e' mod 65536)) as [Hf' _]; [lia..|].
    assert (2 * 2 ^ (k + N) ≤ 2 ^ (k' + N)) as Hp.
    { rewrite <- Z.pow_succ_r by lia. apply Z.pow_le_mono_r; lia. }
    pose proof (Z.pow_pos_nonneg 2 (k + N) ltac:(lia) ltac:(lia)). nia.
Qed.

Lemma halflife_at_pos s h : 0 < halflife_at s h.
Proof.
  unfold halflife_at, halflife_at_with, HALFLIFE_V1_6, HALFLIFE_V1_5, HALFLIFE.
  destruct (v1_6_rule_at s h); [lia|]. destruct (v1_5_active_with _ _); lia.
Qed.

Lemma asert_exponent_mono s A tA h t t' :
  t ≤ t' → asert_exponent s A tA h t ≤ asert_exponent s A tA h t'.
Proof.
  intros Ht. unfold asert_exponent. cbv zeta. pose proof (halflife_at_pos s h).
  assert (actual_elapsed s tA h t ≤ actual_elapsed s tA h t') as Ha.
  { unfold actual_elapsed, saturating_sub. destruct (v1_6_rule_at s h); lia. }
  pose proof (Z.quot_le_mono ((actual_elapsed s tA h t - ideal_elapsed s A h) * 65536)
                ((actual_elapsed s tA h t' - ideal_elapsed s A h) * 65536) (halflife_at s h) ltac:(lia) ltac:(lia)).
  lia.
Qed.

(** ** The halved target of the v1.5 activation block *)

Lemma halve_digits l :
  Forall (digit 256) l →
  Forall (digit 256) (imap (halve_byte l) l) ∧ digits 256 (imap (halve_byte l) l) = digits 256 l / 2.
Proof.
  induction 1 as [|x l Hx Hl IH]; [done|].
  assert (imap (halve_byte (x :: l)) (x :: l) = halve_byte (x :: l) 0 x :: imap (halve_byte l) l) as ->.
  { rewrite imap_cons. f_equal. }
  destruct IH as [IHd IHv]. unfold digit in *.
  assert (halve_byte (x :: l) 0 x = x / 2 + (digits 256 l mod 2) * 128) as E.
  { unfold halve_byte.
    rewrite (Z.shiftr_div_pow2 x 1) by lia. change (2 ^ 1) with 2.
    pose proof (Z.div_pos x 2). pose proof (Z.div_lt_upper_bound x 2 128).
    destruct l as [|y l]; cbn [lookup list_lookup].
    - rewrite Z.lor_0_r. change (digits 256 []) with 0. rewrite Z.mod_0_l; lia.
    - apply Forall_cons in Hl as [Hy Hl]. unfold wrap. rewrite (Z.shiftl_mul_pow2 y 7) by lia.
      change (2 ^ 8) with (2 * 2 ^ 7). rewrite Z.mul_mod_distr_r, Z.lor_comm, <- Z.shiftl_mul_pow2 by lia.
      rewrite lor_shiftl_add by lia. rewrite digits_cons.
      replace (y + 256 * digits 256 l) with (y + (128 * digits 256 l) * 2) by lia. rewrite Z.mod_add by lia. lia. }
  rewrite E, !digits_cons, IHv.
  pose proof (Z.div_mod x 2). pose proof (Z.mod_pos_bound x 2).
  pose proof (Z.div_mod (digits 256 l) 2). pose proof (Z.mod_pos_bound (digits 256 l) 2).
  split; [constructor; [lia|done]|].
  apply Z.div_unique with (x mod 2); lia.
Qed.

Lemma v1_5_activation_target_val T :
  is_digest T →
  is_digest (v1_5_activation_target T) ∧ val (v1_5_activation_target T) = Z.max 1 (val T / 2).
Proof.
  intros HT. destruct MIN_TARGET_val as [Hm Vm]. destruct (digest_digits T HT) as [Hd Hl].
  destruct (halve_digits T Hd) as [Hh Vh]. unfold v1_5_activation_target.
  set (halved := imap (halve_byte T) T) in *.
  assert (is_digest halved) as Hhd by (split; [by unfold halved; rewrite length_imap|done]).
  cbv zeta. rewrite le256_lt_spec, Vm, (from_le_digits halved), Vh by done. rewrite (from_le_digits T).
  destruct (Z.ltb_spec (digits 256 T / 2) 1); split; try done; [lia|].
  rewrite from_le_digits, Vh. lia.
Qed.

Lemma v1_5_activation_target_mono T T' B :
  is_digest T → is_digest T' → 1 ≤ val T → val T ≤ val T' → val T' ≤ B →
  let v := v1_5_activation_target in
  is_digest (v T) ∧ 1 ≤ val (v T) ∧ val (v T) ≤ val (v T') ∧ val (v T') ≤ B.
Proof.
  intros HT HT' H1 H2 H3. cbv zeta.
  destruct (v1_5_activation_target_val T HT) as [? ->], (v1_5_activation_target_val T' HT') as [? ->].
  pose proof (Z.div_le_mono (val T) (val T') 2 ltac:(lia) H2). pose proof (Z.div_le_upper_bound (val T') 2 (val T')).
  split_and!; [done|lia..].
Qed.

(** ** Ideal elapsed time *)

(** The target intervals of the blocks [A + 1 .. A + n]. *)
Definition interval_sum (s : DifficultySchedule) (A : Z) (n : nat) : Z :=
  sum_Z ((λ i, block_time_at s (A + 1 + Z.of_nat i)) <$> seq 0 n).

Lemma interval_sum_slow s A n :
  interval_sum s A n = BLOCK_TIME * (Z.of_nat n - slow_intervals s A (Z.of_nat n))
                       + BLOCK_TIME_V1_5 * slow_intervals s A (Z.of_nat n)
  ∧ 0 ≤ slow_intervals s A (Z.of_nat n) ≤ Z.of_nat n.
Proof.
  unfold interval_sum. induction n as [|n [IH IHs]].
  { assert (slow_intervals s A (Z.of_nat 0) = 0) as -> by (unfold slow_intervals; by destruct (ds_v1_5_activation s)).
    done. }
  rewrite seq_S, fmap_app, sum_Z_app, IH. cbn [fmap list_fmap Nat.add].
  rewrite sum_Z_cons. change (sum_Z []) with 0. revert IHs.
  unfold slow_intervals, block_time_at, block_time_at_with, v1_5_active_with, BLOCK_TIME, BLOCK_TIME_V1_5.
  rewrite !Nat2Z.inj_succ. destruct (ds_v1_5_activation s) as [J|]; [|lia].
  destruct (Z.ltb_spec 0 (Z.succ (Z.of_nat n))); [|lia].
  destruct (Z.ltb_spec 0 (Z.of_nat n)), (Z.leb_spec J (A + 1 + Z.of_nat n)),
    (Z.ltb_spec (A + Z.succ (Z.of_nat n)) J), (Z.leb_spec J (A + 1)), (Z.ltb_spec (A + Z.of_nat n) J); lia.
Qed.

Lemma ideal_elapsed_sum s A h :
  0 ≤ A < h → h < 2 ^ 55 → ideal_elapsed s A h = interval_sum s A (Z.to_nat (h - A - 1)).
Proof.
  intros HA Hh. destruct (interval_sum_slow s A (Z.to_nat (h - A - 1))) as [-> Hs].
  rewrite Z2Nat.id in * by lia. unfold ideal_elapsed, saturating_sub.
  rewrite !Z.max_l by lia. set (n := h - A - 1) in *. set (k := slow_intervals s A n) in *.
  cbv zeta. unfold saturating_mul, saturating_add, uint_max, as_i64, BLOCK_TIME, BLOCK_TIME_V1_5.
  destruct (Z.eqb_spec k 0) as [->|Hk];
    repeat match goal with |- context [Z.min ?a ?b] => rewrite (Z.min_l a b) by lia end;
    match goal with |- context [?a <? ?b] => destruct (Z.ltb_spec a b) end; lia.
Qed.

(** ** The target a header must carry *)

Lemma expected_target_asert s A tA tP T h t :
  boundary_target s h = None →
  expected_target_in s A tA tP T h t =
    let asert := if v1_6_rule_at s h then next_target_in s (saturating_sub A 1) tP T h t
                 else next_target_in s A tA T h t in
    if is_v1_5_activation s h then v1_5_activation_target asert else asert.
Proof. intros H. unfold expected_target_in. by rewrite H. Qed.

Lemma boundary_target_production h T :
  boundary_target PRODUCTION h = Some T → is_digest T ∧ 1 ≤ val T ≤ 2 ^ 238.
Proof.
  unfold boundary_target. cbn -[two_pow_target V1_4_ANCHOR_TARGET Z.pow from_le_bytes].
  unfold V1_4_ANCHOR_TARGET. destruct (h =? 24846); intros [= <-].
  split; [apply (bool_decide_unpack _); by vm_compute|by vm_compute].
Qed.

(** C32: Later blocks are never harder.  For every anchor with a valid target,
    the target a child must carry is a 32-byte number between 1 and the genesis
    target, and it does not fall when the parent's timestamp grows: waiting
    never makes the next block harder to mine, on every side of every
    activation height, with either ASERT polynomial. *)
Theorem expected_target_monotone (anchor : AnchorInfo) (height t t' : Z) :
  is_digest (ai_anchor_target anchor) → 0 < val (ai_anchor_target anchor) → t ≤ t' →
  is_digest (expected_target anchor height t)
  ∧ val MIN_TARGET ≤ val (expected_target anchor height t)
  ∧ val (expected_target anchor height t) ≤ val (expected_target anchor height t')
  ∧ val (expected_target anchor height t') ≤ val GENESIS_TARGET.
Proof.
  intros HT Hpos Ht. rewrite (proj2 MIN_TARGET_val), (proj2 GENESIS_TARGET_val).
  unfold expected_target. destruct (boundary_target PRODUCTION height) as [T|] eqn:HB.
  { unfold expected_target_in. rewrite HB. apply boundary_target_production in HB as [? ?].
    split_and!; [done|lia..]. }
  rewrite !expected_target_asert by done. cbv zeta.
  assert (∀ A tA, let v t := next_target_in PRODUCTION A tA (ai_anchor_target anchor) height t in
            is_digest (v t) ∧ is_digest (v t') ∧ 1 ≤ val (v t) ∧ val (v t) ≤ val (v t') ∧ val (v t') ≤ 2 ^ 238) as Hv.
  { intros A tA v. destruct (next_target_in_val PRODUCTION A tA _ height t HT Hpos) as [D V].
    destruct (next_target_in_val PRODUCTION A tA _ height t' HT Hpos) as [D' V'].
    unfold v. rewrite V, V'. split_and!; [done|done|..]; try (apply asert_value_bounds; lia).
    apply asert_value_mono, asert_exponent_mono; lia. }
  destruct (v1_6_rule_at PRODUCTION height);
    [destruct (Hv (saturating_sub (ai_anchor_height anchor) 1) (ai_anchor_parent_timestamp anchor)) as (D & D' & H1 & H2 & H3)
    |destruct (Hv (ai_anchor_height anchor) (ai_anchor_timestamp anchor)) as (D & D' & H1 & H2 & H3)];
    (destruct (is_v1_5_activation PRODUCTION height); 
       [exact (v1_5_activation_target_mono _ _ _ D D' H1 H2 H3)|exact (conj D (conj H1 (conj H2 H3)))]).
Qed.

Lemma expected_target_monotone_witness :
  let anchor := mkAnchorInfo 46080 5000000 4999820 (two_pow_target 220) in
  val (expected_target anchor 46083 5000500) ≤ val (expected_target anchor 46083 5000900).
Proof.
  cbv zeta. refine (proj1 (proj2 (proj2 (expected_target_monotone _ 46083 5000500 5000900 _ _ _))));
    [apply (bool_decide_unpack _)|..]; by vm_compute.
Defined.

(** One halflife doubles the target.  When the parent's timestamp is [d]
    halflives behind the sum of the target intervals counted from the anchor,
    the child's target is the anchor's target multiplied by [2^d] (divided by
    [2^-d] when it is ahead), rounded down and kept between 1 and the genesis
    target; on schedule ([d = 0]) it is unchanged.  From 62 halflives on it is
    the genesis target whatever the anchor's target was. *)
Theorem asert_halflives (s : DifficultySchedule) (A tA : Z) (T : list Z) (h t d : Z) :
  0 ≤ A < h → h < 2 ^ 32 → is_digest T → 0 < val T →
  v1_6_rule_at s h = true ∨ tA ≤ t → - 2 ^ 40 < t - tA < 2 ^ 40 →
  t - tA = interval_sum s A (Z.to_nat (h - A - 1)) + d * halflife_at s h →
  val (next_target_in s A tA T h t) =
    if 62 <=? d then val GENESIS_TARGET
    else Z.max (val MIN_TARGET)
           (Z.min (val GENESIS_TARGET) (val T * 2 ^ Z.max d 0 / 2 ^ Z.max (- d) 0)).
Proof.
  intros HA Hh HT Hpos Hrule Hrange Helapsed.
  rewrite (proj2 MIN_TARGET_val), (proj2 GENESIS_TARGET_val).
  destruct (next_target_in_val s A tA T h t HT Hpos) as [_ ->].
  assert (halflife_at s h ≤ 2160 ∧ 540 ≤ halflife_at s h) as [Hl Hl'].
  { unfold halflife_at, halflife_at_with, HALFLIFE_V1_6, HALFLIFE_V1_5, HALFLIFE.
    destruct (v1_6_rule_at s h); [lia|]. destruct (v1_5_active_with _ _); lia. }
  destruct (interval_sum_slow s A (Z.to_nat (h - A - 1))) as [Hsum Hslow].
  rewrite Z2Nat.id in Hsum, Hslow by lia. unfold BLOCK_TIME, BLOCK_TIME_V1_5 in Hsum.
  assert (asert_exponent s A tA h t = d * 65536) as ->.
  { unfold asert_exponent. cbv zeta. rewrite ideal_elapsed_sum by lia.
    assert (actual_elapsed s tA h t = t - tA) as ->.
    { unfold actual_elapsed, saturating_sub, i64_max. destruct (v1_6_rule_at s h); [done|].
      destruct Hrule; [done|]. lia. }
    replace ((t - tA - interval_sum s A (Z.to_nat (h - A - 1))) * 65536) with (d * 65536 * halflife_at s h) by nia.
    rewrite Z.quot_mul by lia. unfold i64_min, i64_max. assert (- 2 ^ 42 ≤ d ≤ 2 ^ 42) by nia. lia. }
  unfold asert_value. cbv zeta. rewrite Z.div_mul, Z.mod_mul, asert_factor_zero by lia.
  destruct (62 <=? d); [done|]. f_equal. f_equal. unfold asert_scale.
  rewrite Z.pow_add_r, (Z.mul_comm (2 ^ 16)) by lia. change 65536 with (2 ^ 16).
  rewrite <- (Z.mul_assoc (val T)), (Z.mul_comm (2 ^ 16)), Z.mul_assoc.
  apply Z.div_mul_cancel_r; [apply Z.pow_nonzero; lia|done].
Qed.

Lemma asert_halflives_witness :
  val (next_target_in PRODUCTION 46080 5000000 (two_pow_target 220) 46086 (5000000 + 5 * 180 + 3 * 2160)) = 2 ^ 223.
Proof.
  rewrite (asert_halflives PRODUCTION 46080 5000000 (two_pow_target 220) 46086 _ 3);
    [by vm_compute|lia|lia|apply (bool_decide_unpack _); by vm_compute|by vm_compute|by left|lia|by vm_compute].
Defined.
