(* ===== verification/Work.v ===== *)
(** * Chain work

    The byte-wise 256-bit addition and division of
    [consensus/difficulty.rs] compute sums and quotients, so the work of a
    block is [2^256] divided by its target, rounded up, and cumulative work is
    the saturated sum, which [fork_choice.rs] compares. *)

From S2P Require Import Prelude Machine Params Difficulty DifficultyProps.

(** ** Byte loops *)

Ltac to_digits :=
  repeat match goal with
  | |- context [from_le_bytes ?l] => rewrite (from_le_digits l)
  | H : context [from_le_bytes ?l] |- _ => rewrite (from_le_digits l) in H
  end.

Lemma shl1_256_val a :
  is_digest a → val a < 2 ^ 255 → is_digest (shl1_256 a) ∧ val (shl1_256 a) = 2 * val a.
Proof.
  intros Ha Hlt. destruct (digest_digits a Ha) as [Hd Hl]. unfold shl1_256.
  destruct (ripple_digits 256 1 (λ x, x * 2) (λ c, 0 ≤ c < 2) shl1_byte 0 a) as (Hds & Hlen & Hc & Hsum).
  { intros c x Hc Hx. rewrite Forall_forall in Hd. apply (shift_digit 8 1); [lia|by apply Hd|done]. }
  { lia. }
  rewrite Hl in Hlen, Hsum. split; [done|]. to_digits.
  assert (0 ≤ digits 256 (fst (ripple shl1_byte 0 a)) < 256 ^ Z.of_nat 32) as B.
  { rewrite <- Hlen. by apply digits_bound. }
  rewrite digits_scale in Hsum. change (256 ^ Z.of_nat 32) with (2 ^ 256) in *.
  lia.
Qed.

Lemma sub_assign_256_val a b :
  is_digest a → is_digest b → val b ≤ val a →
  is_digest (sub_assign_256 a b) ∧ val (sub_assign_256 a b) = val a - val b.
Proof.
  intros Ha Hb Hle. destruct (digest_digits a Ha) as [Da La], (digest_digits b Hb) as [Db Lb]. unfold sub_assign_256.
  assert (length (zip a b) = 32%nat) as Lz by (rewrite length_zip; lia).
  destruct (ripple_digits 256 (-1) (λ p, fst p + -1 * snd p) (λ c, 0 ≤ c ≤ 1) sub_byte 0 (zip a b)) as (Hds & Hlen & Hc & Hsum).
  { intros c [x y] Hc Hx. apply elem_of_zip_l in Hx as Hxa. apply elem_of_zip_r in Hx as Hyb.
    rewrite Forall_forall in Da. rewrite Forall_forall in Db. specialize (Da x Hxa). specialize (Db y Hyb).
    unfold digit, sub_byte in *. cbn [fst snd]. destruct (Z.ltb_spec (x - y - c) 0); cbn [fst snd]; lia. }
  { lia. }
  rewrite Lz in Hlen, Hsum. split; [done|]. to_digits.
  assert (0 ≤ digits 256 (fst (ripple sub_byte 0 (zip a b))) < 256 ^ Z.of_nat 32) as B.
  { rewrite <- Hlen. by apply digits_bound. }
  pose proof (digits_bound 256 a ltac:(lia) Da) as Ba. rewrite La in Ba.
  pose proof (digits_bound 256 b ltac:(lia) Db) as Bb.
  rewrite digits_zip in Hsum by lia. change (256 ^ Z.of_nat 32) with (2 ^ 256) in *. nia.
Qed.

Lemma add_work_val a b :
  is_digest a → is_digest b →
  is_digest (add_work a b) ∧ val (add_work a b) = Z.min (2 ^ 256 - 1) (val a + val b).
Proof.
  intros Ha Hb. destruct (digest_digits a Ha) as [Da La], (digest_digits b Hb) as [Db Lb]. unfold add_work.
  assert (length (zip a b) = 32%nat) as Lz by (rewrite length_zip; lia).
  destruct (ripple_digits 256 1 (λ p, fst p + 1 * snd p) (λ c, 0 ≤ c ≤ 1) add_byte 0 (zip a b)) as (Hds & Hlen & Hc & Hsum).
  { intros c [x y] Hc Hx. apply elem_of_zip_l in Hx as Hxa. apply elem_of_zip_r in Hx as Hyb.
    rewrite Forall_forall in Da. rewrite Forall_forall in Db. specialize (Da x Hxa). specialize (Db y Hyb).
    unfold digit, add_byte, wrap in *. cbn [fst snd]. rewrite Z.shiftr_div_pow2 by lia. change (2 ^ 8) with 256.
    pose proof (Z.mod_pos_bound (x + y + c) 256 ltac:(lia)). pose proof (Z.div_mod (x + y + c) 256 ltac:(lia)). lia. }
  { lia. }
  rewrite Lz in Hlen, Hsum. destruct (ripple add_byte 0 (zip a b)) as [ds c]; cbn [fst snd] in *.
  assert (0 ≤ digits 256 ds < 256 ^ Z.of_nat 32) as B by (rewrite <- Hlen; by apply digits_bound).
  rewrite digits_zip in Hsum by lia. change (256 ^ Z.of_nat 32) with (2 ^ 256) in *.
  destruct (Z.eqb_spec c 0) as [->|Hc0]; cbn [negb].
  - split; [done|]. to_digits. lia.
  - split; [apply MAX_TARGET_val|]. change (replicate 32 0xFF) with MAX_TARGET.
    rewrite (proj2 MAX_TARGET_val). to_digits. lia.
Qed.

Lemma add_one_val a :
  Forall (digit 256) a →
  match add_one a with
  | Some a' => Forall (digit 256) a' ∧ length a' = length a ∧ digits 256 a' = digits 256 a + 1
  | None => digits 256 a = 256 ^ Z.of_nat (length a) - 1
  end.
Proof.
  induction 1 as [|x a Hx Ha IH]; [done|]. unfold digit in Hx. cbn [add_one].
  destruct (Z.eqb_spec x 255) as [->|Hx0].
  - destruct (add_one a) as [a'|]; cbn [fmap option_fmap option_map].
    + destruct IH as (Hd & Hl & Hv). rewrite !digits_cons, Hv. split_and!; [|cbn; lia|lia].
      constructor; [unfold digit; lia|done].
    + rewrite digits_cons, length_cons, Nat2Z.inj_succ, Z.pow_succ_r, IH by lia. lia.
  - rewrite !digits_cons. split_and!; [constructor; [unfold digit; lia|done]|done|lia].
Qed.

Lemma add_one_saturating_val a :
  is_digest a →
  is_digest (add_one_saturating a) ∧ val (add_one_saturating a) = Z.min (2 ^ 256 - 1) (val a + 1).
Proof.
  intros Ha. pose proof (digest_bound a Ha) as Hb. destruct (digest_digits a Ha) as [Hd Hl].
  pose proof (add_one_val a Hd) as H. unfold add_one_saturating. to_digits.
  destruct (add_one a) as [a'|]; cbn [default from_option id].
  - destruct H as (Hd' & Hl' & Hv). assert (is_digest a') as HD by (split; [by rewrite Hl'|done]).
    split; [done|]. pose proof (digest_bound a' HD) as Hb'. to_digits. lia.
  - rewrite Hl in H. change (256 ^ Z.of_nat 32) with (2 ^ 256) in H.
    split; [apply MAX_TARGET_val|]. change (replicate 32 0xFF) with MAX_TARGET.
    pose proof (proj2 MAX_TARGET_val). to_digits. lia.
Qed.

(** ** Bits *)

Lemma testbit_add_high a n b j : 0 ≤ a < 2 ^ n → 0 ≤ n → 0 ≤ j → Z.testbit (a + 2 ^ n * b) (n + j) = Z.testbit b j.
Proof.
  intros Ha Hn Hj. rewrite (Z.add_comm a), Z.mul_comm, <- lor_shiftl_add, Z.lor_spec by lia.
  rewrite (testbit_uint_high n a), orb_false_r, Z.shiftl_spec by lia. f_equal. lia.
Qed.

Lemma testbit_add_low a n b j : 0 ≤ a < 2 ^ n → 0 ≤ j < n → Z.testbit (a + 2 ^ n * b) j = Z.testbit a j.
Proof.
  intros Ha Hj. rewrite (Z.add_comm a), Z.mul_comm, <- lor_shiftl_add, Z.lor_spec by lia.
  by rewrite Z.shiftl_spec_low by lia.
Qed.

Lemma digits_split (l : list Z) k x :
  l !! k = Some x →
  digits 256 l = digits 256 (take k l) + 256 ^ Z.of_nat k * (x + 256 * digits 256 (drop (S k) l)).
Proof.
  intros Hx. rewrite <- (take_drop_middle l k x Hx) at 1. rewrite digits_app, digits_cons, length_take.
  apply lookup_lt_Some in Hx. by rewrite Nat.min_l by lia.
Qed.

Lemma digest_byte a i :
  is_digest a → (i < 256)%nat → ∃ x, a !! (i / 8)%nat = Some x ∧ digit 256 x.
Proof.
  intros [Hl Hb] Hi. destruct (lookup_lt_is_Some_2 a (i / 8)) as [x Hx].
  { rewrite Hl. apply Nat.Div0.div_lt_upper_bound. lia. }
  exists x. split; [done|]. by eapply Forall_lookup_1 in Hb.
Qed.

Lemma bit_index i : Z.of_nat i = 8 * Z.of_nat (i / 8) + Z.of_nat (i mod 8) ∧ 0 ≤ Z.of_nat (i mod 8) < 8.
Proof. pose proof (Nat.div_mod_eq i 8). pose proof (Nat.mod_upper_bound i 8). lia. Qed.

Lemma bit_256_val a i : is_digest a → (i < 256)%nat → bit_256 a i = Z.testbit (val a) (Z.of_nat i).
Proof.
  intros Ha Hi. destruct (digest_byte a i Ha Hi) as (x & Hx & Hd). destruct (digest_digits a Ha) as [Da La].
  unfold bit_256. rewrite Hx. cbn [default from_option id]. destruct (bit_index i) as [Ei Hj].
  set (k := (i / 8)%nat) in *. set (j := Z.of_nat (i mod 8)) in *.
  rewrite (from_le_digits a), (digits_split a k x Hx), Ei.
  pose proof (digits_bound 256 (take k a) ltac:(lia) (Forall_take _ _ _ Da)) as Bt.
  rewrite length_take, Nat.min_l in Bt by (apply lookup_lt_Some in Hx; lia).
  replace (256 ^ Z.of_nat k) with (2 ^ (8 * Z.of_nat k)) in * by (by rewrite Z.pow_mul_r by lia).
  rewrite testbit_add_high by lia. change 256 with (2 ^ 8). rewrite testbit_add_low by (unfold digit in Hd; lia).
  change 1 with (Z.ones 1) at 1. rewrite Z.land_ones by lia. change (2 ^ 1) with 2.
  assert (Z.testbit x j = Z.testbit (Z.shiftr x j) 0) as -> by (rewrite Z.shiftr_spec by lia; f_equal; lia).
  rewrite Z.bit0_odd, Zmod_odd. by destruct (Z.odd (Z.shiftr x j)).
Qed.

Lemma alter_at {A} (f : A → A) (l : list A) k x : l !! k = Some x → alter f k l = <[k := f x]> l.
Proof.
  intros Hx. rewrite list_insert_alter. apply list_eq. intros i.
  destruct (decide (i = k)) as [->|Hi]; [by rewrite !list_lookup_alter_eq, Hx|by rewrite !list_lookup_alter_ne].
Qed.

(** Setting a clear bit of one byte. *)
Lemma set_byte_bit_val a k x j :
  is_digest a → a !! k = Some x → 0 ≤ j < 8 → Z.testbit x j = false →
  let a' := alter (λ byte, Z.lor byte (Z.shiftl 1 j)) k a in
  is_digest a' ∧ val a' = val a + 2 ^ (8 * Z.of_nat k + j).
Proof.
  intros Ha Hx Hj Hbit. cbv zeta. destruct (digest_digits a Ha) as [Da La].
  assert (digit 256 x) as Hd by (by eapply Forall_lookup_1 in Da).
  assert (Z.lor x (Z.shiftl 1 j) = x + 2 ^ j) as E.
  { rewrite Z.shiftl_1_l. symmetry. rewrite Z.add_nocarry_lxor; [apply Z.lxor_lor|];
      (apply Z.bits_inj'; intros n Hn; rewrite Z.land_spec, Z.bits_0, Z.pow2_bits_eqb by lia;
       destruct (Z.eqb_spec j n) as [<-|]; [by rewrite Hbit|apply andb_false_r]). }
  assert (digit 256 (x + 2 ^ j)) as Hd'.
  { rewrite <- E. unfold digit in *. split; [apply Z.lor_nonneg; rewrite Z.shiftl_1_l; lia|].
    change 256 with (2 ^ 8) in *. assert (2 ^ j < 2 ^ 8) by (apply Z.pow_lt_mono_r; lia).
    pose proof (Z.log2_lor x (Z.shiftl 1 j) ltac:(lia) ltac:(rewrite Z.shiftl_1_l; lia)) as HL.
    rewrite Z.shiftl_1_l, (Z.log2_pow2 j) in HL by lia.
    destruct (Z.eq_dec (Z.lor x (Z.shiftl 1 j)) 0) as [->|]; [lia|]. apply Z.log2_lt_pow2.
    - assert (0 ≤ Z.lor x (Z.shiftl 1 j)) by (apply Z.lor_nonneg; rewrite Z.shiftl_1_l; lia). lia.
    - rewrite Z.shiftl_1_l, HL. destruct (Z.eq_dec x 0) as [->|]; [cbn; lia|].
      assert (Z.log2 x < 8) by (apply Z.log2_lt_pow2; lia). lia. }
  rewrite (alter_at _ _ _ _ Hx), E. pose proof (lookup_lt_Some _ _ _ Hx) as Hk.
  split; [split; [by rewrite length_insert|by apply Forall_insert]|].
  rewrite insert_take_drop by done.
  to_digits. rewrite (digits_split a k x Hx), digits_app, digits_cons, length_take, Nat.min_l by lia.
  rewrite Z.pow_add_r, (Z.pow_mul_r 2 8) by lia. change (2 ^ 8) with 256. lia.
Qed.

Lemma set_bit_256_val a i :
  is_digest a → (i < 256)%nat → Z.testbit (val a) (Z.of_nat i) = false →
  is_digest (set_bit_256 a i) ∧ val (set_bit_256 a i) = val a + 2 ^ Z.of_nat i.
Proof.
  intros Ha Hi Hbit. destruct (digest_byte a i Ha Hi) as (x & Hx & Hd). destruct (bit_index i) as [Ei Hj].
  rewrite <- bit_256_val in Hbit by done. unfold bit_256, set_bit_256 in *. rewrite Hx in Hbit.
  cbn [default from_option id] in Hbit. rewrite Ei. apply (set_byte_bit_val a (i / 8)%nat x); [done..|].
  change 1 with (Z.ones 1) in Hbit at 1. rewrite Z.land_ones in Hbit by lia. change (2 ^ 1) with 2 in Hbit.
  replace (Z.testbit x (Z.of_nat (i mod 8))) with (Z.testbit (Z.shiftr x (Z.of_nat (i mod 8))) 0)
    by (rewrite Z.shiftr_spec by lia; f_equal; lia).
  rewrite Z.bit0_odd. rewrite Zmod_odd in Hbit. by destruct (Z.odd _).
Qed.

Lemma set_low_bit_val a :
  is_digest a → Z.even (val a) = true →
  is_digest (alter (λ byte, Z.lor byte 1) 0%nat a) ∧ val (alter (λ byte, Z.lor byte 1) 0%nat a) = val a + 1.
Proof.
  intros Ha He. apply (set_bit_256_val a 0); [done|lia|].
  rewrite Z.bit0_odd, <- Z.negb_even, He. done.
Qed.

(** ** Division *)

Lemma is_zero_256_val a : is_digest a → is_zero_256 a = (val a =? 0).
Proof.
  intros Ha. destruct (Z.eqb_spec (val a) 0) as [E|E].
  - assert (a = zero_digest) as ->; [|done]. apply val_inj; [done|apply zero_digest_val|].
    by rewrite (proj2 zero_digest_val).
  - apply not_true_is_false. intros H. apply E. unfold is_zero_256 in H. clear -H.
    induction a as [|x a IH]; [done|]. cbn in H. apply andb_true_iff in H as [Hx H].
    cbn [from_le_bytes]. rewrite IH by done. lia.
Qed.

(** After the bits above [b], the quotient and remainder are those of the
    numerator's high part. *)
Record div_inv (N D : Z) (b : nat) (acc : list Z * list Z) : Prop := {
  di_quotient : is_digest (fst acc) ∧ val (fst acc) = N / 2 ^ Z.of_nat b / D * 2 ^ Z.of_nat b;
  di_remainder : is_digest (snd acc) ∧ val (snd acc) = (N / 2 ^ Z.of_nat b) mod D;
}.

Lemma div_step_ok n d b acc :
  is_digest n → is_digest d → 0 < val d → (b < 256)%nat →
  div_inv (val n) (val d) (S b) acc → div_inv (val n) (val d) b (div_step n d acc b).
Proof.
  intros Hn Hd Hpos Hb [[Hq Vq] [Hr Vr]]. destruct acc as [q r]; cbn [fst snd] in *.
  pose proof (digest_bound n Hn) as Bn. set (N := val n) in *. set (D := val d) in *.
  assert (2 ^ Z.of_nat (S b) = 2 * 2 ^ Z.of_nat b) as E2 by (rewrite Nat2Z.inj_succ, Z.pow_succ_r by lia; done).
  pose proof (Z.pow_pos_nonneg 2 (Z.of_nat b) ltac:(lia) ltac:(lia)) as Hp.
  set (H := N / 2 ^ Z.of_nat (S b)) in *.
  assert (N / 2 ^ Z.of_nat b = 2 * H + Z.b2z (Z.testbit N (Z.of_nat b))) as EN.
  { rewrite Z.testbit_spec' by lia. unfold H. rewrite E2, (Z.mul_comm 2 (2 ^ Z.of_nat b)), <- Z.div_div by lia.
    apply Z.div_mod. lia. }
  assert (0 ≤ H < 2 ^ 255) as BH.
  { split; [apply Z.div_pos; lia|]. apply Z.div_lt_upper_bound; [lia|]. rewrite E2. nia. }
  pose proof (Z.mod_pos_bound H D Hpos) as Bm. pose proof (Z.mod_le H D ltac:(lia) Hpos) as Bl.
  pose proof (Z.div_mod H D ltac:(lia)) as DM.
  unfold div_step. destruct (shl1_256_val r Hr) as [Hr2 Vr2]; [lia|].
  rewrite bit_256_val by done. fold N.
  set (r' := if Z.testbit N (Z.of_nat b) then alter (λ byte, Z.lor byte 1) 0%nat (shl1_256 r) else shl1_256 r).
  assert (is_digest r' ∧ val r' = 2 * (H mod D) + Z.b2z (Z.testbit N (Z.of_nat b))) as [Hr' Vr'].
  { unfold r'. destruct (Z.testbit N (Z.of_nat b)); cbn [Z.b2z].
    - destruct (set_low_bit_val (shl1_256 r) Hr2) as [? ->]; [by rewrite Vr2, Z.even_mul|]. split; [done|lia].
    - split; [done|lia]. }
  set (bit := Z.b2z (Z.testbit N (Z.of_nat b))) in *.
  assert (0 ≤ bit ≤ 1) as Bbit by (unfold bit; destruct (Z.testbit N (Z.of_nat b)); cbn; lia).
  unfold ge256. rewrite le256_lt_spec, Vr' by done. fold D.
  destruct (Z.ltb_spec (2 * (H mod D) + bit) D) as [Hlt|Hge]; cbn [negb].
  - assert (N / 2 ^ Z.of_nat b / D = 2 * (H / D)) as EQ.
    { symmetry. apply Z.div_unique with (2 * (H mod D) + bit); lia. }
    split; cbn [fst snd]; split; try done.
    + rewrite Vq, EQ, E2. lia.
    + rewrite Vr'. apply Z.mod_unique with (2 * (H / D)); lia.
  - assert (N / 2 ^ Z.of_nat b / D = 2 * (H / D) + 1) as EQ.
    { symmetry. apply Z.div_unique with (2 * (H mod D) + bit - D); lia. }
    destruct (sub_assign_256_val r' d Hr' Hd) as [Hs Vs]; [fold D; lia|].
    destruct (set_bit_256_val q b Hq) as [Hb' Vb']; [done| |].
    { rewrite Vq, E2. replace (H / D * (2 * 2 ^ Z.of_nat b)) with ((H / D * 2) * 2 ^ Z.of_nat b) by lia.
      rewrite Z.mul_pow2_bits by lia. rewrite Z.sub_diag, Z.bit0_odd, Z.odd_mul. apply andb_false_r. }
    split; cbn [fst snd]; split; try done.
    + rewrite Vb', Vq, EQ, E2. lia.
    + rewrite Vs, Vr'. fold D. apply Z.mod_unique with (2 * (H / D) + 1); lia.
Qed.

Lemma div_u256_val n d :
  is_digest n → is_digest d → 0 < val d →
  ∃ q, div_u256 n d = Some q ∧ is_digest q ∧ val q = val n / val d.
Proof.
  intros Hn Hd Hpos. unfold div_u256. rewrite is_zero_256_val by done.
  destruct (Z.eqb_spec (val d) 0); [lia|].
  assert (∀ k b, (b + k = 256)%nat →
            div_inv (val n) (val d) b (foldl (div_step n d) (zero_digest, zero_digest) (reverse (seq b k)))) as H.
  { induction k as [|k IH]; intros b Hb.
    - pose proof (digest_bound n Hn). assert (b = 256%nat) as -> by lia.
      destruct zero_digest_val as [Hz Vz].
      change (reverse (seq 256 0)) with (@nil nat). cbn [foldl].
      split; cbn [fst snd]; (split; [done|]); rewrite Vz, (Z.div_small (val n)) by (change (Z.of_nat 256) with 256; lia).
      + by rewrite Z.div_0_l by lia.
      + by rewrite Z.mod_0_l by lia.
    - rewrite <- cons_seq, reverse_cons, foldl_app. cbn [foldl]. apply div_step_ok; [done..|lia|]. apply IH. lia. }
  destruct (H 256%nat 0%nat eq_refl) as [[Hq Vq] _]. eexists. split_and!; [done|done|].
  rewrite Vq. cbn. by rewrite Z.div_1_r, Z.mul_1_r.
Qed.

(** ** Work *)

Lemma block_work_val T :
  is_digest T → 0 < val T →
  ∃ w, block_work T = Some w ∧ is_digest w ∧ val w = Z.min (2 ^ 256 - 1) (div_ceil (2 ^ 256) (val T)).
Proof.
  intros HT Hpos. unfold block_work. rewrite is_zero_256_val by done.
  destruct (Z.eqb_spec (val T) 0); [lia|]. destruct MAX_TARGET_val as [HM VM].
  destruct (div_u256_val MAX_TARGET T HM HT Hpos) as (q & Hdiv & Hq & Vq).
  change (replicate 32 0xFF) with MAX_TARGET. rewrite Hdiv. cbn [fmap option_fmap option_map].
  destruct (add_one_saturating_val q Hq) as [Hw Vw]. eexists. split_and!; [done|done|].
  rewrite Vw, Vq, VM. f_equal. unfold div_ceil. set (T' := val T) in *.
  pose proof (Z.div_mod (2 ^ 256) T' ltac:(lia)). pose proof (Z.mod_pos_bound (2 ^ 256) T' Hpos).
  destruct (Z.eqb_spec (2 ^ 256 mod T') 0) as [E|E].
  - assert ((2 ^ 256 - 1) / T' = 2 ^ 256 / T' - 1) as ->; [|lia].
    symmetry. apply Z.div_unique with (T' - 1); lia.
  - assert ((2 ^ 256 - 1) / T' = 2 ^ 256 / T') as ->; [|lia].
    symmetry. apply Z.div_unique with (2 ^ 256 mod T' - 1); lia.
Qed.
