(* ===== verification/ForkChoice.v ===== *)
(** * Fork choice

    [jetsam_chain/src/consensus/fork_choice.rs]: the comparison of two tips by
    cumulative work and hash, and the finality guards of a reorganisation.
    [extend_work] is the accumulation of work along a branch. *)

From S2P Require Import Prelude Machine Params Poseidon TxTypes Conflict Difficulty DifficultyProps Work.

Inductive ChainChoice := CC_A | CC_B | CC_Equal.

#[global] Instance ChainChoice_eq_dec : EqDecision ChainChoice.
Proof. solve_decision. Defined.

Definition choose_chain_by_work (chainwork_a hash_a chainwork_b hash_b : list Z) : ChainChoice :=
  if work_gt chainwork_a chainwork_b then CC_A
  else if work_gt chainwork_b chainwork_a then CC_B
  else if bytes_ltb hash_a hash_b then CC_A
  else if bytes_ltb hash_b hash_a then CC_B
  else CC_Equal.

Record FinalizedCheckpoint := mkFinalizedCheckpoint {
  fc_height : Z;
  fc_hash : list Z;
}.

Definition preserves_finalized_prefix (candidate_hash_at_finalized_height : option (list Z))
    (finalized : FinalizedCheckpoint) : bool :=
  bool_decide (candidate_hash_at_finalized_height = Some (fc_hash finalized)).

Definition reorg_allowed (n_confirmations_to_undo : Z) : bool :=
  n_confirmations_to_undo <=? CONSENSUS_FINALITY_DEPTH.

(** The work of a branch that continues a block of work [base] with headers of
    the given targets. *)
Definition extend_work (base : list Z) (targets : list (list Z)) : option (list Z) :=
  foldl (λ work target, work ← work; w ← block_work target; Some (add_work work w)) (Some base) targets.

(** ** Lemmas *)

(** A tip: its cumulative work and its hash. *)
Definition better (a b : list Z * list Z) : Prop :=
  val (fst b) < val (fst a) ∨ (val (fst a) = val (fst b) ∧ bytes_ltb (snd a) (snd b) = true).

Lemma choose_better wa ha wb hb :
  is_digest wa → is_digest wb →
  match choose_chain_by_work wa ha wb hb with
  | CC_A => better (wa, ha) (wb, hb)
  | CC_B => better (wb, hb) (wa, ha)
  | CC_Equal => wa = wb ∧ ha = hb
  end.
Proof.
  intros Ha Hb. unfold choose_chain_by_work, better, work_gt. rewrite !le256_lt_spec by done. cbn [fst snd].
  destruct (Z.ltb_spec (val wb) (val wa)); [by left|]. destruct (Z.ltb_spec (val wa) (val wb)); [by left|].
  destruct (bytes_ltb ha hb) eqn:E1; [right; split; [lia|done]|]. destruct (bytes_ltb hb ha) eqn:E2; [right; split; [lia|done]|].
  split; [apply val_inj; [done..|lia]|by apply bytes_ltb_total].
Qed.

Lemma better_trans a b c : better a b → better b c → better a c.
Proof.
  unfold better. intros [?|[E1 H1]] [?|[E2 H2]]; [left; lia..|].
  right. split; [lia|by eapply bytes_ltb_trans].
Qed.

Lemma better_irrefl a : ~ better a a.
Proof. intros [?|[_ H]]; [lia|by rewrite bytes_ltb_irrefl in H]. Qed.

Lemma better_trichotomy a b : is_digest (fst a) → is_digest (fst b) → better a b ∨ better b a ∨ a = b.
Proof.
  destruct a as [wa ha], b as [wb hb]. cbn [fst]. intros Ha Hb. pose proof (choose_better wa ha wb hb Ha Hb) as Hc.
  destruct (choose_chain_by_work _ _ _ _); [by left|by right; left|]. right. right. by destruct Hc as [-> ->].
Qed.

Lemma better_total a b : is_digest (fst a) → is_digest (fst b) → ~ better a b → ~ better b a → a = b.
Proof. intros Ha Hb Hab Hba. by destruct (better_trichotomy a b Ha Hb) as [?|[?|?]]. Qed.

Lemma extend_work_snoc base targets target work w :
  extend_work base targets = Some work → block_work target = Some w → extend_work base (targets ++ [target]) = Some (add_work work w).
Proof. unfold extend_work. intros Hb Hw. rewrite foldl_app. cbn [foldl]. by rewrite Hb; cbn; rewrite Hw. Qed.

(** C33: Work adds up.  Extending a block of work [base] by a branch gives
    exactly the sum of [base] and, for every header of the branch, [2^256]
    divided by its target and rounded up, saturated at [2^256 - 1]; the
    division never fails. *)
Theorem chain_work_exact (base : list Z) (targets : list (list Z)) :
  is_digest base → Forall (λ T, is_digest T ∧ 0 < val T) targets →
  ∃ work, extend_work base targets = Some work ∧ is_digest work
    ∧ val work = Z.min (2 ^ 256 - 1) (val base + sum_Z ((λ T, div_ceil (2 ^ 256) (val T)) <$> targets)).
Proof.
  intros Hb HT. unfold extend_work. revert base Hb.
  induction HT as [|T targets [HT Hpos] HTs IH]; intros base Hb.
  { exists base. split_and!; [done..|]. cbn. pose proof (digest_bound base Hb). lia. }
  rewrite foldl_cons_eq. destruct (block_work_val T HT Hpos) as (w & Hw & Hd & Vw).
  destruct (add_work_val base w Hb Hd) as [Ha Va].
  destruct (IH (add_work base w) Ha) as (work & Hwork & Hdig & Vwork).
  exists work. split_and!; [|done|].
  - rewrite <- Hwork. f_equal. cbn. by rewrite Hw.
  - rewrite Vwork, Va, Vw, fmap_cons, sum_Z_cons.
    assert (0 ≤ sum_Z ((λ T, div_ceil (2 ^ 256) (val T)) <$> targets)) as Hsum.
    { apply sum_Z_nonneg, Forall_fmap. eapply Forall_impl; [exact HTs|]. intros T' [_ Hp]. cbn.
      pose proof (div_ceil_spec (2 ^ 256) (val T') Hp ltac:(lia)). nia. }
    pose proof (div_ceil_spec (2 ^ 256) (val T) Hpos ltac:(lia)). pose proof (digest_bound base Hb).
    assert (0 ≤ div_ceil (2 ^ 256) (val T)) by nia. lia.
Qed.

Lemma chain_work_exact_witness :
  ∃ work, extend_work zero_digest [GENESIS_TARGET; two_pow_target 235] = Some work ∧ val work = 2 ^ 18 + 2 ^ 21.
Proof.
  destruct (chain_work_exact zero_digest [GENESIS_TARGET; two_pow_target 235]) as (w & Hw & _ & Hv).
  - apply (bool_decide_unpack _). by vm_compute.
  - apply (bool_decide_unpack _). by vm_compute.
  - exists w. split; [done|]. rewrite Hv. by vm_compute.
Defined.
