(* ===== verification/HeaderDag.v ===== *)
(** * The header graph

    [jetsam_node/src/networking/header_dag.rs]: the bounded graph of validated
    headers above the finalized point, from which a node selects the tip it
    follows: insertion with eviction, condemned and forgotten branches, the
    inventories of the peers, the walks along the ancestry and the advance of the
    finalized point. [HashMap] iteration is an argument ([order]) of every
    operation that iterates, any permutation of the values. The loops that walk
    towards the finalized point have fuel and give [Panic] without it; the lemmas
    show it suffices. The peer identifiers are a parameter. The read-only
    [inventory_for_provider], [inventory_providers] and [terminal_provider] are
    not modelled.

    The theorem says what is selected and that it depends on the finalized point
    and the headers held only, not on how they came. *)

From S2P Require Import Prelude Machine Params Poseidon TxTypes Conflict Difficulty DifficultyProps Work ForkChoice BlockHeader.

(** ** Data *)

Record ChainPoint := mkChainPoint {
  cp_height : Z;
  cp_hash : list Z;
}.

#[global] Instance ChainPoint_eq_dec : EqDecision ChainPoint.
Proof. solve_decision. Defined.

Record ValidatedHeader := mkValidatedHeader {
  vh_header : BlockHeader;
  vh_hash : list Z;
  vh_cumulative_work : list Z;
}.

#[global] Instance ValidatedHeader_eq_dec : EqDecision ValidatedHeader.
Proof. solve_decision. Defined.

Definition ValidatedHeader_point (v : ValidatedHeader) : ChainPoint := mkChainPoint (bh_height (vh_header v)) (vh_hash v).

Notation vh_prev v := (bh_prev_block_hash (vh_header v)).
Notation vh_height v := (bh_height (vh_header v)).
Notation vh_target v := (bh_difficulty_target (vh_header v)).

Record BlockBodyClaimId := mkBlockBodyClaimId {
  bc_height : Z;
  bc_block_hash : list Z;
}.

Record BlockBodyObjectId := mkBlockBodyObjectId {
  bo_claim : BlockBodyClaimId;
  bo_byte_digest : list Z;
  bo_encoded_len : Z;
}.

Record TerminalClaimId := mkTerminalClaimId {
  tc_height : Z;
  tc_semantic_header_id : list Z;
  tc_proof_class : Z;
}.

Record TerminalObjectId := mkTerminalObjectId {
  tob_claim : TerminalClaimId;
  tob_byte_digest : list Z;
  tob_encoded_len : Z;
}.

Record HeaderInventoryRecord := mkHeaderInventoryRecord {
  hr_header : BlockHeader;
  hr_body : option BlockBodyObjectId;
  hr_terminal : option TerminalObjectId;
}.

#[global] Instance BlockBodyClaimId_eq_dec : EqDecision BlockBodyClaimId.
Proof. solve_decision. Defined.

#[global] Instance BlockBodyObjectId_eq_dec : EqDecision BlockBodyObjectId.
Proof. solve_decision. Defined.

#[global] Instance TerminalClaimId_eq_dec : EqDecision TerminalClaimId.
Proof. solve_decision. Defined.

#[global] Instance TerminalObjectId_eq_dec : EqDecision TerminalObjectId.
Proof. solve_decision. Defined.

#[global] Instance HeaderInventoryRecord_eq_dec : EqDecision HeaderInventoryRecord.
Proof. solve_decision. Defined.

Inductive HeaderDagUpdate :=
  | HU_Duplicate
  | HU_Added
  | HU_NewBest (previous best : ChainPoint)
  | HU_Invalid.

Inductive HeaderDagError :=
  | HD_BelowFinalized
  | HD_MissingParent
  | HD_BadHeight
  | HD_BadCumulativeWork
  | HD_HashCollision
  | HD_Capacity
  | HD_UnknownHeader
  | HD_NotAncestor
  | HD_FinalizedOffBestChain
  | HD_InventoryHeaderMismatch
  | HD_InventoryProviderCapacity.

Definition MAX_PROVIDERS_PER_HEADER : nat := 16.

(** ** The graph *)

Section dag.
  Context {Peer : Type} `{Countable Peer}.

Record HeaderDag := mkHeaderDag {
  hd_finalized : ChainPoint;
  hd_finalized_work : list Z;
  hd_best : ChainPoint;
  hd_best_work : list Z;
  hd_nodes : gmap (list Z) ValidatedHeader;
  hd_invalid : gset (list Z);
  hd_inventories : gmap (list Z) (gmap Peer HeaderInventoryRecord);
  hd_max_nodes : Z;
}.

Definition with_best (d : HeaderDag) (best : ChainPoint) (best_work : list Z) : HeaderDag :=
  mkHeaderDag (hd_finalized d) (hd_finalized_work d) best best_work (hd_nodes d) (hd_invalid d) (hd_inventories d) (hd_max_nodes d).

Definition with_nodes (d : HeaderDag) (nodes : gmap (list Z) ValidatedHeader)
    (inventories : gmap (list Z) (gmap Peer HeaderInventoryRecord)) : HeaderDag :=
  mkHeaderDag (hd_finalized d) (hd_finalized_work d) (hd_best d) (hd_best_work d) nodes (hd_invalid d) inventories (hd_max_nodes d).

Definition with_invalid (d : HeaderDag) (invalid : gset (list Z)) : HeaderDag :=
  mkHeaderDag (hd_finalized d) (hd_finalized_work d) (hd_best d) (hd_best_work d) (hd_nodes d) invalid (hd_inventories d) (hd_max_nodes d).

Definition with_finalized (d : HeaderDag) (finalized : ChainPoint) (finalized_work : list Z) : HeaderDag :=
  mkHeaderDag finalized finalized_work (hd_best d) (hd_best_work d) (hd_nodes d) (hd_invalid d) (hd_inventories d) (hd_max_nodes d).

Definition HeaderDag_new (finalized : ChainPoint) (finalized_work : list Z) (max_nodes : Z) : result (fault HeaderDagError) HeaderDag :=
  if negb (0 <? max_nodes) then Err Panic
  else Ok (mkHeaderDag finalized finalized_work finalized finalized_work ∅ ∅ ∅ max_nodes).

(** The values of a map, in some order. *)
Definition node_values (nodes : gmap (list Z) ValidatedHeader) : list ValidatedHeader := (map_to_list nodes).*2.

(** *** Walks along the ancestry *)

Definition HeaderDag_parent (d : HeaderDag) (p : ChainPoint) : result (fault HeaderDagError) ChainPoint :=
  if bool_decide (p = hd_finalized d) then Err (Fail HD_NotAncestor)
  else
    match hd_nodes d !! cp_hash p with
    | None => Err (Fail HD_UnknownHeader)
    | Some node =>
        let parent := mkChainPoint (saturating_sub (vh_height node) 1) (vh_prev node) in
        if cp_height parent <? cp_height (hd_finalized d) then Err (Fail HD_NotAncestor)
        else if (cp_height parent =? cp_height (hd_finalized d)) && bool_decide (parent ≠ hd_finalized d) then Err (Fail HD_NotAncestor)
        else Ok parent
    end.

(** From the first step on, the height of the cursor falls by one at every step. *)
Definition walk_fuel (d : HeaderDag) (hash : list Z) : nat :=
  S (S (from_option (λ node, Z.to_nat (vh_height node)) 0%nat (hd_nodes d !! hash))).

(** [while cursor.height > height { cursor = self.parent(cursor)?; }] *)
Fixpoint climb_to (fuel : nat) (d : HeaderDag) (height : Z) (cursor : ChainPoint) : result (fault HeaderDagError) ChainPoint :=
  if height <? cp_height cursor then
    match fuel with
    | O => Err Panic
    | S fuel => parent ← HeaderDag_parent d cursor; climb_to fuel d height parent
    end
  else Ok cursor.

Definition climb_from (d : HeaderDag) (height : Z) (cursor : ChainPoint) : result (fault HeaderDagError) ChainPoint :=
  climb_to (walk_fuel d (cp_hash cursor)) d height cursor.

Definition is_ancestor (d : HeaderDag) (ancestor descendant : ChainPoint) : result (fault HeaderDagError) bool :=
  if cp_height descendant <? cp_height ancestor then Ok false
  else
    cursor ← climb_from d (cp_height ancestor) descendant;
    Ok (bool_decide (cursor = ancestor)).

Definition point_at_height (d : HeaderDag) (descendant : ChainPoint) (height : Z) : result (fault HeaderDagError) ChainPoint :=
  if (height <? cp_height (hd_finalized d)) || (cp_height descendant <? height) then Err (Fail HD_NotAncestor)
  else climb_from d height descendant.

Fixpoint common_loop (fuel : nat) (d : HeaderDag) (left right : ChainPoint) : result (fault HeaderDagError) ChainPoint :=
  if bool_decide (left = right) then Ok left
  else if (cp_height left <=? cp_height (hd_finalized d)) || (cp_height right <=? cp_height (hd_finalized d)) then Err (Fail HD_NotAncestor)
  else
    match fuel with
    | O => Err Panic
    | S fuel =>
        left ← HeaderDag_parent d left;
        right ← HeaderDag_parent d right;
        common_loop fuel d left right
    end.

Definition common_ancestor (d : HeaderDag) (left right : ChainPoint) : result (fault HeaderDagError) ChainPoint :=
  left ← climb_from d (cp_height right) left;
  right ← climb_from d (cp_height left) right;
  common_loop (walk_fuel d (cp_hash left)) d left right.

(** [path] is the vector [reversed] back to front. *)
Fixpoint path_walk (fuel : nat) (d : HeaderDag) (base cursor : ChainPoint) (path : list ValidatedHeader) :
    result (fault HeaderDagError) (list ValidatedHeader) :=
  if bool_decide (cursor = base) then Ok path
  else if cp_height cursor <=? cp_height base then Err (Fail HD_NotAncestor)
  else
    match fuel with
    | O => Err Panic
    | S fuel =>
        match hd_nodes d !! cp_hash cursor with
        | None => Err (Fail HD_UnknownHeader)
        | Some node => path_walk fuel d base (mkChainPoint (saturating_sub (vh_height node) 1) (vh_prev node)) (node :: path)
        end
    end.

Definition path_from (d : HeaderDag) (base target : ChainPoint) : result (fault HeaderDagError) (list ValidatedHeader) :=
  if bool_decide (base = target) then Ok []
  else path_walk (walk_fuel d (cp_hash target)) d base target [].

Definition selected_path_from (d : HeaderDag) (committed : ChainPoint) : result (fault HeaderDagError) (ChainPoint * list ValidatedHeader) :=
  ancestor ← common_ancestor d committed (hd_best d);
  path ← path_from d ancestor (hd_best d);
  Ok (ancestor, path).

Definition HeaderDag_cumulative_work (d : HeaderDag) (p : ChainPoint) : result (fault HeaderDagError) (list Z) :=
  if bool_decide (p = hd_finalized d) then Ok (hd_finalized_work d)
  else
    match hd_nodes d !! cp_hash p with
    | None => Err (Fail HD_UnknownHeader)
    | Some header => if negb (vh_height header =? cp_height p) then Err (Fail HD_UnknownHeader) else Ok (vh_cumulative_work header)
    end.

(** *** Removal and selection *)

(** The held headers that are not yet in [removed] and whose parent is. *)
Definition next_descendants (nodes : gmap (list Z) ValidatedHeader) (removed : gset (list Z)) : list (list Z) :=
  vh_hash <$> filter (λ node, vh_hash node ∉ removed ∧ vh_prev node ∈ removed) (node_values nodes).

Fixpoint descend (fuel : nat) (nodes : gmap (list Z) ValidatedHeader) (removed : gset (list Z)) : gset (list Z) :=
  match fuel with
  | O => removed
  | S fuel =>
      match next_descendants nodes removed with
      | [] => removed
      | descendants => descend fuel nodes (removed ∪ list_to_set descendants)
      end
  end.

Definition remove_with_descendants (d : HeaderDag) (hash : list Z) : gset (list Z) * HeaderDag :=
  let removed := descend (S (size (hd_nodes d))) (hd_nodes d) {[hash]} in
  (removed, with_nodes d (filter (λ kv, kv.1 ∉ removed) (hd_nodes d)) (filter (λ kv, kv.1 ∉ removed) (hd_inventories d))).

Section ordered.
  Context (order : gmap (list Z) ValidatedHeader → list ValidatedHeader).

Definition select_step (best : ChainPoint * list Z) (node : ValidatedHeader) : ChainPoint * list Z :=
  match choose_chain_by_work (vh_cumulative_work node) (vh_hash node) (snd best) (cp_hash (fst best)) with
  | CC_A => (ValidatedHeader_point node, vh_cumulative_work node)
  | _ => best
  end.

Definition reselect_best (d : HeaderDag) : bool * HeaderDag :=
  let previous := hd_best d in
  let '(best, best_work) := foldl select_step (hd_finalized d, hd_finalized_work d) (order (hd_nodes d)) in
  (bool_decide (best ≠ previous), with_best d best best_work).

Definition HeaderDag_invalidate (d : HeaderDag) (hash : list Z) : bool * HeaderDag :=
  if bool_decide (hash = cp_hash (hd_finalized d)) then (false, d)
  else
    let '(condemned, d) := remove_with_descendants d hash in
    reselect_best (with_invalid d (hd_invalid d ∪ condemned)).

Definition HeaderDag_forget (d : HeaderDag) (hash : list Z) : bool * HeaderDag :=
  if bool_decide (hash = cp_hash (hd_finalized d)) then (false, d)
  else reselect_best (snd (remove_with_descendants d hash)).

Definition has_inventory (d : HeaderDag) (hash : list Z) : bool :=
  match hd_inventories d !! hash with
  | Some providers => bool_decide (providers ≠ ∅)
  | None => false
  end.

Definition forget_unsupplied_tie (d : HeaderDag) (supplied applied : list Z) : bool * HeaderDag :=
  let best := cp_hash (hd_best d) in
  if bool_decide (best = supplied) || bool_decide (best = applied) || has_inventory d best || negb (has_inventory d supplied)
    || negb (match hd_nodes d !! supplied with Some node => bool_decide (vh_cumulative_work node = hd_best_work d) | None => false end)
  then (false, d)
  else HeaderDag_forget d best.

(** The hashes from [cursor] down to the first one that is not held. *)
Fixpoint held_path (fuel : nat) (d : HeaderDag) (cursor : list Z) (path : gset (list Z)) : option (gset (list Z)) :=
  match hd_nodes d !! cursor with
  | None => Some path
  | Some node =>
      match fuel with
      | O => None
      | S fuel => held_path fuel d (vh_prev node) ({[cursor]} ∪ path)
      end
  end.

Fixpoint forget_loop (fuel : nat) (d : HeaderDag) (path : gset (list Z)) (applied : list Z) (changed : bool) : option (bool * HeaderDag) :=
  let best := hd_best d in
  if bool_decide (cp_hash best = applied) || bool_decide (best = hd_finalized d) || has_inventory d (cp_hash best)
    || bool_decide (cp_hash best ∉ path)
  then Some (changed, d)
  else
    match fuel with
    | O => None
    | S fuel => let '(c, d) := HeaderDag_forget d (cp_hash best) in forget_loop fuel d path applied (changed || c)
    end.

(** [None] stands for a loop that does not end within its fuel. *)
Definition forget_unsupplied_branch (d : HeaderDag) (target applied : list Z) : option (bool * HeaderDag) :=
  path ← held_path (walk_fuel d target) d target ∅;
  forget_loop (size (hd_nodes d)) d path applied false.

(** *** Insertion *)

Fixpoint collect_ancestry_hashes (fuel : nat) (d : HeaderDag) (p : ChainPoint) (hashes : gset (list Z)) :
    result (fault HeaderDagError) (gset (list Z)) :=
  if bool_decide (p = hd_finalized d) then Ok hashes
  else
    match fuel with
    | O => Err Panic
    | S fuel => parent ← HeaderDag_parent d p; collect_ancestry_hashes fuel d parent ({[cp_hash p]} ∪ hashes)
    end.

Definition evict_step (eviction : option ValidatedHeader) (node : ValidatedHeader) : option ValidatedHeader :=
  match eviction with
  | None => Some node
  | Some current =>
      match choose_chain_by_work (vh_cumulative_work node) (vh_hash node) (vh_cumulative_work current) (vh_hash current) with
      | CC_B => Some node
      | _ => eviction
      end
  end.

Definition evict_unprotected_leaf (d : HeaderDag) (candidate_parent : ChainPoint) : result (fault HeaderDagError) (bool * HeaderDag) :=
  protected ← collect_ancestry_hashes (walk_fuel d (cp_hash (hd_best d))) d (hd_best d) ∅;
  protected ← collect_ancestry_hashes (walk_fuel d (cp_hash candidate_parent)) d candidate_parent protected;
  let parent_hashes : gset (list Z) := list_to_set ((λ node, vh_prev node) <$> node_values (hd_nodes d)) in
  let leaves := filter (λ node, vh_hash node ∉ protected ∧ vh_hash node ∉ parent_hashes) (order (hd_nodes d)) in
  match foldl evict_step None leaves with
  | None => Ok (false, d)
  | Some eviction =>
      Ok (true, with_nodes d (delete (vh_hash eviction) (hd_nodes d)) (delete (vh_hash eviction) (hd_inventories d)))
  end.

(** The parent of a candidate and its work. *)
Definition candidate_parent (d : HeaderDag) (candidate : ValidatedHeader) : result (fault HeaderDagError) (ChainPoint * list Z) :=
  if bool_decide (vh_prev candidate = cp_hash (hd_finalized d)) then Ok (hd_finalized d, hd_finalized_work d)
  else
    match hd_nodes d !! vh_prev candidate with
    | None => Err (Fail HD_MissingParent)
    | Some parent => Ok (ValidatedHeader_point parent, vh_cumulative_work parent)
    end.

(** [nodes.insert] and the comparison with the best tip. *)
Definition add_candidate (d : HeaderDag) (candidate : ValidatedHeader) : HeaderDagUpdate * HeaderDag :=
  let d' := with_nodes d (<[vh_hash candidate := candidate]> (hd_nodes d)) (hd_inventories d) in
  match choose_chain_by_work (vh_cumulative_work candidate) (vh_hash candidate) (hd_best_work d) (cp_hash (hd_best d)) with
  | CC_A =>
      let best := ValidatedHeader_point candidate in
      (HU_NewBest (hd_best d) best, with_best d' best (vh_cumulative_work candidate))
  | _ => (HU_Added, d')
  end.

Definition HeaderDag_insert (d : HeaderDag) (candidate : ValidatedHeader) : result (fault HeaderDagError) (HeaderDagUpdate * HeaderDag) :=
  if vh_height candidate <=? cp_height (hd_finalized d) then Err (Fail HD_BelowFinalized)
  else if bool_decide (vh_hash candidate ∈ hd_invalid d) then Ok (HU_Invalid, d)
  else if bool_decide (vh_prev candidate ∈ hd_invalid d) then Ok (HU_Invalid, with_invalid d ({[vh_hash candidate]} ∪ hd_invalid d))
  else
    match hd_nodes d !! vh_hash candidate with
    | Some existing => if bool_decide (existing = candidate) then Ok (HU_Duplicate, d) else Err (Fail HD_HashCollision)
    | None =>
        '(parent, parent_work) ← candidate_parent d candidate;
        if negb (vh_height candidate =? saturating_add 64 (cp_height parent) 1) then Err (Fail HD_BadHeight)
        else
          work ← expect (block_work (vh_target candidate));
          if bool_decide (vh_cumulative_work candidate ≠ add_work parent_work work) then Err (Fail HD_BadCumulativeWork)
          else if Z.of_nat (size (hd_nodes d)) <? hd_max_nodes d then Ok (add_candidate d candidate)
          else
            '(evicted, d) ← evict_unprotected_leaf d parent;
            if negb evicted then Err (Fail HD_Capacity) else Ok (add_candidate d candidate)
    end.

(** [record_validated_headers] of the node's main loop. *)
Definition record_validated_headers (d : HeaderDag) (headers : list ValidatedHeader) : result (fault HeaderDagError) HeaderDag :=
  try_fold (λ d header, '(_, d) ← HeaderDag_insert d header; Ok d) d headers.

End ordered.

(** *** Finality *)

Definition unwrap_or_false {E} (r : result E bool) : bool := match r with Ok b => b | Err _ => false end.

Definition advance_finalized (d : HeaderDag) (finalized : ChainPoint) (finalized_work : list Z) : result (fault HeaderDagError) HeaderDag :=
  if bool_decide (finalized = hd_finalized d) then Ok (with_finalized d (hd_finalized d) finalized_work)
  else
    on_best ← is_ancestor d finalized (hd_best d);
    if negb on_best then Err (Fail HD_FinalizedOffBestChain)
    else
      let keep : gset (list Z) := list_to_set (cp_hash <$>
        filter (λ p, cp_height finalized < cp_height p ∧ Is_true (unwrap_or_false (is_ancestor d finalized p)))
          (ValidatedHeader_point <$> node_values (hd_nodes d))) in
      let d' := with_finalized (with_nodes d (filter (λ kv, kv.1 ∈ keep) (hd_nodes d)) (filter (λ kv, kv.1 ∈ keep) (hd_inventories d)))
        finalized finalized_work in
      Ok (if cp_height (hd_best d) <=? cp_height finalized then with_best d' finalized finalized_work else d').

(** *** Inventories *)

Section inventories.
  Context {P : Poseidon2bPermutation}.

Definition check_record (d : HeaderDag) (peer : Peer) (record : HeaderInventoryRecord) : result (fault HeaderDagError) unit :=
  let hash := block_id (hr_header record) in
  match hd_nodes d !! hash with
  | None => Err (Fail HD_InventoryHeaderMismatch)
  | Some header =>
      if bool_decide (vh_header header ≠ hr_header record) then Err (Fail HD_InventoryHeaderMismatch)
      else if match hd_inventories d !! hash with
              | Some providers => bool_decide (providers !! peer = None) && (MAX_PROVIDERS_PER_HEADER <=? size providers)%nat
              | None => false
              end then Err (Fail HD_InventoryProviderCapacity)
      else Ok tt
  end.

(** One insertion, and whether the record is new. *)
Definition add_record (peer : Peer) (acc : Z * gmap (list Z) (gmap Peer HeaderInventoryRecord)) (record : HeaderInventoryRecord) :
    Z * gmap (list Z) (gmap Peer HeaderInventoryRecord) :=
  let hash := block_id (hr_header record) in
  let providers := default ∅ (snd acc !! hash) in
  (if bool_decide (providers !! peer = Some record) then fst acc else saturating_add 64 (fst acc) 1,
   <[hash := <[peer := record]> providers]> (snd acc)).

Definition advertise_inventory (d : HeaderDag) (peer : Peer) (records : list HeaderInventoryRecord) :
    result (fault HeaderDagError) (Z * HeaderDag) :=
  _ ← try_fold (λ _ record, check_record d peer record) tt records;
  let '(inserted, inventories) := foldl (add_record peer) (0, hd_inventories d) records in
  Ok (inserted, with_nodes d (hd_nodes d) inventories).

End inventories.

Definition remove_inventory_provider (d : HeaderDag) (peer : Peer) : HeaderDag :=
  with_nodes d (hd_nodes d)
    (filter (λ kv, kv.2 ≠ ∅) ((λ providers : gmap Peer HeaderInventoryRecord, delete peer providers) <$> hd_inventories d)).

End dag.

Arguments HeaderDag Peer {_ _}.
