(* ===== verification/HeaderDagProps.v ===== *)
(** * The header graph: proofs

    The invariant of the graph of [HeaderDag], its preservation by every
    operation, the walks along the ancestry, and what the selected tip is. *)

From S2P Require Import Prelude Machine Params Poseidon TxTypes Conflict Difficulty DifficultyProps Work ForkChoice BlockHeader HeaderDag.

Section props.
  Context {Peer : Type} `{Countable Peer}.

Implicit Types (d : HeaderDag Peer) (p q : ChainPoint) (w : list Z) (n : ValidatedHeader).

(** ** The invariant *)

(** [p] is the finalized point or a header of the graph, and [w] its work. *)
Definition held d p w : Prop :=
  (p = hd_finalized d ∧ w = hd_finalized_work d)
  ∨ ∃ n, hd_nodes d !! cp_hash p = Some n ∧ p = ValidatedHeader_point n ∧ w = vh_cumulative_work n.

(** The work of [n] continues [w]. *)
Definition continues w n : Prop := ∃ bw, block_work (vh_target n) = Some bw ∧ vh_cumulative_work n = add_work w bw.

Definition parent_point n : ChainPoint := mkChainPoint (vh_height n - 1) (vh_prev n).

Record graph_inv d : Prop := {
  gi_keys : ∀ h n, hd_nodes d !! h = Some n → vh_hash n = h;
  gi_root : hd_nodes d !! cp_hash (hd_finalized d) = None;
  gi_height : 0 ≤ cp_height (hd_finalized d);
  gi_above : ∀ h n, hd_nodes d !! h = Some n → cp_height (hd_finalized d) < vh_height n;
  gi_parent : ∀ h n, hd_nodes d !! h = Some n → ∃ w, held d (parent_point n) w ∧ continues w n;
  gi_work : ∀ p w, held d p w → is_digest w;
  gi_capacity : Z.of_nat (size (hd_nodes d)) ≤ hd_max_nodes d;
  gi_inventories : dom (hd_inventories d) ⊆ dom (hd_nodes d);
  gi_providers : ∀ h m, hd_inventories d !! h = Some m → (size m ≤ MAX_PROVIDERS_PER_HEADER)%nat;
}.

Record best_inv d : Prop := {
  bi_held : held d (hd_best d) (hd_best_work d);
  bi_max : ∀ p w, held d p w → ~ better (w, cp_hash p) (hd_best_work d, cp_hash (hd_best d));
}.

Lemma held_node d h n : graph_inv d → hd_nodes d !! h = Some n → held d (ValidatedHeader_point n) (vh_cumulative_work n).
Proof. intros Hg Hn. right. exists n. split; [|done]. cbn. by rewrite (gi_keys _ Hg h n Hn). Qed.

Lemma held_root d : held d (hd_finalized d) (hd_finalized_work d).
Proof. by left. Qed.

Lemma held_inj d p w p' w' : graph_inv d → held d p w → held d p' w' → cp_hash p = cp_hash p' → p = p' ∧ w = w'.
Proof.
  intros Hg [[-> ->]|(n & Hn & -> & ->)] [[-> ->]|(n' & Hn' & Hp' & ->)] E.
  - done.
  - rewrite <- E in Hn'. by rewrite (gi_root _ Hg) in Hn'.
  - rewrite E in Hn. by rewrite (gi_root _ Hg) in Hn.
  - rewrite E in Hn. rewrite Hn' in Hn. injection Hn as ->. by rewrite Hp'.
Qed.

Lemma held_above d p w : graph_inv d → held d p w → p = hd_finalized d ∨ cp_height (hd_finalized d) < cp_height p.
Proof. intros Hg [[-> _]|(n & Hn & -> & _)]; [by left|]. right. by apply (gi_above _ Hg _ _ Hn). Qed.

Lemma held_height d p w : graph_inv d → held d p w → cp_height (hd_finalized d) ≤ cp_height p.
Proof. intros Hg [->|?]%held_above; [lia|lia|done]. Qed.

(** The graphs that hold the same headers above the same point select the same tip. *)
Lemma best_unique d d' :
  graph_inv d → best_inv d → best_inv d' →
  hd_finalized d = hd_finalized d' → hd_finalized_work d = hd_finalized_work d' → hd_nodes d = hd_nodes d' →
  hd_best d = hd_best d' ∧ hd_best_work d = hd_best_work d'.
Proof.
  intros Hg [Hb Hm] [Hb' Hm'] Hf Hw Hn.
  assert (Hh : ∀ p w, held d p w ↔ held d' p w) by (intros p w; unfold held; by rewrite Hf, Hw, Hn).
  apply Hh in Hb'. assert (E : (hd_best_work d, cp_hash (hd_best d)) = (hd_best_work d', cp_hash (hd_best d'))).
  { apply better_total; cbn [fst]; [by eapply gi_work|by eapply gi_work|by apply Hm', Hh|by apply Hm]. }
  injection E as _ E2. by apply (held_inj d).
Qed.

(** ** Walks *)

Lemma parent_root d : HeaderDag_parent d (hd_finalized d) = Err (Fail HD_NotAncestor).
Proof. unfold HeaderDag_parent. by rewrite bool_decide_true. Qed.

Lemma parent_held d p w :
  graph_inv d → held d p w → p ≠ hd_finalized d →
  ∃ n w0, hd_nodes d !! cp_hash p = Some n ∧ p = ValidatedHeader_point n ∧ w = vh_cumulative_work n
    ∧ HeaderDag_parent d p = Ok (parent_point n) ∧ held d (parent_point n) w0 ∧ continues w0 n
    ∧ mkChainPoint (saturating_sub (vh_height n) 1) (vh_prev n) = parent_point n.
Proof.
  intros Hg [[-> _]|(n & Hn & Hp & ->)] Hne; [done|]. destruct (gi_parent _ Hg _ _ Hn) as (w0 & Hh & Hc).
  pose proof (gi_above _ Hg _ _ Hn) as Ha. pose proof (gi_height _ Hg) as Hz.
  assert (Hs : mkChainPoint (saturating_sub (vh_height n) 1) (vh_prev n) = parent_point n).
  { unfold parent_point, saturating_sub. f_equal. lia. }
  exists n, w0. split_and!; [done..| |done|done|done].
  unfold HeaderDag_parent. rewrite bool_decide_false by done. rewrite Hn. cbv zeta. rewrite Hs.
  destruct (held_above _ _ _ Hg Hh) as [E|Hlt].
  - rewrite E, Z.ltb_irrefl, bool_decide_false by tauto. by rewrite andb_false_r.
  - rewrite (proj2 (Z.ltb_ge _ _)) by lia. rewrite (proj2 (Z.eqb_neq _ _)) by lia. done.
Qed.

Lemma parent_no_panic d p : HeaderDag_parent d p ≠ Err Panic.
Proof. unfold HeaderDag_parent. cbv zeta. repeat case_match; done. Qed.

(** *** Climbing *)

Lemma climb_agree f1 f2 d h p : climb_to f1 d h p ≠ Err Panic → climb_to f2 d h p ≠ Err Panic → climb_to f1 d h p = climb_to f2 d h p.
Proof.
  revert f2 p. induction f1 as [|f1 IH]; intros [|f2] p; cbn [climb_to]; destruct (h <? cp_height p); try done.
  destruct (HeaderDag_parent d p) as [q|e]; cbn [mbind result_bind]; [apply IH|done].
Qed.

(** The point of height [h] below a held point, for any fuel that covers the distance. *)
Lemma climb_held fuel d h p w :
  graph_inv d → held d p w → cp_height (hd_finalized d) ≤ h → cp_height p - h ≤ Z.of_nat fuel →
  ∃ q w', climb_to fuel d h p = Ok q ∧ held d q w' ∧ cp_height q = Z.min h (cp_height p).
Proof.
  intros Hg. revert p w. induction fuel as [|fuel IH]; intros p w Hh Hlo Hf; cbn [climb_to]; destruct (Z.ltb_spec h (cp_height p)).
  - lia.
  - exists p, w. split_and!; [done..|lia].
  - destruct (parent_held d p w Hg Hh) as (n & w0 & _ & -> & _ & -> & Hq & _).
    { intros ->. lia. }
    cbn [mbind result_bind]. destruct (IH (parent_point n) w0 Hq Hlo) as (q & w' & -> & Hq' & E); cbn in *; [lia|].
    exists q, w'. split_and!; [done..|lia].
  - exists p, w. split_and!; [done..|lia].
Qed.

Lemma walk_fuel_held d p w : graph_inv d → held d p w → cp_height p - cp_height (hd_finalized d) ≤ Z.of_nat (walk_fuel d (cp_hash p)).
Proof.
  intros Hg [[-> _]|(n & Hn & Hp & _)]; unfold walk_fuel; [lia|]. rewrite Hn. cbn [from_option].
  pose proof (gi_height _ Hg). rewrite Hp. cbn. lia.
Qed.

Lemma climb_from_held d h p w :
  graph_inv d → held d p w → cp_height (hd_finalized d) ≤ h →
  ∃ q w', climb_from d h p = Ok q ∧ held d q w' ∧ cp_height q = Z.min h (cp_height p).
Proof. intros Hg Hh Hlo. apply (climb_held _ d h p w); [done..|]. pose proof (walk_fuel_held d p w Hg Hh). lia. Qed.

Lemma climb_Ok fuel d h p w q :
  graph_inv d → held d p w → climb_to fuel d h p = Ok q → ∃ w', held d q w' ∧ cp_height q ≤ cp_height p.
Proof.
  intros Hg. revert p w. induction fuel as [|fuel IH]; intros p w Hh; cbn [climb_to]; destruct (h <? cp_height p); intros Hc;
    [done|injection Hc as <-; by exists w| |injection Hc as <-; by exists w].
  destruct (decide (p = hd_finalized d)) as [->|Hne]; [by rewrite parent_root in Hc|].
  destruct (parent_held d p w Hg Hh Hne) as (n & w0 & _ & -> & _ & E & Hq & _). rewrite E in Hc. cbn [mbind result_bind] in Hc.
  destruct (IH _ _ Hq Hc) as (w' & Hq' & Hle). exists w'. split; [done|]. cbn in *. lia.
Qed.

(** From any point at all the fuel suffices. *)
Lemma climb_from_total d h p : graph_inv d → climb_from d h p ≠ Err Panic.
Proof.
  intros Hg. unfold climb_from, walk_fuel.
  set (k := from_option (λ node, Z.to_nat (vh_height node)) 0%nat (hd_nodes d !! cp_hash p)).
  cbn [climb_to]. destruct (h <? cp_height p); [|done]. destruct (HeaderDag_parent d p) as [q|e] eqn:Eq; cbn [mbind result_bind].
  2:{ pose proof (parent_no_panic d p) as Hn. rewrite Eq in Hn. intros [= ->]. done. }
  unfold HeaderDag_parent in Eq. cbv zeta in Eq. case_bool_decide; [done|]. destruct (hd_nodes d !! cp_hash p) as [n|] eqn:Hn; [|done].
  apply if_err_Ok in Eq as [_ Eq]. apply if_err_Ok in Eq as [_ [= <-]].
  destruct (gi_parent _ Hg _ _ Hn) as (w0 & Hh & _). pose proof (gi_above _ Hg _ _ Hn) as Ha. pose proof (gi_height _ Hg) as Hz.
  assert (Hs : mkChainPoint (saturating_sub (vh_height n) 1) (vh_prev n) = parent_point n).
  { unfold parent_point, saturating_sub. f_equal. lia. }
  rewrite Hs. assert (Hk : vh_height n = Z.of_nat k) by (subst k; cbn [from_option]; lia).
  clear Hs. clearbody k. change (climb_to (S k) d h (parent_point n) ≠ Err Panic).
  assert (Hf : cp_height (parent_point n) < Z.of_nat (S k)) by (cbn; lia). clear Hk Hn Ha. revert Hh Hf. generalize (parent_point n) as c. revert w0.
  generalize (S k) as f. induction f as [|f IH]; intros w0 c Hh Hf.
  { pose proof (held_height d c w0 Hg Hh). lia. }
  cbn [climb_to]. destruct (h <? cp_height c); [|done]. destruct (decide (c = hd_finalized d)) as [->|Hne]; [by rewrite parent_root|].
  destruct (parent_held d c w0 Hg Hh Hne) as (n' & w1 & _ & -> & _ & -> & Hq & _). cbn [mbind result_bind].
  apply (IH w1); [done|]. cbn in *. lia.
Qed.

(** *** Ancestors *)

Lemma is_ancestor_true d a p w :
  graph_inv d → held d p w → is_ancestor d a p = Ok true → ∃ wa, held d a wa ∧ cp_height a ≤ cp_height p.
Proof.
  intros Hg Hh Ha. unfold is_ancestor in Ha. destruct (Z.ltb_spec (cp_height p) (cp_height a)); [done|].
  apply bind_Ok in Ha as (q & Hq & [= ->%bool_decide_eq_true]). destruct (climb_Ok _ d _ p w a Hg Hh Hq) as (wa & ? & _). eauto.
Qed.

Lemma is_ancestor_same_height d a p : cp_height a = cp_height p → is_ancestor d a p = Ok true → p = a.
Proof.
  intros E Ha. unfold is_ancestor in Ha. rewrite E, Z.ltb_irrefl in Ha. unfold climb_from, walk_fuel in Ha. cbn [climb_to] in Ha.
  rewrite Z.ltb_irrefl in Ha. cbn [mbind result_bind] in Ha. by injection Ha as ?%bool_decide_eq_true.
Qed.

Lemma is_ancestor_parent d a p w n :
  graph_inv d → held d p w → is_ancestor d a p = Ok true → cp_height a < cp_height p → hd_nodes d !! cp_hash p = Some n →
  is_ancestor d a (parent_point n) = Ok true.
Proof.
  intros Hg Hh Ha Hlt Hn. unfold is_ancestor in *. destruct (Z.ltb_spec (cp_height p) (cp_height a)); [lia|].
  apply bind_Ok in Ha as (q & Hq & [= ->%bool_decide_eq_true]).
  unfold climb_from, walk_fuel in Hq. cbn [climb_to] in Hq. rewrite (proj2 (Z.ltb_lt _ _) Hlt) in Hq.
  destruct (decide (p = hd_finalized d)) as [->|Hne]; [by rewrite parent_root in Hq|].
  destruct (parent_held d p w Hg Hh Hne) as (n' & w0 & Hn' & Hp & _ & E & Hpar & _). rewrite Hn in Hn'. injection Hn' as <-.
  rewrite E in Hq. cbn [mbind result_bind] in Hq. rewrite (proj2 (Z.ltb_ge _ _)) by (rewrite Hp in Hlt; cbn in *; lia).
  change (climb_to (S (from_option (λ node, Z.to_nat (vh_height node)) 0%nat (hd_nodes d !! cp_hash p))) d (cp_height a) (parent_point n) = Ok a) in Hq.
  unfold climb_from. erewrite climb_agree; [rewrite Hq| |by rewrite Hq]; [|by apply climb_from_total].
  cbn [mbind result_bind]. by rewrite bool_decide_true.
Qed.

(** [a] is on the ancestry of [p]. *)
Inductive below d : ChainPoint → ChainPoint → Prop :=
  | below_here p : below d p p
  | below_step a n h : hd_nodes d !! h = Some n → below d a (parent_point n) → below d a (ValidatedHeader_point n).

Lemma climb_below fuel d h p w q : graph_inv d → held d p w → climb_to fuel d h p = Ok q → below d q p.
Proof.
  intros Hg. revert p w. induction fuel as [|fuel IH]; intros p w Hh; cbn [climb_to]; destruct (h <? cp_height p); intros Hc;
    [done|injection Hc as <-; constructor| |injection Hc as <-; constructor].
  destruct (decide (p = hd_finalized d)) as [->|Hne]; [by rewrite parent_root in Hc|].
  destruct (parent_held d p w Hg Hh Hne) as (n & w0 & Hn & -> & _ & E & Hq & _). rewrite E in Hc. cbn [mbind result_bind] in Hc.
  eapply below_step; [exact Hn|]. by eapply IH.
Qed.

Lemma below_trans d a b c : below d a b → below d b c → below d a c.
Proof. intros Hab Hbc. induction Hbc as [|? n h Hn _ IH]; [done|]. eapply below_step; [exact Hn|by apply IH]. Qed.

Lemma below_height d a p : below d a p → cp_height a ≤ cp_height p.
Proof. induction 1 as [|a n h Hn _ IH]; [done|]. cbn in *. lia. Qed.

(** *** Paths *)

(** The path between two held points, one of which is on the ancestry of the
    other, carries the work from the one to the other. *)
Lemma path_loop_below fuel d a wa p w path :
  graph_inv d → held d a wa → held d p w → below d a p → cp_height p - cp_height a ≤ Z.of_nat fuel →
  ∃ l, path_walk fuel d a p path = Ok (l ++ path) ∧ extend_work wa ((λ n, vh_target n) <$> l) = Some w
    ∧ (p = a ∧ l = [] ∨ ∃ l' n, l = l' ++ [n] ∧ p = ValidatedHeader_point n).
Proof.
  intros Hg Ha Hp Hb. revert w path fuel Hp. induction Hb as [p|a n h Hn Hb IH]; intros w path fuel Hp Hf.
  { destruct (held_inj _ _ _ _ _ Hg Ha Hp eq_refl) as [_ <-]. exists []. split_and!; [|done|by left].
    destruct fuel; cbn [path_walk]; by rewrite bool_decide_true. }
  pose proof (below_height d _ _ Hb) as Hle. pose proof (held_height d a wa Hg Ha) as Hroot.
  assert (Hlt : cp_height a < vh_height n) by (cbn in Hle; lia).
  destruct (parent_held d _ w Hg Hp) as (n' & w0 & Hn' & E & -> & _ & Hpar & (bw & Hbw & Hcw) & Hs).
  { intros E. rewrite <- E in Hroot. cbn in Hroot. lia. }
  assert (n' = n) as -> by (cbn in Hn'; rewrite (gi_keys _ Hg h n Hn), Hn in Hn'; congruence).
  destruct fuel as [|fuel]; [cbn in Hf; lia|].
  destruct (IH Ha w0 (n :: path) fuel Hpar) as (l & Hl & Hw & _); [cbn in *; lia|].
  exists (l ++ [n]). split_and!.
  - cbn [path_walk]. rewrite bool_decide_false by (intros <-; cbn in Hlt; lia).
    rewrite (proj2 (Z.leb_gt _ _)) by done. rewrite Hn', Hs, Hl. by rewrite <- app_assoc.
  - rewrite fmap_app, Hcw. by apply extend_work_snoc.
  - right. eauto.
Qed.

Lemma path_from_below d a wa p w :
  graph_inv d → held d a wa → held d p w → below d a p →
  ∃ l, path_from d a p = Ok l ∧ extend_work wa ((λ n, vh_target n) <$> l) = Some w
    ∧ (p = a ∧ l = [] ∨ ∃ l' n, l = l' ++ [n] ∧ p = ValidatedHeader_point n).
Proof.
  intros Hg Ha Hp Hb. pose proof (walk_fuel_held d p w Hg Hp). pose proof (held_height d a wa Hg Ha).
  destruct (path_loop_below (walk_fuel d (cp_hash p)) d a wa p w [] Hg Ha Hp Hb) as (l & Hl & Hrest); [lia|].
  exists l. split; [|done]. unfold path_from. case_bool_decide as E; [|by rewrite Hl, app_nil_r].
  subst p. destruct Hrest as [_ [[_ ->]|(l' & n & -> & ->)]]; [done|].
  unfold walk_fuel in Hl. cbn [path_walk] in Hl. rewrite bool_decide_true in Hl by done. injection Hl as Hl. by destruct l'.
Qed.

(** *** Common ancestors *)

Lemma common_loop_held fuel d p wp q wq :
  graph_inv d → held d p wp → held d q wq → cp_height p = cp_height q → cp_height p - cp_height (hd_finalized d) ≤ Z.of_nat fuel →
  ∃ a wa, common_loop fuel d p q = Ok a ∧ held d a wa ∧ below d a p ∧ below d a q.
Proof.
  intros Hg. revert p wp q wq. induction fuel as [|fuel IH]; intros p wp q wq Hp Hq E Hf; cbn [common_loop];
    (case_bool_decide as Heq; [subst q; exists p, wp; split_and!; [done..|constructor|constructor]|]).
  - exfalso. apply Heq. destruct (held_above d p wp Hg Hp) as [->|?], (held_above d q wq Hg Hq) as [->|?]; [done|lia..].
  - destruct (held_above d p wp Hg Hp) as [->|Hlp], (held_above d q wq Hg Hq) as [->|Hlq]; [done|lia|lia|].
    rewrite !(proj2 (Z.leb_gt _ _)) by done. cbn [orb].
    destruct (parent_held d p wp Hg Hp) as (n & w0 & Hn & -> & _ & -> & Hpar & _); [intros ->; lia|].
    destruct (parent_held d q wq Hg Hq) as (n' & w1 & Hn' & -> & _ & -> & Hpar' & _); [intros ->; lia|]. cbn [mbind result_bind].
    destruct (IH _ _ _ _ Hpar Hpar') as (a & wa & -> & Ha & Hb & Hb'); [cbn in *; lia..|].
    exists a, wa. split_and!; [done..|by eapply below_step|by eapply below_step].
Qed.

Lemma common_ancestor_held d p wp q wq :
  graph_inv d → held d p wp → held d q wq → ∃ a wa, common_ancestor d p q = Ok a ∧ held d a wa ∧ below d a p ∧ below d a q.
Proof.
  intros Hg Hp Hq. pose proof (held_height d p wp Hg Hp) as Hlp. pose proof (held_height d q wq Hg Hq) as Hlq.
  destruct (climb_from_held d (cp_height q) p wp Hg Hp Hlq) as (p' & wp' & Ep & Hp' & Hhp).
  destruct (climb_from_held d (cp_height p') q wq Hg Hq) as (q' & wq' & Eq & Hq' & Hhq); [by eapply held_height|].
  unfold common_ancestor. rewrite Ep. cbn [mbind result_bind]. rewrite Eq. cbn [mbind result_bind].
  pose proof (walk_fuel_held d p' wp' Hg Hp').
  destruct (common_loop_held (walk_fuel d (cp_hash p')) d p' wp' q' wq') as (a & wa & -> & Ha & Hb & Hb'); [done..|lia|lia|].
  exists a, wa. split_and!; [done..| |].
  - apply (below_trans d a p' p); [done|]. exact (climb_below _ d _ p wp p' Hg Hp Ep).
  - apply (below_trans d a q' q); [done|]. exact (climb_below _ d _ q wq q' Hg Hq Eq).
Qed.

(** ** Selection *)

Lemma select_step_cases acc n :
  is_digest (snd acc) → is_digest (vh_cumulative_work n) →
  (better (vh_cumulative_work n, vh_hash n) (snd acc, cp_hash (fst acc)) ∧ select_step acc n = (ValidatedHeader_point n, vh_cumulative_work n))
  ∨ (~ better (vh_cumulative_work n, vh_hash n) (snd acc, cp_hash (fst acc)) ∧ select_step acc n = acc).
Proof.
  intros Ha Hn. unfold select_step.
  pose proof (choose_better (vh_cumulative_work n) (vh_hash n) (snd acc) (cp_hash (fst acc)) Hn Ha) as Hc.
  destruct (choose_chain_by_work _ _ _ _); [by left|right; split; [|done]..].
  - intros Hx. eapply better_irrefl. by eapply better_trans.
  - destruct Hc as [-> ->]. apply better_irrefl.
Qed.

Lemma fold_select l acc :
  is_digest (snd acc) → Forall (λ n, is_digest (vh_cumulative_work n)) l →
  let r := foldl select_step acc l in
  (r = acc ∨ ∃ n, n ∈ l ∧ r = (ValidatedHeader_point n, vh_cumulative_work n))
  ∧ ~ better (snd acc, cp_hash (fst acc)) (snd r, cp_hash (fst r))
  ∧ ∀ n, n ∈ l → ~ better (vh_cumulative_work n, vh_hash n) (snd r, cp_hash (fst r)).
Proof.
  intros Hacc Hl. revert acc Hacc. induction Hl as [|n l Hn Hl IH]; intros acc Hacc.
  { split_and!; [by left|apply better_irrefl|]. intros n Hin. set_solver. }
  cbv zeta in *. rewrite foldl_cons_eq. destruct (select_step_cases acc n Hacc Hn) as [[Hc ->]|[Hc ->]].
  - destruct (IH (ValidatedHeader_point n, vh_cumulative_work n) Hn) as (Hr & Hb & Hall). cbn [fst snd ValidatedHeader_point cp_hash] in Hb.
    split_and!.
    + right. destruct Hr as [->|(n' & Hin & ->)]; [exists n|exists n']; (split; [set_solver|done]).
    + intros Hx. apply Hb. by eapply better_trans.
    + intros n' [->|Hin]%elem_of_cons; [exact Hb|by apply Hall].
  - destruct (IH acc Hacc) as (Hr & Hb & Hall). split_and!; [set_solver|done|].
    intros n' [->|Hin]%elem_of_cons; [|by apply Hall]. intros Hx. apply Hc.
    assert (Hd : is_digest (snd (foldl select_step acc l))).
    { destruct Hr as [->|(m & Hm & ->)]; [done|]. rewrite Forall_forall in Hl. by apply Hl. }
    destruct (better_trichotomy (snd acc, cp_hash (fst acc)) (snd (foldl select_step acc l), cp_hash (fst (foldl select_step acc l))))
      as [?|[?|E]]; [done..|by eapply better_trans|by rewrite E].
Qed.

(** An order in which a map may be iterated. *)
Definition iterates (order : gmap (list Z) ValidatedHeader → list ValidatedHeader) : Prop := ∀ nodes, order nodes ≡ₚ node_values nodes.

Lemma elem_of_values nodes n : n ∈ node_values nodes ↔ ∃ h, nodes !! h = Some n.
Proof.
  unfold node_values. rewrite list_elem_of_fmap. split.
  - intros ([h n'] & -> & Hin%elem_of_map_to_list). eauto.
  - intros [h Hn]. exists (h, n). split; [done|]. by apply elem_of_map_to_list.
Qed.

Lemma held_with_best d b bw p w : held (with_best d b bw) p w ↔ held d p w.
Proof. done. Qed.

Lemma graph_inv_with_best d b bw : graph_inv d → graph_inv (with_best d b bw).
Proof. intros []. by split. Qed.

Lemma reselect_inv order d : iterates order → graph_inv d → let d' := snd (reselect_best order d) in graph_inv d' ∧ best_inv d'.
Proof.
  intros Ho Hg. cbv zeta. unfold reselect_best.
  assert (Hdig : Forall (λ n, is_digest (vh_cumulative_work n)) (order (hd_nodes d))).
  { rewrite (Ho _). apply Forall_forall. intros n [h Hn]%elem_of_values. eapply gi_work; [done|by eapply held_node]. }
  pose proof (fold_select (order (hd_nodes d)) (hd_finalized d, hd_finalized_work d) (gi_work _ Hg _ _ (held_root d)) Hdig) as (Hr & Hb & Hall).
  destruct (foldl select_step _ _) as [b bw]. cbn [fst snd] in *. split; [by apply graph_inv_with_best|]. split.
  - apply held_with_best. cbn [with_best hd_best hd_best_work]. destruct Hr as [[= -> ->]|(n & Hin & [= -> ->])]; [apply held_root|].
    rewrite (Ho _) in Hin. apply elem_of_values in Hin as [h Hn]. by eapply held_node.
  - cbn [with_best hd_best hd_best_work]. intros p w [[-> ->]|(n & Hn & -> & ->)]%held_with_best; [done|].
    apply Hall. rewrite (Ho _). apply elem_of_values. eauto.
Qed.

(** ** Removal *)

(** A part of the headers that contains the parents of its headers. *)
Lemma graph_inv_part d nodes inventories :
  graph_inv d → nodes ⊆ hd_nodes d →
  (∀ h n, nodes !! h = Some n → vh_prev n = cp_hash (hd_finalized d) ∨ is_Some (nodes !! vh_prev n)) →
  dom inventories ⊆ dom nodes → inventories ⊆ hd_inventories d → graph_inv (with_nodes d nodes inventories).
Proof.
  intros Hg Hsub Hpar Hdom Hinv.
  assert (Hheld : ∀ p w, held (with_nodes d nodes inventories) p w → held d p w).
  { intros p w [?|(n & Hn & ?)]; [by left|right]. exists n. split; [|done]. by eapply lookup_weaken. }
  split; cbn [with_nodes hd_nodes hd_finalized hd_inventories hd_max_nodes].
  - intros h n Hn. apply (gi_keys _ Hg). by eapply lookup_weaken.
  - eapply lookup_weaken_None; [apply Hg|done].
  - apply Hg.
  - intros h n Hn. apply (gi_above _ Hg h). by eapply lookup_weaken.
  - intros h n Hn. destruct (gi_parent _ Hg h n) as (w & Hw & Hc); [by eapply lookup_weaken|]. exists w. split; [|done].
    destruct Hw as [?|(m & Hm & ?)]; [by left|right]. exists m. split; [|done]. cbn [parent_point cp_hash] in *.
    destruct (Hpar h n Hn) as [E|[m' Hm']]; [rewrite E in Hm; by rewrite (gi_root _ Hg) in Hm|].
    pose proof (lookup_weaken _ _ _ _ Hm' Hsub) as Hx. cbn [with_nodes hd_nodes]. congruence.
  - intros p w Hw. by eapply gi_work, Hheld.
  - pose proof (gi_capacity _ Hg). pose proof (map_subseteq_size _ _ Hsub). lia.
  - done.
  - intros h m Hm. apply (gi_providers _ Hg h). by eapply lookup_weaken.
Qed.

Lemma filter_dom_subseteq {A B : Type} (Q : list Z → Prop) `{!∀ h, Decision (Q h)} (m : gmap (list Z) A) (m' : gmap (list Z) B) :
  dom m ⊆ dom m' → dom (filter (λ kv, Q kv.1) m) ⊆ dom (filter (λ kv, Q kv.1) m').
Proof.
  intros Hd h [x Hx]%elem_of_dom. apply map_lookup_filter_Some in Hx as [Hx HQ].
  assert (h ∈ dom m') as [y Hy]%elem_of_dom by (apply Hd, elem_of_dom; eauto).
  apply elem_of_dom. exists y. by apply map_lookup_filter_Some.
Qed.

Lemma elem_of_next nodes removed h :
  h ∈ next_descendants nodes removed ↔ ∃ k n, nodes !! k = Some n ∧ h = vh_hash n ∧ vh_hash n ∉ removed ∧ vh_prev n ∈ removed.
Proof.
  unfold next_descendants. rewrite list_elem_of_fmap. setoid_rewrite list_elem_of_filter. setoid_rewrite elem_of_values. naive_solver.
Qed.

(** The removed set contains the children of what it contains. *)
Lemma descend_closed fuel nodes removed :
  (∀ h n, nodes !! h = Some n → vh_hash n = h) → (size (dom nodes ∖ removed) < fuel)%nat →
  removed ⊆ descend fuel nodes removed
  ∧ ∀ h n, nodes !! h = Some n → vh_prev n ∈ descend fuel nodes removed → h ∈ descend fuel nodes removed.
Proof.
  intros Hk. revert removed. induction fuel as [|fuel IH]; intros removed Hf; [lia|]. cbn [descend].
  destruct (next_descendants nodes removed) as [|x l] eqn:E.
  - split; [done|]. intros h n Hn Hp. destruct (decide (h ∈ removed)) as [|Hni]; [done|]. exfalso.
    assert (Hx : vh_hash n ∈ next_descendants nodes removed); [|rewrite E in Hx; set_solver].
    apply elem_of_next. exists h, n. split_and!; [done..| |done]. by rewrite (Hk h n Hn).
  - destruct (IH (removed ∪ list_to_set (x :: l))) as [Hs Hc]; [|split; [set_solver|done]].
    assert (Hx : x ∈ next_descendants nodes removed) by (rewrite E; left).
    apply elem_of_next in Hx as (k & n & Hn & -> & Hni & _). pose proof (Hk k n Hn) as Hkn.
    assert (dom nodes ∖ (removed ∪ list_to_set (vh_hash n :: l)) ⊂ dom nodes ∖ removed) as ?%subset_size; [|lia].
    split; [set_solver|]. intros Hsub. assert (k ∈ dom nodes) by by apply elem_of_dom; eexists. rewrite Hkn in *. set_solver.
Qed.

Lemma remove_inv d hash : graph_inv d → graph_inv (snd (remove_with_descendants d hash)).
Proof.
  intros Hg. unfold remove_with_descendants. cbn [snd].
  destruct (descend_closed (S (size (hd_nodes d))) (hd_nodes d) {[hash]} (gi_keys _ Hg)) as [_ Hc].
  { rewrite <- (size_dom (D := gset (list Z))). apply Nat.lt_succ_r, subseteq_size. set_solver. }
  set (removed := descend _ _ _) in *. apply graph_inv_part; [done| | | |].
  - apply map_filter_subseteq.
  - intros h n [Hn Hni]%map_lookup_filter_Some. cbn [fst] in Hni.
    destruct (gi_parent _ Hg h n Hn) as (w & [[E _]|(m & Hm & _)] & _); [left; by rewrite <- E|right]. cbn [parent_point cp_hash] in Hm.
    exists m. apply map_lookup_filter_Some. split; [done|]. cbn [fst]. intros Hin. apply Hni. by eapply Hc.
  - exact (filter_dom_subseteq (λ h, h ∉ removed) _ _ (gi_inventories _ Hg)).
  - apply map_filter_subseteq.
Qed.

(** What is removed is gone. *)
Lemma remove_gone d hash : graph_inv d → hd_nodes (snd (remove_with_descendants d hash)) !! hash = None
  ∧ hd_nodes (snd (remove_with_descendants d hash)) ⊆ hd_nodes d.
Proof.
  intros Hg. unfold remove_with_descendants. cbn [snd with_nodes hd_nodes]. split; [|apply map_filter_subseteq].
  destruct (descend_closed (S (size (hd_nodes d))) (hd_nodes d) {[hash]} (gi_keys _ Hg)) as [Hs _].
  { rewrite <- (size_dom (D := gset (list Z))). apply Nat.lt_succ_r, subseteq_size. set_solver. }
  apply map_lookup_filter_None. right. intros n _ Hni. cbn [fst] in Hni. set_solver.
Qed.

Lemma graph_inv_with_invalid d invalid : graph_inv d → graph_inv (with_invalid d invalid).
Proof. intros []. by split. Qed.

Lemma invalidate_inv order d hash :
  iterates order → graph_inv d → best_inv d → graph_inv (snd (HeaderDag_invalidate order d hash)) ∧ best_inv (snd (HeaderDag_invalidate order d hash)).
Proof.
  intros Ho Hg Hb. unfold HeaderDag_invalidate. case_bool_decide; [done|]. pose proof (remove_inv d hash Hg) as Hr.
  destruct (remove_with_descendants d hash) as [condemned d']. cbn [snd] in Hr. by apply reselect_inv, graph_inv_with_invalid.
Qed.

Lemma forget_inv order d hash :
  iterates order → graph_inv d → best_inv d → graph_inv (snd (HeaderDag_forget order d hash)) ∧ best_inv (snd (HeaderDag_forget order d hash)).
Proof. intros Ho Hg Hb. unfold HeaderDag_forget. case_bool_decide; [done|]. by apply reselect_inv, remove_inv. Qed.

Lemma forget_tie_inv order d supplied applied :
  iterates order → graph_inv d → best_inv d →
  graph_inv (snd (forget_unsupplied_tie order d supplied applied)) ∧ best_inv (snd (forget_unsupplied_tie order d supplied applied)).
Proof. intros Ho Hg Hb. unfold forget_unsupplied_tie. destruct (_ || _ : bool); [done|]. by apply forget_inv. Qed.

(** *** Unsupplied branches *)

Lemma forget_smaller order d n :
  graph_inv d → hd_nodes d !! cp_hash (hd_best d) = Some n →
  (size (hd_nodes (snd (HeaderDag_forget order d (cp_hash (hd_best d))))) < size (hd_nodes d))%nat.
Proof.
  intros Hg Hn. unfold HeaderDag_forget. rewrite bool_decide_false by (intros E; rewrite E in Hn; by rewrite (gi_root _ Hg) in Hn).
  destruct (remove_gone d (cp_hash (hd_best d)) Hg) as [Hgone Hsub]. unfold reselect_best. destruct (foldl select_step _ _) as [b bw].
  cbn [snd with_best hd_nodes]. apply map_subset_size. split; [done|]. intros Hsup.
  pose proof (lookup_weaken _ _ _ _ Hn Hsup). congruence.
Qed.

Lemma forget_loop_total order fuel d path applied changed :
  iterates order → graph_inv d → best_inv d → (size (hd_nodes d) ≤ fuel)%nat →
  ∃ c d', forget_loop order fuel d path applied changed = Some (c, d') ∧ graph_inv d' ∧ best_inv d'.
Proof.
  intros Ho. revert d changed. induction fuel as [|fuel IH]; intros d changed Hg Hb Hf; cbn [forget_loop];
    (destruct (_ || _ : bool) eqn:E; [by exists changed, d|]);
    (repeat apply orb_false_iff in E as [E ?]; repeat match goal with Hx : bool_decide _ = false |- _ => apply bool_decide_eq_false in Hx end);
    (destruct (bi_held _ Hb) as [[? _]|(n & Hn & _)]; [done|]).
  - exfalso. apply (map_size_ne_0_lookup_2 (hd_nodes d) (cp_hash (hd_best d))); [by eexists|lia].
  - pose proof (forget_smaller order d n Hg Hn) as Hs. destruct (forget_inv order d (cp_hash (hd_best d)) Ho Hg Hb) as [Hg' Hb'].
    destruct (HeaderDag_forget order d (cp_hash (hd_best d))) as [c d']. cbn [snd] in *. apply IH; [done..|lia].
Qed.

Lemma held_path_total fuel d cursor path :
  graph_inv d → from_option (λ n, vh_height n - cp_height (hd_finalized d)) 0 (hd_nodes d !! cursor) ≤ Z.of_nat fuel →
  is_Some (held_path fuel d cursor path).
Proof.
  intros Hg. revert cursor path. induction fuel as [|fuel IH]; intros cursor path Hf; cbn [held_path];
    (destruct (hd_nodes d !! cursor) as [n|] eqn:Hn; [|by eexists]); cbn [from_option] in Hf; pose proof (gi_above _ Hg _ _ Hn); [lia|].
  apply IH. destruct (gi_parent _ Hg _ _ Hn) as (w & [[E _]|(m & Hm & E & _)] & _); cbn [parent_point cp_hash] in *.
  - assert (vh_prev n = cp_hash (hd_finalized d)) as -> by by rewrite <- E. rewrite (gi_root _ Hg). cbn [from_option]. lia.
  - rewrite Hm. cbn [from_option]. injection E as E _. lia.
Qed.

Lemma forget_branch_inv order d target applied :
  iterates order → graph_inv d → best_inv d →
  ∃ c d', forget_unsupplied_branch order d target applied = Some (c, d') ∧ graph_inv d' ∧ best_inv d'.
Proof.
  intros Ho Hg Hb. unfold forget_unsupplied_branch. destruct (held_path_total (walk_fuel d target) d target ∅ Hg) as [path Hp].
  { unfold walk_fuel. pose proof (gi_height _ Hg). destruct (hd_nodes d !! target) as [n|]; cbn [from_option]; lia. }
  rewrite Hp. cbn [mbind option_bind]. by apply forget_loop_total.
Qed.

(** ** Insertion *)

Lemma collect_spec fuel d p hashes r :
  collect_ancestry_hashes fuel d p hashes = Ok r → hashes ⊆ r ∧ (p ≠ hd_finalized d → cp_hash p ∈ r).
Proof.
  revert p hashes. induction fuel as [|fuel IH]; intros p hashes; cbn [collect_ancestry_hashes]; case_bool_decide as E;
    [by intros [= <-]|done|by intros [= <-]|]. intros Hc. apply bind_Ok in Hc as (q & _ & Hc). apply IH in Hc as [Hs _]. set_solver.
Qed.

Lemma collect_total fuel d p w hashes :
  graph_inv d → held d p w → cp_height p - cp_height (hd_finalized d) ≤ Z.of_nat fuel → ∃ r, collect_ancestry_hashes fuel d p hashes = Ok r.
Proof.
  intros Hg. revert p w hashes. induction fuel as [|fuel IH]; intros p w hashes Hh Hf; cbn [collect_ancestry_hashes];
    (case_bool_decide as E; [by eexists|]).
  - destruct (held_above d p w Hg Hh); [done|lia].
  - destruct (parent_held d p w Hg Hh E) as (n & w0 & _ & -> & _ & -> & Hq & _). cbn [mbind result_bind].
    apply (IH _ w0); [done|]. cbn in *. lia.
Qed.

Lemma fold_evict l acc n : foldl evict_step acc l = Some n → acc = Some n ∨ n ∈ l.
Proof.
  revert acc. induction l as [|m l IH]; intros acc Hf; [by left|]. rewrite foldl_cons_eq in Hf. apply IH in Hf as [Hf|Hf]; [|set_solver].
  unfold evict_step in Hf. destruct acc as [c|]; [|set_solver]. destruct (choose_chain_by_work _ _ _ _); set_solver.
Qed.

Lemma best_inv_part d nodes inventories :
  best_inv d → nodes ⊆ hd_nodes d → held (with_nodes d nodes inventories) (hd_best d) (hd_best_work d) → best_inv (with_nodes d nodes inventories).
Proof.
  intros [_ Hm] Hsub Hb. split; [exact Hb|]. intros p w [?|(n & Hn & ?)]; apply Hm; [by left|right]. exists n. split; [|done]. by eapply lookup_weaken.
Qed.

(** An eviction keeps the graph, the selected tip and the point it makes room above. *)
Lemma evict_inv order d p w b d' :
  iterates order → graph_inv d → best_inv d → held d p w → evict_unprotected_leaf order d p = Ok (b, d') →
  graph_inv d' ∧ best_inv d' ∧ held d' p w ∧ hd_finalized d' = hd_finalized d ∧ hd_max_nodes d' = hd_max_nodes d ∧ hd_nodes d' ⊆ hd_nodes d
  ∧ (b = true → (size (hd_nodes d') < size (hd_nodes d))%nat).
Proof.
  intros Ho Hg Hb Hp He. unfold evict_unprotected_leaf in He. apply bind_Ok in He as (pr1 & Hc1 & He). apply bind_Ok in He as (pr2 & Hc2 & He).
  apply collect_spec in Hc1 as [_ Hc1]. apply collect_spec in Hc2 as [Hs Hc2]. cbv zeta in He.
  set (parents := list_to_set _) in He. destruct (foldl _ _ _) as [ev|] eqn:Ef; [|by injection He as <- <-]. injection He as <- <-.
  apply fold_evict in Ef as [|Ef]; [done|]. apply list_elem_of_filter in Ef as [[Hpr Hle] Hin]. rewrite (Ho _) in Hin.
  apply elem_of_values in Hin as [k Hev]. pose proof (gi_keys _ Hg _ _ Hev) as Hk. rewrite Hk in *.
  assert (Hkeep : ∀ q wq, held d q wq → (q ≠ hd_finalized d → cp_hash q ∈ pr2) →
    held (with_nodes d (delete k (hd_nodes d)) (delete k (hd_inventories d))) q wq).
  { intros q wq [?|(n & Hn & Hq & ?)] Hin; [by left|]. destruct (decide (q = hd_finalized d)) as [Hfin|Hne].
    - rewrite Hfin in Hn. by rewrite (gi_root _ Hg) in Hn.
    - right. exists n. split; [|done]. cbn [with_nodes hd_nodes]. rewrite lookup_delete_ne; [done|]. intros ->. by apply Hpr, Hin. }
  pose proof (delete_subseteq (hd_nodes d) k) as Hsub. split_and!; [|apply best_inv_part; [done..|]| |done|done|done|].
  - apply graph_inv_part; [done|done| | |apply delete_subseteq].
    + intros h n [Hne Hn]%lookup_delete_Some. destruct (gi_parent _ Hg h n Hn) as (w0 & [[E _]|(m & Hm & _)] & _); [left; by rewrite <- E|right].
      exists m. cbn [parent_point cp_hash] in Hm. rewrite lookup_delete_ne; [done|]. intros E. apply Hle. subst parents.
      apply elem_of_list_to_set, list_elem_of_fmap. exists n. split; [done|]. apply elem_of_values. eauto.
    + rewrite !dom_delete_L. pose proof (gi_inventories _ Hg). set_solver.
  - apply Hkeep; [apply Hb|]. intros Hne. by apply Hs, Hc1.
  - by apply Hkeep.
  - intros _. cbn [with_nodes hd_nodes]. apply map_subset_size, delete_subset. by eexists.
Qed.

(** What a header must satisfy to be offered: its hash is not the finalized one,
    its work is a 256-bit value and its height is below the last one. *)
Definition candidate_ok d c : Prop :=
  vh_hash c ≠ cp_hash (hd_finalized d) ∧ is_digest (vh_cumulative_work c) ∧ vh_height c < uint_max 64.

Lemma held_add d c p w :
  hd_nodes d !! vh_hash c = None →
  held (with_nodes d (<[vh_hash c := c]> (hd_nodes d)) (hd_inventories d)) p w ↔
  held d p w ∨ (p = ValidatedHeader_point c ∧ w = vh_cumulative_work c).
Proof.
  intros Hn. split.
  - intros [?|(n & Hl & -> & ->)]; [by left; left|]. cbn [with_nodes hd_nodes ValidatedHeader_point cp_hash] in Hl.
    apply lookup_insert_Some in Hl as [[E ->]|[Hne Hl]]; [by right|left; right]. by exists n.
  - intros [[?|(n & Hl & ?)]|[-> ->]]; [by left|right; exists n; split; [|done]|right; exists c; split; [|done]]; cbn [with_nodes hd_nodes].
    + rewrite lookup_insert_ne; [done|]. intros E. rewrite <- E in Hl. congruence.
    + apply lookup_insert_eq.
Qed.

Lemma add_candidate_inv d c pw :
  graph_inv d → best_inv d → candidate_ok d c → hd_nodes d !! vh_hash c = None → cp_height (hd_finalized d) < vh_height c →
  held d (parent_point c) pw → continues pw c → Z.of_nat (size (hd_nodes d)) < hd_max_nodes d →
  graph_inv (snd (add_candidate d c)) ∧ best_inv (snd (add_candidate d c)).
Proof.
  intros Hg Hb (Hroot & Hdig & _) Hn Habove Hp Hc Hcap. set (d1 := with_nodes d (<[vh_hash c := c]> (hd_nodes d)) (hd_inventories d)).
  assert (Hadd : ∀ p w, held d1 p w ↔ held d p w ∨ (p = ValidatedHeader_point c ∧ w = vh_cumulative_work c)) by (intros; by apply held_add).
  assert (Hg1 : graph_inv d1).
  { destruct Hg as [G1 G2 G3 G4 G5 G6 G7 G8 G9]. split; cbn [d1 with_nodes hd_nodes hd_finalized hd_inventories hd_max_nodes]; [..|done].
    - intros h n [[<- <-]|[_ ?]]%lookup_insert_Some; [done|by apply G1].
    - by rewrite lookup_insert_ne.
    - done.
    - intros h n [[<- <-]|[_ ?]]%lookup_insert_Some; [done|by eapply G4].
    - intros h n [[<- <-]|[_ Hh]]%lookup_insert_Some; [exists pw; split; [apply Hadd; by left|done]|].
      destruct (G5 h n Hh) as (w & ? & ?). exists w. split; [apply Hadd; by left|done].
    - intros p w [?|[_ ->]]%Hadd; [by eapply G6|done].
    - rewrite map_size_insert_None by done. lia.
    - rewrite dom_insert_L. set_solver. }
  pose proof (choose_better (vh_cumulative_work c) (vh_hash c) (hd_best_work d) (cp_hash (hd_best d)) Hdig (gi_work _ Hg _ _ (bi_held _ Hb))) as Hch.
  unfold add_candidate. fold d1. destruct Hb as [Hbh Hbm]. destruct (choose_chain_by_work _ _ _ _); cbn [snd].
  - split; [by apply graph_inv_with_best|]. split; [apply held_with_best, Hadd; by right|].
    intros p w [Hh|[-> ->]]%held_with_best%Hadd Hx; [|by eapply better_irrefl]. apply (Hbm p w Hh). by eapply better_trans.
  - split; [done|]. split; [apply Hadd; by left|]. intros p w [Hh|[-> ->]]%Hadd Hx; [by apply (Hbm p w Hh)|].
    eapply better_irrefl. by eapply better_trans.
  - split; [done|]. split; [apply Hadd; by left|]. intros p w [Hh|[-> ->]]%Hadd Hx; [by apply (Hbm p w Hh)|].
    destruct Hch as [Ew Eh]. cbn [ValidatedHeader_point cp_hash] in Hx. rewrite Ew, Eh in Hx. by eapply better_irrefl.
Qed.

Lemma candidate_parent_held d c p pw :
  graph_inv d → candidate_parent d c = Ok (p, pw) → held d p pw ∧ cp_hash p = vh_prev c.
Proof.
  intros Hg. unfold candidate_parent. case_bool_decide as E; [intros [= <- <-]; split; [apply held_root|done]|].
  destruct (hd_nodes d !! vh_prev c) as [n|] eqn:Hn; [|done]. intros [= <- <-]. split; [by eapply held_node|]. by eapply gi_keys.
Qed.

Lemma insert_inv order d c u d' :
  iterates order → graph_inv d → best_inv d → candidate_ok d c → HeaderDag_insert order d c = Ok (u, d') → graph_inv d' ∧ best_inv d'.
Proof.
  intros Ho Hg Hb Hok Hi. unfold HeaderDag_insert in Hi. apply if_err_Ok in Hi as [Habove%Z.leb_gt Hi].
  case_bool_decide; [by injection Hi as <- <-|].
  case_bool_decide; [injection Hi as <- <-; split; [by apply graph_inv_with_invalid|by destruct Hb; split]|].
  destruct (hd_nodes d !! vh_hash c) as [n|] eqn:Hn; [case_bool_decide; [by injection Hi as <- <-|done]|].
  apply bind_Ok in Hi as ([p pw] & Hp & Hi). destruct (candidate_parent_held d c p pw Hg Hp) as [Hh Hprev].
  apply if_err_Ok in Hi as [Hheight%negb_false_iff%Z.eqb_eq Hi]. apply bind_Ok in Hi as (bw & Hbw%expect_Ok & Hi).
  apply if_err_Ok in Hi as [Hwork%bool_decide_eq_false%dec_stable Hi].
  assert (Hpp : parent_point c = p).
  { destruct Hok as (_ & _ & Hmax). unfold parent_point. rewrite Hheight, <- Hprev in *. unfold saturating_add in *.
    destruct p as [ph hh]. cbn [cp_height cp_hash] in *. f_equal. lia. }
  assert (Hc : continues pw c) by by exists bw. rewrite <- Hpp in Hh. destruct (Z.ltb_spec (Z.of_nat (size (hd_nodes d))) (hd_max_nodes d)).
  - injection Hi as Hi. pose proof (add_candidate_inv d c pw Hg Hb Hok Hn Habove Hh Hc) as Hr. rewrite Hi in Hr. by apply Hr.
  - apply bind_Ok in Hi as ([ev d1] & He & Hi). apply if_err_Ok in Hi as [->%negb_false_iff Hi]. rewrite <- Hpp in He.
    destruct (evict_inv order d _ pw true d1 Ho Hg Hb Hh He) as (Hg1 & Hb1 & Hh1 & Hf1 & Hm1 & Hs1 & Hsize). specialize (Hsize eq_refl).
    injection Hi as Hi. pose proof (gi_capacity _ Hg). pose proof (add_candidate_inv d1 c pw Hg1 Hb1) as Hr. rewrite Hi in Hr. apply Hr.
    + unfold candidate_ok in *. by rewrite Hf1.
    + by eapply lookup_weaken_None.
    + by rewrite Hf1.
    + done.
    + done.
    + rewrite Hm1. lia.
Qed.

(** An insertion never runs out of fuel, nor does the work of its target fail. *)
Lemma insert_total order d c :
  graph_inv d → best_inv d → is_Some (block_work (vh_target c)) → HeaderDag_insert order d c ≠ Err Panic.
Proof.
  intros Hg Hb [bw Hbw]. unfold HeaderDag_insert. destruct (_ <=? _); [done|]. case_bool_decide; [done|]. case_bool_decide; [done|].
  destruct (hd_nodes d !! vh_hash c); [by case_bool_decide|].
  destruct (candidate_parent d c) as [[p pw]|e] eqn:Hp; cbn [mbind result_bind].
  2:{ unfold candidate_parent in Hp. case_bool_decide; [done|]. destruct (hd_nodes d !! vh_prev c); [done|]. by injection Hp as <-. }
  destruct (candidate_parent_held d c p pw Hg Hp) as [Hh _]. destruct (negb _); [done|]. rewrite Hbw. cbn [expect ok_or mbind result_bind].
  case_bool_decide; [done|]. destruct (_ <? _); [done|].
  unfold evict_unprotected_leaf. pose proof (gi_height _ Hg).
  destruct (collect_total (walk_fuel d (cp_hash (hd_best d))) d (hd_best d) _ ∅ Hg (bi_held _ Hb)) as [pr1 ->]; [by eapply walk_fuel_held, Hb|].
  cbn [mbind result_bind]. destruct (collect_total (walk_fuel d (cp_hash p)) d p pw pr1 Hg Hh) as [pr2 ->]; [by eapply walk_fuel_held|].
  cbn [mbind result_bind]. cbv zeta. by destruct (foldl _ _ _).
Qed.

(** ** Finality *)

Lemma cumulative_work_held d p w : graph_inv d → held d p w → HeaderDag_cumulative_work d p = Ok w.
Proof.
  intros Hg [[-> ->]|(n & Hn & -> & ->)]; unfold HeaderDag_cumulative_work; [by rewrite bool_decide_true|].
  rewrite bool_decide_false; [|intros E; rewrite E in Hn; by rewrite (gi_root _ Hg) in Hn]. rewrite Hn. by rewrite Z.eqb_refl.
Qed.

(** The headers kept by an advance to [f]. *)
Definition kept d f h n : Prop :=
  hd_nodes d !! h = Some n ∧ cp_height f < vh_height n ∧ is_ancestor d f (ValidatedHeader_point n) = Ok true.

Lemma unwrap_true {E} (r : result E bool) : Is_true (unwrap_or_false r) ↔ r = Ok true.
Proof. destruct r as [[]|]; cbn; naive_solver. Qed.

Lemma advance_Ok d f w d' :
  graph_inv d → f ≠ hd_finalized d → advance_finalized d f w = Ok d' →
  is_ancestor d f (hd_best d) = Ok true
  ∧ hd_finalized d' = f ∧ hd_finalized_work d' = w ∧ hd_max_nodes d' = hd_max_nodes d ∧ hd_inventories d' ⊆ hd_inventories d
  ∧ (∀ h n, hd_nodes d' !! h = Some n ↔ kept d f h n) ∧ dom (hd_inventories d') ⊆ dom (hd_nodes d')
  ∧ (hd_best d', hd_best_work d') = (if cp_height (hd_best d) <=? cp_height f then (f, w) else (hd_best d, hd_best_work d)).
Proof.
  intros Hg Hne Ha. unfold advance_finalized in Ha. rewrite bool_decide_false in Ha by done. apply bind_Ok in Ha as (b & Hb & Ha).
  destruct b; [|done]. cbn [negb] in Ha. split; [done|]. set (keep := list_to_set _) in Ha.
  assert (Hkeep : ∀ h n, hd_nodes d !! h = Some n → h ∈ keep ↔ kept d f h n).
  { intros h n Hn. subst keep. rewrite elem_of_list_to_set, list_elem_of_fmap. setoid_rewrite list_elem_of_filter.
    setoid_rewrite list_elem_of_fmap. setoid_rewrite elem_of_values. setoid_rewrite unwrap_true. unfold kept. split.
    - intros (p & Hh & (Hlt & Hanc) & n' & -> & k & Hk). cbn [ValidatedHeader_point cp_hash] in Hh. rewrite (gi_keys _ Hg k n' Hk) in Hh. subst k.
      rewrite Hn in Hk. by injection Hk as <-.
    - intros (_ & Hlt & Hanc). exists (ValidatedHeader_point n). split; [cbn; by rewrite (gi_keys _ Hg h n Hn)|]. split; [done|]. eauto. }
  clearbody keep. injection Ha as <-. destruct (cp_height (hd_best d) <=? cp_height f);
    cbn [with_best with_finalized with_nodes hd_finalized hd_finalized_work hd_max_nodes hd_inventories hd_nodes hd_best hd_best_work].
  all: split_and!; [done..|apply map_filter_subseteq| |exact (filter_dom_subseteq (λ h, h ∈ keep) _ _ (gi_inventories _ Hg))|done].
  all: intros h n; rewrite map_lookup_filter_Some; cbn [fst]; (split; [intros [Hn Hin]; by apply Hkeep|]); intros Hk; split; [apply Hk|];
    by apply (Hkeep h n); [apply Hk|].
Qed.

Lemma advance_inv d f w d' :
  graph_inv d → best_inv d → HeaderDag_cumulative_work d f = Ok w → advance_finalized d f w = Ok d' → graph_inv d' ∧ best_inv d'.
Proof.
  intros Hg Hb Hw Ha. destruct (decide (f = hd_finalized d)) as [->|Hne].
  { unfold advance_finalized in Ha. rewrite bool_decide_true in Ha by done. injection Ha as <-.
    rewrite (cumulative_work_held d _ _ Hg (held_root d)) in Hw. injection Hw as <-. by destruct d. }
  destruct (advance_Ok d f w d' Hg Hne Ha) as (Hanc & Ef & Ew & Em & Hinv & Hk & Hdom & Ebest).
  destruct (is_ancestor_true d f _ _ Hg (bi_held _ Hb) Hanc) as (wf & Hf & Hle).
  rewrite (cumulative_work_held d f wf Hg Hf) in Hw. injection Hw as ->.
  assert (Hheld : ∀ p v, held d' p v → held d p v).
  { intros p v [[-> ->]|(n & Hn & -> & ->)]; [by rewrite Ef, Ew|]. apply Hk in Hn as [Hn _]. by eapply held_node. }
  destruct (held_above d f w Hg Hf) as [?|Hfh]; [done|]. pose proof (gi_height _ Hg) as Hz.
  split; [split|].
  - intros h n [Hn _]%Hk. by apply (gi_keys _ Hg).
  - rewrite Ef. apply eq_None_not_Some. intros [n [Hn [Hlt _]]%Hk]. pose proof (held_node d _ n Hg Hn) as Hh.
    destruct (held_inj d _ _ _ _ Hg Hf Hh) as [E _]; [cbn; by rewrite (gi_keys _ Hg _ _ Hn)|]. rewrite E in Hlt. cbn in Hlt. lia.
  - rewrite Ef. lia.
  - intros h n (_ & Hlt & _)%Hk. by rewrite Ef.
  - intros h n (Hn & Hlt & Ha')%Hk. destruct (gi_parent _ Hg h n Hn) as (w0 & Hp & Hc). exists w0. split; [|done].
    pose proof (is_ancestor_parent d f _ _ n Hg (held_node d h n Hg Hn) Ha' Hlt) as Hpa.
    specialize (Hpa ltac:(cbn; by rewrite (gi_keys _ Hg h n Hn))).
    destruct (is_ancestor_true d f _ _ Hg Hp Hpa) as (_ & _ & Hle'). destruct (decide (cp_height f = cp_height (parent_point n))) as [E|Hd].
    + left. rewrite Ef, Ew. pose proof (is_ancestor_same_height d f _ E Hpa) as Epf. rewrite Epf in *. by eapply held_inj.
    + destruct Hp as [[E _]|(m & Hm & E & ->)]; [rewrite E in *; lia|]. right. exists m. split; [|done]. apply Hk. split; [done|].
      rewrite E in Hd, Hle'. cbn in Hd, Hle'. split; [lia|by rewrite <- E].
  - intros p v Hv. by eapply gi_work, Hheld.
  - rewrite Em. etrans; [|apply (gi_capacity _ Hg)]. apply inj_le, map_subseteq_size, map_subseteq_spec. intros h n [Hn _]%Hk. done.
  - done.
  - intros h m Hm. apply (gi_providers _ Hg h). by eapply lookup_weaken.
  - destruct (Z.leb_spec (cp_height (hd_best d)) (cp_height f)) as [Hge|Hlt]; injection Ebest as Eb Ebw.
    + pose proof (is_ancestor_same_height d f (hd_best d) ltac:(lia) Hanc) as E.
      destruct (held_inj d _ _ _ _ Hg (bi_held _ Hb) Hf) as [_ Ebw']; [by rewrite E|].
      split; rewrite Eb, Ebw; [left; by rewrite Ef, Ew|]. intros p v Hv%Hheld. rewrite <- E, <- Ebw'. by apply Hb.
    + split; rewrite Eb, Ebw; [|intros p v Hv%Hheld; by apply Hb]. destruct (bi_held _ Hb) as [[E _]|(n & Hn & E & Ewn)]; [rewrite E in Hlt; lia|].
      right. exists n. split; [|done]. apply Hk. split; [done|]. rewrite E in Hlt, Hanc. by split.
Qed.

(** ** Inventories *)

Lemma advertise_fold {P : Poseidon2bPermutation} d peer records acc :
  Forall (λ r, check_record d peer r = Ok tt) records →
  (∀ h m, snd acc !! h = Some m → is_Some (hd_nodes d !! h) ∧ (hd_inventories d !! h = Some m
     ∨ ∃ r, m = <[peer := r]> (default ∅ (hd_inventories d !! h)) ∧ (size m ≤ MAX_PROVIDERS_PER_HEADER)%nat)) →
  (∀ h m, hd_inventories d !! h = Some m → is_Some (snd acc !! h)) →
  graph_inv d →
  ∀ h m, snd (foldl (add_record peer) acc records) !! h = Some m →
    is_Some (hd_nodes d !! h) ∧ (size m ≤ MAX_PROVIDERS_PER_HEADER)%nat.
Proof.
  intros Hr Hacc Hold Hg. revert acc Hacc Hold. induction Hr as [|r records Hr _ IH]; intros acc Hacc Hold.
  { cbn [foldl]. intros h m Hm. destruct (Hacc h m Hm) as [Hn [Hd|(r & _ & Hs)]]; (split; [done|]); [by eapply gi_providers|done]. }
  rewrite foldl_cons_eq. apply IH; unfold add_record; cbn [snd].
  - intros h m [[<- <-]|[_ ?]]%lookup_insert_Some; [|by apply Hacc]. set (h := block_id (hr_header r)) in *.
    unfold check_record in Hr. fold h in Hr. cbv zeta in Hr. destruct (hd_nodes d !! h) as [n|] eqn:Hn; [|done]. split; [by eexists|].
    right. exists r. apply if_err_Ok in Hr as [_ Hr]. apply if_err_Ok in Hr as [Hc _].
    assert (E : <[peer := r]> (default ∅ (snd acc !! h)) = <[peer := r]> (default ∅ (hd_inventories d !! h))).
    { destruct (snd acc !! h) as [m|] eqn:Em; cbn [from_option id].
      - destruct (Hacc h m Em) as [_ [->|(r' & -> & _)]]; [done|]. by rewrite insert_insert_eq.
      - destruct (hd_inventories d !! h) as [m|] eqn:Ed; [|done]. destruct (Hold h m Ed) as [? ?]. congruence. }
    rewrite E. split; [done|]. destruct (hd_inventories d !! h) as [m|] eqn:Ed; cbn [from_option id].
    + destruct (m !! peer) as [r0|] eqn:Ep.
      * rewrite map_size_insert_Some by by eexists. by eapply gi_providers.
      * rewrite map_size_insert_None by done. rewrite bool_decide_true in Hc by done. cbn [andb] in Hc. apply Nat.leb_gt in Hc. lia.
    + rewrite insert_empty, map_size_singleton. unfold MAX_PROVIDERS_PER_HEADER. lia.
  - intros h m Hm. destruct (decide (block_id (hr_header r) = h)) as [<-|Hne]; [rewrite lookup_insert_eq; by eexists|].
    rewrite lookup_insert_ne by done. by eapply Hold.
Qed.

Lemma graph_inv_inventories d inventories :
  graph_inv d → (∀ h m, inventories !! h = Some m → is_Some (hd_nodes d !! h) ∧ (size m ≤ MAX_PROVIDERS_PER_HEADER)%nat) →
  graph_inv (with_nodes d (hd_nodes d) inventories).
Proof.
  intros [] Hi. split; try done; cbn [with_nodes hd_inventories hd_nodes].
  - intros h [m Hm]%elem_of_dom. apply elem_of_dom. by destruct (Hi h m Hm).
  - intros h m Hm. by destruct (Hi h m Hm).
Qed.

Lemma advertise_inv {P : Poseidon2bPermutation} d peer records k d' :
  graph_inv d → best_inv d → advertise_inventory d peer records = Ok (k, d') → graph_inv d' ∧ best_inv d'.
Proof.
  intros Hg Hb Ha. unfold advertise_inventory in Ha. apply bind_Ok in Ha as ([] & Hc & Ha).
  assert (Hall : Forall (λ r, check_record d peer r = Ok tt) records).
  { apply Forall_forall. intros r Hr. destruct (try_fold_each _ _ _ _ _ Hc Hr) as ([] & [] & ?). done. }
  pose proof (advertise_fold d peer records (0, hd_inventories d) Hall) as Hf.
  destruct (foldl (add_record peer) (0, hd_inventories d) records) as [n inventories]. injection Ha as <- <-. cbn [snd] in Hf.
  split; [|by destruct Hb; split]. apply graph_inv_inventories; [done|]. apply Hf; [|by eauto|done].
  intros h m Hm. split; [|by left]. apply elem_of_dom, (gi_inventories _ Hg), elem_of_dom. by eexists.
Qed.

Lemma remove_provider_inv d peer :
  graph_inv d → best_inv d → graph_inv (remove_inventory_provider d peer) ∧ best_inv (remove_inventory_provider d peer).
Proof.
  intros Hg Hb. split; [|by destruct Hb; split]. apply graph_inv_inventories; [done|].
  intros h m [Hm _]%map_lookup_filter_Some. apply lookup_fmap_Some in Hm as (m0 & <- & Hm). split.
  - apply elem_of_dom, (gi_inventories _ Hg), elem_of_dom. by eexists.
  - etrans; [|by apply (gi_providers _ Hg h)]. apply map_subseteq_size, delete_subseteq.
Qed.

(** ** Recording headers *)

(** With room and nothing condemned, recording headers adds exactly them. *)
Lemma insert_adds order d c u d' :
  hd_invalid d = ∅ → Z.of_nat (size (hd_nodes d)) < hd_max_nodes d → HeaderDag_insert order d c = Ok (u, d') →
  hd_finalized d' = hd_finalized d ∧ hd_finalized_work d' = hd_finalized_work d ∧ hd_invalid d' = ∅ ∧ hd_max_nodes d' = hd_max_nodes d
  ∧ hd_nodes d' = <[vh_hash c := c]> (hd_nodes d) ∧ (∀ n, hd_nodes d !! vh_hash c = Some n → n = c).
Proof.
  intros Hi Hroom Hins. unfold HeaderDag_insert in Hins. rewrite Hi in Hins. apply if_err_Ok in Hins as [_ Hins].
  rewrite !bool_decide_false in Hins by set_solver. destruct (hd_nodes d !! vh_hash c) as [n|] eqn:Hn.
  { case_bool_decide as E; [|done]. injection Hins as <- <-. rewrite E in Hn. rewrite insert_id by done. split_and!; [done..|]. intros ? [= <-]. done. }
  apply bind_Ok in Hins as ([p pw] & _ & Hins). apply if_err_Ok in Hins as [_ Hins]. apply bind_Ok in Hins as (bw & _ & Hins).
  apply if_err_Ok in Hins as [_ Hins]. rewrite (proj2 (Z.ltb_lt _ _) Hroom) in Hins. injection Hins as Hins. unfold add_candidate in Hins.
  destruct (choose_chain_by_work _ _ _ _); injection Hins as <- <-; done.
Qed.

Lemma record_adds order d l d' :
  iterates order → graph_inv d → best_inv d → Forall (candidate_ok d) l → hd_invalid d = ∅ →
  Z.of_nat (size (hd_nodes d)) + Z.of_nat (length l) ≤ hd_max_nodes d → record_validated_headers order d l = Ok d' →
  graph_inv d' ∧ best_inv d' ∧ hd_finalized d' = hd_finalized d ∧ hd_finalized_work d' = hd_finalized_work d
  ∧ ∀ h n, hd_nodes d' !! h = Some n ↔ hd_nodes d !! h = Some n ∨ (n ∈ l ∧ h = vh_hash n).
Proof.
  intros Ho. revert d. induction l as [|c l IH]; intros d Hg Hb Hl Hi Hroom Hr.
  { cbn in Hr. injection Hr as <-. split_and!; [done..|]. set_solver. }
  cbn [record_validated_headers try_fold] in Hr. apply bind_Ok in Hr as (d1 & Hc & Hr). apply bind_Ok in Hc as ([u d1'] & Hc & [= ->]).
  apply Forall_cons in Hl as [Hok Hl]. rewrite length_cons in Hroom.
  destruct (insert_adds order d c u d1 Hi ltac:(lia) Hc) as (Ef & Ew & Ei & Em & En & Hsame).
  destruct (insert_inv order d c u d1 Ho Hg Hb Hok Hc) as [Hg1 Hb1].
  assert (Hsize : (size (hd_nodes d1) ≤ S (size (hd_nodes d)))%nat) by (rewrite En, map_size_insert; destruct (hd_nodes d !! vh_hash c); cbn; lia).
  destruct (IH d1 Hg1 Hb1) as (Hg' & Hb' & Ef' & Ew' & Hin); [|done|lia|done|].
  { eapply Forall_impl; [exact Hl|]. intros x. unfold candidate_ok. by rewrite Ef. }
  split_and!; [done..|congruence|congruence|]. intros h n. rewrite Hin, En, lookup_insert_Some, elem_of_cons. split.
  - intros [[[<- <-]|[_ ?]]|[? ->]]; [by right; split; [left|]|by left|by right; split; [right|]].
  - intros [Hn|[[->|?] ->]]; [|by left; left|by right]. left. destruct (decide (vh_hash c = h)) as [<-|Hne]; [|by right].
    left. split; [done|]. symmetry. by apply Hsame.
Qed.

(** ** Every run of the graph *)

(** The graphs reached from an empty one: every operation that changes the graph,
    each iterating its maps in an order of its own; the headers offered satisfy
    [candidate_ok], and the finalized point advances with the work the graph has
    for it. *)
Inductive dag_run {P : Poseidon2bPermutation} : HeaderDag Peer → Prop :=
  | dr_new finalized work max_nodes d :
      0 ≤ cp_height finalized → is_digest work → HeaderDag_new finalized work max_nodes = Ok d → dag_run d
  | dr_insert order d c u d' :
      dag_run d → iterates order → candidate_ok d c → HeaderDag_insert order d c = Ok (u, d') → dag_run d'
  | dr_invalidate order d hash : dag_run d → iterates order → dag_run (snd (HeaderDag_invalidate order d hash))
  | dr_forget order d hash : dag_run d → iterates order → dag_run (snd (HeaderDag_forget order d hash))
  | dr_forget_tie order d supplied applied :
      dag_run d → iterates order → dag_run (snd (forget_unsupplied_tie order d supplied applied))
  | dr_forget_branch order d target applied b d' :
      dag_run d → iterates order → forget_unsupplied_branch order d target applied = Some (b, d') → dag_run d'
  | dr_advertise d peer records k d' : dag_run d → advertise_inventory d peer records = Ok (k, d') → dag_run d'
  | dr_remove_provider d peer : dag_run d → dag_run (remove_inventory_provider d peer)
  | dr_advance d f w d' :
      dag_run d → HeaderDag_cumulative_work d f = Ok w → advance_finalized d f w = Ok d' → dag_run d'.

Lemma dag_run_inv {P : Poseidon2bPermutation} d : dag_run d → graph_inv d ∧ best_inv d.
Proof.
  induction 1 as [f w m d Hh Hw Hn|? ? ? ? ? _ []|? ? ? _ []|? ? ? _ []|? ? ? ? _ []|order d target applied b d' _ [] Ho Hf|? ? ? ? ? _ []|? ? _ []|? ? ? ? _ []].
  - unfold HeaderDag_new in Hn. apply if_err_Ok in Hn as [Hm%negb_false_iff%Z.ltb_lt [= <-]].
    assert (Hroot : ∀ p v, held (mkHeaderDag f w f w ∅ ∅ ∅ m) p v → p = f ∧ v = w) by (intros p v [?|(n & ? & _)]; done).
    split; split; cbn [hd_nodes hd_finalized hd_inventories hd_max_nodes hd_best hd_best_work]; try done.
    + intros p v [_ ->]%Hroot. done.
    + rewrite map_size_empty. lia.
    + by left.
    + intros p v [-> ->]%Hroot. apply better_irrefl.
  - by eapply insert_inv.
  - by apply invalidate_inv.
  - by apply forget_inv.
  - by apply forget_tie_inv.
  - destruct (forget_branch_inv order d target applied Ho) as (b0 & d0 & E & ? & ?); [done..|]. rewrite Hf in E. by injection E as -> ->.
  - by eapply advertise_inv.
  - by apply remove_provider_inv.
  - by eapply advance_inv.
Qed.

End props.

(** ** Properties *)

(** C34: The header graph selects the best tip above the finalized point. After any
    sequence of its operations (insertions with eviction, condemned and forgotten
    branches, inventories, advances of the finalized point with the work the graph
    has for it), for offered headers below the last height whose hash is not that
    of the finalized block:
    - the selected tip is the finalized point or a held header, no held header has
      more work, and none of equal work has a smaller hash;
    - the tip's ancestor at the finalized height is the finalized block, so
      following the tip never undoes finality;
    - from any held point the reorganisation path to the tip exists, starts at a
      held common ancestor and adds up to the tip's work;
    - the tip depends on the finalized point, its work and the held headers only:
      two graphs that agree on these select the same tip; in particular, where
      there is room and nothing is condemned, headers recorded in any two orders
      that are both accepted lead to the same tip;
    - insertions and the forgetting of a branch never run out of steps. *)
Theorem header_selection_converges {P : Poseidon2bPermutation} {Peer : Type} `{Countable Peer} (d : HeaderDag Peer) (Hrun : dag_run d) :
  held d (hd_best d) (hd_best_work d)
  ∧ (∀ p w, held d p w → val w < val (hd_best_work d)
      ∨ (val w = val (hd_best_work d) ∧ bytes_ltb (cp_hash p) (cp_hash (hd_best d)) = false))
  ∧ (∃ p, point_at_height d (hd_best d) (cp_height (hd_finalized d)) = Ok p
      ∧ preserves_finalized_prefix (Some (cp_hash p)) (mkFinalizedCheckpoint (cp_height (hd_finalized d)) (cp_hash (hd_finalized d))) = true)
  ∧ (∀ committed w, held d committed w →
      ∃ ancestor wa path, selected_path_from d committed = Ok (ancestor, path) ∧ held d ancestor wa
        ∧ extend_work wa ((λ n, vh_target n) <$> path) = Some (hd_best_work d))
  ∧ (∀ d' : HeaderDag Peer, dag_run d' →
      hd_finalized d = hd_finalized d' → hd_finalized_work d = hd_finalized_work d' → hd_nodes d = hd_nodes d' →
      hd_best d = hd_best d' ∧ hd_best_work d = hd_best_work d')
  ∧ (∀ order order' l l' d1 d2, iterates order → iterates order' → l ≡ₚ l' → Forall (candidate_ok d) l →
      hd_invalid d = ∅ → Z.of_nat (size (hd_nodes d)) + Z.of_nat (length l) ≤ hd_max_nodes d →
      record_validated_headers order d l = Ok d1 → record_validated_headers order' d l' = Ok d2 →
      hd_best d1 = hd_best d2 ∧ hd_best_work d1 = hd_best_work d2)
  ∧ (∀ order c target applied, iterates order → is_digest (vh_target c) → 0 < val (vh_target c) →
      HeaderDag_insert order d c ≠ Err Panic ∧ is_Some (forget_unsupplied_branch order d target applied)).
Proof.
  destruct (dag_run_inv d Hrun) as [Hg Hb]. split_and!.
  - apply Hb.
  - intros p w Hh. pose proof (bi_max _ Hb p w Hh) as Hn. unfold better in Hn. cbn [fst snd] in Hn.
    destruct (Z.lt_trichotomy (val w) (val (hd_best_work d))) as [?|[?|?]]; [by left|right|exfalso; apply Hn; by left].
    split; [done|]. apply not_true_is_false. intros Ht. apply Hn. by right.
  - pose proof (held_height d _ _ Hg (bi_held _ Hb)) as Hle.
    destruct (climb_from_held d (cp_height (hd_finalized d)) _ _ Hg (bi_held _ Hb) (Z.le_refl _)) as (q & w & Hq & Hh & E).
    exists q. unfold point_at_height. rewrite Z.ltb_irrefl, (proj2 (Z.ltb_ge _ _)) by done. split; [done|].
    destruct (held_above d q w Hg Hh) as [->|?]; [|lia]. unfold preserves_finalized_prefix. by apply bool_decide_eq_true.
  - intros committed w Hc. destruct (common_ancestor_held d committed w _ _ Hg Hc (bi_held _ Hb)) as (a & wa & Ha & Hh & _ & Hbelow).
    destruct (path_from_below d a wa _ _ Hg Hh (bi_held _ Hb) Hbelow) as (l & Hl & Hw & _). exists a, wa, l. split_and!; [|done|done].
    unfold selected_path_from. rewrite Ha. cbn [mbind result_bind]. by rewrite Hl.
  - intros d' Hrun' Hf Hw Hn. destruct (dag_run_inv d' Hrun') as [_ Hb']. by apply best_unique.
  - intros order order' l l' d1 d2 Ho Ho' Hp Hl Hi Hroom H1 H2.
    destruct (record_adds order d l d1 Ho Hg Hb Hl Hi Hroom H1) as (Hg1 & Hb1 & Ef1 & Ew1 & Hin1).
    rewrite Hp in Hl, Hroom. destruct (record_adds order' d l' d2 Ho' Hg Hb Hl Hi Hroom H2) as (Hg2 & Hb2 & Ef2 & Ew2 & Hin2).
    apply best_unique; [done..|congruence|congruence|].
    apply map_eq. intros h. apply option_eq. intros n. by rewrite Hin1, Hin2, Hp.
  - intros order c target applied Ho Ht Hpos. destruct (block_work_val (vh_target c) Ht Hpos) as (bw & Hbw & _). split.
    + apply insert_total; [done..|by eexists].
    + destruct (forget_branch_inv order d target applied Ho Hg Hb) as (b & d' & -> & _). by eexists.
Qed.

(** ** Example *)

Definition example_root : ChainPoint := mkChainPoint 0 (replicate 32 1).

(** A header at the genesis target above [prev], with its work. *)
Definition example_dag_header (prev : list Z) (height byte : Z) (work : list Z) : ValidatedHeader :=
  mkValidatedHeader (mkBlockHeader prev zero_digest zero_digest 0 height zero_digest 0 GENESIS_TARGET 6 0 0) (replicate 32 byte)
    (default zero_digest (extend_work work [GENESIS_TARGET])).

(** Two children of the root, and a child of the first one. *)
Definition example_a : ValidatedHeader := example_dag_header (replicate 32 1) 1 7 zero_digest.

Definition example_b : ValidatedHeader := example_dag_header (replicate 32 1) 1 3 zero_digest.

Definition example_c : ValidatedHeader := example_dag_header (replicate 32 7) 2 9 (vh_cumulative_work example_a).

Definition example_dag : HeaderDag nat := mkHeaderDag example_root zero_digest example_root zero_digest ∅ ∅ ∅ 8.

#[global] Instance candidate_ok_dec (d : HeaderDag nat) c : Decision (candidate_ok d c).
Proof. unfold candidate_ok. apply _. Defined.

Lemma header_selection_converges_witness :
  ∃ d1 d2 : HeaderDag nat, record_validated_headers node_values example_dag [example_a; example_b; example_c] = Ok d1
    ∧ record_validated_headers node_values example_dag [example_b; example_a; example_c] = Ok d2
    ∧ hd_best d1 = ValidatedHeader_point example_c ∧ hd_best d1 = hd_best d2.
Proof.
  assert (Hr : dag_run (P := example_permutation) example_dag).
  { eapply (dr_new example_root zero_digest 8); [done|apply zero_digest_array|reflexivity]. }
  assert (∃ d1 d2, record_validated_headers (Peer := nat) node_values example_dag [example_a; example_b; example_c] = Ok d1
    ∧ record_validated_headers (Peer := nat) node_values example_dag [example_b; example_a; example_c] = Ok d2
    ∧ hd_best d1 = ValidatedHeader_point example_c) as (d1 & d2 & H1 & H2 & Hb).
  { eexists _, _. split; [vm_compute; reflexivity|]. split; [vm_compute; reflexivity|]. vm_compute; reflexivity. }
  exists d1, d2. split; [exact H1|]. split; [exact H2|]. split; [exact Hb|].
  destruct (header_selection_converges (P := example_permutation) example_dag Hr) as (_ & _ & _ & _ & _ & Hperm & _).
  refine (proj1 (Hperm node_values node_values _ _ d1 d2 (λ m, reflexivity _) (λ m, reflexivity _) (perm_swap _ _ _) _ eq_refl _ H1 H2)).
  - apply (bool_decide_unpack _). vm_compute. exact I.
  - apply Z.leb_le. vm_compute. reflexivity.
Defined.
