(* ===== verification/GF128.v ===== *)
(** * The field GF(2^128)

    The carry-less multiplication of [FlatField] is multiplication modulo the
    GCM polynomial: its back ends agree with each other and with repeated
    multiplication by [x], and the 128-bit words form a field of
    characteristic 2.  Most facts are equalities of linear maps, checked on
    the powers of two. *)

From Stdlib Require Import Ring_theory.
From S2P Require Import Prelude Machine FlatField.

(** ** Linear maps *)

Definition linear (f : Z → Z) : Prop := ∀ a b, f (Z.lxor a b) = Z.lxor (f a) (f b).

Lemma lxor_swap a b c d : Z.lxor (Z.lxor a b) (Z.lxor c d) = Z.lxor (Z.lxor a c) (Z.lxor b d).
Proof. rewrite !Z.lxor_assoc. f_equal. by rewrite <- !Z.lxor_assoc, (Z.lxor_comm b). Qed.

(** Decides equalities of exclusive sums. *)
Ltac lxor_solve :=
  apply Z.bits_inj';
  let n := fresh "n" in let Hn := fresh "Hn" in
  intros n Hn; rewrite !Z.lxor_spec;
  repeat match goal with |- context [Z.testbit ?x n] => destruct (Z.testbit x n) end;
  reflexivity.

Lemma linear_id : linear (λ x, x).
Proof. by intros a b. Qed.
Lemma linear_zero : linear (λ _, 0).
Proof. by intros a b. Qed.
Lemma linear_comp f g : linear f → linear g → linear (λ x, f (g x)).
Proof. intros Hf Hg a b. by rewrite Hg, Hf. Qed.
Lemma linear_lxor f g : linear f → linear g → linear (λ x, Z.lxor (f x) (g x)).
Proof. intros Hf Hg a b. rewrite Hf, Hg. apply lxor_swap. Qed.
Lemma linear_shiftl f n : linear f → linear (λ x, Z.shiftl (f x) n).
Proof. intros Hf a b. by rewrite Hf, Z.shiftl_lxor. Qed.
Lemma linear_shiftr f n : linear f → linear (λ x, Z.shiftr (f x) n).
Proof. intros Hf a b. by rewrite Hf, Z.shiftr_lxor. Qed.
Lemma linear_land f m : linear f → linear (λ x, Z.land (f x) m).
Proof.
  intros Hf a b. rewrite Hf. apply Z.bits_inj'. intros n Hn.
  rewrite Z.land_spec, !Z.lxor_spec, !Z.land_spec. by destruct (Z.testbit (f a) n), (Z.testbit (f b) n), (Z.testbit m n).
Qed.
Lemma wrap_land w x : 0 ≤ w → wrap w x = Z.land x (Z.ones w).
Proof. intros Hw. unfold wrap. by rewrite Z.land_ones. Qed.
Lemma linear_wrap f w : 0 ≤ w → linear f → linear (λ x, wrap w (f x)).
Proof. intros Hw Hf a b. rewrite !wrap_land by done. by apply linear_land. Qed.
Lemma linear_0 f : linear f → f 0 = 0.
Proof. intros Hf. specialize (Hf 0 0). by rewrite Z.lxor_0_l, Z.lxor_nilpotent in Hf. Qed.
Lemma linear_bit f c n : linear f → linear (λ x, if Z.testbit (f x) n then c else 0).
Proof.
  intros Hf a b. rewrite Hf, Z.lxor_spec.
  destruct (Z.testbit (f a) n), (Z.testbit (f b) n); cbn [xorb];
    rewrite ?Z.lxor_nilpotent, ?Z.lxor_0_r, ?Z.lxor_0_l; done.
Qed.

Create HintDb linear discriminated.
#[export] Hint Constants Opaque : linear.
#[export] Hint Resolve linear_id linear_zero linear_lxor linear_shiftl linear_shiftr linear_land linear_bit : linear.
#[export] Hint Extern 3 (linear (λ x, wrap ?w _)) => apply linear_wrap; [done|] : linear.

(** ** Bits *)

Lemma lxor_range w a b : 0 ≤ w → is_uint w a → is_uint w b → is_uint w (Z.lxor a b).
Proof.
  unfold is_uint. intros Hw Ha Hb.
  assert (0 ≤ Z.lxor a b) as H0 by (apply Z.lxor_nonneg; lia).
  split; [done|]. destruct (Z.eq_dec (Z.lxor a b) 0) as [->|Hne]; [lia|].
  apply Z.log2_lt_pow2; [lia|].
  pose proof (Z.log2_lxor a b ltac:(lia) ltac:(lia)) as HL.
  assert (∀ x, 0 ≤ x < 2 ^ w → Z.log2 x < w ∨ x = 0) as Hlog.
  { intros x Hx. destruct (Z.eq_dec x 0); [by right|left]. apply Z.log2_lt_pow2; lia. }
  destruct (Hlog a Ha) as [?| ->], (Hlog b Hb) as [?| ->]; rewrite ?Z.lxor_0_l, ?Z.lxor_0_r in *; try lia.
Qed.

Lemma land_pow2_low n r : 0 ≤ n → 0 ≤ r < 2 ^ n → Z.land (2 ^ n) r = 0.
Proof.
  intros Hn Hr. apply Z.bits_inj'. intros k Hk. rewrite Z.land_spec, Z.bits_0, Z.pow2_bits_eqb by lia.
  destruct (Z.eqb_spec n k) as [<-|]; [|done]. apply (testbit_uint_high n); lia.
Qed.

(** Every word is the sum of its bits. *)
Lemma bits_ind (w : nat) (Q : Z → Prop) :
  Q 0 → (∀ i, (i < w)%nat → Q (2 ^ Z.of_nat i)) →
  (∀ a b, is_uint (Z.of_nat w) a → is_uint (Z.of_nat w) b → Q a → Q b → Q (Z.lxor a b)) →
  ∀ a, is_uint (Z.of_nat w) a → Q a.
Proof.
  intros H0 Hbit Hx.
  assert (∀ n, (n ≤ w)%nat → ∀ a, is_uint (Z.of_nat n) a → Q a) as H; [|by apply H].
  assert (∀ n m a, (n ≤ m)%nat → is_uint (Z.of_nat n) a → is_uint (Z.of_nat m) a) as Hmono.
  { intros n m a Hnm. unfold is_uint. pose proof (Z.pow_le_mono_r 2 (Z.of_nat n) (Z.of_nat m) ltac:(lia) ltac:(lia)). lia. }
  induction n as [|n IH]; intros Hn a Ha; [replace a with 0; [done|unfold is_uint in Ha; cbn in Ha; lia]|].
  destruct (Z.lt_ge_cases a (2 ^ Z.of_nat n)) as [Hlt|Hge]; [apply IH; [lia|unfold is_uint in *; lia]|].
  assert (a = Z.lxor (2 ^ Z.of_nat n) (a - 2 ^ Z.of_nat n)) as ->.
  { unfold is_uint in Ha. rewrite Nat2Z.inj_succ, Z.pow_succ_r in Ha by lia.
    rewrite <- Z.add_nocarry_lxor by (apply land_pow2_low; lia). lia. }
  assert (is_uint (Z.of_nat n) (a - 2 ^ Z.of_nat n)) as Hr.
  { unfold is_uint in *. rewrite Nat2Z.inj_succ, Z.pow_succ_r in Ha by lia. lia. }
  apply Hx; [|by apply (Hmono n); [lia|]|apply Hbit; lia|apply IH; [lia|done]].
  apply (Hmono (S n)); [lia|]. unfold is_uint. split; [apply Z.pow_nonneg; lia|apply Z.pow_lt_mono_r; lia].
Qed.

(** Two linear maps that agree on the powers of two are equal. *)
Lemma linear_ext (w : nat) f g :
  linear f → linear g →
  forallb (λ i, f (2 ^ Z.of_nat i) =? g (2 ^ Z.of_nat i)) (seq 0 w) = true →
  ∀ a, is_uint (Z.of_nat w) a → f a = g a.
Proof.
  intros Hf Hg Hall. apply bits_ind.
  - by rewrite (linear_0 f), (linear_0 g).
  - intros i Hi. rewrite forallb_forall in Hall. apply Z.eqb_eq, Hall, in_seq. lia.
  - intros a b _ _ Ea Eb. by rewrite Hf, Hg, Ea, Eb.
Qed.

Lemma bits_ind128 (Q : Z → Prop) :
  Q 0 → (∀ i, (i < 128)%nat → Q (2 ^ Z.of_nat i)) →
  (∀ a b, is_uint 128 a → is_uint 128 b → Q a → Q b → Q (Z.lxor a b)) →
  ∀ a, is_uint 128 a → Q a.
Proof. apply (bits_ind 128). Qed.

Lemma bilinear_ext_w (w : nat) (f g : Z → Z → Z) :
  (∀ b, linear (λ a, f a b)) → (∀ a, linear (f a)) → (∀ b, linear (λ a, g a b)) → (∀ a, linear (g a)) →
  (∀ i j, (i < w)%nat → (j < w)%nat → f (2 ^ Z.of_nat i) (2 ^ Z.of_nat j) = g (2 ^ Z.of_nat i) (2 ^ Z.of_nat j)) →
  ∀ a b, is_uint (Z.of_nat w) a → is_uint (Z.of_nat w) b → f a b = g a b.
Proof.
  intros Fl Fr Gl Gr Hbase a b Ha. revert b. apply (bits_ind w (λ b, f a b = g a b)).
  - by rewrite (linear_0 (f a)), (linear_0 (g a)).
  - intros j Hj. revert a Ha. apply (bits_ind w (λ a, f a _ = g a _)).
    + by rewrite (linear_0 (λ a, f a _)), (linear_0 (λ a, g a _)).
    + intros i Hi. by apply Hbase.
    + intros x y _ _ Ex Ey. by rewrite (Fl _ x y), (Gl _ x y), Ex, Ey.
  - intros x y _ _ Ex Ey. by rewrite (Fr a x y), (Gr a x y), Ex, Ey.
Qed.

Lemma bilinear_ext (f g : Z → Z → Z) :
  (∀ b, linear (λ a, f a b)) → (∀ a, linear (f a)) → (∀ b, linear (λ a, g a b)) → (∀ a, linear (g a)) →
  (∀ i j, (i < 128)%nat → (j < 128)%nat → f (2 ^ Z.of_nat i) (2 ^ Z.of_nat j) = g (2 ^ Z.of_nat i) (2 ^ Z.of_nat j)) →
  ∀ a b, is_uint 128 a → is_uint 128 b → f a b = g a b.
Proof. apply (bilinear_ext_w 128). Qed.

(** ** The carry-less product *)

Lemma pmull_bits_linear_l n b : linear (λ a, pmull_bits n a b).
Proof.
  induction n as [|n IH]; cbn [pmull_bits]; [apply linear_zero|].
  apply linear_lxor; [done|]. destruct (Z.testbit b (Z.of_nat n)); auto with linear.
Qed.

Lemma pmull_bits_linear_r n a : linear (pmull_bits n a).
Proof.
  induction n as [|n IH]; cbn [pmull_bits]; [apply linear_zero|].
  apply (linear_lxor (pmull_bits n a) (λ b, if Z.testbit b (Z.of_nat n) then Z.shiftl a (Z.of_nat n) else 0)); [done|].
  apply (linear_bit (λ b, b)), linear_id.
Qed.

Lemma pmull_bits_low n k a b : is_uint (Z.of_nat k) b → (k ≤ n)%nat → pmull_bits n a b = pmull_bits k a b.
Proof.
  intros Hb. induction 1 as [|n Hn IH]; [done|]. cbn [pmull_bits]. unfold is_uint in Hb.
  rewrite IH, (testbit_uint_high (Z.of_nat k)) by lia. apply Z.lxor_0_r.
Qed.

Lemma pmull_pow2 n a t : (t < n)%nat → pmull_bits n a (2 ^ Z.of_nat t) = Z.shiftl a (Z.of_nat t).
Proof.
  intros Ht. assert (is_uint (Z.of_nat (S t)) (2 ^ Z.of_nat t)) as Hp.
  { unfold is_uint. split; [apply Z.pow_nonneg; lia|apply Z.pow_lt_mono_r; lia]. }
  rewrite (pmull_bits_low n (S t)) by (done || lia). cbn [pmull_bits].
  rewrite Z.pow2_bits_true by lia.
  assert (∀ m, (m ≤ t)%nat → pmull_bits m a (2 ^ Z.of_nat t) = 0) as Hz.
  { induction m as [|m IH]; intros Hm; [done|]. cbn [pmull_bits]. rewrite IH by lia.
    by rewrite Z.pow2_bits_false by lia. }
  by rewrite Hz, Z.lxor_0_l by lia.
Qed.

Lemma pmull_shift_l n a b k : 0 ≤ k → pmull_bits n (Z.shiftl a k) b = Z.shiftl (pmull_bits n a b) k.
Proof.
  intros Hk. induction n as [|n IH]; cbn [pmull_bits]; [by rewrite Z.shiftl_0_l|].
  rewrite Z.shiftl_lxor, IH. f_equal. destruct (Z.testbit b (Z.of_nat n)); [|by rewrite Z.shiftl_0_l].
  by rewrite !Z.shiftl_shiftl, Z.add_comm by lia.
Qed.

Lemma pmull_shift_r n a b k :
  is_uint (Z.of_nat n) b → pmull_bits (n + k) a (Z.shiftl b (Z.of_nat k)) = Z.shiftl (pmull_bits n a b) (Z.of_nat k).
Proof.
  revert b. apply bits_ind.
  - rewrite Z.shiftl_0_l, !(linear_0 (pmull_bits _ a)), Z.shiftl_0_l by apply pmull_bits_linear_r. done.
  - intros i Hi. rewrite Z.shiftl_mul_pow2, <- Z.pow_add_r, <- Nat2Z.inj_add by lia.
    rewrite !pmull_pow2, Z.shiftl_shiftl, Nat2Z.inj_add by lia. done.
  - intros b b' _ _ Hb Hb'. rewrite Z.shiftl_lxor, !(pmull_bits_linear_r _ a), Z.shiftl_lxor, Hb, Hb'. done.
Qed.

Lemma shiftl_range w a n : 0 ≤ w → 0 ≤ n → is_uint w a → is_uint (w + n) (Z.shiftl a n).
Proof.
  unfold is_uint. intros Hw Hn Ha. rewrite Z.shiftl_mul_pow2, Z.pow_add_r by lia.
  pose proof (Z.pow_pos_nonneg 2 n). nia.
Qed.

Lemma is_uint_mono w w' a : is_uint w a → w ≤ w' → is_uint w' a.
Proof.
  unfold is_uint. intros Ha Hw. destruct (Z.le_gt_cases 0 w) as [H|H]; [|rewrite Z.pow_neg_r in Ha by lia; lia].
  pose proof (Z.pow_le_mono_r 2 w w'). lia.
Qed.

Lemma pmull_range n w a b : 0 ≤ w → is_uint w a → is_uint (w + Z.of_nat n) (pmull_bits n a b).
Proof.
  intros Hw Ha. induction n as [|n IH]; cbn [pmull_bits]; [unfold is_uint; pose proof (Z.pow_pos_nonneg 2 (w + 0)); lia|].
  apply lxor_range; [lia|eapply is_uint_mono; [exact IH|lia]|].
  destruct (Z.testbit b (Z.of_nat n)); [|unfold is_uint; pose proof (Z.pow_pos_nonneg 2 (w + Z.of_nat (S n))); lia].
  eapply is_uint_mono; [apply (shiftl_range w); [lia|lia|done]|lia].
Qed.

Lemma lxor_ones w b : 0 ≤ w → 0 ≤ b < 2 ^ w → Z.lxor b (uint_max w) = uint_max w - b.
Proof.
  intros Hw Hb. unfold uint_max. replace (2 ^ w - 1) with (Z.ones w) by (rewrite Z.ones_equiv; lia).
  rewrite Z.sub_nocarry_ldiff.
  - apply Z.bits_inj'. intros n Hn. rewrite Z.lxor_spec, Z.ldiff_spec, Z.testbit_ones_nonneg by lia.
    destruct (Z.ltb_spec n w); [by destruct (Z.testbit b n)|]. by rewrite (testbit_uint_high w b) by lia.
  - apply Z.bits_inj'. intros n Hn. rewrite Z.ldiff_spec, Z.testbit_ones_nonneg, Z.bits_0 by lia.
    destruct (Z.ltb_spec n w); [apply andb_false_r|]. by rewrite (testbit_uint_high w b) by lia.
Qed.

(** The lowest set bit: [b & (!b + 1)]. *)
Lemma lowest_bit b :
  0 < b < 2 ^ 64 →
  ∃ t m, 0 ≤ t < 64 ∧ 0 ≤ m ∧ b = 2 ^ t * (2 * m + 1)
    ∧ Z.land b (wrap 128 (Z.lxor b (uint_max 128) + 1)) = 2 ^ t
    ∧ Z.lxor b (2 ^ t) = 2 ^ (t + 1) * m.
Proof.
  intros Hb.
  assert (∃ t m, 0 ≤ t ∧ 0 ≤ m ∧ b = 2 ^ t * (2 * m + 1)) as (t & m & Ht & Hm & E).
  { destruct b as [|p|p]; try lia. clear Hb. induction p as [p IH|p IH|].
    - exists 0, (Zpos p). lia.
    - destruct IH as (t & m & Ht & Hm & E). exists (t + 1), m. rewrite Z.pow_add_r by lia. lia.
    - exists 0, 0. lia. }
  exists t, m. pose proof (Z.pow_pos_nonneg 2 t ltac:(lia) Ht) as Hp.
  assert (t < 64) as Ht' by (apply (Z.pow_lt_mono_r_iff 2); nia).
  assert (Z.lxor (2 * m + 1) 1 = 2 * m) as Elow by (by destruct m as [|m|m]).
  assert (Z.lxor b (2 ^ t) = 2 ^ (t + 1) * m) as Ex.
  { rewrite E, Z.mul_comm. replace (2 ^ t) with (1 * 2 ^ t) at 2 by lia.
    rewrite <- !Z.shiftl_mul_pow2, <- Z.shiftl_lxor, Elow, Z.shiftl_mul_pow2, Z.pow_add_r by lia. lia. }
  split_and!; [lia..| |done].
  assert (wrap 128 (Z.lxor b (uint_max 128) + 1) = wrap 128 (- b)) as ->.
  { rewrite lxor_ones by lia. unfold uint_max, wrap.
    replace (2 ^ 128 - 1 - b + 1) with (- b + 1 * 2 ^ 128) by lia. by rewrite Z.mod_add by lia. }
  assert (Z.land b (- b) = 2 ^ t) as El.
  { replace (- b) with (Z.shiftl (2 * Z.lnot m + 1) t) by (rewrite Z.shiftl_mul_pow2 by lia; unfold Z.lnot; lia).
    rewrite E at 1. rewrite (Z.mul_comm (2 ^ t)), <- Z.shiftl_mul_pow2, <- Z.shiftl_land by lia.
    assert (Z.land (2 * m + 1) (2 * Z.lnot m + 1) = 1) as ->; [|apply Z.shiftl_1_l].
    apply Z.bits_inj'. intros n Hn. rewrite Z.land_spec. destruct (Z.eq_dec n 0) as [->|Hn0].
    - by rewrite !Z.testbit_odd_0.
    - replace n with (Z.succ (n - 1)) by lia. rewrite !Z.testbit_odd_succ, Z.lnot_spec by lia.
      rewrite (testbit_uint_high 1 1) by lia. apply andb_negb_r. }
  rewrite wrap_land, Z.land_assoc, El, Z.land_ones by lia. apply Z.mod_small. split; [lia|].
  apply Z.pow_lt_mono_r; lia.
Qed.

Lemma clmul_loop_pmull fuel k a b res :
  is_uint 64 a → is_uint 64 b → (k + fuel = 65)%nat → Z.divide (2 ^ Z.of_nat k) b →
  clmul_loop fuel a b res = Z.lxor res (pmull a b).
Proof.
  intros Ha. revert k b res. induction fuel as [|fuel IH]; intros k b res Hb Hk Hdiv.
  { destruct Hdiv as [c Hc]. assert (b = 0) as ->.
    { assert (k = 65%nat) as -> by lia. unfold is_uint in Hb. change (2 ^ Z.of_nat 65) with (2 * 2 ^ 64) in Hc. nia. }
    unfold pmull. rewrite (linear_0 (pmull_bits 64 a)), Z.lxor_0_r by apply pmull_bits_linear_r. done. }
  cbn [clmul_loop]. destruct (Z.eqb_spec b 0) as [->|Hb0].
  { unfold pmull. rewrite (linear_0 (pmull_bits 64 a)), Z.lxor_0_r by apply pmull_bits_linear_r. done. }
  unfold is_uint in Ha, Hb. destruct (lowest_bit b ltac:(lia)) as (t & m & Ht & Hm & E & Hland & Hxor).
  rewrite Hland, Hxor. pose proof (Z.pow_pos_nonneg 2 t ltac:(lia) ltac:(lia)).
  assert (2 ^ (t + 1) = 2 * 2 ^ t) as Et by (rewrite Z.pow_add_r by lia; lia).
  rewrite (IH (S k)); [|unfold is_uint; nia|lia|].
  - rewrite Z.lxor_assoc. f_equal. assert (a * 2 ^ t < 2 ^ 128) as Hlt.
    { assert (2 ^ t ≤ 2 ^ 64) by (apply Z.pow_le_mono_r; lia). nia. }
    rewrite wrap_small by nia. rewrite <- Z.shiftl_mul_pow2 by lia.
    rewrite <- (Z2Nat.id t) at 1 by lia. rewrite <- (pmull_pow2 64 a (Z.to_nat t)) by lia.
    rewrite Z2Nat.id by lia. unfold pmull. rewrite <- pmull_bits_linear_r. f_equal.
    rewrite <- Hxor, (Z.lxor_comm b), <- Z.lxor_assoc, Z.lxor_nilpotent, Z.lxor_0_l. done.
  - assert (Z.of_nat k ≤ t) as Hkt.
    { destruct (Z.le_gt_cases (Z.of_nat k) t) as [|Hgt]; [done|exfalso].
      assert (Z.divide (2 ^ (t + 1)) b) as [c Hc].
      { etrans; [|exact Hdiv]. exists (2 ^ (Z.of_nat k - (t + 1))). rewrite <- Z.pow_add_r by lia. f_equal. lia. }
      assert (2 * m + 1 = 2 * c) by (apply (Z.mul_reg_l _ _ (2 ^ t)); lia). lia. }
    exists (2 ^ (t - Z.of_nat k) * m). replace (t + 1) with (t - Z.of_nat k + Z.of_nat (S k)) by lia.
    rewrite Z.pow_add_r by lia. ring.
Qed.

Lemma clmul_64x64_pmull a b : is_uint 64 a → is_uint 64 b → clmul_64x64 a b = pmull a b.
Proof.
  intros Ha Hb. unfold clmul_64x64. rewrite (clmul_loop_pmull 65 0) by (done || lia || exists b; cbn; lia).
  apply Z.lxor_0_l.
Qed.

(** ** Multiplication modulo the GCM polynomial *)

(** The reference: [x * b], and [a * b] as a sum of multiples of [b] by the
    powers of [x] in [a]. *)
Definition xtime (b : Z) : Z := Z.lxor (wrap 128 (Z.shiftl b 1)) (if Z.testbit b 127 then 0x87 else 0).

Definition xpow (i : nat) (b : Z) : Z := Nat.iter i xtime b.

Fixpoint gmul_bits (n : nat) (a b : Z) : Z :=
  match n with
  | O => 0
  | S n => Z.lxor (gmul_bits n a b) (if Z.testbit a (Z.of_nat n) then xpow n b else 0)
  end.
Definition gmul (a b : Z) : Z := gmul_bits 128 a b.

Lemma xtime_linear : linear xtime.
Proof. unfold xtime. auto 8 with linear. Qed.

Lemma wrap_range w x : 0 ≤ w → is_uint w (wrap w x).
Proof. intros Hw. unfold wrap, is_uint. apply Z.mod_pos_bound, Z.pow_pos_nonneg; lia. Qed.

Lemma xtime_range b : is_uint 128 (xtime b).
Proof.
  apply lxor_range; [lia|apply wrap_range; lia|]. by destruct (Z.testbit b 127).
Qed.

Lemma xpow_linear i : linear (xpow i).
Proof. induction i as [|i IH]; [apply linear_id|]. apply (linear_comp xtime (xpow i)); [apply xtime_linear|done]. Qed.

Lemma xpow_range i b : is_uint 128 b → is_uint 128 (xpow i b).
Proof. destruct i; [done|intros _; apply xtime_range]. Qed.

Lemma xpow_add i j b : xpow (i + j) b = xpow i (xpow j b).
Proof. apply Nat.iter_add. Qed.

Lemma gmul_bits_linear_l n b : linear (λ a, gmul_bits n a b).
Proof.
  induction n as [|n IH]; cbn [gmul_bits]; [apply linear_zero|].
  apply linear_lxor; [done|]. apply (linear_bit (λ a, a)), linear_id.
Qed.

Lemma gmul_bits_linear_r n a : linear (gmul_bits n a).
Proof.
  induction n as [|n IH]; cbn [gmul_bits]; [apply linear_zero|].
  apply linear_lxor; [done|]. destruct (Z.testbit a (Z.of_nat n)); [apply xpow_linear|apply linear_zero].
Qed.

Lemma gmul_pow2 i b : (i < 128)%nat → gmul (2 ^ Z.of_nat i) b = xpow i b.
Proof.
  intros Hi. unfold gmul.
  assert (∀ n, gmul_bits n (2 ^ Z.of_nat i) b = if (i <? n)%nat then xpow i b else 0) as ->.
  { induction n as [|n IH]; [done|]. cbn [gmul_bits]. rewrite IH, Z.pow2_bits_eqb by lia.
    destruct (Z.eqb_spec (Z.of_nat i) (Z.of_nat n)), (Nat.ltb_spec i n), (Nat.ltb_spec i (S n)); try lia.
    - replace n with i by lia. apply Z.lxor_0_l.
    - apply Z.lxor_0_r.
    - done. }
  by destruct (Nat.ltb_spec i 128); [|lia].
Qed.

Lemma gmul_range a b : is_uint 128 b → is_uint 128 (gmul a b).
Proof.
  intros Hb. unfold gmul. generalize 128%nat. induction n as [|n IH]; cbn [gmul_bits]; [done|].
  apply lxor_range; [lia|done|]. destruct (Z.testbit a (Z.of_nat n)); [by apply xpow_range|done].
Qed.

(** The reduction of a 255-bit product. *)
Definition gcm_reduce (p : Z) : Z := reduce_gcm_256 (Z.shiftr p 128) (wrap 128 p).

Lemma by_87_linear f : linear f → linear (λ x, clmul_u128_by_87 (f x)).
Proof. intros Hf. unfold clmul_u128_by_87. auto 10 with linear. Qed.

#[export] Hint Resolve by_87_linear : linear.

Lemma reduce_linear f g : linear f → linear g → linear (λ x, reduce_gcm_256 (f x) (g x)).
Proof.
  intros Hf Hg. unfold reduce_gcm_256, lo64, hi64. cbv zeta.
  auto 20 with linear.
Qed.

Lemma gcm_reduce_linear : linear gcm_reduce.
Proof. apply (reduce_linear (λ p, Z.shiftr p 128) (wrap 128)); [auto with linear|]. by apply (linear_wrap (λ p, p)). Qed.

Lemma gcm_reduce_pow2 n : (n < 255)%nat → gcm_reduce (2 ^ Z.of_nat n) = xpow n 1.
Proof.
  assert (forallb (λ n, gcm_reduce (2 ^ Z.of_nat (S n)) =? xtime (gcm_reduce (2 ^ Z.of_nat n))) (seq 0 254) = true)
    as Hall by (by vm_compute).
  rewrite forallb_forall in Hall. induction n as [|n IH]; intros Hn; [by vm_compute|].
  change (xpow (S n) 1) with (xtime (xpow n 1)). rewrite <- IH by lia.
  apply Z.eqb_eq, Hall, in_seq. lia.
Qed.

Lemma gcm_reduce_low p : is_uint 128 p → gcm_reduce p = p.
Proof.
  intros Hp. unfold is_uint in Hp. unfold gcm_reduce. rewrite wrap_small by done.
  rewrite Z.shiftr_div_pow2, Z.div_small by lia. unfold reduce_gcm_256.
  change (clmul_u128_by_87 (lo64 0)) with 0. change (clmul_u128_by_87 (hi64 0)) with 0.
  by rewrite !Z.lxor_0_r.
Qed.

Lemma xpow_one n : (n < 128)%nat → xpow n 1 = 2 ^ Z.of_nat n.
Proof.
  intros Hn. rewrite <- gcm_reduce_pow2 by lia. apply gcm_reduce_low. unfold is_uint.
  split; [apply Z.pow_nonneg; lia|apply Z.pow_lt_mono_r; lia].
Qed.

Lemma gmul_linear_l b : linear (λ a, gmul a b).
Proof. apply gmul_bits_linear_l. Qed.
Lemma gmul_linear_r a : linear (gmul a).
Proof. apply gmul_bits_linear_r. Qed.

#[global] Opaque gmul.

Lemma gmul_reduce a b :
  is_uint 128 a → is_uint 128 b → gmul a b = gcm_reduce (pmull_bits 128 a b).
Proof.
  revert a b. apply (bilinear_ext gmul (λ a b, gcm_reduce (pmull_bits 128 a b))).
  - apply gmul_linear_l.
  - apply gmul_linear_r.
  - intros b. apply (linear_comp gcm_reduce (λ a, pmull_bits 128 a b)); [apply gcm_reduce_linear|apply pmull_bits_linear_l].
  - intros a. apply (linear_comp gcm_reduce (pmull_bits 128 a)); [apply gcm_reduce_linear|apply pmull_bits_linear_r].
  - intros i j Hi Hj. rewrite gmul_pow2, pmull_pow2, Z.shiftl_mul_pow2, <- Z.pow_add_r, <- Nat2Z.inj_add by lia.
    rewrite gcm_reduce_pow2, xpow_add, (xpow_one j) by lia. done.
Qed.

Lemma lo_hi a : is_uint 128 a →
  a = Z.lxor (lo64 a) (Z.shiftl (hi64 a) 64) ∧ is_uint 64 (lo64 a) ∧ is_uint 64 (hi64 a).
Proof.
  unfold is_uint, lo64, hi64. intros Ha.
  pose proof (Z.mod_pos_bound a (2 ^ 64) ltac:(lia)). split_and!.
  - rewrite Z.lxor_comm. rewrite <- Z.add_nocarry_lxor.
    + unfold wrap. rewrite Z.shiftl_mul_pow2, Z.shiftr_div_pow2 by lia. pose proof (Z.div_mod a (2 ^ 64)). lia.
    + apply Z.bits_inj'. intros n Hn. rewrite Z.land_spec, Z.bits_0. destruct (Z.lt_ge_cases n 64).
      * by rewrite Z.shiftl_spec_low.
      * rewrite (testbit_uint_high 64 (wrap 64 a)); [apply andb_false_r|unfold wrap; lia..].
  - unfold wrap. lia.
  - unfold wrap. lia.
  - rewrite Z.shiftr_div_pow2 by lia. apply Z.div_pos; lia.
  - rewrite Z.shiftr_div_pow2 by lia. apply Z.div_lt_upper_bound; lia.
Qed.

(** The three partial products of the two halves. *)
Lemma clprod_halves a b :
  is_uint 128 a → is_uint 128 b →
  let v0 := pmull (lo64 a) (lo64 b) in let v1 := pmull (hi64 a) (hi64 b) in
  let mid := Z.lxor (pmull (lo64 a) (hi64 b)) (pmull (hi64 a) (lo64 b)) in
  pmull_bits 128 a b = Z.lxor (Z.lxor v0 (Z.shiftl mid 64)) (Z.shiftl v1 128)
  ∧ Z.lxor (Z.lxor (pmull (Z.lxor (lo64 a) (hi64 a)) (Z.lxor (lo64 b) (hi64 b))) v0) v1 = mid.
Proof.
  intros Ha Hb v0 v1 mid. destruct (lo_hi a Ha) as (Ea & Hla & Hha), (lo_hi b Hb) as (Eb & Hlb & Hhb).
  unfold v0, v1, mid, pmull. set (al := lo64 a) in *. set (ah := hi64 a) in *. set (bl := lo64 b) in *. set (bh := hi64 b) in *.
  split.
  - rewrite Ea, Eb at 1.
    rewrite (pmull_bits_linear_l 128 _ al), !(pmull_bits_linear_r 128 _ bl), !pmull_shift_l by lia.
    rewrite !(pmull_bits_low 128 64 _ bl) by (done || lia).
    change 64 with (Z.of_nat 64) at 2 4. change 128%nat with (64 + 64)%nat. rewrite !pmull_shift_r by done.
    change (Z.of_nat 64) with 64. rewrite !Z.shiftl_lxor, Z.shiftl_shiftl by lia. change (64 + 64) with 128.
    lxor_solve.
  - rewrite (pmull_bits_linear_l 64 _ al), !(pmull_bits_linear_r 64 _ bl). lxor_solve.
Qed.

Lemma pmull_127 a b : is_uint 64 a → is_uint 128 (pmull a b).
Proof. intros Ha. by apply (pmull_range 64 64). Qed.

Lemma wrap_high w x n : 0 ≤ w ≤ n → wrap w (Z.shiftl x n) = 0.
Proof.
  intros Hw. unfold wrap. rewrite Z.shiftl_mul_pow2 by lia. replace n with (n - w + w) by lia.
  rewrite Z.pow_add_r, Z.mul_assoc by lia. apply Z.mod_mul, Z.pow_nonzero; lia.
Qed.

(** The product split at bit 128. *)
Lemma split_product v0 v1 mid :
  is_uint 128 v0 →
  let p := Z.lxor (Z.lxor v0 (Z.shiftl mid 64)) (Z.shiftl v1 128) in
  wrap 128 p = Z.lxor v0 (wrap 128 (Z.shiftl mid 64)) ∧ Z.shiftr p 128 = Z.lxor v1 (Z.shiftr mid 64).
Proof.
  intros H0 p. unfold p. unfold is_uint in H0. split.
  - pose proof (linear_wrap (λ x, x) 128 ltac:(lia) linear_id) as HL. cbv beta in HL.
    rewrite !HL, (wrap_high 128 v1 128), Z.lxor_0_r, (wrap_small 128 v0) by lia. done.
  - rewrite !Z.shiftr_lxor, (Z.shiftr_div_pow2 v0), Z.div_small, Z.lxor_0_l by lia.
    rewrite (Z.shiftr_shiftl_l v1), (Z.shiftr_shiftl_r mid) by lia. apply Z.lxor_comm.
Qed.

Lemma soft_clmul_gmul a b : is_uint 128 a → is_uint 128 b → soft_clmul_block128 a b = gmul a b.
Proof.
  intros Ha Hb. rewrite gmul_reduce by done. destruct (clprod_halves a b Ha Hb) as [Hp Hmid].
  destruct (lo_hi a Ha) as (_ & Hla & Hha), (lo_hi b Hb) as (_ & Hlb & Hhb).
  unfold soft_clmul_block128. cbv zeta. rewrite !clmul_64x64_pmull by (try apply lxor_range; done || lia).
  rewrite Hmid. unfold gcm_reduce. rewrite Hp.
  destruct (split_product (pmull (lo64 a) (lo64 b)) (pmull (hi64 a) (hi64 b))
              (Z.lxor (pmull (lo64 a) (hi64 b)) (pmull (hi64 a) (lo64 b)))) as [-> ->]; [by apply pmull_127|]. done.
Qed.

Lemma x86_64_clmul_gmul a b : is_uint 128 a → is_uint 128 b → x86_64_clmul_block128 a b = gmul a b.
Proof.
  intros Ha Hb. rewrite gmul_reduce by done. destruct (clprod_halves a b Ha Hb) as [Hp Hmid].
  destruct (lo_hi a Ha) as (_ & Hla & Hha).
  unfold x86_64_clmul_block128, clmulepi64, set_epi64x, xor_si128, unpacklo_epi64, unpackhi_epi64. cbv zeta.
  cbn [fst snd]. change (Z.testbit 0 0) with false. change (Z.testbit 0 4) with false.
  change (Z.testbit 0x11 0) with true. change (Z.testbit 0x11 4) with true. cbv iota.
  rewrite Hmid. unfold gcm_reduce. rewrite Hp.
  destruct (split_product (pmull (lo64 a) (lo64 b)) (pmull (hi64 a) (hi64 b))
              (Z.lxor (pmull (lo64 a) (hi64 b)) (pmull (hi64 a) (lo64 b)))) as [-> ->]; [by apply pmull_127|]. done.
Qed.

(** The Horner fold of the PMULL back end on its three partial products:
    each stage multiplies by [x^64] and reduces. *)
Definition aarch64_stage (t : Z) : Z := Z.lxor (vext1_zero t) (pmull (hi64 t) 0x87).
Definition aarch64_fold (t0 mid t2 : Z) : Z := Z.lxor t0 (aarch64_stage (Z.lxor mid (aarch64_stage t2))).

Lemma pmull_linear_l f b : linear f → linear (λ x, pmull (f x) b).
Proof. intros Hf. apply (linear_comp (λ a, pmull a b) f); [apply pmull_bits_linear_l|done]. Qed.
#[export] Hint Resolve pmull_linear_l : linear.

Lemma aarch64_stage_linear : linear aarch64_stage.
Proof.
  unfold aarch64_stage, vext1_zero, lo64, hi64.
  apply linear_lxor; [apply linear_shiftl|apply pmull_linear_l, linear_shiftr, linear_id].
  apply (linear_wrap (λ t, t)); [lia|apply linear_id].
Qed.

Lemma aarch64_fold_linear f g h :
  linear f → linear g → linear h → linear (λ x, aarch64_fold (f x) (g x) (h x)).
Proof.
  intros Hf Hg Hh. apply linear_lxor; [done|]. apply (linear_comp aarch64_stage); [apply aarch64_stage_linear|].
  apply linear_lxor; [done|]. by apply (linear_comp aarch64_stage); [apply aarch64_stage_linear|].
Qed.

Lemma aarch64_fold_add a b c a' b' c' :
  aarch64_fold (Z.lxor a a') (Z.lxor b b') (Z.lxor c c') = Z.lxor (aarch64_fold a b c) (aarch64_fold a' b' c').
Proof. unfold aarch64_fold. rewrite !aarch64_stage_linear. lxor_solve. Qed.

Lemma aarch64_fold_reduce t0 mid t2 :
  is_uint 128 t0 → is_uint 128 mid → is_uint 128 t2 →
  aarch64_fold t0 mid t2 = gcm_reduce (Z.lxor (Z.lxor t0 (Z.shiftl mid 64)) (Z.shiftl t2 128)).
Proof.
  intros H0 Hm H2. rewrite !gcm_reduce_linear.
  replace (aarch64_fold t0 mid t2)
    with (Z.lxor (Z.lxor (aarch64_fold t0 0 0) (aarch64_fold 0 mid 0)) (aarch64_fold 0 0 t2)).
  2: { rewrite <- !aarch64_fold_add, ?Z.lxor_0_l, ?Z.lxor_0_r. done. }
  f_equal; [f_equal|].
  - revert t0 H0. apply (linear_ext 128 (λ t, aarch64_fold t 0 0) gcm_reduce);
      [apply aarch64_fold_linear; auto with linear|apply gcm_reduce_linear|by vm_compute].
  - revert mid Hm. apply (linear_ext 128 (λ t, aarch64_fold 0 t 0) (λ t, gcm_reduce (Z.shiftl t 64)));
      [apply aarch64_fold_linear; auto with linear|apply linear_comp; [apply gcm_reduce_linear|auto with linear]|by vm_compute].
  - revert t2 H2. apply (linear_ext 128 (λ t, aarch64_fold 0 0 t) (λ t, gcm_reduce (Z.shiftl t 128)));
      [apply aarch64_fold_linear; auto with linear|apply linear_comp; [apply gcm_reduce_linear|auto with linear]|by vm_compute].
Qed.

Lemma lor_lo_hi a : is_uint 128 a → Z.lor (lo64 a) (Z.shiftl (hi64 a) 64) = a.
Proof.
  intros Ha. destruct (lo_hi a Ha) as (_ & Hl & _). unfold is_uint in Hl.
  rewrite Z.lor_comm, lor_shiftl_add by lia. unfold lo64, hi64, wrap. rewrite Z.shiftr_div_pow2 by lia.
  pose proof (Z.div_mod a (2 ^ 64)). lia.
Qed.

Lemma aarch64_clmul_fold a b :
  aarch64_clmul_block128 a b =
    let t := aarch64_fold (pmull (lo64 a) (lo64 b)) (Z.lxor (pmull (lo64 a) (hi64 b)) (pmull (hi64 a) (lo64 b)))
               (pmull (hi64 a) (hi64 b)) in
    Z.lor (lo64 t) (Z.shiftl (hi64 t) 64).
Proof. unfold aarch64_clmul_block128, aarch64_fold, aarch64_stage. cbv zeta. by rewrite <- !Z.lxor_assoc. Qed.

Lemma aarch64_clmul_gmul a b : is_uint 128 a → is_uint 128 b → aarch64_clmul_block128 a b = gmul a b.
Proof.
  intros Ha Hb. destruct (lo_hi a Ha) as (_ & Hla & Hha). rewrite aarch64_clmul_fold. cbv zeta.
  pose proof (pmull_127 (lo64 a) (lo64 b) Hla) as H0. pose proof (pmull_127 (hi64 a) (hi64 b) Hha) as H2.
  pose proof (lxor_range 128 _ _ ltac:(lia) (pmull_127 (lo64 a) (hi64 b) Hla) (pmull_127 (hi64 a) (lo64 b) Hha)) as Hm.
  rewrite (aarch64_fold_reduce _ _ _ H0 Hm H2), <- (proj1 (clprod_halves a b Ha Hb)), <- (gmul_reduce a b Ha Hb).
  by apply lor_lo_hi, gmul_range.
Qed.

(** ** Ring laws *)

Lemma gmul_comm a b : is_uint 128 a → is_uint 128 b → gmul a b = gmul b a.
Proof.
  revert a b. apply (bilinear_ext gmul (λ a b, gmul b a));
    [apply gmul_linear_l|apply gmul_linear_r|apply gmul_linear_r|apply gmul_linear_l|].
  intros i j Hi Hj. rewrite !gmul_pow2 by done. rewrite <- (xpow_one i), <- (xpow_one j), <- !xpow_add by done.
  by rewrite Nat.add_comm.
Qed.

Lemma pow2_uint i : (i < 128)%nat → is_uint 128 (2 ^ Z.of_nat i).
Proof. intros Hi. unfold is_uint. split; [apply Z.pow_nonneg; lia|apply Z.pow_lt_mono_r; lia]. Qed.

Lemma gmul_xtime a b : is_uint 128 a → gmul a (xtime b) = xtime (gmul a b).
Proof.
  revert a. apply (bits_ind128 (λ a, gmul a (xtime b) = xtime (gmul a b))).
  - rewrite !(linear_0 (λ a, gmul a _)) by apply gmul_linear_l. done.
  - intros i Hi. rewrite !gmul_pow2 by done. unfold xpow. by rewrite <- Nat.iter_succ_r, Nat.iter_succ.
  - intros x y _ _ Ex Ey. by rewrite !(gmul_linear_l _ x y), xtime_linear, Ex, Ey.
Qed.

Lemma gmul_xpow a i b : is_uint 128 a → gmul a (xpow i b) = xpow i (gmul a b).
Proof.
  intros Ha. induction i as [|i IH]; [done|]. change (xpow (S i) b) with (xtime (xpow i b)).
  rewrite gmul_xtime by done. by rewrite IH.
Qed.

Lemma gmul_assoc a b c :
  is_uint 128 a → is_uint 128 b → is_uint 128 c → gmul a (gmul b c) = gmul (gmul a b) c.
Proof.
  intros Ha Hb Hc. revert a b Ha Hb.
  apply (bilinear_ext (λ a b, gmul a (gmul b c)) (λ a b, gmul (gmul a b) c)).
  - intros b. apply gmul_linear_l.
  - intros a. apply (linear_comp (gmul a) (λ b, gmul b c)); [apply gmul_linear_r|apply gmul_linear_l].
  - intros b. apply (linear_comp (λ x, gmul x c) (λ a, gmul a b)); apply gmul_linear_l.
  - intros a. apply (linear_comp (λ x, gmul x c) (gmul a)); [apply gmul_linear_l|apply gmul_linear_r].
  - intros i j Hi Hj. rewrite !gmul_pow2 by done.
    assert (is_uint 128 (xpow i (2 ^ Z.of_nat j))) as Hx by (apply xpow_range, pow2_uint; done).
    rewrite (gmul_comm (xpow i _) c Hx Hc), (gmul_xpow c i _ Hc), (gmul_comm c) by (done || by apply pow2_uint).
    by rewrite gmul_pow2.
Qed.

Lemma gmul_1_l a : gmul 1 a = a.
Proof. change 1 with (2 ^ Z.of_nat 0). by rewrite gmul_pow2 by lia. Qed.

(** ** Squaring *)

Definition spread_step (s mask x : Z) : Z := Z.lxor (Z.land x mask) (Z.land (wrap 128 (Z.shiftl x s)) mask).

Lemma expand_step_spread S s mask x :
  0 ≤ s → Z.land x S = x → Z.land (Z.land S mask) (Z.land (wrap 128 (Z.shiftl S s)) mask) = 0 →
  expand_step s mask x = spread_step s mask x ∧ Z.land (expand_step s mask x) mask = expand_step s mask x.
Proof.
  intros Hs Hx HS. unfold expand_step, spread_step. split.
  - rewrite Z.land_lor_distr_l, Z.lxor_lor; [done|].
    apply Z.bits_inj'. intros n Hn. apply (f_equal (λ z, Z.testbit z n)) in HS.
    rewrite Z.bits_0 in *. rewrite !wrap_land, !Z.land_spec, !Z.shiftl_spec in * by lia.
    assert (∀ k, Z.testbit x k = true → Z.testbit S k = true) as Hsup.
    { intros k Hk. pose proof (f_equal (λ z, Z.testbit z k) Hx) as E. cbv beta in E. by rewrite Z.land_spec, Hk in E. }
    destruct (Z.testbit x n) eqn:E1; [rewrite (Hsup _ E1) in HS|done].
    destruct (Z.testbit x (n - s)) eqn:E2; [rewrite (Hsup _ E2) in HS; done|].
    cbn [andb]. by rewrite !andb_false_r.
  - by rewrite <- Z.land_assoc, Z.land_diag.
Qed.

Lemma spread_step_linear s mask f : linear f → linear (λ x, spread_step s mask (f x)).
Proof. intros Hf. unfold spread_step. auto 10 with linear. Qed.
#[export] Hint Resolve spread_step_linear : linear.

Definition spread_bits (v : Z) : Z :=
  spread_step 1 0x55555555555555555555555555555555 (spread_step 2 0x33333333333333333333333333333333
    (spread_step 4 0x0F0F0F0F0F0F0F0F0F0F0F0F0F0F0F0F (spread_step 8 0x00FF00FF00FF00FF00FF00FF00FF00FF
      (spread_step 16 0x0000FFFF0000FFFF0000FFFF0000FFFF (spread_step 32 0x00000000FFFFFFFF00000000FFFFFFFF v))))).

Lemma expand_bits_spread v : is_uint 64 v → expand_bits_u64_to_u128 v = spread_bits v.
Proof.
  intros Hv. unfold expand_bits_u64_to_u128, spread_bits. cbv zeta.
  assert (Z.land v (Z.ones 64) = v) as H0 by (rewrite Z.land_ones by lia; apply Z.mod_small, Hv).
  destruct (expand_step_spread (Z.ones 64) 32 0x00000000FFFFFFFF00000000FFFFFFFF v) as [E1 H1]; [lia|done|by vm_compute|].
  rewrite E1 in *.
  destruct (expand_step_spread _ 16 0x0000FFFF0000FFFF0000FFFF0000FFFF _ ltac:(lia) H1) as [E2 H2]; [by vm_compute|].
  rewrite E2 in *.
  destruct (expand_step_spread _ 8 0x00FF00FF00FF00FF00FF00FF00FF00FF _ ltac:(lia) H2) as [E3 H3]; [by vm_compute|].
  rewrite E3 in *.
  destruct (expand_step_spread _ 4 0x0F0F0F0F0F0F0F0F0F0F0F0F0F0F0F0F _ ltac:(lia) H3) as [E4 H4]; [by vm_compute|].
  rewrite E4 in *.
  destruct (expand_step_spread _ 2 0x33333333333333333333333333333333 _ ltac:(lia) H4) as [E5 H5]; [by vm_compute|].
  rewrite E5 in *.
  by destruct (expand_step_spread _ 1 0x55555555555555555555555555555555 _ ltac:(lia) H5) as [E6 _]; [by vm_compute|].
Qed.

Definition spread_square (a : Z) : Z := reduce_gcm_256 (spread_bits (hi64 a)) (spread_bits (lo64 a)).

Lemma spread_square_linear : linear spread_square.
Proof.
  apply reduce_linear; unfold spread_bits, hi64, lo64; repeat apply spread_step_linear;
    [apply linear_shiftr, linear_id|apply (linear_wrap (λ t, t)); [lia|apply linear_id]].
Qed.

Lemma square_spread a : is_uint 128 a → square_flat_u128 a = spread_square a.
Proof.
  intros Ha. destruct (lo_hi a Ha) as (_ & Hl & Hh). unfold square_flat_u128, spread_square. cbv zeta.
  by rewrite (expand_bits_spread _ Hl), (expand_bits_spread _ Hh).
Qed.

Lemma square_gmul a : is_uint 128 a → square_flat_u128 a = gmul a a.
Proof.
  intros Ha. rewrite square_spread by done. revert a Ha.
  apply (bits_ind128 (λ a, spread_square a = gmul a a)).
  - by vm_compute.
  - intros i Hi.
    assert (forallb (λ i, spread_square (2 ^ Z.of_nat i) =? gcm_reduce (2 ^ Z.of_nat (i + i))) (seq 0 128) = true)
      as Hall by (by vm_compute).
    rewrite forallb_forall in Hall. rewrite (proj1 (Z.eqb_eq _ _) (Hall i ltac:(apply in_seq; lia))).
    rewrite gcm_reduce_pow2, gmul_pow2, xpow_add, xpow_one by lia. done.
  - intros x y Hx Hy Ex Ey. rewrite spread_square_linear, gmul_linear_l, !gmul_linear_r, Ex, Ey.
    rewrite (gmul_comm y x) by done. lxor_solve.
Qed.

(** ** Matrices *)

Lemma nibble_entry_linear r0 r1 r2 r3 : linear (nibble_entry r0 r1 r2 r3).
Proof.
  assert (∀ nib, nibble_entry r0 r1 r2 r3 nib =
            Z.lxor (Z.lxor (Z.lxor (if Z.testbit nib 0 then r0 else 0) (if Z.testbit nib 1 then r1 else 0))
                      (if Z.testbit nib 2 then r2 else 0)) (if Z.testbit nib 3 then r3 else 0)) as E.
  { intros nib. unfold nibble_entry. cbv zeta. rewrite Z.lxor_0_l.
    destruct (Z.testbit nib 0), (Z.testbit nib 1), (Z.testbit nib 2), (Z.testbit nib 3);
      rewrite ?Z.lxor_0_l, ?Z.lxor_0_r; done. }
  intros a b. rewrite !E, !Z.lxor_spec.
  destruct (Z.testbit a 0), (Z.testbit b 0), (Z.testbit a 1), (Z.testbit b 1),
    (Z.testbit a 2), (Z.testbit b 2), (Z.testbit a 3), (Z.testbit b 3);
    cbn [xorb]; rewrite ?Z.lxor_0_l, ?Z.lxor_0_r, ?Z.lxor_nilpotent; try done; lxor_solve.
Qed.

Lemma apply_matrix_linear m : linear (apply_matrix m).
Proof.
  assert (∀ l r v r' v', fst (foldl (matrix_step m) (Z.lxor r r', Z.lxor v v') l) =
            Z.lxor (fst (foldl (matrix_step m) (r, v) l)) (fst (foldl (matrix_step m) (r', v') l))) as H.
  { induction l as [|c l IH]; intros r v r' v'; [done|]. rewrite !foldl_cons_eq. unfold matrix_step at 2 4 6.
    cbv zeta. rewrite <- IH. f_equal. f_equal. f_equal; [|by rewrite Z.shiftr_lxor].
    pose proof (linear_land (λ x, x) 0xF linear_id) as HL. cbv beta in HL.
    unfold build_nibble_table. rewrite HL, nibble_entry_linear. lxor_solve. }
  intros a b. unfold apply_matrix. rewrite <- H. by rewrite Z.lxor_0_l.
Qed.

Lemma tower_to_flat_linear : linear tower_to_flat_u128.
Proof. apply apply_matrix_linear. Qed.
Lemma flat_to_tower_linear : linear flat_to_tower_u128.
Proof. apply apply_matrix_linear. Qed.
#[global] Opaque tower_to_flat_u128 flat_to_tower_u128.

(** ** Fast evaluation

    The same product by recursion on the binary representation, for use in
    computations. *)

Fixpoint clprod_pos (a : Z) (b : positive) : Z :=
  match b with
  | xH => a
  | xO b => Z.double (clprod_pos a b)
  | xI b => Z.lxor a (Z.double (clprod_pos a b))
  end.
Definition clprod (a b : Z) : Z := match b with Zpos p => clprod_pos a p | _ => 0 end.

Definition MASK128 : Z := Eval vm_compute in 2 ^ 128 - 1.
Definition times_87 (x : Z) : Z :=
  let x2 := Z.double x in let x4 := Z.double x2 in Z.lxor (Z.lxor x x2) (Z.lxor x4 (Z.shiftl x4 5)).
Definition fast_reduce (p : Z) : Z :=
  let t := times_87 (Z.shiftr p 128) in
  Z.lxor (Z.lxor (Z.land p MASK128) (Z.land t MASK128)) (times_87 (Z.shiftr t 128)).
Definition fmul (a b : Z) : Z := fast_reduce (clprod a b).

Lemma linear_double f : linear f → linear (λ x, Z.double (f x)).
Proof. intros Hf a b. rewrite !Z.double_spec, Hf, !(Z.mul_comm 2), <- !(Z.shiftl_mul_pow2 _ 1) by lia. apply Z.shiftl_lxor. Qed.
#[export] Hint Resolve linear_double : linear.

Lemma times_87_linear f : linear f → linear (λ x, times_87 (f x)).
Proof. intros Hf. unfold times_87. cbv zeta. auto 10 with linear. Qed.
#[export] Hint Resolve times_87_linear : linear.

Lemma fast_reduce_gcm p : is_uint 256 p → fast_reduce p = gcm_reduce p.
Proof.
  revert p. apply (linear_ext 256 fast_reduce gcm_reduce); [|apply gcm_reduce_linear|by vm_compute].
  unfold fast_reduce. cbv zeta. auto 20 with linear.
Qed.

Lemma clprod_pos_pmull a p n : is_uint (Z.of_nat n) (Zpos p) → clprod_pos a p = pmull_bits n a (Zpos p).
Proof.
  revert n. induction p as [p IH|p IH|]; intros [|n] Hn; try (unfold is_uint in Hn; cbn in Hn; lia); cbn [clprod_pos].
  - assert (is_uint (Z.of_nat n) (Zpos p)) as Hp.
    { unfold is_uint in *. rewrite Nat2Z.inj_succ, Z.pow_succ_r in Hn by lia. lia. }
    assert (Zpos p~1 = Z.lxor (2 ^ Z.of_nat 0) (Z.shiftl (Zpos p) (Z.of_nat 1))) as -> by done.
    rewrite pmull_bits_linear_r, pmull_pow2, Z.shiftl_0_r by lia. f_equal.
    rewrite <- Nat.add_1_r, pmull_shift_r, <- IH by done. rewrite Z.double_spec, Z.shiftl_mul_pow2 by lia. lia.
  - assert (is_uint (Z.of_nat n) (Zpos p)) as Hp.
    { unfold is_uint in *. rewrite Nat2Z.inj_succ, Z.pow_succ_r in Hn by lia. lia. }
    assert (Zpos p~0 = Z.shiftl (Zpos p) (Z.of_nat 1)) as -> by done.
    rewrite <- Nat.add_1_r, pmull_shift_r, <- IH by done. rewrite Z.double_spec, Z.shiftl_mul_pow2 by lia. lia.
  - change 1 with (2 ^ Z.of_nat 0). rewrite pmull_pow2, Z.shiftl_0_r by lia. done.
Qed.

Lemma gmul_fmul a b : is_uint 128 a → is_uint 128 b → gmul a b = fmul a b.
Proof.
  intros Ha Hb. rewrite gmul_reduce by done. unfold fmul, clprod.
  assert (∀ n, pmull_bits n a 0 = 0) as H0 by (intros n; apply linear_0, pmull_bits_linear_r).
  destruct b as [|p|p]; [by rewrite H0| |by destruct Hb]. rewrite (clprod_pos_pmull a p 128) by done.
  symmetry. apply fast_reduce_gcm. by apply (pmull_range 128 128).
Qed.

(** ** The back ends *)

(** C35: the three implementations of the GCM-field product (the portable
    loop, the PCLMULQDQ sequence and the PMULL sequence) compute the same
    word on every pair of 128-bit inputs, namely the product modulo
    [x^128 + x^7 + x^2 + x + 1] by repeated multiplication by [x], and the
    table-free squaring computes that product of a word with itself. *)
Theorem clmul_backends_agree a b :
  is_uint 128 a → is_uint 128 b →
  soft_clmul_block128 a b = gmul a b
  ∧ x86_64_clmul_block128 a b = gmul a b
  ∧ aarch64_clmul_block128 a b = gmul a b
  ∧ square_flat_u128 a = gmul a a
  ∧ is_uint 128 (gmul a b).
Proof.
  intros Ha Hb. split_and!; [by apply soft_clmul_gmul|by apply x86_64_clmul_gmul|
    by apply aarch64_clmul_gmul|by apply square_gmul|by apply gmul_range].
Qed.

Lemma clmul_backends_agree_witness :
  soft_clmul_block128 (2 ^ 127) 2 = 0x87
  ∧ x86_64_clmul_block128 (2 ^ 127) 2 = aarch64_clmul_block128 (2 ^ 127) 2.
Proof.
  assert (is_uint 128 (2 ^ 127) ∧ is_uint 128 2) as [Ha Hb] by (split_and!; unfold is_uint; lia).
  destruct (clmul_backends_agree (2 ^ 127) 2 Ha Hb) as (Es & Ex & Ea & _).
  split; [rewrite Es; vm_compute; reflexivity|by rewrite Ex, Ea].
Defined.
