(* ===== verification/FieldRing.v ===== *)
(** * GF(2^128) as a ring

    The 128-bit words with exclusive or and [gmul] as a commutative ring of
    characteristic 2, on which [ring] decides identities; the Frobenius map,
    the injectivity of the seventh power, and the absence of zero divisors. *)

From Stdlib Require Import Ring Eqdep_dec.
From S2P Require Import Prelude Machine FlatField GF128.

Definition in_range (z : Z) : bool := (0 <=? z) && (z <? 2 ^ 128).

Record gf := mkgf { gv : Z; gok : in_range gv = true }.

Lemma in_range_uint z : in_range z = true ↔ is_uint 128 z.
Proof. unfold in_range, is_uint. rewrite andb_true_iff, Z.leb_le, Z.ltb_lt. done. Qed.

Lemma gv_uint (a : gf) : is_uint 128 (gv a).
Proof. apply in_range_uint, gok. Qed.
#[export] Hint Resolve gv_uint : core.

Lemma gf_eq (a b : gf) : gv a = gv b → a = b.
Proof.
  destruct a as [a Ha], b as [b Hb]; cbn. intros <-. f_equal. apply UIP_dec, Bool.bool_dec.
Qed.

Definition of_uint (z : Z) (H : is_uint 128 z) : gf := mkgf z (proj2 (in_range_uint z) H).

Definition gzero : gf := mkgf 0 eq_refl.
Definition gone : gf := mkgf 1 eq_refl.
Definition gadd (a b : gf) : gf :=
  of_uint (Z.lxor (gv a) (gv b)) (lxor_range 128 _ _ ltac:(lia) (gv_uint a) (gv_uint b)).
Definition gtimes (a b : gf) : gf := of_uint (gmul (gv a) (gv b)) (gmul_range _ _ (gv_uint b)).

Lemma gadd_self a : gadd a a = gzero.
Proof. apply gf_eq. apply Z.lxor_nilpotent. Qed.

Lemma gf_ring_theory : ring_theory gzero gone gadd gtimes gadd (λ a, a) eq.
Proof.
  split; intros; apply gf_eq; cbn [gv of_uint gadd gtimes gzero gone].
  - apply Z.lxor_0_l.
  - apply Z.lxor_comm.
  - symmetry. apply Z.lxor_assoc.
  - apply gmul_1_l.
  - by apply gmul_comm.
  - by apply gmul_assoc.
  - apply gmul_linear_l.
  - done.
  - apply Z.lxor_nilpotent.
Qed.

(** Coefficients are bits, so that [ring] knows that [a + a = 0]. *)
Definition of_bit (b : bool) : gf := if b then gone else gzero.

Lemma gf_morph :
  ring_morph gzero gone gadd gtimes gadd (λ a, a) eq
    false true xorb andb xorb (λ b, b) Bool.eqb of_bit.
Proof.
  split; try done; intros; apply gf_eq.
  - destruct x, y; by vm_compute.
  - destruct x, y; by vm_compute.
  - destruct x, y; by vm_compute.
  - f_equal. f_equal. by apply Bool.eqb_prop.
Qed.

Ltac gf_cst t := match t with gzero => constr:(false) | gone => constr:(true) | _ => constr:(InitialRing.NotConstant) end.

Add Ring gf_ring : gf_ring_theory (morphism gf_morph, constants [gf_cst]).

Declare Scope gf_scope.
Delimit Scope gf_scope with gf.
Notation "a + b" := (gadd a b) : gf_scope.
Notation "a * b" := (gtimes a b) : gf_scope.
#[local] Open Scope gf_scope.

Lemma gf_karatsuba (a0 a1 b0 b1 : gf) :
  a0 * b0 + (a0 + a1) * (b0 + b1) = a0 * b1 + a1 * b0 + a1 * b1.
Proof. ring. Qed.

(** ** Powers *)

Fixpoint gpow (a : gf) (n : nat) : gf :=
  match n with O => gone | S n => a * gpow a n end.

Lemma gpow_add a n m : gpow a (n + m) = gpow a n * gpow a m.
Proof. induction n as [|n IH]; cbn [gpow Nat.add]; [ring|]. rewrite IH. ring. Qed.

Lemma gpow_mul a n m : gpow a (n * m) = gpow (gpow a n) m.
Proof.
  induction m as [|m IH]; [by rewrite Nat.mul_0_r|].
  rewrite Nat.mul_succ_r, Nat.add_comm, gpow_add, IH. done.
Qed.

Definition gsquare (a : gf) : gf := a * a.

Lemma frobenius_pow n a : Nat.iter n gsquare a = gpow a (2 ^ n).
Proof.
  induction n as [|n IH]; [cbn; ring|].
  change (Nat.iter (S n) gsquare a) with (gsquare (Nat.iter n gsquare a)).
  rewrite IH, Nat.pow_succ_r', (Nat.mul_comm 2), gpow_mul. unfold gsquare. cbn [gpow]. ring.
Qed.

Lemma frobenius_add n a b : Nat.iter n gsquare (a + b) = Nat.iter n gsquare a + Nat.iter n gsquare b.
Proof.
  induction n as [|n IH]; [done|]. change (Nat.iter (S n) gsquare ?x) with (gsquare (Nat.iter n gsquare x)).
  rewrite IH. unfold gsquare. ring.
Qed.

Definition gtwo : gf := mkgf 2 eq_refl.

Lemma gpow_two i : (i < 128)%nat → gv (gpow gtwo i) = (2 ^ Z.of_nat i)%Z.
Proof.
  intros Hi. rewrite <- xpow_one by done. clear Hi. induction i as [|i IH]; [done|].
  change (gv (gpow gtwo (S i))) with (gmul 2 (gv (gpow gtwo i))). rewrite IH.
  change 2 with (2 ^ Z.of_nat 1)%Z at 1. by rewrite gmul_pow2 by lia.
Qed.

Lemma frobenius_two : Nat.iter 128 gsquare gtwo = gtwo.
Proof.
  assert (∀ n, gv (Nat.iter n gsquare gtwo) = Nat.iter n spread_square 2) as H.
  { induction n as [|n IH]; [done|].
    change (gv (Nat.iter (S n) gsquare gtwo)) with (gmul (gv (Nat.iter n gsquare gtwo)) (gv (Nat.iter n gsquare gtwo))).
    change (Nat.iter (S n) spread_square 2) with (spread_square (Nat.iter n spread_square 2)).
    by rewrite <- square_gmul, square_spread, IH. }
  apply gf_eq. rewrite H. by vm_compute.
Qed.

(** Squaring 128 times is the identity: it is additive, and it fixes [x]. *)
Lemma frobenius_id a : Nat.iter 128 gsquare a = a.
Proof.
  assert (∀ z, is_uint 128 z → ∀ a, gv a = z → Nat.iter 128 gsquare a = a) as H; [|by apply (H (gv a))].
  clear a. apply (bits_ind128 (λ z, ∀ a, gv a = z → Nat.iter 128 gsquare a = a)).
  - intros a Ha. assert (a = gzero) as -> by (by apply gf_eq).
    generalize 128%nat. intros n. induction n as [|n IH]; [done|].
    change (gsquare (Nat.iter n gsquare gzero) = gzero). rewrite IH. unfold gsquare. ring.
  - intros i Hi a Ha. assert (a = gpow gtwo i) as -> by (apply gf_eq; by rewrite gpow_two).
    rewrite frobenius_pow, <- gpow_mul, Nat.mul_comm, gpow_mul, <- frobenius_pow, frobenius_two. done.
  - intros x y Hx Hy IHx IHy a Ha. assert (a = of_uint x Hx + of_uint y Hy) as -> by (by apply gf_eq).
    by rewrite frobenius_add, IHx, IHy.
Qed.

Lemma gpow_order a : gpow a (2 ^ 128) = a.
Proof. rewrite <- frobenius_pow. apply frobenius_id. Qed.

Lemma gpow_cycle a n k : gpow a (S n) = a → gpow a (S (k * n)) = a.
Proof.
  intros Hn. induction k as [|k IH]; [cbn; ring|].
  rewrite Nat.mul_succ_l, <- Nat.add_succ_l, gpow_add, IH. exact Hn.
Qed.

Lemma pow8_mod7 k : ∃ m, (8 ^ k = 7 * m + 1)%nat.
Proof.
  induction k as [|k [m IH]]; [by exists 0%nat|]. exists (8 * m + 1)%nat. rewrite Nat.pow_succ_r', IH. lia.
Qed.

(** An exponent that undoes the seventh power. *)
Lemma seventh_root : ∃ e, ∀ a, gpow (gpow a 7) e = a.
Proof.
  destruct (pow8_mod7 42) as [m Hm].
  assert (2 ^ 128 = 4 * 8 ^ 42)%nat as HN.
  { change 128%nat with (2 + 3 * 42)%nat. rewrite Nat.pow_add_r, Nat.pow_mul_r. done. }
  rewrite Hm in HN. exists (2 * (4 * m) + 1)%nat. intros a. rewrite <- gpow_mul.
  replace (7 * (2 * (4 * m) + 1))%nat with (S (2 * (4 * (7 * m) + 3))) by lia.
  apply gpow_cycle. replace (S (4 * (7 * m) + 3)) with (4 * (7 * m + 1))%nat by lia.
  rewrite <- HN. apply gpow_order.
Qed.

Lemma seventh_power_inj a b : gpow a 7 = gpow b 7 → a = b.
Proof. destruct seventh_root as [e He]. intros E. by rewrite <- (He a), E, He. Qed.

(** ** No zero divisors *)

(** A left inverse of [y^2 + y] up to the constant term. *)
Definition ROOT_TABLE : list Z := [
  0x295ac0b1f4731af9676aac9fa4b20b08; 0xe5da5595ee970b89929959af766af404;
  0xe5da5595ee970b89929959af766af406; 0x4e9826c74350bfe67783f7333404a20c;
  0xe5da5595ee970b89929959af766af402; 0x2aaea79ad7da34b07dc714cb83074e6a;
  0x4e9826c74350bfe67783f7333404a204; 0xcc8095241ae41171f5f3f531d2d9fe18;
  0xe5da5595ee970b89929959af766af412; 0x4e983687d159ce9677cb862e8ac85b44;
  0x2aaea79ad7da34b07dc714cb83074e4a; 0xaae2ab6aaf144aaff73fcb3c06aaff56;
  0x4e9826c74350bfe67783f7333404a244; 0xe62f327ccd5792dd893fe9ca40603f62;
  0xcc8095241ae41171f5f3f531d2d9fe98; 0xab52f0323f47c90be1336bc7d453b626;
  0xe5da5595ee970b89929959af766af512; 0x2abe34bad75338b479a6a089abf4573a;
  0x4e983687d159ce9677cb862e8ac85944; 0x1e8ccb9dcc72f2e1a9cbef8232562fc;
  0x2aaea79ad7da34b07dc714cb83074a4a; 0x2442c3221f3dc1a0ce869b24a80e48c;
  0xaae2ab6aaf144aaff73fcb3c06aaf756; 0xcf64612f39c4323deb3ff936dd9aa228;
  0x4e9826c74350bfe67783f7333404b244; 0xcc911696880d4909f0d5382a57572458;
  0xe62f327ccd5792dd893fe9ca40601f62; 0x4d7cd7cc29d28cf2697f6478e5db2834;
  0xcc8095241ae41171f5f3f531d2d9be98; 0xccc99127569146a7fc0956ca1a5b86a4;
  0xab52f0323f47c90be1336bc7d4533626; 0x65cece94dacd5b1c14f5986b001eeb82;
  0xe5da5595ee970b89929959af766bf512; 0x2b0e7fa2d509ca746fe27169c7c3e73a;
  0x2abe34bad75338b479a6a089abf6573a; 0x65df4d264824132411d3553885980142;
  0x4e983687d159ce9677cb862e8acc5944; 0xcf74f70e70ef2af7ef6fd21d2af671a4;
  0x1e8ccb9dcc72f2e1a9cbef8232d62fc; 0xcec4b9173b16cdf9f91a9d8499490f58;
  0x2aaea79ad7da34b07dc714cb83174a4a; 0x83f16f99175f624799a6cf206b513bdc;
  0x2442c3221f3dc1a0ce869b24aa0e48c; 0x3f562a96a2aa9081b9e27ebe84671c0;
  0xaae2ab6aaf144aaff73fcb3c06eaf756; 0xccc9c07ae11bcce3fcd6d526cddeebd4;
  0xcf64612f39c4323deb3ff936dd1aa228; 0xa95fc803c09556f7e461dfebe8467196;
  0x4e9826c74350bfe67783f7333504b244; 0x4cdc1ab0f0ab5b2e7b20ee03c15c7384;
  0xcc911696880d4909f0d5382a55572458; 0xaaba68961da11d79fb48c8c7fe68cf6a;
  0xe62f327ccd5792dd893fe9ca44601f62; 0xe5db5416ee209847938b5c70638d3bee;
  0x4d7cd7cc29d28cf2697f6478eddb2834; 0x6437818b95e2e76e0b49fa26a7e512ce;
  0xcc8095241ae41171f5f3f531c2d9be98; 0x4cd9020746184ba27868a299022ddf34;
  0xccc99127569146a7fc0956ca3a5b86a4; 0x824171dcefbe4a8b8f1d24e407e8e76c;
  0xab52f0323f47c90be1336bc794533626; 0xe62e22af1f6bf32b88711e202cdc3b5e;
  0x65cece94dacd5b1c14f5986b801eeb82; 0x83f4672b23a92e499aadb85427b54520;
  0xe5da5595ee970b89929959ae766bf512; 0x1040920971720048711dbeccf94c;
  0x2b0e7fa2d509ca746fe2716bc7c3e73a; 0x81edd40a7a7437cb99d6b267d0d7976c;
  0x2abe34bad75338b479a6a08dabf6573a; 0xe46a1e8deccdf96d84dd884d1a5d4462;
  0x65df4d264824132411d3553085980142; 0x804c1cb1eac70f698ab1aeeb3a605920;
  0x4e983687d159ce9677cb863e8acc5944; 0xa94f4b3252499e01e04514377dbd55aa;
  0xcf74f70e70ef2af7ef6fd23d2af671a4; 0xe7d77da5831189d3978a93f3f56f619e;
  0x1e8ccb9dcc72f2e1a9cbeb8232d62fc; 0x4cdd0f362b68e52a7a5109eab0a16ef4;
  0xcec4b9173b16cdf9f91a9d0499490f58; 0xe4329c3d7bf233698830781e88d05912;
  0x2aaea79ad7da34b07dc715cb83174a4a; 0x82082082597387418618bcbfcff334e0;
  0x83f16f99175f624799a6cd206b513bdc; 0x294b124ed1181a846297e291f4adcc3a;
  0x2442c3221f3dc1a0ce86db24aa0e48c; 0xe78fff41144664939b696b666550119e;
  0x3f562a96a2aa9081b9e2febe84671c0; 0xcd78dbfd54a1436beb568d9e63d55a14;
  0xaae2ab6aaf144aaff73fdb3c06eaf756; 0xccdd4e7b1ce38d0ffacabbbeed722b64;
  0xccc9c07ae11bcce3fcd6f526cddeebd4; 0x3e5e1ccb1bf89c61fb4754fa43bbf3c;
  0xcf64612f39c4323deb3fb936dd1aa228; 0xe5da00893461b455926f68f4172caea2;
  0xa95fc803c09556f7e4615febe8467196; 0xe78ae2a77b3e87b1981cf1dccb9d1fd2;
  0x4e9826c74350bfe67782f7333504b244; 0x2912d4222a675b0a6fd777b6c15f72c6;
  0x4cdc1ab0f0ab5b2e7b22ee03c15c7384; 0xe7d6682e58d237f196f8740f85956fd2;
  0xcc911696880d4909f0d1382a55572458; 0xab4366b0764a0b4be46143c933474626;
  0xaaba68961da11d79fb40c8c7fe68cf6a; 0xe7d77d718378aeb397849bb7f7de0d9e;
  0xe62f327ccd5792dd892fe9ca44601f62; 0x64231d9efb5729d60d13f9bd382e380e;
  0xe5db5416ee20984793ab5c70638d3bee; 0x81b51ab7a5fe1499959811bd9a557220;
  0x4d7cd7cc29d28cf2693f6478eddb2834; 0x295ab4bb43072c12678a4ee975a08406;
  0x6437818b95e2e76e0bc9fa26a7e512ce; 0xab0eead38eb165ebef9e1acd25989a26;
  0xcc8095241ae41171f4f3f531c2d9be98; 0x3ba7996db230c0010185b9b29b00000;
  0x4cd9020746184ba27a68a299022ddf34; 0x8210932010890d058261f45338765990;
  0xccc99127569146a7f80956ca3a5b86a4; 0x2a88e0fbb92f0c2c7f14722e3db361fa;
  0x824171dcefbe4a8b871d24e407e8e76c; 0x29b11e87b8989fd86fb067f47d17578a;
  0xab52f0323f47c90bf1336bc794533626; 0x0;
  0xe62e22af1f6bf32ba8711e202cdc3b5e; 0x862e22af1f6bf32ba8711e202cdc3b6c;
  0x65cece94dacd5b1c54f5986b801eeb82; 0x8e8cbdc6770aef73b1ef36f7c270bdac;
  0x83f4672b23a92e491aadb85427b54520; 0x38b21c09fae1613c0db7ed8c3891e6fa
].

(** The only solutions of [y^2 = y] are 0 and 1. *)
Lemma idempotent a : a * a = a → a = gzero ∨ a = gone.
Proof.
  intros Ha.
  assert (apply_matrix ROOT_TABLE (Z.lxor (spread_square (gv a)) (gv a)) = Z.land (gv a) (2 ^ 128 - 2)%Z) as H.
  { apply (linear_ext 128 (λ z, apply_matrix ROOT_TABLE (Z.lxor (spread_square z) z)) (λ z, Z.land z (2 ^ 128 - 2)%Z)).
    - apply (linear_comp (apply_matrix ROOT_TABLE)); [apply apply_matrix_linear|].
      apply linear_lxor; [apply spread_square_linear|apply linear_id].
    - apply linear_land, linear_id.
    - by vm_compute.
    - apply (gv_uint a). }
  assert (spread_square (gv a) = gv a) as E.
  { rewrite <- square_spread, square_gmul by done. by apply (f_equal gv) in Ha. }
  rewrite E, Z.lxor_nilpotent in H. change (apply_matrix ROOT_TABLE 0) with 0 in H.
  pose proof (gv_uint a) as Hr. unfold is_uint in Hr.
  assert (Z.land (gv a) (Z.lnot 1) = 0) as Hl.
  { apply Z.bits_inj'. intros n Hn. apply (f_equal (λ z, Z.testbit z n)) in H. rewrite Z.bits_0 in *.
    rewrite Z.land_spec in *. destruct (Z.lt_ge_cases n 128) as [Hlt|Hge].
    - replace (2 ^ 128 - 2)%Z with (Z.land (Z.lnot 1) (Z.ones 128)) in H by done.
      rewrite Z.land_spec, Z.testbit_ones_nonneg in H by lia. destruct (Z.ltb_spec n 128); [|lia].
      by rewrite andb_true_r in H.
    - by rewrite (testbit_uint_high 128 (gv a)) by lia. }
  assert (gv a = Z.land (gv a) 1) as El.
  { apply Z.bits_inj'. intros n Hn. apply (f_equal (λ z, Z.testbit z n)) in Hl.
    rewrite Z.land_spec, Z.lnot_spec, Z.bits_0 in Hl by lia. rewrite Z.land_spec.
    destruct (Z.testbit (gv a) n), (Z.testbit 1 n); done. }
  change 1%Z with (Z.ones 1) in El. rewrite Z.land_ones in El by lia.
  pose proof (Z.mod_pos_bound (gv a) (2 ^ 1)%Z ltac:(lia)). change (2 ^ 1)%Z with 2%Z in *.
  destruct (Z.eq_dec (gv a) 0) as [E0|E1]; [left|right]; apply gf_eq; cbn [gv gzero gone]; lia.
Qed.

Definition ginv_exponent : nat := 2 ^ 128 - 2.

Lemma ginv_exponent_eq : S (S ginv_exponent) = (2 ^ 128)%nat.
Proof.
  unfold ginv_exponent. assert (2 * 2 ^ 127 = 2 ^ 128)%nat by (symmetry; apply Nat.pow_succ_r').
  pose proof (Nat.pow_nonzero 2 127). lia.
Qed.
#[global] Opaque ginv_exponent.

(** Every element but zero has an inverse. *)
Definition ginv (a : gf) : gf := gpow a ginv_exponent.

Lemma ginv_r a : a ≠ gzero → a * ginv a = gone.
Proof.
  intros Ha. pose proof (gpow_order a) as Ho. rewrite <- ginv_exponent_eq in Ho. cbn [gpow] in Ho. fold (ginv a) in Ho.
  destruct (idempotent (a * ginv a)) as [E|E]; [|exfalso; apply Ha|done].
  - transitivity ((a * (a * ginv a)) * ginv a); [ring|by rewrite Ho].
  - rewrite <- Ho, E. ring.
Qed.

Lemma no_zero_divisors a b : a * b = gzero → a ≠ gzero → b = gzero.
Proof.
  intros Hab Ha. transitivity (a * ginv a * b); [rewrite ginv_r by done; ring|].
  transitivity (a * b * ginv a); [ring|]. rewrite Hab. ring.
Qed.

(** ** The Poseidon multiplication and squaring on words *)

Lemma clmul_gcm_gv a b : clmul_gcm (gv a) (gv b) = gv (a * b).
Proof. by apply soft_clmul_gmul. Qed.

Lemma square_flat_gv a : square_flat_u128 (gv a) = gv (a * a).
Proof. by apply square_gmul. Qed.
