(* ===== verification/Tower.v ===== *)
(** * The binary tower field

    [jetsam_core/src/tower]: GF(2^8) with the AES polynomial and its four
    quadratic extensions up to [Block128], where addition is exclusive or and
    multiplication is Karatsuba over [X^2 + X + TAU].  The four extensions
    share their code in the source, so they share the section [extension]
    here.  The change of basis of [FlatField] carries the product of
    [Block128] to carry-less multiplication, so [Block128] is a field too and
    [invert] computes inverses. *)

From S2P Require Import Prelude Machine Poseidon FlatField GF128 FieldRing.

(** ** GF(2^8) *)

Definition clmul8_step (a b p : Z) (i : Z) : Z :=
  if Z.testbit b i then Z.lxor p (wrap 16 (Z.shiftl a i)) else p.

Definition reduce8_step (p k : Z) : Z :=
  if Z.testbit p (8 + k) then Z.lxor p (Z.shiftl 0x1B k) else p.

Definition gf256_mul_entry (a b : Z) : Z :=
  let p := foldl (clmul8_step a b) 0 [0; 1; 2; 3; 4; 5; 6; 7] in
  wrap 8 (foldl reduce8_step p [6; 5; 4; 3; 2; 1; 0]).

(** [GF256_MUL_TABLE[a][b]] *)
Definition Block8_mul (a b : Z) : Z := gf256_mul_entry a b.

(** [SQR_TABLE[a]] *)
Definition Block8_square (a : Z) : Z := Block8_mul a a.

(** [GF256_INV_TABLE[a]]: the first [b] with [a * b = 1]. *)
Definition Block8_invert (a : Z) : Z :=
  match find (λ b, Block8_mul a (Z.of_nat b) =? 1) (seq 1 255) with
  | Some b => Z.of_nat b
  | None => 0
  end.

(** ** Quadratic extensions *)

Section extension.
  Context (w TAU : Z) (mul : Z → Z → Z) (square invert : Z → Z).

Definition ext_new (lo hi : Z) : Z := Z.lor (Z.shiftl hi w) lo.
Definition ext_split (x : Z) : Z * Z := (wrap w x, Z.shiftr x w).

Definition ext_mul (a b : Z) : Z :=
  let '(a0, a1) := ext_split a in
  let '(b0, b1) := ext_split b in
  let v0 := mul a0 b0 in
  let v1 := mul a1 b1 in
  let v_sum := mul (Z.lxor a0 a1) (Z.lxor b0 b1) in
  let c_lo := Z.lxor v0 (mul v1 TAU) in
  let c_hi := Z.lxor v0 v_sum in
  ext_new c_lo c_hi.

Definition ext_square (x : Z) : Z :=
  let '(a, b) := ext_split x in
  let a2 := square a in
  let b2 := square b in
  let lo := Z.lxor a2 (mul b2 TAU) in
  ext_new lo b2.

Definition ext_invert (x : Z) : Z :=
  let '(l, h) := ext_split x in
  let h2 := mul h h in
  let l2 := mul l l in
  let hl := mul h l in
  let norm := Z.lxor (Z.lxor (mul h2 TAU) hl) l2 in
  let norm_inv := invert norm in
  let res_hi := mul h norm_inv in
  let res_lo := mul (Z.lxor h l) norm_inv in
  ext_new res_lo res_hi.

End extension.

Definition Block8_TAU : Z := 0x20.
Definition Block16_mul := ext_mul 8 Block8_TAU Block8_mul.
Definition Block16_square := ext_square 8 Block8_TAU Block8_mul Block8_square.
Definition Block16_invert := ext_invert 8 Block8_TAU Block8_mul Block8_invert.

Definition Block16_TAU : Z := 0x2000.
Definition Block32_mul := ext_mul 16 Block16_TAU Block16_mul.
Definition Block32_square := ext_square 16 Block16_TAU Block16_mul Block16_square.
Definition Block32_invert := ext_invert 16 Block16_TAU Block16_mul Block16_invert.

Definition Block32_TAU : Z := 0x20000000.
Definition Block64_mul := ext_mul 32 Block32_TAU Block32_mul.
Definition Block64_square := ext_square 32 Block32_TAU Block32_mul Block32_square.
Definition Block64_invert := ext_invert 32 Block32_TAU Block32_mul Block32_invert.

Definition Block64_TAU : Z := 0x2000000000000000.
Definition Block128_mul := ext_mul 64 Block64_TAU Block64_mul.
Definition Block128_square := ext_square 64 Block64_TAU Block64_mul Block64_square.
Definition Block128_invert := ext_invert 64 Block64_TAU Block64_mul Block64_invert.

(** [from_uniform_bytes] and the little-endian serialization. *)
Definition Block128_from_uniform_bytes (bytes : list Z) : Z := from_le_bytes (take 16 bytes).
Definition Block128_serialize (x : Z) (writer : list Z) : option (list Z) :=
  if (length writer <? 16)%nat then None else Some (to_le_bytes 16 x ++ drop 16 writer).
Definition Block128_deserialize (bytes : list Z) : option Z :=
  if (length bytes <? 16)%nat then None else Some (from_le_bytes (take 16 bytes)).

(** ** The change of basis *)

#[local] Notation phi := tower_to_flat_u128.

Lemma phi_range x : is_uint 128 x → is_uint 128 (phi x).
Proof.
  revert x. apply (bits_ind128 (λ x, is_uint 128 (phi x))).
  - done.
  - intros i Hi.
    assert (forallb (λ i, in_range (phi (2 ^ Z.of_nat i))) (seq 0 128) = true) as Hall by (by vm_compute).
    rewrite forallb_forall in Hall. apply in_range_uint, Hall, in_seq. lia.
  - intros a b _ _ Ha Hb. rewrite tower_to_flat_linear. apply lxor_range; [lia|done..].
Qed.

Lemma basis_inverse x :
  is_uint 128 x → flat_to_tower_u128 (tower_to_flat_u128 x) = x ∧ tower_to_flat_u128 (flat_to_tower_u128 x) = x.
Proof.
  intros Hx. split; revert x Hx.
  - apply (linear_ext 128 (λ x, flat_to_tower_u128 (tower_to_flat_u128 x)) (λ x, x));
      [apply (linear_comp flat_to_tower_u128); [apply flat_to_tower_linear|apply tower_to_flat_linear]|apply linear_id|by vm_compute].
  - apply (linear_ext 128 (λ x, tower_to_flat_u128 (flat_to_tower_u128 x)) (λ x, x));
      [apply (linear_comp tower_to_flat_u128); [apply tower_to_flat_linear|apply flat_to_tower_linear]|apply linear_id|by vm_compute].
Qed.

(** The flat image of a word, as a field element. *)
Definition tf (x : Z) : gf :=
  match Sumbool.sumbool_of_bool (in_range (phi x)) with
  | left H => mkgf (phi x) H
  | right _ => gzero
  end.

Lemma tf_gv x : is_uint 128 x → gv (tf x) = phi x.
Proof.
  intros Hx. unfold tf. destruct (Sumbool.sumbool_of_bool _) as [H|H]; [done|].
  apply phi_range, in_range_uint in Hx. congruence.
Qed.

Lemma tf_lxor a b : is_uint 128 a → is_uint 128 b → tf (Z.lxor a b) = (tf a + tf b)%gf.
Proof.
  intros Ha Hb. apply gf_eq. cbn [gadd gv of_uint].
  rewrite !tf_gv, tower_to_flat_linear by (try apply lxor_range; done || lia). done.
Qed.

Lemma tf_0 : tf 0 = gzero.
Proof. by apply gf_eq. Qed.

Lemma tf_1 : tf 1 = gone.
Proof. by apply gf_eq. Qed.

Lemma tf_inj a b : is_uint 128 a → is_uint 128 b → tf a = tf b → a = b.
Proof.
  intros Ha Hb E. apply (f_equal gv) in E. rewrite !tf_gv in E by done.
  pose proof (proj1 (basis_inverse a Ha)) as Ea. pose proof (proj1 (basis_inverse b Hb)) as Eb.
  rewrite E in Ea. congruence.
Qed.

(** ** The product of GF(2^8) *)

Lemma reduce8_step_linear f k : linear f → linear (λ x, reduce8_step (f x) k).
Proof.
  intros Hf. assert (∀ p, reduce8_step p k = Z.lxor p (if Z.testbit p (8 + k) then Z.shiftl 0x1B k else 0)) as E.
  { intros p. unfold reduce8_step. destruct (Z.testbit p (8 + k)); [done|by rewrite Z.lxor_0_r]. }
  intros a b. rewrite !E. revert a b.
  apply (linear_lxor f (λ x, if Z.testbit (f x) (8 + k) then Z.shiftl 0x1B k else 0)); [done|by apply linear_bit].
Qed.

Lemma clmul8_step_E a b p i :
  clmul8_step a b p i = Z.lxor p (if Z.testbit b i then wrap 16 (Z.shiftl a i) else 0).
Proof. unfold clmul8_step. destruct (Z.testbit b i); [done|by rewrite Z.lxor_0_r]. Qed.

Lemma clmul8_step_linear_l f b i : linear f → linear (λ a, clmul8_step a b (f a) i).
Proof.
  intros Hf x y. rewrite !clmul8_step_E. revert x y.
  apply (linear_lxor f (λ a, if Z.testbit b i then wrap 16 (Z.shiftl a i) else 0)); [done|].
  destruct (Z.testbit b i); [|apply linear_zero]. apply linear_wrap; [lia|]. apply linear_shiftl, linear_id.
Qed.

Lemma clmul8_step_linear_r f a i : linear f → linear (λ b, clmul8_step a b (f b) i).
Proof.
  intros Hf x y. rewrite !clmul8_step_E. revert x y.
  apply (linear_lxor f (λ b, if Z.testbit b i then wrap 16 (Z.shiftl a i) else 0)); [done|].
  apply (linear_bit (λ b, b)), linear_id.
Qed.

Lemma Block8_mul_linear_l b : linear (λ a, Block8_mul a b).
Proof.
  unfold Block8_mul, gf256_mul_entry. cbn [foldl]. apply linear_wrap; [lia|].
  do 7 apply reduce8_step_linear. do 8 (apply (clmul8_step_linear_l (λ a, _))). apply linear_zero.
Qed.

Lemma Block8_mul_linear_r a : linear (Block8_mul a).
Proof.
  unfold Block8_mul, gf256_mul_entry. cbn [foldl]. apply linear_wrap; [lia|].
  do 7 apply reduce8_step_linear. do 8 (apply (clmul8_step_linear_r (λ a, _))). apply linear_zero.
Qed.

(** ** Levels of the tower *)

(** A multiplication on [w]-bit words that the change of basis carries to
    the field's. *)
Definition tower_level (w : Z) (mul : Z → Z → Z) : Prop :=
  ∀ a b, is_uint w a → is_uint w b → is_uint w (mul a b) ∧ tf (mul a b) = (tf a * tf b)%gf.

Lemma uint128 w x : is_uint w x → w ≤ 128 → is_uint 128 x.
Proof. apply is_uint_mono. Qed.

Lemma tf_fmul a b c :
  is_uint 128 a → is_uint 128 b → is_uint 128 c → phi c = fmul (phi a) (phi b) → tf c = (tf a * tf b)%gf.
Proof.
  intros Ha Hb Hc E. apply gf_eq. cbn [gtimes gv of_uint]. rewrite !tf_gv by done.
  rewrite E. symmetry. apply gmul_fmul; by apply phi_range.
Qed.

Lemma Block8_level : tower_level 8 Block8_mul.
Proof.
  intros a b Ha Hb. assert (is_uint 8 (Block8_mul a b)) as Hr by (apply wrap_range; lia).
  split; [done|]. apply gf_eq. cbn [gtimes gv of_uint].
  rewrite !tf_gv by (eapply uint128; [eassumption|lia]).
  revert a b Ha Hb Hr. intros a b Ha Hb _.
  apply (bilinear_ext_w 8 (λ a b, phi (Block8_mul a b)) (λ a b, gmul (phi a) (phi b))); try done.
  - intros b'. apply (linear_comp phi); [apply tower_to_flat_linear|apply Block8_mul_linear_l].
  - intros a'. apply (linear_comp phi); [apply tower_to_flat_linear|apply Block8_mul_linear_r].
  - intros b'. apply (linear_comp (λ x, gmul x (phi b'))); [apply gmul_linear_l|apply tower_to_flat_linear].
  - intros a'. apply (linear_comp (gmul (phi a'))); [apply gmul_linear_r|apply tower_to_flat_linear].
  - intros i j Hi Hj. rewrite gmul_fmul by (apply phi_range, pow2_uint; lia).
    assert (forallb (λ i, forallb (λ j, phi (Block8_mul (2 ^ Z.of_nat i) (2 ^ Z.of_nat j))
      =? fmul (phi (2 ^ Z.of_nat i)) (phi (2 ^ Z.of_nat j))) (seq 0 8)) (seq 0 8) = true) as H by (by vm_compute).
    rewrite forallb_forall in H. specialize (H i ltac:(apply in_seq; lia)).
    rewrite forallb_forall in H. apply Z.eqb_eq, H, in_seq. lia.
Qed.

Section level_step.
  Context (w : nat) (TAU : Z) (mul : Z → Z → Z).
  Context (Hw : (2 * w ≤ 128)%nat) (Hlevel : tower_level (Z.of_nat w) mul) (HTAU : is_uint (Z.of_nat w) TAU).
  Context (Hshift : forallb (λ i, phi (2 ^ Z.of_nat (i + w)) =? fmul (phi (2 ^ Z.of_nat i)) (phi (2 ^ Z.of_nat w))) (seq 0 w) = true).
  Context (Hsquare : fmul (phi (2 ^ Z.of_nat w)) (phi (2 ^ Z.of_nat w)) = phi (Z.lxor (2 ^ Z.of_nat w) TAU)).

  #[local] Notation W := (Z.of_nat w).
  #[local] Notation X := (tf (2 ^ W)).

Lemma tf_shift a : is_uint W a → (w < 128)%nat → tf (Z.shiftl a W) = (tf a * X)%gf.
Proof.
  intros Ha Hw'. revert a Ha. apply bits_ind.
  - rewrite Z.shiftl_0_l, tf_0. ring.
  - intros i Hi. rewrite Z.shiftl_mul_pow2, <- Z.pow_add_r, <- Nat2Z.inj_add by lia.
    apply tf_fmul; [apply pow2_uint; lia..|]. rewrite forallb_forall in Hshift. apply Z.eqb_eq, Hshift, in_seq. lia.
  - intros a b Ha Hb Ea Eb. rewrite Z.shiftl_lxor, !tf_lxor, Ea, Eb; [ring|..];
      first [apply (uint128 W); [done|lia]|apply (uint128 (W + W)); [apply shiftl_range; [lia..|done]|lia]].
Qed.

Lemma ext_split_ok x :
  is_uint (W + W) x → (w < 128)%nat → is_uint W (ext_split W x).1 ∧ is_uint W (ext_split W x).2
    ∧ tf x = (tf (ext_split W x).1 + tf (ext_split W x).2 * X)%gf.
Proof.
  intros Hx Hw'. unfold ext_split. cbn [fst snd].
  assert (is_uint W (wrap W x)) as Hlo by (apply wrap_range; lia).
  assert (is_uint W (Z.shiftr x W)) as Hhi.
  { unfold is_uint in *. rewrite Z.shiftr_div_pow2 by lia. rewrite Z.pow_add_r in Hx by lia.
    pose proof (Z.pow_pos_nonneg 2 W ltac:(lia) ltac:(lia)).
    split; [apply Z.div_pos; lia|apply Z.div_lt_upper_bound; lia]. }
  split_and!; [done..|]. rewrite <- tf_shift, <- tf_lxor by
    first [done|apply (uint128 W); [done|lia]|apply (uint128 (W + W)); [apply shiftl_range; [lia..|done]|lia]].
  f_equal. apply Z.bits_inj'. intros n Hn. rewrite Z.lxor_spec, Z.shiftl_spec, wrap_land, Z.land_spec by lia.
  rewrite Z.testbit_ones_nonneg by lia. destruct (Z.ltb_spec n W).
  - by rewrite (Z.testbit_neg_r _ (n - W)), andb_true_r, xorb_false_r by lia.
  - rewrite Z.shiftr_spec, Z.sub_add, andb_false_r by lia. by destruct (Z.testbit x n).
Qed.

Lemma ext_new_ok lo hi :
  is_uint W lo → is_uint W hi → (w < 128)%nat →
  is_uint (W + W) (ext_new W lo hi) ∧ tf (ext_new W lo hi) = (tf lo + tf hi * X)%gf.
Proof.
  intros Hlo Hhi Hw'. assert (is_uint (W + W) (Z.shiftl hi W)) as Hs by (apply shiftl_range; [lia..|done]).
  assert (ext_new W lo hi = Z.lxor lo (Z.shiftl hi W)) as ->.
  { unfold ext_new. rewrite Z.lor_comm. symmetry. apply Z.lxor_lor. apply Z.bits_inj'. intros n Hn.
    rewrite Z.land_spec, Z.shiftl_spec, Z.bits_0 by lia. destruct (Z.lt_ge_cases n W).
    - by rewrite (Z.testbit_neg_r _ (n - W)), andb_false_r by lia.
    - unfold is_uint in Hlo. by rewrite (testbit_uint_high W lo) by lia. }
  split; [apply lxor_range; [lia|apply (is_uint_mono W); [done|lia]|done]|].
  rewrite tf_lxor, tf_shift by
    first [done|apply (uint128 W); [done|lia]|apply (uint128 (W + W)); [done|lia]]. done.
Qed.

Lemma X_square : (w < 128)%nat → (X * X = X + tf TAU)%gf.
Proof.
  intros Hw'. assert (is_uint 128 (2 ^ W)) as HX by (by apply pow2_uint).
  assert (is_uint 128 TAU) as HT by (apply (uint128 W); [done|lia]).
  rewrite <- tf_lxor by done. symmetry. apply tf_fmul; try done. apply lxor_range; [lia|done..].
Qed.

Lemma ext_mul_level : (w < 128)%nat → tower_level (W + W) (ext_mul W TAU mul).
Proof.
  intros Hw' a b Ha Hb.
  destruct (ext_split_ok a Ha Hw') as (Ha0 & Ha1 & Ea), (ext_split_ok b Hb Hw') as (Hb0 & Hb1 & Eb).
  unfold ext_mul. destruct (ext_split W a) as [a0 a1], (ext_split W b) as [b0 b1]. cbn [fst snd] in *.
  destruct (Hlevel a0 b0 Ha0 Hb0) as [R0 E0], (Hlevel a1 b1 Ha1 Hb1) as [R1 E1].
  destruct (Hlevel (Z.lxor a0 a1) (Z.lxor b0 b1)) as [Rs Es]; [apply lxor_range; [lia|done..]..|].
  destruct (Hlevel (mul a1 b1) TAU R1 HTAU) as [Rt Et].
  assert (∀ x, is_uint W x → is_uint 128 x) as HW by (intros x Hx; apply (uint128 W); [done|lia]).
  edestruct ext_new_ok as [R E]; [..|split; [exact R|rewrite E]]; try done; try (apply lxor_range; [lia|done..]).
  rewrite !tf_lxor, Es, Et, E0, E1, !tf_lxor, Ea, Eb by auto.
  pose proof (X_square Hw') as HX. transitivity
    ((tf a0 * tf b0 + tf a0 * tf b1 * X + tf a1 * tf b0 * X) + tf a1 * tf b1 * (X + tf TAU))%gf; [ring|].
  rewrite <- HX. ring.
Qed.

Definition square_level (w : Z) (square : Z → Z) : Prop :=
  ∀ a, is_uint w a → is_uint w (square a) ∧ tf (square a) = (tf a * tf a)%gf.

Definition invert_level (w : Z) (invert : Z → Z) : Prop :=
  ∀ a, is_uint w a → is_uint w (invert a) ∧ (a ≠ 0 → tf a * tf (invert a) = gone)%gf.

Lemma ext_square_level square :
  (w < 128)%nat → square_level W square → square_level (W + W) (ext_square W TAU mul square).
Proof.
  intros Hw' Hsq x Hx. destruct (ext_split_ok x Hx Hw') as (Hl & Hh & Ex).
  unfold ext_square. destruct (ext_split W x) as [l h]. cbn [fst snd] in *.
  destruct (Hsq l Hl) as [Rl El], (Hsq h Hh) as [Rh Eh], (Hlevel (square h) TAU) as [Rt Et]; [tauto..|].
  assert (∀ x, is_uint W x → is_uint 128 x) as HW by (intros y Hy; apply (uint128 W); [done|lia]).
  edestruct ext_new_ok as [R E]; [..|split; [exact R|rewrite E]]; try done; try (apply lxor_range; [lia|done..]).
  rewrite tf_lxor, Et, El, Eh, Ex by auto.
  transitivity (tf l * tf l + tf h * tf h * (X + tf TAU))%gf; [ring|]. rewrite <- X_square by done. ring.
Qed.

Lemma tf_nonzero a : is_uint 128 a → a ≠ 0 → tf a ≠ gzero.
Proof. intros Ha Hne E. apply Hne. apply tf_inj; [done..|]. by rewrite E, tf_0. Qed.

(** The conjugate of [l + h * X] is [(l + h) + h * X]; their product is the
    norm. *)
Lemma norm_conjugate (l h x t : gf) :
  (x * x = x + t → (l + h * x) * ((h + l) + h * x) = (h * h * t + h * l) + l * l)%gf.
Proof.
  intros Hx. transitivity (h * l + l * l + h * h * x + h * h * (x * x))%gf; [ring|]. rewrite Hx. ring.
Qed.

Lemma ext_invert_level invert :
  (w < 128)%nat → invert_level W invert → invert_level (W + W) (ext_invert W TAU mul invert).
Proof.
  intros Hw' Hinv x Hx. destruct (ext_split_ok x Hx Hw') as (Hl & Hh & Ex).
  unfold ext_invert. destruct (ext_split W x) as [l h]. cbn [fst snd] in *.
  assert (∀ x, is_uint W x → is_uint 128 x) as HW by (intros y Hy; apply (uint128 W); [done|lia]).
  assert (∀ x y, is_uint W x → is_uint W y → is_uint W (Z.lxor x y)) as HX by (intros; apply lxor_range; [lia|done..]).
  destruct (Hlevel h h) as [Rhh Ehh], (Hlevel l l) as [Rll Ell], (Hlevel h l) as [Rhl Ehl]; try done.
  destruct (Hlevel (mul h h) TAU) as [Rt Et]; [done..|].
  set (norm := Z.lxor _ (mul l l)). assert (is_uint W norm) as Rn by (apply HX; auto).
  destruct (Hinv norm Rn) as [Ri Ei].
  destruct (Hlevel h (invert norm)) as [R1 E1], (Hlevel (Z.lxor h l) (invert norm)) as [R0 E0]; auto.
  destruct (ext_new_ok _ _ R0 R1 Hw') as [R E]. split; [exact R|]. intros Hne.
  assert (tf norm = tf x * tf (ext_new W (Z.lxor h l) h))%gf as En.
  { rewrite (proj2 (ext_new_ok (Z.lxor h l) h (HX _ _ Hh Hl) Hh Hw')). unfold norm.
    rewrite Ex, !tf_lxor, Et, Ehh, Ell, Ehl, (norm_conjugate _ _ X (tf TAU)) by auto using X_square. done. }
  assert (norm ≠ 0) as Hn; [clearbody norm|].
  { intros ->. assert (is_uint 128 x) as Hx' by (apply (uint128 (W + W)); [done|lia]).
    apply eq_sym, no_zero_divisors in En; [|by apply tf_nonzero].
    assert (ext_new W (Z.lxor h l) h = 0) as Ez.
    { destruct (Z.eq_dec (ext_new W (Z.lxor h l) h) 0); [done|]. exfalso. revert En. apply tf_nonzero; [|done].
      apply (uint128 (W + W)); [apply ext_new_ok; auto|lia]. }
    apply Z.lor_eq_0_iff in Ez as [Es El]. apply Z.shiftl_eq_0_iff in Es; [subst h|lia].
    rewrite Z.lxor_0_l in El. subst l. apply (tf_nonzero x Hx' Hne). rewrite Ex, tf_0. ring. }
  rewrite E, E0, E1, tf_lxor by auto.
  rewrite <- (Ei Hn), En, (proj2 (ext_new_ok (Z.lxor h l) h (HX _ _ Hh Hl) Hh Hw')), tf_lxor by auto. ring.
Qed.

End level_step.

(** ** The whole tower *)

Definition Block8_pow254 (a : Z) : Z :=
  let a2 := Block8_square a in
  let a4 := Block8_square a2 in
  let a8 := Block8_square a4 in
  let a16 := Block8_square a8 in
  let a32 := Block8_square a16 in
  let a64 := Block8_square a32 in
  foldl Block8_mul a2 [a4; a8; a16; a32; a64; Block8_square a64].

Lemma Block8_inverse_exists a :
  is_uint 8 a → a ≠ 0 → Block8_mul a (Block8_pow254 a) = 1 ∧ 0 < Block8_pow254 a < 256.
Proof.
  intros Ha Hne.
  assert (forallb (λ n, let a := Z.of_nat n in let b := Block8_pow254 a in
    (Block8_mul a b =? 1) && (0 <? b) && (b <? 256)) (seq 1 255) = true) as H by (by vm_compute).
  rewrite forallb_forall in H. unfold is_uint in Ha. change (2 ^ 8) with 256 in Ha.
  specialize (H (Z.to_nat a) ltac:(apply in_seq; lia)). rewrite Z2Nat.id in H by lia. cbv zeta in H.
  rewrite !andb_true_iff, Z.eqb_eq, !Z.ltb_lt in H. tauto.
Qed.

Lemma Block8_invert_level : invert_level 8 Block8_invert.
Proof.
  intros a Ha. unfold Block8_invert. destruct (find _ _) as [b|] eqn:F.
  - apply find_some in F as [Hin Hb]. apply in_seq in Hin. apply Z.eqb_eq in Hb.
    assert (is_uint 8 (Z.of_nat b)) as Rb by (unfold is_uint; change (2 ^ 8) with 256; lia).
    split; [done|]. intros _. rewrite <- (proj2 (Block8_level a _ Ha Rb)), Hb. apply tf_1.
  - split; [done|]. intros Hne. destruct (Block8_inverse_exists a Ha Hne) as [E R].
    apply (find_none _ _) with (x := Z.to_nat (Block8_pow254 a)) in F; [|apply in_seq; lia].
    rewrite Z2Nat.id, E in F by lia. done.
Qed.

Lemma Block8_square_level : square_level 8 Block8_square.
Proof. intros a Ha. exact (Block8_level a a Ha Ha). Qed.

Definition tower_field (w : Z) (mul : Z → Z → Z) (square invert : Z → Z) : Prop :=
  tower_level w mul ∧ square_level w square ∧ invert_level w invert.

Lemma tower_field_step (w : nat) TAU mul square invert :
  (2 * w ≤ 128)%nat → (w < 128)%nat → tower_field (Z.of_nat w) mul square invert → is_uint (Z.of_nat w) TAU →
  forallb (λ i, phi (2 ^ Z.of_nat (i + w)) =? fmul (phi (2 ^ Z.of_nat i)) (phi (2 ^ Z.of_nat w))) (seq 0 w) = true →
  fmul (phi (2 ^ Z.of_nat w)) (phi (2 ^ Z.of_nat w)) = phi (Z.lxor (2 ^ Z.of_nat w) TAU) →
  tower_field (Z.of_nat w + Z.of_nat w) (ext_mul (Z.of_nat w) TAU mul)
    (ext_square (Z.of_nat w) TAU mul square) (ext_invert (Z.of_nat w) TAU mul invert).
Proof.
  intros Hw Hw' (Hm & Hs & Hi) HT H1 H2. split_and!;
    [by apply ext_mul_level|by apply ext_square_level|by apply ext_invert_level].
Qed.

Ltac tower_step w :=
  apply (tower_field_step w); [lia|lia|assumption|split; [discriminate|reflexivity]|vm_compute; reflexivity|vm_compute; reflexivity].

Lemma Block8_field : tower_field 8 Block8_mul Block8_square Block8_invert.
Proof. split_and!; [apply Block8_level|apply Block8_square_level|apply Block8_invert_level]. Qed.
Lemma Block16_field : tower_field 16 Block16_mul Block16_square Block16_invert.
Proof. pose proof Block8_field. tower_step 8%nat. Qed.
Lemma Block32_field : tower_field 32 Block32_mul Block32_square Block32_invert.
Proof. pose proof Block16_field. tower_step 16%nat. Qed.
Lemma Block64_field : tower_field 64 Block64_mul Block64_square Block64_invert.
Proof. pose proof Block32_field. tower_step 32%nat. Qed.
Lemma Block128_field : tower_field 128 Block128_mul Block128_square Block128_invert.
Proof. pose proof Block64_field. tower_step 64%nat. Qed.

#[global] Opaque Block128_mul Block128_square Block128_invert.

Lemma tf_onto y : is_uint 128 y → ∃ x, is_uint 128 x ∧ gv (tf x) = y.
Proof.
  intros Hy. exists (flat_to_tower_u128 y). pose proof (proj2 (basis_inverse y Hy)) as E.
  assert (is_uint 128 (flat_to_tower_u128 y)) as Hr.
  { clear E. revert y Hy. apply (bits_ind128 (λ x, is_uint 128 (flat_to_tower_u128 x))).
    - done.
    - intros i Hi.
      assert (forallb (λ i, in_range (flat_to_tower_u128 (2 ^ Z.of_nat i))) (seq 0 128) = true) as Hall by (by vm_compute).
      rewrite forallb_forall in Hall. apply in_range_uint, Hall, in_seq. lia.
    - intros a b _ _ Ha Hb. rewrite flat_to_tower_linear. apply lxor_range; [lia|done..]. }
  split; [done|]. by rewrite tf_gv.
Qed.

(** C36: on 128-bit words the change of basis is an isomorphism of the tower
    field onto the flat GCM field: it carries the exclusive or to itself, the
    Karatsuba product of [Block128] to carry-less multiplication modulo the
    GCM polynomial, the tower squaring to the flat squaring, and both round
    trips through it are the identity. *)
Theorem change_of_basis_isomorphism a b :
  is_uint 128 a → is_uint 128 b →
  tower_to_flat_u128 (Block128_add a b) = Z.lxor (tower_to_flat_u128 a) (tower_to_flat_u128 b)
  ∧ tower_to_flat_u128 (Block128_mul a b) = clmul_gcm (tower_to_flat_u128 a) (tower_to_flat_u128 b)
  ∧ tower_to_flat_u128 (Block128_square a) = square_flat_u128 (tower_to_flat_u128 a)
  ∧ flat_to_tower_u128 (tower_to_flat_u128 a) = a
  ∧ tower_to_flat_u128 (flat_to_tower_u128 a) = a.
Proof.
  intros Ha Hb. destruct Block128_field as (Hm & Hs & _).
  destruct (Hm a b Ha Hb) as [Rm Em], (Hs a Ha) as [Rs Es].
  split_and!; [apply tower_to_flat_linear| | |apply (basis_inverse a Ha)..].
  - rewrite <- !tf_gv by done. rewrite clmul_gcm_gv. by apply (f_equal gv).
  - rewrite <- !tf_gv by done. rewrite square_flat_gv. by apply (f_equal gv).
Qed.

(** [Block128] is a field: its product is commutative and associative,
    distributes over the exclusive or and has [1] as unit, [square] is the
    product with itself, and [invert] computes the inverse of every word but
    zero. *)
Theorem Block128_field_laws a b c :
  is_uint 128 a → is_uint 128 b → is_uint 128 c →
  Block128_mul a b = Block128_mul b a
  ∧ Block128_mul a (Block128_mul b c) = Block128_mul (Block128_mul a b) c
  ∧ Block128_mul a (Block128_add b c) = Block128_add (Block128_mul a b) (Block128_mul a c)
  ∧ Block128_mul 1 a = a
  ∧ Block128_square a = Block128_mul a a
  ∧ (a ≠ 0 → Block128_mul a (Block128_invert a) = 1).
Proof.
  intros Ha Hb Hc. destruct Block128_field as (Hm & Hs & Hi).
  assert (∀ x y, is_uint 128 x → is_uint 128 y → is_uint 128 (Block128_mul x y)) as HM by (intros; by apply Hm).
  assert (∀ x y, is_uint 128 x → is_uint 128 y → is_uint 128 (Block128_add x y)) as HA
    by (intros; apply lxor_range; [lia|done..]).
  assert (is_uint 128 1) as H1 by (split; [discriminate|reflexivity]).
  assert (∀ x y, is_uint 128 x → is_uint 128 y → tf (Block128_mul x y) = tf x * tf y)%gf as EM by (intros; by apply Hm).
  assert (∀ x y, is_uint 128 x → is_uint 128 y → tf (Block128_add x y) = tf x + tf y)%gf as EA by (intros; by apply tf_lxor).
  destruct (Hs a Ha) as [Rs Es], (Hi a Ha) as [Ri Ei].
  split_and!; [..|intros Hne]; (apply tf_inj; [by auto..|]); rewrite ?EM, ?EA, ?EM, ?tf_1 by auto; auto; ring.
Qed.

Lemma Block128_field_laws_witness :
  Block128_mul 3 (Block128_invert 3) = 1 ∧ Block128_mul 3 (Block128_mul 5 7) = Block128_mul (Block128_mul 3 5) 7.
Proof.
  assert (is_uint 128 3 ∧ is_uint 128 5 ∧ is_uint 128 7) as (H3 & H5 & H7) by (split_and!; unfold is_uint; lia).
  destruct (Block128_field_laws 3 5 7 H3 H5 H7) as (_ & Ha & _ & _ & _ & Hi).
  assert (3 ≠ 0) as Hne by lia. exact (conj (Hi Hne) Ha).
Defined.

Lemma change_of_basis_isomorphism_witness :
  tower_to_flat_u128 (Block128_mul 3 5) = clmul_gcm (tower_to_flat_u128 3) (tower_to_flat_u128 5).
Proof.
  assert (is_uint 128 3 ∧ is_uint 128 5) as [H3 H5] by (split_and!; unfold is_uint; lia).
  exact (proj1 (proj2 (change_of_basis_isomorphism 3 5 H3 H5))).
Defined.
