(* ===== verification/Permutation.v ===== *)
(** * The Poseidon2b permutation

    [jetsam_poseidon2b/src/native/permutation.rs]: four lanes of GF(2^128),
    the S-box [x^7], 8 full and 58 partial rounds.  The code runs in the flat
    basis, with tables converted once and multiplications by one skipped; the
    theorems relate it to the schedule written in the tower basis and show
    that it permutes the 512-bit states.  The vectorised kernels the code
    prefers on some processors are not modelled. *)

From S2P Require Import Prelude Machine Poseidon FlatField GF128 FieldRing Tower.

Definition STATE_SIZE : nat := 4.
Definition SBOX_EXPONENT : nat := 7.
Definition F_ROUNDS : nat := 8.
Definition P_ROUNDS : nat := 58.
Definition N_ROUNDS : nat := F_ROUNDS + P_ROUNDS.

Definition ROUND_CONSTANTS : list (list Z) := [
  [ 0xdd633f6e06a5c0817b27d2af33102762; 0xd18a77658c72389d7ede67313c9f7055; 0x997a6e96bd7d0dcab0d9b6f928800732;
    0x3da809279196c238bc0ea8a98abbc5e8; 0xee8cddb0be000bf6f60d0f8c4b6c8824; 0xb5b5142ba19e7199c862ffd941e2ba99;
    0x6217831dd51bd16647b901a579ae5372; 0x78235b2ac5b19c23964ff0a063b93f80; 0xe068ff9fe9823afd9b4a5f525b601946;
    0x2ee621f16a6c10ca5a39d7d3b916ddeb; 0x97297548473040d2488291e97a30bfcf; 0x73d08c988d8473753fa67e3f0c942e1d;
    0x3c58b0852ae898f3e95dad44a2761e94; 0xbcc9b81809744d356b39f47e70177302; 0x3989b857220c15b872082322c3c6a57e;
    0x5507a7fcd38c3f2efbf4177cfa10f969; 0x6a65f74212348f5fb01c9504240ab376; 0x632f003cd077fdb9c2503a2747f44377;
    0x2d274a1c69a5461bb20c137021b1c27b; 0x0f877eebba36fba915d8882f80e6c3db; 0xc2098299f65e49bdfc088775969afe43;
    0x09c8a4dcb33ca2cae26cb1d3b898c079; 0x98ffd7810c01b67ea604399e1b1fb0c2; 0x78590812ec6d5aa77213392c2e7ad97c;
    0xeb6ca360c831cc00fd3bde81a01d7b79; 0x986caf0abf5ab8a885d3dceb89aa212b; 0x287ba1672f701cea1676a324d2fc81c7;
    0x8f4c26277f0c39f09140a667b17b5f5d; 0x618142ad4cb4633f37eba97814672fdc; 0x9609ca2933115fc2174492e47a235409;
    0x784704873875fd8cd590eabd3df40f42; 0xaaabc2057d42edda2a9a41d964621d9f; 0x97bf40460e895725f9dec709b081815f;
    0xd108782b8859ced4fdc7da22137a4aa9; 0x0b91016d9effdaf58911fa1de525d78d; 0x58cb6663ddacd9e2cb4240fcd977b932;
    0x1b9087c1d7ccea7706d4adb77496033e; 0x215a86d98a49f2e81962acfa4998756b; 0x3bc2d02c1a186dd915cda7c20e1eb6b1;
    0x460df41f9d93ccba761fd9a6a2433f08; 0x621cd5c147a1add876c7f95bfb65aca8; 0xd141e0dbfb7b3b9eea22d63beb553cf7;
    0x7aa701c3e5042d0a0bb6c3ff0615bc34; 0xd731d18868d1f76827a553c52a39fc5b; 0x4401014d4879e4d01061b9e9c3a79c50;
    0x985398219fabe1f533aa6e5348ebf9a1; 0xfabd8e9eaac1ebef614ad3dcb001aa0d; 0xf5205275b41a75e340c272f0c7981334;
    0xdaeea95c0cc7e485596bfabf4dd7fa5a; 0x3cfa9e0eef0c63d6ecb67c1b1d8dde38; 0xbf8cdfda030fa3827efa9263dbc5185a;
    0xa7631f8aff18bffbaa06b6fd79a07978; 0x1de2e873fe1827f6808b01bc2d589838; 0xde80a17682dc489c2687b0415954b4c2;
    0x5e6e43a5f1086359ac92110075ccb453; 0xd61980d4a4b3780f66c2003d53d17fc3; 0xaff80dce55f27db192abc9b5f84909b9;
    0x1db0f6747d8a04a87d0687d94f84df40; 0xfa56eed1d8b1368ddf24564e167a8dd5; 0x10e59cabda38e348dcadf7bed69e52cf;
    0x512baf73001a99c97969fc258dd58272; 0x08acc22f3edd60d90aeccf5723c84521; 0xbe332a45164cceb7418e8c3b05c72a5b;
    0x6a2919e1dafd2022c6e2418bce11ca4d; 0xf10a29fcdc5bc05e3dc3730b5f759709; 0x3f8637d9957335e6158230cb9fe46c00 ];
  [ 0x1d0d63d6129df263c4b6a485569a4f2b; 0x5d2356c77f2f878f6a7e2715957abdb0; 0x08d4619b3f4fdb9e7bb63b8b2c9063fc;
    0x9f7e73286d12716d36d59b420ade4e60; 0x9a68f277965b0880957ce83d83ac5711; 0x2e586a754b342369183e0a043f9275a4;
    0x01381163278c5059c833463309bde37a; 0x0dcf364eea4f91badb9152d9f0abbfe5; 0x20b6a50f3079b4710304c4ea89fe08b5;
    0xf8bb25c43a6f52ad459b8cea23313be2; 0x09a329b41923c783cf2d907c8ccbc5ec; 0xfa67e42f683b1322aa743c240f9a28f2;
    0xb64ef6c1c961a1544aee031856fa856a; 0xd1ef370e82b51c986da3060ab97de4c4; 0x84741bd2fa8fe0cde717a53614adf127;
    0xa216220f58ea5f5656920ba504275f3e; 0x9167a8f141ff9575c4add9a99006e00b; 0x19fcba2feaf3a8ac5613e54af4afa18b;
    0xf40168aedd7515e4c35de0c335b518ca; 0x95762bfee4fbe8cdc94313814007eb48; 0x786dbea0aee0f5439c8391e24fdef054;
    0x0e1fdf4e339e34d39074eaf1feacd42e; 0xb2ec2c0cb5211a6c34a4ca42e36730c9; 0x227ae2795b8995ce5d39d1b014d87477;
    0x4457476158b221b536d33f5b9bcc4a3f; 0x1c4e1e02c3e4998ecccdcd0a5e51f337; 0xd4c3e5aa0bcdd8782ec73cd37fd9a878;
    0xe83bf60c4be09cd7b058b0a5030b3113; 0x420c01d4df7f019126d45bfd445c52a8; 0x4bbbbb5fd2b0998a611804d9c475bce1;
    0xfb7c5af02d6ae73fd5898a3e1cc00294; 0x62a46decd02e94a2df275ba3a1949a10; 0xa4bab1de8c576712d4f594040b10c361;
    0xa483b7e308d396d32bd0daf00932e532; 0x98b4e508b8b13a550693401bfd11eb84; 0x573704d688558393eb1fb06e4bf6a574;
    0xf875ecf8c57cde24d1867d11094f89ca; 0x4ef5caebb6dcffd82a613a5aa1a02837; 0xed679e5d82339df49ab7f411996dc68c;
    0xbf6ae00db5ca85fb97048e1c4a221b77; 0x04e05fc3edb9d6b1def601c4b0f42b16; 0xc4bd9ac4ff96924c3e9912cecd92ad4e;
    0x247e2f78f0c03d0c890c503976c15cc4; 0x8c05d025511479fd3d8ed077096f90f0; 0xc761d2de41f2cb5f41e2e4b626f09adc;
    0xac756b8a87b90b8482c303459e92ed7c; 0xfcd808cf36a403dd2ac611c5d305cd2a; 0x4d406d0cb19364498637b556e0798e3d;
    0x4107f92725c0f3eb17713cac57a1820d; 0xad2250eaad5213848ae09164e896e91a; 0x23b109d4af6efe5a4faf0d10d37f6a7b;
    0xb7441e6329a733be442757658a1cd4cb; 0x7bcdcacba88ca97286ec3ee0474ef729; 0xe0f9edd66a325ba61037520f76878e4d;
    0x36c1cfc047181be6f180262c4890de16; 0xdff27741e3330946a29168c7a94e153c; 0xad5cd55e64c24c56c51310440f46f343;
    0x5935f2eb3094101af559a70d3f28992f; 0xf45ab3df32418f73848b09f1a773ecfe; 0x7e83bf11ce5891b2a251bad5fb87a23d;
    0x5c12bbd89c38d09fa02c1508ee44190d; 0x782dade21e7959d801f4d7488d1e51ed; 0x4f71ab4cc0baec0b67eeb504b5167ad3;
    0x11e938ad3b6807646ec3b5350d5e8d37; 0x79a1c38a289242a8f0c1f98780966be3; 0x2a52f1eb1565faf68b63feca9671e2df ];
  [ 0xf5f3937f7893728894f69b439bb97e47; 0x20ad737e276b5c4ff565d18427ec8a8c; 0xb27d7735f8a7c5241bf101f9692c7296;
    0x8ad3e04d6ec95bfb5b3e207a3a75ce26; 0xb01ccc4c46d525a4b791c702b85ca160; 0xa58f5f390878ae0b8bea2e0737e25c76;
    0xb977a28baf50c227f73fe8ab401d8a28; 0x4dd0b088d7414f746bb3244e058bd3e8; 0x1ca44138cb625d9b16ebbcbffc57a31b;
    0x5b1bb112a988eb1469fe9b916c2600ef; 0xf07fe66b73e49aba27ea77cc97115c36; 0xc7ba631c7760c5ba11b602b9df56e735;
    0xceff1f8dc056947a863a36ff1a7dd4df; 0xf85c01c1b08336559dc12fb288bd571f; 0x7d70db9d92c969b74658f5d119717175;
    0x834adb94af4d18021e79bb4269d70b8a; 0xd8c01dc7f58ad25d1bcd2e89eea3e2b0; 0x8eb3e8be313b2a51a6f25c4d090813af;
    0x383de326701d12ff4afe5ad011c21721; 0xd5c9e25ef6902bdce354a425c2f190e5; 0x0d2ddcf5073d75a36c182f9e4b5bc077;
    0x6dbe7203612207c4802697cb5caadccc; 0xe0e35dc72a00c815c69022887f39fa9b; 0xec0d4d00c24b10c6da46f3a413edc2d0;
    0x2e8b8cd37b590ade02328d03c74108fd; 0x9fe3be419d622f40741eb5e7afe85b1b; 0x6b5c741935a2f1e891ee7489eec32267;
    0xc543334d6117e12d3507376b552abe5c; 0x365338b8fc3c8a922297803919b956ed; 0xf481109c84d5367fe3fc5049b360595a;
    0x64f84008251279a252cdd43e7b528c22; 0x90e8979a15d1a7118d2cb469d3705fcf; 0x2aca96769c54a5b16520c7351587daba;
    0x84d18eea5afee09a6acda613f9e48cb2; 0x050cca03e9a821cdb8d1a6f518222146; 0xb69c7deb76fef6d8be12ec3fedccdded;
    0xfa61984f7d3360a62197ec825c74a932; 0xb428df4f1be0053b98f9dec8f6e9ff42; 0xe27e4230c9c3e7dbd3f4cf8cebb280b8;
    0x0c981da8e2fc2e48f5d83c2f1ffa5f04; 0x1e96aa86f51004537e21ab65e16c5cbc; 0x2f0249f953d8499f045a07d23a418345;
    0x7940e03d5e101106ea59044d61b1760a; 0x9e258a46481b0561c7cf5ece46c8015a; 0x4421317f34b44137a3877444a3f2168a;
    0x8bcb37f5aed303b4470a006b60b04760; 0x9e63e3a8589c05b3eec74f4ebd5928f5; 0xf314d091c3a64a6678a485095a7d7e4b;
    0x9d7c540c4eb34eb7f125f2b43fd3918d; 0x1b29d1818b5523c0c60dfb3e10655893; 0x437c3c1637525c84edc249fde588c506;
    0x877bc0632c2fa29653b4332d990311fc; 0xa1f7cce8e2b69fae7d919233b0fb5abd; 0x0fe1856d70704af5b48b6d2aac9efd41;
    0xac3236d30e8ea2f472637c2b135b07f5; 0x78002a1d9e7c1e76ce853ef039e18344; 0xb8b6d3f0bc090cf31a6e0868c68014b4;
    0xc261fce621f394afb5e649e92acc27d8; 0xf51cd21b6313f58ae2d9457081f313e6; 0x810d999bcf1d5114065905e42c7fc2fb;
    0xfffb2cca36c6a78a8aee9759661b009f; 0x8820b3beaca00967974ccc4f4429d75d; 0xb09cace3ce1966962b6ec29a24c42524;
    0xd8d77eb12912bed91628f71439ec66b8; 0xbba6ab6bd4cae21e14c260fbb4df002b; 0xf6a13143475b6a3dc57efce3583156c8 ];
  [ 0xe122668c9c2c7bb8e4018b5c4711335f; 0x50373667849ce5d4b22247e79b2748e5; 0x5982a4c83b956cd4383ebccd0ac4a84e;
    0xf5a04ef535c80104350205905f0a2fec; 0x46c46043423009f113dea4b987049997; 0xa7e3c342f4662efc26aa16cfa4c1bfa0;
    0x520aebe71106638c6a7640f91269427e; 0xce52ece128e1ceca628f8cbf2a67cee4; 0x196e1fe7c1da2ad7fe249d786fa17d65;
    0xa99e0fbcbc9d8d31b7774bb9a6507c83; 0x4b27146542b6e072343c28ed0e18f380; 0x90e3bfd0d91156f2a3facfcabfe15793;
    0xd360d9a76426a718c813d7724c09481e; 0x667294d8fac4e5bb71cc5f4d680a98b2; 0xc2fd28f9c85a88c9d30887f54f09534d;
    0xf0db651a4ff92d467e6562bd22c93578; 0xbc50d03132aa73f1136d72a2f388f7f9; 0xf8472fefff225f569f09f15c6103e476;
    0x3dd3ad1e601eb83c35e1b14a17f569d1; 0xaa248f97e722388115d6261dda24a3c0; 0x7d8cea24d06c3e4366703c3538866bcd;
    0xef673bc2a136ba2a78540dbaed6a45bb; 0x0330b6a43a113b17a8fc4d4032eeddae; 0xc8ef198d62cdbf2a807d80af93d893f3;
    0xe326d058cca4aa26a1ef4dae039a610f; 0x1651bd9a676a77d4369930fc27ba69c8; 0x6b679acde232e4235234ac91220dff28;
    0x131918b847ff6924aa444e4e8efd4bab; 0x3ad310f56622d666d62c04342b3cc5a5; 0x2edec79aa53a53d562141b46b99b2058;
    0x34e5cb9101446b2b5c499762f7d46abe; 0x52513e22dba808efbb3bf47a94a88f81; 0xc0f29e45315271c45796faf732efc43c;
    0x65e5552f40f61fb208287137f2de45b5; 0xe6197aa1dd4a706defb96091af828a29; 0x67d02f3792a56a458861b9af6acf362c;
    0x73a80fe745b392c3d89660e121e712e4; 0x41a879ac1addfaf71d3b26c53790194e; 0x6f844109900b207dca4617a2d7043979;
    0xd0cb1cad47706002e8b4d35f40e8dcc8; 0x13905117321464b0d3cbbfe943b2eb98; 0x3d5d31d5d5b349214924daa0ba21ba30;
    0xb384cb1abae18e331f3b53a8a49f7d97; 0x511e6eb04095b91d383743139c51a8f2; 0xa6ec01ff36466378b24ad7a03f16fdb9;
    0xce698232d87dfab15cb5b9b53e3cebc8; 0xfbc1cbfcce458d5dfd4185cfba042eea; 0x9108463790bb81d14ac79900ca47cecc;
    0x26bfd320e892875406e5778829379745; 0x1f623849a583a1e7362988bd9009f18c; 0xc9c126e940223f2cd111bae28a01a99d;
    0x26446912691a6dfe437bfe6a9d26e1e9; 0x74a4c62b19e82a089d6d918d808bf579; 0x9921b8b9793e933109500004d54e74eb;
    0xe7cf2900b28e43c5e29b1f39bb93a4d8; 0xf9df17307a9e1265a179ebbb42242f66; 0x20274a8176c96df4816780c0ef70e3df;
    0x4820279fb04ff14e1617f93aead3bba9; 0x65b92e904cfff0c12fffbb08e5ddee37; 0xb1cf02f0f40139dad4786c00c1a048d6;
    0x9b4de5e819f0345a80ad8c0c38d1b945; 0x74399521e8dec010cf78fedd0cacdef0; 0x759bd308ba3b2f781207f6a7699f2d16;
    0x1e11c605797dfaf3d9889678cd3a2405; 0xac9f2be9042607db49f27e9877f17355; 0x824c314328aef398060428811fb5d4b0 ]
].

Definition MDS_FULL : list (list Z) := [
  [0x5; 0x7; 0x1; 0x3];
  [0x4; 0x6; 0x1; 0x1];
  [0x1; 0x3; 0x5; 0x7];
  [0x1; 0x1; 0x4; 0x6]
].

Definition MDS_PARTIAL : list (list Z) := [
  [0x20; 0x00000001; 0x00000001; 0x00000001];
  [0x00000001; 0x2000; 0x00000001; 0x00000001];
  [0x00000001; 0x00000001; 0x200; 0x00000001];
  [0x00000001; 0x00000001; 0x00000001; 0x800]
].

Record FlatTables := mkFlatTables {
  ft_rc : list (list Z);
  ft_mds_full : list (list Z);
  ft_mds_partial : list (list Z);
  ft_mds_full_is_one : list (list bool);
  ft_mds_partial_is_one : list (list bool);
}.

(** A function on every entry of a table. *)
Definition map_rows {A} (f : Z → A) (m : list (list Z)) : list (list A) := (λ row : list Z, f <$> row) <$> m.

Definition flat_tables : FlatTables := {|
  ft_rc := map_rows tower_to_flat_u128 ROUND_CONSTANTS;
  ft_mds_full := map_rows tower_to_flat_u128 MDS_FULL;
  ft_mds_partial := map_rows tower_to_flat_u128 MDS_PARTIAL;
  ft_mds_full_is_one := map_rows (λ c, c =? 1) MDS_FULL;
  ft_mds_partial_is_one := map_rows (λ c, c =? 1) MDS_PARTIAL;
|}.

(** One row of a matrix against the state. *)
Definition mds_row (is_one : list bool) (coef input : list Z) : Z :=
  foldl (λ out '(one, c, x), if (one : bool) then Z.lxor out x else Z.lxor out (clmul_gcm x c))
    0 (zip (zip is_one coef) input).

Definition apply_mds_full_flat (state : list Z) (tables : FlatTables) : list Z :=
  zip_with (λ is_one coef, mds_row is_one coef state) (ft_mds_full_is_one tables) (ft_mds_full tables).

Definition apply_mds_partial_flat (state : list Z) (tables : FlatTables) : list Z :=
  zip_with (λ is_one coef, mds_row is_one coef state) (ft_mds_partial_is_one tables) (ft_mds_partial tables).

Definition sbox_x7_flat_u128 (x : Z) : Z :=
  let x2 := square_flat_u128 x in
  let x4 := square_flat_u128 x2 in
  let x6 := clmul_gcm x x2 in
  clmul_gcm x6 x4.

Definition sbox_x7 (x : Z) : Z :=
  flat_to_tower_u128 (sbox_x7_flat_u128 (tower_to_flat_u128 x)).

(** [rc[i][r]] *)
Definition rc_at (rc : list (list Z)) (i r : nat) : Z := default 0 (rc !! i ≫= λ row, row !! r).

(** [!(F_ROUNDS / 2..F_ROUNDS / 2 + P_ROUNDS).contains(&r)] *)
Definition is_full_round (r : nat) : bool :=
  negb ((F_ROUNDS / 2 <=? r)%nat && (r <? F_ROUNDS / 2 + P_ROUNDS)%nat).

Definition flat_round (tables : FlatTables) (flat : list Z) (r : nat) : list Z :=
  if is_full_round r
  then apply_mds_full_flat (imap (λ i x, sbox_x7_flat_u128 (Z.lxor x (rc_at (ft_rc tables) i r))) flat) tables
  else apply_mds_partial_flat (alter (λ x, sbox_x7_flat_u128 (Z.lxor x (rc_at (ft_rc tables) 0 r))) 0%nat flat) tables.

Definition permute_flat_u128 (flat : list Z) : list Z :=
  foldl (flat_round flat_tables) (apply_mds_full_flat flat flat_tables) (seq 0 N_ROUNDS).

(** The four lanes as an array and back. *)
Definition lanes_list (state : lanes) : list Z := let '(a, b, c, d) := state in [a; b; c; d].
Definition list_lanes (l : list Z) : lanes := (nth 0 l 0, nth 1 l 0, nth 2 l 0, nth 3 l 0).

(** [Poseidon2bPermutation::permute_mut] *)
Definition Poseidon2b_permute_mut (state : lanes) : lanes :=
  let flat := tower_to_flat_u128 <$> lanes_list state in
  list_lanes (flat_to_tower_u128 <$> permute_flat_u128 flat).

(** ** The schedule in the tower basis *)

Definition tower_sbox_x7_reference (x : Z) : Z :=
  let x2 := Block128_mul x x in
  let x4 := Block128_mul x2 x2 in
  let x3 := Block128_mul x2 x in
  Block128_mul x4 x3.

Definition tower_mds_row (row input : list Z) : Z :=
  foldl (λ out '(c, x), if c =? 1 then Block128_add out x else Block128_add out (Block128_mul c x))
    0 (zip row input).

Definition apply_mds_full_tower_reference (state : list Z) : list Z := (λ row, tower_mds_row row state) <$> MDS_FULL.
Definition apply_mds_partial_tower_reference (state : list Z) : list Z := (λ row, tower_mds_row row state) <$> MDS_PARTIAL.

Definition tower_round (state : list Z) (r : nat) : list Z :=
  if is_full_round r
  then apply_mds_full_tower_reference
         (tower_sbox_x7_reference <$> imap (λ i x, Block128_add x (rc_at ROUND_CONSTANTS i r)) state)
  else apply_mds_partial_tower_reference
         (alter (λ x, tower_sbox_x7_reference (Block128_add x (rc_at ROUND_CONSTANTS 0 r))) 0%nat state).

Definition permute_mut_tower_reference (state : lanes) : lanes :=
  list_lanes (foldl tower_round (apply_mds_full_tower_reference (lanes_list state)) (seq 0 N_ROUNDS)).

(** ** The schedule over the field *)

#[local] Open Scope gf_scope.

Definition gmds_row (row s : list gf) : gf := foldl (λ out '(c, x), out + c * x) gzero (zip row s).
Definition gmds (m : list (list gf)) (s : list gf) : list gf := (λ row, gmds_row row s) <$> m.
Definition gsbox (x : gf) : gf := gpow x 7.

Definition gf_matrix (m : list (list Z)) : list (list gf) := map_rows tf m.
Definition grc (i r : nat) : gf := tf (rc_at ROUND_CONSTANTS i r).

Definition ground (s : list gf) (r : nat) : list gf :=
  if is_full_round r
  then gmds (gf_matrix MDS_FULL) (imap (λ i x, gsbox (x + grc i r)) s)
  else gmds (gf_matrix MDS_PARTIAL) (alter (λ x, gsbox (x + grc 0 r)) 0%nat s).

Definition gpermute (s : list gf) : list gf := foldl ground (gmds (gf_matrix MDS_FULL) s) (seq 0 N_ROUNDS).

Definition words (l : list Z) : Prop := Forall (is_uint 128) l.

Lemma words_check l : forallb in_range l = true → words l.
Proof.
  intros Hl. rewrite List.forallb_forall in Hl. apply Forall_forall. intros z Hz.
  apply in_range_uint, Hl. by apply list_elem_of_In.
Qed.

Lemma matrix_words : Forall words MDS_FULL ∧ Forall words MDS_PARTIAL ∧ Forall words ROUND_CONSTANTS.
Proof.
  assert (∀ m, forallb (λ row, forallb in_range row) m = true → Forall words m) as H.
  { intros m Hm. rewrite List.forallb_forall in Hm. apply Forall_forall. intros row Hrow.
    apply words_check, Hm. by apply list_elem_of_In. }
  split_and!; apply H; vm_compute; reflexivity.
Qed.

Lemma rc_at_range i r : is_uint 128 (rc_at ROUND_CONSTANTS i r).
Proof.
  destruct matrix_words as (_ & _ & H). unfold rc_at.
  assert (is_uint 128 0) as H0 by (unfold is_uint; lia).
  destruct (ROUND_CONSTANTS !! i) as [row|] eqn:Hr; [|done]. cbn.
  destruct (row !! r) as [z|] eqn:Hz; [|done]. cbn.
  eapply Forall_lookup_1 in Hr; [|exact H]. by eapply Forall_lookup_1 in Hz.
Qed.

(** ** The flat schedule *)

Lemma gv_add a b : Z.lxor (gv a) (gv b) = gv (a + b).
Proof. done. Qed.

Lemma sbox_flat_gv x : sbox_x7_flat_u128 (gv x) = gv (gsbox x).
Proof.
  unfold sbox_x7_flat_u128. rewrite !square_flat_gv, !clmul_gcm_gv. f_equal. unfold gsbox. cbn [gpow]. ring.
Qed.

Lemma mds_row_gv row s :
  words row →
  mds_row ((λ c, (c =? 1)%Z) <$> row) (tower_to_flat_u128 <$> row) (gv <$> s) = gv (gmds_row (tf <$> row) s).
Proof.
  unfold mds_row, gmds_row. intros Hrow. assert (0%Z = gv gzero) as E by done. rewrite E. generalize gzero. clear E.
  revert s. induction Hrow as [|c row Hc Hrow IH]; intros [|x s] acc; [done..|].
  cbn [fmap list_fmap zip zip_with foldl]. rewrite <- IH. f_equal.
  destruct (Z.eqb_spec c 1) as [->|Hne].
  - rewrite tf_1, gv_add. f_equal. ring.
  - rewrite <- (tf_gv c Hc), clmul_gcm_gv, gv_add. f_equal. ring.
Qed.

Lemma mds_flat_gv m s :
  Forall words m →
  zip_with (λ is_one coef, mds_row is_one coef (gv <$> s))
    (map_rows (λ c, (c =? 1)%Z) m) (map_rows tower_to_flat_u128 m)
  = gv <$> gmds (gf_matrix m) s.
Proof.
  induction 1 as [|row m Hrow Hm IH]; [done|]. unfold gf_matrix, map_rows, gmds in *. cbn [fmap list_fmap zip_with].
  f_equal; [by apply mds_row_gv|done].
Qed.

Lemma apply_mds_full_gv s : apply_mds_full_flat (gv <$> s) flat_tables = gv <$> gmds (gf_matrix MDS_FULL) s.
Proof. exact (mds_flat_gv MDS_FULL s (proj1 matrix_words)). Qed.

Lemma apply_mds_partial_gv s : apply_mds_partial_flat (gv <$> s) flat_tables = gv <$> gmds (gf_matrix MDS_PARTIAL) s.
Proof. exact (mds_flat_gv MDS_PARTIAL s (proj1 (proj2 matrix_words))). Qed.

Lemma rc_flat i r : rc_at (ft_rc flat_tables) i r = gv (grc i r).
Proof.
  unfold grc. rewrite tf_gv by apply rc_at_range. unfold rc_at, flat_tables, ft_rc, map_rows. rewrite list_lookup_fmap.
  destruct (ROUND_CONSTANTS !! i) as [row|]; cbn; [|done]. rewrite list_lookup_fmap. by destruct (row !! r).
Qed.

Lemma flat_round_gv s r : flat_round flat_tables (gv <$> s) r = gv <$> ground s r.
Proof.
  unfold flat_round, ground. destruct (is_full_round r).
  - rewrite <- apply_mds_full_gv. f_equal.
    assert (imap (λ i x, sbox_x7_flat_u128 (Z.lxor x (rc_at (ft_rc flat_tables) i r))) (gv <$> s)
      = gv <$> imap (λ i x, gsbox (x + grc i r)) s) as ->; [|done].
    rewrite imap_fmap, fmap_imap. apply imap_ext. intros i x _. cbn. by rewrite rc_flat, gv_add, sbox_flat_gv.
  - rewrite <- apply_mds_partial_gv.
    assert (alter (λ x, sbox_x7_flat_u128 (Z.lxor x (rc_at (ft_rc flat_tables) 0 r))) 0%nat (gv <$> s)
      = gv <$> alter (λ x, gsbox (x + grc 0 r)) 0%nat s) as ->; [|done].
    destruct s as [|x s]; [done|]. cbn [alter list_alter fmap list_fmap]. by rewrite rc_flat, gv_add, sbox_flat_gv.
Qed.

Lemma permute_flat_gv s : permute_flat_u128 (gv <$> s) = gv <$> gpermute s.
Proof.
  unfold permute_flat_u128, gpermute. rewrite apply_mds_full_gv. generalize (gmds (gf_matrix MDS_FULL) s). intros s'.
  revert s'. induction (seq 0 N_ROUNDS) as [|r l IH]; intros s'; [done|].
  cbn [foldl]. by rewrite flat_round_gv, IH.
Qed.

(** ** The tower schedule *)

Lemma tower_mul_ok a b :
  is_uint 128 a → is_uint 128 b → is_uint 128 (Block128_mul a b) ∧ tf (Block128_mul a b) = tf a * tf b.
Proof. apply Block128_field. Qed.

Lemma tower_add_ok a b :
  is_uint 128 a → is_uint 128 b → is_uint 128 (Block128_add a b) ∧ tf (Block128_add a b) = tf a + tf b.
Proof. intros Ha Hb. split; [apply lxor_range; [lia|done..]|by apply tf_lxor]. Qed.

Lemma tower_sbox_ok x :
  is_uint 128 x → is_uint 128 (tower_sbox_x7_reference x) ∧ tf (tower_sbox_x7_reference x) = gsbox (tf x).
Proof.
  intros Hx. unfold tower_sbox_x7_reference.
  destruct (tower_mul_ok x x Hx Hx) as [R2 E2]. destruct (tower_mul_ok _ _ R2 R2) as [R4 E4].
  destruct (tower_mul_ok _ x R2 Hx) as [R3 E3]. destruct (tower_mul_ok _ _ R4 R3) as [R7 E7].
  split; [done|]. rewrite E7, E4, E3, E2. unfold gsbox. cbn [gpow]. ring.
Qed.

Lemma tower_row_ok row s :
  words row → words s → is_uint 128 (tower_mds_row row s) ∧ tf (tower_mds_row row s) = gmds_row (tf <$> row) (tf <$> s).
Proof.
  intros Hrow Hs. unfold tower_mds_row, gmds_row.
  set (step := λ out '(c, x), if (c =? 1)%Z then Block128_add out x else _). set (gstep := λ out '(c, x), _).
  assert (∀ acc, is_uint 128 acc → is_uint 128 (foldl step acc (zip row s))
    ∧ tf (foldl step acc (zip row s)) = foldl gstep (tf acc) (zip (tf <$> row) (tf <$> s))) as H;
    [|rewrite <- tf_0; apply H; unfold is_uint; lia].
  revert s Hs. induction Hrow as [|c row Hc Hrow IH]; intros s Hs acc Hacc; [done|].
  destruct Hs as [|x s Hx Hs]; [done|]. cbn [fmap list_fmap zip zip_with foldl step gstep].
  destruct (Z.eqb_spec c 1) as [->|Hne].
  - destruct (tower_add_ok acc x Hacc Hx) as [R E]. destruct (IH s Hs _ R) as [R' E'].
    split; [done|]. rewrite E', E, tf_1. f_equal. ring.
  - destruct (tower_mul_ok c x Hc Hx) as [Rm Em]. destruct (tower_add_ok acc _ Hacc Rm) as [R E].
    destruct (IH s Hs _ R) as [R' E']. split; [done|]. by rewrite E', E, Em.
Qed.

Lemma tower_mds_ok m s :
  Forall words m → words s →
  words ((λ row, tower_mds_row row s) <$> m) ∧ tf <$> ((λ row, tower_mds_row row s) <$> m) = gmds (gf_matrix m) (tf <$> s).
Proof.
  intros Hm Hs. induction Hm as [|row m Hrow Hm IH]; [by split; [constructor|]|]. unfold gmds, gf_matrix, map_rows in *.
  cbn [fmap list_fmap]. destruct (tower_row_ok row s Hrow Hs) as [R E], IH as [Rs Es].
  split; [by constructor|by rewrite E; f_equal].
Qed.

(** A function on words that the change of basis carries to [g]. *)
Definition carries (f : Z → Z) (g : gf → gf) : Prop :=
  ∀ x, is_uint 128 x → is_uint 128 (f x) ∧ tf (f x) = g (tf x).

Lemma carries_imap f g s :
  (∀ i : nat, carries (f i) (g i)) → words s → words (imap f s) ∧ tf <$> imap f s = imap g (tf <$> s).
Proof.
  intros Hf Hs. revert f g Hf. induction Hs as [|x s Hx Hs IH]; intros f g Hf; [by split; [constructor|]|]. rewrite !imap_cons.
  destruct (Hf 0%nat x Hx) as [R E], (IH (f ∘ S) (g ∘ S)) as [Rs Es]; [intros i; apply Hf|].
  split; [by constructor|]. cbn [fmap list_fmap]. by rewrite imap_cons, E, Es.
Qed.

Lemma round_input i r :
  carries (λ x, tower_sbox_x7_reference (Block128_add x (rc_at ROUND_CONSTANTS i r))) (λ x, gsbox (x + grc i r)).
Proof.
  intros x Hx. destruct (tower_add_ok x _ Hx (rc_at_range i r)) as [R E].
  destruct (tower_sbox_ok _ R) as [R' E']. split; [done|]. by rewrite E', E.
Qed.

Lemma tower_round_ok s r :
  words s → words (tower_round s r) ∧ tf <$> tower_round s r = ground (tf <$> s) r.
Proof.
  intros Hs. destruct matrix_words as (Hf & Hp & _). unfold tower_round, ground. destruct (is_full_round r).
  - destruct (carries_imap (λ i x, tower_sbox_x7_reference (Block128_add x (rc_at ROUND_CONSTANTS i r)))
      (λ i x, gsbox (x + grc i r)) s) as [R E]; [intros i; apply round_input|done|].
    rewrite fmap_imap. rewrite <- E. by apply tower_mds_ok.
  - destruct Hs as [|x s Hx Hs]; cbn [alter list_alter fmap list_fmap].
    + by apply (tower_mds_ok _ []); [|constructor].
    + destruct (round_input 0 r x Hx) as [R E]. rewrite <- E. apply (tower_mds_ok _ (_ :: s)); [done|by constructor].
Qed.

Lemma tower_permute_ok s :
  words s →
  words (foldl tower_round (apply_mds_full_tower_reference s) (seq 0 N_ROUNDS))
  ∧ tf <$> foldl tower_round (apply_mds_full_tower_reference s) (seq 0 N_ROUNDS) = gpermute (tf <$> s).
Proof.
  intros Hs. unfold gpermute. destruct (tower_mds_ok MDS_FULL s (proj1 matrix_words) Hs) as [R <-].
  unfold apply_mds_full_tower_reference. revert R. generalize ((λ row, tower_mds_row row s) <$> MDS_FULL).
  induction (seq 0 N_ROUNDS) as [|r l IH]; intros s' Hs'; [done|]. cbn [foldl].
  destruct (tower_round_ok s' r Hs') as [R <-]. by apply IH.
Qed.

(** ** The permutation is a bijection *)

(** The inverses of the two matrices, in the flat basis. *)
Definition MDS_FULL_INVERSE : list (list Z) := [
  [ 0xf72dd6ca714abd6e6afd8694e8dda26f; 0x7534634307ce7cbe88fd3d5cb6e7dff8;
    0x2491f6f7b4d138070ce99cd7989c9340; 0xd3bc203dc59b856966141a437041312f ];
  [ 0xf72dd6ca714abd6e6afd8694e8dda26f; 0xf72dd6ca714abd6e6afd8694e8dda26f;
    0xa688437ec255f9d7eee9271fc6a6eed7; 0x51a595b4b31f44b98414a18b2e7b4cb8 ];
  [ 0x2491f6f7b4d138070ce99cd7989c9340; 0xd3bc203dc59b856966141a437041312f;
    0xf72dd6ca714abd6e6afd8694e8dda26f; 0x7534634307ce7cbe88fd3d5cb6e7dff8 ];
  [ 0xa688437ec255f9d7eee9271fc6a6eed7; 0x51a595b4b31f44b98414a18b2e7b4cb8;
    0xf72dd6ca714abd6e6afd8694e8dda26f; 0xf72dd6ca714abd6e6afd8694e8dda26f ]
].
Definition MDS_PARTIAL_INVERSE : list (list Z) := [
  [ 0x92d8ae245b1fe0dcaeee2d7fa6c7dcb5; 0x68777e699d8d6be656a00245547d0b52;
    0x5866f1cbbd3f1ed9909f60b8d0ca2942; 0x96390edeac76ad2665fdfe52a21ea9bf ];
  [ 0x68777e699d8d6be656a00245547d0b52; 0x71badb02dd5f225cc10283c56526361d;
    0x34aa1e5ab4f26bb9fa5442e1b66af06d; 0x5067d0d3e7ac39728a825ae69e2f2b66 ];
  [ 0x5866f1cbbd3f1ed9909f60b8d0ca2942; 0x34aa1e5ab4f26bb9fa5442e1b66af06d;
    0xcf30197b95750201dc2d740cd32f1435; 0xdb8e9642900e568c5fd3d40ac12cca34 ];
  [ 0x96390edeac76ad2665fdfe52a21ea9bf; 0x5067d0d3e7ac39728a825ae69e2f2b66;
    0xdb8e9642900e568c5fd3d40ac12cca34; 0x9efed16682281311e71fc3e671de33e0 ]
].

Definition of_word (z : Z) : gf :=
  match Sumbool.sumbool_of_bool (in_range z) with left H => mkgf z H | right _ => gzero end.

Lemma of_word_gv z : in_range z = true → gv (of_word z) = z.
Proof. intros Hz. unfold of_word. destruct (Sumbool.sumbool_of_bool _); [done|congruence]. Qed.

Definition dot4 (a b : list Z) : Z := foldl (λ out '(x, y), Z.lxor out (fmul x y)) 0%Z (zip a b).

Lemma dot4_gv a b :
  forallb in_range a = true → forallb in_range b = true →
  gv (gmds_row (of_word <$> a) (of_word <$> b)) = dot4 a b.
Proof.
  unfold gmds_row, dot4. intros Ha Hb.
  assert (∀ acc, gv (foldl (λ out '(x, y), out + x * y) acc (zip (of_word <$> a) (of_word <$> b)))
    = foldl (λ out '(x, y), Z.lxor out (fmul x y)) (gv acc) (zip a b)) as H; [|apply H].
  revert b Hb. induction a as [|x a IH]; intros [|y b] Hb acc; [done..|]. cbn [forallb] in *.
  apply andb_true_iff in Ha as [Hx Ha], Hb as [Hy Hb]. cbn [fmap list_fmap zip zip_with foldl].
  rewrite IH by done. do 2 f_equal. cbn [gadd gtimes gv of_uint]. f_equal. rewrite !of_word_gv by done.
  by apply gmul_fmul; apply in_range_uint.
Qed.

Definition is_matrix4 (m : list (list Z)) : bool :=
  (length m =? 4)%nat && forallb (λ row, (length row =? 4)%nat && forallb in_range row) m.

(** [a] times [b] is the identity, for 4 by 4 matrices over the flat words. *)
Definition column (m : list (list Z)) (j : nat) : list Z := (λ row, nth j row 0%Z) <$> m.
Definition inverse_check (a b : list (list Z)) : bool :=
  is_matrix4 a && is_matrix4 b
  && forallb (λ i, forallb (λ j, (dot4 (nth i a []) (column b j) =? if (i =? j)%nat then 1 else 0)%Z) (seq 0 4)) (seq 0 4).

Ltac list4 l :=
  destruct l as [|? [|? [|? [|? [|? ?]]]]]; try discriminate.

Lemma row_times_matrix row b s :
  length row = 4%nat → is_matrix4 b = true → length s = 4%nat →
  gmds_row row (gmds (map_rows of_word b) s)
  = gmds_row ((λ j, gmds_row row (of_word <$> column b j)) <$> seq 0 4) s.
Proof.
  intros Hrow Hb Hs. apply andb_true_iff in Hb as [Hb Hrows]. apply Nat.eqb_eq in Hb. list4 b.
  cbn [forallb] in Hrows. rewrite !andb_true_iff, !Nat.eqb_eq in Hrows.
  destruct Hrows as ((H0 & _) & (H1 & _) & (H2 & _) & (H3 & _) & _).
  list4 row. list4 s. repeat match goal with H : length ?l = 4%nat |- _ => is_var l; list4 l; clear H end.
  unfold gmds, gmds_row, map_rows, column. cbn [fmap list_fmap zip zip_with foldl nth seq].
  ring.
Qed.

Lemma column_in_range b j : is_matrix4 b = true → forallb in_range (column b j) = true.
Proof.
  intros Hb. apply andb_true_iff in Hb as [_ Hb]. unfold column.
  induction b as [|row b IH]; [done|]. cbn [forallb fmap list_fmap] in *.
  rewrite !andb_true_iff in Hb. destruct Hb as [[_ Hrow] Hb]. rewrite IH, andb_true_r by done.
  clear -Hrow. revert j. induction row as [|x row IH]; intros [|j]; cbn [nth forallb] in *; [done..| |];
    apply andb_true_iff in Hrow as [Hx Hrow]; [done|by apply IH].
Qed.

Lemma inverse_row a b i j :
  inverse_check a b = true → (i < 4)%nat → (j < 4)%nat →
  gmds_row (of_word <$> nth i a []) (of_word <$> column b j) = if (i =? j)%nat then gone else gzero.
Proof.
  unfold inverse_check. rewrite !andb_true_iff. intros [[Ha Hb] H] Hi Hj.
  rewrite forallb_forall in H. specialize (H i ltac:(apply in_seq; lia)).
  rewrite forallb_forall in H. specialize (H j ltac:(apply in_seq; lia)). apply Z.eqb_eq in H.
  apply gf_eq. rewrite dot4_gv, H; [by destruct (i =? j)%nat| |by apply column_in_range].
  apply andb_true_iff in Ha as [Hl Ha]. apply Nat.eqb_eq in Hl. rewrite forallb_forall in Ha.
  specialize (Ha (nth i a []) ltac:(apply nth_In; lia)). by apply andb_true_iff in Ha as [_ Ha].
Qed.

Lemma gmds_inverse a b s :
  inverse_check a b = true → length s = 4%nat →
  gmds (map_rows of_word a) (gmds (map_rows of_word b) s) = s.
Proof.
  intros Hab Hs. pose proof (λ i j, inverse_row a b i j Hab) as E.
  unfold inverse_check in Hab. rewrite !andb_true_iff in Hab. destruct Hab as [[Ha Hb] _].
  apply andb_true_iff in Ha as [Hl Ha]. apply Nat.eqb_eq in Hl. rewrite forallb_forall in Ha.
  assert (∀ i, (i < 4)%nat → gmds_row (of_word <$> nth i a []) (gmds (map_rows of_word b) s) = nth i s gzero) as H.
  { intros i Hi. rewrite row_times_matrix; [|rewrite length_fmap|done|done].
    - cbn [seq fmap list_fmap]. rewrite !E by lia. list4 s.
      destruct i as [|[|[|[|i]]]]; [..|lia]; unfold gmds_row; cbn [zip zip_with foldl Nat.eqb nth]; ring.
    - specialize (Ha (nth i a []) ltac:(apply nth_In; lia)). apply andb_true_iff in Ha as [Ha _]. by apply Nat.eqb_eq. }
  list4 a. list4 s. pose proof (H 0%nat ltac:(lia)) as E0. pose proof (H 1%nat ltac:(lia)) as E1.
  pose proof (H 2%nat ltac:(lia)) as E2. pose proof (H 3%nat ltac:(lia)) as E3. cbn [nth] in *.
  set (t := gmds (map_rows of_word b) _) in *. unfold gmds, map_rows. cbn [fmap list_fmap]. by rewrite E0, E1, E2, E3.
Qed.

(** Maps between states of four lanes with a two-sided inverse. *)
Definition bijective4 (f : list gf → list gf) : Prop :=
  ∃ g, ∀ s, length s = 4%nat →
    length (f s) = 4%nat ∧ length (g s) = 4%nat ∧ g (f s) = s ∧ f (g s) = s.

Lemma bijective4_comp f g : bijective4 f → bijective4 g → bijective4 (λ s, g (f s)).
Proof.
  intros [f' Hf] [g' Hg]. exists (λ s, f' (g' s)). intros s Hs.
  destruct (Hf s Hs) as (Lf & Lf' & E1 & E2), (Hg s Hs) as (Lg & Lg' & E3 & E4).
  destruct (Hg (f s) Lf) as (L1 & _ & E5 & _), (Hf (g' s) Lg') as (L2 & L3 & E6 & E7).
  split_and!; [done..|by rewrite E5|by rewrite E7].
Qed.

Lemma bijective4_fold {A} (f : A → list gf → list gf) l :
  (∀ x, bijective4 (f x)) → bijective4 (λ s, foldl (λ s x, f x s) s l).
Proof.
  intros Hf. induction l as [|x l IH]; cbn [foldl].
  - exists (λ s, s). auto.
  - apply (bijective4_comp (f x) (λ s, foldl (λ s x, f x s) s l)); [apply Hf|done].
Qed.

Lemma bijective4_gmds a b :
  inverse_check a b = true → inverse_check b a = true → bijective4 (gmds (map_rows of_word b)).
Proof.
  intros Hab Hba. exists (gmds (map_rows of_word a)). intros s Hs.
  assert (∀ m m', inverse_check m m' = true → length m = 4%nat) as HL.
  { intros m m' H. unfold inverse_check, is_matrix4 in H. rewrite !andb_true_iff, !Nat.eqb_eq in H. tauto. }
  unfold gmds at 1 2, map_rows at 1 2. rewrite !length_fmap. split_and!; [by eapply HL..| |]; by apply gmds_inverse.
Qed.

Lemma gf_matrix_of_word m : Forall words m → gf_matrix m = map_rows of_word (map_rows tower_to_flat_u128 m).
Proof.
  unfold gf_matrix, map_rows. intros Hm. rewrite <- list_fmap_compose. apply list_fmap_ext. intros i row Hrow.
  cbn. rewrite <- list_fmap_compose. apply list_fmap_ext. intros j x Hx.
  eapply Forall_lookup_1 in Hrow; [|exact Hm]. eapply Forall_lookup_1 in Hx; [|exact Hrow].
  apply gf_eq. cbn. rewrite tf_gv, of_word_gv; [done| |done]. by apply in_range_uint, phi_range.
Qed.

Lemma bijective4_full : bijective4 (gmds (gf_matrix MDS_FULL)).
Proof.
  rewrite gf_matrix_of_word by apply matrix_words. apply (bijective4_gmds MDS_FULL_INVERSE); vm_compute; reflexivity.
Qed.

Lemma bijective4_partial : bijective4 (gmds (gf_matrix MDS_PARTIAL)).
Proof.
  rewrite gf_matrix_of_word by apply matrix_words. apply (bijective4_gmds MDS_PARTIAL_INVERSE); vm_compute; reflexivity.
Qed.

Lemma gsbox_inverse : ∃ root, ∀ x, root (gsbox x) = x ∧ gsbox (root x) = x.
Proof.
  destruct seventh_root as [e He]. exists (λ x, gpow x e). intros x. unfold gsbox. split; [apply He|].
  by rewrite <- gpow_mul, Nat.mul_comm, gpow_mul.
Qed.

Lemma keyed_sbox_inverse :
  ∃ root, ∀ c x, root (gsbox (x + c)) + c = x ∧ gsbox (root x + c + c) = x.
Proof.
  destruct gsbox_inverse as [root Hroot]. exists root. intros c x. rewrite (proj1 (Hroot _)).
  split; [ring|]. replace (root x + c + c) with (root x) by ring. apply Hroot.
Qed.

Lemma bijective4_imap (c : nat → gf) : bijective4 (imap (λ i x, gsbox (x + c i))).
Proof.
  destruct keyed_sbox_inverse as [root Hroot]. exists (imap (λ i y, root y + c i)). intros s Hs. list4 s.
  cbn [imap]. split_and!; [done..| |]; unfold compose; by rewrite ?(λ c x, proj1 (Hroot c x)), ?(λ c x, proj2 (Hroot c x)).
Qed.

Lemma bijective4_alter (c : gf) : bijective4 (alter (λ x, gsbox (x + c)) 0%nat).
Proof.
  destruct keyed_sbox_inverse as [root Hroot]. exists (alter (λ y, root y + c) 0%nat). intros s Hs. list4 s.
  cbn [alter list_alter]. split_and!; [done..| |]; by rewrite ?(λ c x, proj1 (Hroot c x)), ?(λ c x, proj2 (Hroot c x)).
Qed.

Lemma bijective4_gpermute : bijective4 gpermute.
Proof.
  apply (bijective4_comp (gmds (gf_matrix MDS_FULL)) (λ s, foldl ground s (seq 0 N_ROUNDS)));
    [apply bijective4_full|]. apply (bijective4_fold (λ r s, ground s r)). intros r. unfold ground.
  destruct (is_full_round r).
  - apply (bijective4_comp (imap _)); [apply (bijective4_imap (λ i, grc i r))|apply bijective4_full].
  - apply (bijective4_comp (alter _ 0%nat)); [apply bijective4_alter|apply bijective4_partial].
Qed.

(** ** The permutation on lanes *)

(** Four 128-bit lanes. *)
Definition is_state (state : lanes) : Prop := words (lanes_list state).

Lemma tf_words l : words l → gv <$> (tf <$> l) = tower_to_flat_u128 <$> l.
Proof.
  intros Hl. rewrite <- list_fmap_compose. apply list_fmap_ext. intros i x Hx. cbn. apply tf_gv.
  by eapply Forall_lookup_1 in Hx.
Qed.

Lemma to_tower_words l : words l → flat_to_tower_u128 <$> (gv <$> (tf <$> l)) = l.
Proof.
  intros Hl. rewrite tf_words, <- list_fmap_compose by done. rewrite <- (list_fmap_id l) at 2.
  apply list_fmap_ext. intros i x Hx. cbn. eapply Forall_lookup_1 in Hx; [|exact Hl]. by apply basis_inverse.
Qed.

Lemma words_gpermute l : words l → ∃ l', words l' ∧ tf <$> l' = gpermute (tf <$> l).
Proof. intros Hl. eexists. by apply tower_permute_ok. Qed.

Lemma permute_mut_tf state l' :
  is_state state → words l' → tf <$> l' = gpermute (tf <$> lanes_list state) →
  Poseidon2b_permute_mut state = list_lanes l'.
Proof.
  intros Hs Hl' E. unfold Poseidon2b_permute_mut.
  by rewrite <- (tf_words _ Hs), permute_flat_gv, <- E, to_tower_words.
Qed.

Lemma list_lanes_inj l l' : length l = 4%nat → length l' = 4%nat → list_lanes l = list_lanes l' → l = l'.
Proof. intros Hl Hl' E. list4 l. list4 l'. unfold list_lanes in E. cbn [nth] in E. congruence. Qed.

Lemma list_lanes_list state : list_lanes (lanes_list state) = state.
Proof. by destruct state as [[[a b] c] d]. Qed.

(** Words are the values of field elements. *)
Lemma flat_words_gf l : words l → ∃ s, l = gv <$> s.
Proof.
  induction 1 as [|x l Hx Hl (s & ->)]; [by exists []|]. exists (of_word x :: s). cbn [fmap list_fmap].
  by rewrite of_word_gv by (by apply in_range_uint).
Qed.

(** The words whose images are given. *)
Lemma words_of_gf s : ∃ l, words l ∧ tf <$> l = s.
Proof.
  induction s as [|x s (l & Hl & E)]; [exists []; split; [constructor|done]|].
  destruct (tf_onto (gv x) (gv_uint x)) as (z & Hz & Ez). exists (z :: l).
  split; [by constructor|]. cbn. by rewrite E, (gf_eq _ _ Ez).
Qed.

(** C37: the permutation in the flat basis, with converted tables and
    multiplications by one skipped, computes the schedule written directly in
    the tower basis with the tables of the source, on every state. *)
Theorem permute_mut_is_tower_schedule (state : lanes) :
  is_state state → Poseidon2b_permute_mut state = permute_mut_tower_reference state.
Proof.
  intros Hs. destruct (tower_permute_ok _ Hs) as [R E]. by apply permute_mut_tf.
Qed.

Lemma permute_mut_is_tower_schedule_witness :
  Poseidon2b_permute_mut (1, 0, 1, 0)%Z = permute_mut_tower_reference (1, 0, 1, 0)%Z.
Proof. apply permute_mut_is_tower_schedule. by apply words_check. Defined.

(** The permutation is one: every state of four 128-bit lanes is the
    image of exactly one such state. *)
Theorem permute_mut_bijective (out : lanes) :
  is_state out →
  ∃ state, is_state state ∧ Poseidon2b_permute_mut state = out
    ∧ ∀ state', is_state state' → Poseidon2b_permute_mut state' = out → state' = state.
Proof.
  intros Ho. destruct bijective4_gpermute as [inv Hinv].
  assert (∀ st, length (tf <$> lanes_list st) = 4%nat) as HL by (by intros [[[a b] c] d]).
  destruct (Hinv _ (HL out)) as (_ & L' & _ & E2).
  destruct (words_of_gf (inv (tf <$> lanes_list out))) as (l & Hl & El).
  assert (length l = 4%nat) as Ll by (by rewrite <- L', <- El, length_fmap).
  assert (lanes_list (list_lanes l) = l) as Ell by (list4 l; done).
  exists (list_lanes l). split_and!.
  - unfold is_state. by rewrite Ell.
  - rewrite (permute_mut_tf _ (lanes_list out)); [apply list_lanes_list|unfold is_state; by rewrite Ell|done|].
    by rewrite Ell, El, E2.
  - intros st Hst E. destruct (words_gpermute _ Hst) as (r & Hr & Er).
    rewrite (permute_mut_tf _ r Hst Hr Er) in E. rewrite <- (list_lanes_list out) in E.
    destruct (Hinv _ (HL st)) as (L3 & _ & E5 & _).
    apply list_lanes_inj in E; [|by rewrite <- L3, <- Er, length_fmap|by rewrite <- (HL out), length_fmap].
    subst r. rewrite Er, E5 in El. rewrite <- (list_lanes_list st). f_equal.
    rewrite <- (to_tower_words _ Hst), <- (to_tower_words _ Hl). by rewrite El.
Qed.

Lemma permute_mut_bijective_witness :
  ∃ state, is_state state ∧ Poseidon2b_permute_mut state = (1, 2, 3, 4)%Z
    ∧ ∀ state', is_state state' → Poseidon2b_permute_mut state' = (1, 2, 3, 4)%Z → state' = state.
Proof.
  apply permute_mut_bijective. by apply words_check.
Defined.
