(* ===== verification/TowerWalk.v ===== *)
(** * TowerWalk

    [jetsam_poseidon2b/src/towerwalk.rs]: the memory-hard digest the proof of
    work uses from v1.4 on.  A seed fills a scratchpad of 65 536 words, a walk
    of 131 072 rounds reads and writes it at addresses that depend on the data,
    and a Poseidon2b fold mixes the eight-word state.  Vector accesses outside
    the scratchpad panic.  The theorems: the digest is defined on every seed
    and does not depend on what the reused scratchpad held, and the mixing
    steps lose no state. *)

From S2P Require Import Prelude Machine Poseidon FlatField GF128 FieldRing Tower Permutation.

Definition CELLS : nat := Z.to_nat 65536.
Definition INDEX_MASK : Z := Z.of_nat CELLS - 1.
Definition LANES : nat := 4.
Definition ROUNDS : nat := Z.to_nat 131072.
Definition PERM_PERIOD : Z := 8192.
Definition FILL_PERM_PERIOD : Z := 4096.
Definition MULT_C : Z := 0x9E3779B97F4A7C15.
Definition XORSHIFT : Z := 29.
Definition CAP_INIT : list Z :=
  [0xA5A5A5A5A5A5A5A5; 0x5A5A5A5A5A5A5A5A; 0x3C3C3C3C3C3C3C3C; 0xC3C3C3C3C3C3C3C3].

Definition cheap_mix (x ctr : Z) : Z :=
  let y := wrapping_mul 64 (wrapping_add 64 x ctr) MULT_C in
  Z.lxor y (Z.shiftr y XORSHIFT).

(** The accumulators [a] and the capacity words [c]. *)
Definition fold (ac : list Z * list Z) : list Z * list Z :=
  let '(a, c) := ac in
  let flat := zip_with (λ x y, Z.lor x (Z.shiftl y 64)) a c in
  let flat := permute_flat_u128 flat in
  ((λ w, wrap 64 w) <$> flat, (λ w, wrap 64 (Z.shiftr w 64)) <$> flat).

(** The scratchpad, reused between digests. *)
Record Scratch := mkScratch { sc_v : list Z }.

Definition Scratch_new : Scratch := mkScratch (replicate CELLS 0).

(** [a[0] ^ a[1] ^ a[2] ^ a[3]] *)
Definition xor_all (a : list Z) : Z := foldl Z.lxor 0 a.

Record walk_state := mkwalk { ws_a : list Z; ws_c : list Z; ws_x : Z; ws_v : list Z }.

#[local] Notation walk := (result (fault Empty_set)).

Definition fill_step (s : walk_state) (i : nat) : walk walk_state :=
  let x := cheap_mix (ws_x s) (Z.of_nat i) in
  v ← expect (vec_set (ws_v s) (Z.of_nat i) x);
  if (Z.of_nat i + 1) mod FILL_PERM_PERIOD =? 0 then
    let '(a, c) := fold (ws_a s, ws_c s) in
    Ok (mkwalk a c (Z.lxor x (xor_all a)) v)
  else Ok (mkwalk (ws_a s) (ws_c s) x v).

Definition walk_lane (r : nat) (s : walk_state) (l : nat) : walk walk_state :=
  al ← expect (ws_a s !! l);
  let j := Z.land (Z.lxor al (Z.shiftr al 32)) INDEX_MASK in
  val ← expect (vec_get (ws_v s) j);
  let al := cheap_mix (Z.lxor al val) (Z.of_nat r) in
  v ← expect (vec_set (ws_v s) j (wrapping_add 64 al val));
  Ok (mkwalk (<[l := al]> (ws_a s)) (ws_c s) (ws_x s) v).

Definition walk_round (s : walk_state) (r : nat) : walk walk_state :=
  s ← try_fold (walk_lane r) s (seq 0 LANES);
  if (Z.of_nat r + 1) mod PERM_PERIOD =? 0 then
    let '(a, c) := fold (ws_a s, ws_c s) in Ok (mkwalk a c (ws_x s) (ws_v s))
  else Ok s.

Definition seed_words (seed : list Z) : list Z :=
  (λ i, from_le_bytes (take 8 (drop (i * 8) seed))) <$> seq 0 4.

Definition towerwalk_digest_with (scratch : Scratch) (seed : list Z) : walk (list Z * Scratch) :=
  let s := seed_words seed in
  let c := zip_with Z.lxor s CAP_INIT in
  st ← try_fold fill_step (mkwalk s c (xor_all s) (sc_v scratch)) (seq 0 CELLS);
  st ← try_fold walk_round st (seq 0 ROUNDS);
  let '(a, _) := fold (ws_a st, ws_c st) in
  Ok (concat (to_le_bytes 8 <$> a), mkScratch (ws_v st)).

Definition towerwalk_digest (seed : list Z) : walk (list Z) :=
  r ← towerwalk_digest_with Scratch_new seed; Ok (fst r).

#[global] Opaque CELLS ROUNDS.
#[global] Opaque permute_flat_u128.

(** ** The eight-word state *)

Definition word64s (l : list Z) : Prop := length l = 4%nat ∧ Forall (is_uint 64) l.

Definition pack (a c : list Z) : list Z := zip_with (λ x y, Z.lor x (Z.shiftl y 64)) a c.

Lemma pack_word x y : is_uint 64 x → is_uint 64 y → Z.lor x (Z.shiftl y 64) = y * 2 ^ 64 + x.
Proof. intros Hx Hy. rewrite Z.lor_comm. apply lor_shiftl_add; [lia|exact Hx]. Qed.

Lemma pack_words a c : word64s a → word64s c → words (pack a c) ∧ length (pack a c) = 4%nat.
Proof.
  intros [La Ha] [Lc Hc]. unfold pack. rewrite length_zip_with. split; [|lia].
  clear La Lc. revert c Hc. induction Ha as [|x a Hx Ha IH]; intros c Hc; [constructor|].
  destruct Hc as [|y c Hy Hc]; [constructor|]. cbn [zip_with]. constructor; [|by apply IH].
  rewrite pack_word by done. unfold is_uint in *. change (2 ^ 128) with (2 ^ 64 * 2 ^ 64). nia.
Qed.

Lemma permute_flat_words l :
  words l → length l = 4%nat → words (permute_flat_u128 l) ∧ length (permute_flat_u128 l) = 4%nat.
Proof.
  intros Hl L. destruct (flat_words_gf l Hl) as (s & ->). rewrite permute_flat_gv.
  destruct bijective4_gpermute as [inv Hinv]. rewrite length_fmap in L. destruct (Hinv s L) as (L' & _).
  split; [apply Forall_fmap, Forall_true; intros x; apply gv_uint|by rewrite length_fmap].
Qed.

Lemma fold_ok a c :
  word64s a → word64s c → word64s (fst (fold (a, c))) ∧ word64s (snd (fold (a, c))).
Proof.
  intros Ha Hc. destruct (pack_words a c Ha Hc) as [Hw L]. destruct (permute_flat_words _ Hw L) as [_ L'].
  unfold fold. fold (pack a c). cbn [fst snd]. unfold word64s. rewrite !length_fmap.
  split; (split; [done|]); apply Forall_fmap, Forall_true; intros x; by apply wrap_range.
Qed.

Lemma unpack_inj l l' :
  words l → words l' →
  (λ w, wrap 64 w) <$> l = (λ w, wrap 64 w) <$> l' →
  (λ w, wrap 64 (Z.shiftr w 64)) <$> l = (λ w, wrap 64 (Z.shiftr w 64)) <$> l' → l = l'.
Proof.
  intros Hl. revert l'. induction Hl as [|x l Hx Hl IH]; intros [|y l'] Hl' E1 E2; [done..|].
  apply Forall_cons in Hl' as [Hy Hl']. cbn [fmap list_fmap] in *. injection E1 as E1 E1'. injection E2 as E2 E2'.
  f_equal; [|by apply IH]. unfold is_uint in *. unfold wrap in *. rewrite !Z.shiftr_div_pow2 in E2 by lia.
  change (2 ^ 128) with (2 ^ 64 * 2 ^ 64) in *.
  rewrite !(Z.mod_small (_ / _)) in E2 by (split; [apply Z.div_pos; lia|apply Z.div_lt_upper_bound; lia]).
  rewrite (Z.div_mod x (2 ^ 64)), (Z.div_mod y (2 ^ 64)) by lia. by rewrite E1, E2.
Qed.

Lemma pack_inj a c a' c' :
  word64s a → word64s c → word64s a' → word64s c' → pack a c = pack a' c' → (a, c) = (a', c').
Proof.
  intros [La Ha] [Lc Hc] [La' Ha'] [Lc' Hc'] E. unfold pack in E. list4 a. list4 c. list4 a'. list4 c'.
  repeat match goal with H : Forall _ (_ :: _) |- _ => apply Forall_cons in H; destruct H end.
  cbn [zip_with] in E. rewrite !pack_word in E by done. injection E as E0 E1 E2 E3.
  assert (∀ x y x' y', is_uint 64 x → is_uint 64 x' → y * 2 ^ 64 + x = y' * 2 ^ 64 + x' → x = x' ∧ y = y') as Hw.
  { unfold is_uint. intros x y x' y' Hx Hx' Exy. split; nia. }
  apply Hw in E0 as [-> ->], E1 as [-> ->], E2 as [-> ->], E3 as [-> ->]; done.
Qed.

Lemma permute_flat_inj l l' :
  words l → words l' → length l = 4%nat → length l' = 4%nat → permute_flat_u128 l = permute_flat_u128 l' → l = l'.
Proof.
  intros Hl Hl' L L' E. destruct (flat_words_gf l Hl) as (s & ->), (flat_words_gf l' Hl') as (s' & ->).
  rewrite !permute_flat_gv in E. rewrite length_fmap in L, L'. destruct bijective4_gpermute as [inv Hinv].
  assert (gpermute s = gpermute s') as E'.
  { revert E. apply list_fmap_eq_inj. intros x y Exy. by apply gf_eq. }
  rewrite <- (proj1 (proj2 (proj2 (Hinv s L)))), <- (proj1 (proj2 (proj2 (Hinv s' L')))). by rewrite E'.
Qed.

Lemma fold_inj a c a' c' :
  word64s a → word64s c → word64s a' → word64s c' → fold (a, c) = fold (a', c') → (a, c) = (a', c').
Proof.
  intros Ha Hc Ha' Hc' E. apply (pack_inj _ _ _ _ Ha Hc Ha' Hc').
  destruct (pack_words a c Ha Hc) as [Hw L], (pack_words a' c' Ha' Hc') as [Hw' L'].
  apply (permute_flat_inj _ _ Hw Hw' L L'). unfold fold in E. fold (pack a c) in E. fold (pack a' c') in E.
  apply pair_equal_spec in E as [E1 E2].
  exact (unpack_inj _ _ (proj1 (permute_flat_words _ Hw L)) (proj1 (permute_flat_words _ Hw' L')) E1 E2).
Qed.

(** ** The mixing function *)

Lemma xorshift_inj n x y : 0 < n → 0 ≤ x → 0 ≤ y → Z.lxor x (Z.shiftr x n) = Z.lxor y (Z.shiftr y n) → x = y.
Proof.
  intros Hn Hx Hy E. set (d := Z.lxor x y). assert (Z.lxor d (Z.shiftr d n) = 0) as Ed.
  { unfold d. rewrite Z.shiftr_lxor, lxor_swap, E. apply Z.lxor_nilpotent. }
  apply Z.lxor_eq in Ed. assert (0 ≤ d) as Hd by (apply Z.lxor_nonneg; lia).
  rewrite Z.shiftr_div_pow2 in Ed by lia. apply Z.lxor_eq. fold d.
  pose proof (Z.pow_gt_1 2 n ltac:(lia)) as [Hp _]. specialize (Hp Hn).
  destruct (Z.eq_dec d 0) as [|Hne]; [done|]. pose proof (Z.div_lt d (2 ^ n)). lia.
Qed.

Lemma mult_inj x y : is_uint 64 x → is_uint 64 y → wrapping_mul 64 x MULT_C = wrapping_mul 64 y MULT_C → x = y.
Proof.
  unfold wrapping_mul, wrap, is_uint. intros Hx Hy E.
  assert (∀ z, (z * MULT_C mod 2 ^ 64 * 0xf1de83e19937733d) mod 2 ^ 64 = z mod 2 ^ 64) as H.
  { intros z. rewrite Z.mul_mod_idemp_l, <- Z.mul_assoc, <- Z.mul_mod_idemp_r by lia.
    change ((MULT_C * 0xf1de83e19937733d) mod 2 ^ 64) with 1. by rewrite Z.mul_1_r. }
  rewrite <- (Z.mod_small x (2 ^ 64)), <- (Z.mod_small y (2 ^ 64)), <- (H x), <- (H y), E by lia. done.
Qed.

Lemma cheap_mix_inj x y ctr : is_uint 64 x → is_uint 64 y → cheap_mix x ctr = cheap_mix y ctr → x = y.
Proof.
  unfold cheap_mix. intros Hx Hy E.
  assert (∀ z, is_uint 64 (wrap 64 z)) as HW by (intros; by apply wrap_range).
  apply xorshift_inj in E; [|done|apply HW..]. apply mult_inj in E; [|apply HW..].
  unfold wrapping_add, wrap, is_uint in *. rewrite <- (Z.mod_small x (2 ^ 64)), <- (Z.mod_small y (2 ^ 64)) by lia.
  replace x with (x + ctr - ctr) by lia. replace y with (y + ctr - ctr) by lia.
  by rewrite <- (Zminus_mod_idemp_l (x + ctr)), <- (Zminus_mod_idemp_l (y + ctr)), E.
Qed.

Lemma cheap_mix_range x ctr : is_uint 64 (cheap_mix x ctr).
Proof.
  unfold cheap_mix. assert (is_uint 64 (wrap 64 (wrapping_add 64 x ctr * MULT_C))) as H by (by apply wrap_range).
  apply lxor_range; [lia|done|]. unfold is_uint, wrapping_mul in *.
  rewrite Z.shiftr_div_pow2 by done. split; [apply Z.div_pos; [lia|done]|].
  apply Z.div_lt_upper_bound; [done|]. unfold XORSHIFT. lia.
Qed.

(** ** The scratchpad *)

(** The parts of the state the walk relies on. *)
Definition walk_ok (cells : nat) (s : walk_state) : Prop :=
  word64s (ws_a s) ∧ word64s (ws_c s) ∧ length (ws_v s) = cells.

Lemma take_insert_next (v v' : list Z) n x :
  (n < length v)%nat → (n < length v')%nat → take n v = take n v' → take (S n) (<[n := x]> v) = take (S n) (<[n := x]> v').
Proof.
  intros Hv Hv' E.
  rewrite !(take_S_r _ n x) by (apply list_lookup_insert_eq; done). by rewrite !take_insert_ge, E by lia.
Qed.

Lemma fill_step_eq a c x v i :
  (i < length v)%nat →
  fill_step (mkwalk a c x v) i =
    let x := cheap_mix x (Z.of_nat i) in
    let f := fold (a, c) in
    if (Z.of_nat i + 1) mod FILL_PERM_PERIOD =? 0
    then Ok (mkwalk (fst f) (snd f) (Z.lxor x (xor_all (fst f))) (<[i := x]> v))
    else Ok (mkwalk a c x (<[i := x]> v)).
Proof.
  intros Hi. unfold fill_step. cbn [ws_x ws_v ws_a ws_c]. rewrite vec_set_in_range, Nat2Z.id by lia.
  cbn [expect ok_or mbind result_bind]. by destruct (fold (a, c)) as [fa fc].
Qed.

(** Filling two scratchpads of one size gives the same state: the cells below
    [n] already agree, the others are overwritten. *)
Lemma fill_agree m n a c x v v' :
  word64s a → word64s c → length v = (n + m)%nat → length v' = (n + m)%nat → take n v = take n v' →
  ∃ st, try_fold fill_step (mkwalk a c x v) (seq n m) = Ok st
    ∧ try_fold fill_step (mkwalk a c x v') (seq n m) = Ok st ∧ walk_ok (n + m) st.
Proof.
  revert n a c x v v'. induction m as [|m IH]; intros n a c x v v' Ha Hc L L' E.
  - exists (mkwalk a c x v). rewrite Nat.add_0_r in *. rewrite !take_ge in E by lia. by subst v'.
  - cbn [seq try_fold]. rewrite !fill_step_eq by lia. cbv zeta. replace (n + S m)%nat with (S n + m)%nat in * by lia.
    assert (take (S n) (<[n := cheap_mix x (Z.of_nat n)]> v) = take (S n) (<[n := cheap_mix x (Z.of_nat n)]> v')) as E'
      by (apply take_insert_next; [lia..|done]).
    destruct (fold_ok a c Ha Hc) as [Hfa Hfc].
    assert (∀ y, length (<[n := y]> v) = (S n + m)%nat ∧ length (<[n := y]> v') = (S n + m)%nat) as HL
      by (intros y; by rewrite !length_insert).
    destruct (_ =? 0); cbn [mbind result_bind].
    + exact (IH _ _ _ _ _ _ Hfa Hfc (proj1 (HL _)) (proj2 (HL _)) E').
    + exact (IH _ _ _ _ _ _ Ha Hc (proj1 (HL _)) (proj2 (HL _)) E').
Qed.

Lemma walk_lane_ok cells r s l :
  cells = CELLS → walk_ok cells s → (l < 4)%nat → ∃ s', walk_lane r s l = Ok s' ∧ walk_ok cells s'.
Proof.
  intros HC ([La Ha] & Hc & Lv) Hl. unfold walk_lane.
  destruct (lookup_lt_is_Some_2 (ws_a s) l) as [al Hal]; [lia|]. rewrite Hal. cbn [expect ok_or mbind result_bind].
  set (j := Z.land _ INDEX_MASK). assert (0 ≤ j < Z.of_nat (length (ws_v s))) as Hj.
  { rewrite Lv, HC. unfold j, INDEX_MASK. assert (Z.of_nat CELLS - 1 = Z.ones 16) as ->.
    { Transparent CELLS. unfold CELLS. by rewrite Z2Nat.id by lia. }
    rewrite Z.land_ones by lia. Transparent CELLS. unfold CELLS. rewrite Z2Nat.id by lia.
    by apply Z.mod_pos_bound. }
  destruct (vec_get_in_range _ _ Hj) as [val ->]. cbn [expect ok_or mbind result_bind].
  rewrite vec_set_in_range by done. cbn [expect ok_or mbind result_bind]. eexists. split; [done|].
  unfold walk_ok. cbn [ws_a ws_c ws_v]. split_and!; [..|by rewrite length_insert]; [|done].
  split; [by rewrite length_insert|]. apply Forall_insert; [done|apply cheap_mix_range].
Qed.
#[global] Opaque CELLS.

Lemma walk_round_ok s r : walk_ok CELLS s → ∃ s', walk_round s r = Ok s' ∧ walk_ok CELLS s'.
Proof.
  intros Hs. unfold walk_round.
  destruct (try_fold_total (λ _, walk_ok CELLS) (walk_lane r) s (seq 0 LANES) Hs) as (s' & -> & Hs').
  { intros dn l st Hst [todo E]. apply walk_lane_ok; [done..|].
    assert (l ∈ seq 0 LANES) as Hin by (rewrite E; set_solver). apply elem_of_seq in Hin. unfold LANES in Hin. lia. }
  cbn [mbind result_bind]. destruct Hs' as (Ha & Hc & Lv). destruct (fold_ok _ _ Ha Hc) as [Hfa Hfc].
  destruct (fold (ws_a s', ws_c s')) as [fa fc]. destruct (_ =? 0); by eexists.
Qed.

Lemma walk_rounds_ok s l : walk_ok CELLS s → ∃ s', try_fold walk_round s l = Ok s' ∧ walk_ok CELLS s'.
Proof.
  intros Hs. apply (try_fold_total (λ _, walk_ok CELLS)); [done|]. intros _ r st Hst _. by apply walk_round_ok.
Qed.

Lemma seed_words_ok seed : byte_array 32 seed → word64s (seed_words seed).
Proof.
  intros [L Hb]. unfold seed_words. split; [by rewrite length_fmap, length_seq|].
  apply Forall_fmap, Forall_forall. intros i Hi. apply elem_of_seq in Hi. cbn.
  pose proof (from_le_bytes_bound (take 8 (drop (i * 8) seed))) as H.
  rewrite length_take, length_drop, L in H. replace (8 `min` (32 - i * 8))%nat with 8%nat in H by lia.
  apply H. by apply Forall_take, Forall_drop.
Qed.

Lemma xor_words a b : word64s a → word64s b → word64s (zip_with Z.lxor a b).
Proof.
  intros [La Ha] [Lb Hb]. list4 a. list4 b.
  repeat match goal with H : Forall _ (_ :: _) |- _ => apply Forall_cons in H; destruct H end.
  split; [done|]. cbn [zip_with]. rewrite !Forall_cons, Forall_nil. split_and!; [apply lxor_range; [lia|done..]..|done].
Qed.

Lemma Scratch_new_length : length (sc_v Scratch_new) = CELLS.
Proof. apply length_replicate. Qed.

Lemma towerwalk_digest_with_eq scratch seed st st' fa fc :
  try_fold fill_step (mkwalk (seed_words seed) (zip_with Z.lxor (seed_words seed) CAP_INIT)
    (xor_all (seed_words seed)) (sc_v scratch)) (seq 0 CELLS) = Ok st →
  try_fold walk_round st (seq 0 ROUNDS) = Ok st' → fold (ws_a st', ws_c st') = (fa, fc) →
  towerwalk_digest_with scratch seed = Ok (concat (to_le_bytes 8 <$> fa), mkScratch (ws_v st')).
Proof.
  intros E1 E2 E3. unfold towerwalk_digest_with. apply bind_Ok. exists st. split; [exact E1|].
  apply bind_Ok. exists st'. split; [exact E2|]. by rewrite E3.
Qed.

Lemma towerwalk_total (scratch : Scratch) (seed : list Z) :
  length (sc_v scratch) = CELLS → is_digest seed →
  ∃ digest scratch', towerwalk_digest_with scratch seed = Ok (digest, scratch')
    ∧ towerwalk_digest seed = Ok digest ∧ is_digest digest ∧ length (sc_v scratch') = CELLS.
Proof.
  intros L Hs. assert (word64s (seed_words seed)) as Ha by (by apply seed_words_ok).
  assert (word64s CAP_INIT) as Hcap
    by (split; [done|]; unfold CAP_INIT; rewrite !Forall_cons, Forall_nil; split_and!; done || (unfold is_uint; lia)).
  destruct (fill_agree CELLS 0 (seed_words seed) (zip_with Z.lxor (seed_words seed) CAP_INIT) (xor_all (seed_words seed))
    (sc_v scratch) (sc_v Scratch_new) Ha (xor_words _ _ Ha Hcap) L Scratch_new_length eq_refl) as (st & E & E' & Hst).
  destruct (walk_rounds_ok st (seq 0 ROUNDS) Hst) as (st' & Ew & Ha' & Hc' & Lv).
  destruct (fold_ok _ _ Ha' Hc') as [[Lf _] _]. destruct (fold (ws_a st', ws_c st')) as [fa fc] eqn:Ef.
  exists (concat (to_le_bytes 8 <$> fa)), (mkScratch (ws_v st')).
  assert (is_digest (concat (to_le_bytes 8 <$> fa))) as Hd.
  { cbn [fst] in Lf. clear -Lf. list4 fa. cbn [fmap list_fmap concat]. rewrite app_nil_r.
    split; [by rewrite !length_app, !length_to_le_bytes|].
    repeat (apply byte_string_app; split); apply to_le_bytes_bytes. }
  split_and!; [exact (towerwalk_digest_with_eq _ _ _ _ _ _ E Ew Ef)| |exact Hd|exact Lv].
  unfold towerwalk_digest. apply bind_Ok. eexists. split; [exact (towerwalk_digest_with_eq _ _ _ _ _ _ E' Ew Ef)|].
  reflexivity.
Qed.

(** TowerWalk is a function of its seed.  For every 32-byte seed and every
    scratchpad of the right size, whatever an earlier digest left in it, the
    computation succeeds (no access leaves the scratchpad), returns a 32-byte
    digest that is the digest computed on a fresh scratchpad, and leaves a
    scratchpad of the right size. *)
Theorem towerwalk_scratch_independent (scratch : Scratch) (seed : list Z) :
  length (sc_v scratch) = CELLS → is_digest seed →
  ∃ digest scratch', towerwalk_digest_with scratch seed = Ok (digest, scratch')
    ∧ towerwalk_digest seed = Ok digest ∧ is_digest digest ∧ length (sc_v scratch') = CELLS.
Proof. apply towerwalk_total. Qed.

Lemma towerwalk_scratch_independent_witness :
  ∃ digest scratch', towerwalk_digest_with (mkScratch (replicate CELLS 7)) zero_digest = Ok (digest, scratch')
    ∧ towerwalk_digest zero_digest = Ok digest ∧ is_digest digest ∧ length (sc_v scratch') = CELLS.
Proof.
  apply (towerwalk_scratch_independent (mkScratch (replicate CELLS 7)) zero_digest);
    [apply length_replicate|apply zero_digest_array].
Defined.

(** The steps of TowerWalk lose no state: mixing with a counter is
    injective on 64-bit words (the multiplier is odd and the xorshift is
    invertible), and the Poseidon2b fold is injective on the eight words of
    the state. *)
Theorem walk_mixing_injective (x y ctr : Z) (a c a' c' : list Z) :
  is_uint 64 x → is_uint 64 y → word64s a → word64s c → word64s a' → word64s c' →
  (cheap_mix x ctr = cheap_mix y ctr → x = y) ∧ (fold (a, c) = fold (a', c') → (a, c) = (a', c'))
  ∧ is_uint 64 (cheap_mix x ctr) ∧ word64s (fst (fold (a, c))) ∧ word64s (snd (fold (a, c))).
Proof.
  intros Hx Hy Ha Hc Ha' Hc'. split_and!.
  - exact (cheap_mix_inj x y ctr Hx Hy).
  - exact (fold_inj a c a' c' Ha Hc Ha' Hc').
  - apply cheap_mix_range.
  - exact (proj1 (fold_ok a c Ha Hc)).
  - exact (proj2 (fold_ok a c Ha Hc)).
Qed.

Lemma walk_mixing_injective_witness :
  (cheap_mix 1 5 = cheap_mix 2 5 → 1 = 2)
  ∧ (fold ([1; 2; 3; 4], [5; 6; 7; 8]) = fold ([1; 2; 3; 4], [5; 6; 7; 9]) → ([1; 2; 3; 4], [5; 6; 7; 8]) = ([1; 2; 3; 4], [5; 6; 7; 9]))
  ∧ is_uint 64 (cheap_mix 1 5) ∧ word64s (fst (fold ([1; 2; 3; 4], [5; 6; 7; 8]))) ∧ word64s (snd (fold ([1; 2; 3; 4], [5; 6; 7; 8]))).
Proof.
  apply (walk_mixing_injective 1 2 5 [1; 2; 3; 4] [5; 6; 7; 8] [1; 2; 3; 4] [5; 6; 7; 9]);
    first [split; [reflexivity|rewrite !Forall_cons, Forall_nil; split_and!; exact I || (unfold is_uint; lia)]|unfold is_uint; lia].
Defined.
