(* ===== verification/Pow.v ===== *)
(** * Proof of work

    [consensus/pow.rs]: the sixteen-field schedule of the mining digest, the
    digest of a header (the Poseidon2b sponge, walked through TowerWalk from
    v1.4 on), its check against the target and the nonce search; the batch
    hasher of [jetsam_poseidon2b/src/batch.rs] the search uses, which keeps
    its headers in the flat basis and computes one sponge per nonce (the
    scalar path; the vectorised kernels are not modelled).  The thread-local
    scratchpad is an explicit argument. *)

From S2P Require Import Prelude Machine Params Poseidon TxTypes BlockHeader ClientObjects Consensus Difficulty DifficultyProps FlatField GF128 FieldRing Tower Permutation TowerWalk.

Definition POW_HEADER_FIELD_COUNT : nat := 16.
Definition POW_NONCE_FIELD_INDEX : nat := 0.

(** ** The field schedule *)

Definition put_digest (digest : list Z) : list Z :=
  [from_le_bytes (take 16 digest); from_le_bytes (drop 16 digest)].

Definition pow_header_fields (h : BlockHeader) : list Z :=
  [bh_nonce h]
  ++ put_digest (bh_prev_block_hash h) ++ put_digest (bh_state_root h) ++ put_digest (bh_tx_root h)
  ++ [bh_timestamp h; bh_height h]
  ++ put_digest (bh_miner_address h) ++ put_digest (bh_difficulty_target h)
  ++ [bh_log_slots h; bh_active_slot_count h; bh_alloc_counter h].

Section digest.
  Context {P : Poseidon2bPermutation}.

Definition poseidon_pow_digest_from_fields (fields : list Z) : list Z :=
  finalize_no_pad
    (foldl (λ sponge chunk, absorb_pair sponge (nth 0 chunk 0) (nth 1 chunk 0))
       (with_iv (capacity_iv TAG_POWHDR)) (chunks_exact 2 fields)).

Definition poseidon_pow_digest (header : BlockHeader) : list Z :=
  poseidon_pow_digest_from_fields (pow_header_fields header).

(** A panic of the walk is a panic of its caller. *)
Definition lift_walk {E A} (m : result (fault Empty_set) A) : result (fault E) A := map_err (λ _, Panic) m.

Definition pow_digest_with (scratch : Scratch) (header : BlockHeader) (activation : option Z) :
    result (fault ConsensusError) (list Z * Scratch) :=
  let seed := poseidon_pow_digest header in
  if v1_4_active_with (bh_height header) activation
  then lift_walk (towerwalk_digest_with scratch seed)
  else Ok (seed, scratch).

Definition pow_digest (scratch : Scratch) (header : BlockHeader) : result (fault ConsensusError) (list Z * Scratch) :=
  pow_digest_with scratch header V1_4_ACTIVATION_HEIGHT.

Definition validate_pow (scratch : Scratch) (header : BlockHeader) :
    result (fault ConsensusError) (list Z * Scratch) :=
  '(digest, scratch) ← pow_digest scratch header;
  if le256_lt digest (bh_difficulty_target header) then Ok (digest, scratch)
  else Err (Fail CE_InvalidPoW).

End digest.

(** ** The batch hasher *)

Definition capacity_iv_flat (tag : DomainTag) : Z * Z :=
  let '(high, low) := capacity_iv tag in (tower_to_flat_u128 high, tower_to_flat_u128 low).

(** The permutation of [Poseidon2bFlatSponge], whose code is that of
    [Poseidon2bSponge] on flat lanes. *)
Definition flat_permutation : Poseidon2bPermutation := λ state,
  list_lanes (permute_flat_u128 (lanes_list state)).

Definition leaf_sponge_flat_no_pad (iv : Z * Z) (leaf : list Z) : list Z :=
  finalize_no_pad (update (P := flat_permutation) (with_iv iv) leaf).

(** [flat_leaves] holds whole leaves. *)
Record FixedFieldNonceBatch := mkBatch {
  fb_iv : Z * Z;
  fb_flat_template : list Z;
  fb_nonce_offset : nat;
  fb_flat_leaves : list (list Z);
}.

(** [None] is a failed assertion. *)
Definition FixedFieldNonceBatch_new (tag : DomainTag) (fields : list Z) (nonce_field_index : nat) :
    option FixedFieldNonceBatch :=
  if negb (0 <? length fields)%nat || negb (length fields mod 2 =? 0)%nat then None
  else if negb (nonce_field_index <? length fields)%nat then None
  else
    Some (mkBatch (capacity_iv_flat tag) (concat ((λ f, to_le_bytes 16 (tower_to_flat_u128 f)) <$> fields))
            (nonce_field_index * 16) []).

Definition to_tower_digest (digest : list Z) : list Z :=
  let flat_hi := from_le_bytes (take 16 digest) in
  let flat_lo := from_le_bytes (drop 16 digest) in
  to_le_bytes 16 (flat_to_tower_u128 flat_hi) ++ to_le_bytes 16 (flat_to_tower_u128 flat_lo).

(** The leaf of one nonce. *)
Definition write_nonce (nonce_offset : nat) (start_nonce : Z) (index : nat) (leaf : list Z) : list Z :=
  let nonce := saturating_add 128 start_nonce (Z.of_nat index) in
  copy_into leaf nonce_offset (to_le_bytes 16 (tower_to_flat_u128 nonce)).

(** [n] digests for the nonces from [start_nonce] on. *)
Definition hash_into (self : FixedFieldNonceBatch) (start_nonce : Z) (n : nat) :
    FixedFieldNonceBatch * list (list Z) :=
  let flat_leaves := fb_flat_leaves self ++ replicate (n - length (fb_flat_leaves self)) (fb_flat_template self) in
  let active_leaves := imap (write_nonce (fb_nonce_offset self) start_nonce) (take n flat_leaves) in
  (mkBatch (fb_iv self) (fb_flat_template self) (fb_nonce_offset self) (active_leaves ++ drop n flat_leaves),
   (λ leaf, to_tower_digest (leaf_sponge_flat_no_pad (fb_iv self) leaf)) <$> active_leaves).

(** ** The search *)

(** The digests of one batch, in order: the first that beats the target. *)
Fixpoint search_digests (target : list Z) (nonce_base : Z) (i : Z) (scratch : option Scratch)
    (digests : list (list Z)) : result (fault ConsensusError) (option Z * option Scratch) :=
  match digests with
  | [] => Ok (None, scratch)
  | digest :: rest =>
      '(candidate, scratch) ←
        match scratch with
        | Some sc => '(d, sc) ← lift_walk (towerwalk_digest_with sc digest); Ok (d, Some sc)
        | None => Ok (digest, None)
        end;
      if le256_lt candidate target then Ok (Some (saturating_add 128 nonce_base i), scratch)
      else search_digests target nonce_base (i + 1) scratch rest
  end.

(** The loop; [None] when the fuel runs out before it ends. *)
Fixpoint search_loop (fuel : nat) (target : list Z) (start_nonce range done : Z)
    (hasher : FixedFieldNonceBatch) (scratch : option Scratch) :
    option (result (fault ConsensusError) (option Z)) :=
  match fuel with
  | O => None
  | S fuel =>
      if done <? range then
        let batch_len := Z.min (range - done) 64 in
        let nonce_base := saturating_add 128 start_nonce done in
        let '(hasher, digests) := hash_into hasher nonce_base (Z.to_nat batch_len) in
        match search_digests target nonce_base 0 scratch digests with
        | Err e => Some (Err e)
        | Ok (Some nonce, _) => Some (Ok (Some nonce))
        | Ok (None, scratch) =>
            search_loop fuel target start_nonce range (wrapping_add 128 done batch_len) hasher scratch
        end
      else Some (Ok None)
  end.

(** Every turn adds at least one to [done]. *)
Definition search_pow_with (header_template : BlockHeader) (start_nonce range : Z) (activation : option Z) :
    option (result (fault ConsensusError) (option Z)) :=
  match FixedFieldNonceBatch_new TAG_POWHDR (pow_header_fields header_template) POW_NONCE_FIELD_INDEX with
  | None => Some (Err Panic)
  | Some hasher =>
      let walk := v1_4_active_with (bh_height header_template) activation in
      let scratch := if walk then Some Scratch_new else None in
      search_loop (S (Z.to_nat range)) (bh_difficulty_target header_template) start_nonce range 0 hasher scratch
  end.

Definition search_pow (header_template : BlockHeader) (start_nonce range : Z) :
    option (result (fault ConsensusError) (option Z)) :=
  search_pow_with header_template start_nonce range V1_4_ACTIVATION_HEIGHT.

(** ** Sponges on pairs of fields *)

Lemma chunks_exact_concat k ls :
  (0 < k)%nat → Forall (λ l, length l = k) ls → chunks_exact k (concat ls) = ls.
Proof.
  intros Hk. induction 1 as [|l ls Hl Hls IH]; [by apply chunks_exact_nil_short|].
  cbn [concat]. rewrite (chunks_exact_app k 1), (chunks_exact_single k l), IH by (done || lia). done.
Qed.

Lemma chunks_remainder_concat k ls :
  (0 < k)%nat → Forall (λ l, length l = k) ls → chunks_remainder k (concat ls) = [].
Proof.
  intros Hk. induction 1 as [|l ls Hl Hls IH]; [by apply chunks_remainder_short|].
  cbn [concat]. by rewrite (chunks_remainder_app k 1) by (done || lia).
Qed.

Definition block_of (p : Z * Z) : list Z := to_le_bytes 16 (fst p) ++ to_le_bytes 16 (snd p).
Definition fields_of (pairs : list (Z * Z)) : list Z := concat ((λ p, [fst p; snd p]) <$> pairs).
Definition lanes_digest (state : lanes) : list Z := let '(s0, s1, _, _) := state in to_le_bytes 16 s0 ++ to_le_bytes 16 s1.

Lemma block_of_length p : length (block_of p) = 32%nat.
Proof. unfold block_of. by rewrite length_app, !length_to_le_bytes. Qed.

Lemma blocks_length pairs : Forall (λ l, length l = 32%nat) (block_of <$> pairs).
Proof. apply Forall_fmap, Forall_true. intros p. apply block_of_length. Qed.

Lemma even_pairs (fields : list Z) : (length fields mod 2 = 0)%nat → ∃ pairs, fields = fields_of pairs.
Proof.
  remember (length fields) as n eqn:Hn. revert fields Hn. induction n as [n IH] using lt_wf_ind.
  intros [|a [|b fields]] Hn Hm; cbn [length] in Hn; [by exists []|subst; done|].
  destruct (IH (length fields) ltac:(lia) fields eq_refl) as [pairs ->].
  { subst n. replace (S (S (length fields))) with (length fields + 1 * 2)%nat in Hm by lia.
    by rewrite Nat.Div0.mod_add in Hm. }
  by exists ((a, b) :: pairs).
Qed.

Section pairs.
  Context {P : Poseidon2bPermutation}.

Definition absorb_pairs (iv : Z * Z) (pairs : list (Z * Z)) : lanes :=
  foldl absorb_block (0, 0, fst iv, snd iv) (block_of <$> pairs).

Lemma pow_digest_pairs pairs :
  poseidon_pow_digest_from_fields (fields_of pairs) = lanes_digest (absorb_pairs (capacity_iv TAG_POWHDR) pairs).
Proof.
  unfold poseidon_pow_digest_from_fields, fields_of.
  rewrite chunks_exact_concat by (lia || by apply Forall_fmap, Forall_true).
  set (iv := capacity_iv TAG_POWHDR).
  assert (foldl (λ sponge chunk, absorb_pair sponge (nth 0 chunk 0) (nth 1 chunk 0)) (with_iv iv)
    ((λ p, [fst p; snd p]) <$> pairs) = foldl update (with_iv iv) (block_of <$> pairs)) as ->.
  { generalize (with_iv iv). induction pairs as [|p pairs IH]; intros s; [done|]. cbn [fmap list_fmap foldl]. by rewrite IH. }
  destruct (updates_rep iv (block_of <$> pairs)) as [E _]. rewrite chunks_exact_concat in E by (lia || apply blocks_length).
  unfold finalize_no_pad, squeeze_32. rewrite E. done.
Qed.

Lemma update_pairs iv pairs :
  finalize_no_pad (update (with_iv iv) (concat (block_of <$> pairs))) = lanes_digest (absorb_pairs iv pairs).
Proof.
  destruct (update_rep _ _ _ (concat (block_of <$> pairs)) (with_iv_rep iv)) as [E _].
  cbn [app] in E. rewrite chunks_exact_concat in E by (lia || apply blocks_length).
  unfold finalize_no_pad, squeeze_32. by rewrite E.
Qed.

End pairs.

(** ** The flat sponge *)

Definition lanes_map (f : Z → Z) (state : lanes) : lanes :=
  let '(a, b, c, d) := state in (f a, f b, f c, f d).

Definition flat_pair (p : Z * Z) : Z * Z := (tower_to_flat_u128 (fst p), tower_to_flat_u128 (snd p)).
Definition word_pair (p : Z * Z) : Prop := is_uint 128 (fst p) ∧ is_uint 128 (snd p).

Lemma lanes_map_list f state : lanes_map f state = list_lanes (f <$> lanes_list state).
Proof. by destruct state as [[[a b] c] d]. Qed.

Lemma to_flat_words l : words l → tower_to_flat_u128 <$> (flat_to_tower_u128 <$> l) = l.
Proof.
  intros Hl. rewrite <- list_fmap_compose. rewrite <- (list_fmap_id l) at 2. apply list_fmap_ext.
  intros i x Hx. cbn. eapply Forall_lookup_1 in Hx; [|exact Hl]. by apply basis_inverse.
Qed.

Lemma phi_words l : words l → words (tower_to_flat_u128 <$> l).
Proof. intros Hl. apply Forall_fmap. eapply Forall_impl; [exact Hl|]. intros x Hx. by apply phi_range. Qed.

Lemma lanes_list_length state : length (lanes_list state) = 4%nat.
Proof. by destruct state as [[[a b] c] d]. Qed.

Lemma list_lanes_id l : length l = 4%nat → lanes_list (list_lanes l) = l.
Proof. intros L. by list4 l. Qed.

(** The two permutations agree through the change of basis. *)
Lemma flat_permutation_tower state :
  is_state state →
  flat_permutation (lanes_map tower_to_flat_u128 state) = lanes_map tower_to_flat_u128 (Poseidon2b_permute_mut state)
  ∧ is_state (Poseidon2b_permute_mut state).
Proof.
  intros Hs. unfold flat_permutation, Poseidon2b_permute_mut. rewrite !lanes_map_list.
  set (flat := tower_to_flat_u128 <$> lanes_list state).
  assert (length flat = 4%nat) as L by (unfold flat; by rewrite length_fmap, lanes_list_length).
  destruct (permute_flat_words flat (phi_words _ Hs) L) as [Hw Lw].
  rewrite (list_lanes_id flat), list_lanes_id, to_flat_words by (by rewrite ?length_fmap). split; [done|].
  unfold is_state. rewrite list_lanes_id by (by rewrite length_fmap).
  destruct (flat_words_gf _ Hw) as (s & ->). destruct (words_of_gf s) as (l & Hl & <-). by rewrite to_tower_words.
Qed.

Lemma flat_absorb_block state p :
  is_state state → word_pair p →
  absorb_block (P := flat_permutation) (lanes_map tower_to_flat_u128 state) (block_of (flat_pair p))
    = lanes_map tower_to_flat_u128 (absorb_block (P := Poseidon2b_permute_mut) state (block_of p))
  ∧ is_state (absorb_block (P := Poseidon2b_permute_mut) state (block_of p)).
Proof.
  intros Hs [Ha Hb]. destruct p as [a b]. destruct state as [[[s0 s1] s2] s3]. cbn [fst snd] in *.
  assert (∀ x y, is_uint 128 x → is_uint 128 y →
    Block128_from_bytes (take 16 (block_of (x, y))) = x ∧ Block128_from_bytes (take 16 (drop 16 (block_of (x, y)))) = y) as HB.
  { intros x y Hx Hy. unfold block_of, Block128_from_bytes. cbn [fst snd].
    rewrite take_app_length', drop_app_length', take_ge by (rewrite ?length_to_le_bytes; lia).
    split; apply from_to_le_bytes; (exact Hx || exact Hy). }
  unfold is_state, lanes_list, words in Hs. rewrite !Forall_cons, Forall_nil in Hs. destruct Hs as (H0 & H1 & H2 & H3 & _).
  unfold absorb_block, flat_pair, lanes_map. cbn [fst snd].
  destruct (HB a b Ha Hb) as [-> ->], (HB _ _ (phi_range a Ha) (phi_range b Hb)) as [-> ->].
  unfold Block128_add, permute_mut. rewrite <- !tower_to_flat_linear.
  apply (flat_permutation_tower (Z.lxor s0 a, Z.lxor s1 b, s2, s3)). unfold is_state, lanes_list, words.
  rewrite !Forall_cons, Forall_nil. split_and!; try done; apply lxor_range; (lia || done).
Qed.

Lemma flat_absorb_pairs iv pairs :
  word_pair iv → Forall word_pair pairs →
  absorb_pairs (P := flat_permutation) (flat_pair iv) (flat_pair <$> pairs)
    = lanes_map tower_to_flat_u128 (absorb_pairs (P := Poseidon2b_permute_mut) iv pairs)
  ∧ is_state (absorb_pairs (P := Poseidon2b_permute_mut) iv pairs).
Proof.
  intros [Hi Hi'] Hp. unfold absorb_pairs.
  assert (is_state (0, 0, fst iv, snd iv)) as Hs.
  { unfold is_state, lanes_list, words. rewrite !Forall_cons, Forall_nil. split_and!; done || (unfold is_uint; lia). }
  assert ((0, 0, fst (flat_pair iv), snd (flat_pair iv)) = lanes_map tower_to_flat_u128 (0, 0, fst iv, snd iv)) as -> by done.
  revert Hs. generalize (0, 0, fst iv, snd iv). clear Hi Hi' iv.
  induction Hp as [|p pairs Hp Hps IH]; intros state Hs; [done|]. cbn [fmap list_fmap foldl].
  destruct (flat_absorb_block state p Hs Hp) as [-> Hs']. by apply IH.
Qed.

Lemma to_tower_digest_lanes state :
  is_state state → to_tower_digest (lanes_digest (lanes_map tower_to_flat_u128 state)) = lanes_digest state.
Proof.
  intros Hs. destruct state as [[[s0 s1] s2] s3].
  unfold is_state, lanes_list, words in Hs. rewrite !Forall_cons in Hs. destruct Hs as (H0 & H1 & _).
  unfold to_tower_digest, lanes_digest, lanes_map.
  rewrite take_app_length', drop_app_length' by (by rewrite length_to_le_bytes).
  rewrite !from_to_le_bytes by (by apply phi_range).
  by rewrite (proj1 (basis_inverse s0 H0)), (proj1 (basis_inverse s1 H1)).
Qed.

(** The digest of one leaf is the mining digest of its fields. *)
Lemma leaf_digest pairs :
  Forall word_pair pairs →
  to_tower_digest (leaf_sponge_flat_no_pad (capacity_iv_flat TAG_POWHDR) (concat (block_of <$> (flat_pair <$> pairs))))
  = poseidon_pow_digest_from_fields (P := Poseidon2b_permute_mut) (fields_of pairs).
Proof.
  intros Hp. unfold leaf_sponge_flat_no_pad. rewrite (update_pairs (P := flat_permutation)), pow_digest_pairs.
  assert (word_pair (capacity_iv TAG_POWHDR)) as Hiv by (split; vm_compute; done).
  assert (capacity_iv_flat TAG_POWHDR = flat_pair (capacity_iv TAG_POWHDR)) as -> by done.
  destruct (flat_absorb_pairs _ _ Hiv Hp) as [-> Hs]. by apply to_tower_digest_lanes.
Qed.

(** ** Batches *)

Definition flat_bytes (fields : list Z) : list Z := concat ((λ f, to_le_bytes 16 (tower_to_flat_u128 f)) <$> fields).

Lemma flat_bytes_pairs pairs : flat_bytes (fields_of pairs) = concat (block_of <$> (flat_pair <$> pairs)).
Proof.
  unfold flat_bytes, fields_of. induction pairs as [|p pairs IH]; [done|].
  cbn [fmap list_fmap concat app]. rewrite IH. unfold block_of, flat_pair. cbn [fst snd]. by rewrite <- app_assoc.
Qed.

Lemma words_pairs pairs : words (fields_of pairs) → Forall word_pair pairs.
Proof.
  unfold fields_of. induction pairs as [|p pairs IH]; intros Hw; [constructor|].
  cbn [fmap list_fmap concat app] in Hw. unfold words in *. rewrite !Forall_cons in Hw. destruct Hw as (Ha & Hb & Hw).
  constructor; [done|by apply IH].
Qed.

Lemma fields_digest fields :
  (length fields mod 2 = 0)%nat → words fields →
  to_tower_digest (leaf_sponge_flat_no_pad (capacity_iv_flat TAG_POWHDR) (flat_bytes fields))
  = poseidon_pow_digest_from_fields (P := Poseidon2b_permute_mut) fields.
Proof.
  intros He Hw. destruct (even_pairs fields He) as [pairs ->]. rewrite flat_bytes_pairs.
  by apply leaf_digest, words_pairs.
Qed.

(** What a batch hasher keeps between batches: its leaves differ from the
    template at most in the nonce. *)
Definition batch_ok (fields : list Z) (self : FixedFieldNonceBatch) : Prop :=
  fb_iv self = capacity_iv_flat TAG_POWHDR ∧ fb_flat_template self = flat_bytes fields ∧ fb_nonce_offset self = 0%nat
  ∧ Forall (λ leaf, drop 16 leaf = drop 16 (flat_bytes fields)) (fb_flat_leaves self).

Lemma nonce_leaf leaf nonce f fields :
  drop 16 leaf = drop 16 (flat_bytes (f :: fields)) →
  copy_into leaf 0 (to_le_bytes 16 (tower_to_flat_u128 nonce)) = flat_bytes (nonce :: fields).
Proof.
  intros E. unfold copy_into. rewrite length_to_le_bytes, take_0. cbn [app Nat.add]. rewrite E.
  unfold flat_bytes. cbn [fmap list_fmap concat]. by rewrite drop_app_length' by (by rewrite length_to_le_bytes).
Qed.

Lemma hash_into_ok f fields self start_nonce n :
  (length (f :: fields) mod 2 = 0)%nat → words (f :: fields) → 0 ≤ start_nonce → batch_ok (f :: fields) self →
  batch_ok (f :: fields) (fst (hash_into self start_nonce n))
  ∧ snd (hash_into self start_nonce n) =
      (λ i, poseidon_pow_digest_from_fields (P := Poseidon2b_permute_mut)
              (saturating_add 128 start_nonce (Z.of_nat i) :: fields)) <$> seq 0 n.
Proof.
  intros He Hw Hn (Hiv & Ht & Ho & Hl). unfold hash_into. rewrite Hiv, Ht, Ho. cbn [fst snd].
  set (leaves := fb_flat_leaves self ++ _).
  assert (Forall (λ leaf, drop 16 leaf = drop 16 (flat_bytes (f :: fields))) leaves) as Hls.
  { apply Forall_app. split; [done|]. by apply Forall_replicate. }
  assert (length (take n leaves) = n) as Ln.
  { unfold leaves. rewrite length_take, length_app, length_replicate. lia. }
  set (nonce := λ i : nat, saturating_add 128 start_nonce (Z.of_nat i)).
  assert (imap (write_nonce 0 start_nonce) (take n leaves) = (λ i, flat_bytes (nonce i :: fields)) <$> seq 0 n) as E.
  { eapply (list_eq_same_length _ _ n); [by rewrite length_fmap, length_seq|by rewrite length_imap|].
    intros i x y Hi. rewrite list_lookup_imap, list_lookup_fmap, lookup_seq_lt by lia.
    destruct (take n leaves !! i) as [leaf|] eqn:El; [|done]. cbn. intros [= <-] [= <-].
    apply (nonce_leaf _ _ f). by apply (Forall_lookup_1 _ _ _ _ (Forall_take _ n _ Hls) El). }
  rewrite E. split.
  - split_and!; try done. apply Forall_app. split; [|by apply Forall_drop].
    apply Forall_fmap, Forall_true. intros i. unfold compose, flat_bytes. cbn [fmap list_fmap concat].
    by rewrite !drop_app_length' by (by rewrite length_to_le_bytes).
  - rewrite <- list_fmap_compose. apply list_fmap_ext. intros j i _. unfold compose.
    apply fields_digest; [done|]. apply Forall_cons in Hw as [_ Hw]. apply Forall_cons. split; [|done].
    unfold nonce, saturating_add, uint_max, is_uint. lia.
Qed.

Lemma new_batch_ok f fields :
  (length (f :: fields) mod 2 = 0)%nat →
  ∃ self, FixedFieldNonceBatch_new TAG_POWHDR (f :: fields) 0 = Some self ∧ batch_ok (f :: fields) self.
Proof.
  intros He. unfold FixedFieldNonceBatch_new. rewrite He. eexists. split; [reflexivity|]. split_and!; done.
Qed.

(** ** The digest of a header *)

Definition pow_value (walk : bool) (seed : list Z) : list Z :=
  if walk then default [] (result_ok (towerwalk_digest seed)) else seed.

Lemma walk_value scratch seed :
  length (sc_v scratch) = CELLS → is_digest seed →
  ∃ scratch', towerwalk_digest_with scratch seed = Ok (pow_value true seed, scratch') ∧ length (sc_v scratch') = CELLS.
Proof.
  intros L Hs. destruct (towerwalk_total scratch seed L Hs) as (d & sc' & E & E' & _ & L').
  exists sc'. unfold pow_value. rewrite E'. exact (conj E L').
Qed.

Lemma lift_walk_Ok {E A} (m : result (fault Empty_set) A) a : m = Ok a → lift_walk (E := E) m = Ok a.
Proof. by intros ->. Qed.

Section headers.
  Context {P : Poseidon2bPermutation}.

Lemma pow_digest_is_digest fields : is_digest (poseidon_pow_digest_from_fields fields).
Proof.
  unfold poseidon_pow_digest_from_fields, finalize_no_pad, squeeze_32.
  destruct (sp_state _) as [[[s0 s1] s2] s3]. apply two_words_digest.
Qed.

Lemma pow_digest_value scratch header activation :
  length (sc_v scratch) = CELLS →
  ∃ scratch', pow_digest_with scratch header activation
      = Ok (pow_value (v1_4_active_with (bh_height header) activation) (poseidon_pow_digest header), scratch')
    ∧ length (sc_v scratch') = CELLS.
Proof.
  intros L. unfold pow_digest_with. destruct (v1_4_active_with _ _); [|exists scratch; exact (conj eq_refl L)].
  destruct (walk_value scratch (poseidon_pow_digest header) L (pow_digest_is_digest _)) as (sc' & E & L').
  exists sc'. exact (conj (lift_walk_Ok _ _ E) L').
Qed.

(** Whether the header beats its target. *)
Definition pow_ok (header : BlockHeader) : bool :=
  le256_lt (pow_value (v1_4_active (bh_height header)) (poseidon_pow_digest header)) (bh_difficulty_target header).

Lemma validate_pow_spec scratch header :
  length (sc_v scratch) = CELLS →
  if pow_ok header
  then ∃ scratch', validate_pow scratch header
         = Ok (pow_value (v1_4_active (bh_height header)) (poseidon_pow_digest header), scratch')
       ∧ length (sc_v scratch') = CELLS
  else validate_pow scratch header = Err (Fail CE_InvalidPoW).
Proof.
  intros L. unfold validate_pow, pow_digest, pow_ok, v1_4_active.
  destruct (pow_digest_value scratch header V1_4_ACTIVATION_HEIGHT L) as (sc' & -> & L').
  cbn [mbind result_bind]. destruct (le256_lt _ _); [by exists sc'|done].
Qed.

End headers.

(** ** The search *)

Definition with_nonce (h : BlockHeader) (nonce : Z) : BlockHeader :=
  mkBlockHeader (bh_prev_block_hash h) (bh_state_root h) (bh_tx_root h) (bh_timestamp h) (bh_height h)
    (bh_miner_address h) nonce (bh_difficulty_target h) (bh_log_slots h) (bh_active_slot_count h) (bh_alloc_counter h).

(** The first index from [a] on, below [b], with the property. *)
Definition first_index (ok : Z → bool) (a b : Z) (r : option Z) : Prop :=
  match r with
  | None => ∀ i, a ≤ i < b → ok i = false
  | Some i => a ≤ i < b ∧ ok i = true ∧ ∀ j, a ≤ j < i → ok j = false
  end.

Lemma first_index_app ok a b c r :
  a ≤ b ≤ c → first_index ok a b None → first_index ok b c r → first_index ok a c r.
Proof.
  unfold first_index. intros Hab H1. destruct r as [i|].
  - intros (Hi & Ho & Hj). split_and!; [lia..|done|]. intros j Hlt. destruct (Z.lt_ge_cases j b); [apply H1|apply Hj]; lia.
  - intros H2 i Hi. destruct (Z.lt_ge_cases i b); [apply H1|apply H2]; lia.
Qed.

Lemma first_index_ext ok ok' a b r :
  (∀ i, a ≤ i < b → ok i = ok' i) → first_index ok a b r → first_index ok' a b r.
Proof.
  unfold first_index. intros E. destruct r as [i|].
  - intros (Hi & Ho & Hj). split_and!; [lia..|by rewrite <- E by lia|]. intros j Hlt. rewrite <- E by lia. by apply Hj.
  - intros H i Hi. rewrite <- E by lia. by apply H.
Qed.

Lemma first_index_shift ok ok' d b r :
  (∀ i, 0 ≤ i < b → ok i = ok' (d + i)) → first_index ok 0 b r → first_index ok' d (d + b) (Z.add d <$> r).
Proof.
  unfold first_index. intros E. destruct r as [i|]; cbn [fmap option_fmap option_map].
  - intros (Hi & Ho & Hj). split_and!; [lia..|by rewrite <- E by lia|]. intros j Hlt.
    replace j with (d + (j - d)) by lia. rewrite <- E by lia. apply Hj. lia.
  - intros H i Hi. replace i with (d + (i - d)) by lia. rewrite <- E by lia. apply H. lia.
Qed.

Definition scratch_ok (walk : bool) (scratch : option Scratch) : Prop :=
  match scratch with Some sc => walk = true ∧ length (sc_v sc) = CELLS | None => walk = false end.

Lemma search_digests_spec walk target base seeds i scratch :
  Forall is_digest seeds → scratch_ok walk scratch →
  ∃ r scratch', search_digests target base i scratch seeds = Ok (saturating_add 128 base <$> r, scratch')
    ∧ scratch_ok walk scratch'
    ∧ first_index (λ j, le256_lt (pow_value walk (default [] (seeds !! Z.to_nat (j - i)))) target)
        i (i + Z.of_nat (length seeds)) r.
Proof.
  intros Hd. revert i scratch. induction Hd as [|seed seeds Hs Hd IH]; intros i scratch Hsc.
  { exists None, scratch. split_and!; [done..|]. cbn. lia. }
  cbn [search_digests].
  assert (∃ scratch', (match scratch with
      | Some sc => '(d, sc) ← lift_walk (towerwalk_digest_with sc seed); Ok (d, Some sc)
      | None => Ok (seed, None) end : result (fault ConsensusError) (list Z * option Scratch))
      = Ok (pow_value walk seed, scratch') ∧ scratch_ok walk scratch') as (sc' & -> & Hsc').
  { destruct scratch as [sc|]; cbn [scratch_ok] in Hsc; [destruct Hsc as [-> L]|subst walk; by exists None].
    destruct (walk_value sc seed L Hs) as (sc' & E & L'). exists (Some sc'). split; [|done].
    apply bind_Ok. exists (pow_value true seed, sc'). split; [exact (lift_walk_Ok _ _ E)|done]. }
  cbn [mbind result_bind]. destruct (le256_lt _ _) eqn:Hlt.
  - exists (Some i), sc'. split_and!; [done..|]. cbn [first_index length]. rewrite Z.sub_diag. cbn.
    split_and!; [lia..|done|lia].
  - destruct (IH (i + 1) sc' Hsc') as (r & sc'' & -> & Hsc'' & Hr). exists r, sc''. split_and!; [done..|].
    apply (first_index_app _ i (i + 1)); [cbn [length]; lia| |].
    + intros j Hj. replace (j - i) with 0 by lia. done.
    + cbn [length]. replace (i + Z.of_nat (S (length seeds))) with (i + 1 + Z.of_nat (length seeds)) by lia.
      revert Hr. apply first_index_ext. intros j Hj. do 3 f_equal.
      replace (Z.to_nat (j - i)) with (S (Z.to_nat (j - (i + 1)))) by lia. done.
Qed.

Lemma saturating_add_twice base a b :
  0 ≤ base → 0 ≤ a → 0 ≤ b →
  saturating_add 128 (saturating_add 128 base a) b = saturating_add 128 base (a + b).
Proof. unfold saturating_add, uint_max. lia. Qed.

Lemma search_loop_spec fuel walk target start range dn f fields self scratch :
  (length (f :: fields) mod 2 = 0)%nat → words (f :: fields) → 0 ≤ start → is_uint 128 range →
  0 ≤ dn ≤ range → (Z.to_nat (range - dn) < fuel)%nat →
  batch_ok (f :: fields) self → scratch_ok walk scratch →
  ∃ r, search_loop fuel target start range dn self scratch = Some (Ok (saturating_add 128 start <$> r))
    ∧ first_index (λ k, le256_lt (pow_value walk (poseidon_pow_digest_from_fields (P := Poseidon2b_permute_mut)
        (saturating_add 128 start k :: fields))) target) dn range r.
Proof.
  intros He Hw Hs Hr. unfold is_uint in Hr. revert dn self scratch.
  induction fuel as [|fuel IH]; intros dn self scratch Hd Hf Hb Hsc; [lia|].
  cbn [search_loop]. destruct (Z.ltb_spec dn range) as [Hlt|Hge]; [|exists None; split; [done|]; intros k Hk; lia].
  set (len := Z.min (range - dn) 64). assert (0 < len ≤ range - dn) as Hlen by lia.
  assert (0 ≤ saturating_add 128 start dn) as Hbase by (unfold saturating_add, uint_max; lia).
  destruct (hash_into_ok f fields self (saturating_add 128 start dn) (Z.to_nat len) He Hw Hbase Hb) as [Hb' Ed].
  destruct (hash_into self _ _) as [self' digests]. cbn [fst snd] in *. subst digests.
  set (seeds := _ <$> seq 0 (Z.to_nat len)).
  assert (Forall is_digest seeds) as Hsd.
  { apply Forall_fmap, Forall_true. intros i. apply pow_digest_is_digest. }
  destruct (search_digests_spec walk target (saturating_add 128 start dn) seeds 0 scratch Hsd Hsc) as (r & sc' & -> & Hsc' & Hidx).
  assert (first_index (λ k, le256_lt (pow_value walk (poseidon_pow_digest_from_fields (P := Poseidon2b_permute_mut)
    (saturating_add 128 start k :: fields))) target) dn (dn + len) (Z.add dn <$> r)) as Hidx'.
  { assert (Z.of_nat (length seeds) = len) as L by (unfold seeds; rewrite length_fmap, length_seq; lia). rewrite L in Hidx.
    revert Hidx. apply first_index_shift. intros j Hj. rewrite Z.sub_0_r. unfold seeds.
    rewrite list_lookup_fmap, lookup_seq_lt by lia. cbn [fmap option_fmap option_map default Nat.add].
    by rewrite Z2Nat.id, saturating_add_twice by lia. }
  destruct r as [i|]; cbn [fmap option_fmap option_map] in *.
  - exists (Some (dn + i)). split.
    + cbn [fmap option_fmap option_map]. rewrite saturating_add_twice by (destruct Hidx; lia). done.
    + destruct Hidx' as (Hi & Ho & Hj). split_and!; [lia..|done|done].
  - assert (wrapping_add 128 dn len = dn + len) as -> by (apply wrap_small; lia).
    destruct (IH (dn + len) self' sc') as (r & E & Hr'); [lia..|done|done|].
    exists r. split; [exact E|]. by apply (first_index_app _ dn (dn + len)); [lia| |].
Qed.

(** ** Theorems *)

Lemma put_digest_words d : is_digest d → words (put_digest d).
Proof.
  intros [L Hb]. rewrite <- (take_drop 16 d) in Hb. apply byte_string_app in Hb as [H1 H2].
  apply from_le_bytes_bound in H1, H2. rewrite length_take, length_drop, L in *.
  unfold put_digest, words. rewrite !Forall_cons, Forall_nil. done.
Qed.

Lemma pow_header_fields_words h : BlockHeader_wf h → words (pow_header_fields h).
Proof.
  intros []. unfold pow_header_fields, words.
  assert (∀ w x, is_uint w x → w ≤ 128 → is_uint 128 x) as HU by (intros w x; apply is_uint_mono).
  repeat (apply Forall_app; split); try (by apply put_digest_words); rewrite !Forall_cons, Forall_nil;
    split_and!; done || (eapply HU; [eassumption|lia]).
Qed.

Lemma with_nonce_fields h n : pow_header_fields (with_nonce h n) = n :: drop 1 (pow_header_fields h).
Proof. done. Qed.

(** The packed nonce batch computes the scalar digest.  Whatever the
    template, entry [i] of a batch started at a nonce is the Poseidon2b mining
    digest of the header with that nonce plus [i] (saturated at [2^128 - 1]),
    although the batch works in the flat basis on shared leaves. *)
Theorem nonce_batch_is_scalar (h : BlockHeader) (start_nonce : Z) (n : nat) :
  BlockHeader_wf h → 0 ≤ start_nonce →
  ∃ hasher, FixedFieldNonceBatch_new TAG_POWHDR (pow_header_fields h) POW_NONCE_FIELD_INDEX = Some hasher
    ∧ snd (hash_into hasher start_nonce n)
      = (λ i, poseidon_pow_digest (P := Poseidon2b_permute_mut) (with_nonce h (saturating_add 128 start_nonce (Z.of_nat i))))
          <$> seq 0 n.
Proof.
  intros Hh Hs. destruct (new_batch_ok (bh_nonce h) (drop 1 (pow_header_fields h)) eq_refl) as (hasher & E & Hb).
  exists hasher. split; [exact E|]. exact (proj2 (hash_into_ok (bh_nonce h) (drop 1 (pow_header_fields h)) hasher start_nonce n
    eq_refl (pow_header_fields_words h Hh) Hs Hb)).
Qed.

(** C31: the nonce search terminates and is exact.  On every well-formed
    template and every range the loop ends without a panic; it returns the
    first nonce of the range whose header the validator accepts, whatever the
    validator's scratchpad holds, and returns none only when the validator
    rejects every nonce of the range. *)
Theorem search_pow_exact (h : BlockHeader) (start_nonce range : Z) :
  let header k := with_nonce h (saturating_add 128 start_nonce k) in
  let accepts header := ∀ scratch, length (sc_v scratch) = CELLS →
    ∃ digest scratch', validate_pow (P := Poseidon2b_permute_mut) scratch header = Ok (digest, scratch') in
  let rejects header := ∀ scratch, length (sc_v scratch) = CELLS →
    validate_pow (P := Poseidon2b_permute_mut) scratch header = Err (Fail CE_InvalidPoW) in
  BlockHeader_wf h → is_uint 128 start_nonce → is_uint 128 range →
  ∃ found, search_pow h start_nonce range = Some (Ok found)
    ∧ match found with
      | Some nonce => ∃ k, 0 ≤ k < range ∧ nonce = saturating_add 128 start_nonce k ∧ accepts (header k)
          ∧ ∀ j, 0 ≤ j < k → rejects (header j)
      | None => ∀ k, 0 ≤ k < range → rejects (header k)
      end.
Proof.
  intros header accepts rejects Hh Hs Hr.
  destruct (new_batch_ok (bh_nonce h) (drop 1 (pow_header_fields h)) eq_refl) as (hasher & E & Hb).
  set (walk := v1_4_active_with (bh_height h) V1_4_ACTIVATION_HEIGHT).
  assert (scratch_ok walk (if walk then Some Scratch_new else None)) as Hsc.
  { destruct walk; [split; [done|apply Scratch_new_length]|done]. }
  destruct (search_loop_spec (S (Z.to_nat range)) walk (bh_difficulty_target h) start_nonce range 0
    (bh_nonce h) (drop 1 (pow_header_fields h)) hasher (if walk then Some Scratch_new else None) eq_refl (pow_header_fields_words h Hh) (proj1 Hs) Hr) as (r & El & Hidx);
    [destruct Hr; lia..|exact Hb|exact Hsc|].
  exists (saturating_add 128 start_nonce <$> r). split.
  - assert (FixedFieldNonceBatch_new TAG_POWHDR (pow_header_fields h) POW_NONCE_FIELD_INDEX = Some hasher) as E' by exact E.
    unfold search_pow, search_pow_with. rewrite E'. exact El.
  - assert (∀ k, pow_ok (P := Poseidon2b_permute_mut) (header k) = true → accepts (header k)) as HA.
    { intros k Hk scratch L. pose proof (validate_pow_spec (P := Poseidon2b_permute_mut) scratch (header k) L) as H.
      rewrite Hk in H. destruct H as (sc' & H & _). eauto. }
    assert (∀ k, pow_ok (P := Poseidon2b_permute_mut) (header k) = false → rejects (header k)) as HR.
    { intros k Hk scratch L. pose proof (validate_pow_spec (P := Poseidon2b_permute_mut) scratch (header k) L) as H.
      by rewrite Hk in H. }
    destruct r as [k|]; cbn [fmap option_fmap option_map].
    + destruct Hidx as (Hk & Ho & Hj). exists k. split_and!; [lia..|done|by apply HA|]. intros j Hlt. by apply HR, Hj.
    + intros k Hk. by apply HR, Hidx.
Qed.

Lemma nonce_batch_is_scalar_witness :
  ∃ hasher, FixedFieldNonceBatch_new TAG_POWHDR (pow_header_fields example_header) POW_NONCE_FIELD_INDEX = Some hasher
    ∧ snd (hash_into hasher 7 2)
      = (λ i, poseidon_pow_digest (P := Poseidon2b_permute_mut) (with_nonce example_header (saturating_add 128 7 (Z.of_nat i))))
          <$> seq 0 2.
Proof.
  assert (Hwf : BlockHeader_wf example_header) by (constructor; apply (bool_decide_unpack _); vm_compute; exact I).
  apply (nonce_batch_is_scalar example_header 7 2 Hwf). discriminate.
Defined.

Lemma search_pow_exact_witness :
  ∃ found, search_pow example_header 0 100 = Some (Ok found)
    ∧ match found with
      | Some nonce => ∃ k, 0 ≤ k < 100 ∧ nonce = saturating_add 128 0 k
          ∧ (∀ scratch, length (sc_v scratch) = CELLS → ∃ digest scratch',
               validate_pow (P := Poseidon2b_permute_mut) scratch (with_nonce example_header (saturating_add 128 0 k)) = Ok (digest, scratch'))
          ∧ ∀ j, 0 ≤ j < k → ∀ scratch, length (sc_v scratch) = CELLS →
              validate_pow (P := Poseidon2b_permute_mut) scratch (with_nonce example_header (saturating_add 128 0 j)) = Err (Fail CE_InvalidPoW)
      | None => ∀ k, 0 ≤ k < 100 → ∀ scratch, length (sc_v scratch) = CELLS →
          validate_pow (P := Poseidon2b_permute_mut) scratch (with_nonce example_header (saturating_add 128 0 k)) = Err (Fail CE_InvalidPoW)
      end.
Proof.
  assert (Hwf : BlockHeader_wf example_header) by (constructor; apply (bool_decide_unpack _); vm_compute; exact I).
  assert (is_uint 128 0 ∧ is_uint 128 100) as [H0 H1] by (split; split; [discriminate|reflexivity|discriminate|reflexivity]).
  exact (search_pow_exact example_header 0 100 Hwf H0 H1).
Defined.

(** The mining schedule and the block identity absorb the same fields in
    the same order: the sponge of the block id fed with the sixteen mining
    fields, one by one, gives the block id. *)
Theorem pow_schedule_matches_block_id {P : Poseidon2bPermutation} (h : BlockHeader) :
  finalize (foldl absorb (with_iv (capacity_iv TAG_BLOCKHDR)) (pow_header_fields h)) = block_id h.
Proof.
  assert (∀ fields s, foldl absorb s fields = foldl update s (to_le_bytes 16 <$> fields)) as HF.
  { induction fields as [|f fields IH]; intros s; [done|]. cbn [fmap list_fmap]. by rewrite !foldl_cons_eq, IH. }
  rewrite HF, finalize_updates.
  set (parts := [to_le_bytes 16 (bh_nonce h)] ++ (block_of ∘ as_fields <$> [bh_prev_block_hash h; bh_state_root h; bh_tx_root h])
    ++ [to_le_bytes 16 (bh_timestamp h); to_le_bytes 16 (bh_height h)]
    ++ (block_of ∘ as_fields <$> [bh_miner_address h; bh_difficulty_target h])
    ++ (to_le_bytes 16 <$> [bh_log_slots h; bh_active_slot_count h; bh_alloc_counter h])).
  assert (∀ s d, absorb_digest s d = update s (block_of (as_fields d))) as HD by (intros s d; unfold absorb_digest; by destruct (as_fields d)).
  assert (block_id h = finalize (foldl update (with_iv (capacity_iv TAG_BLOCKHDR)) parts)) as ->.
  { unfold block_id, hash_block_header, absorb_header_body, parts, compose. cbn [fmap list_fmap app].
    rewrite !HD, !absorb_update, !foldl_cons_eq. cbn [foldl]. reflexivity. }
  rewrite finalize_updates. f_equal.
Qed.
