(* ===== verification/Header.v ===== *)
(** * Header validation

    [consensus/timestamps.rs], [consensus/slot_expansion.rs] and
    [consensus/header.rs]: the median time past and the future-drift cap, the
    slot-space expansion rule, the pinned blocks of [consensus/params.rs], and
    the validators that join them with the target of [Difficulty] and the
    proof of work of [Pow].  The theorems say exactly which headers each
    validator accepts, what a chain of accepted headers keeps, and which
    timestamp a template may take. *)

From Stdlib Require Import Sorting.Sorted.
From S2P Require Import Prelude Machine Params Poseidon TxTypes BlockHeader ClientObjects Consensus Difficulty DifficultyProps TowerWalk Pow.

(** ** Timestamps *)

Definition median_time_past (prev_timestamps : list Z) : Z :=
  match prev_timestamps with
  | [] => 0
  | _ =>
      let count := Nat.min (length prev_timestamps) (Z.to_nat MEDIAN_TIME_BLOCKS) in
      let recent := drop (length prev_timestamps - count) prev_timestamps in
      nth (count / 2) (merge_sort Z.le recent) 0
  end.

Definition median_u64 (values : list Z) : Z :=
  match values with
  | [] => 0
  | _ => let sorted := merge_sort Z.le values in nth (length sorted / 2) sorted 0
  end.

Definition validate_median_time_past (block_ts : Z) (prev_timestamps : list Z) : result ConsensusError unit :=
  if block_ts <=? median_time_past prev_timestamps then Err CE_BadTimestamp else Ok tt.

Definition validate_future_drift (block_ts local_time : Z) : result ConsensusError unit :=
  if saturating_add 64 local_time MAX_FUTURE_DRIFT <? block_ts then Err CE_BadTimestamp else Ok tt.

Definition validate_timestamp (block_ts : Z) (prev_timestamps : list Z) (local_time : Z) : result ConsensusError unit :=
  _ ← validate_median_time_past block_ts prev_timestamps;
  _ ← validate_future_drift block_ts local_time;
  Ok tt.

(** ** Slot-space expansion *)

Definition finalized_expansion_window (parent_height : Z) : option (Z * Z) :=
  end_ ← checked_sub parent_height CONSENSUS_FINALITY_DEPTH;
  width ← checked_sub EXPANSION_WINDOW 1;
  start ← checked_sub end_ width;
  Some (start, end_).

Definition expected_child_log_slots (parent_height parent_log_slots : Z) (finalized_active_counts : list Z) : Z :=
  match finalized_expansion_window parent_height with
  | None => parent_log_slots
  | Some _ =>
      if negb (Z.of_nat (length finalized_active_counts) =? EXPANSION_WINDOW) then parent_log_slots
      else
        let prev_capacity := if parent_log_slots <? 64 then Z.shiftl 1 parent_log_slots else uint_max 64 in
        let threshold_scaled := saturating_mul 64 prev_capacity EXPAND_NUM in
        let at_or_above :=
          length (filter (λ active, threshold_scaled ≤ saturating_mul 64 active EXPAND_DENOM) finalized_active_counts) in
        if EXPANSION_WINDOW / 2 <? Z.of_nat at_or_above
        then Z.min (saturating_add 32 parent_log_slots 1) LOG_SLOTS_MAX
        else parent_log_slots
  end.

(** ** Pinned blocks *)

Definition HARD_CHECKPOINTS : list (Z * list Z) := [
  (24846, [0x97; 0x97; 0xe7; 0xb0; 0x95; 0x96; 0xbe; 0x35; 0xde; 0x3e; 0x71; 0xfa; 0x13; 0x00; 0xef; 0xb6;
    0x63; 0x1f; 0x95; 0xba; 0x5f; 0x76; 0xad; 0x4f; 0x28; 0x4f; 0xbf; 0x44; 0x0d; 0x7a; 0xa3; 0x3a]);
  (38399, [0x91; 0xea; 0x8a; 0xb3; 0x24; 0xb7; 0xbc; 0xae; 0x81; 0x55; 0x4a; 0x5f; 0x04; 0x68; 0xa2; 0x62;
    0xde; 0x54; 0x25; 0xd8; 0xcc; 0xda; 0x54; 0x9c; 0x9e; 0xe9; 0x04; 0x5d; 0x1f; 0x88; 0xdf; 0x9c]);
  (38400, [0xec; 0x7c; 0x3d; 0xaa; 0x6b; 0xbf; 0x5f; 0xd0; 0x5f; 0x29; 0xff; 0x56; 0x78; 0x2d; 0x2c; 0x56;
    0xd2; 0xb7; 0xf1; 0xbe; 0x88; 0x7a; 0xe3; 0x42; 0xc1; 0x68; 0x01; 0x8f; 0x9e; 0xf4; 0x05; 0xc5]);
  (46079, [0xcf; 0x00; 0xa7; 0xd0; 0x07; 0x82; 0x1c; 0xd3; 0x84; 0x88; 0xec; 0x02; 0x5a; 0x78; 0xa4; 0x56;
    0xbf; 0xaf; 0x7f; 0x69; 0x58; 0x59; 0x56; 0x06; 0x79; 0x8e; 0x0d; 0xe8; 0xa8; 0x52; 0xa6; 0x93]);
  (46080, [0xa2; 0xa9; 0x1f; 0x26; 0xd8; 0xa1; 0x4a; 0x73; 0x46; 0xf1; 0x3d; 0xf1; 0x11; 0x85; 0x1d; 0x5c;
    0x70; 0x3d; 0x32; 0x68; 0xa5; 0x2f; 0x42; 0xce; 0x91; 0x37; 0xde; 0xe8; 0x18; 0xdb; 0x58; 0x5f])
].

Definition HARD_CHECKPOINTS_GENESIS : list Z := [
  0x6e; 0x59; 0x2c; 0x07; 0xbe; 0x6f; 0xd1; 0xb4; 0x25; 0x9e; 0xea; 0xcb; 0xf4; 0xeb; 0x7e; 0xb2;
  0x94; 0x8a; 0x77; 0xf1; 0xd0; 0x26; 0x26; 0xa1; 0x2f; 0xda; 0xb4; 0x2c; 0x44; 0x8c; 0x5f; 0x44
].

Definition hard_checkpoint_in (pins : list (Z * list Z)) (height : Z) : option (list Z) :=
  snd <$> find (λ p, fst p =? height) pins.

Definition hard_checkpoint (height : Z) : option (list Z) := hard_checkpoint_in HARD_CHECKPOINTS height.

(** ** Headers *)

Definition is_final (block_height tip_height : Z) : bool :=
  wrapping_add 64 block_height CONSENSUS_FINALITY_DEPTH <=? tip_height.

Definition parent_timestamp_floor (height parent_timestamp : Z) (v1_6_activation : option Z) : Z :=
  if v1_6_active_with height v1_6_activation
  then saturating_sub parent_timestamp V1_6_PARENT_TIMESTAMP_LAG
  else 0.

Definition lowest_admitted_timestamp_with (height parent_timestamp : Z) (prev_timestamps : list Z)
    (v1_6_activation : option Z) : Z :=
  Z.max (saturating_add 64 (median_time_past prev_timestamps) 1)
    (parent_timestamp_floor height parent_timestamp v1_6_activation).

Definition lowest_admitted_timestamp (height parent_timestamp : Z) (prev_timestamps : list Z) : Z :=
  lowest_admitted_timestamp_with height parent_timestamp prev_timestamps V1_6_ACTIVATION_HEIGHT.

Section validation.
  Context {P : Poseidon2bPermutation}.

Definition check_hard_checkpoint (header : BlockHeader) (pins : list (Z * list Z)) : result ConsensusError unit :=
  match hard_checkpoint_in pins (bh_height header) with
  | Some pinned => if bool_decide (block_id header ≠ pinned) then Err CE_CheckpointMismatch else Ok tt
  | None => Ok tt
  end.

(** The wall-clock rules, only where a local time is given. *)
Definition check_local_time (header parent : BlockHeader) (local_time : option Z) : result ConsensusError unit :=
  match local_time with
  | None => Ok tt
  | Some local_time =>
      if (bh_height parent =? 0) && (local_time <? bh_timestamp parent) then Err CE_BadTimestamp
      else map_err (λ _, CE_BadTimestamp) (validate_future_drift (bh_timestamp header) local_time)
  end.

(** The scratchpad is the thread's. *)
Definition validate_header_inner (scratch : Scratch) (header parent : BlockHeader) (expected_parent_hash : list Z)
    (prev_timestamps finalized_active_counts : list Z) (local_time : option Z) (anchor : AnchorInfo)
    (check_pow : bool) (v1_6_activation : option Z) : result (fault ConsensusError) unit :=
  _ ← map_err Fail (check_hard_checkpoint header HARD_CHECKPOINTS);
  if bool_decide (bh_prev_block_hash header ≠ expected_parent_hash) then Err (Fail CE_BadParentHash)
  else if negb (bh_height header =? wrapping_add 64 (bh_height parent) 1) then Err (Fail CE_BadHeight)
  else
    let expected_target := expected_target anchor (bh_height header) (bh_timestamp parent) in
    if bool_decide (bh_difficulty_target header ≠ expected_target) then Err (Fail CE_BadDifficultyTarget)
    else
      _ ← map_err (λ _, Fail CE_BadTimestamp) (validate_median_time_past (bh_timestamp header) prev_timestamps);
      if bh_timestamp header <? parent_timestamp_floor (bh_height header) (bh_timestamp parent) v1_6_activation
      then Err (Fail CE_BadTimestamp)
      else
        _ ← map_err Fail (check_local_time header parent local_time);
        _ ← (if check_pow then (_ ← validate_pow scratch header; Ok tt) else Ok tt);
        if negb (bh_log_slots header
                 =? expected_child_log_slots (bh_height parent) (bh_log_slots parent) finalized_active_counts)
        then Err (Fail CE_BadLogSlotsExpansion)
        else Ok tt.

Definition validate_header (scratch : Scratch) (header parent : BlockHeader)
    (prev_timestamps finalized_active_counts : list Z) (local_time : Z) (anchor : AnchorInfo) :
    result (fault ConsensusError) unit :=
  validate_header_inner scratch header parent (block_id parent) prev_timestamps finalized_active_counts
    (Some local_time) anchor true V1_6_ACTIVATION_HEIGHT.

Definition validate_header_template (scratch : Scratch) (header parent : BlockHeader)
    (prev_timestamps finalized_active_counts : list Z) (local_time : Z) (anchor : AnchorInfo) :
    result (fault ConsensusError) unit :=
  validate_header_inner scratch header parent (block_id parent) prev_timestamps finalized_active_counts
    (Some local_time) anchor false V1_6_ACTIVATION_HEIGHT.

Definition validate_header_timeless (scratch : Scratch) (header parent : BlockHeader)
    (prev_timestamps finalized_active_counts : list Z) (anchor : AnchorInfo) : result (fault ConsensusError) unit :=
  validate_header_inner scratch header parent (block_id parent) prev_timestamps finalized_active_counts
    None anchor true V1_6_ACTIVATION_HEIGHT.

Definition validate_header_timeless_prehashed_parent (scratch : Scratch) (header parent : BlockHeader)
    (parent_id : list Z) (prev_timestamps finalized_active_counts : list Z) (anchor : AnchorInfo) :
    result (fault ConsensusError) unit :=
  validate_header_inner scratch header parent parent_id prev_timestamps finalized_active_counts
    None anchor true V1_6_ACTIVATION_HEIGHT.

End validation.

(** ** The median *)

(** The number of entries below [x]. *)
Definition count_below (x : Z) (l : list Z) : nat := length (filter (λ t, t < x) l).

Definition recent_timestamps (ts : list Z) : list Z :=
  drop (length ts - Nat.min (length ts) (Z.to_nat MEDIAN_TIME_BLOCKS)) ts.

Lemma sorted_nth_below s k x :
  StronglySorted Z.le s → (k < length s)%nat → nth k s 0 < x ↔ (k < count_below x s)%nat.
Proof.
  intros Hs. revert k. induction Hs as [|a s Hs IH Hall]; intros k Hk; cbn [length] in Hk; [lia|].
  unfold count_below in *. rewrite filter_cons. case_decide as Hax.
  - cbn [length]. destruct k as [|k]; cbn [nth]; [lia|]. rewrite IH by lia. lia.
  - assert (filter (λ t, t < x) s = []) as ->.
    { apply elem_of_nil_inv. intros t Ht. apply list_elem_of_filter in Ht as [Htx Ht].
      rewrite Forall_forall in Hall. specialize (Hall t Ht). lia. }
    cbn [length]. split; [|lia]. intros Hn. exfalso. destruct k as [|k]; cbn [nth] in Hn; [lia|].
    rewrite Forall_forall in Hall. specialize (Hall (nth k s 0)). destruct (nth_lookup_or_length s k 0); [|lia].
    specialize (Hall ltac:(by eapply list_elem_of_lookup_2)). lia.
Qed.

Lemma count_below_perm x l l' : l ≡ₚ l' → count_below x l = count_below x l'.
Proof. intros H. unfold count_below. by rewrite H. Qed.

(** The median lies below [x] when more than half of the recent timestamps
    do. *)
Lemma median_below ts x :
  ts ≠ [] → median_time_past ts < x ↔ (length (recent_timestamps ts) / 2 < count_below x (recent_timestamps ts))%nat.
Proof.
  intros Hne. unfold median_time_past. destruct ts as [|t ts]; [done|]. clear Hne.
  set (l := t :: ts). fold (recent_timestamps l). set (r := recent_timestamps l).
  assert (length r = Nat.min (length l) (Z.to_nat MEDIAN_TIME_BLOCKS)) as L.
  { unfold r, recent_timestamps. rewrite length_drop. lia. }
  rewrite <- L. assert (merge_sort Z.le r ≡ₚ r) as Hp by apply merge_sort_Permutation.
  rewrite (sorted_nth_below _ _ x).
  - by rewrite (count_below_perm x _ _ Hp).
  - apply Sorted_StronglySorted; [apply _|]. apply Sorted_merge_sort. intros a b. lia.
  - rewrite Hp. assert (0 < length r)%nat by (rewrite L; unfold l, MEDIAN_TIME_BLOCKS; cbn [length]; lia).
    apply Nat.div_lt; lia.
Qed.

(** ** The expansion rule *)

(** A full hard-finalized window exists, and a strict majority of it is at
    least three quarters full. *)
Definition expansion_due (parent_height log_slots : Z) (counts : list Z) : Prop :=
  CONSENSUS_FINALITY_DEPTH + EXPANSION_WINDOW - 1 ≤ parent_height
  ∧ Z.of_nat (length counts) = EXPANSION_WINDOW
  ∧ EXPANSION_WINDOW < 2 * Z.of_nat (length (filter (λ active, 3 * 2 ^ log_slots ≤ 4 * active) counts)).

#[global] Instance expansion_due_dec ph log counts : Decision (expansion_due ph log counts).
Proof. apply _. Defined.

Lemma expansion_window_spec ph :
  0 ≤ ph → (∃ w, finalized_expansion_window ph = Some w) ↔ CONSENSUS_FINALITY_DEPTH + EXPANSION_WINDOW - 1 ≤ ph.
Proof.
  intros Hph. unfold finalized_expansion_window. split.
  - intros [w Hw]. destruct (checked_sub ph _) as [e|] eqn:He; [|discriminate]. apply checked_sub_Some in He as [-> He].
    change (checked_sub EXPANSION_WINDOW 1) with (Some (EXPANSION_WINDOW - 1)) in Hw. cbn [mbind option_bind] in Hw.
    destruct (checked_sub (ph - CONSENSUS_FINALITY_DEPTH) (EXPANSION_WINDOW - 1)) as [st|] eqn:Hst; [|discriminate].
    apply checked_sub_Some in Hst as [_ Hst]. lia.
  - intros Hle. unfold CONSENSUS_FINALITY_DEPTH, EXPANSION_WINDOW in *. unfold checked_sub.
    assert ((8 <=? ph) = true) as -> by (apply Z.leb_le; lia). cbn [mbind option_bind].
    change (if 1 <=? 18 then Some (18 - 1) else None) with (Some 17). cbn [mbind option_bind].
    assert ((17 <=? ph - 8) = true) as -> by (apply Z.leb_le; lia). cbn [mbind option_bind]. eauto.
Qed.

Lemma filter_ext_Forall (D R R' : Z → Prop) `{∀ x, Decision (R x), ∀ x, Decision (R' x)} l :
  (∀ x, D x → R x ↔ R' x) → Forall D l → filter R l = filter R' l.
Proof.
  intros HR. induction 1 as [|x l Hx Hl IH]; [done|]. rewrite !filter_cons, IH. specialize (HR x Hx).
  repeat case_decide; (done || tauto).
Qed.

Lemma expected_log_slots_spec ph log counts :
  0 ≤ ph → 0 ≤ log ≤ LOG_SLOTS_MAX → Forall (is_uint 64) counts →
  expected_child_log_slots ph log counts =
    if decide (expansion_due ph log counts) then Z.min (log + 1) LOG_SLOTS_MAX else log.
Proof.
  intros Hph Hlog Hc. pose proof (expansion_window_spec ph Hph) as HW. unfold expected_child_log_slots.
  destruct (finalized_expansion_window ph) as [w|].
  2:{ case_decide as Hd; [|done]. destruct Hd as [Hd _]. apply HW in Hd as [? Hd]. discriminate. }
  assert (CONSENSUS_FINALITY_DEPTH + EXPANSION_WINDOW - 1 ≤ ph) as Hw by (apply HW; eauto).
  destruct (Z.eqb_spec (Z.of_nat (length counts)) EXPANSION_WINDOW) as [Hl|Hl]; cbn [negb].
  2:{ case_decide as Hd; [|done]. by destruct Hd as (_ & Hd & _). }
  assert ((log <? 64) = true) as -> by (apply Z.ltb_lt; unfold LOG_SLOTS_MAX in Hlog; lia).
  rewrite Z.shiftl_1_l. assert (2 ^ log ≤ 2 ^ 32) as Hp by (apply Z.pow_le_mono_r; unfold LOG_SLOTS_MAX in Hlog; lia).
  assert (filter (λ active, saturating_mul 64 (2 ^ log) EXPAND_NUM ≤ saturating_mul 64 active EXPAND_DENOM) counts
    = filter (λ active, 3 * 2 ^ log ≤ 4 * active) counts) as ->.
  { apply (filter_ext_Forall (is_uint 64)); [|done]. intros active Ha. unfold is_uint in Ha.
    pose proof (Z.pow_pos_nonneg 2 log). unfold saturating_mul, uint_max, EXPAND_NUM, EXPAND_DENOM. lia. }
  set (n := length (filter _ counts)). assert (saturating_add 32 log 1 = log + 1) as ->.
  { unfold saturating_add, uint_max, LOG_SLOTS_MAX in *. lia. }
  change (EXPANSION_WINDOW / 2) with 9. destruct (Z.ltb_spec 9 (Z.of_nat n)) as [Hn|Hn]; case_decide as Hd; try done.
  - exfalso. apply Hd. split_and!; [done..|]. fold n. unfold EXPANSION_WINDOW. lia.
  - destruct Hd as (_ & _ & Hd). fold n in Hd. unfold EXPANSION_WINDOW in Hd. lia.
Qed.

(** ** Accepted headers *)

Lemma NoDup_fst_unique (l : list (Z * list Z)) k x y : NoDup (fst <$> l) → (k, x) ∈ l → (k, y) ∈ l → x = y.
Proof.
  intros Hnd Hx Hy. apply list_elem_of_lookup in Hx as [i Hi], Hy as [j Hj].
  assert (i = j) as ->; [|congruence].
  apply (NoDup_lookup (fst <$> l) i j k Hnd); by rewrite list_lookup_fmap, ?Hi, ?Hj.
Qed.

Section accepted.
  Context {P : Poseidon2bPermutation}.

(** The timeless rules other than the proof of work. *)
Record header_rules (header parent : BlockHeader) (timestamps counts : list Z) (anchor : AnchorInfo) : Prop := {
  hr_pinned : ∀ id, (bh_height header, id) ∈ HARD_CHECKPOINTS → block_id header = id;
  hr_parent : bh_prev_block_hash header = block_id parent;
  hr_height : bh_height header = bh_height parent + 1;
  hr_target : bh_difficulty_target header = expected_target anchor (bh_height header) (bh_timestamp parent);
  hr_median : (length (recent_timestamps timestamps) / 2
               < count_below (bh_timestamp header) (recent_timestamps timestamps))%nat;
  hr_floor : ∀ activation, V1_6_ACTIVATION_HEIGHT = Some activation → activation ≤ bh_height header →
             bh_timestamp parent - V1_6_PARENT_TIMESTAMP_LAG ≤ bh_timestamp header;
  hr_slots : bh_log_slots header =
             if decide (expansion_due (bh_height parent) (bh_log_slots parent) counts)
             then Z.min (bh_log_slots parent + 1) LOG_SLOTS_MAX else bh_log_slots parent;
}.

(** The admission rules that read the clock. *)
Definition clock_rules (header parent : BlockHeader) (local_time : Z) : Prop :=
  (bh_height parent = 0 → bh_timestamp parent ≤ local_time)
  ∧ bh_timestamp header ≤ local_time + MAX_FUTURE_DRIFT.

Lemma check_hard_checkpoint_Ok header :
  check_hard_checkpoint header HARD_CHECKPOINTS = Ok tt ↔
  ∀ id, (bh_height header, id) ∈ HARD_CHECKPOINTS → block_id header = id.
Proof.
  unfold check_hard_checkpoint, hard_checkpoint_in.
  assert (NoDup (fst <$> HARD_CHECKPOINTS)) as Hnd by (apply (bool_decide_unpack _); vm_compute; exact I).
  destruct (find _ _) as [[h pinned]|] eqn:F; cbn [fmap option_fmap option_map snd].
  - apply find_some in F as [Hin Hh]. apply list_elem_of_In in Hin. apply Z.eqb_eq in Hh. cbn [fst] in Hh. subst h.
    split.
    + intros H id Hid. case_bool_decide as Hb; [discriminate|]. rewrite Hb.
      by apply (NoDup_fst_unique HARD_CHECKPOINTS (bh_height header)).
    + intros H. rewrite bool_decide_false; [done|]. intros Hne. by apply Hne, H.
  - split; [|done]. intros _ id Hid. apply list_elem_of_In in Hid. apply (find_none _ _ F) in Hid. cbn [fst] in Hid.
    by rewrite Z.eqb_refl in Hid.
Qed.

Lemma validate_header_inner_Ok scratch header parent parent_id ts counts local_time anchor check_pow v1_6 :
  length (sc_v scratch) = CELLS →
  validate_header_inner scratch header parent parent_id ts counts local_time anchor check_pow v1_6 = Ok tt ↔
  check_hard_checkpoint header HARD_CHECKPOINTS = Ok tt
  ∧ bh_prev_block_hash header = parent_id
  ∧ bh_height header = wrapping_add 64 (bh_height parent) 1
  ∧ bh_difficulty_target header = expected_target anchor (bh_height header) (bh_timestamp parent)
  ∧ median_time_past ts < bh_timestamp header
  ∧ parent_timestamp_floor (bh_height header) (bh_timestamp parent) v1_6 ≤ bh_timestamp header
  ∧ check_local_time header parent local_time = Ok tt
  ∧ (check_pow = true → pow_ok header = true)
  ∧ bh_log_slots header = expected_child_log_slots (bh_height parent) (bh_log_slots parent) counts.
Proof.
  intros L. unfold validate_header_inner.
  assert ((_ ← (if check_pow then (_ ← validate_pow scratch header; Ok tt) else Ok tt); 
           (if negb (bh_log_slots header =? expected_child_log_slots (bh_height parent) (bh_log_slots parent) counts)
            then Err (Fail CE_BadLogSlotsExpansion) else Ok tt)) = Ok tt ↔
    (check_pow = true → pow_ok header = true)
    ∧ bh_log_slots header = expected_child_log_slots (bh_height parent) (bh_log_slots parent) counts) as HP.
  { rewrite bind_unit_Ok, if_err_Ok, negb_false_iff, Z.eqb_eq.
    pose proof (validate_pow_spec scratch header L) as HV.
    destruct check_pow; [|intuition done]. destruct (pow_ok header).
    - destruct HV as (sc' & -> & _). cbn [mbind result_bind]. intuition done.
    - rewrite HV. cbn [mbind result_bind]. intuition done. }
  rewrite bind_unit_Ok, map_err_Ok, !if_err_Ok, !bool_decide_eq_false, negb_false_iff, Z.eqb_eq.
  rewrite bind_unit_Ok, map_err_Ok. unfold validate_median_time_past. rewrite !if_err_Ok, Z.leb_gt, Z.ltb_ge.
  rewrite bind_unit_Ok, map_err_Ok, HP. intuition (done || (by apply dec_stable)).
Qed.

Lemma floor_spec header parent :
  0 ≤ bh_timestamp header → 0 ≤ bh_timestamp parent →
  parent_timestamp_floor (bh_height header) (bh_timestamp parent) V1_6_ACTIVATION_HEIGHT ≤ bh_timestamp header ↔
  ∀ activation, V1_6_ACTIVATION_HEIGHT = Some activation → activation ≤ bh_height header →
    bh_timestamp parent - V1_6_PARENT_TIMESTAMP_LAG ≤ bh_timestamp header.
Proof.
  intros Hh Hp. unfold parent_timestamp_floor, v1_6_active_with. destruct V1_6_ACTIVATION_HEIGHT as [act|]; [|by split].
  destruct (Z.leb_spec act (bh_height header)) as [Hle|Hgt]; unfold saturating_sub.
  - split; [intros H a [= <-] _; lia|]. intros H. specialize (H act eq_refl Hle). lia.
  - split; [intros _ a [= <-]; lia|lia].
Qed.

Lemma check_local_time_Ok header parent local_time :
  0 ≤ local_time → local_time + MAX_FUTURE_DRIFT < 2 ^ 64 →
  check_local_time header parent (Some local_time) = Ok tt ↔ clock_rules header parent local_time.
Proof.
  intros H0 Hl. unfold check_local_time, clock_rules, validate_future_drift.
  assert (saturating_add 64 local_time MAX_FUTURE_DRIFT = local_time + MAX_FUTURE_DRIFT) as ->
    by (unfold saturating_add, uint_max; lia).
  rewrite if_err_Ok, map_err_Ok, if_err_Ok, Z.ltb_ge, andb_false_iff, Z.eqb_neq, Z.ltb_ge.
  destruct (decide (bh_height parent = 0)); intuition lia.
Qed.

(** C29: exactly which headers the validators accept.  On well-formed headers
    with a non-empty list of ancestor timestamps, the timeless validator
    accepts a header when it is the pinned block of its height (if one is
    pinned), names its parent, has the next height and the ASERT target, is
    dated after more than half of the last eleven timestamps and, from v1.6
    on, not more than the permitted lag before its parent, grows the slot
    space exactly when a strict majority of a full finalized window is three
    quarters full, and meets its target; admission adds the two clock rules;
    the template check drops the proof of work; and handing over the parent's
    identity changes nothing. *)
Theorem validate_header_iff scratch header parent ts counts local_time anchor :
  BlockHeader_wf header → BlockHeader_wf parent → bh_height parent < uint_max 64 →
  bh_log_slots parent ≤ LOG_SLOTS_MAX → ts ≠ [] → Forall (is_uint 64) counts →
  0 ≤ local_time → local_time + MAX_FUTURE_DRIFT < 2 ^ 64 → length (sc_v scratch) = CELLS →
  let rules := header_rules header parent ts counts anchor in
  (validate_header_timeless scratch header parent ts counts anchor = Ok tt ↔ rules ∧ pow_ok header = true)
  ∧ (validate_header scratch header parent ts counts local_time anchor = Ok tt
     ↔ rules ∧ pow_ok header = true ∧ clock_rules header parent local_time)
  ∧ (validate_header_template scratch header parent ts counts local_time anchor = Ok tt
     ↔ rules ∧ clock_rules header parent local_time)
  ∧ validate_header_timeless_prehashed_parent scratch header parent (block_id parent) ts counts anchor
    = validate_header_timeless scratch header parent ts counts anchor.
Proof.
  intros [] [] Hh Hlog Hts Hc H0 Hl L rules.
  assert (rules ↔ check_hard_checkpoint header HARD_CHECKPOINTS = Ok tt
    ∧ bh_prev_block_hash header = block_id parent
    ∧ bh_height header = wrapping_add 64 (bh_height parent) 1
    ∧ bh_difficulty_target header = expected_target anchor (bh_height header) (bh_timestamp parent)
    ∧ median_time_past ts < bh_timestamp header
    ∧ parent_timestamp_floor (bh_height header) (bh_timestamp parent) V1_6_ACTIVATION_HEIGHT ≤ bh_timestamp header
    ∧ bh_log_slots header = expected_child_log_slots (bh_height parent) (bh_log_slots parent) counts) as HR.
  { rewrite check_hard_checkpoint_Ok, (median_below ts _ Hts), floor_spec by (apply hw_timestamp || apply hw_timestamp0).
    rewrite expected_log_slots_spec by (done || apply hw_height0 || (split; [apply hw_log_slots0|done])).
    assert (wrapping_add 64 (bh_height parent) 1 = bh_height parent + 1) as ->
      by (apply wrap_small; unfold uint_max in Hh; destruct hw_height0; lia).
    split; [intros []; split_and!; done|intros (? & ? & ? & ? & ? & ? & ?); by constructor]. }
  pose proof (check_local_time_Ok header parent local_time H0 Hl) as HC.
  unfold validate_header_timeless, validate_header, validate_header_template, validate_header_timeless_prehashed_parent.
  rewrite !validate_header_inner_Ok, HR, <- HC by done. cbn [check_local_time]. clear. intuition congruence.
Qed.

End accepted.

Lemma validate_header_iff_witness :
  let parent := mkBlockHeader (replicate 32 1) (replicate 32 2) (replicate 32 3) 1700000000 100 (replicate 32 4) 5
                  GENESIS_TARGET 24 12345 99999 in
  let anchor := mkAnchorInfo 0 1699990000 1699990000 GENESIS_TARGET in
  let ok := validate_header_timeless (P := example_permutation) Scratch_new example_header parent [1699999000; 1700000000] [] anchor in
  ok = Ok tt ↔ header_rules (P := example_permutation) example_header parent [1699999000; 1700000000] [] anchor
               ∧ pow_ok (P := example_permutation) example_header = true.
Proof.
  intros parent anchor ok.
  assert (Hwf : BlockHeader_wf example_header) by (constructor; apply (bool_decide_unpack _); vm_compute; exact I).
  assert (Hwf' : BlockHeader_wf parent) by (constructor; apply (bool_decide_unpack _); vm_compute; exact I).
  apply (validate_header_iff (P := example_permutation) Scratch_new example_header parent [1699999000; 1700000000] []
    1700000000 anchor Hwf Hwf'); [reflexivity|discriminate|discriminate|constructor|discriminate|reflexivity|apply Scratch_new_length].
Defined.

(** ** Chains of headers *)

Lemma recent_snoc ts y : ∃ k, recent_timestamps (ts ++ [y]) = drop k (recent_timestamps ts) ++ [y].
Proof.
  unfold recent_timestamps. rewrite length_app. cbn [length]. set (n := length ts). change (Z.to_nat MEDIAN_TIME_BLOCKS) with 11%nat.
  destruct (decide (n < 11)%nat) as [Hlt|Hge].
  - exists 0%nat. replace (n + 1 - (n + 1) `min` 11)%nat with 0%nat by lia.
    replace (n - n `min` 11)%nat with 0%nat by lia. by rewrite !drop_0.
  - exists 1%nat. replace (n + 1 - (n + 1) `min` 11)%nat with (n - 10)%nat by lia.
    rewrite drop_app_le by (fold n; lia). rewrite drop_drop. do 2 f_equal. lia.
Qed.

Lemma count_below_app x l l' : count_below x (l ++ l') = (count_below x l + count_below x l')%nat.
Proof. unfold count_below. by rewrite filter_app, length_app. Qed.

Lemma count_below_drop x k l : (count_below x (drop k l) ≤ count_below x l)%nat.
Proof. rewrite <- (take_drop k l) at 2. rewrite count_below_app. lia. Qed.

(** A timestamp above the median does not lower it. *)
Lemma median_snoc ts y :
  ts ≠ [] → median_time_past ts < y → median_time_past ts ≤ median_time_past (ts ++ [y]).
Proof.
  intros Hne Hy. apply Z.le_ngt. intros Hlt. apply median_below in Hlt; [|by destruct ts].
  assert (¬ (length (recent_timestamps ts) / 2 < count_below (median_time_past ts) (recent_timestamps ts))%nat) as Hself.
  { rewrite <- median_below by done. lia. }
  destruct (recent_snoc ts y) as [k Ek].
  assert (length (recent_timestamps ts) ≤ length (recent_timestamps (ts ++ [y])))%nat as HL.
  { unfold recent_timestamps. rewrite !length_drop, length_app. cbn [length]. lia. }
  rewrite Ek in Hlt at 2. rewrite count_below_app in Hlt.
  pose proof (count_below_drop (median_time_past ts) k (recent_timestamps ts)).
  assert (count_below (median_time_past ts) [y] = 0%nat) as H0.
  { unfold count_below. rewrite filter_cons. case_decide; [lia|done]. }
  pose proof (Nat.Div0.div_le_mono _ _ 2 HL). lia.
Qed.

Section chains.
  Context {P : Poseidon2bPermutation}.

(** Headers accepted one after the other, oldest first, each judged with the
    timestamps of all its ancestors. *)
Inductive header_chain : list BlockHeader → Prop :=
  | header_chain_start first :
      BlockHeader_wf first → bh_log_slots first ≤ LOG_SLOTS_MAX → header_chain [first]
  | header_chain_next headers parent header scratch counts anchor :
      header_chain (headers ++ [parent]) → BlockHeader_wf header → Forall (is_uint 64) counts →
      length (sc_v scratch) = CELLS →
      validate_header_timeless scratch header parent (bh_timestamp <$> (headers ++ [parent])) counts anchor = Ok tt →
      header_chain ((headers ++ [parent]) ++ [header]).

(** What holds between a header and a later one. *)
Definition later (headers : list BlockHeader) (i j : nat) (a b : BlockHeader) : Prop :=
  bh_height b = wrap 64 (bh_height a + Z.of_nat (j - i))
  ∧ bh_log_slots a ≤ bh_log_slots b ≤ LOG_SLOTS_MAX
  ∧ median_time_past (bh_timestamp <$> take (S i) headers) ≤ median_time_past (bh_timestamp <$> take (S j) headers).

Lemma step_slots ph log counts :
  0 ≤ ph → 0 ≤ log ≤ LOG_SLOTS_MAX → Forall (is_uint 64) counts →
  log ≤ expected_child_log_slots ph log counts ≤ LOG_SLOTS_MAX.
Proof. intros Hph Hlog Hc. rewrite expected_log_slots_spec by done. case_decide; unfold LOG_SLOTS_MAX in *; lia. Qed.

Lemma header_chain_wf headers :
  header_chain headers → Forall (λ h, BlockHeader_wf h ∧ bh_log_slots h ≤ LOG_SLOTS_MAX) headers.
Proof.
  induction 1 as [first Hwf Hl|headers parent header scratch counts anchor Hc IH Hwf Hu L Hv]; [by constructor|].
  apply Forall_app. split; [done|]. constructor; [|done]. split; [done|].
  apply Forall_app in IH as [_ IH]. apply Forall_cons in IH as [[Hp Hpl] _].
  apply (validate_header_inner_Ok (P := P)) in Hv as (_ & _ & _ & _ & _ & _ & _ & _ & ->); [|done].
  apply step_slots; [apply Hp|split; [apply Hp|done]|done].
Qed.

Lemma header_chain_ne headers : header_chain headers → headers ≠ [].
Proof. destruct 1; [done|by destruct headers as [|? []]]. Qed.

(** The last header added stands in the relation to its parent. *)
Lemma header_chain_last headers parent header scratch counts anchor :
  header_chain (headers ++ [parent]) → Forall (is_uint 64) counts → length (sc_v scratch) = CELLS →
  validate_header_timeless scratch header parent (bh_timestamp <$> (headers ++ [parent])) counts anchor = Ok tt →
  let n := length headers in
  later ((headers ++ [parent]) ++ [header]) n (S n) parent header
  ∧ bh_prev_block_hash header = block_id parent
  ∧ median_time_past (bh_timestamp <$> (headers ++ [parent])) < bh_timestamp header.
Proof.
  intros Hc Hu L Hv n. pose proof (header_chain_wf _ Hc) as Hwf.
  apply Forall_app in Hwf as [_ Hwf]. apply Forall_cons in Hwf as [[Hp Hpl] _].
  apply (validate_header_inner_Ok (P := P)) in Hv as (_ & Hid & Hh & _ & Hm & _ & _ & _ & Hs); [|done].
  split_and!; [|done|done]. unfold later. split_and!.
  - rewrite Hh. unfold wrapping_add. do 2 f_equal. lia.
  - rewrite Hs. apply step_slots; [apply Hp|split; [apply Hp|done]|done].
  - rewrite Hs. apply step_slots; [apply Hp|split; [apply Hp|done]|done].
  - rewrite (take_ge _ (S (S n))) by (rewrite !length_app; cbn [length]; lia).
    rewrite take_app_length' by (rewrite length_app; cbn [length]; lia).
    rewrite (fmap_app _ (headers ++ [parent])). apply median_snoc; [|done].
    by destruct headers.
Qed.

Lemma later_trans headers i j k a b c :
  (i ≤ j ≤ k)%nat → later headers i j a b → later headers j k b c → later headers i k a c.
Proof.
  intros Hij (H1 & H2 & H3) (H1' & H2' & H3'). unfold later. split_and!; try lia.
  rewrite H1', H1. unfold wrap. rewrite Zplus_mod_idemp_l. f_equal. lia.
Qed.

Lemma later_app headers x i j a b :
  (i < length headers)%nat → (j < length headers)%nat → later headers i j a b → later (headers ++ [x]) i j a b.
Proof. intros Hi Hj. unfold later. by rewrite !(take_app_le headers [x]) by lia. Qed.

(** C30: what every accepted chain of headers keeps.  However the headers were
    judged (whatever slot counts, difficulty anchor and reused proof-of-work
    scratch were supplied), for any header of the chain and any later one: the
    height grows by exactly their distance, the slot space never shrinks and
    never passes its ceiling, the median time past never goes back, and every
    header after the first names the block before it and is dated after the
    median of all the blocks before it. *)
Theorem header_chain_invariant headers i j a b :
  header_chain headers → headers !! i = Some a → headers !! j = Some b → (i < j)%nat →
  later headers i j a b
  ∧ median_time_past (bh_timestamp <$> take j headers) < bh_timestamp b
  ∧ ∃ p, headers !! pred j = Some p ∧ bh_prev_block_hash b = block_id p.
Proof.
  intros Hc. revert i j a b.
  induction Hc as [first Hwf Hl|headers parent header scratch counts anchor Hc IH Hwf Hu L Hv]; intros i j a b Ha Hb Hij.
  { apply list_lookup_singleton_Some in Hb as [-> _]. lia. }
  destruct (header_chain_last _ _ _ _ _ _ Hc Hu L Hv) as (HL & Hid & Hm).
  pose proof (lookup_lt_Some _ _ _ Hb) as Hj. rewrite !length_app in Hj. cbn [length] in Hj.
  set (n := length headers) in *.
  assert (Hp : (headers ++ [parent]) !! n = Some parent) by apply list_lookup_middle, eq_refl.
  assert (Hlen : length (headers ++ [parent]) = S n) by (rewrite length_app; cbn [length]; lia).
  rewrite lookup_app_l in Ha by lia.
  destruct (decide (j = S n)) as [->|Hne].
  - rewrite lookup_app_r in Hb by lia. rewrite Hlen, Nat.sub_diag in Hb. injection Hb as <-.
    rewrite take_app_length' by lia. split_and!; [|done|].
    + destruct (decide (i = n)) as [->|Hin]; [rewrite Hp in Ha; by injection Ha as <-|].
      apply (later_trans _ i n (S n) a parent); [lia| |done].
      apply later_app; [lia|lia|]. apply IH; [done|done|lia].
    + exists parent. rewrite lookup_app_l by (cbn; lia). split; [exact Hp|exact Hid].
  - rewrite lookup_app_l in Hb by lia. destruct (IH i j a b Ha Hb Hij) as (H1 & H2 & p & H3 & H4).
    rewrite take_app_le by lia. split_and!; [|done|].
    + apply later_app; [lia|lia|done].
    + exists p. rewrite lookup_app_l by lia. split; [exact H3|exact H4].
Qed.

End chains.

(** A permutation with small outputs, under which every header meets its
    target. *)
Definition narrow_permutation : Poseidon2bPermutation := λ '(a, b, c, d),
  (wrap 64 (b + 3 * c + 5), wrap 64 (c + 7 * d + 11), wrap 64 (d + a), wrap 64 (a + 9 * b + 1)).

Definition example_parent : BlockHeader :=
  mkBlockHeader (replicate 32 1) (replicate 32 2) (replicate 32 3) 1700000000 100 (replicate 32 4) 5
    GENESIS_TARGET 24 12345 99999.

Definition example_anchor : AnchorInfo := mkAnchorInfo 100 1700000000 1699999990 GENESIS_TARGET.

Definition example_child : BlockHeader :=
  mkBlockHeader (block_id (P := narrow_permutation) example_parent) (replicate 32 2) (replicate 32 3) 1700000600 101
    (replicate 32 4) 5 (expected_target example_anchor 101 1700000000) 24 12345 99999.

Lemma header_chain_invariant_witness :
  median_time_past [1700000000] < 1700000600
  ∧ ∃ p, [example_parent; example_child] !! 0%nat = Some p
    ∧ bh_prev_block_hash example_child = block_id (P := narrow_permutation) p.
Proof.
  apply (header_chain_invariant (P := narrow_permutation) [example_parent; example_child] 0 1 example_parent example_child);
    [|reflexivity|reflexivity|exact (le_n 1)].
  assert (∀ h, h ∈ [example_parent; example_child] → BlockHeader_wf h) as Hwf.
  { intros h Hh. apply elem_of_cons in Hh as [->|Hh%list_elem_of_singleton];
      [|subst h]; constructor; apply (bool_decide_unpack _); vm_compute; exact I. }
  apply (header_chain_next [] example_parent example_child Scratch_new [] example_anchor).
  - apply header_chain_start; [apply Hwf; left|discriminate].
  - apply Hwf. right. left.
  - constructor.
  - apply Scratch_new_length.
  - apply validate_header_inner_Ok; [apply Scratch_new_length|]. split_and!; vm_compute; first [reflexivity|discriminate|intros _; reflexivity].
Defined.

(** ** The lowest timestamp a template may carry *)

(** [lowest_admitted_timestamp] is the least timestamp that passes the median
    and the parent-lag rules, unless the median is already the last u64: there
    it saturates and names a timestamp the median rule refuses. *)
Lemma lowest_admitted_exact height parent_timestamp ts t :
  (0 ≤ median_time_past ts < uint_max 64 →
   lowest_admitted_timestamp height parent_timestamp ts ≤ t ↔
   validate_median_time_past t ts = Ok tt ∧ parent_timestamp_floor height parent_timestamp V1_6_ACTIVATION_HEIGHT ≤ t)
  ∧ (median_time_past ts = uint_max 64 →
     validate_median_time_past (lowest_admitted_timestamp height (uint_max 64) ts) ts = Err CE_BadTimestamp).
Proof.
  unfold lowest_admitted_timestamp, lowest_admitted_timestamp_with, validate_median_time_past. split.
  - intros Hm. unfold saturating_add. rewrite Z.max_lub_iff, if_err_Ok, Z.leb_gt. 
    intuition (try lia; reflexivity).
  - intros ->. rewrite (proj2 (Z.leb_le _ _)); [done|]. apply Z.max_lub; [by vm_compute|].
    unfold parent_timestamp_floor. destruct (v1_6_active_with _ _); by vm_compute.
Qed.
