(* ===== verification/Multiproof.v ===== *)
(** * Sparse Merkle multiproofs

    [jetsam_chain/src/sparse_merkle.rs]: the sparse node cache, the canonical
    frontier of a set of touched slots, the multiproof that carries only the
    frontier hashes, and its projections (structural plan, full paths,
    sequential and segmented updates).  An ordered map of the source is a
    [gmap]; where the source iterates over one, the keys are visited in
    increasing order.  The traversal of one tree level, which five functions
    of the source write out, is [each_parent].  Debug assertions are theorems
    of [MultiproofProps]. *)

From S2P Require Import Prelude Machine Poseidon TxTypes Merkle SlotState SparseRoot.

(** ** Ordered maps and sets *)

(** The keys in increasing order. *)
Definition btree_keys (s : gset Z) : list Z := merge_sort Z.le (elements s).

(** [pos & !1] *)
Definition base_of (pos : Z) : Z := Z.land pos (Z.lnot 1).

(** One level: the parents of the known nodes, each visited once. *)
Definition each_parent {E S} (visit : S → Z → result E S) (keys : list Z) (s : S) : result E S :=
  '(s, _) ← try_fold (λ '(s, processed) pos,
      let base := base_of pos in
      if decide (base ∈ processed) then Ok (s, processed)
      else s ← visit s base; Ok (s, {[base]} ∪ processed)) (s, (∅ : gset Z)) keys;
  Ok s.

(** ** Data *)

Record CanonicalMerkleMultiProof := mkMultiProof { mp_siblings : list (list Z) }.

(** [level], at most 32, and [node_index]. *)
Notation FrontierSiblingPosition := (nat * Z)%type (only parsing).

Inductive StructuralNodeRef :=
  | TouchedLeaf (ordinal : nat)
  | FrontierSibling (ordinal : nat)
  | Combine (ordinal : nat).

Record StructuralCombine := mkCombine { sc_left : StructuralNodeRef; sc_right : StructuralNodeRef }.

Record StructuralFrontierPlan := mkPlan {
  pl_touched_leaf_count : nat;
  pl_frontier_positions : list FrontierSiblingPosition;
  pl_combines : list StructuralCombine;
  pl_root : StructuralNodeRef;
}.

Record StructuralFrontierEvaluation := mkEvaluation { ev_root : list Z; ev_combines : list (list Z) }.

Definition STRUCTURAL_FRONTIER_PAD : list Z := replicate 32 0.

Record ExpandedMerklePath := mkExpandedPath {
  ep_index : Z;
  ep_leaf : list Z;
  ep_siblings : list (list Z);
  ep_directions : list bool;
}.

Record SequentialMerkleUpdatePath := mkUpdatePath {
  up_index : Z;
  up_old_leaf : list Z;
  up_new_leaf : list Z;
  up_siblings : list (list Z);
  up_directions : list bool;
  up_root_before : list Z;
  up_root_after : list Z;
}.

Record SegmentedSequentialMerkleUpdates := mkSegmentedUpdates {
  su_local_depth : nat;
  su_upper_depth : nat;
  su_local_updates : list SequentialMerkleUpdatePath;
  su_segment_updates : list SequentialMerkleUpdatePath;
}.

Record SparseMerkleCache := mkSparseCache {
  smc_depth : nat;
  smc_zero_roots : list (list Z);
  smc_nodes : gmap (nat * Z) (list Z);
}.

(** ** Validation of indices *)

Definition validate_depth (depth : nat) : result SparseMerkleError unit :=
  if decide (32 < depth)%nat then Err (SM_InvalidDepth (Z.of_nat depth)) else Ok tt.

Definition validate_index (index : Z) (depth : nat) : result SparseMerkleError unit :=
  _ ← validate_depth depth;
  let limit := Z.shiftl 1 (Z.of_nat depth) in
  if limit <=? index then Err (SM_IndexOutOfRange index (Z.of_nat depth)) else Ok tt.

Definition check_index (depth : nat) (acc : option Z * gset Z) (index : Z) :
    result SparseMerkleError (option Z * gset Z) :=
  let '(prev, out) := acc in
  _ ← validate_index index depth;
  _ ← match prev with
      | Some prev =>
          if index <? prev then Err SM_UnsortedIndices
          else if index =? prev then Err (SM_DuplicateIndex index) else Ok tt
      | None => Ok tt
      end;
  Ok (Some index, {[index]} ∪ out).

Definition validate_indices (indices : list Z) (depth : nat) : result SparseMerkleError (gset Z) :=
  _ ← validate_depth depth;
  if bool_decide (indices = []) then Err SM_EmptyIndices
  else
    '(_, out) ← try_fold (check_index depth) (None, ∅) indices;
    Ok out.

(** ** The canonical frontier *)

(** The state of one level: the nodes of the next one and the count. *)
Definition count_visit (known : gset Z) (s : gset Z * nat) (base : Z) : result (fault SparseMerkleError) (gset Z * nat) :=
  let '(next, count) := s in
  let left_known := bool_decide (base ∈ known) in
  let right_known := bool_decide (base + 1 ∈ known) in
  Ok ({[base / 2]} ∪ next, if xorb left_known right_known then S count else count).

Definition expected_sibling_count (indices : list Z) (depth : nat) : result (fault SparseMerkleError) nat :=
  known ← map_err Fail (validate_indices indices depth);
  '(_, count) ← try_fold (λ '(known, count) (_ : nat), each_parent (count_visit known) (btree_keys known) (∅, count))
                  (known, 0%nat) (seq 0 depth);
  Ok count.

Definition position_visit (level : nat) (known : gset Z) (s : gset Z * list FrontierSiblingPosition) (base : Z) :
    result (fault SparseMerkleError) (gset Z * list FrontierSiblingPosition) :=
  let '(next, positions) := s in
  positions ←
    match bool_decide (base ∈ known), bool_decide (base + 1 ∈ known) with
    | true, false => Ok (positions ++ [(level, base + 1)])
    | false, true => Ok (positions ++ [(level, base)])
    | true, true => Ok positions
    | false, false => Err Panic
    end;
  Ok ({[base / 2]} ∪ next, positions).

Definition frontier_sibling_positions (indices : list Z) (depth : nat) :
    result (fault SparseMerkleError) (list FrontierSiblingPosition) :=
  known ← map_err Fail (validate_indices indices depth);
  '(_, positions) ← try_fold (λ '(known, positions) level,
                        each_parent (position_visit level known) (btree_keys known) (∅, positions))
                      (known, []) (seq 0 depth);
  Ok positions.

(** [covering_power] and [covering_depth]: the loop doubles at most 64 times. *)
Fixpoint covering (fuel : nat) (touched power : Z) (depth : nat) : Z * nat :=
  match fuel with
  | O => (power, depth)
  | S fuel => if power <? touched then covering fuel touched (2 * power) (S depth) else (power, depth)
  end.

(** [None] is a failed assertion. *)
Definition maximum_sibling_count (touched : nat) (depth : nat) : option nat :=
  if decide (32 < depth)%nat then None
  else if decide (touched = 0%nat) then Some 0%nat
  else
    let touched_u64 := Z.of_nat touched in
    if Z.shiftl 1 (Z.of_nat depth) <? touched_u64 then None
    else
      let '(covering_power, covering_depth) := covering 64 touched_u64 1 0 in
      let maximum := (Z.of_nat depth - Z.of_nat covering_depth) * touched_u64 + covering_power - touched_u64 in
      if uint_max 64 <? maximum then None else Some (Z.to_nat maximum).

(** One candidate number of used segments. *)
Definition segment_candidate (touched log_segment_size segment_tree_depth : nat) (maximum : nat) (used_segments : nat) :
    option nat :=
  let segment_capacity := Z.shiftl 1 (Z.of_nat log_segment_size) in
  let quotient := (touched / used_segments)%nat in
  let remainder := (touched mod used_segments)%nat in
  if (Z.of_nat quotient <=? segment_capacity)
     && ((bool_decide (remainder = 0%nat)) || (Z.of_nat (quotient + 1) <=? segment_capacity))
  then
    let smaller_segments := (used_segments - remainder)%nat in
    small ← maximum_sibling_count quotient log_segment_size;
    large ← (if decide (remainder = 0%nat) then Some 0%nat
             else large ← maximum_sibling_count (quotient + 1) log_segment_size; Some (remainder * large)%nat);
    upper ← maximum_sibling_count used_segments segment_tree_depth;
    Some (Nat.max maximum (smaller_segments * small + large + upper))
  else Some maximum.

Definition maximum_sibling_count_with_segment_cap (touched depth log_segment_size max_segments : nat) : option nat :=
  if decide (32 < depth)%nat then None
  else if decide (depth < log_segment_size)%nat then None
  else if decide (touched = 0%nat) then Some 0%nat
  else if decide (max_segments = 0%nat) then None
  else
    let segment_capacity := Z.shiftl 1 (Z.of_nat log_segment_size) in
    let segment_tree_depth := (depth - log_segment_size)%nat in
    let domain_segments := Z.shiftl 1 (Z.of_nat segment_tree_depth) in
    let capped_segments := Z.min (Z.of_nat max_segments) domain_segments in
    if segment_capacity * capped_segments <? Z.of_nat touched then None
    else
      let max_used_segments := Z.to_nat (Z.min (Z.of_nat touched) capped_segments) in
      foldl (λ acc used, maximum ← acc; segment_candidate touched log_segment_size segment_tree_depth maximum used)
        (Some 0%nat) (seq 1 max_used_segments).

(** A known node and the ordinals of the touched leaves below it. *)
Record Node := mkNode { nd_hash : list Z; nd_leaves : list nat }.

(** Known nodes by level and index. *)
Notation partial_tree := (gmap (nat * Z) (list Z)) (only parsing).

(** The states of the loops. *)
Notation plan_state := (gmap Z StructuralNodeRef * list FrontierSiblingPosition * list StructuralCombine)%type (only parsing).
Notation path_state := (gmap Z Node * nat * list ExpandedMerklePath)%type (only parsing).
Notation climb_state := (partial_tree * list Z * list (list Z) * list bool)%type (only parsing).
Notation update_state := (partial_tree * list Z * list SequentialMerkleUpdatePath)%type (only parsing).

Section multiproof.
  Context {P : Poseidon2bPermutation}.

(** ** The sparse cache *)

Definition SparseMerkleCache_new (depth : nat) : result SparseMerkleError SparseMerkleCache :=
  _ ← validate_depth depth;
  Ok (mkSparseCache depth (zero_slot_roots depth) ∅).

(** [None] is a level outside the table of zero roots. *)
Definition cache_node_hash (c : SparseMerkleCache) (level : nat) (index : Z) : option (list Z) :=
  match smc_nodes c !! (level, index) with
  | Some hash => Some hash
  | None => smc_zero_roots c !! level
  end.

Definition cache_root_hash (c : SparseMerkleCache) : option (list Z) := cache_node_hash c (smc_depth c) 0.

Definition set_node (c : SparseMerkleCache) (level : nat) (index : Z) (hash : list Z) : option SparseMerkleCache :=
  zero ← smc_zero_roots c !! level;
  Some (mkSparseCache (smc_depth c) (smc_zero_roots c)
    (if bool_decide (hash = zero) then delete (level, index) (smc_nodes c)
     else <[(level, index) := hash]> (smc_nodes c))).

Definition set_leaf_level (s : SparseMerkleCache * Z * list Z) (level : nat) :
    result (fault SparseMerkleError) (SparseMerkleCache * Z * list Z) :=
  let '(c, idx, hash) := s in
  let sibling_idx := Z.lxor idx 1 in
  let base := base_of idx in
  sibling ← expect (cache_node_hash c level sibling_idx);
  let '(left_, right_) := if idx =? base then (hash, sibling) else (sibling, hash) in
  let hash := state_node_hash left_ right_ in
  let idx := base / 2 in
  c ← expect (set_node c (S level) idx hash);
  Ok (c, idx, hash).

Definition set_leaf (c : SparseMerkleCache) (index : Z) (leaf : list Z) :
    result (fault SparseMerkleError) SparseMerkleCache :=
  _ ← map_err Fail (validate_index index (smc_depth c));
  c ← expect (set_node c 0 index leaf);
  '(c, _, _) ← try_fold set_leaf_level (c, index, leaf) (seq 0 (smc_depth c));
  Ok c.

Definition from_leaves (depth : nat) (leaves : list (Z * list Z)) : result (fault SparseMerkleError) SparseMerkleCache :=
  cache ← map_err Fail (SparseMerkleCache_new depth);
  try_fold (λ cache '(index, leaf), set_leaf cache index leaf) cache leaves.

Definition build_multiproof (cache : SparseMerkleCache) (indices : list Z) (depth : nat) :
    result (fault SparseMerkleError) CanonicalMerkleMultiProof :=
  if decide (smc_depth cache ≠ depth)
  then Err (Fail (SM_CacheDepthMismatch (Z.of_nat (smc_depth cache)) (Z.of_nat depth)))
  else
    positions ← frontier_sibling_positions indices depth;
    siblings ← try_fold (λ out '(level, node_index),
                   h ← expect (cache_node_hash cache level node_index); Ok (out ++ [h])) [] positions;
    Ok (mkMultiProof siblings).

(** ** Reconstruction *)

Definition reconstruct_visit (siblings : list (list Z)) (known : gmap Z (list Z)) (s : gmap Z (list Z) * nat) (base : Z) :
    result (fault SparseMerkleError) (gmap Z (list Z) * nat) :=
  let '(next, cursor) := s in
  '(parent, cursor) ←
    match known !! base, known !! (base + 1) with
    | Some left_, Some right_ => Ok (state_node_hash left_ right_, cursor)
    | Some left_, None => right_ ← expect (siblings !! cursor); Ok (state_node_hash left_ right_, S cursor)
    | None, Some right_ => left_ ← expect (siblings !! cursor); Ok (state_node_hash left_ right_, S cursor)
    | None, None => Err Panic
    end;
  Ok (<[base / 2 := parent]> next, cursor).

(** [known.into_iter().next()] must be the node 0. *)
Definition first_is_root {A} (known : gmap Z A) (depth : nat) : result (fault SparseMerkleError) A :=
  match btree_keys (dom known) with
  | 0 :: _ => expect (known !! 0)
  | _ => Err (Fail (SM_InvalidDepth (Z.of_nat depth)))
  end.

Definition reconstruct_root (indices : list Z) (leaves siblings : list (list Z)) (depth : nat) :
    result (fault SparseMerkleError) (list Z) :=
  if decide (length indices ≠ length leaves)
  then Err (Fail (SM_LeafCountMismatch (length indices) (length leaves)))
  else
    expected ← expected_sibling_count indices depth;
    if decide (length siblings ≠ expected)
    then Err (Fail (SM_ProofLengthMismatch expected (length siblings)))
    else
      let known := list_to_map (zip indices leaves) in
      '(known, _) ← try_fold (λ '(known, cursor) (_ : nat),
                        each_parent (reconstruct_visit siblings known) (btree_keys (dom known)) (∅, cursor))
                      (known, 0%nat) (seq 0 depth);
      first_is_root known depth.

(** ** The structural plan *)

Definition plan_visit (level : nat) (known : gmap Z StructuralNodeRef) (s : plan_state) (base : Z) :
    result (fault SparseMerkleError) plan_state :=
  let '(next, frontier_positions, combines) := s in
  '(left_, right_, frontier_positions) ←
    match known !! base, known !! (base + 1) with
    | Some left_, Some right_ => Ok (left_, right_, frontier_positions)
    | Some left_, None =>
        Ok (left_, FrontierSibling (length frontier_positions), frontier_positions ++ [(level, base + 1)])
    | None, Some right_ =>
        Ok (FrontierSibling (length frontier_positions), right_, frontier_positions ++ [(level, base)])
    | None, None => Err Panic
    end;
  let combine := Combine (length combines) in
  Ok (<[base / 2 := combine]> next, frontier_positions, combines ++ [mkCombine left_ right_]).

Definition derive_structural_frontier_plan (indices : list Z) (depth : nat) :
    result (fault SparseMerkleError) StructuralFrontierPlan :=
  _ ← map_err Fail (validate_indices indices depth);
  let known : gmap Z StructuralNodeRef := list_to_map (imap (λ ordinal index, (index, TouchedLeaf ordinal)) indices) in
  '(known, frontier_positions, combines) ←
    try_fold (λ '(known, frontier_positions, combines) level,
        each_parent (plan_visit level known) (btree_keys (dom known)) (∅, frontier_positions, combines))
      (known, [], []) (seq 0 depth);
  root ← first_is_root known depth;
  Ok (mkPlan (length indices) frontier_positions combines root).

Definition structural_node_hash (node : StructuralNodeRef) (leaves siblings combines : list (list Z)) :
    result (fault SparseMerkleError) (list Z) :=
  match node with
  | TouchedLeaf ordinal => expect (leaves !! ordinal)
  | FrontierSibling ordinal => expect (siblings !! ordinal)
  | Combine ordinal => expect (combines !! ordinal)
  end.

Definition evaluate_combine (leaves siblings combine_hashes : list (list Z)) (combine : StructuralCombine) :
    result (fault SparseMerkleError) (list (list Z)) :=
  left_ ← structural_node_hash (sc_left combine) leaves siblings combine_hashes;
  right_ ← structural_node_hash (sc_right combine) leaves siblings combine_hashes;
  Ok (combine_hashes ++ [state_node_hash left_ right_]).

Definition evaluate_structural_frontier (plan : StructuralFrontierPlan) (leaves siblings : list (list Z)) :
    result (fault SparseMerkleError) StructuralFrontierEvaluation :=
  if decide (length leaves ≠ pl_touched_leaf_count plan)
  then Err (Fail (SM_LeafCountMismatch (pl_touched_leaf_count plan) (length leaves)))
  else if decide (length siblings ≠ length (pl_frontier_positions plan))
  then Err (Fail (SM_ProofLengthMismatch (length (pl_frontier_positions plan)) (length siblings)))
  else
    combine_hashes ← try_fold (evaluate_combine leaves siblings) [] (pl_combines plan);
    root ← structural_node_hash (pl_root plan) leaves siblings combine_hashes;
    Ok (mkEvaluation root combine_hashes).

(** ** Padding *)

Definition pad_frontier_siblings (indices : list Z) (siblings : list (list Z)) (depth capacity : nat) :
    result (fault SparseMerkleError) (list (list Z)) :=
  required ← expected_sibling_count indices depth;
  if decide (length siblings ≠ required) then Err (Fail (SM_ProofLengthMismatch required (length siblings)))
  else if decide (capacity < required)%nat then Err (Fail (SM_FrontierCapacityExceeded required capacity))
  else Ok (siblings ++ replicate (capacity - length siblings) STRUCTURAL_FRONTIER_PAD).

Definition unpad_frontier_siblings (indices : list Z) (padded : list (list Z)) (depth capacity : nat) :
    result (fault SparseMerkleError) (list (list Z)) :=
  if decide (length padded ≠ capacity) then Err (Fail (SM_PaddedProofLengthMismatch capacity (length padded)))
  else
    required ← expected_sibling_count indices depth;
    if decide (capacity < required)%nat then Err (Fail (SM_FrontierCapacityExceeded required capacity))
    else
      match list_find (λ digest, digest ≠ STRUCTURAL_FRONTIER_PAD) (drop required padded) with
      | Some (offset, _) => Err (Fail (SM_NonCanonicalPadding (required + offset)))
      | None => Ok (take required padded)
      end.

(** ** Full paths *)

Definition set_path_level (level : nat) (sibling : list Z) (is_right : bool) (out : list ExpandedMerklePath)
    (leaf_pos : nat) : result (fault SparseMerkleError) (list ExpandedMerklePath) :=
  p ← expect (out !! leaf_pos);
  siblings ← expect (vec_set (ep_siblings p) (Z.of_nat level) sibling);
  directions ← expect (vec_set (ep_directions p) (Z.of_nat level) is_right);
  Ok (<[leaf_pos := mkExpandedPath (ep_index p) (ep_leaf p) siblings directions]> out).

Definition path_visit (siblings : list (list Z)) (level : nat) (known : gmap Z Node) (s : path_state) (base : Z) :
    result (fault SparseMerkleError) path_state :=
  let '(next, cursor, out) := s in
  '(left_, right_, cursor) ←
    match known !! base, known !! (base + 1) with
    | Some left_, Some right_ => Ok (left_, right_, cursor)
    | Some left_, None => h ← expect (siblings !! cursor); Ok (left_, mkNode h [], S cursor)
    | None, Some right_ => h ← expect (siblings !! cursor); Ok (mkNode h [], right_, S cursor)
    | None, None => Err Panic
    end;
  out ← try_fold (set_path_level level (nd_hash right_) false) out (nd_leaves left_);
  out ← try_fold (set_path_level level (nd_hash left_) true) out (nd_leaves right_);
  Ok (<[base / 2 := mkNode (state_node_hash (nd_hash left_) (nd_hash right_)) (nd_leaves left_ ++ nd_leaves right_)]> next,
      cursor, out).

Definition expand_multiproof_paths (indices : list Z) (leaves siblings : list (list Z)) (depth : nat) :
    result (fault SparseMerkleError) (list ExpandedMerklePath) :=
  if decide (length indices ≠ length leaves)
  then Err (Fail (SM_LeafCountMismatch (length indices) (length leaves)))
  else
    expected ← expected_sibling_count indices depth;
    if decide (length siblings ≠ expected)
    then Err (Fail (SM_ProofLengthMismatch expected (length siblings)))
    else
      let out := (λ '(index, leaf), mkExpandedPath index leaf (replicate depth (replicate 32 0)) (replicate depth false))
                 <$> zip indices leaves in
      let known : gmap Z Node :=
        list_to_map (imap (λ leaf_pos '(index, leaf), (index, mkNode leaf [leaf_pos])) (zip indices leaves)) in
      '(_, _, out) ← try_fold (λ '(known, cursor, out) level,
                        each_parent (path_visit siblings level known) (btree_keys (dom known)) (∅, cursor, out))
                      (known, 0%nat, out) (seq 0 depth);
      Ok out.

(** ** Sequential updates *)

(** The ancestors of the touched leaves, level by level. *)
Definition ancestor_visit (level : nat) (s : gset Z * partial_tree) (base : Z) :
    result (fault SparseMerkleError) (gset Z * partial_tree) :=
  let '(next, nodes) := s in
  left_ ← expect (nodes !! (level, base));
  right_ ← expect (nodes !! (level, base + 1));
  let parent := state_node_hash left_ right_ in
  Ok ({[base / 2]} ∪ next, <[(S level, base / 2) := parent]> nodes).

(** One level of one update. *)
Definition climb (index : Z) (s : climb_state) (level : nat) : result (fault SparseMerkleError) climb_state :=
  let '(nodes, current_hash, path_siblings, directions) := s in
  let position := Z.shiftr index (Z.of_nat level) in
  sibling ← expect (nodes !! (level, Z.lxor position 1));
  let is_right := Z.land position 1 =? 1 in
  let current_hash := if is_right then state_node_hash sibling current_hash else state_node_hash current_hash sibling in
  Ok (<[(S level, position / 2) := current_hash]> nodes, current_hash,
      path_siblings ++ [sibling], directions ++ [is_right]).

Definition update_one (depth : nat) (s : update_state) (step : Z * list Z * list Z) :
    result (fault SparseMerkleError) update_state :=
  let '(nodes, rolling_root, out) := s in
  let '(index, old_leaf, new_leaf) := step in
  let root_before := rolling_root in
  let nodes := <[(0%nat, index) := new_leaf]> nodes in
  '(nodes, rolling_root, path_siblings, directions) ← try_fold (climb index) (nodes, new_leaf, [], []) (seq 0 depth);
  Ok (nodes, rolling_root,
      out ++ [mkUpdatePath index old_leaf new_leaf path_siblings directions root_before rolling_root]).

Definition expand_multiproof_sequential_updates (indices : list Z) (old_leaves new_leaves siblings : list (list Z))
    (depth : nat) : result (fault SparseMerkleError) (list SequentialMerkleUpdatePath) :=
  if decide (length indices ≠ length old_leaves)
  then Err (Fail (SM_LeafCountMismatch (length indices) (length old_leaves)))
  else if decide (length indices ≠ length new_leaves)
  then Err (Fail (SM_LeafCountMismatch (length indices) (length new_leaves)))
  else
    frontier_positions ← frontier_sibling_positions indices depth;
    if decide (length siblings ≠ length frontier_positions)
    then Err (Fail (SM_ProofLengthMismatch (length frontier_positions) (length siblings)))
    else
      let nodes : partial_tree := list_to_map (zip (pair 0%nat <$> indices) old_leaves) in
      let nodes := foldl (λ nodes '(position, sibling), <[position := sibling]> nodes) nodes
                     (zip frontier_positions siblings) in
      '(_, nodes) ← try_fold (λ '(current, nodes) level,
                        each_parent (ancestor_visit level) (btree_keys current) (∅, nodes))
                      (list_to_set indices, nodes) (seq 0 depth);
      rolling_root ← expect (nodes !! (depth, 0));
      '(_, _, out) ← try_fold (update_one depth) (nodes, rolling_root, []) (zip (zip indices old_leaves) new_leaves);
      _ ← reconstruct_root indices new_leaves siblings depth;
      Ok out.

Definition fold_directed_path (leaf : list Z) (siblings : list (list Z)) (directions : list bool) : list Z :=
  foldl (λ current '(sibling, is_right),
           if is_right : bool then state_node_hash sibling current else state_node_hash current sibling)
    leaf (zip siblings directions).

(** ** Segmented updates *)

Definition local_update (local_len : nat) (step : SequentialMerkleUpdatePath) : SequentialMerkleUpdatePath :=
  let siblings := take local_len (up_siblings step) in
  let directions := take local_len (up_directions step) in
  mkUpdatePath (up_index step) (up_old_leaf step) (up_new_leaf step) siblings directions
    (fold_directed_path (up_old_leaf step) siblings directions)
    (fold_directed_path (up_new_leaf step) siblings directions).

Definition segment_of_index (local_depth : nat) (index : Z) : Z :=
  if decide (local_depth = 32%nat) then 0 else Z.shiftr index (Z.of_nat local_depth).

(** The inner loop: the updates that follow in the same segment. *)
Fixpoint segment_run (local_depth : nat) (segment : Z) (full : list SequentialMerkleUpdatePath) : nat :=
  match full with
  | step :: full =>
      if segment_of_index local_depth (up_index step) =? segment then S (segment_run local_depth segment full) else 0
  | [] => 0
  end.

(** The outer loop, over the updates from [start] on; every turn takes at
    least one.  [None] is the fuel exhausted. *)
Fixpoint segment_updates (fuel local_depth : nat) (full : list SequentialMerkleUpdatePath) :
    option (list SequentialMerkleUpdatePath) :=
  match full with
  | [] => Some []
  | first_full :: rest =>
      match fuel with
      | O => None
      | S fuel =>
          let segment := segment_of_index local_depth (up_index first_full) in
          let run := segment_run local_depth segment rest in
          let last_full := default first_full (last (take run rest)) in
          updates ← segment_updates fuel local_depth (drop run rest);
          Some (mkUpdatePath segment (up_root_before (local_update local_depth first_full))
                  (up_root_after (local_update local_depth last_full))
                  (drop local_depth (up_siblings first_full)) (drop local_depth (up_directions first_full))
                  (up_root_before first_full) (up_root_after last_full) :: updates)
      end
  end.

Definition expand_multiproof_segmented_updates (indices : list Z) (old_leaves new_leaves siblings : list (list Z))
    (depth log_segment_size : nat) : result (fault SparseMerkleError) SegmentedSequentialMerkleUpdates :=
  full ← expand_multiproof_sequential_updates indices old_leaves new_leaves siblings depth;
  let local_depth := Nat.min depth log_segment_size in
  let upper_depth := (depth - local_depth)%nat in
  updates ← expect (segment_updates (length full) local_depth full);
  Ok (mkSegmentedUpdates local_depth upper_depth (local_update local_depth <$> full) updates).

End multiproof.
