(* ===== verification/MultiproofProps.v ===== *)
(** * What a multiproof proves

    The frontier of a touched set is described once ([frontier]); the counting,
    listing and hashing loops of [Multiproof] are shown to walk it.  Every
    node of the partial tree then has a [label], fixed by the touched leaves
    and the frontier hashes, and [reconstruct_root] returns the label of the
    root.  From this: the proof built from a tree reconstructs the root of any
    tree that differs from it in the touched slots only, a proof accepted for
    a root authenticates every touched leaf and every frontier hash, the
    sequential updates chain from the old root to the new one, and the size of
    the frontier is bounded. *)

From Stdlib Require Import Sorting.Sorted.
From S2P Require Import Prelude Machine Poseidon TxTypes Merkle SlotState SparseRoot SparseRootProofs Multiproof.

(** ** Parents of a level *)

Lemma base_of_spec pos : base_of pos = 2 * (pos / 2).
Proof.
  unfold base_of. change 1 with (Z.ones 1). rewrite <- Z.ldiff_land, Z.ldiff_ones_r by lia.
  rewrite Z.shiftr_div_pow2, Z.shiftl_mul_pow2 by lia. change (2 ^ 1) with 2. lia.
Qed.

Lemma base_of_half pos : base_of pos / 2 = pos / 2.
Proof. rewrite base_of_spec, Z.mul_comm, Z.div_mul; lia. Qed.

(** The bases visited, in order. *)
Fixpoint bases (processed : gset Z) (keys : list Z) : list Z :=
  match keys with
  | [] => []
  | pos :: keys =>
      if decide (base_of pos ∈ processed) then bases processed keys
      else base_of pos :: bases ({[base_of pos]} ∪ processed) keys
  end.

Lemma each_parent_bases {E S} (visit : S → Z → result E S) keys s :
  each_parent visit keys s = try_fold visit s (bases ∅ keys).
Proof.
  unfold each_parent. generalize (∅ : gset Z). revert s.
  induction keys as [|pos keys IH]; intros s pr; [done|]. cbn [try_fold bases].
  case_decide; [apply IH|]. cbn [try_fold]. destruct (visit s (base_of pos)); [apply IH|done].
Qed.

Lemma elem_of_bases pr keys b : b ∈ bases pr keys ↔ b ∉ pr ∧ ∃ k, k ∈ keys ∧ base_of k = b.
Proof.
  revert pr. induction keys as [|k keys IH]; intros pr; cbn [bases]; [set_solver|].
  case_decide; rewrite ?elem_of_cons, IH.
  - split; [set_solver|]. intros [Hb (k' & Hk' & Hb')]. apply elem_of_cons in Hk' as [->|Hk']; [by subst|eauto].
  - split; [|destruct (decide (b = base_of k)); set_solver].
    intros [->|Hb]; [split; [done|exists k; set_solver]|set_solver].
Qed.

Lemma NoDup_bases pr keys : NoDup (bases pr keys).
Proof.
  revert pr. induction keys as [|k keys IH]; intros pr; cbn [bases]; [constructor|].
  case_decide; [done|]. apply NoDup_cons. split; [|done]. rewrite elem_of_bases. set_solver.
Qed.

Definition level_bases (K : gset Z) : list Z := bases ∅ (btree_keys K).

Definition parents (K : gset Z) : gset Z := set_map (λ k, k / 2) K.

Lemma elem_of_btree_keys K k : k ∈ btree_keys K ↔ k ∈ K.
Proof. unfold btree_keys. by rewrite merge_sort_Permutation, elem_of_elements. Qed.

Lemma elem_of_level_bases K b : b ∈ level_bases K ↔ ∃ k, k ∈ K ∧ base_of k = b.
Proof. unfold level_bases. rewrite elem_of_bases. setoid_rewrite elem_of_btree_keys. set_solver. Qed.

(** A visited base is even and has a known child. *)
Lemma level_base_spec K b :
  b ∈ level_bases K → b = 2 * (b / 2) ∧ b / 2 ∈ parents K ∧ (b ∈ K ∨ b + 1 ∈ K).
Proof.
  rewrite elem_of_level_bases. intros (k & Hk & <-). rewrite base_of_half. split; [by rewrite base_of_spec|].
  split; [apply elem_of_map; eauto|]. rewrite base_of_spec.
  pose proof (Z.div_mod k 2 ltac:(lia)). pose proof (Z.mod_pos_bound k 2 ltac:(lia)).
  destruct (decide (k mod 2 = 0)); [left|right].
  - replace (2 * (k / 2)) with k by lia. done.
  - replace (2 * (k / 2) + 1) with k by lia. done.
Qed.

Lemma parents_bases K : list_to_set ((λ b, b / 2) <$> level_bases K) = parents K.
Proof.
  apply set_eq. intros j. rewrite elem_of_list_to_set, list_elem_of_fmap. unfold parents. rewrite elem_of_map. split.
  - intros (b & -> & (k & Hk & <-)%elem_of_level_bases). exists k. by rewrite base_of_half.
  - intros (k & -> & Hk). exists (base_of k). rewrite base_of_half, elem_of_level_bases. eauto.
Qed.

Lemma half_inj K b b' : b ∈ level_bases K → b' ∈ level_bases K → b / 2 = b' / 2 → b = b'.
Proof. intros (Hb & _)%level_base_spec (Hb' & _)%level_base_spec. lia. Qed.

(** ** The frontier *)

Definition missing (l : nat) (K : gset Z) (b : Z) : list FrontierSiblingPosition :=
  if decide (b ∈ K) then if decide (b + 1 ∈ K) then [] else [(l, b + 1)] else [(l, b)].

Definition level_frontier (l : nat) (K : gset Z) : list FrontierSiblingPosition := level_bases K ≫= missing l K.

Fixpoint frontier (l d : nat) (K : gset Z) : list FrontierSiblingPosition :=
  match d with
  | O => []
  | S d => level_frontier l K ++ frontier (S l) d (parents K)
  end.

(** The touched nodes of a level. *)
Definition touched (K : gset Z) (l : nat) : gset Z := Nat.iter l parents K.

Lemma touched_S K l : touched K (S l) = touched (parents K) l.
Proof. unfold touched. apply Nat.iter_succ_r. Qed.

Lemma position_level l K bs next ps :
  (∀ b, b ∈ bs → b ∈ K ∨ b + 1 ∈ K) →
  try_fold (position_visit l K) (next, ps) bs
  = Ok (list_to_set ((λ b, b / 2) <$> bs) ∪ next, ps ++ (bs ≫= missing l K)).
Proof.
  revert next ps. induction bs as [|b bs IH]; intros next ps Hb.
  { cbn. do 2 f_equal; [set_solver|by rewrite app_nil_r]. }
  cbn [try_fold]. assert (position_visit l K (next, ps) b = Ok ({[b / 2]} ∪ next, ps ++ missing l K b)) as ->.
  { unfold position_visit, missing. specialize (Hb b ltac:(left)).
    case_bool_decide; case_bool_decide; repeat case_decide; try done; cbn; [by rewrite app_nil_r|tauto]. }
  cbn [mbind result_bind]. rewrite IH by (intros b' Hb'; apply Hb; by right).
  rewrite bind_cons, app_assoc. do 2 f_equal. set_solver.
Qed.

Lemma count_level l K bs next c :
  (∀ b, b ∈ bs → b ∈ K ∨ b + 1 ∈ K) →
  try_fold (count_visit K) (next, c) bs
  = Ok (list_to_set ((λ b, b / 2) <$> bs) ∪ next, (c + length (bs ≫= missing l K))%nat).
Proof.
  revert next c. induction bs as [|b bs IH]; intros next c Hb.
  { cbn. do 2 f_equal; [set_solver|lia]. }
  cbn [try_fold]. assert (count_visit K (next, c) b = Ok ({[b / 2]} ∪ next, (c + length (missing l K b))%nat)) as ->.
  { unfold count_visit, missing. specialize (Hb b ltac:(left)).
    case_bool_decide; case_bool_decide; repeat case_decide; try done; cbn; [f_equal; f_equal; lia| | |tauto]; f_equal; f_equal; lia. }
  cbn [mbind result_bind]. rewrite IH by (intros b' Hb'; apply Hb; by right).
  rewrite bind_cons, length_app. do 2 f_equal; [set_solver|lia].
Qed.

Lemma known_child K b : b ∈ level_bases K → b ∈ K ∨ b + 1 ∈ K.
Proof. by intros (_ & _ & H)%level_base_spec. Qed.

Lemma frontier_positions_loop l d K ps :
  try_fold (λ '(known, positions) level, each_parent (position_visit level known) (btree_keys known) (∅, positions))
    (K, ps) (seq l d) = Ok (touched K d, ps ++ frontier l d K).
Proof.
  revert l K ps. induction d as [|d IH]; intros l K ps; cbn [seq try_fold frontier]; [by rewrite app_nil_r|].
  rewrite each_parent_bases. fold (level_bases K). rewrite position_level by apply known_child.
  cbn [mbind result_bind]. rewrite parents_bases, union_empty_r_L, IH, touched_S. by rewrite <- app_assoc.
Qed.

Lemma sibling_count_loop l d K c :
  try_fold (λ '(known, count) (_ : nat), each_parent (count_visit known) (btree_keys known) (∅, count))
    (K, c) (seq l d) = Ok (touched K d, (c + length (frontier l d K))%nat).
Proof.
  revert l K c. induction d as [|d IH]; intros l K c; cbn [seq try_fold frontier]; [f_equal; f_equal; cbn; lia|].
  rewrite each_parent_bases. fold (level_bases K). rewrite (count_level l) by apply known_child.
  cbn [mbind result_bind]. rewrite parents_bases, union_empty_r_L, IH, touched_S, length_app. do 2 f_equal.
  fold (level_frontier l K). lia.
Qed.

(** ** Valid indices *)

Record valid_indices (indices : list Z) (depth : nat) : Prop := {
  vi_depth : (depth ≤ 32)%nat;
  vi_nonempty : indices ≠ [];
  vi_sorted : StronglySorted Z.lt indices;
  vi_range : Forall (λ i, 0 ≤ i < 2 ^ Z.of_nat depth) indices;
}.

Lemma validate_depth_Ok depth : validate_depth depth = Ok tt ↔ (depth ≤ 32)%nat.
Proof. unfold validate_depth. case_decide; split; (done || lia). Qed.

Lemma validate_index_Ok index depth :
  validate_index index depth = Ok tt ↔ (depth ≤ 32)%nat ∧ index < 2 ^ Z.of_nat depth.
Proof.
  unfold validate_index. rewrite bind_unit_Ok, validate_depth_Ok, if_err_Ok, Z.leb_gt, Z.shiftl_1_l. tauto.
Qed.

Lemma check_indices_Ok depth prev out indices r :
  (depth ≤ 32)%nat →
  try_fold (check_index depth) (prev, out) indices = Ok r ↔
  Forall (λ i, i < 2 ^ Z.of_nat depth) indices ∧ StronglySorted Z.lt indices
  ∧ (∀ p, prev = Some p → Forall (Z.lt p) indices)
  ∧ r = (match last indices with Some i => Some i | None => prev end, list_to_set indices ∪ out).
Proof.
  intros Hd. revert prev out. induction indices as [|i indices IH]; intros prev out; cbn [try_fold].
  { cbn. rewrite union_empty_l_L. split; [intros [= <-]|intros (_ & _ & _ & ->)]; [|done].
    split_and!; try constructor. }
  assert (∀ r, check_index depth (prev, out) i = Ok r ↔
    i < 2 ^ Z.of_nat depth ∧ (∀ p, prev = Some p → p < i) ∧ r = (Some i, {[i]} ∪ out)) as Hc.
  { intros r'. unfold check_index. rewrite bind_unit_Ok, validate_index_Ok. destruct prev as [p|]; cbn [mbind result_bind].
    - destruct (Z.ltb_spec i p); [cbn; naive_solver lia|].
      destruct (Z.eqb_spec i p); cbn [mbind result_bind]; [naive_solver lia|].
      split; [intros [[_ ?] [= <-]]; split_and!; [done|intros ? [= <-]; lia|done]|intros (? & _ & ->); done].
    - split; [intros [[_ ?] [= <-]]; done|intros (? & _ & ->); done]. }
  rewrite bind_Ok. setoid_rewrite Hc. rewrite Forall_cons. split.
  - intros (a & (Hi & Hp & ->) & (Hr & Hs & Hf & ->)%IH). specialize (Hf i eq_refl). split_and!; [done|done|by constructor| |].
    + intros p Ep. constructor; [by apply Hp|]. eapply Forall_impl; [done|]. intros x Hx. specialize (Hp p Ep). lia.
    + f_equal; [|cbn; set_solver]. rewrite last_cons. by destruct (last indices).
  - intros ([Hi Hr] & [Hs Hf]%StronglySorted_inv & Hp & ->). eexists. split_and!; [done| |done|].
    + intros p Ep. exact (Forall_inv (Hp p Ep)).
    + apply IH. split_and!; [done|done|by intros p [= <-]|].
      f_equal; [|cbn; set_solver]. rewrite last_cons. by destruct (last indices).
Qed.

Lemma validate_indices_Ok indices depth K :
  Forall (λ i, 0 ≤ i) indices →
  validate_indices indices depth = Ok K ↔ valid_indices indices depth ∧ K = list_to_set indices.
Proof.
  intros H0. unfold validate_indices. rewrite bind_unit_Ok, validate_depth_Ok, if_err_Ok, bool_decide_eq_false, bind_Ok. split.
  - intros (Hd & Hne & (r & Hr & HK)). apply check_indices_Ok in Hr as (Hr & Hs & _ & ->); [|done].
    injection HK as <-. rewrite union_empty_r_L. split; [|done]. split; [done..|]. 
    apply Forall_and. done.
  - intros [[Hd Hne Hs Hr] ->]. split_and!; [done..|]. eexists. rewrite check_indices_Ok by done.
    split; [split_and!; [|done|done|done]|cbn; by rewrite union_empty_r_L].
    eapply Forall_impl; [done|]. intros x Hx. apply Hx.
Qed.

Lemma expected_sibling_count_ok indices depth :
  valid_indices indices depth →
  expected_sibling_count indices depth = Ok (length (frontier 0 depth (list_to_set indices))).
Proof.
  intros Hv. unfold expected_sibling_count.
  assert (validate_indices indices depth = Ok (list_to_set indices)) as ->.
  { apply validate_indices_Ok; [|done]. eapply Forall_impl; [apply Hv|]. intros x Hx. apply Hx. }
  cbn [map_err mbind result_bind]. by rewrite sibling_count_loop.
Qed.

Lemma frontier_sibling_positions_ok indices depth :
  valid_indices indices depth →
  frontier_sibling_positions indices depth = Ok (frontier 0 depth (list_to_set indices)).
Proof.
  intros Hv. unfold frontier_sibling_positions.
  assert (validate_indices indices depth = Ok (list_to_set indices)) as ->.
  { apply validate_indices_Ok; [|done]. eapply Forall_impl; [apply Hv|]. intros x Hx. apply Hx. }
  cbn [map_err mbind result_bind]. by rewrite frontier_positions_loop.
Qed.

(** Invalid indices are refused by both. *)
Lemma invalid_indices_refused indices depth :
  Forall (λ i, 0 ≤ i) indices → ¬ valid_indices indices depth →
  ∃ e, expected_sibling_count indices depth = Err (Fail e) ∧ frontier_sibling_positions indices depth = Err (Fail e).
Proof.
  intros H0 Hn. unfold expected_sibling_count, frontier_sibling_positions.
  destruct (validate_indices indices depth) as [K|e] eqn:E; [|by exists e].
  apply validate_indices_Ok in E as [? _]; done.
Qed.

(** ** Where the frontier lies *)

Lemma elem_of_missing l K b p : p ∈ missing l K b → fst p = l ∧ snd p ∉ K ∧ (snd p = b ∨ snd p = b + 1).
Proof. unfold missing. repeat case_decide; intros Hp; [set_solver| |]; apply list_elem_of_singleton in Hp as ->; cbn; auto. Qed.

Lemma elem_of_level_frontier l K p :
  p ∈ level_frontier l K → fst p = l ∧ snd p ∉ K ∧ snd p / 2 ∈ parents K.
Proof.
  intros (b & Hp & Hb)%list_elem_of_bind. apply elem_of_missing in Hp as (H1 & H2 & H3).
  apply level_base_spec in Hb as (Heven & Hpar & _). split_and!; [done..|].
  replace (snd p / 2) with (b / 2); [done|]. clear -Heven H3. Z.to_euclidean_division_equations. lia.
Qed.

Lemma NoDup_level_frontier l K : NoDup (level_frontier l K).
Proof.
  apply NoDup_bind; [| |apply NoDup_bases].
  - intros b1 b2 p Hb1 Hb2 (_ & _ & H1)%elem_of_missing (_ & _ & H2)%elem_of_missing.
    apply level_base_spec in Hb1 as (Hb1 & _). apply level_base_spec in Hb2 as (Hb2 & _). lia.
  - intros b _. unfold missing. repeat case_decide; [constructor| |]; apply NoDup_singleton.
Qed.

Lemma elem_of_frontier l d K p :
  p ∈ frontier l d K →
  (l ≤ fst p < l + d)%nat ∧ snd p ∉ touched K (fst p - l) ∧ snd p / 2 ∈ touched K (S (fst p - l)).
Proof.
  revert l K. induction d as [|d IH]; intros l K; cbn [frontier]; [set_solver|].
  rewrite elem_of_app. intros [(H1 & H2 & H3)%elem_of_level_frontier|(H1 & H2 & H3)%IH].
  - rewrite H1, Nat.sub_diag. split_and!; [lia|lia|done|done].
  - replace (fst p - l)%nat with (S (fst p - S l)) by lia. rewrite !touched_S in *. split_and!; [lia|lia|done|done].
Qed.

Lemma NoDup_frontier l d K : NoDup (frontier l d K).
Proof.
  revert l K. induction d as [|d IH]; intros l K; cbn [frontier]; [constructor|].
  apply NoDup_app. split_and!; [apply NoDup_level_frontier| |apply IH].
  intros p (H1 & _)%elem_of_level_frontier (H2 & _)%elem_of_frontier. lia.
Qed.

(** ** Labels of the partial tree *)

Section labels.
  Context {P : Poseidon2bPermutation}.

(** Frontier nodes carry their hashes, touched leaves theirs, and every other
    node is the hash of its children. *)
Fixpoint label (fr : gmap (nat * Z) (list Z)) (lf : gmap Z (list Z)) (l : nat) (i : Z) : list Z :=
  match fr !! (l, i) with
  | Some h => h
  | None =>
      match l with
      | O => lf !!! i
      | S l => state_node_hash (label fr lf l (2 * i)) (label fr lf l (2 * i + 1))
      end
  end.

Lemma label_step fr lf l i :
  fr !! (S l, i) = None →
  label fr lf (S l) i = state_node_hash (label fr lf l (2 * i)) (label fr lf l (2 * i + 1)).
Proof. intros H. cbn [label]. by rewrite H. Qed.

Lemma label_frontier fr lf l i h : fr !! (l, i) = Some h → label fr lf l i = h.
Proof. intros H. destruct l; cbn [label]; by rewrite H. Qed.

(** The hash a node takes from its known or missing children. *)
Definition represents fr lf (l : nat) (K : gset Z) (known : gmap Z (list Z)) : Prop :=
  ∀ j, known !! j = if decide (j ∈ K) then Some (label fr lf l j) else None.

Lemma represents_dom fr lf l K known : represents fr lf l K known → dom known = K.
Proof.
  intros H. apply set_eq. intros j. rewrite elem_of_dom, H.
  case_decide; [by split; eauto|]. split; [by intros [? [=]]|done].
Qed.

Lemma base_half K b : b ∈ level_bases K → 2 * (b / 2) = b.
Proof. by intros (H & _)%level_base_spec. Qed.

Lemma reconstruct_level fr lf siblings l K known bs next c :
  represents fr lf l K known → (∀ b, b ∈ bs → b ∈ level_bases K) →
  (∀ b, b ∈ bs → fr !! (S l, b / 2) = None) →
  (∀ k (p : FrontierSiblingPosition), (bs ≫= missing l K) !! k = Some p → siblings !! (c + k)%nat = Some (label fr lf (fst p) (snd p))) →
  ∃ next', try_fold (reconstruct_visit siblings known) (next, c) bs = Ok (next', (c + length (bs ≫= missing l K))%nat)
    ∧ ∀ j, next' !! j = if decide (j ∈ (λ b, b / 2) <$> bs) then Some (label fr lf (S l) j) else next !! j.
Proof.
  intros Hrep. revert next c. induction bs as [|b bs IH]; intros next c Hb Hfr Hsib.
  { exists next. cbn. rewrite Nat.add_0_r. done. }
  assert (reconstruct_visit siblings known (next, c) b
    = Ok (<[b / 2 := label fr lf (S l) (b / 2)]> next, (c + length (missing l K b))%nat)) as Hv.
  { rewrite label_step by (apply Hfr; left). rewrite (base_half K) by (apply Hb; left).
    assert (∀ p, missing l K b = [p] → siblings !! c = Some (label fr lf (fst p) (snd p))) as Hs.
    { intros p Hp. rewrite <- (Nat.add_0_r c). apply Hsib. rewrite bind_cons, Hp. done. }
    unfold reconstruct_visit. rewrite !Hrep. unfold missing in *.
    destruct (decide (b ∈ K)), (decide (b + 1 ∈ K)); rewrite ?(Hs _ eq_refl); cbn; rewrite ?Nat.add_0_r, ?Nat.add_1_r; try done.
    destruct (known_child K b ltac:(apply Hb; left)); tauto. }
  cbn [try_fold]. rewrite Hv. cbn [mbind result_bind].
  destruct (IH (<[b / 2 := label fr lf (S l) (b / 2)]> next) (c + length (missing l K b))%nat) as (next' & -> & Hn).
  { intros b' Hb'. apply Hb. by right. }
  { intros b' Hb'. apply Hfr. by right. }
  { intros k p Hk. rewrite <- Nat.add_assoc. apply Hsib. rewrite bind_cons, lookup_app_r by lia.
    by replace (length (missing l K b) + k - length (missing l K b))%nat with k by lia. }
  exists next'. rewrite bind_cons, length_app. split; [f_equal; f_equal; lia|].
  intros j. rewrite Hn. cbn [fmap list_fmap]. destruct (decide (j ∈ (λ b, b / 2) <$> bs)) as [Hin|Hin].
  - rewrite decide_True by (by right). done.
  - destruct (decide (j = b / 2)) as [->|Hj].
    + rewrite lookup_insert_eq, decide_True by (by left). done.
    + rewrite lookup_insert_ne, decide_False by (rewrite ?elem_of_cons; naive_solver). done.
Qed.

Lemma reconstruct_loop fr lf siblings d l K known c :
  represents fr lf l K known →
  (∀ l' i, (l < l' ≤ l + d)%nat → i ∈ touched K (l' - l) → fr !! (l', i) = None) →
  (∀ k (p : FrontierSiblingPosition), frontier l d K !! k = Some p → siblings !! (c + k)%nat = Some (label fr lf (fst p) (snd p))) →
  ∃ known' c', try_fold (λ '(known, cursor) (_ : nat),
      each_parent (reconstruct_visit siblings known) (btree_keys (dom known)) (∅, cursor)) (known, c) (seq l d)
    = Ok (known', c') ∧ represents fr lf (l + d) (touched K d) known'.
Proof.
  revert l K known c. induction d as [|d IH]; intros l K known c Hrep Hfr Hsib; cbn [seq try_fold frontier].
  { exists known, c. by rewrite Nat.add_0_r. }
  cbn [frontier] in Hsib. rewrite each_parent_bases, (represents_dom _ _ _ _ _ Hrep). fold (level_bases K).
  destruct (reconstruct_level fr lf siblings l K known (level_bases K) ∅ c) as (next & -> & Hn).
  - done.
  - done.
  - intros b Hb. apply Hfr; [lia|]. replace (S l - l)%nat with 1%nat by lia. by apply level_base_spec in Hb as (_ & ? & _).
  - intros k p Hk. apply Hsib. by apply lookup_app_l_Some.
  - cbn [mbind result_bind]. fold (level_frontier l K). destruct (IH (S l) (parents K) next (c + length (level_frontier l K))%nat) as (k' & c' & -> & Hk').
    + intros j. rewrite Hn, <- parents_bases, lookup_empty. apply decide_ext, symmetry, elem_of_list_to_set.
    + intros l' i Hl Hi. apply Hfr; [lia|]. replace (l' - l)%nat with (S (l' - S l)) by lia. by rewrite touched_S.
    + intros k p Hk. rewrite <- Nat.add_assoc. apply Hsib. rewrite lookup_app_r by lia.
      by replace (length (level_frontier l K) + k - length (level_frontier l K))%nat with k by lia.
    + exists k', c'. split; [done|]. by rewrite touched_S, <- Nat.add_succ_comm.
Qed.

Lemma elem_of_touched K l j : j ∈ touched K l ↔ ∃ k, k ∈ K ∧ j = k / 2 ^ Z.of_nat l.
Proof.
  revert K. induction l as [|l IH]; intros K.
  { cbn. setoid_rewrite Z.div_1_r. naive_solver. }
  rewrite touched_S, IH. unfold parents. setoid_rewrite elem_of_map. rewrite Nat2Z.inj_succ, Z.pow_succ_r by lia.
  assert (∀ k, k / 2 / 2 ^ Z.of_nat l = k / (2 * 2 ^ Z.of_nat l)) as Hd by (intros k; apply Z.div_div; lia).
  split; [intros (k & (k0 & -> & Hk0) & ->); exists k0; by rewrite Hd|].
  intros (k & Hk & ->). exists (k / 2). rewrite Hd. naive_solver.
Qed.

Lemma touched_top indices depth : valid_indices indices depth → touched (list_to_set indices) depth = {[0]}.
Proof.
  intros Hv. pose proof (vi_range _ _ Hv) as Hr. rewrite Forall_forall in Hr. apply set_eq. intros j.
  rewrite elem_of_touched, elem_of_singleton. split.
  - intros (k & Hk & ->). apply Z.div_small, Hr. by apply elem_of_list_to_set in Hk.
  - intros ->. pose proof (vi_nonempty _ _ Hv). destruct indices as [|k indices]; [done|]. exists k.
    split; [set_solver|]. symmetry. apply Z.div_small, Hr. left.
Qed.

(** ** The root of a partial tree *)

Definition frontier_map (indices : list Z) (siblings : list (list Z)) (depth : nat) : gmap (nat * Z) (list Z) :=
  list_to_map (zip (frontier 0 depth (list_to_set indices)) siblings).

Definition leaf_map (indices : list Z) (leaves : list (list Z)) : gmap Z (list Z) := list_to_map (zip indices leaves).

Lemma lookup_zip_map {K} `{Countable K} (ks : list K) (vs : list (list Z)) n k v :
  NoDup ks → length vs = length ks → ks !! n = Some k → vs !! n = Some v →
  (list_to_map (zip ks vs) : gmap K (list Z)) !! k = Some v.
Proof.
  intros Hn L Hk Hv. apply elem_of_list_to_map.
  - rewrite fst_zip by lia. done.
  - apply list_elem_of_lookup. exists n. rewrite lookup_zip_with, Hk, Hv. done.
Qed.

Lemma lookup_zip_map_None {K} `{Countable K} (ks : list K) (vs : list (list Z)) k :
  k ∉ ks → (list_to_map (zip ks vs) : gmap K (list Z)) !! k = None.
Proof.
  intros Hk. apply not_elem_of_list_to_map. intros ([k' v] & -> & Hin)%list_elem_of_fmap.
  apply Hk. by apply elem_of_zip_l in Hin.
Qed.

Lemma frontier_map_touched indices siblings depth l i :
  i ∈ touched (list_to_set indices) l → frontier_map indices siblings depth !! (l, i) = None.
Proof.
  intros Hi. apply lookup_zip_map_None. intros (_ & Hn & _)%elem_of_frontier. cbn in Hn. by rewrite Nat.sub_0_r in Hn.
Qed.

Definition sized (indices : list Z) (leaves siblings : list (list Z)) (depth : nat) : Prop :=
  length leaves = length indices ∧ length siblings = length (frontier 0 depth (list_to_set indices)).

Definition partial_label (indices : list Z) (leaves siblings : list (list Z)) (depth : nat) : nat → Z → list Z :=
  label (frontier_map indices siblings depth) (leaf_map indices leaves).

Lemma sorted_NoDup indices : StronglySorted Z.lt indices → NoDup indices.
Proof.
  induction 1 as [|i l Hs IH Hf]; constructor; [|done]. intros Hin. rewrite Forall_forall in Hf. specialize (Hf i Hin). lia.
Qed.

Lemma partial_label_leaf indices leaves siblings depth n i leaf :
  valid_indices indices depth → sized indices leaves siblings depth →
  indices !! n = Some i → leaves !! n = Some leaf → partial_label indices leaves siblings depth 0 i = leaf.
Proof.
  intros Hv [L _] Hi Hl. unfold partial_label. cbn [label].
  rewrite frontier_map_touched by (apply elem_of_list_to_set, list_elem_of_lookup; eauto).
  unfold leaf_map. rewrite (lookup_total_correct _ _ leaf); [done|].
  eapply lookup_zip_map; [apply sorted_NoDup, Hv|done..].
Qed.

Lemma partial_label_sibling indices leaves siblings depth n (p : FrontierSiblingPosition) h :
  sized indices leaves siblings depth → frontier 0 depth (list_to_set indices) !! n = Some p → siblings !! n = Some h →
  partial_label indices leaves siblings depth (fst p) (snd p) = h.
Proof.
  intros [_ L] Hp Hh. apply label_frontier. unfold frontier_map. rewrite <- surjective_pairing.
  eapply lookup_zip_map; [apply NoDup_frontier|done..].
Qed.

Lemma partial_label_step indices leaves siblings depth l i :
  i ∈ touched (list_to_set indices) (S l) →
  partial_label indices leaves siblings depth (S l) i
  = state_node_hash (partial_label indices leaves siblings depth l (2 * i))
      (partial_label indices leaves siblings depth l (2 * i + 1)).
Proof. intros Hi. apply label_step. by apply frontier_map_touched. Qed.

(** The loop computes the label of the root, for any hashes. *)
Lemma reconstruct_root_label indices leaves siblings depth :
  valid_indices indices depth → sized indices leaves siblings depth →
  reconstruct_root indices leaves siblings depth = Ok (partial_label indices leaves siblings depth depth 0).
Proof.
  intros Hv Hs. destruct (Hs) as [L1 L2]. unfold reconstruct_root. rewrite decide_False by (rewrite L1; tauto).
  rewrite expected_sibling_count_ok by done. cbn [mbind result_bind]. rewrite decide_False by tauto.
  destruct (reconstruct_loop (frontier_map indices siblings depth) (leaf_map indices leaves) siblings depth 0
    (list_to_set indices) (leaf_map indices leaves) 0) as (known & c & Hl & Hr).
  - intros j. case_decide as Hj.
    + apply elem_of_list_to_set, list_elem_of_lookup in Hj as [n Hn].
      destruct (lookup_lt_is_Some_2 leaves n) as [leaf Hleaf]; [rewrite L1; by eapply lookup_lt_Some|].
      fold (partial_label indices leaves siblings depth). erewrite partial_label_leaf by done.
      eapply lookup_zip_map; [apply sorted_NoDup, Hv|done..].
    + apply lookup_zip_map_None. by rewrite elem_of_list_to_set in Hj.
  - intros l i _ Hi. apply frontier_map_touched. by rewrite Nat.sub_0_r in Hi.
  - intros k p Hk. destruct (lookup_lt_is_Some_2 siblings k) as [h Hh]; [rewrite L2; by eapply lookup_lt_Some|].
    rewrite Nat.add_0_l, Hh. f_equal. symmetry. by eapply partial_label_sibling.
  - unfold leaf_map in Hl. rewrite Hl. cbn [mbind result_bind]. rewrite Nat.add_0_l, touched_top in Hr by done.
    unfold first_is_root. rewrite (represents_dom _ _ _ _ _ Hr). unfold btree_keys. rewrite elements_singleton.
    cbn [merge_sort]. rewrite Hr, decide_True by set_solver. done.
Qed.

Lemma reconstruct_root_inv indices leaves siblings depth root :
  Forall (λ i, 0 ≤ i) indices → reconstruct_root indices leaves siblings depth = Ok root →
  valid_indices indices depth ∧ sized indices leaves siblings depth.
Proof.
  intros H0. unfold reconstruct_root. case_decide as HL; [done|]. destruct (expected_sibling_count indices depth) as [n|e] eqn:E; [|done].
  cbn [mbind result_bind]. case_decide as HS; [done|]. intros _.
  assert (valid_indices indices depth) as Hv.
  { unfold expected_sibling_count in E. res_inv. match goal with H : validate_indices _ _ = Ok _ |- _ => apply validate_indices_Ok in H end; tauto. }
  split; [done|]. rewrite expected_sibling_count_ok in E by done. injection E as E. unfold sized. lia.
Qed.

(** ** Partial trees and full trees *)

(** The node [i] of level [l] of the tree over [leaf]. *)
Definition tree_label (leaf : Z → list Z) (l : nat) (i : Z) : list Z :=
  merkle_root state_node_hash l leaf (i * 2 ^ Z.of_nat l).

Lemma tree_label_S leaf l i :
  tree_label leaf (S l) i = state_node_hash (tree_label leaf l (2 * i)) (tree_label leaf l (2 * i + 1)).
Proof.
  unfold tree_label. cbn [merkle_root]. rewrite Nat2Z.inj_succ, Z.pow_succ_r by lia. f_equal; f_equal; lia.
Qed.

Lemma children_cover l d K l' i c :
  (l ≤ l' < l + d)%nat → i ∈ touched K (S (l' - l)) → c = 2 * i ∨ c = 2 * i + 1 →
  c ∈ touched K (l' - l) ∨ (l', c) ∈ frontier l d K.
Proof.
  revert l K. induction d as [|d IH]; intros l K Hl Hi Hc; [lia|]. cbn [frontier]. rewrite elem_of_app.
  destruct (decide (l' = l)) as [->|Hne].
  - rewrite Nat.sub_diag in *. cbn [touched Nat.iter] in *. destruct (decide (c ∈ K)) as [|Hn]; [by left|].
    right. left. unfold touched in Hi. cbn [Nat.iter] in Hi. rewrite <- parents_bases, elem_of_list_to_set in Hi.
    apply list_elem_of_fmap in Hi as (b & -> & Hb). apply list_elem_of_bind. exists b. split; [|done].
    rewrite (base_half K b Hb) in Hc. pose proof (known_child K b Hb). unfold missing.
    destruct Hc as [->| ->]; repeat case_decide; try tauto; left.
  - replace (l' - l)%nat with (S (l' - S l)) in * by lia. rewrite touched_S in Hi. rewrite touched_S.
    destruct (IH (S l) (parents K)) as [|]; [lia|done|done|by left|]. right. by right.
Qed.

Definition frontier_hashes (leaf : Z → list Z) (indices : list Z) (depth : nat) : list (list Z) :=
  (λ p, tree_label leaf (fst p) (snd p)) <$> frontier 0 depth (list_to_set indices).

(** Leaves of two trees that differ only in the touched slots. *)
Definition agree_outside (indices : list Z) (f g : Z → list Z) : Prop := ∀ i, i ∉ indices → f i = g i.

Lemma untouched_label indices f g l i :
  agree_outside indices f g → i ∉ touched (list_to_set indices) l → tree_label f l i = tree_label g l i.
Proof.
  intros Hfg Hi. apply merkle_root_ext. intros j Hj. apply Hfg. intros Hin. apply Hi, elem_of_touched. exists j.
  split; [by apply elem_of_list_to_set|]. apply Z.div_unique with (j - i * 2 ^ Z.of_nat l); lia.
Qed.

Lemma frontier_hashes_agree indices f g depth :
  agree_outside indices f g → frontier_hashes f indices depth = frontier_hashes g indices depth.
Proof.
  intros Hfg. apply list_fmap_ext. intros n p (_ & Hn & _)%list_elem_of_lookup_2%elem_of_frontier.
  rewrite Nat.sub_0_r in Hn. by apply (untouched_label indices).
Qed.

Lemma frontier_hashes_sized leaf indices depth : sized indices (leaf <$> indices) (frontier_hashes leaf indices depth) depth.
Proof. unfold sized, frontier_hashes. by rewrite !length_fmap. Qed.

Lemma partial_label_tree leaf indices depth l i :
  valid_indices indices depth → (l ≤ depth)%nat → i ∈ touched (list_to_set indices) l →
  partial_label indices (leaf <$> indices) (frontier_hashes leaf indices depth) depth l i = tree_label leaf l i.
Proof.
  intros Hv. pose proof (frontier_hashes_sized leaf indices depth) as Hs. revert i.
  induction l as [|l IH]; intros i Hl Hi.
  - apply elem_of_list_to_set, list_elem_of_lookup in Hi as [n Hn]. unfold tree_label. cbn [merkle_root].
    eapply partial_label_leaf; [done|done|done|]. rewrite list_lookup_fmap, Hn. cbn. do 2 f_equal. lia.
  - rewrite partial_label_step, tree_label_S by done.
    assert (∀ c, c = 2 * i ∨ c = 2 * i + 1 →
      partial_label indices (leaf <$> indices) (frontier_hashes leaf indices depth) depth l c = tree_label leaf l c) as Hc.
    { intros c Hc. destruct (children_cover 0 depth (list_to_set indices) l i c) as [Ht|Hf]; [lia|by rewrite Nat.sub_0_r|done| |].
      - apply IH; [lia|]. by rewrite Nat.sub_0_r in Ht.
      - apply list_elem_of_lookup in Hf as [n Hn]. apply (partial_label_sibling _ _ _ _ n (l, c)); [done..|].
        unfold frontier_hashes. by rewrite list_lookup_fmap, Hn. }
    rewrite !Hc by tauto. done.
Qed.

(** The proof taken from a tree gives the root of every tree that agrees with
    it outside the touched slots. *)
Lemma reconstruct_complete f g indices depth :
  valid_indices indices depth → agree_outside indices f g →
  reconstruct_root indices (g <$> indices) (frontier_hashes f indices depth) depth
  = Ok (merkle_root state_node_hash depth g 0).
Proof.
  intros Hv Hfg. rewrite (frontier_hashes_agree indices f g) by done.
  rewrite reconstruct_root_label by (done || apply frontier_hashes_sized).
  rewrite partial_label_tree by (done || by rewrite touched_top by done; set_solver). done.
Qed.

(** ** Binding *)

(** A touched node whose children differ from the tree's while their hash does
    not. *)
Definition collides (indices : list Z) (leaves siblings : list (list Z)) (depth : nat) (f : Z → list Z) (l : nat) (i : Z) : Prop :=
  let a := partial_label indices leaves siblings depth l in
  let b := tree_label f l in
  (a (2 * i), a (2 * i + 1)) ≠ (b (2 * i), b (2 * i + 1))
  ∧ state_node_hash (a (2 * i)) (a (2 * i + 1)) = state_node_hash (b (2 * i)) (b (2 * i + 1)).

#[global] Instance collides_dec indices leaves siblings depth f l i : Decision (collides indices leaves siblings depth f l i).
Proof. unfold collides. apply _. Defined.

Definition partial_collision (indices : list Z) (leaves siblings : list (list Z)) (depth : nat) (f : Z → list Z) : Prop :=
  Exists (λ l, Exists (collides indices leaves siblings depth f l) (elements (touched (list_to_set indices) (S l)))) (seq 0 depth).

Lemma no_collision_children indices leaves siblings depth f l i :
  ¬ partial_collision indices leaves siblings depth f → (l < depth)%nat → i ∈ touched (list_to_set indices) (S l) →
  partial_label indices leaves siblings depth (S l) i = tree_label f (S l) i →
  ∀ c, c = 2 * i ∨ c = 2 * i + 1 → partial_label indices leaves siblings depth l c = tree_label f l c.
Proof.
  intros Hn Hl Hi Heq. rewrite partial_label_step, tree_label_S in Heq by done.
  destruct (decide ((partial_label indices leaves siblings depth l (2 * i), partial_label indices leaves siblings depth l (2 * i + 1))
    = (tree_label f l (2 * i), tree_label f l (2 * i + 1)))) as [[= H1 H2]|Hne].
  - intros c [->| ->]; done.
  - destruct Hn. apply Exists_exists. exists l. split; [apply elem_of_seq; lia|]. apply Exists_exists. exists i.
    rewrite elem_of_elements. split; [done|]. by split.
Qed.

Lemma no_collision_labels indices leaves siblings depth f k :
  ¬ partial_collision indices leaves siblings depth f → valid_indices indices depth → (k ≤ depth)%nat →
  partial_label indices leaves siblings depth depth 0 = tree_label f depth 0 →
  ∀ i, i ∈ touched (list_to_set indices) (depth - k) →
  partial_label indices leaves siblings depth (depth - k) i = tree_label f (depth - k) i.
Proof.
  intros Hn Hv Hk H0. induction k as [|k IH]; intros i Hi.
  - rewrite Nat.sub_0_r in *. rewrite touched_top in Hi by done. by apply elem_of_singleton in Hi as ->.
  - replace (depth - k)%nat with (S (depth - S k)) in IH by lia.
    assert (i / 2 ∈ touched (list_to_set indices) (S (depth - S k))) as Hp.
    { unfold touched in *. cbn [Nat.iter]. apply elem_of_map. eauto. }
    apply (no_collision_children _ _ _ _ _ _ (i / 2)); [done|lia|done|apply IH; [lia|done]|].
    Z.to_euclidean_division_equations. lia.
Qed.

Definition write_leaves (f : Z → list Z) (indices : list Z) (new : list (list Z)) (i : Z) : list Z :=
  default (f i) (leaf_map indices new !! i).

Lemma write_leaves_agree f indices new : agree_outside indices f (write_leaves f indices new).
Proof. intros i Hi. unfold write_leaves, leaf_map. by rewrite lookup_zip_map_None. Qed.

Lemma write_leaves_at f indices new :
  NoDup indices → length new = length indices → write_leaves f indices new <$> indices = new.
Proof.
  intros Hn L. apply list_eq. intros n. rewrite list_lookup_fmap. destruct (indices !! n) as [i|] eqn:Ei; cbn.
  - destruct (lookup_lt_is_Some_2 new n) as [h Hh]; [rewrite L; by eapply lookup_lt_Some|]. rewrite Hh. f_equal.
    unfold write_leaves, leaf_map. by rewrite (lookup_zip_map _ _ n i h).
  - symmetry. apply lookup_ge_None. rewrite L. by apply lookup_ge_None.
Qed.

(** A proof accepted for the root of a tree holds its frontier. *)
Lemma accepted_frontier indices leaves siblings depth f :
  valid_indices indices depth → sized indices leaves siblings depth → ¬ partial_collision indices leaves siblings depth f →
  partial_label indices leaves siblings depth depth 0 = merkle_root state_node_hash depth f 0 →
  leaves = f <$> indices ∧ siblings = frontier_hashes f indices depth.
Proof.
  intros Hv Hs Hn H0. destruct (Hs) as [L1 L2].
  assert (∀ l i, (l ≤ depth)%nat → i ∈ touched (list_to_set indices) l →
    partial_label indices leaves siblings depth l i = tree_label f l i) as Hlab.
  { intros l i Hl. replace l with (depth - (depth - l))%nat by lia. apply no_collision_labels; [done|done|lia|done]. }
  split; apply list_eq; intros n.
  - rewrite list_lookup_fmap. destruct (indices !! n) as [i|] eqn:Ei; cbn.
    + destruct (lookup_lt_is_Some_2 leaves n) as [h Hh]; [rewrite L1; by eapply lookup_lt_Some|]. rewrite Hh. f_equal.
      rewrite <- (partial_label_leaf _ _ _ _ _ _ _ Hv Hs Ei Hh), Hlab; [unfold tree_label; cbn; f_equal; lia|lia|].
      apply elem_of_list_to_set, list_elem_of_lookup. eauto.
    + apply lookup_ge_None. rewrite L1. by apply lookup_ge_None.
  - unfold frontier_hashes. rewrite list_lookup_fmap. destruct (frontier 0 depth (list_to_set indices) !! n) as [p|] eqn:Ep; cbn.
    + destruct (lookup_lt_is_Some_2 siblings n) as [h Hh]; [rewrite L2; by eapply lookup_lt_Some|]. rewrite Hh. f_equal.
      rewrite <- (partial_label_sibling _ _ _ _ _ _ _ Hs Ep Hh).
      pose proof (elem_of_frontier _ _ _ _ (list_elem_of_lookup_2 _ _ _ Ep)) as (Hl & _ & Hp). rewrite Nat.sub_0_r in Hp.
      apply (no_collision_children _ _ _ _ _ _ (snd p / 2)); [done|lia|done|apply Hlab; [lia|done]|].
      Z.to_euclidean_division_equations. lia.
    + apply lookup_ge_None. rewrite L2. by apply lookup_ge_None.
Qed.

End labels.

(** C23: what an accepted multiproof proves.  If the touched leaves and the
    frontier hashes reconstruct the root of a tree, then the proof holds an
    explicit collision of the node hash at a touched node, or the leaves are
    the tree's leaves at those slots, and the same frontier with any new
    leaves reconstructs the root of the tree with exactly those slots
    rewritten.  No slot outside the touched set can change. *)
Theorem multiproof_authenticates_update {P : Poseidon2bPermutation} (indices : list Z) (old new siblings : list (list Z))
    (depth : nat) (f : Z → list Z)
    (H0 : Forall (λ i, 0 ≤ i) indices) (Hnew : length new = length indices)
    (Hok : reconstruct_root indices old siblings depth = Ok (merkle_root state_node_hash depth f 0)) :
  partial_collision indices old siblings depth f
  ∨ old = f <$> indices
    ∧ reconstruct_root indices new siblings depth
      = Ok (merkle_root state_node_hash depth (write_leaves f indices new) 0).
Proof.
  destruct (reconstruct_root_inv _ _ _ _ _ H0 Hok) as [Hv Hs].
  rewrite reconstruct_root_label in Hok by done. injection Hok as Hok.
  destruct (decide (partial_collision indices old siblings depth f)) as [Hc|Hc]; [by left|right].
  destruct (accepted_frontier _ _ _ _ _ Hv Hs Hc Hok) as [Hold ->]. split; [done|].
  rewrite <- (write_leaves_at f indices new) at 1 by (done || apply sorted_NoDup, Hv).
  apply reconstruct_complete; [done|apply write_leaves_agree].
Qed.

Lemma multiproof_authenticates_update_witness :
  let f := λ i : Z, to_le_bytes 32 (i + 7) in
  let indices := [1; 2; 5] in
  let siblings := frontier_hashes (P := example_permutation) f indices 3 in
  let new := [replicate 32 1; replicate 32 2; replicate 32 3] in
  partial_collision (P := example_permutation) indices (f <$> indices) siblings 3 f
  ∨ f <$> indices = f <$> indices
    ∧ reconstruct_root (P := example_permutation) indices new siblings 3
      = Ok (merkle_root (state_node_hash (P := example_permutation)) 3 (write_leaves f indices new) 0).
Proof.
  intros f indices siblings new.
  apply (multiproof_authenticates_update (P := example_permutation) indices (f <$> indices) new siblings 3 f).
  - repeat constructor; discriminate.
  - reflexivity.
  - vm_compute. reflexivity.
Defined.

(** ** The sparse cache *)

Section cache.
  Context {P : Poseidon2bPermutation}.

(** The cache answers with the nodes of the tree over [f]. *)
Record cache_rep (c : SparseMerkleCache) (f : Z → list Z) : Prop := {
  cr_depth : (smc_depth c ≤ 32)%nat;
  cr_zero : smc_zero_roots c = zero_slot_roots (smc_depth c);
  cr_node : ∀ l i, (l ≤ smc_depth c)%nat → 0 ≤ i < 2 ^ Z.of_nat (smc_depth c - l) →
    cache_node_hash c l i = Some (tree_label f l i);
}.

Lemma set_node_hash c l i h c' l' i' :
  set_node c l i h = Some c' →
  smc_depth c' = smc_depth c ∧ smc_zero_roots c' = smc_zero_roots c
  ∧ cache_node_hash c' l' i' = if decide ((l', i') = (l, i)) then Some h else cache_node_hash c l' i'.
Proof.
  unfold set_node. destruct (smc_zero_roots c !! l) as [z|] eqn:Ez; [|done]. intros [= <-]. split_and!; [done..|].
  unfold cache_node_hash. cbn. case_bool_decide as Hh; case_decide as He.
  - injection He as -> ->. by rewrite lookup_delete_eq, Ez, Hh.
  - by rewrite lookup_delete_ne by congruence.
  - injection He as -> ->. by rewrite lookup_insert_eq.
  - by rewrite lookup_insert_ne by congruence.
Qed.

Lemma set_node_total c l i h : (l < length (smc_zero_roots c))%nat → ∃ c', set_node c l i h = Some c'.
Proof. intros [z Hz]%lookup_lt_is_Some_2. unfold set_node. rewrite Hz. eauto. Qed.

Definition write_leaf (f : Z → list Z) (index : Z) (leaf : list Z) (i : Z) : list Z :=
  if decide (i = index) then leaf else f i.

Lemma write_leaf_label f index leaf l i :
  i ≠ index / 2 ^ Z.of_nat l → tree_label (write_leaf f index leaf) l i = tree_label f l i.
Proof.
  intros Hi. apply (untouched_label [index]).
  - intros j Hj. unfold write_leaf. rewrite decide_False; set_solver.
  - rewrite elem_of_touched. intros (k & Hk & ->). apply Hi. cbn in Hk. assert (k = index) by set_solver. congruence.
Qed.

(** The sibling of a node. *)
Lemma lxor_1 i : 0 ≤ i → Z.lxor i 1 = if i =? base_of i then i + 1 else i - 1.
Proof.
  intros Hi. rewrite base_of_spec. pose proof (Z.div_mod i 2 ltac:(lia)) as Hd. pose proof (Z.mod_pos_bound i 2 ltac:(lia)).
  assert (∀ q b, 0 ≤ q → 0 ≤ b < 2 → Z.lxor (2 * q + b) 1 = 2 * q + (1 - b)) as Hx.
  { intros q b Hq Hb. apply Z.bits_inj'. intros n Hn. rewrite Z.lxor_spec.
    destruct (Z.eq_dec n 0) as [->|Hn0].
    - assert (b = 0 ∨ b = 1) as [-> | ->] by lia; cbn [Z.sub Z.add Z.opp Z.pos_sub]; rewrite ?Z.add_0_r, Z.testbit_even_0, Z.testbit_odd_0; done.
    - rewrite (Z.bits_above_log2 1 n), xorb_false_r by (cbn; lia). replace n with (Z.succ (n - 1)) by lia.
      assert (b = 0 ∨ b = 1) as [-> | ->] by lia; cbn [Z.sub Z.add Z.opp Z.pos_sub];
        rewrite ?Z.add_0_r, Z.testbit_even_succ, Z.testbit_odd_succ by lia; done. }
  rewrite Hd at 1. rewrite Hx by (try apply Z.div_pos; lia). destruct (Z.eqb_spec i (2 * (i / 2))); lia.
Qed.

Definition mixed (c : SparseMerkleCache) (f f' : Z → list Z) (l : nat) : Prop :=
  ∀ l' i, (l' ≤ smc_depth c)%nat → 0 ≤ i < 2 ^ Z.of_nat (smc_depth c - l') →
    cache_node_hash c l' i = Some (tree_label (if decide (l' ≤ l)%nat then f' else f) l' i).

Lemma div_pow_S index l : index / 2 ^ Z.of_nat (S l) = index / 2 ^ Z.of_nat l / 2.
Proof. rewrite Nat2Z.inj_succ, Z.pow_succ_r, Z.mul_comm, Z.div_div by lia. done. Qed.

Lemma index_level_range index depth l :
  0 ≤ index < 2 ^ Z.of_nat depth → (l ≤ depth)%nat → 0 ≤ index / 2 ^ Z.of_nat l < 2 ^ Z.of_nat (depth - l).
Proof.
  intros Hi Hl. split; [apply Z.div_pos; lia|]. apply Z.div_lt_upper_bound; [lia|].
  rewrite <- Z.pow_add_r by lia. replace (Z.of_nat l + Z.of_nat (depth - l)) with (Z.of_nat depth) by lia. lia.
Qed.

Lemma sibling_range i n : 0 ≤ i < 2 ^ Z.of_nat (S n) → 0 ≤ Z.lxor i 1 < 2 ^ Z.of_nat (S n).
Proof.
  intros Hi. rewrite lxor_1 by lia. rewrite base_of_spec. rewrite Nat2Z.inj_succ, Z.pow_succ_r in * by lia.
  destruct (Z.eqb_spec i (2 * (i / 2))); Z.to_euclidean_division_equations; lia.
Qed.

(** The hash of a node from itself and its sibling. *)
Lemma parent_label f l i :
  0 ≤ i →
  tree_label f (S l) (i / 2)
  = (let '(a, b) := if i =? base_of i then (tree_label f l i, tree_label f l (Z.lxor i 1))
                    else (tree_label f l (Z.lxor i 1), tree_label f l i) in state_node_hash a b).
Proof.
  intros Hi. rewrite tree_label_S, lxor_1 by done. pose proof (base_of_spec i) as Hb.
  destruct (Z.eqb_spec i (base_of i)) as [He|He]; rewrite <- Hb; f_equal; f_equal; try congruence.
  all: Z.to_euclidean_division_equations; lia.
Qed.

Lemma set_leaf_level_ok c f index leaf l :
  let f' := write_leaf f index leaf in
  (smc_depth c ≤ 32)%nat → smc_zero_roots c = zero_slot_roots (smc_depth c) → (l < smc_depth c)%nat →
  0 ≤ index < 2 ^ Z.of_nat (smc_depth c) → mixed c f f' l →
  ∃ c', set_leaf_level (c, index / 2 ^ Z.of_nat l, tree_label f' l (index / 2 ^ Z.of_nat l)) l
      = Ok (c', index / 2 ^ Z.of_nat (S l), tree_label f' (S l) (index / 2 ^ Z.of_nat (S l)))
    ∧ mixed c' f f' (S l) ∧ smc_depth c' = smc_depth c ∧ smc_zero_roots c' = smc_zero_roots c.
Proof.
  intros f' H32 Hz Hl Hi Hm. set (idx := index / 2 ^ Z.of_nat l).
  pose proof (index_level_range index (smc_depth c) l Hi ltac:(lia)) as Hidx. fold idx in Hidx.
  unfold set_leaf_level. rewrite (Hm l (Z.lxor idx 1)); [|lia|].
  2:{ replace (smc_depth c - l)%nat with (S (smc_depth c - S l)) in * by lia. by apply sibling_range. }
  rewrite decide_True by lia. cbn [expect ok_or mbind result_bind].
  rewrite div_pow_S. fold idx. rewrite base_of_half.
  pose proof (parent_label f' l idx ltac:(lia)) as Hp.
  destruct (set_node_total c (S l) (idx / 2) (tree_label f' (S l) (idx / 2))) as [c' Hc'].
  { rewrite Hz, (proj1 (zero_slot_roots_spec _)). lia. }
  exists c'. split_and!.
  - destruct (idx =? base_of idx); rewrite <- Hp, Hc'; done.
  - intros l' i Hl' Hi'. destruct (set_node_hash _ _ _ _ _ l' i Hc') as (Hd & _ & ->). rewrite Hd in *.
    case_decide as He; [injection He as -> ->; by rewrite decide_True by lia|]. rewrite Hm by done.
    destruct (decide (l' = S l)) as [->|Hne].
    + rewrite decide_False, decide_True by lia. f_equal. symmetry. apply write_leaf_label. rewrite div_pow_S. fold idx. congruence.
    + destruct (decide (l' ≤ l)%nat), (decide (l' ≤ S l)%nat); (done || lia).
  - by destruct (set_node_hash _ _ _ _ _ 0 0 Hc') as (? & _).
  - by destruct (set_node_hash _ _ _ _ _ 0 0 Hc') as (_ & ? & _).
Qed.

Lemma set_leaf_ok c f index leaf :
  cache_rep c f → 0 ≤ index < 2 ^ Z.of_nat (smc_depth c) →
  ∃ c', set_leaf c index leaf = Ok c' ∧ cache_rep c' (write_leaf f index leaf) ∧ smc_depth c' = smc_depth c.
Proof.
  intros [H32 Hz Hn] Hi. set (f' := write_leaf f index leaf). unfold set_leaf.
  rewrite (proj2 (validate_index_Ok index (smc_depth c))) by (split; [done|lia]). cbn [map_err mbind result_bind].
  destruct (set_node_total c 0 index leaf) as [c1 Hc1]; [rewrite Hz, (proj1 (zero_slot_roots_spec _)); lia|].
  rewrite Hc1. cbn [expect ok_or mbind result_bind].
  destruct (set_node_hash _ _ _ _ _ 0 0 Hc1) as (Hd1 & Hz1 & _).
  destruct (try_fold_total (λ done s, ∃ c', s = (c', index / 2 ^ Z.of_nat (length done), tree_label f' (length done) (index / 2 ^ Z.of_nat (length done)))
      ∧ mixed c' f f' (length done) ∧ smc_depth c' = smc_depth c ∧ smc_zero_roots c' = smc_zero_roots c)
      set_leaf_level (c1, index, leaf) (seq 0 (smc_depth c1))) as (s & Hs & c' & -> & Hm & Hd & Hz').
  - exists c1. cbn [length]. rewrite Z.div_1_r. split_and!; [| |done|done].
    + f_equal. unfold tree_label, f', write_leaf. cbn. rewrite decide_True by lia. done.
    + intros l' i Hl' Hi'. destruct (set_node_hash _ _ _ _ _ l' i Hc1) as (_ & _ & ->). rewrite Hd1 in *.
      case_decide as He; [injection He as -> ->|].
      * rewrite decide_True by lia. unfold tree_label, f', write_leaf. cbn. rewrite decide_True by lia. done.
      * rewrite Hn by done. f_equal. case_decide; [|done]. assert (l' = 0%nat) as -> by lia. symmetry. apply write_leaf_label.
        rewrite Z.div_1_r. congruence.
  - intros dn l s (c' & -> & Hm & Hd & Hz') [todo Hseq]. assert (l = length dn) as ->.
    { pose proof (f_equal (λ s, s !! length dn) Hseq) as Hk. cbn in Hk. rewrite list_lookup_middle in Hk by done.
      apply lookup_seq in Hk as [-> _]. lia. }
    assert (length dn < smc_depth c)%nat.
    { pose proof (f_equal length Hseq) as HL. rewrite length_seq, length_app in HL. cbn in HL. lia. }
    destruct (set_leaf_level_ok c' f index leaf (length dn)) as (c2 & Hstep & Hm2 & Hd2 & Hz2);
      [lia|congruence|lia|by rewrite Hd|done|]. eexists. split; [exact Hstep|]. exists c2. rewrite length_app, Nat.add_1_r.
    split_and!; [done|done|congruence|congruence].
  - rewrite Hs. cbn [mbind result_bind]. exists c'. rewrite length_seq, Hd1 in Hm. split_and!; [done| |done].
    split; [lia|congruence|]. intros l i Hl Hi'. rewrite Hm by done. rewrite decide_True by lia. done.
Qed.

Definition empty_tree (i : Z) : list Z := slot_leaf_hash EMPTY.

Lemma new_cache_ok depth : (depth ≤ 32)%nat → ∃ c, SparseMerkleCache_new depth = Ok c ∧ cache_rep c empty_tree ∧ smc_depth c = depth.
Proof.
  intros Hd. unfold SparseMerkleCache_new. rewrite (proj2 (validate_depth_Ok depth) Hd). eexists. split; [done|].
  split; [|done]. split; cbn; [done|done|]. intros l i Hl Hi. unfold cache_node_hash. cbn. rewrite lookup_empty.
  destruct (zero_slot_roots_spec depth) as [HL Hz]. rewrite list_lookup_lookup_total_lt by lia. f_equal. rewrite Hz by lia.
  symmetry. by apply merkle_root_constant.
Qed.

Lemma set_leaves_ok leaves c f :
  cache_rep c f → Forall (λ p : Z * list Z, 0 ≤ fst p < 2 ^ Z.of_nat (smc_depth c)) leaves →
  ∃ c', try_fold (λ cache '(index, leaf), set_leaf cache index leaf) c leaves = Ok c'
    ∧ cache_rep c' (foldl (λ f '(index, leaf), write_leaf f index leaf) f leaves) ∧ smc_depth c' = smc_depth c.
Proof.
  revert c f. induction leaves as [|[i leaf] leaves IH]; intros c f Hc Hl; [eauto|].
  apply Forall_cons in Hl as [Hi Hl]. cbn [try_fold foldl].
  destruct (set_leaf_ok c f i leaf Hc Hi) as (c1 & -> & Hc1 & Hd1). cbn [mbind result_bind].
  destruct (IH c1 _ Hc1) as (c' & -> & Hc' & Hd'); [by rewrite Hd1|]. exists c'. by rewrite Hd', Hd1.
Qed.

Lemma sparse_cache_root_ok c f : cache_rep c f → cache_root_hash c = Some (merkle_root state_node_hash (smc_depth c) f 0).
Proof. intros Hc. unfold cache_root_hash. rewrite (cr_node _ _ Hc); [done|lia|]. rewrite Nat.sub_diag. cbn. lia. Qed.

Lemma frontier_in_range indices depth l i :
  valid_indices indices depth → (l, i) ∈ frontier 0 depth (list_to_set indices) →
  (l ≤ depth)%nat ∧ 0 ≤ i < 2 ^ Z.of_nat (depth - l).
Proof.
  intros Hv (Hl & _ & Hp)%elem_of_frontier. cbn [fst snd] in Hl, Hp. rewrite Nat.sub_0_r in Hp.
  apply elem_of_touched in Hp as (k & Hk & Hi). split; [lia|].
  pose proof (vi_range _ _ Hv) as Hr. rewrite Forall_forall in Hr. apply elem_of_list_to_set, Hr in Hk.
  pose proof (index_level_range k depth (S l) Hk ltac:(lia)) as Hx. rewrite <- Hi in Hx.
  replace (depth - l)%nat with (S (depth - S l)) by lia. rewrite Nat2Z.inj_succ, Z.pow_succ_r by lia.
  Z.to_euclidean_division_equations. lia.
Qed.

Lemma build_multiproof_ok c f indices :
  cache_rep c f → valid_indices indices (smc_depth c) →
  build_multiproof c indices (smc_depth c) = Ok (mkMultiProof (frontier_hashes f indices (smc_depth c))).
Proof.
  intros Hc Hv. unfold build_multiproof. rewrite decide_False by tauto. rewrite frontier_sibling_positions_ok by done.
  cbn [mbind result_bind]. unfold frontier_hashes.
  assert (∀ ps out, (∀ p, p ∈ ps → p ∈ frontier 0 (smc_depth c) (list_to_set indices)) →
    try_fold (λ out '(level, node_index), h ← expect (cache_node_hash c level node_index); Ok (out ++ [h])) out ps
    = Ok (E := fault SparseMerkleError) (out ++ ((λ p, tree_label f (fst p) (snd p)) <$> ps))) as HF.
  { induction ps as [|[l i] ps IH]; intros out Hin; [by rewrite app_nil_r|]. cbn [try_fold].
    destruct (frontier_in_range indices (smc_depth c) l i Hv) as [Hl Hi]; [apply Hin; left|].
    rewrite (cr_node _ _ Hc) by done. cbn [expect ok_or mbind result_bind].
    rewrite IH by (intros p Hp; apply Hin; by right). by rewrite <- app_assoc. }
  rewrite HF by done. done.
Qed.

End cache.

Lemma foldl_write_leaf_other f (updates : list (Z * list Z)) i :
  i ∉ fst <$> updates → foldl (λ f '(index, leaf), write_leaf f index leaf) f updates i = f i.
Proof.
  revert f. induction updates as [|[j leaf] updates IH]; intros f Hi; [done|]. cbn [foldl].
  rewrite IH by set_solver. unfold write_leaf. rewrite decide_False; set_solver.
Qed.

Lemma foldl_write_leaf_at f indices new :
  NoDup indices → length new = length indices →
  foldl (λ f '(index, leaf), write_leaf f index leaf) f (zip indices new) <$> indices = new.
Proof.
  revert f new. induction indices as [|i indices IH]; intros f new Hn L; destruct new as [|h new]; try done.
  apply NoDup_cons in Hn as [Hi Hn]. cbn [zip zip_with foldl fmap list_fmap]. f_equal.
  - rewrite foldl_write_leaf_other by (rewrite fst_zip by (cbn in L; lia); done).
    unfold write_leaf. by rewrite decide_True.
  - apply IH; [done|]. cbn in L. lia.
Qed.

(** The multiproof and the cache agree.  From a cache filled with any
    leaves, a proof for any valid set of slots is built, and reconstructing
    the root from it with any new leaves gives the root of the cache after
    those slots are set one by one, which is the reference root of the
    resulting tree. *)
Theorem multiproof_matches_cache {P : Poseidon2bPermutation} (depth : nat) (leaves : list (Z * list Z))
    (indices : list Z) (new : list (list Z))
    (Hleaves : Forall (λ p : Z * list Z, 0 ≤ fst p < 2 ^ Z.of_nat depth) leaves)
    (Hv : valid_indices indices depth) (Hnew : length new = length indices) :
  ∃ cache proof cache', from_leaves depth leaves = Ok cache
    ∧ build_multiproof cache indices depth = Ok proof
    ∧ from_leaves depth (leaves ++ zip indices new) = Ok cache'
    ∧ cache_root_hash cache' = result_ok (reconstruct_root indices new (mp_siblings proof) depth)
    ∧ cache_root_hash cache'
      = Some (merkle_root state_node_hash depth
          (foldl (λ f '(index, leaf), write_leaf f index leaf) empty_tree (leaves ++ zip indices new)) 0).
Proof.
  destruct (new_cache_ok depth (vi_depth _ _ Hv)) as (c0 & E0 & H0 & D0).
  assert (Forall (λ p : Z * list Z, 0 ≤ fst p < 2 ^ Z.of_nat depth) (zip indices new)) as Hz.
  { rewrite Forall_forall. intros [i h] Hin%elem_of_zip_l. pose proof (vi_range _ _ Hv) as Hr. rewrite Forall_forall in Hr. by apply Hr. }
  destruct (set_leaves_ok leaves c0 empty_tree H0) as (c & Ec & Hc & D); [by rewrite D0|].
  destruct (set_leaves_ok (zip indices new) c _ Hc) as (c' & Ec' & Hc' & D'); [by rewrite D, D0|].
  rewrite D0 in D. rewrite D in D'. rewrite <- foldl_app in Hc'.
  assert (from_leaves depth leaves = Ok c) as E1 by (unfold from_leaves; by rewrite E0).
  pose proof (build_multiproof_ok c _ indices Hc) as HB. rewrite D in HB.
  exists c, (mkMultiProof (frontier_hashes (foldl (λ f '(index, leaf), write_leaf f index leaf) empty_tree leaves) indices depth)), c'.
  split_and!; [done|by apply HB| | |].
  - unfold from_leaves. rewrite E0. cbn [map_err mbind result_bind]. by rewrite try_fold_app, Ec.
  - rewrite (sparse_cache_root_ok _ _ Hc'), D'. cbn [mp_siblings].
    rewrite <- (foldl_write_leaf_at (foldl (λ f '(index, leaf), write_leaf f index leaf) empty_tree leaves) indices new) at 2
      by (done || apply sorted_NoDup, Hv).
    rewrite foldl_app.
    rewrite reconstruct_complete; [done|done|].
    intros i Hi. symmetry. apply foldl_write_leaf_other. rewrite fst_zip by lia. done.
  - by rewrite (sparse_cache_root_ok _ _ Hc'), D'.
Qed.

Lemma multiproof_matches_cache_witness :
  let leaves := [(6, replicate 32 9); (1, replicate 32 8)] in
  let indices := [1; 2; 5] in
  let new := [replicate 32 1; replicate 32 2; replicate 32 3] in
  ∃ cache proof cache', from_leaves (P := example_permutation) 3 leaves = Ok cache
    ∧ build_multiproof cache indices 3 = Ok proof
    ∧ from_leaves (P := example_permutation) 3 (leaves ++ zip indices new) = Ok cache'
    ∧ cache_root_hash cache' = result_ok (reconstruct_root (P := example_permutation) indices new (mp_siblings proof) 3)
    ∧ cache_root_hash cache'
      = Some (merkle_root (state_node_hash (P := example_permutation)) 3
          (foldl (λ f '(index, leaf), write_leaf f index leaf) (empty_tree (P := example_permutation)) (leaves ++ zip indices new)) 0).
Proof.
  intros leaves indices new. apply (multiproof_matches_cache (P := example_permutation) 3 leaves indices new).
  - repeat constructor; discriminate.
  - split; [exact (leb_complete 3 32 eq_refl)|discriminate| |]; repeat constructor; discriminate.
  - reflexivity.
Defined.
