(* ===== verification/MultiproofUpdates.v ===== *)
(** * Projections of a multiproof

    The size of the frontier, the chained updates, the full paths and the
    structural plan of [Multiproof], related to the reconstruction of the
    root.  The debug assertions of [sparse_merkle.rs] are consequences. *)

From Stdlib Require Import Sorting.Sorted.
From S2P Require Import Prelude Machine Poseidon TxTypes Merkle SlotState SparseRoot SparseRootProofs Multiproof MultiproofProps.

(** ** How many siblings a frontier has *)

(** The known children of a base. *)
Definition known_children (K : gset Z) (b : Z) : list Z := filter (λ c, c ∈ K) [b; b + 1].

Lemma children_count l K b : (length (missing l K b) + length (known_children K b) = 2)%nat ∨ (b ∉ K ∧ b + 1 ∉ K).
Proof.
  unfold missing, known_children. rewrite !filter_cons, filter_nil. repeat case_decide; cbn; auto.
Qed.

Lemma level_children K : elements K ≡ₚ level_bases K ≫= known_children K.
Proof.
  apply NoDup_Permutation; [apply NoDup_elements| |].
  - apply NoDup_bind; [| |apply NoDup_bases].
    + intros b1 b2 c Hb1 Hb2 Hc1 Hc2. unfold known_children in *. rewrite list_elem_of_filter in Hc1, Hc2.
      apply level_base_spec in Hb1 as (Hb1 & _). apply level_base_spec in Hb2 as (Hb2 & _). set_solver by lia.
    + intros b _. apply NoDup_filter. repeat constructor; set_solver by lia.
  - intros k. rewrite elem_of_elements, list_elem_of_bind. split.
    + intros Hk. exists (base_of k). split; [|apply elem_of_level_bases; eauto].
      apply list_elem_of_filter. split; [done|]. rewrite base_of_spec.
      pose proof (Z.div_mod k 2 ltac:(lia)). pose proof (Z.mod_pos_bound k 2 ltac:(lia)).
      rewrite !elem_of_cons. lia.
    + intros (b & Hk & _). by apply list_elem_of_filter in Hk as [? _].
Qed.

Lemma level_bases_size K : length (level_bases K) = size (parents K).
Proof.
  rewrite <- parents_bases, size_list_to_set; [by rewrite length_fmap|].
  apply NoDup_fmap_2_strong; [|apply NoDup_bases]. intros b b' Hb Hb'. by apply (half_inj K).
Qed.

Lemma level_frontier_size l K : (length (level_frontier l K) + size K = 2 * size (parents K))%nat.
Proof.
  rewrite <- level_bases_size. change (size K) with (length (elements K)). rewrite (level_children K).
  unfold level_frontier. assert (∀ b, b ∈ level_bases K → b ∈ K ∨ b + 1 ∈ K) as Hk by apply known_child. revert Hk.
  generalize (level_bases K) as bs. induction bs as [|b bs IH]; intros Hk; [done|].
  rewrite !bind_cons, !length_app. cbn [length]. pose proof (IH ltac:(intros b' ?; apply Hk; by right)).
  destruct (children_count l K b) as [Hc|[Hn1 Hn2]]; [lia|]. destruct (Hk b ltac:(left)); tauto.
Qed.

Fixpoint sum_nat (l : list nat) : nat := match l with [] => 0 | x :: l => x + sum_nat l end.

Lemma frontier_size l d K :
  (length (frontier l d K) + size K = sum_nat ((λ j, size (touched K j)) <$> seq 1 d) + size (touched K d))%nat.
Proof.
  revert l K. induction d as [|d IH]; intros l K; [cbn; lia|]. cbn [frontier]. rewrite length_app.
  pose proof (level_frontier_size l K). pose proof (IH (S l) (parents K)) as H2.
  change (seq 1 (S d)) with (1%nat :: seq 2 d). cbn [fmap list_fmap sum_nat]. change (touched K 1) with (parents K).
  rewrite touched_S. assert ((λ j, size (touched K j)) <$> seq 2 d = (λ j, size (touched (parents K) j)) <$> seq 1 d) as ->.
  { rewrite <- fmap_S_seq, <- list_fmap_compose. apply list_fmap_ext. intros i x _. cbn. f_equal. apply touched_S. }
  lia.
Qed.

Lemma parents_size_le K : (size (parents K) ≤ size K)%nat.
Proof.
  pose proof (level_frontier_size 0 K) as H. assert (length (level_frontier 0 K) ≤ length (level_bases K))%nat.
  { unfold level_frontier. generalize (level_bases K) as bs. induction bs as [|b bs IH]; [done|].
    rewrite bind_cons, length_app. cbn [length]. unfold missing at 1. repeat case_decide; cbn; lia. }
  rewrite level_bases_size in *. lia.
Qed.

Lemma touched_size_le K l : (size (touched K l) ≤ size K)%nat.
Proof.
  induction l as [|l IH]; [done|]. unfold touched in *. cbn [Nat.iter]. etrans; [apply parents_size_le|done].
Qed.

Lemma touched_size_range indices depth l :
  valid_indices indices depth → (l ≤ depth)%nat → (size (touched (list_to_set indices) l) ≤ 2 ^ (depth - l))%nat.
Proof.
  intros Hv Hl. pose proof (vi_range _ _ Hv) as Hr. rewrite Forall_forall in Hr.
  set (range := list_to_set (seqZ 0 (2 ^ Z.of_nat (depth - l))) : gset Z).
  assert (touched (list_to_set indices) l ⊆ range) as Hsub.
  { intros j (k & Hk%elem_of_list_to_set%Hr & ->)%elem_of_touched. apply elem_of_list_to_set, elem_of_seqZ.
    pose proof (index_level_range k depth l Hk Hl). lia. }
  apply subseteq_size in Hsub. etrans; [done|]. unfold range. rewrite size_list_to_set by apply NoDup_seqZ.
  rewrite length_seqZ. apply Nat2Z.inj_le. rewrite Z2Nat.id by lia. by rewrite Nat2Z.inj_pow.
Qed.

(** [sum (k < d) (min t (2^k))] *)
Definition capped_sum (t d : nat) : nat := sum_nat ((λ k, Nat.min t (2 ^ k)) <$> seq 0 d).

Lemma sum_nat_app l1 l2 : sum_nat (l1 ++ l2) = (sum_nat l1 + sum_nat l2)%nat.
Proof. induction l1; cbn; lia. Qed.

Lemma sum_nat_le {A} (f g : A → nat) l : (∀ x, x ∈ l → f x ≤ g x)%nat → (sum_nat (f <$> l) ≤ sum_nat (g <$> l))%nat.
Proof.
  induction l as [|x l IH]; intros H; [done|]. cbn. pose proof (H x ltac:(left)).
  pose proof (IH ltac:(intros y ?; apply H; by right)). lia.
Qed.

Lemma capped_sum_S t d : capped_sum t (S d) = (capped_sum t d + Nat.min t (2 ^ d))%nat.
Proof. unfold capped_sum. rewrite seq_S, fmap_app, sum_nat_app. cbn. lia. Qed.

Lemma capped_sum_reverse t d : sum_nat ((λ j, Nat.min t (2 ^ (d - j))) <$> seq 1 d) = capped_sum t d.
Proof.
  induction d as [|d IH]; [done|]. rewrite capped_sum_S, <- IH. change (seq 1 (S d)) with (1%nat :: seq 2 d).
  cbn [fmap list_fmap sum_nat]. rewrite Nat.sub_succ, Nat.sub_0_r, Nat.add_comm. f_equal.
  rewrite <- fmap_S_seq, <- list_fmap_compose. f_equal.
Qed.

Lemma capped_sum_closed t c d :
  (t ≤ 2 ^ c)%nat → (c = 0 ∨ 2 ^ (c - 1) < t)%nat → (c ≤ d)%nat →
  (capped_sum t d + 1 = (d - c) * t + 2 ^ c)%nat.
Proof.
  intros Ht Hc. assert (∀ k, k ≤ c → capped_sum t k + 1 = 2 ^ k)%nat as Hlow.
  { induction k as [|k IH]; intros Hk; [done|]. rewrite capped_sum_S.
    assert (2 ^ k ≤ 2 ^ (c - 1))%nat by (apply Nat.pow_le_mono_r; lia).
    rewrite Nat.min_r by lia. rewrite Nat.pow_succ_r'. pose proof (IH ltac:(lia)). lia. }
  induction d as [|d IH]; intros Hd.
  - assert (c = 0)%nat as -> by lia. rewrite Hlow by lia. lia.
  - destruct (decide (c = S d)) as [->|Hne]; [rewrite Hlow by lia; lia|]. rewrite capped_sum_S.
    assert (2 ^ c ≤ 2 ^ d)%nat by (apply Nat.pow_le_mono_r; lia). rewrite Nat.min_l by lia.
    pose proof (IH ltac:(lia)). replace (S d - c)%nat with (S (d - c)) by lia. lia.
Qed.

Lemma frontier_size_bound indices depth c :
  valid_indices indices depth → (length indices ≤ 2 ^ c)%nat → (c = 0 ∨ 2 ^ (c - 1) < length indices)%nat → (c ≤ depth)%nat →
  (length (frontier 0 depth (list_to_set indices)) + length indices ≤ (depth - c) * length indices + 2 ^ c)%nat.
Proof.
  intros Hv Ht Hc Hd. pose proof (frontier_size 0 depth (list_to_set indices)) as HF.
  assert (size (list_to_set indices : gset Z) = length indices) as HS by (apply size_list_to_set, sorted_NoDup, Hv).
  rewrite touched_top, size_singleton, HS in HF by done. rewrite <- (capped_sum_closed (length indices) c depth) by done.
  rewrite HF, <- capped_sum_reverse. apply Nat.add_le_mono_r, sum_nat_le. intros j [Hj1 Hj2]%elem_of_seq.
  apply Nat.min_glb; [rewrite <- HS; apply touched_size_le|apply touched_size_range; [done|lia]].
Qed.

Lemma covering_spec fuel t k :
  1 ≤ t ≤ 2 ^ Z.of_nat (k + fuel) → (k = 0%nat ∨ 2 ^ (Z.of_nat k - 1) < t) →
  ∃ c, covering fuel t (2 ^ Z.of_nat k) k = (2 ^ Z.of_nat c, c) ∧ t ≤ 2 ^ Z.of_nat c ∧ (c = 0%nat ∨ 2 ^ (Z.of_nat c - 1) < t).
Proof.
  revert k. induction fuel as [|fuel IH]; intros k Ht Hk; cbn [covering].
  { rewrite Nat.add_0_r in Ht. exists k. split_and!; [done|lia|done]. }
  destruct (Z.ltb_spec (2 ^ Z.of_nat k) t) as [Hlt|Hge]; [|exists k; split_and!; done].
  rewrite <- Z.pow_succ_r, <- Nat2Z.inj_succ by lia. apply IH; [by rewrite Nat.add_succ_comm|].
  right. by replace (Z.of_nat (S k) - 1) with (Z.of_nat k) by lia.
Qed.

(** The analytical capacity is an upper bound.  For every valid set of
    touched slots the exact number of frontier hashes and the closed formula
    [maximum_sibling_count] are both defined, without assertion failure or
    overflow, and the first never exceeds the second. *)
Theorem frontier_within_maximum (indices : list Z) (depth : nat) (Hv : valid_indices indices depth) :
  ∃ count maximum, expected_sibling_count indices depth = Ok count
    ∧ maximum_sibling_count (length indices) depth = Some maximum ∧ (count ≤ maximum)%nat.
Proof.
  exists (length (frontier 0 depth (list_to_set indices))). unfold maximum_sibling_count.
  pose proof (vi_depth _ _ Hv) as H32. rewrite decide_False by lia.
  assert (length indices ≠ 0%nat) as Hne by (pose proof (vi_nonempty _ _ Hv); by destruct indices).
  rewrite decide_False by done. rewrite Z.shiftl_1_l.
  assert (Z.of_nat (length indices) ≤ 2 ^ Z.of_nat depth) as Hdom.
  { pose proof (touched_size_range indices depth 0 Hv ltac:(lia)) as H. cbn in H. rewrite Nat.sub_0_r in H.
    rewrite size_list_to_set in H by apply sorted_NoDup, Hv. apply Nat2Z.inj_le in H. by rewrite Nat2Z.inj_pow in H. }
  rewrite (proj2 (Z.ltb_ge _ _)) by done.
  assert (2 ^ Z.of_nat depth ≤ 2 ^ 32) by (apply Z.pow_le_mono_r; lia).
  destruct (covering_spec 64 (Z.of_nat (length indices)) 0) as (c & Hcov & Ht & Hc);
    [split; [lia|]; change (2 ^ Z.of_nat (0 + 64)) with 18446744073709551616; lia|by left|].
  change (2 ^ Z.of_nat 0) with 1 in Hcov. rewrite Hcov.
  assert (c ≤ depth)%nat as Hcd.
  { destruct Hc as [->|Hc]; [lia|]. destruct (decide (c ≤ depth)%nat) as [|Hgt]; [done|].
    assert (2 ^ Z.of_nat depth ≤ 2 ^ (Z.of_nat c - 1)) by (apply Z.pow_le_mono_r; lia). lia. }
  assert (Z.of_nat (2 ^ c) = 2 ^ Z.of_nat c) as Hp by (by rewrite Nat2Z.inj_pow).
  pose proof (frontier_size_bound indices depth c Hv ltac:(lia)) as HB.
  assert (c = 0 ∨ 2 ^ (c - 1) < length indices)%nat as Hc'.
  { destruct Hc as [->|Hc]; [by left|]. destruct c as [|c]; [by left|right]. apply Nat2Z.inj_lt. rewrite Nat2Z.inj_pow.
    by replace (Z.of_nat (S c - 1)) with (Z.of_nat (S c) - 1) by lia. }
  specialize (HB Hc' Hcd). assert (2 ^ Z.of_nat c ≤ 2 ^ Z.of_nat depth) by (apply Z.pow_le_mono_r; lia).
  rewrite (proj2 (Z.ltb_ge _ _)).
  - eexists. split; [by apply expected_sibling_count_ok|]. split; [done|]. nia.
  - unfold uint_max. change (2 ^ 64) with (4294967296 * 4294967296). change (2 ^ 32) with 4294967296 in *. nia.
Qed.

Lemma frontier_within_maximum_witness :
  ∃ count maximum, expected_sibling_count [1; 2; 5] 3 = Ok count
    ∧ maximum_sibling_count 3 3 = Some maximum ∧ (count ≤ maximum)%nat.
Proof.
  apply (frontier_within_maximum [1; 2; 5] 3).
  split; [exact (leb_complete 3 32 eq_refl)|discriminate| |]; repeat constructor; discriminate.
Defined.

(** ** Sequential updates *)

Section updates.
  Context {P : Poseidon2bPermutation} (indices : list Z) (siblings : list (list Z)) (depth : nat).
  Context (Hv : valid_indices indices depth)
    (Hsib : length siblings = length (frontier 0 depth (list_to_set indices))).

Local Notation touched := (touched (list_to_set indices)).
Local Notation front := (frontier 0 depth (list_to_set indices)).
Local Notation pl leaves := (partial_label indices leaves siblings depth).

(** The nodes the partial tree holds. *)
Definition covered (l : nat) (i : Z) : Prop := i ∈ touched l ∨ (l, i) ∈ front.

Lemma covered_children l i c :
  (l < depth)%nat → i ∈ touched (S l) → c = 2 * i ∨ c = 2 * i + 1 → covered l c.
Proof.
  intros Hl Hi Hc. pose proof (children_cover 0 depth (list_to_set indices) l i c) as H. rewrite Nat.sub_0_r in H.
  apply H; [lia|done|done].
Qed.

Lemma index_touched n index l : indices !! n = Some index → index / 2 ^ Z.of_nat l ∈ touched l.
Proof.
  intros Hn. apply elem_of_touched. exists index. split; [|done]. apply elem_of_list_to_set, list_elem_of_lookup. eauto.
Qed.

Lemma leaf_map_insert n index leaves h j :
  length leaves = length indices → indices !! n = Some index → j ≠ index →
  leaf_map indices (<[n := h]> leaves) !! j = leaf_map indices leaves !! j.
Proof.
  intros L Hn Hj. destruct (decide (j ∈ indices)) as [[m Hm]%list_elem_of_lookup|Hj'].
  - assert (m ≠ n) by congruence. destruct (lookup_lt_is_Some_2 leaves m) as [x Hx]; [rewrite L; by eapply lookup_lt_Some|].
    unfold leaf_map. rewrite (lookup_zip_map _ leaves m j x), (lookup_zip_map _ _ m j x);
      try (apply sorted_NoDup, Hv); rewrite ?length_insert; try done. by rewrite list_lookup_insert_ne.
  - unfold leaf_map. by rewrite !lookup_zip_map_None.
Qed.

(** Changing one leaf changes only the labels above it. *)
Lemma label_change n index leaves h l i :
  length leaves = length indices → indices !! n = Some index → i ≠ index / 2 ^ Z.of_nat l →
  pl (<[n := h]> leaves) l i = pl leaves l i.
Proof.
  intros L Hn. unfold partial_label. revert i. induction l as [|l IH]; intros i Hi; cbn [label].
  - destruct (frontier_map _ _ _ !! (0%nat, i)); [done|]. rewrite Z.div_1_r in Hi.
    unfold lookup_total, map_lookup_total. f_equal. by apply (leaf_map_insert _ index).
  - destruct (frontier_map _ _ _ !! (S l, i)); [done|]. rewrite div_pow_S in Hi.
    rewrite !IH; [done| |]; intros He; apply Hi; rewrite <- He; Z.to_euclidean_division_equations; lia.
Qed.

Lemma land_1_right i : (Z.land i 1 =? 1) = negb (i =? base_of i).
Proof.
  rewrite base_of_spec. change 1 with (Z.ones 1) at 1. rewrite Z.land_ones by lia. change (2 ^ 1) with 2.
  destruct (Z.eqb_spec i (2 * (i / 2))), (Z.eqb_spec (i mod 2) 1); Z.to_euclidean_division_equations; (done || lia).
Qed.

(** The hash of the parent from a path step. *)
Definition step_hash (current sibling : list Z) (is_right : bool) : list Z :=
  if is_right then state_node_hash sibling current else state_node_hash current sibling.

Lemma parent_step leaves l i :
  0 ≤ i → i / 2 ∈ touched (S l) →
  pl leaves (S l) (i / 2) = step_hash (pl leaves l i) (pl leaves l (Z.lxor i 1)) (Z.land i 1 =? 1).
Proof.
  intros H0 Hi. rewrite partial_label_step, land_1_right, lxor_1 by done. unfold step_hash.
  pose proof (base_of_spec i) as Hb. destruct (Z.eqb_spec i (base_of i)) as [He|He]; cbn [negb]; rewrite <- Hb; f_equal; f_equal; try congruence.
  all: Z.to_euclidean_division_equations; lia.
Qed.

(** The path of a slot in the tree with the given leaves. *)
Definition path_siblings (leaves : list (list Z)) (index : Z) (d : nat) : list (list Z) :=
  (λ l, pl leaves l (Z.lxor (index / 2 ^ Z.of_nat l) 1)) <$> seq 0 d.

Definition path_directions (index : Z) (d : nat) : list bool :=
  (λ l, Z.land (index / 2 ^ Z.of_nat l) 1 =? 1) <$> seq 0 d.

Lemma path_fold leaves n index d :
  indices !! n = Some index → 0 ≤ index → (d ≤ depth)%nat →
  fold_directed_path (pl leaves 0 index) (path_siblings leaves index d) (path_directions index d)
  = pl leaves d (index / 2 ^ Z.of_nat d).
Proof.
  intros Hn H0. induction d as [|d IH]; intros Hd; [cbn; by rewrite Z.div_1_r|].
  unfold fold_directed_path, path_siblings, path_directions in *. rewrite seq_S, !fmap_app, zip_with_app, foldl_app
    by (by rewrite !length_fmap).
  rewrite IH by lia. rewrite div_pow_S, parent_step; [done|apply Z.div_pos; lia|].
  rewrite <- div_pow_S. by eapply index_touched.
Qed.

Lemma lxor_1_ne i : 0 ≤ i → Z.lxor i 1 ≠ i.
Proof. intros Hi. rewrite lxor_1 by done. destruct (i =? base_of i); lia. Qed.

(** A slot's own path does not depend on the slot. *)
Lemma path_siblings_change leaves n index h d :
  length leaves = length indices → indices !! n = Some index → 0 ≤ index →
  path_siblings (<[n := h]> leaves) index d = path_siblings leaves index d.
Proof.
  intros L Hn H0. apply list_fmap_ext. intros k l _. apply (label_change n index); [done|done|].
  apply lxor_1_ne, Z.div_pos; lia.
Qed.

(** *** Building the partial tree *)

Definition holds_upto (nodes : partial_tree) (leaves : list (list Z)) (top : nat) : Prop :=
  ∀ l i, (l ≤ depth)%nat → ((l ≤ top)%nat ∧ i ∈ touched l ∨ (l, i) ∈ front) → nodes !! (l, i) = Some (pl leaves l i).

Lemma foldl_insert_lookup (kvs : list (nat * Z * list Z)) (m : partial_tree) k :
  NoDup (fst <$> kvs) →
  foldl (λ nodes '(position, sibling), <[position := sibling]> nodes) m kvs !! k
  = match (list_to_map kvs : partial_tree) !! k with Some v => Some v | None => m !! k end.
Proof.
  revert m. induction kvs as [|[p v] kvs IH]; intros m Hn; [done|]. cbn [fmap list_fmap fst] in Hn.
  apply NoDup_cons in Hn as [Hp Hn]. cbn [foldl]. rewrite IH by done. rewrite list_to_map_cons.
  destruct (decide (k = p)) as [->|Hk].
  - rewrite not_elem_of_list_to_map_1, !lookup_insert_eq by done. done.
  - rewrite !lookup_insert_ne by done. done.
Qed.

Lemma base_nodes_ok leaves :
  length leaves = length indices →
  holds_upto (foldl (λ nodes '(position, sibling), <[position := sibling]> nodes)
    (list_to_map (zip (pair 0%nat <$> indices) leaves)) (zip front siblings)) leaves 0.
Proof.
  intros L l i Hl Hc. assert (sized indices leaves siblings depth) as Hs by done.
  rewrite foldl_insert_lookup by (rewrite fst_zip by lia; apply NoDup_frontier).
  destruct (decide ((l, i) ∈ front)) as [[k Hk]%list_elem_of_lookup|Hn].
  - destruct (lookup_lt_is_Some_2 siblings k) as [h Hh]; [rewrite Hsib; by eapply lookup_lt_Some|].
    rewrite (lookup_zip_map _ _ k (l, i) h) by (done || apply NoDup_frontier). f_equal. symmetry.
    by apply (partial_label_sibling indices leaves siblings depth k (l, i) h).
  - rewrite lookup_zip_map_None by done. destruct Hc as [[Hl0 Hi]|?]; [|done].
    assert (l = 0%nat) as -> by lia. apply elem_of_list_to_set, list_elem_of_lookup in Hi as [n Hi].
    destruct (lookup_lt_is_Some_2 leaves n) as [x Hx]; [rewrite L; by eapply lookup_lt_Some|].
    rewrite (partial_label_leaf indices leaves siblings depth n i x) by done.
    apply (lookup_zip_map _ _ n); [|by rewrite length_fmap|by rewrite list_lookup_fmap, Hi|done].
    apply NoDup_fmap_2; [by intros ?? [= ->]|apply sorted_NoDup, Hv].
Qed.

Lemma ancestor_level leaves l bs next nodes :
  (l < depth)%nat → (∀ b, b ∈ bs → b ∈ level_bases (touched l)) → holds_upto nodes leaves l →
  ∃ nodes', try_fold (ancestor_visit l) (next, nodes) bs = Ok (list_to_set ((λ b, b / 2) <$> bs) ∪ next, nodes')
    ∧ holds_upto nodes' leaves l
    ∧ (∀ j, nodes' !! (S l, j) = if decide (j ∈ (λ b, b / 2) <$> bs) then Some (pl leaves (S l) j) else nodes !! (S l, j)).
Proof.
  intros Hl. revert next nodes. induction bs as [|b bs IH]; intros next nodes Hb Hh.
  { exists nodes. split_and!; [cbn; do 2 f_equal; set_solver|done|done]. }
  destruct (level_base_spec _ _ (Hb b ltac:(left))) as (Heven & Hp & _).
  assert (b / 2 ∈ touched (S l)) as Hp' by done.
  assert (∀ c, c = b ∨ c = b + 1 → nodes !! (l, c) = Some (pl leaves l c)) as Hc.
  { intros c Hc. apply Hh; [lia|]. destruct (covered_children l (b / 2) c Hl Hp') as [?|?]; [lia| |]; [left|right]; auto. }
  assert (ancestor_visit l (next, nodes) b = Ok ({[b / 2]} ∪ next, <[(S l, b / 2) := pl leaves (S l) (b / 2)]> nodes)) as Hvis.
  { unfold ancestor_visit. rewrite !Hc by auto. cbn [expect ok_or mbind result_bind].
    rewrite partial_label_step by done. by rewrite <- Heven. }
  cbn [try_fold]. rewrite Hvis. cbn [mbind result_bind].
  destruct (IH ({[b / 2]} ∪ next) (<[(S l, b / 2) := pl leaves (S l) (b / 2)]> nodes)) as (nodes' & -> & Hh' & Hn').
  { intros b' ?. apply Hb. by right. }
  { intros l' i Hl' Hi. destruct (decide ((l', i) = (S l, b / 2))) as [[= -> ->]|Hne]; [by rewrite lookup_insert_eq|].
    rewrite lookup_insert_ne by congruence. by apply Hh. }
  exists nodes'. split_and!; [do 2 f_equal; cbn; set_solver|done|]. intros j. rewrite Hn'. cbn [fmap list_fmap].
  destruct (decide (j ∈ (λ b, b / 2) <$> bs)); [by rewrite decide_True by (by right)|].
  destruct (decide (j = b / 2)) as [->|Hj]; [by rewrite lookup_insert_eq, decide_True by (by left)|].
  rewrite lookup_insert_ne, decide_False by (rewrite ?elem_of_cons; naive_solver). done.
Qed.

Lemma ancestors_loop leaves d l nodes :
  (l + d ≤ depth)%nat → holds_upto nodes leaves l →
  ∃ nodes', try_fold (λ '(current, nodes) level, each_parent (ancestor_visit level) (btree_keys current) (∅, nodes))
      (touched l, nodes) (seq l d) = Ok (touched (l + d), nodes') ∧ holds_upto nodes' leaves (l + d).
Proof.
  revert l nodes. induction d as [|d IH]; intros l nodes Hd Hh; cbn [seq try_fold].
  { exists nodes. by rewrite Nat.add_0_r. }
  rewrite each_parent_bases. fold (level_bases (touched l)).
  destruct (ancestor_level leaves l (level_bases (touched l)) ∅ nodes) as (nodes1 & -> & Hh1 & Hn1); [lia|done|done|].
  cbn [mbind result_bind]. rewrite parents_bases, union_empty_r_L. change (parents (touched l)) with (touched (S l)).
  rewrite <- Nat.add_succ_comm. apply IH; [lia|]. intros l' i Hl' Hi.
  destruct (decide ((l' ≤ l)%nat ∨ (l', i) ∈ front)) as [Hc|Hc]; [apply Hh1; [done|]; tauto|].
  assert (l' = S l ∧ i ∈ touched (S l)) as [-> Hi'].
  { destruct Hi as [[Hle Hi]|]; [|tauto]. assert (l' = S l) as -> by (destruct (decide (l' ≤ l)%nat); [tauto|lia]). done. }
  rewrite Hn1, decide_True; [done|]. rewrite <- (elem_of_list_to_set (C := gset Z)), parents_bases. done.
Qed.

(** *** One update *)

Definition climbed (nodes : partial_tree) (leaves leaves' : list (list Z)) (top : nat) : Prop :=
  ∀ l i, (l ≤ depth)%nat → covered l i → nodes !! (l, i) = Some (pl (if decide (l ≤ top)%nat then leaves' else leaves) l i).

Lemma index_nonneg n index : indices !! n = Some index → 0 ≤ index.
Proof.
  intros Hn. pose proof (vi_range _ _ Hv) as Hr. rewrite Forall_forall in Hr. apply list_elem_of_lookup_2, Hr in Hn. lia.
Qed.

Lemma climb_ok n index leaves h nodes l :
  let leaves' := <[n := h]> leaves in
  length leaves = length indices → indices !! n = Some index → (l < depth)%nat → climbed nodes leaves leaves' l →
  ∃ nodes', climb index (nodes, pl leaves' l (index / 2 ^ Z.of_nat l), path_siblings leaves' index l, path_directions index l) l
      = Ok (nodes', pl leaves' (S l) (index / 2 ^ Z.of_nat (S l)), path_siblings leaves' index (S l), path_directions index (S l))
    ∧ climbed nodes' leaves leaves' (S l).
Proof.
  intros leaves' L Hn Hl Hc. set (pos := index / 2 ^ Z.of_nat l).
  pose proof (index_nonneg n index Hn) as H0. assert (0 ≤ pos) as Hp0 by (apply Z.div_pos; lia).
  assert (pos / 2 ∈ touched (S l)) as Hpar by (unfold pos; rewrite <- div_pow_S; by eapply index_touched).
  assert (covered l (Z.lxor pos 1)) as Hcov.
  { apply (covered_children l (pos / 2)); [done|done|]. rewrite lxor_1 by done. pose proof (base_of_spec pos).
    destruct (Z.eqb_spec pos (base_of pos)); Z.to_euclidean_division_equations; lia. }
  exists (<[(S l, pos / 2) := pl leaves' (S l) (pos / 2)]> nodes). split.
  - unfold climb. rewrite Z.shiftr_div_pow2 by lia. fold pos. rewrite Hc, decide_True by (done || lia).
    cbn [expect ok_or mbind result_bind]. rewrite div_pow_S. fold pos. rewrite parent_step by done. unfold step_hash.
    unfold path_siblings, path_directions. rewrite seq_S, !fmap_app. done.
  - intros l' i Hl' Hi. destruct (decide ((l', i) = (S l, pos / 2))) as [[= -> ->]|Hne].
    + by rewrite lookup_insert_eq, decide_True by lia.
    + rewrite lookup_insert_ne by congruence. rewrite Hc by done. f_equal.
      destruct (decide (l' ≤ l)%nat), (decide (l' ≤ S l)%nat); try done; try lia.
      assert (l' = S l) as -> by lia. symmetry. apply (label_change n index); [done|done|].
      rewrite div_pow_S. fold pos. congruence.
Qed.

Lemma update_one_ok n index leaves old h nodes out :
  let leaves' := <[n := h]> leaves in
  length leaves = length indices → indices !! n = Some index → leaves !! n = Some old → holds_upto nodes leaves depth →
  ∃ nodes', update_one depth (nodes, pl leaves depth 0, out) (index, old, h)
      = Ok (nodes', pl leaves' depth 0,
            out ++ [mkUpdatePath index old h (path_siblings leaves' index depth) (path_directions index depth)
                      (pl leaves depth 0) (pl leaves' depth 0)])
    ∧ holds_upto nodes' leaves' depth.
Proof.
  intros leaves' L Hn Ho Hh. unfold update_one. cbv beta iota zeta.
  assert (length leaves' = length indices) as L' by (unfold leaves'; by rewrite length_insert).
  assert (pl leaves' 0 index = h) as Hleaf.
  { apply (partial_label_leaf indices leaves' siblings depth n); [done|done|done|]. apply list_lookup_insert_eq.
    by eapply lookup_lt_Some. }
  destruct (try_fold_total (λ done s, ∃ nodes', s = (nodes', pl leaves' (length done) (index / 2 ^ Z.of_nat (length done)),
        path_siblings leaves' index (length done), path_directions index (length done)) ∧ climbed nodes' leaves leaves' (length done))
      (climb index) (<[(0%nat, index) := h]> nodes, h, [], []) (seq 0 depth)) as (s & Hs & nodes' & -> & Hc).
  - exists (<[(0%nat, index) := h]> nodes). cbn [length]. rewrite Z.div_1_r, Hleaf. split; [done|].
    intros l i Hl Hi. destruct (decide ((l, i) = (0%nat, index))) as [[= -> ->]|Hne].
    + by rewrite lookup_insert_eq, decide_True, Hleaf by lia.
    + rewrite lookup_insert_ne by congruence. rewrite Hh; [|done|destruct Hi; auto]. f_equal. case_decide; [|done].
      assert (l = 0%nat) as -> by lia. symmetry. apply (label_change n index); [done|done|]. rewrite Z.div_1_r. congruence.
  - intros dn l s (nodes1 & -> & Hc) [todo Hseq]. assert (l = length dn ∧ (length dn < depth)%nat) as [-> Hl].
    { pose proof (f_equal (λ s, s !! length dn) Hseq) as Hk. cbn in Hk. rewrite list_lookup_middle in Hk by done.
      apply lookup_seq in Hk. lia. }
    destruct (climb_ok n index leaves h nodes1 (length dn) L Hn Hl Hc) as (nodes2 & Hstep & Hc2).
    eexists. split; [exact Hstep|]. exists nodes2. by rewrite length_app, Nat.add_1_r.
  - rewrite Hs. cbn [mbind result_bind]. rewrite length_seq in *.
    assert (index / 2 ^ Z.of_nat depth = 0) as Hz.
    { apply Z.div_small. pose proof (vi_range _ _ Hv) as Hr. rewrite Forall_forall in Hr. by apply Hr, (list_elem_of_lookup_2 _ n). }
    rewrite Hz. exists nodes'. split; [done|]. intros l i Hl Hi. rewrite Hc; [|done|destruct Hi as [[_ ?]|?]; [by left|by right]].
    by rewrite decide_True.
Qed.

(** *** The whole sequence *)

(** The leaves after the first [n] updates. *)
Definition mix (old new : list (list Z)) (n : nat) : list (list Z) := take n new ++ drop n old.

Definition update_at (old new : list (list Z)) (n : nat) : SequentialMerkleUpdatePath :=
  let index := indices !!! n in
  mkUpdatePath index (old !!! n) (new !!! n) (path_siblings (mix old new (S n)) index depth) (path_directions index depth)
    (pl (mix old new n) depth 0) (pl (mix old new (S n)) depth 0).

Section sequence.
  Context (old new : list (list Z)) (Lo : length old = length indices) (Ln : length new = length indices).

Lemma length_mix n : length (mix old new n) = length indices.
Proof. unfold mix. rewrite length_app, length_take, length_drop. lia. Qed.

Lemma lookup_mix n : (n < length indices)%nat → mix old new n !! n = Some (old !!! n).
Proof.
  intros Hn. unfold mix. rewrite lookup_app_r by (rewrite length_take; lia).
  rewrite length_take, Nat.min_l, Nat.sub_diag, lookup_drop, Nat.add_0_r by lia. by apply list_lookup_lookup_total_lt; lia.
Qed.

Lemma mix_S n : (n < length indices)%nat → <[n := new !!! n]> (mix old new n) = mix old new (S n).
Proof.
  intros Hn. unfold mix. rewrite insert_app_r_alt by (rewrite length_take; lia).
  rewrite length_take, Nat.min_l, Nat.sub_diag by lia.
  rewrite (take_S_r _ _ (new !!! n)) by (apply list_lookup_lookup_total_lt; lia). rewrite <- app_assoc. f_equal.
  rewrite (drop_S old (old !!! n) n) by (apply list_lookup_lookup_total_lt; lia). done.
Qed.

Lemma zip_steps n :
  zip (zip indices old) new !! n
  = if decide (n < length indices)%nat then Some (indices !!! n, old !!! n, new !!! n) else None.
Proof.
  case_decide as Hn.
  - rewrite !lookup_zip_with, !list_lookup_lookup_total_lt by lia. done.
  - apply lookup_ge_None. rewrite !length_zip_with. lia.
Qed.

Lemma updates_loop nodes :
  holds_upto nodes old depth →
  ∃ nodes', try_fold (update_one depth) (nodes, pl old depth 0, []) (zip (zip indices old) new)
    = Ok (nodes', pl new depth 0, update_at old new <$> seq 0 (length indices)).
Proof.
  intros Hh. destruct (try_fold_total (λ done s, ∃ nodes', s = (nodes', pl (mix old new (length done)) depth 0,
        update_at old new <$> seq 0 (length done)) ∧ holds_upto nodes' (mix old new (length done)) depth)
      (update_one depth) (nodes, pl old depth 0, []) (zip (zip indices old) new)) as (s & Hs & nodes' & -> & _).
  - exists nodes. cbn [length]. unfold mix. cbn. by rewrite drop_0.
  - intros dn step s (nodes1 & -> & Hh1) [todo Hz]. pose proof (f_equal (λ s, s !! length dn) Hz) as Hk. cbn in Hk.
    rewrite list_lookup_middle, zip_steps in Hk by done. case_decide as Hlt; [|done]. injection Hk as <-.
    destruct (update_one_ok (length dn) (indices !!! length dn) (mix old new (length dn)) (old !!! length dn) (new !!! length dn)
      nodes1 (update_at old new <$> seq 0 (length dn))) as (nodes2 & Hstep & Hh2);
      [apply length_mix|by apply list_lookup_lookup_total_lt|by apply lookup_mix|done|].
    rewrite mix_S in Hstep, Hh2 by done. eexists. split; [exact Hstep|]. exists nodes2.
    rewrite length_app, Nat.add_1_r, seq_S, fmap_app. done.
  - assert (length (zip (zip indices old) new) = length indices) as HL by (rewrite !length_zip_with; lia). rewrite HL in Hs.
    exists nodes'. rewrite Hs. unfold mix. by rewrite take_ge, drop_ge, app_nil_r by lia.
Qed.

Lemma sequential_updates_ok :
  expand_multiproof_sequential_updates indices old new siblings depth = Ok (update_at old new <$> seq 0 (length indices)).
Proof.
  unfold expand_multiproof_sequential_updates. rewrite !decide_False by (rewrite ?Lo, ?Ln; tauto).
  rewrite frontier_sibling_positions_ok by done. cbn [mbind result_bind]. rewrite decide_False by tauto.
  destruct (ancestors_loop old depth 0 _ ltac:(lia) (base_nodes_ok old Lo)) as (nodes & Hl & Hh).
  change (touched 0) with (list_to_set indices : gset Z) in Hl. rewrite Hl. cbn [mbind result_bind]. rewrite Nat.add_0_l in Hh.
  rewrite (Hh depth 0); [|lia|left; split; [lia|rewrite touched_top by done; set_solver]].
  cbn [expect ok_or mbind result_bind]. destruct (updates_loop nodes Hh) as (nodes' & ->). cbn [mbind result_bind].
  rewrite reconstruct_root_label by done. done.
Qed.

(** *** Chains *)

(** Every update authenticates its old leaf against the root before and its
    new leaf against the root after, and hands that root to the next. *)
Fixpoint update_chain (root : list Z) (updates : list SequentialMerkleUpdatePath) (final : list Z) : Prop :=
  match updates with
  | [] => root = final
  | u :: updates =>
      up_root_before u = root
      ∧ fold_directed_path (up_old_leaf u) (up_siblings u) (up_directions u) = up_root_before u
      ∧ fold_directed_path (up_new_leaf u) (up_siblings u) (up_directions u) = up_root_after u
      ∧ update_chain (up_root_after u) updates final
  end.

Lemma fold_path_app leaf s1 s2 d1 d2 :
  length s1 = length d1 → fold_directed_path leaf (s1 ++ s2) (d1 ++ d2) = fold_directed_path (fold_directed_path leaf s1 d1) s2 d2.
Proof. intros L. unfold fold_directed_path. rewrite zip_with_app by done. apply foldl_app. Qed.

Lemma take_path leaves index k : (k ≤ depth)%nat → take k (path_siblings leaves index depth) = path_siblings leaves index k.
Proof. intros Hk. unfold path_siblings. by rewrite <- fmap_take, take_seq, Nat.min_l. Qed.

Lemma take_directions index k : (k ≤ depth)%nat → take k (path_directions index depth) = path_directions index k.
Proof. intros Hk. unfold path_directions. by rewrite <- fmap_take, take_seq, Nat.min_l. Qed.

Lemma path_fold_top leaves n index k :
  indices !! n = Some index → (k ≤ depth)%nat →
  fold_directed_path (pl leaves k (index / 2 ^ Z.of_nat k)) (drop k (path_siblings leaves index depth)) (drop k (path_directions index depth))
  = pl leaves depth 0.
Proof.
  intros Hn Hk. pose proof (index_nonneg n index Hn) as H0.
  rewrite <- (path_fold leaves n index k Hn H0 Hk), <- take_path, <- take_directions by done.
  rewrite <- fold_path_app, !take_drop by (by rewrite !length_take; unfold path_siblings, path_directions; rewrite !length_fmap).
  rewrite (path_fold leaves n) by done. f_equal. apply Z.div_small.
  pose proof (vi_range _ _ Hv) as Hr. rewrite Forall_forall in Hr. by apply Hr, (list_elem_of_lookup_2 _ n).
Qed.

Lemma mix_leaf_old n : (n < length indices)%nat → pl (mix old new n) 0 (indices !!! n) = old !!! n.
Proof.
  intros Hn. apply (partial_label_leaf indices _ siblings depth n); [done|by split; [apply length_mix|]| |by apply lookup_mix].
  by apply list_lookup_lookup_total_lt.
Qed.

Lemma mix_leaf_new n : (n < length indices)%nat → pl (mix old new (S n)) 0 (indices !!! n) = new !!! n.
Proof.
  intros Hn. apply (partial_label_leaf indices _ siblings depth n); [done|by split; [apply length_mix|]| |].
  - by apply list_lookup_lookup_total_lt.
  - rewrite <- mix_S by done. apply list_lookup_insert_eq. by rewrite length_mix.
Qed.

Lemma path_siblings_mix n d :
  (n < length indices)%nat → path_siblings (mix old new (S n)) (indices !!! n) d = path_siblings (mix old new n) (indices !!! n) d.
Proof.
  intros Hn. rewrite <- mix_S by done. apply path_siblings_change; [apply length_mix| |].
  - by apply list_lookup_lookup_total_lt.
  - apply (index_nonneg n). by apply list_lookup_lookup_total_lt.
Qed.

(** The roots of one update, at any level of its path. *)
Lemma update_folds n k :
  (n < length indices)%nat → (k ≤ depth)%nat →
  let u := update_at old new n in
  fold_directed_path (up_old_leaf u) (take k (up_siblings u)) (take k (up_directions u))
    = pl (mix old new n) k (up_index u / 2 ^ Z.of_nat k)
  ∧ fold_directed_path (up_new_leaf u) (take k (up_siblings u)) (take k (up_directions u))
    = pl (mix old new (S n)) k (up_index u / 2 ^ Z.of_nat k).
Proof.
  intros Hn Hk. cbn [update_at up_old_leaf up_new_leaf up_siblings up_directions up_index].
  rewrite take_path, take_directions by done.
  assert (indices !! n = Some (indices !!! n)) as Hi by (by apply list_lookup_lookup_total_lt).
  pose proof (index_nonneg n _ Hi). split.
  - rewrite path_siblings_mix by done. rewrite <- mix_leaf_old by done. by apply (path_fold _ n).
  - rewrite <- mix_leaf_new by done. by apply (path_fold _ n).
Qed.

Lemma sequential_chain n m :
  (n + m ≤ length indices)%nat →
  update_chain (pl (mix old new n) depth 0) (update_at old new <$> seq n m) (pl (mix old new (n + m)) depth 0).
Proof.
  revert n. induction m as [|m IH]; intros n Hm; [cbn; by rewrite Nat.add_0_r|]. cbn [seq fmap list_fmap update_chain].
  assert (indices !! n = Some (indices !!! n)) as Hi by (apply list_lookup_lookup_total_lt; lia).
  assert (indices !!! n / 2 ^ Z.of_nat depth = 0) as Hz.
  { apply Z.div_small. pose proof (vi_range _ _ Hv) as Hr. rewrite Forall_forall in Hr. by apply Hr, (list_elem_of_lookup_2 _ n). }
  destruct (update_folds n depth) as [H1 H2]; [lia|lia|].
  assert (length (up_siblings (update_at old new n)) = depth ∧ length (up_directions (update_at old new n)) = depth) as [Hl1 Hl2].
  { cbn. unfold path_siblings, path_directions. by rewrite !length_fmap, length_seq. }
  rewrite !take_ge in H1, H2 by lia. cbn [update_at up_index] in H1, H2. rewrite Hz in H1, H2.
  split_and!; [done|done|done|]. rewrite <- Nat.add_succ_comm. apply IH. lia.
Qed.

(** *** Segments *)

Section segments.
  Context (ld : nat) (Hld : (ld ≤ depth)%nat).

Local Notation seg n := (indices !!! n%nat / 2 ^ Z.of_nat ld).

Lemma segment_of_index_spec n : (n < length indices)%nat → segment_of_index ld (indices !!! n) = seg n.
Proof.
  intros Hn. unfold segment_of_index. case_decide as Hd; [|by rewrite Z.shiftr_div_pow2 by lia].
  symmetry. apply Z.div_small. pose proof (vi_range _ _ Hv) as Hr. rewrite Forall_forall in Hr.
  assert (depth = ld) as <- by (pose proof (vi_depth _ _ Hv); lia).
  apply Hr, (list_elem_of_lookup_2 _ n). by apply list_lookup_lookup_total_lt.
Qed.

(** Above the segment, the path of its first slot stays as it is while other
    slots of the segment change. *)
Lemma upper_path_run n m :
  (n + m < length indices)%nat → (∀ j, (j ≤ m)%nat → seg (n + j) = seg n) →
  drop ld (path_siblings (mix old new (S (n + m))) (indices !!! n) depth)
  = drop ld (path_siblings (mix old new (S n)) (indices !!! n) depth).
Proof.
  induction m as [|m IH]; intros Hm Hseg; [by rewrite Nat.add_0_r|].
  rewrite <- IH by (lia || (intros j ?; apply Hseg; lia)). rewrite <- (Nat.add_succ_comm n m). cbn [Nat.add].
  rewrite <- (mix_S (S (n + m))) by lia. unfold path_siblings. rewrite <- !fmap_drop. apply list_fmap_ext.
  intros k l Hl. rewrite lookup_drop in Hl. apply lookup_seq in Hl as [-> Hl].
  apply (label_change _ (indices !!! S (n + m)%nat)); [apply length_mix|apply list_lookup_lookup_total_lt; lia|].
  assert (∀ x, x / 2 ^ Z.of_nat (0 + (ld + k)) = x / 2 ^ Z.of_nat ld / 2 ^ Z.of_nat k) as Hdiv.
  { intros x. rewrite Z.div_div by lia. rewrite <- Z.pow_add_r by lia. do 2 f_equal. lia. }
  rewrite !Hdiv. replace (S (n + m)) with (n + S m)%nat by lia. rewrite Hseg by lia. apply lxor_1_ne.
  apply Z.div_pos; [|lia]. apply Z.div_pos; [|lia]. apply (index_nonneg n). apply list_lookup_lookup_total_lt. lia.
Qed.

Lemma segment_run_spec s n m :
  (n + m ≤ length indices)%nat →
  (segment_run ld s (update_at old new <$> seq n m) ≤ m)%nat
  ∧ ∀ j, (j < segment_run ld s (update_at old new <$> seq n m))%nat → seg (n + j) = s.
Proof.
  revert n. induction m as [|m IH]; intros n Hm; [split; [done|cbn; lia]|].
  cbn [seq fmap list_fmap segment_run update_at up_index]. rewrite segment_of_index_spec by lia.
  destruct (Z.eqb_spec (seg n) s) as [He|He]; [|split; lia].
  destruct (IH (S n) ltac:(lia)) as [H1 H2]. split; [lia|]. intros [|j] Hj; [by rewrite Nat.add_0_r|].
  rewrite <- Nat.add_succ_comm. apply H2. lia.
Qed.

Lemma last_run n m r :
  (r ≤ m)%nat → default (update_at old new n) (last (take r (update_at old new <$> seq (S n) m))) = update_at old new (n + r).
Proof.
  intros Hr. rewrite <- fmap_take, take_seq, Nat.min_l by lia. destruct r as [|r]; [by rewrite Nat.add_0_r|].
  rewrite seq_S, fmap_app. cbn [fmap list_fmap]. rewrite last_snoc. cbn. do 2 f_equal. lia.
Qed.

Lemma segments_chain fuel n m :
  (m ≤ fuel)%nat → (n + m ≤ length indices)%nat →
  ∃ us, segment_updates fuel ld (update_at old new <$> seq n m) = Some us
    ∧ update_chain (pl (mix old new n) depth 0) us (pl (mix old new (n + m)) depth 0).
Proof.
  revert n m. induction fuel as [|fuel IH]; intros n m Hf Hm.
  { assert (m = 0%nat) as -> by lia. exists []. cbn. by rewrite Nat.add_0_r. }
  destruct m as [|m]; [exists []; cbn; by rewrite Nat.add_0_r|]. cbn [seq fmap list_fmap segment_updates].
  set (u := update_at old new n). set (r := segment_run ld (segment_of_index ld (up_index u)) (update_at old new <$> seq (S n) m)).
  destruct (segment_run_spec (segment_of_index ld (up_index u)) (S n) m ltac:(lia)) as [Hr Hrun]. fold r in Hr, Hrun.
  assert (segment_of_index ld (up_index u) = seg n) as Hs by (apply segment_of_index_spec; lia). rewrite Hs in *.
  unfold u in *. rewrite last_run by done. rewrite <- fmap_drop, drop_seq.
  destruct (IH (S n + r)%nat (m - r)%nat) as (us & -> & Hus); [lia|lia|].
  eexists. split; [done|]. cbn [mbind option_bind update_chain up_root_before up_root_after up_old_leaf up_new_leaf up_siblings up_directions local_update].
  replace (S n + r + (m - r))%nat with (n + S m)%nat in Hus by lia. replace (S n + r)%nat with (S (n + r)) in Hus by lia.
  assert (indices !! n = Some (indices !!! n)) as Hi by (apply list_lookup_lookup_total_lt; lia).
  assert (∀ j, (j ≤ r)%nat → seg (n + j) = seg n) as Hseg.
  { intros [|j] Hj; [by rewrite Nat.add_0_r|]. rewrite <- Nat.add_succ_comm. apply Hrun. lia. }
  split_and!; [done| | |exact Hus].
  - rewrite (proj1 (update_folds n ld ltac:(lia) Hld)). cbn [update_at up_siblings up_directions up_index up_root_before].
    rewrite path_siblings_mix by lia. by apply (path_fold_top _ n).
  - rewrite (proj2 (update_folds (n + r) ld ltac:(lia) Hld)). cbn [update_at up_siblings up_directions up_index up_root_after].
    rewrite Hseg by lia. rewrite <- (upper_path_run n r) by (lia || done). by apply (path_fold_top _ n).
Qed.

End segments.
End sequence.
End updates.

(** The update sequences the recursive proof consumes.  From a valid
    touched set with its old leaves, new leaves and frontier, both projections
    succeed; the slots are updated once each in order; every update
    authenticates its old leaf against the root before and its new leaf
    against the root after; and both the slot-by-slot chain and the chain of
    one update per segment lead from the root reconstructed with the old
    leaves to the root reconstructed with all the new ones. *)
Theorem multiproof_updates_chain {P : Poseidon2bPermutation} (indices : list Z) (old new siblings : list (list Z))
    (depth log_segment_size : nat)
    (Hv : valid_indices indices depth) (Hold : length old = length indices) (Hnew : length new = length indices)
    (Hsib : expected_sibling_count indices depth = Ok (length siblings)) :
  ∃ full segmented root root', expand_multiproof_sequential_updates indices old new siblings depth = Ok full
    ∧ expand_multiproof_segmented_updates indices old new siblings depth log_segment_size = Ok segmented
    ∧ reconstruct_root indices old siblings depth = Ok root
    ∧ reconstruct_root indices new siblings depth = Ok root'
    ∧ (λ u, (up_index u, up_old_leaf u, up_new_leaf u)) <$> full = zip (zip indices old) new
    ∧ update_chain root full root' ∧ update_chain root (su_segment_updates segmented) root'.
Proof.
  rewrite expected_sibling_count_ok in Hsib by done. injection Hsib as Hsib. symmetry in Hsib.
  pose proof (sequential_updates_ok indices siblings depth Hv Hsib old new Hold Hnew) as Hfull.
  destruct (segments_chain indices siblings depth Hv Hsib old new Hold Hnew (Nat.min depth log_segment_size) ltac:(lia)
    (length indices) 0 (length indices)) as (us & Hus & Hchain); [lia|lia|].
  pose proof (sequential_chain indices siblings depth Hv Hsib old new Hold Hnew 0 (length indices) ltac:(lia)) as Hseq.
  assert (mix old new 0 = old ∧ mix old new (0 + length indices) = new) as [E0 E1].
  { unfold mix. rewrite take_0, drop_0, take_ge, drop_ge, app_nil_r by lia. done. }
  rewrite E0, E1 in *. unfold expand_multiproof_segmented_updates. rewrite Hfull. cbn [mbind result_bind].
  rewrite length_fmap, length_seq, Hus. cbn [expect ok_or mbind result_bind].
  eexists _, _, _, _. rewrite !reconstruct_root_label by done. split_and!; [done..| | |]; [|exact Hseq|exact Hchain].
  apply list_eq. intros n. rewrite list_lookup_fmap, list_lookup_fmap. erewrite zip_steps by done. case_decide as Hn.
  - rewrite lookup_seq_lt by done. done.
  - rewrite lookup_seq_ge by lia. done.
Qed.

Lemma multiproof_updates_chain_witness :
  let indices := [1; 2; 5] in
  let old := [replicate 32 4; replicate 32 5; replicate 32 6] in
  let new := [replicate 32 1; replicate 32 2; replicate 32 3] in
  let siblings := [replicate 32 7; replicate 32 8; replicate 32 9; replicate 32 10] in
  ∃ full segmented root root', expand_multiproof_sequential_updates (P := example_permutation) indices old new siblings 3 = Ok full
    ∧ expand_multiproof_segmented_updates (P := example_permutation) indices old new siblings 3 2 = Ok segmented
    ∧ reconstruct_root (P := example_permutation) indices old siblings 3 = Ok root
    ∧ reconstruct_root (P := example_permutation) indices new siblings 3 = Ok root'
    ∧ (λ u, (up_index u, up_old_leaf u, up_new_leaf u)) <$> full = zip (zip indices old) new
    ∧ update_chain (P := example_permutation) root full root'
    ∧ update_chain (P := example_permutation) root (su_segment_updates segmented) root'.
Proof.
  intros indices old new siblings.
  apply (multiproof_updates_chain (P := example_permutation) indices old new siblings 3 2).
  - split; [exact (leb_complete 3 32 eq_refl)|discriminate| |]; repeat constructor; discriminate.
  - reflexivity.
  - reflexivity.
  - vm_compute. reflexivity.
Defined.
