(* ===== verification/MultiproofPlan.v ===== *)
(** * The structural plan of a multiproof

    The topology derived by [derive_structural_frontier_plan], evaluated on
    leaves and frontier hashes, against the direct reconstruction; and the
    padding of a frontier to a class capacity. *)

From S2P Require Import Prelude Machine Poseidon TxTypes Merkle SlotState SparseRoot Multiproof MultiproofProps.

Section plan.
  Context {P : Poseidon2bPermutation} (indices : list Z) (leaves siblings : list (list Z)) (depth : nat).
  Context (Hv : valid_indices indices depth) (Hs : sized indices leaves siblings depth).

Local Notation pl := (partial_label indices leaves siblings depth).
Local Notation K0 := (list_to_set indices).

(** The references known at a level stand for the labels of its touched
    nodes. *)
Definition refs_ok (ch : list (list Z)) (l : nat) (K : gset Z) (known : gmap Z StructuralNodeRef) : Prop :=
  dom known = K ∧ ∀ j r, known !! j = Some r → structural_node_hash r leaves siblings ch = Ok (pl l j).

Lemma ref_mono r ch ch' h :
  structural_node_hash r leaves siblings ch = Ok h → structural_node_hash r leaves siblings (ch ++ ch') = Ok h.
Proof.
  destruct r as [k|k|k]; cbn; [done..|]. destruct (ch !! k) eqn:E; [|done]. by rewrite (lookup_app_l_Some _ _ _ _ E).
Qed.

Lemma refs_mono ch ch' l K known : refs_ok ch l K known → refs_ok (ch ++ ch') l K known.
Proof. intros [Hd Hr]. split; [done|]. intros j r Hj. by apply ref_mono, Hr. Qed.

(** What a loop over bases has produced: the plan so far evaluates. *)
Record plan_so_far (l : nat) (D : gset Z) (s : plan_state) (ch : list (list Z)) : Prop := {
  ps_eval : try_fold (evaluate_combine leaves siblings) [] (snd s) = Ok ch;
  ps_next : refs_ok ch (S l) D (fst (fst s));
}.

Lemma plan_visit_ok l K known b next fps combines D ch :
  refs_ok ch l K known → b ∈ level_bases K → b / 2 ∈ touched K0 (S l) →
  (∀ p : FrontierSiblingPosition, missing l K b = [p] → siblings !! length fps = Some (pl (fst p) (snd p))) →
  plan_so_far l D (next, fps, combines) ch →
  ∃ s' h, plan_visit l known (next, fps, combines) b = Ok s' ∧ snd (fst s') = fps ++ missing l K b
    ∧ plan_so_far l ({[b / 2]} ∪ D) s' (ch ++ [h]).
Proof.
  intros [Hdom Hr] Hb Hpar Hsib [Hev [Hnd Hnr]]. cbn [fst snd] in *.
  pose proof (base_half K b Hb) as Heven. pose proof (known_child K b Hb) as Hchild.
  assert (∀ c, c ∈ K ↔ is_Some (known !! c)) as HK by (intros c; rewrite <- Hdom; apply elem_of_dom).
  assert (∃ lr rr, plan_visit l known (next, fps, combines) b
      = Ok (<[b / 2 := Combine (length combines)]> next, fps ++ missing l K b, combines ++ [mkCombine lr rr])
    ∧ structural_node_hash lr leaves siblings ch = Ok (pl l b)
    ∧ structural_node_hash rr leaves siblings ch = Ok (pl l (b + 1))) as (lr & rr & Hvis & Hl & Hrr).
  { unfold plan_visit, missing in *. destruct (known !! b) as [rl|] eqn:El, (known !! (b + 1)) as [rr|] eqn:Er.
    - rewrite !decide_True in * by (apply HK; rewrite ?El, ?Er; eauto). exists rl, rr. rewrite app_nil_r. eauto.
    - rewrite decide_True, decide_False in * by (rewrite HK, ?El, ?Er; (eauto || by intros [? [=]])).
      eexists _, _. split; [done|]. split; [eauto|]. cbn. by rewrite (Hsib _ eq_refl).
    - rewrite decide_False in * by (rewrite HK, El; by intros [? [=]]).
      eexists _, _. split; [done|]. split; [|eauto]. cbn. by rewrite (Hsib _ eq_refl).
    - rewrite !HK, El, Er in Hchild. by destruct Hchild as [[? [=]]|[? [=]]]. }
  rewrite Hvis. eexists _, (pl (S l) (b / 2)). split; [done|]. split; [done|].
  assert (length ch = length combines) as HL.
  { assert (∀ cs acc r, try_fold (evaluate_combine leaves siblings) acc cs = Ok r → length r = (length acc + length cs)%nat) as HG.
    { induction cs as [|c cs IH]; intros acc r; cbn [try_fold]; [intros [= <-]; cbn; lia|].
      intros (a & Ha & Hrest)%bind_Ok. apply IH in Hrest as ->. unfold evaluate_combine in Ha. res_inv.
      rewrite length_app. cbn. lia. }
    apply HG in Hev. cbn in Hev. done. }
  split; cbn [fst snd].
  - rewrite try_fold_app, Hev. cbn [mbind result_bind try_fold]. unfold evaluate_combine. cbn [sc_left sc_right].
    rewrite Hl, Hrr. cbn [mbind result_bind]. rewrite partial_label_step, Heven by done. done.
  - split; [rewrite dom_insert_L, Hnd; done|]. intros j r Hj. destruct (decide (j = b / 2)) as [->|Hne].
    + rewrite lookup_insert_eq in Hj. injection Hj as <-. cbn. by rewrite <- HL, list_lookup_middle.
    + rewrite lookup_insert_ne in Hj by done. by apply ref_mono, Hnr.
Qed.

Lemma plan_level_ok l K known bs next fps combines D ch :
  refs_ok ch l K known → (∀ b, b ∈ bs → b ∈ level_bases K ∧ b / 2 ∈ touched K0 (S l)) →
  (∀ k (p : FrontierSiblingPosition), (bs ≫= missing l K) !! k = Some p → siblings !! (length fps + k)%nat = Some (pl (fst p) (snd p))) →
  plan_so_far l D (next, fps, combines) ch →
  ∃ s' ch', try_fold (plan_visit l known) (next, fps, combines) bs = Ok s' ∧ snd (fst s') = fps ++ (bs ≫= missing l K)
    ∧ plan_so_far l (list_to_set ((λ b, b / 2) <$> bs) ∪ D) s' ch'.
Proof.
  revert next fps combines D ch. induction bs as [|b bs IH]; intros next fps combines D ch Hr Hb Hsib Hso.
  { eexists _, ch. split; [done|]. cbn. rewrite app_nil_r, union_empty_l_L. done. }
  destruct (Hb b ltac:(left)) as [Hb1 Hb2].
  destruct (plan_visit_ok l K known b next fps combines D ch Hr Hb1 Hb2) as ([[n1 f1] c1] & h & Hvis & Hf & Hso1); [|done|].
  { intros p Hp. rewrite <- (Nat.add_0_r (length fps)). apply Hsib. by rewrite bind_cons, Hp. }
  cbn [fst snd] in Hf. subst f1. cbn [try_fold]. rewrite Hvis. cbn [mbind result_bind].
  destruct (IH n1 (fps ++ missing l K b) c1 ({[b / 2]} ∪ D) (ch ++ [h])) as (s' & ch' & Hrun & Hf' & Hso').
  - by apply refs_mono.
  - intros b' ?. apply Hb. by right.
  - intros k p Hk. rewrite length_app, <- Nat.add_assoc. apply Hsib. rewrite bind_cons, lookup_app_r by lia.
    by replace (length (missing l K b) + k - length (missing l K b))%nat with k by lia.
  - done.
  - exists s', ch'. split; [done|]. rewrite bind_cons, app_assoc. split; [done|].
    replace (list_to_set ((λ b, b / 2) <$> b :: bs) ∪ D) with (list_to_set ((λ b, b / 2) <$> bs) ∪ ({[b / 2]} ∪ D) : gset Z);
      [done|]. cbn. set_solver.
Qed.

Lemma plan_loop_ok d l known fps combines ch :
  (l + d = depth)%nat → refs_ok ch l (touched K0 l) known →
  try_fold (evaluate_combine leaves siblings) [] combines = Ok ch →
  (∀ k (p : FrontierSiblingPosition), frontier l d (touched K0 l) !! k = Some p → siblings !! (length fps + k)%nat = Some (pl (fst p) (snd p))) →
  ∃ known' combines' ch', try_fold (λ '(known, frontier_positions, combines) level,
      each_parent (plan_visit level known) (btree_keys (dom known)) (∅, frontier_positions, combines)) (known, fps, combines) (seq l d)
    = Ok (known', fps ++ frontier l d (touched K0 l), combines')
    ∧ try_fold (evaluate_combine leaves siblings) [] combines' = Ok ch' ∧ refs_ok ch' depth (touched K0 depth) known'.
Proof.
  revert l known fps combines ch. induction d as [|d IH]; intros l known fps combines ch Hd Hr Hev Hsib; cbn [seq try_fold frontier].
  { rewrite Nat.add_0_r in Hd. subst l. exists known, combines, ch. by rewrite app_nil_r. }
  cbn [frontier] in Hsib. rewrite each_parent_bases, (proj1 Hr). fold (level_bases (touched K0 l)).
  destruct (plan_level_ok l (touched K0 l) known (level_bases (touched K0 l)) ∅ fps combines ∅ ch) as ([[n1 f1] c1] & ch1 & -> & Hf & [Hev1 Hr1]).
  - done.
  - intros b Hb. split; [done|]. by apply level_base_spec in Hb as (_ & ? & _).
  - intros k p Hk. apply Hsib. by apply lookup_app_l_Some.
  - split; [done|]. split; [apply dom_empty_L|]. intros j r Hj. cbn in Hj. by rewrite lookup_empty in Hj.
  - cbn [fst snd] in *. subst f1. fold (level_frontier l (touched K0 l)). cbn [mbind result_bind].
    rewrite union_empty_r_L, parents_bases in Hr1. change (parents (touched K0 l)) with (touched K0 (S l)) in *.
    destruct (IH (S l) n1 (fps ++ level_frontier l (touched K0 l)) c1 ch1) as (k' & c' & ch' & -> & Hev' & Hr');
      [lia|done|done| |].
    + intros k p Hk. rewrite length_app, <- Nat.add_assoc. apply Hsib. rewrite lookup_app_r by lia.
      by replace (length (level_frontier l (touched K0 l)) + k - length (level_frontier l (touched K0 l)))%nat with k by lia.
    + exists k', c', ch'. by rewrite <- app_assoc.
Qed.

Lemma plan_ok :
  ∃ plan ev, derive_structural_frontier_plan indices depth = Ok plan
    ∧ pl_frontier_positions plan = frontier 0 depth K0
    ∧ evaluate_structural_frontier plan leaves siblings = Ok ev ∧ ev_root ev = pl depth 0.
Proof.
  destruct (Hs) as [L1 L2]. unfold derive_structural_frontier_plan.
  assert (validate_indices indices depth = Ok K0) as ->.
  { apply validate_indices_Ok; [|done]. eapply Forall_impl; [apply Hv|]. intros x Hx. apply Hx. }
  cbn [map_err mbind result_bind]. set (known := list_to_map _).
  assert (fst <$> imap (λ ordinal index, (index, TouchedLeaf ordinal)) indices = indices) as Hfst.
  { apply list_eq. intros n. rewrite list_lookup_fmap, list_lookup_imap. by destruct (indices !! n). }
  destruct (plan_loop_ok depth 0 known [] [] []) as (known' & combines & ch & Hrun & Hev & Hd & Hr).
  - done.
  - split.
    + unfold known. rewrite dom_list_to_map_L, Hfst. done.
    + intros j r Hj. apply elem_of_list_to_map_2, list_elem_of_lookup in Hj as [n Hn].
      rewrite list_lookup_imap in Hn. destruct (indices !! n) as [i|] eqn:Ei; [|done]. injection Hn as -> <-. cbn.
      destruct (lookup_lt_is_Some_2 leaves n) as [x Hx]; [rewrite L1; by eapply lookup_lt_Some|].
      rewrite Hx. cbn. f_equal. symmetry. by eapply partial_label_leaf.
  - done.
  - intros k p Hk. destruct (lookup_lt_is_Some_2 siblings k) as [h Hh]; [rewrite L2; by eapply lookup_lt_Some|].
    rewrite Nat.add_0_l, Hh. f_equal. symmetry. by eapply partial_label_sibling.
  - rewrite Hrun. cbn [mbind result_bind app]. rewrite touched_top in Hd by done.
    assert (∃ r, known' !! 0 = Some r) as [r Hr0] by (apply elem_of_dom; rewrite Hd; set_solver).
    assert (first_is_root known' depth = Ok r) as ->.
    { unfold first_is_root. rewrite Hd. unfold btree_keys. rewrite elements_singleton. cbn [merge_sort]. by rewrite Hr0. }
    eexists _, _. split; [done|]. split; [done|]. unfold evaluate_structural_frontier.
    cbn [pl_touched_leaf_count pl_frontier_positions pl_combines pl_root]. rewrite !decide_False by tauto.
    rewrite Hev. cbn [mbind result_bind]. rewrite (Hr 0 r Hr0). done.
Qed.

End plan.

(** The verifier-derived plan and the direct reconstruction agree.  For
    a valid touched set and inputs of the right lengths, the plan is derived,
    its frontier positions are the ones the proof builder uses, it evaluates
    without reference out of range, and its root is the reconstructed one;
    and a frontier padded to a class capacity that holds it is read back
    unchanged, its zero hashes included. *)
Theorem structural_plan_agrees {P : Poseidon2bPermutation} (indices : list Z) (leaves siblings : list (list Z)) (depth capacity : nat)
    (Hv : valid_indices indices depth) (Hleaves : length leaves = length indices)
    (Hsib : expected_sibling_count indices depth = Ok (length siblings)) (Hcap : (length siblings ≤ capacity)%nat) :
  ∃ plan ev padded, derive_structural_frontier_plan indices depth = Ok plan
    ∧ frontier_sibling_positions indices depth = Ok (pl_frontier_positions plan)
    ∧ evaluate_structural_frontier plan leaves siblings = Ok ev
    ∧ reconstruct_root indices leaves siblings depth = Ok (ev_root ev)
    ∧ pad_frontier_siblings indices siblings depth capacity = Ok padded
    ∧ unpad_frontier_siblings indices padded depth capacity = Ok siblings.
Proof.
  pose proof Hsib as Hcount. rewrite expected_sibling_count_ok in Hsib by done. injection Hsib as Hsib.
  assert (sized indices leaves siblings depth) as Hs by done.
  destruct (plan_ok indices leaves siblings depth Hv Hs) as (plan & ev & Hp & Hf & He & Hr).
  eexists plan, ev, _. rewrite frontier_sibling_positions_ok, reconstruct_root_label, Hf, Hr by done.
  split_and!; [done..| |].
  - unfold pad_frontier_siblings. rewrite Hcount. cbn [mbind result_bind]. rewrite !decide_False by (lia || tauto). done.
  - unfold unpad_frontier_siblings. rewrite length_app, length_replicate, Hcount.
    rewrite decide_False by lia. cbn [mbind result_bind]. rewrite decide_False, drop_app_length, take_app_length by lia.
    destruct (list_find _ (replicate _ _)) as [[n x]|] eqn:El; [|done].
    apply list_find_Some in El as (Hx & Hne & _). apply lookup_replicate in Hx as [-> _]. done.
Qed.

Lemma structural_plan_agrees_witness :
  let indices := [1; 2; 5] in
  let leaves := [replicate 32 1; replicate 32 2; replicate 32 3] in
  let siblings := [replicate 32 7; replicate 32 0; replicate 32 9; replicate 32 10] in
  ∃ plan ev padded, derive_structural_frontier_plan indices 3 = Ok plan
    ∧ frontier_sibling_positions indices 3 = Ok (pl_frontier_positions plan)
    ∧ evaluate_structural_frontier (P := example_permutation) plan leaves siblings = Ok ev
    ∧ reconstruct_root (P := example_permutation) indices leaves siblings 3 = Ok (ev_root ev)
    ∧ pad_frontier_siblings indices siblings 3 6 = Ok padded
    ∧ unpad_frontier_siblings indices padded 3 6 = Ok siblings.
Proof.
  intros indices leaves siblings.
  apply (structural_plan_agrees (P := example_permutation) indices leaves siblings 3 6).
  - split; [exact (leb_complete 3 32 eq_refl)|discriminate| |]; repeat constructor; discriminate.
  - reflexivity.
  - vm_compute. reflexivity.
  - exact (leb_complete 4 6 eq_refl).
Defined.
