(* ===== verification/BlockWire.v ===== *)
(** * The encoding of blocks

    The wire half of [jetsam_chain/src/block.rs]: marker, header, transaction
    count, fixed-size records (system mints and spend pages) and the optional
    v1.5 object section, with the predicted length of
    [canonical_wire_len].  A failed assertion of the encoder is [None]. *)

From S2P Require Import Prelude Machine Params Poseidon TxTypes TxWire PagedSpend PagedWire BlockStream BlockHeader ClientObjects Consensus Block.

Definition BLOCK_WIRE_MARKER : Z := 0xB3.
Definition BLOCK_WIRE_HEADER_OFFSET : nat := 1.
Definition BLOCK_WIRE_FIXED_OVERHEAD : nat := 1 + BLOCK_HEADER_WIRE_SIZE + 4.
Definition TRANSACTION_WIRE_SIZE : nat := TX_BODY_WIRE_SIZE.

(** [wire_limits::MAX_BLOCK_BYTES] *)
Definition MAX_BLOCK_BYTES : Z := Z.of_nat (1 + BLOCK_HEADER_WIRE_SIZE + 4) + 256 * Z.of_nat TX_BODY_WIRE_SIZE.

Definition canonical_block_wire_len (tx_count : Z) : result WireError Z :=
  if BLOCK_MAX_TXS <? tx_count then Err LengthOverflow
  else
    ok_or (tx_bytes ← checked_mul 64 tx_count (Z.of_nat TRANSACTION_WIRE_SIZE);
           checked_add 64 (Z.of_nat BLOCK_WIRE_FIXED_OVERHEAD) tx_bytes) LengthOverflow.

Definition Block_canonical_wire_len (block : Block) : result WireError Z :=
  if decide (MAX_BLOCK_CLIENT_OBJECTS < length (bk_client_objects block))%nat then Err LengthOverflow
  else
    len ← canonical_block_wire_len (Z.of_nat (length (bk_transactions block)));
    ok_or (checked_add 64 len (Z.of_nat (client_objects_section_wire_len (bk_client_objects block)))) LengthOverflow.

(** A record after the first: a system mint or a page. *)
Definition encode_record (tx : Transaction) : option (list Z) :=
  if tb_is_coinbase (tx_body tx) then TxBody_encode (tx_body tx)
  else result_ok (TxPage_encode (mkTxPage (tx_body tx))).

Fixpoint encode_records (txs : list Transaction) : option (list Z) :=
  match txs with
  | [] => Some []
  | tx :: txs => bytes ← encode_record tx; rest ← encode_records txs; Some (bytes ++ rest)
  end.

Definition page_wire_error (error : PagedSpendError) : WireError :=
  match error with
  | PS_Wire error => error
  | _ => NonCanonicalBody
  end.

Definition Transaction_decode : decoder WireError Transaction := λ src,
  '(body, src) ← TxBody_decode src; Ok (mkTransaction body, src).

(** The probe leaves the cursor where it was unless it finds a system mint. *)
Definition decode_record : decoder WireError Transaction := λ src,
  let page :=
    '(page, src) ← map_err page_wire_error (TxPage_decode src);
    Ok (mkTransaction (page_body page), src) in
  match Transaction_decode src with
  | Ok (system, probe) => if tb_is_coinbase (tx_body system) then Ok (system, probe) else page
  | Err _ => page
  end.

Section block_wire.
  Context {P : Poseidon2bPermutation}.

Definition Block_encode (block : Block) : option (list Z) :=
  let txs := bk_transactions block in
  if BLOCK_MAX_TXS <? Z.of_nat (length txs) then None
  else
    _ ← (match txs with [] => Some tt | _ => _ ← result_ok (validate_block_page_stream txs); Some tt end);
    coinbase ← (match txs with [] => Some [] | tx :: _ => TxBody_encode (tx_body tx) end);
    records ← encode_records (tail txs);
    section ← encode_client_objects_section (bk_client_objects block);
    Some ([BLOCK_WIRE_MARKER] ++ BlockHeader_encode (bk_header block)
          ++ put_u32 (wrap 32 (Z.of_nat (length txs))) ++ coinbase ++ records ++ section).

Definition Block_to_bytes (block : Block) : option (list Z) := Block_encode block.

Definition decode_transactions (n : Z) : decoder WireError (list Transaction) := λ src,
  if n =? 0 then Ok ([], src)
  else
    '(coinbase, src) ← Transaction_decode src;
    if negb (tb_is_coinbase (tx_body coinbase)) then Err NonCanonicalBody
    else
      '(records, src) ← decode_array (Z.to_nat (n - 1)) decode_record src;
      _ ← map_err (λ _, NonCanonicalBody) (validate_block_page_stream (coinbase :: records));
      Ok (coinbase :: records, src).

Definition Block_decode_with_v1_5_activation (v1_5_activation_height : option Z) : decoder WireError Block := λ src,
  '(marker, src) ← take_byte src;
  if negb (marker =? BLOCK_WIRE_MARKER) then Err BadMarker
  else
    '(header, src) ← BlockHeader_decode src;
    '(n, src) ← take_u32 src;
    if BLOCK_MAX_TXS <? n then Err LengthOverflow
    else
      '(transactions, src) ← decode_transactions n src;
      let v1_5 := match v1_5_activation_height with
                  | Some activation => activation <=? bh_height header
                  | None => false
                  end in
      '(client_objects, src) ←
        (if v1_5 && bool_decide (head src = Some CLIENT_OBJECTS_SECTION_MARKER)
         then decode_client_objects_section src else Ok ([], src));
      Ok (mkBlock header transactions client_objects, src).

Definition Block_decode : decoder WireError Block := Block_decode_with_v1_5_activation V1_5_ACTIVATION_HEIGHT.

Definition Block_from_bytes_with_v1_5_activation (bytes : list Z) (v1_5_activation_height : option Z) :
    result WireError Block :=
  '(out, src) ← Block_decode_with_v1_5_activation v1_5_activation_height bytes;
  if bool_decide (src ≠ []) then Err TrailingBytes else Ok out.

Definition Block_from_bytes (bytes : list Z) : result WireError Block :=
  Block_from_bytes_with_v1_5_activation bytes V1_5_ACTIVATION_HEIGHT.

End block_wire.

(** ** Records *)

Definition record_wf (tx : Transaction) : Prop :=
  tx_wf tx ∧ if tb_is_coinbase (tx_body tx) then canonical_body (tx_body tx) else page_shape (tx_body tx).

Definition record_bytes (tx : Transaction) : list Z := body_bytes (tx_body tx).

#[global] Instance record_codec : Codec record_wf record_bytes decode_record.
Proof.
  split.
  - intros [b] rest [Hw Hc]. unfold record_bytes, decode_record, Transaction_decode, TxBody_decode. cbn [tx_body] in *.
    assert (body_fields (body_bytes b ++ rest) = Ok (b, rest)) as Hf by (by apply codec_complete).
    rewrite Hf. cbn [mbind result_bind]. destruct (tb_is_coinbase b) eqn:Ecb.
    + apply validate_canonical in Hc as ->; [|done]. cbn. by rewrite Ecb.
    + assert (map_err page_wire_error (TxPage_decode (body_bytes b ++ rest)) = Ok (mkTxPage b, rest)) as ->.
      { pose proof (codec_complete (Codec := page_codec) (mkTxPage b) rest (conj Hw Hc)) as Hp. cbn [page_body] in Hp.
        change (encode_page_body b) with (body_bytes b) in Hp. by rewrite Hp. }
      destruct (validate_body_semantics_no_hash b) as [[]|e]; cbn; [by rewrite Ecb|done].
  - intros src [b] rest Hb Hd. unfold decode_record in Hd.
    assert (('(page, src) ← map_err page_wire_error (TxPage_decode src); Ok (mkTransaction (page_body page), src))
      = Ok (mkTransaction b, rest) → record_wf (mkTransaction b) ∧ src = body_bytes b ++ rest ∧ byte_string rest) as Hpage.
    { intros ([p s'] & Hp & [= <- <-])%bind_Ok. apply map_err_Ok, codec_sound in Hp as ([Hw Hs] & Hsrc & Hr); [|done].
      split; [|done]. split; [done|]. cbn [tx_body]. destruct Hs as (? & Hcb & ?). by rewrite Hcb. }
    destruct (Transaction_decode src) as [[[b'] s']|e] eqn:Et; [|by apply Hpage].
    cbn [tx_body] in Hd. destruct (tb_is_coinbase b') eqn:Ecb; [|by apply Hpage]. injection Hd as -> ->.
    unfold Transaction_decode in Et. apply bind_Ok in Et as ([b2 s2] & Et & [= <- <-]).
    apply codec_sound in Et as ([Hw Hc] & Hsrc & Hr); [|done]. split; [|done]. split; [done|]. cbn [tx_body]. by rewrite Ecb.
Qed.

Lemma encode_record_Some tx bytes : tx_wf tx → encode_record tx = Some bytes ↔ record_wf tx ∧ bytes = record_bytes tx.
Proof.
  intros Hw. unfold encode_record, record_wf, record_bytes, TxBody_encode, TxPage_encode. cbn [page_body].
  destruct (tb_is_coinbase (tx_body tx)).
  - destruct (validate_body_semantics_no_hash (tx_body tx)) as [[]|e] eqn:Ev.
    + apply validate_canonical in Ev; [|done]. naive_solver.
    + split; [done|]. intros [[_ Hc] _]. apply validate_canonical in Hc; [congruence|done].
  - destruct (validate_page_shape (tx_body tx) 0) as [[]|e] eqn:Ev.
    + apply validate_page_shape_Ok in Ev; [|done]. cbn. naive_solver.
    + split; [done|]. intros [[_ Hc] _]. apply (validate_page_shape_Ok _ 0) in Hc; [congruence|done].
Qed.

Lemma encode_records_Some txs bytes :
  Forall tx_wf txs → encode_records txs = Some bytes ↔ Forall record_wf txs ∧ bytes = concat (record_bytes <$> txs).
Proof.
  intros Hw. revert bytes. induction Hw as [|tx txs Htx Hw IH]; intros bytes; cbn [encode_records fmap list_fmap concat].
  { split; [by intros [= <-]|by intros [_ ->]]. }
  rewrite Forall_cons. split.
  - intros He. destruct (encode_record tx) as [b1|] eqn:E1; [|done]. cbn in He.
    destruct (encode_records txs) as [b2|] eqn:E2; [|done]. injection He as <-.
    apply encode_record_Some in E1 as [? ->]; [|done]. by destruct (proj1 (IH b2) eq_refl) as [? ->].
  - intros [[H1 H2] ->]. rewrite (proj2 (encode_record_Some tx _ Htx) (conj H1 eq_refl)). cbn. by rewrite (proj2 (IH _) (conj H2 eq_refl)).
Qed.

(** ** Blocks *)

Record block_wire_wf (block : Block) : Prop := {
  bw_header : BlockHeader_wf (bk_header block);
  bw_txs : Forall tx_wf (bk_transactions block);
  bw_objects : Forall object_wf (bk_client_objects block);
}.

(** Whether a block of this height may carry objects. *)
Definition objects_allowed (activation : option Z) (block : Block) : Prop :=
  bk_client_objects block = [] ∨ ∃ a, activation = Some a ∧ a ≤ bh_height (bk_header block).

Section block_wire_proofs.
  Context {P : Poseidon2bPermutation}.

(** A transaction list as the decoder accepts it. *)
Definition txs_wf (txs : list Transaction) : Prop :=
  Forall record_wf txs ∧ (txs ≠ [] → ∃ facts, validate_block_page_stream txs = Ok facts).

Lemma stream_first_coinbase tx txs facts :
  validate_block_page_stream (tx :: txs) = Ok facts → tb_is_coinbase (tx_body tx) = true.
Proof.
  unfold validate_block_page_stream, validate_block_page_stream_in. destruct (tb_is_coinbase (tx_body tx)); [done|]. done.
Qed.

Lemma decode_transactions_complete txs rest :
  txs_wf txs → Z.of_nat (length txs) ≤ BLOCK_MAX_TXS →
  decode_transactions (Z.of_nat (length txs)) (concat (record_bytes <$> txs) ++ rest) = Ok (txs, rest).
Proof.
  intros [Hr Hs] Hn. unfold decode_transactions. destruct txs as [|tx txs]; [done|].
  destruct (Z.eqb_spec (Z.of_nat (length (tx :: txs))) 0) as [He|_]; [done|].
  destruct (Hs ltac:(done)) as [facts Hf]. pose proof (stream_first_coinbase _ _ _ Hf) as Hcb.
  apply Forall_cons in Hr as [[Hw Hc] Hr]. rewrite Hcb in Hc. cbn [fmap list_fmap concat].
  rewrite <- app_assoc. unfold Transaction_decode, record_bytes at 1.
  rewrite (codec_complete (Codec := TxBody_codec)) by done. cbn [mbind result_bind tx_body]. rewrite Hcb. cbn [negb].
  replace (Z.to_nat (Z.of_nat (length (tx :: txs)) - 1)) with (length txs) by (cbn [length]; lia).
  rewrite (codec_complete (Codec := array_codec _ _ _ (length txs) record_codec)) by done. cbn [mbind result_bind].
  destruct tx as [b]. cbn [tx_body]. rewrite Hf. done.
Qed.

Lemma decode_transactions_sound n src txs rest :
  byte_string src → 0 ≤ n → decode_transactions n src = Ok (txs, rest) →
  txs_wf txs ∧ Z.of_nat (length txs) = n ∧ src = concat (record_bytes <$> txs) ++ rest ∧ byte_string rest.
Proof.
  intros Hb Hn. unfold decode_transactions. destruct (Z.eqb_spec n 0) as [->|Hn0].
  { intros [= <- <-]. split; [split; [constructor|done]|done]. }
  intros ([[b] s1] & Ht & Hd)%bind_Ok. unfold Transaction_decode in Ht. apply bind_Ok in Ht as ([b' s1'] & Ht & [= <- <-]).
  apply codec_sound in Ht as ([Hw Hc] & -> & Hb1); [|done]. apply if_err_Ok in Hd as [Hcb Hd]. apply negb_false_iff in Hcb.
  apply bind_Ok in Hd as ([rs s2] & Hr & Hd).
  apply (codec_sound (Codec := array_codec _ _ _ _ record_codec)) in Hr as ((Hl & Hrw) & -> & Hb2); [|done].
  apply bind_Ok in Hd as (facts & Hf & [= <- <-]). apply map_err_Ok in Hf. cbn [tx_body] in Hcb.
  split_and!; [split|..]; [|by eauto|cbn [length]; lia|cbn [fmap list_fmap concat]; by rewrite <- app_assoc|done].
  constructor; [|done]. split; [done|]. cbn [tx_body]. by rewrite Hcb.
Qed.

(** The bytes of a block that encodes. *)
Definition block_bytes (block : Block) (section : list Z) : list Z :=
  [BLOCK_WIRE_MARKER] ++ BlockHeader_encode (bk_header block) ++ put_u32 (Z.of_nat (length (bk_transactions block)))
  ++ concat (record_bytes <$> bk_transactions block) ++ section.

Lemma Block_encode_Some block bytes :
  block_wire_wf block →
  Block_encode block = Some bytes ↔
  txs_wf (bk_transactions block) ∧ Z.of_nat (length (bk_transactions block)) ≤ BLOCK_MAX_TXS
  ∧ ∃ section, encode_client_objects_section (bk_client_objects block) = Some section ∧ bytes = block_bytes block section.
Proof.
  intros [Hh Ht Ho]. unfold Block_encode. destruct (Z.ltb_spec BLOCK_MAX_TXS (Z.of_nat (length (bk_transactions block)))) as [Hgt|Hle].
  { split; [done|]. intros (_ & Hle & _). lia. }
  assert (BLOCK_MAX_TXS < 2 ^ 32) by done. unfold block_bytes. rewrite wrap_small by lia.
  destruct (bk_transactions block) as [|tx txs] eqn:Etx; cbn [mbind option_bind tail encode_records].
  - destruct (encode_client_objects_section (bk_client_objects block)) as [sec|]; cbn; [|naive_solver].
    split; [intros [= <-]|]; [|naive_solver]. split; [split; [constructor|done]|]. split; [lia|]. eauto.
  - destruct (validate_block_page_stream (tx :: txs)) as [facts|e] eqn:Ef; cbn [result_ok mbind option_bind].
    2:{ split; [done|]. intros ([_ Hs] & _). destruct (Hs ltac:(done)) as [? Hf]. congruence. }
    pose proof (stream_first_coinbase _ _ _ Ef) as Hcb. apply Forall_cons in Ht as [Htx Htxs].
    assert (TxBody_encode (tx_body tx) = encode_record tx) as -> by (unfold encode_record; by rewrite Hcb).
    assert ((coinbase ← encode_record tx; records ← encode_records txs; sec ← encode_client_objects_section (bk_client_objects block);
             Some ([BLOCK_WIRE_MARKER] ++ BlockHeader_encode (bk_header block) ++ put_u32 (Z.of_nat (length (tx :: txs))) ++ coinbase ++ records ++ sec))
            = (records ← encode_records (tx :: txs); sec ← encode_client_objects_section (bk_client_objects block);
               Some ([BLOCK_WIRE_MARKER] ++ BlockHeader_encode (bk_header block) ++ put_u32 (Z.of_nat (length (tx :: txs))) ++ records ++ sec))) as ->.
    { cbn [encode_records]. destruct (encode_record tx), (encode_records txs); try done. cbn [mbind option_bind].
      destruct (encode_client_objects_section _); [|done]. cbn [mbind option_bind]. by rewrite <- (app_assoc l). }
    destruct (encode_records (tx :: txs)) as [recs|] eqn:Er; cbn [mbind option_bind].
    + apply encode_records_Some in Er as [Hr ->]; [|by constructor].
      destruct (encode_client_objects_section (bk_client_objects block)) as [sec|]; cbn; [|naive_solver].
      split; [intros [= <-]|naive_solver]. split; [split; [done|eauto]|]. split; [done|]. eauto.
    + split; [done|]. intros ([Hr _] & _). assert (encode_records (tx :: txs) = Some (concat (record_bytes <$> tx :: txs))); [|congruence].
      apply encode_records_Some; [by constructor|done].
Qed.

End block_wire_proofs.

Lemma length_ClientObject_encode o : object_wf o → length (ClientObject_encode o) = object_wire_len o.
Proof.
  destruct o as [r|s|b]; cbn [object_wf ClientObject_encode object_wire_len length];
    unfold registration_payload, submission_payload, batch_submission_payload, put_u32;
    intros Hw; destruct Hw as (H1 & Hw); [destruct Hw as [H2 _]| |destruct Hw as [H2 _]]; destruct H1 as [H1 _];
    rewrite ?length_app, ?length_to_le_bytes, H1; [destruct H2 as [-> _]|destruct Hw as [-> _]|destruct H2 as [-> _]]; done.
Qed.

Lemma length_section objects bytes :
  Forall object_wf objects → encode_client_objects_section objects = Some bytes →
  length bytes = client_objects_section_wire_len objects ∧ (length objects ≤ MAX_BLOCK_CLIENT_OBJECTS)%nat.
Proof.
  intros Hw He. destruct objects as [|o objects]; [injection He as <-; split; [done|cbn; lia]|].
  rewrite encode_section_nonempty in He by done. case_decide as Hl; [|done]. apply (inj Some) in He as <-. split; [|done].
  assert (∀ l, Forall object_wf l → length (concat (ClientObject_encode <$> l)) = sum_list (object_wire_len <$> l)) as Hs.
  { induction 1 as [|o' l Ho _ IH]; [done|]. cbn [fmap list_fmap concat sum_list]. rewrite length_app, IH.
    by rewrite length_ClientObject_encode. }
  unfold client_objects_section_wire_len. rewrite <- (Hs _ Hw). done.
Qed.

(** At most 17 objects of at most 69 bytes. *)
Lemma section_len_bound objects :
  (length objects ≤ MAX_BLOCK_CLIENT_OBJECTS)%nat → (client_objects_section_wire_len objects ≤ 2 + 17 * 69)%nat.
Proof.
  intros Hl. assert (∀ l, sum_list (object_wire_len <$> l) ≤ length l * 69)%nat as Hs.
  { induction l as [|o l IH]; [done|]. cbn [fmap list_fmap sum_list length].
    assert (object_wire_len o ≤ 69)%nat by (destruct o; apply leb_complete; reflexivity). change (object_wire_len o + sum_list (object_wire_len <$> l) ≤ S (length l) * 69)%nat. lia. }
  change MAX_BLOCK_CLIENT_OBJECTS with 17%nat in Hl. unfold client_objects_section_wire_len.
  destruct objects as [|o objects]; [lia|]. pose proof (Hs (o :: objects)). lia.
Qed.

Section block_roundtrip.
  Context {P : Poseidon2bPermutation} (activation : option Z).

Lemma from_bytes_sound bytes block :
  byte_string bytes → Block_from_bytes_with_v1_5_activation bytes activation = Ok block →
  block_wire_wf block ∧ objects_allowed activation block ∧ Block_encode block = Some bytes.
Proof.
  intros Hbytes. unfold Block_from_bytes_with_v1_5_activation, Block_decode_with_v1_5_activation.
  intros ([b src] & Hd & Hend)%bind_Ok. apply if_err_Ok in Hend as [Hend [= ->]]. bool_inv. apply dec_stable in Hend as ->.
  apply bind_Ok in Hd as ([m s1] & Hm & Hd). apply take_byte_sound in Hm as ->. apply Forall_cons in Hbytes as [_ Hb].
  apply if_err_Ok in Hd as [Hmk Hd]. apply negb_false_iff, Z.eqb_eq in Hmk as ->.
  apply bind_Ok in Hd as ([h s2] & Hh & Hd). apply codec_sound in Hh as (Hhw & -> & Hb2); [|done].
  apply bind_Ok in Hd as ([n s3] & Hn & Hd). apply codec_sound in Hn as (Hnw & -> & Hb3); [|done].
  apply if_err_Ok in Hd as [Hmax Hd]. apply Z.ltb_ge in Hmax.
  apply bind_Ok in Hd as ([txs s4] & Ht & Hd). apply decode_transactions_sound in Ht as (Htw & Hl & -> & Hb4); [|done|apply Hnw].
  assert (Forall tx_wf txs) as Htx by (eapply Forall_impl; [apply Htw|]; by intros tx [? _]). subst n.
  apply bind_Ok in Hd as ([os s5] & Ho & [= <- ->]).
  assert (Forall object_wf os ∧ objects_allowed activation (mkBlock h txs os) ∧ encode_client_objects_section os = Some s4) as (Hos & Hal & Hse).
  { destruct (match activation with Some a => a <=? bh_height h | None => false end) eqn:Ea; cbn [andb] in Ho.
    - case_bool_decide as Hhd; [|by injection Ho as <- ->; split_and!; [constructor|left|]].
      apply section_sound in Ho as (_ & ? & ?); [|done]. split_and!; [done| |done]. right.
      destruct activation as [a|]; [|done]. exists a. split; [done|]. by apply Z.leb_le in Ea.
    - injection Ho as <- ->. by split_and!; [constructor|left|]. }
  split_and!; [by split|done|]. apply Block_encode_Some; [by split|]. split_and!; [done|done|]. eauto.
Qed.

Lemma from_bytes_complete bytes block :
  block_wire_wf block → objects_allowed activation block → Block_encode block = Some bytes →
  Block_from_bytes_with_v1_5_activation bytes activation = Ok block.
Proof.
  unfold Block_from_bytes_with_v1_5_activation, Block_decode_with_v1_5_activation.
  intros Hw Hal He. apply Block_encode_Some in He as (Ht & Hmax & sec & Hsec & ->); [|done].
  destruct block as [h txs os]. destruct Hw as [Hh Htx Hos]. cbn [bk_header bk_transactions bk_client_objects] in *. unfold block_bytes. cbn [bk_header bk_transactions app].
  rewrite take_byte_cons. cbn [mbind result_bind]. rewrite Z.eqb_refl. cbn [negb].
  rewrite (codec_complete (Codec := BlockHeader_codec)) by done. cbn [mbind result_bind].
  assert (BLOCK_MAX_TXS < 2 ^ 32) by done.
  rewrite (codec_complete (Codec := u32_codec)) by (split; lia). cbn [mbind result_bind].
  rewrite (proj2 (Z.ltb_ge _ _)) by done. rewrite decode_transactions_complete by done. cbn [mbind result_bind].
  destruct os as [|o os].
  + injection Hsec as <-. rewrite bool_decide_false by done. rewrite andb_false_r. done.
  + destruct Hal as [?|(a & -> & Ha)]; [done|]. rewrite (proj2 (Z.leb_le _ _)) by done. cbn [andb].
    assert (head sec = Some CLIENT_OBJECTS_SECTION_MARKER) as Hhd.
    { rewrite encode_section_nonempty in Hsec by done. case_decide; [|done]. by apply (inj Some) in Hsec as <-. }
    rewrite bool_decide_true by done. rewrite (section_complete _ _ Hos Hsec). done.
Qed.

Lemma wire_len_ok block bytes :
  block_wire_wf block → Block_encode block = Some bytes → Block_canonical_wire_len block = Ok (Z.of_nat (length bytes)).
Proof.
  intros Hw (Ht & Hmax & sec & Hsec & ->)%Block_encode_Some; [|done].
  destruct (length_section _ _ (bw_objects _ Hw) Hsec) as [Hls Hlo]. pose proof (section_len_bound _ Hlo) as Hbound.
  unfold Block_canonical_wire_len, canonical_block_wire_len. rewrite decide_False by lia. rewrite (proj2 (Z.ltb_ge _ _)) by done.
  assert (length (block_bytes block sec) = (BLOCK_WIRE_FIXED_OVERHEAD + length (bk_transactions block) * TX_BODY_WIRE_SIZE + length sec)%nat) as ->.
  { unfold block_bytes, BLOCK_WIRE_FIXED_OVERHEAD, put_u32. rewrite !length_app, length_to_le_bytes.
    rewrite length_BlockHeader_encode by apply Hw. rewrite (length_concat_fixed _ TX_BODY_WIRE_SIZE); [cbn [length]; lia|].
    eapply Forall_impl; [apply Ht|]. intros tx [Htw _]. by apply length_body_bytes. }
  change TX_BODY_WIRE_SIZE with 323%nat. change TRANSACTION_WIRE_SIZE with 323%nat. change BLOCK_WIRE_FIXED_OVERHEAD with 217%nat.
  change BLOCK_MAX_TXS with 256 in Hmax.
  unfold checked_mul, checked_add. change (2 ^ 64) with 18446744073709551616.
  rewrite (proj2 (Z.ltb_lt _ _)) by lia. cbn [mbind option_bind]. rewrite (proj2 (Z.ltb_lt _ _)) by lia. cbn [ok_or mbind result_bind].
  rewrite (proj2 (Z.ltb_lt _ _)) by lia. cbn [ok_or]. f_equal. lia.
Qed.

End block_roundtrip.

(** C38: blocks on the wire.  A byte string decodes to a block if and only if
    the block is well typed, carries objects only from the v1.5 height on, and
    the string is what the encoder writes for it; so decoding inverts
    encoding, no block has two encodings and the section of objects cannot be
    smuggled in early.  The length predicted without encoding is the length
    of the string. *)
Theorem Block_from_bytes_iff {P : Poseidon2bPermutation} (bytes : list Z) (block : Block) (activation : option Z)
    (Hbytes : byte_string bytes) :
  (Block_from_bytes_with_v1_5_activation bytes activation = Ok block ↔
   block_wire_wf block ∧ objects_allowed activation block ∧ Block_encode block = Some bytes)
  ∧ (Block_from_bytes_with_v1_5_activation bytes activation = Ok block →
     Block_canonical_wire_len block = Ok (Z.of_nat (length bytes))).
Proof.
  split; [split|].
  - by apply from_bytes_sound.
  - intros (Hw & Hal & He). by apply from_bytes_complete.
  - intros (Hw & _ & He)%from_bytes_sound; [|done]. by apply wire_len_ok.
Qed.

Definition example_wire_block : Block :=
  mkBlock example_header
    [mkTransaction (mkTxBody zero_digest 0 zero_digest (replicate 8 TxInput_dummy)
       [mkTxOutput 3 5000 (replicate 32 9); TxOutput_dummy] 0x100 true)]
    [Registration (mkClientRegistration (replicate 32 1) (replicate 32 2) 1000)].

Lemma Block_from_bytes_iff_witness :
  let bytes := default [] (Block_encode (P := example_permutation) example_wire_block) in
  Block_from_bytes_with_v1_5_activation (P := example_permutation) bytes (Some 5) = Ok example_wire_block
  ∧ Block_canonical_wire_len example_wire_block = Ok (Z.of_nat (length bytes)).
Proof.
  intros bytes. assert (byte_string bytes) as Hb by (apply (bool_decide_unpack _); vm_compute; exact I).
  assert (Block_from_bytes_with_v1_5_activation (P := example_permutation) bytes (Some 5) = Ok example_wire_block) as Hd
    by (vm_compute; reflexivity).
  exact (conj Hd (proj2 (Block_from_bytes_iff (P := example_permutation) bytes example_wire_block (Some 5) Hb) Hd)).
Defined.
