(* ===== verification/Validation.v ===== *)
(** * Block validation

    [consensus/validation.rs]: the resource preflight, the fee policy, the
    mandatory coinbase and development payout, the coinbase ceiling, the
    stateless block checks in their four variants, and the sequential
    validator that applies the block.  The reused proof-of-work scratchpad is
    an explicit argument; texts inside errors are not carried. *)

From Stdlib Require Import String.
From S2P Require Import Prelude Machine Params Emission Poseidon TxTypes TxWire PagedSpend Fees BlockStream SlotState SparseRoot ChainState BlockHeader ClientObjects Consensus Block Difficulty TowerWalk Pow Header Multiproof BlockWire.

Record BlockResourcePreflight := mkPreflight {
  pf_user_page_count : Z;
  pf_logical_tx_count : Z;
  pf_live_input_count : Z;
  pf_output_count : Z;
  pf_action_count : Z;
  pf_touched_slot_count : Z;
  pf_distinct_segment_count : Z;
  pf_state_frontier_node_count : Z;
}.

Definition resource_limit {A} (limit : string) (actual max : Z) : result (fault ConsensusError) A :=
  Err (Fail (CE_BlockResourceLimitExceeded limit actual max)).

Definition page_stream_consensus_error (error : BlockPageStreamError) : ConsensusError :=
  match error with
  | BP_MissingCoinbase => CE_MissingCoinbase
  | BP_CoinbaseNotFirst => CE_CoinbaseNotFirst
  | BP_MultipleCoinbase => CE_MultipleCoinbase
  | BP_PagedSpend (SE_BlockPageLimit actual capacity) => CE_BlockResourceLimitExceeded "user_pages" actual capacity
  | BP_PagedSpend (SE_TooManyGroups actual capacity) => CE_BlockResourceLimitExceeded "logical_txs" actual capacity
  | BP_PagedSpend (SE_BlockInputLimit actual capacity) => CE_BlockResourceLimitExceeded "live_inputs" actual capacity
  | BP_PagedSpend (SE_BlockOutputLimit actual capacity) => CE_BlockResourceLimitExceeded "user_outputs" actual capacity
  | BP_PagedSpend (SE_DuplicateInputSlot _ | SE_DuplicateOutputSlot _ | SE_InputOutputSlotOverlap _) => CE_SlotConflict
  | _ => CE_InvalidPagedSpend
  end.

(** The counters of the scan over the transactions. *)
Record scan := mkScan {
  sn_inputs : Z;
  sn_outputs : Z;
  sn_touched : gset Z;
  sn_segments : gset Z;
}.

Definition scan_slot (slot_domain : Z) (is_input : bool) (s : scan) (slot_index : Z) : result (fault ConsensusError) scan :=
  if slot_domain <=? slot_index then Err (Fail CE_ShapeMismatch)
  else Ok (mkScan (if is_input then sn_inputs s + 1 else sn_inputs s) (if is_input then sn_outputs s else sn_outputs s + 1)
             ({[slot_index]} ∪ sn_touched s) ({[Z.shiftr slot_index (Z.of_nat LOG_SEGMENT_SIZE)]} ∪ sn_segments s)).

Definition scan_tx (slot_domain : Z) (s : scan) (tx : Transaction) : result (fault ConsensusError) scan :=
  s ← try_fold (λ s p, scan_slot slot_domain true s (ti_slot_index (snd p))) s (live_inputs (tx_body tx));
  s ← try_fold (λ s p, scan_slot slot_domain false s (to_slot_index (snd p))) s (live_outputs (tx_body tx));
  let segments := Z.of_nat (size (sn_segments s)) in
  if BLOCK_MAX_DISTINCT_SEGMENTS <? segments
  then resource_limit "distinct_segments" segments BLOCK_MAX_DISTINCT_SEGMENTS
  else Ok s.

Section validation.
  Context {P : Poseidon2bPermutation} {C : SegmentCommitment}.

Definition page_stream (txs : list Transaction) : result (fault ConsensusError) BlockPageStreamFacts :=
  map_err (λ e, Fail (page_stream_consensus_error e)) (validate_block_page_stream txs).

Definition preflight_objects (block : Block) : result (fault ConsensusError) unit :=
  if bool_decide (bk_client_objects block = []) then Ok tt
  else if negb (active_at CONSENSUS (bh_height (bk_header block)))
  then Err (Fail (CE_ClientObject CO_ObjectsBeforeActivation))
  else
    wire_len ← map_err (λ _, Fail CE_ShapeMismatch) (Block_canonical_wire_len block);
    if MAX_BLOCK_BYTES <? wire_len then resource_limit "block_bytes" wire_len MAX_BLOCK_BYTES else Ok tt.

Definition validate_block_resource_preflight (block : Block) : result (fault ConsensusError) BlockResourcePreflight :=
  let txs := bk_transactions block in
  let log_slots := bh_log_slots (bk_header block) in
  if BLOCK_MAX_TXS <? Z.of_nat (length txs) then Err (Fail CE_TooManyTxs)
  else
    _ ← preflight_objects block;
    if negb ((1 <=? log_slots) && (log_slots <=? 32)) then Err (Fail CE_ShapeMismatch)
    else
      let slot_domain := Z.shiftl 1 log_slots in
      stream ← page_stream txs;
      let user_page_count := bf_page_count stream in
      let logical_tx_count := bf_logical_count stream in
      if BLOCK_MAX_USER_PAGES <? user_page_count then resource_limit "user_pages" user_page_count BLOCK_MAX_USER_PAGES
      else
        s ← try_fold (scan_tx slot_domain) (mkScan 0 0 ∅ ∅) txs;
        if BLOCK_MAX_LIVE_INPUTS <? sn_inputs s then resource_limit "live_inputs" (sn_inputs s) BLOCK_MAX_LIVE_INPUTS
        else if BLOCK_MAX_USER_OUTPUTS + 1 <? sn_outputs s
        then resource_limit "outputs" (sn_outputs s) (BLOCK_MAX_USER_OUTPUTS + 1)
        else
          let action_count := sn_inputs s + sn_outputs s in
          if BLOCK_MAX_ACTIONS <? action_count then resource_limit "actions" action_count BLOCK_MAX_ACTIONS
          else
            let touched_indices := btree_keys (sn_touched s) in
            state_frontier_node_count ←
              (if bool_decide (touched_indices = []) then Ok 0%nat
               else expect (result_ok (expected_sibling_count touched_indices (Z.to_nat log_slots))));
            Ok (mkPreflight user_page_count logical_tx_count (sn_inputs s) (sn_outputs s) action_count
                  (Z.of_nat (size (sn_touched s))) (Z.of_nat (size (sn_segments s))) (Z.of_nat state_frontier_node_count)).

(** The fee of one group. *)
Definition claim_group (parent : BlockHeader) (claimable_fee_sum : Z) (group : PagedSpendGroupFacts) :
    result (fault ConsensusError) Z :=
  let breakdown := fee_breakdown (ps_live_inputs (gf_spend group)) (ps_live_outputs (gf_spend group))
                     (bh_active_slot_count parent) (bh_log_slots parent) in
  let required := fb_required_total breakdown in
  let actual := ps_fee (gf_spend group) in
  if actual <? required then Err (Fail (CE_BelowMinFee required actual))
  else ok_or (checked_add 128 claimable_fee_sum (saturating_sub actual (fb_burned breakdown))) (Fail CE_ShapeMismatch).

Definition validate_fee_policy_and_claimable_fee_sum (block : Block) (parent : BlockHeader) : result (fault ConsensusError) Z :=
  stream ← page_stream (bk_transactions block);
  try_fold (claim_group parent) 0 (bf_groups stream).

Definition output_at (tx : Transaction) (i : nat) : result (fault ConsensusError) TxOutput := expect (tb_outputs (tx_body tx) !! i).

Definition check_payout (payout : Transaction) (expected_anchor : list Z) (expected_amount : Z) : result (fault ConsensusError) unit :=
  _ ← map_err (λ _, Fail CE_ShapeMismatch) (validate_body_semantics_no_hash (tx_body payout));
  if bool_decide (tb_epoch_anchor (tx_body payout) ≠ expected_anchor) then Err (Fail CE_BadDevelopmentPayout)
  else
    first ← output_at payout 0;
    second ← output_at payout 1;
    if bool_decide (to_owner first ≠ NETWORK_FUND_ADDRESS) || bool_decide (to_owner second ≠ LAB_FUND_ADDRESS)
       || negb (to_amount first =? expected_amount) || negb (to_amount second =? expected_amount)
    then Err (Fail CE_BadDevelopmentPayout)
    else Ok tt.

Definition validate_mandatory_coinbase (block : Block) (parent : BlockHeader) : result (fault ConsensusError) unit :=
  let expected_anchor := block_id parent in
  stream ← page_stream (bk_transactions block);
  coinbase ← expect (bk_transactions block !! 0%nat);
  _ ← map_err (λ _, Fail CE_ShapeMismatch) (validate_body_semantics_no_hash (tx_body coinbase));
  if bool_decide (tb_epoch_anchor (tx_body coinbase) ≠ expected_anchor) then Err (Fail CE_BadCoinbaseAnchor)
  else
    output ← output_at coinbase 0;
    if bool_decide (to_owner output ≠ bh_miner_address (bk_header block)) then Err (Fail CE_BadCoinbaseOwner)
    else
      allocation ← map_err (λ _, Fail CE_BadDevelopmentPayout) (development_allocation (bh_height (bk_header block)));
      match da_payout_each allocation, bf_has_development_payout stream with
      | Some _, false => Err (Fail CE_MissingDevelopmentPayout)
      | None, true => Err (Fail CE_UnexpectedDevelopmentPayout)
      | None, false => Ok tt
      | Some expected_amount, true =>
          payout ← expect (bk_transactions block !! 1%nat);
          check_payout payout expected_anchor expected_amount
      end.

Definition validate_coinbase_ceiling (block : Block) (claimable_fee_sum license_dividend : Z) : result (fault ConsensusError) unit :=
  match bk_transactions block with
  | cb :: _ =>
      if tb_is_coinbase (tx_body cb) then
        '(_, out) ← expect (head (live_outputs (tx_body cb)));
        ceiling ← expect (max_coinbase_value_from_claimable_fee_sum (bh_height (bk_header block)) claimable_fee_sum);
        let max_allowed := ceiling + license_dividend in
        if max_allowed <? to_amount out then Err (Fail CE_InflatedCoinbase) else Ok tt
      else Ok tt
  | [] => Ok tt
  end.

(** The validator variant by the clock and the proof-of-work flag. *)
Definition validate_block_header (scratch : Scratch) (block : Block) (parent : BlockHeader)
    (prev_timestamps finalized_active_counts : list Z) (anchor : AnchorInfo) (local_time : option Z) (check_pow : bool) :
    result (fault ConsensusError) unit :=
  match local_time, check_pow with
  | Some local_time, true =>
      validate_header scratch (bk_header block) parent prev_timestamps finalized_active_counts local_time anchor
  | Some local_time, false =>
      validate_header_template scratch (bk_header block) parent prev_timestamps finalized_active_counts local_time anchor
  | None, _ => validate_header_timeless scratch (bk_header block) parent prev_timestamps finalized_active_counts anchor
  end.

Definition validate_first_tx (block : Block) : result (fault ConsensusError) unit :=
  tx ← expect (bk_transactions block !! 0%nat);
  map_err Fail (validate_tx_consensus tx).

Definition validate_block_checks_inner (scratch : Scratch) (block : Block) (parent : BlockHeader)
    (prev_timestamps finalized_active_counts : list Z) (anchor : AnchorInfo) (local_time : option Z) (check_pow : bool)
    (license_dividend : Z) : result (fault ConsensusError) unit :=
  _ ← validate_block_resource_preflight block;
  _ ← validate_block_header scratch block parent prev_timestamps finalized_active_counts anchor local_time check_pow;
  _ ← validate_mandatory_coinbase block parent;
  _ ← page_stream (bk_transactions block);
  _ ← map_err Fail (validate_block_slot_conflicts (bk_transactions block));
  _ ← validate_first_tx block;
  claimable_fee_sum ← validate_fee_policy_and_claimable_fee_sum block parent;
  validate_coinbase_ceiling block claimable_fee_sum license_dividend.

Definition validate_block_checks (scratch : Scratch) (block : Block) (parent : BlockHeader)
    (prev_timestamps finalized_active_counts : list Z) (local_time : Z) (anchor : AnchorInfo) : result (fault ConsensusError) unit :=
  validate_block_checks_inner scratch block parent prev_timestamps finalized_active_counts anchor (Some local_time) true 0.

Definition validate_block_checks_with_license_dividend (scratch : Scratch) (block : Block) (parent : BlockHeader)
    (prev_timestamps finalized_active_counts : list Z) (local_time : Z) (anchor : AnchorInfo) (license_dividend : Z) :
    result (fault ConsensusError) unit :=
  validate_block_checks_inner scratch block parent prev_timestamps finalized_active_counts anchor (Some local_time) true
    license_dividend.

Definition validate_block_checks_template (scratch : Scratch) (block : Block) (parent : BlockHeader)
    (prev_timestamps finalized_active_counts : list Z) (local_time : Z) (anchor : AnchorInfo) : result (fault ConsensusError) unit :=
  validate_block_checks_inner scratch block parent prev_timestamps finalized_active_counts anchor (Some local_time) false 0.

Definition validate_block_checks_timeless (scratch : Scratch) (block : Block) (parent : BlockHeader)
    (prev_timestamps finalized_active_counts : list Z) (anchor : AnchorInfo) : result (fault ConsensusError) unit :=
  validate_block_checks_inner scratch block parent prev_timestamps finalized_active_counts anchor None true 0.

Definition block_apply_error (e : BlockApplyError) : ConsensusError :=
  match e with
  | BA_TooManyTransactions => CE_TooManyTxs
  | BA_InvalidTxBody => CE_ShapeMismatch
  | BA_InvalidPagedSpend => CE_InvalidPagedSpend
  | BA_HeaderStateRootMismatch => CE_BadStateRoot
  | BA_HeaderTxRootMismatch => CE_BadTxRoot
  | _ => CE_ShapeMismatch
  end.

(** The new state is returned on success only; the source leaves the state as
    it was on failure. *)
Definition validate_block_consensus (scratch : Scratch) (block : Block) (parent : BlockHeader)
    (prev_timestamps finalized_active_counts : list Z) (local_time : Z) (anchor : AnchorInfo) (state : ChainState) :
    result (fault ConsensusError) (list Z * ChainState) :=
  _ ← validate_header scratch (bk_header block) parent prev_timestamps finalized_active_counts local_time anchor;
  _ ← validate_block_resource_preflight block;
  _ ← validate_mandatory_coinbase block parent;
  _ ← page_stream (bk_transactions block);
  _ ← map_err Fail (validate_block_slot_conflicts (bk_transactions block));
  _ ← validate_first_tx block;
  claimable_fee_sum ← validate_fee_policy_and_claimable_fee_sum block parent;
  _ ← validate_coinbase_ceiling block claimable_fee_sum 0;
  '(_, state) ← map_fault block_apply_error (apply_block state block);
  Ok (bh_state_root (bk_header block), state).

End validation.
