(* ===== verification/Supply.v ===== *)
(** * What a validated block does to the supply

    [validate_block_consensus] against the emission schedule.  An accepted
    block moves value between slots, burns the state-growth part of the fees
    and creates at most the miner's subsidy and the development payouts of
    its height; along every chain of accepted blocks from genesis the
    circulating supply therefore stays within the schedule and the cap. *)

From S2P Require Import Prelude Machine Params Emission Poseidon TxTypes TxWire PagedSpend Fees BlockStream SlotState SlotInv SparseRoot SparseRootProofs ChainState ChainStateInv BlockHeader TxTree ClientObjects Consensus Block BlockProps Difficulty TowerWalk Pow Header Validation.

(** ** Value of the system records *)

Lemma two_outputs body : TxBody_wf body → ∃ o1 o2, tb_outputs body = [o1; o2].
Proof.
  intros (_ & _ & _ & _ & _ & Hl & _). destruct (tb_outputs body) as [|o1 [|o2 [|]]]; try done. eauto.
Qed.

Lemma input_live_high body i :
  tb_validity_bitmap body = 256 ∨ tb_validity_bitmap body = 768 → input_is_live body i = false.
Proof.
  intros Hb. unfold input_is_live. case_bool_decide as Hi; [|done]. change TX_INPUTS with 8%nat in Hi.
  destruct Hb as [-> | ->]; do 8 (destruct i as [|i]; [done|]); lia.
Qed.

Lemma system_live_inputs body :
  tb_validity_bitmap body = 256 ∨ tb_validity_bitmap body = 768 → live_inputs body = [].
Proof.
  intros Hb. unfold live_inputs. generalize (imap pair (tb_inputs body)) as l.
  induction l as [|p l IH]; [done|]. rewrite filter_cons, IH. rewrite input_live_high by done. done.
Qed.

Lemma system_inputs body :
  tb_validity_bitmap body = 256 ∨ tb_validity_bitmap body = 768 → input_sum body = 0.
Proof. intros Hb. unfold input_sum. by rewrite system_live_inputs. Qed.

Lemma coinbase_value body :
  TxBody_wf body → is_primary_coinbase_shape body = true →
  ∃ out, live_outputs body = [(0%nat, out)] ∧ output_sum body = to_amount out ∧ input_sum body = 0.
Proof.
  intros Hw [_ Hb%Z.eqb_eq]%andb_true_iff. change (output_bitmap_bit 0) with 256 in Hb.
  destruct (two_outputs body Hw) as (o1 & o2 & Ho). exists o1.
  assert (live_outputs body = [(0%nat, o1)]) as HL by (unfold live_outputs, output_is_live; by rewrite Ho, Hb).
  split; [done|]. split; [unfold output_sum; rewrite HL; cbn; lia|]. by apply system_inputs; left.
Qed.

Lemma payout_value body :
  TxBody_wf body → is_development_payout_shape body = true →
  ∃ o1 o2, tb_outputs body = [o1; o2] ∧ output_sum body = to_amount o1 + to_amount o2 ∧ input_sum body = 0.
Proof.
  intros Hw [_ Hb%Z.eqb_eq]%andb_true_iff. change (Z.lor (output_bitmap_bit 0) (output_bitmap_bit 1)) with 768 in Hb.
  destruct (two_outputs body Hw) as (o1 & o2 & Ho). exists o1, o2.
  assert (live_outputs body = [(0%nat, o1); (1%nat, o2)]) as HL by (unfold live_outputs, output_is_live; by rewrite Ho, Hb).
  split; [done|]. split; [unfold output_sum; rewrite HL; cbn; lia|]. by apply system_inputs; right.
Qed.

(** ** Value of the user pages *)

Lemma page_inputs_sum pages : sum_Z (input_sum <$> (page_body <$> pages)) = sum_Z (ti_amount <$> group_inputs pages).
Proof.
  induction pages as [|p pages IH]; [done|]. cbn [fmap list_fmap]. rewrite sum_Z_cons.
  unfold group_inputs in *. rewrite bind_cons, fmap_app, sum_Z_app. f_equal; [|done].
  unfold input_sum. by rewrite <- list_fmap_compose.
Qed.

Lemma page_outputs_sum pages : sum_Z (output_sum <$> (page_body <$> pages)) = sum_Z (to_amount <$> group_outputs pages).
Proof.
  induction pages as [|p pages IH]; [done|]. cbn [fmap list_fmap]. rewrite sum_Z_cons.
  unfold group_outputs in *. rewrite bind_cons, fmap_app, sum_Z_app. f_equal; [|done].
  unfold output_sum. by rewrite <- list_fmap_compose.
Qed.

Definition group_fee (g : TxPage * list TxPage) : Z := tb_fee (page_body (fst g)).

Lemma groups_balance gs :
  Forall (λ g, valid_group (group_pages g) (fst g)) gs →
  sum_Z (ti_amount <$> group_inputs (gs ≫= group_pages))
  = sum_Z (to_amount <$> group_outputs (gs ≫= group_pages)) + sum_Z (group_fee <$> gs).
Proof.
  induction 1 as [|g gs Hg Hgs IH]; [done|]. rewrite bind_cons, group_inputs_app, group_outputs_app, !fmap_app, !sum_Z_app.
  cbn [fmap list_fmap]. rewrite sum_Z_cons. pose proof (vg_balance _ _ Hg) as Hb. unfold group_fee at 1. lia.
Qed.

(** ** The value an accepted block creates *)

Section accepted_block.
  Context {P : Poseidon2bPermutation} {C : SegmentCommitment}.

(** The state-growth fee of a group, which nobody may claim. *)
Definition group_burn (parent : BlockHeader) (g : TxPage * list TxPage) : Z :=
  fb_burned (fee_breakdown (Z.of_nat (length (group_inputs (group_pages g)))) (Z.of_nat (length (group_outputs (group_pages g))))
               (bh_active_slot_count parent) (bh_log_slots parent)).

Lemma group_burn_nonneg parent g : valid_group (group_pages g) (fst g) → 0 ≤ group_burn parent g.
Proof.
  intros Hg. pose proof (vg_inputs _ _ Hg). pose proof (vg_outputs _ _ Hg). unfold group_burn.
  destruct (fee_breakdown_exact (Z.of_nat (length (group_inputs (group_pages g)))) (Z.of_nat (length (group_outputs (group_pages g))))
    (bh_active_slot_count parent) (bh_log_slots parent)) as [_ ->]; [lia|lia|].
  pose proof (pressure_multiplier_bounds (bh_active_slot_count parent) (bh_log_slots parent)). nia.
Qed.

Lemma claimed_fees parent start gs acc claimed :
  Forall (λ g, valid_group (group_pages g) (fst g)) gs →
  try_fold (claim_group parent) acc (stream_groups start gs) = Ok claimed →
  claimed = acc + sum_Z (group_fee <$> gs) - sum_Z (group_burn parent <$> gs).
Proof.
  intros Hgs. revert start acc. induction Hgs as [|g gs Hg Hgs IH]; intros start acc; cbn [stream_groups try_fold fmap list_fmap].
  { intros [= <-]. cbn. lia. }
  intros (acc' & Hc & Hrest)%bind_Ok. apply IH in Hrest as ->. rewrite !sum_Z_cons.
  unfold claim_group in Hc. cbn [gf_spend group_facts ps_live_inputs ps_live_outputs ps_fee] in Hc.
  apply if_err_Ok in Hc as [Hreq Hc]. apply ok_or_Ok, checked_add_Some in Hc as [-> _]. apply Z.ltb_ge in Hreq.
  fold (group_burn parent g). fold (group_fee g) in Hreq |- *.
  pose proof (vg_inputs _ _ Hg). pose proof (vg_outputs _ _ Hg).
  destruct (fee_breakdown_exact (Z.of_nat (length (group_inputs (group_pages g)))) (Z.of_nat (length (group_outputs (group_pages g))))
    (bh_active_slot_count parent) (bh_log_slots parent)) as [Er Eb]; [lia|lia|].
  rewrite Er in Hreq. assert (group_burn parent g ≤ group_fee g) by (unfold group_burn; rewrite Eb; unfold group_fee in *; lia).
  unfold saturating_sub. lia.
Qed.

(** The two payouts of a development record, or none. *)
Lemma payout_amounts (coinbase : Transaction) dev users d anchor :
  Forall tx_wf dev → (length dev ≤ 1)%nat → Forall (λ tx, is_development_payout_shape (tx_body tx) = true) dev →
  match da_payout_each d, bool_decide (dev ≠ []) with
  | Some _, false => Err (Fail CE_MissingDevelopmentPayout)
  | None, true => Err (Fail CE_UnexpectedDevelopmentPayout)
  | None, false => Ok tt
  | Some expected_amount, true =>
      payout ← expect ((coinbase :: dev ++ users) !! 1%nat);
      check_payout payout anchor expected_amount
  end = Ok tt →
  sum_Z (output_sum <$> (tx_body <$> dev)) = 2 * default 0 (da_payout_each d) ∧ sum_Z (input_sum <$> (tx_body <$> dev)) = 0.
Proof.
  intros Hw Hl Hs Hm. destruct dev as [|tx [|]]; [| |cbn in Hl; lia].
  - destruct (da_payout_each d); [done|]. done.
  - destruct (da_payout_each d) as [amount|]; [|done]. rewrite bool_decide_true in Hm by done. cbn in Hm.
    apply Forall_cons in Hw as [Hw _]. apply Forall_cons in Hs as [Hs _].
    destruct (payout_value (tx_body tx) Hw Hs) as (o1 & o2 & Ho & Hout & Hin).
    unfold check_payout, output_at in Hm. rewrite Ho in Hm. apply bind_unit_Ok in Hm as [_ Hm].
    apply if_err_Ok in Hm as [_ Hm]. cbn in Hm. apply if_err_Ok in Hm as [Hm _].
    rewrite !orb_false_iff, !negb_false_iff, !Z.eqb_eq in Hm. cbn. lia.
Qed.

Lemma ceiling_allocation height claimed ceiling d :
  max_coinbase_value_from_claimable_fee_sum height claimed = Some ceiling → development_allocation height = Ok d →
  ceiling = da_miner_subsidy d + claimed.
Proof.
  unfold max_coinbase_value_from_claimable_fee_sum, miner_subsidy, development_allocation, development_allocation_with, development_allocation_active.
  intros Hm Hd. destruct (development_allocation_active_with height V1_5_ACTIVATION_HEIGHT); cbn [negb] in *.
  - destruct (development_share_each (block_reward height)) as [share|]; [|done]. cbn in *. injection Hm as <-.
    apply bind_Ok in Hd as (p & _ & [= <-]). done.
  - injection Hm as <-. injection Hd as <-. done.
Qed.

Lemma allocation_ceiling height claimed d :
  development_allocation height = Ok d → ∃ ceiling, max_coinbase_value_from_claimable_fee_sum height claimed = Some ceiling.
Proof.
  unfold max_coinbase_value_from_claimable_fee_sum, miner_subsidy, development_allocation, development_allocation_with, development_allocation_active.
  intros Hd. destruct (development_allocation_active_with height V1_5_ACTIVATION_HEIGHT); cbn [negb] in *; [|eexists; reflexivity].
  destruct (development_share_each (block_reward height)); [eexists; reflexivity|done].
Qed.

(** What the checks establish about the value of a block: outputs less inputs
    is the coinbase and the payouts less all fees, and at most the issuance of
    its height and the dividend less the burned fees. *)
Lemma block_value block parent claimed dividend :
  Forall tx_wf (bk_transactions block) →
  validate_mandatory_coinbase block parent = Ok tt →
  validate_fee_policy_and_claimable_fee_sum block parent = Ok claimed →
  validate_coinbase_ceiling block claimed dividend = Ok tt →
  ∃ gs, Forall (λ g, valid_group (group_pages g) (fst g)) gs
    ∧ sum_Z (output_sum <$> block_bodies block) - sum_Z (input_sum <$> block_bodies block)
      ≤ issuance_limit (bh_height (bk_header block)) V1_5_ACTIVATION_HEIGHT + dividend - sum_Z (group_burn parent <$> gs).
Proof.
  intros Hwf Hcb Hfee Hceil. unfold validate_mandatory_coinbase in Hcb. apply bind_Ok in Hcb as (stream & Hs & Hcb).
  unfold validate_fee_policy_and_claimable_fee_sum in Hfee. rewrite Hs in Hfee. cbn [mbind result_bind] in Hfee.
  apply map_err_Ok in Hs. apply validate_block_stream_valid in Hs as (coinbase & dev & users & uc & class & gs & Hv & ->); [|done].
  destruct Hv as [Hlay Hshape [Hdl Hdev] Hus Hstream Hclass]. rewrite Hlay in *.
  apply Forall_cons in Hwf as [Hwcb Hwf]. apply Forall_app in Hwf as [Hwdev Hwus].
  exists gs. split; [apply Hstream|].
  apply claimed_fees in Hfee; [|apply Hstream].
  destruct (coinbase_value (tx_body coinbase) Hwcb Hshape) as (out & Hlive & Hout & Hin).
  (* the allocation *)
  cbn [lookup list_lookup expect ok_or mbind result_bind] in Hcb.
  apply bind_unit_Ok in Hcb as [_ Hcb]. apply if_err_Ok in Hcb as [_ Hcb]. apply bind_Ok in Hcb as (o & _ & Hcb).
  apply if_err_Ok in Hcb as [_ Hcb]. apply bind_Ok in Hcb as (d & Hd & Hcb). apply map_err_Ok in Hd.
  assert (sum_Z (output_sum <$> (tx_body <$> dev)) = 2 * default 0 (da_payout_each d) ∧ sum_Z (input_sum <$> (tx_body <$> dev)) = 0) as [Hdo Hdi]
    by exact (payout_amounts coinbase dev users d (block_id parent) Hwdev Hdl Hdev Hcb).
  (* the ceiling *)
  unfold validate_coinbase_ceiling in Hceil. rewrite Hlay in Hceil.
  apply andb_true_iff in Hshape as [Hiscb _]. rewrite Hiscb, Hlive in Hceil. cbn [head expect ok_or mbind result_bind] in Hceil.
  apply bind_Ok in Hceil as (ceiling & Hceiling & Hceil). apply expect_Ok in Hceiling.
  apply if_err_Ok in Hceil as [Hceil _]. apply Z.ltb_ge in Hceil.
  apply (ceiling_allocation _ _ _ d) in Hceiling; [|done].
  (* the sum *)
  unfold block_bodies. rewrite Hlay. cbn [fmap list_fmap]. rewrite !sum_Z_cons, !fmap_app, !sum_Z_app, Hdo, Hdi, Hout, Hin.
  assert (tx_body <$> users = page_body <$> (gs ≫= group_pages)) as ->.
  { rewrite (vs_pages _ _ _ _ Hstream), <- list_fmap_compose. by apply list_fmap_ext. }
  rewrite page_inputs_sum, page_outputs_sum, (groups_balance gs) by apply Hstream.
  unfold issuance_limit. change (development_allocation_with _ V1_5_ACTIVATION_HEIGHT) with (development_allocation (bh_height (bk_header block))).
  rewrite Hd. lia.
Qed.

End accepted_block.

(** ** Chains of accepted blocks *)

Section ledgers.
  Context {P : Poseidon2bPermutation} {C : SegmentCommitment}.

(** A tip header and the state behind it, as a node that only uses
    [apply_genesis_block] and [validate_block_consensus] reaches them.  The other
    premises say that the arguments have their Rust types, that the genesis depth
    is in range and that heights stay below [2^63], the width of the height in a
    coinbase creation id. *)
Inductive ledger : BlockHeader → ChainState → Prop :=
  | ledger_genesis block empty root state :
      BlockHeader_wf (bk_header block) → 1 ≤ bh_log_slots (bk_header block) ≤ LOG_SLOTS_MAX →
      with_log_slots (Z.to_nat (bh_log_slots (bk_header block))) = Some empty →
      apply_genesis_block empty block = Ok (root, state) →
      ledger (bk_header block) state
  | ledger_block parent state scratch block timestamps counts local_time anchor root state' :
      ledger parent state →
      BlockHeader_wf (bk_header block) → bh_height (bk_header block) < 2 ^ 63 →
      Forall tx_wf (bk_transactions block) →
      Forall (is_uint 64) counts → length (sc_v scratch) = CELLS →
      validate_block_consensus scratch block parent timestamps counts local_time anchor state = Ok (root, state') →
      ledger (bk_header block) state'.

(** What a tip header says about the state. *)
Record tip_of (header : BlockHeader) (state : ChainState) (m : gmap Z SlotValue) : Prop := {
  tp_inv : cs_inv state m;
  tp_sealed : sealed state m;
  tp_resident : sg_evicted (cs_state state) = ∅;
  tp_log : bh_log_slots header = Z.of_nat (sg_log_slots (cs_state state));
  tp_root : bh_state_root header = exact_root (sg_log_slots (cs_state state)) (m_get m);
  tp_active : bh_active_slot_count header = cs_active_slot_count state;
  tp_alloc : bh_alloc_counter header = cs_alloc_counter state;
}.

Lemma apply_block_header cs block root cs' :
  apply_block cs block = Ok (root, cs') →
  bh_active_slot_count (bk_header block) = cs_active_slot_count cs'
  ∧ bh_log_slots (bk_header block) = Z.of_nat (sg_log_slots (cs_state cs')).
Proof.
  unfold apply_block. intros [_ H]%if_err_Ok.
  apply bind_Ok in H as (? & _ & H). apply bind_unit_Ok in H as [_ H]. apply bind_unit_Ok in H as [_ H].
  apply bind_Ok in H as (? & _ & H). apply bind_Ok in H as (? & _ & H). apply bind_Ok in H as ([? snap] & _ & H).
  apply if_err_Ok in H as [_ H]. apply if_err_Ok in H as [Ha H]. apply if_err_Ok in H as [_ H].
  apply if_err_Ok in H as [Hl H]. apply bind_Ok in H as (? & _ & H). apply if_err_Ok in H as [_ [= <- <-]].
  by apply bool_decide_eq_false, dec_stable in Ha, Hl.
Qed.

Lemma issuance_between_succ n activation :
  0 ≤ n → issuance_between (n + 1) activation = issuance_between n activation + issuance_limit (n + 1) activation.
Proof.
  intros Hn. unfold issuance_between. rewrite seqZ_app by lia. rewrite fmap_app, sum_Z_app.
  change (seqZ (1 + n) 1) with [1 + n]. cbn. rewrite (Z.add_comm 1 n). lia.
Qed.

Lemma genesis_tip block empty root state :
  1 ≤ bh_log_slots (bk_header block) ≤ LOG_SLOTS_MAX →
  with_log_slots (Z.to_nat (bh_log_slots (bk_header block))) = Some empty →
  apply_genesis_block empty block = Ok (root, state) →
  bh_height (bk_header block) = 0 ∧ tip_of (bk_header block) state ∅ ∧ cs_circulating_supply state = 0.
Proof.
  intros Hl Hw Ha. unfold LOG_SLOTS_MAX in Hl.
  destruct (with_log_slots_ok (Z.to_nat (bh_log_slots (bk_header block)))) as (cs & Hw' & Hinv & Hs & Hlog & Hev & Halloc & _); [lia|].
  rewrite Hw in Hw'. injection Hw' as <-. unfold apply_genesis_block in Ha.
  apply if_err_Ok in Ha as [Hh Ha]. apply negb_false_iff, Z.eqb_eq in Hh. apply if_err_Ok in Ha as [_ Ha].
  apply if_err_Ok in Ha as [_ Ha]. apply if_err_Ok in Ha as [_ Ha].
  destruct (try_state_root_ok empty ∅ Hinv) as (cs' & Ht & Hinv' & Hs' & [Hg _] & Hev' & Halloc'); [set_solver|].
  rewrite Ht in Ha. cbn in Ha. apply if_err_Ok in Ha as [Hr Ha]. apply if_err_Ok in Ha as [Hc Ha].
  injection Ha as _ <-. apply bool_decide_eq_false, dec_stable in Hr.
  apply orb_false_iff in Hc as [Hc1%negb_false_iff%Z.eqb_eq Hc2%negb_false_iff%Z.eqb_eq].
  split; [done|]. split; [|by rewrite (ci_supply _ _ Hinv')].
  pose proof (ci_active _ _ Hinv') as Hzero. rewrite map_size_empty in Hzero.
  constructor; try done; try lia; try congruence.
Qed.

(** What acceptance of a block gives the proofs below. *)
Lemma validate_block_consensus_Ok scratch block parent ts counts lt anchor state root state' :
  length (sc_v scratch) = CELLS →
  validate_block_consensus scratch block parent ts counts lt anchor state = Ok (root, state') →
  bh_height (bk_header block) = wrapping_add 64 (bh_height parent) 1
  ∧ bh_log_slots (bk_header block) = expected_child_log_slots (bh_height parent) (bh_log_slots parent) counts
  ∧ validate_mandatory_coinbase block parent = Ok tt
  ∧ (∃ claimed, validate_fee_policy_and_claimable_fee_sum block parent = Ok claimed
       ∧ validate_coinbase_ceiling block claimed 0 = Ok tt)
  ∧ ∃ r, apply_block state block = Ok (r, state').
Proof.
  intros Hsc. unfold validate_block_consensus. intros [Hh H]%bind_unit_Ok.
  apply bind_Ok in H as (? & _ & H). apply bind_unit_Ok in H as [Hcb H]. apply bind_Ok in H as (? & _ & H).
  apply bind_unit_Ok in H as [_ H]. apply bind_unit_Ok in H as [_ H]. apply bind_Ok in H as (claimed & Hf & H).
  apply bind_unit_Ok in H as [Hc H]. apply bind_Ok in H as ([r st] & Ha & [= _ <-]). apply map_err_Ok in Ha.
  unfold validate_header in Hh. apply validate_header_inner_Ok in Hh as (_ & _ & Hhe & _ & _ & _ & _ & _ & Hlog); [|done].
  eauto 10.
Qed.

Lemma block_tip parent state m scratch block ts counts lt anchor root state' :
  BlockHeader_wf parent → tip_of parent state m → BlockHeader_wf (bk_header block) → bh_height (bk_header block) < 2 ^ 63 →
  bh_height parent < 2 ^ 63 →
  Forall tx_wf (bk_transactions block) →
  Forall (is_uint 64) counts → length (sc_v scratch) = CELLS →
  validate_block_consensus scratch block parent ts counts lt anchor state = Ok (root, state') →
  bh_height (bk_header block) = bh_height parent + 1
  ∧ tip_of (bk_header block) state' (block_effect state m block)
  ∧ cs_circulating_supply state' ≤ cs_circulating_supply state
      + issuance_limit (bh_height (bk_header block)) V1_5_ACTIVATION_HEIGHT
  ∧ block_admissible state m block.
Proof.
  intros Hpwf Ht Hwf Hh Hph Htx Hcounts Hsc Hok.
  apply validate_block_consensus_Ok in Hok as (Hhe & Hlog & Hcb & (claimed & Hf & Hc) & r & Ha); [|done].
  pose proof (hw_height _ Hwf). pose proof (hw_height _ Hpwf). unfold wrapping_add in Hhe. rewrite wrap_small in Hhe by (unfold is_uint in *; lia).
  destruct Ht as [Hinv Hs Hev Htl Htr Hta Htc].
  pose proof (wf_log _ (ci_wf _ _ Hinv)).
  assert (0 ≤ bh_log_slots (bk_header block) ≤ 32) as H32.
  { destruct (step_slots (bh_height parent) (bh_log_slots parent) counts); unfold LOG_SLOTS_MAX, is_uint in *; [lia|lia|done|lia]. }
  destruct (apply_block_sound state m block Hinv Hs Htx) with (root := r) (cs' := state') as (_ & Hadm & [Hinv' Hs' Hl' Hev' Hal' Hsup _ _]);
    [unfold is_uint in *; lia|lia|by rewrite Hev|done|].
  apply apply_block_header in Ha as [Hact Hlg].
  destruct (block_value block parent claimed 0 Htx Hcb Hf Hc) as (gs & Hgs & Hval).
  assert (0 ≤ sum_Z (group_burn parent <$> gs)).
  { apply sum_Z_nonneg, Forall_fmap, (Forall_impl _ _ _ Hgs). intros g Hg. by apply group_burn_nonneg. }
  split; [done|]. split; [|split; [lia|done]].
  constructor; try done.
  - by rewrite Hev'.
  - rewrite Hl'. by apply Hadm.
Qed.

Lemma ledger_bounds header state :
  ledger header state → BlockHeader_wf header ∧ 0 ≤ bh_height header < 2 ^ 63.
Proof.
  destruct 1 as [block empty root state Hwf Hl Hw Ha|]; [|split; [done|]; split; [by apply hw_height|done]].
  destruct (genesis_tip block empty root state Hl Hw Ha) as [-> _]. split; [done|lia].
Qed.

(** The state of a ledger is the one its tip header names, and its supply is
    within the schedule. *)
Lemma ledger_tip_supply header state :
  ledger header state →
  ∃ m, tip_of header state m ∧ cs_circulating_supply state ≤ issuance_between (bh_height header) V1_5_ACTIVATION_HEIGHT.
Proof.
  induction 1 as [block empty root state Hwf Hlog Hw Ha|parent state scratch block ts counts lt anchor root state' Hl IH Hwf Hh Htx Hc Hsc Hok].
  - destruct (genesis_tip block empty root state Hlog Hw Ha) as (-> & Ht & ->). by exists ∅.
  - destruct (ledger_bounds _ _ Hl) as [Hpwf Hp]. destruct IH as (m & Ht & Hs).
    destruct (block_tip parent state m scratch block ts counts lt anchor root state') as (He & Ht' & Hs' & _); try done; [lia|].
    exists (block_effect state m block). split; [done|]. rewrite He, issuance_between_succ in * by lia. lia.
Qed.

Lemma ledger_tip header state : ledger header state → ∃ m, tip_of header state m.
Proof. intros (m & Ht & _)%ledger_tip_supply. by exists m. Qed.

Lemma ledger_cap header state :
  ledger header state →
  issuance_between (bh_height header) V1_5_ACTIVATION_HEIGHT ≤ reward_between 1 (bh_height header)
  ∧ cs_circulating_supply state ≤ MAX_SUPPLY_MICRO.
Proof.
  intros Hl. destruct (ledger_bounds _ _ Hl) as [_ Hh]. destruct (ledger_tip_supply _ _ Hl) as (m & _ & Hs).
  assert (issuance_between (bh_height header) V1_5_ACTIVATION_HEIGHT ≤ reward_between 1 (bh_height header)).
  { rewrite <- (Z2Nat.id (bh_height header)) by lia. apply issuance_between_le. by split. }
  pose proof (reward_between_cap (bh_height header)). lia.
Qed.

(** C1: The supply of every reachable ledger.  Along every chain of blocks of
    heights below [2^63] that [validate_block_consensus] accepts from a genesis
    block, the tip header states the reference root, the slot depth, the live-slot
    counter and the allocation counter of the state, the counter is at most the
    number of live slots, and the circulating supply, which is the sum of the
    unspent outputs, is at most what the emission schedule has issued up to that
    height: the miner subsidies and the development payouts due so far, never
    above the block rewards so far nor the 21 million cap. *)
Theorem ledger_supply_invariant header state :
  ledger header state →
  ∃ m, tip_of header state m
    ∧ bh_active_slot_count header ≤ Z.of_nat (size m)
    ∧ cs_circulating_supply state = supply m
    ∧ cs_circulating_supply state ≤ issuance_between (bh_height header) V1_5_ACTIVATION_HEIGHT
    ∧ issuance_between (bh_height header) V1_5_ACTIVATION_HEIGHT ≤ reward_between 1 (bh_height header)
    ∧ cs_circulating_supply state ≤ MAX_SUPPLY_MICRO.
Proof.
  intros Hl. destruct (ledger_cap _ _ Hl) as [Hi Hc]. destruct (ledger_tip_supply _ _ Hl) as (m & Ht & Hs). exists m.
  split_and!; [done| |by apply ci_supply, Ht|done|done|done].
  rewrite (tp_active _ _ _ Ht). apply (ci_active _ _ (tp_inv _ _ _ Ht)).
Qed.

End ledgers.

(** A genesis block of sixteen slots and one block that mints 5000 units. *)
Definition ledger_genesis_block : Block :=
  mkBlock (mkBlockHeader zero_digest (zero_slot_root (P := narrow_permutation) 4) zero_digest 1700000000 0 zero_digest 0
             GENESIS_TARGET 4 0 0) [] [].

Definition ledger_coinbase : TxBody :=
  mkTxBody (block_id (P := narrow_permutation) (bk_header ledger_genesis_block)) 0 zero_digest (replicate 8 TxInput_dummy)
    [mkTxOutput 3 5000 (replicate 32 9); TxOutput_dummy] 0x100 true.

Definition ledger_anchor : AnchorInfo := mkAnchorInfo 0 1700000000 1699999990 GENESIS_TARGET.

Definition ledger_first_block : Block :=
  let txs := [mkTransaction ledger_coinbase] in
  mkBlock (mkBlockHeader (block_id (P := narrow_permutation) (bk_header ledger_genesis_block))
             (exact_root (P := narrow_permutation) 4 (m_get (m_update ∅ (block_deltas 0 [ledger_coinbase] 1))))
             (default zero_digest (compute_tx_root (P := narrow_permutation) txs)) 1700000600 1 (replicate 32 9) 0
             (expected_target ledger_anchor 1 1700000000) 4 1 1) txs [].

Lemma example_ledger :
  ∃ state, ledger (P := narrow_permutation) (C := example_commitment) (bk_header ledger_first_block) state
    ∧ cs_circulating_supply state = 5000 ∧ slot_amount <$> slot (cs_state state) 3 = Some 5000.
Proof.
  assert (∃ empty r0 genesis r1 state,
    with_log_slots (P := narrow_permutation) (C := example_commitment) 4 = Some empty
    ∧ apply_genesis_block (P := narrow_permutation) empty ledger_genesis_block = Ok (r0, genesis)
    ∧ validate_block_consensus (P := narrow_permutation) (C := example_commitment) Scratch_new ledger_first_block
        (bk_header ledger_genesis_block) [1700000000] [] 1700000700 ledger_anchor genesis = Ok (r1, state)
    ∧ cs_circulating_supply state = 5000 ∧ slot_amount <$> slot (cs_state state) 3 = Some 5000)
    as (empty & r0 & genesis & r1 & state & Hw & Hg & Hb & Hs & Hv).
  { eexists _, _, _, _, _. split; [vm_compute; reflexivity|]. split; [vm_compute; reflexivity|].
    split; [vm_compute; reflexivity|]. split; vm_compute; reflexivity. }
  assert (ledger (P := narrow_permutation) (C := example_commitment) (bk_header ledger_first_block) state) as Hl.
  { apply (ledger_block (bk_header ledger_genesis_block) genesis Scratch_new ledger_first_block [1700000000] []
             1700000700 ledger_anchor r1 state).
    - apply (ledger_genesis ledger_genesis_block empty r0 genesis); [|split; discriminate|exact Hw|exact Hg].
      constructor; apply (bool_decide_unpack _); vm_compute; exact I.
    - constructor; apply (bool_decide_unpack _); vm_compute; exact I.
    - reflexivity.
    - apply (bool_decide_unpack (Forall tx_wf (bk_transactions ledger_first_block))). vm_compute. exact I.
    - constructor.
    - apply Scratch_new_length.
    - exact Hb. }
  exists state. exact (conj Hl (conj Hs Hv)).
Qed.

Lemma ledger_supply_invariant_witness :
  ∃ state, ledger (P := narrow_permutation) (C := example_commitment) (bk_header ledger_first_block) state
    ∧ cs_circulating_supply state = 5000 ∧ cs_circulating_supply state ≤ MAX_SUPPLY_MICRO.
Proof.
  destruct example_ledger as (state & Hl & Hs & _). exists state. split; [exact Hl|]. split; [exact Hs|].
  by destruct (ledger_supply_invariant (P := narrow_permutation) (C := example_commitment) _ _ Hl) as (m & _ & _ & _ & _ & _ & Hcap).
Defined.
