(* ===== verification/ValidationProps.v ===== *)
(** * Errors of block validation

    The stateless checks of [consensus/validation.rs] on blocks of well-typed
    transactions: what the resource preflight accepts and reports, that the
    caps it repeats after the page stream never fire, and that none of the
    checks can panic, in whatever order a block violates the rules. *)

From Stdlib Require Import String.
From S2P Require Import Prelude Machine Params Emission Poseidon TxTypes TxWire PagedSpend Fees BlockStream SlotState SlotInv SparseRoot SparseRootProofs ChainState ChainStateInv BlockHeader TxTree ClientObjects Consensus Block BlockProps Difficulty TowerWalk Pow Header Multiproof MultiproofProps BlockWire Validation Supply.

(** ** Postconditions on errors *)

Section errors.
  Context {E : Type} (Q : E → Prop).

(** Every error of the computation satisfies [Q]. *)
Definition errs {A} (m : result E A) : Prop := ∀ e, m = Err e → Q e.

Lemma errs_ok {A} (a : A) : errs (Ok a).
Proof. intros e. done. Qed.

Lemma errs_err {A} e : Q e → errs (A := A) (Err e).
Proof. by intros He e' [= <-]. Qed.

(** The continuation may use the value the first step returned. *)
Lemma errs_bind {A B} (m : result E A) (k : A → result E B) :
  errs m → (∀ a, m = Ok a → errs (k a)) → errs (m ≫= k).
Proof. intros Hm Hk. destruct m as [a|e]; cbn; [by apply Hk|]. intros e' [= <-]. by apply Hm. Qed.

Lemma errs_bind_unit {B} (m : result E unit) (k : unit → result E B) :
  errs m → (m = Ok tt → errs (k tt)) → errs (m ≫= k).
Proof. intros Hm Hk. apply errs_bind; [done|]. by intros []. Qed.

Lemma errs_if {A} (b : bool) e (m : result E A) : Q e → (b = false → errs m) → errs (if b then Err e else m).
Proof. intros He Hm. destruct b; [by apply errs_err|by apply Hm]. Qed.

Lemma errs_ok_or {A} (o : option A) e : (o = None → Q e) → errs (ok_or o e).
Proof. intros He. destruct o; [apply errs_ok|]. by apply errs_err, He. Qed.

Lemma errs_map_err {F A} (f : F → E) (m : result F A) : (∀ e, m = Err e → Q (f e)) → errs (map_err f m).
Proof. intros He. destruct m; [apply errs_ok|]. by apply errs_err, He. Qed.

Lemma errs_try_fold {A B} (f : A → B → result E A) acc l :
  (∀ a x, x ∈ l → errs (f a x)) → errs (try_fold f acc l).
Proof.
  revert acc. induction l as [|x l IH]; intros acc Hf; cbn [try_fold]; [apply errs_ok|].
  apply errs_bind; [by apply Hf; left|]. intros a _. apply IH. intros a' y Hy. apply Hf. by right.
Qed.

End errors.

(** ** The scan of the live slots *)

Definition segment_index (slot : Z) : Z := Z.shiftr slot (Z.of_nat LOG_SEGMENT_SIZE).

(** The counters after more input and output slots. *)
Definition scan_add (s : scan) (inputs outputs : list Z) : scan :=
  mkScan (sn_inputs s + Z.of_nat (length inputs)) (sn_outputs s + Z.of_nat (length outputs))
    (list_to_set (inputs ++ outputs) ∪ sn_touched s) (list_to_set (segment_index <$> (inputs ++ outputs)) ∪ sn_segments s).

Lemma scan_ext s s' :
  sn_inputs s = sn_inputs s' → sn_outputs s = sn_outputs s' → sn_touched s = sn_touched s' → sn_segments s = sn_segments s' → s = s'.
Proof. destruct s, s'. cbn. by intros -> -> -> ->. Qed.

Lemma scan_add_add s a b c d : scan_add (scan_add s a b) c d = scan_add s (a ++ c) (b ++ d).
Proof.
  apply scan_ext; cbn [scan_add sn_inputs sn_outputs sn_touched sn_segments]; rewrite ?length_app; try lia; apply set_eq; intros x;
    rewrite ?fmap_app, !elem_of_union, !elem_of_list_to_set, ?fmap_app, !elem_of_app; tauto.
Qed.

(** The counters after one more kind of slots. *)
Definition scan_more (is_input : bool) (s : scan) (slots : list Z) : scan :=
  if is_input then scan_add s slots [] else scan_add s [] slots.

Lemma scan_more_nil is_input s : scan_more is_input s [] = s.
Proof. destruct is_input; apply scan_ext; cbn; (lia || set_solver). Qed.

Lemma scan_more_cons is_input s i slots :
  scan_more is_input (scan_more is_input s [i]) slots = scan_more is_input s (i :: slots).
Proof. destruct is_input; apply scan_ext; cbn; (lia || set_solver). Qed.

Lemma scan_slot_Ok dom is_input s i s' :
  scan_slot dom is_input s i = Ok s' ↔ i < dom ∧ s' = scan_more is_input s [i].
Proof.
  unfold scan_slot. rewrite if_err_Ok, Z.leb_gt.
  assert (scan_more is_input s [i] = mkScan (if is_input then sn_inputs s + 1 else sn_inputs s)
    (if is_input then sn_outputs s else sn_outputs s + 1) ({[i]} ∪ sn_touched s) ({[segment_index i]} ∪ sn_segments s)) as ->.
  { destruct is_input; apply scan_ext; cbn; (lia || set_solver). }
  unfold segment_index. naive_solver.
Qed.

Lemma scan_slots_Ok dom is_input s slots s' :
  try_fold (scan_slot dom is_input) s slots = Ok s' ↔
  Forall (λ i, i < dom) slots ∧ s' = scan_more is_input s slots.
Proof.
  revert s. induction slots as [|i slots IH]; intros s; cbn [try_fold].
  { rewrite scan_more_nil. split; [intros [= <-]; by split; [constructor|]|by intros [_ ->]]. }
  rewrite bind_Ok, Forall_cons, <- scan_more_cons. setoid_rewrite IH. setoid_rewrite scan_slot_Ok. naive_solver.
Qed.

Lemma scan_tx_Ok dom s tx s' :
  scan_tx dom s tx = Ok s' ↔
  Forall (λ i, i < dom) (body_slots (tx_body tx))
  ∧ Z.of_nat (size (sn_segments s')) ≤ BLOCK_MAX_DISTINCT_SEGMENTS
  ∧ s' = scan_add s (input_slots (tx_body tx)) (output_slots (tx_body tx)).
Proof.
  assert (∀ s0 s1, try_fold (λ s p, scan_slot dom true s (ti_slot_index (snd p))) s0 (live_inputs (tx_body tx)) = Ok s1 ↔
    Forall (λ i, i < dom) (input_slots (tx_body tx)) ∧ s1 = scan_more true s0 (input_slots (tx_body tx))) as HI.
  { intros s0 s1. unfold input_slots. by rewrite <- scan_slots_Ok, try_fold_fmap. }
  assert (∀ s0 s1, try_fold (λ s p, scan_slot dom false s (to_slot_index (snd p))) s0 (live_outputs (tx_body tx)) = Ok s1 ↔
    Forall (λ i, i < dom) (output_slots (tx_body tx)) ∧ s1 = scan_more false s0 (output_slots (tx_body tx))) as HO.
  { intros s0 s1. unfold output_slots. by rewrite <- scan_slots_Ok, try_fold_fmap. }
  assert (scan_more false (scan_more true s (input_slots (tx_body tx))) (output_slots (tx_body tx))
    = scan_add s (input_slots (tx_body tx)) (output_slots (tx_body tx))) as Eq.
  { unfold scan_more. by rewrite scan_add_add, app_nil_r. }
  unfold scan_tx, resource_limit, body_slots. rewrite Forall_app, bind_Ok. split.
  - intros (s1 & (Hi & ->)%HI & (s2 & (Ho & ->)%HO & [Hs%Z.ltb_ge He]%if_err_Ok)%bind_Ok). rewrite Eq in Hs, He. injection He as <-. done.
  - intros ((Hi & Ho) & Hs & ->). eexists. split; [by apply HI|]. apply bind_Ok.
    exists (scan_add s (input_slots (tx_body tx)) (output_slots (tx_body tx))). split; [apply HO; by rewrite Eq|].
    apply if_err_Ok. split; [by apply Z.ltb_ge|done].
Qed.

Lemma scan_txs_Ok dom s txs s' :
  Z.of_nat (size (sn_segments s)) ≤ BLOCK_MAX_DISTINCT_SEGMENTS →
  try_fold (scan_tx dom) s txs = Ok s' ↔
  Forall (λ i, i < dom) (txs ≫= λ tx, body_slots (tx_body tx))
  ∧ Z.of_nat (size (sn_segments s')) ≤ BLOCK_MAX_DISTINCT_SEGMENTS
  ∧ s' = scan_add s (txs ≫= λ tx, input_slots (tx_body tx)) (txs ≫= λ tx, output_slots (tx_body tx)).
Proof.
  revert s. induction txs as [|tx txs IH]; intros s Hs; cbn [try_fold].
  { assert (scan_add s [] [] = s) as E0 by (apply scan_ext; cbn; (lia || set_solver)).
    cbn. rewrite E0. split; [intros [= <-]|intros (_ & _ & ->)]; [split; [constructor|]|]; done. }
  set (s1 := scan_add s (input_slots (tx_body tx)) (output_slots (tx_body tx))).
  assert (scan_add s1 (txs ≫= λ tx, input_slots (tx_body tx)) (txs ≫= λ tx, output_slots (tx_body tx))
    = scan_add s ((tx :: txs) ≫= λ tx, input_slots (tx_body tx)) ((tx :: txs) ≫= λ tx, output_slots (tx_body tx))) as E1.
  { rewrite !bind_cons. apply scan_add_add. }
  rewrite bind_Ok. setoid_rewrite scan_tx_Ok. rewrite bind_cons, Forall_app. split.
  - intros (? & (Hf & Hs1 & ->) & Hr). apply IH in Hr as (Hf' & Hs' & ->); [|done]. rewrite <- E1. split_and!; done.
  - intros ((Hf & Hf') & Hs' & ->). exists s1. rewrite <- E1 in Hs'. assert (Z.of_nat (size (sn_segments s1)) ≤ BLOCK_MAX_DISTINCT_SEGMENTS).
    { etrans; [|exact Hs']. apply inj_le, subseteq_size. cbn [sn_segments scan_add]. apply union_subseteq_r. }
    split; [done|]. apply IH; [done|]. by rewrite <- E1.
Qed.

(** ** The counts of a canonical page stream *)

Lemma live_outputs_two body : TxBody_wf body → (length (live_outputs body) ≤ 2)%nat.
Proof. intros Hw. destruct (two_outputs body Hw) as (o1 & o2 & Ho). unfold live_outputs. rewrite Ho, length_filter. done. Qed.

Lemma user_inputs_length users :
  length (users ≫= λ tx, input_slots (tx_body tx)) = length (group_inputs (tx_page <$> users)).
Proof.
  induction users as [|tx users IH]; [done|]. cbn [fmap list_fmap]. unfold group_inputs in *.
  rewrite !bind_cons, !length_app, IH. unfold input_slots. by rewrite !length_fmap.
Qed.

Lemma outputs_length txs :
  Forall tx_wf txs → (length (txs ≫= λ tx, output_slots (tx_body tx)) ≤ 2 * length txs)%nat.
Proof.
  induction 1 as [|tx txs Hw _ IH]; [done|]. rewrite bind_cons, length_app. unfold output_slots at 1. rewrite length_fmap.
  pose proof (live_outputs_two _ Hw). cbn. lia.
Qed.

Lemma system_inputs_length txs :
  Forall (λ tx, is_primary_coinbase_shape (tx_body tx) = true ∨ is_development_payout_shape (tx_body tx) = true) txs →
  (txs ≫= λ tx, input_slots (tx_body tx)) = [].
Proof.
  induction 1 as [|tx txs Hs _ IH]; [done|]. rewrite bind_cons, IH, app_nil_r.
  unfold input_slots. rewrite system_live_inputs; [done|].
  destruct Hs as [[_ Hb%Z.eqb_eq]%andb_true_iff|[_ Hb%Z.eqb_eq]%andb_true_iff]; rewrite Hb; [by left|by right].
Qed.

Lemma page_class_bound n class : for_page_count_in_generation n V1 = Some class → n ≤ 255.
Proof.
  unfold for_page_count_in_generation.
  destruct (Z.leb_spec n (fst (tiers V1))) as [H1|H1]; [intros _; etrans; [exact H1|done]|].
  destruct (Z.leb_spec n (snd (tiers V1))) as [H2|H2]; [intros _; etrans; [exact H2|done]|done].
Qed.

Lemma stream_groups_le pages class generation gs : valid_stream pages class generation gs → (length gs ≤ length pages)%nat.
Proof.
  intros Hv. rewrite <- (vs_pages _ _ _ _ Hv). pose proof (vs_groups _ _ _ _ Hv) as Hg. clear Hv.
  induction Hg as [|g gs Hg _ IH]; [done|]. rewrite bind_cons, length_app. pose proof (vg_count _ _ Hg). cbn [length]. lia.
Qed.

Lemma stream_counts txs coinbase dev users user_class class gs :
  Forall tx_wf txs → valid_block_stream txs V1 coinbase dev users user_class class gs →
  Z.of_nat (length users) ≤ BLOCK_MAX_USER_PAGES
  ∧ Z.of_nat (length (txs ≫= λ tx, input_slots (tx_body tx))) ≤ BLOCK_MAX_LIVE_INPUTS
  ∧ Z.of_nat (length (txs ≫= λ tx, output_slots (tx_body tx))) ≤ BLOCK_MAX_USER_OUTPUTS + 1.
Proof.
  intros Hwf [-> Hcb [Hdl Hdev] _ Hs Hclass]. unfold BLOCK_MAX_USER_PAGES, BLOCK_MAX_TXS, BLOCK_MAX_LIVE_INPUTS, BLOCK_MAX_USER_OUTPUTS.
  pose proof (page_class_bound _ _ Hclass) as Hpages.
  rewrite length_app in Hpages. split; [lia|]. split.
  - change (coinbase :: dev ++ users) with ((coinbase :: dev) ++ users). rewrite bind_app, (system_inputs_length (coinbase :: dev)), app_nil_l, user_inputs_length.
    + pose proof (vs_inputs _ _ _ _ Hs) as Hi. etrans; [exact Hi|]. by destruct user_class.
    + constructor; [by left|]. eapply Forall_impl; [done|]. by right.
  - apply Forall_cons in Hwf as [Hwcb Hwf]. rewrite bind_cons, length_app. unfold output_slots at 1. rewrite length_fmap.
    destruct (coinbase_value _ Hwcb Hcb) as (out & -> & _). cbn [length]. pose proof (outputs_length _ Hwf). rewrite length_app in *. lia.
Qed.

(** ** The resource preflight *)

Lemma btree_keys_sorted K : StronglySorted Z.lt (btree_keys K).
Proof.
  assert (NoDup (btree_keys K)) as Hn by (unfold btree_keys; rewrite merge_sort_Permutation; apply NoDup_elements).
  assert (StronglySorted Z.le (btree_keys K)) as Hs by (apply StronglySorted_merge_sort; apply _).
  induction Hs as [|x l Hs IH Hx]; [constructor|]. apply NoDup_cons in Hn as [Hxl Hn].
  constructor; [by apply IH|]. rewrite Forall_forall in Hx |- *. intros y Hy. specialize (Hx y Hy).
  assert (x ≠ y) by (by intros ->). lia.
Qed.

Section preflight.
  Context {P : Poseidon2bPermutation}.

Definition all_inputs (block : Block) : list Z := bk_transactions block ≫= λ tx, input_slots (tx_body tx).
Definition all_outputs (block : Block) : list Z := bk_transactions block ≫= λ tx, output_slots (tx_body tx).
Definition all_slots (block : Block) : list Z := bk_transactions block ≫= λ tx, body_slots (tx_body tx).
Definition touched_set (block : Block) : gset Z := list_to_set (all_inputs block ++ all_outputs block).
Definition segment_set (block : Block) : gset Z := list_to_set (segment_index <$> (all_inputs block ++ all_outputs block)).

(** What the preflight reports about a block of [pages] user pages in
    [groups] logical spends. *)
Definition preflight_facts (block : Block) (pages groups : nat) : BlockResourcePreflight :=
  mkPreflight (Z.of_nat pages) (Z.of_nat groups)
    (Z.of_nat (length (all_inputs block))) (Z.of_nat (length (all_outputs block)))
    (Z.of_nat (length (all_inputs block)) + Z.of_nat (length (all_outputs block)))
    (Z.of_nat (size (touched_set block))) (Z.of_nat (size (segment_set block)))
    (Z.of_nat (length (frontier 0 (Z.to_nat (bh_log_slots (bk_header block))) (touched_set block)))).

Lemma elem_of_all_slots block i : i ∈ all_inputs block ++ all_outputs block ↔ i ∈ all_slots block.
Proof.
  unfold all_inputs, all_outputs, all_slots. induction (bk_transactions block) as [|tx txs IH]; [done|].
  rewrite !bind_cons. unfold body_slots at 1. rewrite !elem_of_app in *. tauto.
Qed.

Lemma slots_nonneg block i : Forall tx_wf (bk_transactions block) → i ∈ all_slots block → 0 ≤ i.
Proof.
  intros Hwf (tx & Hi & Htx)%list_elem_of_bind. rewrite Forall_forall in Hwf. specialize (Hwf tx Htx).
  unfold body_slots in Hi. apply elem_of_app in Hi as [Hi|Hi]; apply list_elem_of_fmap in Hi as (p & -> & Hp).
  - pose proof (live_inputs_wf _ Hwf) as Hf. rewrite Forall_forall in Hf. apply (Hf p Hp).
  - pose proof (live_outputs_wf _ Hwf) as Hf. rewrite Forall_forall in Hf. apply (Hf p Hp).
Qed.

(** The conditions of acceptance. *)
Record preflight_accepts (block : Block) (pages groups : nat) : Prop := {
  pa_count : Z.of_nat (length (bk_transactions block)) ≤ BLOCK_MAX_TXS;
  pa_objects : preflight_objects block = Ok tt;
  pa_log : 1 ≤ bh_log_slots (bk_header block) ≤ 32;
  pa_stream : ∃ coinbase dev users user_class class gs,
    valid_block_stream (bk_transactions block) V1 coinbase dev users user_class class gs
    ∧ length users = pages ∧ length gs = groups;
  pa_slots : Forall (λ i, i < 2 ^ bh_log_slots (bk_header block)) (all_slots block);
  pa_segments : Z.of_nat (size (segment_set block)) ≤ BLOCK_MAX_DISTINCT_SEGMENTS;
}.

Lemma touched_nonempty block : all_slots block ≠ [] → btree_keys (touched_set block) ≠ [].
Proof.
  intros Hne He. destruct (all_slots block) as [|i l] eqn:El; [done|]. apply (not_elem_of_nil i).
  rewrite <- He, elem_of_btree_keys. unfold touched_set. rewrite elem_of_list_to_set, elem_of_all_slots, El. by left.
Qed.

Lemma frontier_count block :
  Forall tx_wf (bk_transactions block) → all_slots block ≠ [] → 1 ≤ bh_log_slots (bk_header block) ≤ 32 →
  Forall (λ i, i < 2 ^ bh_log_slots (bk_header block)) (all_slots block) →
  expected_sibling_count (btree_keys (touched_set block)) (Z.to_nat (bh_log_slots (bk_header block)))
  = Ok (length (frontier 0 (Z.to_nat (bh_log_slots (bk_header block))) (touched_set block))).
Proof.
  intros Hwf Hne Hlog Hf. assert (list_to_set (btree_keys (touched_set block)) = touched_set block) as Hset.
  { apply set_eq. intros i. by rewrite elem_of_list_to_set, elem_of_btree_keys. }
  assert (∀ i, i ∈ btree_keys (touched_set block) ↔ i ∈ all_slots block) as Hel.
  { intros i. unfold touched_set. by rewrite elem_of_btree_keys, elem_of_list_to_set, elem_of_all_slots. }
  rewrite expected_sibling_count_ok, Hset; [done|]. constructor.
  - lia.
  - by apply touched_nonempty.
  - apply btree_keys_sorted.
  - apply Forall_forall. intros i Hi%Hel. split; [by eapply slots_nonneg|]. rewrite Z2Nat.id by lia.
    by apply (proj1 (Forall_forall _ _) Hf).
Qed.

(** After the page stream only the slot domain and the segment cap can
    refuse a block. *)
Lemma preflight_tail block coinbase dev users user_class class gs s :
  Forall tx_wf (bk_transactions block) → 1 ≤ bh_log_slots (bk_header block) ≤ 32 →
  valid_block_stream (bk_transactions block) V1 coinbase dev users user_class class gs →
  try_fold (scan_tx (Z.shiftl 1 (bh_log_slots (bk_header block)))) (mkScan 0 0 ∅ ∅) (bk_transactions block) = Ok s →
  Forall (λ i, i < 2 ^ bh_log_slots (bk_header block)) (all_slots block)
  ∧ Z.of_nat (size (segment_set block)) ≤ BLOCK_MAX_DISTINCT_SEGMENTS
  ∧ s = mkScan (Z.of_nat (length (all_inputs block))) (Z.of_nat (length (all_outputs block))) (touched_set block) (segment_set block)
  ∧ all_slots block ≠ [].
Proof.
  intros Hwf Hlog Hs Hscan. apply scan_txs_Ok in Hscan as (Hf & Hseg & ->); [|cbn [sn_segments]; by rewrite size_empty].
  rewrite Z.shiftl_1_l in Hf.
  assert (scan_add (mkScan 0 0 ∅ ∅) (all_inputs block) (all_outputs block)
    = mkScan (Z.of_nat (length (all_inputs block))) (Z.of_nat (length (all_outputs block))) (touched_set block) (segment_set block)) as Eq.
  { apply scan_ext; cbn [scan_add sn_inputs sn_outputs sn_touched sn_segments]; try lia; by rewrite union_empty_r_L. }
  fold (all_inputs block) (all_outputs block) in Hseg |- *. rewrite Eq in Hseg |- *. split_and!; [done|done|done|].
  unfold all_slots. destruct Hs as [Htx Hcb _ _ _ _]. rewrite Htx in Hwf |- *. apply Forall_cons in Hwf as [Hw _].
  destruct (coinbase_value _ Hw Hcb) as (out & Hl & _). rewrite bind_cons. unfold body_slots, output_slots. rewrite Hl.
  cbn [fmap list_fmap]. by destruct (input_slots (tx_body coinbase)).
Qed.

(** An error the code returns, and none of the caps that repeat the limits
    of the page stream. *)
Definition preflight_error (e : fault ConsensusError) : Prop :=
  e ≠ Panic ∧ ∀ actual max, e ≠ Fail (CE_BlockResourceLimitExceeded "outputs" actual max)
    ∧ e ≠ Fail (CE_BlockResourceLimitExceeded "actions" actual max).

Lemma page_stream_valid block stream :
  Forall tx_wf (bk_transactions block) →
  page_stream (bk_transactions block) = Ok stream ↔
  ∃ coinbase dev users user_class class gs,
    valid_block_stream (bk_transactions block) V1 coinbase dev users user_class class gs
    ∧ stream = block_stream_facts class dev users gs.
Proof. intros Hwf. unfold page_stream. rewrite map_err_Ok. by apply validate_block_stream_valid. Qed.

Lemma page_stream_errs block : errs preflight_error (page_stream (bk_transactions block)).
Proof.
  unfold page_stream. apply errs_map_err. intros e _. split; [done|].
  intros actual max. destruct e as [| | | | |[]]; cbn; split; discriminate.
Qed.

Lemma preflight_objects_errs block : errs preflight_error (preflight_objects block).
Proof.
  unfold preflight_objects. case_bool_decide; [apply errs_ok|]. apply errs_if; [by split|]. intros _.
  apply errs_bind; [by apply errs_map_err|]. intros len _. unfold resource_limit. apply errs_if; [by split|]. intros _. apply errs_ok.
Qed.

Lemma scan_errs dom s txs : errs preflight_error (try_fold (scan_tx dom) s txs).
Proof.
  assert (∀ b s i, errs preflight_error (scan_slot dom b s i)) as Hslot.
  { intros b s0 i. unfold scan_slot. apply errs_if; [by split|]. intros _. apply errs_ok. }
  apply errs_try_fold. intros s0 tx _. unfold scan_tx, resource_limit.
  apply errs_bind; [apply errs_try_fold; intros; apply Hslot|]. intros s1 _.
  apply errs_bind; [apply errs_try_fold; intros; apply Hslot|]. intros s2 _.
  apply errs_if; [by split|]. intros _. apply errs_ok.
Qed.

(** The part after the page stream. *)
Lemma preflight_after_stream block coinbase dev users user_class class gs s :
  Forall tx_wf (bk_transactions block) → 1 ≤ bh_log_slots (bk_header block) ≤ 32 →
  valid_block_stream (bk_transactions block) V1 coinbase dev users user_class class gs →
  try_fold (scan_tx (Z.shiftl 1 (bh_log_slots (bk_header block)))) (mkScan 0 0 ∅ ∅) (bk_transactions block) = Ok s →
  Z.of_nat (length (bk_transactions block)) ≤ BLOCK_MAX_TXS → preflight_objects block = Ok tt →
  preflight_accepts block (length users) (length gs)
  ∧ validate_block_resource_preflight block = Ok (preflight_facts block (length users) (length gs)).
Proof.
  intros Hwf Hlog Hv Hscan Hlen Hobj. pose proof Hscan as Hscan'.
  destruct (preflight_tail block _ _ _ _ _ _ s Hwf Hlog Hv Hscan') as (Hf & Hseg & -> & Hne).
  destruct (stream_counts _ _ _ _ _ _ _ Hwf Hv) as (Hp & Hi & Ho).
  split; [constructor; try done; eauto 10|].
  unfold validate_block_resource_preflight. rewrite (proj2 (Z.ltb_ge _ _) Hlen), Hobj. cbn [mbind result_bind].
  rewrite (proj2 (andb_true_iff _ _)) by (split; apply Z.leb_le; lia). cbn [negb].
  rewrite (proj2 (page_stream_valid block (block_stream_facts class dev users gs) Hwf)) by eauto 10.
  cbn [mbind result_bind block_stream_facts bf_page_count bf_logical_count stream_facts sf_page_count sf_logical_count].
  rewrite length_fmap, (proj2 (Z.ltb_ge _ _) Hp), Hscan. cbn [mbind result_bind sn_inputs sn_outputs sn_touched sn_segments].
  fold (all_inputs block) in Hi. fold (all_outputs block) in Ho. rewrite (proj2 (Z.ltb_ge _ _) Hi), (proj2 (Z.ltb_ge _ _) Ho).
  rewrite (proj2 (Z.ltb_ge _ _)) by (unfold BLOCK_MAX_ACTIONS, BLOCK_MAX_USER_ACTIONS; lia).
  rewrite bool_decide_false by by apply touched_nonempty. by rewrite frontier_count.
Qed.

(** The preflight accepts and reports the facts, or refuses with an error of
    the stated kind. *)
Lemma preflight_cases block :
  Forall tx_wf (bk_transactions block) →
  (∃ pages groups, preflight_accepts block pages groups
     ∧ validate_block_resource_preflight block = Ok (preflight_facts block pages groups))
  ∨ (∃ e, preflight_error e ∧ validate_block_resource_preflight block = Err e
     ∧ ∀ pages groups, ¬ preflight_accepts block pages groups).
Proof.
  intros Hwf. remember (validate_block_resource_preflight block) as r eqn:Er. pose proof Er as Er'. revert Er.
  unfold validate_block_resource_preflight.
  destruct (Z.ltb_spec BLOCK_MAX_TXS (Z.of_nat (length (bk_transactions block)))) as [Hl|Hl].
  { intros ->. right. eexists. split; [|split; [done|]]; [by split|]. intros pages groups [H _ _ _ _ _]. lia. }
  destruct (preflight_objects block) as [[]|e] eqn:Ho; cbn [mbind result_bind].
  2:{ intros ->. right. exists e. split; [by apply (preflight_objects_errs block)|]. split; [done|]. intros pages groups [_ H _ _ _ _]. congruence. }
  destruct ((1 <=? bh_log_slots (bk_header block)) && (bh_log_slots (bk_header block) <=? 32)) eqn:Hlog; cbn [negb].
  2:{ intros ->. right. eexists. split; [|split; [done|]]; [by split|]. intros pages groups [_ _ H _ _ _].
      apply andb_false_iff in Hlog as [Hlog|Hlog]; apply Z.leb_gt in Hlog; lia. }
  apply andb_true_iff in Hlog as [H1%Z.leb_le H2%Z.leb_le].
  destruct (page_stream (bk_transactions block)) as [stream|e] eqn:Hs; cbn [mbind result_bind].
  2:{ intros ->. right. exists e. split; [by apply (page_stream_errs block)|]. split; [done|].
      intros pages groups [_ _ _ (cb & dev & users & uc & class & gs & Hv & _) _ _].
      rewrite (proj2 (page_stream_valid block (block_stream_facts class dev users gs) Hwf)) in Hs by eauto 10. done. }
  apply page_stream_valid in Hs as (cb & dev & users & uc & class & gs & Hv & ->); [|done].
  cbn [block_stream_facts bf_page_count bf_logical_count stream_facts sf_page_count sf_logical_count].
  rewrite length_fmap, (proj2 (Z.ltb_ge _ _) (proj1 (stream_counts _ _ _ _ _ _ _ Hwf Hv))).
  destruct (try_fold (scan_tx _) _ _) as [s|e] eqn:Hscan.
  - intros _. left. rewrite Er'. exists (length users), (length gs). by eapply preflight_after_stream.
  - intros ->. right. exists e. split; [by eapply scan_errs|]. split; [done|].
    intros pages groups [_ _ _ _ Hf Hseg]. 
    assert (∃ s, try_fold (scan_tx (Z.shiftl 1 (bh_log_slots (bk_header block)))) (mkScan 0 0 ∅ ∅) (bk_transactions block) = Ok s) as [s Hok];
      [|by rewrite Hok in Hscan].
    eexists. apply scan_txs_Ok; [cbn [sn_segments]; by rewrite size_empty|]. rewrite Z.shiftl_1_l. split; [done|]. split; [|done].
    cbn [sn_segments scan_add]. by rewrite union_empty_r_L.
Qed.

Lemma preflight_accepts_unique block pages groups pages' groups' :
  Forall tx_wf (bk_transactions block) → preflight_accepts block pages groups → preflight_accepts block pages' groups' →
  pages = pages' ∧ groups = groups'.
Proof.
  intros Hwf [_ _ _ (cb & dev & users & uc & class & gs & Hv & <- & <-) _ _]
    [_ _ _ (cb' & dev' & users' & uc' & class' & gs' & Hv' & <- & <-) _ _].
  assert (page_stream (bk_transactions block) = Ok (block_stream_facts class dev users gs)) as H1
    by (apply page_stream_valid; eauto 10).
  assert (page_stream (bk_transactions block) = Ok (block_stream_facts class' dev' users' gs')) as H2
    by (apply page_stream_valid; eauto 10).
  rewrite H1 in H2. injection H2 as _ _ Hp Hg _ _ _ _. rewrite !length_fmap in Hp. lia.
Qed.

(** C25: The resource preflight.  On a block of well-typed records it succeeds
    exactly when the block has at most 256 records, its client objects are
    allowed, its depth is between 1 and 32, its records form a canonical page
    stream, every live slot is inside the slot domain and at most 256 segments
    are touched, and then reports the exact counts, distinct slots, distinct
    segments and missing frontier nodes.  Every other block is refused with an
    error, never a panic, and never by the output or action caps, which the
    page stream already implies. *)
Theorem preflight_exact (block : Block) (Hwf : Forall tx_wf (bk_transactions block)) :
  (∀ facts, validate_block_resource_preflight block = Ok facts ↔
     ∃ pages groups, preflight_accepts block pages groups ∧ facts = preflight_facts block pages groups)
  ∧ (∀ e, validate_block_resource_preflight block = Err e → preflight_error e).
Proof.
  destruct (preflight_cases block Hwf) as [(pages & groups & Ha & ->)|(e & He & -> & Hna)].
  - split; [|done]. intros facts. split; [intros [= <-]; eauto|]. intros (pages' & groups' & Ha' & ->).
    by destruct (preflight_accepts_unique block pages groups pages' groups' Hwf Ha Ha') as [-> ->].
  - split; [|by intros ? [= <-]]. intros facts. split; [done|]. intros (pages & groups & Ha & _). by destruct (Hna pages groups).
Qed.

End preflight.

(** ** No check panics *)

Section no_panic.
  Context {P : Poseidon2bPermutation} {C : SegmentCommitment}.

Notation safe := (errs (λ e : fault ConsensusError, e ≠ Panic)).

Lemma safe_expect {A} (o : option A) a : o = Some a → safe (expect o).
Proof. intros ->. apply errs_ok. Qed.

Lemma safe_fail {A} e : safe (Err (Fail e) : result (fault ConsensusError) A).
Proof. by apply errs_err. Qed.

Lemma validate_header_inner_safe scratch header parent parent_id ts counts lt anchor check_pow v1_6 :
  length (sc_v scratch) = CELLS →
  safe (validate_header_inner scratch header parent parent_id ts counts lt anchor check_pow v1_6).
Proof.
  intros Hsc. unfold validate_header_inner. apply errs_bind; [by apply errs_map_err|intros _ _].
  apply errs_if; [done|intros _]. apply errs_if; [done|intros _]. apply errs_if; [done|intros _].
  apply errs_bind; [by apply errs_map_err|intros _ _]. apply errs_if; [done|intros _].
  apply errs_bind; [by apply errs_map_err|intros _ _]. apply errs_bind.
  - destruct check_pow; [|apply errs_ok]. apply errs_bind; [|intros; apply errs_ok].
    pose proof (validate_pow_spec scratch header Hsc) as Hp. destruct (pow_ok header).
    + destruct Hp as (s' & -> & _). apply errs_ok.
    + rewrite Hp. apply safe_fail.
  - intros _ _. apply errs_if; [done|intros _]. apply errs_ok.
Qed.

Lemma validate_block_header_safe scratch block parent ts counts anchor lt check_pow :
  length (sc_v scratch) = CELLS → safe (validate_block_header scratch block parent ts counts anchor lt check_pow).
Proof. intros Hsc. unfold validate_block_header. destruct lt, check_pow; by apply validate_header_inner_safe. Qed.

Lemma check_payout_safe payout anchor amount : tx_wf payout → safe (check_payout payout anchor amount).
Proof.
  intros Hw. unfold check_payout, output_at. destruct (two_outputs _ Hw) as (o1 & o2 & ->).
  apply errs_bind; [by apply errs_map_err|intros _ _]. apply errs_if; [done|intros _]. cbn.
  apply errs_if; [done|intros _]. apply errs_ok.
Qed.

Lemma page_stream_safe block : safe (page_stream (bk_transactions block)).
Proof. intros e He. by apply page_stream_errs in He as [? _]. Qed.

Lemma validate_mandatory_coinbase_safe block parent :
  Forall tx_wf (bk_transactions block) → safe (validate_mandatory_coinbase block parent).
Proof.
  intros Hwf. unfold validate_mandatory_coinbase. apply errs_bind; [apply page_stream_safe|]. intros stream Hs.
  apply page_stream_valid in Hs as (cb & dev & users & uc & class & gs & Hv & ->); [|done].
  rewrite (vb_layout _ _ _ _ _ _ _ _ Hv) in Hwf |- *. cbn [lookup list_lookup expect ok_or mbind result_bind].
  apply Forall_cons in Hwf as [Hcb Hwf]. apply errs_bind; [by apply errs_map_err|intros _ _].
  apply errs_if; [done|intros _]. unfold output_at. destruct (two_outputs _ Hcb) as (o1 & o2 & ->). cbn [lookup list_lookup expect ok_or mbind result_bind].
  apply errs_if; [done|intros _]. apply errs_bind; [by apply errs_map_err|]. intros d _.
  cbn [bf_has_development_payout block_stream_facts]. destruct (da_payout_each d); case_bool_decide as Hd; try apply safe_fail; [|apply errs_ok].
  destruct dev as [|payout dev]; [done|]. cbn. apply check_payout_safe. by apply Forall_cons in Hwf as [? _].
Qed.

Lemma fee_policy_safe block parent : safe (validate_fee_policy_and_claimable_fee_sum block parent).
Proof.
  unfold validate_fee_policy_and_claimable_fee_sum. apply errs_bind; [apply page_stream_safe|]. intros stream _.
  apply errs_try_fold. intros acc g _. unfold claim_group. apply errs_if; [done|intros _]. by apply errs_ok_or.
Qed.

Lemma coinbase_ceiling_safe block parent claimed dividend :
  Forall tx_wf (bk_transactions block) → validate_mandatory_coinbase block parent = Ok tt →
  safe (validate_coinbase_ceiling block claimed dividend).
Proof.
  intros Hwf Hm. unfold validate_mandatory_coinbase in Hm. apply bind_Ok in Hm as (stream & Hs & Hm).
  apply page_stream_valid in Hs as (cb & dev & users & uc & class & gs & Hv & ->); [|done].
  pose proof (vb_layout _ _ _ _ _ _ _ _ Hv) as Hlay. rewrite Hlay in Hwf, Hm. apply Forall_cons in Hwf as [Hcb _].
  unfold validate_coinbase_ceiling. rewrite Hlay. destruct (tb_is_coinbase (tx_body cb)); [|apply errs_ok].
  destruct (coinbase_value _ Hcb (vb_coinbase _ _ _ _ _ _ _ _ Hv)) as (out & -> & _). cbn [head expect ok_or mbind result_bind].
  apply errs_bind; [|intros; apply errs_if; [done|intros _; apply errs_ok]].
  cbn [lookup list_lookup expect ok_or mbind result_bind] in Hm. apply bind_unit_Ok in Hm as [_ Hm].
  apply if_err_Ok in Hm as [_ Hm]. apply bind_Ok in Hm as (o & _ & Hm). apply if_err_Ok in Hm as [_ Hm].
  apply bind_Ok in Hm as (d & Hd & _). apply map_err_Ok in Hd. destruct (allocation_ceiling _ claimed _ Hd) as [v Hc].
  by eapply safe_expect.
Qed.

(** ** Application *)

Notation sound_apply := (errs (λ e : fault ApplyError, e ≠ Panic)).

Section application.
  Context (cs : ChainState) (m : gmap Z SlotValue) (body : TxBody) (height : option Z)
    (Hinv : cs_inv cs m) (Hbody : TxBody_wf body).

(** A slot that passes the range and residency checks can be read. *)
Lemma slot_read i :
  0 ≤ i → (num_slots (cs_state cs) <=? i) = false → is_evicted (cs_state cs) (slot_segment cs i) = false →
  slot (cs_state cs) i = Some (m_get m i).
Proof.
  intros H0 Hr%Z.leb_gt Hev. rewrite slot_segment_eq in Hev by (done || apply (ci_wf _ _ Hinv)).
  apply bool_decide_eq_false in Hev. by rewrite (rep_slot _ _ (ci_rep _ _ Hinv)).
Qed.

Lemma spend_input_safe input : 0 ≤ ti_slot_index input → sound_apply (spend_input cs body input).
Proof.
  intros H0. unfold spend_input. apply errs_if; [done|intros Hr]. apply errs_if; [done|intros Hev].
  rewrite slot_read by done. cbn [expect ok_or mbind result_bind]. apply errs_if; [done|intros _]. apply errs_ok.
Qed.

Lemma mint_output_safe acc output : 0 ≤ to_slot_index output → sound_apply (mint_output cs body height acc output).
Proof.
  intros H0. unfold mint_output. destruct acc as [a deltas]. apply errs_if; [done|intros Hr]. apply errs_if; [done|intros Hev].
  rewrite slot_read by done. cbn [expect ok_or mbind result_bind]. apply errs_if; [done|intros _].
  apply errs_bind; [by apply errs_ok_or|intros a' _]. apply errs_bind; [|intros; apply errs_ok].
  destruct (is_primary_coinbase_shape body); [|apply errs_ok]. apply errs_bind; [by apply errs_ok_or|intros; apply errs_ok].
Qed.

Lemma insert_fresh_safe (s : gset Z) x e : sound_apply (insert_fresh (Fail e) s x).
Proof. unfold insert_fresh. case_decide; [by apply errs_err|apply errs_ok]. Qed.

Lemma apply_tx_safe : sound_apply (apply_tx_checked_deferred_root cs body height).
Proof.
  unfold apply_tx_checked_deferred_root. apply errs_if; [done|intros _].
  apply errs_bind; [apply errs_try_fold; intros; apply insert_fresh_safe|intros ins _].
  apply errs_bind; [apply errs_try_fold; intros s p _; apply errs_bind; [apply insert_fresh_safe|];
    intros s' _; case_decide; [by apply errs_err|apply errs_ok]|intros outs _].
  pose proof (live_inputs_nonneg body Hbody) as Hi. pose proof (live_outputs_nonneg body Hbody) as Ho.
  apply errs_bind; [apply errs_try_fold; intros d p Hp; apply errs_bind; [|intros; apply errs_ok];
    apply spend_input_safe; by apply (proj1 (Forall_forall _ _) Hi p)|intros dspent Hspent].
  eapply spend_fold_Ok in Hspent as [-> Hin]; [|done|done].
  apply errs_bind; [by apply errs_ok_or|intros a1 _]. apply errs_bind; [by apply errs_ok_or|intros a2 _].
  apply errs_bind; [by apply errs_ok_or|intros a3 _]. apply errs_if; [done|intros _].
  apply errs_bind; [apply errs_try_fold; intros d p Hp; apply mint_output_safe; by apply (proj1 (Forall_forall _ _) Ho p)|intros [cur deltas] Hmint].
  eapply (mint_fold_Ok cs m body height Hinv (live_outputs body) _ _ _ _ 0) in Hmint as (-> & Hout & _); [|done|lia].
  change (imap _ (live_outputs body)) with (minted (cs_alloc_counter cs) body height).
  cbn [app]. fold (spent body). fold (tx_deltas (cs_alloc_counter cs) body height).
  pose proof (tx_deltas_in_reach cs m body height (cs_alloc_counter cs) Hin Hout) as Hreach.
  pose proof (num_slots_u32 _ (ci_wf _ _ Hinv)) as H32.
  rewrite (supply_after_slot_updates_ok cs m); [|apply Hinv..|].
  2:{ eapply Forall_impl; [exact Hreach|]. intros d [Hr He]. split; [lia|done]. }
  cbn [map_fault map_err mbind result_bind].
  destruct (apply_delta_in_place_represents (cs_state cs) m (tx_deltas (cs_alloc_counter cs) body height)
    (ci_wf _ _ Hinv) (ci_rep _ _ Hinv) Hreach) as (st1 & H1 & _).
  unfold apply_delta_unrooted. rewrite H1. apply errs_ok.
Qed.

End application.

Lemma apply_bodies_safe height bodies cs m :
  0 ≤ height < 2 ^ 63 → cs_inv cs m → Forall TxBody_wf bodies →
  sound_apply (apply_bodies height cs bodies).
Proof.
  intros Hh Hinv Hwf. revert cs m Hinv. induction Hwf as [|body bodies Hw Hwf IH]; intros cs m Hinv; cbn; [apply errs_ok|].
  apply errs_bind; [by eapply apply_tx_safe|]. intros cs1 H1.
  destruct (apply_tx_preserves cs m body (Some height) Hinv Hw cs1 H1) as (Hinv1 & _); [by intros ? [= <-]|].
  by eapply IH.
Qed.

Lemma block_txs_safe start height cs txs :
  sound_apply (apply_bodies height cs (tx_body <$> txs)) →
  errs (λ e : fault BlockApplyError, e ≠ Panic) (try_fold (apply_block_tx start height) cs (imap pair txs)).
Proof.
  unfold apply_bodies. assert (∀ k, sound_apply (try_fold (λ cs body, apply_tx_checked_deferred_root cs body (Some height)) cs (tx_body <$> txs)) →
    errs (λ e : fault BlockApplyError, e ≠ Panic) (try_fold (apply_block_tx start height) cs (imap (λ i tx, (k + i, tx)%nat) txs))) as Hg; [|apply (Hg 0%nat)].
  revert cs. induction txs as [|tx txs IH]; intros cs k Hs; cbn [imap try_fold]; [apply errs_ok|].
  cbn [fmap list_fmap try_fold] in Hs. apply errs_bind.
  - unfold apply_block_tx. apply errs_bind; [case_decide; [by apply errs_map_err|apply errs_ok]|intros _ _].
    unfold map_fault. apply errs_map_err. intros e He. destruct e; [|done]. exfalso. by apply (Hs Panic); [rewrite He|].
  - intros cs1 H1. unfold apply_block_tx in H1. apply bind_Ok in H1 as (? & _ & H1). apply map_err_Ok in H1.
    rewrite H1 in Hs. cbn [mbind result_bind] in Hs. apply (IH cs1 (S k)) in Hs.
    intros e He. apply Hs. rewrite <- He. f_equal. apply imap_ext. intros j y _. cbn. by rewrite Nat.add_succ_r.
Qed.

(** The transaction tree has room for the logical transactions of a block. *)
Lemma tx_root_safe txs :
  Forall tx_wf txs → errs (λ e : fault BlockPageStreamError, e ≠ Panic) (try_compute_tx_root txs).
Proof.
  intros Hwf. unfold try_compute_tx_root. apply errs_bind; [by apply errs_map_err|]. intros hashes Hh. apply map_err_Ok in Hh.
  apply errs_ok_or. intros Hn. exfalso. unfold try_compute_logical_txids in Hh.
  destruct txs as [|tx0 rest] eqn:Etx; [by injection Hh as <-|]. rewrite <- Etx in Hh, Hwf.
  apply bind_Ok in Hh as (stream & Hs & Hh). apply validate_block_stream_valid in Hs as (cb & dev & users & uc & class & gs & Hv & ->); [|done].
  assert (hashes ≠ [] ∧ (length hashes ≤ TX_TREE_LEAVES)%nat) as [Hne Hl]; [|by rewrite root_from_hashes_eq in Hn].
  injection Hh as <-. split; [done|]. pose proof (vb_class _ _ _ _ _ _ _ _ Hv) as Hp%page_class_bound. rewrite length_app in Hp.
  pose proof (stream_groups_le _ _ _ _ (vb_stream _ _ _ _ _ _ _ _ Hv)) as Hg. rewrite length_fmap in Hg.
  cbn [block_stream_facts bf_has_development_payout bf_groups stream_facts sf_groups app length]. rewrite length_app, length_fmap, length_stream_groups.
  change TX_TREE_LEAVES with 256%nat.
  case_bool_decide as Hd; [|destruct dev; [cbn; lia|done]]. destruct rest; cbn [length]; destruct dev; try done; cbn [length] in *; lia.
Qed.

Lemma preflight_errs block :
  Forall tx_wf (bk_transactions block) → safe (validate_block_resource_preflight block).
Proof.
  intros Hwf e He. destruct (preflight_cases block Hwf) as [(pages & groups & _ & Hok)|(e' & [Hp _] & He' & _)]; congruence.
Qed.

Lemma preflight_log block facts :
  Forall tx_wf (bk_transactions block) → validate_block_resource_preflight block = Ok facts →
  1 ≤ bh_log_slots (bk_header block) ≤ 32.
Proof.
  intros Hwf Hok. destruct (preflight_cases block Hwf) as [(pages & groups & Ha & _)|(e' & _ & He' & _)]; [|congruence].
  apply Ha.
Qed.

Lemma first_tx_safe block stream :
  Forall tx_wf (bk_transactions block) → page_stream (bk_transactions block) = Ok stream → safe (validate_first_tx block).
Proof.
  intros Hwf Hs. apply page_stream_valid in Hs as (cb & dev & users & uc & class & gs & Hv & _); [|done].
  unfold validate_first_tx. rewrite (vb_layout _ _ _ _ _ _ _ _ Hv). cbn [lookup list_lookup expect ok_or mbind result_bind].
  by apply errs_map_err.
Qed.

Lemma apply_block_safe cs m block :
  cs_inv cs m → sealed cs m → Forall tx_wf (bk_transactions block) →
  0 ≤ bh_height (bk_header block) < 2 ^ 63 → 0 ≤ bh_log_slots (bk_header block) ≤ 32 →
  ((sg_log_slots (cs_state cs) < LOG_SEGMENT_SIZE)%nat → 0 ∉ sg_evicted (cs_state cs)) →
  errs (λ e : fault BlockApplyError, e ≠ Panic) (apply_block cs block).
Proof.
  intros Hinv Hs Hwf Hh H32 Hres. unfold apply_block. apply errs_if; [done|intros _].
  apply errs_bind; [by apply errs_map_err|intros stream _]. apply errs_bind_unit; [by apply errs_map_err|intros Hc].
  apply map_err_Ok, slot_conflicts_bodies in Hc. apply errs_bind.
  { intros e He. unfold check_system_inputs in He. induction (take _ _) as [|tx l IH]; cbn in He; [done|].
    destruct (negb _); [by injection He as <-|]. by apply IH. }
  intros _ _. destruct (expanded cs m block Hinv Hs H32 Hres) as (cs1 & Hex & Hinv1 & Hs1 & _ & _ & Ha1). rewrite Hex.
  cbn [expect ok_or mbind result_bind]. pose proof (bodies_wf block Hwf) as Hbw.
  apply errs_bind; [apply block_txs_safe; by eapply apply_bodies_safe|intros cs2 H2].
  apply apply_block_txs_Ok in H2 as [_ H2].
  destruct (bodies_sealed cs m block Hinv Hwf Hh cs1 cs2 Hinv1 Hs1 Ha1 (expand_levels_active _ _ _ Hex) Hc H2) as (_ & cs3 & -> & _).
  cbn [map_fault map_err mbind result_bind]. do 4 (apply errs_if; [done|intros _]).
  apply errs_bind; [|intros r _; apply errs_if; [done|intros _; apply errs_ok]].
  unfold map_fault. apply errs_map_err. intros e He. pose proof (tx_root_safe _ Hwf e He). by destruct e.
Qed.

Lemma block_checks_safe scratch block parent ts counts anchor lt check_pow dividend :
  Forall tx_wf (bk_transactions block) → length (sc_v scratch) = CELLS →
  safe (validate_block_checks_inner scratch block parent ts counts anchor lt check_pow dividend).
Proof.
  intros Hwf Hsc. unfold validate_block_checks_inner.
  apply errs_bind; [intros e He; by apply (preflight_errs block Hwf)|intros facts _].
  apply errs_bind; [by apply validate_block_header_safe|intros _ _].
  apply errs_bind_unit; [by apply validate_mandatory_coinbase_safe|intros Hm].
  apply errs_bind; [apply page_stream_safe|intros stream Hs]. apply errs_bind; [by apply errs_map_err|intros _ _].
  apply errs_bind; [by eapply first_tx_safe|intros _ _]. apply errs_bind; [apply fee_policy_safe|intros claimed _].
  by eapply coinbase_ceiling_safe.
Qed.

(** C3: Block validation does not panic.  On a block of well-typed records,
    whatever the parent, the clock, the timestamps and the anchor, the
    stateless checks end with acceptance or a consensus error: no index, no
    [expect] and no checked sum fails.  On the state of every ledger it has built
    itself, the sequential validator has the same property for every block of
    well-typed records and header whose height is below [2^63]. *)
Theorem block_validation_never_panics scratch block parent state ts counts anchor lt now check_pow dividend
    (Hwf : Forall tx_wf (bk_transactions block)) (Hsc : length (sc_v scratch) = CELLS) :
  validate_block_checks_inner scratch block parent ts counts anchor lt check_pow dividend ≠ Err Panic
  ∧ (ledger parent state → BlockHeader_wf (bk_header block) → bh_height (bk_header block) < 2 ^ 63 →
     validate_block_consensus scratch block parent ts counts now anchor state ≠ Err Panic).
Proof.
  split; [intros He; by apply block_checks_safe in He|]. intros Hl Hh H63 He.
  destruct (ledger_tip _ _ Hl) as [m [Hinv Hs Hev _ _ _ _]]. revert He.
  enough (safe (validate_block_consensus scratch block parent ts counts now anchor state)) as H by (intros He; by apply H in He).
  unfold validate_block_consensus. apply errs_bind; [by apply validate_header_inner_safe|intros _ _].
  apply errs_bind; [intros e He; by apply (preflight_errs block Hwf)|intros facts Hf].
  apply (preflight_log block _ Hwf) in Hf.
  apply errs_bind_unit; [by apply validate_mandatory_coinbase_safe|intros Hm].
  apply errs_bind; [apply page_stream_safe|intros stream Hst]. apply errs_bind; [by apply errs_map_err|intros _ _].
  apply errs_bind; [by eapply first_tx_safe|intros _ _]. apply errs_bind; [apply fee_policy_safe|intros claimed _].
  apply errs_bind; [by eapply coinbase_ceiling_safe|intros _ _].
  apply errs_bind; [|by intros [] _; apply errs_ok]. unfold map_fault. apply errs_map_err. intros e He.
  assert (e ≠ Panic) by (eapply apply_block_safe; [exact Hinv|exact Hs|exact Hwf| |lia|by rewrite Hev|exact He];
    split; [apply (hw_height _ Hh)|done]).
  by destruct e.
Qed.

End no_panic.

Lemma preflight_exact_witness :
  ∃ pages groups, preflight_accepts ledger_first_block pages groups
    ∧ validate_block_resource_preflight (P := narrow_permutation) ledger_first_block
      = Ok (preflight_facts ledger_first_block pages groups).
Proof.
  assert (Forall tx_wf (bk_transactions ledger_first_block)) as Hwf by (apply (bool_decide_unpack _); vm_compute; exact I).
  destruct (validate_block_resource_preflight (P := narrow_permutation) ledger_first_block) as [facts|e] eqn:Hp;
    [|exfalso; revert Hp; vm_compute; discriminate].
  destruct (proj1 (proj1 (preflight_exact (P := narrow_permutation) ledger_first_block Hwf) facts) Hp) as (pages & groups & Ha & He).
  exists pages, groups. exact (conj Ha (f_equal Ok He)).
Defined.

(** A block whose only record is a user page, on top of a ledger of one block:
    refused by both validators, without a panic. *)
Lemma block_validation_never_panics_witness :
  let page := mkTransaction (mkTxBody zero_digest 0 zero_digest (replicate 8 TxInput_dummy) [TxOutput_dummy; TxOutput_dummy] 0 false) in
  let block := mkBlock (bk_header ledger_first_block) [page] [] in
  ∃ state, ledger (P := narrow_permutation) (C := example_commitment) (bk_header ledger_first_block) state
    ∧ validate_block_checks_inner (P := narrow_permutation) Scratch_new block (bk_header ledger_first_block) [1700000000] []
        ledger_anchor (Some 1700000700) true 0 ≠ Err Panic
    ∧ validate_block_consensus (P := narrow_permutation) (C := example_commitment) Scratch_new block (bk_header ledger_first_block)
        [1700000000] [] 1700000700 ledger_anchor state ≠ Err Panic.
Proof.
  intros page block. destruct example_ledger as (state & Hl & _). exists state. split; [exact Hl|].
  destruct (block_validation_never_panics (P := narrow_permutation) (C := example_commitment) Scratch_new block
    (bk_header ledger_first_block) state [1700000000] [] ledger_anchor (Some 1700000700) 1700000700 true 0) as [H1 H2].
  - apply (bool_decide_unpack _). vm_compute. exact I.
  - apply Scratch_new_length.
  - split; [exact H1|]. apply H2; [exact Hl| |reflexivity].
    constructor; apply (bool_decide_unpack _); vm_compute; exact I.
Defined.
