(* ===== verification/LedgerTypes.v ===== *)
(** * The types of the slots of a ledger

    Every slot a node can read in the state of a chain of accepted blocks
    holds machine words of the declared widths, and the creation id of every
    live slot passes [creation_id_within_boundary], the predicate of
    [consensus/params.rs] that relates it to the height and the allocation
    counter of the tip. *)

From S2P Require Import Prelude Machine Params Emission Poseidon TxTypes TxWire PagedSpend Fees BlockStream SlotState SlotInv SparseRoot SparseRootProofs ChainState ChainStateInv BlockHeader TxTree ClientObjects Consensus Block BlockProps Difficulty TowerWalk Pow Header Validation Supply.

(** A slot value of the declared widths. *)
Definition slot_words (v : SlotValue) : Prop := is_u128 (sv_value v) ∧ is_u128 (sv_owner_hi v) ∧ is_u128 (sv_owner_lo v).

(** What the tip bounds about a live slot. *)
Definition slot_typed (alloc height : Z) (v : SlotValue) : Prop :=
  slot_words v ∧ is_u64 (slot_amount v) ∧ is_u64 (slot_creation_id v)
  ∧ creation_id_within_boundary (slot_creation_id v) alloc height = true.

Definition map_typed (alloc height : Z) (m : gmap Z SlotValue) : Prop :=
  ∀ i v, m !! i = Some v → slot_typed alloc height v.

Lemma within_boundary_mono cid alloc height alloc' height' :
  alloc ≤ alloc' → height ≤ height' →
  creation_id_within_boundary cid alloc height = true → creation_id_within_boundary cid alloc' height' = true.
Proof.
  intros Ha Hh. unfold creation_id_within_boundary. destruct (is_coinbase_creation_id cid); 
  rewrite ?andb_true_iff, ?Z.leb_le, ?Z.ltb_lt; lia.
Qed.

Lemma owner_words owner : is_digest owner → is_u128 (fst (as_fields owner)) ∧ is_u128 (snd (as_fields owner)).
Proof.
  intros [Hl Hb]. unfold as_fields, Block128_from_bytes, is_uint. cbn [fst snd].
  pose proof (from_le_bytes_bound (take 16 owner) (Forall_take _ _ _ Hb)) as H1.
  pose proof (from_le_bytes_bound (drop 16 owner) (Forall_drop _ _ _ Hb)) as H2.
  rewrite length_take in H1. rewrite length_drop in H2. rewrite Hl in *. split; [exact H1|exact H2].
Qed.

Lemma minted_typed amount cid owner alloc height :
  is_u64 amount → is_u64 cid → is_digest owner → creation_id_within_boundary cid alloc height = true →
  slot_typed alloc height (with_owner_fields amount cid (as_fields owner)).
Proof.
  intros Ha Hc Ho Hb. destruct (with_owner_fields_parts amount cid (as_fields owner) Ha Hc) as [Ea Ec].
  destruct (owner_words owner Ho). unfold slot_typed. rewrite Ea, Ec. split_and!; try done.
  unfold slot_words, with_owner_fields, from_parts. cbn [sv_value sv_owner_hi sv_owner_lo]. split_and!; try done.
  unfold is_uint in *. rewrite pack_amount_creation_id_eq by (unfold is_uint; lia).
  change (2 ^ 128) with (2 ^ 64 * 2 ^ 64). nia.
Qed.

Lemma mint_id_boundary alloc body height j final :
  0 ≤ alloc → alloc + 1 + Z.of_nat j ≤ final < 2 ^ 63 → 0 ≤ height < 2 ^ 63 →
  is_u64 (mint_id alloc body (Some height) j) ∧ creation_id_within_boundary (mint_id alloc body (Some height) j) final height = true.
Proof.
  intros Ha Hf Hh. unfold mint_id. cbn [default]; unfold id. destruct (is_primary_coinbase_shape body).
  - rewrite coinbase_creation_id_add by done. split; [unfold is_uint; lia|].
    unfold creation_id_within_boundary. rewrite is_coinbase_creation_id_spec by (unfold is_uint; lia).
    rewrite (proj2 (Z.leb_le _ _)) by lia. unfold coinbase_creation_height.
    change (Z.lxor u64_max COINBASE_CREATION_TAG) with (Z.ones 63). rewrite Z.land_ones by lia.
    apply Z.leb_le. rewrite <- Z.add_mod_idemp_l by lia. rewrite Z_mod_same_full, Z.add_0_l, Z.mod_small by lia. lia.
  - split; [unfold is_uint; lia|]. unfold creation_id_within_boundary. rewrite is_coinbase_creation_id_spec by (unfold is_uint; lia).
    rewrite (proj2 (Z.leb_gt _ _)) by lia. apply Z.leb_le. lia.
Qed.

Lemma tx_deltas_typed alloc body height final i v :
  TxBody_wf body → 0 ≤ alloc → alloc + live_output_count body ≤ final < 2 ^ 63 → 0 ≤ height < 2 ^ 63 →
  (i, v) ∈ tx_deltas alloc body (Some height) → v = EMPTY ∨ slot_typed final height v.
Proof.
  intros Hw Ha Hf Hh [Hi|Hi]%elem_of_app.
  - left. unfold spent in Hi. by apply list_elem_of_fmap in Hi as (p & [= -> ->] & _).
  - right. apply elem_of_lookup_imap in Hi as (j & p & [= -> ->] & Hp).
    pose proof (live_outputs_wf body Hw) as Ho. rewrite Forall_lookup in Ho. specialize (Ho _ _ Hp) as (_ & Hamt & Hown).
    apply lookup_lt_Some in Hp. rewrite live_output_count_length in Hf by done.
    destruct (mint_id_boundary alloc body height j final) as [H1 H2]; [lia|lia|lia|]. by apply minted_typed.
Qed.

Lemma block_deltas_typed alloc bodies height final i v :
  Forall TxBody_wf bodies → 0 ≤ alloc → alloc + sum_Z (live_output_count <$> bodies) ≤ final < 2 ^ 63 → 0 ≤ height < 2 ^ 63 →
  (i, v) ∈ block_deltas alloc bodies height → v = EMPTY ∨ slot_typed final height v.
Proof.
  intros Hw. revert alloc. induction Hw as [|body bodies Hw Hws IH]; intros alloc Ha Hf Hh Hi; [by apply not_elem_of_nil in Hi|].
  cbn [fmap list_fmap] in Hf. rewrite sum_Z_cons in Hf.
  assert (0 ≤ live_output_count body) by (rewrite live_output_count_length by done; lia).
  assert (0 ≤ sum_Z (live_output_count <$> bodies)).
  { apply sum_Z_nonneg, Forall_fmap. eapply Forall_impl; [exact Hws|]. intros b Hb. unfold compose. rewrite live_output_count_length by done. lia. }
  cbn [block_deltas] in Hi. apply elem_of_app in Hi as [Hi|Hi].
  - eapply tx_deltas_typed; [done|exact Ha| |done|exact Hi]. lia.
  - eapply (IH (alloc + live_output_count body)); try done; lia.
Qed.

Lemma amount_le_supply m i v : m !! i = Some v → slot_amount v ≤ supply m.
Proof.
  intros Hi. pose proof (supply_delete m i) as Hd. unfold m_get in Hd. rewrite Hi in Hd. cbn [default] in Hd. unfold id in Hd.
  pose proof (supply_nonneg (delete i m)). lia.
Qed.

Section ledger_types.
  Context {P : Poseidon2bPermutation} {C : SegmentCommitment}.

Lemma block_effect_typed state m block :
  Forall tx_wf (bk_transactions block) → 0 ≤ cs_alloc_counter state →
  cs_alloc_counter state + sum_Z (live_output_count <$> block_bodies block) = bh_alloc_counter (bk_header block) →
  bh_alloc_counter (bk_header block) < 2 ^ 63 → 0 ≤ bh_height (bk_header block) < 2 ^ 63 →
  map_typed (bh_alloc_counter (bk_header block)) (bh_height (bk_header block)) m →
  (∀ i v, block_effect state m block !! i = Some v → v ≠ EMPTY) →
  map_typed (bh_alloc_counter (bk_header block)) (bh_height (bk_header block)) (block_effect state m block).
Proof.
  intros Hwf H0 Hal H63 Hh Hm Hlive i v Hi. pose proof (Hlive i v Hi) as Hne.
  apply m_update_lookup in Hi as [Hi|[_ Hi]]; [|by apply (Hm i)].
  eapply block_deltas_typed in Hi as [?|?]; [done|done|by apply bodies_wf|done|lia|done].
Qed.

Lemma ledger_typed header state :
  ledger header state → ∃ m, tip_of header state m ∧ map_typed (bh_alloc_counter header) (bh_height header) m.
Proof.
  induction 1 as [block empty root state Hwf Hlog Hw Ha|parent state scratch block ts counts lt anchor root state' Hl IH Hwf Hh Htx Hc Hsc Hok].
  - destruct (genesis_tip block empty root state Hlog Hw Ha) as (_ & Ht & _). by exists ∅.
  - destruct (ledger_bounds _ _ Hl) as [Hpwf Hp]. destruct IH as (m & Ht & Hm).
    destruct (block_tip parent state m scratch block ts counts lt anchor root state') as (He & Ht' & _ & Hadm); try done; [lia|].
    exists (block_effect state m block). split; [done|].
    pose proof (hw_height _ Hwf) as Hbh. unfold is_uint in Hbh.
    destruct Ht as [Hinv Hs Hev Htl Htr Hta Htc]. pose proof (ci_alloc _ _ Hinv).
    pose proof (bk_alloc _ _ _ Hadm) as Hal. pose proof (bk_ids _ _ _ Hadm).
    apply block_effect_typed; try done; try lia.
    + intros i v Hi. destruct (Hm i v Hi) as (H1 & H2 & H3 & H4). split_and!; try done.
      eapply within_boundary_mono; [| |exact H4]; [|lia].
      rewrite Htc, Hal. enough (0 ≤ sum_Z (live_output_count <$> block_bodies block)) by lia.
      apply sum_Z_nonneg, Forall_fmap. eapply Forall_impl; [by apply bodies_wf|]. intros b Hb. unfold compose.
      rewrite live_output_count_length by done. lia.
    + intros i v Hi. by eapply ci_live; [apply Ht'|].
Qed.

(** C4: The types of a ledger.  In the state behind the tip of every chain of
    blocks of heights below [2^63] accepted from a genesis block, every index of
    the slot domain can be read and yields a value of three 128-bit words; a live
    value decodes into a 64-bit amount, at most the cap, and a 64-bit creation id
    that passes the boundary predicate for the tip's height and allocation
    counter. *)
Theorem ledger_slots_typed header state :
  ledger header state →
  ∀ i, 0 ≤ i < 2 ^ bh_log_slots header →
  ∃ v, slot (cs_state state) i = Some v ∧ slot_words v
    ∧ (v ≠ EMPTY → is_u64 (slot_amount v) ∧ slot_amount v ≤ MAX_SUPPLY_MICRO ∧ is_u64 (slot_creation_id v)
       ∧ creation_id_within_boundary (slot_creation_id v) (bh_alloc_counter header) (bh_height header) = true).
Proof.
  intros Hl i Hi. destruct (ledger_typed _ _ Hl) as (m & Ht & Hm). destruct (ledger_cap _ _ Hl) as [_ Hcap].
  destruct Ht as [Hinv _ Hev Hlog _ _ _].
  exists (m_get m i). split.
  - apply (rep_slot _ _ (ci_rep _ _ Hinv)); [|by rewrite Hev]. unfold num_slots. by rewrite <- Hlog, Z.shiftl_1_l.
  - unfold m_get. destruct (m !! i) as [v|] eqn:Ei; cbn; [|split; [|done]].
    + destruct (Hm i v Ei) as (Hw & Ha & Hc & Hb). split; [done|]. intros _. split_and!; try done.
      rewrite (ci_supply _ _ Hinv) in Hcap. etrans; [by eapply amount_le_supply|done].
    + unfold slot_words, is_uint. cbn. lia.
Qed.

End ledger_types.

Lemma ledger_slots_typed_witness :
  ∃ state v, slot state 3 = Some v ∧ slot_words v ∧ slot_amount v = 5000
    ∧ creation_id_within_boundary (slot_creation_id v) 1 1 = true.
Proof.
  destruct example_ledger as (state & Hl & _ & Hv).
  destruct (ledger_slots_typed (P := narrow_permutation) (C := example_commitment) _ _ Hl 3) as (v & Hs & Hw & Ht);
    [split; [discriminate|reflexivity]|].
  exists (cs_state state), v. rewrite Hs in Hv. injection Hv as Hv. split_and!; [exact Hs|exact Hw|exact Hv|].
  apply Ht. intros ->. discriminate Hv.
Defined.
