(* ===== verification/Allocator.v ===== *)
(** * The slot allocator

    [consensus/allocator.rs]: the splitmix64 mixer, the permutation of the
    zones, the slot hints and the probe order over the segments.  The zone
    permutation is a bijection, so the probe visits every segment once and
    hints drawn from consecutive counters never repeat. *)

From S2P Require Import Prelude Machine Params GF128 TowerWalk.

(** The new state and the output. *)
Definition splitmix64 (state : Z) : Z * Z :=
  let state := wrapping_add 64 state 0x9e3779b97f4a7c15 in
  let z := state in
  let z := wrapping_mul 64 (Z.lxor z (Z.shiftr z 30)) 0xbf58476d1ce4e5b9 in
  let z := wrapping_mul 64 (Z.lxor z (Z.shiftr z 27)) 0x94d049bb133111eb in
  (state, Z.lxor z (Z.shiftr z 31)).

Definition ZONE_CAPACITY : Z := Z.shiftl 1 16.

Definition permute_zone (zone_id num_zones seed : Z) : Z :=
  let mask := num_zones - 1 in
  let s := Z.lxor seed 0xD1B54A32D192ED03 in
  let '(s, raw) := splitmix64 s in
  let mul := Z.lor raw 1 in
  let '(_, add) := splitmix64 s in
  Z.land (wrapping_add 64 (wrapping_mul 64 zone_id mul) add) mask.

(** The loop of the states no larger than a zone. *)
Fixpoint uniform_hints (count : nat) (mask state : Z) : list Z :=
  match count with
  | O => []
  | S count =>
      let '(state, raw) := splitmix64 state in
      wrap 32 (Z.land raw mask) :: uniform_hints count mask state
  end.

Definition perm_seed (log_slots : Z) : Z := Z.lxor 0xA0761D6478BD642F (Z.shiftl log_slots 32).

(** One turn of the zone loop. *)
Definition zone_hint (log_slots counter : Z) : Z :=
  let num_zones := Z.shiftl 1 log_slots / ZONE_CAPACITY in
  let zone_id := counter / ZONE_CAPACITY in
  let zone_offset := Z.land counter (ZONE_CAPACITY - 1) in
  let zone_seg := permute_zone zone_id num_zones (perm_seed log_slots) in
  wrap 32 (zone_seg * ZONE_CAPACITY + zone_offset).

Fixpoint zone_hints (count : nat) (log_slots counter : Z) : list Z :=
  match count with
  | O => []
  | S count => zone_hint log_slots counter :: zone_hints count log_slots (wrapping_add 64 counter 1)
  end.

Definition generate_slot_hints (alloc_counter log_slots : Z) (count : nat) : list Z :=
  let num_slots := Z.shiftl 1 log_slots in
  if num_slots <=? ZONE_CAPACITY then uniform_hints count (num_slots - 1) alloc_counter
  else zone_hints count log_slots alloc_counter.

(** [None] is the failed conversion to [u16]. *)
Definition zone_segment (log_slots first_zone : Z) (offset : nat) : option Z :=
  let num_zones := Z.shiftl 1 (log_slots - 16) in
  let segment := permute_zone (wrapping_add 64 first_zone (Z.of_nat offset)) num_zones (perm_seed log_slots) in
  if segment <? 2 ^ 16 then Some segment else None.

Definition generate_zone_segment_hints (alloc_counter log_slots : Z) (count : nat) : option (list Z) :=
  if decide (count = 0%nat) then Some []
  else if log_slots <=? 16 then Some [0]
  else
    let num_zones := Z.shiftl 1 (log_slots - 16) in
    let limit := Nat.min count (Z.to_nat num_zones) in
    let first_zone := alloc_counter / ZONE_CAPACITY in
    mapM (zone_segment log_slots first_zone) (seq 0 limit).

(** [seen] starts as the reserved slots. *)
Fixpoint filter_fresh (seen : gset Z) (hints : list Z) : list Z :=
  match hints with
  | [] => []
  | s :: hints => if decide (s ∈ seen) then filter_fresh seen hints else s :: filter_fresh ({[s]} ∪ seen) hints
  end.

Definition deduplicate_hints (hints reserved : list Z) : list Z := filter_fresh (list_to_set reserved) hints.

Definition alloc_counter_increment (n_outputs : Z) : Z := n_outputs.

(** ** Odd multipliers *)

Lemma odd_divides (k : nat) c d : Z.odd c = true → (2 ^ Z.of_nat k | d * c) → (2 ^ Z.of_nat k | d).
Proof.
  intros Hc. revert d. induction k as [|k IH]; intros d Hd; [apply Z.divide_1_l|].
  replace (2 ^ Z.of_nat (S k)) with (2 * 2 ^ Z.of_nat k) in * by (rewrite Nat2Z.inj_succ, Z.pow_succ_r; lia).
  assert (Z.even d = true) as He.
  { destruct Hd as [q Hq]. assert (Z.even (d * c) = true) as H by (rewrite Hq, !Z.even_mul; cbn; apply orb_true_r).
    rewrite Z.even_mul in H. apply orb_true_iff in H as [H|H]; [done|]. rewrite <- Z.negb_odd, Hc in H. done. }
  apply Z.even_spec in He as [e ->]. apply Z.mul_divide_mono_l, IH.
  rewrite <- Z.mul_assoc in Hd. by apply Z.mul_divide_cancel_l in Hd.
Qed.

Lemma mod_mul_odd_inj (k : nat) c b x y :
  Z.odd c = true → (x * c + b) mod 2 ^ Z.of_nat k = (y * c + b) mod 2 ^ Z.of_nat k →
  x mod 2 ^ Z.of_nat k = y mod 2 ^ Z.of_nat k.
Proof.
  intros Hc E. assert (2 ^ Z.of_nat k ≠ 0) as Hp by lia.
  assert (2 ^ Z.of_nat k | (x - y) * c) as Hd.
  { apply Z.mod_divide; [done|]. replace ((x - y) * c) with (x * c + b - (y * c + b)) by ring.
    by rewrite Zminus_mod, E, Z.sub_diag. }
  apply odd_divides, Z.mod_divide in Hd; [|done..]. rewrite <- (Z.sub_add y x) at 1.
  by rewrite <- Z.add_mod_idemp_l, Hd.
Qed.

Lemma lor_1_odd x : Z.odd (Z.lor x 1) = true.
Proof. rewrite <- Z.bit0_odd, Z.lor_spec. apply orb_true_r. Qed.

(** splitmix64 is injective on the states. *)
Lemma splitmix64_inj x y : is_u64 x → is_u64 y → snd (splitmix64 x) = snd (splitmix64 y) → x = y.
Proof.
  assert (∀ n c u v, 0 < n → Z.odd c = true → is_u64 u → is_u64 v →
    wrapping_mul 64 (Z.lxor u (Z.shiftr u n)) c = wrapping_mul 64 (Z.lxor v (Z.shiftr v n)) c → u = v) as Hstep.
  { intros n c u v Hn Hc Hu Hv E. apply (xorshift_inj n); [done|apply Hu|apply Hv|].
    assert (∀ w, is_u64 w → is_u64 (Z.lxor w (Z.shiftr w n))) as Hw.
    { intros w [H0 H1]. apply lxor_range; [lia|done|]. rewrite Z.shiftr_div_pow2 by lia.
      split; [apply Z.div_pos; lia|]. eapply Z.le_lt_trans; [|exact H1]. apply Z.div_le_upper_bound; nia. }
    pose proof (Hw u Hu) as Hu'. pose proof (Hw v Hv) as Hv'. unfold wrapping_mul, wrap in E. unfold is_uint in *.
    rewrite <- (Z.mod_small (Z.lxor u _) (2 ^ 64)), <- (Z.mod_small (Z.lxor v _) (2 ^ 64)) by done.
    apply (mod_mul_odd_inj 64 c 0); [done|]. by rewrite !Z.add_0_r. }
  intros Hx Hy E. unfold splitmix64 in E. cbn [snd] in E. unfold wrapping_add in E.
  assert (∀ w, is_u64 (wrap 64 w)) as HW by (intros w; by apply wrap_range).
  apply xorshift_inj in E; [|lia|apply HW..]. apply Hstep in E; [|lia|done|apply HW..]. apply Hstep in E; [|lia|done|apply HW..].
  unfold wrap in E. unfold is_uint in *. rewrite <- (Z.mod_small x (2 ^ 64)), <- (Z.mod_small y (2 ^ 64)) by done.
  apply (mod_mul_odd_inj 64 1 0x9e3779b97f4a7c15); [done|]. by rewrite !Z.mul_1_r.
Qed.

(** ** The zone permutation *)

Lemma permute_zone_eq (k : nat) seed :
  (k ≤ 64)%nat → ∃ mul add, Z.odd mul = true ∧ ∀ zone_id,
  permute_zone zone_id (2 ^ Z.of_nat k) seed = (zone_id * mul + add) mod 2 ^ Z.of_nat k.
Proof.
  intros Hk. destruct (splitmix64 (Z.lxor seed 0xD1B54A32D192ED03)) as [s raw] eqn:E1.
  destruct (splitmix64 s) as [s' add] eqn:E2. exists (Z.lor raw 1), add. split; [apply lor_1_odd|]. intros z.
  unfold permute_zone. rewrite E1, E2. unfold wrapping_add, wrapping_mul, wrap.
  rewrite Z.add_mod_idemp_l by lia. rewrite Z.sub_1_r, <- Z.ones_equiv, Z.land_ones by lia.
  rewrite <- Znumtheory.Zmod_div_mod; [done|lia|lia|]. exists (2 ^ (64 - Z.of_nat k)). rewrite <- Z.pow_add_r by lia. f_equal. lia.
Qed.

Lemma permute_zone_range (k : nat) seed z : (k ≤ 64)%nat → 0 ≤ permute_zone z (2 ^ Z.of_nat k) seed < 2 ^ Z.of_nat k.
Proof. intros Hk. destruct (permute_zone_eq k seed Hk) as (mul & add & _ & ->). apply Z.mod_pos_bound. lia. Qed.

(** It depends on the zone modulo the number of zones, one to one. *)
Lemma permute_zone_inj (k : nat) seed z z' :
  (k ≤ 64)%nat → permute_zone z (2 ^ Z.of_nat k) seed = permute_zone z' (2 ^ Z.of_nat k) seed →
  z mod 2 ^ Z.of_nat k = z' mod 2 ^ Z.of_nat k.
Proof.
  intros Hk. destruct (permute_zone_eq k seed Hk) as (mul & add & Hodd & Heq). rewrite !Heq. by apply mod_mul_odd_inj.
Qed.

(** ** Consecutive counters *)

Lemma wrap_mod (k : nat) x : (k ≤ 64)%nat → wrap 64 x mod 2 ^ Z.of_nat k = x mod 2 ^ Z.of_nat k.
Proof.
  intros Hk. unfold wrap. symmetry. apply Znumtheory.Zmod_div_mod; [lia|lia|].
  exists (2 ^ (64 - Z.of_nat k)). rewrite <- Z.pow_add_r by lia. f_equal. lia.
Qed.

Lemma consecutive_mod_inj a i j n : 0 ≤ i < n → 0 ≤ j < n → (a + i) mod n = (a + j) mod n → i = j.
Proof.
  intros Hi Hj E. assert ((i - j) mod n = 0) as H.
  { replace (i - j) with ((a + i) - (a + j)) by ring. by rewrite Zminus_mod, E, Z.sub_diag. }
  apply Z.mod_divide in H as [q Hq]; [|lia]. assert (q = 0) by nia. lia.
Qed.

Lemma zone_hint_parts (k : nat) counter :
  (k ≤ 16)%nat → 0 ≤ counter →
  zone_hint (16 + Z.of_nat k) counter
  = permute_zone (counter / 2 ^ 16) (2 ^ Z.of_nat k) (perm_seed (16 + Z.of_nat k)) * 2 ^ 16 + counter mod 2 ^ 16.
Proof.
  intros Hk Hc. unfold zone_hint, ZONE_CAPACITY. rewrite !Z.shiftl_1_l.
  rewrite Z.pow_add_r, (Z.mul_comm (2 ^ 16)), Z.div_mul by lia. rewrite Z.sub_1_r, <- Z.ones_equiv, Z.land_ones by lia.
  apply wrap_small. pose proof (permute_zone_range k (perm_seed (16 + Z.of_nat k)) (counter / 2 ^ 16) ltac:(lia)) as Hr.
  pose proof (Z.mod_pos_bound counter (2 ^ 16)). assert (2 ^ Z.of_nat k ≤ 2 ^ 16) by (apply Z.pow_le_mono_r; lia). lia.
Qed.

Lemma zone_hint_inj (k : nat) c c' :
  (k ≤ 16)%nat → 0 ≤ c → 0 ≤ c' → zone_hint (16 + Z.of_nat k) c = zone_hint (16 + Z.of_nat k) c' →
  c mod 2 ^ (16 + Z.of_nat k) = c' mod 2 ^ (16 + Z.of_nat k).
Proof.
  intros Hk Hc Hc' E. rewrite !zone_hint_parts in E by done.
  set (p := permute_zone (c / 2 ^ 16) _ _) in E. set (p' := permute_zone (c' / 2 ^ 16) _ _) in E.
  pose proof (Z.mod_pos_bound c (2 ^ 16)). pose proof (Z.mod_pos_bound c' (2 ^ 16)).
  assert (p = p' ∧ c mod 2 ^ 16 = c' mod 2 ^ 16) as [Ep Em] by lia.
  apply permute_zone_inj in Ep; [|lia]. rewrite Z.pow_add_r by lia.
  rewrite !Z.rem_mul_r by lia. by rewrite Em, Ep.
Qed.

(** ** The hints *)

Lemma zone_hints_eq count log counter :
  zone_hints count log counter = (λ i, zone_hint log (wrap 64 (counter + Z.of_nat i))) <$> seq 0 count
  ∨ wrap 64 counter ≠ counter.
Proof.
  destruct (decide (wrap 64 counter = counter)) as [Hw|]; [left|by right]. revert counter Hw.
  induction count as [|count IH]; intros counter Hw; [done|]. cbn [zone_hints]. rewrite IH; [|unfold wrapping_add, wrap; by rewrite Z.mod_mod].
  cbn [seq fmap list_fmap]. rewrite Z.add_0_r, Hw. f_equal. rewrite <- fmap_S_seq, <- list_fmap_compose.
  apply list_fmap_ext. intros i n _. unfold compose, wrapping_add. f_equal. unfold wrap.
  rewrite Z.add_mod_idemp_l by lia. f_equal. lia.
Qed.

Lemma slot_hints_zone alloc (k : nat) count :
  (1 ≤ k)%nat → is_u64 alloc →
  generate_slot_hints alloc (16 + Z.of_nat k) count
  = (λ i, zone_hint (16 + Z.of_nat k) (wrap 64 (alloc + Z.of_nat i))) <$> seq 0 count.
Proof.
  intros Hk Ha. unfold generate_slot_hints, ZONE_CAPACITY. rewrite !Z.shiftl_1_l.
  rewrite (proj2 (Z.leb_gt _ _)) by (apply Z.pow_lt_mono_r; lia).
  destruct (zone_hints_eq count (16 + Z.of_nat k) alloc) as [H|H]; [done|]. by rewrite wrap_small in H.
Qed.

Lemma NoDup_fmap_seq {A} (f : nat → A) n :
  (∀ i j, (i < n)%nat → (j < n)%nat → f i = f j → i = j) → NoDup (f <$> seq 0 n).
Proof.
  intros Hf. apply NoDup_fmap_2_strong; [|apply NoDup_seq]. intros i j Hi Hj. apply elem_of_seq in Hi, Hj. apply Hf; lia.
Qed.

Lemma zone_segments_eq alloc (k : nat) count :
  (1 ≤ k ≤ 16)%nat →
  generate_zone_segment_hints alloc (16 + Z.of_nat k) count
  = Some ((λ i, permute_zone (wrap 64 (alloc / 2 ^ 16 + Z.of_nat i)) (2 ^ Z.of_nat k) (perm_seed (16 + Z.of_nat k)))
          <$> seq 0 (Nat.min count (2 ^ k))).
Proof.
  intros Hk. unfold generate_zone_segment_hints, ZONE_CAPACITY. case_decide as Hc; [by subst|].
  rewrite (proj2 (Z.leb_gt _ _)) by lia. rewrite !Z.shiftl_1_l. replace (16 + Z.of_nat k - 16) with (Z.of_nat k) by lia.
  replace (Z.to_nat (2 ^ Z.of_nat k)) with (2 ^ k)%nat by (change 2 with (Z.of_nat 2); by rewrite <- Nat2Z.inj_pow, Nat2Z.id).
  apply mapM_Some, Forall2_fmap_r, Forall_Forall2_diag, Forall_forall. intros i _. unfold zone_segment.
  replace (16 + Z.of_nat k - 16) with (Z.of_nat k) by lia. rewrite Z.shiftl_1_l. unfold wrapping_add.
  rewrite (proj2 (Z.ltb_lt _ _)); [done|].
  eapply Z.lt_le_trans; [apply permute_zone_range; lia|]. apply Z.pow_le_mono_r; lia.
Qed.

(** The probe order visits distinct segments, and all of them if it is long
    enough. *)
Lemma zone_segments_cover alloc (k count : nat) :
  (1 ≤ k ≤ 16)%nat →
  ∃ segments, generate_zone_segment_hints alloc (16 + Z.of_nat k) count = Some segments ∧ NoDup segments
     ∧ Forall (λ s, 0 ≤ s < 2 ^ Z.of_nat k) segments
     ∧ ((2 ^ k ≤ count)%nat → segments ≡ₚ seqZ 0 (2 ^ Z.of_nat k)).
Proof.
  intros Hk. rewrite zone_segments_eq by done. eexists. split; [done|].
  assert (Z.of_nat (2 ^ k) = 2 ^ Z.of_nat k) as Hpow by apply (Nat2Z.inj_pow 2 k).
  set (f := λ i, permute_zone (wrap 64 (alloc / 2 ^ 16 + Z.of_nat i)) (2 ^ Z.of_nat k) (perm_seed (16 + Z.of_nat k))).
  assert (NoDup (f <$> seq 0 (Nat.min count (2 ^ k)))) as Hnd.
  { apply NoDup_fmap_seq. intros i j Hi Hj E. apply permute_zone_inj in E; [|lia]. rewrite !wrap_mod in E by lia.
    apply consecutive_mod_inj in E; lia. }
  assert (Forall (λ s, 0 ≤ s < 2 ^ Z.of_nat k) (f <$> seq 0 (Nat.min count (2 ^ k)))) as Hf.
  { apply Forall_fmap, Forall_forall. intros i _. apply permute_zone_range. lia. }
  split_and!; [done|done|]. intros Hc. apply submseteq_length_Permutation.
  - apply NoDup_submseteq; [done|]. intros x Hx. apply elem_of_seqZ. rewrite Forall_forall in Hf. specialize (Hf x Hx). lia.
  - rewrite length_fmap, length_seq, length_seqZ. lia.
Qed.

(** The allocator's hints.  For a state of more than one segment the probe
    order over the segments never fails, lists distinct segments, and a full
    probe lists every segment exactly once; the slot hints lie inside the slot
    domain and up to a whole domain of consecutive hints never name a slot
    twice. *)
Theorem allocator_hints_distinct (alloc : Z) (k count : nat) (Halloc : is_u64 alloc) (Hk : (1 ≤ k ≤ 16)%nat) :
  let log_slots := 16 + Z.of_nat k in
  (∃ segments, generate_zone_segment_hints alloc log_slots count = Some segments ∧ NoDup segments
     ∧ Forall (λ s, 0 ≤ s < 2 ^ Z.of_nat k) segments
     ∧ ((2 ^ k ≤ count)%nat → segments ≡ₚ seqZ 0 (2 ^ Z.of_nat k)))
  ∧ Forall (λ s, 0 ≤ s < 2 ^ log_slots) (generate_slot_hints alloc log_slots count)
  ∧ (Z.of_nat count ≤ 2 ^ log_slots → NoDup (generate_slot_hints alloc log_slots count)).
Proof.
  intros log. split; [|split].
  - by apply zone_segments_cover.
  - unfold log. rewrite slot_hints_zone by (lia || done). apply Forall_fmap, Forall_forall. intros i _. unfold compose.
    pose proof (wrap_range 64 (alloc + Z.of_nat i) ltac:(lia)) as [Hw _]. rewrite zone_hint_parts by (lia || done).
    pose proof (permute_zone_range k (perm_seed (16 + Z.of_nat k)) (wrap 64 (alloc + Z.of_nat i) / 2 ^ 16) ltac:(lia)).
    pose proof (Z.mod_pos_bound (wrap 64 (alloc + Z.of_nat i)) (2 ^ 16)). rewrite Z.pow_add_r by lia. nia.
  - intros Hc. unfold log in *. rewrite slot_hints_zone by (lia || done). apply NoDup_fmap_seq. intros i j Hi Hj E.
    assert (∀ x, 0 ≤ wrap 64 x) as Hw by (intros x; apply wrap_range; lia).
    apply zone_hint_inj in E; [|lia|apply Hw|apply Hw]. replace (16 + Z.of_nat k) with (Z.of_nat (16 + k)) in * by lia.
    rewrite !wrap_mod in E by lia. apply consecutive_mod_inj in E; lia.
Qed.

Lemma allocator_hints_distinct_witness :
  NoDup (generate_slot_hints 12345 24 1000).
Proof.
  apply (allocator_hints_distinct 12345 8 1000); [split; [discriminate|reflexivity]|split; apply Nat.leb_le; reflexivity|discriminate].
Defined.
