(* ===== verification/EpochAnchor.v ===== *)
(** * Transaction epoch anchors

    [consensus/epoch_anchor.rs]: the decomposition of heights into epochs, the
    anchor heights of a child block, the anchors a block may carry and the
    accumulator transition that follows them block by block. *)

From S2P Require Import Prelude Machine Params Poseidon TxTypes BlockStream BlockHeader ClientObjects Consensus Block.

Record TxEpochHeightDecomposition := mkEpochDecomposition {
  ed_quotient : Z;
  ed_remainder : Z;
}.

Definition is_boundary (d : TxEpochHeightDecomposition) : bool := ed_remainder d =? 0.

Definition checked_tx_epoch_height_decomposition (height : Z) : option TxEpochHeightDecomposition :=
  let quotient := height / TX_EPOCH_BLOCKS in
  let remainder := height mod TX_EPOCH_BLOCKS in
  product ← checked_mul 64 quotient TX_EPOCH_BLOCKS;
  recomposed ← checked_add 64 product remainder;
  if negb (recomposed =? height) || (TX_EPOCH_BLOCKS <=? remainder) then None
  else if remainder <? 2 ^ 8 then Some (mkEpochDecomposition quotient remainder) else None.

Definition tx_epoch_anchor_height_for_child (child_height : Z) : Z :=
  if child_height =? 0 then 0 else (child_height - 1) / TX_EPOCH_BLOCKS * TX_EPOCH_BLOCKS.

Definition TX_EPOCH_ACCEPTED_ANCHORS : Z := 2.

Definition previous_tx_epoch_anchor_height_for_child (child_height : Z) : Z :=
  saturating_sub (tx_epoch_anchor_height_for_child child_height) TX_EPOCH_BLOCKS.

Definition tx_epoch_anchor_is_acceptable_for_child (child_height anchor_height : Z) : bool :=
  (anchor_height =? tx_epoch_anchor_height_for_child child_height)
  || (anchor_height =? previous_tx_epoch_anchor_height_for_child child_height).

Record AcceptedEpochAnchors := mkAcceptedAnchors {
  ea_current : list Z;
  ea_previous : list Z;
}.

Definition AcceptedEpochAnchors_single (anchor : list Z) : AcceptedEpochAnchors := mkAcceptedAnchors anchor anchor.

Definition accepts (a : AcceptedEpochAnchors) (anchor : list Z) (generation : HistoryStepPackGeneration) : bool :=
  bool_decide (anchor = ea_current a) || (binds_two_epoch_anchors generation && bool_decide (anchor = ea_previous a)).

Definition validate_block_epoch_anchors (block : Block) (user_epoch_anchor_id parent_id : list Z) : result ConsensusError unit :=
  try_for_each (λ tx,
    let expected := if tb_is_coinbase (tx_body tx) then parent_id else user_epoch_anchor_id in
    if bool_decide (tb_epoch_anchor (tx_body tx) ≠ expected)
    then Err (if tb_is_coinbase (tx_body tx) then CE_BadCoinbaseAnchor else CE_BadEpochAnchor)
    else Ok tt) (bk_transactions block).

Definition validate_block_epoch_anchors_in (block : Block) (accepted : AcceptedEpochAnchors) (parent_id : list Z)
    (generation : HistoryStepPackGeneration) : result ConsensusError unit :=
  if negb (binds_two_epoch_anchors generation) then validate_block_epoch_anchors block (ea_current accepted) parent_id
  else
    try_for_each (λ tx,
      if tb_is_coinbase (tx_body tx) then
        if bool_decide (tb_epoch_anchor (tx_body tx) ≠ parent_id) then Err CE_BadCoinbaseAnchor else Ok tt
      else if negb (accepts accepted (tb_epoch_anchor (tx_body tx)) generation) then Err CE_BadEpochAnchor else Ok tt)
      (bk_transactions block).

(** [None] is the failed [expect]. *)
Definition next_tx_epoch_anchor_id (start_anchor_id : list Z) (accepted_child_height : Z) (accepted_child_id : list Z) :
    option (list Z) :=
  d ← checked_tx_epoch_height_decomposition accepted_child_height;
  Some (if negb (accepted_child_height =? 0) && is_boundary d then accepted_child_id else start_anchor_id).

Section resolve.
  Context {P : Poseidon2bPermutation}.

Definition resolve_user_epoch_anchor_id (child_height : Z) (header_at : Z → option BlockHeader) : option (list Z) :=
  block_id <$> header_at (tx_epoch_anchor_height_for_child child_height).

Definition resolve_accepted_user_epoch_anchor_ids (child_height : Z) (header_at : Z → option BlockHeader) :
    option AcceptedEpochAnchors :=
  current ← block_id <$> header_at (tx_epoch_anchor_height_for_child child_height);
  previous ← block_id <$> header_at (previous_tx_epoch_anchor_height_for_child child_height);
  Some (mkAcceptedAnchors current previous).

End resolve.

(** ** The schedule *)

Lemma decomposition_total height :
  is_u64 height →
  checked_tx_epoch_height_decomposition height
  = Some (mkEpochDecomposition (height / TX_EPOCH_BLOCKS) (height mod TX_EPOCH_BLOCKS)).
Proof.
  intros Hh. unfold is_uint in Hh. unfold checked_tx_epoch_height_decomposition, TX_EPOCH_BLOCKS.
  pose proof (Z.div_mod height 32 ltac:(lia)) as Hd. pose proof (Z.mod_pos_bound height 32 ltac:(lia)) as Hm.
  rewrite (proj2 (checked_mul_Some 64 _ _ (height / 32 * 32))) by (split; [done|lia]). cbn [mbind option_bind].
  rewrite (proj2 (checked_add_Some 64 _ _ height)) by (split; lia). cbn [mbind option_bind].
  rewrite Z.eqb_refl, (proj2 (Z.leb_gt _ _)) by lia. cbn [negb orb]. by rewrite (proj2 (Z.ltb_lt _ _)) by lia.
Qed.

(** The accepted heights are the two multiples of the epoch length below the
    child. *)
Lemma acceptable_window child anchor :
  1 ≤ child → 0 ≤ anchor →
  tx_epoch_anchor_is_acceptable_for_child child anchor = true ↔
  anchor mod TX_EPOCH_BLOCKS = 0 ∧ anchor < child ≤ anchor + TX_EPOCH_ACCEPTED_ANCHORS * TX_EPOCH_BLOCKS.
Proof.
  intros Hc Ha. unfold tx_epoch_anchor_is_acceptable_for_child, previous_tx_epoch_anchor_height_for_child,
    tx_epoch_anchor_height_for_child, TX_EPOCH_ACCEPTED_ANCHORS, TX_EPOCH_BLOCKS, saturating_sub.
  rewrite (proj2 (Z.eqb_neq child 0)) by lia. rewrite orb_true_iff, !Z.eqb_eq.
  Z.to_euclidean_division_equations. lia.
Qed.

Lemma current_window child anchor :
  1 ≤ child → 0 ≤ anchor →
  anchor = tx_epoch_anchor_height_for_child child ↔
  anchor mod TX_EPOCH_BLOCKS = 0 ∧ anchor < child ≤ anchor + TX_EPOCH_BLOCKS.
Proof.
  intros Hc Ha. unfold tx_epoch_anchor_height_for_child, TX_EPOCH_BLOCKS.
  rewrite (proj2 (Z.eqb_neq child 0)) by lia. Z.to_euclidean_division_equations. lia.
Qed.

(** ** The accumulator follows the headers *)

Section chain.
  Context {P : Poseidon2bPermutation}.

(** The accumulator after the blocks above genesis have been accepted one by
    one. *)
Definition anchor_after (genesis : BlockHeader) (rest : list BlockHeader) : option (list Z) :=
  foldl (λ acc p, anchor ← acc; next_tx_epoch_anchor_id anchor (fst p) (block_id (snd p)))
    (Some (block_id genesis)) (imap (λ i h, (Z.of_nat (S i), h)) rest).

Definition headers_at (headers : list BlockHeader) : Z → option BlockHeader :=
  λ height, if height <? 0 then None else headers !! Z.to_nat height.

Lemma headers_at_nat headers n : headers_at headers (Z.of_nat n) = headers !! n.
Proof. unfold headers_at. rewrite (proj2 (Z.ltb_ge _ _)) by lia. by rewrite Nat2Z.id. Qed.

Lemma headers_at_app headers h z :
  z < Z.of_nat (length headers) → headers_at (headers ++ [h]) z = headers_at headers z.
Proof.
  intros Hz. unfold headers_at. destruct (Z.ltb_spec z 0); [done|]. apply lookup_app_l. lia.
Qed.

Lemma anchor_height_next height :
  1 ≤ height →
  tx_epoch_anchor_height_for_child (height + 1)
  = if height mod TX_EPOCH_BLOCKS =? 0 then height else tx_epoch_anchor_height_for_child height.
Proof.
  intros Hh. unfold tx_epoch_anchor_height_for_child, TX_EPOCH_BLOCKS.
  rewrite (proj2 (Z.eqb_neq (height + 1) 0)), (proj2 (Z.eqb_neq height 0)) by lia.
  destruct (Z.eqb_spec (height mod 32) 0); Z.to_euclidean_division_equations; lia.
Qed.

Lemma anchor_after_resolves genesis rest :
  Z.of_nat (length rest) < 2 ^ 64 →
  anchor_after genesis rest
  = resolve_user_epoch_anchor_id (Z.of_nat (length rest) + 1) (headers_at (genesis :: rest)).
Proof.
  induction rest as [|h rest IH] using rev_ind; intros Hlen; [reflexivity|].
  rewrite length_app in *. cbn [length] in *.
  unfold anchor_after. rewrite imap_app, foldl_app. fold (anchor_after genesis rest).
  rewrite IH by lia. cbn [imap foldl fst snd]. rewrite Nat.add_0_r.
  unfold resolve_user_epoch_anchor_id, next_tx_epoch_anchor_id.
  rewrite decomposition_total by (unfold is_uint; lia). cbn [mbind option_bind]. unfold is_boundary. cbn [ed_remainder].
  rewrite (proj2 (Z.eqb_neq (Z.of_nat (S _)) 0)) by lia. cbn [negb andb].
  replace (Z.of_nat (length rest + 1) + 1) with (Z.of_nat (S (length rest)) + 1) by lia.
  rewrite (anchor_height_next (Z.of_nat (S (length rest)))) by lia. rewrite app_comm_cons.
  replace (Z.of_nat (length rest) + 1) with (Z.of_nat (S (length rest))) by lia.
  set (height := Z.of_nat (S (length rest))) in *. assert (Hh : 1 ≤ height) by (unfold height; lia).
  assert (Hb : 0 ≤ tx_epoch_anchor_height_for_child height < Z.of_nat (length (genesis :: rest))).
  { cbn [length]. unfold tx_epoch_anchor_height_for_child, TX_EPOCH_BLOCKS.
    rewrite (proj2 (Z.eqb_neq height 0)) by lia. Z.to_euclidean_division_equations. lia. }
  destruct (headers_at (genesis :: rest) (tx_epoch_anchor_height_for_child height)) as [a|] eqn:Ha.
  - cbn [fmap option_fmap option_map mbind option_bind]. destruct (height mod TX_EPOCH_BLOCKS =? 0).
    + unfold height. rewrite headers_at_nat. change (S (length rest)) with (length (genesis :: rest)).
      by rewrite list_lookup_middle.
    + by rewrite headers_at_app, Ha by lia.
  - unfold headers_at in Ha. destruct (Z.ltb_spec (tx_epoch_anchor_height_for_child height) 0); [lia|].
    apply lookup_ge_None in Ha. lia.
Qed.

Lemma resolve_total genesis rest child :
  1 ≤ child ≤ Z.of_nat (length rest) + 1 →
  ∃ current previous,
    headers_at (genesis :: rest) (tx_epoch_anchor_height_for_child child) = Some current ∧
    headers_at (genesis :: rest) (previous_tx_epoch_anchor_height_for_child child) = Some previous ∧
    resolve_accepted_user_epoch_anchor_ids child (headers_at (genesis :: rest))
    = Some (mkAcceptedAnchors (block_id current) (block_id previous)).
Proof.
  intros Hc.
  assert (Hin : ∀ z, 0 ≤ z < child → is_Some (headers_at (genesis :: rest) z)).
  { intros z Hz. unfold headers_at. rewrite (proj2 (Z.ltb_ge _ _)) by lia. apply lookup_lt_is_Some. cbn [length]. lia. }
  assert (Hb : 0 ≤ tx_epoch_anchor_height_for_child child < child).
  { unfold tx_epoch_anchor_height_for_child, TX_EPOCH_BLOCKS. rewrite (proj2 (Z.eqb_neq child 0)) by lia.
    Z.to_euclidean_division_equations. lia. }
  destruct (Hin _ Hb) as [current Hcur].
  destruct (Hin (previous_tx_epoch_anchor_height_for_child child)) as [previous Hprev].
  { unfold previous_tx_epoch_anchor_height_for_child, saturating_sub, TX_EPOCH_BLOCKS. lia. }
  exists current, previous. unfold resolve_accepted_user_epoch_anchor_ids. by rewrite Hcur, Hprev.
Qed.

(** ** The rule for a block's anchors *)

(** A user page may name a canonical header at an epoch boundary, no further
    back than the lifetime of its generation. *)
Definition anchor_lifetime (generation : HistoryStepPackGeneration) : Z :=
  if binds_two_epoch_anchors generation then TX_EPOCH_ACCEPTED_ANCHORS * TX_EPOCH_BLOCKS else TX_EPOCH_BLOCKS.

Definition live_anchor (generation : HistoryStepPackGeneration) (headers : list BlockHeader) (anchor : list Z) : Prop :=
  ∃ height h, headers !! height = Some h ∧ anchor = block_id h ∧
    Z.of_nat height mod TX_EPOCH_BLOCKS = 0 ∧ Z.of_nat (length headers) ≤ Z.of_nat height + anchor_lifetime generation.

Lemma headers_at_Some headers z h :
  headers_at headers z = Some h → 0 ≤ z ∧ headers !! Z.to_nat z = Some h ∧ z < Z.of_nat (length headers).
Proof.
  unfold headers_at. destruct (Z.ltb_spec z 0); [done|]. intros Hl. split_and!; [done..|].
  apply lookup_lt_Some in Hl. lia.
Qed.

Lemma accepts_live generation genesis rest accepted anchor :
  let headers := genesis :: rest in
  resolve_accepted_user_epoch_anchor_ids (Z.of_nat (length headers)) (headers_at headers) = Some accepted →
  accepts accepted anchor generation = true ↔ live_anchor generation headers anchor.
Proof.
  intros headers Hres. set (child := Z.of_nat (length headers)) in *.
  assert (Hchild : 1 ≤ child) by (unfold child, headers; cbn [length]; lia).
  destruct (resolve_total genesis rest child) as (current & previous & Hcur & Hprev & Heq).
  { unfold child, headers. cbn [length]. lia. }
  fold headers in Hcur, Hprev, Heq. rewrite Heq in Hres. injection Hres as <-.
  destruct (headers_at_Some _ _ _ Hcur) as (Hc0 & Hcl & _), (headers_at_Some _ _ _ Hprev) as (Hp0 & Hpl & _).
  unfold accepts. cbn [ea_current ea_previous]. rewrite orb_true_iff, andb_true_iff, !bool_decide_eq_true. split.
  - intros [-> | [Hg ->]].
    + exists (Z.to_nat (tx_epoch_anchor_height_for_child child)), current. rewrite Z2Nat.id by done.
      destruct (proj1 (current_window child _ Hchild Hc0) eq_refl) as [Hm Hw].
      split_and!; [done..|]. fold child. unfold anchor_lifetime, TX_EPOCH_ACCEPTED_ANCHORS, TX_EPOCH_BLOCKS in *.
      destruct (binds_two_epoch_anchors generation); lia.
    + exists (Z.to_nat (previous_tx_epoch_anchor_height_for_child child)), previous. rewrite Z2Nat.id by done.
      destruct (proj1 (acceptable_window child _ Hchild Hp0)) as [Hm Hw].
      { unfold tx_epoch_anchor_is_acceptable_for_child. by rewrite Z.eqb_refl, orb_true_r. }
      split_and!; [done..|]. fold child. unfold anchor_lifetime. rewrite Hg. lia.
  - intros (height & h & Hl & -> & Hm & Hw). fold child in Hw. unfold anchor_lifetime in Hw.
    assert (Hlt : Z.of_nat height < child) by (apply lookup_lt_Some in Hl; unfold child; lia).
    rewrite <- headers_at_nat in Hl. destruct (binds_two_epoch_anchors generation).
    + pose proof (proj2 (acceptable_window child (Z.of_nat height) Hchild ltac:(lia)) (conj Hm (conj Hlt Hw))) as Hok.
      unfold tx_epoch_anchor_is_acceptable_for_child in Hok. rewrite orb_true_iff, !Z.eqb_eq in Hok.
      destruct Hok as [Hok | Hok]; rewrite Hok in Hl; [left | right; split; [done|]]; congruence.
    + left. pose proof (proj2 (current_window child (Z.of_nat height) Hchild ltac:(lia)) (conj Hm (conj Hlt Hw))) as Hok.
      rewrite Hok in Hl. congruence.
Qed.

Lemma validate_anchors_Ok block accepted parent_id generation :
  validate_block_epoch_anchors_in block accepted parent_id generation = Ok tt ↔
  Forall (λ tx, if tb_is_coinbase (tx_body tx) then tb_epoch_anchor (tx_body tx) = parent_id
                else accepts accepted (tb_epoch_anchor (tx_body tx)) generation = true) (bk_transactions block).
Proof.
  unfold validate_block_epoch_anchors_in, validate_block_epoch_anchors, accepts.
  destruct (binds_two_epoch_anchors generation); cbn [negb andb]; rewrite try_for_each_Ok;
    apply Forall_iff; intros tx; destruct (tb_is_coinbase (tx_body tx)).
  - case_bool_decide; split; try done; congruence.
  - destruct (bool_decide _ || bool_decide _); by split.
  - case_bool_decide; split; try done; congruence.
  - rewrite orb_false_r, bool_decide_eq_true. case_bool_decide; split; try done; congruence.
Qed.

(** C22: on a chain of headers from genesis, both anchors of the next block
    are found; the accumulator advanced block by block holds the current one;
    and a block's anchors are accepted exactly when every system body names
    the parent and every user page names the identity of a canonical header at
    an epoch boundary at most [anchor_lifetime] blocks below: 64 from v1.3 on,
    32 before. *)
Theorem epoch_anchor_rule_exact genesis rest generation :
  Z.of_nat (length rest) < 2 ^ 64 →
  let headers := genesis :: rest in
  ∃ accepted,
    resolve_accepted_user_epoch_anchor_ids (Z.of_nat (length headers)) (headers_at headers) = Some accepted ∧
    anchor_after genesis rest = Some (ea_current accepted) ∧
    ∀ block parent_id,
      validate_block_epoch_anchors_in block accepted parent_id generation = Ok tt ↔
      Forall (λ tx, if tb_is_coinbase (tx_body tx) then tb_epoch_anchor (tx_body tx) = parent_id
                    else live_anchor generation headers (tb_epoch_anchor (tx_body tx))) (bk_transactions block).
Proof.
  intros Hlen headers.
  destruct (resolve_total genesis rest (Z.of_nat (length headers))) as (current & previous & Hcur & _ & Heq).
  { unfold headers. cbn [length]. lia. }
  exists (mkAcceptedAnchors (block_id current) (block_id previous)). split_and!; [done| |].
  - rewrite anchor_after_resolves by done. unfold resolve_user_epoch_anchor_id.
    replace (Z.of_nat (length rest) + 1) with (Z.of_nat (length headers)) by (unfold headers; cbn [length]; lia).
    rewrite Hcur. cbn [fmap option_fmap option_map ea_current]. reflexivity.
  - intros block parent_id. rewrite validate_anchors_Ok. apply Forall_iff. intros tx.
    destruct (tb_is_coinbase (tx_body tx)); [done|]. by apply accepts_live.
Qed.

End chain.

Lemma epoch_anchor_rule_exact_witness :
  ∃ accepted,
    resolve_accepted_user_epoch_anchor_ids (P := example_permutation) (Z.of_nat (length [example_header]))
      (headers_at [example_header]) = Some accepted ∧
    anchor_after (P := example_permutation) example_header [] = Some (ea_current accepted).
Proof.
  destruct (epoch_anchor_rule_exact (P := example_permutation) example_header [] V1_6) as (accepted & Hres & Hacc & _).
  - vm_compute. reflexivity.
  - exists accepted. exact (conj Hres Hacc).
Defined.
