(* ===== verification/Receipt.v ===== *)
(** * Inclusion receipts

    [consensus/receipt.rs]: the receipt of a confirmed transaction, its
    generation, its offline check against the claimed root and its comparison
    with a canonical header.  [None] is a failed [expect] or [assert_eq!].  The
    serialisation of receipts by a third-party encoder is not modelled. *)

From S2P Require Import Prelude Machine Params Poseidon Merkle TxTypes TxWire PagedSpend PagedWire BlockStream BlockHeader TxTree ClientObjects Block.

Definition RECEIPT_CONSTRUCTION_MARKER : Z := 0x02.

Record TxSummary := mkTxSummary {
  sm_logical_txid : list Z;
  sm_inputs : list (Z * list Z);
  sm_outputs : list (Z * Z * list Z);
  sm_fee_micro_jtm : Z;
  sm_confirmed_height : Z;
  sm_confirmed_unix : Z;
}.

#[global] Instance TxSummary_eq_dec : EqDecision TxSummary.
Proof. solve_decision. Defined.

Record JetsamReceipt := mkJetsamReceipt {
  rc_construction_marker : Z;
  rc_paged_spend : list Z;
  rc_tx_index : Z;
  rc_tx_count : Z;
  rc_merkle_path : list (list Z);
  rc_claimed_root : list Z;
  rc_claimed_height : Z;
  rc_summary : TxSummary;
}.

(** The field widths of the record. *)
Definition receipt_wf (r : JetsamReceipt) : Prop :=
  byte_string (rc_paged_spend r) ∧ is_u16 (rc_tx_index r) ∧ is_u16 (rc_tx_count r)
  ∧ length (rc_merkle_path r) = TX_TREE_DEPTH.

Section receipt.
  Context {P : Poseidon2bPermutation}.

Definition logical_txid (intent : PagedSpendIntent) : list Z := hash_paged_spend_unchecked (pi_pages intent).

Definition summary_from_pages (pages : list TxPage) (confirmed_height confirmed_unix : Z) : option TxSummary :=
  facts ← result_ok (validate_paged_spend pages);
  Some (mkTxSummary (ps_logical_txid facts)
    (pages ≫= λ page, (λ p, (ti_slot_index (snd p), tb_input_owner (page_body page))) <$> live_inputs (page_body page))
    (pages ≫= λ page, (λ p, (to_slot_index (snd p), to_amount (snd p), to_owner (snd p))) <$> live_outputs (page_body page))
    (ps_fee facts) confirmed_height confirmed_unix).

Definition generate_receipt (header : BlockHeader) (pages : list Transaction) (tx_index : nat)
    (block_tx_hashes : list (list Z)) : option JetsamReceipt :=
  let pages := (λ transaction, mkTxPage (tx_body transaction)) <$> pages in
  intent ← result_ok (PagedSpendIntent_new pages []);
  let txid := logical_txid intent in
  if bool_decide (block_tx_hashes !! tx_index ≠ Some txid) then None
  else
    merkle_path ← path_from_hashes block_tx_hashes (Z.of_nat tx_index);
    summary ← summary_from_pages (pi_pages intent) (bh_height header) (bh_timestamp header);
    paged_spend ← result_ok (PagedSpendIntent_encode intent);
    Some (mkJetsamReceipt RECEIPT_CONSTRUCTION_MARKER paged_spend (wrap 16 (Z.of_nat tx_index))
            (wrap 16 (Z.of_nat (length block_tx_hashes))) merkle_path (bh_tx_root header) (bh_height header) summary).

Definition verify_merkle_inclusion (receipt : JetsamReceipt) : option bool :=
  if negb (rc_construction_marker receipt =? RECEIPT_CONSTRUCTION_MARKER) then Some false
  else
    match PagedSpendIntent_from_bytes (rc_paged_spend receipt) with
    | Err _ => Some false
    | Ok intent =>
        if bool_decide (pi_authorization_bytes intent ≠ []) then Some false
        else
          expected_summary ← summary_from_pages (pi_pages intent) (rc_claimed_height receipt)
                               (sm_confirmed_unix (rc_summary receipt));
          if bool_decide (rc_summary receipt ≠ expected_summary) then Some false
          else Some (verify_path (logical_txid intent) (rc_merkle_path receipt) (rc_tx_index receipt)
                       (Z.to_nat (rc_tx_count receipt)) (rc_claimed_root receipt))
    end.

Definition verify_against_header (receipt : JetsamReceipt) (canonical_header : BlockHeader) : bool :=
  (bh_height canonical_header =? rc_claimed_height receipt)
  && bool_decide (bh_tx_root canonical_header = rc_claimed_root receipt)
  && (bh_timestamp canonical_header =? sm_confirmed_unix (rc_summary receipt)).

Definition tx_root (tx_hashes : list (list Z)) : option (list Z) := root_from_hashes tx_hashes.

End receipt.

(** ** Encodings are byte strings *)

Lemma body_bytes_typed body : TxBody_wf body → byte_string (encode_page_body body).
Proof.
  intros (Ha & _ & Ho & _ & Hi & _ & Hout & _). unfold encode_page_body. rewrite !byte_string_app.
  split_and!; try apply to_le_bytes_bytes; [apply Ha|apply Ho| | |].
  - apply Forall_concat, Forall_fmap, Forall_true. intros i. unfold compose, TxInput_encode, put_u32, put_u64.
    rewrite !Forall_app. split_and!; apply to_le_bytes_bytes.
  - apply Forall_concat, Forall_fmap. eapply Forall_impl; [exact Hout|]. intros o Hwf. unfold compose, TxOutput_encode, put_u32, put_u64.
    rewrite !Forall_app. split_and!; [apply to_le_bytes_bytes..|]. apply Hwf.
  - apply Forall_singleton. unfold is_byte, is_uint. destruct (tb_is_coinbase body); cbn; lia.
Qed.

Lemma intent_bytes_typed intent : valid_intent intent → byte_string (intent_bytes intent).
Proof.
  intros (Hw & Hb & _). unfold intent_bytes. rewrite !byte_string_app.
  split_and!; try apply to_le_bytes_bytes; [|apply Forall_concat, Forall_fmap; eapply Forall_impl; [exact Hw|]|done].
  - apply Forall_singleton. unfold is_byte, is_uint, PAGED_SPEND_INTENT_MARKER. lia.
  - intros p Hp. by apply body_bytes_typed.
Qed.

(** ** Generation and verification *)

Section receipts.
  Context {P : Poseidon2bPermutation}.

Lemma summary_total pages first height unix :
  Forall page_wf pages → valid_group pages first →
  ∃ summary, summary_from_pages pages height unix = Some summary ∧ sm_confirmed_unix summary = unix.
Proof.
  intros Hw Hv. unfold summary_from_pages. rewrite (validate_paged_spend_complete _ _ Hw Hv). by eexists.
Qed.

Lemma empty_capsule_valid pages first :
  Forall page_wf pages → valid_group pages first → valid_intent (mkPagedSpendIntent pages []).
Proof. intros Hw Hv. split_and!; cbn; [done|constructor|by exists first|lia]. Qed.

Lemma verify_merkle_inclusion_true r :
  byte_string (rc_paged_spend r) →
  verify_merkle_inclusion r = Some true ↔
  rc_construction_marker r = RECEIPT_CONSTRUCTION_MARKER ∧
  ∃ pages first,
    Forall page_wf pages ∧ valid_group pages first ∧
    rc_paged_spend r = intent_bytes (mkPagedSpendIntent pages []) ∧
    summary_from_pages pages (rc_claimed_height r) (sm_confirmed_unix (rc_summary r)) = Some (rc_summary r) ∧
    verify_path (hash_paged_spend_unchecked pages) (rc_merkle_path r) (rc_tx_index r) (Z.to_nat (rc_tx_count r))
      (rc_claimed_root r) = true.
Proof.
  intros Hb. unfold verify_merkle_inclusion. destruct (Z.eqb_spec (rc_construction_marker r) RECEIPT_CONSTRUCTION_MARKER) as [Hm|Hm];
    cbn [negb]; [|split; [done|intros [? _]; done]].
  split.
  - destruct (PagedSpendIntent_from_bytes (rc_paged_spend r)) as [[pages auth]|] eqn:Hd; [|done].
    apply PagedSpendIntent_from_bytes_Ok in Hd as [Hvi Heq]; [|done]. cbn [pi_authorization_bytes pi_pages].
    case_bool_decide as Ha; [done|]. subst auth. intros Hs. apply bind_Some in Hs as (expected & Hs & H).
    case_bool_decide as He; [done|]. injection H as Hv. split; [done|].
    pose proof Hvi as (Hw & _ & (first & Hg) & _). exists pages, first. split_and!; [done..|congruence|exact Hv].
  - intros (_ & pages & first & Hw & Hg & Heq & Hs & Hv).
    rewrite (proj2 (PagedSpendIntent_from_bytes_Ok _ (mkPagedSpendIntent pages []) Hb))
      by (split; [by eapply empty_capsule_valid|done]).
    cbn [pi_authorization_bytes pi_pages]. rewrite bool_decide_false by (intros Hn; by apply Hn).
    rewrite Hs. cbn [mbind option_bind]. rewrite bool_decide_false by (intros Hn; by apply Hn). f_equal. exact Hv.
Qed.

Lemma verify_merkle_inclusion_total r : byte_string (rc_paged_spend r) → is_Some (verify_merkle_inclusion r).
Proof.
  intros Hb. unfold verify_merkle_inclusion. destruct (negb _); [done|].
  destruct (PagedSpendIntent_from_bytes (rc_paged_spend r)) as [[pages auth]|] eqn:Hd; [|done].
  apply PagedSpendIntent_from_bytes_Ok in Hd as [(Hw & _ & (first & Hg) & _) _]; [|done]. cbn [pi_authorization_bytes pi_pages] in *.
  case_bool_decide; [done|].
  destruct (summary_total pages first (rc_claimed_height r) (sm_confirmed_unix (rc_summary r)) Hw Hg) as (s & -> & _).
  cbn [mbind option_bind]. case_bool_decide; done.
Qed.

Lemma verify_against_header_iff r h :
  verify_against_header r h = true ↔
  rc_claimed_height r = bh_height h ∧ rc_claimed_root r = bh_tx_root h ∧ sm_confirmed_unix (rc_summary r) = bh_timestamp h.
Proof.
  unfold verify_against_header. rewrite !andb_true_iff, bool_decide_eq_true, !Z.eqb_eq. intuition congruence.
Qed.

Lemma compute_tx_root_Some txs hashes root :
  try_compute_logical_txids txs = Ok hashes → txs ≠ [] →
  compute_tx_root txs = Some root →
  hashes ≠ [] ∧ (length hashes ≤ TX_TREE_LEAVES)%nat ∧ root_from_hashes hashes = Some root.
Proof.
  intros Hh Hne Hr. unfold compute_tx_root, try_compute_tx_root in Hr. rewrite Hh in Hr. cbn [map_err mbind result_bind] in Hr.
  destruct (root_from_hashes hashes) as [root'|] eqn:He; cbn [expect result_ok] in Hr; [|done]. injection Hr as <-.
  assert (Hhne : hashes ≠ []).
  { intros ->. destruct txs as [|tx0 rest]; [done|]. unfold try_compute_logical_txids in Hh.
    apply bind_Ok in Hh as (stream & _ & Hh). discriminate. }
  split_and!; [done| |done]. unfold root_from_hashes in He. rewrite decide_False in He by done. by case_decide.
Qed.

Lemma generate_receipt_complete header pages i first hashes :
  let bodies := (λ transaction, mkTxPage (tx_body transaction)) <$> pages in
  (length hashes ≤ TX_TREE_LEAVES)%nat → root_from_hashes hashes = Some (bh_tx_root header) →
  Forall page_wf bodies → valid_group bodies first → hashes !! i = Some (hash_paged_spend_unchecked bodies) →
  ∃ r, generate_receipt header pages i hashes = Some r ∧ receipt_wf r ∧
       verify_merkle_inclusion r = Some true ∧ verify_against_header r header = true.
Proof.
  intros bodies Hlen Hroot Hw Hg Hi. pose proof (empty_capsule_valid _ _ Hw Hg) as Hvi.
  destruct (tx_path_complete hashes i _ Hlen Hi) as (root & path & Hr & Hp & Hpl & Hv).
  rewrite Hroot in Hr. injection Hr as <-.
  destruct (summary_total bodies first (bh_height header) (bh_timestamp header) Hw Hg) as (s & Hs & Hunix).
  pose proof (lookup_lt_Some _ _ _ Hi) as Hlt. unfold TX_TREE_LEAVES in Hlen.
  unfold generate_receipt. fold bodies.
  rewrite (proj2 (PagedSpendIntent_new_Ok bodies [] (mkPagedSpendIntent bodies []) Hw))
    by (split_and!; [done|by exists first|cbn; lia]).
  cbn [result_ok mbind option_bind]. unfold logical_txid. cbn [pi_pages]. rewrite bool_decide_false by (intros Hn; by apply Hn).
  rewrite Hp, Hs. cbn [mbind option_bind].
  rewrite (proj2 (PagedSpendIntent_encode_Ok (mkPagedSpendIntent bodies []) _ Hw (Forall_nil_2 _)) (conj Hvi eq_refl)).
  cbn [result_ok mbind option_bind]. eexists. split; [reflexivity|].
  rewrite !wrap_small by lia. unfold receipt_wf. split_and!; cbn [rc_paged_spend rc_tx_index rc_tx_count rc_merkle_path].
  - by apply intent_bytes_typed.
  - unfold is_uint. lia.
  - unfold is_uint. lia.
  - done.
  - apply verify_merkle_inclusion_true; [by apply intent_bytes_typed|]. split; [done|].
    exists bodies, first. cbn [rc_paged_spend rc_summary rc_claimed_height rc_claimed_root rc_merkle_path rc_tx_index rc_tx_count].
    rewrite Hunix, Nat2Z.id. split_and!; done.
  - apply verify_against_header_iff. cbn [rc_claimed_height rc_claimed_root rc_summary]. by rewrite Hunix.
Qed.

(** C21: receipts are complete and sound for a block whose header carries the
    root of its transactions.  Every page group of the block yields a receipt
    that verifies offline and against that header.  Verification is total, and
    a receipt it accepts holds a valid page group whose inputs, outputs and fee
    are those of the summary, confirmed at the header's height and time, and
    whose identifier is the block's leaf at the stated index, unless the root
    wrapper or a node of the path is a hash collision. *)
Theorem receipts_prove_inclusion header txs hashes
    (Htxs : txs ≠ []) (Hhashes : try_compute_logical_txids txs = Ok hashes)
    (Hroot : compute_tx_root txs = Some (bh_tx_root header)) :
  (∀ pages i first,
     let bodies := (λ transaction, mkTxPage (tx_body transaction)) <$> pages in
     Forall page_wf bodies → valid_group bodies first → hashes !! i = Some (hash_paged_spend_unchecked bodies) →
     ∃ r, generate_receipt header pages i hashes = Some r ∧ receipt_wf r ∧
          verify_merkle_inclusion r = Some true ∧ verify_against_header r header = true) ∧
  (∀ r, receipt_wf r →
     is_Some (verify_merkle_inclusion r) ∧
     (verify_merkle_inclusion r = Some true → verify_against_header r header = true →
      ∃ pages first, Forall page_wf pages ∧ valid_group pages first ∧
        rc_paged_spend r = intent_bytes (mkPagedSpendIntent pages []) ∧
        summary_from_pages pages (bh_height header) (bh_timestamp header) = Some (rc_summary r) ∧
        let leaf := hash_paged_spend_unchecked pages in
        (rc_tx_count r = Z.of_nat (length hashes) ∧ hashes !! Z.to_nat (rc_tx_index r) = Some leaf
         ∨ wrap_collision hashes leaf (rc_merkle_path r) (rc_tx_index r) (Z.to_nat (rc_tx_count r))
         ∨ ∃ k, (k < TX_TREE_DEPTH)%nat ∧
             path_collision compress (tx_leaf hashes) (rc_tx_index r) leaf (rc_merkle_path r) k))).
Proof.
  destruct (compute_tx_root_Some _ _ _ Hhashes Htxs Hroot) as (Hne & Hlen & Hr). split.
  - intros pages i first bodies. by apply generate_receipt_complete.
  - intros r (Hb & Hi & Hc & Hp). split; [by apply verify_merkle_inclusion_total|].
    intros Hv Hh. apply verify_merkle_inclusion_true in Hv as (_ & pages & first & Hw & Hg & He & Hs & Hv); [|done].
    apply verify_against_header_iff in Hh as (Hhh & Hhr & Hht). rewrite Hhh, Hht in Hs. rewrite Hhr in Hv.
    unfold is_uint in Hi, Hc. exists pages, first. split_and!; [done..|].
    destruct (tx_path_sound hashes _ _ _ _ _ Hne Hlen Hr (proj1 Hi) Hp Hv) as [[Hn Hl] | [Hcol | Hcol]];
      [left; split; [lia|done]|right; left; exact Hcol|right; right; exact Hcol].
Qed.

End receipts.

Definition receipt_header : BlockHeader :=
  mkBlockHeader (replicate 32 0x11) (replicate 32 0x22)
    (default zero_digest (compute_tx_root (P := example_permutation) example_block_txs)) 1700000000 100
    (replicate 32 0x44) 0 (replicate 32 0x77) 24 12345 99999.

Definition receipt_hashes : list (list Z) :=
  default [] (result_ok (try_compute_logical_txids (P := example_permutation) example_block_txs)).

Lemma example_group_valid : ∃ first, valid_group example_group first.
Proof.
  destruct (validate_paged_spend (P := example_permutation) example_group) as [facts|e] eqn:Hv;
    [|exfalso; revert Hv; vm_compute; discriminate].
  apply validate_paged_spend_sound in Hv as (first & Hv & _); [by exists first|].
  apply (bool_decide_unpack _). vm_compute. exact I.
Qed.

Lemma receipts_prove_inclusion_witness :
  ∃ r, generate_receipt (P := example_permutation) receipt_header (mkTransaction ∘ page_body <$> example_group) 2
         receipt_hashes = Some r ∧
       verify_merkle_inclusion (P := example_permutation) r = Some true ∧ verify_against_header r receipt_header = true.
Proof.
  destruct example_group_valid as [first Hg].
  destruct (receipts_prove_inclusion (P := example_permutation) receipt_header example_block_txs receipt_hashes) as [Hgen _].
  - discriminate.
  - vm_compute. reflexivity.
  - vm_compute. reflexivity.
  - destruct (Hgen (mkTransaction ∘ page_body <$> example_group) 2%nat first) as (r & Hr & _ & Hv & Hh).
    + apply (bool_decide_unpack _). vm_compute. exact I.
    + exact Hg.
    + vm_compute. reflexivity.
    + exists r. exact (conj Hr (conj Hv Hh)).
Defined.
