(* ===== verification/MintSlot.v ===== *)
(** * The slot of a system mint

    The search for empty slots in resident segments
    ([SegmentedFriState::empty_slot_hints_in_populated_segments] of
    [segmented_state.rs]) and the choice of the slot a coinbase or a
    development payout mints ([select_system_mint_slot] of
    [consensus/template.rs]).  [None] is an index out of range.  On a state with
    no evicted segment the search finds an empty unreserved slot exactly when
    there is one. *)

From S2P Require Import Prelude Machine Params Poseidon SlotState SlotInv SparseRoot ChainState ChainStateInv Allocator.

Section search.
  Context (st : SegmentedFriState).

(** [steps] slots of one segment, from [step] on.  The accumulator holds the
    slots seen and the slots found; the flag tells that enough are found. *)
Fixpoint scan_segment (steps : nat) (cols : SegmentColumns) (seg_id local_start step : Z) (count : nat)
    (acc : gset Z * list Z) : option (bool * (gset Z * list Z)) :=
  match steps with
  | O => Some (false, acc)
  | S steps =>
      let eff := Z.of_nat (sg_effective_log_seg st) in
      let local := Z.land (local_start + step) (Z.shiftl 1 eff - 1) in
      value ← cols_get cols local;
      let slot := Z.lor (Z.shiftl seg_id eff) local in
      if is_empty value && negb (bool_decide (slot ∈ fst acc)) then
        let acc := ({[slot]} ∪ fst acc, snd acc ++ [slot]) in
        if decide (length (snd acc) = count) then Some (true, acc)
        else scan_segment steps cols seg_id local_start (step + 1) count acc
      else scan_segment steps cols seg_id local_start (step + 1) count acc
  end.

Fixpoint scan_candidates (candidates : list Z) (rng : Z) (count : nat) (acc : gset Z * list Z) : option (list Z) :=
  match candidates with
  | [] => Some (snd acc)
  | seg_id :: candidates =>
      segment ← vec_get (sg_segments st) seg_id;
      match segment with
      | None => scan_candidates candidates rng count acc
      | Some cols =>
          let '(rng, raw) := splitmix64 rng in
          let local_start := Z.land raw (Z.shiftl 1 (Z.of_nat (sg_effective_log_seg st)) - 1) in
          '(finished, acc) ← scan_segment (segment_slot_count st) cols seg_id local_start 0 count acc;
          if finished : bool then Some (snd acc) else scan_candidates candidates rng count acc
      end
  end.

Definition is_resident (seg_id : nat) : bool :=
  match sg_segments st !! seg_id with Some (Some _) => true | _ => false end.

(** The resident segments that are neither empty nor full. *)
Definition populated_segments : list Z :=
  let full := Z.of_nat (segment_slot_count st) in
  (λ p, wrap 16 (Z.of_nat (fst p)))
  <$> filter (λ p : nat * Z, Is_true ((0 <? snd p) && (snd p <? full) && is_resident (fst p)))
        (imap pair (sg_live_counts st)).

Definition rotate_left {A} (l : list A) (n : nat) : list A := drop n l ++ take n l.

Definition empty_slot_hints_in_populated_segments (seed : Z) (count : nat) (reserved : gset Z) : option (list Z) :=
  if decide (count = 0%nat) then Some []
  else
    let candidates := populated_segments in
    if decide (candidates = []) then Some []
    else
      let '(rng, raw) := splitmix64 seed in
      let start := raw mod Z.of_nat (length candidates) in
      scan_candidates (rotate_left candidates (Z.to_nat start)) rng count (reserved, []).

(** Probes of a segment without live slots; [Some None] means none fits. *)
Fixpoint probe_segment (probes : nat) (reserved : gset Z) (base local_start step : Z) : option (option Z) :=
  match probes with
  | O => Some None
  | S probes =>
      let local_mask := Z.shiftl 1 (Z.of_nat (sg_effective_log_seg st)) - 1 in
      let candidate := Z.lor base (Z.land (local_start + step) local_mask) in
      if decide (candidate ∈ reserved) then probe_segment probes reserved base local_start (step + 1)
      else
        value ← slot st candidate;
        if is_empty value then Some (Some candidate)
        else probe_segment probes reserved base local_start (step + 1)
  end.

Fixpoint probe_segments (segments : list Z) (reserved : gset Z) (local_start : Z) : option (option Z) :=
  match segments with
  | [] => Some None
  | segment_id :: segments =>
      if negb (segment_live_count st segment_id =? 0) || is_evicted st segment_id
      then probe_segments segments reserved local_start
      else
        let base := Z.shiftl segment_id (Z.of_nat (sg_effective_log_seg st)) in
        let probes := Nat.min (segment_slot_count st) (S (size reserved)) in
        found ← probe_segment probes reserved base local_start 0;
        match found with
        | Some candidate => Some (Some candidate)
        | None => probe_segments segments reserved local_start
        end
  end.

End search.

Definition select_system_mint_slot (state : ChainState) (reuse_seed : Z) (reserved : gset Z) : option (option Z) :=
  let st := cs_state state in
  hints ← empty_slot_hints_in_populated_segments st reuse_seed 1 reserved;
  match hints with
  | candidate :: _ => Some (Some candidate)
  | [] =>
      let log_slots := Z.of_nat (sg_log_slots st) in
      let local_mask := Z.shiftl 1 (Z.of_nat (effective_log_segment_size st)) - 1 in
      let local_start :=
        if log_slots <=? 16 then default 0 (head (generate_slot_hints (cs_alloc_counter state) log_slots 1))
        else Z.land (cs_alloc_counter state) local_mask in
      segments ← generate_zone_segment_hints (cs_alloc_counter state) log_slots (sg_num_segments st);
      probe_segments st segments reserved local_start
  end.

(** ** What the search finds *)

Lemma land_mask x (eff : nat) : Z.land x (Z.shiftl 1 (Z.of_nat eff) - 1) = x mod 2 ^ Z.of_nat eff.
Proof. rewrite Z.shiftl_1_l, Z.sub_1_r, <- Z.ones_equiv, Z.land_ones by lia. done. Qed.

(** A segment with an empty slot is not full; one without live slots counts
    none. *)
Lemma live_below_full (eff : nat) m i :
  (∀ i v, m !! i = Some v → v ≠ EMPTY) → m_get m i = EMPTY →
  live_in_segment eff m (segment_of eff i) < 2 ^ Z.of_nat eff.
Proof.
  intros Hm He. pose proof (live_in_segment_bound eff (m_set m i (mkSlotValue 1 0 0)) (segment_of eff i)) as Hb.
  rewrite (live_in_segment_set eff m Hm) in Hb. rewrite decide_True in Hb by done.
  rewrite He in Hb. change (is_empty (mkSlotValue 1 0 0)) with false in Hb. change (is_empty EMPTY) with true in Hb. lia.
Qed.

Lemma live_zero_of_empty (eff : nat) m s :
  (∀ i v, m !! i = Some v → v ≠ EMPTY) → (∀ i, segment_of eff i = s → m_get m i = EMPTY) → live_in_segment eff m s = 0.
Proof.
  intros Hm He. unfold live_in_segment. enough (m_segment eff m s = ∅) as -> by by rewrite map_size_empty.
  apply map_empty. intros i. unfold m_segment. apply map_lookup_filter_None. right. intros v Hi Hs. cbn in Hs.
  apply (Hm i v Hi). specialize (He i Hs). unfold m_get in He. by rewrite Hi in He.
Qed.

Section found.
  Context (st : SegmentedFriState) (m : gmap Z SlotValue) (Hwf : state_wf st) (Hrep : represents st m)
    (reserved : gset Z).
  Notation eff := (sg_effective_log_seg st).

(** A slot a system body may mint: in the domain, in memory, empty and not
    reserved. *)
Definition mintable (i : Z) : Prop :=
  0 ≤ i < num_slots st ∧ segment_of eff i ∉ sg_evicted st ∧ m_get m i = EMPTY ∧ i ∉ reserved.

(** The [j]-th slot probed in a segment. *)
Definition probed (seg local_start j : Z) : Z := seg * 2 ^ Z.of_nat eff + (local_start + j) mod 2 ^ Z.of_nat eff.

Lemma probed_eq seg local_start j :
  Z.lor (Z.shiftl seg (Z.of_nat eff)) (Z.land (local_start + j) (Z.shiftl 1 (Z.of_nat eff) - 1)) = probed seg local_start j.
Proof. rewrite land_mask. apply lor_shiftl_add; [lia|]. apply Z.mod_pos_bound. lia. Qed.

Lemma probed_segment seg local_start j :
  segment_of eff (probed seg local_start j) = seg
  ∧ probed seg local_start j mod 2 ^ Z.of_nat eff = (local_start + j) mod 2 ^ Z.of_nat eff.
Proof.
  pose proof (Z.mod_pos_bound (local_start + j) (2 ^ Z.of_nat eff) ltac:(lia)). unfold probed, segment_of. split.
  - rewrite Z.add_comm, Z.div_add, Z.div_small by lia. lia.
  - rewrite Z.add_comm, Z.mod_add, Z.mod_mod by lia. done.
Qed.

Lemma probed_range seg local_start j :
  0 ≤ seg < Z.of_nat (sg_num_segments st) → 0 ≤ probed seg local_start j < num_slots st.
Proof.
  intros Hs. pose proof (Z.mod_pos_bound (local_start + j) (2 ^ Z.of_nat eff) ltac:(lia)).
  rewrite (num_slots_segments _ Hwf). unfold probed. nia.
Qed.

(** Every slot of a segment is probed within one turn. *)
Lemma probed_cover seg local_start i :
  segment_of eff i = seg → ∃ j, 0 ≤ j < 2 ^ Z.of_nat eff ∧ i = probed seg local_start j.
Proof.
  intros <-. exists ((i - local_start) mod 2 ^ Z.of_nat eff). split; [apply Z.mod_pos_bound; lia|].
  apply segment_local_eq with eff; [by rewrite (proj1 (probed_segment _ _ _))|].
  rewrite (proj2 (probed_segment _ _ _)), Z.add_mod_idemp_r by lia. f_equal. lia.
Qed.

Lemma probed_inj seg local_start j j' :
  0 ≤ j < 2 ^ Z.of_nat eff → 0 ≤ j' < 2 ^ Z.of_nat eff → probed seg local_start j = probed seg local_start j' → j = j'.
Proof. unfold probed. intros Hj Hj' E. apply (consecutive_mod_inj local_start j j' (2 ^ Z.of_nat eff)); [done..|lia]. Qed.

Lemma resident_cols seg cols :
  sg_segments st !! Z.to_nat seg = Some (Some cols) → 0 ≤ seg →
  0 ≤ seg < Z.of_nat (sg_num_segments st) ∧ seg ∉ sg_evicted st ∧
  ∀ local_start j, cols_get cols ((local_start + j) mod 2 ^ Z.of_nat eff) = Some (m_get m (probed seg local_start j)).
Proof.
  intros Hc Hs. pose proof (lookup_lt_Some _ _ _ Hc) as Hlt. rewrite (wf_segments _ Hwf) in Hlt.
  assert (Hrange : 0 ≤ seg < Z.of_nat (sg_num_segments st)) by lia.
  assert (Hev : seg ∉ sg_evicted st) by (intros He; apply (wf_resident _ Hwf) in He; congruence).
  split_and!; [lia..|done|]. intros local_start j. destruct (probed_segment seg local_start j) as [Hseg Hloc].
  pose proof (probed_range seg local_start j Hrange) as Hr.
  pose proof (rep_slot _ _ Hrep _ Hr) as Hslot. rewrite Hseg in Hslot. specialize (Hslot Hev).
  rewrite (slot_eq _ Hwf) in Hslot by done. rewrite Hseg, Hloc in Hslot.
  unfold vec_get in Hslot. rewrite (proj2 (Z.ltb_ge _ _)), Hc in Hslot by lia. exact Hslot.
Qed.

(** A scan for one slot stops at the first mintable slot it meets. *)
Lemma scan_segment_one steps cols seg local_start step :
  sg_segments st !! Z.to_nat seg = Some (Some cols) → 0 ≤ seg →
  (∃ i seen, mintable i ∧ scan_segment st steps cols seg local_start step 1 (reserved, []) = Some (true, (seen, [i])))
  ∨ (scan_segment st steps cols seg local_start step 1 (reserved, []) = Some (false, (reserved, []))
     ∧ ∀ j, step ≤ j < step + Z.of_nat steps → ¬ mintable (probed seg local_start j)).
Proof.
  intros Hc Hs. destruct (resident_cols _ _ Hc Hs) as (Hrange & Hev & Hget). revert step.
  induction steps as [|steps IH]; intros step; [right; split; [done|lia]|].
  cbn [scan_segment]. rewrite probed_eq, land_mask, Hget. cbn [mbind option_bind fst snd].
  destruct (is_empty (m_get m (probed seg local_start step)) && negb (bool_decide (probed seg local_start step ∈ reserved))) eqn:Ht.
  - left. apply andb_true_iff in Ht as [He Hr]. unfold is_empty in He. apply bool_decide_eq_true in He.
    apply negb_true_iff, bool_decide_eq_false in Hr. exists (probed seg local_start step). eexists. split; [|done].
    split_and!; [apply probed_range; done..| |done|done]. by rewrite (proj1 (probed_segment _ _ _)).
  - destruct (IH (step + 1)) as [Hf | [Hf Hn]]; [by left|]. right. split; [done|]. intros j Hj.
    destruct (decide (j = step)) as [->|]; [|apply Hn; lia]. intros (_ & _ & He & Hr).
    rewrite He, bool_decide_false in Ht by done. discriminate.
Qed.

Lemma segment_scanned seg local_start :
  (∀ j, 0 ≤ j < 2 ^ Z.of_nat eff → ¬ mintable (probed seg local_start j)) → ∀ i, segment_of eff i = seg → ¬ mintable i.
Proof. intros Hn i Hi. destruct (probed_cover seg local_start i Hi) as (j & Hj & ->). by apply Hn. Qed.

Lemma scan_candidates_one candidates rng :
  Forall (λ seg, 0 ≤ seg ∧ is_resident st (Z.to_nat seg) = true) candidates →
  (∃ i, mintable i ∧ scan_candidates st candidates rng 1 (reserved, []) = Some [i])
  ∨ (scan_candidates st candidates rng 1 (reserved, []) = Some []
     ∧ ∀ i, segment_of eff i ∈ candidates → ¬ mintable i).
Proof.
  intros Hf. revert rng. induction Hf as [|seg candidates [Hs Hres] _ IH]; intros rng.
  { right. split; [done|]. intros i Hi. by apply elem_of_nil in Hi. }
  cbn [scan_candidates]. unfold vec_get. rewrite (proj2 (Z.ltb_ge _ _)) by lia. unfold is_resident in Hres.
  destruct (sg_segments st !! Z.to_nat seg) as [[cols|]|] eqn:Hc; [|done..]. cbn [mbind option_bind].
  destruct (splitmix64 rng) as [rng' raw]. rewrite land_mask.
  set (local_start := raw mod 2 ^ Z.of_nat eff).
  destruct (scan_segment_one (segment_slot_count st) cols seg local_start 0 Hc Hs)
    as [(i & seen & Hi & ->) | [-> Hn]]; cbn [mbind option_bind].
  - left. by exists i.
  - destruct (IH rng') as [Hf' | [Hf' Hn']]; [by left|]. right. split; [done|]. intros i Hi.
    apply elem_of_cons in Hi as [Hi|Hi]; [|by apply Hn']. apply (segment_scanned seg local_start); [|done].
    intros j Hj. apply Hn. unfold segment_slot_count. rewrite Nat2Z.inj_pow. exact Hj.
Qed.

Lemma elem_of_populated seg :
  seg ∈ populated_segments st ↔
  ∃ live, 0 ≤ seg < Z.of_nat (sg_num_segments st) ∧ vec_get (sg_live_counts st) seg = Some live
    ∧ 0 < live < 2 ^ Z.of_nat eff ∧ is_resident st (Z.to_nat seg) = true.
Proof.
  pose proof (num_segments_bound _ Hwf) as Hnum. unfold populated_segments. rewrite list_elem_of_fmap.
  assert (Hfull : Z.of_nat (segment_slot_count st) = 2 ^ Z.of_nat eff) by (unfold segment_slot_count; by rewrite Nat2Z.inj_pow).
  rewrite Hfull. unfold vec_get. split.
  - intros ([i live] & -> & [Hp Hin]%list_elem_of_filter). cbn [fst snd] in *.
    apply list_elem_of_lookup in Hin as [i' Hin]. rewrite list_lookup_imap in Hin.
    destruct (sg_live_counts st !! i') as [live'|] eqn:Hl; [|done]. injection Hin as -> ->.
    pose proof (lookup_lt_Some _ _ _ Hl) as Hlt. rewrite (wf_live _ Hwf) in Hlt.
    apply Is_true_true, andb_true_iff in Hp as [Hp Hres]. apply andb_true_iff in Hp as [Hp0 Hp1].
    exists live. rewrite wrap_small by lia. rewrite (proj2 (Z.ltb_ge _ _)), Nat2Z.id by lia. split_and!; try done; lia.
  - intros (live & Hr & Hl & Hb & Hres). rewrite (proj2 (Z.ltb_ge _ _)) in Hl by lia.
    exists (Z.to_nat seg, live). cbn [fst snd]. rewrite Z2Nat.id by lia. rewrite wrap_small by lia. split; [done|].
    apply list_elem_of_filter. cbn [fst snd]. split.
    + apply Is_true_true. rewrite Hres, !andb_true_iff, !Z.ltb_lt. done.
    + apply list_elem_of_lookup. exists (Z.to_nat seg). by rewrite list_lookup_imap, Hl.
Qed.

Lemma hints_one seed :
  (∃ i, mintable i ∧ empty_slot_hints_in_populated_segments st seed 1 reserved = Some [i])
  ∨ (empty_slot_hints_in_populated_segments st seed 1 reserved = Some []
     ∧ ∀ i, segment_of eff i ∈ populated_segments st → ¬ mintable i).
Proof.
  unfold empty_slot_hints_in_populated_segments. rewrite decide_False by done. case_decide as Hne.
  { right. split; [done|]. intros i Hi. rewrite Hne in Hi. by apply elem_of_nil in Hi. }
  destruct (splitmix64 seed) as [rng raw]. set (start := Z.to_nat _).
  assert (Hperm : rotate_left (populated_segments st) start ≡ₚ populated_segments st).
  { unfold rotate_left. by rewrite Permutation_app_comm, take_drop. }
  destruct (scan_candidates_one (rotate_left (populated_segments st) start) rng) as [Hf | [Hf Hn]].
  - rewrite Hperm. apply Forall_forall. intros seg Hs. apply elem_of_populated in Hs as (live & Hr & _ & _ & Hres). split; [lia|done].
  - by left.
  - right. split; [done|]. intros i Hi. apply Hn. by rewrite Hperm.
Qed.

(** *** Probing segments without live slots *)

Lemma probe_one probes seg local_start step :
  0 ≤ seg < Z.of_nat (sg_num_segments st) → seg ∉ sg_evicted st →
  let base := Z.shiftl seg (Z.of_nat eff) in
  (∃ i, mintable i ∧ probe_segment st probes reserved base local_start step = Some (Some i))
  ∨ (probe_segment st probes reserved base local_start step = Some None
     ∧ ∀ j, step ≤ j < step + Z.of_nat probes → ¬ mintable (probed seg local_start j)).
Proof.
  intros Hs Hev base. revert step. induction probes as [|probes IH]; intros step; [right; split; [done|lia]|].
  cbn [probe_segment]. unfold base. rewrite probed_eq. fold base.
  pose proof (proj1 (probed_segment seg local_start step)) as Hseg. pose proof (probed_range seg local_start step Hs) as Hr.
  assert (Hnext : ¬ mintable (probed seg local_start step) →
    (∃ i, mintable i ∧ probe_segment st probes reserved base local_start (step + 1) = Some (Some i))
    ∨ (probe_segment st probes reserved base local_start (step + 1) = Some None
       ∧ ∀ j, step ≤ j < step + Z.of_nat (S probes) → ¬ mintable (probed seg local_start j))).
  { intros Hno. destruct (IH (step + 1)) as [Hf | [Hf Hn]]; [by left|]. right. split; [done|]. intros j Hj.
    destruct (decide (j = step)) as [->|]; [done|apply Hn; lia]. }
  case_decide as Hin; [apply Hnext; by intros (_ & _ & _ & ?)|].
  rewrite (rep_slot _ _ Hrep) by (by rewrite ?Hseg). cbn [mbind option_bind]. unfold is_empty. case_bool_decide as He.
  - left. exists (probed seg local_start step). split; [|done]. split_and!; [lia..| |done|done]. by rewrite Hseg.
  - apply Hnext. by intros (_ & _ & ? & _).
Qed.

(** One probe more than there are reserved slots is enough. *)
Lemma probes_enough seg local_start :
  0 ≤ seg < Z.of_nat (sg_num_segments st) → seg ∉ sg_evicted st → live_in_segment eff m seg = 0 →
  (∀ j, 0 ≤ j < Z.of_nat (Nat.min (segment_slot_count st) (S (size reserved))) → ¬ mintable (probed seg local_start j)) →
  ∀ i, segment_of eff i = seg → ¬ mintable i.
Proof.
  intros Hs Hev Hlive Hn. assert (Hfull : Z.of_nat (segment_slot_count st) = 2 ^ Z.of_nat eff)
    by (unfold segment_slot_count; by rewrite Nat2Z.inj_pow).
  destruct (decide (segment_slot_count st ≤ S (size reserved))%nat) as [Hle|Hgt].
  { apply (segment_scanned seg local_start). intros j Hj. apply Hn. lia. }
  exfalso. assert (Hsub : list_to_set (probed seg local_start <$> seqZ 0 (Z.of_nat (S (size reserved)))) ⊆ reserved).
  { intros x Hx. apply elem_of_list_to_set, list_elem_of_fmap in Hx as (j & -> & Hj%elem_of_seqZ).
    destruct (decide (probed seg local_start j ∈ reserved)) as [|Hout]; [done|]. exfalso. apply (Hn j); [lia|].
    pose proof (proj1 (probed_segment seg local_start j)) as Hseg.
    split_and!; [apply probed_range; done..|by rewrite Hseg| |done].
    by apply (live_in_segment_zero eff m) with seg. }
  apply subseteq_size in Hsub. rewrite size_list_to_set, length_fmap, length_seqZ in Hsub; [lia|].
  apply NoDup_fmap_2_strong, NoDup_seqZ. intros j j' Hj%elem_of_seqZ Hj'%elem_of_seqZ. apply probed_inj; lia.
Qed.

Lemma live_count_eq seg :
  0 ≤ seg < Z.of_nat (sg_num_segments st) → segment_live_count st seg = live_in_segment eff m seg.
Proof. intros Hs. unfold segment_live_count. by rewrite (rep_live _ _ Hrep). Qed.

Lemma probe_segments_one segments local_start :
  Forall (λ seg, 0 ≤ seg < Z.of_nat (sg_num_segments st)) segments →
  (∃ i, mintable i ∧ probe_segments st segments reserved local_start = Some (Some i))
  ∨ (probe_segments st segments reserved local_start = Some None
     ∧ ∀ i, segment_of eff i ∈ segments → live_in_segment eff m (segment_of eff i) = 0 → ¬ mintable i).
Proof.
  intros Hf. induction Hf as [|seg segments Hs _ IH].
  { right. split; [done|]. intros i Hi. by apply elem_of_nil in Hi. }
  cbn [probe_segments]. rewrite live_count_eq by done. unfold is_evicted.
  destruct (negb (live_in_segment eff m seg =? 0) || bool_decide (seg ∈ sg_evicted st)) eqn:Hskip.
  - destruct IH as [Hf' | [Hf' Hn]]; [by left|]. right. split; [done|]. intros i Hi Hl Hm.
    apply elem_of_cons in Hi as [Hi|Hi]; [|by apply (Hn i)]. subst seg. rewrite Hl in Hskip. cbn [Z.eqb negb orb] in Hskip.
    apply bool_decide_eq_true in Hskip. by destruct Hm as (_ & ? & _).
  - apply orb_false_iff in Hskip as [Hl Hev]. apply negb_false_iff, Z.eqb_eq in Hl. apply bool_decide_eq_false in Hev.
    destruct (probe_one (Nat.min (segment_slot_count st) (S (size reserved))) seg local_start 0 Hs Hev)
      as [(i & Hi & ->) | [-> Hn]]; cbn [mbind option_bind]; [left; by exists i|].
    destruct IH as [Hf' | [Hf' Hn']]; [by left|]. right. split; [done|]. intros i Hi Hl'.
    apply elem_of_cons in Hi as [Hi|Hi]; [|by apply Hn']. apply (probes_enough seg local_start Hs Hev Hl); [|done].
    intros j Hj. apply Hn. lia.
Qed.

(** A segment in memory that is neither probed nor searched is full. *)
Lemma searched_segments i :
  mintable i → segment_of eff i ∈ populated_segments st ∨ live_in_segment eff m (segment_of eff i) = 0.
Proof.
  intros (Hr & Hev & He & _). pose proof (segment_of_bound _ Hwf _ Hr) as Hs.
  assert (Hm : ∀ i v, m !! i = Some v → v ≠ EMPTY) by (intros ?? Hi; by apply (rep_dom _ _ Hrep) in Hi as [_ ?]).
  pose proof (live_in_segment_bound eff m (segment_of eff i)) as Hb.
  destruct (decide (live_in_segment eff m (segment_of eff i) = 0)) as [|Hl]; [by right|]. left.
  apply elem_of_populated. exists (live_in_segment eff m (segment_of eff i)).
  split_and!; [lia..|by apply (rep_live _ _ Hrep)|lia| |].
  - by apply live_below_full.
  - unfold is_resident. pose proof (rep_slot _ _ Hrep) as Hslot.
    destruct (sg_segments st !! Z.to_nat (segment_of eff i)) as [[cols|]|] eqn:Hc; [done|exfalso..].
    + apply Hl. apply live_zero_of_empty; [done|]. intros j Hj. destruct (decide (0 ≤ j < num_slots st)) as [Hjr|Hjr].
      * assert (Some EMPTY = Some (m_get m j)) as [= <-]; [|done]. rewrite <- Hslot; [|done|by rewrite Hj].
        rewrite (slot_eq _ Hwf) by done. unfold vec_get. rewrite Hj, (proj2 (Z.ltb_ge _ _)), Hc by lia. done.
      * unfold m_get. destruct (m !! j) eqn:Hmj; [|done]. by apply (rep_dom _ _ Hrep) in Hmj as [? _].
    + apply lookup_ge_None in Hc. rewrite (wf_segments _ Hwf) in Hc. lia.
Qed.

End found.

(** ** The choice of a slot *)

Section select.
  Context (state : ChainState) (m : gmap Z SlotValue) (Hwf : state_wf (cs_state state))
    (Hrep : represents (cs_state state) m).
  Notation st := (cs_state state).

(** The probe order covers the segments of the state. *)
Lemma segment_hints_cover alloc :
  ∃ segments, generate_zone_segment_hints alloc (Z.of_nat (sg_log_slots st)) (sg_num_segments st) = Some segments
    ∧ Forall (λ seg, 0 ≤ seg < Z.of_nat (sg_num_segments st)) segments
    ∧ ∀ seg, 0 ≤ seg < Z.of_nat (sg_num_segments st) → seg ∈ segments.
Proof.
  pose proof (wf_log _ Hwf) as Hlog. pose proof (wf_num _ Hwf) as Hnum. pose proof (wf_eff _ Hwf) as Heff.
  unfold LOG_SEGMENT_SIZE in Heff. destruct (decide (sg_log_slots st ≤ 16)%nat) as [Hle|Hgt].
  - assert (sg_num_segments st = 1%nat) as -> by (rewrite Hnum, Heff, Nat.min_l, Nat.sub_diag by lia; done).
    exists [0]. unfold generate_zone_segment_hints. rewrite decide_False by done. rewrite (proj2 (Z.leb_le _ _)) by lia.
    split_and!; [done|by apply Forall_singleton|]. intros seg Hseg. apply list_elem_of_singleton. lia.
  - set (k := (sg_log_slots st - 16)%nat).
    assert (Hk : Z.of_nat (sg_num_segments st) = 2 ^ Z.of_nat k).
    { rewrite Hnum, Heff, Nat.min_r by lia. fold k. by rewrite Nat2Z.inj_pow. }
    destruct (zone_segments_cover alloc k (sg_num_segments st)) as (segments & Hs & _ & Hf & Hall); [lia|].
    exists segments. replace (Z.of_nat (sg_log_slots st)) with (16 + Z.of_nat k) by lia. rewrite Hk.
    split_and!; [done..|]. intros seg Hseg. rewrite Hall by (apply Nat2Z.inj_le; rewrite Hk, Nat2Z.inj_pow; lia).
    apply elem_of_seqZ. lia.
Qed.

Lemma select_system_mint_slot_spec seed reserved :
  (∃ i, mintable st m reserved i ∧ select_system_mint_slot state seed reserved = Some (Some i))
  ∨ (select_system_mint_slot state seed reserved = Some None ∧ ∀ i, ¬ mintable st m reserved i).
Proof.
  unfold select_system_mint_slot.
  destruct (hints_one st m Hwf Hrep reserved seed) as [(i & Hi & ->) | [-> Hn]]; cbn [mbind option_bind]; [left; by exists i|].
  destruct (segment_hints_cover (cs_alloc_counter state)) as (segments & -> & Hf & Hall). cbn [mbind option_bind].
  lazymatch goal with |- context [probe_segments _ _ _ ?l] => set (local_start := l) end.
  destruct (probe_segments_one st m Hwf Hrep reserved segments local_start Hf) as [?|[-> Hn']]; [by left|]. right.
  split; [done|]. intros i Hi. destruct (searched_segments st m Hwf Hrep reserved i Hi) as [Hp|Hp]; [by apply (Hn i)|].
  apply (Hn' i); [|done..]. apply Hall. apply (segment_of_bound _ Hwf). apply Hi.
Qed.

(** C20: the search for the slot of a system mint never indexes out of range,
    and is exact: it returns an in-range, empty, unreserved slot of a segment in
    memory, and it returns none only when no such slot exists, whatever the
    seed, although it looks only at partly filled resident segments and, in
    segments without live slots, at one slot more than are reserved. *)
Theorem system_mint_slot_exact seed reserved :
  ∃ found, select_system_mint_slot state seed reserved = Some found ∧
    match found with
    | Some i => mintable st m reserved i
    | None => ∀ i, ¬ mintable st m reserved i
    end.
Proof.
  destruct (select_system_mint_slot_spec seed reserved) as [(i & Hi & Hs) | [Hs Hn]]; [by exists (Some i)|by exists None].
Qed.

End select.

Lemma system_mint_slot_exact_witness :
  ∃ cs i, with_log_slots (P := example_permutation) (C := example_commitment) 17 = Some cs
    ∧ select_system_mint_slot cs 5 {[3; 4]} = Some (Some i) ∧ mintable (cs_state cs) ∅ {[3; 4]} i.
Proof.
  destruct (with_log_slots_ok (P := example_permutation) (C := example_commitment) 17)
    as (cs & Hcs & Hinv & _); [lia|].
  destruct (system_mint_slot_exact cs ∅ (ci_wf _ _ Hinv) (ci_rep _ _ Hinv) 5 {[3; 4]}) as ([i|] & Hs & Hi).
  - exists cs, i. exact (conj Hcs (conj Hs Hi)).
  - exfalso. revert Hs. injection Hcs as <-. vm_compute. discriminate.
Defined.
