(* ===== verification/Template.v ===== *)
(** * Block templates

    [consensus/template.rs]: the record of a template and its conversions, the
    bounded selection of page groups, and the construction of a block from
    candidate transactions on a scratch copy of the parent's state.  [Panic] is
    a failed [expect] or index; texts inside errors are not carried. *)

From S2P Require Import Prelude Machine Params Emission Poseidon TxTypes PagedSpend Fees BlockStream SlotState SparseRoot ChainState BlockHeader TxTree ClientObjects Conflict Block Header MintSlot.

Record BlockTemplate := mkBlockTemplate {
  bt_coinbase : Transaction;
  bt_development_payout : option Transaction;
  bt_txs : list Transaction;
  bt_state_root : list Z;
  bt_tx_root : list Z;
  bt_active_slot_count : Z;
  bt_alloc_counter : Z;
  bt_log_slots : Z;
  bt_height : Z;
  bt_timestamp : Z;
  bt_miner_address : list Z;
  bt_difficulty_target : list Z;
  bt_prev_block_hash : list Z;
}.

Definition to_pow_header (t : BlockTemplate) (nonce : Z) : BlockHeader :=
  mkBlockHeader (bt_prev_block_hash t) (bt_state_root t) (bt_tx_root t) (bt_timestamp t) (bt_height t)
    (bt_miner_address t) nonce (bt_difficulty_target t) (bt_log_slots t) (bt_active_slot_count t) (bt_alloc_counter t).

Definition into_header (t : BlockTemplate) (nonce : Z) : BlockHeader :=
  mkBlockHeader (bt_prev_block_hash t) (bt_state_root t) (bt_tx_root t) (bt_timestamp t) (bt_height t)
    (bt_miner_address t) nonce (bt_difficulty_target t) (bt_log_slots t) (bt_active_slot_count t) (bt_alloc_counter t).

Definition all_txs (t : BlockTemplate) : list Transaction :=
  bt_coinbase t :: option_list (bt_development_payout t) ++ bt_txs t.

Definition n_txs (t : BlockTemplate) : nat :=
  1 + (if decide (is_Some (bt_development_payout t)) then 1 else 0) + length (bt_txs t).

Definition into_block (t : BlockTemplate) (nonce : Z) : Block :=
  mkBlock
    (mkBlockHeader (bt_prev_block_hash t) (bt_state_root t) (bt_tx_root t) (bt_timestamp t) (bt_height t)
       (bt_miner_address t) nonce (bt_difficulty_target t) (bt_log_slots t) (bt_active_slot_count t) (bt_alloc_counter t))
    (bt_coinbase t :: option_list (bt_development_payout t) ++ bt_txs t) [].

Record PreparedBlockStateCommit := mkPrepared {
  pc_parent_header : BlockHeader;
  pc_nonce_free_header : BlockHeader;
  pc_post_state : ChainState;
  pc_undo_log : BlockUndoLog;
}.

Inductive TemplateBuildError := NoCoinbaseSlot | StateApplyError.

(** ** Selection within the block's resources *)

Record TemplateResourceSelection := mkSelection {
  rs_system_record_count : Z;
  rs_system_output_count : Z;
  rs_user_page_count : Z;
  rs_logical_count : Z;
  rs_live_input_count : Z;
  rs_live_output_count : Z;
  rs_touched_slots : gset Z;
  rs_touched_segments : gset Z;
}.

Definition with_system_outputs (system_record_count system_output_count : Z) : TemplateResourceSelection :=
  mkSelection system_record_count system_output_count 0 0 0 0 ∅ ∅.

Definition touch_slot (acc : gset Z * gset Z) (slot : Z) : option (gset Z * gset Z) :=
  let '(touched_slots, touched_segments) := acc in
  if decide (slot ∈ touched_slots) then None
  else Some ({[slot]} ∪ touched_slots, {[Z.shiftr slot (Z.of_nat LOG_SEGMENT_SIZE)]} ∪ touched_segments).

(** [live_inputs.chain(live_outputs)] of every page. *)
Definition page_slots (pages : list Transaction) : list Z :=
  pages ≫= λ page, input_slots (tx_body page) ++ output_slots (tx_body page).

Definition touch_group_slots (slots : list Z) (acc : gset Z * gset Z) : option (gset Z * gset Z) :=
  foldl (λ acc slot, acc ← acc; touch_slot acc slot) (Some acc) slots.

Definition with_group (r : TemplateResourceSelection) (pages : list Transaction) (spend : PagedSpendFacts) :
    option TemplateResourceSelection :=
  user_page_count ← checked_add 64 (rs_user_page_count r) (Z.of_nat (length pages));
  logical_count ← checked_add 64 (rs_logical_count r) 1;
  live_input_count ← checked_add 64 (rs_live_input_count r) (ps_live_inputs spend);
  live_output_count ← checked_add 64 (rs_live_output_count r) (ps_live_outputs spend);
  with_records ← checked_add 64 user_page_count (rs_system_record_count r);
  with_outputs ← checked_add 64 live_output_count (rs_system_output_count r);
  user_actions ← checked_add 64 live_input_count live_output_count;
  actions ← checked_add 64 user_actions (rs_system_output_count r);
  if (BLOCK_MAX_USER_PAGES <? with_records) || (BLOCK_MAX_USER_PAGES <? logical_count)
     || (BLOCK_MAX_LIVE_INPUTS <? live_input_count) || (BLOCK_MAX_USER_OUTPUTS + 1 <? with_outputs)
     || (BLOCK_MAX_ACTIONS <? actions)
  then None
  else
    '(touched_slots, touched_segments) ← touch_group_slots (page_slots pages) (rs_touched_slots r, rs_touched_segments r);
    segments ← checked_add 64 (Z.of_nat (size touched_segments)) (rs_system_output_count r);
    if BLOCK_MAX_DISTINCT_SEGMENTS <? segments then None
    else Some (mkSelection (rs_system_record_count r) (rs_system_output_count r) user_page_count logical_count
                 live_input_count live_output_count touched_slots touched_segments).

Record CandidatePagedSpend := mkCandidate {
  cp_pages : list Transaction;
  cp_spend : PagedSpendFacts;
}.

(** Each group takes its pages from the front of the stream. *)
Fixpoint split_candidates (source : list Transaction) (groups : list PagedSpendGroupFacts) : list CandidatePagedSpend :=
  match groups with
  | [] => []
  | group :: groups =>
      let n := Z.to_nat (gf_page_count group) in
      mkCandidate (take n source) (gf_spend group) :: split_candidates (drop n source) groups
  end.

(** By fee, highest first, then by identifier. *)
Definition candidate_cmp (left right : CandidatePagedSpend) : comparison :=
  match Z.compare (ps_fee (cp_spend right)) (ps_fee (cp_spend left)) with
  | Eq =>
      let l := ps_logical_txid (cp_spend left) in
      let r := ps_logical_txid (cp_spend right) in
      if bytes_ltb l r then Lt else if bytes_ltb r l then Gt else Eq
  | c => c
  end.

Definition candidate_le (left right : CandidatePagedSpend) : Prop := candidate_cmp left right ≠ Gt.

#[global] Instance candidate_le_dec left right : Decision (candidate_le left right).
Proof. unfold candidate_le. apply _. Defined.

Definition sort_candidates (candidates : list CandidatePagedSpend) : list CandidatePagedSpend :=
  merge_sort candidate_le candidates.

Section template.
  Context {P : Poseidon2bPermutation} {C : SegmentCommitment}.

Definition group_breakdown (parent : BlockHeader) (spend : PagedSpendFacts) : FeeBreakdown :=
  fee_breakdown (ps_live_inputs spend) (ps_live_outputs spend) (bh_active_slot_count parent) (bh_log_slots parent).

Definition apply_page (scratch : ChainState) (page : Transaction) : result (fault TemplateBuildError) ChainState :=
  map_fault (λ _, StateApplyError) (apply_tx_checked_deferred_root scratch (tx_body page) None).

Definition apply_system (child_height : Z) (scratch : ChainState) (tx : Transaction) :
    result (fault TemplateBuildError) ChainState :=
  map_fault (λ _, StateApplyError) (apply_tx_checked_deferred_root scratch (tx_body tx) (Some child_height)).

(** The selection loop: groups that do not fit or pay too little are skipped. *)
Fixpoint select_groups (parent : BlockHeader) (candidates : list CandidatePagedSpend) (resources : TemplateResourceSelection)
    (scratch : ChainState) (winners : list CandidatePagedSpend) :
    result (fault TemplateBuildError) (list CandidatePagedSpend) :=
  match candidates with
  | [] => Ok winners
  | group :: candidates =>
      match with_group resources (cp_pages group) (cp_spend group) with
      | None => select_groups parent candidates resources scratch winners
      | Some next_resources =>
          let required := fb_required_total (group_breakdown parent (cp_spend group)) in
          if ps_fee (cp_spend group) <? required then select_groups parent candidates resources scratch winners
          else
            scratch ← try_fold apply_page scratch (cp_pages group);
            select_groups parent candidates next_resources scratch (winners ++ [group])
      end
  end.

Definition expand_scratch (state : ChainState) (should_expand : bool) : result (fault TemplateBuildError) ChainState :=
  if should_expand then expect (expand_one state) else Ok state.

Definition mint_slot (scratch : ChainState) (seed : Z) (reserved : gset Z) : result (fault TemplateBuildError) Z :=
  found ← expect (select_system_mint_slot scratch seed reserved);
  ok_or found (Fail NoCoinbaseSlot).

(** The coinbase slot, and the two slots of a due payout. *)
Definition select_system_slots (scratch : ChainState) (seed : Z) (payout_due : bool) (reserved : gset Z) :
    result (fault TemplateBuildError) (Z * option (Z * Z)) :=
  coinbase ← mint_slot scratch seed reserved;
  let reserved := {[coinbase]} ∪ reserved in
  if payout_due then
    first ← mint_slot scratch seed reserved;
    second ← mint_slot scratch seed ({[first]} ∪ reserved);
    Ok (coinbase, Some (first, second))
  else Ok (coinbase, None).

(** At most 255 groups claim at most [2^64] each, so the 128-bit sum is exact. *)
Definition claimable_sum (parent : BlockHeader) (winners : list CandidatePagedSpend) : Z :=
  sum_Z ((λ group, saturating_sub (ps_fee (cp_spend group)) (fb_burned (group_breakdown parent (cp_spend group)))) <$> winners).

Definition coinbase_tx (prev_block_hash miner_address : list Z) (coinbase_slot coinbase_value : Z) : Transaction :=
  mkTransaction (mkTxBody prev_block_hash 0 zero_digest (replicate TX_INPUTS TxInput_dummy)
    [mkTxOutput coinbase_slot coinbase_value miner_address; TxOutput_dummy] (Z.shiftl 1 (Z.of_nat TX_INPUTS)) true).

Definition payout_tx (prev_block_hash : list Z) (network_slot lab_slot amount : Z) : Transaction :=
  mkTransaction (mkTxBody prev_block_hash 0 zero_digest (replicate TX_INPUTS TxInput_dummy)
    [mkTxOutput network_slot amount NETWORK_FUND_ADDRESS; mkTxOutput lab_slot amount LAB_FUND_ADDRESS]
    (Z.lor (output_bitmap_bit 0) (output_bitmap_bit 1)) true).

Definition development_payout_tx (prev_block_hash : list Z) (payout_each : option Z) (slots : option (Z * Z)) :
    result (fault TemplateBuildError) (option Transaction) :=
  match payout_each with
  | None => Ok None
  | Some amount =>
      '(network_slot, lab_slot) ← expect slots;
      Ok (Some (payout_tx prev_block_hash network_slot lab_slot amount))
  end.

(** The replay in block order: system mints, then users. *)
Definition replay (child_height : Z) (scratch : ChainState) (coinbase : Transaction) (payout : option Transaction)
    (winners : list CandidatePagedSpend) : result (fault TemplateBuildError) ChainState :=
  scratch ← apply_system child_height scratch coinbase;
  scratch ← try_fold (apply_system child_height) scratch (option_list payout);
  try_fold (λ scratch group, try_fold apply_page scratch (cp_pages group)) scratch winners.

Definition build_block_template_with_post_state (parent : BlockHeader) (state : ChainState)
    (finalized_active_counts : list Z) (candidate_txs : list Transaction) (miner_address : list Z) (timestamp : Z)
    (difficulty_target : list Z) : result (fault TemplateBuildError) (BlockTemplate * ChainState) :=
  child_height ← ok_or (checked_add 64 (bh_height parent) 1) (Fail StateApplyError);
  stream ← map_err (λ _, Fail StateApplyError) (validate_paged_spend_stream_in candidate_txs V1);
  let candidates := sort_candidates (split_candidates candidate_txs (sf_groups stream)) in
  let new_log_slots := expected_child_log_slots (bh_height parent) (bh_log_slots parent) finalized_active_counts in
  let should_expand := negb (new_log_slots =? bh_log_slots parent) in
  allocation ← map_err (λ _, Fail StateApplyError) (development_allocation child_height);
  let system_record_count := if da_payout_due allocation then 1 else 0 in
  let system_output_count := 1 + 2 * system_record_count in
  selection_scratch ← expand_scratch state should_expand;
  reserved_counter ← ok_or (checked_add 64 (cs_alloc_counter selection_scratch) system_output_count) (Fail StateApplyError);
  let selection_scratch := mkChainState (cs_state selection_scratch) (cs_utxo_root selection_scratch)
    (cs_active_slot_count selection_scratch) reserved_counter (cs_circulating_supply selection_scratch)
    (cs_exact_roots selection_scratch) in
  ordered_winners ← select_groups parent candidates (with_system_outputs system_record_count system_output_count)
                      selection_scratch [];
  scratch ← expand_scratch state should_expand;
  let reserved := list_to_set (ordered_winners ≫= λ group, page_slots (cp_pages group)) : gset Z in
  let seed := Z.lxor (cs_alloc_counter scratch) (from_le_bytes (take 8 (bh_state_root parent))) in
  '(coinbase_slot, development_slots) ← select_system_slots scratch seed (da_payout_due allocation) reserved;
  let coinbase_value := Z.min (da_miner_subsidy allocation + claimable_sum parent ordered_winners) (uint_max 64) in
  let prev_block_hash := block_id parent in
  let coinbase := coinbase_tx prev_block_hash miner_address coinbase_slot coinbase_value in
  development_payout ← development_payout_tx prev_block_hash (da_payout_each allocation) development_slots;
  scratch ← replay child_height scratch coinbase development_payout ordered_winners;
  '(state_root, scratch) ← map_fault (λ _, StateApplyError) (try_state_root scratch);
  let tx_hashes_for_root :=
    txid coinbase :: (txid <$> option_list development_payout)
    ++ ((λ group, ps_logical_txid (cp_spend group)) <$> ordered_winners) in
  tx_root ← expect (root_from_hashes tx_hashes_for_root);
  Ok (mkBlockTemplate coinbase development_payout (ordered_winners ≫= cp_pages) state_root tx_root
        (cs_active_slot_count scratch) (cs_alloc_counter scratch) new_log_slots child_height timestamp miner_address
        difficulty_target prev_block_hash, scratch).

Definition build_block_template (parent : BlockHeader) (state : ChainState) (finalized_active_counts : list Z)
    (candidate_txs : list Transaction) (miner_address : list Z) (timestamp : Z) (difficulty_target : list Z) :
    result (fault TemplateBuildError) BlockTemplate :=
  '(template, _) ← build_block_template_with_post_state parent state finalized_active_counts candidate_txs
                     miner_address timestamp difficulty_target;
  Ok template.

Definition build_node_owned_block_template (parent : BlockHeader) (state : ChainState) (finalized_active_counts : list Z)
    (candidate_txs : list Transaction) (miner_address : list Z) (timestamp : Z) (difficulty_target : list Z) :
    result (fault TemplateBuildError) (BlockTemplate * PreparedBlockStateCommit) :=
  '(template, post_state) ← build_block_template_with_post_state parent state finalized_active_counts candidate_txs
                              miner_address timestamp difficulty_target;
  let nonce_free_block := into_block template 0 in
  undo_log ← map_fault (λ _, StateApplyError) (build_undo_log state nonce_free_block);
  Ok (template, mkPrepared parent (bk_header nonce_free_block) post_state undo_log).

End template.
