(* ===== verification/TemplateProps.v ===== *)
(** * Templates pass validation

    A template built on the tip of a ledger is a block the validator accepts
    once its header carries an accepted clock, target and nonce: the page groups
    it selects form a valid stream within the block's limits, the system mints
    are the mandatory ones at fresh slots, the claimed value is within the
    ceiling, and applying the block yields the post-state the builder
    returned. *)

From Stdlib Require Import String.
From S2P Require Import Prelude Machine Params Emission Poseidon TxTypes TxWire PagedSpend Fees BlockStream Merkle SlotState SlotInv SparseRoot ChainState ChainStateInv ChainProps BlockHeader TxTree ClientObjects Consensus Conflict Block BlockProps Difficulty TowerWalk Pow Header Multiproof BlockWire Validation Supply ValidationProps Allocator MintSlot Template.

Lemma size_union_le (X Y : gset Z) : (size (X ∪ Y) ≤ size X + size Y)%nat.
Proof. rewrite size_union_alt. assert (size (Y ∖ X) ≤ size Y)%nat by (apply subseteq_size; set_solver). lia. Qed.

Lemma size_list_to_set_le (l : list Z) : (size (list_to_set l : gset Z) ≤ length l)%nat.
Proof.
  induction l as [|x l IH]; [by rewrite list_to_set_nil, size_empty|]. cbn [list_to_set length].
  pose proof (size_union_le {[x]} (list_to_set l)). rewrite size_singleton in *. lia.
Qed.

(** ** Slots touched by the selection *)

Lemma touch_group_slots_Some slots s g s' g' :
  touch_group_slots slots (s, g) = Some (s', g') →
  s' = list_to_set slots ∪ s ∧ g' = list_to_set (segment_index <$> slots) ∪ g ∧ NoDup slots ∧ (∀ i, i ∈ slots → i ∉ s).
Proof.
  unfold touch_group_slots. revert s g. induction slots as [|i slots IH]; intros s g H.
  { injection H as <- <-. split_and!; [set_solver|set_solver|constructor|set_solver]. }
  cbn [foldl mbind option_bind touch_slot] in H. case_decide as Hi.
  { exfalso. clear -H. induction slots; cbn in H; [done|auto]. }
  destruct (IH _ _ H) as (-> & -> & Hnd & Hdis). cbn [list_to_set fmap list_fmap]. split_and!.
  - set_solver.
  - unfold segment_index. set_solver.
  - constructor; [|done]. intros Hin. specialize (Hdis i Hin). set_solver.
  - intros j [->|Hj]%elem_of_cons; [done|]. specialize (Hdis j Hj). set_solver.
Qed.

(** ** Candidates *)

Section candidates.
  Context {P : Poseidon2bPermutation}.

(** The pages of a candidate form the valid group its facts describe. *)
Definition candidate_group (c : CandidatePagedSpend) (g : TxPage * list TxPage) : Prop :=
  Forall tx_wf (cp_pages c) ∧ tx_page <$> cp_pages c = group_pages g ∧ valid_group (group_pages g) (fst g)
  ∧ cp_spend c = group_facts (group_pages g) (fst g).

Lemma split_candidates_groups source start gs :
  Forall tx_wf source → Forall (λ g, valid_group (group_pages g) (fst g)) gs → tx_page <$> source = gs ≫= group_pages →
  Forall (λ c, ∃ g, candidate_group c g) (split_candidates source (stream_groups start gs)).
Proof.
  intros Hwf Hg. revert source start Hwf. induction Hg as [|g gs Hg _ IH]; intros source start Hwf Heq; [constructor|].
  cbn [stream_groups split_candidates gf_page_count gf_spend]. rewrite Nat2Z.id. rewrite bind_cons in Heq.
  set (n := length (group_pages g)).
  assert (Htake : tx_page <$> take n source = group_pages g) by (rewrite fmap_take, Heq; apply take_app_length).
  assert (Hdrop : tx_page <$> drop n source = gs ≫= group_pages) by (rewrite fmap_drop, Heq; apply drop_app_length).
  constructor; [|apply IH; [by apply Forall_drop|done]].
  exists g. split_and!; [by apply Forall_take|done..].
Qed.

Lemma candidates_groups candidates stream :
  Forall tx_wf candidates → validate_paged_spend_stream_in candidates V1 = Ok stream →
  Forall (λ c, ∃ g, candidate_group c g) (sort_candidates (split_candidates candidates (sf_groups stream))).
Proof.
  intros Hwf Hv. apply validate_stream_valid in Hv as (class & gs & Hs & ->); [|by apply Forall_fmap].
  unfold sort_candidates. rewrite merge_sort_Permutation. cbn [stream_facts sf_groups].
  apply split_candidates_groups; [done|apply Hs|symmetry; apply Hs].
Qed.

(** The groups of a list of candidates. *)
Lemma candidate_groups_list winners :
  Forall (λ c, ∃ g, candidate_group c g) winners → ∃ gs, Forall2 candidate_group winners gs.
Proof. induction 1 as [|c w [g Hg] _ [gs IH]]; [by exists []|]. exists (g :: gs). by constructor. Qed.

Lemma winners_pages winners gs :
  Forall2 candidate_group winners gs →
  tx_page <$> (winners ≫= cp_pages) = gs ≫= group_pages ∧ Forall (λ g, valid_group (group_pages g) (fst g)) gs
  ∧ Forall tx_wf (winners ≫= cp_pages) ∧ cp_spend <$> winners = (λ g, group_facts (group_pages g) (fst g)) <$> gs.
Proof.
  induction 1 as [|c g winners gs (Hwf & Hp & Hv & Hs) _ (IHp & IHv & IHw & IHs)]; [by split_and!|].
  rewrite !bind_cons, fmap_app. split_and!; [by rewrite Hp, IHp|by constructor|by apply Forall_app|cbn; by rewrite Hs, IHs].
Qed.

Lemma group_slots pages :
  page_slots pages ≡ₚ
  (ti_slot_index <$> group_inputs (tx_page <$> pages)) ++ (to_slot_index <$> group_outputs (tx_page <$> pages)).
Proof.
  induction pages as [|p pages IH]; [done|]. unfold page_slots in *. cbn [fmap list_fmap].
  unfold group_inputs, group_outputs in *. rewrite !bind_cons, !fmap_app, IH.
  rewrite <- !list_fmap_compose. change (tx_body p) with (page_body (tx_page p)). unfold input_slots, output_slots, compose.
  solve_Permutation.
Qed.

End candidates.

(** ** The selection *)

Section selection.
  Context {P : Poseidon2bPermutation} {C : SegmentCommitment} (parent : BlockHeader) (records outputs : Z).

Definition selected_pages (winners : list CandidatePagedSpend) : list Transaction := winners ≫= cp_pages.

(** The resources counted for the groups selected so far, within the limits. *)
Record selection_inv (r : TemplateResourceSelection) (winners : list CandidatePagedSpend) : Prop := {
  si_records : rs_system_record_count r = records;
  si_outputs : rs_system_output_count r = outputs;
  si_pages : rs_user_page_count r = Z.of_nat (length (selected_pages winners));
  si_inputs : rs_live_input_count r = sum_Z (ps_live_inputs <$> (cp_spend <$> winners));
  si_slots : rs_touched_slots r = list_to_set (page_slots (selected_pages winners));
  si_segments : rs_touched_segments r = list_to_set (segment_index <$> page_slots (selected_pages winners));
  si_distinct : NoDup (page_slots (selected_pages winners));
  si_page_limit : rs_user_page_count r + records ≤ BLOCK_MAX_USER_PAGES;
  si_input_limit : rs_live_input_count r ≤ BLOCK_MAX_LIVE_INPUTS;
  si_segment_limit : Z.of_nat (size (rs_touched_segments r)) + outputs ≤ BLOCK_MAX_DISTINCT_SEGMENTS;
}.

Lemma page_slots_app p1 p2 : page_slots (p1 ++ p2) = page_slots p1 ++ page_slots p2.
Proof. apply bind_app. Qed.

Lemma with_group_inv r winners c r' :
  selection_inv r winners → with_group r (cp_pages c) (cp_spend c) = Some r' → selection_inv r' (winners ++ [c]).
Proof.
  intros [Hr Ho Hp Hi Hs Hg Hnd _ _ _] H. unfold with_group in H.
  apply bind_Some in H as (pages & [-> _]%checked_add_Some & H). apply bind_Some in H as (logical & _ & H).
  apply bind_Some in H as (inputs & [-> _]%checked_add_Some & H). apply bind_Some in H as (outs & _ & H).
  apply bind_Some in H as (recs & [-> _]%checked_add_Some & H). apply bind_Some in H as (wo & _ & H).
  apply bind_Some in H as (ua & _ & H). apply bind_Some in H as (ac & _ & H).
  destruct (_ || _) eqn:Hlim in H; [done|]. rewrite !orb_false_iff, !Z.ltb_ge in Hlim.
  destruct Hlim as [[[[Hl1 _] Hl2] _] _]. apply bind_Some in H as ([slots segs] & Ht & H).
  apply bind_Some in H as (total & [-> _]%checked_add_Some & H). destruct (_ <? _) eqn:Hseg in H; [done|].
  apply Z.ltb_ge in Hseg. injection H as <-. apply touch_group_slots_Some in Ht as (-> & -> & Hnd' & Hdis).
  assert (Hsel : selected_pages (winners ++ [c]) = selected_pages winners ++ cp_pages c)
    by (unfold selected_pages; rewrite bind_app; cbn; by rewrite app_nil_r).
  constructor; cbn [rs_system_record_count rs_system_output_count rs_user_page_count rs_live_input_count rs_touched_slots
    rs_touched_segments]; rewrite ?Hsel, ?page_slots_app, ?length_app, ?fmap_app, ?list_to_set_app_L; try done.
  - lia.
  - rewrite sum_Z_app, Hi. cbn. lia.
  - rewrite Hs. apply union_comm_L.
  - rewrite Hg. apply union_comm_L.
  - apply NoDup_app. split_and!; [done| |done]. intros i Hi1 Hi2. apply (Hdis i Hi2). rewrite Hs. by apply elem_of_list_to_set.
  - lia.
  - rewrite <- Ho. exact Hseg.
Qed.

Definition pays (c : CandidatePagedSpend) : Prop := fb_required_total (group_breakdown parent (cp_spend c)) ≤ ps_fee (cp_spend c).

Lemma select_groups_inv candidates r scratch winners out (Q : CandidatePagedSpend → Prop) :
  selection_inv r winners → Forall (λ c, Q c ∧ pays c) winners → Forall Q candidates →
  select_groups parent candidates r scratch winners = Ok out →
  (∃ r', selection_inv r' out) ∧ Forall (λ c, Q c ∧ pays c) out.
Proof.
  intros Hinv Hw Hc. revert r scratch winners Hinv Hw. induction Hc as [|c candidates Hq _ IH]; intros r scratch winners Hinv Hw H.
  { injection H as <-. split; [by exists r|done]. }
  cbn [select_groups] in H. destruct (with_group r (cp_pages c) (cp_spend c)) as [r'|] eqn:Hg; [|by eapply IH].
  destruct (Z.ltb_spec (ps_fee (cp_spend c)) (fb_required_total (group_breakdown parent (cp_spend c)))) as [Hlt|Hge]; [by eapply IH|].
  apply bind_Ok in H as (scratch' & _ & H). eapply IH; [by eapply with_group_inv| |exact H].
  apply Forall_app. split; [done|]. by apply Forall_singleton.
Qed.

End selection.

Lemma initial_selection payout_due :
  let records := if payout_due : bool then 1 else 0 in
  selection_inv records (1 + 2 * records) (with_system_outputs records (1 + 2 * records)) [].
Proof.
  intros records. constructor; try done; try constructor; unfold with_system_outputs, records; cbn -[BLOCK_MAX_USER_PAGES];
    rewrite ?size_empty; unfold BLOCK_MAX_USER_PAGES, BLOCK_MAX_TXS, BLOCK_MAX_LIVE_INPUTS, BLOCK_MAX_DISTINCT_SEGMENTS; destruct payout_due; lia.
Qed.

(** ** The replay *)

Section replays.
  Context {P : Poseidon2bPermutation} {C : SegmentCommitment}.

Lemma apply_one_delta_geometry st d st' : apply_one_delta st d = Some st' → same_geometry st st'.
Proof.
  destruct d as [idx v]. unfold apply_one_delta. intros H. apply bind_Some in H as (old & _ & H).
  destruct (bool_decide (old = v)); [injection H as <-; reflexivity|].
  apply bind_Some in H as (current & _ & H). destruct (bool_decide (current = None) && is_empty v); [injection H as <-; reflexivity|].
  destruct (match current with Some _ => _ | None => _ end) as [cols evicted] in H.
  apply bind_Some in H as (cols' & _ & H). apply bind_Some in H as (live & _ & H).
  apply bind_Some in H as (lc & _ & H). destruct (if _ =? 0 then _ else _) as [entry evicted'] in H.
  apply bind_Some in H as (segs & _ & H). apply bind_Some in H as (roots & _ & H). injection H as <-. by constructor.
Qed.

Lemma apply_delta_geometry st deltas st' : apply_delta_unrooted st deltas = Ok st' → same_geometry st st'.
Proof.
  unfold apply_delta_unrooted, apply_delta_in_place. intros H. apply if_err_Ok in H as [_ H].
  eapply (try_fold_invariant (λ _ s, same_geometry st s)); [| |exact H]; [reflexivity|].
  intros l d s s' Hs _ Hd. apply expect_Ok, apply_one_delta_geometry in Hd. by etrans.
Qed.

(** A body that applies keeps the geometry and names slots of the domain. *)
Lemma apply_tx_geometry cs body height cs' :
  apply_tx_checked_deferred_root cs body height = Ok cs' →
  same_geometry (cs_state cs) (cs_state cs') ∧ Forall (λ i, i < num_slots (cs_state cs)) (body_slots body).
Proof.
  unfold apply_tx_checked_deferred_root. intros H. apply if_err_Ok in H as [_ H].
  apply bind_Ok in H as (ins & _ & H). apply bind_Ok in H as (outs & _ & H). apply bind_Ok in H as (deltas & Hin & H).
  apply bind_Ok in H as (active1 & _ & H). apply bind_Ok in H as (active2 & _ & H). apply bind_Ok in H as (alloc & _ & H).
  apply if_err_Ok in H as [_ H]. apply bind_Ok in H as ([cursor deltas'] & Hout & H).
  apply bind_Ok in H as (sup & _ & H). apply bind_Ok in H as (st & Hst & [= <-]). cbn [cs_state].
  apply map_err_Ok, apply_delta_geometry in Hst. split; [done|]. unfold body_slots. apply Forall_app.
  unfold input_slots, output_slots. rewrite !Forall_fmap. split.
  - eapply (try_fold_invariant (λ l _, Forall ((λ i, i < num_slots (cs_state cs)) ∘ (λ p : nat * TxInput, ti_slot_index (snd p))) l));
      [| |exact Hin]; [constructor|].
    intros l p acc acc' Hl _ Hp. apply Forall_app. split; [done|]. apply Forall_singleton.
    apply bind_Ok in Hp as (d & Hd & _). unfold spend_input in Hd. apply if_err_Ok in Hd as [Hd _].
    apply Z.leb_gt in Hd. exact Hd.
  - eapply (try_fold_invariant (λ l _, Forall ((λ i, i < num_slots (cs_state cs)) ∘ (λ p : nat * TxOutput, to_slot_index (snd p))) l));
      [| |exact Hout]; [constructor|].
    intros l p [a acc] acc' Hl _ Hp. apply Forall_app. split; [done|]. apply Forall_singleton.
    unfold mint_output in Hp. apply if_err_Ok in Hp as [Hd _]. apply Z.leb_gt in Hd. exact Hd.
Qed.

Lemma apply_bodies_geometry height cs bodies cs' :
  apply_bodies height cs bodies = Ok cs' →
  same_geometry (cs_state cs) (cs_state cs') ∧ Forall (λ i, i < num_slots (cs_state cs)) (bodies ≫= body_slots).
Proof.
  unfold apply_bodies. intros H.
  eapply (try_fold_invariant (λ l s, same_geometry (cs_state cs) (cs_state s)
    ∧ Forall (λ i, i < num_slots (cs_state cs)) (l ≫= body_slots))); [| |exact H]; [split; [reflexivity|constructor]|].
  intros l body s s' [Hg Hf] _ Hb. apply apply_tx_geometry in Hb as [Hg' Hf'].
  split; [by etrans|]. rewrite bind_app. apply Forall_app. split; [done|]. cbn. rewrite app_nil_r.
  by rewrite (same_geometry_num_slots _ _ Hg) in Hf'.
Qed.

Lemma apply_page_Ok height cs page cs' :
  tb_is_coinbase (tx_body page) = false →
  apply_page cs page = Ok cs' ↔ apply_tx_checked_deferred_root cs (tx_body page) (Some height) = Ok cs'.
Proof.
  intros Hc. unfold apply_page, map_fault. rewrite map_err_Ok.
  assert (Hs : is_primary_coinbase_shape (tx_body page) = false) by (unfold is_primary_coinbase_shape; by rewrite Hc).
  unfold apply_tx_checked_deferred_root, mint_output. rewrite Hc, Hs. done.
Qed.

End replays.

(** ** The pieces of a template *)

Lemma child_log_slots height log counts :
  0 ≤ log ≤ LOG_SLOTS_MAX →
  expected_child_log_slots height log counts = log
  ∨ expected_child_log_slots height log counts = log + 1 ∧ log + 1 ≤ LOG_SLOTS_MAX.
Proof.
  unfold LOG_SLOTS_MAX. intros Hl. unfold expected_child_log_slots, LOG_SLOTS_MAX, saturating_add, uint_max.
  destruct (finalized_expansion_window height); [|by left]. destruct (negb _); [by left|]. destruct (_ <? _); [|by left].
  destruct (decide (log = 32)) as [->|]; [by left|right; lia].
Qed.

Lemma allocation_bounds height d :
  0 ≤ height → development_allocation height = Ok d →
  0 ≤ da_miner_subsidy d ∧ (∀ amount, da_payout_each d = Some amount → is_u64 amount)
  ∧ (da_payout_due d = true ↔ is_Some (da_payout_each d)).
Proof.
  intros Hh. unfold development_allocation, development_allocation_with. intros H. apply if_err_Ok in H as [_ H].
  pose proof (block_reward_bound height Hh) as Hr. destruct (negb (development_allocation_active_with _ _)).
  { injection H as <-. cbn [da_miner_subsidy da_payout_each da_payout_due]. split_and!; [lia|done|]. split; [done|by intros [? ?]]. }
  apply bind_Ok in H as (share & Hs & H). unfold development_share_each in Hs. apply if_err_Ok in Hs as [_ [= <-]].
  apply bind_Ok in H as (each & He & [= <-]). cbn [da_miner_subsidy da_payout_each da_payout_due].
  assert (Hshare : 0 ≤ 2 * (block_reward height / DEVELOPMENT_SHARE_DENOMINATOR) ≤ block_reward height).
  { unfold DEVELOPMENT_SHARE_DENOMINATOR. Z.to_euclidean_division_equations. lia. }
  destruct (development_payout_due_with height V1_5_ACTIVATION_HEIGHT).
  - apply bind_Ok in He as (p & Hp & [= <-]). apply ok_or_Ok, checked_mul_Some in Hp as [Hp Hlt].
    split_and!; [lia| |by split; eauto]. intros amount [= <-]. unfold is_uint. rewrite Hp.
    split; [|done]. apply Z.mul_nonneg_nonneg; [lia|]. unfold development_payout_interval_with. repeat case_match; done.
  - injection He as <-. split_and!; [lia|done|]. split; [done|by intros [? ?]].
Qed.

Section pieces.
  Context {P : Poseidon2bPermutation} {C : SegmentCommitment}.

Lemma block_id_digest h : is_digest (block_id h).
Proof. apply finalize_digest. Qed.

Lemma zero_fields_wf : is_digest zero_digest ∧ Forall TxInput_wf (replicate TX_INPUTS TxInput_dummy) ∧ TxOutput_wf TxOutput_dummy.
Proof. split_and!; apply (bool_decide_unpack _); vm_compute; exact I. Qed.

Lemma coinbase_tx_wf prev miner slot value :
  is_digest prev → is_digest miner → is_u32 slot → is_u64 value → tx_wf (coinbase_tx prev miner slot value).
Proof.
  intros Hp Hm Hs Hv. split_and!; cbn [tx_body coinbase_tx tb_epoch_anchor tb_fee tb_input_owner tb_inputs tb_outputs tb_validity_bitmap]; try done.
  all: destruct zero_fields_wf as (Hz & Hi & Ho); try done. constructor; [by split_and!|]. constructor; [|constructor]. by split_and!.
Qed.

Lemma payout_tx_wf prev first second amount :
  is_digest prev → is_u32 first → is_u32 second → is_u64 amount → tx_wf (payout_tx prev first second amount).
Proof.
  intros Hp Hf Hs Ha. assert (is_digest NETWORK_FUND_ADDRESS ∧ is_digest LAB_FUND_ADDRESS) as [Hn Hl].
  { split; apply (bool_decide_unpack _); vm_compute; exact I. }
  split_and!; cbn [tx_body payout_tx tb_epoch_anchor tb_fee tb_input_owner tb_inputs tb_outputs tb_validity_bitmap]; try done.
  all: destruct zero_fields_wf as (Hz & Hi & Ho); try done. constructor; [by split_and!|]. constructor; [|constructor]. by split_and!.
Qed.

Lemma coinbase_tx_canonical prev miner slot value : canonical_body (tx_body (coinbase_tx prev miner slot value)).
Proof.
  split_and!; cbn [tx_body coinbase_tx tb_validity_bitmap tb_inputs tb_outputs]; try done.
  - intros i inp Hi _. apply lookup_replicate in Hi as [-> _]. done.
  - intros [|[|i]] out Hi; [intros; done|intros _; by injection Hi as <-|done].
  - apply NoDup_singleton.
  - split_and!; [done..|by left].
Qed.

Lemma payout_tx_canonical prev first second amount :
  first ≠ second → canonical_body (tx_body (payout_tx prev first second amount)).
Proof.
  intros Hne. split_and!; cbn [tx_body payout_tx tb_validity_bitmap tb_inputs tb_outputs]; try done.
  - intros i inp Hi _. apply lookup_replicate in Hi as [-> _]. done.
  - intros [|[|i]] out Hi; [intros; done|intros; done|done].
  - apply (NoDup_cons first [second]). split; [by rewrite list_elem_of_singleton|apply NoDup_singleton].
  - split_and!; [done..|by right].
Qed.

Lemma coinbase_tx_slots prev miner slot value : body_slots (tx_body (coinbase_tx prev miner slot value)) = [slot].
Proof. done. Qed.

Lemma payout_tx_slots prev first second amount : body_slots (tx_body (payout_tx prev first second amount)) = [first; second].
Proof. done. Qed.

Lemma pages_replay height pages cs cs' :
  Forall (λ tx, tb_is_coinbase (tx_body tx) = false) pages →
  try_fold apply_page cs pages = Ok cs' → apply_bodies height cs (tx_body <$> pages) = Ok cs'.
Proof.
  intros Hf. revert cs. induction Hf as [|p pages Hp _ IH]; intros cs H; [by injection H as <-|]. unfold apply_bodies. cbn [fmap list_fmap try_fold] in *.
  apply bind_Ok in H as (cs1 & Hc & H). apply (apply_page_Ok height) in Hc as ->; [|done]. by apply IH.
Qed.

Lemma replay_bodies height cs coinbase payout winners cs' :
  Forall (λ tx, tb_is_coinbase (tx_body tx) = false) (selected_pages winners) →
  replay height cs coinbase payout winners = Ok cs' →
  apply_bodies height cs (tx_body <$> (coinbase :: option_list payout ++ selected_pages winners)) = Ok cs'.
Proof.
  intros Hf H. unfold replay in H. apply bind_Ok in H as (cs1 & H1 & H). apply bind_Ok in H as (cs2 & H2 & H).
  apply map_err_Ok in H1. unfold apply_bodies. cbn [fmap list_fmap try_fold]. rewrite H1. cbn [mbind result_bind].
  rewrite fmap_app, try_fold_app.
  assert (try_fold (λ cs body, apply_tx_checked_deferred_root cs body (Some height)) cs1 (tx_body <$> option_list payout) = Ok cs2) as ->.
  { destruct payout as [tx|]; cbn in H2 |- *; [|by injection H2 as <-]. apply bind_Ok in H2 as (cs3 & H3 & [= <-]).
    apply map_err_Ok in H3. by rewrite H3. }
  cbn [mbind result_bind]. clear H1 H2. revert cs2 H. unfold selected_pages in *.
  induction winners as [|c winners IH]; intros cs2 H; [by injection H as <-|]. rewrite bind_cons in Hf |- *. apply Forall_app in Hf as [Hf1 Hf2].
  cbn [try_fold] in H. apply bind_Ok in H as (cs3 & H3 & H). rewrite fmap_app, try_fold_app.
  apply (pages_replay height) in H3; [|done]. unfold apply_bodies in H3. rewrite H3. by apply IH.
Qed.

Lemma expand_scratch_levels cs log new cs' :
  log = Z.of_nat (sg_log_slots (cs_state cs)) → new = log ∨ new = log + 1 →
  expand_scratch cs (negb (new =? log)) = Ok cs' → expand_levels (Z.to_nat (new - log)) cs = Some cs'.
Proof.
  intros Hl Hn H. unfold expand_scratch in H. destruct (Z.eqb_spec new log) as [->|Hne]; cbn [negb] in H.
  - injection H as <-. by rewrite Z.sub_diag.
  - apply expect_Ok in H. replace (Z.to_nat (new - log)) with 1%nat by lia. cbn [expand_levels]. by rewrite H.
Qed.

Lemma select_system_slots_spec scratch m seed due reserved coinbase dev :
  state_wf (cs_state scratch) → represents (cs_state scratch) m →
  select_system_slots scratch seed due reserved = Ok (coinbase, dev) →
  mintable (cs_state scratch) m reserved coinbase ∧
  match dev with
  | None => due = false
  | Some (first, second) => due = true ∧ mintable (cs_state scratch) m ({[coinbase]} ∪ reserved) first
      ∧ mintable (cs_state scratch) m ({[first]} ∪ ({[coinbase]} ∪ reserved)) second
  end.
Proof.
  intros Hwf Hrep. assert (Hmint : ∀ res i, mint_slot scratch seed res = Ok i → mintable (cs_state scratch) m res i).
  { intros res i H. unfold mint_slot in H. destruct (select_system_mint_slot_spec scratch m Hwf Hrep seed res)
      as [(j & Hj & Hs) | [Hs _]]; rewrite Hs in H; [|done]. by injection H as <-. }
  unfold select_system_slots. intros H. apply bind_Ok in H as (cb & Hcb & H). destruct due.
  - apply bind_Ok in H as (first & Hf & H). apply bind_Ok in H as (second & Hs & [= <- <-]). auto.
  - injection H as <- <-. auto.
Qed.

End pieces.

(** ** The assembled block *)

(** What a built template is, as a block: its link to the parent, its header's
    summary of the post-state, and the outcome of the two ways to apply it. *)
Record built_block {P : Poseidon2bPermutation} {C : SegmentCommitment} (parent : BlockHeader) (state : ChainState)
    (counts : list Z) (template : BlockTemplate) (post : ChainState) (nonce : Z) : Prop := {
  bb_prev : bt_prev_block_hash template = block_id parent;
  bb_height : bt_height template = bh_height parent + 1;
  bb_depth : bt_log_slots template = expected_child_log_slots (bh_height parent) (bh_log_slots parent) counts;
  bb_root : bt_state_root template = cs_utxo_root post;
  bb_log : bt_log_slots template = Z.of_nat (sg_log_slots (cs_state post));
  bb_active : bt_active_slot_count template = cs_active_slot_count post;
  bb_alloc : bt_alloc_counter template = cs_alloc_counter post;
  bb_records : Forall record_wf (bk_transactions (into_block template nonce));
  bb_count : Z.of_nat (length (bk_transactions (into_block template nonce))) ≤ BLOCK_MAX_TXS;
  bb_stream : ∃ facts, validate_block_page_stream (bk_transactions (into_block template nonce)) = Ok facts;
  bb_applies : apply_block state (into_block template nonce) = Ok (bt_state_root template, post);
  bb_validates scratchpad times now anchor :
    validate_header scratchpad (bk_header (into_block template nonce)) parent times counts now anchor = Ok tt →
    validate_block_consensus scratchpad (into_block template nonce) parent times counts now anchor state
    = Ok (bt_state_root template, post);
}.

Section assembled.
  Context {P : Poseidon2bPermutation} {C : SegmentCommitment}
    (parent : BlockHeader) (state : ChainState) (m : gmap Z SlotValue) (counts : list Z) (miner : list Z)
    (timestamp nonce : Z) (target : list Z)
    (allocation : DevelopmentAllocation) (winners : list CandidatePagedSpend) (gs : list (TxPage * list TxPage))
    (r : TemplateResourceSelection) (scratch replayed post : ChainState) (root tx_root : list Z)
    (coinbase_slot seed : Z) (development_slots : option (Z * Z)) (payout : option Transaction).

Definition child_height : Z := bh_height parent + 1.
Definition child_log : Z := expected_child_log_slots (bh_height parent) (bh_log_slots parent) counts.
Definition mint_value : Z := Z.min (da_miner_subsidy allocation + claimable_sum parent winners) (uint_max 64).
Definition built_coinbase : Transaction := coinbase_tx (block_id parent) miner coinbase_slot mint_value.
Definition built_template : BlockTemplate :=
  mkBlockTemplate built_coinbase payout (selected_pages winners) root tx_root (cs_active_slot_count post)
    (cs_alloc_counter post) child_log child_height timestamp miner target (block_id parent).
Definition built_leaves : list (list Z) :=
  txid built_coinbase :: (txid <$> option_list payout) ++ (ps_logical_txid <$> (cp_spend <$> winners)).
Definition built_reserved : gset Z := list_to_set (page_slots (selected_pages winners)).
Definition built_records : Z := if da_payout_due allocation then 1 else 0.
Notation block := (into_block built_template nonce).

  Context (Htip : tip_of parent state m) (Hparent : 0 ≤ bh_height parent) (Hheight : child_height < 2 ^ 63)
    (Hminer : is_digest miner)
    (Hallocation : development_allocation child_height = Ok allocation)
    (Hgroups : Forall2 candidate_group winners gs) (Hpays : Forall (pays parent) winners)
    (Hselection : selection_inv built_records (1 + 2 * built_records) r winners)
    (Hexpand : expand_levels (Z.to_nat (child_log - bh_log_slots parent)) state = Some scratch)
    (Hslots : select_system_slots scratch seed (da_payout_due allocation) built_reserved = Ok (coinbase_slot, development_slots))
    (Hpayout : development_payout_tx (block_id parent) (da_payout_each allocation) development_slots = Ok payout)
    (Hreplay : replay child_height scratch built_coinbase payout winners = Ok replayed)
    (Hroot : try_state_root replayed = Ok (root, post))
    (Hleaves : root_from_hashes built_leaves = Some tx_root).

Lemma parent_log : 1 ≤ bh_log_slots parent ≤ LOG_SLOTS_MAX.
Proof. rewrite (tp_log _ _ _ Htip). pose proof (wf_log _ (ci_wf _ _ (tp_inv _ _ _ Htip))). unfold LOG_SLOTS_MAX. lia. Qed.

Lemma scratch_state :
  cs_inv scratch m ∧ Z.of_nat (sg_log_slots (cs_state scratch)) = child_log ∧ sg_evicted (cs_state scratch) = ∅.
Proof.
  pose proof parent_log as Hl. destruct (child_log_slots (bh_height parent) (bh_log_slots parent) counts) as [Hc|[Hc Hm]]; [lia|..];
    fold child_log in Hc; unfold LOG_SLOTS_MAX in *; pose proof (tp_log _ _ _ Htip) as Hlog;
    destruct (expand_levels_ok (Z.to_nat (child_log - bh_log_slots parent)) state m) as (cs' & He & Hinv & _ & Hlog' & Hev & _);
    try apply Htip; try (rewrite Hc, Hlog; lia); try (intros _ _; rewrite (tp_resident _ _ _ Htip); set_solver);
    rewrite Hexpand in He; injection He as <-; rewrite (tp_resident _ _ _ Htip) in Hev; (split_and!; [done|lia|done]).
Qed.

Lemma child_log_bounds : 1 ≤ child_log ≤ 32.
Proof. destruct scratch_state as (Hinv & Hl & _). pose proof (wf_log _ (ci_wf _ _ Hinv)). lia. Qed.

(** The slots of the system mints. *)
Lemma system_slots :
  0 ≤ coinbase_slot < 2 ^ child_log ∧ coinbase_slot ∉ built_reserved ∧
  match development_slots with
  | None => da_payout_due allocation = false
  | Some (first, second) => da_payout_due allocation = true ∧ 0 ≤ first < 2 ^ child_log ∧ 0 ≤ second < 2 ^ child_log
      ∧ NoDup [coinbase_slot; first; second] ∧ first ∉ built_reserved ∧ second ∉ built_reserved
  end.
Proof.
  destruct scratch_state as (Hinv & Hl & _).
  destruct (select_system_slots_spec _ m _ _ _ _ _ (ci_wf _ _ Hinv) (ci_rep _ _ Hinv) Hslots) as [(Hr & _ & _ & Hn) Hdev].
  rewrite (num_slots_eq _), Hl in Hr. split_and!; [lia..|done|].
  destruct development_slots as [[first second]|]; [|done].
  destruct Hdev as (Hd & (Hr1 & _ & _ & Hn1) & (Hr2 & _ & _ & Hn2)). rewrite (num_slots_eq _), Hl in Hr1, Hr2.
  split_and!; [done|lia..| |set_solver|set_solver].
  apply NoDup_cons. split; [set_solver|]. apply NoDup_cons. split; [set_solver|apply NoDup_singleton].
Qed.

(** The payout is the scheduled one. *)
Lemma payout_cases :
  match da_payout_each allocation with
  | None => payout = None ∧ da_payout_due allocation = false
  | Some amount => ∃ first second, development_slots = Some (first, second) ∧ is_u64 amount
      ∧ payout = Some (payout_tx (block_id parent) first second amount)
  end.
Proof.
  destruct (allocation_bounds child_height allocation) as (_ & Hamount & Hdue); [unfold child_height; lia|done|].
  unfold development_payout_tx in Hpayout. destruct (da_payout_each allocation) as [amount|].
  - apply bind_Ok in Hpayout as ([first second] & Hs%expect_Ok & [= <-]). exists first, second. by split_and!; [|apply Hamount|].
  - injection Hpayout as <-. split; [done|]. destruct (da_payout_due allocation); [|done].
    destruct (proj1 Hdue eq_refl) as [? ?]. done.
Qed.

(** *** Well-typed bodies *)

Lemma mint_value_bounds : is_u64 mint_value ∧ mint_value ≤ da_miner_subsidy allocation + claimable_sum parent winners.
Proof.
  destruct (allocation_bounds child_height allocation) as (Hs & _); [unfold child_height; lia|done|].
  assert (0 ≤ claimable_sum parent winners).
  { unfold claimable_sum. apply sum_Z_nonneg, Forall_fmap, Forall_true. intros c. unfold compose, saturating_sub. lia. }
  unfold mint_value, is_uint, uint_max. lia.
Qed.

Lemma built_coinbase_wf : tx_wf built_coinbase.
Proof.
  destruct system_slots as (Hr & _). pose proof child_log_bounds as Hl.
  pose proof (Z.pow_le_mono_r 2 child_log 32 ltac:(lia) ltac:(lia)).
  apply coinbase_tx_wf; [apply block_id_digest|done|unfold is_uint; lia|apply mint_value_bounds].
Qed.

Lemma built_payout_wf : Forall (λ tx, tx_wf tx ∧ canonical_body (tx_body tx) ∧ is_development_payout_shape (tx_body tx) = true)
  (option_list payout).
Proof.
  pose proof payout_cases as Hp. pose proof system_slots as (_ & _ & Hsys). pose proof child_log_bounds as Hl.
  destruct (da_payout_each allocation) as [amount|]; [|destruct Hp as [-> _]; constructor].
  destruct Hp as (first & second & Hs & Ha & ->). rewrite Hs in Hsys. destruct Hsys as (_ & H1 & H2 & Hnd & _).
  pose proof (Z.pow_le_mono_r 2 child_log 32 ltac:(lia) ltac:(lia)). apply Forall_singleton. split_and!; [| |done].
  - apply payout_tx_wf; [apply block_id_digest|unfold is_uint; lia..|done].
  - apply payout_tx_canonical. apply NoDup_cons in Hnd as [_ Hnd]. apply NoDup_cons in Hnd as [Hn _].
    intros Heq. apply Hn. by apply list_elem_of_singleton.
Qed.

Lemma built_page_shapes : Forall (λ tx, tx_wf tx ∧ page_shape (tx_body tx)) (selected_pages winners).
Proof.
  destruct (winners_pages _ _ Hgroups) as (Hp & Hv & Hw & _). apply Forall_and. split; [exact Hw|].
  assert (Hshape : Forall (λ p, page_shape (page_body p)) (tx_page <$> selected_pages winners)).
  { unfold selected_pages. rewrite Hp. apply Forall_bind. eapply Forall_impl; [exact Hv|]. intros g Hg. apply Hg. }
  by rewrite Forall_fmap in Hshape.
Qed.

Lemma built_pages_wf :
  Forall (λ tx, tx_wf tx ∧ tb_is_coinbase (tx_body tx) = false) (selected_pages winners).
Proof. eapply Forall_impl; [apply built_page_shapes|]. intros tx [Hw Hs]. split; [done|apply Hs]. Qed.

Lemma built_records_wf : Forall record_wf (bk_transactions block).
Proof.
  constructor; [split; [apply built_coinbase_wf|apply coinbase_tx_canonical]|]. apply Forall_app. split.
  - eapply Forall_impl; [apply built_payout_wf|]. intros tx (Hw & Hc & Hs). split; [done|].
    unfold is_development_payout_shape in Hs. destruct (tb_is_coinbase (tx_body tx)); [done|]. discriminate Hs.
  - eapply Forall_impl; [apply built_page_shapes|]. intros tx [Hw Hs]. split; [done|].
    replace (tb_is_coinbase (tx_body tx)) with false; [done|]. symmetry. apply Hs.
Qed.

Lemma built_txs_wf : Forall tx_wf (bk_transactions block).
Proof.
  constructor; [apply built_coinbase_wf|]. apply Forall_app. split.
  - eapply Forall_impl; [apply built_payout_wf|]. by intros tx [? _].
  - eapply Forall_impl; [apply built_pages_wf|]. by intros tx [? _].
Qed.

(** *** Distinct slots and the page stream *)

Lemma page_slots_bodies pages : (tx_body <$> pages) ≫= body_slots = page_slots pages.
Proof. induction pages as [|p pages IH]; [done|]. cbn [fmap list_fmap]. rewrite bind_cons, IH. done. Qed.

Lemma system_slot_list :
  ∃ slots, (tx_body <$> (built_coinbase :: option_list payout)) ≫= body_slots = slots ∧ NoDup slots
    ∧ Forall (λ i, i ∉ built_reserved) slots ∧ Z.of_nat (length slots) = 1 + 2 * built_records
    ∧ Z.of_nat (length (option_list payout)) = built_records.
Proof.
  pose proof system_slots as (_ & Hc & Hsys). pose proof payout_cases as Hp. unfold built_records.
  destruct (da_payout_each allocation) as [amount|].
  - destruct Hp as (first & second & Hs & _ & ->). rewrite Hs in Hsys. destruct Hsys as (-> & _ & _ & Hnd & H1 & H2).
    exists [coinbase_slot; first; second]. split_and!; [done..| |done|done]. by repeat constructor.
  - destruct Hp as [-> ->]. exists [coinbase_slot]. split_and!; [done|apply NoDup_singleton|by apply Forall_singleton|done..].
Qed.

Lemma built_distinct : NoDup (block_bodies block ≫= body_slots).
Proof.
  destruct system_slot_list as (slots & Heq & Hnd & Hres & _). unfold block_bodies. cbn [bk_transactions into_block built_template
    bt_coinbase bt_development_payout bt_txs]. rewrite app_comm_cons, fmap_app, bind_app, Heq, page_slots_bodies.
  apply NoDup_app. split_and!; [done| |apply Hselection]. intros i Hi Hi'. rewrite Forall_forall in Hres. apply (Hres i Hi).
  by apply elem_of_list_to_set.
Qed.

Lemma built_class n : n ≤ BLOCK_MAX_USER_PAGES → ∃ class, for_page_count_in_generation n V1 = Some class.
Proof.
  change BLOCK_MAX_USER_PAGES with 255. intros Hn. unfold for_page_count_in_generation.
  destruct (n <=? fst (tiers V1)); [by eexists|]. change (snd (tiers V1)) with 255.
  rewrite (proj2 (Z.leb_le _ _)) by done. by eexists.
Qed.

Lemma built_inputs : Z.of_nat (length (group_inputs (tx_page <$> selected_pages winners))) ≤ BLOCK_MAX_LIVE_INPUTS.
Proof.
  pose proof (si_input_limit _ _ _ _ Hselection) as Hl. rewrite (si_inputs _ _ _ _ Hselection) in Hl.
  destruct (winners_pages _ _ Hgroups) as (Hp & _ & _ & Hs). rewrite Hs in Hl. unfold selected_pages. rewrite Hp.
  etrans; [|exact Hl]. clear. induction gs as [|g l IH]; [done|]. rewrite bind_cons, group_inputs_app, length_app.
  cbn [fmap list_fmap]. rewrite sum_Z_cons. cbn [group_facts ps_live_inputs]. lia.
Qed.

Lemma built_stream : ∃ user_class class, valid_block_stream (bk_transactions block) V1 built_coinbase (option_list payout)
  (selected_pages winners) user_class class gs.
Proof.
  destruct (winners_pages _ _ Hgroups) as (Hp & Hv & Hw & _). fold (selected_pages winners) in Hp, Hw.
  pose proof (si_page_limit _ _ _ _ Hselection) as Hl. rewrite (si_pages _ _ _ _ Hselection) in Hl.
  assert (Hwp : Forall page_wf (tx_page <$> selected_pages winners)) by by apply Forall_fmap.
  destruct (group_action_bounds _ Hwp) as [Hbi Hbo]. rewrite length_fmap in Hbi, Hbo. pose proof built_inputs as Hin.
  destruct system_slot_list as (_ & _ & _ & _ & _ & Hrec).
  destruct (built_class (Z.of_nat (length (selected_pages winners)))) as [user_class Huser]; [lia|].
  destruct (built_class (Z.of_nat (length (option_list payout ++ selected_pages winners)))) as [class Hclass]; [rewrite length_app; lia|].
  exists user_class, class. constructor; [done|done| | | |done].
  - split; [by destruct payout; cbn; lia|]. eapply Forall_impl; [apply built_payout_wf|]. by intros tx (_ & _ & ?).
  - eapply Forall_impl; [apply built_pages_wf|]. by intros tx [_ ?].
  - assert (Hcap : Z.of_nat (length (group_inputs (tx_page <$> selected_pages winners))) ≤ input_capacity_in_generation user_class V1
      ∧ Z.of_nat (length (group_outputs (tx_page <$> selected_pages winners))) ≤ output_capacity_in_generation user_class V1).
    { unfold for_page_count_in_generation in Huser. change (fst (tiers V1)) with 25 in Huser.
      destruct (Z.leb_spec (Z.of_nat (length (selected_pages winners))) 25).
      - injection Huser as <-. change (input_capacity_in_generation B25 V1) with 200. change (output_capacity_in_generation B25 V1) with 50. lia.
      - destruct (_ <=? _); [|done]. injection Huser as <-. change (input_capacity_in_generation B255 V1) with 1020.
        change (output_capacity_in_generation B255 V1) with 510. change BLOCK_MAX_LIVE_INPUTS with 1020 in Hin.
        change BLOCK_MAX_USER_PAGES with 255 in Hl. unfold built_records in Hl. destruct (da_payout_due allocation); lia. }
    constructor; [by rewrite length_fmap|by rewrite Hp|done|apply Hcap|apply Hcap|].
    rewrite <- group_slots. apply Hselection.
Qed.

(** *** Roots and application *)

Lemma stream_groups_spend start l :
  gf_spend <$> stream_groups start l = (λ g, group_facts (group_pages g) (fst g)) <$> l.
Proof. revert start. induction l as [|g l IH]; intros start; [done|]. cbn. by rewrite IH. Qed.

Lemma built_facts : ∃ class, validate_block_page_stream (bk_transactions block)
  = Ok (block_stream_facts class (option_list payout) (selected_pages winners) gs).
Proof.
  destruct built_stream as (user_class & class & Hs). exists class. apply validate_block_stream_valid; [apply built_txs_wf|].
  by exists built_coinbase, (option_list payout), (selected_pages winners), user_class, class, gs.
Qed.

Lemma built_logical_ids : try_compute_logical_txids (bk_transactions block) = Ok built_leaves.
Proof.
  destruct built_facts as (class & Hf). unfold try_compute_logical_txids.
  change (bk_transactions block) with (built_coinbase :: option_list payout ++ selected_pages winners) in *.
  rewrite Hf. cbn [mbind result_bind block_stream_facts bf_has_development_payout bf_groups stream_facts sf_groups].
  assert (Hids : (λ g, ps_logical_txid (gf_spend g)) <$> stream_groups 0 gs = ps_logical_txid <$> (cp_spend <$> winners)).
  { destruct (winners_pages _ _ Hgroups) as (_ & _ & _ & ->). rewrite <- (stream_groups_spend 0). by rewrite <- list_fmap_compose. }
  rewrite Hids. unfold built_leaves, txid. destruct payout; reflexivity.
Qed.

Lemma try_state_root_fields cs root' cs' :
  try_state_root cs = Ok (root', cs') →
  cs_utxo_root cs' = root' ∧ sg_log_slots (cs_state cs') = sg_log_slots (cs_state cs).
Proof. unfold try_state_root. intros H. apply bind_Ok in H as (roots & _ & [= <- <-]). done. Qed.

Lemma built_bodies : apply_bodies child_height scratch (block_bodies block) = Ok replayed.
Proof.
  apply replay_bodies; [|exact Hreplay]. eapply Forall_impl; [apply built_pages_wf|]. by intros tx [_ ?].
Qed.

Lemma built_system_canonical : Forall (λ tx, validate_body_semantics_no_hash (tx_body tx) = Ok tt) (built_coinbase :: option_list payout).
Proof.
  constructor.
  - apply validate_canonical; [apply built_coinbase_wf|apply coinbase_tx_canonical].
  - eapply Forall_impl; [apply built_payout_wf|]. intros tx (Hw & Hc & _). by apply validate_canonical.
Qed.

Lemma built_count : Z.of_nat (length (bk_transactions block)) ≤ BLOCK_MAX_TXS.
Proof.
  pose proof (si_page_limit _ _ _ _ Hselection) as Hl. rewrite (si_pages _ _ _ _ Hselection) in Hl.
  destruct system_slot_list as (_ & _ & _ & _ & _ & Hrec).
  change (bk_transactions block) with (built_coinbase :: option_list payout ++ selected_pages winners).
  cbn [length]. rewrite length_app. unfold BLOCK_MAX_USER_PAGES in Hl. lia.
Qed.

Lemma post_log : child_log = Z.of_nat (sg_log_slots (cs_state post)).
Proof.
  destruct scratch_state as (_ & Hl & _). destruct (apply_bodies_geometry _ _ _ _ built_bodies) as [Hg _].
  rewrite (proj2 (try_state_root_fields _ _ _ Hroot)), (sg_same_log _ _ Hg). done.
Qed.

(** Applying the block gives the builder's post-state. *)
Lemma built_applies : apply_block state block = Ok (cs_utxo_root post, post).
Proof.
  destruct built_facts as (class & Hf). unfold apply_block. rewrite (proj2 (Z.ltb_ge _ _) built_count). rewrite Hf.
  cbn [map_err mbind result_bind block_stream_facts bf_user_start_index].
  rewrite (proj2 (slot_conflicts_bodies block) built_distinct). cbn [map_err mbind result_bind].
  change (bk_transactions block) with (built_coinbase :: option_list payout ++ selected_pages winners) in *.
  rewrite system_inputs_ok; [|done|]. 2:{ eapply Forall_impl; [apply built_payout_wf|]. by intros tx (_ & _ & ?). }
  cbn [mbind result_bind]. change (bh_log_slots (bk_header block)) with child_log. rewrite <- (tp_log _ _ _ Htip), Hexpand.
  cbn [expect ok_or mbind result_bind].
  rewrite (proj2 (apply_block_txs_Ok _ _ _ _ replayed)).
  2:{ split; [|exact built_bodies]. change (1 + length (option_list payout))%nat with (length (built_coinbase :: option_list payout)).
      rewrite app_comm_cons, take_app_length. apply built_system_canonical. }
  cbn [mbind result_bind]. rewrite Hroot. cbn [map_fault map_err mbind result_bind].
  cbn [bk_header into_block bh_state_root bh_active_slot_count bh_alloc_counter bh_log_slots bh_tx_root built_template
       bt_state_root bt_active_slot_count bt_alloc_counter bt_log_slots bt_tx_root].
  rewrite !(bool_decide_false (_ ≠ _)) by (by intros Hn; apply Hn); rewrite ?(bool_decide_false (_ ≠ _)) by (intros Hn; apply Hn, post_log).
  unfold try_compute_tx_root. pose proof built_logical_ids as Hids.
  change (bk_transactions block) with (built_coinbase :: option_list payout ++ selected_pages winners) in Hids. rewrite Hids.
  cbn [map_err mbind result_bind]. rewrite Hleaves. cbn [expect ok_or map_fault map_err mbind result_bind].
  rewrite bool_decide_false by (by intros Hn; apply Hn). reflexivity.
Qed.

(** *** The stateless checks *)

Lemma all_slots_bodies b : all_slots b = block_bodies b ≫= body_slots.
Proof. unfold all_slots, block_bodies. induction (bk_transactions b) as [|tx l IH]; [done|]. cbn. by rewrite IH. Qed.

Lemma built_segments : Z.of_nat (size (segment_set block)) ≤ BLOCK_MAX_DISTINCT_SEGMENTS.
Proof.
  destruct system_slot_list as (slots & Heq & _ & _ & Hlen & _).
  pose proof (si_segment_limit _ _ _ _ Hselection) as Hl. rewrite (si_segments _ _ _ _ Hselection) in Hl.
  etrans; [|exact Hl].
  assert (Hsub : segment_set block ⊆ list_to_set (segment_index <$> slots)
                 ∪ list_to_set (segment_index <$> page_slots (selected_pages winners))).
  { intros x Hx. unfold segment_set in Hx. apply elem_of_list_to_set, list_elem_of_fmap in Hx as (i & -> & Hi).
    apply elem_of_all_slots in Hi. rewrite all_slots_bodies in Hi. unfold block_bodies in Hi.
    change (bk_transactions block) with ((built_coinbase :: option_list payout) ++ selected_pages winners) in Hi.
    rewrite fmap_app, bind_app, Heq, page_slots_bodies in Hi. rewrite <- list_to_set_app_L, <- fmap_app.
    apply elem_of_list_to_set. by apply list_elem_of_fmap_2. }
  apply subseteq_size in Hsub. pose proof (size_list_to_set_le (segment_index <$> slots)) as Hs. rewrite length_fmap in Hs.
  pose proof (size_union_le (list_to_set (segment_index <$> slots) : gset Z)
    (list_to_set (segment_index <$> page_slots (selected_pages winners)))). lia.
Qed.

Lemma built_preflight : ∃ facts, validate_block_resource_preflight block = Ok facts.
Proof.
  destruct (preflight_cases block built_txs_wf) as [(pages & groups & _ & Hok) | (e & _ & _ & Hno)]; [by eexists|].
  exfalso. destruct built_stream as (user_class & class & Hs).
  apply (Hno (length (selected_pages winners)) (length gs)). constructor.
  - apply built_count.
  - done.
  - apply child_log_bounds.
  - by exists built_coinbase, (option_list payout), (selected_pages winners), user_class, class, gs.
  - rewrite all_slots_bodies. destruct (apply_bodies_geometry _ _ _ _ built_bodies) as [_ Hf].
    destruct scratch_state as (_ & Hl & _). rewrite num_slots_eq, Hl in Hf. exact Hf.
  - apply built_segments.
Qed.

Lemma built_page_stream : ∃ class, page_stream (bk_transactions block)
  = Ok (block_stream_facts class (option_list payout) (selected_pages winners) gs).
Proof. destruct built_facts as (class & Hf). exists class. unfold page_stream. by rewrite Hf. Qed.

Lemma built_mandatory : validate_mandatory_coinbase block parent = Ok tt.
Proof.
  destruct built_page_stream as (class & Hs). unfold validate_mandatory_coinbase. rewrite Hs. cbn [mbind result_bind].
  pose proof built_system_canonical as Hc. pose proof payout_cases as Hp.
  change (bk_transactions block) with (built_coinbase :: option_list payout ++ selected_pages winners).
  cbn [lookup list_lookup expect ok_or mbind result_bind]. apply Forall_cons in Hc as [Hc Hpc]. rewrite Hc. cbn [map_err mbind result_bind].
  rewrite bool_decide_false by (intros Hn; apply Hn; reflexivity).
  unfold output_at. cbn [tb_outputs tx_body built_coinbase coinbase_tx lookup list_lookup expect ok_or mbind result_bind to_owner].
  rewrite bool_decide_false by (intros Hn; apply Hn; reflexivity).
  change (bh_height (bk_header block)) with child_height. rewrite Hallocation. cbn [map_err mbind result_bind].
  cbn [block_stream_facts bf_has_development_payout]. destruct (da_payout_each allocation) as [amount|].
  - destruct Hp as (first & second & _ & _ & ->). rewrite bool_decide_true by done.
    change (option_list (Some ?tx)) with [tx] in *. cbn [app lookup list_lookup expect ok_or mbind result_bind]. unfold check_payout. apply Forall_cons in Hpc as [Hpc _]. rewrite Hpc. cbn [map_err mbind result_bind].
    rewrite bool_decide_false by (intros Hn; apply Hn; reflexivity).
    unfold output_at. cbn [tb_outputs tx_body payout_tx lookup list_lookup expect ok_or mbind result_bind to_owner to_amount].
    rewrite !bool_decide_false by (intros Hn; apply Hn; reflexivity). by rewrite Z.eqb_refl.
  - destruct Hp as [-> _]. reflexivity.
Qed.

(** *** Fees and the ceiling *)

Lemma group_claims start acc :
  0 ≤ acc → acc + Z.of_nat (length winners) * 2 ^ 64 ≤ 2 ^ 127 →
  try_fold (claim_group parent) acc (stream_groups start gs) = Ok (acc + claimable_sum parent winners).
Proof.
  revert start acc. pose proof Hpays as Hp. pose proof Hgroups as Hg. clear -Hp Hg. unfold claimable_sum.
  induction Hg as [|c g winners gs (Hw & Hpg & Hv & Hs) _ IH]; intros start acc Ha Hb.
  { cbn. f_equal. lia. }
  apply Forall_cons in Hp as [Hpay Hp]. cbn [stream_groups try_fold fmap list_fmap length] in *. rewrite sum_Z_cons.
  unfold claim_group at 2. cbn [gf_spend]. rewrite <- Hs. unfold pays, group_breakdown in Hpay.
  rewrite (proj2 (Z.ltb_ge _ _) Hpay).
  assert (Hfee : 0 ≤ saturating_sub (ps_fee (cp_spend c)) (fb_burned (group_breakdown parent (cp_spend c))) < 2 ^ 64).
  { assert (is_u64 (ps_fee (cp_spend c))) as Hu.
    { rewrite Hs. cbn [group_facts ps_fee]. assert (page_wf (fst g)) as (_ & Hu & _); [|exact Hu].
      assert (Forall page_wf (group_pages g)) as Hf by (rewrite <- Hpg; by apply Forall_fmap). by apply Forall_cons in Hf as [? _]. }
    unfold is_uint in Hu. unfold saturating_sub.
    assert (0 ≤ fb_burned (group_breakdown parent (cp_spend c))).
    { rewrite Hs. exact (group_burn_nonneg parent g Hv). }
    lia. }
  unfold group_breakdown in *. rewrite (proj2 (checked_add_Some 128 acc _ _)) by (split; [reflexivity|lia]).
  cbn [ok_or mbind result_bind]. rewrite (IH Hp) by lia. f_equal. lia.
Qed.

Lemma winners_count : Z.of_nat (length winners) ≤ 255.
Proof.
  destruct built_stream as (user_class & class & Hs). pose proof (stream_groups_le _ _ _ _ (vb_stream _ _ _ _ _ _ _ _ Hs)) as Hl.
  rewrite length_fmap in Hl. pose proof (si_page_limit _ _ _ _ Hselection) as Hlim. rewrite (si_pages _ _ _ _ Hselection) in Hlim.
  rewrite (Forall2_length _ _ _ Hgroups). change BLOCK_MAX_USER_PAGES with 255 in Hlim. unfold built_records in Hlim.
  destruct (da_payout_due allocation); lia.
Qed.

Lemma built_fees : validate_fee_policy_and_claimable_fee_sum block parent = Ok (claimable_sum parent winners).
Proof.
  destruct built_page_stream as (class & Hs). unfold validate_fee_policy_and_claimable_fee_sum. rewrite Hs.
  cbn [mbind result_bind block_stream_facts bf_groups stream_facts sf_groups]. pose proof winners_count.
  rewrite group_claims by lia. done.
Qed.

Lemma built_ceiling : validate_coinbase_ceiling block (claimable_sum parent winners) 0 = Ok tt.
Proof.
  unfold validate_coinbase_ceiling. cbn [bk_transactions into_block built_template bt_coinbase built_coinbase coinbase_tx tx_body tb_is_coinbase].
  change (head (live_outputs _)) with (Some (0%nat, mkTxOutput coinbase_slot mint_value miner)).
  cbn [expect ok_or mbind result_bind]. change (bh_height (bk_header _)) with child_height.
  destruct (allocation_ceiling child_height (claimable_sum parent winners) allocation Hallocation) as (ceiling & Hc). rewrite Hc.
  cbn [expect ok_or mbind result_bind]. rewrite (ceiling_allocation _ _ _ _ Hc Hallocation).
  rewrite (proj2 (Z.ltb_ge _ _)); [done|]. cbn [to_amount]. pose proof mint_value_bounds. lia.
Qed.

Lemma built_validates scratchpad times now anchor :
  validate_header scratchpad (bk_header block) parent times counts now anchor = Ok tt →
  validate_block_consensus scratchpad block parent times counts now anchor state = Ok (root, post).
Proof.
  intros Hh. unfold validate_block_consensus. rewrite Hh. cbn [mbind result_bind].
  destruct built_preflight as (facts & Hf). rewrite Hf. cbn [mbind result_bind].
  rewrite built_mandatory. cbn [mbind result_bind]. destruct built_page_stream as (class & Hs). rewrite Hs. cbn [mbind result_bind].
  rewrite (proj2 (slot_conflicts_bodies block) built_distinct). cbn [map_err mbind result_bind].
  pose proof built_system_canonical as [Hc _]%Forall_cons.
  assert (Hfirst : validate_first_tx block = Ok tt).
  { unfold validate_first_tx. change (bk_transactions block !! 0%nat) with (Some built_coinbase). cbn [expect ok_or mbind result_bind].
    unfold validate_tx_consensus. rewrite Hc. reflexivity. }
  rewrite Hfirst. cbn [mbind result_bind]. rewrite built_fees. cbn [mbind result_bind]. rewrite built_ceiling. cbn [mbind result_bind].
  rewrite built_applies. reflexivity.
Qed.

Lemma built_is_built : built_block parent state counts built_template post nonce.
Proof.
  pose proof (proj1 (try_state_root_fields _ _ _ Hroot)) as Hr. pose proof built_applies as Ha. rewrite Hr in Ha.
  constructor.
  1-3: reflexivity.
  - symmetry. exact Hr.
  - exact post_log.
  - reflexivity.
  - reflexivity.
  - exact built_records_wf.
  - exact built_count.
  - destruct built_facts as [class Hf]. eexists. exact Hf.
  - exact Ha.
  - exact built_validates.
Qed.

End assembled.

(** ** Every built template is accepted *)

Lemma template_built {P : Poseidon2bPermutation} {C : SegmentCommitment}
    parent state counts candidates miner timestamp target template post nonce :
  ledger parent state → bh_height parent + 1 < 2 ^ 63 → Forall tx_wf candidates → is_digest miner →
  build_block_template_with_post_state parent state counts candidates miner timestamp target = Ok (template, post) →
  built_block parent state counts template post nonce.
Proof.
  intros Hledger Hheight Hwf Hminer Hbuild.
  destruct (ledger_tip _ _ Hledger) as [m Htip]. destruct (ledger_bounds _ _ Hledger) as [_ Hh].
  unfold build_block_template_with_post_state in Hbuild.
  apply bind_Ok in Hbuild as (height & [-> _]%ok_or_Ok%checked_add_Some & Hbuild).
  apply bind_Ok in Hbuild as (stream & Hstream%map_err_Ok & Hbuild).
  apply bind_Ok in Hbuild as (allocation & Halloc%map_err_Ok & Hbuild).
  apply bind_Ok in Hbuild as (sel & _ & Hbuild). apply bind_Ok in Hbuild as (counter & _ & Hbuild).
  apply bind_Ok in Hbuild as (winners & Hsel & Hbuild). apply bind_Ok in Hbuild as (scratch & Hexp & Hbuild).
  apply bind_Ok in Hbuild as ([slot dev] & Hslots & Hbuild). apply bind_Ok in Hbuild as (payout & Hpayout & Hbuild).
  apply bind_Ok in Hbuild as (replayed & Hreplay & Hbuild).
  apply bind_Ok in Hbuild as ([root post'] & Hroot%map_err_Ok & Hbuild).
  apply bind_Ok in Hbuild as (tx_root & Hleaves%expect_Ok & [= <- ->]).
  pose proof (candidates_groups _ _ Hwf Hstream) as Hcand.
  destruct (select_groups_inv parent _ _ _ _ _ _ _ _ (initial_selection (da_payout_due allocation)) (Forall_nil_2 _) Hcand Hsel)
    as [[r Hinv] Hw].
  assert (∃ gs, Forall2 candidate_group winners gs) as [gs Hgs].
  { apply candidate_groups_list. eapply Forall_impl; [exact Hw|]. by intros c [? _]. }
  assert (Hpays : Forall (pays parent) winners) by (eapply Forall_impl; [exact Hw|]; by intros c [_ ?]).
  assert (Hlog : 0 ≤ bh_log_slots parent ≤ LOG_SLOTS_MAX) by (pose proof (parent_log parent state m Htip); lia).
  apply expand_scratch_levels in Hexp; [|apply Htip|destruct (child_log_slots (bh_height parent) _ counts Hlog) as [?|[? _]]; auto].
  assert (Hids : (λ group, ps_logical_txid (cp_spend group)) <$> winners = ps_logical_txid <$> (cp_spend <$> winners))
    by by rewrite <- list_fmap_compose.
  rewrite Hids in Hleaves.
  assert (Hres : (winners ≫= λ group, page_slots (cp_pages group)) = page_slots (selected_pages winners)).
  { unfold selected_pages. clear. induction winners as [|c w IH]; [done|]. by rewrite !bind_cons, page_slots_app, IH. }
  rewrite Hres in Hslots. set (seed := Z.lxor _ _) in Hslots.
  exact (built_is_built parent state m counts miner timestamp nonce target allocation winners gs r scratch replayed
    post root tx_root slot seed dev payout Htip (proj1 Hh) Hheight Hminer Halloc Hgs Hpays Hinv Hexp Hslots Hpayout Hreplay
    Hroot Hleaves).
Qed.

(** C2: a template built on the tip of a ledger, from any well-typed candidate
    pages, is a block that extends the tip: it names the parent, the next height
    and the required depth; applying it to the state succeeds and yields exactly
    the post-state the builder computed; and as soon as its header passes header
    validation (clock, target and proof of work), the whole block passes
    consensus validation with that post-state. *)
Theorem template_block_accepted {P : Poseidon2bPermutation} {C : SegmentCommitment}
    parent state counts candidates miner timestamp target template post nonce
    (Hledger : ledger parent state) (Hheight : bh_height parent + 1 < 2 ^ 63)
    (Hwf : Forall tx_wf candidates) (Hminer : is_digest miner)
    (Hbuild : build_block_template_with_post_state parent state counts candidates miner timestamp target
              = Ok (template, post)) :
  let block := into_block template nonce in
  bh_prev_block_hash (bk_header block) = block_id parent
  ∧ bh_height (bk_header block) = bh_height parent + 1
  ∧ bh_log_slots (bk_header block) = expected_child_log_slots (bh_height parent) (bh_log_slots parent) counts
  ∧ apply_block state block = Ok (bh_state_root (bk_header block), post)
  ∧ ∀ scratchpad times now anchor,
      validate_header scratchpad (bk_header block) parent times counts now anchor = Ok tt →
      validate_block_consensus scratchpad block parent times counts now anchor state
      = Ok (bh_state_root (bk_header block), post).
Proof.
  destruct (template_built _ _ _ _ _ _ _ _ _ nonce Hledger Hheight Hwf Hminer Hbuild). cbv zeta. by split_and!.
Qed.

Lemma template_block_accepted_witness :
  ∃ state template post,
    build_block_template_with_post_state (P := narrow_permutation) (C := example_commitment)
      (bk_header ledger_genesis_block) state [] [] (replicate 32 9) 1700000600 (expected_target ledger_anchor 1 1700000000)
    = Ok (template, post)
    ∧ validate_block_consensus (P := narrow_permutation) (C := example_commitment) Scratch_new (into_block template 0)
        (bk_header ledger_genesis_block) [1700000000] [] 1700000700 ledger_anchor state
      = Ok (bh_state_root (bk_header (into_block template 0)), post).
Proof.
  assert (∃ empty r0 genesis template post,
    with_log_slots (P := narrow_permutation) (C := example_commitment) 4 = Some empty
    ∧ apply_genesis_block (P := narrow_permutation) empty ledger_genesis_block = Ok (r0, genesis)
    ∧ build_block_template_with_post_state (P := narrow_permutation) (C := example_commitment)
        (bk_header ledger_genesis_block) genesis [] [] (replicate 32 9) 1700000600 (expected_target ledger_anchor 1 1700000000)
      = Ok (template, post)
    ∧ validate_header (P := narrow_permutation) Scratch_new (bk_header (into_block template 0)) (bk_header ledger_genesis_block)
        [1700000000] [] 1700000700 ledger_anchor = Ok tt)
    as (empty & r0 & genesis & template & post & Hw & Hg & Hb & Hh).
  { eexists _, _, _, _, _. split; [vm_compute; reflexivity|]. split; [vm_compute; reflexivity|].
    split; [vm_compute; reflexivity|]. vm_compute; reflexivity. }
  exists genesis, template, post. split; [exact Hb|].
  refine (proj2 (proj2 (proj2 (proj2 (template_block_accepted (P := narrow_permutation) (C := example_commitment)
    (bk_header ledger_genesis_block) genesis [] [] (replicate 32 9) 1700000600 (expected_target ledger_anchor 1 1700000000)
    template post 0 _ _ _ _ Hb)))) Scratch_new [1700000000] 1700000700 ledger_anchor Hh).
  - apply (ledger_genesis ledger_genesis_block empty r0 genesis); [|split; discriminate|exact Hw|exact Hg].
    constructor; apply (bool_decide_unpack _); vm_compute; exact I.
  - vm_compute. reflexivity.
  - constructor.
  - apply (bool_decide_unpack (is_digest (replicate 32 9))). vm_compute. exact I.
Defined.
