(* ===== verification/Bundle.v ===== *)
(** * Accepted block bundles

    [history_step.rs]: the metadata prefix of a proof terminal;
    [consensus/wire_limits.rs]: the size caps of terminals;
    [accepted_block_bundle.rs]: the container of a block and its terminal, with
    its two constructors and its encoding.  The proof bytes after the prefix are
    opaque.  [None] is a failed [expect]. *)

From S2P Require Import Prelude Machine Params Poseidon TxTypes TxWire BlockStream SlotState SparseRoot ChainState BlockHeader ClientObjects Block BlockWire.

(** ** Terminal metadata *)

Definition V1_2_ACTIVATION_HEIGHT : option Z := Some 8450.

Definition v1_2_active_with (height : Z) (activation_height : option Z) : bool :=
  match activation_height with
  | Some activation => activation <=? height
  | None => false
  end.

Definition v1_2_active (height : Z) : bool := v1_2_active_with height V1_2_ACTIVATION_HEIGHT.

Definition HISTORY_STEP_TERMINAL_VERSION : Z := 4.
Definition HISTORY_STEP_TERMINAL_SHARED_PATH_VERSION : Z := 5.

Definition history_step_terminal_wire_version_with_activation (height : Z) (activation : option Z) : Z :=
  if v1_2_active_with height activation then HISTORY_STEP_TERMINAL_SHARED_PATH_VERSION else HISTORY_STEP_TERMINAL_VERSION.

Definition history_step_terminal_wire_version (height : Z) : Z :=
  history_step_terminal_wire_version_with_activation height V1_2_ACTIVATION_HEIGHT.

Definition HISTORY_STEP_TERMINAL_BINDING_BYTES : nat := 1 + 8 + 32 + 1.
Definition HISTORY_STEP_TIER_SLOT_COUNT : Z := 4.
Definition HISTORY_STEP_CLASS_COUNT : Z := HISTORY_STEP_TIER_SLOT_COUNT.

Record HistoryStepTerminalMetadata := mkTerminalMetadata {
  tm_terminal_height : Z;
  tm_terminal_hash : list Z;
  tm_class_id : Z;
}.

Inductive HistoryStepTerminalMetadataError :=
  | HM_Truncated
  | HM_UnsupportedVersion (actual : Z)
  | HM_InvalidClassId (actual : Z).

Definition HistoryStepTerminalMetadata_new (terminal_height : Z) (terminal_hash : list Z) (class_id : Z) :
    result HistoryStepTerminalMetadataError HistoryStepTerminalMetadata :=
  if HISTORY_STEP_CLASS_COUNT <=? class_id then Err (HM_InvalidClassId class_id)
  else Ok (mkTerminalMetadata terminal_height terminal_hash class_id).

(** [bytes[0]], [bytes[41]] and the slices are in range after the length check. *)
Definition decode_prefix_with_activation (bytes : list Z) (activation : option Z) :
    result HistoryStepTerminalMetadataError HistoryStepTerminalMetadata :=
  if decide (length bytes < HISTORY_STEP_TERMINAL_BINDING_BYTES)%nat then Err HM_Truncated
  else
    let version := bytes !!! 0%nat in
    let terminal_height := from_le_bytes (take 8 (drop 1 bytes)) in
    if negb (version =? history_step_terminal_wire_version_with_activation terminal_height activation)
    then Err (HM_UnsupportedVersion version)
    else HistoryStepTerminalMetadata_new terminal_height (take 32 (drop 9 bytes)) (bytes !!! 41%nat).

Definition decode_prefix (bytes : list Z) : result HistoryStepTerminalMetadataError HistoryStepTerminalMetadata :=
  decode_prefix_with_activation bytes V1_2_ACTIVATION_HEIGHT.

Definition encode_prefix (m : HistoryStepTerminalMetadata) : list Z :=
  [history_step_terminal_wire_version (tm_terminal_height m)] ++ to_le_bytes 8 (tm_terminal_height m)
  ++ tm_terminal_hash m ++ [tm_class_id m].

(** ** Size caps *)

Definition V1_MAX_HISTORY_STEP_TERMINAL_BYTES : Z := 1024 * 1024.
Definition V1_2_MAX_HISTORY_STEP_TERMINAL_BYTES : Z := 1200000.
Definition MAX_HISTORY_STEP_TERMINAL_TRANSPORT_BYTES : Z := V1_2_MAX_HISTORY_STEP_TERMINAL_BYTES.

Definition history_step_terminal_bytes_limit_with_activation (height : Z) (activation_height : option Z) : Z :=
  if v1_2_active_with height activation_height then V1_2_MAX_HISTORY_STEP_TERMINAL_BYTES
  else V1_MAX_HISTORY_STEP_TERMINAL_BYTES.

Definition history_step_terminal_bytes_limit (height : Z) : Z :=
  history_step_terminal_bytes_limit_with_activation height V1_2_ACTIVATION_HEIGHT.

(** ** Bundles *)

Definition ACCEPTED_BLOCK_BUNDLE_MAGIC : list Z := [0x4A; 0x41; 0x42; 0x31].
Definition ACCEPTED_BLOCK_BUNDLE_HEADER_BYTES : Z := 4 + 4 + 4.
Definition MAX_ACCEPTED_BLOCK_BUNDLE_BYTES : Z :=
  ACCEPTED_BLOCK_BUNDLE_HEADER_BYTES + MAX_BLOCK_BYTES + MAX_HISTORY_STEP_TERMINAL_TRANSPORT_BYTES.

Record AcceptedBlockBundle := mkBundle {
  ab_block_bytes : list Z;
  ab_history_step_terminal_bytes : list Z;
  ab_height : Z;
  ab_block_hash : list Z;
}.

Inductive AcceptedBlockBundleError :=
  | AB_BundleTooLarge (actual max : Z)
  | AB_TruncatedHeader
  | AB_BadMagic
  | AB_MissingBlock
  | AB_BlockTooLarge (actual max : Z)
  | AB_MissingHistoryStepTerminal
  | AB_HistoryStepTerminalTooLarge (actual max : Z)
  | AB_LengthOverflow
  | AB_TruncatedPayload (expected actual : Z)
  | AB_TrailingBytes (expected actual : Z)
  | AB_BlockDecode (e : WireError)
  | AB_GenesisIsNotTransported
  | AB_HistoryStepMetadata (e : HistoryStepTerminalMetadataError)
  | AB_TerminalHeightMismatch (expected actual : Z)
  | AB_TerminalHashMismatch.

Definition validate_payload_lengths (block_len terminal_len : Z) : result AcceptedBlockBundleError Z :=
  if block_len =? 0 then Err AB_MissingBlock
  else if MAX_BLOCK_BYTES <? block_len then Err (AB_BlockTooLarge block_len MAX_BLOCK_BYTES)
  else if terminal_len <=? Z.of_nat HISTORY_STEP_TERMINAL_BINDING_BYTES then Err AB_MissingHistoryStepTerminal
  else if MAX_HISTORY_STEP_TERMINAL_TRANSPORT_BYTES <? terminal_len
  then Err (AB_HistoryStepTerminalTooLarge terminal_len MAX_HISTORY_STEP_TERMINAL_TRANSPORT_BYTES)
  else ok_or (checked_add 64 block_len terminal_len) AB_LengthOverflow.

Definition validate_terminal_length_at_height (terminal_len height : Z) : result AcceptedBlockBundleError unit :=
  let max := history_step_terminal_bytes_limit height in
  if max <? terminal_len then Err (AB_HistoryStepTerminalTooLarge terminal_len max) else Ok tt.

Definition validate_declared_lengths_at_height (block_len history_step_terminal_len height : Z) :
    result AcceptedBlockBundleError Z :=
  payload_len ← validate_payload_lengths block_len history_step_terminal_len;
  _ ← validate_terminal_length_at_height history_step_terminal_len height;
  Ok payload_len.

Definition validate_terminal_binding (terminal : list Z) (expected_height : Z) (expected_hash : list Z) :
    result AcceptedBlockBundleError unit :=
  metadata ← map_err AB_HistoryStepMetadata (decode_prefix terminal);
  if negb (tm_terminal_height metadata =? expected_height)
  then Err (AB_TerminalHeightMismatch expected_height (tm_terminal_height metadata))
  else if bool_decide (tm_terminal_hash metadata ≠ expected_hash) then Err AB_TerminalHashMismatch
  else Ok tt.

Section bundle.
  Context {P : Poseidon2bPermutation}.

(** [Panic] is the failed assertion inside [Block::to_bytes]. *)
Definition try_from_locally_built_block (block : Block) (terminal : list Z) :
    result (fault AcceptedBlockBundleError) AcceptedBlockBundle :=
  if bh_height (bk_header block) =? 0 then Err (Fail AB_GenesisIsNotTransported)
  else
    block_bytes ← expect (Block_to_bytes block);
    _ ← map_err Fail (validate_payload_lengths (Z.of_nat (length block_bytes)) (Z.of_nat (length terminal)));
    let height := bh_height (bk_header block) in
    _ ← map_err Fail (validate_terminal_length_at_height (Z.of_nat (length terminal)) height);
    let block_hash := block_id (bk_header block) in
    _ ← map_err Fail (validate_terminal_binding terminal height (semantic_header_id (bk_header block)));
    Ok (mkBundle block_bytes terminal height block_hash).

Definition try_from_parts (block_bytes terminal : list Z) : result AcceptedBlockBundleError AcceptedBlockBundle :=
  _ ← validate_payload_lengths (Z.of_nat (length block_bytes)) (Z.of_nat (length terminal));
  block ← map_err AB_BlockDecode (Block_from_bytes block_bytes);
  if bh_height (bk_header block) =? 0 then Err AB_GenesisIsNotTransported
  else
    let height := bh_height (bk_header block) in
    _ ← validate_terminal_length_at_height (Z.of_nat (length terminal)) height;
    let block_hash := block_id (bk_header block) in
    _ ← validate_terminal_binding terminal height (semantic_header_id (bk_header block));
    Ok (mkBundle block_bytes terminal height block_hash).

Definition AcceptedBlockBundle_decode (bytes : list Z) : result AcceptedBlockBundleError AcceptedBlockBundle :=
  let len := Z.of_nat (length bytes) in
  if MAX_ACCEPTED_BLOCK_BUNDLE_BYTES <? len then Err (AB_BundleTooLarge len MAX_ACCEPTED_BLOCK_BUNDLE_BYTES)
  else if len <? ACCEPTED_BLOCK_BUNDLE_HEADER_BYTES then Err AB_TruncatedHeader
  else if bool_decide (take 4 bytes ≠ ACCEPTED_BLOCK_BUNDLE_MAGIC) then Err AB_BadMagic
  else
    let block_len := from_le_bytes (take 4 (drop 4 bytes)) in
    let terminal_len := from_le_bytes (take 4 (drop 8 bytes)) in
    payload_len ← validate_payload_lengths block_len terminal_len;
    expected ← ok_or (checked_add 64 ACCEPTED_BLOCK_BUNDLE_HEADER_BYTES payload_len) AB_LengthOverflow;
    match Z.compare len expected with
    | Lt => Err (AB_TruncatedPayload expected len)
    | Gt => Err (AB_TrailingBytes expected len)
    | Eq =>
        block_end ← ok_or (checked_add 64 ACCEPTED_BLOCK_BUNDLE_HEADER_BYTES block_len) AB_LengthOverflow;
        try_from_parts (take (Z.to_nat block_len) (drop 12 bytes))
          (take (Z.to_nat (expected - block_end)) (drop (Z.to_nat block_end) bytes))
    end.

Definition u32_len (bytes : list Z) : option (list Z) :=
  if Z.of_nat (length bytes) <? 2 ^ 32 then Some (to_le_bytes 4 (Z.of_nat (length bytes))) else None.

Definition AcceptedBlockBundle_encode (b : AcceptedBlockBundle) : option (list Z) :=
  block_len ← u32_len (ab_block_bytes b);
  terminal_len ← u32_len (ab_history_step_terminal_bytes b);
  Some (ACCEPTED_BLOCK_BUNDLE_MAGIC ++ block_len ++ terminal_len ++ ab_block_bytes b ++ ab_history_step_terminal_bytes b).

Definition into_parts (b : AcceptedBlockBundle) : list Z * list Z := (ab_block_bytes b, ab_history_step_terminal_bytes b).

End bundle.

(** ** The metadata prefix *)

Lemma take_drop_at {A} (n k : nat) (l : list A) : take k (drop n l) ++ drop (n + k) l = drop n l.
Proof. rewrite <- (take_drop k (drop n l)) at 2. by rewrite drop_drop. Qed.

Lemma drop_lookup_total {A} `{Inhabited A} (n : nat) (l : list A) : (n < length l)%nat → drop n l = (l !!! n) :: drop (S n) l.
Proof. intros Hl. apply drop_S. by apply list_lookup_lookup_total_lt. Qed.

Record metadata_wf (m : HistoryStepTerminalMetadata) : Prop := {
  mw_height : is_u64 (tm_terminal_height m);
  mw_hash : is_digest (tm_terminal_hash m);
  mw_class : 0 ≤ tm_class_id m < HISTORY_STEP_CLASS_COUNT;
}.

(** A terminal carries a prefix exactly when it starts with its encoding. *)
Lemma decode_prefix_Ok bytes m :
  byte_string bytes →
  decode_prefix bytes = Ok m ↔ metadata_wf m ∧ ∃ tail, bytes = encode_prefix m ++ tail.
Proof.
  intros Hb. unfold decode_prefix, decode_prefix_with_activation, HISTORY_STEP_TERMINAL_BINDING_BYTES. split.
  - case_decide as Hlen; [done|]. intros H. apply if_err_Ok in H as [Hv H].
    unfold HistoryStepTerminalMetadata_new in H. apply if_err_Ok in H as [Hc [= <-]].
    apply negb_false_iff, Z.eqb_eq in Hv. apply Z.leb_gt in Hc.
    assert (Hh : byte_string (take 8 (drop 1 bytes))) by (by apply Forall_take, Forall_drop).
    assert (Hl8 : length (take 8 (drop 1 bytes)) = 8%nat) by (rewrite length_take, length_drop; lia).
    split.
    + constructor; cbn [tm_terminal_height tm_terminal_hash tm_class_id].
      * pose proof (from_le_bytes_bound _ Hh) as Hr. rewrite Hl8 in Hr. exact Hr.
      * split; [rewrite length_take, length_drop; lia|by apply Forall_take, Forall_drop].
      * split; [|done]. destruct (list_lookup_lookup_total_lt bytes 41 ltac:(lia)).
        unfold byte_string in Hb. rewrite Forall_lookup in Hb.
        assert (bytes !! 41%nat = Some (bytes !!! 41%nat)) as H41 by (apply list_lookup_lookup_total_lt; lia).
        apply (Hb _ _ H41).
    + exists (drop 42 bytes). unfold encode_prefix, history_step_terminal_wire_version.
      cbn [tm_terminal_height tm_terminal_hash tm_class_id]. rewrite <- Hv.
      rewrite <- Hl8 at 1. rewrite to_from_le_bytes by done.
      rewrite <- !app_assoc. cbn [app]. rewrite <- (drop_lookup_total 41) by lia.
      rewrite (take_drop_at 9 32), (take_drop_at 1 8). rewrite <- (drop_lookup_total 0) by lia. done.
  - intros [[Hh Hd Hc] [tail ->]]. destruct m as [h d c]. unfold encode_prefix in *. cbn [tm_terminal_height tm_terminal_hash tm_class_id] in *.
    destruct Hd as [Hdl Hdb]. unfold history_step_terminal_wire_version.
    set (v := history_step_terminal_wire_version_with_activation h V1_2_ACTIVATION_HEIGHT).
    assert (Heq : ([v] ++ to_le_bytes 8 h ++ d ++ [c]) ++ tail = v :: to_le_bytes 8 h ++ d ++ c :: tail)
      by (rewrite <- !app_assoc; done).
    rewrite Heq. rewrite decide_False by (cbn [length]; rewrite !length_app, length_to_le_bytes, Hdl; cbn [length]; lia).
    assert (take 8 (drop 1 (v :: to_le_bytes 8 h ++ d ++ c :: tail)) = to_le_bytes 8 h) as ->
      by (apply take_app_length'; by rewrite length_to_le_bytes).
    rewrite from_to_le_bytes by (unfold is_uint in Hh; lia).
    change ((v :: _) !!! 0%nat) with v. fold v. rewrite Z.eqb_refl. cbn [negb].
    assert (drop 9 (v :: to_le_bytes 8 h ++ d ++ c :: tail) = d ++ c :: tail) as ->
      by (change (drop 8 (to_le_bytes 8 h ++ d ++ c :: tail) = d ++ c :: tail); apply drop_app_length'; by rewrite length_to_le_bytes).
    rewrite take_app_length' by done.
    assert ((v :: to_le_bytes 8 h ++ d ++ c :: tail) !!! 41%nat = c) as ->.
    { apply list_lookup_total_correct. change ((to_le_bytes 8 h ++ d ++ c :: tail) !! 40%nat = Some c).
      rewrite lookup_app_r by (rewrite length_to_le_bytes; lia). rewrite length_to_le_bytes, lookup_app_r by lia. by rewrite Hdl. }
    unfold HistoryStepTerminalMetadata_new. by rewrite (proj2 (Z.leb_gt _ _)) by lia.
Qed.

(** ** Bundles are exact *)

Lemma payload_lengths_Ok block_len terminal_len total :
  0 ≤ block_len → 0 ≤ terminal_len →
  validate_payload_lengths block_len terminal_len = Ok total ↔
  0 < block_len ≤ MAX_BLOCK_BYTES
  ∧ Z.of_nat HISTORY_STEP_TERMINAL_BINDING_BYTES < terminal_len ≤ MAX_HISTORY_STEP_TERMINAL_TRANSPORT_BYTES
  ∧ total = block_len + terminal_len.
Proof.
  intros Hb Ht. unfold validate_payload_lengths. rewrite !if_err_Ok, ok_or_Ok, checked_add_Some, Z.eqb_neq, !Z.ltb_ge, Z.leb_gt.
  change MAX_BLOCK_BYTES with 82905. change MAX_HISTORY_STEP_TERMINAL_TRANSPORT_BYTES with 1200000. lia.
Qed.

Lemma payload_lengths_complete block_len terminal_len :
  0 < block_len ≤ MAX_BLOCK_BYTES →
  Z.of_nat HISTORY_STEP_TERMINAL_BINDING_BYTES < terminal_len ≤ MAX_HISTORY_STEP_TERMINAL_TRANSPORT_BYTES →
  validate_payload_lengths block_len terminal_len = Ok (block_len + terminal_len).
Proof. intros Hb Ht. apply payload_lengths_Ok; [lia..|]. split; [done|]. by split. Qed.

Lemma terminal_limit height : history_step_terminal_bytes_limit height ≤ MAX_HISTORY_STEP_TERMINAL_TRANSPORT_BYTES.
Proof. unfold history_step_terminal_bytes_limit, history_step_terminal_bytes_limit_with_activation. by destruct (v1_2_active_with _ _). Qed.

Section bundles.
  Context {P : Poseidon2bPermutation}.

(** A terminal bound to a header, with proof bytes after the prefix, within the
    cap of its height. *)
Definition terminal_binds (header : BlockHeader) (terminal : list Z) : Prop :=
  (∃ class tail, 0 ≤ class < HISTORY_STEP_CLASS_COUNT ∧ tail ≠ [] ∧
     terminal = encode_prefix (mkTerminalMetadata (bh_height header) (semantic_header_id header) class) ++ tail)
  ∧ Z.of_nat (length terminal) ≤ history_step_terminal_bytes_limit (bh_height header).

Lemma length_encode_prefix m : is_digest (tm_terminal_hash m) → length (encode_prefix m) = HISTORY_STEP_TERMINAL_BINDING_BYTES.
Proof. intros [Hl _]. unfold encode_prefix. rewrite !length_app, length_to_le_bytes, Hl. done. Qed.

Lemma terminal_checks_Ok header terminal :
  byte_string terminal → BlockHeader_wf header →
  (Z.of_nat HISTORY_STEP_TERMINAL_BINDING_BYTES < Z.of_nat (length terminal)
   ∧ validate_terminal_length_at_height (Z.of_nat (length terminal)) (bh_height header) = Ok tt
   ∧ validate_terminal_binding terminal (bh_height header) (semantic_header_id header) = Ok tt)
  ↔ terminal_binds header terminal.
Proof.
  intros Hb Hw. unfold validate_terminal_length_at_height, validate_terminal_binding, terminal_binds.
  rewrite if_err_Ok, Z.ltb_ge. split.
  - intros (Hlong & [Hlen _] & H). split; [|done]. apply bind_Ok in H as (m & Hm & H). apply map_err_Ok, decode_prefix_Ok in Hm as [Hmw [tail ->]]; [|done].
    apply if_err_Ok in H as [Hh H]. apply if_err_Ok in H as [Hs _]. apply negb_false_iff, Z.eqb_eq in Hh.
    apply bool_decide_eq_false, dec_stable in Hs. destruct m as [h d c]. cbn [tm_terminal_height tm_terminal_hash] in *. subst.
    exists c, tail. split_and!; [apply Hmw..| |done]. intros ->. rewrite app_nil_r, length_encode_prefix in Hlong by apply Hmw. lia.
  - intros [(class & tail & Hc & Hne & Heq) Hlen].
    set (m := mkTerminalMetadata (bh_height header) (semantic_header_id header) class) in *.
    assert (Hmw : metadata_wf m) by (constructor; [apply Hw|apply finalize_digest|done]). split_and!.
    + rewrite Heq, length_app, length_encode_prefix by apply Hmw. destruct tail; [done|]. cbn [length]. lia.
    + done.
    + done.
    + rewrite (proj2 (decode_prefix_Ok terminal m Hb)) by (split; [done|by exists tail]). cbn [map_err mbind result_bind].
      unfold m. cbn [tm_terminal_height tm_terminal_hash]. rewrite Z.eqb_refl. cbn [negb].
      rewrite bool_decide_false by (intros Hn; apply Hn; reflexivity). done.
Qed.

(** The bundles that can be built: the canonical encoding of a non-genesis
    block and a terminal bound to it. *)
Definition bundle_of (block : Block) (terminal : list Z) (b : AcceptedBlockBundle) : Prop :=
  ∃ bytes, Block_to_bytes block = Some bytes ∧ Z.of_nat (length bytes) ≤ MAX_BLOCK_BYTES
    ∧ bh_height (bk_header block) ≠ 0 ∧ terminal_binds (bk_header block) terminal
    ∧ b = mkBundle bytes terminal (bh_height (bk_header block)) (block_id (bk_header block)).

Definition transportable (block : Block) : Prop := block_wire_wf block ∧ objects_allowed V1_5_ACTIVATION_HEIGHT block.

Lemma encode_nonempty block bytes : Block_to_bytes block = Some bytes → 0 < Z.of_nat (length bytes).
Proof.
  unfold Block_to_bytes, Block_encode. cbv zeta. destruct (_ <? _); [done|].
  intros (? & _ & (? & _ & (? & _ & (? & _ & [= <-])%bind_Some)%bind_Some)%bind_Some)%bind_Some. cbn [app length]. lia.
Qed.

Lemma try_from_parts_complete block terminal b :
  transportable block → byte_string terminal → bundle_of block terminal b →
  try_from_parts (ab_block_bytes b) terminal = Ok b.
Proof.
  intros [Hw Ho] Htb (block_bytes & He & Hlen & Hg & Ht & ->). cbn [ab_block_bytes]. unfold try_from_parts.
  pose proof (encode_nonempty _ _ He). pose proof (terminal_limit (bh_height (bk_header block))).
  apply terminal_checks_Ok in Ht as (Hlong & H1 & H2); [|done|apply Hw]. pose proof H1 as Hle.
  unfold validate_terminal_length_at_height in Hle. apply if_err_Ok in Hle as [Hle%Z.ltb_ge _].
  rewrite payload_lengths_complete by lia. cbn [mbind result_bind].
  unfold Block_from_bytes. rewrite (from_bytes_complete V1_5_ACTIVATION_HEIGHT _ _ Hw Ho He). cbn [map_err mbind result_bind].
  rewrite (proj2 (Z.eqb_neq _ _)) by done. rewrite H1. cbn [mbind result_bind]. rewrite H2. done.
Qed.

Lemma try_from_parts_Ok block_bytes terminal b :
  byte_string block_bytes → byte_string terminal →
  try_from_parts block_bytes terminal = Ok b ↔
  ∃ block, transportable block ∧ Block_to_bytes block = Some block_bytes ∧ bundle_of block terminal b.
Proof.
  intros Hbb Htb. unfold try_from_parts. split.
  - intros H. apply bind_Ok in H as (total & Hl & H). apply payload_lengths_Ok in Hl as (Hbl & Htl & _); [|lia..].
    apply bind_Ok in H as (block & Hd & H). apply map_err_Ok in Hd. apply from_bytes_sound in Hd as (Hw & Ho & He); [|done].
    apply if_err_Ok in H as [Hg H]. apply Z.eqb_neq in Hg. apply bind_Ok in H as ([] & H1 & H). apply bind_Ok in H as ([] & H2 & [= <-]).
    exists block. split_and!; [by split|done|]. exists block_bytes. split_and!; [done|lia|done| |done].
    apply terminal_checks_Ok; [done|apply Hw|]. split_and!; [lia|done..].
  - intros (block & Htr & He & Hof). pose proof (try_from_parts_complete block terminal b Htr Htb Hof) as H.
    destruct Hof as (bytes & He' & _ & _ & _ & ->). rewrite He in He'. by injection He' as <-.
Qed.

(** The constructor for local blocks agrees with the decoding one. *)
Lemma try_from_locally_built_Ok block terminal b :
  transportable block → byte_string terminal →
  try_from_locally_built_block block terminal = Ok b ↔ bundle_of block terminal b.
Proof.
  intros [Hw Ho] Htb. unfold try_from_locally_built_block. split.
  - intros H. apply if_err_Ok in H as [Hg H]. apply Z.eqb_neq in Hg. apply bind_Ok in H as (bytes & He%expect_Ok & H).
    apply bind_Ok in H as (total & Hl & H). apply map_err_Ok, payload_lengths_Ok in Hl as (Hbl & Htl & _); [|lia..].
    apply bind_Ok in H as ([] & H1%map_err_Ok & H). apply bind_Ok in H as ([] & H2%map_err_Ok & [= <-]).
    exists bytes. split_and!; [done|lia|done| |done]. apply terminal_checks_Ok; [done|apply Hw|]. split_and!; [lia|done..].
  - intros (bytes & He & Hlen & Hg & Ht & ->). pose proof (encode_nonempty _ _ He).
    pose proof (terminal_limit (bh_height (bk_header block))).
    apply terminal_checks_Ok in Ht as (Hlong & H1 & H2); [|done|apply Hw]. pose proof H1 as Hle.
    unfold validate_terminal_length_at_height in Hle. apply if_err_Ok in Hle as [Hle%Z.ltb_ge _].
    rewrite (proj2 (Z.eqb_neq _ _)) by done. rewrite He. cbn [expect ok_or mbind result_bind].
    rewrite payload_lengths_complete by lia. cbn [map_err mbind result_bind].
    rewrite H1. cbn [map_err mbind result_bind]. rewrite H2. done.
Qed.

(** ** The transport encoding *)

(** The bundles of some transportable block. *)
Definition accepted_bundle (b : AcceptedBlockBundle) : Prop :=
  ∃ block, transportable block ∧ bundle_of block (ab_history_step_terminal_bytes b) b.

Lemma u32_len_small bytes : Z.of_nat (length bytes) < 2 ^ 32 → u32_len bytes = Some (to_le_bytes 4 (Z.of_nat (length bytes))).
Proof. intros H. unfold u32_len. by rewrite (proj2 (Z.ltb_lt _ _)). Qed.

Lemma bundle_lengths block terminal b :
  transportable block → bundle_of block terminal b →
  0 < Z.of_nat (length (ab_block_bytes b)) ≤ MAX_BLOCK_BYTES
  ∧ Z.of_nat HISTORY_STEP_TERMINAL_BINDING_BYTES < Z.of_nat (length terminal) ≤ MAX_HISTORY_STEP_TERMINAL_TRANSPORT_BYTES.
Proof.
  intros [Hw _] (bytes & He & Hlen & _ & [(class & tail & _ & Hne & Heq) Hlim] & ->). cbn [ab_block_bytes].
  pose proof (encode_nonempty _ _ He). pose proof (terminal_limit (bh_height (bk_header block))).
  split; [lia|]. split; [|lia]. rewrite Heq, length_app, length_encode_prefix by apply finalize_digest.
  destruct tail; [done|]. cbn [length]. lia.
Qed.

Lemma bundle_encodes b :
  accepted_bundle b →
  AcceptedBlockBundle_encode b = Some (ACCEPTED_BLOCK_BUNDLE_MAGIC
    ++ to_le_bytes 4 (Z.of_nat (length (ab_block_bytes b)))
    ++ to_le_bytes 4 (Z.of_nat (length (ab_history_step_terminal_bytes b)))
    ++ ab_block_bytes b ++ ab_history_step_terminal_bytes b).
Proof.
  intros (block & Ht & Hb). destruct (bundle_lengths _ _ _ Ht Hb) as [Hl1 Hl2].
  change MAX_BLOCK_BYTES with 82905 in Hl1. change MAX_HISTORY_STEP_TERMINAL_TRANSPORT_BYTES with 1200000 in Hl2.
  unfold AcceptedBlockBundle_encode. rewrite !u32_len_small by lia. done.
Qed.

(** The frame: magic, two lengths, the two payloads and nothing else. *)
Definition framed (block_bytes terminal : list Z) : list Z :=
  ACCEPTED_BLOCK_BUNDLE_MAGIC ++ to_le_bytes 4 (Z.of_nat (length block_bytes)) ++ to_le_bytes 4 (Z.of_nat (length terminal))
  ++ block_bytes ++ terminal.

Lemma le_word_at n bytes :
  byte_string bytes → (n + 4 ≤ length bytes)%nat →
  0 ≤ from_le_bytes (take 4 (drop n bytes)) < 2 ^ 32
  ∧ drop n bytes = to_le_bytes 4 (from_le_bytes (take 4 (drop n bytes))) ++ drop (n + 4) bytes.
Proof.
  intros Hb Hn. assert (Hl : length (take 4 (drop n bytes)) = 4%nat) by (rewrite length_take, length_drop; lia).
  assert (Hw : byte_string (take 4 (drop n bytes))) by (by apply Forall_take, Forall_drop). split.
  - pose proof (from_le_bytes_bound _ Hw) as H. rewrite Hl in H. exact H.
  - pose proof (to_from_le_bytes _ Hw) as H. rewrite Hl in H. rewrite H. rewrite <- drop_drop. by rewrite take_drop.
Qed.

Lemma decode_frame bytes b :
  byte_string bytes → AcceptedBlockBundle_decode bytes = Ok b →
  ∃ block_bytes terminal, bytes = framed block_bytes terminal ∧ try_from_parts block_bytes terminal = Ok b.
Proof.
  intros Hb H. unfold AcceptedBlockBundle_decode in H. apply if_err_Ok in H as [_ H]. apply if_err_Ok in H as [Hlen H].
  apply Z.ltb_ge in Hlen. change ACCEPTED_BLOCK_BUNDLE_HEADER_BYTES with 12 in *.
  apply if_err_Ok in H as [Hm H]. apply bool_decide_eq_false, dec_stable in Hm.
  destruct (le_word_at 4 bytes Hb) as [Hb1 H1]; [lia|]. destruct (le_word_at 8 bytes Hb) as [Hb2 H2]; [lia|].
  set (bl := from_le_bytes (take 4 (drop 4 bytes))) in *. set (tl := from_le_bytes (take 4 (drop 8 bytes))) in *.
  apply bind_Ok in H as (payload & Hp & H). apply payload_lengths_Ok in Hp as (Hbl & Htl & ->); [|lia..].
  apply bind_Ok in H as (expected & [-> _]%ok_or_Ok%checked_add_Some & H).
  destruct (Z.compare_spec (Z.of_nat (length bytes)) (12 + (bl + tl))) as [Heq| |]; [|done..].
  apply bind_Ok in H as (block_end & [-> _]%ok_or_Ok%checked_add_Some & H).
  eexists _, _. split; [|exact H].
  replace (Z.to_nat (12 + bl)) with (12 + Z.to_nat bl)%nat by lia. rewrite <- drop_drop.
  rewrite (take_ge (drop _ (drop _ _))) by (rewrite !length_drop; lia). unfold framed. rewrite take_drop.
  rewrite length_take, !length_drop. replace (Z.of_nat (_ `min` _)) with bl by lia.
  replace (Z.of_nat (length bytes - 12 - Z.to_nat bl)) with tl by lia.
  rewrite <- Hm. change 12%nat with (8 + 4)%nat. rewrite <- H2. change 8%nat with (4 + 4)%nat. rewrite <- H1. by rewrite take_drop.
Qed.

Lemma frame_decodes block_bytes terminal b :
  try_from_parts block_bytes terminal = Ok b → AcceptedBlockBundle_decode (framed block_bytes terminal) = Ok b.
Proof.
  intros H. pose proof H as Hl. unfold try_from_parts in Hl. apply bind_Ok in Hl as (total & Hl & _).
  pose proof Hl as Hpl. apply payload_lengths_Ok in Hl as (Hb & Ht & ->); [|lia..].
  assert (Hlen : length (framed block_bytes terminal) = (12 + length block_bytes + length terminal)%nat)
    by (unfold framed; rewrite !length_app, !length_to_le_bytes; cbn; lia).
  unfold AcceptedBlockBundle_decode. change ACCEPTED_BLOCK_BUNDLE_HEADER_BYTES with 12.
  rewrite (proj2 (Z.ltb_ge _ _)) by (unfold MAX_ACCEPTED_BLOCK_BUNDLE_BYTES; change ACCEPTED_BLOCK_BUNDLE_HEADER_BYTES with 12; lia).
  rewrite (proj2 (Z.ltb_ge _ _)) by lia. rewrite bool_decide_false by (intros Hn; apply Hn; reflexivity).
  change MAX_BLOCK_BYTES with 82905 in *. change MAX_HISTORY_STEP_TERMINAL_TRANSPORT_BYTES with 1200000 in *.
  assert (Hw1 : from_le_bytes (take 4 (drop 4 (framed block_bytes terminal))) = Z.of_nat (length block_bytes)).
  { unfold framed. rewrite drop_app_length', take_app_length' by (rewrite ?length_to_le_bytes; done). apply from_to_le_bytes. lia. }
  assert (Hw2 : from_le_bytes (take 4 (drop 8 (framed block_bytes terminal))) = Z.of_nat (length terminal)).
  { unfold framed. rewrite (app_assoc ACCEPTED_BLOCK_BUNDLE_MAGIC), drop_app_length' by (rewrite length_app, length_to_le_bytes; done).
    rewrite take_app_length' by (by rewrite length_to_le_bytes). apply from_to_le_bytes. lia. }
  assert (Hd : drop 12 (framed block_bytes terminal) = block_bytes ++ terminal).
  { unfold framed. rewrite !app_assoc, <- (app_assoc _ block_bytes). apply drop_app_length'. by rewrite !length_app, !length_to_le_bytes. }
  rewrite Hw1, Hw2, Hpl. cbn [mbind result_bind].
  rewrite (proj2 (checked_add_Some 64 _ _ _)) by (split; [reflexivity|]; lia). cbn [ok_or mbind result_bind].
  rewrite (proj2 (checked_add_Some 64 _ _ _)) by (split; [reflexivity|]; lia). cbn [ok_or mbind result_bind].
  rewrite (proj2 (Z.compare_eq_iff _ _)) by lia.
  replace (Z.to_nat (12 + Z.of_nat (length block_bytes))) with (12 + length block_bytes)%nat by lia.
  rewrite <- drop_drop, Hd, Nat2Z.id, take_app_length, drop_app_length, take_ge by lia. exact H.
Qed.

Lemma bundle_parts_bytes block terminal b :
  transportable block → bundle_of block terminal b → ab_history_step_terminal_bytes b = terminal.
Proof. by intros _ (? & _ & _ & _ & _ & ->). Qed.

Lemma framed_bytes block_bytes terminal :
  byte_string (framed block_bytes terminal) ↔ byte_string block_bytes ∧ byte_string terminal.
Proof.
  unfold framed. rewrite !byte_string_app. split; [tauto|]. intros [H1 H2].
  split_and!; [by apply (bool_decide_unpack _)|apply to_le_bytes_bytes..|done|done].
Qed.

End bundles.

(** C6: the transport decoder accepts exactly the encodings of accepted
    bundles, and returns the bundle that was encoded: the canonical bytes of a
    well-formed, non-genesis block, its height and hash, and a non-empty terminal
    of the height's size class whose prefix names this very block. *)
Theorem bundle_wire_exact {P : Poseidon2bPermutation} bytes b (Hbytes : byte_string bytes) :
  AcceptedBlockBundle_decode bytes = Ok b ↔ accepted_bundle b ∧ AcceptedBlockBundle_encode b = Some bytes.
Proof.
  split.
  - intros (block_bytes & terminal & -> & Hp)%decode_frame; [|done]. apply framed_bytes in Hbytes as [Hb Ht].
    apply try_from_parts_Ok in Hp as (block & Htr & He & Hof); [|done..].
    assert (accepted_bundle b) as Ha.
    { exists block. split; [done|]. by rewrite (bundle_parts_bytes _ _ _ Htr Hof). }
    split; [done|]. rewrite bundle_encodes by done. rewrite (bundle_parts_bytes _ _ _ Htr Hof).
    destruct Hof as (bytes & He' & _ & _ & _ & ->). rewrite He in He'. by injection He' as <-.
  - intros [Ha He]. rewrite bundle_encodes in He by done. injection He as <-. apply framed_bytes in Hbytes as [Hb Ht].
    apply frame_decodes, try_from_parts_Ok; [done..|]. destruct Ha as (block & Htr & Hof). exists block.
    split_and!; [done| |done]. by destruct Hof as (bytes & He' & _ & _ & _ & ->).
Qed.

Definition example_bundle_block : Block :=
  mkBlock example_header
    [mkTransaction (mkTxBody zero_digest 0 zero_digest (replicate 8 TxInput_dummy)
       [mkTxOutput 3 5000 (replicate 32 9); TxOutput_dummy] 0x100 true)] [].

Definition example_terminal : list Z :=
  encode_prefix (mkTerminalMetadata (bh_height example_header) (semantic_header_id (P := example_permutation) example_header) 2)
  ++ [7; 7; 7].

Lemma bundle_wire_exact_witness :
  let bytes := framed (default [] (Block_to_bytes (P := example_permutation) example_bundle_block)) example_terminal in
  ∃ b, accepted_bundle (P := example_permutation) b ∧ AcceptedBlockBundle_encode b = Some bytes.
Proof.
  intros bytes. assert (byte_string bytes) as Hb by (apply (bool_decide_unpack _); vm_compute; exact I).
  assert (∃ b, AcceptedBlockBundle_decode (P := example_permutation) bytes = Ok b) as [b Hd]
    by (eexists; vm_compute; reflexivity).
  exists b. exact (proj1 (bundle_wire_exact (P := example_permutation) bytes b Hb) Hd).
Defined.
