(* ===== verification/Seal.v ===== *)
(** * Sealing a template

    [consensus/template.rs]: the step from a prepared, node-owned template to the
    commit capability of the block that was mined and proved on it. Sealing
    compares the block with the prepared header, body, post-state and undo log,
    and builds the transport bundle of the block and its history-step terminal.
    The theorem follows a template from the builder to the wire. *)

From S2P Require Import Prelude Machine Params Emission Poseidon TxTypes TxWire PagedSpend Fees BlockStream Merkle SlotState SlotInv SparseRoot ChainState ChainStateInv BlockHeader TxTree ClientObjects Consensus Conflict Block Difficulty Pow Header BlockWire Validation Supply ValidationProps Allocator MintSlot Template TemplateProps Bundle.

(** ** Sealing a prepared template *)

Definition cached_state_root (cs : ChainState) : list Z := cs_utxo_root cs.

Section seal.
  Context {P : Poseidon2bPermutation} {View : Type}.

Record LocallyProvedBlockCommit := mkLocallyProved {
  lp_parent_header : BlockHeader;
  lp_block : Block;
  lp_bundle : AcceptedBlockBundle;
  lp_post_state : ChainState;
  lp_undo_log : BlockUndoLog;
  lp_client_view : View;
}.

Inductive SealError :=
  | SealHeaderDiffers
  | SealInvalidStream
  | SealBodyDiffers
  | SealPostStateDiffers
  | SealUndoHeight
  | SealBundle (e : AcceptedBlockBundleError).

Definition nonce_free (h : BlockHeader) : BlockHeader :=
  mkBlockHeader (bh_prev_block_hash h) (bh_state_root h) (bh_tx_root h) (bh_timestamp h) (bh_height h)
    (bh_miner_address h) 0 (bh_difficulty_target h) (bh_log_slots h) (bh_active_slot_count h) (bh_alloc_counter h).

Definition seal_after_trusted_history_step_proof_unchecked (prepared : PreparedBlockStateCommit) (block : Block)
    (terminal : list Z) (client_view : View) : result (fault SealError) LocallyProvedBlockCommit :=
  let header := bk_header block in
  let post := pc_post_state prepared in
  if bool_decide (nonce_free header ≠ pc_nonce_free_header prepared) then Err (Fail SealHeaderDiffers)
  else
    tx_hashes ← map_err (λ _, Fail SealInvalidStream) (try_compute_logical_txids (bk_transactions block));
    if bool_decide (tx_hashes ≠ ul_tx_hashes (pc_undo_log prepared)) then Err (Fail SealBodyDiffers)
    else if bool_decide (cached_state_root post ≠ bh_state_root header)
            || negb (wrap 32 (Z.of_nat (sg_log_slots (cs_state post))) =? bh_log_slots header)
            || negb (cs_active_slot_count post =? bh_active_slot_count header)
            || negb (cs_alloc_counter post =? bh_alloc_counter header)
    then Err (Fail SealPostStateDiffers)
    else if negb (ul_block_height (pc_undo_log prepared) =? bh_height header) then Err (Fail SealUndoHeight)
    else
      bundle ← map_fault SealBundle (try_from_locally_built_block block terminal);
      Ok (mkLocallyProved (pc_parent_header prepared) block bundle post (pc_undo_log prepared) client_view).

End seal.

Arguments LocallyProvedBlockCommit : clear implicits.

(** ** From the builder to the wire *)

Section sealed.
  Context {P : Poseidon2bPermutation} {C : SegmentCommitment}.

Lemma built_transportable parent state counts template post nonce :
  built_block parent state counts template post nonce → BlockHeader_wf (into_header template nonce) →
  transportable (into_block template nonce).
Proof. intros Hb Hh. split; [|by left]. split; [exact Hh| |constructor]. eapply Forall_impl; [apply Hb|]. by intros tx [? _]. Qed.

Lemma built_encodes parent state counts template post nonce :
  built_block parent state counts template post nonce → BlockHeader_wf (into_header template nonce) →
  ∃ bytes, Block_to_bytes (into_block template nonce) = Some bytes ∧ Z.of_nat (length bytes) ≤ MAX_BLOCK_BYTES.
Proof.
  intros Hb Hh. destruct (built_transportable _ _ _ _ _ _ Hb Hh) as [Hw _].
  assert (He : Block_encode (into_block template nonce) = Some (block_bytes (into_block template nonce) [])).
  { apply Block_encode_Some; [done|]. split; [|split; [apply Hb|]]; [|by exists []].
    split; [apply Hb|]. intros _. apply Hb. }
  eexists. split; [exact He|]. pose proof (wire_len_ok _ _ Hw He) as Hl.
  pose proof (bb_count _ _ _ _ _ _ Hb) as Hn. unfold Block_canonical_wire_len, canonical_block_wire_len in Hl.
  cbn [bk_client_objects into_block length] in Hl. rewrite decide_False in Hl by (unfold MAX_BLOCK_CLIENT_OBJECTS; lia).
  rewrite (proj2 (Z.ltb_ge _ _)) in Hl by exact Hn.
  apply bind_Ok in Hl as (len & Hlen%ok_or_Ok & Hl%ok_or_Ok). apply bind_Some in Hlen as (tb & [-> _]%checked_mul_Some & [-> _]%checked_add_Some).
  apply checked_add_Some in Hl as [Hl _]. rewrite Hl. change BLOCK_MAX_TXS with 256 in Hn.
  change MAX_BLOCK_BYTES with 82905. change (Z.of_nat (client_objects_section_wire_len [])) with 0.
  change (Z.of_nat BLOCK_WIRE_FIXED_OVERHEAD) with 217. change (Z.of_nat TRANSACTION_WIRE_SIZE) with 323. lia.
Qed.

Lemma seal_checks_pass prepared block terminal (View : Type) (view : View) tx_hashes bundle :
  nonce_free (bk_header block) = pc_nonce_free_header prepared →
  try_compute_logical_txids (bk_transactions block) = Ok tx_hashes →
  tx_hashes = ul_tx_hashes (pc_undo_log prepared) →
  cs_utxo_root (pc_post_state prepared) = bh_state_root (bk_header block) →
  wrap 32 (Z.of_nat (sg_log_slots (cs_state (pc_post_state prepared)))) = bh_log_slots (bk_header block) →
  cs_active_slot_count (pc_post_state prepared) = bh_active_slot_count (bk_header block) →
  cs_alloc_counter (pc_post_state prepared) = bh_alloc_counter (bk_header block) →
  ul_block_height (pc_undo_log prepared) = bh_height (bk_header block) →
  try_from_locally_built_block block terminal = Ok bundle →
  seal_after_trusted_history_step_proof_unchecked prepared block terminal view
  = Ok (mkLocallyProved (pc_parent_header prepared) block bundle (pc_post_state prepared) (pc_undo_log prepared) view).
Proof.
  intros Hh Ht -> Hr Hl Ha Hc Hu Hb. unfold seal_after_trusted_history_step_proof_unchecked, cached_state_root. cbv zeta.
  rewrite bool_decide_false by (intros Hn; exact (Hn Hh)). rewrite Ht. cbn [map_err mbind result_bind].
  rewrite bool_decide_false by (intros Hn; apply Hn; reflexivity). rewrite bool_decide_false by (intros Hn; exact (Hn Hr)).
  rewrite (proj2 (Z.eqb_eq _ _) Hl), (proj2 (Z.eqb_eq _ _) Ha), (proj2 (Z.eqb_eq _ _) Hc), (proj2 (Z.eqb_eq _ _) Hu).
  cbn [negb orb]. rewrite Hb. reflexivity.
Qed.

End sealed.

(** C5: a node-owned template can always be sealed and sent. For any nonce,
    sealing the template's own block with a history-step terminal bound to it
    succeeds; the commit carries the post-state that applying the block yields and
    the undo log of the parent state; and its bundle encodes to bytes from which a
    peer decodes the same bundle. *)
Theorem sealed_template_transports {P : Poseidon2bPermutation} {C : SegmentCommitment} {View : Type}
    parent state counts candidates miner timestamp target template prepared nonce terminal (view : View)
    (Hledger : ledger parent state) (Hheight : bh_height parent + 1 < 2 ^ 63)
    (Hwf : Forall tx_wf candidates) (Hminer : is_digest miner)
    (Hbuild : build_node_owned_block_template parent state counts candidates miner timestamp target
              = Ok (template, prepared))
    (Hheader : BlockHeader_wf (into_header template nonce))
    (Hterminal : byte_string terminal) (Hbound : terminal_binds (into_header template nonce) terminal) :
  let block := into_block template nonce in
  ∃ bundle undo bytes,
    seal_after_trusted_history_step_proof_unchecked prepared block terminal view
    = Ok (mkLocallyProved parent block bundle (pc_post_state prepared) undo view)
    ∧ apply_block state block = Ok (bh_state_root (bk_header block), pc_post_state prepared)
    ∧ build_undo_log state block = Ok undo
    ∧ AcceptedBlockBundle_encode bundle = Some bytes
    ∧ AcceptedBlockBundle_decode bytes = Ok bundle.
Proof.
  unfold build_node_owned_block_template in Hbuild. apply bind_Ok in Hbuild as ([template' post] & Hbuild & H).
  apply bind_Ok in H as (undo & Hundo & H). injection H as -> <-.
  pose proof (template_built _ _ _ _ _ _ _ _ _ nonce Hledger Hheight Hwf Hminer Hbuild) as Hb.
  pose proof (built_transportable _ _ _ _ _ _ Hb Hheader) as Htr.
  destruct (built_encodes _ _ _ _ _ _ Hb Hheader) as (block_bytes & He & Hlen).
  set (block := into_block template nonce) in *. cbv zeta.
  set (bundle := mkBundle block_bytes terminal (bh_height (bk_header block)) (block_id (bk_header block))).
  assert (Hof : bundle_of block terminal bundle).
  { exists block_bytes. split_and!; [done|done| |exact Hbound|reflexivity].
    change (bt_height template ≠ 0). rewrite (bb_height _ _ _ _ _ _ Hb). destruct (ledger_bounds _ _ Hledger) as [_ Hh]. lia. }
  assert (Hundo' : build_undo_log state block = Ok undo).
  { apply map_err_Ok in Hundo. exact Hundo. }
  pose proof (proj2 (try_from_locally_built_Ok block terminal bundle Htr Hterminal) Hof) as Hlocal.
  assert (Hacc : accepted_bundle bundle) by (exists block; split; [exact Htr|exact Hof]).
  pose proof (try_from_parts_complete block terminal bundle Htr Hterminal Hof) as Hparts.
  exists bundle, undo, (framed block_bytes terminal). split_and!.
  - pose proof Hundo' as Hu. unfold build_undo_log in Hu. apply bind_Ok in Hu as (ids & Hids%map_err_Ok & Hu).
    apply bind_Ok in Hu as ([seen changes] & _ & [= <-]).
    apply (seal_checks_pass (mkPrepared _ _ _ _) block terminal View view ids bundle);
      cbn [pc_nonce_free_header pc_post_state pc_undo_log ul_tx_hashes ul_block_height].
    + reflexivity.
    + exact Hids.
    + reflexivity.
    + symmetry. apply Hb.
    + rewrite <- (bb_log _ _ _ _ _ _ Hb). apply wrap_small. apply (hw_log_slots _ Hheader).
    + symmetry. apply Hb.
    + symmetry. apply Hb.
    + reflexivity.
    + exact Hlocal.
  - apply Hb.
  - exact Hundo'.
  - exact (bundle_encodes bundle Hacc).
  - exact (frame_decodes _ _ _ Hparts).
Qed.

(** A terminal for a header: its metadata prefix and one proof byte. *)
Definition example_bound_terminal (header : BlockHeader) : list Z :=
  encode_prefix (mkTerminalMetadata (bh_height header) (semantic_header_id (P := narrow_permutation) header) 0) ++ [1].

Lemma sealed_template_transports_witness :
  ∃ state template prepared bundle undo bytes,
    build_node_owned_block_template (P := narrow_permutation) (C := example_commitment)
      (bk_header ledger_genesis_block) state [] [] (replicate 32 9) 1700000600 (expected_target ledger_anchor 1 1700000000)
    = Ok (template, prepared)
    ∧ seal_after_trusted_history_step_proof_unchecked (P := narrow_permutation) prepared (into_block template 5)
        (example_bound_terminal (into_header template 5)) tt
      = Ok (mkLocallyProved (bk_header ledger_genesis_block) (into_block template 5) bundle (pc_post_state prepared) undo tt)
    ∧ AcceptedBlockBundle_decode (P := narrow_permutation) bytes = Ok bundle.
Proof.
  assert (∃ empty r0 genesis template prepared,
    with_log_slots (P := narrow_permutation) (C := example_commitment) 4 = Some empty
    ∧ apply_genesis_block (P := narrow_permutation) empty ledger_genesis_block = Ok (r0, genesis)
    ∧ build_node_owned_block_template (P := narrow_permutation) (C := example_commitment)
        (bk_header ledger_genesis_block) genesis [] [] (replicate 32 9) 1700000600 (expected_target ledger_anchor 1 1700000000)
      = Ok (template, prepared)
    ∧ BlockHeader_wf (into_header template 5)
    ∧ byte_string (example_bound_terminal (into_header template 5))
    ∧ Z.of_nat (length (example_bound_terminal (into_header template 5)))
      ≤ history_step_terminal_bytes_limit (bh_height (into_header template 5)))
    as (empty & r0 & genesis & template & prepared & Hw & Hg & Hb & Hh & Ht & Hl).
  { eexists _, _, _, _, _. split; [vm_compute; reflexivity|]. split; [vm_compute; reflexivity|].
    split; [vm_compute; reflexivity|]. split; [constructor; apply (bool_decide_unpack _); vm_compute; exact I|].
    split; [apply (bool_decide_unpack _); vm_compute; exact I|]. vm_compute. discriminate. }
  destruct (sealed_template_transports (P := narrow_permutation) (C := example_commitment)
    (bk_header ledger_genesis_block) genesis [] [] (replicate 32 9) 1700000600 (expected_target ledger_anchor 1 1700000000)
    template prepared 5 (example_bound_terminal (into_header template 5)) tt) as (bundle & undo & bytes & Hs & _ & _ & _ & Hd);
    [..|exact Hb|exact Hh|exact Ht| |].
  - apply (ledger_genesis ledger_genesis_block empty r0 genesis); [|split; discriminate|exact Hw|exact Hg].
    constructor; apply (bool_decide_unpack _); vm_compute; exact I.
  - vm_compute. reflexivity.
  - constructor.
  - apply (bool_decide_unpack (is_digest (replicate 32 9))). vm_compute. exact I.
  - split; [|exact Hl]. exists 0, [1]. split; [split; [discriminate|reflexivity]|]. split; [discriminate|reflexivity].
  - exists genesis, template, prepared, bundle, undo, bytes. split; [exact Hb|]. split; [exact Hs|exact Hd].
Defined.
