(* ===== verification/HeaderAnchor.v ===== *)
(** * Header-chain anchors

    [header_anchor.rs]: the summary of the tip of a header chain that history
    proofs bind to, computed from a whole prefix or extended by one header. The
    theorem says which prefixes have an anchor, what the anchor states, and that
    the two ways to compute it agree, errors included. *)

From S2P Require Import Prelude Machine Params Poseidon TxTypes BlockHeader.

Record HeaderChainAnchor := mkHeaderChainAnchor {
  ha_height : Z;
  ha_block_id : list Z;
  ha_state_root : list Z;
  ha_tx_root : list Z;
  ha_miner_address : list Z;
  ha_log_slots : Z;
  ha_active_slot_count : Z;
  ha_alloc_counter : Z;
  ha_cumulative_chainwork : list Z;
}.

Inductive HeaderChainAnchorError :=
  | HA_Empty
  | HA_StartsAfterGenesis (first_height : Z)
  | HA_NonContiguous (expected actual : Z)
  | HA_BadParentLink (height : Z).

Section anchor.
  Context {P : Poseidon2bPermutation}.

Definition extend_header_chain_anchor_prehashed (previous : HeaderChainAnchor) (header : BlockHeader) (block_id : list Z)
    (cumulative_chainwork : list Z) : result HeaderChainAnchorError HeaderChainAnchor :=
  let expected := saturating_add 64 (ha_height previous) 1 in
  if negb (bh_height header =? expected) then Err (HA_NonContiguous expected (bh_height header))
  else if bool_decide (bh_prev_block_hash header ≠ ha_block_id previous) then Err (HA_BadParentLink (bh_height header))
  else Ok (mkHeaderChainAnchor (bh_height header) block_id (bh_state_root header) (bh_tx_root header)
             (bh_miner_address header) (bh_log_slots header) (bh_active_slot_count header) (bh_alloc_counter header)
             cumulative_chainwork).

Definition extend_header_chain_anchor (previous : HeaderChainAnchor) (header : BlockHeader)
    (cumulative_chainwork : list Z) : result HeaderChainAnchorError HeaderChainAnchor :=
  extend_header_chain_anchor_prehashed previous header (block_id header) cumulative_chainwork.

(** The loop's variables: the next height, the previous block id and the tip. *)
Definition anchor_step (acc : Z * list Z * option (BlockHeader * list Z)) (header : BlockHeader) :
    result HeaderChainAnchorError (Z * list Z * option (BlockHeader * list Z)) :=
  let '(expected_height, previous_block_id, _) := acc in
  if negb (bh_height header =? expected_height) then Err (HA_NonContiguous expected_height (bh_height header))
  else if (0 <? bh_height header) && bool_decide (bh_prev_block_hash header ≠ previous_block_id)
  then Err (HA_BadParentLink (bh_height header))
  else
    let id := block_id header in
    Ok (saturating_add 64 expected_height 1, id, Some (header, id)).

Definition compute_header_chain_anchor (headers : list BlockHeader) (cumulative_chainwork : list Z) :
    result (fault HeaderChainAnchorError) HeaderChainAnchor :=
  match headers with
  | [] => Err (Fail HA_Empty)
  | first :: _ =>
      if negb (bh_height first =? 0) then Err (Fail (HA_StartsAfterGenesis (bh_height first)))
      else
        '(_, _, tip) ← map_err Fail (try_fold anchor_step (0, replicate 32 0, None) headers);
        '(tip_header, id) ← expect tip;
        Ok (mkHeaderChainAnchor (bh_height tip_header) id (bh_state_root tip_header) (bh_tx_root tip_header)
              (bh_miner_address tip_header) (bh_log_slots tip_header) (bh_active_slot_count tip_header)
              (bh_alloc_counter tip_header) cumulative_chainwork)
  end.

(** ** Anchored chains *)

#[local] Opaque block_id.

(** The anchor of a tip. *)
Definition anchor_of (tip : BlockHeader) (work : list Z) : HeaderChainAnchor :=
  mkHeaderChainAnchor (bh_height tip) (block_id tip) (bh_state_root tip) (bh_tx_root tip) (bh_miner_address tip)
    (bh_log_slots tip) (bh_active_slot_count tip) (bh_alloc_counter tip) work.

(** Headers from genesis, each at its position and naming its predecessor. *)
Definition anchored (headers : list BlockHeader) : Prop :=
  ∀ i h, headers !! i = Some h →
    bh_height h = Z.of_nat i ∧ ∀ p, headers !! pred i = Some p → (0 < i)%nat → bh_prev_block_hash h = block_id p.

Definition fold_state (headers : list BlockHeader) : Z * list Z * option (BlockHeader * list Z) :=
  (Z.of_nat (length headers), default (replicate 32 0) (block_id <$> last headers), (λ h, (h, block_id h)) <$> last headers).

Lemma anchored_snoc headers h :
  anchored (headers ++ [h]) ↔
  anchored headers ∧ bh_height h = Z.of_nat (length headers)
  ∧ (∀ p, last headers = Some p → bh_prev_block_hash h = block_id p).
Proof.
  split.
  - intros H. split_and!.
    + intros i x Hi. pose proof (lookup_lt_Some _ _ _ Hi).
      destruct (H i x) as [H1 H2]; [by rewrite lookup_app_l|]. split; [done|]. intros p Hp. apply H2.
      rewrite lookup_app_l; [done|]. lia.
    + apply (H (length headers)). by rewrite list_lookup_middle.
    + intros p Hp. rewrite last_lookup in Hp. pose proof (lookup_lt_Some _ _ _ Hp).
      apply (H (length headers)); [by rewrite list_lookup_middle| |lia]. by rewrite lookup_app_l.
  - intros (H & Hh & Hl) i x Hi. destruct (decide (i < length headers)%nat).
    + rewrite lookup_app_l in Hi by done. destruct (H i x Hi) as [H1 H2]. split; [done|]. intros p Hp.
      rewrite lookup_app_l in Hp by lia. by apply H2.
    + apply lookup_app_Some in Hi as [Hi|[Hle Hi]]; [apply lookup_lt_Some in Hi; lia|].
      apply list_lookup_singleton_Some in Hi as [Hi <-]. assert (i = length headers) as -> by lia. split; [done|].
      intros p Hp Hpos. apply Hl. rewrite last_lookup. by rewrite lookup_app_l in Hp by lia.
Qed.

Lemma anchor_step_Ok headers h r :
  Z.of_nat (length headers) < uint_max 64 →
  anchor_step (fold_state headers) h = Ok r ↔
  bh_height h = Z.of_nat (length headers) ∧ (∀ p, last headers = Some p → bh_prev_block_hash h = block_id p)
  ∧ r = fold_state (headers ++ [h]).
Proof.
  intros Hlen. unfold anchor_step, fold_state at 1. rewrite !if_err_Ok, negb_false_iff, Z.eqb_eq.
  assert (Hr : ∀ x, (Ok (saturating_add 64 (Z.of_nat (length headers)) 1, block_id h, Some (h, block_id h))
                     : result HeaderChainAnchorError _) = Ok x ↔ x = fold_state (headers ++ [h])).
  { intros x. unfold fold_state. rewrite last_snoc, length_app. unfold saturating_add. cbn [fmap option_fmap option_map default length].
    rewrite Z.min_l by lia. rewrite Nat2Z.inj_add. split; [by intros [= <-]|by intros ->]. }
  rewrite Hr. split.
  - intros (Hh & Hl & ->). split_and!; [done| |done]. intros p Hp. rewrite Hp in Hl. cbn [fmap option_fmap option_map default] in Hl.
    rewrite last_lookup in Hp. pose proof (lookup_lt_Some _ _ _ Hp). rewrite Hh, (proj2 (Z.ltb_lt _ _)) in Hl by lia.
    by apply bool_decide_eq_false, dec_stable in Hl.
  - intros (Hh & Hl & ->). split_and!; [done| |done]. rewrite Hh.
    destruct (last headers) as [p|] eqn:Hp.
    + rewrite (Hl p eq_refl). cbn [fmap option_fmap option_map default]. rewrite bool_decide_false; [apply andb_false_r|].
      intros Hn. apply Hn. reflexivity.
    + apply last_None in Hp as ->. done.
Qed.

Lemma anchor_fold_Ok headers r :
  Z.of_nat (length headers) ≤ uint_max 64 →
  try_fold anchor_step (0, replicate 32 0, None) headers = Ok r ↔ anchored headers ∧ r = fold_state headers.
Proof.
  revert r. induction headers as [|h headers IH] using rev_ind; intros r Hlen.
  { cbn. split; [intros [= <-]|by intros [_ ->]]. split; [|done]. by intros i x. }
  rewrite length_app in Hlen. cbn [length] in Hlen. rewrite try_fold_app, bind_Ok, anchored_snoc. split.
  - intros (s & [Ha ->]%IH & H); [|lia]. cbn [try_fold] in H. apply bind_Ok in H as (r' & H & [= <-]).
    apply anchor_step_Ok in H as (H1 & H2 & ->); [|lia]. auto.
  - intros ((Ha & Hh & Hl) & ->). exists (fold_state headers). split; [apply IH; [lia|done]|].
    cbn [try_fold]. rewrite (proj2 (anchor_step_Ok headers h _ ltac:(lia))) by (split_and!; [exact Hh|exact Hl|reflexivity]). done.
Qed.

Lemma tip_pair {A B} (f : A → B) (o : option A) t i : (λ h, (h, f h)) <$> o = Some (t, i) → o = Some t ∧ i = f t.
Proof. destruct o; [|done]. by intros [= -> ->]. Qed.

Lemma compute_Ok headers work a :
  Z.of_nat (length headers) ≤ uint_max 64 →
  compute_header_chain_anchor headers work = Ok a ↔
  anchored headers ∧ ∃ tip, last headers = Some tip ∧ a = anchor_of tip work.
Proof.
  intros Hlen. destruct headers as [|first rest] eqn:Eh.
  { split; [done|]. by intros (_ & tip & [=] & _). }
  unfold compute_header_chain_anchor. rewrite <- Eh in *. rewrite if_err_Ok, negb_false_iff, Z.eqb_eq, bind_Ok. split.
  - intros (_ & [[e id] tip] & Hf%map_err_Ok & H). apply anchor_fold_Ok in Hf as [Ha [= -> -> ->]]; [|done].
    split; [done|]. apply bind_Ok in H as ([t i] & Ht%expect_Ok & [= <-]). apply tip_pair in Ht as [Hl ->].
    exists t. split; [exact Hl|reflexivity].
  - intros (Ha & tip & Hl & ->). split; [by apply (Ha 0%nat); rewrite Eh|]. exists (fold_state headers).
    rewrite (proj2 (anchor_fold_Ok headers _ Hlen)) by done. split; [done|]. unfold fold_state. by rewrite Hl.
Qed.

Lemma compute_snoc headers h work a work' :
  Z.of_nat (length headers) < uint_max 64 → compute_header_chain_anchor headers work = Ok a →
  compute_header_chain_anchor (headers ++ [h]) work' = map_err Fail (extend_header_chain_anchor a h work').
Proof.
  intros Hlen [Ha (tip & Hl & ->)]%compute_Ok; [|lia].
  assert (Hpos : (0 < length headers)%nat) by (rewrite last_lookup in Hl; apply lookup_lt_Some in Hl; lia).
  assert (Htip : bh_height tip = Z.of_nat (length headers) - 1).
  { rewrite last_lookup in Hl. rewrite (proj1 (Ha _ _ Hl)). lia. }
  destruct headers as [|first rest] eqn:Eh; [done|]. unfold compute_header_chain_anchor. cbn [app].
  assert (bh_height first = 0) as -> by (by apply (Ha 0%nat)). cbn [Z.eqb negb].
  change (first :: rest ++ [h]) with ((first :: rest) ++ [h]). rewrite <- Eh in *. rewrite try_fold_app.
  rewrite (proj2 (anchor_fold_Ok headers (fold_state headers) ltac:(lia))) by done. cbn [mbind result_bind try_fold].
  unfold extend_header_chain_anchor, extend_header_chain_anchor_prehashed, anchor_step, fold_state, anchor_of.
  rewrite Hl. cbn [fmap option_fmap option_map default ha_height ha_block_id].
  assert (saturating_add 64 (bh_height tip) 1 = Z.of_nat (length headers)) as -> by (unfold saturating_add; lia).
  destruct (Z.eqb_spec (bh_height h) (Z.of_nat (length headers))) as [Hh|]; [|done]. cbn [negb].
  rewrite (proj2 (Z.ltb_lt 0 (bh_height h))) by lia. cbn [andb]. destruct (bool_decide _); reflexivity.
Qed.

Lemma Ok_eq {E A} (a b : A) : (Ok a : result E A) = Ok b → b = a.
Proof. by intros [= ->]. Qed.

Lemma anchor_step_tip acc h r : anchor_step acc h = Ok r → is_Some (snd r).
Proof.
  unfold anchor_step. destruct acc as [[e id] tip]. intros [_ [_ ->%Ok_eq]%if_err_Ok]%if_err_Ok. by eexists.
Qed.

Lemma compute_no_panic headers work : compute_header_chain_anchor headers work ≠ Err Panic.
Proof.
  unfold compute_header_chain_anchor. destruct headers as [|first rest]; [done|]. destruct (negb _); [done|].
  cbn [try_fold]. destruct (anchor_step _ first) as [[[e id] tip]|err] eqn:Hs; cbn [mbind result_bind map_err]; [|done].
  pose proof (anchor_step_tip _ _ _ Hs) as Htip. cbn [snd] in Htip.
  destruct (try_fold anchor_step (e, id, tip) rest) as [[[e' id'] tip']|err] eqn:Hf; cbn [mbind result_bind map_err]; [|done].
  assert (is_Some tip') as [[t i] ->]; [|done].
  clear Hs. revert e id tip Htip Hf. induction rest as [|h rest IH]; intros e id tip Htip Hf; [by injection Hf as <- <- <-|].
  cbn [try_fold] in Hf. apply bind_Ok in Hf as ([[e1 id1] tip1] & H1 & Hf). apply (IH e1 id1 tip1); [|done].
  exact (anchor_step_tip _ _ _ H1).
Qed.

End anchor.

(** A prefix of headers has an anchor exactly when it is a chain from
    genesis, each header at the height of its position and naming the block before
    it; the anchor states the tip; and extending the anchor by one header gives
    exactly the outcome of recomputing it over the longer prefix, the error
    included. The computation never panics. *)
Theorem header_anchor_exact {P : Poseidon2bPermutation} headers work (Hlen : Z.of_nat (length headers) < uint_max 64) :
  (∀ a, compute_header_chain_anchor headers work = Ok a ↔
     anchored headers ∧ ∃ tip, last headers = Some tip ∧ a = anchor_of tip work)
  ∧ (∀ a h work', compute_header_chain_anchor headers work = Ok a →
     compute_header_chain_anchor (headers ++ [h]) work' = map_err Fail (extend_header_chain_anchor a h work'))
  ∧ compute_header_chain_anchor headers work ≠ Err Panic.
Proof.
  split_and!.
  - intros a. apply compute_Ok. lia.
  - intros a h work'. by apply compute_snoc.
  - apply compute_no_panic.
Qed.

Definition example_genesis_header : BlockHeader :=
  mkBlockHeader (replicate 32 0) (replicate 32 1) (replicate 32 2) 1700000000 0 (replicate 32 3) 0 (replicate 32 255) 16 1 1.

Definition example_next_header : BlockHeader :=
  mkBlockHeader (block_id (P := example_permutation) example_genesis_header) (replicate 32 4) (replicate 32 5) 1700000600 1
    (replicate 32 3) 7 (replicate 32 255) 16 2 2.

Lemma header_anchor_exact_witness :
  compute_header_chain_anchor (P := example_permutation) ([example_genesis_header] ++ [example_next_header]) (replicate 32 9)
  = Ok (anchor_of (P := example_permutation) example_next_header (replicate 32 9)).
Proof.
  assert (Hl : Z.of_nat (length [example_genesis_header]) < uint_max 64) by reflexivity.
  pose proof (proj1 (proj2 (header_anchor_exact (P := example_permutation) [example_genesis_header] (replicate 32 8) Hl))
    (anchor_of (P := example_permutation) example_genesis_header (replicate 32 8)) example_next_header (replicate 32 9)) as H.
  rewrite H by (vm_compute; reflexivity). vm_compute. reflexivity.
Defined.
