(* ===== verification/Mempool.v ===== *)
(** * The mempool

    [jetsam_chain/src/mempool.rs]: the pool of admitted page groups with its
    indexes: entries by logical identifier, the fee-priority index, the slots
    spent and minted by pending groups, and the value pending for each owner;
    admission, removal, eviction at an epoch change, selection for a block and
    the bounded replies to peers.

    The ordered [BTreeMap] is its list of bindings in key order. The order in
    which a [HashMap] is iterated is an argument, [iteration], of the operations
    that iterate over one and whose result may depend on it. *)

From Stdlib Require Import Sorting.Sorted.
From S2P Require Import Prelude Machine Params Poseidon TxTypes TxWire PagedSpend PagedWire Conflict EpochAnchor.

(** ** The fee-priority key *)

Record FeeKey := mkFeeKey { fk_neg_fee_rate : Z; fk_hash : list Z }.

#[global] Instance FeeKey_eq_dec : EqDecision FeeKey.
Proof. solve_decision. Defined.

Definition FeeKey_new (fee_rate : Z) (hash : list Z) : FeeKey := mkFeeKey (uint_max 64 - fee_rate) hash.

(** The derived order: by the first field, then by the second. *)
Definition fee_key_ltb (a b : FeeKey) : bool :=
  (fk_neg_fee_rate a <? fk_neg_fee_rate b)
  || ((fk_neg_fee_rate a =? fk_neg_fee_rate b) && bytes_ltb (fk_hash a) (fk_hash b)).

Fixpoint fee_insert (key : FeeKey) (hash : list Z) (index : list (FeeKey * list Z)) : list (FeeKey * list Z) :=
  match index with
  | [] => [(key, hash)]
  | (k, h) :: rest =>
      if fee_key_ltb key k then (key, hash) :: index
      else if bool_decide (key = k) then (key, hash) :: rest
      else (k, h) :: fee_insert key hash rest
  end.

Definition fee_remove (key : FeeKey) (index : list (FeeKey * list Z)) : list (FeeKey * list Z) :=
  filter (λ b, fst b ≠ key) index.

(** ** Entries *)

Record MempoolEntry := mkMempoolEntry {
  me_pages : list TxPage;
  me_spend : PagedSpendFacts;
  me_admitted_height : Z;
  me_fee_rate : Z;
  me_cached_authorization_len : Z;
  me_intent_bytes : list Z;
}.

Definition compute_fee_rate (spend : PagedSpendFacts) : Z :=
  let n_inputs := ps_live_inputs spend in
  let n_outputs := ps_live_outputs spend in
  let net_new_slots := saturating_sub n_outputs n_inputs in
  let weight := Z.max (saturating_add 64 (saturating_add 64 n_inputs n_outputs) (saturating_mul 64 net_new_slots 4)) 1 in
  ps_fee spend / weight.

Definition cached_authorization (e : MempoolEntry) : option (list Z) :=
  let len := me_cached_authorization_len e in
  if len =? 0 then None
  else
    start ← result_ok (paged_spend_authorization_wire_offset (Z.of_nat (length (me_pages e))));
    end_ ← checked_add 64 start len;
    if end_ <=? Z.of_nat (length (me_intent_bytes e))
    then Some (take (Z.to_nat (end_ - start)) (drop (Z.to_nat start) (me_intent_bytes e)))
    else None.

Inductive MempoolError :=
  | ME_AlreadyAdmitted
  | ME_InputConflict (conflicting_hash : list Z)
  | ME_OutputConflict (conflicting_hash : list Z)
  | ME_Full.

Record Mempool := mkMempool {
  mp_entries : gmap (list Z) MempoolEntry;
  mp_fee_index : list (FeeKey * list Z);
  mp_spent_inputs : gmap Z (list Z);
  mp_minted_outputs : gmap Z (list Z);
  mp_incoming_value_by_owner : gmap (list Z) Z;
  mp_capacity : Z;
}.

Definition Mempool_new (capacity : Z) : Mempool := mkMempool ∅ [] ∅ ∅ ∅ capacity.

Definition with_default_capacity : Mempool := Mempool_new (BLOCK_MAX_TXS * 8).

Definition Mempool_len (p : Mempool) : Z := Z.of_nat (size (mp_entries p)).

Definition Mempool_is_empty (p : Mempool) : bool := bool_decide (mp_entries p = ∅).

Definition Mempool_contains (p : Mempool) (hash : list Z) : bool := bool_decide (is_Some (mp_entries p !! hash)).

Definition Mempool_get (p : Mempool) (hash : list Z) : option MempoolEntry := mp_entries p !! hash.

(** ** Admission *)

Definition input_conflict (p : Mempool) (inp : TxInput) : result MempoolError unit :=
  match mp_spent_inputs p !! ti_slot_index inp with
  | Some existing => Err (ME_InputConflict existing)
  | None =>
      match mp_minted_outputs p !! ti_slot_index inp with
      | Some existing => Err (ME_InputConflict existing)
      | None => Ok tt
      end
  end.

Definition output_conflict (p : Mempool) (out : TxOutput) : result MempoolError unit :=
  match mp_minted_outputs p !! to_slot_index out with
  | Some existing => Err (ME_OutputConflict existing)
  | None =>
      match mp_spent_inputs p !! to_slot_index out with
      | Some existing => Err (ME_OutputConflict existing)
      | None => Ok tt
      end
  end.

Definition page_inputs (page : TxPage) : list TxInput := snd <$> live_inputs (page_body page).
Definition page_outputs (page : TxPage) : list TxOutput := snd <$> live_outputs (page_body page).

Definition add_incoming (input_owner : list Z) (incoming : gmap (list Z) Z) (out : TxOutput) : gmap (list Z) Z :=
  if bool_decide (to_owner out ≠ input_owner)
  then match incoming !! to_owner out with
       | Some value => <[to_owner out := saturating_add 64 value (to_amount out)]> incoming
       | None => <[to_owner out := to_amount out]> incoming
       end
  else incoming.

Definition sub_incoming (input_owner : list Z) (incoming : gmap (list Z) Z) (out : TxOutput) : gmap (list Z) Z :=
  if bool_decide (to_owner out ≠ input_owner)
  then match incoming !! to_owner out with
       | Some value =>
           let value := saturating_sub value (to_amount out) in
           if value =? 0 then delete (to_owner out) incoming else <[to_owner out := value]> incoming
       | None => incoming
       end
  else incoming.

Definition index_page (hash input_owner : list Z) (p : Mempool) (page : TxPage) : Mempool :=
  mkMempool (mp_entries p) (mp_fee_index p)
    (foldl (λ m inp, <[ti_slot_index inp := hash]> m) (mp_spent_inputs p) (page_inputs page))
    (foldl (λ m out, <[to_slot_index out := hash]> m) (mp_minted_outputs p) (page_outputs page))
    (foldl (add_incoming input_owner) (mp_incoming_value_by_owner p) (page_outputs page))
    (mp_capacity p).

Definition unindex_page (input_owner : list Z) (p : Mempool) (page : TxPage) : Mempool :=
  mkMempool (mp_entries p) (mp_fee_index p)
    (foldl (λ m inp, delete (ti_slot_index inp) m) (mp_spent_inputs p) (page_inputs page))
    (foldl (λ m out, delete (to_slot_index out) m) (mp_minted_outputs p) (page_outputs page))
    (foldl (sub_incoming input_owner) (mp_incoming_value_by_owner p) (page_outputs page))
    (mp_capacity p).

Section mempool.
  Context {P : Poseidon2bPermutation}.

Definition MempoolEntry_new (pages : list TxPage) (current_height : Z) : result PagedSpendError MempoolEntry :=
  spend ← validate_paged_spend pages;
  Ok (mkMempoolEntry pages spend current_height (compute_fee_rate spend) 0 []).

(** [Panic] is the failed [expect] on a group that is not valid. *)
Definition Mempool_admit (p : Mempool) (pages : list TxPage) (current_height : Z) : result (fault MempoolError) Mempool :=
  if mp_capacity p <=? Mempool_len p then Err (Fail ME_Full)
  else
    entry ← map_err (λ _, Panic) (MempoolEntry_new pages current_height);
    let hash := ps_logical_txid (me_spend entry) in
    if Mempool_contains p hash then Err (Fail ME_AlreadyAdmitted)
    else
      _ ← map_err Fail (try_for_each (λ page, try_for_each (input_conflict p) (page_inputs page)) (me_pages entry));
      _ ← map_err Fail (try_for_each (λ page, try_for_each (output_conflict p) (page_outputs page)) (me_pages entry));
      let p := foldl (index_page hash (ps_input_owner (me_spend entry))) p (me_pages entry) in
      Ok (mkMempool (<[hash := entry]> (mp_entries p))
            (fee_insert (FeeKey_new (me_fee_rate entry) hash) hash (mp_fee_index p))
            (mp_spent_inputs p) (mp_minted_outputs p) (mp_incoming_value_by_owner p) (mp_capacity p)).

End mempool.

(** ** Removal *)

Definition Mempool_remove (p : Mempool) (hash : list Z) : option MempoolEntry * Mempool :=
  match mp_entries p !! hash with
  | None => (None, p)
  | Some entry =>
      let p := mkMempool (delete hash (mp_entries p)) (fee_remove (FeeKey_new (me_fee_rate entry) hash) (mp_fee_index p))
                 (mp_spent_inputs p) (mp_minted_outputs p) (mp_incoming_value_by_owner p) (mp_capacity p) in
      (Some entry, foldl (unindex_page (ps_input_owner (me_spend entry))) p (me_pages entry))
  end.

Definition evict_wrong_anchor (iteration : list (list Z * MempoolEntry)) (p : Mempool) (current_anchor : list Z) :
    list (list Z) * Mempool :=
  let expired := fst <$> filter (λ b, ps_epoch_anchor (me_spend (snd b)) ≠ current_anchor) iteration in
  (expired, foldl (λ p hash, snd (Mempool_remove p hash)) p expired).

Definition on_block_confirmed (p : Mempool) (confirmed : list (list Z)) : Z * Mempool :=
  foldl (λ acc hash,
    let '(removed, p) := acc in
    match Mempool_remove p hash with
    | (Some _, p) => (removed + 1, p)
    | (None, p) => (removed, p)
    end) (0, p) confirmed.

(** ** Selection *)

Fixpoint select_loop (entries : gmap (list Z) MempoolEntry) (keep : MempoolEntry → bool) (hashes : list (list Z))
    (remaining_pages : Z) : list MempoolEntry :=
  match hashes with
  | [] => []
  | hash :: hashes =>
      match entries !! hash with
      | None => select_loop entries keep hashes remaining_pages
      | Some entry =>
          if negb (keep entry) then select_loop entries keep hashes remaining_pages
          else if remaining_pages <? Z.of_nat (length (me_pages entry))
          then select_loop entries keep hashes remaining_pages
          else
            let remaining_pages := remaining_pages - Z.of_nat (length (me_pages entry)) in
            entry :: (if remaining_pages =? 0 then [] else select_loop entries keep hashes remaining_pages)
      end
  end.

Definition select_for_block_matching (p : Mempool) (max_pages : Z) (keep : MempoolEntry → bool) : list MempoolEntry :=
  select_loop (mp_entries p) keep (snd <$> mp_fee_index p) (Z.min max_pages BLOCK_MAX_USER_PAGES).

Definition select_for_block (p : Mempool) (max_pages : Z) : list MempoolEntry :=
  select_for_block_matching p max_pages (λ _, true).

Definition select_for_block_at_anchor (p : Mempool) (max_pages : Z) (epoch_anchor : list Z) : list MempoolEntry :=
  select_for_block_matching p max_pages (λ entry, bool_decide (ps_epoch_anchor (me_spend entry) = epoch_anchor)).

Definition select_for_block_at_anchors (p : Mempool) (max_pages : Z) (accepted : AcceptedEpochAnchors)
    (generation : HistoryStepPackGeneration) : list MempoolEntry :=
  select_for_block_matching p max_pages (λ entry, accepts accepted (ps_epoch_anchor (me_spend entry)) generation).

(** ** Retained intents *)

Definition with_intent_bytes (bytes : list Z) (entry : MempoolEntry) : MempoolEntry :=
  let offset := result_ok (paged_spend_authorization_wire_offset (Z.of_nat (length (me_pages entry)))) in
  let len := offset ≫= λ offset, checked_sub (Z.of_nat (length bytes)) offset in
  let len := len ≫= λ len, if len <=? uint_max 32 then Some len else None in
  mkMempoolEntry (me_pages entry) (me_spend entry) (me_admitted_height entry) (me_fee_rate entry) (default 0 len) bytes.

Definition set_intent_bytes (p : Mempool) (hash bytes : list Z) : Mempool :=
  mkMempool (alter (with_intent_bytes bytes) hash (mp_entries p)) (mp_fee_index p) (mp_spent_inputs p)
    (mp_minted_outputs p) (mp_incoming_value_by_owner p) (mp_capacity p).

Fixpoint prefix_loop (max_txs max_total_bytes max_tx_bytes : Z) (iteration : list MempoolEntry) (out : list (list Z))
    (total_bytes : Z) : list (list Z) :=
  match iteration with
  | [] => out
  | entry :: iteration =>
      if Z.of_nat (length out) =? max_txs then out
      else
        let bytes := me_intent_bytes entry in
        let n := Z.of_nat (length bytes) in
        if (n =? 0) || (max_tx_bytes <? n) then prefix_loop max_txs max_total_bytes max_tx_bytes iteration out total_bytes
        else
          match checked_add 64 total_bytes n with
          | None => out
          | Some next_total =>
              if max_total_bytes <? next_total then out
              else prefix_loop max_txs max_total_bytes max_tx_bytes iteration (out ++ [bytes]) next_total
          end
  end.

Definition intent_bytes_prefix (iteration : list MempoolEntry) (max_txs max_total_bytes max_tx_bytes : Z) : list (list Z) :=
  prefix_loop max_txs max_total_bytes max_tx_bytes iteration [] 0.

(** ** Totals *)

Definition pool_values (p : Mempool) : list MempoolEntry := snd <$> map_to_list (mp_entries p).

Definition total_intent_bytes (p : Mempool) : Z := sum_Z ((λ e, Z.of_nat (length (me_intent_bytes e))) <$> pool_values p).

Definition Mempool_total_fees (p : Mempool) : Z := foldl (λ a e, saturating_add 64 a (ps_fee (me_spend e))) 0 (pool_values p).

Definition pending_incoming_for_owner (p : Mempool) (owner : list Z) : Z :=
  default 0 (mp_incoming_value_by_owner p !! owner).
