(* ===== verification/MempoolProps.v ===== *)
(** * Properties of the mempool

    The indexes of the pool agree with its entries after any sequence of
    operations, admission accepts exactly the groups that fit, and selection is
    the greedy packing by fee. *)

From Stdlib Require Import Sorting.Sorted.
From S2P Require Import Prelude Machine Params Poseidon TxTypes TxWire PagedSpend PagedWire BlockHeader Conflict ClientObjects Consensus Difficulty TowerWalk Pow Header EpochAnchor Mempool.

(** ** The fee order *)

Lemma fee_key_ltb_irrefl k : fee_key_ltb k k = false.
Proof. unfold fee_key_ltb. by rewrite Z.ltb_irrefl, Z.eqb_refl, bytes_ltb_irrefl. Qed.

Lemma fee_key_ltb_trans a b c : fee_key_ltb a b = true → fee_key_ltb b c = true → fee_key_ltb a c = true.
Proof.
  unfold fee_key_ltb. rewrite !orb_true_iff, !andb_true_iff, !Z.ltb_lt, !Z.eqb_eq.
  intros [?|[? H1]] [?|[? H2]]; [left; lia..|]. right. split; [lia|]. by eapply bytes_ltb_trans.
Qed.

Lemma fee_key_ltb_total a b : fee_key_ltb a b = false → a ≠ b → fee_key_ltb b a = true.
Proof.
  unfold fee_key_ltb. rewrite orb_false_iff, andb_false_iff, orb_true_iff, andb_true_iff, Z.ltb_ge, Z.eqb_neq, Z.ltb_lt, Z.eqb_eq.
  intros [Hle Hor] Hne. destruct (Z.eq_dec (fk_neg_fee_rate a) (fk_neg_fee_rate b)) as [He|]; [|left; lia].
  destruct Hor as [|Hb]; [lia|]. right. split; [done|]. destruct (bytes_ltb (fk_hash b) (fk_hash a)) eqn:E; [done|].
  exfalso. apply Hne. pose proof (bytes_ltb_total _ _ Hb E). destruct a, b; cbn in *; congruence.
Qed.

Definition fee_lt (a b : FeeKey * list Z) : Prop := fee_key_ltb (fst a) (fst b) = true.

Lemma elem_of_fee_insert key hash index b :
  (∀ h, (key, h) ∉ index) → b ∈ fee_insert key hash index ↔ b = (key, hash) ∨ b ∈ index.
Proof.
  induction index as [|[k h] index IH]; intros Hn; cbn [fee_insert]; [set_solver|].
  destruct (fee_key_ltb key k); [set_solver|]. rewrite bool_decide_false by (intros ->; apply (Hn h); left).
  rewrite !elem_of_cons, IH by (intros h' Hh'; apply (Hn h'); by right). tauto.
Qed.

Lemma fee_insert_sorted key hash index :
  (∀ h, (key, h) ∉ index) → StronglySorted fee_lt index → StronglySorted fee_lt (fee_insert key hash index).
Proof.
  intros Hn Hs. induction Hs as [|[k h] index Hs IH Hall]; cbn [fee_insert]; [repeat constructor|].
  destruct (fee_key_ltb key k) eqn:E.
  { constructor; [by constructor|]. constructor; [done|]. eapply Forall_impl; [exact Hall|].
    intros b Hb. by eapply fee_key_ltb_trans. }
  assert (key ≠ k) as Hne by (intros ->; apply (Hn h); left). rewrite bool_decide_false by done.
  assert (Hn' : ∀ h', (key, h') ∉ index) by (intros h' Hh'; apply (Hn h'); by right).
  constructor; [by apply IH|]. apply Forall_forall. intros b [->|Hb]%elem_of_fee_insert; [|by rewrite Forall_forall in Hall; apply Hall|done].
  by apply fee_key_ltb_total.
Qed.

Lemma fee_remove_sorted key index : StronglySorted fee_lt index → StronglySorted fee_lt (fee_remove key index).
Proof. unfold fee_remove. intros Hs. induction Hs as [|b index Hs IH Hall]; [constructor|]. rewrite filter_cons. case_decide; [|done].
  constructor; [done|]. rewrite Forall_forall in *. intros c [_ Hc]%list_elem_of_filter. by apply Hall. Qed.

(** ** Slot indexes *)

Lemma lookup_foldl_insert {A} (f : A → Z) (h : list Z) (m : gmap Z (list Z)) l s :
  foldl (λ m x, <[f x := h]> m) m l !! s = if decide (s ∈ f <$> l) then Some h else m !! s.
Proof.
  revert m. induction l as [|x l IH]; intros m; cbn [foldl fmap list_fmap]; [by rewrite decide_False by set_solver|].
  rewrite IH. destruct (decide (s ∈ f <$> l)); [by rewrite decide_True by set_solver|].
  destruct (decide (s = f x)) as [->|]; [rewrite lookup_insert_eq, decide_True by set_solver; done|].
  by rewrite lookup_insert_ne, decide_False by set_solver.
Qed.

Lemma lookup_foldl_delete {A} (f : A → Z) (m : gmap Z (list Z)) l s :
  foldl (λ m x, delete (f x) m) m l !! s = if decide (s ∈ f <$> l) then None else m !! s.
Proof.
  revert m. induction l as [|x l IH]; intros m; cbn [foldl fmap list_fmap]; [by rewrite decide_False by set_solver|].
  rewrite IH. destruct (decide (s ∈ f <$> l)); [by rewrite decide_True by set_solver|].
  destruct (decide (s = f x)) as [->|]; [rewrite lookup_delete_eq, decide_True by set_solver; done|].
  by rewrite lookup_delete_ne, decide_False by set_solver.
Qed.

Lemma index_pages hash owner p pages :
  foldl (index_page hash owner) p pages =
  mkMempool (mp_entries p) (mp_fee_index p)
    (foldl (λ m inp, <[ti_slot_index inp := hash]> m) (mp_spent_inputs p) (group_inputs pages))
    (foldl (λ m out, <[to_slot_index out := hash]> m) (mp_minted_outputs p) (group_outputs pages))
    (foldl (add_incoming owner) (mp_incoming_value_by_owner p) (group_outputs pages)) (mp_capacity p).
Proof.
  revert p. induction pages as [|page pages IH]; intros p; [by destruct p|]. cbn [foldl]. rewrite IH. unfold group_inputs, group_outputs.
  rewrite !bind_cons, !foldl_app. reflexivity.
Qed.

Lemma unindex_pages owner p pages :
  foldl (unindex_page owner) p pages =
  mkMempool (mp_entries p) (mp_fee_index p)
    (foldl (λ m inp, delete (ti_slot_index inp) m) (mp_spent_inputs p) (group_inputs pages))
    (foldl (λ m out, delete (to_slot_index out) m) (mp_minted_outputs p) (group_outputs pages))
    (foldl (sub_incoming owner) (mp_incoming_value_by_owner p) (group_outputs pages)) (mp_capacity p).
Proof.
  revert p. induction pages as [|page pages IH]; intros p; [by destruct p|]. cbn [foldl]. rewrite IH. unfold group_inputs, group_outputs.
  rewrite !bind_cons, !foldl_app. reflexivity.
Qed.

(** ** Value pending for an owner *)

(** What the outputs pay to [owner], when it is not the spender. *)
Definition external_amount (input_owner owner : list Z) (outs : list TxOutput) : Z :=
  sum_Z ((λ out, if bool_decide (to_owner out = owner ∧ to_owner out ≠ input_owner) then to_amount out else 0) <$> outs).

Lemma external_amount_cons input_owner owner out outs :
  external_amount input_owner owner (out :: outs) =
  (if bool_decide (to_owner out = owner ∧ to_owner out ≠ input_owner) then to_amount out else 0)
  + external_amount input_owner owner outs.
Proof. unfold external_amount. cbn [fmap list_fmap]. by rewrite sum_Z_cons. Qed.

Lemma external_amount_nonneg input_owner owner outs :
  Forall (λ out, 0 ≤ to_amount out) outs → 0 ≤ external_amount input_owner owner outs.
Proof. induction 1; [done|]. rewrite external_amount_cons. case_bool_decide; lia. Qed.

Lemma add_incoming_sum input_owner incoming outs owner :
  Forall (λ out, 0 ≤ to_amount out) outs →
  (∀ o, default 0 (incoming !! o) + external_amount input_owner o outs ≤ uint_max 64) →
  default 0 (foldl (add_incoming input_owner) incoming outs !! owner)
  = default 0 (incoming !! owner) + external_amount input_owner owner outs.
Proof.
  intros Hpos. revert incoming. induction Hpos as [|out outs Ho Hpos IH]; intros incoming Hb; [unfold external_amount; cbn; lia|].
  cbn [foldl].
  assert (Hstep : ∀ o, default 0 (add_incoming input_owner incoming out !! o)
    = default 0 (incoming !! o) + (if bool_decide (to_owner out = o ∧ to_owner out ≠ input_owner) then to_amount out else 0)).
  { intros o. unfold add_incoming. case_bool_decide as Hne.
    2:{ rewrite bool_decide_false by tauto. lia. }
    specialize (Hb (to_owner out)). rewrite external_amount_cons, bool_decide_true in Hb by done.
    pose proof (external_amount_nonneg input_owner (to_owner out) outs Hpos).
    destruct (decide (to_owner out = o)) as [<-|Hno].
    - rewrite bool_decide_true by done. destruct (incoming !! to_owner out); rewrite lookup_insert_eq; cbn [from_option id] in *; [unfold saturating_add; lia|lia].
    - rewrite bool_decide_false by tauto. destruct (incoming !! to_owner out); rewrite lookup_insert_ne by done; lia. }
  rewrite IH; [rewrite Hstep, external_amount_cons; lia|].
  intros o. rewrite Hstep. specialize (Hb o). rewrite external_amount_cons in Hb. lia.
Qed.

Lemma sub_incoming_sum input_owner incoming outs owner :
  Forall (λ out, 0 ≤ to_amount out) outs →
  (∀ o, external_amount input_owner o outs ≤ default 0 (incoming !! o)) →
  default 0 (foldl (sub_incoming input_owner) incoming outs !! owner)
  = default 0 (incoming !! owner) - external_amount input_owner owner outs.
Proof.
  intros Hpos. revert incoming. induction Hpos as [|out outs Ho Hpos IH]; intros incoming Hb; [unfold external_amount; cbn; lia|].
  cbn [foldl].
  assert (Hstep : ∀ o, default 0 (sub_incoming input_owner incoming out !! o)
    = default 0 (incoming !! o) - (if bool_decide (to_owner out = o ∧ to_owner out ≠ input_owner) then to_amount out else 0)).
  { intros o. unfold sub_incoming. case_bool_decide as Hne.
    2:{ rewrite bool_decide_false by tauto. lia. }
    specialize (Hb (to_owner out)). rewrite external_amount_cons, bool_decide_true in Hb by done.
    pose proof (external_amount_nonneg input_owner (to_owner out) outs Hpos). unfold saturating_sub.
    destruct (incoming !! to_owner out) as [v|] eqn:Ev; cbn [from_option id] in Hb.
    - destruct (Z.eqb_spec (Z.max (v - to_amount out) 0) 0) as [Hz|Hz]; (destruct (decide (to_owner out = o)) as [<-|Hno]).
      + rewrite bool_decide_true by done. rewrite lookup_delete_eq, Ev. cbn [from_option id]. lia.
      + rewrite bool_decide_false by tauto. rewrite lookup_delete_ne by done. lia.
      + rewrite bool_decide_true by done. rewrite lookup_insert_eq, Ev. cbn [from_option id]. lia.
      + rewrite bool_decide_false by tauto. rewrite lookup_insert_ne by done. lia.
    - case_bool_decide as Ht; [|lia]. destruct Ht as [<- _]. rewrite Ev. cbn [from_option id]. lia. }
  rewrite IH; [rewrite Hstep, external_amount_cons; lia|].
  intros o. rewrite Hstep. specialize (Hb o). rewrite external_amount_cons in Hb. lia.
Qed.

(** ** The invariant *)

Definition entry_inputs (e : MempoolEntry) : list Z := ti_slot_index <$> group_inputs (me_pages e).
Definition entry_outputs (e : MempoolEntry) : list Z := to_slot_index <$> group_outputs (me_pages e).
Definition entry_key (hash : list Z) (e : MempoolEntry) : FeeKey := FeeKey_new (me_fee_rate e) hash.

Definition entry_external (owner : list Z) (e : MempoolEntry) : Z :=
  external_amount (ps_input_owner (me_spend e)) owner (group_outputs (me_pages e)).

(** What the pending groups pay to [owner]. *)
Definition pool_external (p : Mempool) (owner : list Z) : Z := sum_Z (entry_external owner <$> pool_values p).

Section invariant.
  Context {P : Poseidon2bPermutation}.

Record entry_ok (hash : list Z) (e : MempoolEntry) : Prop := {
  eo_wf : Forall page_wf (me_pages e);
  eo_valid : validate_paged_spend (me_pages e) = Ok (me_spend e);
  eo_hash : ps_logical_txid (me_spend e) = hash;
  eo_rate : me_fee_rate e = compute_fee_rate (me_spend e);
}.

(** The entries are valid groups under their own identifier; the indexes hold
    exactly what the entries say; no slot has two uses. *)
Record pool_inv (p : Mempool) : Prop := {
  pi_entries : map_Forall entry_ok (mp_entries p);
  pi_capacity : Mempool_len p ≤ Z.max 0 (mp_capacity p);
  pi_sorted : StronglySorted fee_lt (mp_fee_index p);
  pi_fee k h : (k, h) ∈ mp_fee_index p ↔ ∃ e, mp_entries p !! h = Some e ∧ k = entry_key h e;
  pi_spent s h : mp_spent_inputs p !! s = Some h ↔ ∃ e, mp_entries p !! h = Some e ∧ s ∈ entry_inputs e;
  pi_minted s h : mp_minted_outputs p !! s = Some h ↔ ∃ e, mp_entries p !! h = Some e ∧ s ∈ entry_outputs e;
  pi_roles s : mp_spent_inputs p !! s = None ∨ mp_minted_outputs p !! s = None;
}.

Definition incoming_exact (p : Mempool) : Prop := ∀ owner, pending_incoming_for_owner p owner = pool_external p owner.

Lemma entry_slots hash e : entry_ok hash e → NoDup (entry_inputs e ++ entry_outputs e).
Proof. intros [Hw Hv _ _]. apply validate_paged_spend_valid in Hv as (first & Hg & _); [|done]. apply Hg. Qed.

Lemma entry_amounts hash e : entry_ok hash e → Forall (λ out, 0 ≤ to_amount out) (group_outputs (me_pages e)).
Proof. intros He. eapply Forall_impl; [apply group_output_amounts, He|]. cbn. lia. Qed.

Lemma pool_inv_new capacity : pool_inv (Mempool_new capacity).
Proof.
  split; unfold Mempool_new, Mempool_len; cbn [mp_entries mp_fee_index mp_spent_inputs mp_minted_outputs mp_capacity].
  - apply map_Forall_empty.
  - rewrite map_size_empty. lia.
  - constructor.
  - intros k h. split; [by intros ?%not_elem_of_nil|]. by intros (e & [=] & _).
  - intros s h. split; [done|]. by intros (e & [=] & _).
  - intros s h. split; [done|]. by intros (e & [=] & _).
  - by left.
Qed.

(** *** Admission *)

Definition inserted (p : Mempool) (hash : list Z) (e : MempoolEntry) : Mempool :=
  mkMempool (<[hash := e]> (mp_entries p)) (fee_insert (entry_key hash e) hash (mp_fee_index p))
    (foldl (λ m inp, <[ti_slot_index inp := hash]> m) (mp_spent_inputs p) (group_inputs (me_pages e)))
    (foldl (λ m out, <[to_slot_index out := hash]> m) (mp_minted_outputs p) (group_outputs (me_pages e)))
    (foldl (add_incoming (ps_input_owner (me_spend e))) (mp_incoming_value_by_owner p) (group_outputs (me_pages e)))
    (mp_capacity p).

(** The slots of the entry are not pending. *)
Definition fresh_slots (p : Mempool) (e : MempoolEntry) : Prop :=
  ∀ s, s ∈ entry_inputs e ++ entry_outputs e → mp_spent_inputs p !! s = None ∧ mp_minted_outputs p !! s = None.

Lemma pool_inv_inserted p hash e :
  pool_inv p → entry_ok hash e → mp_entries p !! hash = None → Mempool_len p < mp_capacity p → fresh_slots p e →
  pool_inv (inserted p hash e).
Proof.
  intros Hp He Hn Hcap Hs. pose proof (entry_slots _ _ He) as Hnd.
  assert (Hkey : ∀ h, (entry_key hash e, h) ∉ mp_fee_index p).
  { intros h (e' & He' & Hk)%(pi_fee _ Hp). assert (h = hash) as -> by (by injection Hk). congruence. }
  assert (Hlook : ∀ h (Q : MempoolEntry → Prop), (∃ e', <[hash:=e]> (mp_entries p) !! h = Some e' ∧ Q e') ↔
    (h = hash ∧ Q e) ∨ (∃ e', mp_entries p !! h = Some e' ∧ Q e')).
  { intros h Q. destruct (decide (h = hash)) as [->|Hne].
    - rewrite lookup_insert_eq, Hn. split; [intros (e' & [= <-] & ?); auto|]. intros [[_ ?]|(? & [=] & _)]. eauto.
    - rewrite lookup_insert_ne by done. split; [auto|]. by intros [[-> _]|?]. }
  split; unfold inserted, Mempool_len; cbn [mp_entries mp_fee_index mp_spent_inputs mp_minted_outputs mp_capacity].
  - apply map_Forall_insert_2; [done|apply Hp].
  - rewrite map_size_insert_None by done. unfold Mempool_len in Hcap. lia.
  - apply fee_insert_sorted; [done|apply Hp].
  - intros k h. rewrite elem_of_fee_insert by done. rewrite (Hlook h (λ e', k = entry_key h e')), (pi_fee _ Hp).
    split; (intros [?|?]; [left|by right]); naive_solver.
  - intros s h. rewrite lookup_foldl_insert, (Hlook h (λ e', s ∈ entry_inputs e')). case_decide as Hin.
    + assert (mp_spent_inputs p !! s = None) as Hns by (apply Hs, elem_of_app; by left).
      split; [intros [= <-]; by left|]. intros [[-> _]|H]; [done|]. apply (pi_spent _ Hp) in H. congruence.
    + rewrite (pi_spent _ Hp). split; [by right|]. by intros [[_ ?]|?].
  - intros s h. rewrite lookup_foldl_insert, (Hlook h (λ e', s ∈ entry_outputs e')). case_decide as Hin.
    + assert (mp_minted_outputs p !! s = None) as Hns by (apply Hs, elem_of_app; by right).
      split; [intros [= <-]; by left|]. intros [[-> _]|H]; [done|]. apply (pi_minted _ Hp) in H. congruence.
    + rewrite (pi_minted _ Hp). split; [by right|]. by intros [[_ ?]|?].
  - intros s. rewrite !lookup_foldl_insert. apply NoDup_app in Hnd as (_ & Hdis & _).
    destruct (decide (s ∈ ti_slot_index <$> group_inputs (me_pages e))) as [Hi|Hi].
    + right. rewrite decide_False by (by apply Hdis). apply Hs, elem_of_app. by left.
    + case_decide as Ho; [left; apply Hs, elem_of_app; by right|]. apply Hp.
Qed.

Lemma pool_sum_insert (f : MempoolEntry → Z) p hash e q :
  mp_entries p !! hash = None → mp_entries q = <[hash := e]> (mp_entries p) →
  sum_Z (f <$> pool_values q) = f e + sum_Z (f <$> pool_values p).
Proof.
  intros Hn Hq. unfold pool_values. rewrite Hq.
  rewrite (sum_Z_Permutation _ (f <$> (snd <$> (hash, e) :: map_to_list (mp_entries p))));
    [cbn [fmap list_fmap snd]; by rewrite sum_Z_cons|].
  by rewrite (map_to_list_insert _ _ _ Hn).
Qed.

Lemma pool_external_insert p hash e q owner :
  mp_entries p !! hash = None → mp_entries q = <[hash := e]> (mp_entries p) →
  pool_external q owner = entry_external owner e + pool_external p owner.
Proof. apply pool_sum_insert. Qed.

Lemma incoming_inserted p hash e :
  incoming_exact p → entry_ok hash e → mp_entries p !! hash = None →
  (∀ owner, pool_external (inserted p hash e) owner ≤ uint_max 64) → incoming_exact (inserted p hash e).
Proof.
  intros Hi He Hn Hb. pose proof (λ o, pool_external_insert p hash e (inserted p hash e) o Hn eq_refl) as Hx.
  intros owner. rewrite Hx. unfold pending_incoming_for_owner, inserted. cbn [mp_incoming_value_by_owner].
  rewrite add_incoming_sum; [|by eapply entry_amounts|].
  - specialize (Hi owner). unfold pending_incoming_for_owner in Hi. unfold entry_external. lia.
  - intros o. specialize (Hb o). specialize (Hi o). rewrite Hx in Hb. unfold pending_incoming_for_owner in Hi. unfold entry_external in Hb. lia.
Qed.

(** *** Removal *)

Lemma remove_cases p hash :
  (mp_entries p !! hash = None ∧ Mempool_remove p hash = (None, p))
  ∨ ∃ e, mp_entries p !! hash = Some e ∧ Mempool_remove p hash =
      (Some e, mkMempool (delete hash (mp_entries p)) (fee_remove (entry_key hash e) (mp_fee_index p))
        (foldl (λ m inp, delete (ti_slot_index inp) m) (mp_spent_inputs p) (group_inputs (me_pages e)))
        (foldl (λ m out, delete (to_slot_index out) m) (mp_minted_outputs p) (group_outputs (me_pages e)))
        (foldl (sub_incoming (ps_input_owner (me_spend e))) (mp_incoming_value_by_owner p) (group_outputs (me_pages e)))
        (mp_capacity p)).
Proof.
  unfold Mempool_remove. destruct (mp_entries p !! hash) as [e|]; [right|by left]. exists e. split; [done|].
  by rewrite unindex_pages.
Qed.

Lemma remove_entries p hash : mp_entries (snd (Mempool_remove p hash)) = delete hash (mp_entries p).
Proof. destruct (remove_cases p hash) as [[Hn ->]|(e & _ & ->)]; [by rewrite delete_id|done]. Qed.

Lemma remove_capacity p hash : mp_capacity (snd (Mempool_remove p hash)) = mp_capacity p.
Proof. by destruct (remove_cases p hash) as [[Hn ->]|(e & _ & ->)]. Qed.

Lemma remove_result p hash : fst (Mempool_remove p hash) = mp_entries p !! hash.
Proof. by destruct (remove_cases p hash) as [[Hn ->]|(e & -> & ->)]. Qed.

(** A slot used by one entry is used by no other. *)
Lemma spent_unique p s h e h' e' :
  pool_inv p → mp_entries p !! h = Some e → s ∈ entry_inputs e → mp_entries p !! h' = Some e' → s ∈ entry_inputs e' → h = h'.
Proof.
  intros Hp H1 H2 H3 H4. assert (mp_spent_inputs p !! s = Some h) by (apply Hp; eauto).
  assert (mp_spent_inputs p !! s = Some h') by (apply Hp; eauto). congruence.
Qed.

Lemma minted_unique p s h e h' e' :
  pool_inv p → mp_entries p !! h = Some e → s ∈ entry_outputs e → mp_entries p !! h' = Some e' → s ∈ entry_outputs e' → h = h'.
Proof.
  intros Hp H1 H2 H3 H4. assert (mp_minted_outputs p !! s = Some h) by (apply Hp; eauto).
  assert (mp_minted_outputs p !! s = Some h') by (apply Hp; eauto). congruence.
Qed.

Lemma pool_inv_remove p hash : pool_inv p → pool_inv (snd (Mempool_remove p hash)).
Proof.
  intros Hp. destruct (remove_cases p hash) as [[_ ->]|(e & He & ->)]; [done|].
  assert (Hlook : ∀ h (Q : MempoolEntry → Prop), (∃ e', delete hash (mp_entries p) !! h = Some e' ∧ Q e') ↔
    h ≠ hash ∧ (∃ e', mp_entries p !! h = Some e' ∧ Q e')).
  { intros h Q. destruct (decide (h = hash)) as [->|Hne].
    - rewrite lookup_delete_eq. split; [by intros (? & [=] & _)|by intros [? _]].
    - rewrite lookup_delete_ne by done. naive_solver. }
  split; unfold Mempool_len; cbn [snd mp_entries mp_fee_index mp_spent_inputs mp_minted_outputs mp_capacity].
  - apply map_Forall_delete, Hp.
  - rewrite map_size_delete, He. pose proof (pi_capacity _ Hp) as Hc. unfold Mempool_len in Hc. cbn. lia.
  - apply fee_remove_sorted, Hp.
  - intros k h. unfold fee_remove. rewrite list_elem_of_filter. cbn [fst]. rewrite (Hlook h (λ e', k = entry_key h e')), (pi_fee _ Hp).
    split; intros [H1 (e' & H2 & ->)]; (split; [|by eauto]).
    + intros ->. rewrite He in H2. by injection H2 as <-.
    + intros Hk. apply H1. by injection Hk.
  - intros s h. rewrite lookup_foldl_delete, (Hlook h (λ e', s ∈ entry_inputs e')). case_decide as Hin.
    + split; [done|]. intros [Hne (e' & H1 & H2)]. exfalso. apply Hne. by eapply (spent_unique p s h e' hash e).
    + rewrite (pi_spent _ Hp). split; [|by intros [_ ?]]. intros (e' & H1 & H2). split; [|eauto]. intros ->. rewrite He in H1. by injection H1 as <-.
  - intros s h. rewrite lookup_foldl_delete, (Hlook h (λ e', s ∈ entry_outputs e')). case_decide as Hin.
    + split; [done|]. intros [Hne (e' & H1 & H2)]. exfalso. apply Hne. by eapply (minted_unique p s h e' hash e).
    + rewrite (pi_minted _ Hp). split; [|by intros [_ ?]]. intros (e' & H1 & H2). split; [|eauto]. intros ->. rewrite He in H1. by injection H1 as <-.
  - intros s. rewrite !lookup_foldl_delete. destruct (pi_roles _ Hp s) as [Hr|Hr]; [left|right]; by case_decide.
Qed.

Lemma incoming_remove p hash : pool_inv p → incoming_exact p → incoming_exact (snd (Mempool_remove p hash)).
Proof.
  intros Hp Hi. destruct (remove_cases p hash) as [[_ ->]|(e & He & ->)]; [done|].
  pose proof (pi_entries _ Hp hash e He) as Hok. cbn [snd].
  assert (Hx : ∀ o q, mp_entries q = delete hash (mp_entries p) → pool_external p o = entry_external o e + pool_external q o).
  { intros o q Hq. apply (pool_external_insert q hash e p); rewrite Hq; [apply lookup_delete_eq|]. by rewrite insert_delete_eq, insert_id. }
  assert (Hnn : ∀ o q, mp_entries q = delete hash (mp_entries p) → 0 ≤ pool_external q o).
  { intros o q Hq. unfold pool_external, pool_values. apply sum_Z_nonneg, Forall_fmap, Forall_fmap, Forall_forall.
    intros [h x] Hin. rewrite Hq in Hin. apply elem_of_map_to_list in Hin. apply lookup_delete_Some in Hin as [_ Hin].
    eapply external_amount_nonneg, entry_amounts, Hp, Hin. }
  intros owner. unfold pending_incoming_for_owner at 1. cbn [mp_incoming_value_by_owner].
  rewrite sub_incoming_sum; [|by eapply entry_amounts|].
  - change (default 0 (mp_incoming_value_by_owner p !! owner)) with (pending_incoming_for_owner p owner).
    rewrite Hi. match goal with |- _ = pool_external ?q _ => rewrite (Hx owner q eq_refl) end. unfold entry_external. lia.
  - intros o. change (default 0 (mp_incoming_value_by_owner p !! o)) with (pending_incoming_for_owner p o). rewrite Hi.
    set (q := mkMempool (delete hash (mp_entries p)) [] ∅ ∅ ∅ 0). rewrite (Hx o q eq_refl). pose proof (Hnn o q eq_refl).
    unfold entry_external. lia.
Qed.

(** *** Outcomes of admission *)

Definition entry_slots_of (e : MempoolEntry) : list Z := entry_inputs e ++ entry_outputs e.

Lemma pages_for_each {A} (f : A → result MempoolError unit) (g : TxPage → list A) pages :
  try_for_each (λ page, try_for_each f (g page)) pages = try_for_each f (pages ≫= g).
Proof.
  induction pages as [|page pages IH]; [done|]. rewrite bind_cons. cbn [try_for_each]. rewrite IH. clear IH.
  generalize (pages ≫= g) as rest. intros rest. induction (g page) as [|x l IH]; [done|]. cbn [try_for_each app].
  destruct (f x) as [[]|]; [|done]. exact IH.
Qed.

Lemma slot_pending p s h :
  pool_inv p → mp_spent_inputs p !! s = Some h ∨ mp_minted_outputs p !! s = Some h ↔
  ∃ e, mp_entries p !! h = Some e ∧ s ∈ entry_slots_of e.
Proof.
  intros Hp. rewrite (pi_spent _ Hp), (pi_minted _ Hp). unfold entry_slots_of. setoid_rewrite elem_of_app. naive_solver.
Qed.

Lemma input_conflict_spec p inp :
  pool_inv p →
  match input_conflict p inp with
  | Ok _ => mp_spent_inputs p !! ti_slot_index inp = None ∧ mp_minted_outputs p !! ti_slot_index inp = None
  | Err e => ∃ h x, e = ME_InputConflict h ∧ mp_entries p !! h = Some x ∧ ti_slot_index inp ∈ entry_slots_of x
  end.
Proof.
  intros Hp. unfold input_conflict. destruct (mp_spent_inputs p !! ti_slot_index inp) as [h|] eqn:E1.
  { destruct (proj1 (slot_pending p (ti_slot_index inp) h Hp)) as (e & ? & ?); [by left|]. eauto. }
  destruct (mp_minted_outputs p !! ti_slot_index inp) as [h|] eqn:E2; [|done].
  destruct (proj1 (slot_pending p (ti_slot_index inp) h Hp)) as (e & ? & ?); [by right|]. eauto.
Qed.

Lemma output_conflict_spec p out :
  pool_inv p →
  match output_conflict p out with
  | Ok _ => mp_spent_inputs p !! to_slot_index out = None ∧ mp_minted_outputs p !! to_slot_index out = None
  | Err e => ∃ h x, e = ME_OutputConflict h ∧ mp_entries p !! h = Some x ∧ to_slot_index out ∈ entry_slots_of x
  end.
Proof.
  intros Hp. unfold output_conflict. destruct (mp_minted_outputs p !! to_slot_index out) as [h|] eqn:E1.
  { destruct (proj1 (slot_pending p (to_slot_index out) h Hp)) as (e & ? & ?); [by right|]. eauto. }
  destruct (mp_spent_inputs p !! to_slot_index out) as [h|] eqn:E2; [|done].
  destruct (proj1 (slot_pending p (to_slot_index out) h Hp)) as (e & ? & ?); [by left|]. eauto.
Qed.

Lemma for_each_cases {A} (f : A → result MempoolError unit) l :
  match try_for_each f l with
  | Ok _ => Forall (λ x, f x = Ok tt) l
  | Err e => ∃ x, x ∈ l ∧ f x = Err e
  end.
Proof.
  induction l as [|x l IH]; cbn [try_for_each]; [constructor|]. destruct (f x) as [[]|e] eqn:E; cbn [mbind result_bind].
  - destruct (try_for_each f l) as [|e]; [by constructor|]. destruct IH as (y & ? & ?). exists y. split; [by right|done].
  - exists x. split; [left|done].
Qed.

(** What each outcome of admission says of the pool. *)
Definition admission_outcome (p : Mempool) (e : MempoolEntry) (r : result (fault MempoolError) Mempool) : Prop :=
  let hash := ps_logical_txid (me_spend e) in
  match r with
  | Ok p' => Mempool_len p < mp_capacity p ∧ mp_entries p !! hash = None
      ∧ (∀ h x, mp_entries p !! h = Some x → entry_slots_of x ## entry_slots_of e) ∧ p' = inserted p hash e
  | Err (Fail ME_Full) => mp_capacity p ≤ Mempool_len p
  | Err (Fail ME_AlreadyAdmitted) => Mempool_len p < mp_capacity p ∧ is_Some (mp_entries p !! hash)
  | Err (Fail (ME_InputConflict h)) => ∃ x s, mp_entries p !! h = Some x ∧ s ∈ entry_slots_of x ∧ s ∈ entry_inputs e
  | Err (Fail (ME_OutputConflict h)) => ∃ x s, mp_entries p !! h = Some x ∧ s ∈ entry_slots_of x ∧ s ∈ entry_outputs e
  | Err Panic => False
  end.

Lemma fresh_slots_disjoint p e :
  pool_inv p → fresh_slots p e ↔ ∀ h x, mp_entries p !! h = Some x → entry_slots_of x ## entry_slots_of e.
Proof.
  intros Hp. split.
  - intros Hf h x Hx s H1 H2. destruct (Hf s H2) as [Hs Hm].
    destruct (proj2 (slot_pending p s h Hp)) as [?|?]; [by eauto|congruence..].
  - intros Hd s Hs. split; apply eq_None_not_Some; intros [h Hh].
    + destruct (proj1 (slot_pending p s h Hp)) as (x & Hx & Hin); [by left|]. exact (Hd h x Hx s Hin Hs).
    + destruct (proj1 (slot_pending p s h Hp)) as (x & Hx & Hin); [by right|]. exact (Hd h x Hx s Hin Hs).
Qed.

Lemma admit_outcome p pages height e :
  pool_inv p → MempoolEntry_new pages height = Ok e → admission_outcome p e (Mempool_admit p pages height).
Proof.
  intros Hp He. assert (Hpages : me_pages e = pages) by (unfold MempoolEntry_new in He; by apply bind_Ok in He as (? & _ & [= <-])).
  unfold Mempool_admit. destruct (Z.leb_spec (mp_capacity p) (Mempool_len p)) as [Hfull|Hroom]; [done|].
  rewrite He. cbn [map_err mbind result_bind]. unfold Mempool_contains. case_bool_decide as Hin; [done|]. apply eq_None_not_Some in Hin.
  rewrite !pages_for_each. change (me_pages e ≫= page_inputs) with (group_inputs (me_pages e)).
  change (me_pages e ≫= page_outputs) with (group_outputs (me_pages e)).
  pose proof (for_each_cases (input_conflict p) (group_inputs (me_pages e))) as Hi.
  destruct (try_for_each (input_conflict p) _) as [[]|ei]; cbn [map_err mbind result_bind].
  2:{ destruct Hi as (inp & Hinp & Hc). pose proof (input_conflict_spec p inp Hp) as Hs. rewrite Hc in Hs.
      destruct Hs as (h & x & -> & Hx & Hsl). exists x, (ti_slot_index inp). split_and!; [done|done|]. by apply list_elem_of_fmap_2. }
  pose proof (for_each_cases (output_conflict p) (group_outputs (me_pages e))) as Ho.
  destruct (try_for_each (output_conflict p) _) as [[]|eo]; cbn [map_err mbind result_bind].
  2:{ destruct Ho as (out & Hout & Hc). pose proof (output_conflict_spec p out Hp) as Hs. rewrite Hc in Hs.
      destruct Hs as (h & x & -> & Hx & Hsl). exists x, (to_slot_index out). split_and!; [done|done|]. by apply list_elem_of_fmap_2. }
  rewrite index_pages. cbn [mp_entries mp_fee_index mp_spent_inputs mp_minted_outputs mp_incoming_value_by_owner mp_capacity].
  split_and!; [done|done| |done]. apply fresh_slots_disjoint; [done|]. rewrite Forall_forall in Hi. rewrite Forall_forall in Ho.
  intros s [(inp & -> & Hinp)%list_elem_of_fmap|(out & -> & Hout)%list_elem_of_fmap]%elem_of_app.
  - pose proof (input_conflict_spec p inp Hp) as Hs. by rewrite (Hi inp Hinp) in Hs.
  - pose proof (output_conflict_spec p out Hp) as Hs. by rewrite (Ho out Hout) in Hs.
Qed.

Lemma entry_new_ok pages height e :
  Forall page_wf pages → MempoolEntry_new pages height = Ok e → entry_ok (ps_logical_txid (me_spend e)) e.
Proof. intros Hw He. unfold MempoolEntry_new in He. by apply bind_Ok in He as (spend & Hs & [= <-]). Qed.

Lemma admit_invalid p pages height e :
  validate_paged_spend pages = Err e → Mempool_len p < mp_capacity p → Mempool_admit p pages height = Err Panic.
Proof.
  intros He Hl. unfold Mempool_admit. rewrite (proj2 (Z.leb_gt _ _)) by done. unfold MempoolEntry_new. by rewrite He.
Qed.

(** *** Retained bytes *)

Lemma pool_inv_set_intent_bytes p hash bytes : pool_inv p → pool_inv (set_intent_bytes p hash bytes).
Proof.
  intros Hp. unfold set_intent_bytes.
  assert (Hlook : ∀ h (Q : MempoolEntry → Prop), (∀ e, Q (with_intent_bytes bytes e) ↔ Q e) →
    (∃ e', alter (with_intent_bytes bytes) hash (mp_entries p) !! h = Some e' ∧ Q e') ↔ (∃ e', mp_entries p !! h = Some e' ∧ Q e')).
  { intros h Q HQ. destruct (decide (h = hash)) as [->|Hne]; [|by rewrite lookup_alter_ne].
    rewrite lookup_alter_eq. destruct (mp_entries p !! hash); cbn [fmap option_fmap option_map]; naive_solver. }
  split; unfold Mempool_len; cbn [mp_entries mp_fee_index mp_spent_inputs mp_minted_outputs mp_capacity].
  - intros h e He. destruct (decide (h = hash)) as [->|Hne].
    + rewrite lookup_alter_eq in He. apply fmap_Some in He as (x & Hx & ->). by destruct (pi_entries _ Hp hash x Hx).
    + rewrite lookup_alter_ne in He by done. by apply Hp.
  - pose proof (pi_capacity _ Hp) as Hc. unfold Mempool_len in Hc. rewrite <- (size_dom (D := gset (list Z))), dom_alter_L, size_dom. done.
  - apply Hp.
  - intros k h. rewrite (Hlook h (λ e', k = entry_key h e')) by done. apply Hp.
  - intros s h. rewrite (Hlook h (λ e', s ∈ entry_inputs e')) by done. apply Hp.
  - intros s h. rewrite (Hlook h (λ e', s ∈ entry_outputs e')) by done. apply Hp.
  - apply Hp.
Qed.

Lemma incoming_set_intent_bytes p hash bytes : incoming_exact p → incoming_exact (set_intent_bytes p hash bytes).
Proof.
  intros Hi owner. specialize (Hi owner). change (pending_incoming_for_owner p owner = pool_external (set_intent_bytes p hash bytes) owner).
  rewrite Hi. destruct (mp_entries p !! hash) as [e|] eqn:He.
  2:{ unfold pool_external, pool_values, set_intent_bytes. cbn [mp_entries]. by rewrite alter_id by (intros ? H; congruence). }
  set (q := mkMempool (delete hash (mp_entries p)) [] ∅ ∅ ∅ 0).
  assert (Hq : mp_entries q !! hash = None) by apply lookup_delete_eq.
  rewrite (pool_external_insert q hash e p owner Hq) by (cbn [mp_entries q]; by rewrite insert_delete_eq, insert_id).
  rewrite (pool_external_insert q hash (with_intent_bytes bytes e) (set_intent_bytes p hash bytes) owner Hq); [reflexivity|].
  cbn [set_intent_bytes mp_entries q]. apply map_eq. intros h. destruct (decide (h = hash)) as [->|Hne].
  - rewrite lookup_alter_eq, lookup_insert_eq, He. done.
  - by rewrite lookup_alter_ne, lookup_insert_ne, lookup_delete_ne.
Qed.

(** *** Whole operations *)

Lemma removals_inv p hashes : pool_inv p → pool_inv (foldl (λ p hash, snd (Mempool_remove p hash)) p hashes).
Proof. revert p. induction hashes as [|h hashes IH]; intros p Hp; [done|]. cbn [foldl]. by apply IH, pool_inv_remove. Qed.

Lemma removals_incoming p hashes :
  pool_inv p → incoming_exact p → incoming_exact (foldl (λ p hash, snd (Mempool_remove p hash)) p hashes).
Proof.
  revert p. induction hashes as [|h hashes IH]; intros p Hp Hi; [done|]. cbn [foldl].
  apply IH; [by apply pool_inv_remove|by apply incoming_remove].
Qed.

Lemma removals_entries p hashes :
  mp_entries (foldl (λ p hash, snd (Mempool_remove p hash)) p hashes) = foldl (λ m h, delete h m) (mp_entries p) hashes.
Proof. revert p. induction hashes as [|h hashes IH]; intros p; [done|]. cbn [foldl]. by rewrite IH, remove_entries. Qed.

Lemma on_block_confirmed_pool p confirmed :
  snd (on_block_confirmed p confirmed) = foldl (λ p hash, snd (Mempool_remove p hash)) p confirmed.
Proof.
  unfold on_block_confirmed. generalize 0 as n. revert p. induction confirmed as [|h l IH]; intros p n; [done|]. cbn [foldl].
  destruct (Mempool_remove p h) as [[e|] p'] eqn:E; cbn [snd]; apply IH.
Qed.

End invariant.

(** ** Every run of the pool *)

Section run.
  Context {P : Poseidon2bPermutation} (B : Mempool → Prop).

(** The pools reached from an empty one by the operations that change it, every
    pool on the way satisfying [B]. *)
Inductive pool_run : Mempool → Prop :=
  | run_new capacity : B (Mempool_new capacity) → pool_run (Mempool_new capacity)
  | run_admit p pages height p' :
      pool_run p → Forall page_wf pages → Mempool_admit p pages height = Ok p' → B p' → pool_run p'
  | run_remove p hash : pool_run p → B (snd (Mempool_remove p hash)) → pool_run (snd (Mempool_remove p hash))
  | run_evict p iteration anchor :
      pool_run p → iteration ≡ₚ map_to_list (mp_entries p) → B (snd (evict_wrong_anchor iteration p anchor)) →
      pool_run (snd (evict_wrong_anchor iteration p anchor))
  | run_confirmed p confirmed :
      pool_run p → B (snd (on_block_confirmed p confirmed)) → pool_run (snd (on_block_confirmed p confirmed))
  | run_set_intent_bytes p hash bytes :
      pool_run p → B (set_intent_bytes p hash bytes) → pool_run (set_intent_bytes p hash bytes).

Lemma admit_step p pages height p' :
  pool_inv p → Forall page_wf pages → Mempool_admit p pages height = Ok p' →
  ∃ e, entry_ok (ps_logical_txid (me_spend e)) e ∧ mp_entries p !! ps_logical_txid (me_spend e) = None
    ∧ p' = inserted p (ps_logical_txid (me_spend e)) e ∧ pool_inv p'.
Proof.
  intros Hp Hw Ha. destruct (MempoolEntry_new pages height) as [e|err] eqn:He.
  - pose proof (admit_outcome p pages height e Hp He) as Ho. rewrite Ha in Ho. destruct Ho as (Hl & Hn & Hd & ->).
    pose proof (entry_new_ok _ _ _ Hw He). exists e. split_and!; [done..|].
    apply pool_inv_inserted; [done..|]. by apply fresh_slots_disjoint.
  - exfalso. unfold Mempool_admit in Ha. apply if_err_Ok in Ha as [_ Ha]. rewrite He in Ha. done.
Qed.

Lemma run_inv p : pool_run p → pool_inv p.
Proof.
  induction 1 as [| p pages height p' _ Hp Hw Ha _ | | p iteration anchor _ Hp _ _ | p confirmed _ Hp _ |].
  - apply pool_inv_new.
  - by destruct (admit_step p pages height p' Hp Hw Ha) as (e & _ & _ & _ & ?).
  - by apply pool_inv_remove.
  - by apply removals_inv.
  - rewrite on_block_confirmed_pool. by apply removals_inv.
  - by apply pool_inv_set_intent_bytes.
Qed.

Lemma run_incoming p : (∀ q owner, B q → pool_external q owner ≤ uint_max 64) → pool_run p → incoming_exact p.
Proof.
  intros HB. induction 1 as [| p pages height p' Hr Hi Hw Ha Hb | p hash Hr Hi Hb | p iteration anchor Hr Hi Hit Hb | p confirmed Hr Hi Hb |].
  - done.
  - pose proof (run_inv _ Hr) as Hp. destruct (admit_step p pages height p' Hp Hw Ha) as (e & He & Hn & -> & _).
    apply incoming_inserted; [done..|]. intros owner. by apply HB.
  - apply incoming_remove; [by apply run_inv|done].
  - apply removals_incoming; [by apply run_inv|done].
  - rewrite on_block_confirmed_pool. apply removals_incoming; [by apply run_inv|done].
  - by apply incoming_set_intent_bytes.
Qed.

End run.

(** ** Properties *)

(** C18: after any sequence of operations on the pool, its entries are valid
    groups under their own identifiers, no more than its capacity; the fee index,
    the spent slots and the minted slots hold exactly what the entries say, so
    that no two pending groups share a slot. When in every pool on the way, the
    last one included, what is pending for an owner fits in 64 bits, the pending
    value reported for each owner is exactly what the pending groups of others pay
    to it (the code saturates, and a saturated sum would not be undone). *)
Theorem mempool_invariant {P : Poseidon2bPermutation} (B : Mempool → Prop) p (Hrun : pool_run B p) :
  pool_inv p
  ∧ (∀ h e h' e', mp_entries p !! h = Some e → mp_entries p !! h' = Some e' → h ≠ h' → entry_slots_of e ## entry_slots_of e')
  ∧ ((∀ q owner, B q → pool_external q owner ≤ uint_max 64) → ∀ owner, pending_incoming_for_owner p owner = pool_external p owner).
Proof.
  pose proof (run_inv _ _ Hrun) as Hp. split_and!; [done| |].
  - intros h e h' e' He He' Hne s Hs Hs'. apply Hne.
    pose proof (proj2 (slot_pending p s h Hp) ltac:(eauto)) as Ha. pose proof (proj2 (slot_pending p s h' Hp) ltac:(eauto)) as Hb.
    destruct (pi_roles _ Hp s); intuition congruence.
  - intros HB. by apply (run_incoming B).
Qed.

(** Admission of a valid group has exactly these outcomes: it is added when
    there is room, its identifier is new and none of its slots is pending; else
    the error says which of these failed, and a conflict names a pending group
    that uses the slot. It never panics. *)
Theorem mempool_admission_exact {P : Poseidon2bPermutation} (B : Mempool → Prop) p pages height spend
    (Hrun : pool_run B p) (Hvalid : validate_paged_spend pages = Ok spend) :
  admission_outcome p (mkMempoolEntry pages spend height (compute_fee_rate spend) 0 []) (Mempool_admit p pages height).
Proof. apply admit_outcome; [by apply (run_inv B)|]. unfold MempoolEntry_new. by rewrite Hvalid. Qed.

Definition example_payment (owner slot fee : Z) : list TxPage :=
  [mkTxPage (mkTxBody zero_digest fee (replicate 32 owner) (mkTxInput slot 10000 1 :: replicate 7 TxInput_dummy)
     [mkTxOutput (slot + 1) (10000 - fee) (replicate 32 8); TxOutput_dummy] 0xD01 false)].

(** All the value of the pending outputs fits in 64 bits. *)
Definition within_u64 (p : Mempool) : Prop :=
  Forall (λ e, Forall (λ out, 0 ≤ to_amount out) (group_outputs (me_pages e))) (pool_values p)
  ∧ sum_Z ((λ e, sum_Z (to_amount <$> group_outputs (me_pages e))) <$> pool_values p) ≤ uint_max 64.

#[global] Instance within_u64_dec p : Decision (within_u64 p).
Proof. unfold within_u64. apply _. Defined.

Lemma within_u64_external p owner : within_u64 p → pool_external p owner ≤ uint_max 64.
Proof.
  intros [Hpos Hsum]. etrans; [|exact Hsum]. unfold pool_external. clear Hsum.
  induction Hpos as [|e es He _ IH]; [done|]. cbn [fmap list_fmap]. rewrite !sum_Z_cons.
  assert (entry_external owner e ≤ sum_Z (to_amount <$> group_outputs (me_pages e))); [|lia]. unfold entry_external.
  clear IH. induction He as [|out outs Ho _ IH]; [done|]. rewrite external_amount_cons. cbn [fmap list_fmap]. rewrite sum_Z_cons.
  case_bool_decide; lia.
Qed.

Lemma mempool_invariant_witness :
  ∃ p, pool_inv (P := narrow_permutation) p ∧ Mempool_len p = 1 ∧ pending_incoming_for_owner p (replicate 32 8) = 3000
    ∧ pool_external p (replicate 32 8) = 3000.
Proof.
  assert (∃ p1 p2 hash, Mempool_admit (P := narrow_permutation) (Mempool_new 8) (example_payment 6 50 7000) 7 = Ok p1
    ∧ Mempool_admit (P := narrow_permutation) p1 (example_payment 5 40 9000) 7 = Ok p2
    ∧ within_u64 p1 ∧ within_u64 p2 ∧ within_u64 (snd (Mempool_remove p2 hash)) ∧ Mempool_len (snd (Mempool_remove p2 hash)) = 1
    ∧ pending_incoming_for_owner (snd (Mempool_remove p2 hash)) (replicate 32 8) = 3000)
    as (p1 & p2 & hash & H1 & H2 & B1 & B2 & B3 & Hl & Hv).
  { eexists _, _, (hash_paged_spend_unchecked (P := narrow_permutation) (example_payment 5 40 9000)).
    split; [vm_compute; reflexivity|]. split; [vm_compute; reflexivity|].
    split; [apply (bool_decide_unpack _); vm_compute; exact I|]. split; [apply (bool_decide_unpack _); vm_compute; exact I|].
    split; [apply (bool_decide_unpack _); vm_compute; exact I|]. split; vm_compute; reflexivity. }
  assert (Hrun : pool_run (P := narrow_permutation) within_u64 (snd (Mempool_remove p2 hash))).
  { apply run_remove; [|exact B3]. apply (run_admit _ p1 (example_payment 5 40 9000) 7); [|apply (bool_decide_unpack _); vm_compute; exact I|exact H2|exact B2].
    apply (run_admit _ (Mempool_new 8) (example_payment 6 50 7000) 7); [|apply (bool_decide_unpack _); vm_compute; exact I|exact H1|exact B1].
    apply run_new. apply (bool_decide_unpack _). vm_compute. exact I. }
  destruct (mempool_invariant (P := narrow_permutation) within_u64 (snd (Mempool_remove p2 hash)) Hrun) as (Hinv & _ & Hin).
  exists (snd (Mempool_remove p2 hash)). split; [exact Hinv|]. split; [exact Hl|]. split; [exact Hv|].
  rewrite <- (Hin (λ q owner, within_u64_external q owner)). exact Hv.
Defined.

Lemma mempool_admission_exact_witness :
  ∃ p spend, Mempool_admit (P := narrow_permutation) p (example_payment 5 51 9000) 8 =
      Err (Fail (ME_InputConflict (hash_paged_spend_unchecked (P := narrow_permutation) (example_payment 6 50 7000))))
    ∧ admission_outcome p (mkMempoolEntry (example_payment 5 51 9000) spend 8 (compute_fee_rate spend) 0 [])
        (Mempool_admit (P := narrow_permutation) p (example_payment 5 51 9000) 8).
Proof.
  assert (∃ p1 spend, Mempool_admit (P := narrow_permutation) (Mempool_new 8) (example_payment 6 50 7000) 7 = Ok p1
    ∧ validate_paged_spend (P := narrow_permutation) (example_payment 5 51 9000) = Ok spend
    ∧ Mempool_admit (P := narrow_permutation) p1 (example_payment 5 51 9000) 8 =
      Err (Fail (ME_InputConflict (hash_paged_spend_unchecked (P := narrow_permutation) (example_payment 6 50 7000)))))
    as (p1 & spend & H1 & Hs & H2).
  { eexists _, _. split; [vm_compute; reflexivity|]. split; [vm_compute; reflexivity|]. vm_compute; reflexivity. }
  exists p1, spend. split; [exact H2|].
  apply (mempool_admission_exact (P := narrow_permutation) (λ _, True) p1 (example_payment 5 51 9000) 8 spend); [|exact Hs].
  apply (run_admit _ (Mempool_new 8) (example_payment 6 50 7000) 7); [by apply run_new|apply (bool_decide_unpack _); vm_compute; exact I|exact H1|exact I].
Defined.
