(* ===== verification/MempoolSelect.v ===== *)
(** * Selection from the mempool

    Block selection is the greedy packing of the pending groups by fee priority,
    and the selected pages are what the template builder receives: they form a
    page stream exactly when they stay within the block's live-input capacity,
    which the selection, bounded in pages only, does not ensure. *)

From Stdlib Require Import Sorting.Sorted.
From S2P Require Import Prelude Machine Params Emission Poseidon TxTypes TxWire PagedSpend PagedWire Fees BlockStream SlotState SparseRoot ChainState BlockHeader Conflict ClientObjects Consensus Difficulty TowerWalk Pow Header EpochAnchor Template Mempool MempoolProps.

(** The pending entries, in the order of the fee index. *)
Definition priority (p : Mempool) : list MempoolEntry := omap (λ h, mp_entries p !! h) (snd <$> mp_fee_index p).

Definition page_total (es : list MempoolEntry) : Z := Z.of_nat (length (es ≫= me_pages)).

Lemma page_total_cons e es : page_total (e :: es) = Z.of_nat (length (me_pages e)) + page_total es.
Proof. unfold page_total. rewrite bind_cons, length_app. lia. Qed.

Lemma page_total_nonneg es : 0 ≤ page_total es.
Proof. unfold page_total. lia. Qed.

(** Take each entry that is kept and still fits. *)
Fixpoint greedy (keep : MempoolEntry → bool) (es : list MempoolEntry) (budget : Z) : list MempoolEntry :=
  match es with
  | [] => []
  | e :: es =>
      if keep e && (Z.of_nat (length (me_pages e)) <=? budget)
      then e :: greedy keep es (budget - Z.of_nat (length (me_pages e)))
      else greedy keep es budget
  end.

Lemma greedy_exhausted keep es budget :
  Forall (λ e, me_pages e ≠ []) es → budget ≤ 0 → greedy keep es budget = [].
Proof.
  intros Hne Hb. induction Hne as [|e es He _ IH]; [done|]. cbn [greedy].
  rewrite (proj2 (Z.leb_gt _ _)), andb_false_r; [done|]. destruct (me_pages e); [done|]. cbn [length]. lia.
Qed.

Lemma select_loop_greedy entries keep hashes budget :
  Forall (λ e, me_pages e ≠ []) (omap (λ h, entries !! h) hashes) →
  select_loop entries keep hashes budget = greedy keep (omap (λ h, entries !! h) hashes) budget.
Proof.
  revert budget. induction hashes as [|h hashes IH]; intros budget Hne; [done|]. cbn [select_loop omap list_omap] in *.
  destruct (entries !! h) as [e|]; [|by apply IH]. apply Forall_cons in Hne as [He Hne]. cbn [greedy].
  destruct (keep e); cbn [negb andb]; [|by apply IH].
  destruct (Z.ltb_spec budget (Z.of_nat (length (me_pages e)))) as [Hlt|Hle];
    [rewrite (proj2 (Z.leb_gt _ _)) by lia; by apply IH|]. rewrite (proj2 (Z.leb_le _ _)) by lia. f_equal.
  destruct (Z.eqb_spec (budget - Z.of_nat (length (me_pages e))) 0) as [->|]; [by rewrite greedy_exhausted|by apply IH].
Qed.

Lemma greedy_sublist keep es budget : greedy keep es budget `sublist_of` es.
Proof. revert budget. induction es as [|e es IH]; intros budget; [done|]. cbn [greedy]. destruct (_ && _); by constructor. Qed.

Lemma greedy_keeps keep es budget : Forall (λ e, keep e = true) (greedy keep es budget).
Proof.
  revert budget. induction es as [|e es IH]; intros budget; [constructor|]. cbn [greedy]. destruct (keep e) eqn:E; cbn [andb]; [|done].
  destruct (_ <=? _); [by constructor|done].
Qed.

Lemma greedy_budget keep es budget : 0 ≤ budget → page_total (greedy keep es budget) ≤ budget.
Proof.
  revert budget. induction es as [|e es IH]; intros budget Hb; [done|]. cbn [greedy].
  destruct (keep e); cbn [andb]; [|by apply IH]. destruct (Z.leb_spec (Z.of_nat (length (me_pages e))) budget); [|by apply IH].
  rewrite page_total_cons. specialize (IH (budget - Z.of_nat (length (me_pages e)))). lia.
Qed.

Lemma greedy_app keep es1 es2 budget :
  greedy keep (es1 ++ es2) budget = greedy keep es1 budget ++ greedy keep es2 (budget - page_total (greedy keep es1 budget)).
Proof.
  revert budget. induction es1 as [|e es1 IH]; intros budget; cbn [app greedy]; [f_equal; unfold page_total; cbn; lia|].
  destruct (_ && _); [|apply IH]. rewrite IH, page_total_cons. cbn [app]. do 3 f_equal; lia.
Qed.

(** ** The priority order *)

Section order.
  Context {P : Poseidon2bPermutation} (p : Mempool) (Hp : pool_inv p).

Definition by_priority (a b : MempoolEntry) : Prop :=
  fee_key_ltb (entry_key (ps_logical_txid (me_spend a)) a) (entry_key (ps_logical_txid (me_spend b)) b) = true.

Lemma fee_index_entry b : b ∈ mp_fee_index p →
  ∃ e, mp_entries p !! snd b = Some e ∧ fst b = entry_key (ps_logical_txid (me_spend e)) e ∧ entry_ok (snd b) e.
Proof.
  destruct b as [k h]. intros (e & He & Hk)%(pi_fee _ Hp). cbn [fst snd]. exists e. pose proof (pi_entries _ Hp h e He) as Hok.
  split_and!; [done| |done]. by rewrite (eo_hash _ _ Hok).
Qed.

Lemma elem_of_priority e : e ∈ priority p ↔ ∃ h, mp_entries p !! h = Some e.
Proof.
  unfold priority. rewrite list_elem_of_omap. split.
  - intros (h & _ & Hh). eauto.
  - intros (h & Hh). exists h. split; [|done]. apply list_elem_of_fmap. exists (entry_key h e, h). split; [done|]. apply (pi_fee _ Hp). eauto.
Qed.

Lemma priority_ok : Forall (λ e, entry_ok (ps_logical_txid (me_spend e)) e) (priority p).
Proof.
  apply Forall_forall. intros e (h & He)%elem_of_priority. pose proof (pi_entries _ Hp h e He) as Hok.
  by rewrite (eo_hash _ _ Hok).
Qed.

Lemma priority_sorted : StronglySorted by_priority (priority p).
Proof.
  unfold priority. assert (Hgen : ∀ index, Forall (λ b, b ∈ mp_fee_index p) index → StronglySorted fee_lt index →
    StronglySorted by_priority (omap (λ h, mp_entries p !! h) (snd <$> index))); [|apply Hgen; [by apply Forall_forall|apply Hp]].
  intros index Hall Hs. induction Hs as [|b index Hs IH Hb]; [constructor|]. apply Forall_cons in Hall as [Hin Hall].
  destruct (fee_index_entry b Hin) as (e & He & Hk & Hok). cbn [fmap list_fmap omap list_omap]. rewrite He.
  constructor; [by apply IH|]. apply Forall_forall. intros e' (h' & Hh' & He')%list_elem_of_omap.
  apply list_elem_of_fmap in Hh' as (b' & -> & Hb'). rewrite Forall_forall in Hb. rewrite Forall_forall in Hall.
  destruct (fee_index_entry b' (Hall b' Hb')) as (e'' & He'' & Hk' & _). rewrite He' in He''. injection He'' as <-.
  specialize (Hb b' Hb'). unfold fee_lt in Hb. unfold by_priority. by rewrite <- Hk, <- Hk'.
Qed.

Lemma priority_nonempty : Forall (λ e, me_pages e ≠ []) (priority p).
Proof.
  eapply Forall_impl; [apply priority_ok|]. intros e Hok Hn. destruct Hok as [Hw Hv _ _].
  apply validate_paged_spend_valid in Hv as (first & Hg & _); [|done]. pose proof (vg_count _ _ Hg) as Hc. rewrite Hn in Hc. cbn in Hc. lia.
Qed.

Lemma select_is_greedy max_pages keep :
  select_for_block_matching p max_pages keep = greedy keep (priority p) (Z.min max_pages BLOCK_MAX_USER_PAGES).
Proof. apply select_loop_greedy, priority_nonempty. Qed.

End order.

(** ** The selected pages as a stream *)

Section stream.
  Context {P : Poseidon2bPermutation} (p : Mempool) (Hp : pool_inv p).

Lemma Forall_sublist_of {A} (Q : A → Prop) l k : l `sublist_of` k → Forall Q k → Forall Q l.
Proof. rewrite !Forall_forall. intros Hs Hk x Hx. apply Hk. by eapply elem_of_sublist. Qed.

Lemma sublist_sorted {A} (R : A → A → Prop) l k : l `sublist_of` k → StronglySorted R k → StronglySorted R l.
Proof.
  induction 1 as [|x l k Hl IH|x l k Hl IH]; intros Hs; [done| |].
  - apply StronglySorted_inv in Hs as [Hs Hall]. constructor; [by apply IH|]. by eapply Forall_sublist_of.
  - apply StronglySorted_inv in Hs as [Hs _]. by apply IH.
Qed.

(** A slot has at most one user among the entries. *)
Lemma slot_owner_unique s h e h' e' :
  mp_entries p !! h = Some e → s ∈ entry_slots_of e → mp_entries p !! h' = Some e' → s ∈ entry_slots_of e' → h = h'.
Proof.
  intros H1 H2 H3 H4. pose proof (proj2 (slot_pending p s h Hp) ltac:(eauto)) as Ha.
  pose proof (proj2 (slot_pending p s h' Hp) ltac:(eauto)) as Hb. destruct (pi_roles _ Hp s); intuition congruence.
Qed.

Lemma selected_slots es :
  Forall (λ e, ∃ h, mp_entries p !! h = Some e) es → StronglySorted by_priority es →
  NoDup ((es ≫= entry_inputs) ++ (es ≫= entry_outputs)).
Proof.
  intros Hin Hs. induction Hs as [|e es Hs IH Hlt]; [constructor|]. apply Forall_cons in Hin as [[h He] Hin].
  rewrite !bind_cons.
  assert (Hperm : (entry_inputs e ++ (es ≫= entry_inputs)) ++ (entry_outputs e ++ (es ≫= entry_outputs))
    ≡ₚ entry_slots_of e ++ (es ≫= entry_inputs) ++ (es ≫= entry_outputs)) by (unfold entry_slots_of; solve_Permutation).
  rewrite Hperm. pose proof (pi_entries _ Hp h e He) as Hok. apply NoDup_app. split_and!; [by eapply entry_slots| |by apply IH].
  intros s Hse Hrest.
  assert (∃ e', e' ∈ es ∧ s ∈ entry_slots_of e') as (e' & Hin' & Hs').
  { unfold entry_slots_of. apply elem_of_app in Hrest as [H|H]; apply list_elem_of_bind in H as (e' & ? & ?);
      exists e'; (split; [done|apply elem_of_app; auto]). }
  rewrite Forall_forall in Hin. destruct (Hin e' Hin') as [h' He'].
  assert (h = h') as <- by (by eapply (slot_owner_unique s h e h' e')). rewrite He in He'. injection He' as <-.
  rewrite Forall_forall in Hlt. specialize (Hlt e Hin'). unfold by_priority in Hlt. by rewrite fee_key_ltb_irrefl in Hlt.
Qed.

Lemma selected_inputs es : ti_slot_index <$> group_inputs (es ≫= me_pages) = es ≫= entry_inputs.
Proof.
  induction es as [|e es IH]; [done|]. rewrite !bind_cons. unfold group_inputs in *. rewrite bind_app, fmap_app, IH. done.
Qed.

Lemma selected_outputs es : to_slot_index <$> group_outputs (es ≫= me_pages) = es ≫= entry_outputs.
Proof.
  induction es as [|e es IH]; [done|]. rewrite !bind_cons. unfold group_outputs in *. rewrite bind_app, fmap_app, IH. done.
Qed.

Lemma selected_groups es :
  Forall (λ e, entry_ok (ps_logical_txid (me_spend e)) e) es →
  ∃ gs, gs ≫= group_pages = es ≫= me_pages ∧ Forall (λ g, valid_group (group_pages g) (fst g)) gs
    ∧ Forall page_wf (es ≫= me_pages).
Proof.
  induction 1 as [|e es [Hw Hv _ _] _ (gs & Hg & Hvg & Hwf)]; [by exists []|].
  apply validate_paged_spend_valid in Hv as (first & Hgv & _); [|done]. pose proof (vg_first _ _ Hgv) as Hh.
  destruct (me_pages e) as [|x rest] eqn:Ep; [done|]. injection Hh as ->. exists ((first, rest) :: gs).
  rewrite !bind_cons, Ep, Hg. split_and!; [done|by constructor|by apply Forall_app].
Qed.

(** The transactions handed to the template builder. *)
Definition selected_txs (es : list MempoolEntry) : list Transaction := (λ page, mkTransaction (page_body page)) <$> (es ≫= me_pages).

Lemma selected_txs_pages es : tx_page <$> selected_txs es = es ≫= me_pages.
Proof.
  unfold selected_txs. rewrite <- list_fmap_compose. rewrite <- (list_fmap_id (es ≫= me_pages)) at 2.
  apply list_fmap_ext. by intros i [b].
Qed.

Lemma selection_stream max_pages keep :
  0 ≤ max_pages →
  let sel := select_for_block_matching p max_pages keep in
  (∃ facts, validate_paged_spend_stream_in (selected_txs sel) V1 = Ok facts) ↔
  Z.of_nat (length (group_inputs (sel ≫= me_pages))) ≤ BLOCK_MAX_LIVE_INPUTS.
Proof.
  intros Hmax sel. unfold sel. rewrite (select_is_greedy p Hp). set (es := greedy _ _ _). clear sel.
  assert (Hsub : es `sublist_of` priority p) by apply greedy_sublist.
  assert (Hok : Forall (λ e, entry_ok (ps_logical_txid (me_spend e)) e) es) by (by eapply Forall_sublist_of, priority_ok).
  destruct (selected_groups es Hok) as (gs & Hgs & Hvg & Hwf).
  assert (Hpages : page_total es ≤ 255).
  { etrans; [apply greedy_budget|]; change BLOCK_MAX_USER_PAGES with 255; lia. }
  unfold page_total in Hpages. destruct (group_action_bounds _ Hwf) as [Hbi Hbo].
  setoid_rewrite (validate_stream_valid (selected_txs es) V1); [|by rewrite selected_txs_pages]. rewrite selected_txs_pages.
  change BLOCK_MAX_LIVE_INPUTS with 1020. split.
  - intros (facts & class & gs' & Hv & _). pose proof (vs_inputs _ _ _ _ Hv) as Hi. etrans; [exact Hi|]. by destruct class.
  - intros Hi.
    assert (∃ class, for_page_count_in_generation (Z.of_nat (length (es ≫= me_pages))) V1 = Some class
      ∧ Z.of_nat (length (group_inputs (es ≫= me_pages))) ≤ input_capacity_in_generation class V1
      ∧ Z.of_nat (length (group_outputs (es ≫= me_pages))) ≤ output_capacity_in_generation class V1) as (class & Hc & Hci & Hco).
    { unfold for_page_count_in_generation. change (fst (tiers V1)) with 25. change (snd (tiers V1)) with 255.
      destruct (Z.leb_spec (Z.of_nat (length (es ≫= me_pages))) 25).
      - exists B25. change (input_capacity_in_generation B25 V1) with 200. change (output_capacity_in_generation B25 V1) with 50. split; [done|lia].
      - rewrite (proj2 (Z.leb_le _ _)) by lia. exists B255. change (input_capacity_in_generation B255 V1) with 1020.
        change (output_capacity_in_generation B255 V1) with 510. split; [done|lia]. }
    eexists _, class, gs. split; [|reflexivity]. split; [done|done|done|done|done|].
    rewrite selected_inputs, selected_outputs. apply selected_slots; [|by eapply sublist_sorted, priority_sorted].
    eapply Forall_sublist_of; [exact Hsub|]. apply Forall_forall. intros e He. by apply elem_of_priority.
Qed.

End stream.

Lemma live_inputs_sum {P : Poseidon2bPermutation} es :
  Forall (λ e, entry_ok (ps_logical_txid (me_spend e)) e) es →
  Z.of_nat (length (group_inputs (es ≫= me_pages))) = sum_Z ((λ e, ps_live_inputs (me_spend e)) <$> es).
Proof.
  induction 1 as [|e es [Hw Hv _ _] _ IH]; [done|]. cbn [fmap list_fmap]. rewrite sum_Z_cons, bind_cons, <- IH.
  apply validate_paged_spend_valid in Hv as (first & _ & ->); [|done]. cbn [group_facts ps_live_inputs].
  unfold group_inputs. rewrite bind_app, length_app. lia.
Qed.

(** ** Properties *)

(** C19: block selection is the greedy packing by fee. The pending groups, in the
    order of the fee index, are all the entries of the pool by decreasing fee rate
    and then by identifier; and each group in that order is selected exactly when
    it is wanted and still fits, whole, in the pages left by the groups selected
    before it. *)
Theorem mempool_selection_greedy {P : Poseidon2bPermutation} (B : Mempool → Prop) p max_pages keep
    (Hrun : pool_run B p) (Hmax : 0 ≤ max_pages) :
  let sel := select_for_block_matching p max_pages keep in
  let budget := Z.min max_pages BLOCK_MAX_USER_PAGES in
  (∀ e, e ∈ priority p ↔ ∃ h, mp_entries p !! h = Some e)
  ∧ StronglySorted by_priority (priority p)
  ∧ page_total sel ≤ budget
  ∧ ∀ before e after, priority p = before ++ e :: after →
      ∃ s1 s2, s1 `sublist_of` before ∧ s2 `sublist_of` after
        ∧ sel = s1 ++ (if keep e && (page_total s1 + Z.of_nat (length (me_pages e)) <=? budget) then [e] else []) ++ s2.
Proof.
  pose proof (run_inv _ _ Hrun) as Hp. cbv zeta. rewrite (select_is_greedy p Hp). set (budget := Z.min _ _).
  split_and!; [apply elem_of_priority, Hp|by apply priority_sorted|apply greedy_budget; unfold budget; change BLOCK_MAX_USER_PAGES with 255; lia|].
  intros before e after ->. rewrite greedy_app. set (s1 := greedy keep before budget). exists s1.
  replace (page_total s1 + Z.of_nat (length (me_pages e)) <=? budget)
    with (Z.of_nat (length (me_pages e)) <=? budget - page_total s1) by (apply eq_true_iff_eq; rewrite !Z.leb_le; lia).
  cbn [greedy]. destruct (keep e && _); eexists (greedy keep after _);
    (split; [apply greedy_sublist|split; [apply greedy_sublist|reflexivity]]).
Qed.

(** C39: the pages selected for a block are a page stream the block accepts
    exactly when their live inputs are within the block's capacity. Selection
    bounds pages only, so it can exceed that capacity, and then no template can be
    built from it: the builder rejects the whole selection. *)
Theorem selected_stream_exact {P : Poseidon2bPermutation} {C : SegmentCommitment} (B : Mempool → Prop) p max_pages keep
    (Hrun : pool_run B p) (Hmax : 0 ≤ max_pages) :
  let sel := select_for_block_matching p max_pages keep in
  let live_inputs := sum_Z ((λ e, ps_live_inputs (me_spend e)) <$> sel) in
  ((∃ facts, validate_paged_spend_stream_in (selected_txs sel) V1 = Ok facts) ↔ live_inputs ≤ BLOCK_MAX_LIVE_INPUTS)
  ∧ (BLOCK_MAX_LIVE_INPUTS < live_inputs → ∀ parent state counts miner timestamp target,
       build_block_template_with_post_state parent state counts (selected_txs sel) miner timestamp target
       = Err (Fail StateApplyError)).
Proof.
  pose proof (run_inv _ _ Hrun) as Hp. pose proof (selection_stream p Hp max_pages keep Hmax) as Hs. cbv zeta in *.
  assert (Hsum : Z.of_nat (length (group_inputs (select_for_block_matching p max_pages keep ≫= me_pages)))
    = sum_Z ((λ e, ps_live_inputs (me_spend e)) <$> select_for_block_matching p max_pages keep)).
  { apply live_inputs_sum. rewrite (select_is_greedy p Hp). eapply Forall_sublist_of; [apply greedy_sublist|by apply priority_ok]. }
  rewrite Hsum in Hs. split; [exact Hs|]. intros Hgt parent state counts miner timestamp target.
  unfold build_block_template_with_post_state. destruct (checked_add 64 _ 1) as [h|]; [|done]. cbn [ok_or mbind result_bind].
  destruct (validate_paged_spend_stream_in _ V1) as [facts|err] eqn:Hv; [|done]. exfalso.
  apply (Z.lt_irrefl BLOCK_MAX_LIVE_INPUTS). eapply Z.lt_le_trans; [exact Hgt|]. apply Hs. by exists facts.
Qed.

(** A group of 128 pages with 1020 inputs, and one of a single page with one. *)
Definition example_wide_page (i : Z) : TxPage :=
  mkTxPage (mkTxBody zero_digest (if i =? 0 then 9000 else 0) (replicate 32 7)
    (if i =? 127 then ((λ j, mkTxInput (8 * i + j) 1000 1) <$> seqZ 0 4) ++ replicate 4 TxInput_dummy
     else (λ j, mkTxInput (8 * i + j) 1000 1) <$> seqZ 0 8)
    [if i =? 0 then mkTxOutput 5000 1011000 (replicate 32 8) else TxOutput_dummy; TxOutput_dummy]
    (if i =? 0 then 0x5FF else if i =? 127 then 0x80F else 0xFF) false).

Definition example_wide_group : list TxPage := example_wide_page <$> seqZ 0 128.

Definition example_narrow_group : list TxPage :=
  [mkTxPage (mkTxBody zero_digest 9000 (replicate 32 6) (mkTxInput 6000 10000 1 :: replicate 7 TxInput_dummy)
     [mkTxOutput 6001 1000 (replicate 32 8); TxOutput_dummy] 0xD01 false)].

(** The pool with both groups pending. *)
Definition example_admit (p : Mempool) (pages : list TxPage) : result (fault MempoolError) Mempool :=
  Mempool_admit (P := narrow_permutation) p pages 7.

Definition example_pool (groups : list (list TxPage)) : result (fault MempoolError) Mempool :=
  try_fold example_admit (Mempool_new 2048) groups.

Lemma example_pool_run groups p :
  bool_decide (Forall (Forall page_wf) groups) = true → example_pool groups = Ok p →
  pool_run (P := narrow_permutation) (λ _, True) p.
Proof.
  intros Hw%bool_decide_eq_true. unfold example_pool.
  assert (H0 : pool_run (P := narrow_permutation) (λ _, True) (Mempool_new 2048)) by by apply run_new.
  revert H0. generalize (Mempool_new 2048) as p0. induction Hw as [|pages groups Hp Hw IH]; intros p0 H0; cbn [try_fold]; [by intros [= <-]|].
  intros (p1 & H1 & H2)%bind_Ok. apply (IH p1); [|done]. by apply (run_admit _ p0 pages 7).
Qed.

(** Selecting a full block from the pool exceeds the live-input capacity. *)
Definition overfull (r : result (fault MempoolError) Mempool) : bool :=
  match r with
  | Ok p => BLOCK_MAX_LIVE_INPUTS <? sum_Z ((λ e, ps_live_inputs (me_spend e))
              <$> select_for_block_matching p BLOCK_MAX_USER_PAGES (λ _, true))
  | Err _ => false
  end.

Lemma overfull_pool r : overfull r = true → ∃ p, r = Ok p
  ∧ BLOCK_MAX_LIVE_INPUTS < sum_Z ((λ e, ps_live_inputs (me_spend e)) <$> select_for_block_matching p BLOCK_MAX_USER_PAGES (λ _, true)).
Proof. destruct r as [p|]; [|done]. intros H%Z.ltb_lt. by exists p. Qed.

Lemma selected_stream_exact_witness :
  ∃ p cs, with_log_slots (P := narrow_permutation) (C := example_commitment) 4 = Some cs
    ∧ pool_run (P := narrow_permutation) (λ _, True) p
    ∧ build_block_template_with_post_state (P := narrow_permutation) (C := example_commitment) example_header cs []
        (selected_txs (select_for_block p BLOCK_MAX_USER_PAGES)) (replicate 32 9) 1700000600 (replicate 32 255)
      = Err (Fail StateApplyError).
Proof.
  assert (∃ cs, with_log_slots (P := narrow_permutation) (C := example_commitment) 4 = Some cs) as [cs Hcs]
    by (eexists; vm_compute; reflexivity).
  destruct (overfull_pool (example_pool [example_wide_group; example_narrow_group])) as (p & Hp & Hover); [vm_compute; reflexivity|].
  assert (Hrun : pool_run (P := narrow_permutation) (λ _, True) p) by (eapply example_pool_run; [|exact Hp]; vm_compute; reflexivity).
  exists p, cs. split; [exact Hcs|]. split; [exact Hrun|].
  exact (proj2 (selected_stream_exact (P := narrow_permutation) (C := example_commitment) (λ _, True) p BLOCK_MAX_USER_PAGES
    (λ _, true) Hrun ltac:(discriminate)) Hover example_header cs [] (replicate 32 9) 1700000600 (replicate 32 255)).
Defined.

Lemma mempool_selection_greedy_witness :
  ∃ p e, pool_run (P := narrow_permutation) (λ _, True) p ∧ select_for_block p 1 = [e] ∧ page_total [e] ≤ 1.
Proof.
  assert (∃ p1 e, Mempool_admit (P := narrow_permutation) (Mempool_new 8) example_narrow_group 7 = Ok p1
    ∧ select_for_block p1 1 = [e]) as (p1 & e & H1 & He).
  { eexists _, _. split; vm_compute; reflexivity. }
  assert (Hrun : pool_run (P := narrow_permutation) (λ _, True) p1).
  { eapply run_admit; [|apply (bool_decide_unpack (Forall page_wf example_narrow_group)); vm_compute; exact I|exact H1|exact I].
    by apply run_new. }
  exists p1, e. split; [exact Hrun|]. split; [exact He|].
  rewrite <- He.
  exact (proj1 (proj2 (proj2 (mempool_selection_greedy (P := narrow_permutation) (λ _, True) p1 1 (λ _, true) Hrun ltac:(discriminate))))).
Defined.
