(* ===== verification/ChainView.v ===== *)
(** * The mempool's view of the chain

    [jetsam_mempool/src/view.rs]: the snapshot of the chain that admission reads:
    the tip, the anchors the next block accepts, and slot reads that fetch an
    evicted segment from the store through a cache of four segments. The theorem
    says that the cache never changes what is read.

    The store is an argument: [get_segment_at_tip], [None] for an error or a
    missing segment. The cache is a mutable field behind a lock in the code and an
    argument and a result here; [CachePoisoned] needs a thread that panics while
    it holds the lock and has no counterpart. *)

From S2P Require Import Prelude Machine Params Poseidon TxTypes SlotState BlockHeader EpochAnchor.

Definition SEGMENT_READ_CACHE_CAPACITY : nat := 4.

Inductive ChainViewReadError := StaleOrUnavailable | CorruptSegment.

Notation SegmentReadCache := (list (Z * SegmentColumns)) (only parsing).

(** [MdbxStore::get_segment_at_tip], by tip height, tip hash and segment. *)
Definition SegmentStore : Type := Z → list Z → Z → option (Z * SegmentColumns).

Record ChainView := mkChainView {
  cv_tip_height : Z;
  cv_recent_headers : gmap Z BlockHeader;
  cv_num_slots : Z;
  cv_active_slot_count : Z;
  cv_user_epoch_anchor_id : list Z;
  cv_previous_user_epoch_anchor_id : list Z;
  cv_tip_hash : list Z;
  cv_state : SegmentedFriState;
  cv_store : option SegmentStore;
}.

Definition child_generation (tip_height : Z) : HistoryStepPackGeneration := at_height (saturating_add 64 tip_height 1).

Definition view_log_slots (v : ChainView) : Z := wrap 32 (Z.of_nat (sg_log_slots (cv_state v))).

Definition accepted_user_epoch_anchors (v : ChainView) : AcceptedEpochAnchors * HistoryStepPackGeneration :=
  (mkAcceptedAnchors (cv_user_epoch_anchor_id v) (cv_previous_user_epoch_anchor_id v), child_generation (cv_tip_height v)).

(** A segment fetched from the store, of the expected shape. *)
Definition fetch_segment (v : ChainView) (segment_id : Z) : result ChainViewReadError SegmentColumns :=
  store ← ok_or (cv_store v) StaleOrUnavailable;
  '(stored_log, columns) ← ok_or (store (cv_tip_height v) (cv_tip_hash v) segment_id) StaleOrUnavailable;
  let effective_log := effective_log_segment_size (cv_state v) in
  let expected_len := (2 ^ effective_log)%nat in
  if negb (stored_log =? Z.of_nat effective_log)
     || negb (length (sc_values columns) =? expected_len)%nat
     || negb (length (sc_owners_hi columns) =? expected_len)%nat
     || negb (length (sc_owners_lo columns) =? expected_len)%nat
  then Err CorruptSegment
  else Ok columns.

(** The position of a segment in the cache, most recent first. *)
Fixpoint cache_position (segment_id : Z) (cache : SegmentReadCache) : option nat :=
  match cache with
  | [] => None
  | (id, _) :: cache => if id =? segment_id then Some 0%nat else S <$> cache_position segment_id cache
  end.

Definition cached_segment (v : ChainView) (cache : SegmentReadCache) (segment_id : Z) :
    result ChainViewReadError (SegmentColumns * SegmentReadCache) :=
  match cache_position segment_id cache ≫= λ i, (i,.) <$> cache !! i with
  | Some (i, entry) => Ok (snd entry, entry :: take i cache ++ drop (S i) cache)
  | None =>
      columns ← fetch_segment v segment_id;
      Ok (columns, take SEGMENT_READ_CACHE_CAPACITY ((segment_id, columns) :: cache))
  end.

(** [Panic] is an index out of range. *)
Definition try_slot (v : ChainView) (cache : SegmentReadCache) (idx : Z) :
    result (fault ChainViewReadError) SlotValue * SegmentReadCache :=
  if cv_num_slots v <=? idx then (Ok EMPTY, cache)
  else
    let effective_log := effective_log_segment_size (cv_state v) in
    let segment_id := wrap 16 (Z.shiftr idx (Z.of_nat effective_log)) in
    if negb (is_evicted (cv_state v) segment_id) then (expect (slot (cv_state v) idx), cache)
    else
      match cached_segment v cache segment_id with
      | Err e => (Err (Fail e), cache)
      | Ok (columns, cache) =>
          let local := Z.land idx (Z.shiftl 1 (Z.of_nat effective_log) - 1) in
          (expect (cols_get columns local), cache)
      end.

Section view.
  Context {P : Poseidon2bPermutation}.

Definition header_id_or (default_id : list Z) (header : option BlockHeader) : list Z := default default_id (block_id <$> header).

(** Both constructors: [header_at] reads the retained headers in [new] and the
    store in [from_mdbx]. *)
Definition view_anchors (tip_height : Z) (header_at : Z → option BlockHeader) : list Z * list Z :=
  let child := wrap 64 (tip_height + 1) in
  let user := header_id_or zero_digest (header_at (tx_epoch_anchor_height_for_child child)) in
  let previous :=
    if binds_two_epoch_anchors (child_generation tip_height)
    then header_id_or user (header_at (previous_tx_epoch_anchor_height_for_child child))
    else user in
  (user, previous).

Definition ChainView_new (tip_height : Z) (recent_headers : gmap Z BlockHeader) (active_slot_count : Z)
    (state : SegmentedFriState) : ChainView :=
  let '(user, previous) := view_anchors tip_height (λ h, recent_headers !! h) in
  mkChainView tip_height recent_headers (num_slots state) active_slot_count user previous
    (header_id_or zero_digest (recent_headers !! tip_height)) state None.

Definition from_mdbx (tip_height : Z) (recent_headers : gmap Z BlockHeader) (active_slot_count : Z)
    (metadata_state : SegmentedFriState) (tip_hash : list Z) (store : SegmentStore) (header_from_store : Z → option BlockHeader) :
    ChainView :=
  let '(user, previous) := view_anchors tip_height header_from_store in
  mkChainView tip_height recent_headers (num_slots metadata_state) active_slot_count user previous tip_hash metadata_state
    (Some store).

End view.

(** ** Reads *)

(** What a read returns without the cache. *)
Definition read_slot (v : ChainView) (idx : Z) : result (fault ChainViewReadError) SlotValue :=
  if cv_num_slots v <=? idx then Ok EMPTY
  else
    let segment_id := seg_id_of (cv_state v) idx in
    if negb (is_evicted (cv_state v) segment_id) then expect (slot (cv_state v) idx)
    else
      columns ← map_err Fail (fetch_segment v segment_id);
      expect (cols_get columns (Z.land idx (Z.shiftl 1 (Z.of_nat (effective_log_segment_size (cv_state v))) - 1))).

(** Every cached segment is one that a fetch returns. *)
Definition coherent (v : ChainView) (cache : SegmentReadCache) : Prop :=
  (length cache ≤ SEGMENT_READ_CACHE_CAPACITY)%nat ∧ NoDup (fst <$> cache)
  ∧ Forall (λ entry, fetch_segment v (fst entry) = Ok (snd entry)) cache.

Lemma cache_position_spec segment_id cache :
  match cache_position segment_id cache with
  | Some i => ∃ cols before after, cache = before ++ (segment_id, cols) :: after ∧ i = length before
  | None => segment_id ∉ (fst <$> cache)
  end.
Proof.
  induction cache as [|[id cols] cache IH]; cbn [cache_position]; [apply not_elem_of_nil|].
  destruct (Z.eqb_spec id segment_id) as [->|Hne]; [by exists cols, [], cache|].
  destruct (cache_position segment_id cache) as [i|]; cbn [fmap option_fmap option_map list_fmap].
  - destruct IH as (c & before & after & -> & ->). by exists c, ((id, cols) :: before), after.
  - intros [->|?]%elem_of_cons; done.
Qed.

Lemma cached_segment_exact v cache segment_id :
  coherent v cache →
  match cached_segment v cache segment_id with
  | Ok (columns, cache') => fetch_segment v segment_id = Ok columns ∧ coherent v cache'
  | Err e => fetch_segment v segment_id = Err e
  end.
Proof.
  intros (Hlen & Hnd & Hall). unfold cached_segment. pose proof (cache_position_spec segment_id cache) as Hpos.
  destruct (cache_position segment_id cache) as [i|].
  - destruct Hpos as (cols & before & after & -> & ->). cbn [mbind option_bind].
    rewrite list_lookup_middle by done. cbn [fmap option_fmap option_map snd].
    rewrite take_app_length, (drop_app_ge _ _ (S (length before))) by lia.
    replace (S (length before) - length before)%nat with 1%nat by lia. cbn [drop].
    assert (Hperm : before ++ (segment_id, cols) :: after ≡ₚ (segment_id, cols) :: before ++ after) by (symmetry; apply Permutation_middle).
    rewrite Hperm in Hlen, Hnd, Hall. split; [by apply Forall_cons in Hall as [? _]|]. by split_and!.
  - cbn [mbind option_bind]. destruct (fetch_segment v segment_id) as [columns|e] eqn:Hf; cbn [mbind result_bind]; [|done].
    split; [done|]. split_and!.
    + rewrite length_take. lia.
    + rewrite fmap_take. cbn [fmap list_fmap fst]. assert (Hn : NoDup (segment_id :: (fst <$> cache))) by by constructor.
      rewrite <- (take_drop SEGMENT_READ_CACHE_CAPACITY (_ :: _)) in Hn. by apply NoDup_app in Hn as [? _].
    + apply Forall_take. by constructor.
Qed.

Lemma try_slot_read v cache idx :
  coherent v cache → fst (try_slot v cache idx) = read_slot v idx ∧ coherent v (snd (try_slot v cache idx)).
Proof.
  intros Hc. unfold try_slot, read_slot. destruct (_ <=? idx); [done|]. change (wrap 16 (Z.shiftr idx _)) with (seg_id_of (cv_state v) idx).
  destruct (negb _); [done|]. pose proof (cached_segment_exact v cache (seg_id_of (cv_state v) idx) Hc) as Hs.
  destruct (cached_segment v cache _) as [[columns cache']|e]; [destruct Hs as [-> ?]|rewrite Hs]; done.
Qed.

(** ** A view of a full state *)

(** The state of the view holds the segments of [full] except those the store
    has, at the view's tip. *)
Record view_of (full : SegmentedFriState) (v : ChainView) : Prop := {
  vo_log : sg_effective_log_seg (cv_state v) = sg_effective_log_seg full;
  vo_log_le : (sg_effective_log_seg full ≤ 16)%nat;
  vo_slots : cv_num_slots v = num_slots full;
  vo_resident id : id ∉ sg_evicted (cv_state v) → vec_get (sg_segments (cv_state v)) id = vec_get (sg_segments full) id;
  vo_stored id : id ∈ sg_evicted (cv_state v) → ∃ store cols, cv_store v = Some store
    ∧ store (cv_tip_height v) (cv_tip_hash v) id = Some (Z.of_nat (sg_effective_log_seg full), cols)
    ∧ vec_get (sg_segments full) id = Some (Some cols)
    ∧ length (sc_values cols) = (2 ^ sg_effective_log_seg full)%nat
    ∧ length (sc_owners_hi cols) = (2 ^ sg_effective_log_seg full)%nat
    ∧ length (sc_owners_lo cols) = (2 ^ sg_effective_log_seg full)%nat;
}.

Lemma fetch_view full v id :
  view_of full v → id ∈ sg_evicted (cv_state v) → ∃ cols, fetch_segment v id = Ok cols ∧ vec_get (sg_segments full) id = Some (Some cols).
Proof.
  intros Hv Hid. destruct (vo_stored _ _ Hv id Hid) as (store & cols & Hs & Hg & Hf & H1 & H2 & H3). exists cols. split; [|done].
  unfold fetch_segment, effective_log_segment_size. rewrite Hs. cbn [ok_or mbind result_bind]. rewrite Hg. cbn [ok_or mbind result_bind].
  rewrite (vo_log _ _ Hv), Z.eqb_refl, H1, H2, H3, Nat.eqb_refl. done.
Qed.

Lemma read_slot_view full v idx :
  view_of full v → 0 ≤ idx < num_slots full → read_slot v idx = expect (slot full idx).
Proof.
  intros Hv Hi. unfold read_slot. rewrite (vo_slots _ _ Hv), (proj2 (Z.leb_gt _ _)) by lia.
  assert (Hseg : seg_id_of (cv_state v) idx = seg_id_of full idx) by (unfold seg_id_of; by rewrite (vo_log _ _ Hv)).
  rewrite Hseg. unfold is_evicted. case_bool_decide as Hev; cbn [negb].
  - destruct (fetch_view full v (seg_id_of full idx) Hv Hev) as (cols & -> & Hf). cbn [map_err mbind result_bind].
    unfold slot. rewrite Hf. cbn [mbind option_bind]. unfold local_idx_of, effective_log_segment_size. rewrite (vo_log _ _ Hv).
    do 2 f_equal. symmetry. apply wrap_small. pose proof (vo_log_le _ _ Hv).
    rewrite Z.shiftl_1_l, Z.sub_1_r, <- Z.ones_equiv, Z.land_ones by lia.
    pose proof (Z.mod_pos_bound idx (2 ^ Z.of_nat (sg_effective_log_seg full)) ltac:(lia)).
    assert (2 ^ Z.of_nat (sg_effective_log_seg full) ≤ 2 ^ 16) by (apply Z.pow_le_mono_r; lia). lia.
  - unfold slot. rewrite Hseg, (vo_resident _ _ Hv _ Hev). unfold local_idx_of. by rewrite (vo_log _ _ Hv).
Qed.

(** A view of a full state reads what the state holds, through any coherent cache
    of segments: a slot of a segment in memory, a slot of an evicted segment
    fetched from the store or found in the cache, and the empty slot beyond the
    end; and every read leaves a coherent cache of at most four segments. *)
Theorem view_reads_exact full v cache idx (Hview : view_of full v) (Hcache : coherent v cache) (Hidx : 0 ≤ idx) :
  fst (try_slot v cache idx) = (if num_slots full <=? idx then Ok EMPTY else expect (slot full idx))
  ∧ coherent v (snd (try_slot v cache idx)).
Proof.
  destruct (try_slot_read v cache idx Hcache) as [-> Hc]. split; [|done].
  destruct (Z.leb_spec (num_slots full) idx) as [Hle|Hlt]; [|by apply read_slot_view].
  unfold read_slot. by rewrite (vo_slots _ _ Hview), (proj2 (Z.leb_le _ _)).
Qed.
