(* ===== verification/Pool.v ===== *)
(** * Admission to the mempool

    [jetsam_mempool/src/floor.rs], [pool.rs] and [config.rs]: the dynamic fee
    floor, the cheap checks of admission against the chain view, submission, and
    the updates of the pool on a new block, a reorganisation or a new view.

    Every operation of [AsyncMempool] that holds the lock is one step on
    [MempoolState]; [submit] holds it twice, with the verification of the
    authorization in between, so it is two steps with the state free to change
    between them. The verifier of the proof system is the argument [verify]; the
    order in which the hash map of entries is iterated is the argument
    [pool_iter]. Events are returned in the order they are sent. The texts inside
    errors are not carried. *)

From S2P Require Import Prelude Machine Params Emission Poseidon TxTypes TxWire PagedSpend PagedWire Fees SlotState SparseRoot ChainState BlockHeader Conflict ClientObjects Consensus Difficulty TowerWalk Pow Header EpochAnchor Mempool ChainView.

(** ** The fee floor *)

Record FeeFloor := mkFeeFloor { ff_recent : list Z; ff_capacity : Z; ff_current : Z }.

Definition FeeFloor_new (window_size : Z) : FeeFloor := mkFeeFloor [] (Z.max window_size 1) MIN_FEE_BASE.

Definition FeeFloor_compute (recent : list Z) : Z :=
  match recent with
  | [] => MIN_FEE_BASE
  | _ => Z.max (saturating_mul 64 (median_u64 recent) 9 / 10) MIN_FEE_BASE
  end.

Definition FeeFloor_record (f : FeeFloor) (fee : Z) : FeeFloor :=
  let recent := if ff_capacity f <=? Z.of_nat (length (ff_recent f)) then tail (ff_recent f) else ff_recent f in
  let recent := recent ++ [fee] in
  mkFeeFloor recent (ff_capacity f) (FeeFloor_compute recent).

Definition FeeFloor_reset (f : FeeFloor) : FeeFloor := mkFeeFloor [] (ff_capacity f) MIN_FEE_BASE.

(** ** State, configuration and errors *)

Definition MAX_MEMPOOL_TXS : Z := 1024.
Definition MAX_MEMPOOL_BYTES : Z := 384 * 1024 * 1024.

Record MempoolConfig := mkMempoolConfig {
  mc_capacity : Z;
  mc_max_total_intent_bytes : Z;
  mc_fee_floor_window : Z;
  mc_auth_verify_workers : Z;
  mc_client_object_rules : ClientObjectRules;
}.

Definition MempoolConfig_default : MempoolConfig := mkMempoolConfig MAX_MEMPOOL_TXS MAX_MEMPOOL_BYTES 50 4 CONSENSUS.

Record MempoolState := mkMempoolState {
  ms_pool : Mempool;
  ms_view : ChainView;
  ms_floor : FeeFloor;
  ms_admitted_input_slots : gset Z;
  ms_admitted_output_slots : gset Z;
  ms_client_rules : ClientObjectRules;
}.

Inductive SubmitError :=
  | SU_AlreadyAdmitted (hash : list Z)
  | SU_Consensus (e : ConsensusError)
  | SU_Full (capacity : Z)
  | SU_BytesFull (actual max : Z)
  | SU_MalformedIntent
  | SU_IntentTooLarge (actual max : Z)
  | SU_MissingProof
  | SU_ProofTooLarge (actual max : Z)
  | SU_InvalidProof
  | SU_Internal.

Definition is_soft (e : SubmitError) : bool :=
  match e with
  | SU_AlreadyAdmitted _ | SU_Full _ | SU_BytesFull _ _ | SU_Consensus CE_SlotConflict => true
  | _ => false
  end.

Inductive EvictReason := EpochAnchorChanged | OutputSlotOccupied | InputConsumed | ClientObjectRule.

Inductive MempoolEvent :=
  | TxAdmitted (hash : list Z) (fee : Z) (intent_bytes : list Z)
  | TxAuthorizationVerified (hash : list Z)
  | TxConfirmed (hash : list Z) (block_height : Z)
  | TxEvicted (hash : list Z) (reason : EvictReason).

Definition EVENT_CHANNEL_CAPACITY : Z := MAX_MEMPOOL_TXS + BLOCK_MAX_USER_PAGES + 1.

Definition MempoolState_new (view : ChainView) (config : MempoolConfig) : MempoolState :=
  mkMempoolState (Mempool_new (mc_capacity config)) view (FeeFloor_new (mc_fee_floor_window config)) ∅ ∅
    (mc_client_object_rules config).

Definition with_pool (st : MempoolState) (pool : Mempool) : MempoolState :=
  mkMempoolState pool (ms_view st) (ms_floor st) (ms_admitted_input_slots st) (ms_admitted_output_slots st) (ms_client_rules st).

Definition with_view (st : MempoolState) (view : ChainView) : MempoolState :=
  mkMempoolState (ms_pool st) view (ms_floor st) (ms_admitted_input_slots st) (ms_admitted_output_slots st) (ms_client_rules st).

Definition with_floor (st : MempoolState) (floor : FeeFloor) : MempoolState :=
  mkMempoolState (ms_pool st) (ms_view st) floor (ms_admitted_input_slots st) (ms_admitted_output_slots st) (ms_client_rules st).

Definition with_slots (st : MempoolState) (inputs outputs : gset Z) : MempoolState :=
  mkMempoolState (ms_pool st) (ms_view st) (ms_floor st) inputs outputs (ms_client_rules st).

(** ** The client-object rule of plain transactions *)

(** [client_objects.rs]: what a block of [next_height] may not carry without its
    object. *)
Definition check_plain_transaction_with (pages : list TxPage) (next_height : Z) (rules : ClientObjectRules)
    (batch : ClientBatchRules) : result ClientObjectError unit :=
  if negb (active_at rules next_height) then Ok tt
  else
    match head (filter (λ owner, Is_true (is_client_locked_address_at owner next_height batch))
                  ((λ page, tb_input_owner (page_body page)) <$> pages)) with
    | Some owner => Err (CO_SpendFromLockedAddress owner)
    | None =>
        if existsb (λ out, bool_decide (is_Some (client_object_marker_kind_at (to_owner out) next_height batch)))
             (group_outputs pages)
        then Err CO_PaymentWithoutObject
        else Ok tt
    end.

Definition check_plain_transaction (pages : list TxPage) (next_height : Z) (rules : ClientObjectRules) :
    result ClientObjectError unit :=
  check_plain_transaction_with pages next_height rules BATCH_CONSENSUS.

(** ** Cheap checks *)

(** The slot reads of the checks; a read panics, fails, or returns the slot. *)
Definition read (view : ChainView) (idx : Z) : result (fault SubmitError) SlotValue :=
  map_fault (λ _, SU_Internal) (read_slot view idx).

Definition check_slot_conflicts_with_pool (pages : list TxPage) (pool_inputs pool_outputs : gset Z) : result SubmitError unit :=
  try_for_each (λ page,
    _ ← try_for_each (λ inp, if bool_decide (ti_slot_index inp ∈ pool_inputs) then Err (SU_Consensus CE_SlotConflict) else Ok tt)
          (page_inputs page);
    try_for_each (λ out, if bool_decide (to_slot_index out ∈ pool_outputs) then Err (SU_Consensus CE_SlotConflict) else Ok tt)
      (page_outputs page)) pages.

Definition expected_slot (spend : PagedSpendFacts) (inp : TxInput) : SlotValue :=
  with_owner_fields (ti_amount inp) (ti_creation_id inp) (as_fields (ps_input_owner spend)).

Definition check_input_slots (pages : list TxPage) (spend : PagedSpendFacts) (view : ChainView) :
    result (fault SubmitError) unit :=
  try_for_each (λ page, try_for_each (λ inp,
    if cv_num_slots view <=? ti_slot_index inp then Err (Fail (SU_Consensus CE_ShapeMismatch))
    else
      actual ← read view (ti_slot_index inp);
      if bool_decide (actual ≠ expected_slot spend inp) then Err (Fail (SU_Consensus CE_BadStateRoot)) else Ok tt)
    (page_inputs page)) pages.

Definition check_output_slots (pages : list TxPage) (view : ChainView) : result (fault SubmitError) unit :=
  try_for_each (λ page, try_for_each (λ out,
    if cv_num_slots view <=? to_slot_index out then Err (Fail (SU_Consensus CE_ShapeMismatch))
    else
      actual ← read view (to_slot_index out);
      if bool_decide (actual ≠ EMPTY) then Err (Fail (SU_Consensus CE_SlotConflict)) else Ok tt)
    (page_outputs page)) pages.

Section pool.
  Context {P : Poseidon2bPermutation}.

Definition run_admission_checks_with (pages : list TxPage) (spend : PagedSpendFacts) (st : MempoolState) (pool_rules : bool) :
    result (fault SubmitError) Z :=
  let view := ms_view st in
  let consensus_required := fb_required_total
    (fee_breakdown (ps_live_inputs spend) (ps_live_outputs spend) (cv_active_slot_count view) (view_log_slots view)) in
  let required := Z.max (ff_current (ms_floor st)) consensus_required in
  let actual := ps_fee spend in
  if actual <? required then Err (Fail (SU_Consensus (CE_BelowMinFee required actual)))
  else
    _ ← map_err (λ _, Fail SU_MalformedIntent) (validate_paged_spend pages);
    _ ← (if pool_rules
         then map_err (λ e, Fail (SU_Consensus (CE_ClientObject e)))
                (check_plain_transaction pages (saturating_add 64 (cv_tip_height view) 1) (ms_client_rules st))
         else match head (filter (λ owner, Is_true (is_client_locked_address owner))
                            ((λ page, tb_input_owner (page_body page)) <$> pages)) with
              | Some owner => Err (Fail (SU_Consensus (CE_ClientObject (CO_SpendFromLockedAddress owner))))
              | None => Ok tt
              end);
    if bool_decide (ps_epoch_anchor spend = zero_digest) then Err (Fail (SU_Consensus CE_BadEpochAnchor))
    else
      let anchor_height := tx_epoch_anchor_height_for_child (wrap 64 (cv_tip_height view + 1)) in
      let '(accepted_anchors, generation) := accepted_user_epoch_anchors view in
      if bool_decide (cv_user_epoch_anchor_id view = zero_digest)
         || negb (accepts accepted_anchors (ps_epoch_anchor spend) generation)
      then Err (Fail (SU_Consensus CE_BadEpochAnchor))
      else
        _ ← (if pool_rules
             then map_err Fail (check_slot_conflicts_with_pool pages (ms_admitted_input_slots st) (ms_admitted_output_slots st))
             else Ok tt);
        _ ← check_input_slots pages spend view;
        _ ← check_output_slots pages view;
        Ok anchor_height.

Definition run_admission_checks (pages : list TxPage) (spend : PagedSpendFacts) (st : MempoolState) :
    result (fault SubmitError) Z :=
  run_admission_checks_with pages spend st true.

Definition canonical_intent_bytes_match (intent : PagedSpendIntent) (bytes : list Z) : bool :=
  let auth_len := Z.of_nat (length (pi_authorization_bytes intent)) in
  if uint_max 32 <? auth_len then false
  else
    match paged_spend_authorization_wire_offset (Z.of_nat (length (pi_pages intent))) with
    | Err _ => false
    | Ok auth_offset =>
        match checked_add 64 auth_offset auth_len with
        | None => false
        | Some expected_len =>
            if negb (Z.of_nat (length bytes) =? expected_len) then false
            else
              match encode_pages (pi_pages intent) with
              | Err _ => false
              | Ok page_bytes =>
                  let prefix := [PAGED_SPEND_INTENT_MARKER]
                    ++ to_le_bytes 2 (wrap 16 (Z.of_nat (length (pi_pages intent)))) ++ page_bytes ++ to_le_bytes 4 auth_len in
                  (Z.of_nat (length prefix) =? auth_offset)
                  && bool_decide (take (length prefix) bytes = prefix)
                  && bool_decide (drop (Z.to_nat auth_offset) bytes = pi_authorization_bytes intent)
              end
        end
    end.

(** ** Submission *)

(** The checks that need no lock. *)
Definition submit_stateless (intent : PagedSpendIntent) (intent_bytes : list Z) : result (fault SubmitError) PagedSpendFacts :=
  let n := Z.of_nat (length intent_bytes) in
  if MAX_PAGED_SPEND_INTENT_BYTES <? n then Err (Fail (SU_IntentTooLarge n MAX_PAGED_SPEND_INTENT_BYTES))
  else if negb (canonical_intent_bytes_match intent intent_bytes) then Err (Fail SU_MalformedIntent)
  else
    spend ← map_err (λ _, Fail SU_MalformedIntent) (validate_paged_spend (pi_pages intent));
    let auth := Z.of_nat (length (pi_authorization_bytes intent)) in
    if auth =? 0 then Err (Fail SU_MissingProof)
    else if MAX_TX_AUTHORIZATION_BYTES <? auth then Err (Fail (SU_ProofTooLarge auth MAX_TX_AUTHORIZATION_BYTES))
    else Ok spend.

(** The checks under the lock, run before and after the verification. *)
Definition submit_locked_checks (config : MempoolConfig) (st : MempoolState) (intent : PagedSpendIntent)
    (intent_bytes : list Z) (spend : PagedSpendFacts) : result (fault SubmitError) unit :=
  let hash := ps_logical_txid spend in
  if Mempool_contains (ms_pool st) hash then Err (Fail (SU_AlreadyAdmitted hash))
  else
    let projected_bytes := saturating_add 64 (total_intent_bytes (ms_pool st)) (Z.of_nat (length intent_bytes)) in
    if mc_max_total_intent_bytes config <? projected_bytes
    then Err (Fail (SU_BytesFull projected_bytes (mc_max_total_intent_bytes config)))
    else
      _ ← run_admission_checks (pi_pages intent) spend st;
      Ok tt.

(** The admission itself, and what follows it under the same lock. *)
Definition submit_admit (config : MempoolConfig) (st : MempoolState) (intent : PagedSpendIntent) (intent_bytes : list Z)
    (spend : PagedSpendFacts) : result (fault SubmitError) (list Z * MempoolState * list MempoolEvent) :=
  let hash := ps_logical_txid spend in
  let fee := ps_fee spend in
  match Mempool_admit (ms_pool st) (pi_pages intent) (cv_tip_height (ms_view st)) with
  | Err Panic => Err Panic
  | Err (Fail ME_Full) => Err (Fail (SU_Full (mc_capacity config)))
  | Err (Fail ME_AlreadyAdmitted) => Err (Fail (SU_AlreadyAdmitted hash))
  | Err (Fail _) => Err (Fail SU_Internal)
  | Ok pool =>
      entry ← expect (Mempool_get pool hash);
      let inputs := foldl (λ s inp, {[ti_slot_index inp]} ∪ s) (ms_admitted_input_slots st) (group_inputs (me_pages entry)) in
      let outputs := foldl (λ s out, {[to_slot_index out]} ∪ s) (ms_admitted_output_slots st) (group_outputs (me_pages entry)) in
      let st := with_slots (with_pool st pool) inputs outputs in
      let st := with_pool st (set_intent_bytes (ms_pool st) hash intent_bytes) in
      let st := with_floor st (FeeFloor_record (ms_floor st) fee) in
      Ok (hash, st, [TxAdmitted hash fee intent_bytes; TxAuthorizationVerified hash])
  end.

(** The first lock: the filter before the verification. *)
Definition submit_prefilter (config : MempoolConfig) (st : MempoolState) (intent : PagedSpendIntent) (intent_bytes : list Z) :
    result (fault SubmitError) PagedSpendFacts :=
  spend ← submit_stateless intent intent_bytes;
  _ ← submit_locked_checks config st intent intent_bytes spend;
  Ok spend.

(** The verification and the second lock. *)
Definition submit_final (verify : list TxPage → list Z → bool) (config : MempoolConfig) (st : MempoolState)
    (intent : PagedSpendIntent) (intent_bytes : list Z) (spend : PagedSpendFacts) :
    result (fault SubmitError) (list Z * MempoolState * list MempoolEvent) :=
  if negb (verify (pi_pages intent) (pi_authorization_bytes intent)) then Err (Fail SU_InvalidProof)
  else
    _ ← submit_locked_checks config st intent intent_bytes spend;
    submit_admit config st intent intent_bytes spend.

(** [before] and [after] are the states at the two locks. *)
Definition submit (verify : list TxPage → list Z → bool) (config : MempoolConfig) (before after : MempoolState)
    (intent : PagedSpendIntent) (intent_bytes : list Z) :
    result (fault SubmitError) (list Z * MempoolState * list MempoolEvent) :=
  spend ← submit_prefilter config before intent intent_bytes;
  submit_final verify config after intent intent_bytes spend.

Definition check_client_payment (verify : list TxPage → list Z → bool) (st : MempoolState) (intent : PagedSpendIntent) :
    result (fault SubmitError) unit :=
  spend ← map_err (λ _, Fail SU_MalformedIntent) (validate_paged_spend (pi_pages intent));
  let auth := Z.of_nat (length (pi_authorization_bytes intent)) in
  if auth =? 0 then Err (Fail SU_MissingProof)
  else if MAX_TX_AUTHORIZATION_BYTES <? auth then Err (Fail (SU_ProofTooLarge auth MAX_TX_AUTHORIZATION_BYTES))
  else
    _ ← run_admission_checks_with (pi_pages intent) spend st false;
    if verify (pi_pages intent) (pi_authorization_bytes intent) then Ok tt else Err (Fail SU_InvalidProof).

End pool.

(** ** Updates *)

Section updates.
  Context (pool_iter : Mempool → list (list Z * MempoolEntry)).

(** Remove the entries for which [refused] holds, in the order of the iteration. *)
Definition evict_entries (st : MempoolState) (refused : MempoolEntry → bool) (reason : EvictReason) :
    MempoolState * list MempoolEvent :=
  let hashes := fst <$> filter (λ b, Is_true (refused (snd b))) (pool_iter (ms_pool st)) in
  (foldl (λ st hash, with_pool st (snd (Mempool_remove (ms_pool st) hash))) st hashes, (λ hash, TxEvicted hash reason) <$> hashes).

Definition evict_client_object_violations (st : MempoolState) (next_height : Z) : MempoolState * list MempoolEvent :=
  if negb (active_at (ms_client_rules st) next_height) then (st, [])
  else
    let rules := ms_client_rules st in
    evict_entries st (λ entry, match check_plain_transaction (me_pages entry) next_height rules with Ok _ => false | Err _ => true end)
      ClientObjectRule.

Definition rebuild_slot_sets (st : MempoolState) : MempoolState :=
  let entries := snd <$> pool_iter (ms_pool st) in
  with_slots st (list_to_set (entries ≫= λ e, ti_slot_index <$> group_inputs (me_pages e)))
    (list_to_set (entries ≫= λ e, to_slot_index <$> group_outputs (me_pages e))).

Definition reset_floor_if_empty (st : MempoolState) : MempoolState :=
  if Mempool_is_empty (ms_pool st) then with_floor st (FeeFloor_reset (ms_floor st)) else st.

(** A read that fails counts as occupied or stale. *)
Definition output_occupied (view : ChainView) (entry : MempoolEntry) : bool :=
  existsb (λ out, match read_slot view (to_slot_index out) with Ok slot => bool_decide (slot ≠ EMPTY) | Err _ => true end)
    (group_outputs (me_pages entry)).

Definition input_stale (view : ChainView) (entry : MempoolEntry) : bool :=
  existsb (λ inp, match read_slot view (ti_slot_index inp) with
                  | Ok slot => bool_decide (slot ≠ expected_slot (me_spend entry) inp)
                  | Err _ => true
                  end) (group_inputs (me_pages entry)).

Definition on_new_block (st : MempoolState) (confirmed_hashes : list (list Z)) (new_height : Z) (new_view : ChainView) :
    MempoolState * list MempoolEvent :=
  let st := with_pool st (snd (on_block_confirmed (ms_pool st) confirmed_hashes)) in
  let confirmed := (λ hash, TxConfirmed hash new_height) <$> confirmed_hashes in
  let st := with_view st new_view in
  let '(accepted_anchors, generation) := accepted_user_epoch_anchors (ms_view st) in
  let '(st, stale_anchor) :=
    evict_entries st (λ entry, negb (accepts accepted_anchors (ps_epoch_anchor (me_spend entry)) generation)) EpochAnchorChanged in
  let '(st, output_conflicts) := evict_entries st (output_occupied (ms_view st)) OutputSlotOccupied in
  let '(st, input_consumed) := evict_entries st (input_stale (ms_view st)) InputConsumed in
  let next_height := saturating_add 64 (cv_tip_height (ms_view st)) 1 in
  let '(st, refused) := evict_client_object_violations st next_height in
  let st := rebuild_slot_sets st in
  (reset_floor_if_empty st, confirmed ++ stale_anchor ++ output_conflicts ++ input_consumed ++ refused).

Definition readmit_after_reorg (st : MempoolState) (tx_hashes : list (list Z)) : MempoolState :=
  match tx_hashes with
  | [] => st
  | _ =>
      reset_floor_if_empty (foldl (λ st hash,
        if Mempool_contains (ms_pool st) hash then with_pool st (snd (Mempool_remove (ms_pool st) hash)) else st) st tx_hashes)
  end.

Definition evict_unminable_at (st : MempoolState) (next_height : Z) : MempoolState * list MempoolEvent :=
  let '(st, events) := evict_client_object_violations st next_height in
  if (0 <? length events)%nat then (reset_floor_if_empty (rebuild_slot_sets st), events) else (st, events).

Definition update_chain_view (st : MempoolState) (view : ChainView) : MempoolState * list MempoolEvent :=
  let st := with_view st view in
  evict_unminable_at st (saturating_add 64 (cv_tip_height (ms_view st)) 1).

End updates.

(** ** Snapshots *)

Definition reserved_slots (st : MempoolState) : gset Z * gset Z := (ms_admitted_input_slots st, ms_admitted_output_slots st).

Definition fee_context (st : MempoolState) : Z * Z := (cv_active_slot_count (ms_view st), view_log_slots (ms_view st)).
