(* ===== verification/PoolProps.v ===== *)
(** * Properties of admission and updates

    What the pool keeps across any interleaving of submissions, blocks,
    reorganisations and view changes; which entries survive a new block; what an
    accepted submission guarantees; and what a reorganisation leaves behind. *)

From S2P Require Import Prelude Machine Params Emission Poseidon TxTypes TxWire PagedSpend PagedWire Fees SlotState SparseRoot ChainState BlockHeader Conflict ClientObjects Consensus Difficulty TowerWalk Pow Header EpochAnchor Mempool MempoolProps ChainView Pool.

(** ** Removals *)

Lemma foldl_delete_lookup {A} (m : gmap (list Z) A) hashes h :
  foldl (λ m h, delete h m) m hashes !! h = if decide (h ∈ hashes) then None else m !! h.
Proof.
  revert m. induction hashes as [|x hashes IH]; intros m; cbn [foldl]; [by rewrite decide_False by apply not_elem_of_nil|].
  rewrite IH. destruct (decide (h ∈ hashes)); [by rewrite decide_True by (by right)|].
  destruct (decide (h = x)) as [->|Hne]; [by rewrite lookup_delete_eq, decide_True by left|].
  rewrite lookup_delete_ne, decide_False; [done| |done]. by intros [?|?]%elem_of_cons.
Qed.

Lemma foldl_delete_size {A} (m : gmap (list Z) A) hashes :
  NoDup hashes → (∀ h, h ∈ hashes → is_Some (m !! h)) → (size (foldl (λ m h, delete h m) m hashes) + length hashes = size m)%nat.
Proof.
  intros Hnd. revert m. induction Hnd as [|x hashes Hx Hnd IH]; intros m Hin; cbn [foldl length]; [lia|].
  destruct (Hin x) as [v Hv]; [left|]. assert (Hs : size (delete x m) = pred (size m)) by (rewrite map_size_delete, Hv; done).
  assert (0 < size m)%nat by (apply Nat.neq_0_lt_0; intros Hz%map_size_empty_inv; rewrite Hz in Hv; done).
  assert (Hin' : ∀ h, h ∈ hashes → is_Some (delete x m !! h)).
  { intros h Hh. rewrite lookup_delete_ne by (intros ->; done). apply Hin. by right. }
  specialize (IH (delete x m) Hin'). lia.
Qed.

Lemma NoDup_fmap_filter {A B} (f : A → B) (Q : A → Prop) `{∀ x, Decision (Q x)} l : NoDup (f <$> l) → NoDup (f <$> filter Q l).
Proof.
  induction l as [|x l IH]; [done|]. cbn [fmap list_fmap]. intros [Hx Hl]%NoDup_cons. rewrite filter_cons. case_decide; [|by apply IH].
  cbn [fmap list_fmap]. apply NoDup_cons. split; [|by apply IH]. intros (y & Hy & [_ Hin]%list_elem_of_filter)%list_elem_of_fmap.
  apply Hx. rewrite Hy. by apply list_elem_of_fmap_2.
Qed.

Section evictions.
  Context {P : Poseidon2bPermutation}.
  Context (pool_iter : Mempool → list (list Z * MempoolEntry)) (Hiter : ∀ p, pool_iter p ≡ₚ map_to_list (mp_entries p)).

Lemma removals_state st hashes :
  foldl (λ st hash, with_pool st (snd (Mempool_remove (ms_pool st) hash))) st hashes
  = with_pool st (foldl (λ p hash, snd (Mempool_remove p hash)) (ms_pool st) hashes).
Proof. revert st. induction hashes as [|h hashes IH]; intros st; [by destruct st|]. cbn [foldl]. by rewrite IH. Qed.

Definition refused_hashes (st : MempoolState) (refused : MempoolEntry → bool) : list (list Z) :=
  fst <$> filter (λ b, Is_true (refused (snd b))) (pool_iter (ms_pool st)).

Lemma elem_of_refused st refused h :
  h ∈ refused_hashes st refused ↔ ∃ e, mp_entries (ms_pool st) !! h = Some e ∧ refused e = true.
Proof.
  unfold refused_hashes. rewrite list_elem_of_fmap. split.
  - intros ([h' e] & -> & [Hr Hin]%list_elem_of_filter). rewrite Hiter in Hin. apply elem_of_map_to_list in Hin. cbn [fst snd] in *.
    exists e. split; [done|]. by apply Is_true_eq_true.
  - intros (e & He & Hr). exists (h, e). split; [done|]. apply list_elem_of_filter. split; [cbn; by rewrite Hr|].
    rewrite Hiter. by apply elem_of_map_to_list.
Qed.

Lemma refused_NoDup st refused : NoDup (refused_hashes st refused).
Proof.
  unfold refused_hashes. apply NoDup_fmap_filter. rewrite Hiter. apply NoDup_fst_map_to_list.
Qed.

Lemma evict_entries_entries st refused reason h e :
  mp_entries (ms_pool (fst (evict_entries pool_iter st refused reason))) !! h = Some e ↔
  mp_entries (ms_pool st) !! h = Some e ∧ refused e = false.
Proof.
  unfold evict_entries. cbn [fst]. fold (refused_hashes st refused). rewrite removals_state. cbn [ms_pool with_pool].
  rewrite removals_entries, foldl_delete_lookup. case_decide as Hin.
  - apply elem_of_refused in Hin as (e' & He' & Hr). split; [done|]. intros [He Hf]. congruence.
  - split; [|by intros [? _]]. intros He. split; [done|]. destruct (refused e) eqn:Hr; [|done].
    exfalso. apply Hin, elem_of_refused. eauto.
Qed.

Lemma evict_entries_size st refused reason :
  (size (mp_entries (ms_pool (fst (evict_entries pool_iter st refused reason))))
   + length (snd (evict_entries pool_iter st refused reason)) = size (mp_entries (ms_pool st)))%nat.
Proof.
  unfold evict_entries. cbn [fst snd]. fold (refused_hashes st refused). rewrite removals_state, length_fmap. cbn [ms_pool with_pool].
  rewrite removals_entries. apply foldl_delete_size; [apply refused_NoDup|]. intros h (e & He & _)%elem_of_refused. by eexists.
Qed.

(** What an eviction leaves alone. *)
Lemma evict_entries_frame st refused reason :
  let st' := fst (evict_entries pool_iter st refused reason) in
  ms_view st' = ms_view st ∧ ms_floor st' = ms_floor st ∧ ms_client_rules st' = ms_client_rules st
  ∧ ms_admitted_input_slots st' = ms_admitted_input_slots st ∧ ms_admitted_output_slots st' = ms_admitted_output_slots st.
Proof. cbv zeta. unfold evict_entries. cbn [fst]. by rewrite removals_state. Qed.

Lemma evict_entries_pool st refused reason :
  ms_pool (fst (evict_entries pool_iter st refused reason))
  = foldl (λ p hash, snd (Mempool_remove p hash)) (ms_pool st) (refused_hashes st refused).
Proof. unfold evict_entries. cbn [fst]. by rewrite removals_state. Qed.


(** ** A new block *)

(** An entry the child of the view may carry as it stands. *)
Record minable (view : ChainView) (rules : ClientObjectRules) (e : MempoolEntry) : Prop := {
  mn_anchor : accepts (fst (accepted_user_epoch_anchors view)) (ps_epoch_anchor (me_spend e))
    (snd (accepted_user_epoch_anchors view)) = true;
  mn_inputs inp : inp ∈ group_inputs (me_pages e) → read_slot view (ti_slot_index inp) = Ok (expected_slot (me_spend e) inp);
  mn_outputs out : out ∈ group_outputs (me_pages e) → read_slot view (to_slot_index out) = Ok EMPTY;
  mn_plain : check_plain_transaction (me_pages e) (saturating_add 64 (cv_tip_height view) 1) rules = Ok tt;
}.

Lemma existsb_false {A} (f : A → bool) l : existsb f l = false ↔ ∀ x, x ∈ l → f x = false.
Proof.
  induction l as [|x l IH]; cbn [existsb]; [split; [by intros _ x ?%not_elem_of_nil|done]|].
  rewrite orb_false_iff, IH. setoid_rewrite elem_of_cons. naive_solver.
Qed.

Lemma output_occupied_false view e :
  output_occupied view e = false ↔ ∀ out, out ∈ group_outputs (me_pages e) → read_slot view (to_slot_index out) = Ok EMPTY.
Proof.
  unfold output_occupied. rewrite existsb_false. split; intros H out Hout; specialize (H out Hout).
  - destruct (read_slot view (to_slot_index out)) as [sl|]; [|done]. by apply bool_decide_eq_false, dec_stable in H as ->.
  - rewrite H. apply bool_decide_eq_false. intros Hn. by apply Hn.
Qed.

Lemma input_stale_false view e :
  input_stale view e = false ↔
  ∀ inp, inp ∈ group_inputs (me_pages e) → read_slot view (ti_slot_index inp) = Ok (expected_slot (me_spend e) inp).
Proof.
  unfold input_stale. rewrite existsb_false. split; intros H inp Hinp; specialize (H inp Hinp).
  - destruct (read_slot view (ti_slot_index inp)) as [sl|]; [|done]. by apply bool_decide_eq_false, dec_stable in H as ->.
  - rewrite H. apply bool_decide_eq_false. intros Hn. by apply Hn.
Qed.

Definition plain_ok (rules : ClientObjectRules) (height : Z) (e : MempoolEntry) : Prop :=
  check_plain_transaction (me_pages e) height rules = Ok tt.

Lemma evict_client_entries st height h e :
  mp_entries (ms_pool (fst (evict_client_object_violations pool_iter st height))) !! h = Some e ↔
  mp_entries (ms_pool st) !! h = Some e ∧ plain_ok (ms_client_rules st) height e.
Proof.
  unfold evict_client_object_violations, plain_ok. destruct (active_at (ms_client_rules st) height) eqn:Ha; cbn [negb].
  - rewrite evict_entries_entries. destruct (check_plain_transaction _ _ _) as [[]|]; naive_solver.
  - cbn [fst]. unfold check_plain_transaction, check_plain_transaction_with. rewrite Ha. cbn [negb]. naive_solver.
Qed.

Lemma evict_client_size st height :
  (size (mp_entries (ms_pool (fst (evict_client_object_violations pool_iter st height))))
   + length (snd (evict_client_object_violations pool_iter st height)) = size (mp_entries (ms_pool st)))%nat.
Proof.
  unfold evict_client_object_violations. destruct (negb _); [cbn; lia|]. apply evict_entries_size.
Qed.

Lemma evict_client_frame st height :
  let st' := fst (evict_client_object_violations pool_iter st height) in
  ms_view st' = ms_view st ∧ ms_floor st' = ms_floor st ∧ ms_client_rules st' = ms_client_rules st
  ∧ ms_admitted_input_slots st' = ms_admitted_input_slots st ∧ ms_admitted_output_slots st' = ms_admitted_output_slots st.
Proof. cbv zeta. unfold evict_client_object_violations. destruct (negb _); [done|]. apply evict_entries_frame. Qed.

Lemma evict_client_pool st height :
  ∃ hashes, ms_pool (fst (evict_client_object_violations pool_iter st height))
    = foldl (λ p hash, snd (Mempool_remove p hash)) (ms_pool st) hashes.
Proof.
  unfold evict_client_object_violations. destruct (negb _); [by exists []|]. eexists. apply evict_entries_pool.
Qed.

Lemma confirmed_entries p confirmed h :
  mp_entries (snd (on_block_confirmed p confirmed)) !! h = if decide (h ∈ confirmed) then None else mp_entries p !! h.
Proof. by rewrite on_block_confirmed_pool, removals_entries, foldl_delete_lookup. Qed.

Lemma reset_floor_frame st :
  ms_pool (reset_floor_if_empty st) = ms_pool st ∧ ms_view (reset_floor_if_empty st) = ms_view st
  ∧ reserved_slots (reset_floor_if_empty st) = reserved_slots st ∧ ms_client_rules (reset_floor_if_empty st) = ms_client_rules st.
Proof. unfold reset_floor_if_empty. by destruct (Mempool_is_empty _). Qed.

(** The reserved slots are those of the entries. *)
Definition slots_exact (st : MempoolState) : Prop :=
  (∀ s, s ∈ fst (reserved_slots st) ↔ ∃ h e, mp_entries (ms_pool st) !! h = Some e ∧ s ∈ entry_inputs e)
  ∧ (∀ s, s ∈ snd (reserved_slots st) ↔ ∃ h e, mp_entries (ms_pool st) !! h = Some e ∧ s ∈ entry_outputs e).

Lemma rebuilt_slots st : slots_exact (rebuild_slot_sets pool_iter st).
Proof.
  assert (Hin : ∀ e, e ∈ (snd <$> pool_iter (ms_pool st)) ↔ ∃ h, mp_entries (ms_pool st) !! h = Some e).
  { intros e. rewrite list_elem_of_fmap. split.
    - intros ([h e'] & -> & Hb). rewrite Hiter in Hb. apply elem_of_map_to_list in Hb. eauto.
    - intros [h He]. exists (h, e). split; [done|]. rewrite Hiter. by apply elem_of_map_to_list. }
  unfold rebuild_slot_sets. split; intros s; cbn [reserved_slots fst snd with_slots ms_pool ms_admitted_input_slots ms_admitted_output_slots];
    rewrite elem_of_list_to_set, list_elem_of_bind; setoid_rewrite Hin; naive_solver.
Qed.

Lemma on_new_block_result st confirmed height view :
  let st' := fst (on_new_block pool_iter st confirmed height view) in
  let events := snd (on_new_block pool_iter st confirmed height view) in
  (∀ h e, mp_entries (ms_pool st') !! h = Some e ↔
     mp_entries (ms_pool st) !! h = Some e ∧ h ∉ confirmed ∧ minable view (ms_client_rules st) e)
  ∧ slots_exact st' ∧ ms_view st' = view
  ∧ (length events + size (mp_entries (ms_pool st')) = length confirmed + size (mp_entries (snd (on_block_confirmed (ms_pool st) confirmed))))%nat
  ∧ ∃ hashes, ms_pool st' = foldl (λ p h, snd (Mempool_remove p h)) (ms_pool st) hashes.
Proof.
  cbv zeta. unfold on_new_block. set (st1 := with_view _ view).
  destruct (accepted_user_epoch_anchors (ms_view st1)) as [accepted gen] eqn:Hacc.
  set (stale := λ entry, negb (accepts accepted (ps_epoch_anchor (me_spend entry)) gen)).
  pose proof (evict_entries_entries st1 stale EpochAnchorChanged) as E1. pose proof (evict_entries_size st1 stale EpochAnchorChanged) as S1.
  pose proof (evict_entries_frame st1 stale EpochAnchorChanged) as F1. pose proof (evict_entries_pool st1 stale EpochAnchorChanged) as P1.
  destruct (evict_entries pool_iter st1 stale EpochAnchorChanged) as [st2 ev1]. cbn [fst snd] in *.
  pose proof (evict_entries_entries st2 (output_occupied (ms_view st2)) OutputSlotOccupied) as E2.
  pose proof (evict_entries_size st2 (output_occupied (ms_view st2)) OutputSlotOccupied) as S2.
  pose proof (evict_entries_frame st2 (output_occupied (ms_view st2)) OutputSlotOccupied) as F2.
  pose proof (evict_entries_pool st2 (output_occupied (ms_view st2)) OutputSlotOccupied) as P2.
  destruct (evict_entries pool_iter st2 _ OutputSlotOccupied) as [st3 ev2]. cbn [fst snd] in *.
  pose proof (evict_entries_entries st3 (input_stale (ms_view st3)) InputConsumed) as E3.
  pose proof (evict_entries_size st3 (input_stale (ms_view st3)) InputConsumed) as S3.
  pose proof (evict_entries_frame st3 (input_stale (ms_view st3)) InputConsumed) as F3.
  pose proof (evict_entries_pool st3 (input_stale (ms_view st3)) InputConsumed) as P3.
  destruct (evict_entries pool_iter st3 _ InputConsumed) as [st4 ev3]. cbn [fst snd] in *.
  set (next := saturating_add 64 (cv_tip_height (ms_view st4)) 1).
  pose proof (evict_client_entries st4 next) as E4. pose proof (evict_client_size st4 next) as S4.
  pose proof (evict_client_frame st4 next) as F4. pose proof (evict_client_pool st4 next) as P4.
  destruct (evict_client_object_violations pool_iter st4 next) as [st5 ev4]. cbn [fst snd] in *.
  destruct (reset_floor_frame (rebuild_slot_sets pool_iter st5)) as (R1 & R2 & R3 & _).
  destruct F1 as (V1 & _ & C1 & _). destruct F2 as (V2 & _ & C2 & _). destruct F3 as (V3 & _ & C3 & _). destruct F4 as (V4 & _ & C4 & _).
  change (ms_view st1) with view in *. change (ms_client_rules st1) with (ms_client_rules st) in *. rewrite V1 in *. rewrite V2 in *. rewrite V3 in *.
  split_and!.
  - intros h e. rewrite R1. change (ms_pool (rebuild_slot_sets pool_iter st5)) with (ms_pool st5).
    rewrite E4, E3, E2, E1, C3, C2, C1, input_stale_false, output_occupied_false. unfold stale. rewrite negb_false_iff.
    change (ms_pool st1) with (snd (on_block_confirmed (ms_pool st) confirmed)). rewrite confirmed_entries.
    unfold plain_ok, next. rewrite V3. assert (Hm : minable view (ms_client_rules st) e ↔ accepts accepted (ps_epoch_anchor (me_spend e)) gen = true
      ∧ (∀ inp, inp ∈ group_inputs (me_pages e) → read_slot view (ti_slot_index inp) = Ok (expected_slot (me_spend e) inp))
      ∧ (∀ out, out ∈ group_outputs (me_pages e) → read_slot view (to_slot_index out) = Ok EMPTY)
      ∧ check_plain_transaction (me_pages e) (saturating_add 64 (cv_tip_height view) 1) (ms_client_rules st) = Ok tt).
    { split; [intros [H1 H2 H3 H4]|intros (H1 & H2 & H3 & H4); split]; rewrite ?Hacc in *; done. }
    rewrite Hm. clear. case_decide as Hd; [|tauto]. split; [|tauto]. by intros [[[[? _] _] _] _].
  - unfold slots_exact. rewrite R3, R1. apply rebuilt_slots.
  - rewrite R2. change (ms_view (rebuild_slot_sets pool_iter st5)) with (ms_view st5). congruence.
  - rewrite R1. change (ms_pool (rebuild_slot_sets pool_iter st5)) with (ms_pool st5). rewrite !length_app, length_fmap.
    change (ms_pool st1) with (snd (on_block_confirmed (ms_pool st) confirmed)) in S1. lia.
  - rewrite R1. change (ms_pool (rebuild_slot_sets pool_iter st5)) with (ms_pool st5). destruct P4 as [hs4 ->].
    rewrite P3, P2, P1. change (ms_pool st1) with (snd (on_block_confirmed (ms_pool st) confirmed)). rewrite on_block_confirmed_pool.
    rewrite <- !foldl_app. by eexists.
Qed.

End evictions.

(** ** Admission checks *)

Lemma fault_read view idx slot : read view idx = Ok slot ↔ read_slot view idx = Ok slot.
Proof. unfold read. apply map_err_Ok. Qed.

Lemma pages_for_each' {E A} (f : A → result E unit) (g : TxPage → list A) pages :
  try_for_each (λ page, try_for_each f (g page)) pages = Ok tt ↔ ∀ x, x ∈ pages ≫= g → f x = Ok tt.
Proof.
  rewrite try_for_each_Ok, Forall_forall. setoid_rewrite try_for_each_Ok. setoid_rewrite Forall_forall.
  setoid_rewrite list_elem_of_bind. naive_solver.
Qed.

Lemma check_input_slots_Ok pages spend view :
  check_input_slots pages spend view = Ok tt ↔
  ∀ inp, inp ∈ group_inputs pages → ti_slot_index inp < cv_num_slots view ∧ read_slot view (ti_slot_index inp) = Ok (expected_slot spend inp).
Proof.
  unfold check_input_slots. rewrite pages_for_each'. change (pages ≫= page_inputs) with (group_inputs pages).
  split; intros H inp Hinp; specialize (H inp Hinp).
  - apply if_err_Ok in H as [Hr%Z.leb_gt H]. apply bind_Ok in H as (sl & Hs%fault_read & H). apply if_err_Ok in H as [He _].
    by apply bool_decide_eq_false, dec_stable in He as ->.
  - destruct H as [Hr Hs]. rewrite (proj2 (Z.leb_gt _ _)) by done. apply fault_read in Hs as ->. cbn [mbind result_bind].
    rewrite bool_decide_false; [done|]. intros Hn. by apply Hn.
Qed.

Lemma check_output_slots_Ok pages view :
  check_output_slots pages view = Ok tt ↔
  ∀ out, out ∈ group_outputs pages → to_slot_index out < cv_num_slots view ∧ read_slot view (to_slot_index out) = Ok EMPTY.
Proof.
  unfold check_output_slots. rewrite pages_for_each'. change (pages ≫= page_outputs) with (group_outputs pages).
  split; intros H out Hout; specialize (H out Hout).
  - apply if_err_Ok in H as [Hr%Z.leb_gt H]. apply bind_Ok in H as (sl & Hs%fault_read & H). apply if_err_Ok in H as [He _].
    by apply bool_decide_eq_false, dec_stable in He as ->.
  - destruct H as [Hr Hs]. rewrite (proj2 (Z.leb_gt _ _)) by done. apply fault_read in Hs as ->. cbn [mbind result_bind].
    rewrite bool_decide_false; [done|]. intros Hn. by apply Hn.
Qed.

Lemma check_slot_conflicts_Ok pages inputs outputs :
  check_slot_conflicts_with_pool pages inputs outputs = Ok tt ↔
  (∀ inp, inp ∈ group_inputs pages → ti_slot_index inp ∉ inputs) ∧ (∀ out, out ∈ group_outputs pages → to_slot_index out ∉ outputs).
Proof.
  unfold check_slot_conflicts_with_pool, group_inputs, group_outputs. rewrite try_for_each_Ok, Forall_forall.
  setoid_rewrite bind_unit_Ok. setoid_rewrite try_for_each_Ok. setoid_rewrite Forall_forall. setoid_rewrite list_elem_of_bind.
  assert (Hif : ∀ s (X : gset Z), (if bool_decide (s ∈ X) then Err (SU_Consensus CE_SlotConflict) else Ok tt) = Ok tt ↔ s ∉ X).
  { intros s X. case_bool_decide; naive_solver. }
  setoid_rewrite Hif. unfold page_inputs, page_outputs. naive_solver.
Qed.

Lemma conflicts_only_error pages inputs outputs :
  check_slot_conflicts_with_pool pages inputs outputs ≠ Ok tt →
  check_slot_conflicts_with_pool pages inputs outputs = Err (SU_Consensus CE_SlotConflict).
Proof.
  unfold check_slot_conflicts_with_pool. induction pages as [|page pages IH]; [done|]. cbn [try_for_each].
  assert (Hone : ∀ {A} (f : A → Z) (X : gset Z) l,
    try_for_each (λ x, if bool_decide (f x ∈ X) then Err (SU_Consensus CE_SlotConflict) else Ok tt) l = Ok tt
    ∨ try_for_each (λ x, if bool_decide (f x ∈ X) then Err (SU_Consensus CE_SlotConflict) else Ok tt) l = Err (SU_Consensus CE_SlotConflict)).
  { intros A f X l. induction l as [|x l IHl]; [by left|]. cbn [try_for_each]. case_bool_decide; [by right|exact IHl]. }
  destruct (Hone _ ti_slot_index inputs (page_inputs page)) as [-> | ->]; [|done].
  destruct (Hone _ to_slot_index outputs (page_outputs page)) as [-> | ->]; [exact IH|done].
Qed.

Section admission.
  Context {P : Poseidon2bPermutation}.

(** The fee that admission requires. *)
Definition required_fee (st : MempoolState) (spend : PagedSpendFacts) : Z :=
  Z.max (ff_current (ms_floor st)) (fb_required_total
    (fee_breakdown (ps_live_inputs spend) (ps_live_outputs spend) (cv_active_slot_count (ms_view st)) (view_log_slots (ms_view st)))).

Lemma run_admission_checks_inv pages spend st h e :
  run_admission_checks pages spend st = Ok h → me_pages e = pages → me_spend e = spend →
  required_fee st spend ≤ ps_fee spend ∧ minable (ms_view st) (ms_client_rules st) e
  ∧ (∀ inp, inp ∈ group_inputs pages → ti_slot_index inp ∉ ms_admitted_input_slots st)
  ∧ (∀ out, out ∈ group_outputs pages → to_slot_index out ∉ ms_admitted_output_slots st).
Proof.
  intros H Hp Hs. unfold run_admission_checks, run_admission_checks_with in H. cbv zeta in H. apply if_err_Ok in H as [Hfee%Z.ltb_ge H].
  apply bind_Ok in H as (facts & _ & H). apply bind_Ok in H as ([] & Hpl%map_err_Ok & H). apply if_err_Ok in H as [_ H].
  destruct (accepted_user_epoch_anchors (ms_view st)) as [accepted gen] eqn:Ha. apply if_err_Ok in H as [Hor H].
  apply orb_false_iff in Hor as [_ Hacc%negb_false_iff].
  apply bind_Ok in H as ([] & Hc%map_err_Ok & H). apply check_slot_conflicts_Ok in Hc as [Hc1 Hc2].
  apply bind_Ok in H as ([] & Hi & H). apply bind_Ok in H as ([] & Ho & _).
  rewrite check_input_slots_Ok in Hi. rewrite check_output_slots_Ok in Ho. split_and!; [done| |done|done].
  split; rewrite ?Hp, ?Hs, ?Ha; [done|by intros inp ?; apply Hi|by intros out ?; apply Ho|done].
Qed.

Lemma canonical_match_inv intent bytes :
  canonical_intent_bytes_match intent bytes = true →
  ∃ off, paged_spend_authorization_wire_offset (Z.of_nat (length (pi_pages intent))) = Ok off ∧ 0 ≤ off
    ∧ Z.of_nat (length bytes) = off + Z.of_nat (length (pi_authorization_bytes intent)) ∧ Z.of_nat (length bytes) < 2 ^ 64
    ∧ Z.of_nat (length (pi_authorization_bytes intent)) ≤ uint_max 32
    ∧ drop (Z.to_nat off) bytes = pi_authorization_bytes intent.
Proof.
  unfold canonical_intent_bytes_match. cbv zeta. destruct (Z.ltb_spec (uint_max 32) (Z.of_nat (length (pi_authorization_bytes intent)))) as [|Hlen]; [done|].
  destruct (paged_spend_authorization_wire_offset _) as [off|]; [|done].
  destruct (checked_add 64 off _) as [total|] eqn:Ht; [|done]. apply checked_add_Some in Ht as [-> Hb].
  destruct (Z.eqb_spec (Z.of_nat (length bytes)) (off + Z.of_nat (length (pi_authorization_bytes intent)))) as [Hl|]; [|done]. cbn [negb].
  destruct (encode_pages (pi_pages intent)) as [pb|]; [|done]. intros [[Hp%Z.eqb_eq _]%andb_true_iff Hd%bool_decide_eq_true]%andb_true_iff.
  exists off. split_and!; [done|lia|done|lia|done|done].
Qed.

(** The retained suffix is the authorization of the intent. *)
Lemma cached_authorization_retained intent bytes e :
  canonical_intent_bytes_match intent bytes = true → pi_authorization_bytes intent ≠ [] → me_pages e = pi_pages intent →
  cached_authorization (with_intent_bytes bytes e) = Some (pi_authorization_bytes intent).
Proof.
  intros (off & Hoff & H0 & Hlen & H64 & Hmax & Hdrop)%canonical_match_inv Hne Hp. unfold cached_authorization, with_intent_bytes.
  cbn [me_cached_authorization_len me_pages me_intent_bytes]. rewrite Hp, Hoff. cbn [result_ok mbind option_bind].
  rewrite (proj2 (checked_sub_Some _ _ (Z.of_nat (length (pi_authorization_bytes intent))))) by lia. cbn [mbind option_bind].
  rewrite (proj2 (Z.leb_le _ _) Hmax). cbn [default from_option id].
  assert (0 < length (pi_authorization_bytes intent))%nat by (destruct (pi_authorization_bytes intent); [done|cbn; lia]).
  rewrite (proj2 (Z.eqb_neq _ _)) by lia.
  rewrite (proj2 (checked_add_Some 64 _ _ (off + Z.of_nat (length (pi_authorization_bytes intent))))) by (split; [done|lia]).
  cbn [mbind option_bind]. rewrite (proj2 (Z.leb_le _ _)) by lia. f_equal. rewrite Hdrop. apply take_ge. lia.
Qed.

End admission.

(** ** The invariant of the state *)

Section state.
  Context {P : Poseidon2bPermutation}.
  Context (pool_iter : Mempool → list (list Z * MempoolEntry)) (Hiter : ∀ p, pool_iter p ≡ₚ map_to_list (mp_entries p)).
  Context (config : MempoolConfig) (Hconfig : 0 ≤ mc_max_total_intent_bytes config < uint_max 64).

(** The pool is consistent and within its limits, every slot of an entry is
    reserved, and the fee floor is never below the minimum. *)
Record state_inv (st : MempoolState) : Prop := {
  si_pool : pool_inv (ms_pool st);
  si_capacity : mp_capacity (ms_pool st) = mc_capacity config;
  si_inputs s h : mp_spent_inputs (ms_pool st) !! s = Some h → s ∈ ms_admitted_input_slots st;
  si_outputs s h : mp_minted_outputs (ms_pool st) !! s = Some h → s ∈ ms_admitted_output_slots st;
  si_floor : MIN_FEE_BASE ≤ ff_current (ms_floor st);
  si_bytes : total_intent_bytes (ms_pool st) ≤ mc_max_total_intent_bytes config;
}.

Lemma floor_record f fee : MIN_FEE_BASE ≤ ff_current (FeeFloor_record f fee).
Proof. unfold FeeFloor_record. cbn [ff_current]. unfold FeeFloor_compute. destruct (_ ++ _); lia. Qed.

Lemma bytes_remove p hash : total_intent_bytes (snd (Mempool_remove p hash)) ≤ total_intent_bytes p.
Proof.
  destruct (mp_entries p !! hash) as [e|] eqn:He.
  - pose proof (pool_sum_insert (λ e, Z.of_nat (length (me_intent_bytes e))) (snd (Mempool_remove p hash)) hash e p) as Hs.
    rewrite remove_entries in Hs. unfold total_intent_bytes. rewrite Hs; [lia|apply lookup_delete_eq|].
    by rewrite insert_delete_eq, insert_id.
  - by destruct (remove_cases p hash) as [[_ ->]|(e & He' & _)]; [|congruence].
Qed.

Lemma removals_bytes p hashes : total_intent_bytes (foldl (λ p h, snd (Mempool_remove p h)) p hashes) ≤ total_intent_bytes p.
Proof.
  revert p. induction hashes as [|h hashes IH]; intros p; [done|]. cbn [foldl]. etrans; [apply IH|]. apply bytes_remove.
Qed.

Lemma removals_capacity p hashes : mp_capacity (foldl (λ p h, snd (Mempool_remove p h)) p hashes) = mp_capacity p.
Proof. revert p. induction hashes as [|h hashes IH]; intros p; [done|]. cbn [foldl]. by rewrite IH, remove_capacity. Qed.

Lemma removals_lookup p hashes h e :
  mp_entries (foldl (λ p h, snd (Mempool_remove p h)) p hashes) !! h = Some e → mp_entries p !! h = Some e.
Proof. rewrite removals_entries, foldl_delete_lookup. by case_decide. Qed.

(** Removals keep the invariant, whatever is done with the view and the floor,
    if the reserved slots are kept or rebuilt. *)
Lemma removals_state_inv st hashes st' :
  state_inv st → ms_pool st' = foldl (λ p h, snd (Mempool_remove p h)) (ms_pool st) hashes →
  MIN_FEE_BASE ≤ ff_current (ms_floor st') →
  (reserved_slots st' = reserved_slots st ∨ slots_exact st') → state_inv st'.
Proof.
  intros [Hp Hc Hi Ho Hf Hb] Hpool Hf' Hs. assert (Hp' : pool_inv (ms_pool st')) by (rewrite Hpool; by apply removals_inv). split.
  - done.
  - by rewrite Hpool, removals_capacity.
  - intros s h (e & He & Hin)%(pi_spent _ Hp'). destruct Hs as [[= -> _]|[Hs _]]; [|apply Hs; eauto].
    apply (Hi s h), (pi_spent _ Hp). rewrite Hpool in He. apply removals_lookup in He. eauto.
  - intros s h (e & He & Hin)%(pi_minted _ Hp'). destruct Hs as [[= _ ->]|[_ Hs]]; [|apply Hs; eauto].
    apply (Ho s h), (pi_minted _ Hp). rewrite Hpool in He. apply removals_lookup in He. eauto.
  - done.
  - rewrite Hpool. etrans; [apply removals_bytes|done].
Qed.

Lemma reset_floor_inv st : MIN_FEE_BASE ≤ ff_current (ms_floor st) → MIN_FEE_BASE ≤ ff_current (ms_floor (reset_floor_if_empty st)).
Proof. unfold reset_floor_if_empty. by destruct (Mempool_is_empty _). Qed.

Lemma on_new_block_floor st confirmed height view :
  MIN_FEE_BASE ≤ ff_current (ms_floor st) → MIN_FEE_BASE ≤ ff_current (ms_floor (fst (on_new_block pool_iter st confirmed height view))).
Proof.
  intros Hf. unfold on_new_block. destruct (accepted_user_epoch_anchors _) as [accepted gen].
  match goal with |- context [evict_entries pool_iter ?s ?f EpochAnchorChanged] =>
    pose proof (evict_entries_frame pool_iter s f EpochAnchorChanged) as F1; destruct (evict_entries pool_iter s f EpochAnchorChanged) as [st2 ev1] end.
  match goal with |- context [evict_entries pool_iter ?s ?f OutputSlotOccupied] =>
    pose proof (evict_entries_frame pool_iter s f OutputSlotOccupied) as F2; destruct (evict_entries pool_iter s f OutputSlotOccupied) as [st3 ev2] end.
  match goal with |- context [evict_entries pool_iter ?s ?f InputConsumed] =>
    pose proof (evict_entries_frame pool_iter s f InputConsumed) as F3; destruct (evict_entries pool_iter s f InputConsumed) as [st4 ev3] end.
  match goal with |- context [evict_client_object_violations pool_iter ?s ?h] =>
    pose proof (evict_client_frame pool_iter s h) as F4; destruct (evict_client_object_violations pool_iter s h) as [st5 ev4] end.
  cbn [fst] in *. apply reset_floor_inv. cbn [rebuild_slot_sets with_slots ms_floor].
  destruct F1 as (_ & F1 & _), F2 as (_ & F2 & _), F3 as (_ & F3 & _), F4 as (_ & F4 & _). rewrite F4, F3, F2, F1. done.
Qed.

Lemma on_new_block_inv st confirmed height view : state_inv st → state_inv (fst (on_new_block pool_iter st confirmed height view)).
Proof.
  intros Hst. destruct (on_new_block_result pool_iter Hiter st confirmed height view) as (_ & Hs & _ & _ & hashes & Hp).
  apply (removals_state_inv st hashes); [done|done|apply on_new_block_floor, Hst|by right].
Qed.

Lemma evict_unminable_inv st height : state_inv st → state_inv (fst (evict_unminable_at pool_iter st height)).
Proof.
  intros Hst. unfold evict_unminable_at. destruct (evict_client_pool pool_iter st height) as [hashes Hp].
  destruct (evict_client_frame pool_iter st height) as (_ & Hf & _ & Hi & Ho).
  destruct (evict_client_object_violations pool_iter st height) as [st' events]. cbn [fst] in *. destruct (0 <? _)%nat; cbn [fst].
  - destruct (reset_floor_frame (rebuild_slot_sets pool_iter st')) as (R1 & _ & R3 & _).
    apply (removals_state_inv st hashes); [done|by rewrite R1|apply reset_floor_inv; cbn; rewrite Hf; apply Hst|right].
    unfold slots_exact. rewrite R3, R1. by apply rebuilt_slots.
  - apply (removals_state_inv st hashes); [done|done|rewrite Hf; apply Hst|left]. unfold reserved_slots. by rewrite Hi, Ho.
Qed.

Lemma update_chain_view_inv st view : state_inv st → state_inv (fst (update_chain_view pool_iter st view)).
Proof. intros Hst. apply evict_unminable_inv. by destruct Hst. Qed.

Lemma readmit_fold st hashes :
  ∃ removed, foldl (λ st hash, if Mempool_contains (ms_pool st) hash then with_pool st (snd (Mempool_remove (ms_pool st) hash)) else st) st hashes
    = with_pool st (foldl (λ p h, snd (Mempool_remove p h)) (ms_pool st) removed).
Proof.
  revert st. induction hashes as [|h hashes IH]; intros st; [exists []; by destruct st|]. cbn [foldl].
  destruct (Mempool_contains (ms_pool st) h).
  - destruct (IH (with_pool st (snd (Mempool_remove (ms_pool st) h)))) as [removed ->]. by exists (h :: removed).
  - apply IH.
Qed.

Lemma readmit_inv st hashes : state_inv st → state_inv (readmit_after_reorg st hashes).
Proof.
  intros Hst. unfold readmit_after_reorg. destruct hashes as [|h hashes]; [done|].
  destruct (readmit_fold st (h :: hashes)) as [removed ->].
  destruct (reset_floor_frame (with_pool st (foldl (λ p h, snd (Mempool_remove p h)) (ms_pool st) removed))) as (R1 & _ & R3 & _).
  apply (removals_state_inv st removed); [done|by rewrite R1|apply reset_floor_inv, Hst|left]. by rewrite R3.
Qed.


(** *** Submission *)

Lemma elem_of_foldl_union {A} (f : A → Z) (X : gset Z) l s : s ∈ foldl (λ X x, {[f x]} ∪ X) X l ↔ s ∈ f <$> l ∨ s ∈ X.
Proof.
  revert X. induction l as [|x l IH]; intros X; cbn [foldl fmap list_fmap]; [set_solver|]. rewrite IH. set_solver.
Qed.

Lemma locked_checks_inv st intent bytes spend :
  submit_locked_checks config st intent bytes spend = Ok tt →
  mp_entries (ms_pool st) !! ps_logical_txid spend = None
  ∧ total_intent_bytes (ms_pool st) + Z.of_nat (length bytes) ≤ mc_max_total_intent_bytes config
  ∧ ∃ h, run_admission_checks (pi_pages intent) spend st = Ok h.
Proof.
  unfold submit_locked_checks. cbv zeta. intros H. apply if_err_Ok in H as [Hc H]. apply if_err_Ok in H as [Hb%Z.ltb_ge H].
  apply bind_Ok in H as (h & Hr & _). unfold Mempool_contains in Hc. apply bool_decide_eq_false, eq_None_not_Some in Hc.
  split_and!; [done| |by exists h]. unfold saturating_add in Hb. lia.
Qed.

(** The state after an admission. *)
Definition admitted (st : MempoolState) (bytes : list Z) (e : MempoolEntry) : MempoolState :=
  let hash := ps_logical_txid (me_spend e) in
  mkMempoolState (set_intent_bytes (inserted (ms_pool st) hash e) hash bytes) (ms_view st)
    (FeeFloor_record (ms_floor st) (ps_fee (me_spend e)))
    (foldl (λ s inp, {[ti_slot_index inp]} ∪ s) (ms_admitted_input_slots st) (group_inputs (me_pages e)))
    (foldl (λ s out, {[to_slot_index out]} ∪ s) (ms_admitted_output_slots st) (group_outputs (me_pages e))) (ms_client_rules st).

Lemma admitted_entries st bytes e :
  mp_entries (ms_pool (admitted st bytes e))
  = <[ps_logical_txid (me_spend e) := with_intent_bytes bytes e]> (mp_entries (ms_pool st)).
Proof.
  cbn [admitted ms_pool set_intent_bytes inserted mp_entries]. apply map_eq. intros h.
  destruct (decide (h = ps_logical_txid (me_spend e))) as [->|Hne].
  - by rewrite lookup_alter_eq, !lookup_insert_eq.
  - by rewrite lookup_alter_ne, !lookup_insert_ne.
Qed.

Lemma submit_admit_inv st intent bytes spend r :
  state_inv st → validate_paged_spend (pi_pages intent) = Ok spend → submit_admit config st intent bytes spend = Ok r →
  let e := mkMempoolEntry (pi_pages intent) spend (cv_tip_height (ms_view st)) (compute_fee_rate spend) 0 [] in
  let hash := ps_logical_txid spend in
  r = (hash, admitted st bytes e, [TxAdmitted hash (ps_fee spend) bytes; TxAuthorizationVerified hash])
  ∧ Mempool_len (ms_pool st) < mp_capacity (ms_pool st) ∧ fresh_slots (ms_pool st) e.
Proof.
  intros Hst Hv H e hash. unfold submit_admit in H. cbv zeta in H.
  assert (He : MempoolEntry_new (pi_pages intent) (cv_tip_height (ms_view st)) = Ok e) by (unfold MempoolEntry_new; by rewrite Hv).
  pose proof (admit_outcome _ _ _ _ (si_pool _ Hst) He) as Ho.
  destruct (Mempool_admit (ms_pool st) (pi_pages intent) (cv_tip_height (ms_view st))) as [pool|[|[]]]; [|done..].
  destruct Ho as (Hl & Hn & Hd & ->). apply fresh_slots_disjoint in Hd; [|apply Hst]. split; [|done].
  unfold Mempool_get, inserted in H. cbn [mp_entries] in H. change (ps_logical_txid (me_spend e)) with (ps_logical_txid spend) in H.
  rewrite lookup_insert_eq in H. cbn [expect ok_or mbind result_bind] in H. by injection H as <-.
Qed.

Lemma admitted_inv st bytes e :
  state_inv st → entry_ok (ps_logical_txid (me_spend e)) e → mp_entries (ms_pool st) !! ps_logical_txid (me_spend e) = None →
  Mempool_len (ms_pool st) < mp_capacity (ms_pool st) → fresh_slots (ms_pool st) e → me_intent_bytes e = [] →
  total_intent_bytes (ms_pool st) + Z.of_nat (length bytes) ≤ mc_max_total_intent_bytes config → state_inv (admitted st bytes e).
Proof.
  intros [Hp Hc Hi Ho Hf Hb] He Hn Hl Hfr Hempty Hbytes. set (hash := ps_logical_txid (me_spend e)) in *.
  pose proof (pool_inv_inserted _ _ _ Hp He Hn Hl Hfr) as Hins. split.
  - by apply pool_inv_set_intent_bytes.
  - done.
  - intros s h. cbn [admitted ms_pool set_intent_bytes inserted mp_spent_inputs ms_admitted_input_slots].
    rewrite lookup_foldl_insert, elem_of_foldl_union. case_decide; [by left|]. intros Hs. right. by eapply Hi.
  - intros s h. cbn [admitted ms_pool set_intent_bytes inserted mp_minted_outputs ms_admitted_output_slots].
    rewrite lookup_foldl_insert, elem_of_foldl_union. case_decide; [by left|]. intros Hs. right. by eapply Ho.
  - apply floor_record.
  - unfold total_intent_bytes. rewrite (pool_sum_insert _ (ms_pool st) hash (with_intent_bytes bytes e) (ms_pool (admitted st bytes e)));
      [|done|apply admitted_entries]. unfold total_intent_bytes in Hbytes. cbn [with_intent_bytes me_intent_bytes]. lia.
Qed.

(** What a successful submission did. *)
Lemma submit_Ok verify before after intent bytes hash st' events :
  state_inv after → Forall page_wf (pi_pages intent) →
  submit verify config before after intent bytes = Ok (hash, st', events) →
  ∃ spend, let e := with_intent_bytes bytes
    (mkMempoolEntry (pi_pages intent) spend (cv_tip_height (ms_view after)) (compute_fee_rate spend) 0 []) in
  validate_paged_spend (pi_pages intent) = Ok spend ∧ hash = ps_logical_txid spend
  ∧ verify (pi_pages intent) (pi_authorization_bytes intent) = true ∧ cached_authorization e = Some (pi_authorization_bytes intent)
  ∧ mp_entries (ms_pool after) !! hash = None ∧ mp_entries (ms_pool st') = <[hash := e]> (mp_entries (ms_pool after))
  ∧ required_fee after spend ≤ ps_fee spend ∧ minable (ms_view after) (ms_client_rules after) e ∧ state_inv st'.
Proof.
  intros Hst Hw H. unfold submit in H. apply bind_Ok in H as (spend & Hpre & H). unfold submit_prefilter in Hpre.
  apply bind_Ok in Hpre as (spend' & Hsl & Hpre). apply bind_Ok in Hpre as (? & _ & [= ->]).
  unfold submit_stateless in Hsl. cbv zeta in Hsl. apply if_err_Ok in Hsl as [_ Hsl]. apply if_err_Ok in Hsl as [Hm%negb_false_iff Hsl].
  apply bind_Ok in Hsl as (spend' & Hv%map_err_Ok & Hsl). apply if_err_Ok in Hsl as [Hne Hsl]. apply if_err_Ok in Hsl as [_ [= ->]].
  apply Z.eqb_neq in Hne. assert (Hne' : pi_authorization_bytes intent ≠ []) by (intros Hn; by rewrite Hn in Hne).
  unfold submit_final in H. apply if_err_Ok in H as [Hver%negb_false_iff H]. apply bind_Ok in H as ([] & Hlc & H).
  apply locked_checks_inv in Hlc as (Hn & Hb & h & Hr). pose proof (submit_admit_inv _ _ _ _ _ Hst Hv H) as ([= -> -> ->] & Hl & Hf).
  exists spend. set (e0 := mkMempoolEntry _ _ _ _ _ _) in *. cbv zeta.
  destruct (run_admission_checks_inv _ _ _ _ (with_intent_bytes bytes e0) Hr eq_refl eq_refl) as (Hfee & Hmin & _).
  split_and!; [done|done|done|by apply cached_authorization_retained|done|apply admitted_entries|done|done|].
  by apply admitted_inv.
Qed.

(** *** Reachable states *)

(** The states of a pool, through any interleaving of its operations; [before] is
    whatever state the first half of a submission saw. *)
Inductive pool_state : MempoolState → Prop :=
  | ps_new view : pool_state (MempoolState_new view config)
  | ps_submit verify before after intent bytes hash st' events :
      pool_state after → Forall page_wf (pi_pages intent) →
      submit verify config before after intent bytes = Ok (hash, st', events) → pool_state st'
  | ps_block st confirmed height view :
      pool_state st → pool_state (fst (on_new_block pool_iter st confirmed height view))
  | ps_reorg st hashes : pool_state st → pool_state (readmit_after_reorg st hashes)
  | ps_view st view : pool_state st → pool_state (fst (update_chain_view pool_iter st view))
  | ps_evict st height : pool_state st → pool_state (fst (evict_unminable_at pool_iter st height)).

Lemma pool_state_state_inv st : pool_state st → state_inv st.
Proof.
  induction 1 as [view|verify before after intent bytes hash st' events _ IH Hw Hs| | | |].
  - split; cbn [MempoolState_new ms_pool ms_floor ms_admitted_input_slots ms_admitted_output_slots]; [apply pool_inv_new|done..|].
    unfold total_intent_bytes, pool_values, Mempool_new. cbn [mp_entries]. rewrite map_to_list_empty. cbn [fmap list_fmap].
    change (sum_Z []) with 0. lia.
  - by destruct (submit_Ok verify before after intent bytes hash st' events IH Hw Hs) as (spend & _ & _ & _ & _ & _ & _ & _ & _ & ?).
  - by apply on_new_block_inv.
  - by apply readmit_inv.
  - by apply update_chain_view_inv.
  - by apply evict_unminable_inv.
Qed.

(** *** Reservations *)

(** What the pool may do without rebuilding its reservations: submissions,
    notices of a reorganisation, and view changes and evictions that evict
    nothing. *)
Inductive unrebuilt (st : MempoolState) : MempoolState → Prop :=
  | un_here : unrebuilt st st
  | un_submit verify before after intent bytes hash st' events :
      unrebuilt st after → submit verify config before after intent bytes = Ok (hash, st', events) → unrebuilt st st'
  | un_reorg st1 hashes : unrebuilt st st1 → unrebuilt st (readmit_after_reorg st1 hashes)
  | un_view st1 view st' : unrebuilt st st1 → update_chain_view pool_iter st1 view = (st', []) → unrebuilt st st'
  | un_evict st1 height st' : unrebuilt st st1 → evict_unminable_at pool_iter st1 height = (st', []) → unrebuilt st st'.

Lemma submit_reserves verify before after intent bytes hash st' events :
  submit verify config before after intent bytes = Ok (hash, st', events) →
  ms_admitted_input_slots after ⊆ ms_admitted_input_slots st'.
Proof.
  intros H. unfold submit in H. apply bind_Ok in H as (spend & _ & H). unfold submit_final in H. apply if_err_Ok in H as [_ H].
  apply bind_Ok in H as (? & _ & H). unfold submit_admit in H. cbv zeta in H.
  destruct (Mempool_admit _ _ _) as [pool|[|[]]]; [|done..]. apply bind_Ok in H as (entry & _ & [= _ <- _]).
  cbn [with_floor with_pool with_slots ms_admitted_input_slots]. intros s Hs. apply elem_of_foldl_union. by right.
Qed.

Lemma readmit_slots st hashes : reserved_slots (readmit_after_reorg st hashes) = reserved_slots st.
Proof.
  unfold readmit_after_reorg. destruct hashes as [|h hashes]; [done|]. destruct (readmit_fold st (h :: hashes)) as [removed ->].
  by destruct (reset_floor_frame (with_pool st (foldl (λ p h, snd (Mempool_remove p h)) (ms_pool st) removed))) as (_ & _ & -> & _).
Qed.

Lemma evict_nothing_slots st height st' :
  evict_unminable_at pool_iter st height = (st', []) → reserved_slots st' = reserved_slots st.
Proof.
  unfold evict_unminable_at. destruct (evict_client_frame pool_iter st height) as (_ & _ & _ & Hi & Ho).
  destruct (evict_client_object_violations pool_iter st height) as [st1 [|ev events]]; cbn; [|by intros [=]].
  intros [= <-]. cbn [fst] in Hi, Ho. unfold reserved_slots. by rewrite Hi, Ho.
Qed.

Lemma unrebuilt_slots st st' : unrebuilt st st' → fst (reserved_slots st) ⊆ fst (reserved_slots st').
Proof.
  induction 1 as [|verify before after intent bytes hash st' events _ IH Hs|st1 hashes _ IH|st1 view st' _ IH Hv|st1 height st' _ IH He]; [done|..].
  - etrans; [exact IH|]. by apply (submit_reserves verify before after intent bytes hash st' events).
  - by rewrite readmit_slots.
  - unfold update_chain_view in Hv. apply evict_nothing_slots in Hv. by rewrite Hv.
  - apply evict_nothing_slots in He. by rewrite He.
Qed.

Lemma readmit_removed st hashes hash :
  hash ∈ hashes → mp_entries (ms_pool (readmit_after_reorg st hashes)) !! hash = None.
Proof.
  intros Hin. unfold readmit_after_reorg. destruct hashes as [|h0 l]; [set_solver|].
  match goal with |- mp_entries (ms_pool (reset_floor_if_empty ?x)) !! _ = _ => destruct (reset_floor_frame x) as (-> & _) end.
  revert Hin. generalize (h0 :: l) as hashes. clear h0 l. intros hashes Hin.
  assert (Hkeep : ∀ st hs, mp_entries (ms_pool st) !! hash = None → mp_entries (ms_pool (foldl (λ st hash, if Mempool_contains (ms_pool st) hash
    then with_pool st (snd (Mempool_remove (ms_pool st) hash)) else st) st hs)) !! hash = None).
  { intros st0 hs Hn. destruct (readmit_fold st0 hs) as [removed ->]. cbn [with_pool ms_pool].
    rewrite removals_entries, foldl_delete_lookup. by case_decide. }
  revert st. induction hashes as [|h hashes IH]; intros st; [set_solver|]. cbn [foldl]. apply elem_of_cons in Hin as [<-|Hin]; [|by apply IH].
  apply Hkeep. unfold Mempool_contains. case_bool_decide as Hc; [|by apply eq_None_not_Some].
  cbn [with_pool ms_pool]. rewrite remove_entries. apply lookup_delete_eq.
Qed.

(** A group one of whose inputs is reserved is refused. *)
Lemma reserved_refused st inp pages :
  inp ∈ group_inputs pages → ti_slot_index inp ∈ ms_admitted_input_slots st →
  check_slot_conflicts_with_pool pages (fst (reserved_slots st)) (snd (reserved_slots st)) = Err (SU_Consensus CE_SlotConflict)
  ∧ ∀ verify before intent bytes r, pi_pages intent = pages → submit verify config before st intent bytes ≠ Ok r.
Proof.
  intros Hin Hres. split.
  - apply conflicts_only_error. intros [Hc _]%check_slot_conflicts_Ok. exact (Hc inp Hin Hres).
  - intros verify before intent bytes r Hpages H. unfold submit in H. apply bind_Ok in H as (spend & _ & H). unfold submit_final in H.
    apply if_err_Ok in H as [_ H]. apply bind_Ok in H as ([] & Hlc & _). apply locked_checks_inv in Hlc as (_ & _ & h & Hr).
    pose proof (run_admission_checks_inv (pi_pages intent) spend _ h (mkMempoolEntry (pi_pages intent) spend 0 0 0 []) Hr eq_refl eq_refl)
      as (_ & _ & Hc & _). rewrite Hpages in Hc. exact (Hc inp Hin Hres).
Qed.

End state.

(** ** Properties *)

(** C17: whatever the interleaving of submissions (each with a verification
    between its two locks), new blocks, reorganisations, view changes and
    evictions, the pool stays consistent and within its capacity and byte limits,
    the slots of every pending group are reserved, and the fee floor is never
    below the minimum fee. *)
Theorem pool_state_invariant {P : Poseidon2bPermutation} (pool_iter : Mempool → list (list Z * MempoolEntry)) config st
    (Hiter : ∀ p, pool_iter p ≡ₚ map_to_list (mp_entries p))
    (Hconfig : 0 ≤ mc_max_total_intent_bytes config < uint_max 64)
    (Hst : pool_state pool_iter config st) :
  pool_inv (ms_pool st)
  ∧ Mempool_len (ms_pool st) ≤ Z.max 0 (mc_capacity config)
  ∧ total_intent_bytes (ms_pool st) ≤ mc_max_total_intent_bytes config
  ∧ (∀ h e s, mp_entries (ms_pool st) !! h = Some e →
       (s ∈ entry_inputs e → s ∈ fst (reserved_slots st)) ∧ (s ∈ entry_outputs e → s ∈ snd (reserved_slots st)))
  ∧ MIN_FEE_BASE ≤ ff_current (ms_floor st).
Proof.
  destruct (pool_state_state_inv pool_iter Hiter config Hconfig st Hst) as [Hp Hc Hi Ho Hf Hb].
  split_and!; [done|rewrite <- Hc; apply Hp|done| |done].
  intros h e s He. split; intros Hs; [apply (Hi s h), Hp|apply (Ho s h), Hp]; eauto.
Qed.

(** C16: a new block leaves exactly the pending groups that were not confirmed
    and that the next block may carry: with an accepted anchor, every input
    holding the amount, creation identifier and owner it spends, every output slot
    empty, and nothing the client-object rule refuses. The reserved slots are
    then exactly those of the pending groups, and one event is sent per confirmed
    transaction and per eviction, so at most as many as the transactions of a
    block and the entries of a pool. *)
Theorem new_block_exact {P : Poseidon2bPermutation} (pool_iter : Mempool → list (list Z * MempoolEntry)) config st confirmed height view
    (Hiter : ∀ p, pool_iter p ≡ₚ map_to_list (mp_entries p))
    (Hconfig : 0 ≤ mc_max_total_intent_bytes config < uint_max 64)
    (Hst : pool_state pool_iter config st) :
  let st' := fst (on_new_block pool_iter st confirmed height view) in
  let events := snd (on_new_block pool_iter st confirmed height view) in
  (∀ h e, mp_entries (ms_pool st') !! h = Some e ↔
     mp_entries (ms_pool st) !! h = Some e ∧ h ∉ confirmed ∧ minable view (ms_client_rules st) e)
  ∧ slots_exact st'
  ∧ (0 ≤ mc_capacity config ≤ MAX_MEMPOOL_TXS → Z.of_nat (length confirmed) ≤ BLOCK_MAX_TXS →
     Z.of_nat (length events) ≤ EVENT_CHANNEL_CAPACITY).
Proof.
  destruct (on_new_block_result pool_iter Hiter st confirmed height view) as (He & Hs & _ & Hsize & _). cbv zeta in *.
  split_and!; [done|done|]. intros Hcap Hconf.
  destruct (pool_state_state_inv pool_iter Hiter config Hconfig st Hst) as [Hp Hc _ _ _ _].
  pose proof (removals_inv (ms_pool st) confirmed Hp) as Hp'. rewrite <- on_block_confirmed_pool in Hp'.
  pose proof (pi_capacity _ Hp') as Hl. rewrite on_block_confirmed_pool, removals_capacity, Hc, <- on_block_confirmed_pool in Hl.
  unfold Mempool_len in Hl. change EVENT_CHANNEL_CAPACITY with 1280. change BLOCK_MAX_TXS with 256 in Hconf. change MAX_MEMPOOL_TXS with 1024 in Hcap.
  lia.
Qed.


(** C15: a submission succeeds only for a group whose authorization was verified
    and which the next block may carry: valid, new to the pool, paying at least
    the required fee, with an accepted anchor, inputs that are live as spent and
    output slots that are empty, all judged in the state at the moment of
    admission, whatever the state was when the verification started. The pool
    then holds exactly that group more, and serves the very authorization that
    was verified. *)
Theorem submission_sound {P : Poseidon2bPermutation} (pool_iter : Mempool → list (list Z * MempoolEntry)) config verify before after
    intent bytes hash st' events
    (Hiter : ∀ p, pool_iter p ≡ₚ map_to_list (mp_entries p))
    (Hconfig : 0 ≤ mc_max_total_intent_bytes config < uint_max 64)
    (Hst : pool_state pool_iter config after) (Hwf : Forall page_wf (pi_pages intent))
    (Hsubmit : submit verify config before after intent bytes = Ok (hash, st', events)) :
  ∃ spend e,
    validate_paged_spend (pi_pages intent) = Ok spend ∧ hash = ps_logical_txid spend
    ∧ verify (pi_pages intent) (pi_authorization_bytes intent) = true
    ∧ mp_entries (ms_pool after) !! hash = None ∧ mp_entries (ms_pool st') = <[hash := e]> (mp_entries (ms_pool after))
    ∧ me_pages e = pi_pages intent ∧ me_spend e = spend ∧ me_intent_bytes e = bytes
    ∧ cached_authorization e = Some (pi_authorization_bytes intent)
    ∧ required_fee after spend ≤ ps_fee spend
    ∧ minable (ms_view after) (ms_client_rules after) e.
Proof.
  pose proof (pool_state_state_inv pool_iter Hiter config Hconfig after Hst) as Hinv.
  destruct (submit_Ok pool_iter Hiter config Hconfig verify before after intent bytes hash st' events Hinv Hwf Hsubmit)
    as (spend & Hv & Hh & Hver & Hc & Hn & He & Hf & Hm & _).
  eexists spend, _. split_and!; [exact Hv|exact Hh|exact Hver|exact Hn|exact He|reflexivity|reflexivity|reflexivity|exact Hc|exact Hf|exact Hm].
Qed.

(** C40: a notice of a reorganisation removes from the pool every reclaimed
    transaction that is pending but leaves its slots reserved. As long as the
    reservations are not rebuilt (through any further submissions and notices of
    reorganisations, and view changes and evictions that evict nothing) a removed
    transaction cannot be submitted again: its slots conflict with its own removed
    copy. A new block rebuilds the reservations from the pending groups. *)
Theorem reorg_keeps_reservations {P : Poseidon2bPermutation} (pool_iter : Mempool → list (list Z * MempoolEntry)) config st hashes hash e
    (Hiter : ∀ p, pool_iter p ≡ₚ map_to_list (mp_entries p))
    (Hconfig : 0 ≤ mc_max_total_intent_bytes config < uint_max 64)
    (Hst : pool_state pool_iter config st) (He : mp_entries (ms_pool st) !! hash = Some e) (Hin : hash ∈ hashes) :
  mp_entries (ms_pool (readmit_after_reorg st hashes)) !! hash = None
  ∧ ∀ st', unrebuilt pool_iter config (readmit_after_reorg st hashes) st' →
    check_slot_conflicts_with_pool (me_pages e) (fst (reserved_slots st')) (snd (reserved_slots st'))
      = Err (SU_Consensus CE_SlotConflict)
    ∧ (∀ verify before intent bytes r, pi_pages intent = me_pages e → submit verify config before st' intent bytes ≠ Ok r)
    ∧ ∀ confirmed height view, slots_exact (fst (on_new_block pool_iter st' confirmed height view)).
Proof.
  pose proof (pool_state_state_inv pool_iter Hiter config Hconfig st Hst) as Hinv.
  pose proof (si_pool _ _ Hinv) as Hp. pose proof (pi_entries _ Hp hash e He) as Hok.
  split; [by apply (readmit_removed pool_iter Hiter config Hconfig)|]. intros st' Hrun. pose proof (unrebuilt_slots pool_iter Hiter config Hconfig _ _ Hrun) as Hsub. rewrite readmit_slots in Hsub.
  assert (∃ inp, inp ∈ group_inputs (me_pages e) ∧ ti_slot_index inp ∈ ms_admitted_input_slots st) as (inp & H1 & H2).
  { destruct Hok as [Hw Hv _ _]. apply validate_paged_spend_valid in Hv as (first & Hg & _); [|done]. pose proof (vg_inputs _ _ Hg) as Hi.
    destruct (group_inputs (me_pages e)) as [|inp rest] eqn:Eg; [cbn in Hi; lia|]. exists inp. split; [left|].
    apply (si_inputs _ _ Hinv _ hash), (pi_spent _ Hp). exists e. split; [done|]. unfold entry_inputs. rewrite Eg. left. }
  destruct (reserved_refused config Hconfig st' inp (me_pages e) H1 (Hsub _ H2)) as [Hc Hs]. split_and!; [exact Hc|exact Hs|].
  intros confirmed height view. by destruct (on_new_block_result pool_iter Hiter st' confirmed height view) as (_ & ? & _).
Qed.

(** ** Examples *)

(** One live slot, at index 5. *)
Definition example_slots : option SegmentedFriState :=
  cs ← with_log_slots (P := narrow_permutation) (C := example_commitment) 6;
  result_ok (apply_delta_unrooted (cs_state cs) [(5, with_owner_fields 1000000 1 (as_fields (replicate 32 6)))]).

Definition example_view (slots : SegmentedFriState) : ChainView :=
  mkChainView 100 ∅ 64 1 (replicate 32 3) (replicate 32 3) (replicate 32 4) slots None.

Definition example_intent : PagedSpendIntent :=
  mkPagedSpendIntent
    [mkTxPage (mkTxBody (replicate 32 3) 900000 (replicate 32 6) (mkTxInput 5 1000000 1 :: replicate 7 TxInput_dummy)
       [mkTxOutput 9 100000 (replicate 32 8); TxOutput_dummy] 0xD01 false)] [1; 2; 3].

Definition example_intent_bytes : list Z :=
  default [] (result_ok (PagedSpendIntent_encode (P := narrow_permutation) example_intent)).

Definition example_iter (p : Mempool) : list (list Z * MempoolEntry) := map_to_list (mp_entries p).

Definition example_verify (pages : list TxPage) (authorization : list Z) : bool := bool_decide (authorization = [1; 2; 3]).

Definition example_submit (slots : SegmentedFriState) : result (fault SubmitError) (list Z * MempoolState * list MempoolEvent) :=
  let st := MempoolState_new (example_view slots) MempoolConfig_default in
  submit (P := narrow_permutation) example_verify MempoolConfig_default st st example_intent example_intent_bytes.

(** Whether a submission left its group in the pool. *)
Definition left_pending (r : result (fault SubmitError) (list Z * MempoolState * list MempoolEvent)) : bool :=
  match r with
  | Ok (hash, st, _) => Mempool_contains (ms_pool st) hash
  | Err _ => false
  end.

Lemma left_pending_inv r :
  left_pending r = true → ∃ hash st events, r = Ok (hash, st, events) ∧ is_Some (mp_entries (ms_pool st) !! hash).
Proof. destruct r as [[[hash st] events]|]; [|done]. intros H%bool_decide_eq_true. by exists hash, st, events. Qed.

Definition pending_at (slots : option SegmentedFriState) : bool :=
  match slots with
  | Some slots => left_pending (example_submit slots)
  | None => false
  end.

Lemma pending_at_inv slots : pending_at slots = true → ∃ slots, left_pending (example_submit slots) = true.
Proof. destruct slots as [slots|]; [|done]. by exists slots. Qed.

Lemma example_admitted :
  ∃ slots hash st events, example_submit slots = Ok (hash, st, events)
    ∧ pool_state (P := narrow_permutation) example_iter MempoolConfig_default st
    ∧ is_Some (mp_entries (ms_pool st) !! hash).
Proof.
  destruct (pending_at_inv example_slots) as [slots Hs]; [vm_compute; reflexivity|].
  apply left_pending_inv in Hs as (hash & st & events & Hs & Hin). exists slots, hash, st, events. split; [exact Hs|]. split; [|exact Hin].
  eapply ps_submit; [apply ps_new|apply (bool_decide_unpack (Forall page_wf (pi_pages example_intent))); vm_compute; exact I|exact Hs].
Qed.

Lemma example_config : 0 ≤ mc_max_total_intent_bytes MempoolConfig_default < uint_max 64.
Proof. split; [discriminate|reflexivity]. Qed.

Lemma pool_state_invariant_witness :
  ∃ st, pool_inv (P := narrow_permutation) (ms_pool st) ∧ MIN_FEE_BASE ≤ ff_current (ms_floor st)
    ∧ total_intent_bytes (ms_pool st) ≤ MAX_MEMPOOL_BYTES.
Proof.
  destruct example_admitted as (slots & hash & st & events & _ & Hst & _). exists st.
  destruct (pool_state_invariant (P := narrow_permutation) example_iter MempoolConfig_default st (λ p, reflexivity _) example_config Hst)
    as (Hp & _ & Hb & _ & Hf).
  split; [exact Hp|]. split; [exact Hf|exact Hb].
Defined.

Lemma new_block_exact_witness :
  ∃ st view, slots_exact (fst (on_new_block example_iter st [] 101 view))
    ∧ Z.of_nat (length (snd (on_new_block example_iter st [] 101 view))) ≤ EVENT_CHANNEL_CAPACITY.
Proof.
  destruct example_admitted as (slots & hash & st & events & _ & Hst & _). exists st, (example_view slots).
  destruct (new_block_exact (P := narrow_permutation) example_iter MempoolConfig_default st [] 101 (example_view slots)
    (λ p, reflexivity _) example_config Hst) as (_ & Hs & He).
  split; [exact Hs|]. apply He; [split; discriminate|discriminate].
Defined.

Lemma submission_sound_witness :
  ∃ slots hash st events e, example_submit slots = Ok (hash, st, events) ∧ mp_entries (ms_pool st) = <[hash := e]> ∅
    ∧ cached_authorization e = Some [1; 2; 3] ∧ minable (example_view slots) CONSENSUS e.
Proof.
  destruct example_admitted as (slots & hash & st & events & Hs & _ & _). exists slots, hash, st, events.
  destruct (submission_sound (P := narrow_permutation) example_iter MempoolConfig_default example_verify
    (MempoolState_new (example_view slots) MempoolConfig_default) (MempoolState_new (example_view slots) MempoolConfig_default)
    example_intent example_intent_bytes hash st events (λ p, reflexivity _) example_config (ps_new _ _ _)
    (bool_decide_unpack (Forall page_wf (pi_pages example_intent)) ltac:(vm_compute; exact I)) Hs)
    as (spend & e & _ & _ & _ & _ & He & _ & _ & _ & Hc & _ & Hm).
  exists e. split; [exact Hs|]. split; [exact He|]. split; [exact Hc|exact Hm].
Defined.

Lemma reorg_keeps_reservations_witness :
  ∃ st hash e, let st' := readmit_after_reorg (readmit_after_reorg st [replicate 32 1; hash]) [hash] in
    mp_entries (ms_pool st) !! hash = Some e
    ∧ mp_entries (ms_pool (readmit_after_reorg st [replicate 32 1; hash])) !! hash = None
    ∧ check_slot_conflicts_with_pool (me_pages e) (fst (reserved_slots st')) (snd (reserved_slots st')) = Err (SU_Consensus CE_SlotConflict).
Proof.
  destruct example_admitted as (slots & hash & st & events & _ & Hst & [e He]). exists st, hash, e. cbv zeta.
  destruct (reorg_keeps_reservations (P := narrow_permutation) example_iter MempoolConfig_default st [replicate 32 1; hash] hash e
    (λ p, reflexivity _) example_config Hst He ltac:(set_solver)) as (Hn & Hall).
  destruct (Hall _ (un_reorg _ _ _ _ [hash] (un_here _ _ _))) as [Hc _].
  split; [exact He|]. split; [exact Hn|exact Hc].
Defined.
